(* ===== verification/_CoqProject ===== *)
-Q . S2P
Prelude.v
JsValue.v
Subjects.v
Filters.v
Rules.v
Handlers.v
Errors.v
Correlation.v
Remote.v
Dispatch.v
Events.v
TransportRegistry.v
Ingress.v
Once.v
MessagePort.v
TopoSort.v
OutputBuffer.v
PtyRuntime.v
Turns.v
TurnManager.v
Json.v
Attempts.v
AttemptStore.v
Ownership.v
OwnershipEffects.v
OwnershipSafety.v
Workflow.v
RuntimeContext.v
GateNode.v
NodeRuntime.v
NodeFacts.v
NodeInduction.v
NodeSafety.v
NodeResults.v
NodeReplay.v
NodeRuns.v
JsonTree.v
Objects.v
KindPaths.v
JsonSchema.v
KindSchemas.v
KindValidation.v
KindTermination.v
ArtifactParts.v
ArtifactPatch.v
ArtifactEdits.v
PatchMemory.v
PatchRefinement.v
PatchOperators.v
PatchCorrect.v
PatchIsolation.v
PatchArtifact.v
PatchRuns.v
NameSegments.v
ExtensionSelection.v
ExtensionEntries.v
ExtensionToggle.v
ExtensionCoordinator.v
ExtensionLogic.v
ExtensionSteps.v
ExtensionSafety.v
ExtensionMachine.v
ExtensionCorrect.v
