(* ===== verification/Prelude.v ===== *)
(** * The message bus, sessions and execution attempts of the framework

    This library models the parts of the repository that decide things: which
    handler sees a message, which peer is told what, in which order extensions
    load, when a turn of a conversation is over, who owns a session, which
    execution attempt may start, and what a terminal client sees after it
    reconnects.  Definitions keep the names of the code and are executable;
    file names below are under [src/].

    ** The bus ([core/bus-core/src])

    A subject is [namespace.name]; handlers subscribe to patterns, with a
    priority and an optional payload filter.
    - [Subjects], [JsValue], [Filters]: patterns ([utils/subscription-matching.ts]),
      property paths and payload filters ([utils/payload-filter.ts]), the
      delivery test of a client.  The matchers decide the documented relations.
    - [Handlers]: the registries of [methods/on.ts], sorted insertion, merging.
      What a lookup yields is the stable priority sort of the matching entries.
    - [Errors]: error classes and the wire codec of [utils/transport.ts], which
      loses nothing it claims to carry.
    - [Correlation]: [utils/correlation-tracker.ts].  The table of requests a
      transport awaits, with promises, timers and abort signals.  Each input
      settles exactly the requests it names; as long as no id in use is sent again,
      every unsettled request keeps a timer that can reject it.
    - [Remote]: what peers subscribe to and what each is told
      ([registries/remote-subscriptions.ts], [registries/advertised-state.ts]).
    - [Dispatch]: [methods/request.ts], [methods/request/dispatch.ts].  Local
      handlers and remote routes are merged by priority and tried in order under
      a deadline and an abort signal; handlers are programs over the request
      context, [next] runs the rest of the chain.  Order, cursors handed to
      peers, deadlines, error classes.
    - [Events]: [methods/emit.ts], [methods/intercept.ts], transport selection,
      the any-handler cache.  One theorem gives an emit in full.
    - [TransportRegistry]: the lifecycle of [registries/transport-registry.ts].
      Registering, replacing and unregistering transports, their ready promises
      and callbacks, initial syncs, over [Remote]: in every reachable state the
      bus listens to, waits for and routes to registered transports only.
    - [Ingress]: the receiving half of the same file and [methods/broadcast.ts].
      What an inbound event, request or broadcast does, in full, on top of
      [Dispatch] and [Events]: what is refused, what is relayed and where, how
      it is answered.
    - [Once]: [methods/once.ts], the promise version as a state machine, the
      callback version through re-entrant emits.
    - [MessagePort]: [transports/message-channel].  A transport on top of
      [Correlation]: no message is lost before the bus listens, and the peer,
      which applies [Remote], knows exactly the local subscriptions.

    ** Extensions ([packages/kernel/src/extension])

    The coordinator loads packages once, starts them in an order in which what a
    package requires comes first, enables and disables them while it runs, and
    shuts them down in reverse.  Everything that moves an entry goes through one
    lane.
    - [TopoSort]: the load order ([topo-sort.ts]).
    - [NameSegments]: names as path segments
      ([core/contracts/src/extension/extension-name-path-segment.ts]): a round
      trip through UTF-8 and escapes, and portable file names.
    - [ExtensionSelection]: which packages take part and the closure of the
      enabled ones ([extension-selection.ts], [extension-boot-enablement.ts],
      [extension-entry-closure.ts]), proved to be the largest closed set.
    - [ExtensionEntries]: the state of an entry, transitions, configuration,
      contexts, processors, health, boot progress and the start of an entry
      ([extension-start-runner.ts] and its helpers).  Foreign code is an effect
      that sees the entries and may throw; every call of it is logged with the
      entries at that moment.
    - [ExtensionToggle]: [extension-toggle.ts].  [ExtensionCoordinator]: loading,
      start, shutdown and the lane as a machine ([extension-coordinator.ts],
      [extension-migration-runner.ts], [extension-shutdown-runner.ts]).
    - [ExtensionLogic], [ExtensionSteps]: weakest preconditions for an operation
      on one entry; [ExtensionSafety], [ExtensionMachine]: the invariant is kept
      by every operation and holds of every reachable coordinator.
    - [ExtensionCorrect]: required dependencies are active whenever code runs,
      what is created is given back once, transitions are a legal history, the
      boot report is exact, shutdown releases everything, preferences move
      nothing; and a concrete coordinator.

    ** Rules and terminals

    - [Rules]: [packages/rules]: condition trees and the caches of compiled
      expressions, which do not change an answer.
    - [OutputBuffer], [PtyRuntime]: the replay buffer and the sessions of
      [subsystems/native-session-supervisor/src/pty].

    ** Sessions ([services/core/src/session])

    - [Turns]: the ledger of a turn and the slots of active turns
      ([entities/turn.ts], [turn-slot-registry.ts]).
    - [TurnManager]: joining, dispatching, rolling back and finishing turns
      ([session-turn-manager.ts]) as an interleaving of the steps between its
      awaits; safety and liveness hold under every interleaving.
    - [Ownership], [OwnershipEffects], [OwnershipSafety]: the in-memory store of
      generations, currencies and recoveries ([storage/ownership-*.ts]), its
      request validation and the writes of neighbouring stores to the same rows.
      The effect of each operation is an inductive description; the guarantees
      (well-formed rows, fencing, justified takeover, atomic refusals, the mirror
      of a lead's currency, recovery) are proved over every reachable store.

    ** Execution attempts

    - [Json]: [packages/utils/src/canonical-stringify.ts].
    - [Attempts]: the pure decisions ([execution-attempt-decisions.ts] of
      [subsystems/workflow-engine/src]).
    - [AttemptStore]: the transactions of [storage/pg/src/execution-attempt-*.ts]
      that take these decisions; one outcome, one claimable attempt, powerless
      superseded claims, prepared workloads, a history that is never rewritten.

    ** Workflows ([subsystems/workflow-engine/src/runtime])

    A workflow is a tree of nodes.  A run walks it, keeps a frame per execution
    of a node and writes each change to storage; a run that parks at a gate is
    dispatched again later and reads finished frames back.
    - [Workflow]: nodes ([core/contracts/src/workflow/schemas.ts]), frames,
      expression contexts, and the parameters of a run ([Surroundings]).
    - [RuntimeContext]: the state of a run and the lifecycle of frames, each with
      its queue of writes, which may fail; frames of earlier runs
      ([runtime-context.ts], [resume-frames.ts]).
    - [GateNode]: gates and the gate of a loop ([gate-node.ts],
      [loop-escalation.ts], [gate-resume-validation.ts]).
    - [NodeRuntime]: sequences, stations, parallel branches, iteration, chains,
      loops, whole runs ([primitive-runtime.ts], [node-execution.ts],
      [parallel-node.ts], [iterate-*.ts], [loop-node.ts],
      [runRuntimeSequence] of [workflow-orchestrator.ts]), from the loading of
      stored frames and the binding of the artifact
      ([artifact-context/artifact-binding.ts]) on; what is thrown out of a branch.
    - [NodeFacts], [NodeInduction]: a program logic with one induction over
      nodes, for every invariant closed under the writes of the runtime.
    - [NodeSafety], [NodeRuns]: the invariant of a run.  Completed frames are not
      executed again and nothing starts after an abort, whatever storage does;
      every run ends, throwing only what storage or the artifact service did;
      rows are snapshots, and current for the frames whose writes storage
      answers; a run that returns leaves no open frame.  Redispatches that go
      wrong, and runs under a storage that fails.  [NodeReplay]: what a finished
      node stores rebuilds its context.
      [NodeResults]: gates, fail-fast, outputs.

    ** Artifacts ([core/contracts/src/artifact], [extensions/artifact-patch/src])

    An artifact is a JSON payload of a registered kind; a kind has a data schema
    and names paths inside it.  A patch edits a copy of the payload.
    - [JsonTree], [Objects]: [shared/json-tree.ts] on trees, and on the memory a
      JavaScript engine keeps, with aliasing; [rep] says which tree a value
      stands for and which cells it is made of.
    - [KindPaths], [KindValidation]: which schema fragments a data path selects
      through references, unions, intersections and elements, and the checks of
      a kind's declaration ([kind-paths.ts]).  [JsonSchema] says what data a schema
      admits, after the standards and without the code, and [KindSchemas] proves
      the inspection sound for schemas that are one resource with references that
      need no decoding, so that the payloads of a kind registered with one have
      their titles; [PatchRuns] has a kind of each other sort that fails.  [KindTermination]: the intersection of
      conjuncts returns; a union that reaches itself is inspected for ever.
    - [ArtifactParts]: identifiers and resolution of the parts of a payload
      ([artifact-parts.ts]).
    - [ArtifactPatch]: paths, documents and the engine ([patch.ts],
      [patch-engine.ts]), which mutates places inside a copy in memory.
      [ArtifactEdits] is its specification, an edit of the tree; [PatchMemory],
      [PatchRefinement], [PatchOperators] and [PatchCorrect] prove that the
      engine refines it, and [PatchIsolation] that nothing outside the copy
      changes, whatever payload and operands share.
    - [PatchArtifact]: the whole operation behind [artifact.patch]
      ([patch-artifact.ts]) against a host that answers as it likes; [PatchRuns]
      has its runs.

    ** How the code is represented

    A [Map] or object is an association list in insertion order ([JsMap]), a
    [Set] a duplicate-free list ([JsSet]), [Array.prototype.sort] a stable sort
    ([js_sort]); numbers are integers.  A function that may throw is a
    computation of [ST]: a throw keeps the writes made before it.  Awaits are
    explicit: where only time matters a promise is a delay and a settlement
    ([Dispatch], [Events], [Ingress]); where other work may come between, the
    code is cut at its awaits into the steps of a relation ([TurnManager],
    [MessagePort], [TransportRegistry], [Once]).  An operation in the lane of the
    extension coordinator runs alone and is one computation.  The branches of a workflow node run in
    simulated time, each from the common start with a clock of its own: an abort
    by a sibling takes effect one instant after the sibling settles, and the
    earliest such settlement is found by a first run under the outer signal
    ([NodeRuntime.fork]).  How long awaits and executors take is a parameter.
    Identifiers the code draws and instants it reads are arguments.  Whether two
    schema nodes are one object is a parameter ([Identity]).  Transports, ports,
    schemas, the JSON Schema validator, the host of a patch, the code of
    extensions, version ranges, the expression language and glob matcher, spawned
    processes and database isolation are third-party and enter as parameters.

    Fuel: the binary search of [Handlers] gets the length of its array and
    [TopoSort.kahn] the number of packages; both are proved enough.  The depth of
    nested emits in [Once] is a fuel because handlers may emit for ever; what is
    proved of it says at which depth it returns.  The inspection of a schema and
    the validation of its compositions take the depth of the call stack as fuel,
    since they need not return; reading, comparing and cloning values in memory
    get one more than the number of cells, so that only cyclic values fail.
    [ExtensionSelection.prune] gets one more than the size of the set it reduces,
    which is proved enough.  The rounds of a loop node get its [maxRounds] plus
    the number of frames listed for the run, and batches the number of items;
    that this suffices is part of [NodeRuns.runs_return].  Every other recursion
    is structural.

    ** Not modelled

    Sockets, stdio framing and pairing cryptography; schema objects, of which
    only the constraints used are written out; delegations to agents and roles,
    artifact and state contexts of stations, and the artifact revision a completed
    workflow reports; usage accounting and persistence of turns; expression
    templates; the zod schemas of artifact requests, the wording of the
    rejections of [patch-artifact.ts], the storage of artifacts; the windows, tray
    entries, commands, namespaces and RPC handlers of extensions; the other
    storage handlers, row by row reads and writes; adapters and clients, which
    translate formats of programs outside the repository; user interfaces, command lines, build tooling and
    generated code. *)
From Stdlib Require Export ZArith Lia Sorting.Sorted.
From stdpp Require Export base tactics list strings gmap numbers option sorting pretty.

#[global] Open Scope string_scope.
#[global] Open Scope list_scope.
#[global] Open Scope Z_scope.

Declare Scope js_scope.
Delimit Scope js_scope with js.

Create HintDb js.
Create HintDb dispatch.

(** ** Tactics *)

(** Split every match in hypotheses and goal, discharging absurd branches. *)
Ltac case_all :=
  repeat (case_match; simplify_eq/=; try done).

(** Destruct the decidable tests of the goal and of the hypotheses. *)
Ltac dec_all :=
  repeat (first [case_decide | case_bool_decide]; simplify_eq/=; try done; try congruence);
  simplify_eq/=; eauto.

(** ** Lists *)
Lemma filter_none {A} (P : A → Prop) `{∀ x, Decision (P x)} (l : list A) :
  (∀ x, x ∈ l → ¬ P x) → filter P l = [].
Proof.
  induction l as [|x l IH]; intros Hl; [done|].
  rewrite filter_cons_False by (apply Hl; left). apply IH. intros y Hy. apply Hl. by right.
Qed.

Lemma filter_all {A} (P : A → Prop) `{∀ x, Decision (P x)} (l : list A) :
  (∀ x, x ∈ l → P x) → filter P l = l.
Proof.
  induction l as [|x l IH]; intros Hl; [done|].
  rewrite filter_cons_True by (apply Hl; left). f_equal. apply IH. intros y Hy. apply Hl. by right.
Qed.

Lemma filter_length_id {A} (P : A → Prop) `{∀ x, Decision (P x)} (l : list A) :
  List.length (filter P l) = List.length l → filter P l = l.
Proof.
  induction l as [|x l IH]; simpl; [done|]. rewrite filter_cons. case_decide; simpl; intros Hl.
  - f_equal. apply IH. lia.
  - pose proof (length_filter P l). lia.
Qed.

Lemma filter_filter_and {A} (P Q : A → Prop) `{∀ x, Decision (P x)} `{∀ x, Decision (Q x)} (l : list A) :
  filter P (filter Q l) = filter (λ x, P x ∧ Q x) l.
Proof.
  induction l as [|x l IH]; [done|]. rewrite !filter_cons.
  destruct (decide (Q x)); simpl; rewrite ?filter_cons, IH; repeat case_decide; naive_solver.
Qed.

Lemma filter_map_none {A B} (f : A → B) (P : B → Prop) `{∀ x, Decision (P x)} l :
  (∀ a, ¬ P (f a)) → filter P (map f l) = [].
Proof. intros Hn. apply filter_none. intros x (a & -> & _)%list_elem_of_fmap. apply Hn. Qed.

Lemma filter_map_comm {A B} (f : A → B) (P : B → Prop) `{∀ x, Decision (P x)} l :
  filter P (map f l) = map f (filter (λ a, P (f a)) l).
Proof. induction l as [|a l IH]; [done|]. simpl. rewrite !filter_cons, IH. by case_decide. Qed.

Lemma Forall2_elem_r {A B} (P : A → B → Prop) l k y :
  Forall2 P l k → y ∈ k → ∃ x, x ∈ l ∧ P x y.
Proof.
  intros HP [i Hi]%list_elem_of_lookup. destruct (Forall2_lookup_r _ _ _ _ _ HP Hi) as (x & Hx & ?).
  exists x. split; [by eapply list_elem_of_lookup_2|done].
Qed.

Lemma Forall2_elem_l {A B} (P : A → B → Prop) l k x :
  Forall2 P l k → x ∈ l → ∃ y, y ∈ k ∧ P x y.
Proof. intros HP%Forall2_flip Hx. by apply (Forall2_elem_r (flip P) k l x). Qed.

(** Weakening a pairwise relation where the elements are. *)
Lemma Forall2_impl_elem {A B} (P Q : A → B → Prop) l k :
  Forall2 P l k → (∀ x y, x ∈ l → y ∈ k → P x y → Q x y) → Forall2 Q l k.
Proof. induction 1; intros HQ; constructor; [|apply IHForall2; intros]; apply HQ; try done; by constructor. Qed.

(** Reordering the right-hand list reorders the left-hand one alike. *)
Lemma Forall2_perm_r {A B} (P : A → B → Prop) l k k' :
  Forall2 P l k → k ≡ₚ k' → ∃ l', l ≡ₚ l' ∧ Forall2 P l' k'.
Proof.
  intros Hf Hp. revert l Hf. induction Hp as [|y k k' Hp IH|y z k|k1 k2 k3 Hp1 IH1 Hp2 IH2]; intros l Hf.
  - exists l. by inversion Hf.
  - inversion Hf as [|x ? l0 ? Hxy Hf']; subst. destruct (IH _ Hf') as (l' & Hl & Hf2).
    exists (x :: l'). split; [by f_equiv|by constructor].
  - inversion Hf as [|x ? l0 ? Hxy Hf']; subst. inversion Hf' as [|x' ? l1 ? Hxy' Hf2]; subst.
    exists (x' :: x :: l1). split; [constructor|by repeat constructor].
  - destruct (IH1 _ Hf) as (l1 & Hl1 & Hf1). destruct (IH2 _ Hf1) as (l2 & Hl2 & Hf2).
    exists l2. split; [by rewrite Hl1|done].
Qed.

Lemma Forall2_map_elem {A B} (P : A → B → Prop) (g : B → B) l k :
  Forall2 P l k → (∀ x y, x ∈ l → y ∈ k → P x y → P x (g y)) → Forall2 P l (map g k).
Proof.
  intros HP. induction HP as [|x y l k Hxy HP IH]; intros Hg; simpl; constructor.
  - apply Hg; [by left..|done].
  - apply IH. intros. apply Hg; [by right..|done].
Qed.

Lemma NoDup_map_inj {A B} (g : A → B) l x y :
  NoDup (map g l) → x ∈ l → y ∈ l → g x = g y → x = y.
Proof.
  intros Hn [i Hi]%list_elem_of_lookup [j Hj]%list_elem_of_lookup Hg.
  assert (i = j) as ->; [|congruence]. eapply (NoDup_lookup _ i j); [done|..];
    apply list_lookup_fmap_Some; eauto.
Qed.

Lemma foldl_inv {S A} (P : S → Prop) (f : S → A → S) l s :
  (∀ s x, P s → P (f s x)) → P s → P (foldl f s l).
Proof. intros Hf. revert s. induction l; simpl; auto. Qed.

(** ** JavaScript [Map]: insertion-ordered association lists

    [Map.prototype.set] on a present key keeps its position; a new key goes
    last; [delete] forgets the position. *)
Module JsMap.
Section js_map.
Context {K V : Type} `{EqDecision K}.
Implicit Types (k : K) (v : V) (m : list (K * V)).

Fixpoint get k m : option V :=
  match m with
  | [] => None
  | (k', v) :: m' => if decide (k' = k) then Some v else get k m'
  end.

Fixpoint set k v m : list (K * V) :=
  match m with
  | [] => [(k, v)]
  | (k', v') :: m' => if decide (k' = k) then (k', v) :: m' else (k', v') :: set k v m'
  end.

Fixpoint delete k m : list (K * V) :=
  match m with
  | [] => []
  | (k', v') :: m' => if decide (k' = k) then delete k m' else (k', v') :: delete k m'
  end.

Definition has k m : bool := match get k m with Some _ => true | None => false end.
Definition keys m : list K := m.*1.
Definition values m : list V := m.*2.

Lemma get_set_eq k v m : get k (set k v m) = Some v.
Proof. induction m as [|[k' v'] m IH]; simpl; dec_all. Qed.

Lemma get_set_ne k k' v m : k ≠ k' → get k' (set k v m) = get k' m.
Proof. intros Hne. induction m as [|[k1 v1] m IH]; simpl; dec_all. Qed.

Lemma get_set k k' v m : get k' (set k v m) = if decide (k = k') then Some v else get k' m.
Proof. case_decide; subst; [apply get_set_eq|by apply get_set_ne]. Qed.

Lemma get_delete_eq k m : get k (delete k m) = None.
Proof. induction m as [|[k' v'] m IH]; simpl; dec_all. Qed.

Lemma get_delete_ne k k' m : k ≠ k' → get k' (delete k m) = get k' m.
Proof. intros Hne. induction m as [|[k1 v1] m IH]; simpl; dec_all. Qed.

Lemma get_delete k k' m : get k' (delete k m) = if decide (k = k') then None else get k' m.
Proof. case_decide; subst; [apply get_delete_eq|by apply get_delete_ne]. Qed.

Lemma get_elem k v m : get k m = Some v → (k, v) ∈ m.
Proof.
  induction m as [|[k' v'] m IH]; simpl; [done|].
  case_decide; intros Heq; simplify_eq; [left|right; auto].
Qed.

Lemma get_None k m : get k m = None ↔ k ∉ keys m.
Proof.
  unfold keys. induction m as [|[k' v'] m IH]; simpl; [set_solver|].
  case_decide; subst; set_solver.
Qed.

Lemma elem_get k v m : NoDup (keys m) → (k, v) ∈ m → get k m = Some v.
Proof.
  unfold keys. induction m as [|[k' v'] m IH]; simpl; [set_solver|].
  intros [Hni Hnd]%NoDup_cons [Heq|Hin]%elem_of_cons; simplify_eq/=.
  - by rewrite decide_True.
  - case_decide; subst; [|by apply IH].
    exfalso. apply Hni, list_elem_of_fmap. by exists (k, v).
Qed.

Lemma get_elem_iff k v m : NoDup (keys m) → get k m = Some v ↔ (k, v) ∈ m.
Proof. split; [apply get_elem|by apply elem_get]. Qed.

Lemma keys_set_hit k v m : is_Some (get k m) → keys (set k v m) = keys m.
Proof.
  unfold keys. induction m as [|[k' v'] m IH]; simpl; [by intros []|]. case_decide; simpl; [done|].
  intros Hm. f_equal. by apply IH.
Qed.

Lemma elem_keys_set k k' v m : k' ∈ keys (set k v m) ↔ k' = k ∨ k' ∈ keys m.
Proof.
  unfold keys. induction m as [|[k1 v1] m IH]; simpl; [set_solver|].
  case_decide; subst; simpl; rewrite !elem_of_cons; [naive_solver|].
  rewrite IH. naive_solver.
Qed.

Lemma elem_keys_delete k k' m : k' ∈ keys (delete k m) ↔ k' ≠ k ∧ k' ∈ keys m.
Proof.
  unfold keys. induction m as [|[k1 v1] m IH]; simpl; [set_solver|].
  case_decide; subst; simpl; set_solver.
Qed.

Lemma NoDup_keys_set k v m : NoDup (keys m) → NoDup (keys (set k v m)).
Proof.
  unfold keys. induction m as [|[k' v'] m IH]; simpl; [intros _; apply NoDup_singleton|].
  intros [Hni Hnd]%NoDup_cons. case_decide; subst; simpl; apply NoDup_cons; split; auto.
  pose proof (elem_keys_set k k' v m) as Hk. unfold keys in Hk. rewrite Hk. naive_solver.
Qed.

Lemma NoDup_keys_delete k m : NoDup (keys m) → NoDup (keys (delete k m)).
Proof.
  unfold keys. induction m as [|[k' v'] m IH]; simpl; [done|].
  intros [Hni Hnd]%NoDup_cons. case_decide; subst; simpl; auto. apply NoDup_cons; split; auto.
  pose proof (elem_keys_delete k k' m) as Hk. unfold keys in Hk. rewrite Hk. naive_solver.
Qed.

Lemma delete_absent k m : get k m = None → delete k m = m.
Proof.
  induction m as [|[k' v] m IH]; simpl; [done|]. case_decide; [done|]. intros. by rewrite IH.
Qed.

Lemma delete_filter k m : delete k m = filter (λ kv, kv.1 ≠ k) m.
Proof.
  induction m as [|[k' v] m IH]; simpl; [done|]. rewrite filter_cons. simpl.
  destruct (decide (k' = k)); [rewrite decide_False by (intros Hn; by apply Hn)|rewrite decide_True by done];
    by rewrite IH.
Qed.

Lemma set_absent k v m : get k m = None → set k v m = m ++ [(k, v)].
Proof.
  induction m as [|[k' v'] m IH]; simpl; [done|]. case_decide; [done|]. intros. by rewrite IH.
Qed.

Lemma set_set k v v' m : set k v (set k v' m) = set k v m.
Proof.
  induction m as [|[k1 v1] m IH]; simpl; [by rewrite decide_True|].
  case_decide; simpl; [by rewrite decide_True|]. rewrite decide_False by done. by rewrite IH.
Qed.

Lemma set_id k v m : get k m = Some v → set k v m = m.
Proof.
  induction m as [|[k1 v1] m IH]; simpl; [done|]. case_decide; intros; simplify_eq; [done|].
  by rewrite IH.
Qed.

Lemma delete_set_absent k v m : get k m = None → delete k (set k v m) = m.
Proof.
  induction m as [|[k1 v1] m IH]; simpl; [by rewrite decide_True|].
  case_decide; [done|]. simpl. rewrite decide_False by done. intros. by rewrite IH.
Qed.

Lemma delete_set_ne k k' v m : k ≠ k' → delete k (set k' v m) = set k' v (delete k m).
Proof.
  intros Hne. induction m as [|[k1 v1] m IH]; simpl; [by rewrite decide_False|].
  destruct (decide (k1 = k')) as [->|Hk']; simpl.
  - rewrite !(decide_False (P:=k' = k)) by done. simpl. by rewrite decide_True.
  - destruct (decide (k1 = k)); [by rewrite IH|]. simpl. rewrite (decide_False (P:=k1 = k')) by done. by rewrite IH.
Qed.

Lemma length_delete k m :
  NoDup (keys m) → is_Some (get k m) → S (List.length (delete k m)) = List.length m.
Proof.
  unfold keys. induction m as [|[k' v] m IH]; simpl; [by intros _ [??]|].
  intros [Hni Hnd]%NoDup_cons Hs. case_decide; subst; simpl; [|by rewrite IH].
  rewrite delete_absent; [done|]. by apply get_None.
Qed.

(** [{ ...base, ...override }]. *)
Definition assign base override : list (K * V) :=
  foldl (λ acc kv, set kv.1 kv.2 acc) base override.

Lemma NoDup_keys_assign base o : NoDup (keys base) → NoDup (keys (assign base o)).
Proof.
  unfold assign. revert base. induction o as [|[k v] o IH]; intros base Hnd; simpl;
    auto using NoDup_keys_set.
Qed.

Lemma get_assign base o k :
  NoDup (keys o) → get k (assign base o) = match get k o with Some v => Some v | None => get k base end.
Proof.
  unfold assign. revert base. induction o as [|[k' v'] o IH]; intros base; simpl; [done|].
  intros [Hni Hnd]%NoDup_cons. rewrite IH by done. rewrite get_set.
  case_decide; subst; [|done]. apply get_None in Hni. by rewrite Hni.
Qed.

Lemma NoDup_keys_filter (P : K * V → Prop) `{∀ x, Decision (P x)} m :
  NoDup (keys m) → NoDup (keys (filter P m)).
Proof.
  unfold keys. induction m as [|[k v] m IH]; simpl; [done|].
  intros [Hni Hnd]%NoDup_cons. rewrite filter_cons. case_decide; [|auto].
  simpl. apply NoDup_cons. split; [|auto]. contradict Hni.
  apply list_elem_of_fmap in Hni as ([k' v'] & -> & Hin).
  apply list_elem_of_filter in Hin as [_ Hin]. apply list_elem_of_fmap. by exists (k', v').
Qed.

(** Looking up in a map filtered by a predicate on entries. *)
Lemma get_filter (P : K * V → Prop) `{∀ x, Decision (P x)} k m :
  NoDup (keys m) →
  get k (filter P m) = match get k m with Some v => if decide (P (k, v)) then Some v else None | None => None end.
Proof.
  unfold keys. induction m as [|[k' v'] m IH]; simpl; [done|].
  intros [Hni Hnd]%NoDup_cons. rewrite filter_cons.
  destruct (decide (k' = k)) as [->|Hne].
  - destruct (decide (P (k, v'))) as [Hp|Hp]; simpl.
    + rewrite (decide_True (P:=k = k)) by done. done.
    + rewrite IH by done. by apply get_None in Hni as ->.
  - destruct (decide (P (k', v'))); simpl; rewrite ?(decide_False (P:=k'=k)) by done; auto.
Qed.
End js_map.
End JsMap.

#[export] Hint Rewrite @JsMap.get_set_eq @JsMap.get_delete_eq : js.
#[export] Hint Resolve JsMap.NoDup_keys_set JsMap.NoDup_keys_delete JsMap.NoDup_keys_assign
  JsMap.NoDup_keys_filter : js.

(** ** JavaScript [Set]: insertion-ordered lists without repetition *)
Module JsSet.
Section js_set.
Context {A : Type} `{EqDecision A}.
Implicit Types (x y : A) (s : list A).

Definition add x s : list A := if decide (x ∈ s) then s else s ++ [x].
Definition delete x s : list A := filter (λ y, y ≠ x) s.
Definition of_list (l : list A) : list A := foldl (λ s x, add x s) [] l.

Lemma elem_add x y s : y ∈ add x s ↔ y = x ∨ y ∈ s.
Proof.
  unfold add. case_decide; [|rewrite elem_of_app, list_elem_of_singleton; tauto].
  split; [by right|]. by intros [->|].
Qed.

Lemma elem_delete x y s : y ∈ delete x s ↔ y ≠ x ∧ y ∈ s.
Proof. unfold delete. by rewrite list_elem_of_filter. Qed.

Lemma elem_fold_add l s y : y ∈ foldl (λ s x, add x s) s l ↔ y ∈ s ∨ y ∈ l.
Proof.
  revert s. induction l as [|x l IH]; intros s; simpl; [set_solver|].
  rewrite IH, elem_add, elem_of_cons. naive_solver.
Qed.

Lemma elem_of_list l y : y ∈ of_list l ↔ y ∈ l.
Proof. unfold of_list. rewrite elem_fold_add. set_solver. Qed.

Lemma NoDup_add x s : NoDup s → NoDup (add x s).
Proof.
  unfold add. intros Hs. case_decide; [done|]. apply NoDup_app. split; [done|].
  split; [|apply NoDup_singleton]. set_solver.
Qed.

Lemma NoDup_fold_add l s : NoDup s → NoDup (foldl (λ s x, add x s) s l).
Proof. revert s. induction l; intros s Hs; simpl; auto using NoDup_add. Qed.
End js_set.
End JsSet.

(** ** [Array.prototype.sort]

    JavaScript's sort is stable.  For a comparator whose sign is a total
    preorder the result is therefore determined: [js_sort] computes it by
    insertion, and [js_sort_unique] shows nothing else could be returned. *)
Class TotalPreorder {A} (le : A → A → bool) : Prop := {
  le_total x y : le x y = true ∨ le y x = true;
  le_trans' x y z : le x y = true → le y z = true → le x z = true;
}.

Section js_sort.
Context {A : Type} (le : A → A → bool).
Implicit Types (x y : A) (l : list A).

Fixpoint js_insert x l : list A :=
  match l with
  | [] => [x]
  | y :: l' => if le x y then x :: y :: l' else y :: js_insert x l'
  end.

Fixpoint js_sort l : list A :=
  match l with
  | [] => []
  | x :: l' => js_insert x (js_sort l')
  end.

(** [ordered l]: every element is below all later ones. *)
Definition ordered l : Prop := StronglySorted (λ x y, le x y = true) l.

(** Two elements the comparator cannot tell apart. *)
Definition tied x y : bool := le x y && le y x.

Lemma js_insert_perm x l : js_insert x l ≡ₚ x :: l.
Proof. induction l as [|y l IH]; simpl; [done|]. case_match; [done|]. rewrite IH. constructor. Qed.

Lemma js_sort_perm l : js_sort l ≡ₚ l.
Proof. induction l as [|x l IH]; simpl; [done|]. by rewrite js_insert_perm, IH. Qed.

Lemma js_sort_elem x l : x ∈ js_sort l ↔ x ∈ l.
Proof. by rewrite js_sort_perm. Qed.

Lemma js_sort_length l : length (js_sort l) = length l.
Proof. by rewrite js_sort_perm. Qed.

Context `{!TotalPreorder le}.

Lemma js_insert_ordered x l : ordered l → ordered (js_insert x l).
Proof.
  unfold ordered. induction 1 as [|y l Hl IH Hy]; simpl; [repeat constructor|].
  destruct (le x y) eqn:Hxy.
  - repeat constructor; auto. eapply Forall_impl; [exact Hy|]. intros z Hz. by eapply le_trans'.
  - constructor; [done|]. rewrite js_insert_perm. constructor; [|done].
    destruct (le_total x y); congruence.
Qed.

Lemma js_sort_ordered l : ordered (js_sort l).
Proof. induction l; simpl; [constructor|by apply js_insert_ordered]. Qed.

Lemma js_sort_id l : ordered l → js_sort l = l.
Proof.
  induction 1 as [|x l Hl IH Hx]; simpl; [done|]. rewrite IH.
  destruct l as [|y l]; simpl; [done|]. inversion_clear Hx as [|?? Hxy]. by rewrite Hxy.
Qed.

(** Stability: inside each class of ties the input order survives. *)
Lemma js_insert_filter (P : A → bool) x l :
  (∀ y z, P y = true → P z = true → tied y z = true) →
  filter (λ y, P y = true) (js_insert x l) = filter (λ y, P y = true) (x :: l).
Proof.
  intros HP. induction l as [|y l IH]; simpl; [done|].
  destruct (le x y) eqn:Hxy; [done|].
  rewrite !filter_cons, IH, filter_cons.
  destruct (decide (P y = true)) as [Hy|]; destruct (decide (P x = true)) as [Hx|]; try done.
  specialize (HP _ _ Hx Hy). unfold tied in HP. rewrite Hxy in HP. done.
Qed.

Lemma js_sort_stable (P : A → bool) l :
  (∀ y z, P y = true → P z = true → tied y z = true) →
  filter (λ y, P y = true) (js_sort l) = filter (λ y, P y = true) l.
Proof.
  intros HP. induction l as [|x l IH]; simpl; [done|].
  rewrite js_insert_filter by done. rewrite !filter_cons, IH. done.
Qed.

Lemma le_refl' x : le x x = true.
Proof. by destruct (le_total x x). Qed.

Lemma ordered_head x y l : ordered (x :: l) → y ∈ x :: l → le x y = true.
Proof.
  intros [_ Hx]%StronglySorted_inv [->|Hy]%elem_of_cons; [apply le_refl'|].
  by eapply Forall_forall in Hx.
Qed.

(** An ordered list is determined by its classes of ties. *)
Lemma ordered_unique l1 l2 :
  ordered l1 → ordered l2 →
  (∀ x, filter (λ y, tied x y = true) l1 = filter (λ y, tied x y = true) l2) → l1 = l2.
Proof.
  assert (Hself : ∀ x, tied x x = true) by (intros x; unfold tied; by rewrite le_refl').
  assert (Hmem : ∀ l l' x, (∀ x, filter (λ y, tied x y = true) l = filter (λ y, tied x y = true) l') →
                           x ∈ l → x ∈ l').
  { intros l l' x Hf Hx. assert (x ∈ filter (λ y, tied x y = true) l) as Hin
      by (apply list_elem_of_filter; auto).
    rewrite Hf in Hin. by apply list_elem_of_filter in Hin as [_ ?]. }
  revert l2. induction l1 as [|x l1 IH]; intros l2 H1 H2 Hf.
  - destruct l2 as [|y l2]; [done|]. specialize (Hf y).
    rewrite filter_nil, filter_cons_True in Hf by done. done.
  - destruct l2 as [|y l2].
    { specialize (Hf x). rewrite filter_nil, filter_cons_True in Hf by done. done. }
    assert (le x y = true) as Hxy
      by (apply (ordered_head x y l1); [done|]; eapply Hmem; [intros; symmetry; apply Hf|left]).
    assert (le y x = true) as Hyx
      by (apply (ordered_head y x l2); [done|]; eapply Hmem; [apply Hf|left]).
    assert (x = y) as <-.
    { specialize (Hf x). rewrite !filter_cons_True in Hf; [by simplify_eq|..|done].
      unfold tied. by rewrite Hxy, Hyx. }
    f_equal. apply StronglySorted_inv in H1 as [H1 _], H2 as [H2 _].
    apply IH; [done..|]. intros z. specialize (Hf z). rewrite !filter_cons in Hf.
    case_decide; [by simplify_eq|done].
Qed.

Lemma js_sort_filter_tied x l :
  filter (λ y, tied x y = true) (js_sort l) = filter (λ y, tied x y = true) l.
Proof.
  apply js_sort_stable. intros y z [Hxy Hyx]%andb_true_iff [Hxz Hzx]%andb_true_iff.
  unfold tied. apply andb_true_iff. split; eapply le_trans'; eauto.
Qed.

Lemma js_sort_unique l l' :
  ordered l' →
  (∀ x, filter (λ y, tied x y = true) l' = filter (λ y, tied x y = true) l) → l' = js_sort l.
Proof.
  intros Hl' Hf. apply ordered_unique; [done|apply js_sort_ordered|].
  intros x. by rewrite Hf, js_sort_filter_tied.
Qed.

(** Sorting a part first does not change the sort of the whole. *)
Lemma js_sort_app_l l l' : js_sort (js_sort l ++ l') = js_sort (l ++ l').
Proof.
  apply ordered_unique; [apply js_sort_ordered..|]. intros x.
  by rewrite !js_sort_filter_tied, !filter_app, js_sort_filter_tied.
Qed.
End js_sort.

(** Without ties between distinct elements, sorting forgets the input order. *)
Lemma js_sort_perm_eq {A} (le : A → A → bool) `{!TotalPreorder le} (l l' : list A) :
  (∀ x y, x ∈ l' → y ∈ l' → tied le x y = true → x = y) → l ≡ₚ l' → ordered le l' → js_sort le l = l'.
Proof.
  intros Hanti Hp Ho. apply (StronglySorted_unique_strong (λ x y, le x y = true)).
  - intros x y Hx Hy Hxy Hyx. rewrite js_sort_perm, Hp in Hx. apply Hanti; [done..|].
    unfold tied. by rewrite Hxy, Hyx.
  - by apply js_sort_ordered.
  - done.
  - by rewrite js_sort_perm.
Qed.

Lemma ordered_filter {A} (le : A → A → bool) (P : A → Prop) `{∀ x, Decision (P x)} (l : list A) :
  ordered le l → ordered le (filter P l).
Proof.
  unfold ordered. induction 1 as [|x l Hl IH Hx]; [constructor|]. rewrite filter_cons.
  case_decide; [|done]. constructor; [done|]. rewrite Forall_forall in *.
  intros y [_ Hy]%list_elem_of_filter. auto.
Qed.

Lemma sublist_ordered {A} (le : A → A → bool) (l l' : list A) :
  l `sublist_of` l' → ordered le l' → ordered le l.
Proof.
  unfold ordered. induction 1 as [|x l l' Hsub IH|x l l' Hsub IH]; intros Hs; [done| |];
    apply StronglySorted_inv in Hs as [Hs Hx]; auto.
  constructor; [auto|]. rewrite Forall_forall in *. eauto using elem_of_sublist.
Qed.

#[export] Hint Resolve js_sort_ordered js_insert_ordered : js.

(** Sorting by a numeric key, highest first: the comparator
    [(a, b) => b.key - a.key]. *)
Definition desc_by {A} (key : A → Z) (x y : A) : bool := bool_decide (key y ≤ key x).

#[export] Instance desc_by_preorder {A} (key : A → Z) : TotalPreorder (desc_by key).
Proof.
  split; unfold desc_by; intros *; rewrite !bool_decide_eq_true; lia.
Qed.

Lemma desc_by_tied {A} (key : A → Z) x y : tied (desc_by key) x y = true ↔ key x = key y.
Proof. unfold tied, desc_by. rewrite andb_true_iff, !bool_decide_eq_true. lia. Qed.

(** ** Strings by code unit *)
Lemma string_leb_trans (s t u : string) : String.leb s t = true → String.leb t u = true → String.leb s u = true.
Proof.
  unfold String.leb. revert t u. induction s as [|a s IH]; intros [|b t] [|c u]; simpl; try done.
  unfold Ascii.compare.
  destruct (N.compare_spec (Ascii.N_of_ascii a) (Ascii.N_of_ascii b)),
    (N.compare_spec (Ascii.N_of_ascii b) (Ascii.N_of_ascii c)),
    (N.compare_spec (Ascii.N_of_ascii a) (Ascii.N_of_ascii c)); try done; try (exfalso; lia).
  apply IH.
Qed.

Definition key_le {V} (x y : string * V) : bool := String.leb x.1 y.1.

#[export] Instance key_le_total {V} : TotalPreorder (@key_le V).
Proof. split; intros; [apply String.leb_total|by eapply string_leb_trans]. Qed.

(** ** Outcomes of fallible code *)
Inductive outcome (E A : Type) :=
  | Ok (a : A)
  | Throw (e : E).
Arguments Ok {E A} _.
Arguments Throw {E A} _.

(** A computation over a state that may throw; a throw keeps the writes made
    before it, as in JavaScript. *)
Definition ST (S E A : Type) : Type := S → outcome E A * S.

Definition st_ret {S E A} (a : A) : ST S E A := λ s, (Ok a, s).
Definition st_throw {S E A} (e : E) : ST S E A := λ s, (Throw e, s).
Definition st_bind {S E A B} (m : ST S E A) (f : A → ST S E B) : ST S E B := λ s,
  match m s with
  | (Ok a, s') => f a s'
  | (Throw e, s') => (Throw e, s')
  end.
Definition st_lift {S E A} (o : outcome E A) : ST S E A := λ s, (o, s).

Notation "'let*' x := m 'in' k" := (st_bind m (λ x, k))
  (at level 200, x name, m at level 100, k at level 200, right associativity).
