(* ===== verification/JsValue.v ===== *)
(** * JavaScript strings and values

    The fragment of JavaScript data the modelled code inspects: string tests
    ([startsWith], [endsWith], [slice], [split]), payload values with strict
    equality, and property access along dotted paths.

    Numbers are the integers plus [NaN] (the one number for which [===] and
    [Array.prototype.includes] disagree).  Members that objects inherit from
    [Object.prototype] and [Array.prototype] are a parameter, [JsRealm]. *)
From S2P Require Import Prelude.

(** ** Strings *)
#[local] Arguments String.append : simpl nomatch.

Module Str.
Definition starts_with (s p : string) : bool := String.prefix p s.

Definition ends_with (s p : string) : bool :=
  (String.length p <=? String.length s)%nat &&
  bool_decide (String.substring (String.length s - String.length p) (String.length p) s = p).

(** [s.slice(0, -n)] for a positive [n]. *)
Definition drop_last (n : nat) (s : string) : string := String.substring 0 (String.length s - n) s.

(** [s.includes(c)] for a one-character needle. *)
Fixpoint has_char (c : string) (s : string) : bool :=
  match s with
  | EmptyString => false
  | String a s' => bool_decide (String a "" = c) || has_char c s'
  end.

(** [s.split(sep)] for a one-character separator. *)
Fixpoint split (sep : Ascii.ascii) (s : string) : list string :=
  match s with
  | EmptyString => [EmptyString]
  | String c s' =>
      if decide (c = sep) then EmptyString :: split sep s'
      else match split sep s' with
           | [] => [String c EmptyString]
           | w :: ws => String c w :: ws
           end
  end.

(** [parts.join(sep)]. *)
Fixpoint join (sep : string) (ws : list string) : string :=
  match ws with
  | [] => EmptyString
  | [w] => w
  | w :: ws' => w +:+ sep +:+ join sep ws'
  end.

Lemma length_app s1 s2 : String.length (s1 +:+ s2) = (String.length s1 + String.length s2)%nat.
Proof. induction s1; simpl; congruence. Qed.

Lemma app_nil_r s : s +:+ "" = s.
Proof. induction s; simpl; congruence. Qed.

Lemma app_assoc s1 s2 s3 : s1 +:+ (s2 +:+ s3) = (s1 +:+ s2) +:+ s3.
Proof. induction s1; simpl; congruence. Qed.

Lemma app_inj_l s t1 t2 : s +:+ t1 = s +:+ t2 → t1 = t2.
Proof. induction s; simpl; [done|]. intros; simplify_eq; auto. Qed.

Lemma substring_all s : String.substring 0 (String.length s) s = s.
Proof. induction s; simpl; congruence. Qed.

Lemma substring_0_app s1 s2 n :
  n = String.length s1 → String.substring 0 n (s1 +:+ s2) = s1.
Proof. intros ->. induction s1; simpl; [by destruct s2|congruence]. Qed.

Lemma substring_app_r s1 s2 : String.substring (String.length s1) (String.length s2) (s1 +:+ s2) = s2.
Proof. induction s1; simpl; [apply substring_all|done]. Qed.

Lemma substring_split s n : (n ≤ String.length s)%nat →
  s = String.substring 0 n s +:+ String.substring n (String.length s - n) s.
Proof.
  revert n. induction s as [|c s IH]; intros [|n] Hn; simpl in *; try lia; [done| |].
  - by rewrite substring_all.
  - rewrite <- IH by lia. done.
Qed.

Lemma starts_with_true s p : starts_with s p = true ↔ ∃ r, s = p +:+ r.
Proof.
  unfold starts_with. revert s. induction p as [|c p IH]; intros s; simpl.
  { split; [by exists s|by destruct s]. }
  destruct s as [|c' s]; simpl.
  - split; [done|]. intros [r Hr]. done.
  - destruct (Ascii.ascii_dec c c') as [->|Hne].
    + rewrite IH. split; intros [r Hr]; exists r; simplify_eq; done.
    + split; [done|]. intros [r Hr]. by simplify_eq.
Qed.

Lemma ends_with_true s p : ends_with s p = true ↔ ∃ r, s = r +:+ p.
Proof.
  unfold ends_with. rewrite andb_true_iff, Nat.leb_le, bool_decide_eq_true. split.
  - intros [Hlen Hsub].
    exists (String.substring 0 (String.length s - String.length p) s).
    pose proof (substring_split s (String.length s - String.length p) ltac:(lia)) as Hs.
    replace (String.length s - (String.length s - String.length p))%nat
      with (String.length p) in Hs by lia.
    by rewrite Hsub in Hs.
  - intros [r ->]. rewrite length_app. split; [lia|].
    replace (String.length r + String.length p - String.length p)%nat with (String.length r) by lia.
    apply substring_app_r.
Qed.

Lemma drop_last_app s1 s2 : drop_last (String.length s2) (s1 +:+ s2) = s1.
Proof.
  unfold drop_last. rewrite length_app. apply substring_0_app. lia.
Qed.

Lemma drop_last_2 s a b : drop_last 2 (s +:+ String a (String b "")) = s.
Proof. apply (drop_last_app s (String a (String b ""))). Qed.

Lemma split_nonempty sep s : split sep s ≠ [].
Proof. destruct s; simpl; [done|]. case_decide; [done|]. by case_match. Qed.

(** Splitting and joining on the same separator is the identity. *)
Lemma join_split sep s : join (String sep "") (split sep s) = s.
Proof.
  induction s as [|c s IH]; simpl; [done|].
  pose proof (split_nonempty sep s) as Hne.
  case_decide; subst.
  - destruct (split sep s) as [|w ws] eqn:Hs; [done|]. simpl in *. by rewrite <- IH.
  - destruct (split sep s) as [|w ws] eqn:Hs; [done|]. simpl in *.
    destruct ws; simpl in *; by rewrite <- IH.
Qed.
End Str.

(** Template literals of the source that put a name in double quotes. *)
Definition double_quote : Ascii.ascii := Ascii.ascii_of_nat 34.
Definition quoted (s : string) : string := String double_quote (s +:+ String double_quote "").

(** ** Values *)
Inductive num := Int (z : Z) | NaN.

(** [string | number | boolean | null]: what filter and rule operands hold. *)
Inductive primitive := PNull | PBool (b : bool) | PNum (n : num) | PStr (s : string).

Inductive value :=
  | VUndef
  | VNull
  | VBool (b : bool)
  | VNum (n : num)
  | VStr (s : string)
  | VArr (l : list value)
  | VObj (fields : list (string * value)).

#[export] Instance num_eq_dec : EqDecision num.
Proof. solve_decision. Defined.
#[export] Instance primitive_eq_dec : EqDecision primitive.
Proof. solve_decision. Defined.

Definition prim (p : primitive) : value :=
  match p with
  | PNull => VNull
  | PBool b => VBool b
  | PNum n => VNum n
  | PStr s => VStr s
  end.

(** The primitive a value is, if it is one. *)
Definition as_prim (v : value) : option primitive :=
  match v with
  | VNull => Some PNull
  | VBool b => Some (PBool b)
  | VNum n => Some (PNum n)
  | VStr s => Some (PStr s)
  | VUndef | VArr _ | VObj _ => None
  end.

(** [actual === p]: [NaN] equals nothing, objects are never a primitive. *)
Definition strict_eq (actual : value) (p : primitive) : bool :=
  match p with
  | PNum NaN => false
  | _ => bool_decide (as_prim actual = Some p)
  end.

(** [Array.prototype.includes] compares with SameValueZero: [NaN] is found. *)
Definition same_value_zero (actual : value) (p : primitive) : bool :=
  bool_decide (as_prim actual = Some p).

Definition includes (ps : list primitive) (actual : value) : bool :=
  existsb (same_value_zero actual) ps.


(** Members found on the prototypes, for names that are no own property. *)
Inductive proto := ObjectPrototype | ArrayPrototype.

Class JsRealm := { inherited : proto → string → value }.

(** [(current as Record<string, unknown>)[part]] on an object. *)
Definition prop `{JsRealm} (v : value) (part : string) : value :=
  match v with
  | VObj fields => default (inherited ObjectPrototype part) (JsMap.get part fields)
  | VArr l =>
      if decide (part = "length") then VNum (Int (Z.of_nat (List.length l)))
      else match list_find (λ iv : string * value, iv.1 = part) (imap (λ i v, (pretty i, v)) l) with
           | Some (_, (_, v)) => v
           | None => inherited ArrayPrototype part
           end
  | _ => VUndef
  end.

(** The loop of [getPath]: stop at anything that is not a non-null object. *)
Fixpoint walk `{JsRealm} (current : value) (parts : list string) : value :=
  match parts with
  | [] => current
  | part :: parts' =>
      match current with
      | VArr _ | VObj _ => walk (prop current part) parts'
      | _ => VUndef
      end
  end.

Definition dot : Ascii.ascii := Ascii.ascii_of_nat 46.

Definition getPath `{JsRealm} (obj : value) (path : string) : value :=
  match obj with
  | VNull | VUndef => VUndef
  | _ => walk obj (Str.split dot path)
  end.

Lemma strict_eq_true v p : strict_eq v p = true ↔ v = prim p ∧ p ≠ PNum NaN.
Proof.
  unfold strict_eq. destruct p as [| |[]|]; rewrite ?bool_decide_eq_true;
    destruct v; simpl; naive_solver.
Qed.

Lemma includes_true ps v : includes ps v = true ↔ ∃ p, p ∈ ps ∧ v = prim p.
Proof.
  unfold includes. rewrite existsb_exists. setoid_rewrite <- list_elem_of_In.
  unfold same_value_zero. setoid_rewrite bool_decide_eq_true.
  split; intros (p & Hp & Hv); exists p; (split; [done|]); destruct v, p; naive_solver.
Qed.

Section paths.
Context `{JsRealm}.

(** Paths compose. *)
Lemma walk_app v ps qs : walk v (ps ++ qs) = walk (walk v ps) qs.
Proof.
  revert v. induction ps as [|p ps IH]; intros v; simpl; [done|].
  destruct v; simpl; auto; by destruct qs.
Qed.

(** A single own field is read directly. *)
Lemma getPath_field fields k v :
  JsMap.get k fields = Some v → Str.split dot k = [k] → getPath (VObj fields) k = v.
Proof. intros Hk Hs. unfold getPath. rewrite Hs. simpl. by rewrite Hk. Qed.
End paths.
