(* ===== verification/Subjects.v ===== *)
(** * Bus subjects and subscription patterns

    [core/bus-core/src/utils/subscription-matching.ts]: a subject is
    [namespace.subject], a namespace is a [:]-separated hierarchy, and a
    pattern is exact, a subject wildcard [d.*], a namespace wildcard [d:*]
    or the global wildcard [*]. *)
From S2P Require Import Prelude JsValue.

Definition matchesSubscription (subject pattern : string) : bool :=
  if decide (pattern = "*") then true
  else if negb (Str.ends_with pattern "*") then bool_decide (subject = pattern)
  else if Str.ends_with pattern ":*" then
    Str.starts_with subject (Str.drop_last 2 pattern +:+ ":")
  else if Str.ends_with pattern ".*" then
    Str.starts_with subject (Str.drop_last 2 pattern +:+ ".")
  else false.

Definition matchesAnySubscription (subject : string) (patterns : list string) : bool :=
  existsb (matchesSubscription subject) patterns.

(** The decision table of the module comment, as a relation. *)
Inductive Matches : string → string → Prop :=
  | M_global s : Matches s "*"
  | M_exact s : Str.ends_with s "*" = false → Matches s s
  | M_namespace d r : Matches (d +:+ ":" +:+ r) (d +:+ ":*")
  | M_subject d r : Matches (d +:+ "." +:+ r) (d +:+ ".*").

Lemma ends_with_wild d (c : Ascii.ascii) :
  Str.ends_with (d +:+ String c "*") "*" = true.
Proof. apply Str.ends_with_true. exists (d +:+ String c ""). by rewrite <- Str.app_assoc. Qed.

Lemma wild_not_global d (c : Ascii.ascii) : d +:+ String c "*" ≠ "*".
Proof. intros H%(f_equal String.length). rewrite Str.length_app in H. simpl in H. lia. Qed.

Lemma ends_with_app_same d p : Str.ends_with (d +:+ p) p = true.
Proof. apply Str.ends_with_true. by exists d. Qed.

(** A two-character suffix is determined by the string. *)
Lemma suffix2_inj d d' (a b a' b' : Ascii.ascii) :
  d +:+ String a (String b "") = d' +:+ String a' (String b' "") → d = d' ∧ a = a' ∧ b = b'.
Proof.
  revert d'. induction d as [|c d IH]; intros [|c' d'] H; simpl in *; simplify_eq; try done.
  - by destruct d' as [|? []].
  - by destruct d as [|? []].
  - match goal with E : _ +:+ _ = _ +:+ _ |- _ => apply IH in E as (-> & -> & ->) end. done.
Qed.

Lemma matches_namespace_eq s d :
  matchesSubscription s (d +:+ ":*") = Str.starts_with s (d +:+ ":").
Proof.
  unfold matchesSubscription. rewrite decide_False by apply wild_not_global.
  rewrite ends_with_wild, ends_with_app_same. simpl.
  by rewrite Str.drop_last_2.
Qed.

Lemma matches_subject_eq s d :
  matchesSubscription s (d +:+ ".*") = Str.starts_with s (d +:+ ".").
Proof.
  unfold matchesSubscription. rewrite decide_False by apply wild_not_global.
  rewrite ends_with_wild. simpl.
  destruct (Str.ends_with (d +:+ ".*") ":*") eqn:E.
  - apply Str.ends_with_true in E as [r Hr]. apply suffix2_inj in Hr as (_ & ? & _). done.
  - by rewrite ends_with_app_same, Str.drop_last_2.
Qed.

Lemma matchesSubscription_sound s p : matchesSubscription s p = true → Matches s p.
Proof.
  unfold matchesSubscription. case_decide; [subst; constructor|].
  destruct (Str.ends_with p "*") eqn:Hw; simpl;
    [|rewrite bool_decide_eq_true; intros ->; by constructor].
  destruct (Str.ends_with p ":*") eqn:Hns.
  { apply Str.ends_with_true in Hns as [d ->]. rewrite Str.drop_last_2.
    intros [r ->]%Str.starts_with_true. rewrite <- Str.app_assoc. constructor. }
  destruct (Str.ends_with p ".*") eqn:Hsub; [|done].
  apply Str.ends_with_true in Hsub as [d ->]. rewrite Str.drop_last_2.
  intros [r ->]%Str.starts_with_true. rewrite <- Str.app_assoc. constructor.
Qed.

Lemma matchesSubscription_complete s p : Matches s p → matchesSubscription s p = true.
Proof.
  destruct 1 as [s|s Hs|d r|d r].
  - done.
  - unfold matchesSubscription. case_decide; [done|]. rewrite Hs. simpl. by rewrite bool_decide_true.
  - rewrite matches_namespace_eq. apply Str.starts_with_true. exists r. by rewrite <- Str.app_assoc.
  - rewrite matches_subject_eq. apply Str.starts_with_true. exists r. by rewrite <- Str.app_assoc.
Qed.

Lemma matchesAny_true s ps :
  matchesAnySubscription s ps = true ↔ ∃ p, p ∈ ps ∧ Matches s p.
Proof.
  unfold matchesAnySubscription. rewrite existsb_exists. setoid_rewrite <- list_elem_of_In.
  split; intros (p & Hp & Hm); exists p; (split; [done|]);
    auto using matchesSubscription_sound, matchesSubscription_complete.
Qed.

Lemma matchesAny_app s ps qs :
  matchesAnySubscription s (ps ++ qs) = matchesAnySubscription s ps || matchesAnySubscription s qs.
Proof. apply existsb_app. Qed.

#[export] Instance Matches_dec s p : Decision (Matches s p).
Proof.
  refine (cast_if (decide (matchesSubscription s p = true)));
    abstract (first [by apply matchesSubscription_sound | by intros ?%matchesSubscription_complete]).
Defined.

Create HintDb subjects.
#[export] Hint Resolve matchesSubscription_sound matchesSubscription_complete : subjects.

(** *** Properties *)

(** C39: the matcher decides exactly the documented pattern relation: the
    global wildcard, equality for a pattern without trailing [*], subjects
    below [d:] for [d:*] and subjects of [d.] for [d.*]; nothing else. *)
Theorem matchesSubscription_correct (s p : string) : matchesSubscription s p = true ↔ Matches s p.
Proof. split; auto with subjects. Qed.

(** Colon and dot wildcards never cover for each other: a subject wildcard
    [d.*] matches no subject of a child namespace [d:...], and a namespace
    wildcard [d:*] matches no subject [d....] of [d] itself. *)
Theorem wildcards_do_not_cross (d r : string) :
  matchesSubscription (d +:+ ":" +:+ r) (d +:+ ".*") = false ∧
  matchesSubscription (d +:+ "." +:+ r) (d +:+ ":*") = false.
Proof.
  rewrite matches_subject_eq, matches_namespace_eq. split;
  match goal with |- ?b = false => destruct b eqn:E; [|done] end;
  apply Str.starts_with_true in E as [r' Hr];
  rewrite <- Str.app_assoc in Hr; by apply Str.app_inj_l in Hr.
Qed.
