(* ===== verification/Filters.v ===== *)
(** * Payload filters and per-client delivery

    [core/bus-core/src/utils/payload-filter.ts],
    [core/makaio-core/src/types/filter.ts] and the delivery test
    [shouldReceiveMessage] of [core/bus-core/src/utils/transport-helpers.ts]. *)
From S2P Require Import Prelude JsValue Subjects.

(** A filter operand: a primitive (equality) or an operator object. *)
Inductive FilterOperator :=
  | OpEq (p : primitive)
  | OpIn (ps : list primitive)
  | OpNe (p : primitive)
  | OpExists (b : bool)
  | OpStartsWith (s : string)
  | OpEndsWith (s : string).

(** [Record<string, FilterOperator>], in entry order. *)
Notation PayloadFilter := (list (string * FilterOperator)).

Definition isOperatorObject (op : FilterOperator) : bool :=
  match op with OpEq _ => false | _ => true end.

Section filters.
Context `{JsRealm}.
Implicit Types (actual payload : value) (op : FilterOperator) (f : PayloadFilter).

Definition matchOperator actual op : bool :=
  match op with
  | OpIn ps => includes ps actual
  | OpNe p => negb (strict_eq actual p)
  | OpExists b =>
      let exists_ := match actual with VUndef => false | _ => true end in
      if b then exists_ else negb exists_
  | OpStartsWith s => match actual with VStr a => Str.starts_with a s | _ => false end
  | OpEndsWith s => match actual with VStr a => Str.ends_with a s | _ => false end
  | OpEq p => strict_eq actual p
  end.

Fixpoint matchesFilter payload f : bool :=
  match f with
  | [] => true
  | (path, op) :: f' =>
      if negb (matchOperator (getPath payload path) op) then false
      else matchesFilter payload f'
  end.

Definition mergeFilters (base override : option PayloadFilter) : option PayloadFilter :=
  match base, override with
  | None, None => None
  | None, Some o => Some o
  | Some b, None => Some b
  | Some b, Some o => Some (JsMap.assign b o)
  end.

(** Empty strings are falsy, like [undefined]. *)
Definition truthy_subject (subject : option string) : option string :=
  match subject with Some "" => None | s => s end.

Definition shouldReceiveMessage (subject : option string) payload
    (subscriptions : list string) (filters : list (string * PayloadFilter)) : bool :=
  match truthy_subject subject with
  | None => true
  | Some s =>
      if negb (bool_decide (subscriptions = [])) && negb (matchesAnySubscription s subscriptions)
      then false
      else match payload with
           | VUndef => true
           | _ => forallb (λ '(fs, f),
                    if bool_decide (fs = s) || matchesAnySubscription s [fs]
                    then matchesFilter payload f else true) filters
           end
  end.

(** ** What the operators mean *)
Definition op_holds actual op : Prop :=
  match op with
  | OpEq p => actual = prim p ∧ p ≠ PNum NaN
  | OpIn ps => ∃ p, p ∈ ps ∧ actual = prim p
  | OpNe p => ¬ (actual = prim p ∧ p ≠ PNum NaN)
  | OpExists b => actual ≠ VUndef ↔ b = true
  | OpStartsWith s => ∃ r, actual = VStr (s +:+ r)
  | OpEndsWith s => ∃ r, actual = VStr (r +:+ s)
  end.

Lemma matchOperator_true actual op : matchOperator actual op = true ↔ op_holds actual op.
Proof.
  destruct op; simpl.
  - apply strict_eq_true.
  - apply includes_true.
  - rewrite negb_true_iff, <- not_true_iff_false. by rewrite strict_eq_true.
  - destruct actual, b; simpl; naive_solver.
  - destruct actual; try (split; [done|intros [? ?]; done]).
    rewrite Str.starts_with_true. split; intros [r Hr]; exists r; congruence.
  - destruct actual; try (split; [done|intros [? ?]; done]).
    rewrite Str.ends_with_true. split; intros [r Hr]; exists r; congruence.
Qed.

Lemma matchesFilter_forall payload f :
  matchesFilter payload f = true ↔
  ∀ path op, (path, op) ∈ f → op_holds (getPath payload path) op.
Proof.
  induction f as [|[path op] f IH]; simpl.
  { split; [intros _ ?? []%elem_of_nil|done]. }
  destruct (matchOperator (getPath payload path) op) eqn:E; simpl.
  - apply matchOperator_true in E. rewrite IH. setoid_rewrite elem_of_cons.
    split; [|naive_solver]. intros Hf p o [Heq|Hin]; simplify_eq; auto.
  - split; [done|]. intros Hf. specialize (Hf path op ltac:(left)).
    apply matchOperator_true in Hf. congruence.
Qed.
End filters.

(** *** Properties *)

(** A filter accepts a payload exactly when every one of its conditions
    holds of the value at the condition's path, with equality strict ([NaN]
    equals nothing) and membership by SameValueZero ([NaN] is found). *)
Theorem matchesFilter_correct `{JsRealm} (payload : value) (f : PayloadFilter) :
  matchesFilter payload f = true ↔
  ∀ path op, (path, op) ∈ f → op_holds (getPath payload path) op.
Proof. apply matchesFilter_forall. Qed.

(** Merging keeps exactly the override's conditions and those base
    conditions whose path the override does not mention. *)
Theorem mergeFilters_correct `{JsRealm} (payload : value) (base override : PayloadFilter)
    (Hb : NoDup (JsMap.keys base)) (Ho : NoDup (JsMap.keys override)) (merged : PayloadFilter)
    (Hm : mergeFilters (Some base) (Some override) = Some merged) :
  matchesFilter payload merged = true ↔
  matchesFilter payload override = true ∧
  ∀ path op, (path, op) ∈ base → path ∉ JsMap.keys override → op_holds (getPath payload path) op.
Proof.
  simplify_eq/=. rewrite !matchesFilter_forall.
  setoid_rewrite <- (JsMap.get_elem_iff _ _ (JsMap.assign base override)); [|by apply JsMap.NoDup_keys_assign].
  setoid_rewrite <- (JsMap.get_elem_iff _ _ override); [|done].
  setoid_rewrite <- (JsMap.get_elem_iff _ _ base); [|done].
  setoid_rewrite JsMap.get_assign; [|done]. setoid_rewrite <- JsMap.get_None.
  split.
  - intros Hall. split; intros path op; intros; apply Hall; by simplify_option_eq.
  - intros [H1 H2] path op. case_match eqn:E; intros; simplify_eq; auto.
Qed.

Example bare_realm : JsRealm := {| inherited := λ _ _, VUndef |}.

Lemma mergeFilters_correct_witness :
  mergeFilters (Some [("a", OpEq (PStr "x")); ("b", OpExists true)]) (Some [("a", OpNe PNull)])
    = Some [("a", OpNe PNull); ("b", OpExists true)] ∧
  (@matchesFilter bare_realm (VObj [("a", VStr "x"); ("b", VNull)])
     [("a", OpNe PNull); ("b", OpExists true)] = true ↔
   @matchesFilter bare_realm (VObj [("a", VStr "x"); ("b", VNull)]) [("a", OpNe PNull)] = true ∧
   ∀ path op, (path, op) ∈ [("a", OpEq (PStr "x")); ("b", OpExists true)] →
     path ∉ JsMap.keys [("a", OpNe PNull)] →
     op_holds (@getPath bare_realm (VObj [("a", VStr "x"); ("b", VNull)]) path) op).
Proof.
  split; [reflexivity|].
  apply (@mergeFilters_correct bare_realm (VObj [("a", VStr "x"); ("b", VNull)])
    [("a", OpEq (PStr "x")); ("b", OpExists true)] [("a", OpNe PNull)]).
  - apply (bool_decide_unpack _); vm_compute; exact I.
  - apply (bool_decide_unpack _); vm_compute; exact I.
  - reflexivity.
Defined.

(** Delivery to a client is decided by its subscriptions and by every
    filter whose pattern covers the subject; a message without a subject, or
    without subscriptions and filters to check, is always delivered. *)
Theorem shouldReceiveMessage_correct `{JsRealm} (subject : option string) (payload : value)
    (subscriptions : list string) (filters : list (string * PayloadFilter)) :
  shouldReceiveMessage subject payload subscriptions filters = true ↔
  match truthy_subject subject with
  | None => True
  | Some s =>
      (subscriptions = [] ∨ ∃ p, p ∈ subscriptions ∧ Matches s p) ∧
      (payload ≠ VUndef → ∀ fs f, (fs, f) ∈ filters → fs = s ∨ Matches s fs →
        matchesFilter payload f = true)
  end.
Proof.
  unfold shouldReceiveMessage. destruct (truthy_subject subject) as [s|]; [|done].
  assert (Hany : negb (bool_decide (subscriptions = [])) && negb (matchesAnySubscription s subscriptions)
            = false ↔ (subscriptions = [] ∨ ∃ p, p ∈ subscriptions ∧ Matches s p)).
  { rewrite <- matchesAny_true. case_bool_decide; destruct (matchesAnySubscription s subscriptions);
      simpl; naive_solver. }
  destruct (_ && _) eqn:E; [split; [done|]; intros [H1 _]; apply Hany in H1; congruence|].
  rewrite <- Hany. transitivity (payload ≠ VUndef → ∀ fs f, (fs, f) ∈ filters → fs = s ∨ Matches s fs →
        matchesFilter payload f = true); [|naive_solver].
  assert (Hf : forallb (λ '(fs, f), if bool_decide (fs = s) || matchesAnySubscription s [fs]
      then matchesFilter payload f else true) filters = true ↔
    ∀ fs f, (fs, f) ∈ filters → fs = s ∨ Matches s fs → matchesFilter payload f = true).
  { rewrite forallb_forall. setoid_rewrite <- list_elem_of_In. split.
    - intros Hall fs f Hin Hor. specialize (Hall (fs, f) Hin). simpl in Hall.
      destruct Hor as [->|Hm%matchesSubscription_complete]; [by rewrite bool_decide_true in Hall|].
      by rewrite Hm, orb_true_r in Hall.
    - intros Hall [fs f] Hin. destruct (_ || _) eqn:Eo; [|done]. apply (Hall fs f Hin).
      rewrite orb_true_iff, bool_decide_eq_true, matchesAny_true in Eo. set_solver. }
  destruct payload; rewrite ?Hf; naive_solver.
Qed.
