(* ===== verification/Rules.v ===== *)
(** * Rules engine

    [packages/rules/src/evaluator.ts]: condition trees over a context, rule
    lists, and the bounded least-recently-used caches of compiled expressions
    and glob matchers the evaluator consults.

    The expression language (Jexl, behind [packages/expression]) and the glob
    matcher (minimatch) are third-party: they enter through the classes
    [ExpressionEngine] and [GlobEngine].  Compiling is a function of the source
    text; that is all the cache theorems need. *)
From S2P Require Import Prelude JsValue.

Notation error := string.

Class ExpressionEngine := {
  CompiledExpression : Type;
  compile : string → outcome error CompiledExpression;
  evalSync : CompiledExpression → value → outcome error value;
}.

Class GlobEngine := {
  Minimatch : Type;
  newMinimatch : string → outcome error Minimatch;
  glob_match : Minimatch → string → bool;
}.

(** ** Conditions *)
Inductive FieldOperator :=
  | FScalar (p : primitive)
  | FEq (p : primitive)
  | FNe (p : primitive)
  | FIn (ps : list primitive)
  | FNin (ps : list primitive)
  | FContains (p : primitive)
  | FContainsPrefix (s : string)
  | FExists (b : bool)
  | FStartsWith (s : string)
  | FEndsWith (s : string)
  | FGlob (s : string).

Inductive Condition :=
  | CField (field : string) (operator : FieldOperator)
  | CAnd (cs : list Condition)
  | COr (cs : list Condition)
  | CNot (c : Condition)
  | CExpr (expr : string).

Record Rule (TAction : Type) := {
  rule_id : string;
  rule_name : string;
  rule_condition : Condition;
  rule_action : TAction;
  rule_priority : Z;
  rule_enabled : bool;
}.
Arguments rule_id {_}. Arguments rule_name {_}. Arguments rule_condition {_}.
Arguments rule_action {_}. Arguments rule_priority {_}. Arguments rule_enabled {_}.

Section condition_ind.
Variable P : Condition → Prop.
Hypothesis Hfield : ∀ f op, P (CField f op).
Hypothesis Hand : ∀ cs, Forall P cs → P (CAnd cs).
Hypothesis Hor : ∀ cs, Forall P cs → P (COr cs).
Hypothesis Hnot : ∀ c, P c → P (CNot c).
Hypothesis Hexpr : ∀ e, P (CExpr e).

Fixpoint Condition_nested_ind (c : Condition) : P c :=
  let rec := fix rec (cs : list Condition) : Forall P cs :=
    match cs with
    | [] => Forall_nil_2 _
    | c :: cs' => Forall_cons_2 _ _ _ (Condition_nested_ind c) (rec cs')
    end in
  match c with
  | CField f op => Hfield f op
  | CAnd cs => Hand cs (rec cs)
  | COr cs => Hor cs (rec cs)
  | CNot c => Hnot c (Condition_nested_ind c)
  | CExpr e => Hexpr e
  end.
End condition_ind.

(** ** The bounded cache

    A [Map] in insertion order: a hit moves its key to the end, an insertion
    beyond the limit drops the first key. *)
Definition CACHE_LIMIT : nat := 256.

Definition getOrCreateCacheEntry {T} (key : string) (create : outcome error T) :
    ST (list (string * T)) error T := λ cache,
  match JsMap.get key cache with
  | Some existing => (Ok existing, JsMap.set key existing (JsMap.delete key cache))
  | None =>
      match create with
      | Throw e => (Throw e, cache)
      | Ok created =>
          let cache := JsMap.set key created cache in
          (Ok created,
           if bool_decide (CACHE_LIMIT < List.length cache)%nat then
             match cache with
             | [] => cache
             | (oldestKey, _) :: _ => JsMap.delete oldestKey cache
             end
           else cache)
      end
  end.

Section evaluator.
Context `{JsRealm} `{ExpressionEngine} `{GlobEngine}.

Record Caches := {
  expressionCache : list (string * CompiledExpression);
  globCache : list (string * Minimatch);
}.

Notation M := (ST Caches error).

Definition getCachedExpression (expression : string) : M CompiledExpression := λ cs,
  let '(r, c) := getOrCreateCacheEntry expression (compile expression) (expressionCache cs) in
  (r, {| expressionCache := c; globCache := globCache cs |}).

Definition getCachedGlob (pattern : string) : M Minimatch := λ cs,
  let '(r, c) := getOrCreateCacheEntry pattern (newMinimatch pattern) (globCache cs) in
  (r, {| expressionCache := expressionCache cs; globCache := c |}).

(** JavaScript [Boolean(v)]. *)
Definition truthy (v : value) : bool :=
  match v with
  | VUndef | VNull | VBool false | VNum NaN | VNum (Int 0) | VStr "" => false
  | _ => true
  end.

Definition matchesOperator (actual : value) (operator : FieldOperator) : M bool :=
  match operator with
  | FScalar p | FEq p => st_ret (strict_eq actual p)
  | FNe p => st_ret (negb (strict_eq actual p))
  | FIn ps => st_ret (includes ps actual)
  | FNin ps => st_ret (negb (includes ps actual))
  | FContains p =>
      st_ret (match actual with VArr l => existsb (λ v, same_value_zero v p) l | _ => false end)
  | FContainsPrefix s =>
      st_ret (match actual with
              | VArr l => existsb (λ v, match v with VStr a => Str.starts_with a s | _ => false end) l
              | _ => false
              end)
  | FExists b =>
      let exists_ := match actual with VUndef => false | _ => true end in
      st_ret (if b then exists_ else negb exists_)
  | FStartsWith s => st_ret (match actual with VStr a => Str.starts_with a s | _ => false end)
  | FEndsWith s => st_ret (match actual with VStr a => Str.ends_with a s | _ => false end)
  | FGlob g =>
      match actual with
      | VStr a => (let* m := getCachedGlob g in st_ret (glob_match m a))
      | _ => st_ret false
      end
  end.

Fixpoint evaluate (condition : Condition) (context : value) : M bool :=
  match condition with
  | CAnd cs =>
      (fix go (cs : list Condition) : M bool :=
         match cs with
         | [] => st_ret true
         | child :: cs' => (let* b := evaluate child context in if b then go cs' else st_ret false)
         end) cs
  | COr cs =>
      (fix go (cs : list Condition) : M bool :=
         match cs with
         | [] => st_ret false
         | child :: cs' => (let* b := evaluate child context in if b then st_ret true else go cs')
         end) cs
  | CNot c => (let* b := evaluate c context in st_ret (negb b))
  | CExpr e => (let* ce := getCachedExpression e in let* v := st_lift (evalSync ce context) in st_ret (truthy v))
  | CField field operator => matchesOperator (getPath context field) operator
  end.

Fixpoint evaluateRules {A} (includeDisabled : bool) (rules : list (Rule A)) (context : value) :
    M (list (Rule A)) :=
  match rules with
  | [] => st_ret []
  | rule :: rules' =>
      if negb includeDisabled && negb (rule_enabled rule) then evaluateRules includeDisabled rules' context
      else (let* b := evaluate (rule_condition rule) context in
            let* ms := evaluateRules includeDisabled rules' context in
            st_ret (if b then rule :: ms else ms))
  end.

(** ** Reference semantics: no caches *)
Definition ob_bind {A B} (m : outcome error A) (f : A → outcome error B) : outcome error B :=
  match m with Ok a => f a | Throw e => Throw e end.

Definition operator_ref (actual : value) (operator : FieldOperator) : outcome error bool :=
  match operator, actual with
  | FGlob g, VStr a => ob_bind (newMinimatch g) (λ m, Ok (glob_match m a))
  | _, _ => (matchesOperator actual operator {| expressionCache := []; globCache := [] |}).1
  end.

Fixpoint condition_ref (condition : Condition) (context : value) : outcome error bool :=
  match condition with
  | CAnd cs =>
      (fix go (cs : list Condition) : outcome error bool :=
         match cs with
         | [] => Ok true
         | child :: cs' => ob_bind (condition_ref child context) (λ b, if b then go cs' else Ok false)
         end) cs
  | COr cs =>
      (fix go (cs : list Condition) : outcome error bool :=
         match cs with
         | [] => Ok false
         | child :: cs' => ob_bind (condition_ref child context) (λ b, if b then Ok true else go cs')
         end) cs
  | CNot c => ob_bind (condition_ref c context) (λ b, Ok (negb b))
  | CExpr e => ob_bind (compile e) (λ ce, ob_bind (evalSync ce context) (λ v, Ok (truthy v)))
  | CField field operator => operator_ref (getPath context field) operator
  end.

Fixpoint rules_ref {A} (includeDisabled : bool) (rules : list (Rule A)) (context : value) :
    outcome error (list (Rule A)) :=
  match rules with
  | [] => Ok []
  | rule :: rules' =>
      if negb includeDisabled && negb (rule_enabled rule) then rules_ref includeDisabled rules' context
      else ob_bind (condition_ref (rule_condition rule) context) (λ b,
           ob_bind (rules_ref includeDisabled rules' context) (λ ms,
           Ok (if b then rule :: ms else ms)))
  end.

(** ** The cache invariant *)
Record cache_inv {T} (create : string → outcome error T) (c : list (string * T)) : Prop := {
  cache_nodup : NoDup (JsMap.keys c);
  cache_bound : (List.length c ≤ CACHE_LIMIT)%nat;
  cache_sound k v : JsMap.get k c = Some v → create k = Ok v;
}.

Definition caches_ok (cs : Caches) : Prop :=
  cache_inv compile (expressionCache cs) ∧ cache_inv newMinimatch (globCache cs).

(** [m] computes [r] whatever the caches hold, and keeps them sound. *)
Definition computes {A} (m : M A) (r : outcome error A) : Prop :=
  ∀ cs, caches_ok cs → (m cs).1 = r ∧ caches_ok (m cs).2.

Lemma computes_ret {A} (a : A) : computes (st_ret a) (Ok a).
Proof. by intros cs Hcs. Qed.

Lemma computes_lift {A} (o : outcome error A) : computes (st_lift o) o.
Proof. by intros cs Hcs. Qed.

Lemma computes_bind {A B} (m : M A) (r : outcome error A) (f : A → M B) (g : A → outcome error B) :
  computes m r → (∀ a, computes (f a) (g a)) → computes (st_bind m f) (ob_bind r g).
Proof.
  intros Hm Hf cs Hcs. specialize (Hm cs Hcs) as [Hr Hcs'].
  unfold st_bind. destruct (m cs) as [[a|e] cs']; simpl in *; subst; simpl; [|done].
  by apply Hf.
Qed.
End evaluator.

#[export] Hint Resolve computes_ret computes_lift computes_bind : js.

(** ** The cache operation *)
Section cache.
Context {T : Type} (create : string → outcome error T).
Implicit Types (c : list (string * T)).

(** One access: the answer, and the new contents in recency order. *)
Lemma getOrCreate_spec key c (Hc : cache_inv create c) :
  getOrCreateCacheEntry key (create key) c =
    (create key,
     match JsMap.get key c, create key with
     | Some v, _ => JsMap.delete key c ++ [(key, v)]
     | None, Throw _ => c
     | None, Ok v => if bool_decide (List.length c < CACHE_LIMIT)%nat then c ++ [(key, v)]
                     else tail c ++ [(key, v)]
     end).
Proof.
  destruct Hc as [Hnd Hb Hs]. unfold getOrCreateCacheEntry.
  destruct (JsMap.get key c) as [v|] eqn:Hg.
  - rewrite JsMap.set_absent by apply JsMap.get_delete_eq. by rewrite (Hs key v Hg).
  - destruct (create key) as [v|e]; [|done]. rewrite JsMap.set_absent by done. f_equal.
    rewrite length_app. simpl.
    do 2 case_bool_decide; try lia; [|done].
    destruct c as [|[k0 v0] c]; [by unfold CACHE_LIMIT in *; simpl in *; lia|].
    apply NoDup_cons in Hnd as [Hni _]. simpl in *. rewrite decide_True by done.
    case_decide; [by simplify_eq|]. apply JsMap.delete_absent, JsMap.get_None.
    unfold JsMap.keys in *. rewrite fmap_app. simpl. set_solver.
Qed.

Lemma NoDup_keys_snoc key (v : T) c :
  NoDup (JsMap.keys c) → JsMap.get key c = None → NoDup (JsMap.keys (c ++ [(key, v)])).
Proof.
  intros Hnd Hg%JsMap.get_None. unfold JsMap.keys in *. rewrite fmap_app.
  apply NoDup_app. simpl. split_and!; [done|set_solver|apply NoDup_singleton].
Qed.

Lemma get_app_snoc key (v : T) c k w :
  JsMap.get k (c ++ [(key, v)]) = Some w → JsMap.get k c = Some w ∨ (k = key ∧ w = v).
Proof. induction c as [|[k' v'] c IH]; simpl; repeat case_decide; naive_solver. Qed.

Lemma get_tail c k w : NoDup (JsMap.keys c) → JsMap.get k (tail c) = Some w → JsMap.get k c = Some w.
Proof.
  destruct c as [|[k' v'] c]; simpl; [done|]. intros [Hni _]%NoDup_cons Hg.
  case_decide; [|done]. subst. apply JsMap.get_None in Hni. congruence.
Qed.

Lemma getOrCreate_inv key c (Hc : cache_inv create c) :
  cache_inv create (getOrCreateCacheEntry key (create key) c).2.
Proof.
  rewrite getOrCreate_spec by done. simpl. destruct Hc as [Hnd Hb Hs].
  destruct (JsMap.get key c) as [v|] eqn:Hg; [|destruct (create key) as [v|e] eqn:Hk; [case_bool_decide|]].
  - assert (Hd : JsMap.get key (JsMap.delete key c) = None) by apply JsMap.get_delete_eq. split.
    + by apply NoDup_keys_snoc; [apply JsMap.NoDup_keys_delete|].
    + rewrite length_app. simpl. pose proof (JsMap.length_delete key c Hnd ltac:(eauto)). lia.
    + intros k w [Hw|[-> ->]]%get_app_snoc; [|auto].
      rewrite JsMap.get_delete in Hw. case_decide; [done|]. auto.
  - split; [by apply NoDup_keys_snoc|rewrite length_app; simpl; lia|].
    intros k w [Hw|[-> ->]]%get_app_snoc; auto.
  - assert (Hnd' : NoDup (JsMap.keys (tail c))) by (destruct c; [done|by apply NoDup_cons in Hnd as [_ ?]]).
    assert (Hg' : JsMap.get key (tail c) = None).
    { destruct (JsMap.get key (tail c)) eqn:E; [|done]. apply get_tail in E; [congruence|done]. }
    split; [by apply NoDup_keys_snoc| |].
    + rewrite length_app. simpl. destruct c; simpl in *; unfold CACHE_LIMIT in *; lia.
    + intros k w [Hw|[-> ->]]%get_app_snoc; [apply Hs; by apply get_tail|done].
  - done.
Qed.
End cache.

(** ** Cache transparency *)
Section transparency.
Context `{JsRealm} `{ExpressionEngine} `{GlobEngine}.

Lemma getOrCreate_fst {T} (create : string → outcome error T) key c :
  cache_inv create c → (getOrCreateCacheEntry key (create key) c).1 = create key.
Proof. intros Hc. by rewrite getOrCreate_spec. Qed.

Lemma getCachedExpression_computes e : computes (getCachedExpression e) (compile e).
Proof.
  intros cs [He Hg]. unfold getCachedExpression.
  pose proof (getOrCreate_fst compile e _ He). pose proof (getOrCreate_inv compile e _ He).
  destruct (getOrCreateCacheEntry _ _ _); simpl in *. split; [done|by split].
Qed.

Lemma getCachedGlob_computes g : computes (getCachedGlob g) (newMinimatch g).
Proof.
  intros cs [He Hg]. unfold getCachedGlob.
  pose proof (getOrCreate_fst newMinimatch g _ Hg). pose proof (getOrCreate_inv newMinimatch g _ Hg).
  destruct (getOrCreateCacheEntry _ _ _); simpl in *. split; [done|by split].
Qed.

Lemma matchesOperator_computes v op : computes (matchesOperator v op) (operator_ref v op).
Proof.
  destruct op, v; try apply computes_ret.
  apply computes_bind; [apply getCachedGlob_computes|intros; apply computes_ret].
Qed.

Lemma evaluate_computes c ctx : computes (evaluate c ctx) (condition_ref c ctx).
Proof.
  induction c as [f op|cs IH|cs IH|c IH|e] using Condition_nested_ind; simpl.
  - apply matchesOperator_computes.
  - induction IH; [apply computes_ret|].
    apply computes_bind; [done|]. intros []; [done|apply computes_ret].
  - induction IH; [apply computes_ret|].
    apply computes_bind; [done|]. intros []; [apply computes_ret|done].
  - apply computes_bind; [done|]. intros; apply computes_ret.
  - apply computes_bind; [apply getCachedExpression_computes|]. intros ce.
    apply computes_bind; [apply computes_lift|intros; apply computes_ret].
Qed.

Lemma evaluateRules_computes {A} b (rules : list (Rule A)) ctx :
  computes (evaluateRules b rules ctx) (rules_ref b rules ctx).
Proof.
  induction rules as [|r rules IH]; simpl; [apply computes_ret|].
  case_match; [done|]. apply computes_bind; [apply evaluate_computes|]. intros m.
  apply computes_bind; [done|intros; apply computes_ret].
Qed.

(** A rule the evaluation keeps: considered, and its condition holds. *)
Definition rule_matches {A} (includeDisabled : bool) (ctx : value) (r : Rule A) : Prop :=
  (includeDisabled = true ∨ rule_enabled r = true) ∧ condition_ref (rule_condition r) ctx = Ok true.

#[export] Instance outcome_bool_eq_dec : EqDecision (outcome error bool).
Proof. solve_decision. Defined.

#[export] Instance rule_matches_dec {A} b ctx (r : Rule A) : Decision (rule_matches b ctx r).
Proof. unfold rule_matches. apply _. Defined.

Lemma rules_ref_filter {A} b (rules : list (Rule A)) ctx ms :
  rules_ref b rules ctx = Ok ms → ms = filter (rule_matches b ctx) rules.
Proof.
  revert ms. induction rules as [|r rules IH]; intros ms; simpl; [intros; by simplify_eq|].
  rewrite filter_cons. destruct (negb b && _) eqn:Hskip.
  - intros ->%IH. rewrite decide_False; [done|]. unfold rule_matches.
    destruct b, (rule_enabled r); try done. by intros [[?|?] _].
  - assert (b = true ∨ rule_enabled r = true) by (destruct b, (rule_enabled r); auto).
    destruct (condition_ref _ _) as [[]|] eqn:Hc; simpl; [..|done];
      (destruct (rules_ref b rules ctx) as [ms'|]; simpl; [|done]); injection 1 as <-.
    + rewrite decide_True by done. f_equal. by apply IH.
    + rewrite decide_False by (intros [_ ?]; congruence). by apply IH.
Qed.
End transparency.

(** *** Properties *)

(** C38: the expression and glob caches are transparent: from any caches whose
    entries are what compiling their key gives, evaluating a condition returns
    or throws exactly what the cache-free reference does, and the caches stay
    sound, duplicate-free and within their limit. *)
Theorem evaluate_cache_transparent `{JsRealm} `{ExpressionEngine} `{GlobEngine}
    (c : Condition) (ctx : value) (cs : Caches) (Hcs : caches_ok cs) :
  (evaluate c ctx cs).1 = condition_ref c ctx ∧ caches_ok (evaluate c ctx cs).2.
Proof. by apply evaluate_computes. Qed.

(** A rule-set evaluation that returns gives exactly the enabled (or
    explicitly included) rules whose condition holds, in input order. *)
Theorem evaluateRules_correct `{JsRealm} `{ExpressionEngine} `{GlobEngine} {A}
    (b : bool) (rules : list (Rule A)) (ctx : value) (cs : Caches) (Hcs : caches_ok cs)
    (ms : list (Rule A)) (Hms : (evaluateRules b rules ctx cs).1 = Ok ms) :
  ms = filter (rule_matches b ctx) rules.
Proof.
  destruct (evaluateRules_computes b rules ctx cs Hcs) as [Hr _].
  apply rules_ref_filter. congruence.
Qed.

(** The cache is least-recently-used and bounded: an access leaves the
    accessed key last, never exceeds the limit, and forgets a key only when a
    new key enters a full cache, in which case the victim is the first
    (least recently accessed) key. *)
Theorem cache_lru {T} (create : string → outcome error T) (key : string)
    (c : list (string * T)) (Hc : cache_inv create c) (v : T) (Hv : create key = Ok v) :
  let c' := (getOrCreateCacheEntry key (create key) c).2 in
  (List.length c' ≤ CACHE_LIMIT)%nat ∧ last c' = Some (key, v) ∧
  ∀ k, k ∈ JsMap.keys c → k ∉ JsMap.keys c' →
    List.length c = CACHE_LIMIT ∧ JsMap.get key c = None ∧ head (JsMap.keys c) = Some k.
Proof.
  split; [apply (cache_bound _ _ (getOrCreate_inv create key c Hc))|].
  rewrite getOrCreate_spec, Hv by done. simpl. unfold JsMap.keys.
  destruct (JsMap.get key c) as [w|] eqn:Hg; [|case_bool_decide];
    [assert (w = v) as -> by (pose proof (cache_sound _ _ Hc key w Hg); congruence)|..]; (split; [by rewrite last_snoc|]);
    intros k Hk Hk'; rewrite fmap_app, not_elem_of_app in Hk'; destruct Hk' as [Hk' Hkey].
  - exfalso. apply Hk'. apply JsMap.elem_keys_delete. set_solver.
  - done.
  - pose proof (cache_bound _ _ Hc). destruct c as [|[k0 v0] c]; [set_solver|].
    simpl in *. split_and!; [lia|done|]. apply elem_of_cons in Hk as [->|]; done.
Qed.

(** *** Witnesses *)
Example toy_engine : ExpressionEngine := {|
  CompiledExpression := bool;
  compile s := if decide (s = "") then Throw "empty" else Ok (bool_decide (s = "yes"));
  evalSync b _ := Ok (VBool b);
|}.

Example toy_glob : GlobEngine := {|
  Minimatch := string; newMinimatch s := Ok s; glob_match m s := bool_decide (m = s);
|}.

Definition no_realm : JsRealm := {| inherited := λ _ _, VUndef |}.

Definition empty_caches : @Caches toy_engine toy_glob :=
  @Build_Caches toy_engine toy_glob [] [].

Lemma empty_caches_ok : @caches_ok toy_engine toy_glob empty_caches.
Proof. split; (split; simpl; [apply NoDup_nil_2|unfold CACHE_LIMIT; lia|done]). Qed.

Lemma evaluate_cache_transparent_witness :
  (@evaluate no_realm toy_engine toy_glob (CAnd [CExpr "yes"; CNot (CExpr "no")]) VNull empty_caches).1
    = @condition_ref no_realm toy_engine toy_glob (CAnd [CExpr "yes"; CNot (CExpr "no")]) VNull ∧
  @caches_ok toy_engine toy_glob
    (@evaluate no_realm toy_engine toy_glob (CAnd [CExpr "yes"; CNot (CExpr "no")]) VNull empty_caches).2.
Proof.
  apply (@evaluate_cache_transparent no_realm toy_engine toy_glob
    (CAnd [CExpr "yes"; CNot (CExpr "no")]) VNull empty_caches empty_caches_ok).
Defined.

Definition toy_rule (n : string) (en : bool) (e : string) : Rule unit :=
  {| rule_id := n; rule_name := n; rule_condition := CExpr e; rule_action := ();
     rule_priority := 0; rule_enabled := en |}.

Lemma evaluateRules_correct_witness :
  [toy_rule "a" true "yes"] =
  filter (@rule_matches no_realm toy_engine toy_glob unit false VNull)
    [toy_rule "a" true "yes"; toy_rule "b" false "yes"; toy_rule "c" true "no"].
Proof.
  apply (@evaluateRules_correct no_realm toy_engine toy_glob unit false
    [toy_rule "a" true "yes"; toy_rule "b" false "yes"; toy_rule "c" true "no"] VNull
    empty_caches empty_caches_ok).
  vm_compute. reflexivity.
Defined.

Lemma cache_lru_witness :
  let c' := (getOrCreateCacheEntry "yes" (@compile toy_engine "yes") []).2 in
  (List.length c' ≤ CACHE_LIMIT)%nat ∧ last c' = Some ("yes", true) ∧
  ∀ k, k ∈ JsMap.keys (@nil (string * bool)) → k ∉ JsMap.keys c' →
    List.length (@nil (string * bool)) = CACHE_LIMIT ∧ JsMap.get "yes" (@nil (string * bool)) = None ∧
    head (JsMap.keys (@nil (string * bool))) = Some k.
Proof.
  apply (cache_lru (@compile toy_engine) "yes" [] (proj1 empty_caches_ok) true).
  reflexivity.
Defined.
