(* ===== verification/Handlers.v ===== *)
(** * Handler registration and lookup

    [core/bus-core/src/utils/insert-sorted.ts], [utils/handler-merging.ts],
    [methods/on.ts] and [methods/request/getMatchingHandlers.ts] (local half):
    priority-ordered handler arrays per subscription pattern, and the merged
    view a dispatch or an emit walks.

    A handler is its JavaScript identity, a value of a type [H] with decidable
    equality.  Priorities are integers. *)
From S2P Require Import Prelude JsValue Subjects.

Record HandlerEntry (H : Type) := { handler : H; priority : Z }.
Arguments handler {_}. Arguments priority {_}. Arguments Build_HandlerEntry {_}.

#[export] Instance HandlerEntry_eq_dec `{EqDecision H} : EqDecision (HandlerEntry H).
Proof. solve_decision. Defined.

Notation by_priority := (desc_by priority).

(** ** Sorted insertion *)
Section insert.
Context {H : Type}.
Implicit Types (es : list (HandlerEntry H)) (e : HandlerEntry H).

(** The binary search of [insertSorted]; [fuel] bounds the iterations. *)
Fixpoint insertion_point (fuel low high : nat) es e : nat :=
  match fuel with
  | O => low
  | S fuel =>
      if (low <? high)%nat then
        let mid := Nat.div2 (low + high) in
        match es !! mid with
        | Some e' => if bool_decide (priority e ≤ priority e')
                     then insertion_point fuel (S mid) high es e
                     else insertion_point fuel low mid es e
        | None => low
        end
      else low
  end.

Definition insertSorted es e : list (HandlerEntry H) :=
  let low := insertion_point (List.length es) 0 (List.length es) es e in
  take low es ++ e :: drop low es.

(** The insertion point an ordered array determines: after every entry of at
    least the new priority, before every entry of a smaller one. *)
Definition splits_at (i : nat) es e : Prop :=
  (i ≤ List.length es)%nat ∧
  (∀ j e', (j < i)%nat → es !! j = Some e' → priority e ≤ priority e') ∧
  (∀ j e', (i ≤ j)%nat → es !! j = Some e' → priority e' < priority e).

Lemma ordered_lookup es i j e1 e2 :
  ordered by_priority es → (i ≤ j)%nat → es !! i = Some e1 → es !! j = Some e2 →
  priority e2 ≤ priority e1.
Proof.
  intros Hord. revert i j. induction Hord as [|e es Hes IH He]; intros i j Hij H1 H2; [done|].
  destruct i as [|i], j as [|j]; simpl in *; simplify_eq; try lia.
  - eapply Forall_lookup_1 in He; [|done]. by apply bool_decide_eq_true in He.
  - apply (IH i j); [lia|done..].
Qed.

Lemma insertion_point_spec es e fuel low high :
  ordered by_priority es → (high - low ≤ fuel)%nat → (low ≤ high ≤ List.length es)%nat →
  (∀ j e', (j < low)%nat → es !! j = Some e' → priority e ≤ priority e') →
  (∀ j e', (high ≤ j)%nat → es !! j = Some e' → priority e' < priority e) →
  splits_at (insertion_point fuel low high es e) es e.
Proof.
  intros Hord. revert low high. induction fuel as [|fuel IH]; intros low high Hf Hb Hlo Hhi; simpl.
  { split; [lia|]. split; [done|]. intros j e' Hj. apply Hhi. lia. }
  destruct (Nat.ltb_spec low high); [|split; [lia|]; split; [done|]; intros j e' Hj; apply Hhi; lia].
  set (mid := Nat.div2 (low + high)).
  assert (low ≤ mid < high)%nat.
  { unfold mid. rewrite Nat.div2_div.
    split; [apply Nat.div_le_lower_bound|apply Nat.div_lt_upper_bound]; lia. }
  destruct (lookup_lt_is_Some_2 es mid) as [em Hem]; [lia|]. rewrite Hem.
  case_bool_decide as Hp; apply IH; try lia; try done.
  - intros j e' Hj He'. pose proof (ordered_lookup es j mid e' em Hord ltac:(lia) He' Hem). lia.
  - intros j e' Hj He'. pose proof (ordered_lookup es mid j em e' Hord ltac:(lia) Hem He'). lia.
Qed.

Lemma insertSorted_splits es e :
  ordered by_priority es →
  splits_at (insertion_point (List.length es) 0 (List.length es) es e) es e.
Proof.
  intros Hord. apply insertion_point_spec; [done|lia..| |]; intros j e' Hj He'; [lia|].
  apply lookup_lt_Some in He'. lia.
Qed.

Lemma insertSorted_perm es e : insertSorted es e ≡ₚ e :: es.
Proof. unfold insertSorted. rewrite <- Permutation_middle. by rewrite take_drop. Qed.

Lemma insertSorted_ordered es e :
  ordered by_priority es → ordered by_priority (insertSorted es e).
Proof.
  intros Hord. pose proof (insertSorted_splits es e Hord) as (Hi & Hlo & Hhi).
  unfold insertSorted. set (i := insertion_point _ _ _ _ _) in *.
  unfold ordered in *. rewrite <- (take_drop i es) in Hord.
  apply StronglySorted_app in Hord as (Hx & Ht & Hd).
  apply StronglySorted_app_2; [|done|constructor; [done|]].
  - intros x y Hxin [->|Hy]%elem_of_cons; [|by apply Hx].
    apply list_elem_of_lookup in Hxin as [j Hj]. apply lookup_take_Some in Hj as [Hj ?].
    apply bool_decide_eq_true. by eapply Hlo.
  - apply Forall_forall. intros y Hy. apply list_elem_of_lookup in Hy as [j Hj].
    rewrite lookup_drop in Hj. apply bool_decide_eq_true. apply Z.lt_le_incl.
    eapply Hhi; [|done]. lia.
Qed.

(** The reference: walk past every entry of at least the new priority. *)
Fixpoint insert_after es e : list (HandlerEntry H) :=
  match es with
  | [] => [e]
  | e' :: es' => if bool_decide (priority e ≤ priority e') then e' :: insert_after es' e else e :: es
  end.

Lemma splits_insert_after i es e :
  splits_at i es e → take i es ++ e :: drop i es = insert_after es e.
Proof.
  revert i. induction es as [|x es IH]; intros i (Hi & Hlo & Hhi); simpl in *.
  { by destruct i. }
  destruct i as [|i]; simpl.
  - specialize (Hhi 0%nat x ltac:(lia) eq_refl). rewrite bool_decide_false by lia. done.
  - pose proof (Hlo 0%nat x ltac:(lia) eq_refl). rewrite bool_decide_true by lia. f_equal. apply IH.
    split; [lia|]. split; intros j e' Hj He'; [apply (Hlo (S j))|apply (Hhi (S j))]; simpl; auto; lia.
Qed.

Lemma insertSorted_linear es e : ordered by_priority es → insertSorted es e = insert_after es e.
Proof. intros Hord. by apply splits_insert_after, insertSorted_splits. Qed.

(** Insertion by binary search is appending and stable-sorting. *)
Lemma insertSorted_sort es e :
  ordered by_priority es → insertSorted es e = js_sort by_priority (es ++ [e]).
Proof.
  intros Hord. apply js_sort_unique; [apply _|by apply insertSorted_ordered|].
  pose proof (insertSorted_splits es e Hord) as (Hi & Hlo & Hhi).
  intros x. unfold insertSorted. set (i := insertion_point _ _ _ _ _) in *.
  rewrite <- (take_drop i es) at 3. rewrite <- app_assoc, !filter_app. f_equal.
  rewrite !filter_cons, filter_nil. destruct (decide (tied by_priority x e = true)) as [Ht|];
    [|by rewrite app_nil_r].
  assert (filter (λ y, tied by_priority x y = true) (drop i es) = []) as ->; [|done].
  apply filter_none. intros y Hy Hty.
  apply list_elem_of_lookup in Hy as [j Hj]. rewrite lookup_drop in Hj.
  apply desc_by_tied in Ht, Hty. specialize (Hhi (i + j)%nat y ltac:(lia) Hj). lia.
Qed.
End insert.

(** ** Merging the arrays of several patterns *)
Section merge.
Context {H : Type}.

Definition mergeSortedHandlerArrays (arrays : list (list (HandlerEntry H))) : list (HandlerEntry H) :=
  match arrays with
  | [] => []
  | [arr] => arr
  | _ => js_sort by_priority (List.concat arrays)
  end.

Lemma mergeSorted_sort arrays :
  Forall (ordered by_priority) arrays →
  mergeSortedHandlerArrays arrays = js_sort by_priority (List.concat arrays).
Proof.
  intros Hs. destruct arrays as [|arr [|arr' arrays]]; simpl; [done| |done].
  rewrite app_nil_r. symmetry. apply js_sort_id. by inversion Hs.
Qed.
End merge.

(** ** The registry: a [Map] from pattern to entries *)
Section registry.
Context {H : Type} `{EqDecision H}.
Notation Registry := (list (string * list (HandlerEntry H))).
Implicit Types (m : Registry) (key : string) (h : H) (p : Z).

Definition addToHandlerMap m key h p : Registry :=
  let m := if JsMap.has key m then m else JsMap.set key [] m in
  match JsMap.get key m with
  | Some entries => JsMap.set key (insertSorted entries {| handler := h; priority := p |}) m
  | None => m
  end.

(** [entries.splice(findIndex(...), 1)]: drop the first entry of [h]. *)
Fixpoint remove_first h (es : list (HandlerEntry H)) : list (HandlerEntry H) :=
  match es with
  | [] => []
  | e :: es' => if decide (handler e = h) then es' else e :: remove_first h es'
  end.

Definition removeFromHandlerMap m key h : Registry :=
  match JsMap.get key m with
  | Some entries =>
      let entries := remove_first h entries in
      match entries with
      | [] => JsMap.delete key m
      | _ => JsMap.set key entries m
      end
  | None => m
  end.

Definition getMatchingHandlerEntries m fullSubjectKey : list (HandlerEntry H) :=
  mergeSortedHandlerArrays
    ((filter (λ pe, matchesSubscription fullSubjectKey pe.1 = true) m).*2).

Definition getMatchingHandlers m fullSubjectKey : list H :=
  handler <$> getMatchingHandlerEntries m fullSubjectKey.

(** Keys are unique, every array is non-empty and in priority order. *)
Record registry_ok m : Prop := {
  reg_nodup : NoDup (JsMap.keys m);
  reg_sorted key es : JsMap.get key m = Some es → ordered by_priority es ∧ es ≠ [];
}.

Lemma remove_first_sublist h es : remove_first h es `sublist_of` es.
Proof. induction es as [|e es IH]; simpl; [done|]. case_decide; by constructor. Qed.

Lemma addToHandlerMap_eq m key h p :
  addToHandlerMap m key h p =
    JsMap.set key (insertSorted (default [] (JsMap.get key m)) {| handler := h; priority := p |}) m.
Proof.
  unfold addToHandlerMap, JsMap.has.
  destruct (JsMap.get key m) as [es|] eqn:Hg; [by rewrite Hg|].
  rewrite JsMap.get_set_eq. simpl. by rewrite JsMap.set_set.
Qed.

Lemma registry_ok_empty : registry_ok [].
Proof. split; [apply NoDup_nil_2|done]. Qed.

Lemma registry_ok_add m key h p : registry_ok m → registry_ok (addToHandlerMap m key h p).
Proof.
  intros [Hnd Hs]. rewrite addToHandlerMap_eq. split; [auto with js|].
  intros key' es. rewrite JsMap.get_set. case_decide; subst; [|apply Hs]. injection 1 as <-. split.
  - apply insertSorted_ordered. destruct (JsMap.get key' m) as [es|] eqn:E; simpl; [by apply Hs in E as [? _]|].
    constructor.
  - intros E. pose proof (insertSorted_perm (default [] (JsMap.get key' m)) {| handler := h; priority := p |}) as Hp.
    rewrite E in Hp. by apply Permutation_nil_cons in Hp.
Qed.

Lemma registry_ok_remove m key h : registry_ok m → registry_ok (removeFromHandlerMap m key h).
Proof.
  intros [Hnd Hs]. unfold removeFromHandlerMap.
  destruct (JsMap.get key m) as [es|] eqn:Hg; [|by split].
  apply Hs in Hg as [Ho _]. pose proof (sublist_ordered by_priority _ _ (remove_first_sublist h es) Ho).
  destruct (remove_first h es) as [|e es'] eqn:Hr; split; auto with js; intros key' es0.
  - rewrite JsMap.get_delete. case_decide; [done|apply Hs].
  - rewrite JsMap.get_set. case_decide; [|apply Hs]. by injection 1 as <-.
Qed.
End registry.

#[export] Hint Resolve registry_ok_empty registry_ok_add registry_ok_remove : js.

(** ** [on] and its cleanup *)
Inductive HandlerKind := KEvent | KRequest | KBoth.
Inductive HandlerMapKey := eventHandlers | requestHandlers.

Record SubjectDefinition := {
  subject : string;
  namespace : string;
  isRequest : bool;
}.

Definition getFullSubjectForSubjectDefinition (sd : SubjectDefinition) : string :=
  namespace sd +:+ "." +:+ subject sd.

Definition isWildcard (sd : SubjectDefinition) : bool :=
  Str.has_char "*" (subject sd) || Str.has_char ":" (subject sd).

(** Which maps a registration goes to. *)
Definition handlerMaps (sd : SubjectDefinition) (kind : option HandlerKind) : list HandlerMapKey :=
  let kind := if isWildcard sd then kind else None in
  match kind with
  | Some KBoth => [eventHandlers; requestHandlers]
  | Some KEvent => [eventHandlers]
  | Some KRequest => [requestHandlers]
  | None =>
      if isWildcard sd && negb (isRequest sd) then [eventHandlers; requestHandlers]
      else if isRequest sd then [requestHandlers] else [eventHandlers]
  end.

Section on.
Context {H : Type} `{EqDecision H}.

Record BusHandlers := {
  events : list (string * list (HandlerEntry H));
  requests : list (string * list (HandlerEntry H));
}.

Definition update_map (k : HandlerMapKey)
    (f : list (string * list (HandlerEntry H)) → list (string * list (HandlerEntry H)))
    (ctx : BusHandlers) : BusHandlers :=
  match k with
  | eventHandlers => {| events := f (events ctx); requests := requests ctx |}
  | requestHandlers => {| events := events ctx; requests := f (requests ctx) |}
  end.

Definition map_of (k : HandlerMapKey) (ctx : BusHandlers) : list (string * list (HandlerEntry H)) :=
  match k with eventHandlers => events ctx | requestHandlers => requests ctx end.

(** Registering the effective handler [h] (the caller's handler, or the
    closure that applies the caller's filter first). *)
Definition on (ctx : BusHandlers) (sd : SubjectDefinition) (h : H) (prio : option Z)
    (kind : option HandlerKind) : BusHandlers :=
  foldl (λ ctx k, update_map k (λ m,
    addToHandlerMap m (getFullSubjectForSubjectDefinition sd) h (default 0 prio)) ctx)
    ctx (handlerMaps sd kind).

Definition unsubscribe (ctx : BusHandlers) (sd : SubjectDefinition) (h : H)
    (kind : option HandlerKind) : BusHandlers :=
  foldl (λ ctx k, update_map k (λ m,
    removeFromHandlerMap m (getFullSubjectForSubjectDefinition sd) h) ctx)
    ctx (handlerMaps sd kind).

Definition bus_ok (ctx : BusHandlers) : Prop := registry_ok (events ctx) ∧ registry_ok (requests ctx).

(** [h] is not registered under [key] in [m]. *)
Definition unregistered (m : list (string * list (HandlerEntry H))) (key : string) (h : H) : Prop :=
  h ∉ handler <$> default [] (JsMap.get key m).

Lemma remove_first_fresh (h : H) es1 es2 p :
  h ∉ handler <$> es1 → remove_first h (es1 ++ Build_HandlerEntry h p :: es2) = es1 ++ es2.
Proof.
  induction es1 as [|e es1 IH]; simpl; [by rewrite decide_True|].
  rewrite not_elem_of_cons. intros [Hne Hni]. rewrite decide_False by done. by rewrite IH.
Qed.

Lemma remove_first_insert (h : H) es p :
  h ∉ handler <$> es → remove_first h (insertSorted es (Build_HandlerEntry h p)) = es.
Proof.
  intros Hni. unfold insertSorted. rewrite remove_first_fresh; [by rewrite take_drop|].
  intros Hin. apply Hni. rewrite <- (take_drop (insertion_point (List.length es) 0
    (List.length es) es (Build_HandlerEntry h p)) es), fmap_app, elem_of_app. by left.
Qed.

Lemma insertSorted_nonempty (es : list (HandlerEntry H)) e : insertSorted es e ≠ [].
Proof. intros E. pose proof (insertSorted_perm es e) as Hp. rewrite E in Hp. by apply Permutation_nil_cons in Hp. Qed.

(** Both registrations of [h] survive the sort, the higher priority first;
    dropping the first one leaves the sort without it. *)
Lemma remove_first_second (h : H) es p q :
  q < p → ordered by_priority es → h ∉ handler <$> es →
  remove_first h (insertSorted (insertSorted es (Build_HandlerEntry h p)) (Build_HandlerEntry h q)) =
    insertSorted es (Build_HandlerEntry h q).
Proof.
  intros Hpq Hord Hni. rewrite !insertSorted_linear by (try apply insertSorted_ordered; done).
  clear Hord.
  induction es as [|e es IH]; simpl in *.
  { rewrite bool_decide_true by lia. simpl. by rewrite decide_True. }
  apply not_elem_of_cons in Hni as [Hne Hni].
  destruct (decide (p ≤ priority e)).
  - rewrite (bool_decide_true (p ≤ _)) by done. simpl. rewrite bool_decide_true by lia. simpl.
    rewrite decide_False by done. by rewrite IH.
  - rewrite (bool_decide_false (p ≤ _)) by done. simpl. rewrite bool_decide_true by lia. simpl.
    by rewrite decide_True.
Qed.

Lemma remove_add m key (h : H) p :
  registry_ok m → unregistered m key h → removeFromHandlerMap (addToHandlerMap m key h p) key h = m.
Proof.
  intros [Hnd Hs] Hun. rewrite addToHandlerMap_eq. unfold removeFromHandlerMap, unregistered in *.
  rewrite JsMap.get_set_eq, remove_first_insert by done.
  destruct (JsMap.get key m) as [es|] eqn:Hg; simpl; [|by apply JsMap.delete_set_absent].
  destruct (Hs _ _ Hg) as [_ Hne]. destruct es as [|e es]; [done|].
  by rewrite JsMap.set_set, JsMap.set_id.
Qed.

Lemma handlerMaps_cases sd kind :
  handlerMaps sd kind = [eventHandlers; requestHandlers] ∨
  handlerMaps sd kind = [eventHandlers] ∨ handlerMaps sd kind = [requestHandlers].
Proof. unfold handlerMaps. repeat case_match; auto. Qed.

Lemma bus_ok_on ctx sd h p kind : bus_ok ctx → bus_ok (on ctx sd h p kind).
Proof.
  intros [He Hr]. unfold on, bus_ok.
  destruct (handlerMaps_cases sd kind) as [-> |[-> | ->]]; simpl; auto with js.
Qed.

Lemma bus_ok_unsubscribe ctx sd h kind : bus_ok ctx → bus_ok (unsubscribe ctx sd h kind).
Proof.
  intros [He Hr]. unfold unsubscribe, bus_ok.
  destruct (handlerMaps_cases sd kind) as [-> |[-> | ->]]; simpl; auto with js.
Qed.
End on.

(** *** Properties *)

(** Registering handlers one by one by binary-search insertion yields the
    stable sort of the registration sequence: highest priority first, and
    first come first served among equal priorities. *)
Theorem registration_order {H} (es : list (HandlerEntry H)) :
  foldl insertSorted [] es = js_sort by_priority es.
Proof.
  induction es as [|e es IH] using rev_ind; [done|].
  rewrite foldl_app. simpl. rewrite IH, insertSorted_sort by (apply js_sort_ordered, _).
  apply js_sort_app_l, _.
Qed.

(** In every registry the bus can build, the entries a dispatch of a
    subject sees are the stable priority sort of the entries registered under
    the patterns that match the subject, in pattern-registration order. *)
Theorem matching_entries_correct {H} (m : list (string * list (HandlerEntry H)))
    (Hm : registry_ok m) (s : string) :
  getMatchingHandlerEntries m s =
    js_sort by_priority (List.concat (filter (λ pe, Matches s pe.1) m).*2).
Proof.
  unfold getMatchingHandlerEntries. rewrite mergeSorted_sort.
  - do 3 f_equal. apply list_filter_iff. intros [k es]. split; eauto with subjects.
  - apply Forall_forall. intros es Hes. apply list_elem_of_fmap in Hes as ([k es'] & -> & Hin).
    apply list_elem_of_filter in Hin as [_ Hin].
    apply (JsMap.elem_get _ _ _ (reg_nodup _ Hm)) in Hin. by apply (reg_sorted _ Hm) in Hin as [? _].
Qed.

(** A registration undone by its own cleanup leaves the registries
    exactly as they were, whatever the subject form and handler kind, provided
    the handler was not registered under that subject already. *)
Theorem unsubscribe_on {H} `{EqDecision H} (ctx : BusHandlers) (sd : SubjectDefinition) (h : H)
    (prio : option Z) (kind : option HandlerKind)
    (Hok : bus_ok ctx)
    (Hfresh : ∀ k, k ∈ handlerMaps sd kind →
       unregistered (map_of k ctx) (getFullSubjectForSubjectDefinition sd) h) :
  unsubscribe (on ctx sd h prio kind) sd h kind = ctx.
Proof.
  destruct ctx as [es rs], Hok as [He Hr]. unfold unsubscribe, on.
  pose proof (Hfresh eventHandlers) as Hfe. pose proof (Hfresh requestHandlers) as Hfr. clear Hfresh.
  destruct (handlerMaps_cases sd kind) as [E|[E|E]]; rewrite E in Hfe, Hfr |- *; simpl in *;
    rewrite ?remove_add; auto; first [apply Hfe | apply Hfr]; set_solver.
Qed.

(** The cleanup identifies entries by handler only.  When one handler
    is registered twice under a subject, the cleanup of the later, lower
    priority registration removes the earlier, higher priority one. *)
Theorem unsubscribe_removes_highest {H} `{EqDecision H} (m : list (string * list (HandlerEntry H)))
    (key : string) (h : H) (p q : Z) (Hq : q < p) (Hok : registry_ok m) (Hun : unregistered m key h) :
  removeFromHandlerMap (addToHandlerMap (addToHandlerMap m key h p) key h q) key h =
    addToHandlerMap m key h q.
Proof.
  pose proof (registry_ok_add m key h p Hok) as Hok'.
  rewrite !addToHandlerMap_eq, JsMap.get_set_eq, JsMap.set_set in *. simpl.
  set (es := default [] (JsMap.get key m)) in *.
  assert (ordered by_priority es) as Hes.
  { unfold es. destruct (JsMap.get key m) eqn:Hg; [by apply (reg_sorted _ Hok) in Hg as [? _]|constructor]. }
  unfold removeFromHandlerMap. rewrite JsMap.get_set_eq, (remove_first_second h es p q Hq Hes Hun).
  destruct (insertSorted es (Build_HandlerEntry h q)) eqn:E; [|by rewrite JsMap.set_set].
  by destruct (insertSorted_nonempty _ _ E).
Qed.

(** *** Witnesses *)

Definition two_patterns : list (string * list (HandlerEntry nat)) :=
  addToHandlerMap (addToHandlerMap (addToHandlerMap [] "a.b" 1%nat 0) "a.*" 2%nat 5) "c.d" 3%nat 9.

Lemma two_patterns_ok : registry_ok two_patterns.
Proof. unfold two_patterns. auto with js. Qed.

Lemma matching_entries_correct_witness :
  getMatchingHandlerEntries two_patterns "a.b" =
    js_sort by_priority (List.concat (filter (λ pe, Matches "a.b" pe.1) two_patterns).*2).
Proof. exact (matching_entries_correct _ two_patterns_ok _). Defined.

Definition wildcard_sd : SubjectDefinition :=
  {| subject := "*"; namespace := "a"; isRequest := false |}.

Lemma unsubscribe_on_witness :
  let ctx := {| events := two_patterns; requests := [] |} in
  unsubscribe (on ctx wildcard_sd 7%nat (Some 3) None) wildcard_sd 7%nat None = ctx.
Proof.
  apply unsubscribe_on.
  - split; [apply two_patterns_ok|apply registry_ok_empty].
  - intros k _. unfold unregistered. destruct k; apply (bool_decide_unpack _); vm_compute; exact I.
Defined.

Lemma unsubscribe_removes_highest_witness :
  removeFromHandlerMap (addToHandlerMap (addToHandlerMap two_patterns "a.b" 7%nat 4) "a.b" 7%nat 2)
    "a.b" 7%nat = addToHandlerMap two_patterns "a.b" 7%nat 2.
Proof.
  apply unsubscribe_removes_highest; [lia|apply two_patterns_ok|].
  unfold unregistered. apply (bool_decide_unpack _); vm_compute; exact I.
Defined.
