(* ===== verification/Errors.v ===== *)
(** * Errors and their wire codec

    [core/bus-core/src/errors/*.ts] and the codec half of
    [core/bus-core/src/utils/transport.ts].

    A thrown value is an [Error] object or any other value.  Objects have an
    identity ([Object.is] compares it); an error carries its class, [message],
    [cause] and its remaining own enumerable properties in [Object.keys] order.
    Accessor properties and objects without [toString] are not modelled. *)
From S2P Require Import Prelude JsValue.

(** The class an error was constructed with, as [instanceof] sees it. *)
Inductive error_class :=
  | ErrorClass
  | DOMExceptionClass
  | RequestErrorClass
  | TimeoutErrorClass
  | NoHandlerErrorClass
  | BusAbortErrorClass
  | PTimeoutErrorClass.

#[export] Instance error_class_eq_dec : EqDecision error_class.
Proof. solve_decision. Defined.

Inductive thrown :=
  | TErr (identity : nat) (cls : error_class) (message : string) (cause : option thrown)
      (own : list (string * value))
  | TVal (identity : nat) (v : value).

(** [Object.is]: identity on objects, value on primitives. *)
Definition object_is (a b : thrown) : bool :=
  match a, b with
  | TErr i _ _ _ _, TErr j _ _ _ _ => bool_decide (i = j)
  | TVal i v, TVal j w =>
      match as_prim v, as_prim w with
      | Some p, Some q => bool_decide (p = q)
      | None, None =>
          match v, w with
          | VUndef, VUndef => true
          | VUndef, _ | _, VUndef => false
          | _, _ => bool_decide (i = j)
          end
      | _, _ => false
      end
  | _, _ => false
  end.

Definition isRecognizedError (t : thrown) : bool :=
  match t with TErr _ _ _ _ _ => true | TVal _ _ => false end.

Definition instanceof (t : thrown) (c : error_class) : bool :=
  match t with TErr _ c' _ _ _ => bool_decide (c' = c) | TVal _ _ => false end.

Definition own_props (t : thrown) : list (string * value) :=
  match t with
  | TErr _ _ _ _ own => own
  | TVal _ (VObj fields) => fields
  | TVal _ (VArr l) => imap (λ i v, (pretty i, v)) l
  | TVal _ _ => []
  end.

Definition error_cause (t : thrown) : option thrown :=
  match t with TErr _ _ _ c _ => c | TVal _ _ => None end.

(** [String(v)]. *)
Fixpoint js_String (v : value) : string :=
  match v with
  | VUndef => "undefined"
  | VNull => "null"
  | VBool true => "true"
  | VBool false => "false"
  | VNum (Int z) => pretty z
  | VNum NaN => "NaN"
  | VStr s => s
  | VArr l => Str.join "," (map (λ v, match v with VUndef | VNull => "" | _ => js_String v end) l)
  | VObj _ => "[object Object]"
  end.

(** ** Constructors.  [new] allocates, so each takes the fresh identity. *)
Definition BusError (cls : error_class) (name message subject : string)
    (cause : option thrown) (own : list (string * value)) (i : nat) : thrown :=
  TErr i cls message cause (("subject", VStr subject) :: ("name", VStr name) :: own).

Definition RequestError (subject message : string) (cause : option thrown) : nat → thrown :=
  BusError RequestErrorClass "RequestError"
    ("Request to " +:+ quoted subject +:+ " failed: " +:+ message) subject cause [].

Definition TimeoutError (subject : string) (timeoutMs : Z) : nat → thrown :=
  BusError TimeoutErrorClass "TimeoutError"
    ("Request to " +:+ quoted subject +:+ " timed out after " +:+ pretty timeoutMs +:+ "ms") subject None
    [("timeoutMs", VNum (Int timeoutMs))].

Definition NO_HANDLER_ERROR_CODE : string := "NO_HANDLER".

Definition NoHandlerError (subject : string) : nat → thrown :=
  BusError NoHandlerErrorClass "NoHandlerError"
    ("No handler registered for request subject " +:+ quoted subject) subject None
    [("code", VStr NO_HANDLER_ERROR_CODE)].

Definition BusAbortError (reason : thrown) (i : nat) : thrown :=
  TErr i BusAbortErrorClass
    (match reason with TVal _ (VStr s) => s | _ => "Request aborted" end) (Some reason) [].

Definition toAbortError (reason : thrown) (i : nat) : thrown :=
  if isRecognizedError reason then reason else BusAbortError reason i.

(** An [AbortSignal]: whether it has fired, and with what reason. *)
Definition isRequestCancellation (error : thrown) (aborted : option thrown) : bool :=
  match aborted with
  | None => false
  | Some reason =>
      isRecognizedError error &&
      (object_is error reason ||
       (instanceof error BusAbortErrorClass &&
        match error_cause error with Some c => object_is c reason | None => false end))
  end.

Definition string_prop (key : string) (props : list (string * value)) : option string :=
  match JsMap.get key props with Some (VStr s) => Some s | _ => None end.

Definition isNoHandlerErrorForSubject (error : thrown) (fullSubject : string) : bool :=
  isRecognizedError error &&
  let subject_is := bool_decide (string_prop "subject" (own_props error) = Some fullSubject) in
  if instanceof error NoHandlerErrorClass then subject_is
  else if bool_decide (string_prop "code" (own_props error) = Some NO_HANDLER_ERROR_CODE) then subject_is
  else false.

(** ** The codec *)
Record BusTransportError := {
  te_message : string;
  te_code : option string;
  te_subject : option string;
  te_data : option (list (string * value));
}.

Definition SKIP_PROPS : list string := ["message"; "name"; "stack"; "cause"; "subject"; "code"; "__proto__"].

Definition isSerializableValue (v : value) : bool := match v with VUndef => false | _ => true end.

Definition collected (kv : string * value) : Prop := kv.1 ∉ SKIP_PROPS ∧ isSerializableValue kv.2 = true.
#[export] Instance collected_dec kv : Decision (collected kv).
Proof. unfold collected. apply _. Defined.

Definition collectStructuredProps (source : list (string * value)) : option (list (string * value)) :=
  match JsMap.assign [] (filter collected source) with
  | [] => None
  | result => Some result
  end.

(** ['code' in error]: DOM exceptions inherit a numeric legacy [code]. *)
Definition has_code (cls : error_class) (own : list (string * value)) : bool :=
  JsMap.has "code" own || bool_decide (cls = DOMExceptionClass ∨ cls = BusAbortErrorClass).

Definition serializeError (error : thrown) : BusTransportError :=
  match error with
  | TErr _ cls message cause own =>
      let structuredSource := match cause with Some (TErr _ _ _ _ own') => own' | _ => own end in
      let codeSource := if has_code cls own then own else structuredSource in
      {| te_message := message;
         te_code := string_prop "code" codeSource;
         te_subject := match string_prop "subject" own with
                       | Some s => Some s
                       | None => string_prop "subject" structuredSource
                       end;
         te_data := collectStructuredProps structuredSource |}
  | TVal _ (VObj _ as v) | TVal _ (VArr _ as v) =>
      {| te_message := default (js_String v) (string_prop "message" (own_props error));
         te_code := string_prop "code" (own_props error);
         te_subject := string_prop "subject" (own_props error);
         te_data := collectStructuredProps (own_props error) |}
  | TVal _ v => {| te_message := js_String v; te_code := None; te_subject := None; te_data := None |}
  end.

(** Assigning a truthy string. *)
Definition set_truthy (key : string) (v : option string) (props : list (string * value)) :
    list (string * value) :=
  match v with Some s => if bool_decide (s = "") then props else JsMap.set key (VStr s) props | None => props end.

Definition restore (props : list (string * value)) (kv : string * value) : list (string * value) :=
  let '(key, v) := kv in
  if bool_decide (key = "code" ∨ key = "subject") then
    match JsMap.get key props, v with
    | None, VStr _ | Some VUndef, VStr _ => JsMap.set key v props
    | _, _ => props
    end
  else if bool_decide (key ∈ SKIP_PROPS) then props
  else JsMap.set key v props.

Definition deserializeTransportError (te : BusTransportError) (i : nat) : thrown :=
  TErr i ErrorClass (te_message te) None
    (foldl restore (set_truthy "subject" (te_subject te) (set_truthy "code" (te_code te) []))
       (default [] (te_data te))).

Definition isJsonObject (v : value) : option (list (string * value)) :=
  match v with VObj fields => Some fields | _ => None end.

Definition transportErrorData (error : thrown) : option (list (string * value)) :=
  match error with
  | TVal _ (VObj _) | TVal _ (VArr _) | TErr _ _ _ _ _ =>
      let flat := default [] (collectStructuredProps (own_props error)) in
      let result :=
        match JsMap.get "data" (own_props error) with
        | Some (VObj bag) =>
            JsMap.assign (JsMap.delete "data" flat)
              (JsMap.assign [] (filter (λ kv, kv.1 ∉ SKIP_PROPS) bag))
        | _ => flat
        end in
      match result with [] => None | _ => Some result end
  | TVal _ _ => None
  end.

(** The cause chain; the modelled errors are finite trees, so the cycle guard
    of [findInErrorChain] never fires. *)
Fixpoint findInErrorChain {T} (predicate : list (string * value) → option T) (error : thrown) : option T :=
  match error with
  | TErr _ _ _ cause own =>
      match predicate own with
      | Some r => Some r
      | None => match cause with Some c => findInErrorChain predicate c | None => None end
      end
  | TVal _ (VObj _) | TVal _ (VArr _) => predicate (own_props error)
  | TVal _ _ => None
  end.

(** ** Lemmas *)
Lemma collect_get source k :
  NoDup (JsMap.keys source) →
  JsMap.get k (default [] (collectStructuredProps source)) =
    match JsMap.get k source with Some v => if decide (collected (k, v)) then Some v else None | None => None end.
Proof.
  intros Hnd. unfold collectStructuredProps.
  rewrite <- (JsMap.get_filter collected) by done.
  assert (default [] match JsMap.assign [] (filter collected source) with
                     | [] => None | r => Some r end = JsMap.assign [] (filter collected source)) as ->
    by (by destruct (JsMap.assign [] (filter collected source))).
  rewrite JsMap.get_assign by auto with js. by destruct (JsMap.get k (filter collected source)).
Qed.

Lemma collect_NoDup source : NoDup (JsMap.keys (default [] (collectStructuredProps source))).
Proof.
  unfold collectStructuredProps.
  pose proof (JsMap.NoDup_keys_assign [] (filter collected source) (NoDup_nil_2)).
  by destruct (JsMap.assign _ _).
Qed.

Lemma collect_keys source k : k ∈ JsMap.keys (default [] (collectStructuredProps source)) → k ∉ SKIP_PROPS.
Proof.
  assert (∀ o base : list (string * value), k ∈ JsMap.keys (JsMap.assign base o) → k ∈ JsMap.keys base ∨ k ∈ JsMap.keys o) as Ha.
  { unfold JsMap.assign. induction o as [|[k' v'] o IH]; intros base; simpl; [auto|].
    intros [Hk|Hk]%IH; [|right; by right]. apply JsMap.elem_keys_set in Hk as [->|]; [right; left|by left]. }
  intros Hk. assert (k ∈ JsMap.keys (filter collected source)) as Hf.
  { unfold collectStructuredProps in Hk. specialize (Ha (filter collected source) []).
    destruct (JsMap.assign _ _); simpl in *; [set_solver|]. apply Ha in Hk as [Hk|]; [set_solver|done]. }
  apply list_elem_of_fmap in Hf as ([k' v] & -> & [[Hc _] _]%list_elem_of_filter). exact Hc.
Qed.

Lemma not_identity_key k : k ∉ SKIP_PROPS → k ≠ "code" ∧ k ≠ "subject".
Proof. unfold SKIP_PROPS. set_solver. Qed.

(** A bag free of reserved names is restored key by key. *)
Lemma restore_get data props k :
  (∀ k', k' ∈ JsMap.keys data → k' ∉ SKIP_PROPS) → NoDup (JsMap.keys data) →
  JsMap.get k (foldl restore props data) =
    match JsMap.get k data with Some v => Some v | None => JsMap.get k props end.
Proof.
  intros Hsk Hnd.
  assert (foldl restore props data = JsMap.assign props data) as ->; [|by apply JsMap.get_assign].
  clear Hnd. unfold JsMap.assign. revert props. induction data as [|[k' v] data IH]; intros props; simpl; [done|].
  assert (k' ∉ SKIP_PROPS) as Hk' by (apply Hsk; left).
  destruct (not_identity_key _ Hk') as [Hc Hs].
  rewrite bool_decide_false by naive_solver. rewrite bool_decide_false by done.
  apply IH. intros k'' Hin. apply Hsk. by right.
Qed.

Lemma set_truthy_get key v props k :
  JsMap.get k (set_truthy key v props) =
    if decide (key = k) then match v with
                             | Some s => if decide (s = "") then JsMap.get k props else Some (VStr s)
                             | None => JsMap.get k props
                             end
    else JsMap.get k props.
Proof.
  unfold set_truthy. destruct v as [s|]; [|by case_decide]. case_bool_decide; subst.
  - by case_decide.
  - rewrite JsMap.get_set. case_decide; [|done]. by rewrite decide_False.
Qed.

Lemma deserialize_get te i k :
  (∀ k', k' ∈ JsMap.keys (default [] (te_data te)) → k' ∉ SKIP_PROPS) →
  NoDup (JsMap.keys (default [] (te_data te))) →
  JsMap.get k (own_props (deserializeTransportError te i)) =
    match JsMap.get k (default [] (te_data te)) with
    | Some v => Some v
    | None => JsMap.get k (set_truthy "subject" (te_subject te) (set_truthy "code" (te_code te) []))
    end.
Proof. intros Hsk Hnd. simpl. by apply restore_get. Qed.

(** The data bag never holds an identity field, so both come from the
    top-level fields. *)
Lemma deserialize_serialize_identity e i s :
  s ≠ "" →
  bool_decide (string_prop "code" (own_props (deserializeTransportError (serializeError e) i)) = Some s) =
    bool_decide (te_code (serializeError e) = Some s) ∧
  bool_decide (string_prop "subject" (own_props (deserializeTransportError (serializeError e) i)) = Some s) =
    bool_decide (te_subject (serializeError e) = Some s).
Proof.
  intros Hs.
  assert (∃ src, te_data (serializeError e) = collectStructuredProps src ∨ te_data (serializeError e) = None) as Hd.
  { destruct e as [? ? ? [[]|] ?|? []]; simpl; first [by exists []; right | by eexists; left]. }
  assert (∀ k, k ∈ JsMap.keys (default [] (te_data (serializeError e))) → k ∉ SKIP_PROPS) as Hsk.
  { destruct Hd as (src & [-> | ->]); [apply collect_keys|]. simpl. set_solver. }
  assert (NoDup (JsMap.keys (default [] (te_data (serializeError e))))) as Hnd.
  { destruct Hd as (src & [-> | ->]); [apply collect_NoDup|apply NoDup_nil_2]. }
  assert (∀ k, k ∈ SKIP_PROPS → JsMap.get k (default [] (te_data (serializeError e))) = None) as Hno.
  { intros k Hk. apply JsMap.get_None. intros Hin. by apply Hsk in Hin. }
  unfold string_prop. rewrite !deserialize_get, !Hno, !set_truthy_get by (done || (unfold SKIP_PROPS; set_solver)).
  simpl. split; apply bool_decide_ext.
  - destruct (te_code _) as [c|]; [|naive_solver]. case_decide; naive_solver.
  - destruct (te_subject _) as [c|]; simpl; [|naive_solver]. case_decide; naive_solver.
Qed.

(** *** Properties *)

(** An error survives the wire: every own enumerable property of a thrown
    error (without an [Error] cause) that is neither reserved nor [undefined]
    is restored exactly, nothing else is added, and the message is kept. *)
Theorem codec_roundtrip (identity i : nat) (cls : error_class) (message k : string)
    (own : list (string * value)) (Hown : NoDup (JsMap.keys own)) (Hk : k ∉ SKIP_PROPS) :
  let back := deserializeTransportError (serializeError (TErr identity cls message None own)) i in
  JsMap.get k (own_props back) =
    match JsMap.get k own with
    | Some v => if isSerializableValue v then Some v else None
    | None => None
    end ∧
  te_message (serializeError back) = message.
Proof.
  split; [|done]. rewrite deserialize_get by (apply collect_keys || apply collect_NoDup).
  simpl. rewrite collect_get, !set_truthy_get by done.
  destruct (not_identity_key _ Hk) as [Hc Hs]. rewrite !decide_False by done. simpl.
  destruct (JsMap.get k own) as [v|]; [|done].
  destruct (isSerializableValue v) eqn:E.
  - by rewrite decide_True.
  - rewrite decide_False; [done|]. intros [_ H]. simpl in H. congruence.
Qed.

(** "no handler" is recognised across a transport hop for exactly the
    subject it was raised for. *)
Theorem no_handler_roundtrip (i j : nat) (raised asked : string) (Ha : asked ≠ "") :
  isNoHandlerErrorForSubject
    (deserializeTransportError (serializeError (NoHandlerError raised i)) j) asked =
  bool_decide (raised = asked).
Proof.
  pose proof (deserialize_serialize_identity (NoHandlerError raised i) j) as Hid.
  destruct (Hid NO_HANDLER_ERROR_CODE ltac:(done)) as [Hcode _]. destruct (Hid asked Ha) as [_ Hsub].
  unfold isNoHandlerErrorForSubject.
  change (isRecognizedError (deserializeTransportError _ j)) with true.
  change (instanceof (deserializeTransportError _ j) NoHandlerErrorClass) with false.
  rewrite Hcode, Hsub. simpl. apply bool_decide_ext. naive_solver.
Qed.

(** A handler that failed because a nested request had no handler is
    wrapped in a [RequestError]; after the wire the wrapper passes for "no
    handler" of a subject exactly when it was built with that full subject.
    The dispatcher builds it with the short subject key, so a failed handler
    is never taken for a missing one. *)
Theorem wrapped_no_handler_roundtrip (i j k : nat) (wrapper nested message asked : string) (Ha : asked ≠ "") :
  isNoHandlerErrorForSubject
    (deserializeTransportError
       (serializeError (RequestError wrapper message (Some (NoHandlerError nested k)) i)) j) asked =
  bool_decide (wrapper = asked).
Proof.
  pose proof (deserialize_serialize_identity
    (RequestError wrapper message (Some (NoHandlerError nested k)) i) j) as Hid.
  destruct (Hid NO_HANDLER_ERROR_CODE ltac:(done)) as [Hcode _]. destruct (Hid asked Ha) as [_ Hsub].
  unfold isNoHandlerErrorForSubject.
  change (isRecognizedError (deserializeTransportError _ j)) with true.
  change (instanceof (deserializeTransportError _ j) NoHandlerErrorClass) with false.
  rewrite Hcode, Hsub. simpl. apply bool_decide_ext. naive_solver.
Qed.

Lemma codec_roundtrip_witness :
  let back := deserializeTransportError (serializeError
    (TErr 1 ErrorClass "boom" None [("retryable", VBool true); ("code", VStr "E1")])) 2 in
  JsMap.get "retryable" (own_props back) = Some (VBool true) ∧ te_message (serializeError back) = "boom".
Proof.
  apply (codec_roundtrip 1 2 ErrorClass "boom" "retryable" [("retryable", VBool true); ("code", VStr "E1")]);
    apply (bool_decide_unpack _); vm_compute; exact I.
Defined.

Lemma no_handler_roundtrip_witness :
  isNoHandlerErrorForSubject
    (deserializeTransportError (serializeError (NoHandlerError "log.write" 1)) 2) "log.write" = true.
Proof. rewrite no_handler_roundtrip by discriminate. reflexivity. Defined.

Lemma wrapped_no_handler_roundtrip_witness :
  isNoHandlerErrorForSubject (deserializeTransportError (serializeError
    (RequestError "write" "failed" (Some (NoHandlerError "log.write" 1)) 2)) 3) "log.write" = false.
Proof. rewrite wrapped_no_handler_roundtrip by discriminate. reflexivity. Defined.
