(* ===== verification/Correlation.v ===== *)
(** * Request correlation

    [core/bus-core/src/utils/correlation-tracker.ts] and the correlation half
    of [utils/transport-helpers.ts]: the table of requests a transport has sent
    and not seen answered.

    A promise is named by the moment it was created; [promises] keeps what it
    has settled with, if it has.  Timers and abort signals belong to the host:
    a timer is due [timer_delay] milliseconds after it was set and goes off at
    that moment or later, the timers that are due in any order; a signal calls
    its listeners in the order in which they were added, each once. *)
From S2P Require Import Prelude JsValue Errors.

(** ** State *)
Record Promise := { p_correlation : string; p_timeout : Z; p_since : Z; p_state : option (outcome thrown value) }.

Record PendingRequest := {
  promise : nat;
  timeoutId : option nat;
  abortListener : option (nat * nat)   (* the signal, the listener on it *)
}.
Record Timer := { due : Z; timer_correlation : string; timer_timeout : Z }.
Record Signal := { abort_reason : option thrown; listeners : list (nat * string) }.

Record Tracker := {
  pending : list (string * PendingRequest);
  promises : gmap nat Promise;
  timers : gmap nat Timer;
  signals : gmap nat Signal;
  clock : Z;
  next : nat
}.

Definition new_tracker (t : Z) : Tracker :=
  {| pending := []; promises := ∅; timers := ∅; signals := ∅; clock := t; next := 0 |}.

Definition with_pending (m : list (string * PendingRequest)) (st : Tracker) : Tracker :=
  {| pending := m; promises := promises st; timers := timers st; signals := signals st; clock := clock st; next := next st |}.
Definition with_promises (m : gmap nat Promise) (st : Tracker) : Tracker :=
  {| pending := pending st; promises := m; timers := timers st; signals := signals st; clock := clock st; next := next st |}.
Definition with_timers (m : gmap nat Timer) (st : Tracker) : Tracker :=
  {| pending := pending st; promises := promises st; timers := m; signals := signals st; clock := clock st; next := next st |}.
Definition with_signals (m : gmap nat Signal) (st : Tracker) : Tracker :=
  {| pending := pending st; promises := promises st; timers := timers st; signals := m; clock := clock st; next := next st |}.
Definition at_clock (t : Z) (st : Tracker) : Tracker :=
  {| pending := pending st; promises := promises st; timers := timers st; signals := signals st; clock := t; next := next st |}.
(** An identity has been used up. *)
Definition bump (st : Tracker) : Tracker :=
  {| pending := pending st; promises := promises st; timers := timers st; signals := signals st; clock := clock st; next := S (next st) |}.

(** ** The host *)
Definition set_state (o : outcome thrown value) (p : Promise) : Promise :=
  {| p_correlation := p_correlation p; p_timeout := p_timeout p; p_since := p_since p;
     p_state := match p_state p with Some s => Some s | None => Some o end |}.
(** A promise keeps the first state it settles with. *)
Definition settle (p : nat) (o : outcome thrown value) (st : Tracker) : Tracker :=
  with_promises (alter (set_state o) p (promises st)) st.

Definition TIMEOUT_MAX : Z := 2147483647.
(** [setTimeout] replaces a delay outside its range by one millisecond. *)
Definition timer_delay (timeout : Z) : Z :=
  if decide (1 ≤ timeout ≤ TIMEOUT_MAX) then timeout else 1.
Definition clearTimeout (t : option nat) (st : Tracker) : Tracker :=
  match t with Some i => with_timers (delete i (timers st)) st | None => st end.

Definition signal_of (st : Tracker) (s : nat) : Signal :=
  default {| abort_reason := None; listeners := [] |} (signals st !! s).
Definition aborted (signal : option nat) (st : Tracker) : option thrown :=
  signal ≫= λ s, abort_reason (signal_of st s).
Definition set_listeners (s : nat) (l : list (nat * string)) (st : Tracker) : Tracker :=
  with_signals (<[s := {| abort_reason := abort_reason (signal_of st s); listeners := l |}]> (signals st)) st.
Definition removeEventListener (l : option (nat * nat)) (st : Tracker) : Tracker :=
  match l with
  | Some (s, i) => set_listeners s (filter (λ x, x.1 ≠ i) (listeners (signal_of st s))) st
  | None => st
  end.

(** ** The tracker *)
Definition release (q : PendingRequest) (o : outcome thrown value) (st : Tracker) : Tracker :=
  settle (promise q) o (removeEventListener (abortListener q) (clearTimeout (timeoutId q) st)).

(** What [resolve] and [reject] share. *)
Definition finish (correlationId : string) (o : outcome thrown value) (st : Tracker) : Tracker :=
  match JsMap.get correlationId (pending st) with
  | None => st
  | Some q => release q o (with_pending (JsMap.delete correlationId (pending st)) st)
  end.
Definition resolve (correlationId : string) (result : value) : Tracker → Tracker :=
  finish correlationId (Ok result).
Definition reject (correlationId : string) (error : thrown) : Tracker → Tracker :=
  finish correlationId (Throw error).

(** A call of [reject] with an error made for it. *)
Definition reject_new (correlationId : string) (mk : nat → thrown) (st : Tracker) : Tracker :=
  reject correlationId (mk (next st)) (bump st).

Definition cancel (correlationId : string) (error : option thrown) (st : Tracker) : Tracker :=
  match error with
  | Some e => reject correlationId e st
  | None => reject_new correlationId (toAbortError (TVal 0 VUndef)) st
  end.

Definition rejectAll (error : thrown) (st : Tracker) : Tracker :=
  with_pending [] (foldl (λ s kq, release kq.2 (Throw error) s) st (pending st)).

Definition cleanup (st : Tracker) : Tracker :=
  rejectAll (TErr (next st) ErrorClass "Transport disconnected" None []) (bump st).

(** [track] creates the promise [next st]. *)
Definition start_timer (correlationId : string) (timeout : Z) (st : Tracker) : option nat * Tracker :=
  if decide (timeout = 0) then (None, st)
  else (Some (next st),
        bump (with_timers (<[next st := {| due := clock st + timer_delay timeout;
                                          timer_correlation := correlationId; timer_timeout := timeout |}]>
                             (timers st)) st)).

Definition addEventListener (s : nat) (correlationId : string) (q : PendingRequest) (st : Tracker) : Tracker :=
  let l := next st in
  with_pending (JsMap.set correlationId
      {| promise := promise q; timeoutId := timeoutId q; abortListener := Some (s, l) |} (pending st))
    (set_listeners s (listeners (signal_of st s) ++ [(l, correlationId)]) (bump st)).

Definition new_promise (correlationId : string) (timeout : Z) (st : Tracker) : Tracker :=
  bump (with_promises (<[next st := {| p_correlation := correlationId; p_timeout := timeout;
                                       p_since := clock st; p_state := None |}]> (promises st)) st).

Definition track (correlationId : string) (timeout : Z) (signal : option nat) (st : Tracker) : Tracker :=
  let p := next st in
  let st0 := new_promise correlationId timeout st in
  match aborted signal st0 with
  | Some reason => settle p (Throw (toAbortError reason (next st0))) (bump st0)
  | None =>
      let '(timer, st1) := start_timer correlationId timeout st0 in
      let q := {| promise := p; timeoutId := timer; abortListener := None |} in
      let st2 := with_pending (JsMap.set correlationId q (pending st1)) st1 in
      let st3 := match signal with Some s => addEventListener s correlationId q st2 | None => st2 end in
      match aborted signal st3 with
      | Some reason => reject_new correlationId (toAbortError reason) st3
      | None => st3
      end
  end.

(** ** What the host calls back *)
Definition fire (t : nat) (st : Tracker) : Tracker :=
  match timers st !! t with
  | None => st
  | Some timer =>
      let st1 := with_timers (delete t (timers st)) st in
      match JsMap.get (timer_correlation timer) (pending st1) with
      | None => st1
      | Some _ => reject_new (timer_correlation timer)
                    (TimeoutError (timer_correlation timer) (timer_timeout timer)) st1
      end
  end.

Definition call_listener (s : nat) (reason : thrown) (st : Tracker) (l : nat * string) : Tracker :=
  if decide (l ∈ listeners (signal_of st s))
  then reject_new l.2 (toAbortError reason) (removeEventListener (Some (s, l.1)) st)
  else st.

Definition abort (s : nat) (reason : thrown) (st : Tracker) : Tracker :=
  match abort_reason (signal_of st s) with
  | Some _ => st
  | None =>
      let ls := listeners (signal_of st s) in
      foldl (call_listener s reason)
        (with_signals (<[s := {| abort_reason := Some reason; listeners := ls |}]> (signals st)) st) ls
  end.

(** ** Messages *)
Inductive BusMessage :=
  | Request (correlationId : string)
  | Broadcast (correlationId : string)
  | Response (correlationId : string) (error : option BusTransportError) (result : value)
  | BroadcastResponse (correlationId : string) (error : option BusTransportError) (results : option value)
  | Other.

Definition handleCorrelationResponse (message : BusMessage) (st : Tracker) : bool * Tracker :=
  match message with
  | Response c (Some e) _ => (true, reject_new c (deserializeTransportError e) st)
  | Response c None result => (true, resolve c result st)
  | BroadcastResponse c (Some e) _ => (true, reject_new c (deserializeTransportError e) st)
  | BroadcastResponse c None results => (true, resolve c (default (VArr []) results) st)
  | _ => (false, st)
  end.

(** [Some p]: the promise that answers the message; [None]: settled with [true]. *)
Definition trackMessageCorrelation (message : BusMessage) (timeout : Z) (signal : option nat) (st : Tracker) :
    option nat * Tracker :=
  match message with
  | Request c | Broadcast c => (Some (next st), track c timeout signal st)
  | _ => (None, st)
  end.

(** ** Runs *)
Inductive Input :=
  | Send (m : BusMessage) (timeout : Z) (signal : option nat)
  | Receive (m : BusMessage)
  | Cancel (correlationId : string) (error : option thrown)
  | RejectAll (error : thrown)
  | Cleanup
  | Fire (timer : nat)
  | Abort (signal : nat) (reason : thrown)
  | Advance (t : Z).

Definition enabled (i : Input) (st : Tracker) : Prop :=
  match i with
  | Fire t => from_option (λ timer, due timer ≤ clock st) False (timers st !! t)
  | Advance t => clock st ≤ t
  | _ => True
  end.
#[export] Instance enabled_dec i st : Decision (enabled i st).
Proof. destruct i; simpl; try apply _. destruct (timers st !! timer); simpl; apply _. Defined.

Definition perform (i : Input) (st : Tracker) : Tracker :=
  match i with
  | Send m timeout signal => (trackMessageCorrelation m timeout signal st).2
  | Receive m => (handleCorrelationResponse m st).2
  | Cancel c e => cancel c e st
  | RejectAll e => rejectAll e st
  | Cleanup => cleanup st
  | Fire t => fire t st
  | Abort s reason => abort s reason st
  | Advance t => at_clock t st
  end.

Inductive step (st : Tracker) : Tracker → Prop :=
  | step_intro i : enabled i st → step st (perform i st).

(** The discipline of the callers: an id in use is not used again. *)
Definition fresh_id (i : Input) (st : Tracker) : Prop :=
  match i with
  | Send (Request c | Broadcast c) _ _ => JsMap.get c (pending st) = None
  | _ => True
  end.
Inductive proper_step (st : Tracker) : Tracker → Prop :=
  | proper_intro i : enabled i st → fresh_id i st → proper_step st (perform i st).

#[export] Instance fresh_id_dec i st : Decision (fresh_id i st).
Proof. destruct i as [[]| | | | | | |]; simpl; apply _. Defined.

Fixpoint run (inputs : list Input) (st : Tracker) : option Tracker :=
  match inputs with
  | [] => Some st
  | i :: rest => if decide (enabled i st ∧ fresh_id i st) then run rest (perform i st) else None
  end.

Lemma run_proper inputs st st' : run inputs st = Some st' → rtc proper_step st st'.
Proof.
  revert st. induction inputs as [|i rest IH]; intros st; simpl; [intros [= ->]; apply rtc_refl|].
  case_decide as H; [|done]. destruct H as [He Hf]. intros Hrun. eapply rtc_l; [exact (proper_intro st i He Hf)|by apply IH].
Qed.

Lemma proper_steps st st' : rtc proper_step st st' → rtc step st st'.
Proof. apply rtc_subrel. intros s1 s2 [i He _]. by constructor. Qed.

(** ** What an operation touches *)
Lemma settle_lookup p o st p' :
  promises (settle p o st) !! p' =
    if decide (p' = p) then set_state o <$> promises st !! p else promises st !! p'.
Proof.
  simpl. case_decide as H; [subst; by rewrite lookup_alter_eq|by rewrite lookup_alter_ne by congruence].
Qed.

Lemma signal_of_set_listeners s l st s' :
  signal_of (set_listeners s l st) s' =
    if decide (s' = s) then {| abort_reason := abort_reason (signal_of st s); listeners := l |}
    else signal_of st s'.
Proof.
  unfold signal_of, set_listeners. simpl. case_decide as H.
  - subst. by rewrite lookup_insert_eq.
  - by rewrite lookup_insert_ne by congruence.
Qed.

Definition unregistered (o : option (nat * nat)) (s : nat) (l : list (nat * string)) : list (nat * string) :=
  match o with Some (s', i) => if decide (s = s') then filter (λ x, x.1 ≠ i) l else l | None => l end.

Lemma removeEventListener_listeners o st s :
  listeners (signal_of (removeEventListener o st) s) = unregistered o s (listeners (signal_of st s)).
Proof.
  destruct o as [[s' i]|]; [|done]. unfold removeEventListener. rewrite signal_of_set_listeners. simpl.
  case_decide; by subst.
Qed.
Lemma removeEventListener_reason o st s :
  abort_reason (signal_of (removeEventListener o st) s) = abort_reason (signal_of st s).
Proof.
  destruct o as [[s' i]|]; [|done]. unfold removeEventListener. rewrite signal_of_set_listeners.
  case_decide; by subst.
Qed.

Lemma elem_of_unregistered x o s l :
  x ∈ unregistered o s l ↔ x ∈ l ∧ o ≠ Some (s, x.1).
Proof.
  destruct o as [[s' i]|]; simpl; [|naive_solver].
  case_decide; [rewrite list_elem_of_filter|]; naive_solver.
Qed.

Definition without_timer (o : option nat) (m : gmap nat Timer) : gmap nat Timer :=
  match o with Some t => delete t m | None => m end.
Lemma without_timer_Some o m t tm :
  without_timer o m !! t = Some tm ↔ m !! t = Some tm ∧ o ≠ Some t.
Proof.
  destruct o as [t'|]; simpl; [rewrite lookup_delete_Some|]; naive_solver.
Qed.

Lemma release_tracker_fields q o st :
  pending (release q o st) = pending st ∧ clock (release q o st) = clock st ∧
  next (release q o st) = next st ∧
  timers (release q o st) = without_timer (timeoutId q) (timers st) ∧
  promises (release q o st) = alter (set_state o) (promise q) (promises st).
Proof. destruct q as [p [t|] [[s l]|]]; done. Qed.

Lemma release_listeners q o st s :
  listeners (signal_of (release q o st) s) = unregistered (abortListener q) s (listeners (signal_of st s)).
Proof.
  unfold release. change (signal_of (settle _ _ ?x) s) with (signal_of x s).
  rewrite removeEventListener_listeners. by destruct (timeoutId q).
Qed.
Lemma release_reason q o st s :
  abort_reason (signal_of (release q o st) s) = abort_reason (signal_of st s).
Proof.
  unfold release. change (signal_of (settle _ _ ?x) s) with (signal_of x s).
  rewrite removeEventListener_reason. by destruct (timeoutId q).
Qed.

(** ** Each request is accounted for

    [exempt] names a request whose timer or listener the host has just taken. *)
Definition own_timer (c : string) (r : Promise) : Timer :=
  {| due := p_since r + timer_delay (p_timeout r); timer_correlation := c; timer_timeout := p_timeout r |}.

Definition timer_held (st : Tracker) (c : string) (q : PendingRequest) (r : Promise) : Prop :=
  match timeoutId q with
  | None => p_timeout r = 0
  | Some t => p_timeout r ≠ 0 ∧ timers st !! t = Some (own_timer c r)
  end.

Record numbered (st : Tracker) : Prop := {
  nb_promises : ∀ p r, promises st !! p = Some r → (p < next st)%nat;
  nb_timers : ∀ t tm, timers st !! t = Some tm → (t < next st)%nat;
  nb_pending : ∀ c q, JsMap.get c (pending st) = Some q →
    (∀ t, timeoutId q = Some t → (t < next st)%nat) ∧ ∀ s l, abortListener q = Some (s, l) → (l < next st)%nat
}.

Record accounted (exempt : option string) (st : Tracker) : Prop := {
  ac_numbers : numbered st;
  ac_keys : NoDup (JsMap.keys (pending st));
  ac_promise : ∀ c q, JsMap.get c (pending st) = Some q →
    ∃ r, promises st !! promise q = Some r ∧ p_state r = None ∧ p_correlation r = c ∧
      (exempt ≠ Some c → timer_held st c q r);
  ac_unsettled : ∀ p r, promises st !! p = Some r → p_state r = None →
    ∃ q, JsMap.get (p_correlation r) (pending st) = Some q ∧ promise q = p;
  ac_timers : ∀ t tm, timers st !! t = Some tm →
    ∃ q, JsMap.get (timer_correlation tm) (pending st) = Some q ∧ timeoutId q = Some t;
  ac_listening : ∀ c q s l, JsMap.get c (pending st) = Some q → exempt ≠ Some c →
    abortListener q = Some (s, l) → (l, c) ∈ listeners (signal_of st s);
  ac_distinct : ∀ c c' q q', JsMap.get c (pending st) = Some q → JsMap.get c' (pending st) = Some q' → c ≠ c' →
    (∀ t, timeoutId q = Some t → timeoutId q' ≠ Some t) ∧
    ∀ s l, abortListener q = Some (s, l) → abortListener q' ≠ Some (s, l);
  ac_listeners : ∀ s l c, (l, c) ∈ listeners (signal_of st s) →
    ∃ q, JsMap.get c (pending st) = Some q ∧ abortListener q = Some (s, l)
}.

(** An aborted signal has called its listeners. *)
Definition called (st : Tracker) (s : nat) : Prop :=
  abort_reason (signal_of st s) ≠ None → listeners (signal_of st s) = [].

Lemma accounted_weaken c st : accounted None st → accounted (Some c) st.
Proof.
  intros [Hn Hk Hp Hu Ht Hl Hd Hls]. split; try done.
  - intros c' q Hq. destruct (Hp c' q Hq) as (r & ? & ? & ? & ?). exists r. naive_solver.
  - intros c' q s l Hq _ Ha. by eapply Hl.
Qed.

Lemma accounted_bump ex st : accounted ex st → accounted ex (bump st).
Proof.
  intros [[Np Nt Nl] Hk Hp Hu Ht Hl Hd Hls]. split; try done. split; simpl.
  - intros p r H. specialize (Np p r H). lia.
  - intros t tm H. specialize (Nt t tm H). lia.
  - intros c q Hq. destruct (Nl c q Hq) as [N1 N2]. split; [intros t H|intros s l H].
    + specialize (N1 t H). lia.
    + specialize (N2 s l H). lia.
Qed.

Lemma finish_accounted ex c o st :
  accounted ex st → (ex = None ∨ ex = Some c) → accounted None (finish c o st).
Proof.
  intros [[Np Nt Nl] Hk Hp Hu Ht Hl Hd Hls] Hex. unfold finish.
  destruct (JsMap.get c (pending st)) as [q|] eqn:Hq.
  2:{ split; try done.
      - intros c' q Hq'. destruct (Hp c' q Hq') as (r & ? & ? & ? & ?). exists r.
        split_and!; try done. intros _. assert (c' ≠ c) by congruence. naive_solver.
      - intros c' q s l Hq' _ Ha. eapply Hl; [done| |done]. intros ->. destruct Hex; simplify_eq. }
  set (st1 := with_pending _ st).
  destruct (release_tracker_fields q o st1) as (Ep & Ec & En & Et & Er).
  pose proof (λ s, release_listeners q o st1 s) as El.
  change (timers st1) with (timers st) in Et. change (promises st1) with (promises st) in Er.
  assert (∀ s, signal_of st1 s = signal_of st s) as Es by done.
  destruct (Hp c q Hq) as (rq & Hrq & Hun & Hcq & _).
  assert (∀ c' q', JsMap.get c' (pending st) = Some q' → c' ≠ c → promise q' ≠ promise q) as Hdiff.
  { intros c' q' Hq' Hne Heq. destruct (Hp c' q' Hq') as (r & Hr & _ & Hcr & _). congruence. }
  assert (∀ c' q', JsMap.get c' (pending (release q o st1)) = Some q' ↔ c' ≠ c ∧ JsMap.get c' (pending st) = Some q')
    as Eg.
  { intros c' q'. rewrite Ep. unfold st1, with_pending. cbn [pending]. rewrite JsMap.get_delete.
    case_decide; naive_solver. }
  assert (∀ c', c' ≠ c → ex ≠ Some c') as Hne by (destruct Hex; congruence).
  split.
  - split; rewrite En; change (next st1) with (next st).
    + intros p r. rewrite Er. intros [[_ [x [H _]]]|[_ H]]%lookup_alter_Some; naive_solver.
    + intros t tm. rewrite Et. intros [H _]%without_timer_Some. eauto.
    + intros c' q' [_ Hq']%Eg. eauto.
  - rewrite Ep. by apply JsMap.NoDup_keys_delete.
  - intros c' q' [Hc Hq']%Eg. destruct (Hp c' q' Hq') as (r & Hr & Hur & Hcr & Hti). exists r.
    rewrite Er, lookup_alter_ne by (apply not_eq_sym; eauto). split_and!; try done. intros _.
    specialize (Hti (Hne c' Hc)). unfold timer_held in *. destruct (timeoutId q') as [t|] eqn:Ht'; [|done].
    split; [apply Hti|]. rewrite Et. apply without_timer_Some. split; [apply Hti|].
    intros Hbad. exact (proj1 (Hd c c' q q' Hq Hq' (not_eq_sym Hc)) t Hbad Ht').
  - intros p r. rewrite Er. destruct (decide (p = promise q)) as [->|Hpne].
    + rewrite lookup_alter_eq, Hrq. simpl. intros [= <-] Hst. simpl in Hst. by rewrite Hun in Hst.
    + rewrite lookup_alter_ne by congruence. intros Hr Hst. destruct (Hu p r Hr Hst) as (q' & Hq' & Hpq).
      exists q'. rewrite Eg. split; [|done]. split; [congruence|done].
  - intros t tm. rewrite Et. intros [H Htne]%without_timer_Some.
    destruct (Ht t tm H) as (q' & Hq' & Hid). exists q'. rewrite Eg. split_and!; [congruence|done..].
  - intros c' q' s l [Hc Hq']%Eg _ Ha. rewrite El, Es. apply elem_of_unregistered. split; [by eapply Hl; eauto|].
    intros Hb. exact (proj2 (Hd c c' q q' Hq Hq' (not_eq_sym Hc)) s l Hb Ha).
  - intros c1 c2 q1 q2 [_ H1]%Eg [_ H2]%Eg. eauto.
  - intros s l c'. rewrite El, Es. intros [H Hb]%elem_of_unregistered.
    destruct (Hls s l c' H) as (q' & Hq' & Ha). exists q'. rewrite Eg. simpl in Hb. split_and!; [congruence|done..].
Qed.

Definition open_request (c : string) (timeout : Z) (st : Tracker) : Tracker :=
  let '(timer, st1) := start_timer c timeout (new_promise c timeout st) in
  with_pending (JsMap.set c {| promise := next st; timeoutId := timer; abortListener := None |} (pending st1)) st1.

Lemma timer_delay_positive t : 1 ≤ timer_delay t.
Proof. unfold timer_delay. case_decide; lia. Qed.

Lemma open_request_fields c timeout st :
  let st' := open_request c timeout st in
  let timer := if decide (timeout = 0) then None else Some (S (next st)) in
  let r := {| p_correlation := c; p_timeout := timeout; p_since := clock st; p_state := None |} in
  pending st' = JsMap.set c {| promise := next st; timeoutId := timer; abortListener := None |} (pending st) ∧
  promises st' = <[next st := r]> (promises st) ∧ signals st' = signals st ∧ clock st' = clock st ∧
  (next st < next st')%nat ∧ (∀ t, timer = Some t → (t < next st')%nat) ∧
  timers st' = match timer with Some t => <[t := own_timer c r]> (timers st) | None => timers st end.
Proof.
  unfold open_request, start_timer. case_decide; simpl; split_and!; try done; try lia; intros; simplify_eq; lia.
Qed.

Lemma open_request_accounted c timeout st :
  accounted None st → JsMap.get c (pending st) = None → accounted None (open_request c timeout st).
Proof.
  intros [[Np Nt Nl] Hk Hp Hu Ht Hl Hd Hls] Hc.
  destruct (open_request_fields c timeout st) as (Ep & Er & Es & Ec & En & En' & Et).
  set (st' := open_request c timeout st) in *.
  set (timer := if decide (timeout = 0) then None else Some (S (next st))) in *.
  set (r := {| p_correlation := c |}) in *. set (q := {| promise := next st |}) in *.
  assert (∀ s, signal_of st' s = signal_of st s) as Esig by (unfold signal_of; by rewrite Es).
  assert (∀ c' q', JsMap.get c' (pending st') = Some q' ↔
    c' = c ∧ q' = q ∨ c' ≠ c ∧ JsMap.get c' (pending st) = Some q') as Eg.
  { intros c' q'. rewrite Ep, JsMap.get_set. case_decide; subst; [naive_solver congruence|].
    split; [intros ?; right; split; congruence|intros [[??]|[??]]; congruence]. }
  assert (∀ c' q' t, JsMap.get c' (pending st) = Some q' → timeoutId q' = Some t → timer ≠ Some t) as Hfresh.
  { intros c' q' t Hq' Ht' Htm. destruct (Nl c' q' Hq') as [N _]. specialize (N t Ht').
    unfold timer in Htm. case_decide; simplify_eq; lia. }
  assert (∀ t tm, timers st' !! t = Some tm ↔ timer = Some t ∧ tm = own_timer c r ∨ timer ≠ Some t ∧ timers st !! t = Some tm)
    as Etm.
  { intros t tm. rewrite Et. destruct timer as [t'|]; [rewrite lookup_insert_Some|]; naive_solver. }
  split.
  - split.
    + intros p x. rewrite Er. intros [[<- _]|[_ H]]%lookup_insert_Some; [done|]. specialize (Np p x H). lia.
    + intros t tm [[H _]|[_ H]]%Etm; [by apply En'|]. specialize (Nt t tm H). lia.
    + intros c' q' [[-> ->]|[_ H]]%Eg; [split; [apply En'|done]|].
      destruct (Nl c' q' H) as [N1 N2]. split; [intros t Ht'|intros s l Hs].
      * specialize (N1 t Ht'). lia.
      * specialize (N2 s l Hs). lia.
  - rewrite Ep. by apply JsMap.NoDup_keys_set.
  - intros c' q' [[-> ->]|[Hne H]]%Eg.
    + exists r. rewrite Er, lookup_insert_eq. split_and!; try done. intros _. unfold timer_held. simpl.
      destruct timer as [t|] eqn:Htm; unfold timer in Htm; case_decide; simplify_eq; try done.
      split; [done|]. apply Etm. left. done.
    + destruct (Hp c' q' H) as (x & Hx & Hux & Hcx & Hti). exists x. rewrite Er, lookup_insert_ne
        by (pose proof (Np _ _ Hx); lia). split_and!; try done. intros Hex. specialize (Hti Hex).
      unfold timer_held in *. destruct (timeoutId q') as [t|] eqn:Ht'; [|done].
      split; [apply Hti|]. apply Etm. right. split; [by eapply Hfresh|apply Hti].
  - intros p x. rewrite Er. intros [[<- <-]|[Hne H]]%lookup_insert_Some Hx.
    + exists q. rewrite Eg. auto.
    + destruct (Hu p x H Hx) as (q' & Hq' & Hpq). exists q'. rewrite Eg. split; [|done]. right.
      split; [congruence|done].
  - intros t tm [[H ->]|[Hne H]]%Etm.
    + exists q. rewrite Eg. simpl. auto.
    + destruct (Ht t tm H) as (q' & Hq' & Hid). exists q'. rewrite Eg.
      split; [right; split; [congruence|done]|done].
  - intros c' q' s l [[-> ->]|[Hne H]]%Eg _ Ha; [done|]. rewrite Esig. by eapply Hl.
  - intros c1 c2 q1 q2 [[-> ->]|[H1 G1]]%Eg [[-> ->]|[H2 G2]]%Eg Hne; try done.
    + split; [|done]. simpl. intros t Htm Hbad. by eapply Hfresh.
    + split; [|done]. simpl. intros t Htm Hbad. by eapply Hfresh.
    + by eapply Hd.
  - intros s l c'. rewrite Esig. intros H. destruct (Hls s l c' H) as (q' & Hq' & Ha). exists q'. rewrite Eg.
    split; [right; split; [congruence|done]|done].
Qed.

Lemma addEventListener_accounted s c q st :
  accounted None st → JsMap.get c (pending st) = Some q → abortListener q = None →
  accounted None (addEventListener s c q st).
Proof.
  intros [[Np Nt Nl] Hk Hp Hu Ht Hl Hd Hls] Hc Hq.
  set (st' := addEventListener s c q st).
  set (q1 := {| promise := promise q; timeoutId := timeoutId q; abortListener := Some (s, next st) |}).
  assert (pending st' = JsMap.set c q1 (pending st)) as Ep by done.
  assert (next st' = S (next st)) as En by done.
  assert (∀ s', listeners (signal_of st' s') =
    listeners (signal_of st s') ++ if decide (s' = s) then [(next st, c)] else []) as El.
  { intros s'. unfold st', addEventListener. change (signal_of (with_pending _ ?x) s') with (signal_of x s').
    rewrite signal_of_set_listeners. case_decide; simpl; [by subst|by rewrite app_nil_r]. }
  assert (∀ c' q', JsMap.get c' (pending st') = Some q' ↔
    c' = c ∧ q' = q1 ∨ c' ≠ c ∧ JsMap.get c' (pending st) = Some q') as Eg.
  { intros c' q'. rewrite Ep, JsMap.get_set. case_decide; subst; [naive_solver congruence|].
    split; [intros ?; right; split; congruence|intros [[??]|[??]]; congruence]. }
  assert (∀ c' q' s', JsMap.get c' (pending st) = Some q' → abortListener q' ≠ Some (s', next st)) as Hfresh.
  { intros c' q' s' Hq' Ha. destruct (Nl c' q' Hq') as [_ N]. specialize (N _ _ Ha). lia. }
  split; try done.
  - split; rewrite ?En.
    + intros p r H. specialize (Np p r H). lia.
    + intros t tm H. specialize (Nt t tm H). lia.
    + intros c' q' [[-> ->]|[_ H]]%Eg; simpl.
      * destruct (Nl c q Hc) as [N1 _]. split; [intros t H; specialize (N1 t H); lia|intros; simplify_eq; lia].
      * destruct (Nl c' q' H) as [N1 N2]. split; [intros t Ht'; specialize (N1 t Ht'); lia|].
        intros s' l Hs. specialize (N2 s' l Hs). lia.
  - rewrite Ep. by apply JsMap.NoDup_keys_set.
  - intros c' q' [[-> ->]|[_ H]]%Eg; [exact (Hp c q Hc)|exact (Hp c' q' H)].
  - intros p r H Hr. destruct (Hu p r H Hr) as (q' & Hq' & Hpq).
    destruct (decide (p_correlation r = c)) as [E|E]; [exists q1|exists q']; rewrite Eg; split; auto.
    simpl. congruence.
  - intros t tm H. destruct (Ht t tm H) as (q' & Hq' & Hid).
    destruct (decide (timer_correlation tm = c)) as [E|E]; [exists q1|exists q']; rewrite Eg; split; auto.
    simpl. congruence.
  - intros c' q' s' l [[-> ->]|[Hne H]]%Eg _ Ha; rewrite El, elem_of_app.
    + simpl in Ha. simplify_eq. right. rewrite decide_True by done. by apply list_elem_of_singleton.
    + left. by eapply Hl.
  - intros c1 c2 q2 q3 [[-> ->]|[H1 G1]]%Eg [[-> ->]|[H2 G2]]%Eg Hne; try done.
    + split; [exact (proj1 (Hd c c2 q q3 Hc G2 Hne))|]. simpl. intros s' l [= <- <-]. by eapply Hfresh.
    + split; [exact (proj1 (Hd c1 c q2 q G1 Hc Hne))|]. simpl. intros s' l Ha Hb.
      injection Hb as <- <-. by eapply Hfresh.
    + by eapply Hd.
  - intros s' l c'. rewrite El, elem_of_app. intros [H|H].
    + destruct (Hls s' l c' H) as (q' & Hq' & Ha). exists q'. rewrite Eg. split; [|done]. right.
      split; [congruence|done].
    + case_decide; [|by apply elem_of_nil in H]. apply list_elem_of_singleton in H. simplify_eq.
      exists q1. rewrite Eg. auto.
Qed.

Lemma settled_promise_accounted c timeout o st :
  accounted None st → accounted None (settle (next st) o (bump (new_promise c timeout st))).
Proof.
  intros [[Np Nt Nl] Hk Hp Hu Ht Hl Hd Hls]. unfold settle, new_promise.
  set (r := {| p_correlation := c |}).
  assert (∀ p x, alter (set_state o) (next st) (<[next st := r]> (promises st)) !! p = Some x ↔
    p = next st ∧ x = set_state o r ∨ p ≠ next st ∧ promises st !! p = Some x) as Er.
  { intros p x. destruct (decide (p = next st)) as [->|H].
    - rewrite lookup_alter_eq, lookup_insert_eq. simpl. naive_solver.
    - rewrite lookup_alter_ne, lookup_insert_ne by congruence. naive_solver. }
  split; try done; simpl.
  - split; simpl.
    + intros p x [[-> ->]|[_ H]]%Er; [lia|]. specialize (Np p x H). lia.
    + intros t tm H. specialize (Nt t tm H). lia.
    + intros c' q Hq. destruct (Nl c' q Hq) as [N1 N2]. split; [intros t H; specialize (N1 t H); lia|].
      intros s l H. specialize (N2 s l H). lia.
  - intros c' q Hq. destruct (Hp c' q Hq) as (x & Hx & Hux & Hcx & Hti). exists x. split; [|done].
    apply Er. right. split; [|done]. specialize (Np _ _ Hx). lia.
  - intros p x [[-> ->]|[_ H]]%Er; [done|by apply Hu].
Qed.

Lemma track_accounted c timeout signal st :
  accounted None st → JsMap.get c (pending st) = None → accounted None (track c timeout signal st).
Proof.
  intros Hok Hc. unfold track.
  destruct (aborted signal (new_promise c timeout st)); [by apply settled_promise_accounted|].
  pose proof (open_request_accounted c timeout st Hok Hc) as H1.
  pose proof (open_request_fields c timeout st) as (Ep & _). unfold open_request in H1, Ep.
  destruct (start_timer c timeout (new_promise c timeout st)) as [timer st1].
  set (q := {| promise := next st; timeoutId := timer; abortListener := None |}) in *.
  set (st2 := with_pending _ st1) in *.
  assert (accounted None (match signal with Some s => addEventListener s c q st2 | None => st2 end)) as H3.
  { destruct signal; [|done]. apply addEventListener_accounted; [done| |done].
    unfold st2. simpl. apply JsMap.get_set_eq. }
  destruct (aborted signal _); [|done]. unfold reject_new, reject.
  eapply finish_accounted; [by apply accounted_bump|by left].
Qed.

(** A timer that has gone off belongs to a request. *)
Lemma fire_exempt t tm q st :
  accounted None st → timers st !! t = Some tm →
  JsMap.get (timer_correlation tm) (pending st) = Some q → timeoutId q = Some t →
  accounted (Some (timer_correlation tm)) (bump (with_timers (delete t (timers st)) st)).
Proof.
  intros [[Np Nt Nl] Hk Hp Hu Ht Hl Hd Hls] Htm Hq Hid. apply accounted_bump.
  set (st1 := with_timers _ st). split; try done.
  - split; [done| |done]. simpl. intros t' tm' [_ H]%lookup_delete_Some. eauto.
  - intros c' q' Hq'. destruct (Hp c' q' Hq') as (r & Hr & Hur & Hcr & Hti). exists r.
    split_and!; try done. intros Hne. assert (timer_correlation tm ≠ c') as Hne' by congruence.
    specialize (Hti ltac:(done)). unfold timer_held in *.
    destruct (timeoutId q') as [t'|] eqn:Ht'; [|done]. split; [apply Hti|]. simpl.
    rewrite lookup_delete_ne; [apply Hti|]. intros <-. simpl in Hq'.
    exact (proj1 (Hd _ _ q q' Hq Hq' Hne') t Hid Ht').
  - intros t' tm' H. unfold st1 in H. simpl in H. apply lookup_delete_Some in H as [_ H]. apply (Ht t' tm' H).
  - intros c' q' s l Hq' _ Ha. by eapply Hl.
Qed.

Lemma fire_accounted t st : accounted None st → accounted None (fire t st).
Proof.
  intros Hok. unfold fire. destruct (timers st !! t) as [tm|] eqn:Htm; [|done].
  destruct (ac_timers _ _ Hok t tm Htm) as (q & Hq & Hid).
  change (pending (with_timers _ st)) with (pending st). rewrite Hq. unfold reject_new, reject.
  eapply finish_accounted; [by eapply fire_exempt|by right].
Qed.

(** A listener that is registered belongs to a request, and calling it
    rejects that request. *)
Lemma unlisten_accounted s i c st :
  accounted None st → (i, c) ∈ listeners (signal_of st s) →
  accounted (Some c) (bump (removeEventListener (Some (s, i)) st)).
Proof.
  intros Hok Hin. destruct (ac_listeners _ _ Hok s i c Hin) as (q & Hq & Ha).
  apply accounted_bump. set (st1 := removeEventListener _ st).
  destruct Hok as [[Np Nt Nl] Hk Hp Hu Ht Hl Hd Hls]. split; try done.
  - intros c' q' Hq'. destruct (Hp c' q' Hq') as (r & Hr & Hur & Hcr & Hti). exists r.
    split_and!; try done. intros _. by apply Hti.
  - intros c' q' s' l Hq' Hne Ha'. unfold st1. rewrite removeEventListener_listeners.
    apply elem_of_unregistered. split; [by eapply Hl|]. simpl. intros [= -> ->].
    refine (proj2 (Hd c c' q q' Hq Hq' _) s' l Ha Ha'). congruence.
  - intros s' l c'. unfold st1. rewrite removeEventListener_listeners. intros [H _]%elem_of_unregistered.
    by apply Hls.
Qed.

Lemma call_listener_accounted s reason l st : accounted None st → accounted None (call_listener s reason st l).
Proof.
  intros Hok. unfold call_listener. case_decide as Hin; [|done]. destruct l as [i c].
  unfold reject_new, reject. simpl. eapply finish_accounted; [by apply unlisten_accounted|by right].
Qed.

Lemma set_reason_accounted s reason st :
  accounted None st →
  accounted None (with_signals (<[s := {| abort_reason := Some reason; listeners := listeners (signal_of st s) |}]>
                                  (signals st)) st).
Proof.
  intros [[Np Nt Nl] Hk Hp Hu Ht Hl Hd Hls].
  set (st1 := with_signals _ st).
  assert (∀ s', listeners (signal_of st1 s') = listeners (signal_of st s')) as El.
  { intros s'. unfold st1, signal_of at 1. simpl. destruct (decide (s' = s)) as [->|Hne].
    - by rewrite lookup_insert_eq.
    - by rewrite lookup_insert_ne by congruence. }
  split; try done.
  - intros c q s' l. rewrite El. apply Hl.
  - intros s' l c. rewrite El. apply Hls.
Qed.

Lemma abort_accounted s reason st : accounted None st → accounted None (abort s reason st).
Proof.
  intros Hok. unfold abort. destruct (abort_reason _); [done|].
  apply foldl_inv; [intros; by apply call_listener_accounted|by apply set_reason_accounted].
Qed.

(** [rejectAll] rejects the pending requests one by one. *)
Lemma release_with_pending q o m st : release q o (with_pending m st) = with_pending m (release q o st).
Proof. destruct q as [p [t|] [[s l]|]]; reflexivity. Qed.

Lemma foldl_release o (m : list (string * PendingRequest)) st :
  NoDup (JsMap.keys m) →
  with_pending [] (foldl (λ s kq, release kq.2 o s) st m) =
    foldl (λ s c, finish c o s) (with_pending m st) (JsMap.keys m).
Proof.
  revert st. induction m as [|[c q] m IH]; intros st Hk; [done|]. simpl in *.
  apply NoDup_cons in Hk as [Hc Hk]. rewrite IH by done. f_equal.
  unfold finish. simpl. rewrite decide_True by done. simpl. rewrite decide_True by done.
  rewrite JsMap.delete_absent by (by apply JsMap.get_None). by rewrite !release_with_pending.
Qed.

Lemma rejectAll_each error st :
  NoDup (JsMap.keys (pending st)) →
  rejectAll error st = foldl (λ s c, reject c error s) st (JsMap.keys (pending st)).
Proof. intros Hk. unfold rejectAll. rewrite foldl_release by done. by destruct st. Qed.

Lemma rejectAll_accounted error st : accounted None st → accounted None (rejectAll error st).
Proof.
  intros Hok. rewrite rejectAll_each by apply Hok.
  apply foldl_inv; [|done]. intros. eapply finish_accounted; [done|by left].
Qed.

(** ** Aborted signals *)
Definition all_called (st : Tracker) : Prop := ∀ s, called st s.

Lemma called_shrink st st' s :
  abort_reason (signal_of st' s) = abort_reason (signal_of st s) →
  (∀ l, l ∈ listeners (signal_of st' s) → l ∈ listeners (signal_of st s)) →
  called st s → called st' s.
Proof.
  intros Hr Hsub Hc Ha. rewrite Hr in Ha. specialize (Hc Ha). rewrite Hc in Hsub.
  destruct (listeners (signal_of st' s)) as [|x l]; [done|].
  exfalso. apply (not_elem_of_nil x), Hsub. by apply elem_of_cons; left.
Qed.

Lemma finish_signals c o st s :
  abort_reason (signal_of (finish c o st) s) = abort_reason (signal_of st s) ∧
  ∀ l, l ∈ listeners (signal_of (finish c o st) s) → l ∈ listeners (signal_of st s).
Proof.
  unfold finish. destruct (JsMap.get c (pending st)) as [q|]; [|done].
  rewrite release_reason, release_listeners. split; [done|]. intros l [Hl _]%elem_of_unregistered. exact Hl.
Qed.

Lemma finish_called c o st : all_called st → all_called (finish c o st).
Proof. intros H s. destruct (finish_signals c o st s). by eapply called_shrink. Qed.

Lemma call_listener_signals s0 reason st l s :
  abort_reason (signal_of (call_listener s0 reason st l) s) = abort_reason (signal_of st s) ∧
  (∀ x, x ∈ listeners (signal_of (call_listener s0 reason st l) s) → x ∈ listeners (signal_of st s)) ∧
  (s = s0 → l ∉ listeners (signal_of (call_listener s0 reason st l) s)).
Proof.
  unfold call_listener. case_decide as Hin; [|split_and!; [done..|by intros ->]].
  unfold reject_new, reject. set (st1 := removeEventListener _ st).
  destruct (finish_signals l.2 (Throw (toAbortError reason (next st1))) (bump st1) s) as [Hr Hsub].
  change (signal_of (bump st1) s) with (signal_of st1 s) in Hr, Hsub. split_and!.
  - rewrite Hr. apply removeEventListener_reason.
  - intros x Hx%Hsub. unfold st1 in Hx. rewrite removeEventListener_listeners in Hx.
    by apply elem_of_unregistered in Hx as [Hx _].
  - intros -> Hx%Hsub. unfold st1 in Hx. rewrite removeEventListener_listeners in Hx.
    by apply elem_of_unregistered in Hx as [_ Hx].
Qed.

Lemma call_listeners_all s reason ls st :
  (∀ x, x ∈ listeners (signal_of st s) → x ∈ ls) →
  listeners (signal_of (foldl (call_listener s reason) st ls) s) = [].
Proof.
  revert st. induction ls as [|l ls IH]; intros st Hsub; simpl.
  - destruct (listeners (signal_of st s)) as [|x rest]; [done|].
    exfalso. apply (not_elem_of_nil x), Hsub. by apply elem_of_cons; left.
  - apply IH. intros x Hx. destruct (call_listener_signals s reason st l s) as (_ & Hs & Hl).
    specialize (Hl eq_refl). pose proof (Hs x Hx) as H. apply Hsub in H. apply elem_of_cons in H as [->|H]; done.
Qed.

Lemma abort_called s reason st : all_called st → all_called (abort s reason st).
Proof.
  intros Hc s'. unfold abort. destruct (abort_reason (signal_of st s)) eqn:Hr; [done|].
  set (st1 := with_signals _ st).
  assert (∀ x, signal_of st1 x = if decide (x = s) then {| abort_reason := Some reason;
            listeners := listeners (signal_of st s) |} else signal_of st x) as E1.
  { intros x. unfold st1, signal_of. simpl. case_decide; [subst; by rewrite lookup_insert_eq|].
    by rewrite lookup_insert_ne by congruence. }
  destruct (decide (s' = s)) as [->|Hne].
  - intros _. apply call_listeners_all. intros x. rewrite E1, decide_True by done. done.
  - assert (∀ ls st2, called st2 s' → called (foldl (call_listener s reason) st2 ls) s') as Hfold.
    { intros ls. induction ls as [|l ls IH]; intros st2 H2; [done|]. simpl. apply IH.
      destruct (call_listener_signals s reason st2 l s') as (? & ? & _). by eapply called_shrink. }
    apply Hfold. unfold called. rewrite E1, decide_False by done. apply Hc.
Qed.

Lemma track_called c timeout signal st : all_called st → all_called (track c timeout signal st).
Proof.
  intros Hc. unfold track. destruct (aborted signal (new_promise c timeout st)) eqn:Ha; [exact Hc|].
  pose proof (open_request_fields c timeout st) as (_ & _ & Es & _). unfold open_request in Es.
  destruct (start_timer c timeout (new_promise c timeout st)) as [timer st1].
  set (q := {| promise := next st; timeoutId := timer; abortListener := None |}) in *.
  set (st2 := with_pending _ st1) in *.
  assert (∀ s, signal_of st2 s = signal_of st s) as E2 by (intros s; unfold signal_of; by rewrite Es).
  assert (all_called st2) as H2 by (intros s; unfold called; rewrite E2; apply Hc).
  set (st3 := match signal with Some s => _ | None => _ end).
  assert (all_called st3) as H3.
  { unfold st3. destruct signal as [s|]; [|done]. intros s'. unfold addEventListener.
    change (called (set_listeners s (listeners (signal_of st2 s) ++ [(next st2, c)]) (bump st2)) s').
    unfold called. rewrite signal_of_set_listeners. case_decide; [|apply H2].
    simpl. intros Hr. exfalso. apply Hr. change (abort_reason (signal_of st2 s) = None). by rewrite E2. }
  destruct (aborted signal st3); [|done]. unfold reject_new, reject. by apply finish_called.
Qed.

Lemma fire_called t st : all_called st → all_called (fire t st).
Proof.
  intros Hc. unfold fire. destruct (timers st !! t) as [tm|]; [|done].
  destruct (JsMap.get _ _); [|done]. unfold reject_new, reject. by apply finish_called.
Qed.

(** ** Every proper run *)
Definition sound (st : Tracker) : Prop := accounted None st ∧ all_called st.

Lemma new_tracker_sound t : sound (new_tracker t).
Proof.
  split; [|done]. split; try done; [constructor|].
  intros s l c Hl. by apply elem_of_nil in Hl.
Qed.

Lemma finish_sound c o st : sound st → sound (finish c o st).
Proof. intros [H1 H2]. split; [eapply finish_accounted; [done|by left]|by apply finish_called]. Qed.
Lemma bump_sound st : sound st → sound (bump st).
Proof. intros [H1 H2]. split; [by apply accounted_bump|done]. Qed.
#[local] Hint Resolve finish_sound bump_sound : core.

Lemma rejectAll_sound error st : sound st → sound (rejectAll error st).
Proof.
  intros Hok. rewrite rejectAll_each by apply Hok.
  apply foldl_inv; [|done]. intros. by apply finish_sound.
Qed.

Lemma at_clock_sound t st : enabled (Advance t) st → sound st → sound (at_clock t st).
Proof.
  intros _ [[Hn Hk Hp Hu Ht Hl Hd Hls] Hc]. split; [|done]. split; try done. by destruct Hn.
Qed.

Lemma perform_sound i st : enabled i st → fresh_id i st → sound st → sound (perform i st).
Proof.
  unfold perform, cancel, cleanup, reject_new, resolve, reject. destruct i as [m timeout s|m|c e|e| |t|s r|t];
    intros He Hf Hok; try (by auto using rejectAll_sound, at_clock_sound).
  - destruct m; simpl in *; try exact Hok;
      (split; [apply track_accounted; [apply Hok|exact Hf]|apply track_called, Hok]).
  - destruct m as [?|?|c [e|] v|c [e|] v|]; simpl; unfold reject_new, reject, resolve; auto.
  - destruct e; auto.
  - split; [by apply fire_accounted, Hok|by apply fire_called, Hok].
  - split; [by apply abort_accounted, Hok|by apply abort_called, Hok].
Qed.

Lemma proper_sound t st : rtc proper_step (new_tracker t) st → sound st.
Proof.
  intros H. apply (@rtc_ind_r _ proper_step sound (new_tracker t)); [by apply new_tracker_sound| |exact H].
  intros st1 st2 _ [i He Hf] Hok. by apply perform_sound.
Qed.

(** ** Which promises an operation settles *)
Lemma finish_entry c o st c' :
  JsMap.get c' (pending (finish c o st)) = if decide (c' = c) then None else JsMap.get c' (pending st).
Proof.
  unfold finish. destruct (JsMap.get c (pending st)) as [q|] eqn:Hq.
  - destruct (release_tracker_fields q o (with_pending (JsMap.delete c (pending st)) st)) as (-> & _). simpl.
    rewrite JsMap.get_delete. case_decide; [subst; by rewrite decide_True|by rewrite decide_False by congruence].
  - case_decide; by subst.
Qed.

Lemma finish_promises ex c o st p r :
  accounted ex st → promises st !! p = Some r →
  promises (finish c o st) !! p = Some (if decide (p_correlation r = c) then set_state o r else r).
Proof.
  intros Hok Hr. unfold finish. destruct (JsMap.get c (pending st)) as [q|] eqn:Hq.
  - destruct (release_tracker_fields q o (with_pending (JsMap.delete c (pending st)) st)) as (_ & _ & _ & _ & ->).
    simpl. destruct (ac_promise _ _ Hok c q Hq) as (r' & Hr' & Hu' & Hc' & _).
    destruct (decide (promise q = p)) as [<-|Hne].
    + rewrite lookup_alter_eq, Hr. simpl. rewrite decide_True by congruence. done.
    + rewrite lookup_alter_ne, Hr by done. case_decide as Hc; [|done]. f_equal.
      destruct (p_state r) as [o'|] eqn:Hs; [|].
      * destruct r; unfold set_state; simpl in *; by subst.
      * destruct (ac_unsettled _ _ Hok p r Hr Hs) as (q' & Hq' & Hp'). congruence.
  - rewrite Hr. case_decide as Hc; [|done]. f_equal. destruct (p_state r) as [o'|] eqn:Hs.
    + destruct r; unfold set_state; simpl in *; by subst.
    + destruct (ac_unsettled _ _ Hok p r Hr Hs) as (q' & Hq' & Hp'). congruence.
Qed.

Lemma set_state_settled o r : p_state r ≠ None → set_state o r = r.
Proof. destruct r as [c t s [x|]]; done. Qed.

Lemma finish_keys_promises error cs st p r :
  accounted None st → promises st !! p = Some r →
  promises (foldl (λ s c, reject c error s) st cs) !! p =
    Some (if decide (p_correlation r ∈ cs) then set_state (Throw error) r else r).
Proof.
  revert st r. induction cs as [|c cs IH]; intros st r Hok Hr.
  { rewrite decide_False by apply not_elem_of_nil. exact Hr. }
  cbn [foldl]. pose proof (finish_promises None c (Throw error) st p r Hok Hr) as Hr'.
  assert (accounted None (reject c error st)) as Hok' by (eapply finish_accounted; [done|by left]).
  rewrite (IH _ _ Hok' Hr'). f_equal. destruct (decide (p_correlation r = c)) as [Hc|Hc].
  - rewrite (decide_True (P := _ ∈ c :: cs)) by (rewrite elem_of_cons; by left).
    case_decide; [|done]. by destruct r as [? ? ? [x|]].
  - case_decide as H1; case_decide as H2; try done; rewrite elem_of_cons in H2; tauto.
Qed.

(** What an input says to the unsettled request [q] with id [c]. *)
Definition answers (i : Input) (st : Tracker) (c : string) (q : PendingRequest) (o : outcome thrown value) : Prop :=
  match i with
  | Receive (Response c' e v) =>
      c' = c ∧ o = match e with Some te => Throw (deserializeTransportError te (next st)) | None => Ok v end
  | Receive (BroadcastResponse c' e vs) =>
      c' = c ∧ o = match e with Some te => Throw (deserializeTransportError te (next st))
                   | None => Ok (default (VArr []) vs) end
  | Cancel c' e => c' = c ∧ o = Throw (default (BusAbortError (TVal 0 VUndef) (next st)) e)
  | RejectAll e => o = Throw e
  | Cleanup => o = Throw (TErr (next st) ErrorClass "Transport disconnected" None [])
  | Fire t => timeoutId q = Some t ∧ ∃ tm, timers st !! t = Some tm ∧ o = Throw (TimeoutError c (timer_timeout tm) (next st))
  | Abort s reason => abort_reason (signal_of st s) = None ∧ (∃ l, abortListener q = Some (s, l)) ∧
                      ∃ n, o = Throw (toAbortError reason n)
  | _ => False
  end.

(** The fate of a promise in one input. *)
Definition fate (i : Input) (st st' : Tracker) (p : nat) (r : Promise) : Prop :=
  (promises st' !! p = Some r ∧
     (p_state r = None → ∀ q o, JsMap.get (p_correlation r) (pending st) = Some q → ¬ answers i st (p_correlation r) q o)) ∨
  (p_state r = None ∧ ∃ q o, JsMap.get (p_correlation r) (pending st) = Some q ∧ promise q = p ∧
     answers i st (p_correlation r) q o ∧ promises st' !! p = Some (set_state o r)).

Lemma call_listeners_fate s reason ls st p r q :
  accounted None st → promises st !! p = Some r → p_state r = None →
  JsMap.get (p_correlation r) (pending st) = Some q →
  let st' := foldl (call_listener s reason) st ls in
  promises st' !! p = Some r ∧ JsMap.get (p_correlation r) (pending st') = Some q ∨
  (∃ l, abortListener q = Some (s, l)) ∧ ∃ n, promises st' !! p = Some (set_state (Throw (toAbortError reason n)) r).
Proof.
  set (P := λ st', accounted None st' ∧
    (promises st' !! p = Some r ∧ JsMap.get (p_correlation r) (pending st') = Some q ∨
     (∃ l, abortListener q = Some (s, l)) ∧ ∃ n, promises st' !! p = Some (set_state (Throw (toAbortError reason n)) r))).
  intros Hok Hr Hs Hq. cut (P (foldl (call_listener s reason) st ls)); [by intros [_ H]|].
  apply foldl_inv; [|split; [done|by left]].
  clear st Hok Hr Hq. intros st [i c] [Hok H]. split; [by apply call_listener_accounted|].
  unfold call_listener. case_decide as Hin; [|done].
  destruct (ac_listeners _ _ Hok s i c Hin) as (q' & Hq' & Ha).
  pose proof (unlisten_accounted s i c st Hok Hin) as H1.
  unfold reject_new, reject. simpl snd. simpl fst. set (st1 := bump (removeEventListener _ st)) in *.
  set (o := Throw (toAbortError reason _)).
  assert (promises st1 = promises st ∧ pending st1 = pending st) as [Ep Eq] by (by destruct st).
  rewrite finish_entry, Eq. destruct H as [[Hr Hq]|[Hon [n Hr]]]; rewrite <- Ep in Hr.
  - rewrite (finish_promises _ c o st1 p _ H1 Hr). destruct (decide (p_correlation r = c)) as [<-|Hne]; [|by left].
    right. rewrite Hq in Hq'. injection Hq' as <-. split; [by exists i|]. by eexists.
  - rewrite (finish_promises _ c o st1 p _ H1 Hr). right. split; [done|]. exists n.
    case_decide; [|done]. f_equal. apply set_state_settled. unfold set_state. simpl. by rewrite Hs.
Qed.

Lemma track_promises c timeout signal st p r :
  accounted None st → JsMap.get c (pending st) = None → promises st !! p = Some r →
  promises (track c timeout signal st) !! p = Some r.
Proof.
  intros Hok Hc Hr. assert (p < next st)%nat as Hlt by (by eapply (nb_promises _ (ac_numbers _ _ Hok))).
  unfold track. destruct (aborted signal (new_promise c timeout st)).
  { rewrite settle_lookup, decide_False by lia. simpl. by rewrite lookup_insert_ne by lia. }
  pose proof (open_request_accounted c timeout st Hok Hc) as H1.
  pose proof (open_request_fields c timeout st) as (Ep & Er & _). unfold open_request in H1, Ep, Er.
  destruct (start_timer c timeout (new_promise c timeout st)) as [timer st1].
  set (q := {| promise := next st; timeoutId := timer; abortListener := None |}) in *.
  set (st2 := with_pending _ st1) in *.
  set (st3 := match signal with Some s => _ | None => _ end).
  assert (accounted None st3) as H3.
  { unfold st3. destruct signal; [|done]. apply addEventListener_accounted; [done| |done].
    unfold st2. simpl. apply JsMap.get_set_eq. }
  assert (promises st3 !! p = Some r) as Hr3.
  { transitivity (promises st2 !! p); [unfold st3; by destruct signal|]. by rewrite Er, lookup_insert_ne by lia. }
  destruct (aborted signal st3); [|exact Hr3]. unfold reject_new, reject.
  rewrite (finish_promises None c _ _ p r); [|by apply accounted_bump|exact Hr3].
  destruct (decide (p_correlation r = c)) as [Hcr|]; [|done]. f_equal. destruct (p_state r) eqn:Hs; [apply set_state_settled; by rewrite Hs|].
  destruct (ac_unsettled _ _ Hok p r Hr Hs) as (q' & Hq' & _). congruence.
Qed.

(** [answered]: all promises named [cs] settle with [o], the others stay. *)
Lemma fate_intro i st st' p r (named : Prop) `{Decision named} o :
  accounted None st → promises st !! p = Some r →
  promises st' !! p = Some (if decide named then set_state o r else r) →
  (∀ q o', JsMap.get (p_correlation r) (pending st) = Some q →
     answers i st (p_correlation r) q o' ↔ named ∧ o' = o) →
  fate i st st' p r.
Proof.
  intros Hok Hr Hst Hans. destruct (p_state r) as [x|] eqn:Hs.
  - left. rewrite Hst. split; [|by rewrite Hs]. case_decide; [|done]. f_equal.
    apply set_state_settled. by rewrite Hs.
  - destruct (ac_unsettled _ _ Hok p r Hr Hs) as (q & Hq & Hpq). case_decide.
    + right. split; [done|]. exists q, o. split_and!; try done. by apply Hans.
    + left. split; [done|]. intros _ q' o' Hq' [? _]%Hans; done.
Qed.

Lemma fate_finish i st c o p r :
  accounted None st → promises st !! p = Some r →
  (∀ q o', JsMap.get (p_correlation r) (pending st) = Some q →
     answers i st (p_correlation r) q o' ↔ p_correlation r = c ∧ o' = o) →
  fate i st (finish c o (bump st)) p r ∧ fate i st (finish c o st) p r.
Proof.
  intros Hok Hr Hans. split; eapply (fate_intro _ _ _ _ _ (p_correlation r = c)); try done;
    by eapply finish_promises; [first [done|by apply accounted_bump]|].
Qed.

Lemma fire_fate t st p r : sound st → promises st !! p = Some r → fate (Fire t) st (fire t st) p r.
Proof.
  intros [Hok _] Hr. unfold fire. destruct (timers st !! t) as [tm|] eqn:Htm.
  - destruct (ac_timers _ _ Hok t tm Htm) as (q & Hq & Hid).
    set (st1 := with_timers _ st). change (pending st1) with (pending st). rewrite Hq.
    assert (accounted (Some (timer_correlation tm)) (bump st1)) as H1.
    { by apply (fire_exempt t tm q). }
    set (o := Throw (A := value) (TimeoutError (timer_correlation tm) (timer_timeout tm) (next st))).
    eapply (fate_intro _ _ _ _ _ (p_correlation r = timer_correlation tm) o); [done..| |].
    + unfold reject_new, reject. by eapply finish_promises.
    + intros q' o' Hq'. simpl. split.
      * intros (Hid' & tm' & Htm' & ->). rewrite Htm in Htm'. injection Htm' as <-.
        destruct (decide (p_correlation r = timer_correlation tm)) as [E|E]; [by rewrite E|].
        by destruct (proj1 (ac_distinct _ _ Hok _ _ q' q Hq' Hq E) t Hid' Hid).
      * intros [E ->]. rewrite E, Hq in Hq'. injection Hq' as <-. split; [done|]. exists tm. by rewrite E.
  - eapply (fate_intro _ _ _ _ _ False (Ok VUndef)); [done..|]. intros q o' Hq. simpl. split; [|by intros [[] _]].
    intros (_ & tm & Htm' & _). congruence.
Qed.

Lemma abort_fate s reason st p r :
  sound st → promises st !! p = Some r → fate (Abort s reason) st (abort s reason st) p r.
Proof.
  intros [Hok Hcalled] Hr. unfold abort. destruct (abort_reason (signal_of st s)) eqn:Ha.
  { eapply (fate_intro _ _ _ _ _ False (Ok VUndef)); [done..|]. intros q o' Hq. simpl. rewrite Ha. naive_solver. }
  pose proof (abort_called s reason st Hcalled s) as Hempty. unfold abort in Hempty. rewrite Ha in Hempty.
  set (st1 := with_signals _ st) in *.
  assert (accounted None st1) as H1 by (by apply set_reason_accounted).
  set (ls := listeners (signal_of st s)) in *.
  assert (accounted None (foldl (call_listener s reason) st1 ls)) as H2
    by (apply foldl_inv; [intros; by apply call_listener_accounted|done]).
  assert (listeners (signal_of (foldl (call_listener s reason) st1 ls) s) = []) as Hnone.
  { apply call_listeners_all. intros x. unfold st1, signal_of at 1. simpl. by rewrite lookup_insert_eq. }
  destruct (p_state r) as [x|] eqn:Hs.
  - left. split; [|by rewrite Hs]. apply (foldl_inv (λ s1, accounted None s1 ∧ promises s1 !! p = Some r)); [|done].
    intros s1 [i c] [H3 H4]. split; [by apply call_listener_accounted|].
    unfold call_listener. case_decide as Hin; [|done]. unfold reject_new, reject. simpl.
    rewrite (finish_promises _ c _ _ p r (unlisten_accounted s i c s1 H3 Hin)) by done.
    case_decide; [|done]. f_equal. apply set_state_settled. by rewrite Hs.
  - destruct (ac_unsettled _ _ Hok p r Hr Hs) as (q & Hq & Hpq).
    destruct (call_listeners_fate s reason ls st1 p r q H1 Hr Hs Hq) as [[Hp Hq2]|[Hon [n Hp]]].
    + left. split; [done|]. intros _ q' o Hq' (_ & [l Hl] & _). rewrite Hq in Hq'. injection Hq' as <-.
      pose proof (ac_listening _ _ H2 _ _ s l Hq2 ltac:(done) Hl) as Hbad. rewrite Hnone in Hbad.
      by apply elem_of_nil in Hbad.
    + right. split; [done|]. eexists q, _. split_and!; [done..| |exact Hp]. simpl. rewrite Ha. eauto.
Qed.

Lemma rejectAll_fate i e st st1 p r :
  sound st → st1 = st ∨ st1 = bump st → promises st !! p = Some r → (∀ c q o, answers i st c q o ↔ o = Throw e) →
  fate i st (rejectAll e st1) p r.
Proof.
  intros [Hok _] Hst1 Hr Hans.
  assert (accounted None st1 ∧ promises st1 = promises st ∧ pending st1 = pending st) as (H1 & Ep & Eq)
    by (destruct Hst1 as [-> | ->]; auto using accounted_bump).
  rewrite rejectAll_each by apply H1.
  eapply (fate_intro _ _ _ _ _ (p_correlation r ∈ JsMap.keys (pending st1)) (Throw e)); [done..| |].
  - apply finish_keys_promises; [done|by rewrite Ep].
  - intros q o Hq. rewrite Hans. split; [|by intros [_ ?]]. intros ->. split; [|done]. rewrite Eq.
    apply list_elem_of_fmap. exists (p_correlation r, q). split; [done|by apply JsMap.get_elem].
Qed.

Lemma perform_fate i st p r :
  sound st → fresh_id i st → promises st !! p = Some r → fate i st (perform i st) p r.
Proof.
  intros Hok Hf Hr. pose proof Hok as [Hac _].
  assert (∀ j, (∀ c q o, ¬ answers j st c q o) → fate j st st p r) as Hidle
    by (intros j Hans; left; split; [done|intros _ q o _; apply Hans]).
  unfold perform, cancel, cleanup, reject_new, resolve, reject.
  destruct i as [m timeout s|m|c e|e| |t|s reason|t].
  - left. split; [|intros _ q o _ []]. destruct m; simpl; try done; by apply track_promises.
  - destruct m as [?|?|c [e|] v|c [e|] v|]; simpl; try (apply Hidle; by intros ? ? ? []);
      unfold reject_new, reject, resolve; (eapply fate_finish; [done..|]); simpl; naive_solver.
  - destruct e; (eapply fate_finish; [done..|]); simpl; naive_solver.
  - by apply rejectAll_fate; [|left| |].
  - by apply rejectAll_fate; [|right| |].
  - by apply fire_fate.
  - by apply abort_fate.
  - left. split; [done|intros _ q o _ []].
Qed.

(** ** Runs that reuse ids *)
Definition holds (st : Tracker) (c : string) (p : nat) : Prop :=
  ∃ q, JsMap.get c (pending st) = Some q ∧ promise q = p.
Definition held (st : Tracker) (p : nat) : Prop := ∃ c, holds st c p.
Definition named (st : Tracker) (c : string) (p : nat) : Prop :=
  ∃ r, promises st !! p = Some r ∧ p_correlation r = c.
Definition promises_numbered (st : Tracker) : Prop := ∀ p r, promises st !! p = Some r → (p < next st)%nat.

(** Only a promise that some entry holds settles, and it keeps what it settled
    with; an entry takes up a new promise only, one made
    under its id. *)
Record moves (st st' : Tracker) : Prop := {
  mv_next : (next st ≤ next st')%nat;
  mv_numbered : promises_numbered st → promises_numbered st';
  mv_promises : promises_numbered st → ∀ p r, promises st !! p = Some r →
    promises st' !! p = Some r ∨ held st p ∧ ∃ o, promises st' !! p = Some (set_state o r);
  mv_held : promises_numbered st → ∀ c p, holds st' c p → holds st c p ∨ (next st ≤ p)%nat ∧ named st' c p
}.

#[export] Instance moves_preorder : PreOrder moves.
Proof.
  split.
  - intros st. split; auto.
  - intros st1 st2 st3 [N1 M1 P1 H1] [N2 M2 P2 H2]. split; [lia|auto| |].
    + intros Hn p r Hr. destruct (P1 Hn p r Hr) as [Hr2|[Hh [o Hr2]]].
      * destruct (P2 (M1 Hn) p r Hr2) as [Hr3|[[c Hh] Ho]]; [by left|right]. split; [|done].
        destruct (H1 Hn c p Hh) as [Hh1|[Hbad _]]; [by exists c|]. specialize (Hn p r Hr). lia.
      * right. split; [done|]. destruct (P2 (M1 Hn) p _ Hr2) as [Hr3|[_ [o' Hr3]]]; [by exists o|].
        exists o. rewrite Hr3. by destruct r as [? ? ? [x|]].
    + intros Hn c p Hh. destruct (H2 (M1 Hn) c p Hh) as [Hh2|[Hp Hr]]; [|right; split; [lia|done]].
      destruct (H1 Hn c p Hh2) as [Hh1|[Hp (r & Hr & Hc)]]; [by left|]. right. split; [done|].
      destruct (P2 (M1 Hn) p r Hr) as [Hr3|[_ [o Hr3]]]; by eexists.
Qed.

(** Same promises, and no entry that was not there. *)
Lemma moves_frame st st' :
  promises st' = promises st → pending st' = pending st → (next st ≤ next st')%nat → moves st st'.
Proof.
  intros Ep Eq Hn. split; [done| | |].
  - intros H p r. rewrite Ep. intros Hr. specialize (H p r Hr). lia.
  - intros _ p r Hr. left. by rewrite Ep.
  - intros _ c p (q & Hq & Hpq). left. exists q. by rewrite <- Eq.
Qed.

Lemma settling_moves q o st st' :
  held st (promise q) → next st' = next st → promises st' = alter (set_state o) (promise q) (promises st) →
  (∀ c q', JsMap.get c (pending st') = Some q' → JsMap.get c (pending st) = Some q') → moves st st'.
Proof.
  intros Hq En Er Hsub. split.
  - by rewrite En.
  - intros Hn p r. rewrite En, Er. intros [[_ [x [H _]]]|[_ H]]%lookup_alter_Some; by eapply Hn.
  - intros _ p r Hr. rewrite Er. destruct (decide (promise q = p)) as [<-|Hne].
    + right. split; [done|]. exists o. by rewrite lookup_alter_eq, Hr.
    + left. by rewrite lookup_alter_ne.
  - intros _ c p (q' & Hq' & Hp). left. exists q'. split; [by apply Hsub|done].
Qed.

Lemma finish_moves c o st : moves st (finish c o st).
Proof.
  unfold finish. destruct (JsMap.get c (pending st)) as [q|] eqn:Hq; [|done].
  destruct (release_tracker_fields q o (with_pending (JsMap.delete c (pending st)) st)) as (Ep & _ & En & _ & Er).
  eapply settling_moves; [by exists c, q|exact En|exact Er|]. rewrite Ep. intros c' q'. simpl.
  rewrite JsMap.get_delete. by case_decide.
Qed.

Lemma foldl_release_moves o (m : list (string * PendingRequest)) st :
  (∀ kq, kq ∈ m → held st (promise kq.2)) →
  let st' := foldl (λ s kq, release kq.2 o s) st m in moves st st' ∧ pending st' = pending st.
Proof.
  revert st. induction m as [|[c q] m IH]; intros st Hm; [done|]. simpl.
  destruct (release_tracker_fields q o st) as (Ep & _ & En & _ & Er).
  assert (moves st (release q o st)) as H1.
  { eapply settling_moves; [by apply (Hm (c, q)), elem_of_cons; left|exact En|exact Er|by rewrite Ep]. }
  destruct (IH (release q o st)) as [H2 H3].
  { intros kq Hkq. destruct (Hm kq) as (c' & q' & Hq' & Hp); [by apply elem_of_cons; right|].
    exists c', q'. by rewrite Ep. }
  split; [by etransitivity|by rewrite H3].
Qed.

Lemma rejectAll_moves e st : NoDup (JsMap.keys (pending st)) → moves st (rejectAll e st).
Proof.
  intros Hk. unfold rejectAll. destruct (foldl_release_moves (Throw e) (pending st) st) as [[N M P H] Ep].
  { intros [c q] Hq. exists c, q. split; [by apply JsMap.elem_get|done]. }
  split; try done. intros _ c p (q & Hq & _). by simpl in Hq.
Qed.

Lemma abort_moves s reason st : moves st (abort s reason st).
Proof.
  unfold abort. destruct (abort_reason _); [done|]. apply (foldl_inv (moves st)); [|by apply moves_frame].
  intros st1 [i c] H1. etransitivity; [exact H1|]. unfold call_listener. case_decide; [|done].
  unfold reject_new, reject. etransitivity; [|apply finish_moves]. apply moves_frame; simpl; auto.
Qed.

Lemma fire_moves t st : moves st (fire t st).
Proof.
  unfold fire. destruct (timers st !! t) as [tm|]; [|done]. set (st1 := with_timers _ st).
  assert (moves st (bump st1)) as H1 by (apply moves_frame; simpl; auto).
  destruct (JsMap.get _ _); [|by apply moves_frame].
  etransitivity; [exact H1|]. apply finish_moves.
Qed.

Lemma track_moves c timeout signal st : moves st (track c timeout signal st).
Proof.
  assert (∀ st' r0, (next st < next st')%nat → promises st' = <[next st := r0]> (promises st) → p_correlation r0 = c →
      (pending st' = pending st ∨ ∃ q, promise q = next st ∧ pending st' = JsMap.set c q (pending st)) →
      moves st st') as Hnew.
  { intros st' r0 Hlt Er Hc Hh. split; [lia| | |].
    - intros Hn p r. rewrite Er. intros [[<- _]|[_ H]]%lookup_insert_Some; [done|]. specialize (Hn p r H). lia.
    - intros Hn p r Hr. left. rewrite Er, lookup_insert_ne; [done|]. specialize (Hn p r Hr). lia.
    - intros Hn c' p (q' & Hq' & Hp). destruct Hh as [E|(q & Hq & E)]; rewrite E in Hq'.
      + left. by exists q'.
      + rewrite JsMap.get_set in Hq'. case_decide as Hcc; [|left; by exists q']. injection Hq' as <-. right.
        split; [lia|]. exists r0. rewrite Er, <- Hp, Hq, lookup_insert_eq. by rewrite Hc. }
  unfold track. destruct (aborted signal (new_promise c timeout st)).
  { eapply Hnew; [simpl; lia|simpl; apply alter_insert_eq|done|by left]. }
  pose proof (open_request_fields c timeout st) as (Ep & Er & _ & _ & En & _). unfold open_request in Ep, Er, En.
  destruct (start_timer c timeout (new_promise c timeout st)) as [timer st1].
  set (q := {| promise := next st; timeoutId := timer; abortListener := None |}) in *.
  set (st2 := with_pending _ st1) in *.
  set (st3 := match signal with Some s => _ | None => _ end).
  assert (moves st st3) as H3.
  { unfold st3. destruct signal as [s|].
    - eapply Hnew; [change (next st < S (next st2))%nat; lia|exact Er|done|].
      right. eexists. split; [|unfold addEventListener; cbn [pending with_pending]; rewrite Ep; apply JsMap.set_set]. done.
    - eapply Hnew; [done|exact Er|done|]. right. eexists. split; [|exact Ep]. done. }
  destruct (aborted signal st3); [|exact H3]. etransitivity; [exact H3|]. unfold reject_new, reject.
  etransitivity; [|apply finish_moves]. apply moves_frame; simpl; auto.
Qed.

Lemma perform_moves i st : NoDup (JsMap.keys (pending st)) → moves st (perform i st).
Proof.
  assert (∀ c o, moves st (finish c o (bump st))) as Hnew
    by (intros; etransitivity; [|apply finish_moves]; apply moves_frame; simpl; auto).
  intros Hk. unfold perform, cancel, cleanup, reject_new, resolve, reject.
  destruct i as [m timeout s|m|c e|e| |t|s reason|t].
  - destruct m; simpl; try done; apply track_moves.
  - destruct m as [?|?|c [e|] v|c [e|] v|]; simpl; try done; first [apply Hnew|apply finish_moves].
  - destruct e; [apply finish_moves|apply Hnew].
  - by apply rejectAll_moves.
  - etransitivity; [|by apply rejectAll_moves]. apply moves_frame; simpl; auto.
  - apply fire_moves.
  - apply abort_moves.
  - by apply moves_frame.
Qed.

Lemma finish_keys c o st : NoDup (JsMap.keys (pending st)) → NoDup (JsMap.keys (pending (finish c o st))).
Proof.
  intros Hk. unfold finish. destruct (JsMap.get c (pending st)) as [q|]; [|done].
  destruct (release_tracker_fields q o (with_pending (JsMap.delete c (pending st)) st)) as (-> & _).
  by apply JsMap.NoDup_keys_delete.
Qed.

Lemma perform_keys i st : NoDup (JsMap.keys (pending st)) → NoDup (JsMap.keys (pending (perform i st))).
Proof.
  intros Hk. unfold perform, cancel, cleanup, reject_new, resolve, reject.
  assert (∀ c o, NoDup (JsMap.keys (pending (finish c o (bump st))))) as Hnew by (intros; by apply finish_keys).
  destruct i as [m timeout s|m|c e|e| |t|s reason|t].
  - assert (∀ c, NoDup (JsMap.keys (pending (track c timeout s st)))) as Ht; [|destruct m; simpl; first [exact Hk|apply Ht]].
    intros c. unfold track. destruct (aborted s (new_promise c timeout st)); [done|].
    pose proof (open_request_fields c timeout st) as (Ep & _). unfold open_request in Ep.
    destruct (start_timer c timeout (new_promise c timeout st)) as [timer st1].
    set (st2 := with_pending _ st1) in *. assert (NoDup (JsMap.keys (pending st2))) as H2
      by (rewrite Ep; by apply JsMap.NoDup_keys_set).
    set (st3 := match s with Some s => _ | None => _ end). assert (NoDup (JsMap.keys (pending st3))) as H3
      by (unfold st3; destruct s; [by apply JsMap.NoDup_keys_set|done]).
    destruct (aborted s st3); [by apply finish_keys|done].
  - destruct m as [?|?|c [e|] v|c [e|] v|]; simpl; try done; first [apply Hnew|by apply finish_keys].
  - destruct e; [by apply finish_keys|apply Hnew].
  - constructor.
  - constructor.
  - unfold fire. destruct (timers st !! t); [|done]. destruct (JsMap.get _ _); [by apply finish_keys|done].
  - unfold abort. destruct (abort_reason _); [done|].
    apply (foldl_inv (λ s, NoDup (JsMap.keys (pending s)))); [|done].
    intros st1 l H1. unfold call_listener. case_decide; [by apply finish_keys|done].
  - done.
Qed.

Record well_keyed (st : Tracker) : Prop := {
  wk_keys : NoDup (JsMap.keys (pending st));
  wk_numbered : promises_numbered st;
  wk_named : ∀ c p, holds st c p → named st c p
}.

Lemma steps_move st st' : rtc step st st' → well_keyed st → moves st st' ∧ well_keyed st'.
Proof.
  intros H Hw. apply (@rtc_ind_r _ step (λ s, moves st s ∧ well_keyed s) st); [done| |exact H].
  intros st1 st2 _ [i He] [H1 [Hk Hn Hnm]]. pose proof (perform_moves i st1 Hk) as Hm.
  split; [by etransitivity|]. split; [by apply perform_keys|by apply Hm|].
  intros c p Hh. destruct (mv_held _ _ Hm Hn c p Hh) as [Hh1|[_ ?]]; [|done].
  destruct (Hnm c p Hh1) as (r & Hr & Hc).
  destruct (mv_promises _ _ Hm Hn p r Hr) as [Hr'|[_ [o Hr']]]; by eexists.
Qed.

Lemma reachable_keyed t st : rtc step (new_tracker t) st → well_keyed st.
Proof.
  intros H. apply (steps_move _ _ H). split; [constructor|done|]. by intros c p (q & Hq & _).
Qed.

(** Rejecting a tracked request settles its promise only. *)
Lemma rejected_alone c mk q p r st :
  JsMap.get c (pending st) = Some q → promise q = p → promises st !! p = Some r →
  promises (reject_new c mk st) = <[p := set_state (Throw (mk (next st))) r]> (promises st).
Proof.
  intros Hq <- Hr. unfold reject_new, reject, finish. simpl. rewrite Hq.
  destruct (release_tracker_fields q (Throw (mk (next st))) (with_pending (JsMap.delete c (pending st)) (bump st)))
    as (_ & _ & _ & _ & ->). simpl. apply map_eq. intros i. destruct (decide (i = promise q)) as [->|Hi].
  - by rewrite lookup_alter_eq, lookup_insert_eq, Hr.
  - by rewrite lookup_alter_ne, lookup_insert_ne by done.
Qed.

(** ** Theorems *)
Section properties.
Context (t0 : Z).
Implicit Types (st : Tracker) (p : nat).

(** C36: While no id is sent again before its request has settled, a request that
    has not settled is still tracked under its id and can time out: its own timer
    is set, may go off from the moment that is the delay after the request was
    sent, and going off rejects this request and no other with the timeout error.
    A request without timeout has no timer. *)
Theorem request_within_timeout st p r
    (Hr : rtc proper_step (new_tracker t0) st) (Hp : promises st !! p = Some r) (Hs : p_state r = None) :
  ∃ q, JsMap.get (p_correlation r) (pending st) = Some q ∧ promise q = p ∧
    match timeoutId q with
    | None => p_timeout r = 0
    | Some t =>
        p_timeout r ≠ 0 ∧
        (enabled (Fire t) st ↔ p_since r + timer_delay (p_timeout r) ≤ clock st) ∧
        promises (perform (Fire t) st) =
          <[p := set_state (Throw (TimeoutError (p_correlation r) (p_timeout r) (next st))) r]> (promises st) ∧
        JsMap.get (p_correlation r) (pending (perform (Fire t) st)) = None
    end.
Proof.
  pose proof (proper_sound t0 st Hr) as [Hok _].
  destruct (ac_unsettled _ _ Hok p r Hp Hs) as (q & Hq & Hpq).
  destruct (ac_promise _ _ Hok _ q Hq) as (r' & Hr' & _ & _ & Hti).
  rewrite Hpq, Hp in Hr'. injection Hr' as <-. specialize (Hti ltac:(done)). unfold timer_held in Hti.
  exists q. split_and!; [done..|]. destruct (timeoutId q) as [t|]; [|done]. destruct Hti as [Hz Ht].
  split_and!; [done| | |].
  - simpl. by rewrite Ht.
  - simpl. unfold fire. rewrite Ht. simpl. rewrite Hq.
    by apply (rejected_alone _ _ q p r (with_timers (delete t (timers st)) st)).
  - simpl. unfold fire. rewrite Ht. simpl. rewrite Hq. unfold reject_new, reject. rewrite finish_entry. by rewrite decide_True.
Qed.

(** Each input settles exactly the requests it names, with what it says: a
    response resolves or rejects the request with its id, a timer rejects the
    request it was set for, an aborted signal those that listen to it, a lost
    connection all of them.  Whatever has settled stays as it is. *)
Theorem settled_as_answered st i
    (Hr : rtc proper_step (new_tracker t0) st) (He : enabled i st) (Hf : fresh_id i st) p r
    (Hp : promises st !! p = Some r) :
  fate i st (perform i st) p r.
Proof. by apply perform_fate; [by eapply proper_sound| |]. Qed.

(** After [cleanup] nothing is left: no entry, no running timer, no
    listener on any signal, and no promise without an outcome. *)
Theorem cleanup_leaves_nothing st (Hr : rtc proper_step (new_tracker t0) st) :
  let st' := perform Cleanup st in
  pending st' = [] ∧ timers st' = ∅ ∧ (∀ s, listeners (signal_of st' s) = []) ∧
  ∀ p r, promises st' !! p = Some r → p_state r ≠ None.
Proof.
  pose proof (proper_sound t0 st Hr) as Hok.
  assert (sound (perform Cleanup st)) as [H' _] by (by apply perform_sound).
  simpl. set (st' := cleanup st). change (accounted None st') in H'. assert (pending st' = []) as Ep by done. split_and!; [done| | |].
  - apply map_empty. intros t. destruct (timers st' !! t) as [tm|] eqn:Htm; [|done].
    destruct (ac_timers _ _ H' t tm Htm) as (q & Hq & _). by rewrite Ep in Hq.
  - intros s. destruct (listeners (signal_of st' s)) as [|[l c] ls] eqn:Hl; [done|].
    destruct (ac_listeners _ _ H' s l c) as (q & Hq & _); [by rewrite Hl; left|]. by rewrite Ep in Hq.
  - intros p r Hp Hs. destruct (ac_unsettled _ _ H' p r Hp Hs) as (q & Hq & _). by rewrite Ep in Hq.
Qed.

(** Under any use of ids a promise settles at most once, and one that no
    entry holds never settles. *)
Theorem settled_at_most_once st st' p r
    (Hr : rtc step (new_tracker t0) st) (Hs : rtc step st st') (Hp : promises st !! p = Some r) :
  (p_state r ≠ None ∨ ¬ held st p) → promises st' !! p = Some r.
Proof.
  intros Hor. pose proof (reachable_keyed t0 st Hr) as Hw.
  destruct (steps_move st st' Hs Hw) as [[_ _ P _] _]. destruct (P (wk_numbered _ Hw) p r Hp) as [H|[Hh [o H]]]; [done|].
  destruct Hor as [Hst|Hh']; [|done]. by rewrite set_state_settled in H.
Qed.

(** Sending with an id that is in use strands the request that used it: its
    promise stays open whatever happens. *)
Theorem reused_id_strands st st' c p r timeout
    (Hr : rtc step (new_tracker t0) st) (Hh : holds st c p) (Hp : promises st !! p = Some r)
    (Hs : rtc step (perform (Send (Request c) timeout None) st) st') :
  promises st' !! p = Some r.
Proof.
  pose proof (reachable_keyed t0 st Hr) as [Hk Hn Hnm].
  set (st1 := perform (Send (Request c) timeout None) st) in *.
  assert (step st st1) as Hstep by done. assert (p < next st)%nat as Hlt by (by eapply Hn).
  destruct (open_request_fields c timeout st) as (Ep & Er & _).
  assert (st1 = open_request c timeout st) as E.
  { unfold st1, perform, trackMessageCorrelation, track, open_request. simpl. by destruct (start_timer _ _ _). }
  eapply settled_at_most_once; [by eapply rtc_r|exact Hs| |right].
  - by rewrite E, Er, lookup_insert_ne by lia.
  - intros (c' & q & Hq & Hpq). rewrite E, Ep, JsMap.get_set in Hq. case_decide; [simplify_eq; simpl in *; lia|].
    destruct (Hnm c p Hh) as (r1 & Hr1 & Hc1). destruct (Hnm c' p) as (r2 & Hr2 & Hc2); [by exists q|]. congruence.
Qed.
End properties.

(** *** Witnesses *)
Definition two_requests : list Input :=
  [Send (Request "a") 50 None; Send (Broadcast "b") 0 (Some 7%nat); Advance 130].
Definition demo : Tracker := default (new_tracker 100) (run two_requests (new_tracker 100)).

Lemma demo_proper : rtc proper_step (new_tracker 100) demo.
Proof. apply (run_proper two_requests). vm_compute. reflexivity. Qed.

Definition promise_a : Promise := {| p_correlation := "a"; p_timeout := 50; p_since := 100; p_state := None |}.

Lemma request_within_timeout_witness :
  promises (perform (Fire 1) demo) =
    <[0%nat := set_state (Throw (TimeoutError "a" 50 (next demo))) promise_a]> (promises demo).
Proof.
  destruct (request_within_timeout 100 demo 0 promise_a demo_proper eq_refl eq_refl) as (q & Hq & _ & H).
  assert (timeoutId q = Some 1%nat) as E by (vm_compute in Hq; by simplify_eq). rewrite E in H. apply H.
Defined.

Lemma settled_as_answered_witness :
  fate (Receive (Response "a" None (VStr "x"))) demo (perform (Receive (Response "a" None (VStr "x"))) demo) 0 promise_a ∧
  p_state <$> promises (perform (Receive (Response "a" None (VStr "x"))) demo) !! 0%nat = Some (Some (Ok (VStr "x"))).
Proof.
  split; [|vm_compute; reflexivity].
  exact (settled_as_answered 100 demo (Receive (Response "a" None (VStr "x"))) demo_proper I I 0 promise_a eq_refl).
Defined.

Lemma cleanup_leaves_nothing_witness : pending demo ≠ [] ∧ timers (perform Cleanup demo) = ∅.
Proof.
  split; [vm_compute; discriminate|].
  exact (proj1 (proj2 (cleanup_leaves_nothing 100 demo demo_proper))).
Defined.

Definition late : list Input := [Receive (Response "a" None (VStr "x")); Receive (Response "a" None (VStr "y"))].
Definition demo_late : Tracker := default demo (run late demo).

Lemma settled_at_most_once_witness :
  promises demo_late !! 0%nat = Some (set_state (Ok (VStr "x")) promise_a).
Proof.
  refine (settled_at_most_once 100 (perform (Receive (Response "a" None (VStr "x"))) demo) demo_late 0 _
    (rtc_r _ _ _ (proper_steps _ _ demo_proper) (step_intro demo (Receive (Response "a" None (VStr "x"))) I))
    (rtc_once _ _ (step_intro _ (Receive (Response "a" None (VStr "y"))) I)) eq_refl (or_introl _)).
  vm_compute. discriminate.
Defined.

(** The older timer of a reused id rejects the newer request, 40 milliseconds
    after it was sent with a timeout of 1000. *)
Example older_timer_rejects_newer :
  let st := perform (Fire 1) (at_clock 150 (perform (Send (Request "a") 1000 None)
              (at_clock 110 (perform (Send (Request "a") 50 None) (new_tracker 100))))) in
  p_state <$> promises st !! 0%nat = Some None ∧
  p_state <$> promises st !! 2%nat = Some (Some (Throw (TimeoutError "a" 50 4))).
Proof. vm_compute. done. Qed.
