(* ===== verification/Remote.v ===== *)
(** * Remote subscriptions and advertised state

    [core/bus-core/src/registries/remote-subscriptions.ts],
    [registries/advertised-state.ts], [registries/subscription-delivery.ts] and
    the remote half of [methods/request/getMatchingHandlers.ts]: what this node
    has learned from its transports, and what it tells each of them in turn.

    A push to a transport is a value, in the order the code issues them; that
    the call may fail is logged by the code and changes nothing. *)
From S2P Require Import Prelude JsValue Subjects Handlers.

Inductive SubscriptionDeliveryClass := relayable | first_hop_only.

#[export] Instance delivery_eq_dec : EqDecision SubscriptionDeliveryClass.
Proof. solve_decision. Defined.

(** The wire value is untrusted: anything but the exact string fails closed. *)
Definition normalizeSubscriptionDeliveryClass (v : value) : SubscriptionDeliveryClass :=
  match v with VStr s => if decide (s = "relayable") then relayable else first_hop_only | _ => first_hop_only end.

Record RemoteEntry := { re_transport : string; re_priority : Z }.

#[export] Instance RemoteEntry_eq_dec : EqDecision RemoteEntry.
Proof. solve_decision. Defined.

Record RemoteState := {
  remoteRequestHandlers : list (string * list RemoteEntry);
  remoteEventHandlers : list (string * list string);
  remoteSubscriptionDeliveryClasses : list (string * list (string * SubscriptionDeliveryClass));
}.

Record SubscribeMessage := {
  sm_subjects : list (string * list Z);
  sm_deliveryClasses : list (string * value);
}.

(** ** Learning and forgetting *)
Definition removeRemoteEventSubscription (subject transportName : string)
    (m : list (string * list string)) : list (string * list string) :=
  match JsMap.get subject m with
  | None => m
  | Some ts => match JsSet.delete transportName ts with
               | [] => JsMap.delete subject m
               | ts' => JsMap.set subject ts' m
               end
  end.

(** [existing.filter((entry) => entry.transport !== sourceName)] *)
Definition without (t : string) (es : list RemoteEntry) : list RemoteEntry :=
  filter (λ e, re_transport e ≠ t) es.

Definition set_or_delete {V} (subject : string) (vs : list V) (m : list (string * list V)) :
    list (string * list V) :=
  match vs with [] => JsMap.delete subject m | _ => JsMap.set subject vs m end.

Definition subscribeOne (sourceName : string) (classes : list (string * value)) (st : RemoteState)
    (sp : string * list Z) : RemoteState :=
  let '(subject, priorities) := sp in
  let deliveryClass := normalizeSubscriptionDeliveryClass (default VUndef (JsMap.get subject classes)) in
  let filtered := without sourceName (default [] (JsMap.get subject (remoteRequestHandlers st))) ++
                  map (λ p, {| re_transport := sourceName; re_priority := p |}) priorities in
  {| remoteRequestHandlers := set_or_delete subject filtered (remoteRequestHandlers st);
     remoteSubscriptionDeliveryClasses :=
       JsMap.set subject
         (JsMap.set sourceName deliveryClass
            (default [] (JsMap.get subject (remoteSubscriptionDeliveryClasses st))))
         (remoteSubscriptionDeliveryClasses st);
     remoteEventHandlers :=
       match priorities with
       | [] => JsMap.set subject
                 (JsSet.add sourceName (default [] (JsMap.get subject (remoteEventHandlers st))))
                 (remoteEventHandlers st)
       | _ => removeRemoteEventSubscription subject sourceName (remoteEventHandlers st)
       end |}.

Definition unsubscribeOne (sourceName : string) (st : RemoteState) (subject : string) : RemoteState :=
  {| remoteRequestHandlers :=
       match JsMap.get subject (remoteRequestHandlers st) with
       | None => remoteRequestHandlers st
       | Some existing => set_or_delete subject (without sourceName existing) (remoteRequestHandlers st)
       end;
     remoteEventHandlers := removeRemoteEventSubscription subject sourceName (remoteEventHandlers st);
     remoteSubscriptionDeliveryClasses :=
       match JsMap.get subject (remoteSubscriptionDeliveryClasses st) with
       | None => remoteSubscriptionDeliveryClasses st
       | Some byTransport =>
           set_or_delete subject (JsMap.delete sourceName byTransport) (remoteSubscriptionDeliveryClasses st)
       end |}.

Section purge.
(** One of the three loops of [purgeRemoteHandlersForTransport]: shrink each
    container, drop the empty ones, report the ones that shrank. *)
Context {V : Type} (shrink : list V → list V).

Fixpoint purge_map (m : list (string * list V)) : list (string * list V) * list string :=
  match m with
  | [] => ([], [])
  | (subject, vs) :: m' =>
      let '(rest, affected) := purge_map m' in
      if decide (List.length (shrink vs) = List.length vs) then ((subject, vs) :: rest, affected)
      else match shrink vs with
           | [] => (rest, subject :: affected)
           | vs' => ((subject, vs') :: rest, subject :: affected)
           end
  end.
End purge.

Definition purge_state (transportName : string) (st : RemoteState) : RemoteState * list string :=
  let '(rs, a1) := purge_map (without transportName) (remoteRequestHandlers st) in
  let '(es, a2) := purge_map (JsSet.delete transportName) (remoteEventHandlers st) in
  let '(ds, a3) := purge_map (JsMap.delete transportName) (remoteSubscriptionDeliveryClasses st) in
  ({| remoteRequestHandlers := rs; remoteEventHandlers := es; remoteSubscriptionDeliveryClasses := ds |},
   JsSet.of_list (a1 ++ a2 ++ a3)).

(** ** Advertising *)
Record RegisteredSubject := { fullSubject : string; hostLocalRequest : bool }.

Record NamespaceRegistry := {
  listRegisteredSubjects : list RegisteredSubject;
  hostLocalRequestSubjects : list string;
  collectorOnlySubjects : list string;
  defaultTransportsMap : list (string * bool);  (* [true]: local-only *)
}.

Inductive Push :=
  | Subscribe (target subject : string) (priorities : list Z) (cls : SubscriptionDeliveryClass)
  | Unsubscribe (target subject : string).

Section advertise.
Context {H : Type} `{EqDecision H}.

Record BusContext := {
  local : @BusHandlers H;
  remote : RemoteState;
  namespaces : NamespaceRegistry;
  transports : list string;
}.

Definition with_remote (ctx : BusContext) (st : RemoteState) : BusContext :=
  {| local := local ctx; remote := st; namespaces := namespaces ctx; transports := transports ctx |}.

Definition isHostLocalRequestSubject (ctx : BusContext) (subject : string) : bool :=
  bool_decide (subject ∈ hostLocalRequestSubjects (namespaces ctx)).

(** The recorded class of a (subject, transport) subscription. *)
Definition deliveryClassOf (st : RemoteState) (subject transport : string) :
    option SubscriptionDeliveryClass :=
  match JsMap.get subject (remoteSubscriptionDeliveryClasses st) with
  | Some byTransport => JsMap.get transport byTransport
  | None => None
  end.

(** The remote entries a push to [target] may count. *)
Definition foreignEntries (ctx : BusContext) (target subject : string) : list RemoteEntry :=
  if isHostLocalRequestSubject ctx subject then []
  else filter (λ e, re_transport e ≠ target ∧
                    deliveryClassOf (remote ctx) subject (re_transport e) = Some relayable)
         (default [] (JsMap.get subject (remoteRequestHandlers (remote ctx)))).

Definition pushAdvertisedSubject (ctx : BusContext) (target subject : string) : Push :=
  let localEntries := getMatchingHandlerEntries (requests (local ctx)) subject in
  let prioritySet := foldl (λ s p, JsSet.add p s) []
    (map priority localEntries ++ map re_priority (foreignEntries ctx target subject)) in
  let hasLocalEventHandlers := JsMap.has subject (events (local ctx)) in
  let hasLocalHandlers := negb (bool_decide (localEntries = [])) || hasLocalEventHandlers in
  let isHostLocalRequest := isHostLocalRequestSubject ctx subject in
  let hasForeignEventHandlers :=
    negb isHostLocalRequest &&
    existsb (λ t, bool_decide (t ≠ target ∧ deliveryClassOf (remote ctx) subject t = Some relayable))
      (default [] (JsMap.get subject (remoteEventHandlers (remote ctx)))) in
  if bool_decide (prioritySet = []) && negb hasLocalEventHandlers && negb hasForeignEventHandlers
  then Unsubscribe target subject
  else Subscribe target subject prioritySet
         (if hasLocalHandlers && isHostLocalRequest then first_hop_only else relayable).

Definition expandHostLocalWildcardSubjects (ctx : BusContext) (affectedSubjects : list string) :
    list string :=
  foldl (λ s r, if hostLocalRequest r && existsb (matchesSubscription (fullSubject r)) affectedSubjects
                then JsSet.add (fullSubject r) s else s)
    (JsSet.of_list affectedSubjects) (listRegisteredSubjects (namespaces ctx)).

Definition pushAdvertisedSubjectsToPeers (ctx : BusContext) (exclude : option string)
    (affectedSubjects : list string) : list Push :=
  let expandedSubjects := expandHostLocalWildcardSubjects ctx affectedSubjects in
  List.concat (map (λ name, map (pushAdvertisedSubject ctx name) expandedSubjects)
    (filter (λ name, exclude ≠ Some name) (transports ctx))).

(** The subjects a newly registered transport is told about. *)
Definition syncSubjects (ctx : BusContext) : list string :=
  JsSet.of_list
    (JsMap.keys (requests (local ctx)) ++ JsMap.keys (events (local ctx)) ++
     JsMap.keys (remoteRequestHandlers (remote ctx)) ++ JsMap.keys (remoteEventHandlers (remote ctx)) ++
     JsMap.keys (remoteSubscriptionDeliveryClasses (remote ctx)) ++
     map fullSubject (filter (λ r, hostLocalRequest r = true ∧
       getMatchingHandlerEntries (requests (local ctx)) (fullSubject r) ≠ [])
       (listRegisteredSubjects (namespaces ctx)))).

(** The pushes of [syncAllSubjectsToTransport] and whether the handshake
    follows them: [live] is the two guards after the pushes settled. *)
Definition syncAllSubjectsToTransport (ctx : BusContext) (transportName : string)
    (live declaresReady : bool) : list Push * bool :=
  (map (pushAdvertisedSubject ctx transportName) (syncSubjects ctx), live && declaresReady).

Definition propagateSubscribe (ctx : BusContext) (sourceName : string) (message : SubscribeMessage) :
    BusContext * list Push :=
  let ctx' := with_remote ctx
    (foldl (subscribeOne sourceName (sm_deliveryClasses message)) (remote ctx) (sm_subjects message)) in
  (ctx', pushAdvertisedSubjectsToPeers ctx' (Some sourceName) (JsMap.keys (sm_subjects message))).

Definition propagateUnsubscribe (ctx : BusContext) (sourceName : string) (subjects : list string) :
    BusContext * list Push :=
  let ctx' := with_remote ctx (foldl (unsubscribeOne sourceName) (remote ctx) subjects) in
  (ctx', pushAdvertisedSubjectsToPeers ctx' (Some sourceName) subjects).

Definition purgeRemoteHandlersForTransport (ctx : BusContext) (transportName : string) :
    BusContext * list Push :=
  let '(st, affectedSubjects) := purge_state transportName (remote ctx) in
  let ctx' := with_remote ctx st in
  (ctx', match affectedSubjects with
         | [] => []
         | _ => pushAdvertisedSubjectsToPeers ctx' (Some transportName) affectedSubjects
         end).
End advertise.
Arguments BusContext : clear implicits.

(** ** Looking up remote routes *)
Definition blockedTransports (st : RemoteState) (fullSubjectKey : string) : list string :=
  List.concat (map (λ pd : string * list (string * SubscriptionDeliveryClass),
      if matchesSubscription fullSubjectKey pd.1
      then JsMap.keys (filter (λ tc, tc.2 ≠ relayable) pd.2) else [])
    (remoteSubscriptionDeliveryClasses st)).

Definition route_admitted (st : RemoteState) (fullSubjectKey : string) (excludeFirstHopOnly : bool)
    (pattern : string) (e : RemoteEntry) : Prop :=
  excludeFirstHopOnly = true →
  re_transport e ∉ blockedTransports st fullSubjectKey ∧ is_Some (deliveryClassOf st pattern (re_transport e)).

#[export] Instance route_admitted_dec st s b p e : Decision (route_admitted st s b p e).
Proof. unfold route_admitted. apply _. Defined.

Definition getMatchingRemoteEntries (st : RemoteState) (fullSubjectKey : string)
    (excludeFirstHopOnly : bool) : list RemoteEntry :=
  js_sort (desc_by re_priority)
    (foldl (λ seen e, JsSet.add e seen) []
      (List.concat (map (λ pe : string * list RemoteEntry,
          if matchesSubscription fullSubjectKey pe.1
          then filter (route_admitted st fullSubjectKey excludeFirstHopOnly pe.1) pe.2 else [])
        (remoteRequestHandlers st)))).

(** ** Views: what a state says about one subject *)
Definition entriesOf (st : RemoteState) (s : string) : list RemoteEntry :=
  default [] (JsMap.get s (remoteRequestHandlers st)).
Definition eventsOf (st : RemoteState) (s : string) : list string :=
  default [] (JsMap.get s (remoteEventHandlers st)).

(** Two states agree on a subject. *)
Definition same_view (s : string) (st st' : RemoteState) : Prop :=
  entriesOf st s = entriesOf st' s ∧ eventsOf st s = eventsOf st' s ∧
  ∀ t, deliveryClassOf st s t = deliveryClassOf st' s t.

#[export] Instance same_view_equiv s : Equivalence (same_view s).
Proof.
  split; unfold same_view.
  - done.
  - intros st st' (-> & -> & Hd). eauto.
  - intros st1 st2 st3 (-> & -> & H1) (-> & -> & H2). split_and!; [done..|]. intros t. by rewrite H1.
Qed.

Lemma get_set_or_delete {V} s s' (vs : list V) m :
  default [] (JsMap.get s' (set_or_delete s vs m)) =
    if decide (s = s') then vs else default [] (JsMap.get s' m).
Proof.
  unfold set_or_delete. destruct vs; rewrite ?JsMap.get_delete, ?JsMap.get_set; by case_decide.
Qed.

Lemma get_removeEvent s t m s' :
  default [] (JsMap.get s' (removeRemoteEventSubscription s t m)) =
    if decide (s = s') then JsSet.delete t (default [] (JsMap.get s' m)) else default [] (JsMap.get s' m).
Proof.
  unfold removeRemoteEventSubscription. destruct (JsMap.get s m) as [ts|] eqn:Hs.
  - destruct (JsSet.delete t ts) as [|t' ts'] eqn:E; rewrite ?JsMap.get_delete, ?JsMap.get_set;
      case_decide; subst; by rewrite ?Hs; simpl; rewrite ?E.
  - case_decide; subst; [|done]. by rewrite Hs.
Qed.

Lemma entries_subscribeOne src cls st s ps s' :
  entriesOf (subscribeOne src cls st (s, ps)) s' =
    if decide (s = s') then without src (entriesOf st s) ++ map (Build_RemoteEntry src) ps
    else entriesOf st s'.
Proof. unfold entriesOf. simpl. by rewrite get_set_or_delete. Qed.

Lemma events_subscribeOne src cls st s ps s' t :
  t ∈ eventsOf (subscribeOne src cls st (s, ps)) s' ↔
    if decide (s = s' ∧ t = src) then ps = [] else t ∈ eventsOf st s'.
Proof.
  unfold eventsOf. simpl. destruct ps as [|p ps].
  - rewrite JsMap.get_set. destruct (decide (s = s')) as [->|].
    + simpl. rewrite JsSet.elem_add. case_decide; naive_solver.
    + rewrite decide_False by naive_solver. done.
  - rewrite get_removeEvent. destruct (decide (s = s')) as [->|].
    + rewrite JsSet.elem_delete. case_decide; naive_solver.
    + rewrite decide_False by naive_solver. done.
Qed.

Lemma class_subscribeOne src cls st s ps s' t :
  deliveryClassOf (subscribeOne src cls st (s, ps)) s' t =
    if decide (s = s' ∧ t = src)
    then Some (normalizeSubscriptionDeliveryClass (default VUndef (JsMap.get s cls)))
    else deliveryClassOf st s' t.
Proof.
  unfold deliveryClassOf. simpl. rewrite JsMap.get_set.
  destruct (decide (s = s')) as [->|]; [|by rewrite decide_False by naive_solver].
  rewrite JsMap.get_set. case_decide; [by rewrite decide_True by naive_solver|].
  rewrite decide_False by naive_solver. by destruct (JsMap.get s' _).
Qed.

Lemma view_subscribe_other src cls st sp s' :
  sp.1 ≠ s' → same_view s' (subscribeOne src cls st sp) st.
Proof.
  destruct sp as [s ps]. intros Hne. simpl in Hne. unfold same_view. split_and!.
  - by rewrite entries_subscribeOne, decide_False.
  - unfold eventsOf. simpl. destruct ps; [by rewrite JsMap.get_set, decide_False|].
    by rewrite get_removeEvent, decide_False.
  - intros t. rewrite class_subscribeOne, decide_False; naive_solver.
Qed.

Lemma view_subscribe_absent src cls sps st s :
  s ∉ JsMap.keys sps → same_view s (foldl (subscribeOne src cls) st sps) st.
Proof.
  unfold JsMap.keys. revert st. induction sps as [|sp sps IH]; intros st; simpl; [done|].
  intros [Hne Hni]%not_elem_of_cons. etrans; [by apply IH|]. by apply view_subscribe_other.
Qed.

(** The effect of a whole message on one subject is that of its own entry. *)
Lemma view_subscribe_present src cls sps st s ps :
  NoDup (JsMap.keys sps) → JsMap.get s sps = Some ps →
  ∃ st0, same_view s st0 st ∧
    same_view s (foldl (subscribeOne src cls) st sps) (subscribeOne src cls st0 (s, ps)).
Proof.
  unfold JsMap.keys. revert st. induction sps as [|[s' ps'] sps IH]; intros st; simpl; [done|].
  intros [Hni Hnd]%NoDup_cons. case_decide; [|subst].
  - intros. simplify_eq. exists st. split; [done|]. by apply view_subscribe_absent.
  - intros Hg. destruct (IH (subscribeOne src cls st (s', ps')) Hnd Hg) as (st0 & H0 & H1).
    exists st0. split; [|done]. etrans; [done|]. by apply view_subscribe_other.
Qed.

Lemma view_unsubscribeOne_other src st s s' :
  s ≠ s' → same_view s' (unsubscribeOne src st s) st.
Proof.
  intros Hne. unfold same_view, entriesOf, eventsOf, deliveryClassOf. simpl. split_and!.
  - destruct (JsMap.get s (remoteRequestHandlers st)); [|done]. by rewrite get_set_or_delete, decide_False.
  - by rewrite get_removeEvent, decide_False.
  - intros t. destruct (JsMap.get s (remoteSubscriptionDeliveryClasses st)); [|done].
    unfold set_or_delete. destruct (JsMap.delete _ _); rewrite ?JsMap.get_delete, ?JsMap.get_set;
      by rewrite decide_False.
Qed.

Lemma view_unsubscribe_absent src ss st s :
  s ∉ ss → same_view s (foldl (unsubscribeOne src) st ss) st.
Proof.
  revert st. induction ss as [|s' ss IH]; intros st; simpl; [done|].
  intros [Hne Hni]%not_elem_of_cons. etrans; [by apply IH|]. by apply view_unsubscribeOne_other.
Qed.

(** ** Purging *)
Lemma purge_map_get {V} (shrink : list V → list V) m s :
  shrink [] = [] → (∀ vs, (List.length (shrink vs) = List.length vs → shrink vs = vs)) →
  NoDup (JsMap.keys m) →
  default [] (JsMap.get s (purge_map shrink m).1) = shrink (default [] (JsMap.get s m)) ∧
  (s ∉ (purge_map shrink m).2 → JsMap.get s (purge_map shrink m).1 = JsMap.get s m) ∧
  (∀ s', s' ∈ JsMap.keys (purge_map shrink m).1 → s' ∈ JsMap.keys m).
Proof.
  intros Hnil Hlen. unfold JsMap.keys. induction m as [|[s1 vs] m IH]; simpl.
  { intros _. by rewrite Hnil. }
  intros [Hni Hnd]%NoDup_cons. destruct (IH Hnd) as (IH1 & IH2 & IH3).
  destruct (purge_map shrink m) as [rest affected]. simpl in *.
  assert (s1 = s → JsMap.get s rest = None) as Hrest.
  { intros ->. apply JsMap.get_None. intros Hin. by apply IH3 in Hin. }
  case_decide as Hd; simpl.
  - split_and!; [|by intros; case_decide; auto|].
    + case_decide; simpl; [by rewrite Hlen|done].
    + intros s' [->|Hin]%elem_of_cons; [left|right; auto].
  - assert (s ∉ s1 :: affected → s1 ≠ s ∧ s ∉ affected) as Hcons
      by (rewrite not_elem_of_cons; intros [? ?]; split; congruence).
    destruct (shrink vs) as [|v vs'] eqn:E; simpl; split_and!.
    + case_decide; subst; simpl; [|done]. by rewrite Hrest, E.
    + intros [Hne Hni']%Hcons. rewrite decide_False by done. auto.
    + intros s' Hin. right. auto.
    + case_decide; subst; simpl; by rewrite ?E.
    + intros [Hne Hni']%Hcons. rewrite !decide_False by done. auto.
    + intros s' [->|Hin]%elem_of_cons; [left|right; auto].
Qed.

Lemma purge_map_keys {V} (shrink : list V → list V) m :
  JsMap.keys (purge_map shrink m).1 `sublist_of` JsMap.keys m.
Proof.
  unfold JsMap.keys. induction m as [|[s vs] m IH]; simpl; [done|].
  destruct (purge_map shrink m) as [rest affected]. simpl in *.
  case_decide; simpl; [by constructor|]. destruct (shrink vs); simpl; by constructor.
Qed.

Lemma purge_map_elem {V} (shrink : list V → list V) m s vs :
  (s, vs) ∈ (purge_map shrink m).1 → ∃ vs0, (s, vs0) ∈ m ∧ (vs = vs0 ∨ vs = shrink vs0).
Proof.
  induction m as [|[s1 vs1] m IH]; simpl; [set_solver|].
  destruct (purge_map shrink m) as [rest affected]. simpl in *.
  assert ((s, vs) ∈ rest → ∃ vs0, (s, vs0) ∈ (s1, vs1) :: m ∧ (vs = vs0 ∨ vs = shrink vs0)) as Hrest.
  { intros (vs0 & Hin & Hor)%IH. exists vs0. split; [by right|done]. }
  case_decide; simpl; [|destruct (shrink vs1) eqn:E; simpl; [done|]];
    (intros [Heq|Hin]%elem_of_cons; [simplify_eq; eexists; split; [left|auto]|auto]).
Qed.

(** Keys are unique, in the maps and in the delivery maps they hold. *)
Record maps_ok (st : RemoteState) : Prop := {
  mo_requests : NoDup (JsMap.keys (remoteRequestHandlers st));
  mo_events : NoDup (JsMap.keys (remoteEventHandlers st));
  mo_classes : NoDup (JsMap.keys (remoteSubscriptionDeliveryClasses st));
  mo_inner s m : (s, m) ∈ remoteSubscriptionDeliveryClasses st → NoDup (JsMap.keys m);
}.

Lemma deliveryClassOf_default st s t :
  deliveryClassOf st s t = JsMap.get t (default [] (JsMap.get s (remoteSubscriptionDeliveryClasses st))).
Proof. unfold deliveryClassOf. by destruct (JsMap.get s _). Qed.

Definition purged (t : string) (st st' : RemoteState) (s : string) : Prop :=
  entriesOf st' s = without t (entriesOf st s) ∧
  eventsOf st' s = JsSet.delete t (eventsOf st s) ∧
  ∀ t', deliveryClassOf st' s t' = if decide (t = t') then None else deliveryClassOf st s t'.

Lemma purge_state_view t st s :
  maps_ok st →
  purged t st (purge_state t st).1 s ∧ (s ∉ (purge_state t st).2 → same_view s (purge_state t st).1 st).
Proof.
  intros [Hr He Hd _]. unfold purge_state.
  destruct (purge_map_get (without t) (remoteRequestHandlers st) s) as (R1 & R2 & _);
    [done|intros; by apply filter_length_id|done|].
  destruct (purge_map_get (JsSet.delete t) (remoteEventHandlers st) s) as (E1 & E2 & _);
    [done|intros; by apply filter_length_id|done|].
  destruct (purge_map_get (JsMap.delete t) (remoteSubscriptionDeliveryClasses st) s) as (D1 & D2 & _);
    [done|intros ?; rewrite JsMap.delete_filter; by apply filter_length_id|done|].
  do 3 destruct (purge_map _ _) as [? ?]. simpl in *. split.
  - unfold purged, entriesOf, eventsOf. simpl. split_and!; [done..|]. intros t'.
    rewrite !deliveryClassOf_default. simpl. rewrite D1. apply JsMap.get_delete.
  - rewrite JsSet.elem_of_list, !elem_of_app. intros Hni.
    unfold same_view, entriesOf, eventsOf, deliveryClassOf. simpl.
    rewrite R2, E2, D2 by tauto. done.
Qed.

(** *** The invariant: every learned subscription has a recorded class, and a
    transport subscribes to a subject for events only or with priorities. *)
Record provenance (st : RemoteState) (s : string) : Prop := {
  prov_requests e : e ∈ entriesOf st s → is_Some (deliveryClassOf st s (re_transport e));
  prov_events t : t ∈ eventsOf st s → is_Some (deliveryClassOf st s t);
  prov_disjoint e : e ∈ entriesOf st s → re_transport e ∉ eventsOf st s;
}.

Definition remote_ok (st : RemoteState) : Prop := maps_ok st ∧ ∀ s, provenance st s.

Definition empty_remote : RemoteState :=
  {| remoteRequestHandlers := []; remoteEventHandlers := []; remoteSubscriptionDeliveryClasses := [] |}.

Lemma remote_ok_empty : remote_ok empty_remote.
Proof. split; split; try apply NoDup_nil_2; set_solver. Qed.

Lemma elem_without t e es : e ∈ without t es ↔ re_transport e ≠ t ∧ e ∈ es.
Proof. unfold without. by rewrite list_elem_of_filter. Qed.

Lemma set_or_delete_NoDup {V} s (vs : list V) m :
  NoDup (JsMap.keys m) → NoDup (JsMap.keys (set_or_delete s vs m)).
Proof. unfold set_or_delete. destruct vs; auto with js. Qed.

Lemma removeEvent_NoDup s t m : NoDup (JsMap.keys m) → NoDup (JsMap.keys (removeRemoteEventSubscription s t m)).
Proof. unfold removeRemoteEventSubscription. repeat case_match; auto with js. Qed.

Lemma elem_set {V} (s : string) (v : V) m s' v' : NoDup (JsMap.keys m) →
  (s', v') ∈ JsMap.set s v m → (s', v') = (s, v) ∨ (s', v') ∈ m.
Proof.
  intros Hnd Hin. apply JsMap.elem_get in Hin; [|auto with js]. rewrite JsMap.get_set in Hin.
  case_decide; simplify_eq; [auto|]. right. by apply JsMap.get_elem.
Qed.

#[export] Hint Resolve set_or_delete_NoDup removeEvent_NoDup : js.

Lemma maps_ok_subscribeOne src cls st sp : maps_ok st → maps_ok (subscribeOne src cls st sp).
Proof.
  destruct sp as [s ps]. intros [Hr He Hd Hi]. split; simpl; auto with js.
  - destruct ps; auto with js.
  - intros s' m [Heq|Hin]%elem_set; [|by eapply Hi|done]. simplify_eq.
    apply JsMap.NoDup_keys_set. destruct (JsMap.get s _) as [m|] eqn:E; simpl; [|apply NoDup_nil_2].
    eapply Hi, JsMap.get_elem, E.
Qed.

Lemma maps_ok_unsubscribeOne src st s : maps_ok st → maps_ok (unsubscribeOne src st s).
Proof.
  intros [Hr He Hd Hi]. split; simpl; [case_match; auto with js|auto with js|case_match; auto with js|].
  intros s' m Hin. destruct (JsMap.get s _) as [m0|] eqn:E; [|by eapply Hi].
  assert (NoDup (JsMap.keys m0)) by (eapply Hi, JsMap.get_elem, E).
  unfold set_or_delete in Hin. destruct (JsMap.delete src m0) as [|x m1] eqn:Hdel.
  - apply JsMap.elem_get in Hin; [|auto with js]. rewrite JsMap.get_delete in Hin.
    case_decide; [done|]. eapply Hi, JsMap.get_elem, Hin.
  - apply elem_set in Hin as [Heq|Hin]; [|by eapply Hi|done]. simplify_eq.
    rewrite <- Hdel. auto with js.
Qed.

Lemma maps_ok_purge t st : maps_ok st → maps_ok (purge_state t st).1.
Proof.
  intros [Hr He Hd Hi]. unfold purge_state.
  pose proof (purge_map_keys (without t) (remoteRequestHandlers st)) as KR.
  pose proof (purge_map_keys (JsSet.delete t) (remoteEventHandlers st)) as KE.
  pose proof (purge_map_keys (JsMap.delete t) (remoteSubscriptionDeliveryClasses st)) as KD.
  pose proof (purge_map_elem (JsMap.delete t) (remoteSubscriptionDeliveryClasses st)) as ED.
  do 3 destruct (purge_map _ _) as [? ?]. simpl in *. split; simpl; eauto using sublist_NoDup.
  intros s m (m0 & Hin & [-> | ->])%ED; [by eapply Hi|]. apply JsMap.NoDup_keys_delete. by eapply Hi.
Qed.

Lemma provenance_same st st' s : same_view s st' st → provenance st s → provenance st' s.
Proof. intros (He & Hv & Hc) [P1 P2 P3]. split; rewrite ?He, ?Hv; intros *; rewrite ?Hc; eauto. Qed.

Lemma provenance_purged t st st' s : purged t st st' s → provenance st s → provenance st' s.
Proof.
  intros (He & Hv & Hc) [P1 P2 P3]. split; rewrite ?He, ?Hv.
  - intros e [Hne Hin]%elem_without. rewrite Hc, decide_False by done. auto.
  - intros t' [Hne Hin]%JsSet.elem_delete. rewrite Hc, decide_False by done. auto.
  - intros e [Hne Hin]%elem_without [_ Hin']%JsSet.elem_delete. by eapply P3.
Qed.

Lemma purged_unsubscribeOne src st s : purged src st (unsubscribeOne src st s) s.
Proof.
  unfold purged, entriesOf, eventsOf. split_and!; simpl.
  - destruct (JsMap.get s (remoteRequestHandlers st)) eqn:E; [|by rewrite E].
    by rewrite get_set_or_delete, decide_True.
  - by rewrite get_removeEvent, decide_True.
  - intros t'. rewrite !deliveryClassOf_default. simpl.
    destruct (JsMap.get s (remoteSubscriptionDeliveryClasses st)) as [m|] eqn:E; simpl.
    + rewrite get_set_or_delete, decide_True by done. apply JsMap.get_delete.
    + rewrite E. simpl. by case_decide.
Qed.

Lemma provenance_subscribeOne src cls st s ps s' :
  provenance st s' → provenance (subscribeOne src cls st (s, ps)) s'.
Proof.
  intros [P1 P2 P3]. destruct (decide (s = s')) as [->|Hne];
    [|eapply provenance_same; [by apply view_subscribe_other|by split]].
  assert (Hclass : ∀ t, is_Some (deliveryClassOf st s' t) ∨ t = src →
    is_Some (deliveryClassOf (subscribeOne src cls st (s', ps)) s' t)).
  { intros t Ht. rewrite class_subscribeOne. case_decide as Hd; [by eexists|]. naive_solver. }
  split.
  - intros e. rewrite entries_subscribeOne, decide_True by done. rewrite elem_of_app, elem_without.
    intros [[_ Hin]|Hin]; apply Hclass; [left; auto|right].
    by apply list_elem_of_fmap in Hin as (p & -> & _).
  - intros t. rewrite events_subscribeOne. intros Ht. apply Hclass. case_decide; naive_solver.
  - intros e. rewrite entries_subscribeOne, decide_True by done. rewrite elem_of_app, elem_without.
    rewrite events_subscribeOne. intros [[Hne Hin]|Hin].
    + rewrite decide_False by naive_solver. by apply P3.
    + apply list_elem_of_fmap in Hin as (p & -> & Hp). simpl. rewrite decide_True by done.
      intros ->. set_solver.
Qed.

(** ** Transitions of the registries *)
Inductive remote_step : RemoteState → RemoteState → Prop :=
  | step_subscribe src message st :
      remote_step st (foldl (subscribeOne src (sm_deliveryClasses message)) st (sm_subjects message))
  | step_unsubscribe src subjects st :
      remote_step st (foldl (unsubscribeOne src) st subjects)
  | step_purge t st : remote_step st (purge_state t st).1.

Lemma remote_ok_step st st' : remote_ok st → remote_step st st' → remote_ok st'.
Proof.
  intros Hok. destruct 1 as [src message st|src subjects st|t st].
  - apply foldl_inv; [|done]. intros st1 [s ps] [Hm Hp].
    split; [by apply maps_ok_subscribeOne|]. intros s'. by apply provenance_subscribeOne.
  - apply foldl_inv; [|done]. intros st1 s [Hm Hp]. split; [by apply maps_ok_unsubscribeOne|]. intros s'.
    destruct (decide (s = s')) as [->|]; [by eapply provenance_purged; [apply purged_unsubscribeOne|]|].
    eapply provenance_same; [by apply view_unsubscribeOne_other|done].
  - destruct Hok as [Hm Hp]. split; [by apply maps_ok_purge|]. intros s.
    eapply provenance_purged; [by apply purge_state_view|done].
Qed.

Section adverts.
Context {H : Type} `{EqDecision H}.
Implicit Types (ctx : BusContext H) (s target : string).

(** An advertisement reads the remote state only through the view of its subject. *)
Lemma push_same_view ctx st target s :
  same_view s st (remote ctx) →
  pushAdvertisedSubject (with_remote ctx st) target s = pushAdvertisedSubject ctx target s.
Proof.
  intros (He & Hv & Hc). unfold pushAdvertisedSubject, foreignEntries. simpl.
  change (isHostLocalRequestSubject (with_remote ctx st) s) with (isHostLocalRequestSubject ctx s).
  change (default [] (JsMap.get s (remoteRequestHandlers st))) with (entriesOf st s).
  change (default [] (JsMap.get s (remoteEventHandlers st))) with (eventsOf st s).
  rewrite He, Hv.
  assert (filter (λ e, re_transport e ≠ target ∧ deliveryClassOf st s (re_transport e) = Some relayable)
            (entriesOf (remote ctx) s) =
          filter (λ e, re_transport e ≠ target ∧ deliveryClassOf (remote ctx) s (re_transport e) = Some relayable)
            (entriesOf (remote ctx) s)) as Hf.
  { apply list_filter_iff. intros e. by rewrite Hc. }
  assert (existsb (λ t, bool_decide (t ≠ target ∧ deliveryClassOf st s t = Some relayable))
            (eventsOf (remote ctx) s) =
          existsb (λ t, bool_decide (t ≠ target ∧ deliveryClassOf (remote ctx) s t = Some relayable))
            (eventsOf (remote ctx) s)) as Hx.
  { generalize (eventsOf (remote ctx) s). clear -Hc. intros ts. induction ts as [|t ts IH]; simpl; [done|].
    f_equal; [|done]. apply bool_decide_ext. by rewrite Hc. }
  unfold entriesOf, eventsOf in *. by rewrite Hf, Hx.
Qed.

Lemma expand_incl ctx affected s : s ∈ affected → s ∈ expandHostLocalWildcardSubjects ctx affected.
Proof.
  intros Hs. unfold expandHostLocalWildcardSubjects. apply foldl_inv.
  - intros acc r Hacc. case_match; [|done]. rewrite JsSet.elem_add. auto.
  - by apply JsSet.elem_of_list.
Qed.

Lemma push_covers ctx exclude affected target s :
  target ∈ transports ctx → exclude ≠ Some target → s ∈ affected →
  pushAdvertisedSubject ctx target s ∈ pushAdvertisedSubjectsToPeers ctx exclude affected.
Proof.
  intros Ht Hx Hs. unfold pushAdvertisedSubjectsToPeers. apply list_elem_of_In, in_concat.
  exists (map (pushAdvertisedSubject ctx target) (expandHostLocalWildcardSubjects ctx affected)).
  rewrite <- !list_elem_of_In. split; apply list_elem_of_fmap.
  - exists target. split; [done|]. by apply list_elem_of_filter.
  - exists s. split; [done|]. by apply expand_incl.
Qed.
End adverts.

Lemma blocked_iff st s t :
  t ∉ blockedTransports st s ↔
  ∀ pattern classes c, (pattern, classes) ∈ remoteSubscriptionDeliveryClasses st →
    Matches s pattern → (t, c) ∈ classes → c = relayable.
Proof.
  unfold blockedTransports. rewrite list_elem_of_In, in_concat. split.
  - intros Hnb pattern classes c Hin Hm Hc. destruct c; [done|]. exfalso. apply Hnb.
    exists (JsMap.keys (filter (λ tc, tc.2 ≠ relayable) classes)). rewrite <- !list_elem_of_In. split.
    + apply list_elem_of_fmap. exists (pattern, classes). split; [|done]. simpl.
      by rewrite matchesSubscription_complete.
    + apply list_elem_of_fmap. exists (t, first_hop_only). split; [done|]. by apply list_elem_of_filter.
  - intros Hall (ks & Hks & Ht). apply list_elem_of_In in Hks, Ht.
    apply list_elem_of_fmap in Hks as ([pattern classes] & -> & Hin). simpl in Ht.
    destruct (matchesSubscription s pattern) eqn:Hm; [|set_solver].
    apply list_elem_of_fmap in Ht as ([t' c] & -> & [Hne Hc]%list_elem_of_filter).
    apply Hne. simpl. eauto with subjects.
Qed.

(** *** Properties *)

(** In every state the three registries can reach by subscribe,
    unsubscribe and disconnect, each learned subscription has a delivery class
    on record, and no transport is both an event-only and a request subscriber
    of one subject. *)
Theorem remote_invariant (st : RemoteState) (Hst : rtc remote_step empty_remote st) (s : string) :
  provenance st s.
Proof.
  assert (remote_ok st) as [_ Hp]; [|done]. revert Hst.
  cut (∀ st0, rtc remote_step st0 st → remote_ok st0 → remote_ok st).
  - intros Hc Hst. by eapply Hc, remote_ok_empty.
  - intros st0. induction 1; eauto using remote_ok_step.
Qed.

(** A subscribe message is a full replacement per subject it names: the
    sender's old entries go, its announced priorities come in order, its class
    is recorded and its event-only flag is recomputed, while other transports
    and other subjects keep what they had. *)
Theorem propagateSubscribe_replaces {H} `{EqDecision H} (ctx : BusContext H) (src : string)
    (message : SubscribeMessage) (Hnd : NoDup (JsMap.keys (sm_subjects message))) (s : string) :
  let st := remote ctx in
  let st' := remote (propagateSubscribe ctx src message).1 in
  match JsMap.get s (sm_subjects message) with
  | Some ps =>
      entriesOf st' s = without src (entriesOf st s) ++ map (Build_RemoteEntry src) ps ∧
      (∀ t, t ∈ eventsOf st' s ↔ if decide (t = src) then ps = [] else t ∈ eventsOf st s) ∧
      (∀ t, deliveryClassOf st' s t =
         if decide (t = src)
         then Some (normalizeSubscriptionDeliveryClass
                      (default VUndef (JsMap.get s (sm_deliveryClasses message))))
         else deliveryClassOf st s t)
  | None => same_view s st' st
  end.
Proof.
  simpl. destruct (JsMap.get s (sm_subjects message)) as [ps|] eqn:Hg.
  - destruct (view_subscribe_present src (sm_deliveryClasses message) _ (remote ctx) _ _ Hnd Hg)
      as (st0 & (He0 & Hv0 & Hc0) & He1 & Hv1 & Hc1). split_and!.
    + by rewrite He1, entries_subscribeOne, decide_True, He0.
    + intros t. rewrite Hv1, events_subscribeOne, Hv0. repeat case_decide; naive_solver.
    + intros t. rewrite Hc1, class_subscribeOne, Hc0. repeat case_decide; naive_solver.
  - by apply view_subscribe_absent, JsMap.get_None.
Qed.

(** After a transport disconnects nothing it announced is left, under any
    subject, and nothing another transport announced is lost. *)
Theorem purge_removes_exactly {H} `{EqDecision H} (ctx : BusContext H) (t : string)
    (Hok : remote_ok (remote ctx)) (s : string) :
  purged t (remote ctx) (remote (purgeRemoteHandlersForTransport ctx t).1) s.
Proof.
  destruct Hok as [Hm _]. pose proof (purge_state_view t (remote ctx) s Hm) as [Hp _].
  unfold purgeRemoteHandlersForTransport. by destruct (purge_state t (remote ctx)).
Qed.

(** Advertisements never go stale: whenever learning or forgetting
    subscriptions changes what the bus should advertise to some other peer
    about some subject, the new advertisement is among the pushes. *)
Theorem advertisements_pushed {H} `{EqDecision H} (ctx : BusContext H) (src : string)
    (message : SubscribeMessage) (subjects : list string) (Hok : remote_ok (remote ctx))
    (result : BusContext H * list Push)
    (Hr : result = propagateSubscribe ctx src message ∨ result = propagateUnsubscribe ctx src subjects ∨
          result = purgeRemoteHandlersForTransport ctx src)
    (target s : string) (Ht : target ∈ transports ctx) (Hne : target ≠ src)
    (Hchg : pushAdvertisedSubject result.1 target s ≠ pushAdvertisedSubject ctx target s) :
  pushAdvertisedSubject result.1 target s ∈ result.2.
Proof.
  assert (Some src ≠ Some target) as Hx by congruence.
  destruct Hr as [-> |[-> | ->]]; simpl in *.
  - apply push_covers; [done..|]. destruct (decide (s ∈ JsMap.keys (sm_subjects message))); [done|].
    destruct Hchg. by apply push_same_view, view_subscribe_absent.
  - apply push_covers; [done..|]. destruct (decide (s ∈ subjects)); [done|].
    destruct Hchg. by apply push_same_view, view_unsubscribe_absent.
  - destruct Hok as [Hm _]. pose proof (purge_state_view src (remote ctx) s Hm) as [_ Hv].
    unfold purgeRemoteHandlersForTransport in *. destruct (purge_state src (remote ctx)) as [st affected].
    simpl in *. destruct (decide (s ∈ affected)) as [Hin|Hni].
    + destruct affected; [by apply not_elem_of_nil in Hin|]. by apply push_covers.
    + destruct Hchg. by apply push_same_view, Hv.
Qed.

(** What a peer is told about a subject is exactly the priorities of the
    matching local handlers plus, for a subject that is not host-local, those
    of relayable entries learned from other transports; a peer's own entries
    and entries without relayable provenance are never echoed. *)
Theorem advertisement_correct {H} `{EqDecision H} (ctx : BusContext H) (target s : string)
    (priorities : list Z) (cls : SubscriptionDeliveryClass)
    (Hp : pushAdvertisedSubject ctx target s = Subscribe target s priorities cls) (p : Z) :
  p ∈ priorities ↔
  (∃ e, e ∈ getMatchingHandlerEntries (requests (local ctx)) s ∧ priority e = p) ∨
  (isHostLocalRequestSubject ctx s = false ∧
   ∃ e, e ∈ entriesOf (remote ctx) s ∧ re_priority e = p ∧ re_transport e ≠ target ∧
        deliveryClassOf (remote ctx) s (re_transport e) = Some relayable).
Proof.
  unfold pushAdvertisedSubject in Hp. case_match; [done|]. simplify_eq.
  rewrite JsSet.elem_fold_add, elem_of_app, !list_elem_of_fmap. unfold foreignEntries, entriesOf.
  destruct (isHostLocalRequestSubject ctx s).
  - set_solver.
  - setoid_rewrite list_elem_of_filter. set_solver.
Qed.

(** A peer is told to stop routing a subject only when no request handler,
    local or relayable foreign, and no event subscription remains for it. *)
Theorem unsubscribe_only_when_silent {H} `{EqDecision H} (ctx : BusContext H) (target s : string)
    (Hp : pushAdvertisedSubject ctx target s = Unsubscribe target s) :
  getMatchingHandlerEntries (requests (local ctx)) s = [] ∧ foreignEntries ctx target s = [] ∧
  JsMap.get s (events (local ctx)) = None.
Proof.
  unfold pushAdvertisedSubject in Hp. case_match eqn:E; [|done].
  apply andb_true_iff in E as [[E1%bool_decide_eq_true E2]%andb_true_iff _].
  assert (∀ p, p ∉ map priority (getMatchingHandlerEntries (requests (local ctx)) s) ++
               map re_priority (foreignEntries ctx target s)) as Hno.
  { intros p Hin. eapply (not_elem_of_nil p). rewrite <- E1. apply JsSet.elem_fold_add. by right. }
  unfold JsMap.has in E2. split_and!.
  - destruct (getMatchingHandlerEntries _ s) as [|e es]; [done|]. edestruct Hno. simpl. left.
  - destruct (foreignEntries ctx target s) as [|e es]; [done|]. edestruct Hno.
    apply elem_of_app. right. left.
  - by destruct (JsMap.get s (events (local ctx))).
Qed.

(** The remote routes of a request are exactly the learned entries whose
    pattern matches the subject, each (transport, priority) once and highest
    priority first; when relaying, a transport is left out altogether as soon
    as one matching pattern of its is not relayable, and an entry without a
    recorded class is left out too. *)
Theorem remote_routes_correct (st : RemoteState) (s : string) (relaying : bool) :
  let routes := getMatchingRemoteEntries st s relaying in
  ordered (desc_by re_priority) routes ∧ NoDup routes ∧
  ∀ e, e ∈ routes ↔
    ∃ pattern entries, (pattern, entries) ∈ remoteRequestHandlers st ∧ Matches s pattern ∧ e ∈ entries ∧
      (relaying = true →
        is_Some (deliveryClassOf st pattern (re_transport e)) ∧
        ∀ pattern' classes c, (pattern', classes) ∈ remoteSubscriptionDeliveryClasses st →
          Matches s pattern' → (re_transport e, c) ∈ classes → c = relayable).
Proof.
  simpl. unfold getMatchingRemoteEntries. split_and!.
  - apply js_sort_ordered, _.
  - rewrite js_sort_perm. apply JsSet.NoDup_fold_add, NoDup_nil_2.
  - intros e. rewrite js_sort_elem, JsSet.elem_fold_add, (list_elem_of_In (List.concat _)), in_concat.
    assert (Hblocked : re_transport e ∉ blockedTransports st s ↔
      ∀ pattern' classes c, (pattern', classes) ∈ remoteSubscriptionDeliveryClasses st →
        Matches s pattern' → (re_transport e, c) ∈ classes → c = relayable).
    { apply blocked_iff. }
    split.
    + intros [[]%elem_of_nil|(es & Hes & He)]. apply list_elem_of_In in Hes, He.
      apply list_elem_of_fmap in Hes as ([pattern entries] & -> & Hin).
      destruct (matchesSubscription s pattern) eqn:Hm; simpl in He; rewrite Hm in He; [|set_solver].
      apply list_elem_of_filter in He as [Hadm He]. exists pattern, entries.
      split_and!; eauto with subjects. intros Hrel. destruct (Hadm Hrel). split; [done|]. by apply Hblocked.
    + intros (pattern & entries & Hin & Hm & He & Hadm). right.
      exists (filter (route_admitted st s relaying pattern) entries). rewrite <- !list_elem_of_In. split.
      * apply list_elem_of_fmap. exists (pattern, entries). split; [|done]. simpl.
        by rewrite matchesSubscription_complete.
      * apply list_elem_of_filter. split; [|done]. intros Hrel. destruct (Hadm Hrel). split; [|done].
        by apply Hblocked.
Qed.

(** *** Witnesses *)
Definition two_peers : BusContext nat :=
  {| local := {| events := []; requests := addToHandlerMap [] "a.b" 1%nat 5 |};
     remote := empty_remote;
     namespaces := {| listRegisteredSubjects := []; hostLocalRequestSubjects := [];
                      collectorOnlySubjects := []; defaultTransportsMap := [] |};
     transports := ["p"; "q"] |}.

Definition announce : SubscribeMessage :=
  {| sm_subjects := [("a.b", [7; 3]); ("c.*", [])];
     sm_deliveryClasses := [("a.b", VStr "relayable"); ("c.*", VStr "relayable")] |}.

Definition announced : BusContext nat := (propagateSubscribe two_peers "p" announce).1.

Lemma announced_reachable : rtc remote_step empty_remote (remote announced).
Proof. apply rtc_once. exact (step_subscribe "p" announce empty_remote). Qed.

Lemma announced_ok : remote_ok (remote announced).
Proof. eapply remote_ok_step; [apply remote_ok_empty|]. exact (step_subscribe "p" announce empty_remote). Qed.

Lemma remote_invariant_witness : provenance (remote announced) "a.b".
Proof. exact (remote_invariant _ announced_reachable "a.b"). Defined.

Lemma propagateSubscribe_replaces_witness :
  entriesOf (remote announced) "a.b" = [Build_RemoteEntry "p" 7; Build_RemoteEntry "p" 3].
Proof.
  refine (proj1 (propagateSubscribe_replaces two_peers "p" announce _ "a.b")).
  apply (bool_decide_unpack _); vm_compute; exact I.
Defined.

Lemma purge_removes_exactly_witness :
  purged "p" (remote announced) (remote (purgeRemoteHandlersForTransport announced "p").1) "a.b".
Proof. exact (purge_removes_exactly announced "p" announced_ok "a.b"). Defined.

Lemma advertisements_pushed_witness :
  Subscribe "q" "a.b" [5] relayable ∈ (purgeRemoteHandlersForTransport announced "p").2.
Proof.
  refine (advertisements_pushed announced "p" announce [] announced_ok
    (purgeRemoteHandlersForTransport announced "p") _ "q" "a.b" _ _ _).
  - right. right. reflexivity.
  - apply (bool_decide_unpack _); vm_compute; exact I.
  - discriminate.
  - vm_compute. discriminate.
Defined.

Lemma advertisement_correct_witness :
  pushAdvertisedSubject announced "q" "a.b" = Subscribe "q" "a.b" [5; 7; 3] relayable ∧ 7 ∈ [5; 7; 3].
Proof.
  split; [reflexivity|].
  apply (proj2 (advertisement_correct announced "q" "a.b" [5; 7; 3] relayable eq_refl 7)).
  right. split; [reflexivity|]. exists (Build_RemoteEntry "p" 7).
  split_and!; try reflexivity; [|discriminate]. left.
Defined.

Lemma unsubscribe_only_when_silent_witness :
  pushAdvertisedSubject announced "q" "x.y" = Unsubscribe "q" "x.y" ∧
  JsMap.get "x.y" (events (local announced)) = None.
Proof.
  split; [reflexivity|].
  exact (proj2 (proj2 (unsubscribe_only_when_silent announced "q" "x.y" eq_refl))).
Defined.
