(* ===== verification/Dispatch.v ===== *)
(** * Request dispatch

    [core/bus-core/src/methods/request/{merged-list,dispatch,readiness-gate,
    await-with-timeout-and-signal}.ts] and [methods/request.ts].

    Time is explicit: a world holds the clock in milliseconds, the next fresh
    object identity and the trace of entries tried.  Handlers are programs over
    the operations of [RequestContext] ([Prog]); a handler is deterministic but
    may branch on all it reads.  Each call of [next] is awaited where it is
    made.  Transports are third-party: [send] gives a promise, that is a delay
    and a settlement, and everything an environment answers may depend on the
    world, so registries, connections and readiness may change over time. *)
From S2P Require Import Prelude JsValue Subjects Handlers Errors Remote.

(** ** Merged entries *)
Inductive MergedEntry (H : Type) :=
  | LocalEntry (h : H) (prio : Z)
  | RemoteRoute (transport : string) (prio : Z).
Arguments LocalEntry {H}. Arguments RemoteRoute {H}.

Definition entry_priority {H} (e : MergedEntry H) : Z :=
  match e with LocalEntry _ p | RemoteRoute _ p => p end.
Definition is_local {H} (e : MergedEntry H) : bool :=
  match e with LocalEntry _ _ => true | RemoteRoute _ _ => false end.

(** The comparator of [buildMergedList]: [entry_le a b] when [a] may precede [b]. *)
Definition entry_le {H} (a b : MergedEntry H) : bool :=
  if bool_decide (entry_priority b ≠ entry_priority a) then bool_decide (entry_priority b ≤ entry_priority a)
  else is_local a || negb (is_local b).

#[export] Instance entry_le_preorder {H} : TotalPreorder (@entry_le H).
Proof.
  split; unfold entry_le; intros *; repeat case_bool_decide; rewrite ?bool_decide_eq_true; try lia;
    repeat match goal with |- context [is_local ?e] => destruct (is_local e) end; simpl; auto.
Qed.

Definition buildMergedList {H} (localEntries : list (HandlerEntry H)) (remoteEntries : list RemoteEntry) :
    list (MergedEntry H) :=
  js_sort entry_le
    (map (λ e, LocalEntry (handler e) (priority e)) localEntries ++
     map (λ e, RemoteRoute (re_transport e) (re_priority e)) remoteEntries).

(** [connected t]: registered and not explicitly unready. *)
Definition resolveRemoteEntries (connected : string → bool) (remoteEntries : list RemoteEntry)
    (allowedTransports : option (list string)) : list RemoteEntry :=
  match allowedTransports with
  | None | Some [] => remoteEntries
  | Some allowed =>
      match filter (λ e, re_transport e ∈ allowed) remoteEntries with
      | [] => map (λ t, {| re_transport := t; re_priority := 0 |})
                (filter (λ t, connected t = true) (JsSet.of_list allowed))
      | filtered => filtered
      end
  end.

Definition resolveStartIndex {H} (merged : list (MergedEntry H)) (cursor : option Z) : option nat :=
  match cursor with
  | None => Some 0%nat
  | Some c => fst <$> list_find (λ e, entry_priority e < c) merged
  end.

Definition resolveRemoteCursor {H} (merged : list (MergedEntry H)) (nextIndex : nat) (entryPriority : Z)
    (incomingCursor : option Z) : option Z :=
  if (nextIndex <? 2)%nat then incomingCursor
  else match merged !! (nextIndex - 2)%nat with
       | Some e => let base := entry_priority e in
                   Some (if bool_decide (base = entryPriority) then base + 1 else base)
       | None => None
       end.

(** ** World, promises and cancellation *)
Record RequestMessage := {
  rm_subject : string; rm_namespace : string; rm_payload : value;
  rm_correlationId : string; rm_messageId : string;
  rm_timeout : Z; rm_priority : option Z; rm_deadline : option Z; rm_readinessTimeout : option Z;
}.

Inductive Event (H : Type) :=
  | Tried (entry : MergedEntry H) (payload : value) (message : option RequestMessage)
  | CancelRequest (transport correlationId : string) (reason : thrown).
Arguments Tried {H}. Arguments CancelRequest {H}.

Record World (H : Type) := { now : Z; fresh : nat; trace : list (Z * Event H) }.
Arguments now {_}. Arguments fresh {_}. Arguments trace {_}. Arguments Build_World {_}.

(** A promise: it settles [settles_after] milliseconds from now. *)
Record Pending (A : Type) := { settles_after : nat; settled : outcome thrown A }.
Arguments settles_after {_}. Arguments settled {_}. Arguments Build_Pending {_}.

Record AbortSignal := { abort_at : Z; abort_reason : thrown }.

Section world.
Context {H : Type}.
Implicit Types (w : World H).

Definition aborted (signal : option AbortSignal) w : option thrown :=
  match signal with
  | Some s => if bool_decide (abort_at s ≤ now w) then Some (abort_reason s) else None
  | None => None
  end.

Definition at_time (t : Z) w : World H := {| now := t; fresh := fresh w; trace := trace w |}.

Definition log (e : Event H) : ST (World H) thrown unit := λ w,
  (Ok tt, {| now := now w; fresh := fresh w; trace := trace w ++ [(now w, e)] |}).

(** Throw a newly allocated error. *)
Definition throw_new {A} (mk : nat → thrown) : ST (World H) thrown A := λ w,
  (Throw (mk (fresh w)), {| now := now w; fresh := S (fresh w); trace := trace w |}).

Definition throw_abort {A} (reason : thrown) : ST (World H) thrown A :=
  if isRecognizedError reason then st_throw reason else throw_new (BusAbortError reason).

Definition p_timeout_error (milliseconds : Z) (i : nat) : thrown :=
  TErr i PTimeoutErrorClass ("Promise timed out after " +:+ pretty milliseconds +:+ " milliseconds") None [].
Definition p_timeout_invalid (i : nat) : thrown :=
  TErr i ErrorClass "Expected `milliseconds` to be a positive number" None [].

(** Which of the three events settles the wait.  At one instant the
    operation settles before the abort listener, and that before the timer. *)
Definition awaitWithTimeoutAndSignal {A} (operation : Pending A) (timeout : Z)
    (signal : option AbortSignal) : ST (World H) thrown A := λ w,
  match aborted signal w with
  | Some reason =>
      if bool_decide (timeout < 0) then throw_new p_timeout_invalid w else throw_abort reason w
  | None =>
      if bool_decide (timeout < 0) then throw_new p_timeout_invalid w else
      let t_op := now w + Z.of_nat (settles_after operation) in
      let timer := if bool_decide (timeout = 0) then None else Some (now w + timeout) in
      let before (t : Z) (o : option Z) := match o with Some u => bool_decide (t ≤ u) | None => true end in
      if before t_op (abort_at <$> signal) && before t_op timer
      then (settled operation, at_time t_op w)
      else match signal with
           | Some s => if before (abort_at s) timer
                       then throw_abort (abort_reason s) (at_time (abort_at s) w)
                       else throw_new (p_timeout_error timeout) (at_time (now w + timeout) w)
           | None => throw_new (p_timeout_error timeout) (at_time (now w + timeout) w)
           end
  end.

Definition remaining (deadline : option Z) w : option Z := (λ d, d - now w) <$> deadline.
Definition expired (deadline : option Z) w : bool :=
  match remaining deadline w with Some r => bool_decide (r ≤ 0) | None => false end.
End world.

(** ** Handlers *)
Inductive Prog :=
  | HReturn
  | HThrow (e : thrown)
  | HSetResult (v : value) (k : Prog)
  | HExtendResult (extension : list (string * value)) (k : Prog)
  | HReplacePayload (p : value) (k : Prog)
  | HWork (milliseconds : nat) (k : Prog)
  | HRead (k : value → option value → Prog)   (* [ctx.payload] and [ctx.result] *)
  | HNext (k : option thrown → Prog).         (* [await ctx.next()], caught *)

(** What [{ ...result }] copies. *)
Definition spread_props (v : value) : list (string * value) :=
  match v with
  | VObj fields => fields
  | VArr l => imap (λ i v, (pretty i, v)) l
  | _ => []
  end.

Record LocalState := {
  currentPayload : value;
  resultValue : option value;
  nextPromise : option (outcome thrown unit);
}.

Definition set_result (v : value) (st : LocalState) : LocalState :=
  {| currentPayload := currentPayload st; resultValue := Some v; nextPromise := nextPromise st |}.
Definition set_payload (p : value) (st : LocalState) : LocalState :=
  {| currentPayload := p; resultValue := resultValue st; nextPromise := nextPromise st |}.
(** Only the first [next] promise is tracked. *)
Definition track (o : outcome thrown unit) (st : LocalState) : LocalState :=
  {| currentPayload := currentPayload st; resultValue := resultValue st;
     nextPromise := match nextPromise st with Some p => Some p | None => Some o end |}.
(** A downstream outcome counts unless the handler has a result already. *)
Definition adopt (outcome : option value) (st : LocalState) : LocalState :=
  match outcome, resultValue st with Some v, None => set_result v st | _, _ => st end.

Record DispatchOptions := {
  allowedTransports : option (list string);
  cursor : option Z;
  correlationId : string;
  messageId : string;
  timeout : Z;
  readinessTimeout : option Z;
  deadline : option Z;
  signal : option AbortSignal;
  localOnly : bool;
  excludeFirstHopOnlyRemote : bool;
}.

Definition DEFAULT_READINESS_TIMEOUT_MS : Z := 1500.
Definition DEFAULT_REQUEST_TIMEOUT_MS : Z := 60000.

(** What the bus consults while dispatching. *)
Record Environment (H : Type) := {
  program : H → Prog;
  requestHandlersAt : World H → list (string * list (HandlerEntry H));
  remoteAt : World H → RemoteState;
  getTransport : World H → string → option (RequestMessage → Pending value);
  hasCancelRequest : string → bool;
  isReady : World H → string → bool;
  getPendingReadyEntries : World H → option (list string) → list (string * nat);
}.
Arguments program {_}. Arguments requestHandlersAt {_}. Arguments remoteAt {_}.
Arguments getTransport {_}. Arguments hasCancelRequest {_}. Arguments isReady {_}.
Arguments getPendingReadyEntries {_}.

Section dispatch.
Context {H : Type} (env : Environment H) (sd : SubjectDefinition) (options : DispatchOptions).

Notation M := (ST (World H) thrown).

Fixpoint run_handler (downstream : value → M (option value)) (p : Prog) (st : LocalState) : M LocalState :=
  match p with
  | HReturn => st_ret st
  | HThrow e => st_throw e
  | HSetResult v k => run_handler downstream k (set_result v st)
  | HExtendResult ext k =>
      run_handler downstream k
        (set_result (VObj (JsMap.assign (default [] (spread_props <$> resultValue st)) ext)) st)
  | HReplacePayload p k => run_handler downstream k (set_payload p st)
  | HWork ms k => λ w, run_handler downstream k st (at_time (now w + Z.of_nat ms) w)
  | HRead k => run_handler downstream (k (currentPayload st) (resultValue st)) st
  | HNext k => λ w,
      match downstream (currentPayload st) w with
      | (Ok outcome, w') => run_handler downstream (k None) (track (Ok tt) (adopt outcome st)) w'
      | (Throw e, w') => run_handler downstream (k (Some e)) (track (Throw e) st) w'
      end
  end.

(** After the handler returned: settle the tracked downstream work, or
    auto-advance when it called neither [setResult] nor [next]. *)
Definition settle (downstream : value → M (option value)) (st : LocalState) : M (option value) :=
  match nextPromise st with
  | Some (Throw e) => st_throw e
  | Some (Ok _) => st_ret (resultValue st)
  | None =>
      match resultValue st with
      | Some v => st_ret (Some v)
      | None => downstream (currentPayload st)
      end
  end.

(** The [catch] of [executeLocalEntry]. *)
Definition classify {A} (error : thrown) : M A := λ w,
  if isRequestCancellation error (aborted (signal options) w) then throw_abort error w
  else if instanceof error RequestErrorClass || instanceof error TimeoutErrorClass then (Throw error, w)
  else throw_new (RequestError (subject sd)
         (match error with TErr _ _ m _ _ => m | TVal _ v => js_String v end)
         (if isRecognizedError error then Some error else None)) w.

Definition executeLocalEntry (h : H) (payload : value) (downstream : value → M (option value)) :
    M (option value) := λ w,
  let body := let* st := run_handler downstream (program env h)
                {| currentPayload := payload; resultValue := None; nextPromise := None |} in
              settle downstream st in
  match body w with
  | (Ok outcome, w') => (Ok outcome, w')
  | (Throw error, w') => classify error w'
  end.

Definition remote_message (merged : list (MergedEntry H)) (nextIndex : nat) (prio : Z) (payload : value)
    (remainingTimeout : Z) : RequestMessage :=
  {| rm_subject := subject sd; rm_namespace := namespace sd; rm_payload := payload;
     rm_correlationId := correlationId options; rm_messageId := messageId options;
     rm_timeout := remainingTimeout;
     rm_priority := resolveRemoteCursor merged nextIndex prio (cursor options);
     rm_deadline := deadline options; rm_readinessTimeout := readinessTimeout options |}.

Definition executeRemoteEntry (merged : list (MergedEntry H)) (nextIndex : nat) (transport : string)
    (prio : Z) (payload : value) (skipToNext : option thrown → M (option value))
    (firstTransportError : option thrown) : M (option value) := λ w,
  let remainingTimeout := match remaining (deadline options) w with
                          | Some r => Z.max 0 r | None => timeout options end in
  if bool_decide (deadline options ≠ None ∧ remainingTimeout = 0) then skipToNext firstTransportError w
  else match getTransport env w transport with
  | None => skipToNext firstTransportError w
  | Some send =>
      let message := remote_message merged nextIndex prio payload remainingTimeout in
      let attempt : M value :=
        match aborted (signal options) w with
        | Some reason => throw_abort reason
        | None => let* _ := log (Tried (RemoteRoute transport prio) payload (Some message)) in
                  awaitWithTimeoutAndSignal (send message) remainingTimeout (signal options)
        end in
      match attempt w with
      | (Ok result, w') => (Ok (Some result), w')
      | (Throw error, w') =>
          if isRequestCancellation error (aborted (signal options) w') then
            (let* _ := if hasCancelRequest env transport
                       then log (CancelRequest transport (correlationId options) error)
                       else st_ret tt in
             throw_abort error) w'
          else if bool_decide (is_Some (aborted (signal options) w')) then (Throw error, w')
          else if isNoHandlerErrorForSubject error (namespace sd +:+ "." +:+ subject sd)
          then skipToNext firstTransportError w'
          else skipToNext (match firstTransportError with Some e => Some e | None => Some error end) w'
      end
  end.

(** [rest] is the merged list from [index] on. *)
Fixpoint stepDispatch (merged rest : list (MergedEntry H)) (index : nat) (payload : value)
    (firstTransportError : option thrown) : M (option value) :=
  match rest with
  | [] => match firstTransportError with Some e => st_throw e | None => st_ret None end
  | entry :: rest' => λ w,
      if expired (deadline options) w then throw_new (TimeoutError (subject sd) (timeout options)) w
      else match entry with
           | LocalEntry h prio =>
               (let* _ := log (Tried (LocalEntry h prio) payload None) in
                executeLocalEntry h payload
                  (λ p, stepDispatch merged rest' (S index) p firstTransportError)) w
           | RemoteRoute transport prio =>
               executeRemoteEntry merged (S index) transport prio payload
                 (stepDispatch merged rest' (S index) payload) firstTransportError w
           end
  end.
End dispatch.

(** ** Routing options of a request *)
Record SubjectMeta := { meta_local : bool; meta_defaultTransports : option bool (* [true]: local-only *) }.

Record RequestOptions := {
  ro_transports : option (list string);
  ro_timeout : option Z;
  ro_readinessTimeout : option Z;
  ro_signal : option AbortSignal;
  ro_correlationId : string;
  ro_messageId : string;
}.

Definition isExplicitLocalOnlyTransportSpec (transports : option (list string)) : bool :=
  match transports with Some [] => true | _ => false end.

Definition getDefaultTransports (reg : NamespaceRegistry) (subject : string) : bool :=
  default false (JsMap.get subject (defaultTransportsMap reg)).

Definition resolveEffectiveTransports (reg : NamespaceRegistry) (meta : SubjectMeta)
    (fullSubjectKey : string) (callerTransports : option (list string)) : option (list string) :=
  match callerTransports with
  | Some ts => Some ts
  | None =>
      match meta_defaultTransports meta with
      | Some localOnly => if localOnly then Some [] else None
      | None => if getDefaultTransports reg fullSubjectKey then Some [] else None
      end
  end.

Definition resolveLocalOnly (reg : NamespaceRegistry) (sd : SubjectDefinition) (meta : SubjectMeta)
    (transports : option (list string)) : bool :=
  if meta_local meta then true
  else isExplicitLocalOnlyTransportSpec
         (resolveEffectiveTransports reg meta (getFullSubjectForSubjectDefinition sd) transports).

Definition resolveAllowedTransports (transports : option (list string)) : option (list string) :=
  match transports with Some [] | None => None | Some names => Some names end.

(** [resolveReadinessTimeout] rejects an unusable budget. *)
Definition bad_readiness_timeout (ro : RequestOptions) : option (nat → thrown) :=
  match ro_readinessTimeout ro with
  | Some r => if bool_decide (r < 0)
              then Some (λ i, TErr i ErrorClass ("readinessTimeout must be a finite number >= 0 (got " +:+
                                pretty r +:+ ")") None [])
              else None
  | None => None
  end.

Definition request_options (ro : RequestOptions) (timeout : Z) (dl : option Z) (localOnly : bool) :
    DispatchOptions :=
  {| allowedTransports := resolveAllowedTransports (ro_transports ro); cursor := None;
     correlationId := ro_correlationId ro; messageId := ro_messageId ro; timeout := timeout;
     readinessTimeout := ro_readinessTimeout ro; deadline := dl; signal := ro_signal ro;
     localOnly := localOnly; excludeFirstHopOnlyRemote := false |}.

(** ** The readiness gate and [dispatch] *)
Inductive ReadinessGateOutcome := gate_skipped | gate_rebuilt | gate_expired.

Section gate.
Context {H : Type} (env : Environment H) (sd : SubjectDefinition).
Notation M := (ST (World H) thrown).

Definition resolveDispatchDeadline (options : DispatchOptions) (w : World H) : option Z :=
  match deadline options with
  | Some d => Some d
  | None => if bool_decide (0 < timeout options) then Some (now w + timeout options) else None
  end.

(** [None]: expired; [Some 0]: no cap. *)
Definition resolveReadinessBudget (options : DispatchOptions) (dl : option Z) (w : World H) : option Z :=
  let budget := default DEFAULT_READINESS_TIMEOUT_MS (readinessTimeout options) in
  match remaining dl w with
  | None => Some budget
  | Some r => if bool_decide (r ≤ 0) then None
              else Some (if bool_decide (budget = 0) then r else Z.min budget r)
  end.

(** [Promise.allSettled] resolves with the last of its promises. *)
Definition allSettled (pending : list (string * nat)) : Pending unit :=
  {| settles_after := foldr Nat.max 0%nat pending.*2; settled := Ok tt |}.

Definition awaitTransportReadiness (pending : list (string * nat)) (options : DispatchOptions)
    (budget : Z) : M unit := λ w,
  match awaitWithTimeoutAndSignal (allSettled pending) budget (signal options) w with
  | (Ok _, w') => (Ok tt, w')
  | (Throw error, w') =>
      if negb (instanceof error PTimeoutErrorClass) ||
         isRequestCancellation error (aborted (signal options) w')
      then (Throw error, w') else (Ok tt, w')
  end.

Definition runReadinessGate (pending : list (string * nat)) (options : DispatchOptions) (dl : option Z) :
    M ReadinessGateOutcome := λ w,
  match pending with
  | [] => (Ok gate_skipped, w)
  | _ => match resolveReadinessBudget options dl w with
         | None => (Ok gate_expired, w)
         | Some budget =>
             (let* _ := awaitTransportReadiness pending options budget in
              λ w', (Ok (if expired dl w' then gate_expired else gate_rebuilt), w')) w
         end
  end.

Definition with_deadline (dl : option Z) (o : DispatchOptions) : DispatchOptions :=
  {| allowedTransports := allowedTransports o; cursor := cursor o; correlationId := correlationId o;
     messageId := messageId o; timeout := timeout o; readinessTimeout := readinessTimeout o;
     deadline := dl; signal := signal o; localOnly := localOnly o;
     excludeFirstHopOnlyRemote := excludeFirstHopOnlyRemote o |}.

(** The merged list [dispatch] builds after the wait. *)
Definition merged_at (options : DispatchOptions) (remoteEligible : bool) (w : World H) :
    list (MergedEntry H) :=
  let key := getFullSubjectForSubjectDefinition sd in
  let remoteEntries :=
    if remoteEligible
    then resolveRemoteEntries
           (λ t, bool_decide (is_Some (getTransport env w t)) && isReady env w t)
           (getMatchingRemoteEntries (remoteAt env w) key (excludeFirstHopOnlyRemote options))
           (allowedTransports options)
    else [] in
  buildMergedList (getMatchingHandlerEntries (requestHandlersAt env w) key) remoteEntries.

(** [isLocal] is the subject definition's [$meta.local]. *)
Definition dispatch (isLocal : bool) (payload : value) (options : DispatchOptions) : M (option value) := λ w,
  let dl := resolveDispatchDeadline options w in
  let options := with_deadline dl options in
  if expired dl w then throw_new (TimeoutError (subject sd) (timeout options)) w
  else
    let remoteEligible := negb isLocal && negb (localOnly options) in
    let pending := if remoteEligible then getPendingReadyEntries env w (allowedTransports options) else [] in
    (let* gate := runReadinessGate pending options dl in
     match gate with
     | gate_expired => throw_new (TimeoutError (subject sd) (timeout options))
     | _ => λ w',
         let merged := merged_at options remoteEligible w' in
         match resolveStartIndex merged (cursor options) with
         | None => (Ok None, w')
         | Some startIndex =>
             stepDispatch env sd options merged (drop startIndex merged) startIndex payload None w'
         end
     end) w.

(** [request]: payload and response validation are the schemas' verdicts. *)
Definition request (namespaces : NamespaceRegistry) (meta : SubjectMeta)
    (validatePayload validateResponse : value → option thrown)
    (payload : value) (ro : RequestOptions) (w : World H) : outcome thrown value * Z * World H :=
  match bad_readiness_timeout ro with
  | Some mk => (Throw (mk (fresh w)), now w, w)
  | None =>
  match validatePayload payload with
  | Some e => (Throw e, now w, w)
  | None =>
      let timeout := default DEFAULT_REQUEST_TIMEOUT_MS (ro_timeout ro) in
      let dl := if bool_decide (0 < timeout) then Some (now w + timeout) else None in
      let localOnly := resolveLocalOnly namespaces sd meta (ro_transports ro) in
      let '(o, w') := dispatch (meta_local meta) payload (request_options ro timeout dl localOnly) w in
      let promise := {| settles_after := Z.to_nat (now w' - now w); settled := o |} in
      let '(r, w1) := awaitWithTimeoutAndSignal promise timeout (ro_signal ro)
                        {| now := now w; fresh := fresh w'; trace := trace w' |} in
      let w2 := {| now := Z.max (now w') (now w1); fresh := fresh w1; trace := trace w' |} in
      match r with
      | Ok (Some v) => (match validateResponse v with Some e => Throw e | None => Ok v end, now w1, w2)
      | Ok None =>
          (Throw (NoHandlerError (getFullSubjectForSubjectDefinition sd) (fresh w1)), now w1, w2)
      | Throw error =>
          (Throw (if instanceof error PTimeoutErrorClass &&
                     negb (isRequestCancellation error (aborted (ro_signal ro) w1))
                  then TimeoutError (subject sd) timeout (fresh w1) else error), now w1, w2)
      end
  end end.

Definition requestOptional (namespaces : NamespaceRegistry) (meta : SubjectMeta)
    (validatePayload validateResponse : value → option thrown)
    (payload : value) (ro : RequestOptions) (w : World H) :
    outcome thrown (option value) * Z * World H :=
  let '(r, t, w') := request namespaces meta validatePayload validateResponse payload ro w in
  (match r with
   | Ok v => Ok (Some v)
   | Throw e => if instanceof e NoHandlerErrorClass &&
                   negb (isRequestCancellation e (aborted (ro_signal ro) (at_time t w')))
                then Ok None else Throw e
   end, t, w').
End gate.

(** ** The merged list *)
Lemma entry_le_priority {H} (a b : MergedEntry H) : entry_le a b = true → entry_priority b ≤ entry_priority a.
Proof. unfold entry_le. case_bool_decide; rewrite ?bool_decide_eq_true; lia. Qed.

Lemma tied_entries {H} (a b : MergedEntry H) :
  entry_priority a = entry_priority b → is_local a = is_local b → tied entry_le a b = true.
Proof.
  intros Hp Hl. unfold tied, entry_le. rewrite Hp, Hl. rewrite bool_decide_false by lia.
  by destruct (is_local b).
Qed.

(** At one priority the ordered list has its local entries first. *)
Lemma ordered_locals_first {H} (l : list (MergedEntry H)) p :
  ordered entry_le l → (∀ e, e ∈ l → entry_priority e = p) →
  l = filter (λ e, is_local e = true) l ++ filter (λ e, is_local e = false) l.
Proof.
  intros Hord Hp. induction Hord as [|e l Hord IH He]; [done|].
  rewrite !filter_cons. destruct (is_local e) eqn:El; simpl.
  - f_equal. apply IH. intros e' Hin. apply Hp. by right.
  - assert (filter (λ e, is_local e = true) l = []) as Hno.
    { apply filter_none. intros e' Hin Hl'. eapply Forall_forall in He; [|exact Hin].
      unfold entry_le in He. rewrite (Hp e), (Hp e'), El, Hl' in He by (left || by right).
      by rewrite bool_decide_false in He by lia. }
    rewrite IH at 1 by (intros; apply Hp; by right). by rewrite Hno.
Qed.

Lemma merged_class {H} (locals : list (HandlerEntry H)) (remotes : list RemoteEntry) p b :
  filter (λ e, is_local e = b ∧ entry_priority e = p) (buildMergedList locals remotes) =
  filter (λ e, is_local e = b ∧ entry_priority e = p)
    (map (λ e, LocalEntry (handler e) (priority e)) locals ++
     map (λ e, RemoteRoute (re_transport e) (re_priority e)) remotes).
Proof.
  unfold buildMergedList.
  pose proof (js_sort_stable entry_le (λ e : MergedEntry H, bool_decide (is_local e = b ∧ entry_priority e = p))) as Hs.
  assert (∀ l : list (MergedEntry H), filter (λ e, bool_decide (is_local e = b ∧ entry_priority e = p) = true) l =
               filter (λ e, is_local e = b ∧ entry_priority e = p) l) as Heq.
  { intros l. apply list_filter_iff. intros e. by rewrite bool_decide_eq_true. }
  rewrite <- !Heq. apply Hs. intros x y [Hx1 Hx2]%bool_decide_eq_true [Hy1 Hy2]%bool_decide_eq_true.
  apply tied_entries; congruence.
Qed.

(** ** How a computation extends the world *)
Section extends.
Context {H : Type}.
Implicit Types (w : World H) (P : Z * Event H → Prop).
Notation M := (ST (World H) thrown).

Definition extends P w w' : Prop :=
  now w ≤ now w' ∧ ∃ evs, trace w' = trace w ++ evs ∧ Forall P evs.

Definition sound P {A} (m : M A) : Prop := ∀ w, extends P w (m w).2.

#[export] Instance extends_preorder P : PreOrder (extends P).
Proof.
  split.
  - intros w. split; [lia|]. exists []. by rewrite app_nil_r.
  - intros w1 w2 w3 (H1 & e1 & T1 & F1) (H2 & e2 & T2 & F2). split; [lia|].
    exists (e1 ++ e2). rewrite T2, T1, app_assoc. split; [done|]. by apply Forall_app.
Qed.

Lemma extends_same P w w' : now w ≤ now w' → trace w' = trace w → extends P w w'.
Proof. intros Hn Ht. split; [done|]. exists []. by rewrite Ht, app_nil_r. Qed.

Lemma sound_ret P {A} (a : A) : sound P (st_ret a).
Proof. intros w. simpl. done. Qed.
Lemma sound_throw P {A} e : sound P (@st_throw _ _ A e).
Proof. intros w. simpl. done. Qed.
Lemma sound_throw_new P {A} mk : sound P (@throw_new H A mk).
Proof. intros w. simpl. by apply extends_same. Qed.
Lemma sound_throw_abort P {A} e : sound P (@throw_abort H A e).
Proof. unfold throw_abort. destruct (isRecognizedError e); auto using sound_throw, sound_throw_new. Qed.

Lemma sound_bind P {A B} (m : M A) (k : A → M B) : sound P m → (∀ a, sound P (k a)) → sound P (st_bind m k).
Proof.
  intros Hm Hk w. unfold st_bind. specialize (Hm w). destruct (m w) as [[a|e] w1]; simpl in *; [|done].
  etrans; [done|apply Hk].
Qed.

Lemma extends_log P w e : P (now w, e) → extends P w (log e w).2.
Proof. intros HP. split; simpl; [lia|]. exists [(now w, e)]. repeat constructor; done. Qed.

Lemma aborted_none s w : aborted (Some s) w = None → now w < abort_at s.
Proof. simpl. case_bool_decide; [done|lia]. Qed.

(** A wait only moves the clock, and with a positive timeout not past it. *)
Lemma await_extends {A} (op : Pending A) timeout signal w w' o :
  awaitWithTimeoutAndSignal op timeout signal w = (o, w') →
  now w ≤ now w' ∧ trace w' = trace w ∧ (0 < timeout → now w' ≤ now w + timeout).
Proof.
  unfold awaitWithTimeoutAndSignal, throw_new, throw_abort.
  destruct signal as [s|]; [destruct (aborted (Some s) w) eqn:Ha; [|apply aborted_none in Ha]|];
    simpl; repeat case_bool_decide; simpl; try (destruct (isRecognizedError _)); simpl;
    intros [= <- <-]; simpl; split_and!; done || lia.
Qed.

Lemma sound_await P {A} (op : Pending A) timeout signal : sound P (awaitWithTimeoutAndSignal op timeout signal).
Proof.
  intros w. destruct (awaitWithTimeoutAndSignal op timeout signal w) as [o w'] eqn:E.
  apply await_extends in E as (? & ? & _). by apply extends_same.
Qed.
End extends.

#[export] Hint Resolve sound_ret sound_throw sound_throw_new sound_throw_abort sound_bind sound_await : dispatch.

Section chain.
Context {H : Type} (env : Environment H) (sd : SubjectDefinition) (options : DispatchOptions).
Notation M := (ST (World H) thrown).
Implicit Types (w : World H) (P : Z * Event H → Prop).

Lemma sound_run_handler P downstream p st :
  (∀ v, sound P (downstream v)) → sound P (run_handler downstream p st).
Proof.
  intros Hd. revert st. induction p as [|e|v k IH|ext k IH|v k IH|ms k IH|k IH|k IH]; intros st; simpl;
    auto with dispatch.
  - intros w. etrans; [|apply IH]. apply extends_same; simpl; [lia|done].
  - intros w. specialize (Hd (currentPayload st) w).
    destruct (downstream (currentPayload st) w) as [[o|e] w1]; simpl in *; etrans; [done|apply IH|done|apply IH].
Qed.

Lemma sound_settle P downstream st : (∀ v, sound P (downstream v)) → sound P (settle downstream st).
Proof. intros Hd. unfold settle. repeat case_match; auto with dispatch. Qed.

Lemma sound_classify P {A} e : sound P (@classify H sd options A e).
Proof.
  intros w. unfold classify. repeat case_match; simpl; try apply sound_throw_abort;
    try (by apply extends_same); done.
Qed.

Lemma sound_local P h payload downstream :
  (∀ v, sound P (downstream v)) → sound P (executeLocalEntry env sd options h payload downstream).
Proof.
  intros Hd w. unfold executeLocalEntry.
  pose proof (sound_bind P (run_handler downstream (program env h)
    {| currentPayload := payload; resultValue := None; nextPromise := None |}) (settle downstream)
    (sound_run_handler _ _ _ _ Hd) (λ st, sound_settle _ _ st Hd) w) as Hb.
  destruct (st_bind _ _ w) as [[o|e] w1]; simpl in *; [done|]. etrans; [done|]. apply sound_classify.
Qed.

(** An admitted event: entries start before the deadline, and nothing is
    sent to a transport once the signal has fired. *)
Definition admitted (te : Z * Event H) : Prop :=
  match te.2 with
  | Tried entry _ _ =>
      (∀ d, deadline options = Some d → te.1 < d) ∧
      (is_local entry = false → ∀ s, signal options = Some s → te.1 < abort_at s)
  | CancelRequest _ _ _ => True
  end.

Lemma not_expired w d : expired (deadline options) w = false → deadline options = Some d → now w < d.
Proof.
  unfold expired, remaining. intros He Hd. rewrite Hd in He. simpl in He.
  apply bool_decide_eq_false in He. lia.
Qed.

(** What may be logged: cancellations, and the entries of [rest] that start
    before the deadline and, when remote, before the signal has fired. *)
Definition logs (P : Z * Event H → Prop) (rest : list (MergedEntry H)) : Prop :=
  (∀ x t c r, P (x, CancelRequest t c r)) ∧
  ∀ w e payload msg, e ∈ rest → expired (deadline options) w = false →
    (is_local e = false → aborted (signal options) w = None) → P (now w, Tried e payload msg).

Lemma sound_remote P rest merged i t prio payload skip fte w :
  logs P rest → RemoteRoute t prio ∈ rest →
  expired (deadline options) w = false → (∀ e, sound P (skip e)) →
  extends P w (executeRemoteEntry env sd options merged i t prio payload skip fte w).2.
Proof.
  intros [HC HP] Hin Hexp Hskip. unfold executeRemoteEntry.
  match goal with |- context [if ?b then skip fte w else _] => destruct b; [apply Hskip|] end.
  destruct (getTransport env w t) as [send|]; [|apply Hskip].
  match goal with |- context [match ?m w with _ => _ end] => assert (extends P w (m w).2) as Ha;
    [|destruct (m w) as [[r|e] w1]; simpl in *; [done|]] end.
  { destruct (aborted (signal options) w) eqn:Hab; [apply sound_throw_abort|].
    unfold st_bind. simpl. etrans; [eapply (extends_log P w)|apply sound_await]. by apply HP. }
  etrans; [exact Ha|]. destruct (isRequestCancellation e _).
  - apply sound_bind; [|intros; apply sound_throw_abort]. destruct (hasCancelRequest env t); [|apply sound_ret].
    intros w2. by apply extends_log.
  - destruct (bool_decide _); [done|]. destruct (isNoHandlerErrorForSubject _ _); apply Hskip.
Qed.

Lemma logs_tail P entry rest : logs P (entry :: rest) → logs P rest.
Proof. intros [HC HP]. split; [done|]. intros w e payload msg Hin. apply HP. by right. Qed.

Lemma sound_step P merged rest i payload fte :
  logs P rest → sound P (stepDispatch env sd options merged rest i payload fte).
Proof.
  revert i payload fte. induction rest as [|entry rest IH]; intros i payload fte HP; simpl.
  { destruct fte; auto with dispatch. }
  assert (Hrest : ∀ i payload fte, sound P (stepDispatch env sd options merged rest i payload fte))
    by (intros; eapply IH, logs_tail, HP).
  intros w. destruct (expired (deadline options) w) eqn:Hexp; [apply sound_throw_new|].
  destruct entry as [h prio|t prio].
  - unfold st_bind. simpl. etrans; [eapply (extends_log P w)|by apply sound_local].
    apply HP; [left|done|done].
  - eapply sound_remote; [exact HP|left|done|auto].
Qed.

Lemma logs_admitted rest : logs admitted rest.
Proof.
  split; [done|]. intros w e payload msg _ Hexp Hab. split; [by intros; eapply not_expired|].
  intros Hl s Hs. specialize (Hab Hl). rewrite Hs in Hab. by apply aborted_none.
Qed.
End chain.

Section gate_lemmas.
Context {H : Type} (env : Environment H) (sd : SubjectDefinition).
Implicit Types (w : World H).

Lemma sound_gate P pending options dl : sound P (@runReadinessGate H pending options dl).
Proof.
  intros w. unfold runReadinessGate. destruct pending; [done|].
  destruct (resolveReadinessBudget options dl w) as [budget|]; [|done].
  apply sound_bind; [|by intros a w'].
  intros w1. unfold awaitTransportReadiness.
  pose proof (sound_await P (allSettled (p :: pending)) budget (signal options) w1) as Ha.
  destruct (awaitWithTimeoutAndSignal _ _ _ w1) as [[]  w2]; simpl in *; [done|]. by case_match.
Qed.

Lemma sound_dispatch P isLocal payload options w :
  let opts := with_deadline (resolveDispatchDeadline options w) options in
  (∀ w', logs opts P (merged_at env sd opts (negb isLocal && negb (localOnly opts)) w')) →
  extends P w (dispatch env sd isLocal payload options w).2.
Proof.
  intros opts HP. unfold dispatch. case_match; [apply sound_throw_new|].
  apply sound_bind; [apply sound_gate|]. intros gate.
  destruct gate; try apply sound_throw_new; intros w';
    (destruct (resolveStartIndex _ _) as [n|]; [|done]); apply sound_step;
    (destruct (HP w') as [HC HE]; split; [done|]; intros w1 e pl msg Hin; apply HE;
     eapply elem_of_submseteq; [exact Hin|apply sublist_submseteq, sublist_drop]).
Qed.
End gate_lemmas.

(** ** Which entries a run tries *)
Definition tried {H} (evs : list (Z * Event H)) : list (MergedEntry H) :=
  omap (λ te : Z * Event H, match te.2 with Tried e _ _ => Some e | CancelRequest _ _ _ => None end) evs.

Lemma tried_app {H} (a b : list (Z * Event H)) : tried (a ++ b) = tried a ++ tried b.
Proof. apply omap_app. Qed.

Definition ran {H} (R : list (MergedEntry H) → Prop) (w w' : World H) : Prop :=
  ∃ evs, trace w' = trace w ++ evs ∧ R (tried evs).

(** A handler that awaits [next] at most [n] times, whatever it reads. *)
Inductive calls_next_at_most : nat → Prog → Prop :=
  | cn_return n : calls_next_at_most n HReturn
  | cn_throw n e : calls_next_at_most n (HThrow e)
  | cn_set n v k : calls_next_at_most n k → calls_next_at_most n (HSetResult v k)
  | cn_extend n ext k : calls_next_at_most n k → calls_next_at_most n (HExtendResult ext k)
  | cn_replace n v k : calls_next_at_most n k → calls_next_at_most n (HReplacePayload v k)
  | cn_work n ms k : calls_next_at_most n k → calls_next_at_most n (HWork ms k)
  | cn_read n k : (∀ v r, calls_next_at_most n (k v r)) → calls_next_at_most n (HRead k)
  | cn_next n k : (∀ e, calls_next_at_most n (k e)) → calls_next_at_most (S n) (HNext k).

Section order.
Context {H : Type} (env : Environment H) (sd : SubjectDefinition) (options : DispatchOptions).
Notation M := (ST (World H) thrown).
Implicit Types (w : World H) (rest : list (MergedEntry H)).

Lemma ran_trans (R : list (MergedEntry H) → Prop) (R1 R2 : list (MergedEntry H) → Prop) w w1 w2 :
  ran R1 w w1 → ran R2 w1 w2 → (∀ a b, R1 a → R2 b → R (a ++ b)) → ran R w w2.
Proof.
  intros (e1 & T1 & H1) (e2 & T2 & H2) HR. exists (e1 ++ e2). rewrite T2, T1, app_assoc. split; [done|].
  rewrite tried_app. auto.
Qed.

Lemma ran_nil w w' : trace w' = trace w → ran (λ l, l = []) w w'.
Proof. intros Ht. exists []. by rewrite Ht, app_nil_r. Qed.

Lemma ran_weaken (R R' : list (MergedEntry H) → Prop) w w' : (∀ l, R l → R' l) → ran R w w' → ran R' w w'.
Proof. intros HR (evs & Ht & Hr). exists evs. auto. Qed.

Lemma ran_quiet_l (R : list (MergedEntry H) → Prop) w w1 w2 : ran (λ l, l = []) w w1 → ran R w1 w2 → ran R w w2.
Proof. intros H1 H2. eapply ran_trans; [exact H1|exact H2|]. by intros a b ->. Qed.

Lemma ran_quiet_r (R : list (MergedEntry H) → Prop) w w1 w2 : ran R w w1 → ran (λ l, l = []) w1 w2 → ran R w w2.
Proof. intros H1 H2. eapply ran_trans; [exact H1|exact H2|]. intros a b Ha ->. by rewrite app_nil_r. Qed.

Lemma ran_throw_abort {A} e w : ran (λ l, l = []) w (@throw_abort H A e w).2.
Proof. unfold throw_abort. destruct (isRecognizedError e); by apply ran_nil. Qed.

Lemma ran_classify {A} e w : ran (λ l, l = []) w (@classify H sd options A e w).2.
Proof. unfold classify. repeat case_match; simpl; try apply ran_throw_abort; by apply ran_nil. Qed.

(** Without further [next] calls a handler tries nothing. *)
Lemma run_handler_quiet downstream p st w :
  calls_next_at_most 0 p →
  ran (λ l, l = []) w (run_handler downstream p st w).2 ∧
  ∀ st', (run_handler downstream p st w).1 = Ok st' → nextPromise st' = nextPromise st.
Proof.
  remember 0%nat as n eqn:Hn. intros Hc. revert st w.
  induction Hc as [| |n v k Hc IH|n ext k Hc IH|n v k Hc IH|n ms k Hc IH|n k Hc IH|];
    intros st w; simpl; subst; try done;
    try (match goal with |- context [run_handler _ _ ?s w] => exact (IH eq_refl s w) end).
  - split; [by apply ran_nil|]. by intros st' [= ->].
  - split; [by apply ran_nil|done].
  - destruct (IH eq_refl st (at_time (now w + Z.of_nat ms) w)) as [Hr Hs]. split; [|done].
    eapply ran_quiet_l; [|exact Hr]. by apply ran_nil.
  - by apply (IH _ _ eq_refl).
Qed.

Lemma run_handler_once (R : list (MergedEntry H) → Prop) downstream p st w :
  (∀ v w, ran R w (downstream v w).2) → calls_next_at_most 1 p → nextPromise st = None →
  let r := run_handler downstream p st w in
  (ran (λ l, l = []) w r.2 ∧ ∀ st', r.1 = Ok st' → nextPromise st' = None) ∨
  (ran R w r.2 ∧ ∀ st', r.1 = Ok st' → nextPromise st' ≠ None).
Proof.
  intros Hd. remember 1%nat as n eqn:Hn. intros Hc. revert st w.
  induction Hc as [| |n v k Hc IH|n ext k Hc IH|n v k Hc IH|n ms k Hc IH|n k Hk IH|n k Hk _];
    intros st w Hst; simpl; subst;
    try (match goal with |- context [run_handler _ _ ?s w] => exact (IH eq_refl s w Hst) end).
  - left. split; [by apply ran_nil|]. by intros st' [= ->].
  - left. split; [by apply ran_nil|done].
  - destruct (IH eq_refl st (at_time (now w + Z.of_nat ms) w) Hst) as [[Hr Hs]|[Hr Hs]]; [left|right];
      (split; [|done]); eapply ran_quiet_l; try exact Hr; by apply ran_nil.
  - by apply (IH _ _ eq_refl).
  - simplify_eq. right. specialize (Hd (currentPayload st) w).
    destruct (downstream (currentPayload st) w) as [[o|e] w1]; simpl in *.
    + destruct (run_handler_quiet downstream (k None) (track (Ok tt) (adopt o st)) w1 (Hk _)) as [Hr Hs].
      split; [by eapply ran_quiet_r|]. intros st' Hst'. rewrite (Hs _ Hst'). simpl. by case_match.
    + destruct (run_handler_quiet downstream (k (Some e)) (track (Throw e) st) w1 (Hk _)) as [Hr Hs].
      split; [by eapply ran_quiet_r|]. intros st' Hst'. rewrite (Hs _ Hst'). simpl. by case_match.
Qed.

Lemma ran_local (R : list (MergedEntry H) → Prop) h payload downstream w :
  (∀ v w, ran R w (downstream v w).2) → R [] → calls_next_at_most 1 (program env h) →
  ran R w (executeLocalEntry env sd options h payload downstream w).2.
Proof.
  intros Hd H0 Hc. unfold executeLocalEntry, st_bind.
  pose proof (run_handler_once R downstream _ {| currentPayload := payload; resultValue := None; nextPromise := None |}
    w Hd Hc eq_refl) as Hrun. simpl in Hrun.
  assert (Hquiet : ∀ w w', ran (λ l, l = []) w w' → ran R w w') by
    (intros ??; apply ran_weaken; by intros l ->).
  destruct (run_handler _ _ _ w) as [[st|e] w1]; simpl in *.
  - assert (ran R w (settle downstream st w1).2) as Hset.
    { destruct Hrun as [[Hr Hn]|[Hr Hn]].
      - unfold settle. rewrite (Hn st eq_refl). destruct (resultValue st); simpl; [by apply Hquiet|].
        eapply ran_quiet_l; [done|apply Hd].
      - unfold settle. destruct (nextPromise st) as [[|]|] eqn:E; [done..|by destruct (Hn st eq_refl)]. }
    destruct (settle downstream st w1) as [[o|e] w2]; simpl in *; [done|].
    eapply ran_quiet_r; [done|apply ran_classify].
  - assert (ran R w w1) by (destruct Hrun as [[Hr _]|[Hr _]]; auto).
    eapply ran_quiet_r; [done|apply ran_classify].
Qed.

Lemma ran_cons entry rest payload msg w w1 w2 (t : Z) :
  trace w1 = trace w ++ [(t, Tried entry payload msg)] →
  ran (λ l, l `sublist_of` rest) w1 w2 → ran (λ l, l `sublist_of` entry :: rest) w w2.
Proof.
  intros Ht (evs & T2 & Hs). exists ((t, Tried entry payload msg) :: evs). split.
  - by rewrite T2, Ht, <- app_assoc.
  - simpl. by constructor.
Qed.

Lemma ran_skip entry rest w w' :
  ran (λ l, l `sublist_of` rest) w w' → ran (λ l, l `sublist_of` entry :: rest) w w'.
Proof. apply ran_weaken. intros l Hl. by constructor. Qed.

Lemma ran_remote merged rest i t prio payload skip fte w :
  (∀ e w, ran (λ l, l `sublist_of` rest) w (skip e w).2) →
  ran (λ l, l `sublist_of` RemoteRoute t prio :: rest) w
    (executeRemoteEntry env sd options merged i t prio payload skip fte w).2.
Proof.
  intros Hskip. unfold executeRemoteEntry.
  match goal with |- context [if ?b then skip fte w else _] => destruct b; [apply ran_skip, Hskip|] end.
  destruct (getTransport env w t) as [send|]; [|apply ran_skip, Hskip].
  set (msg := remote_message _ _ _ _ _ _ _).
  assert (Hquiet : ∀ w1 w2, (w1 = w ∨ trace w1 = trace w ++ [(now w, Tried (RemoteRoute t prio) payload (Some msg))]) →
    ran (λ l, l `sublist_of` rest) w1 w2 → ran (λ l, l `sublist_of` RemoteRoute t prio :: rest) w w2).
  { intros w1 w2 [->|Ht] Hr; [by apply ran_skip|by eapply ran_cons]. }
  match goal with |- context [match ?m w with _ => _ end] =>
    assert (∃ w1, (w1 = w ∨ trace w1 = trace w ++ [(now w, Tried (RemoteRoute t prio) payload (Some msg))]) ∧
      ran (λ l, l = []) w1 (m w).2) as (w1 & Hw1 & Hq); [|destruct (m w) as [[r|e] w2]; simpl in Hq |- *] end.
  { destruct (aborted (signal options) w); [exists w; split; [by left|apply ran_throw_abort]|].
    exists (log (Tried (RemoteRoute t prio) payload (Some msg)) w).2. split; [by right|]. unfold st_bind. simpl.
    destruct (awaitWithTimeoutAndSignal _ _ _ _) as [o w2] eqn:E.
    apply await_extends in E as (_ & Ht & _). by apply ran_nil. }
  - eapply Hquiet; [exact Hw1|]. eapply ran_weaken; [|exact Hq]. intros l ->. apply sublist_nil_l.
  - eapply Hquiet; [exact Hw1|]. eapply ran_quiet_l; [exact Hq|]. destruct (isRequestCancellation _ _).
    + apply (ran_weaken (λ l, l = [])); [intros l ->; apply sublist_nil_l|]. unfold st_bind.
      destruct (hasCancelRequest env t); simpl; [|apply ran_throw_abort].
      eapply ran_quiet_l; [|apply ran_throw_abort].
      exists [(now w2, CancelRequest t (correlationId options) e)]. done.
    + destruct (bool_decide _); [|destruct (isNoHandlerErrorForSubject _ _); apply Hskip].
      exists []. rewrite app_nil_r. split; [done|apply sublist_nil_l].
Qed.

Lemma ran_step merged rest i payload fte w :
  (∀ h prio, LocalEntry h prio ∈ rest → calls_next_at_most 1 (program env h)) →
  ran (λ l, l `sublist_of` rest) w (stepDispatch env sd options merged rest i payload fte w).2.
Proof.
  revert i payload fte w. induction rest as [|entry rest IH]; intros i payload fte w Hlin; simpl.
  { exists []. rewrite app_nil_r. by destruct fte. }
  destruct (expired (deadline options) w).
  { exists []. rewrite app_nil_r. split; [done|apply sublist_nil_l]. }
  assert (Hrest : ∀ i payload fte w, ran (λ l, l `sublist_of` rest) w
    (stepDispatch env sd options merged rest i payload fte w).2).
  { intros. apply IH. intros h prio Hin. apply (Hlin h prio). by right. }
  destruct entry as [h prio|t prio].
  - unfold st_bind. simpl. eapply (ran_cons _ _ _ _ w (log (Tried (LocalEntry h prio) payload None) w).2); [reflexivity|]. simpl.
    apply ran_local; [auto|apply sublist_nil_l|]. apply (Hlin h prio). left.
  - by apply ran_remote.
Qed.
End order.

(** ** A chain that reports no result has consulted everything *)
Section exhausted.
Context {H : Type} (env : Environment H) (sd : SubjectDefinition) (options : DispatchOptions).
Notation M := (ST (World H) thrown).
Implicit Types (w : World H) (rest : list (MergedEntry H)).

(** Tried, or a route to a transport that was not connected. *)
Definition consulted (evs : list (Z * Event H)) (e : MergedEntry H) : Prop :=
  e ∈ tried evs ∨ match e with
                  | LocalEntry _ _ => False
                  | RemoteRoute t _ => ∃ w, getTransport env w t = None
                  end.

Definition covers rest w w' : Prop :=
  ∃ evs, trace w' = trace w ++ evs ∧ ∀ e, e ∈ rest → consulted evs e.

Definition grows (m : M (option value)) : Prop := sound (λ _, True) m.

Lemma extends_true w w' : extends (λ _, True) w w' → ∃ evs, trace w' = trace w ++ evs.
Proof. intros (_ & evs & Ht & _). by exists evs. Qed.

Lemma grows_step merged rest i payload fte : grows (stepDispatch env sd options merged rest i payload fte).
Proof.
  intros w. by apply sound_step.
Qed.

Lemma covers_grow rest w0 w w' w1 :
  extends (λ _, True) w0 w → covers rest w w' → extends (λ _, True) w' w1 → covers rest w0 w1.
Proof.
  intros (ea & Ta)%extends_true (evs & Ht & Hc) (eb & Tb)%extends_true. exists (ea ++ evs ++ eb). split.
  - by rewrite Tb, Ht, Ta, !app_assoc.
  - intros e He. destruct (Hc e He) as [Hin|Hr]; [left|by right]. rewrite !tried_app. set_solver.
Qed.

(** A result, once set, stays. *)
Lemma run_handler_result downstream p st w st' w' :
  run_handler (H:=H) downstream p st w = (Ok st', w') → resultValue st' = None → resultValue st = None.
Proof.
  revert st w. induction p as [|e|v k IH|ext k IH|v k IH|ms k IH|k IH|k IH]; intros st w; simpl.
  - by intros [= -> ->].
  - done.
  - intros Hr Hn. by specialize (IH _ _ Hr Hn).
  - intros Hr Hn. by specialize (IH _ _ Hr Hn).
  - intros Hr Hn. by specialize (IH _ _ Hr Hn).
  - apply IH.
  - apply IH.
  - destruct (downstream (currentPayload st) w) as [[o|e] w1]; intros Hr Hn; specialize (IH _ _ _ Hr Hn).
    + revert IH. unfold track, adopt. simpl. destruct o, (resultValue st) eqn:E; simpl; rewrite ?E; done.
    + done.
Qed.

Lemma adopt_promise o st : nextPromise (adopt o st) = nextPromise st.
Proof. unfold adopt. by repeat case_match. Qed.

Lemma run_handler_promise downstream p st w st' w' pr :
  run_handler (H:=H) downstream p st w = (Ok st', w') → nextPromise st = Some pr → nextPromise st' = Some pr.
Proof.
  revert st w. induction p as [|e|v k IH|ext k IH|v k IH|ms k IH|k IH|k IH]; intros st w; simpl.
  - by intros [= -> ->].
  - done.
  - intros Hr Hn. by apply (IH _ _ Hr).
  - intros Hr Hn. by apply (IH _ _ Hr).
  - intros Hr Hn. by apply (IH _ _ Hr).
  - apply IH.
  - apply IH.
  - destruct (downstream (currentPayload st) w) as [[o|e] w1]; intros Hr Hn; apply (IH _ _ _ Hr);
      simpl; by rewrite ?adopt_promise, Hn.
Qed.

(** [K]: what an unhandled downstream outcome establishes. *)
Section unhandled.
Variable K : World H → World H → Prop.
Hypothesis K_grow : ∀ w0 w w' w1,
  extends (λ _, True) w0 w → K w w' → extends (λ _, True) w' w1 → K w0 w1.
Variable downstream : value → M (option value).
Hypothesis Hg : ∀ v, grows (downstream v).
Hypothesis HK : ∀ v w w', downstream v w = (Ok None, w') → K w w'.

Lemma run_handler_unhandled p st w st' w' :
  run_handler downstream p st w = (Ok st', w') → resultValue st' = None → nextPromise st = None →
  match nextPromise st' with Some (Ok _) => K w w' | _ => True end.
Proof.
  revert st w. induction p as [|e|v k IH|ext k IH|v k IH|ms k IH|k IH|k IH]; intros st w; simpl.
  - intros [= <- <-] _ ->. done.
  - done.
  - intros Hr Hn Hp. by apply (IH _ _ Hr Hn).
  - intros Hr Hn Hp. by apply (IH _ _ Hr Hn).
  - intros Hr Hn Hp. by apply (IH _ _ Hr Hn).
  - intros Hr Hn Hp. specialize (IH _ _ Hr Hn Hp). destruct (nextPromise st') as [[]|]; [|done..].
    eapply K_grow; [|exact IH|done]. apply extends_same; simpl; [lia|done].
  - intros Hr Hn Hp. by apply (IH _ _ _ _ Hr).
  - pose proof (Hg (currentPayload st) w) as Hgw.
    destruct (downstream (currentPayload st) w) as [[o|e] w1] eqn:Hd; intros Hr Hn Hp; simpl in Hgw.
    + rewrite (run_handler_promise _ _ _ _ _ _ (Ok tt) Hr) by (simpl; by rewrite adopt_promise, Hp).
      pose proof (run_handler_result _ _ _ _ _ _ Hr Hn) as Hres.
      assert (o = None) as ->.
      { revert Hres. simpl. unfold adopt. destruct o, (resultValue st) eqn:E; simpl; rewrite ?E; done. }
      apply (K_grow w w w1); [done|by eapply HK|].
      pose proof (sound_run_handler (λ _, True) downstream (k None) (track (Ok tt) (adopt None st)) Hg w1) as Hs.
      by rewrite Hr in Hs.
    + by rewrite (run_handler_promise _ _ _ _ _ _ (Throw e) Hr) by (simpl; by rewrite Hp).
Qed.

Lemma local_unhandled h payload w w' :
  executeLocalEntry env sd options h payload downstream w = (Ok None, w') → K w w'.
Proof.
  unfold executeLocalEntry, st_bind.
  destruct (run_handler downstream (program env h) _ w) as [[st|e] w1] eqn:Hrun.
  2:{ unfold classify, throw_abort. repeat case_match; discriminate. }
  destruct (settle downstream st w1) as [[o|e] w2] eqn:Hset.
  2:{ unfold classify, throw_abort. repeat case_match; discriminate. }
  intros [= -> ->]. unfold settle in Hset.
  pose proof (run_handler_unhandled _ _ _ _ _ Hrun) as Hu.
  destruct (nextPromise st) as [[[]|e]|] eqn:Hp; simplify_eq/=.
  - injection Hset as Hres ->. by apply Hu.
  - destruct (resultValue st) eqn:Hres; [discriminate|].
    eapply K_grow; [|by eapply HK|done].
    pose proof (sound_run_handler (λ _, True) downstream (program env h)
      {| currentPayload := payload; resultValue := None; nextPromise := None |} Hg w) as Hs.
    by rewrite Hrun in Hs.
Qed.
End unhandled.

Lemma covers_cons entry rest payload msg w w1 w2 t :
  trace w1 = trace w ++ [(t, Tried entry payload msg)] → covers rest w1 w2 → covers (entry :: rest) w w2.
Proof.
  intros Ht (evs & T2 & Hc). exists ((t, Tried entry payload msg) :: evs). split.
  { by rewrite T2, Ht, <- app_assoc. }
  intros e [->|He]%elem_of_cons; [left; left|]. destruct (Hc e He); [left; by right|by right].
Qed.

Lemma covers_skip t prio rest w w' :
  (∃ w, getTransport env w t = None) → covers rest w w' → covers (RemoteRoute t prio :: rest) w w'.
Proof.
  intros Ht (evs & T2 & Hc). exists evs. split; [done|].
  intros e [->|He]%elem_of_cons; [by right|auto].
Qed.

Lemma cancelled_not_ok (m : M unit) e w o w' : (let* _ := m in @throw_abort H (option value) e) w = (Ok o, w') → False.
Proof.
  unfold st_bind, throw_abort. destruct (m w) as [[]]; [|done]. by destruct (isRecognizedError e).
Qed.

Lemma remote_unhandled merged rest i t prio payload skip fte w w' :
  (∀ d, deadline options = Some d → now w < d) →
  (∀ e, grows (skip e)) →
  (∀ e w w', skip e w = (Ok None, w') → e = None ∧ covers rest w w') →
  executeRemoteEntry env sd options merged i t prio payload skip fte w = (Ok None, w') →
  fte = None ∧ covers (RemoteRoute t prio :: rest) w w'.
Proof.
  intros Hdl Hg Hskip. unfold executeRemoteEntry.
  rewrite bool_decide_false.
  2:{ unfold remaining. destruct (deadline options) as [d|]; simpl; [|naive_solver].
      specialize (Hdl d eq_refl). lia. }
  destruct (getTransport env w t) as [send|] eqn:Ht.
  2:{ intros [-> Hc]%Hskip. split; [done|]. apply covers_skip; [by eexists|done]. }
  destruct (aborted (signal options) w) eqn:Hab.
  { assert (∃ e w1, @throw_abort H value t0 w = (Throw e, w1) ∧ now w1 = now w) as (e & w1 & -> & Hn).
    { unfold throw_abort. destruct (isRecognizedError t0); simpl; eauto. }
    destruct (isRequestCancellation _ _); [by intros ?%cancelled_not_ok|].
    rewrite bool_decide_true; [done|]. unfold aborted in *. rewrite Hn. by rewrite Hab. }
  unfold st_bind at 1. simpl.
  match goal with |- context [awaitWithTimeoutAndSignal ?op ?tm ?sg ?w0] =>
    destruct (awaitWithTimeoutAndSignal op tm sg w0) as [[r|e] w1] eqn:Haw end; [done|].
  apply await_extends in Haw as (_ & Htr & _). simpl in Htr.
  destruct (isRequestCancellation _ _); [by intros ?%cancelled_not_ok|].
  destruct (bool_decide _); [done|]. destruct (isNoHandlerErrorForSubject _ _); intros Hs.
  - apply Hskip in Hs as [-> Hc]. split; [done|]. by eapply covers_cons.
  - apply Hskip in Hs as [Hs _]. by destruct fte.
Qed.

(** Exhaustion without a result also means that no transport failed. *)
Lemma exhausted_step merged rest i payload fte w w' :
  stepDispatch env sd options merged rest i payload fte w = (Ok None, w') → fte = None ∧ covers rest w w'.
Proof.
  revert i payload fte w w'. induction rest as [|entry rest IH]; intros i payload fte w w'; simpl.
  { destruct fte; [done|]. intros [= ->]. split; [done|]. exists []. rewrite app_nil_r. set_solver. }
  destruct (expired (deadline options) w) eqn:Hexp; [discriminate|]. destruct entry as [h prio|t prio].
  - unfold st_bind. simpl. intros Hl.
    apply (local_unhandled (λ w w', fte = None ∧ covers rest w w')) in Hl as [-> Hc].
    + split; [done|]. eapply covers_cons; [|exact Hc]. reflexivity.
    + intros w0 w1 w2 w3 H1 [-> Hc] H2. split; [done|]. by eapply covers_grow.
    + intros v. apply grows_step.
    + intros v w1 w2. apply IH.
  - apply remote_unhandled; [by intros; eapply not_expired|intros; apply grows_step|].
    intros e w1 w2. apply IH.
Qed.
End exhausted.

Lemma find_below {H} (merged : list (MergedEntry H)) c :
  ordered entry_le merged →
  match fst <$> list_find (λ e, entry_priority e < c) merged with
  | Some i => drop i merged
  | None => []
  end = filter (λ e, entry_priority e < c) merged.
Proof.
  induction 1 as [|e merged Hord IH He]; [done|]. simpl. rewrite filter_cons.
  destruct (decide (entry_priority e < c)) as [Hlt|Hge]; simpl.
  - f_equal. symmetry. apply filter_all. intros e' Hin. eapply Forall_forall in He; [|done].
    apply entry_le_priority in He. lia.
  - rewrite <- IH. by destruct (list_find _ merged) as [[]|].
Qed.

Definition below {H} (c : option Z) (e : MergedEntry H) : Prop :=
  match c with Some c => entry_priority e < c | None => True end.
#[export] Instance below_dec {H} c (e : MergedEntry H) : Decision (below c e).
Proof. unfold below. destruct c; apply _. Defined.

Lemma resolveStartIndex_rest {H} (merged : list (MergedEntry H)) c :
  ordered entry_le merged →
  match resolveStartIndex merged c with Some i => drop i merged | None => [] end =
    filter (below c) merged.
Proof.
  intros Hord. destruct c as [c|]; simpl.
  - rewrite find_below by done. by apply list_filter_iff.
  - by rewrite filter_all.
Qed.

Lemma merged_at_ordered {H} (env : Environment H) sd options eligible w :
  ordered entry_le (merged_at env sd options eligible w).
Proof. apply js_sort_ordered, _. Qed.

Lemma classify_throws {H A} sd options e (w : World H) : ∃ e' w', @classify H sd options A e w = (Throw e', w').
Proof. unfold classify, throw_abort, throw_new. repeat case_match; eauto. Qed.

(** [dispatch] is a wait followed by one run of the chain. *)
Lemma dispatch_run {H} (env : Environment H) sd isLocal payload options w :
  let r := dispatch env sd isLocal payload options w in
  let opts := with_deadline (resolveDispatchDeadline options w) options in
  (∃ e, r.1 = Throw e ∧ ran (λ l, l = []) w r.2 ∧ extends (λ _, True) w r.2) ∨
  ∃ w1, trace w1 = trace w ∧ now w ≤ now w1 ∧
    let merged := merged_at env sd opts (negb isLocal && negb (localOnly opts)) w1 in
    match resolveStartIndex merged (cursor opts) with
    | Some i => r = stepDispatch env sd opts merged (drop i merged) i payload None w1
    | None => r = (Ok None, w1)
    end.
Proof.
  intros r opts. unfold r, dispatch. fold opts.
  assert (Hquiet : ∀ A (mk : nat → thrown) w1, trace w1 = trace w → now w ≤ now w1 →
    ran (λ l, l = []) w (@throw_new H A mk w1).2 ∧ extends (λ _, True) w (@throw_new H A mk w1).2).
  { intros A mk w1 Ht Hn. split; [by apply ran_nil|by apply extends_same]. }
  destruct (expired (resolveDispatchDeadline options w) w); [left; eexists; split; [done|by apply Hquiet]|].
  set (pending := if negb isLocal && _ then _ else _).
  unfold st_bind. destruct (runReadinessGate pending opts _ w) as [o w1] eqn:Hg.
  assert (trace w1 = trace w ∧ now w ≤ now w1) as [Ht Hn].
  { clear -Hg. unfold runReadinessGate, awaitTransportReadiness, st_bind in Hg. destruct pending; [by simplify_eq|].
    destruct (resolveReadinessBudget _ _ _); [|by simplify_eq].
    destruct (awaitWithTimeoutAndSignal _ _ _ _) as [[] w2] eqn:Ha; apply await_extends in Ha as (? & ? & _);
      [by simplify_eq|]. destruct (_ || _); by simplify_eq. }
  destruct o as [gate|e].
  - destruct gate; [right; exists w1|right; exists w1|left; eexists; split; [done|by apply Hquiet]];
      split_and!; try done; simpl; by destruct (resolveStartIndex _ _).
  - left. exists e. split; [done|]. split; [by apply ran_nil|by apply extends_same].
Qed.

(** *** Properties *)

(** The merged list is in descending priority, and at each priority it
    holds exactly the local entries in registration order followed by exactly
    the remote routes in announcement order. *)
Theorem merged_list_correct {H} (locals : list (HandlerEntry H)) (remotes : list RemoteEntry) (p : Z) :
  let merged := buildMergedList locals remotes in
  ordered entry_le merged ∧
  filter (λ e, entry_priority e = p) merged =
    map (λ e, LocalEntry (handler e) (priority e)) (filter (λ e, priority e = p) locals) ++
    map (λ e, RemoteRoute (re_transport e) (re_priority e)) (filter (λ e, re_priority e = p) remotes).
Proof.
  intros merged. assert (ordered entry_le merged) as Hord by (apply js_sort_ordered, _). split; [done|].
  rewrite (ordered_locals_first (filter (λ e, entry_priority e = p) merged) p).
  - rewrite !filter_filter_and. unfold merged. rewrite !merged_class, !filter_app. f_equal.
    + rewrite (filter_map_none (λ e, RemoteRoute _ _)) by (intros e [Hl _]; done).
      rewrite app_nil_r, filter_map_comm. f_equal. apply list_filter_iff. naive_solver.
    + rewrite (filter_map_none (λ e, LocalEntry _ _)) by (intros e [Hl _]; done).
      rewrite filter_map_comm, app_nil_l. f_equal. apply list_filter_iff. naive_solver.
  - by apply ordered_filter.
  - intros e [He _]%list_elem_of_filter. done.
Qed.

(** A node entered with a priority cursor runs exactly its entries
    strictly below the cursor, in order. *)
Theorem start_index_correct {H} (locals : list (HandlerEntry H)) (remotes : list RemoteEntry) (c : Z) :
  let merged := buildMergedList locals remotes in
  match resolveStartIndex merged (Some c) with Some i => drop i merged | None => [] end =
    filter (λ e, entry_priority e < c) merged.
Proof. apply find_below, js_sort_ordered, _. Qed.

(** The cursor sent with a remote hop admits on the peer every priority up
    to the route's own and everything below the preceding entry's priority,
    and nothing else: no tier is skipped and none above is run twice. *)
Theorem remote_cursor_correct {H} (merged : list (MergedEntry H)) (i : nat) (prev entry : MergedEntry H)
    (incoming : option Z) (Hord : ordered entry_le merged)
    (Hprev : merged !! i = Some prev) (Hentry : merged !! S i = Some entry) :
  ∃ c, resolveRemoteCursor merged (S (S i)) (entry_priority entry) incoming = Some c ∧
    ∀ q, q < c ↔ q ≤ entry_priority entry ∨ q < entry_priority prev.
Proof.
  assert (entry_priority entry ≤ entry_priority prev) as Hle.
  { apply entry_le_priority. rewrite <- (take_drop_middle merged i prev Hprev) in Hord.
    apply StronglySorted_app in Hord as (_ & _ & Ht). apply StronglySorted_inv in Ht as [_ Hf].
    rewrite Forall_forall in Hf. apply Hf. apply list_elem_of_lookup. exists 0%nat. by rewrite lookup_drop, Nat.add_0_r. }
  unfold resolveRemoteCursor. simpl. replace (i - 0)%nat with i by lia. rewrite Hprev.
  eexists. split; [done|]. intros q. case_bool_decide; lia.
Qed.

(** C1: no handler starts and no request is sent once the deadline of the
    dispatch has passed, and no request is sent once the caller has aborted. *)
Theorem no_step_after_deadline {H} (env : Environment H) (sd : SubjectDefinition) (isLocal : bool)
    (payload : value) (options : DispatchOptions) (w : World H) :
  let w' := (dispatch env sd isLocal payload options w).2 in
  ∃ evs, trace w' = trace w ++ evs ∧ ∀ t entry p msg, (t, Tried entry p msg) ∈ evs →
    (∀ d, resolveDispatchDeadline options w = Some d → t < d) ∧
    (is_local entry = false → ∀ s, signal options = Some s → t < abort_at s).
Proof.
  destruct (sound_dispatch env sd _ isLocal payload options w (λ _, logs_admitted _ _)) as (_ & evs & Ht & Hf).
  exists evs. split; [done|]. intros t entry p msg Hin.
  rewrite Forall_forall in Hf. apply (Hf _ Hin).
Qed.

(** When handlers call [next] at most once, entries are tried in priority
    order, local before remote at equal priority, and each at most once. *)
Theorem tried_in_priority_order {H} (env : Environment H) (sd : SubjectDefinition) (isLocal : bool)
    (payload : value) (options : DispatchOptions) (w : World H)
    (Hlin : ∀ h, calls_next_at_most 1 (program env h)) :
  let w' := (dispatch env sd isLocal payload options w).2 in
  ∃ evs w1, trace w' = trace w ++ evs ∧ ordered entry_le (tried evs) ∧
    tried evs `sublist_of`
      merged_at env sd (with_deadline (resolveDispatchDeadline options w) options)
        (negb isLocal && negb (localOnly options)) w1.
Proof.
  simpl. set (opts := with_deadline _ _). set (eligible := negb isLocal && _).
  destruct (dispatch_run env sd isLocal payload options w) as [(e & _ & (evs & Ht & Hn) & _)|(w1 & Ht & _ & Hr)].
  { exists evs, w. rewrite Hn. split_and!; [done|constructor|apply sublist_nil_l]. }
  simpl in Hr. fold opts eligible in Hr. pose proof (merged_at_ordered env sd opts eligible w1) as Hord.
  set (merged := merged_at env sd opts eligible w1) in *.
  destruct (resolveStartIndex merged _) as [i|]; rewrite Hr; simpl.
  - destruct (ran_step env sd opts merged (drop i merged) i payload None w1 (λ h _ _, Hlin h)) as (evs & Ht' & Hs).
    exists evs, w1. fold merged. rewrite <- Ht. split; [exact Ht'|].
    assert (tried evs `sublist_of` merged) as Hsub by (etrans; [exact Hs|apply sublist_drop]).
    split; [by eapply sublist_ordered|done].
  - exists [], w1. rewrite Ht, app_nil_r. split_and!; [done|constructor|apply sublist_nil_l].
Qed.

(** A dispatch reports "not handled" only after it consulted every entry
    below its cursor: each local handler ran and each route's transport was
    sent the request or was not connected; and no transport failed. *)
Theorem unhandled_consulted_all {H} (env : Environment H) (sd : SubjectDefinition) (isLocal : bool)
    (payload : value) (options : DispatchOptions) (w w' : World H)
    (Hr : dispatch env sd isLocal payload options w = (Ok None, w')) :
  ∃ evs w1, trace w' = trace w ++ evs ∧
    ∀ e, e ∈ merged_at env sd (with_deadline (resolveDispatchDeadline options w) options)
               (negb isLocal && negb (localOnly options)) w1 →
         (∀ c, cursor options = Some c → entry_priority e < c) → consulted env evs e.
Proof.
  destruct (dispatch_run env sd isLocal payload options w) as [(e & He & _)|(w1 & Ht & _ & Hd)];
    [by rewrite Hr in He|].
  rewrite Hr in Hd. simpl in Hd.
  set (merged := merged_at _ _ _ _ _) in Hd.
  pose proof (resolveStartIndex_rest merged (cursor options) (merged_at_ordered _ _ _ _ _)) as Hrest.
  assert (Hin : ∀ e, e ∈ merged → (∀ c, cursor options = Some c → entry_priority e < c) →
    e ∈ match resolveStartIndex merged (cursor options) with Some i => drop i merged | None => [] end).
  { intros e He Hc. rewrite Hrest. apply list_elem_of_filter. split; [|done].
    destruct (cursor options); [by apply Hc|done]. }
  destruct (resolveStartIndex merged (cursor options)) as [i|].
  - symmetry in Hd. apply exhausted_step in Hd as (_ & evs & Ht' & Hc). exists evs, w1.
    rewrite <- Ht. split; [done|]. intros e He Hcur. by apply Hc, Hin.
  - injection Hd as ->. exists [], w1. rewrite Ht, app_nil_r. split; [done|].
    intros e He Hcur. specialize (Hin e He Hcur). by apply elem_of_nil in Hin.
Qed.

(** Whatever a handler throws, a failure leaves its entry as a
    [RequestError], a [TimeoutError] or this request's cancellation. *)
Theorem handler_failures_classified {H} (env : Environment H) (sd : SubjectDefinition)
    (options : DispatchOptions) (h : H) (payload : value)
    (downstream : value → ST (World H) thrown (option value)) (w w' : World H) (e : thrown)
    (He : executeLocalEntry env sd options h payload downstream w = (Throw e, w')) :
  instanceof e RequestErrorClass = true ∨ instanceof e TimeoutErrorClass = true ∨
  isRequestCancellation e (aborted (signal options) w') = true.
Proof.
  unfold executeLocalEntry in He. destruct (st_bind _ _ w) as [[o|e1] w1]; [done|].
  unfold classify in He. destruct (isRequestCancellation e1 _) eqn:Hc.
  - assert (isRecognizedError e1 = true) as Hrec.
    { unfold isRequestCancellation in Hc. destruct (aborted _ _); [|done]. by apply andb_true_iff in Hc as [? _]. }
    unfold throw_abort in He. rewrite Hrec in He. injection He as <- <-. auto.
  - destruct (_ || _) eqn:Hor; [simplify_eq; apply orb_true_iff in Hor; tauto|].
    unfold throw_new in He. injection He as <- <-. by left.
Qed.

(** A failed [next] is final: even a handler that catches the rejection
    and sets a fallback result ends in failure, because the dispatcher awaits
    the first [next] promise again after the handler returns. *)
Theorem failed_next_is_final {H} (env : Environment H) (sd : SubjectDefinition)
    (options : DispatchOptions) (h : H) (payload : value) (k : option thrown → Prog)
    (downstream : value → ST (World H) thrown (option value)) (w w1 : World H) (e : thrown)
    (Hh : program env h = HNext k) (Hd : downstream payload w = (Throw e, w1)) :
  ∃ e' w', executeLocalEntry env sd options h payload downstream w = (Throw e', w').
Proof.
  unfold executeLocalEntry, st_bind. rewrite Hh. simpl. rewrite Hd.
  destruct (run_handler downstream (k (Some e)) _ w1) as [[st|e1] w2] eqn:Hr.
  - apply (run_handler_promise _ _ _ _ _ _ (Throw e)) in Hr; [|done].
    unfold settle. rewrite Hr. simpl. apply classify_throws.
  - apply classify_throws.
Qed.

(** A request with a positive timeout settles within it, and nothing it
    started starts after that. *)
Theorem request_settles_in_time {H} (env : Environment H) (sd : SubjectDefinition)
    (namespaces : NamespaceRegistry) (meta : SubjectMeta)
    (validatePayload validateResponse : value → option thrown) (payload : value) (ro : RequestOptions)
    (w w' : World H) (r : outcome thrown value) (t : Z)
    (Htm : 0 < default DEFAULT_REQUEST_TIMEOUT_MS (ro_timeout ro))
    (Hr : request env sd namespaces meta validatePayload validateResponse payload ro w = (r, t, w')) :
  let limit := now w + default DEFAULT_REQUEST_TIMEOUT_MS (ro_timeout ro) in
  now w ≤ t ≤ limit ∧
  ∃ evs, trace w' = trace w ++ evs ∧ ∀ t' entry p msg, (t', Tried entry p msg) ∈ evs → t' < limit.
Proof.
  simpl. unfold request in Hr. set (tm := default _ _) in *.
  assert (Hnone : now w = t → w = w' → now w ≤ t ≤ now w + tm ∧
    ∃ evs, trace w' = trace w ++ evs ∧ ∀ t' entry p msg, (t', Tried entry p msg) ∈ evs → t' < now w + tm).
  { intros <- <-. split; [lia|]. exists []. rewrite app_nil_r. set_solver. }
  destruct (bad_readiness_timeout ro); [apply Hnone; by injection Hr|].
  destruct (validatePayload payload); [apply Hnone; by injection Hr|]. clear Hnone.
  rewrite bool_decide_true in Hr by done. cbv zeta in Hr.
  set (opts := request_options _ _ _ _) in Hr.
  pose proof (sound_dispatch env sd _ (meta_local meta) payload opts w (λ _, logs_admitted _ _)) as Hs.
  destruct (dispatch env sd (meta_local meta) payload opts w) as [o w1]. simpl in Hs.
  destruct Hs as (Hn1 & evs & Ht1 & Hf).
  destruct (awaitWithTimeoutAndSignal _ tm _ _) as [o2 w2] eqn:Haw.
  apply await_extends in Haw as (Ha1 & Ha2 & Ha3). simpl in *.
  assert (t = now w2 ∧ trace w' = trace w1) as [-> ->] by (by destruct o2 as [[v|]|]; simplify_eq).
  split; [specialize (Ha3 Htm); lia|]. exists evs. split; [done|]. intros t' entry p msg Hin.
  rewrite Forall_forall in Hf. specialize (Hf _ Hin). simpl in Hf. by apply Hf.
Qed.

(** *** Witnesses *)
Definition demo_sd : SubjectDefinition := {| subject := "get"; namespace := "kv"; isRequest := true |}.

(** Handler 0 passes, 1 answers, 2 wraps and catches, 3 fails. *)
Definition demo_program (h : nat) : Prog :=
  match h with
  | 1%nat => HSetResult (VStr "one") HReturn
  | 2%nat => HNext (λ _, HSetResult (VStr "fallback") HReturn)
  | 3%nat => HThrow (TVal 0 (VStr "bad"))
  | _ => HWork 5 HReturn
  end.

Definition demo_env (handlers : list (HandlerEntry nat)) : Environment nat :=
  {| program := demo_program;
     requestHandlersAt := λ _, [("kv.get", handlers)];
     remoteAt := λ _, remote announced;
     getTransport := λ _ t, if bool_decide (t = "p")
       then Some (λ m, Build_Pending 3 (Throw (NoHandlerError "kv.get" 77))) else None;
     hasCancelRequest := λ _, false;
     isReady := λ _ _, true;
     getPendingReadyEntries := λ _ _, [("p", 4%nat)] |}.

Definition demo_options : DispatchOptions :=
  {| allowedTransports := Some ["p"; "q"]; cursor := None; correlationId := "c"; messageId := "m";
     timeout := 100; readinessTimeout := None; deadline := None; signal := None;
     localOnly := false; excludeFirstHopOnlyRemote := false |}.

Definition demo_world : World nat := {| now := 1000; fresh := 0; trace := [] |}.
Definition passing : list (HandlerEntry nat) := [Build_HandlerEntry 0%nat 7; Build_HandlerEntry 4%nat 0].

(** Wait 4ms for the handshake, run the local handlers at 7 and 0, then send
    to the synthesized route of the allowed transport. *)
Example demo_run :
  let r := dispatch (demo_env passing) demo_sd false VNull demo_options demo_world in
  r.1 = Ok None ∧ now r.2 = 1017 ∧
  tried (trace r.2) = [LocalEntry 0%nat 7; LocalEntry 4%nat 0; RemoteRoute "p" 0].
Proof. vm_compute. auto. Qed.

Lemma remote_cursor_correct_witness :
  let merged := buildMergedList [Build_HandlerEntry 0%nat 7] [Build_RemoteEntry "p" 7] in
  ∃ c, resolveRemoteCursor merged 2 7 None = Some c ∧ ∀ q, q < c ↔ q ≤ 7 ∨ q < 7.
Proof.
  exact (remote_cursor_correct (buildMergedList [Build_HandlerEntry 0%nat 7] [Build_RemoteEntry "p" 7])
    0 (LocalEntry 0%nat 7) (RemoteRoute "p" 7) None (js_sort_ordered entry_le _) eq_refl eq_refl).
Defined.

Lemma demo_linear h : calls_next_at_most 1 (demo_program h).
Proof. do 4 (destruct h as [|h]; [repeat constructor|]). repeat constructor. Qed.

Lemma tried_in_priority_order_witness :
  ∃ evs w1, trace (dispatch (demo_env passing) demo_sd false VNull demo_options demo_world).2 = [] ++ evs ∧
    ordered entry_le (tried evs) ∧
    tried evs `sublist_of` merged_at (demo_env passing) demo_sd
      (with_deadline (Some 1100) demo_options) true w1.
Proof.
  exact (tried_in_priority_order (demo_env passing) demo_sd false VNull demo_options demo_world demo_linear).
Defined.

Lemma unhandled_consulted_all_witness :
  let w' := (dispatch (demo_env passing) demo_sd false VNull demo_options demo_world).2 in
  ∃ evs w1, trace w' = [] ++ evs ∧
    ∀ e, e ∈ merged_at (demo_env passing) demo_sd (with_deadline (Some 1100) demo_options) true w1 →
         (∀ c, None = Some c → entry_priority e < c) → consulted (demo_env passing) evs e.
Proof.
  apply (unhandled_consulted_all (demo_env passing) demo_sd false VNull demo_options demo_world).
  vm_compute. reflexivity.
Defined.

Definition failing_downstream (v : value) : ST (World nat) thrown (option value) :=
  throw_new (TimeoutError "get" 5).

Lemma handler_failures_classified_witness :
  let r := executeLocalEntry (demo_env []) demo_sd demo_options 3%nat VNull failing_downstream demo_world in
  ∃ e, r.1 = Throw e ∧ (instanceof e RequestErrorClass = true ∨ instanceof e TimeoutErrorClass = true ∨
    isRequestCancellation e (aborted (signal demo_options) r.2) = true).
Proof.
  eexists. split; [vm_compute; reflexivity|].
  eapply (handler_failures_classified (demo_env []) demo_sd demo_options 3%nat VNull failing_downstream demo_world).
  vm_compute. reflexivity.
Defined.

Lemma failed_next_is_final_witness :
  ∃ e' w', executeLocalEntry (demo_env []) demo_sd demo_options 2%nat VNull failing_downstream demo_world
    = (Throw e', w').
Proof.
  exact (failed_next_is_final (demo_env []) demo_sd demo_options 2%nat VNull
    (λ _, HSetResult (VStr "fallback") HReturn) failing_downstream demo_world _ _ eq_refl eq_refl).
Defined.

Definition demo_request : RequestOptions :=
  {| ro_transports := None; ro_timeout := Some 6; ro_readinessTimeout := None; ro_signal := None;
     ro_correlationId := "c"; ro_messageId := "m" |}.

(** The handlers need more than the 6ms granted: the request fails at its limit. *)
Lemma request_settles_in_time_witness :
  let r := request (demo_env passing) demo_sd (namespaces two_peers)
    {| meta_local := false; meta_defaultTransports := None |} (λ _, None) (λ _, None) VNull demo_request demo_world in
  r.1.2 = 1006 ∧ 1000 ≤ r.1.2 ≤ 1006.
Proof.
  split; [vm_compute; reflexivity|].
  exact (proj1 (request_settles_in_time (demo_env passing) demo_sd (namespaces two_peers)
    {| meta_local := false; meta_defaultTransports := None |} (λ _, None) (λ _, None) VNull demo_request
    demo_world _ _ _ eq_refl eq_refl)).
Defined.
