(* ===== verification/Events.v ===== *)
(** * Events: interceptors, emit and the any-handler cache

    [core/bus-core/src/methods/emit.ts], [methods/intercept.ts],
    [methods/intercept/execute-interceptors.ts],
    [methods/request/normalizeTransportTargets.ts], the transport selection of
    [utils/transport.ts] and [utils/invoke-any-handlers.ts].

    Time is explicit as in [Dispatch]: a world is a clock and the acts so far.
    Interceptors are programs over their context ([IProg]).  A call of an event
    handler or of a transport, which is not code of the bus, gives a promise,
    that is a delay and a settlement, and may depend on the world. *)
From S2P Require Import Prelude JsValue Subjects Filters Handlers Errors Remote Dispatch.

(** ** Worlds *)
Record BusWorld (A : Type) := { clock : Z; acts : list (Z * A) }.
Arguments clock {_}. Arguments acts {_}. Arguments Build_BusWorld {_}.

Section world.
Context {A : Type}.
Implicit Types (w : BusWorld A).

Definition record (a : A) w : BusWorld A := {| clock := clock w; acts := acts w ++ [(clock w, a)] |}.
Definition elapse (ms : nat) w : BusWorld A := {| clock := clock w + Z.of_nat ms; acts := acts w |}.
Definition await {B} (p : Pending B) : ST (BusWorld A) thrown B := λ w,
  (settled p, elapse (settles_after p) w).
End world.

(** ** Promises *)
Definition fulfilled {B} (p : Pending B) : bool := match settled p with Ok _ => true | Throw _ => false end.

(** The promise among [ps] that is rejected first. *)
Fixpoint first_rejection {B} (ps : list (Pending B)) : option (nat * thrown) :=
  match ps with
  | [] => None
  | p :: ps =>
      match settled p, first_rejection ps with
      | Ok _, r => r
      | Throw e, Some (t, e') => if decide (t < settles_after p)%nat then Some (t, e') else Some (settles_after p, e)
      | Throw e, None => Some (settles_after p, e)
      end
  end.

Definition last_settled {B} (ps : list (Pending B)) : nat := foldr Nat.max 0%nat (map settles_after ps).

(** [Promise.all], of promises whose values are not looked at. *)
Definition promise_all {B} (ps : list (Pending B)) : Pending unit :=
  match first_rejection ps with
  | Some (t, e) => {| settles_after := t; settled := Throw e |}
  | None => {| settles_after := last_settled ps; settled := Ok tt |}
  end.

(** ** Interceptors *)
Inductive IProg :=
  | IReturn
  | IThrow (e : thrown)
  | IStop (k : IProg)
  | IReplace (p : value) (k : IProg)
  | IRead (k : value → IProg)
  | IAwait (milliseconds : nat) (k : IProg).

Record ChainState := { currentPayload : value; stopped : bool }.

(** ** Transports *)
Record EventMessage := {
  em_subject : string; em_namespace : string; em_payload : value;
  em_messageId : string; em_correlationId : option string
}.

Record EventTransport := {
  isReady : option bool;                          (* [isReady?.()] *)
  canSend : EventMessage → option bool;           (* [canSend?.(message)] *)
  send : EventMessage → Pending unit;
  sendToConnection : option (EventMessage → string → Pending unit)
}.

(** What the choice of transports asks of one, for messages of type [M]. *)
Class TransportGate (T M : Type) := { gate_isReady : T → option bool; gate_canSend : T → M → option bool }.
#[export] Instance event_gate : TransportGate EventTransport EventMessage :=
  {| gate_isReady := isReady; gate_canSend := canSend |}.

Section targets.
Context {T M : Type} `{!TransportGate T M}.
Implicit Types (registered : list (string * T)) (message : option M).

Definition getSortedTransports registered (exclude : option string) : list (string * T) :=
  js_sort key_le (filter (λ nt, exclude ≠ Some nt.1) registered).

Definition getReadyTransports registered (exclude : option string) message : list (string * T) :=
  let ready (t : T) := bool_decide (gate_isReady t ≠ Some false) in
  filter (λ nt, match message with
                | Some m => default (ready nt.2) (gate_canSend nt.2 m)
                | None => ready nt.2
                end = true)
    (getSortedTransports registered exclude).

Definition normalizeTransportTargets (reg : NamespaceRegistry) registered (transports : option (list string))
    (sd : SubjectDefinition) (meta : SubjectMeta) message : list (string * T) :=
  if meta_local meta then []
  else if bool_decide (getFullSubjectForSubjectDefinition sd ∈ collectorOnlySubjects reg) then []
  else match transports with
  | None => if bool_decide (meta_defaultTransports meta = Some true) then []
            else getReadyTransports registered None message
  | Some names =>
      if isExplicitLocalOnlyTransportSpec transports then []
      else omap (λ n, (λ t, (n, t)) <$> JsMap.get n registered) names
  end.
End targets.

(** ** Emit *)
Record EventContext := {
  ec_payload : value; ec_messageId : string; ec_correlationId : option string;
  ec_subject : string; ec_remote : bool    (* delivered for a transport *)
}.

Inductive Act (H : Type) :=
  | Intercepted (i : nat) (payload : value)
  | Delivered (h : H) (ctx : EventContext)
  | Posted (transport : string) (m : EventMessage).
Arguments Intercepted {H}. Arguments Delivered {H}. Arguments Posted {H}.

Record EmitOptions := {
  eo_messageId : string; eo_correlationId : option string;
  eo_transports : option (list string); eo_remote : bool; eo_connectionId : option string
}.

Record EventEnvironment (H : Type) := {
  namespacesOf : NamespaceRegistry;
  validateEventPayload : string → value → option thrown;
  interceptorsAt : BusWorld (Act H) → list (string * list (HandlerEntry nat));
  interceptorOf : nat → option PayloadFilter * IProg;
  eventHandlersAt : BusWorld (Act H) → list (string * list (HandlerEntry H));
  (* a handler throws or returns a promise *)
  callHandler : H → EventContext → BusWorld (Act H) → outcome thrown (Pending unit);
  transportsAt : BusWorld (Act H) → list (string * EventTransport)
}.
Arguments namespacesOf {_}. Arguments validateEventPayload {_}. Arguments interceptorsAt {_}.
Arguments interceptorOf {_}. Arguments eventHandlersAt {_}. Arguments callHandler {_}. Arguments transportsAt {_}.

Section emit.
Context {R : JsRealm} {H : Type} (env : EventEnvironment H).
Notation W := (BusWorld (Act H)).
Notation M := (ST W thrown).

Fixpoint run_interceptor (p : IProg) (s : ChainState) : M ChainState :=
  match p with
  | IReturn => st_ret s
  | IThrow e => st_throw e
  | IStop k => run_interceptor k {| currentPayload := currentPayload s; stopped := true |}
  | IReplace v k => run_interceptor k {| currentPayload := v; stopped := stopped s |}
  | IRead k => run_interceptor (k (currentPayload s)) s
  | IAwait ms k => λ w, run_interceptor k s (elapse ms w)
  end.

(** The handler that [intercept] registers. *)
Definition effectiveHandler (i : nat) : IProg :=
  let '(filter, p) := interceptorOf env i in
  match filter with
  | Some f => IRead (λ payload, if negb (matchesFilter payload f) then IReturn else p)
  | None => p
  end.

Definition getMatchingInterceptors (w : W) (subject : string) : list nat :=
  handler <$> default [] (JsMap.get subject (interceptorsAt env w)).

Fixpoint executeInterceptorChain (interceptors : list nat) (s : ChainState) : M ChainState :=
  match interceptors with
  | [] => st_ret s
  | i :: rest =>
      if stopped s then st_ret s
      else λ w, (let* s' := run_interceptor (effectiveHandler i) s in executeInterceptorChain rest s')
                  (record (Intercepted i (currentPayload s)) w)
  end.

Definition executeInterceptors (subject : string) (payload : value) : M ChainState := λ w,
  executeInterceptorChain (getMatchingInterceptors w subject) {| currentPayload := payload; stopped := false |} w.

(** The loop of [executeHandlers]: each handler is started in turn. *)
Fixpoint start_handlers (handlers : list H) (ctx : EventContext) (w : W) : list (Pending unit) * W :=
  match handlers with
  | [] => ([], w)
  | h :: rest =>
      let p := match callHandler env h ctx w with
               | Ok p => p
               | Throw e => {| settles_after := 0; settled := Throw e |}
               end in
      let '(ps, w') := start_handlers rest ctx (record (Delivered h ctx) w) in
      (p :: ps, w')
  end.

Definition executeHandlers (handlers : list H) (ctx : EventContext) : M unit := λ w,
  let '(promises, w') := start_handlers handlers ctx w in await (promise_all promises) w'.

(** Delivery failures are logged; a transport without connection-scoped
    delivery fails at once. *)
Fixpoint post (targets : list (string * EventTransport)) (m : EventMessage) (connectionId : option string) (w : W) :
    list (Pending unit) * W :=
  match targets with
  | [] => ([], w)
  | (name, t) :: rest =>
      let '(p, w1) := match connectionId with
        | None => (send t m, record (Posted name m) w)
        | Some c => match sendToConnection t with
                    | Some f => (f m c, record (Posted name m) w)
                    | None => ({| settles_after := 0; settled := Ok tt |}, w)
                    end
        end in
      let '(ps, w') := post rest m connectionId w1 in
      ({| settles_after := settles_after p; settled := Ok tt |} :: ps, w')
  end.

Definition event_context (sd : SubjectDefinition) (o : EmitOptions) (payload : value) : EventContext :=
  {| ec_payload := payload; ec_messageId := eo_messageId o; ec_correlationId := eo_correlationId o;
     ec_subject := getFullSubjectForSubjectDefinition sd; ec_remote := eo_remote o |}.

Definition event_message (sd : SubjectDefinition) (o : EmitOptions) (payload : value) : EventMessage :=
  {| em_subject := subject sd; em_namespace := namespace sd; em_payload := payload;
     em_messageId := eo_messageId o; em_correlationId := eo_correlationId o |}.

Definition emit (sd : SubjectDefinition) (meta : SubjectMeta) (payload : value) (o : EmitOptions) : M unit :=
  let key := getFullSubjectForSubjectDefinition sd in
  let effectiveTransports := resolveEffectiveTransports (namespacesOf env) meta key (eo_transports o) in
  match validateEventPayload env key payload with
  | Some e => st_throw e
  | None =>
      let* result := executeInterceptors key payload in
      if stopped result then st_ret tt
      else
        let finalPayload := currentPayload result in
        λ w,
          let handlers := getMatchingHandlers (eventHandlersAt env w) key in
          (let* _ := match handlers with
                     | [] => st_ret tt
                     | _ => executeHandlers handlers (event_context sd o finalPayload)
                     end in
           λ w1,
             let message := event_message sd o finalPayload in
             let targets := normalizeTransportTargets (namespacesOf env) (transportsAt env w1)
                              effectiveTransports sd meta (Some message) in
             match targets with
             | [] => (Ok tt, w1)
             | _ => let '(promises, w2) := post targets message (eo_connectionId o) w1 in
                    await (promise_all promises) w2
             end) w
  end.
End emit.

(** [intercept] and the function it returns. *)
Definition intercept (m : list (string * list (HandlerEntry nat))) (sd : SubjectDefinition) (i : nat)
    (priority : option Z) : list (string * list (HandlerEntry nat)) :=
  addToHandlerMap m (getFullSubjectForSubjectDefinition sd) i (default 0 priority).
Definition remove_interceptor (m : list (string * list (HandlerEntry nat))) (sd : SubjectDefinition) (i : nat) :
    list (string * list (HandlerEntry nat)) :=
  removeFromHandlerMap m (getFullSubjectForSubjectDefinition sd) i.

(** ** The any-handler cache *)
Definition DEDUP_CACHE_MAX_SIZE : nat := 1000.

(** A [Set] in insertion order, oldest first. *)
Definition markSeen (correlationId : string) (seen : list string) : list string :=
  let seen := if decide (DEDUP_CACHE_MAX_SIZE ≤ List.length seen)%nat
              then drop (DEDUP_CACHE_MAX_SIZE / 2) seen else seen in
  JsSet.add correlationId seen.

(** Whether the any-handlers are called, and the cache after. *)
Definition invokeAnyHandlers (production : bool) (anyHandlers : nat) (correlationId : option string)
    (seen : list string) : bool * list string :=
  if production || bool_decide (anyHandlers = 0%nat) then (false, seen)
  else match correlationId with
  | None => (true, seen)
  | Some c => if decide (c ∈ seen) then (false, seen) else (true, markSeen c seen)
  end.

(** ** Reference: what a chain computes, apart from time *)
Section reference.
Context {R : JsRealm}.

(** One interceptor: its outcome and how long it takes. *)
Fixpoint interceptor_effect (p : IProg) (s : ChainState) : outcome thrown ChainState * nat :=
  match p with
  | IReturn => (Ok s, 0%nat)
  | IThrow e => (Throw e, 0%nat)
  | IStop k => interceptor_effect k {| currentPayload := currentPayload s; stopped := true |}
  | IReplace v k => interceptor_effect k {| currentPayload := v; stopped := stopped s |}
  | IRead k => interceptor_effect (k (currentPayload s)) s
  | IAwait ms k => let '(o, t) := interceptor_effect k s in (o, (ms + t)%nat)
  end.

(** The chain: each interceptor sees the payload the ones before it left; a
    stop or an error ends it. *)
Fixpoint chain_effect (progs : list (nat * IProg)) (s : ChainState) :
    list (nat * value) * outcome thrown ChainState * nat :=
  match progs with
  | [] => ([], Ok s, 0%nat)
  | (i, p) :: rest =>
      if stopped s then ([], Ok s, 0%nat)
      else match interceptor_effect p s with
           | (Throw e, t) => ([(i, currentPayload s)], Throw e, t)
           | (Ok s', t) => let '(seen, o, t') := chain_effect rest s' in
                           ((i, currentPayload s) :: seen, o, (t + t')%nat)
           end
  end.

Lemma chain_effect_prefix progs s :
  ∃ k, map fst (chain_effect progs s).1.1 = take k (map fst progs).
Proof.
  revert s. induction progs as [|[i p] progs IH]; intros s; simpl; [by exists 0%nat|].
  destruct (stopped s); [by exists 0%nat|].
  destruct (interceptor_effect p s) as [[s'|e] t]; [|by exists 1%nat].
  destruct (IH s') as [k Hk]. destruct (chain_effect progs s') as [[seen o] t']. exists (S k). simpl in *. by rewrite Hk.
Qed.

(** Without a stop or an error every interceptor has run. *)
Lemma chain_effect_all progs s s' :
  (chain_effect progs s).1.2 = Ok s' → stopped s' = false → map fst (chain_effect progs s).1.1 = map fst progs.
Proof.
  revert s. induction progs as [|[i p] progs IH]; intros s; simpl; [done|].
  destruct (stopped s) eqn:Hs; simpl; [intros [= <-]; congruence|].
  destruct (interceptor_effect p s) as [[s1|e] t]; [|done]. specialize (IH s1).
  destruct (chain_effect progs s1) as [[seen o] t']. simpl in *. intros -> Hs'. by rewrite IH.
Qed.

(** Program text without [await]. *)
Fixpoint synchronous (p : IProg) : Prop :=
  match p with
  | IReturn | IThrow _ => True
  | IStop k | IReplace _ k => synchronous k
  | IRead k => ∀ v, synchronous (k v)
  | IAwait _ _ => False
  end.

Lemma synchronous_effect p s : synchronous p → (interceptor_effect p s).2 = 0%nat.
Proof. revert s. induction p; intros s Hp; simpl in *; try done; auto. Qed.

Lemma chain_effect_sync progs s : Forall (λ ip, synchronous ip.2) progs → (chain_effect progs s).2 = 0%nat.
Proof.
  intros Hp. revert s. induction Hp as [|[i p] progs Hp _ IH]; intros s; simpl; [done|].
  destruct (stopped s); [done|]. pose proof (synchronous_effect p s Hp) as Ht.
  destruct (interceptor_effect p s) as [[s'|e] t]; simpl in *; [|done]. specialize (IH s').
  destruct (chain_effect progs s') as [[seen o] t']. simpl in *. lia.
Qed.
End reference.

Section facts.
Context {R : JsRealm} {H : Type} (env : EventEnvironment H).
Notation W := (BusWorld (Act H)).
Implicit Types (w : W).

Lemma elapse_elapse (m n : nat) w : elapse n (elapse m w) = elapse (m + n) w.
Proof. unfold elapse. simpl. f_equal. lia. Qed.
Lemma elapse_0 w : elapse 0 w = w.
Proof. destruct w. unfold elapse. simpl. by rewrite Z.add_0_r. Qed.

Lemma run_interceptor_effect p s w :
  run_interceptor (H := H) p s w = ((interceptor_effect p s).1, elapse (interceptor_effect p s).2 w).
Proof.
  revert s w. induction p as [|e|k IH|v k IH|k IH|ms k IH]; intros s w; simpl;
    try (by rewrite elapse_0); auto.
  rewrite IH. destruct (interceptor_effect k s). simpl. by rewrite elapse_elapse.
Qed.

(** The acts of a chain carry the time at which each interceptor started. *)
Lemma executeInterceptorChain_effect ids s w :
  let '(seen, o, t) := chain_effect (map (λ i, (i, effectiveHandler env i)) ids) s in
  ∃ w', executeInterceptorChain env ids s w = (o, w') ∧ clock w' = clock w + Z.of_nat t ∧
    ∃ stamped, acts w' = acts w ++ stamped ∧ map snd stamped = map (λ ip, Intercepted ip.1 ip.2) seen.
Proof.
  revert s w. induction ids as [|i ids IH]; intros s w; simpl.
  { exists w. split_and!; [done|lia|]. exists []. by rewrite app_nil_r. }
  destruct (stopped s); [exists w; split_and!; [done|lia|]; exists []; by rewrite app_nil_r|].
  unfold st_bind. rewrite run_interceptor_effect. destruct (interceptor_effect _ s) as [[s'|e] t]; simpl.
  - set (w1 := elapse t (record (Intercepted i (currentPayload s)) w)). specialize (IH s' w1).
    destruct (chain_effect _ s') as [[seen o] t']. destruct IH as (w' & -> & Hc & stamped & Ha & Hs).
    exists w'. split_and!; [done|rewrite Hc; simpl; lia|].
    exists ((clock w, Intercepted i (currentPayload s)) :: stamped). simpl in *. rewrite Hs. split; [|done].
    rewrite Ha. simpl. by rewrite <- app_assoc.
  - eexists. split_and!; [done|simpl; lia|]. by exists [(clock w, Intercepted i (currentPayload s))].
Qed.

Lemma start_handlers_acts hs ctx w :
  clock (start_handlers env hs ctx w).2 = clock w ∧
  acts (start_handlers env hs ctx w).2 = acts w ++ map (λ h, (clock w, Delivered h ctx)) hs ∧
  List.length (start_handlers env hs ctx w).1 = List.length hs.
Proof.
  revert w. induction hs as [|h hs IH]; intros w; simpl; [by rewrite app_nil_r|].
  destruct (IH (record (Delivered h ctx) w)) as (Hc & Ha & Hl).
  destruct (start_handlers env hs ctx _) as [ps w']. simpl in *. split_and!; [done| |by rewrite Hl].
  rewrite Ha. by rewrite <- app_assoc.
Qed.

Lemma post_acts targets m c w :
  clock (post (H := H) targets m c w).2 = clock w ∧
  (∃ posted, acts (post targets m c w).2 = acts w ++ map (λ n, (clock w, Posted n m)) posted ∧
             posted `sublist_of` map fst targets ∧ (c = None → posted = map fst targets)) ∧
  Forall (λ p, fulfilled p = true) (post (H := H) targets m c w).1.
Proof.
  revert w. induction targets as [|[n t] targets IH]; intros w; simpl.
  { split_and!; [done| |constructor]. exists []. rewrite app_nil_r. split_and!; [done|constructor|done]. }
  assert (∃ p posted1, (match c with
      | Some c => match sendToConnection t with
                  | Some f => (f m c, record (Posted n m) w)
                  | None => ({| settles_after := 0; settled := Ok tt |}, w) end
      | None => (send t m, record (Posted n m) w) end) =
      (p, {| clock := clock w; acts := acts w ++ map (λ n, (clock w, Posted n m)) posted1 |}) ∧
      (posted1 = [n] ∨ posted1 = [] ∧ c ≠ None)) as (p & posted1 & -> & Hp1).
  { destruct c as [c|]; [destruct (sendToConnection t)|].
    - eexists _, [n]. split; [done|by left].
    - eexists _, []. split; [|by right]. rewrite app_nil_r. by destruct w.
    - eexists _, [n]. split; [done|by left]. }
  specialize (IH {| clock := clock w; acts := acts w ++ map (λ n, (clock w, Posted n m)) posted1 |}).
  destruct (post targets m c _) as [ps w']. simpl in *. destruct IH as (Hc & (posted & Ha & Hsub & Hall) & Hf).
  split_and!; [done| |by constructor]. exists (posted1 ++ posted). rewrite map_app, Ha, <- app_assoc. split_and!; [done| |].
  - destruct Hp1 as [->|[-> _]]; [by constructor|by constructor].
  - intros Hnone. destruct Hp1 as [->|[_ ?]]; [|done]. simpl. by rewrite Hall.
Qed.

Lemma promise_all_ok {B} (ps : list (Pending B)) :
  settled (promise_all ps) = Ok tt ↔ Forall (λ p, fulfilled p = true) ps.
Proof.
  unfold promise_all. destruct (first_rejection ps) as [[t e]|] eqn:Hf; simpl.
  - split; [done|]. intros Hall. exfalso. revert t e Hf. induction Hall as [|p ps Hp _ IH]; intros t e; simpl; [done|].
    unfold fulfilled in Hp. destruct (settled p); [|done]. eauto.
  - split; [|done]. intros _. revert Hf. induction ps as [|p ps IH]; simpl; [constructor|].
    destruct (settled p) eqn:Hs; [|by destruct (first_rejection ps) as [[? ?]|]; [case_decide|]].
    intros Hf. constructor; [unfold fulfilled; by rewrite Hs|auto].
Qed.

Lemma promise_all_waits {B} (ps : list (Pending B)) p :
  settled (promise_all ps) = Ok tt → p ∈ ps → (settles_after p ≤ settles_after (promise_all ps))%nat.
Proof.
  unfold promise_all. destruct (first_rejection ps) as [[t e]|]; [done|]. intros _ Hp. simpl. unfold last_settled.
  induction ps as [|q ps IH]; [by apply elem_of_nil in Hp|]. apply elem_of_cons in Hp as [->|Hp]; simpl; [lia|].
  specialize (IH Hp). lia.
Qed.

(** A rejection comes from one of the promises, no later than any other. *)
Lemma promise_all_rejects {B} (ps : list (Pending B)) e :
  settled (promise_all ps) = Throw e →
  (∃ p, p ∈ ps ∧ settled p = Throw e ∧ settles_after p = settles_after (promise_all ps)) ∧
  ∀ q, q ∈ ps → fulfilled q = false → (settles_after (promise_all ps) ≤ settles_after q)%nat.
Proof.
  unfold promise_all. destruct (first_rejection ps) as [[t e']|] eqn:Hf; simpl; [|done]. intros [= ->].
  revert t e Hf. induction ps as [|p ps IH]; intros t e Hf; simpl in *; [done|].
  destruct (settled p) as [a|ep] eqn:Hs.
  - destruct (IH t e Hf) as [(q & Hq & Hr) Hmin]. split; [exists q; split; [by right|done]|].
    intros q' [->|Hq']%elem_of_cons; [unfold fulfilled; by rewrite Hs|auto].
  - destruct (first_rejection ps) as [[t' e2]|] eqn:Hps.
    + destruct (IH t' e2 eq_refl) as [(q & Hq & Hr) Hmin]. case_decide; simplify_eq.
      * split; [exists q; split; [by right|done]|]. intros q' [->|Hq']%elem_of_cons Hfl; [lia|auto].
      * split; [exists p; split; [by left|done]|]. intros q' [->|Hq']%elem_of_cons Hfl; [lia|].
        specialize (Hmin q' Hq' Hfl). lia.
    + simplify_eq. split; [exists p; split; [by left|done]|]. intros q' [->|Hq']%elem_of_cons Hfl; [lia|].
      exfalso. clear -Hps Hq' Hfl. induction ps as [|x ps IHp]; [by apply elem_of_nil in Hq'|]. simpl in Hps.
      apply elem_of_cons in Hq' as [->|Hq'].
      * unfold fulfilled in Hfl. destruct (settled x); [done|]. by destruct (first_rejection ps) as [[? ?]|]; [case_decide|].
      * destruct (settled x); [auto|]. by destruct (first_rejection ps) as [[? ?]|]; [case_decide|].
Qed.
End facts.

(** ** Theorems *)
Section properties.
Context {R : JsRealm} {H : Type} (env : EventEnvironment H).
Implicit Types (w : BusWorld (Act H)) (sd : SubjectDefinition) (meta : SubjectMeta) (o : EmitOptions).

Definition interceptor_programs w (key : string) : list (nat * IProg) :=
  map (λ i, (i, effectiveHandler env i)) (getMatchingInterceptors env w key).

Definition targets_at w sd meta o (payload : value) : list (string * EventTransport) :=
  normalizeTransportTargets (namespacesOf env) (transportsAt env w)
    (resolveEffectiveTransports (namespacesOf env) meta (getFullSubjectForSubjectDefinition sd) (eo_transports o))
    sd meta (Some (event_message sd o payload)).

(** What an emit does once its interceptors have let the payload pass. *)
Definition after_chain sd meta o (payload : value) (hs : list H) : ST (BusWorld (Act H)) thrown unit :=
  let* _ := match hs with [] => st_ret tt | _ => executeHandlers env hs (event_context sd o payload) end in
  λ w, let targets := targets_at w sd meta o payload in
       match targets with
       | [] => (Ok tt, w)
       | _ =>
           let '(promises, w2) := post targets (event_message sd o payload) (eo_connectionId o) w in
           await (promise_all promises) w2
       end.

(** After the handlers: nothing more happens when one of them failed;
    otherwise the transports are sent the message, and their failures are
    not reported. *)
Lemma emit_tail sd meta o payload hs w1 :
  let ctx := event_context sd o payload in
  let started := (start_handlers env hs ctx w1).1 in
  let m := event_message sd o payload in
  ∃ out w2 w3 posted,
    after_chain sd meta o payload hs w1 = (out, w3) ∧
    acts w3 = acts w1 ++ map (λ h, (clock w1, Delivered h ctx)) hs ++ map (λ n, (clock w2, Posted n m)) posted ∧
    (out = Ok tt ↔ Forall (λ p, fulfilled p = true) started) ∧ (out ≠ Ok tt → posted = []) ∧
    posted `sublist_of` map fst (targets_at w2 sd meta o payload) ∧
    (out = Ok tt → eo_connectionId o = None → posted = map fst (targets_at w2 sd meta o payload)) ∧
    (out = Ok tt → ∀ p, p ∈ started → clock w1 + Z.of_nat (settles_after p) ≤ clock w2).
Proof.
  intros ctx started m.
  assert (∃ out1 w2, (match hs with [] => st_ret tt | _ => executeHandlers env hs ctx end) w1 = (out1, w2) ∧
    acts w2 = acts w1 ++ map (λ h, (clock w1, Delivered h ctx)) hs ∧
    (out1 = Ok tt ↔ Forall (λ p, fulfilled p = true) started) ∧
    (out1 = Ok tt → ∀ p, p ∈ started → clock w1 + Z.of_nat (settles_after p) ≤ clock w2))
    as (out1 & w2 & E & Ha & Hok & Hwait).
  { destruct hs as [|h0 hs0] eqn:Ehs.
    - exists (Ok tt), w1. rewrite app_nil_r. split_and!; [done|done|split; [constructor|done]|].
      intros _ p Hp. by apply elem_of_nil in Hp.
    - rewrite <- Ehs. destruct (start_handlers_acts env hs ctx w1) as (Hc & Ha & _).
      assert (executeHandlers env hs ctx w1 =
        (settled (promise_all started), elapse (settles_after (promise_all started)) (start_handlers env hs ctx w1).2))
        as E by (unfold executeHandlers, started; subst hs; by destruct (start_handlers env _ ctx w1)).
      eexists _, _. split; [subst hs; exact E|]. split_and!; [subst hs; exact Ha|apply promise_all_ok|].
      intros Hst p Hp. simpl. subst hs. rewrite Hc. pose proof (promise_all_waits started p Hst Hp). lia. }
  unfold after_chain, st_bind. fold ctx. rewrite E. destruct out1 as [[]|e].
  - fold m. destruct (targets_at w2 sd meta o payload) as [|nt targets] eqn:Et.
    + exists (Ok tt), w2, w2, []. rewrite app_nil_r. split_and!; try done; [apply sublist_nil_l|by rewrite Et].
    + destruct (post_acts (nt :: targets) m (eo_connectionId o) w2) as (Hc & (posted & Hp & Hsub & Hall) & Hf).
      destruct (post (nt :: targets) m (eo_connectionId o) w2) as [ps w2'] eqn:Epost. simpl in Hc, Hp, Hf.
      exists (settled (promise_all ps)), w2, (elapse (settles_after (promise_all ps)) w2'), posted.
      assert (settled (promise_all ps) = Ok tt) as Hs by (by apply promise_all_ok).
      rewrite Hs. split_and!; try done; [by unfold await; rewrite Hs|simpl; by rewrite Hp, Ha, <- app_assoc|
        by rewrite Et|intros _ Hn; rewrite Et; by apply Hall].
  - exists (Throw e), w2, w2, []. rewrite app_nil_r. split_and!; try done. apply sublist_nil_l.
Qed.

(** An emit is its three stages: the check of the payload, the interceptors,
    and what they let pass. *)
Lemma emit_stages sd meta payload o w :
  let key := getFullSubjectForSubjectDefinition sd in
  match validateEventPayload env key payload with
  | Some e => emit env sd meta payload o w = (Throw e, w)
  | None =>
      let '(seen, r, t) := chain_effect (interceptor_programs w key) {| currentPayload := payload; stopped := false |} in
      ∃ w1 stamped, clock w1 = clock w + Z.of_nat t ∧ acts w1 = acts w ++ stamped ∧
        map snd stamped = map (λ ip, Intercepted ip.1 ip.2) seen ∧
        emit env sd meta payload o w =
          match r with
          | Throw e => (Throw e, w1)
          | Ok s => if stopped s then (Ok tt, w1)
                    else after_chain sd meta o (currentPayload s) (getMatchingHandlers (eventHandlersAt env w1) key) w1
          end
  end.
Proof.
  intros key. unfold emit. fold key. destruct (validateEventPayload env key payload) as [e|]; [done|].
  pose proof (executeInterceptorChain_effect env (getMatchingInterceptors env w key)
    {| currentPayload := payload; stopped := false |} w) as Hchain. unfold interceptor_programs.
  destruct (chain_effect _ _) as [[seen r] t]. destruct Hchain as (w1 & E & Hc & stamped & Ha & Hs).
  assert (∀ f : ChainState → ST _ thrown unit, st_bind (executeInterceptors env key payload) f w =
    match r with Ok s => f s w1 | Throw e => (Throw e, w1) end) as Hb
    by (intros f; unfold st_bind, executeInterceptors; rewrite E; by destruct r).
  exists w1, stamped. split_and!; [done..|]. rewrite Hb. destruct r as [s|e]; [|done]. destruct (stopped s); reflexivity.
Qed.

(** C32: An emit in full.  A payload its schema rejects goes nowhere.  The
    interceptors of the subject run first, in priority order, each on what the
    one before it left; a stop or an error ends the emit.  Then every handler
    whose pattern matches is started, at one moment, in priority order, with
    the final payload; the emit succeeds exactly when all of them do and not
    before.  Only then are the transports sent the message. *)
Theorem emit_correct sd meta payload o w :
  let key := getFullSubjectForSubjectDefinition sd in
  match validateEventPayload env key payload with
  | Some e => emit env sd meta payload o w = (Throw e, w)
  | None =>
      let '(seen, r, t) := chain_effect (interceptor_programs w key) {| currentPayload := payload; stopped := false |} in
      ∃ w1 stamped, clock w1 = clock w + Z.of_nat t ∧ acts w1 = acts w ++ stamped ∧
        map snd stamped = map (λ ip, Intercepted ip.1 ip.2) seen ∧
        match r with
        | Throw e => emit env sd meta payload o w = (Throw e, w1)
        | Ok s =>
            if stopped s then emit env sd meta payload o w = (Ok tt, w1)
            else
              let hs := getMatchingHandlers (eventHandlersAt env w1) key in
              let ctx := event_context sd o (currentPayload s) in
              let started := (start_handlers env hs ctx w1).1 in
              let m := event_message sd o (currentPayload s) in
              ∃ out w2 w3 posted, emit env sd meta payload o w = (out, w3) ∧
                acts w3 = acts w1 ++ map (λ h, (clock w1, Delivered h ctx)) hs ++ map (λ n, (clock w2, Posted n m)) posted ∧
                (out = Ok tt ↔ Forall (λ p, fulfilled p = true) started) ∧ (out ≠ Ok tt → posted = []) ∧
                posted `sublist_of` map fst (targets_at w2 sd meta o (currentPayload s)) ∧
                (out = Ok tt → eo_connectionId o = None → posted = map fst (targets_at w2 sd meta o (currentPayload s))) ∧
                (out = Ok tt → ∀ p, p ∈ started → clock w1 + Z.of_nat (settles_after p) ≤ clock w2)
        end
  end.
Proof.
  intros key. pose proof (emit_stages sd meta payload o w) as He. cbv zeta in He. fold key in He.
  destruct (validateEventPayload env key payload) as [e|]; [done|].
  destruct (chain_effect _ _) as [[seen r] t]. destruct He as (w1 & stamped & Hc & Ha & Hs & He).
  exists w1, stamped. split_and!; [done..|]. destruct r as [s|e]; [|done]. destruct (stopped s); [done|].
  rewrite He. apply emit_tail.
Qed.

Definition is_posted (a : Z * Act H) : Prop := match a.2 with Posted _ _ => True | _ => False end.

Lemma no_posted (l : list (Z * Act H)) (names : list (nat * value)) :
  map snd l = map (λ ip, Intercepted ip.1 ip.2) names → Forall (λ a, ¬ is_posted a) l.
Proof.
  revert names. induction l as [|[t a] l IH]; intros [|n names]; simpl; intros E; simplify_eq; constructor; eauto.
Qed.

(** An emit that finds no transport to send to posts nothing. *)
Lemma emit_quiet sd meta payload o w (Hnone : ∀ w' p, targets_at w' sd meta o p = []) :
  ∃ evs, acts (emit env sd meta payload o w).2 = acts w ++ evs ∧ Forall (λ a, ¬ is_posted a) evs.
Proof.
  pose proof (emit_stages sd meta payload o w) as Hemit. cbv zeta in Hemit.
  destruct (validateEventPayload env _ payload) as [e|].
  { rewrite Hemit. exists []. by rewrite app_nil_r. }
  destruct (chain_effect _ _) as [[seen r] t]. destruct Hemit as (w1 & stamped & _ & Ha & Hs & Hr).
  apply no_posted in Hs. rewrite Hr. destruct r as [s|e]; [destruct (stopped s)|]; try by exists stamped.
  destruct (emit_tail sd meta o (currentPayload s)
    (getMatchingHandlers (eventHandlersAt env w1) (getFullSubjectForSubjectDefinition sd)) w1)
    as (out & w2 & w3 & posted & -> & Ha3 & _ & _ & Hsub & _). rewrite Hnone in Hsub.
  apply sublist_nil_r in Hsub as ->. simpl in *. rewrite app_nil_r, Ha, <- app_assoc in Ha3. eexists. split; [exact Ha3|].
  apply Forall_app. split; [done|]. apply Forall_forall. intros a Hin.
  apply list_elem_of_fmap in Hin as (h & -> & _). intros [].
Qed.

(** A message that is to stay here stays here: an emit of a local subject,
    of a collector-only subject, with an empty transport list, or with a
    local-only default and no list of its own, posts nothing to a transport. *)
Theorem local_emit_posts_nothing sd meta payload o w
    (Hlocal : meta_local meta = true ∨
       getFullSubjectForSubjectDefinition sd ∈ collectorOnlySubjects (namespacesOf env) ∨
       eo_transports o = Some [] ∨ eo_transports o = None ∧ meta_defaultTransports meta = Some true) :
  ∃ evs, acts (emit env sd meta payload o w).2 = acts w ++ evs ∧ Forall (λ a, ¬ is_posted a) evs.
Proof.
  apply emit_quiet. intros w' p. unfold targets_at, normalizeTransportTargets.
  destruct (meta_local meta) eqn:Hm; [done|]. case_bool_decide; [done|].
  destruct Hlocal as [?|[?|[E|[E1 E2]]]]; [done..| |].
  - by rewrite E.
  - unfold resolveEffectiveTransports. by rewrite E1, E2.
Qed.

(** With synchronous interceptors that let the event pass, the handlers
    are started before [emit] has given up control: at the very moment of the
    call, before any other work. *)
Theorem synchronous_chain_admits_at_once sd meta payload o w
    (Hsync : ∀ i, i ∈ getMatchingInterceptors env w (getFullSubjectForSubjectDefinition sd) →
       synchronous (effectiveHandler env i))
    (Hvalid : validateEventPayload env (getFullSubjectForSubjectDefinition sd) payload = None) s seen t
    (Hpass : chain_effect (interceptor_programs w (getFullSubjectForSubjectDefinition sd))
               {| currentPayload := payload; stopped := false |} = (seen, Ok s, t)) (Hgo : stopped s = false) :
  ∃ w1 rest, clock w1 = clock w ∧
    acts (emit env sd meta payload o w).2 =
      acts w1 ++ map (λ h, (clock w, Delivered h (event_context sd o (currentPayload s))))
        (getMatchingHandlers (eventHandlersAt env w1) (getFullSubjectForSubjectDefinition sd)) ++ rest ∧
    (∃ stamped, acts w1 = acts w ++ stamped ∧ List.length stamped =
       List.length (getMatchingInterceptors env w (getFullSubjectForSubjectDefinition sd))).
Proof.
  pose proof (emit_stages sd meta payload o w) as Hemit. cbv zeta in Hemit. rewrite Hvalid, Hpass, Hgo in Hemit.
  destruct Hemit as (w1 & stamped & Hc & Ha & Hs & ->).
  destruct (emit_tail sd meta o (currentPayload s)
    (getMatchingHandlers (eventHandlersAt env w1) (getFullSubjectForSubjectDefinition sd)) w1)
    as (out & w2 & w3 & posted & -> & Ha3 & _).
  assert (t = 0%nat) as ->.
  { pose proof (chain_effect_sync (interceptor_programs w (getFullSubjectForSubjectDefinition sd))
      {| currentPayload := payload; stopped := false |}) as H0. rewrite Hpass in H0. apply H0.
    apply Forall_forall. intros ip Hin. apply list_elem_of_fmap in Hin as (i & -> & Hi). by apply Hsync. }
  assert (clock w1 = clock w) as Hcw by lia. exists w1. eexists. split; [done|]. rewrite Hcw in Ha3. split; [exact Ha3|].
  exists stamped. split; [done|]. apply (f_equal List.length) in Hs. rewrite !length_map in Hs. rewrite Hs.
  pose proof (chain_effect_all _ _ s (f_equal (λ x, x.1.2) Hpass) Hgo) as Hall. rewrite Hpass in Hall. simpl in Hall.
  rewrite <- (length_map fst seen), Hall. unfold interceptor_programs. by rewrite !length_map.
Qed.
End properties.

(** *** The cache *)
Definition cache_ok (seen : list string) : Prop := NoDup seen ∧ (List.length seen ≤ DEDUP_CACHE_MAX_SIZE)%nat.

Lemma markSeen_ok c seen : cache_ok seen → cache_ok (markSeen c seen).
Proof.
  intros [Hn Hl]. unfold markSeen, cache_ok, DEDUP_CACHE_MAX_SIZE in *.
  assert (NoDup (drop (1000 / 2) seen)) as Hd by (eapply sublist_NoDup; [done|apply sublist_drop]).
  split; [apply JsSet.NoDup_add; by case_decide|].
  assert (∀ s : list string, (List.length (JsSet.add c s) ≤ S (List.length s))%nat) as Hadd
    by (intros s; unfold JsSet.add; case_decide; [lia|rewrite length_app; simpl; lia]).
  etransitivity; [apply Hadd|]. case_decide; [rewrite length_drop; change (1000 / 2)%nat with 500%nat|]; lia.
Qed.

Lemma invoke_one c seen :
  invokeAnyHandlers false 1 (Some c) seen = if decide (c ∈ seen) then (false, seen) else (true, markSeen c seen).
Proof. reflexivity. Qed.

(** The calls for a list of messages, oldest first. *)
Fixpoint any_calls (cs : list string) (seen : list string) : list bool * list string :=
  match cs with
  | [] => ([], seen)
  | c :: cs => let '(b, seen1) := invokeAnyHandlers false 1 (Some c) seen in
               let '(bs, seen2) := any_calls cs seen1 in (b :: bs, seen2)
  end.

Lemma any_calls_ok cs seen : cache_ok seen → cache_ok (any_calls cs seen).2.
Proof.
  revert seen. induction cs as [|c cs IH]; intros seen Hok; [done|]. simpl. rewrite invoke_one.
  destruct (decide (c ∈ seen)); [specialize (IH seen Hok)|specialize (IH _ (markSeen_ok c seen Hok))];
    revert IH; simpl; by destruct (any_calls cs _).
Qed.

(** [young k c seen]: [c] is cached with fewer than [k] younger entries. *)
Definition young (k : nat) (c : string) (seen : list string) : Prop :=
  ∃ a b, seen = a ++ c :: b ∧ (List.length b < k)%nat.

Lemma young_elem k c seen : young k c seen → c ∈ seen.
Proof. intros (a & b & -> & _). apply elem_of_app. right. by left. Qed.

Lemma young_mark k c d seen : young k c seen → d ∉ seen → (k ≤ 500)%nat → young (S k) c (markSeen d seen).
Proof.
  intros (a & b & -> & Hb) Hd Hk. unfold markSeen, DEDUP_CACHE_MAX_SIZE. change (1000 / 2)%nat with 500%nat.
  assert (∃ a', (if decide (1000 ≤ List.length (a ++ c :: b))%nat then drop 500 (a ++ c :: b) else a ++ c :: b)
                = a' ++ c :: b ∧ d ∉ a') as (a' & -> & Ha').
  { assert (d ∉ a) as Hda by (intros Hin; apply Hd, elem_of_app; by left).
    case_decide as Hlen; [|by exists a]. rewrite length_app in Hlen. simpl in Hlen.
    exists (drop 500 a). rewrite drop_app_le by lia. split; [done|].
    intros Hin. apply Hda. eapply elem_of_submseteq; [exact Hin|apply sublist_submseteq, sublist_drop]. }
  assert (d ∉ a' ++ c :: b) as Hnot.
  { intros [Hin|Hin]%elem_of_app; [done|]. apply Hd, elem_of_app. by right. }
  unfold JsSet.add. rewrite decide_False by done. exists a', (b ++ [d]). rewrite <- app_assoc. split; [done|].
  rewrite length_app. simpl. lia.
Qed.

(** The any-handlers are called for a request at most once while fewer than
    500 other requests have been recorded since, and the cache never holds
    more than 1000 ids. *)
Theorem any_handlers_once (c : string) (cs seen : list string) (Hok : cache_ok seen)
    (Hlen : (List.length cs ≤ 500)%nat) :
  let '(_, seen1) := invokeAnyHandlers false 1 (Some c) seen in
  c ∉ seen → (any_calls [c] (any_calls cs seen1).2).1 = [false] ∧ cache_ok (any_calls cs seen1).2.
Proof.
  rewrite invoke_one. case_decide as Hin; [done|]. intros _.
  assert (young 1 c (markSeen c seen)) as Hy.
  { unfold markSeen, JsSet.add. rewrite decide_False.
    - eexists _, []. split; [done|simpl; lia].
    - case_decide; [|done]. intros Hd. apply Hin. eapply elem_of_submseteq; [exact Hd|apply sublist_submseteq, sublist_drop]. }
  split; [|by apply any_calls_ok, markSeen_ok].
  cut (c ∈ (any_calls cs (markSeen c seen)).2); [intros Hc; simpl; rewrite invoke_one; by rewrite decide_True|].
  assert (∀ k s, young k c s → (k + List.length cs ≤ 501)%nat → c ∈ (any_calls cs s).2) as Hgo; [|by eapply Hgo; [exact Hy|lia]].
  clear. induction cs as [|d cs IH]; intros k s Hy Hk; [by eapply young_elem|]. simpl in Hk |- *. rewrite invoke_one.
  destruct (decide (d ∈ s)) as [Hd|Hd].
  - specialize (IH k s Hy ltac:(lia)). revert IH. by destruct (any_calls cs s).
  - specialize (IH (S k) _ (young_mark k c d s Hy Hd ltac:(lia)) ltac:(lia)). revert IH. by destruct (any_calls cs (markSeen d s)).
Qed.

(** *** Witnesses *)
Definition quiet_namespaces : NamespaceRegistry :=
  {| listRegisteredSubjects := []; hostLocalRequestSubjects := []; collectorOnlySubjects := []; defaultTransportsMap := [] |}.

Definition shout : IProg := IRead (λ v, IReplace (VArr [v; v]) IReturn).
Definition demo_transport : EventTransport :=
  {| isReady := None; canSend := λ _, None; send := λ _, {| settles_after := 3; settled := Throw (TVal 0 VNull) |};
     sendToConnection := None |}.

Definition demo_events : EventEnvironment nat :=
  {| namespacesOf := quiet_namespaces; validateEventPayload := λ _ _, None;
     interceptorsAt := λ _, intercept [] {| subject := "s"; namespace := "n"; isRequest := false |} 1 None;
     interceptorOf := λ _, (None, shout);
     eventHandlersAt := λ _, addToHandlerMap (addToHandlerMap [] "n.s" 10%nat 0) "n.*" 20%nat 5;
     callHandler := λ h _ _, Ok {| settles_after := h; settled := Ok tt |};
     transportsAt := λ _, [("b", demo_transport); ("a", demo_transport)] |}.

Definition demo_subject : SubjectDefinition := {| subject := "s"; namespace := "n"; isRequest := false |}.
Definition demo_meta (isLocal : bool) : SubjectMeta := {| meta_local := isLocal; meta_defaultTransports := None |}.
Definition demo_options : EmitOptions :=
  {| eo_messageId := "m"; eo_correlationId := None; eo_transports := None; eo_remote := false; eo_connectionId := None |}.
Definition demo_world : BusWorld (Act nat) := {| clock := 0; acts := [] |}.

#[local] Instance demo_realm : JsRealm := {| inherited := λ _ _, VUndef |}.

(** The pattern matches, the payload is the interceptor's, the transports are
    sent to in name order after the slower handler. *)
Example demo_emit :
  let payload := VArr [VNull; VNull] in
  emit demo_events demo_subject (demo_meta false) VNull demo_options demo_world =
  (Ok tt, {| clock := 23; acts :=
    [(0, Intercepted 1 VNull); (0, Delivered 20%nat (event_context demo_subject demo_options payload));
     (0, Delivered 10%nat (event_context demo_subject demo_options payload));
     (20, Posted "a" (event_message demo_subject demo_options payload));
     (20, Posted "b" (event_message demo_subject demo_options payload))] |}).
Proof. vm_compute. reflexivity. Qed.

Lemma local_emit_posts_nothing_witness :
  ∃ evs, acts (emit demo_events demo_subject (demo_meta true) VNull demo_options demo_world).2 = [] ++ evs ∧
         Forall (λ a, ¬ is_posted a) evs.
Proof.
  exact (local_emit_posts_nothing demo_events demo_subject (demo_meta true) VNull demo_options demo_world
    (or_introl eq_refl)).
Defined.

Lemma synchronous_chain_admits_at_once_witness :
  ∃ w1 rest, clock w1 = 0 ∧
    acts (emit demo_events demo_subject (demo_meta false) VNull demo_options demo_world).2 =
      acts w1 ++ map (λ h, (0, Delivered h (event_context demo_subject demo_options (VArr [VNull; VNull]))))
        (getMatchingHandlers (eventHandlersAt demo_events w1) "n.s") ++ rest ∧
    (∃ stamped, acts w1 = [] ++ stamped ∧ List.length stamped = 1%nat).
Proof.
  refine (synchronous_chain_admits_at_once demo_events demo_subject (demo_meta false) VNull demo_options demo_world
    _ eq_refl {| currentPayload := VArr [VNull; VNull]; stopped := false |} [(1%nat, VNull)] 0%nat _ eq_refl).
  - intros i _ v. exact I.
  - reflexivity.
Defined.

Lemma any_handlers_once_witness :
  "a" ∉ ([] : list string) → (any_calls ["a"] (any_calls ["b"; "a"] ["a"]).2).1 = [false] ∧
  cache_ok (any_calls ["b"; "a"] ["a"]).2.
Proof.
  refine (any_handlers_once "a" ["b"; "a"] [] (conj (NoDup_nil_2) _) _); vm_compute; lia.
Defined.
