(* ===== verification/TransportRegistry.v ===== *)
(** * Transport registry: registration, readiness, disconnection

    The lifecycle half of [core/bus-core/src/registries/transport-registry.ts]
    ([createTransportRegistry]) and its use of [Remote]; what arrives as an
    event, a request or a broadcast is [Ingress].

    Transports are third-party objects, here numbers.  Calling [unsubscribe]
    removes the listener [onReceive] added; a promise runs the callbacks added
    to it once, when it settles.  Awaits and callbacks from outside are steps. *)
From S2P Require Import Prelude JsValue Handlers Remote.

(** ** State *)
Record Registration := {
  rg_transport : nat;
  rg_id : nat      (* names the listener and the abort controller of this registration *)
}.

Inductive SubscriptionMessage :=
  | SubscribeSyncComplete
  | SubscriptionAck
  | ISubscribe (m : SubscribeMessage)
  | IUnsubscribe (subjects : list string).

Section registry.
Context {H : Type} `{EqDecision H} (ns : NamespaceRegistry).

Record RegistryState := {
  registeredTransports : list (string * Registration);
  pendingReady : list (string * nat);
  (* [onNewReadySession], [onConnected] and [onDisconnected] are set and
     cleared together: a transport and the name they report *)
  attached : list (nat * string);
  listeners : list (nat * (nat * string));   (* listener, on which transport, for which name *)
  cleanups : list (nat * string);            (* callbacks waiting on a promise *)
  syncs : list (nat * (nat * string));       (* initial syncs whose pushes have not settled *)
  abortedSyncs : list nat;
  handshakes : list (nat * nat);             (* sent: transport and registration *)
  lifecycleEmitter : bool;
  lifecycle : list (bool * string);          (* emitted: connected or not, and who *)
  locals : @BusHandlers H;
  remotes : RemoteState;
  pushes : list Push;
  nextId : nat
}.

Definition context (st : RegistryState) : BusContext H :=
  {| local := locals st; remote := remotes st; namespaces := ns;
     transports := JsMap.keys (registeredTransports st) |}.

Definition with_registered rs st := {|
  registeredTransports := rs; pendingReady := pendingReady st; attached := attached st;
  listeners := listeners st; cleanups := cleanups st; syncs := syncs st; abortedSyncs := abortedSyncs st;
  handshakes := handshakes st; lifecycleEmitter := lifecycleEmitter st; lifecycle := lifecycle st;
  locals := locals st; remotes := remotes st; pushes := pushes st; nextId := nextId st |}.
Definition with_ready pending waiting st := {|
  registeredTransports := registeredTransports st; pendingReady := pending; attached := attached st;
  listeners := listeners st; cleanups := waiting; syncs := syncs st; abortedSyncs := abortedSyncs st;
  handshakes := handshakes st; lifecycleEmitter := lifecycleEmitter st; lifecycle := lifecycle st;
  locals := locals st; remotes := remotes st; pushes := pushes st; nextId := nextId st |}.
Definition with_attached at' st := {|
  registeredTransports := registeredTransports st; pendingReady := pendingReady st; attached := at';
  listeners := listeners st; cleanups := cleanups st; syncs := syncs st; abortedSyncs := abortedSyncs st;
  handshakes := handshakes st; lifecycleEmitter := lifecycleEmitter st; lifecycle := lifecycle st;
  locals := locals st; remotes := remotes st; pushes := pushes st; nextId := nextId st |}.
Definition with_listeners ls n st := {|
  registeredTransports := registeredTransports st; pendingReady := pendingReady st; attached := attached st;
  listeners := ls; cleanups := cleanups st; syncs := syncs st; abortedSyncs := abortedSyncs st;
  handshakes := handshakes st; lifecycleEmitter := lifecycleEmitter st; lifecycle := lifecycle st;
  locals := locals st; remotes := remotes st; pushes := pushes st; nextId := n |}.
Definition with_syncs ss ab hs st := {|
  registeredTransports := registeredTransports st; pendingReady := pendingReady st; attached := attached st;
  listeners := listeners st; cleanups := cleanups st; syncs := ss; abortedSyncs := ab;
  handshakes := hs; lifecycleEmitter := lifecycleEmitter st; lifecycle := lifecycle st;
  locals := locals st; remotes := remotes st; pushes := pushes st; nextId := nextId st |}.
Definition with_lifecycle emitter ls st := {|
  registeredTransports := registeredTransports st; pendingReady := pendingReady st; attached := attached st;
  listeners := listeners st; cleanups := cleanups st; syncs := syncs st; abortedSyncs := abortedSyncs st;
  handshakes := handshakes st; lifecycleEmitter := emitter; lifecycle := ls;
  locals := locals st; remotes := remotes st; pushes := pushes st; nextId := nextId st |}.
Definition with_bus lh rs ps st := {|
  registeredTransports := registeredTransports st; pendingReady := pendingReady st; attached := attached st;
  listeners := listeners st; cleanups := cleanups st; syncs := syncs st; abortedSyncs := abortedSyncs st;
  handshakes := handshakes st; lifecycleEmitter := lifecycleEmitter st; lifecycle := lifecycle st;
  locals := lh; remotes := rs; pushes := ps; nextId := nextId st |}.

Definition createTransportRegistry (lh : @BusHandlers H) (rs : RemoteState) : RegistryState := {|
  registeredTransports := []; pendingReady := []; attached := []; listeners := []; cleanups := [];
  syncs := []; abortedSyncs := []; handshakes := []; lifecycleEmitter := false; lifecycle := [];
  locals := lh; remotes := rs; pushes := []; nextId := 0 |}.

Implicit Types (st : RegistryState) (name : string) (t p id : nat).

(** ** Readiness *)
Definition trackPendingReady name (readyPromise : option nat) st : RegistryState :=
  match readyPromise with
  | None => st
  | Some p => with_ready (JsMap.set name p (pendingReady st)) (cleanups st ++ [(p, name)]) st
  end.

Definition cleanup (pn : nat * string) st : RegistryState :=
  if decide (JsMap.get pn.2 (pendingReady st) = Some pn.1)
  then with_ready (JsMap.delete pn.2 (pendingReady st)) (cleanups st) st else st.

(** [p] settles: its callbacks run, once. *)
Definition promise_settled p st : RegistryState :=
  let st1 := foldl (λ s pn, cleanup pn s) st (filter (λ pn, pn.1 = p) (cleanups st)) in
  with_ready (pendingReady st1) (filter (λ pn, pn.1 ≠ p) (cleanups st1)) st1.

Definition collectPendingReady (names : option (list string)) st : list (string * nat) :=
  match names with
  | None => pendingReady st
  | Some wanted => filter (λ np, np.1 ∈ wanted) (pendingReady st)
  end.
Definition getPendingReadyEntries := collectPendingReady.
Definition getPendingReady names st : list nat := (collectPendingReady names st).*2.

(** ** Registration *)
Definition apply_pushes (r : BusContext H * list Push) st : RegistryState :=
  with_bus (locals st) (remote r.1) (pushes st ++ r.2) st.

(** [existing.unsubscribe()], [syncAbort.abort()] and the three callbacks. *)
Definition detach (r : Registration) st : RegistryState :=
  let st := with_syncs (syncs st) (abortedSyncs st ++ [rg_id r]) (handshakes st) st in
  let st := with_listeners (JsMap.delete (rg_id r) (listeners st)) (nextId st) st in
  with_attached (JsMap.delete (rg_transport r) (attached st)) st.

Definition forget_ready name st : RegistryState :=
  with_ready (JsMap.delete name (pendingReady st)) (cleanups st) st.

Definition replace name st : RegistryState :=
  match JsMap.get name (registeredTransports st) with
  | None => st
  | Some existing =>
      let st := apply_pushes (purgeRemoteHandlersForTransport (context st) name) st in
      forget_ready name (detach existing st)
  end.

(** [ready]: the transport's [ready] promise, if it has one. *)
Definition registerTransport name t (ready : option nat) st : RegistryState :=
  let st := replace name st in
  let id := nextId st in
  let st := with_listeners (JsMap.set id (t, name) (listeners st)) (S id) st in
  let st := with_registered (JsMap.set name {| rg_transport := t; rg_id := id |} (registeredTransports st)) st in
  let st := trackPendingReady name ready st in
  let st := with_attached (JsMap.set t name (attached st)) st in
  let st := apply_pushes (context st, (syncAllSubjectsToTransport (context st) name true true).1) st in
  with_syncs (JsMap.set id (t, name) (syncs st)) (abortedSyncs st) (handshakes st) st.

(** The closure returned by [registerTransport name t]. *)
Definition unregister name t st : RegistryState :=
  match JsMap.get name (registeredTransports st) with
  | Some current =>
      if decide (rg_transport current = t) then
        let st := detach current st in
        let st := with_registered (JsMap.delete name (registeredTransports st)) st in
        let st := forget_ready name st in
        apply_pushes (purgeRemoteHandlersForTransport (context st) name) st
      else st
  | None => st
  end.

(** The end of [syncAllSubjectsToTransport]: its pushes have settled. *)
Definition sync_settled id (isReady : option bool) (declaresReady : bool) st : RegistryState :=
  match JsMap.get id (syncs st) with
  | None => st
  | Some (t, name) =>
      let live := bool_decide (id ∉ abortedSyncs st) && bool_decide (isReady ≠ Some false) in
      let handshake := (syncAllSubjectsToTransport (context st) name live declaresReady).2 in
      with_syncs (JsMap.delete id (syncs st)) (abortedSyncs st)
        (if handshake then handshakes st ++ [(t, id)] else handshakes st) st
  end.

(** ** Callbacks of a transport *)
Definition onNewReadySession t p st : RegistryState :=
  match JsMap.get t (attached st) with Some name => trackPendingReady name (Some p) st | None => st end.

Definition lifecycle_event (connected : bool) t st : RegistryState :=
  match JsMap.get t (attached st) with
  | Some name => if lifecycleEmitter st
                 then with_lifecycle true (lifecycle st ++ [(connected, name)]) st else st
  | None => st
  end.
Definition onConnected := lifecycle_event true.
Definition onDisconnected := lifecycle_event false.
Definition setLifecycleEmitter st : RegistryState := with_lifecycle true (lifecycle st) st.

(** [handleIncomingMessage] for the messages that are not for the application. *)
Definition handleSubscriptionMessage name (m : SubscriptionMessage) st : RegistryState :=
  match m with
  | SubscribeSyncComplete | SubscriptionAck => st
  | ISubscribe m => apply_pushes (propagateSubscribe (context st) name m) st
  | IUnsubscribe subjects => apply_pushes (propagateUnsubscribe (context st) name subjects) st
  end.

(** A message arrives at [t]: each listener on it is called. *)
Definition receive t (m : SubscriptionMessage) st : RegistryState :=
  foldl (λ s l, handleSubscriptionMessage l.2.2 m s) st (filter (λ l, l.2.1 = t) (listeners st)).

(** ** Queries *)
Definition getTransport name st : option nat := rg_transport <$> JsMap.get name (registeredTransports st).
Definition all st : list nat := rg_transport <$> JsMap.values (registeredTransports st).
Definition names st : list string := JsMap.keys (registeredTransports st).

(** Everything that happens to a registry; handlers come and go in between. *)
Inductive registry_step : RegistryState → RegistryState → Prop :=
  | step_register name t ready st : registry_step st (registerTransport name t ready st)
  | step_unregister name t st : registry_step st (unregister name t st)
  | step_settled p st : registry_step st (promise_settled p st)
  | step_session t p st : registry_step st (onNewReadySession t p st)
  | step_connected t st : registry_step st (onConnected t st)
  | step_disconnected t st : registry_step st (onDisconnected t st)
  | step_emitter st : registry_step st (setLifecycleEmitter st)
  | step_receive t m st : registry_step st (receive t m st)
  | step_synced id ready declares st : registry_step st (sync_settled id ready declares st)
  | step_handlers lh ps st : registry_step st (with_bus lh (remotes st) (pushes st ++ ps) st).
End registry.
Arguments RegistryState : clear implicits.

(** ** The invariant *)
Section invariant.
Context {H : Type} `{EqDecision H} (ns : NamespaceRegistry).
Implicit Types (st : RegistryState H) (name : string) (t p id : nat).

Definition registered_as name t id st : Prop :=
  JsMap.get name (registeredTransports st) = Some {| rg_transport := t; rg_id := id |}.

(** The bus has learned something from the transport [name]. *)
Definition learned_from name (rs : RemoteState) : Prop := ∃ s, is_Some (deliveryClassOf rs s name).

Record registry_ok st : Prop := {
  ok_names : NoDup (names st);
  ok_listeners id t name : JsMap.get id (listeners st) = Some (t, name) ↔ registered_as name t id st;
  ok_listener_keys : NoDup (JsMap.keys (listeners st));
  ok_fresh id : is_Some (JsMap.get id (listeners st)) ∨ is_Some (JsMap.get id (syncs st)) ∨ id ∈ abortedSyncs st →
    (id < nextId st)%nat;
  ok_pending name p : JsMap.get name (pendingReady st) = Some p → name ∈ names st ∧ (p, name) ∈ cleanups st;
  ok_pending_keys : NoDup (JsMap.keys (pendingReady st));
  ok_attached t name : JsMap.get t (attached st) = Some name → ∃ id, registered_as name t id st;
  ok_live name t id : registered_as name t id st → id ∉ abortedSyncs st;
  ok_syncs id t name : JsMap.get id (syncs st) = Some (t, name) → id ∉ abortedSyncs st → registered_as name t id st;
  ok_remote : remote_ok (remotes st);
  ok_learned name : learned_from name (remotes st) → name ∈ names st
}.

Lemma registered_name name t id st : registered_as name t id st → name ∈ names st.
Proof. intros Hr. apply JsMap.get_elem in Hr. apply list_elem_of_fmap. by exists (name, {| rg_transport := t; rg_id := id |}). Qed.

Lemma names_registered name st : name ∈ names st → ∃ t id, registered_as name t id st.
Proof.
  intros Hn. unfold registered_as. destruct (JsMap.get name (registeredTransports st)) as [[t id]|] eqn:E; [eauto|].
  by apply JsMap.get_None in E.
Qed.

Lemma initial_ok lh : registry_ok (createTransportRegistry lh empty_remote).
Proof.
  split; unfold registered_as, learned_from; simpl; try done; try apply NoDup_nil_2; try apply remote_ok_empty.
  - intros id [[]|[[]|[]%elem_of_nil]]; done.
  - by intros name [s []].
Qed.

(** What the bus learns. *)
Lemma learned_purge name name' rs : maps_ok rs →
  learned_from name' (purge_state name rs).1 → name ≠ name' ∧ learned_from name' rs.
Proof.
  intros Hm [s [c Hc]]. destruct (purge_state_view name rs s Hm) as [(_ & _ & Hp) _]. rewrite Hp in Hc.
  case_decide; [done|]. split; [done|]. by exists s, c.
Qed.

Lemma learned_subscribe src cls sps rs name :
  learned_from name (foldl (subscribeOne src cls) rs sps) → name = src ∨ learned_from name rs.
Proof.
  apply (foldl_inv (λ rs', learned_from name rs' → name = src ∨ learned_from name rs)); [|by right].
  intros rs1 [s ps] IH [s' [c Hc]]. rewrite class_subscribeOne in Hc. case_decide as Hd; [by left; destruct Hd|].
  apply IH. by exists s', c.
Qed.

Lemma learned_unsubscribe src ss rs name :
  learned_from name (foldl (unsubscribeOne src) rs ss) → learned_from name rs.
Proof.
  apply (foldl_inv (λ rs', learned_from name rs' → learned_from name rs)); [|done].
  intros rs1 s IH [s' [c Hc]]. apply IH. exists s'. destruct (decide (s = s')) as [->|Hne].
  - destruct (purged_unsubscribeOne src rs1 s') as (_ & _ & Hp). rewrite Hp in Hc. case_decide; [done|by exists c].
  - destruct (view_unsubscribeOne_other src rs1 s s' Hne) as (_ & _ & Hv). rewrite Hv in Hc. by exists c.
Qed.

Lemma purge_remote (ctx : BusContext H) name :
  remote (purgeRemoteHandlersForTransport ctx name).1 = (purge_state name (remote ctx)).1.
Proof. unfold purgeRemoteHandlersForTransport. by destruct (purge_state name (remote ctx)). Qed.

(** *** Leaving *)
Definition dropped name st : RegistryState H :=
  with_registered (JsMap.delete name (registeredTransports st)) (replace ns name st).

Lemma dropped_ok name st : registry_ok st → registry_ok (dropped name st).
Proof.
  intros Hok. unfold dropped, replace.
  destruct (JsMap.get name (registeredTransports st)) as [[t id]|] eqn:Hr.
  2:{ rewrite JsMap.delete_absent by done. destruct Hok. by constructor. }
  assert (∀ n t', registered_as n t' id st → n = name) as Hid.
  { intros n t' Hn. apply (ok_listeners _ Hok) in Hn, Hr. congruence. }
  destruct Hok. constructor; simpl; rewrite ?purge_remote; simpl.
  - by apply JsMap.NoDup_keys_delete.
  - intros i t' n. unfold registered_as in *. simpl. rewrite !JsMap.get_delete.
    destruct (decide (id = i)) as [<-|].
    + split; [done|]. case_decide as Hn; [done|]. intros Hi. exfalso. by apply Hn, eq_sym, (Hid n t').
    + case_decide as Hn; [subst; rewrite ok_listeners0; rewrite Hr; naive_solver|apply ok_listeners0].
  - by apply JsMap.NoDup_keys_delete.
  - intros i Hi. assert (id < nextId st)%nat by (apply ok_fresh0; left; exists (t, name); by apply ok_listeners0).
    rewrite JsMap.get_delete, elem_of_app, list_elem_of_singleton in Hi.
    destruct (decide (id = i)); [by subst|]. apply ok_fresh0. naive_solver.
  - intros n p. unfold names. simpl. rewrite JsMap.get_delete, JsMap.elem_keys_delete. case_decide; [done|].
    intros Hp%ok_pending0. naive_solver.
  - by apply JsMap.NoDup_keys_delete.
  - intros t' n. unfold registered_as. simpl. rewrite JsMap.get_delete. case_decide as Ht; [done|].
    intros [id' Hn]%ok_attached0. exists id'. rewrite JsMap.get_delete_ne; [done|]. intros <-. unfold registered_as in Hn. congruence.
  - intros n t' id'. unfold registered_as. simpl. rewrite JsMap.get_delete. case_decide as Hn; [done|]. intros Hn'.
    rewrite not_elem_of_app, list_elem_of_singleton. split; [by eapply ok_live0|]. intros ->. by apply Hn, eq_sym, (Hid n t').
  - intros id' t' n Hs. unfold registered_as. simpl. rewrite not_elem_of_app, list_elem_of_singleton. intros [Ha Hne].
    pose proof (ok_syncs0 _ _ _ Hs Ha) as Hn. rewrite JsMap.get_delete_ne; [done|].
    intros <-. unfold registered_as in Hn. congruence.
  - eapply remote_ok_step; [done|]. apply step_purge.
  - intros n Hl. apply learned_purge in Hl as [Hne Hl]; [|by destruct ok_remote0].
    unfold names. simpl. apply JsMap.elem_keys_delete. split; [done|]. by apply ok_learned0.
Qed.

Lemma dropped_absent name st : name ∉ names (dropped name st).
Proof. unfold names, dropped. simpl. rewrite JsMap.elem_keys_delete. naive_solver. Qed.

(** *** Tracking a promise, and its settlement *)
Lemma trackPendingReady_ok name ready st : name ∈ names st → registry_ok st → registry_ok (trackPendingReady name ready st).
Proof.
  intros Hn Hok. destruct ready as [p|]; [|done]. destruct Hok. constructor; simpl; try done.
  - intros n q. rewrite JsMap.get_set, elem_of_app. case_decide; [|intros Hp%ok_pending0; naive_solver].
    intros [= <-]. subst. split; [done|]. right. by apply list_elem_of_singleton.
  - by apply JsMap.NoDup_keys_set.
Qed.

Lemma cleanup_fields pn st :
  cleanup pn st = with_ready (pendingReady (cleanup pn st)) (cleanups st) st.
Proof. unfold cleanup. case_decide; by destruct st. Qed.

Lemma cleanup_get pn st n : JsMap.get n (pendingReady (cleanup pn st)) =
  if decide (n = pn.2 ∧ JsMap.get n (pendingReady st) = Some pn.1) then None else JsMap.get n (pendingReady st).
Proof.
  unfold cleanup. destruct pn as [p m]. simpl. case_decide as Hm; simpl; [rewrite JsMap.get_delete|];
    repeat case_decide; naive_solver.
Qed.

Lemma cleanup_ok pn st : registry_ok st → registry_ok (cleanup pn st).
Proof.
  intros Hok. pose proof (cleanup_get pn st) as Hget. rewrite cleanup_fields in Hget |- *. destruct Hok.
  constructor; simpl; try done.
  - intros n p. rewrite Hget. case_decide; [done|]. apply ok_pending0.
  - unfold cleanup. case_decide; [by apply JsMap.NoDup_keys_delete|done].
Qed.

Lemma fold_cleanup l st :
  let st' := foldl (λ s pn, cleanup pn s) st l in
  st' = with_ready (pendingReady st') (cleanups st) st ∧
  ∀ n, JsMap.get n (pendingReady st') =
    match JsMap.get n (pendingReady st) with
    | Some p => if decide ((p, n) ∈ l) then None else Some p
    | None => None
    end.
Proof.
  revert st. induction l as [|[p m] l IH]; intros st; simpl.
  { split; [by destruct st|]. intros n. by destruct (JsMap.get n _). }
  destruct (IH (cleanup (p, m) st)) as [He Hg]. split.
  - rewrite He at 1. rewrite (cleanup_fields (p, m) st) at 2 3. by destruct st.
  - intros n. rewrite Hg, cleanup_get. simpl. destruct (JsMap.get n (pendingReady st)) as [q|] eqn:Hq.
    + case_decide as Hd.
      * destruct Hd as [-> [= ->]]. rewrite decide_True by left. done.
      * destruct (decide ((q, n) ∈ l)) as [Hl|Hl]; [by rewrite decide_True by (by right)|].
        rewrite decide_False; [done|]. intros [[= -> ->]|]%elem_of_cons; naive_solver.
    + case_decide; [naive_solver|done].
Qed.

(** A settled promise is no longer waited for; what else is waited for stays. *)
Lemma promise_settled_fields p st :
  let st' := promise_settled p st in
  st' = with_ready (pendingReady st') (filter (λ pn, pn.1 ≠ p) (cleanups st)) st ∧
  ∀ n, JsMap.get n (pendingReady st') =
    match JsMap.get n (pendingReady st) with
    | Some q => if decide (q = p ∧ (q, n) ∈ cleanups st) then None else Some q
    | None => None
    end.
Proof.
  unfold promise_settled. destruct (fold_cleanup (filter (λ pn, pn.1 = p) (cleanups st)) st) as [He Hg]. simpl in *.
  split.
  - rewrite He at 2 3. by destruct st.
  - intros n. rewrite Hg. destruct (JsMap.get n (pendingReady st)) as [q|]; [|done].
    apply decide_ext. rewrite list_elem_of_filter. done.
Qed.

Lemma fold_cleanup_ok l st : registry_ok st → registry_ok (foldl (λ s pn, cleanup pn s) st l).
Proof. intros Hok. apply foldl_inv; [|done]. intros s pn. apply cleanup_ok. Qed.

Lemma promise_settled_ok p st : registry_ok st → registry_ok (promise_settled p st).
Proof.
  intros Hok. pose proof (promise_settled_fields p st) as [He Hg].
  pose proof (ok_pending_keys _ (fold_cleanup_ok (filter (λ pn, pn.1 = p) (cleanups st)) st Hok)) as Hk.
  change (NoDup (JsMap.keys (pendingReady (promise_settled p st)))) in Hk.
  rewrite He in Hg, Hk |- *. destruct Hok. constructor; simpl; try done.
  intros n q. simpl in Hg. rewrite Hg. destruct (JsMap.get n (pendingReady st)) as [q'|] eqn:Hq; [|done].
  case_decide as Hd; [done|]. intros [= ->]. apply ok_pending0 in Hq as [Hn Hc]. split; [done|].
  apply list_elem_of_filter. naive_solver.
Qed.

(** *** Joining *)
Lemma with_bus_ok lh rs ps st : registry_ok st → remote_ok rs →
  (∀ n, learned_from n rs → n ∈ names st) → registry_ok (with_bus lh rs ps st).
Proof. intros [] Hr Hl. by constructor. Qed.

Lemma replace_keeps name st : registeredTransports (replace ns name st) = registeredTransports st.
Proof. unfold replace. by destruct (JsMap.get name (registeredTransports st)). Qed.

(** A registration of a name that is not registered. *)
Lemma admit_ok name t rs st : registry_ok st → name ∉ names st → NoDup (JsMap.keys rs) →
  (∀ n, JsMap.get n rs = if decide (name = n) then Some {| rg_transport := t; rg_id := nextId st |}
                         else JsMap.get n (registeredTransports st)) →
  registry_ok (with_syncs (JsMap.set (nextId st) (t, name) (syncs st)) (abortedSyncs st) (handshakes st)
    (with_attached (JsMap.set t name (attached st))
      (with_registered rs (with_listeners (JsMap.set (nextId st) (t, name) (listeners st)) (S (nextId st)) st)))).
Proof.
  intros Hok Habs Hnd Hget.
  assert (∀ n t' id', registered_as n t' id' st → (id' < nextId st)%nat) as Hlt.
  { intros n t' id' Hn. apply (ok_fresh _ Hok). left. exists (t', n). by apply (ok_listeners _ Hok). }
  assert (∀ n, n ∈ names st → n ∈ JsMap.keys rs) as Hsub.
  { intros n (t' & id' & Hn)%names_registered. destruct (decide (n ∈ JsMap.keys rs)) as [|Hni]; [done|].
    apply JsMap.get_None in Hni. rewrite Hget in Hni. unfold registered_as in Hn. case_decide; congruence. }
  assert (name ∈ JsMap.keys rs) as Hin.
  { destruct (decide (name ∈ JsMap.keys rs)) as [|Hni]; [done|]. apply JsMap.get_None in Hni.
    by rewrite Hget, decide_True in Hni. }
  destruct Hok. constructor; simpl; try done.
  - intros i t' n. unfold registered_as in *. simpl. rewrite JsMap.get_set, Hget.
    destruct (decide (nextId st = i)) as [<-|Hi]; [|rewrite ok_listeners0; case_decide; [|done]].
    + case_decide; [naive_solver|]. split; [naive_solver|]. intros Hn%Hlt. lia.
    + subst. split; [|naive_solver]. intros Hn%registered_name. done.
  - by apply JsMap.NoDup_keys_set.
  - intros i. rewrite !JsMap.get_set. destruct (decide (nextId st = i)); [lia|]. intros Hi%ok_fresh0. lia.
  - intros n p Hp%ok_pending0. unfold names. simpl. naive_solver.
  - intros t' n. unfold registered_as. simpl. rewrite JsMap.get_set, Hget. case_decide.
    + intros [= <-]. subst. exists (nextId st). by rewrite decide_True.
    + intros [id' Hn]%ok_attached0. exists id'. rewrite decide_False; [done|]. intros ->. by apply registered_name in Hn.
  - intros n t' id'. unfold registered_as. simpl. rewrite Hget. case_decide; [|by apply ok_live0].
    intros [= <- <-] Ha. pose proof (ok_fresh0 (nextId st)) as Hf. naive_solver lia.
  - intros i t' n. unfold registered_as. simpl. rewrite JsMap.get_set, Hget. case_decide.
    + intros [= <- <-] _. subst. by rewrite decide_True.
    + intros Hs Ha. specialize (ok_syncs0 _ _ _ Hs Ha). rewrite decide_False; [done|].
      intros ->. by apply registered_name in ok_syncs0.
  - intros n Hn%ok_learned0. by apply Hsub.
Qed.

Lemma registerTransport_eq name t ready st :
  ∃ ps, registerTransport ns name t ready st =
    with_bus (locals (dropped name st)) (remotes (dropped name st)) ps
      (trackPendingReady name ready
        (let d := dropped name st in
         with_syncs (JsMap.set (nextId d) (t, name) (syncs d)) (abortedSyncs d) (handshakes d)
          (with_attached (JsMap.set t name (attached d))
            (with_registered (JsMap.set name {| rg_transport := t; rg_id := nextId d |} (registeredTransports st))
              (with_listeners (JsMap.set (nextId d) (t, name) (listeners d)) (S (nextId d)) d))))).
Proof.
  unfold registerTransport, dropped. rewrite <- (replace_keeps name st).
  destruct ready; eexists; reflexivity.
Qed.

Lemma registerTransport_ok name t ready st : registry_ok st → registry_ok (registerTransport ns name t ready st).
Proof.
  intros Hok. destruct (registerTransport_eq name t ready st) as [ps ->]. pose proof (dropped_ok name st Hok) as Hd.
  assert (registry_ok (let d := dropped name st in
    with_syncs (JsMap.set (nextId d) (t, name) (syncs d)) (abortedSyncs d) (handshakes d)
     (with_attached (JsMap.set t name (attached d))
      (with_registered (JsMap.set name {| rg_transport := t; rg_id := nextId d |} (registeredTransports st))
       (with_listeners (JsMap.set (nextId d) (t, name) (listeners d)) (S (nextId d)) d))))) as Ha.
  { apply admit_ok; [done|apply dropped_absent|apply JsMap.NoDup_keys_set, (ok_names _ Hok)|].
    intros n. rewrite JsMap.get_set. simpl. rewrite JsMap.get_delete. by case_decide. }
  assert (registry_ok (trackPendingReady name ready (let d := dropped name st in
    with_syncs (JsMap.set (nextId d) (t, name) (syncs d)) (abortedSyncs d) (handshakes d)
     (with_attached (JsMap.set t name (attached d))
      (with_registered (JsMap.set name {| rg_transport := t; rg_id := nextId d |} (registeredTransports st))
       (with_listeners (JsMap.set (nextId d) (t, name) (listeners d)) (S (nextId d)) d)))))) as Ht.
  { apply trackPendingReady_ok; [|exact Ha]. unfold names. simpl. apply JsMap.elem_keys_set. by left. }
  apply with_bus_ok; [exact Ht|exact (ok_remote _ Hd)|].
  intros n Hn. pose proof (ok_learned _ Ht n) as Hl. apply Hl. by destruct ready.
Qed.

(** Leaving for good: what [unregister] does when it acts. *)
Lemma unregister_eq name t id st : registered_as name t id st →
  ∃ ps, unregister ns name t st = with_bus (locals st) (remotes (dropped name st)) ps (dropped name st).
Proof.
  intros Hr. unfold unregister, dropped, replace. rewrite Hr. simpl. rewrite decide_True by done. eexists.
  unfold apply_pushes, with_bus. simpl. by rewrite !purge_remote.
Qed.

Lemma unregister_other name t st : (∀ id, ¬ registered_as name t id st) → unregister ns name t st = st.
Proof.
  intros Hn. unfold unregister. destruct (JsMap.get name _) as [[t' id]|] eqn:Hr; [|done]. simpl.
  case_decide as Ht; [|done]. subst. by destruct (Hn id).
Qed.

Lemma unregister_cases name t st :
  (∃ id, registered_as name t id st) ∨ (∀ id, ¬ registered_as name t id st).
Proof.
  unfold registered_as. destruct (JsMap.get name _) as [[t' id]|]; [|by right].
  destruct (decide (t' = t)) as [->|]; [left; by exists id|right; intros id'; congruence].
Qed.

Lemma unregister_ok name t st : registry_ok st → registry_ok (unregister ns name t st).
Proof.
  intros Hok. destruct (unregister_cases name t st) as [[id Hr]|Hn]; [|by rewrite unregister_other].
  destruct (unregister_eq name t id st Hr) as [ps ->]. pose proof (dropped_ok name st Hok) as Hd.
  apply with_bus_ok; [done|apply (ok_remote _ Hd)|apply (ok_learned _ Hd)].
Qed.

(** *** The other steps *)
Lemma handleSubscription_ok name m st : name ∈ names st → registry_ok st →
  registry_ok (handleSubscriptionMessage ns name m st) ∧
  registeredTransports (handleSubscriptionMessage ns name m st) = registeredTransports st.
Proof.
  intros Hn Hok. destruct m as [| |m|ss]; try done; (split; [|done]); apply with_bus_ok; try done; simpl.
  - eapply remote_ok_step; [apply (ok_remote _ Hok)|apply step_subscribe].
  - intros n [->|Hl]%learned_subscribe; [done|]. by apply (ok_learned _ Hok).
  - eapply remote_ok_step; [apply (ok_remote _ Hok)|apply step_unsubscribe].
  - intros n Hl%learned_unsubscribe. by apply (ok_learned _ Hok).
Qed.

Lemma receive_ok t m st : registry_ok st → registry_ok (receive ns t m st).
Proof.
  intros Hok. unfold receive.
  assert (Forall (λ l : nat * (nat * string), l.2.2 ∈ names st) (filter (λ l, l.2.1 = t) (listeners st))) as Hall.
  { apply Forall_forall. intros [i [t' n]] [_ Hin]%list_elem_of_filter.
    apply (JsMap.elem_get _ _ _ (ok_listener_keys _ Hok)) in Hin. apply (ok_listeners _ Hok) in Hin.
    by eapply registered_name. }
  revert Hall. generalize (filter (λ l : nat * (nat * string), l.2.1 = t) (listeners st)). intros ls Hls.
  revert st Hok Hls. induction ls as [|[i [t' n]] ls IH]; intros st Hok Hls; [done|]. simpl.
  inversion_clear Hls as [|? ? Hn Hls']. destruct (handleSubscription_ok n m st Hn Hok) as [Hok' Hr].
  apply IH; [done|]. unfold names. by rewrite Hr.
Qed.

Lemma sync_settled_ok id ready declares st : registry_ok st → registry_ok (sync_settled ns id ready declares st).
Proof.
  intros Hok. unfold sync_settled. destruct (JsMap.get id (syncs st)) as [[t n]|]; [|done].
  destruct Hok. constructor; simpl; try done.
  - intros i Hi. apply ok_fresh0. rewrite JsMap.get_delete in Hi. case_decide; naive_solver.
  - intros i t' n'. rewrite JsMap.get_delete. case_decide; [done|]. apply ok_syncs0.
Qed.

Lemma registry_step_ok st st' : registry_ok st → registry_step ns st st' → registry_ok st'.
Proof.
  intros Hok. destruct 1 as [name t ready st|name t st|p st|t p st|t st|t st|st|t m st|id ready d st|lh ps st].
  - by apply registerTransport_ok.
  - by apply unregister_ok.
  - by apply promise_settled_ok.
  - unfold onNewReadySession. destruct (JsMap.get t (attached st)) as [n|] eqn:Ha; [|done].
    apply trackPendingReady_ok; [|done]. apply (ok_attached _ Hok) in Ha as [id Ha]. by eapply registered_name.
  - unfold onConnected, lifecycle_event. repeat case_match; try done. destruct Hok. by constructor.
  - unfold onDisconnected, lifecycle_event. repeat case_match; try done. destruct Hok. by constructor.
  - destruct Hok. by constructor.
  - by apply receive_ok.
  - by apply sync_settled_ok.
  - apply with_bus_ok; [done|apply (ok_remote _ Hok)|apply (ok_learned _ Hok)].
Qed.

Lemma registry_reachable_ok lh st : rtc (registry_step ns) (createTransportRegistry lh empty_remote) st → registry_ok st.
Proof.
  intros Hst. apply (@rtc_ind_r _ (registry_step ns) registry_ok _ (initial_ok lh)); [|done].
  intros st1 st2 _ Hstep Hok. by eapply registry_step_ok.
Qed.
End invariant.

(** ** Theorems *)
Section properties.
Context {H : Type} `{EqDecision H} (ns : NamespaceRegistry) (lh : @BusHandlers H).
Notation start := (createTransportRegistry lh empty_remote).
Implicit Types (st : RegistryState H) (name : string) (t p id : nat).

(** C21: Whatever is registered, replaced, unregistered, received and settled
    in whatever order: the bus listens to a transport exactly for the names it
    is registered under now, waits only for registered transports, gives a
    callback only to a transport registered under the name it reports, and has
    learned subscriptions only from registered transports. *)
Theorem registry_consistent st (Hst : rtc (registry_step ns) start st) :
  (∀ id t name, JsMap.get id (listeners st) = Some (t, name) ↔ registered_as name t id st) ∧
  (∀ name p, (name, p) ∈ getPendingReadyEntries None st → name ∈ names st) ∧
  (∀ t name, JsMap.get t (attached st) = Some name → getTransport name st = Some t) ∧
  (∀ s e, e ∈ entriesOf (remotes st) s → re_transport e ∈ names st) ∧
  (∀ s name, name ∈ eventsOf (remotes st) s → name ∈ names st).
Proof.
  apply registry_reachable_ok in Hst. destruct Hst. destruct ok_remote0 as [_ Hp]. split_and!.
  - done.
  - intros name p Hin. apply (JsMap.elem_get _ _ _ ok_pending_keys0) in Hin. by apply ok_pending0 in Hin as [? _].
  - intros t name [id Ht]%ok_attached0. unfold getTransport. unfold registered_as in Ht. by rewrite Ht.
  - intros s e He. apply ok_learned0. exists s. by apply (prov_requests _ _ (Hp s)).
  - intros s name Hn. apply ok_learned0. exists s. by apply (prov_events _ _ (Hp s)).
Qed.

(** When a ready promise settles the bus stops waiting for exactly the
    transports whose latest session it was: a late settlement of a replaced
    transport or of an earlier session changes nothing. *)
Theorem settlement_clears_exactly st (Hst : rtc (registry_step ns) start st) p name q :
  (name, q) ∈ getPendingReadyEntries None (promise_settled p st) ↔
  (name, q) ∈ getPendingReadyEntries None st ∧ q ≠ p.
Proof.
  apply registry_reachable_ok in Hst. pose proof (promise_settled_ok p st Hst) as Hst'.
  unfold getPendingReadyEntries, collectPendingReady.
  rewrite <- !JsMap.get_elem_iff by (by eapply ok_pending_keys).
  destruct (promise_settled_fields p st) as [_ Hg]. rewrite Hg.
  destruct (JsMap.get name (pendingReady st)) as [q'|] eqn:Hq; [|naive_solver].
  apply (ok_pending _ Hst) in Hq as [_ Hc]. case_decide; naive_solver.
Qed.

(** Unregistering the current transport of a name releases it: nothing is
    received, waited for or reported for it, no route to it is left, its initial
    sync sends no handshake any more, and the other registrations are as they
    were. *)
Theorem unregister_releases st (Hst : rtc (registry_step ns) start st) name t id
    (Hr : registered_as name t id st) :
  let st' := unregister ns name t st in
  (∀ n, getTransport n st' = if decide (n = name) then None else getTransport n st) ∧
  (∀ i l, JsMap.get i (listeners st') = Some l → l.2 ≠ name) ∧
  (∀ n p, (n, p) ∈ getPendingReadyEntries None st' ↔ n ≠ name ∧ (n, p) ∈ getPendingReadyEntries None st) ∧
  JsMap.get t (attached st') = None ∧
  (∀ s e, e ∈ entriesOf (remotes st') s → re_transport e ≠ name) ∧ (∀ s, name ∉ eventsOf (remotes st') s) ∧
  (∀ r d, handshakes (sync_settled ns id r d st') = handshakes st').
Proof.
  apply registry_reachable_ok in Hst. intros st'. pose proof (unregister_ok ns name t st Hst) as Hok.
  destruct (unregister_eq ns name t id st Hr) as [ps E]. fold st' in Hok, E.
  assert (name ∉ names st') as Hno by (rewrite E; apply dropped_absent).
  destruct (ok_remote _ Hok) as [_ Hp]. split_and!.
  - intros n. rewrite E. unfold getTransport. simpl. rewrite JsMap.get_delete. repeat case_decide; naive_solver.
  - intros i [t' n] Hi. apply (ok_listeners _ Hok), registered_name in Hi. naive_solver.
  - intros n p. unfold getPendingReadyEntries, collectPendingReady.
    rewrite <- !JsMap.get_elem_iff by (by eapply ok_pending_keys).
    assert (pendingReady st' = JsMap.delete name (pendingReady st)) as ->.
    { rewrite E. unfold dropped, replace. rewrite Hr. done. }
    rewrite JsMap.get_delete. case_decide; naive_solver.
  - rewrite E. unfold dropped, replace. rewrite Hr. simpl. apply JsMap.get_delete_eq.
  - intros s e He. assert (learned_from (re_transport e) (remotes st')) as Hl%(ok_learned _ Hok)
      by (exists s; by apply (prov_requests _ _ (Hp s))). naive_solver.
  - intros s He. apply Hno, (ok_learned _ Hok). exists s. by apply (prov_events _ _ (Hp s)).
  - intros r d. unfold sync_settled. destruct (JsMap.get id (syncs st')) as [[t' n]|]; [|done].
    rewrite bool_decide_false; [done|]. intros Hni. apply Hni. rewrite E. unfold dropped, replace. rewrite Hr.
    simpl. apply elem_of_app. right. by apply list_elem_of_singleton.
Qed.

(** The handshake that ends an initial sync goes only to a transport that
    is still registered by the registration the sync belongs to. *)
Theorem handshake_for_current_registration st (Hst : rtc (registry_step ns) start st) st'
    (Hstep : registry_step ns st st') t id :
  (t, id) ∈ handshakes st' → (t, id) ∈ handshakes st ∨ ∃ name, registered_as name t id st.
Proof.
  apply registry_reachable_ok in Hst.
  assert (∀ n r (s : RegistryState H), handshakes (trackPendingReady n r s) = handshakes s) as Htrack by (intros ? []; done).
  destruct Hstep as [name t' ready st|name t' st|p st|t' p st|t' st|t' st|st|t' m st|id' ready d st|lh' ps st].
  - destruct (registerTransport_eq ns name t' ready st) as [ps ->]. cbn [handshakes with_bus]. rewrite Htrack. simpl.
    unfold replace. destruct (JsMap.get name _); by left.
  - destruct (unregister_cases name t' st) as [[i Hr]|Hn]; [|rewrite unregister_other by done; by left].
    destruct (unregister_eq ns name t' i st Hr) as [ps ->]. simpl. unfold replace. destruct (JsMap.get name _); by left.
  - destruct (promise_settled_fields p st) as [-> _]. by left.
  - unfold onNewReadySession. destruct (JsMap.get t' _); by left.
  - unfold onConnected, lifecycle_event. repeat case_match; by left.
  - unfold onDisconnected, lifecycle_event. repeat case_match; by left.
  - by left.
  - unfold receive. apply (foldl_inv (λ s, (t, id) ∈ handshakes s → _)); [|by left].
    intros s l IH. by destruct m.
  - unfold sync_settled. destruct (JsMap.get id' (syncs st)) as [[t1 n]|] eqn:Hs; [|by left]. simpl.
    destruct (bool_decide (id' ∉ _)) eqn:Ha; [|by left]. apply bool_decide_eq_true in Ha.
    case_match; [|by left]. intros [?|[= -> ->]%list_elem_of_singleton]%elem_of_app; [by left|].
    right. exists n. by apply (ok_syncs _ Hst).
  - by left.
Qed.
End properties.

(** *** Witnesses *)
Definition demo_namespaces : NamespaceRegistry :=
  {| listRegisteredSubjects := []; hostLocalRequestSubjects := []; collectorOnlySubjects := []; defaultTransportsMap := [] |}.
Definition demo_locals : @BusHandlers nat := {| events := []; requests := addToHandlerMap [] "a.b" 1%nat 5 |}.
Definition demo_start : RegistryState nat := createTransportRegistry demo_locals empty_remote.

(** Two transports; the one at [a] announces a subject; after a reconnection
    it is replaced. *)
Definition demo_one : RegistryState nat := registerTransport demo_namespaces "a" 1 (Some 10%nat) demo_start.
Definition demo_two : RegistryState nat := registerTransport demo_namespaces "b" 2 None demo_one.
Definition demo_joined : RegistryState nat := receive demo_namespaces 1 (ISubscribe announce) demo_two.
Definition demo_replaced : RegistryState nat := registerTransport demo_namespaces "a" 3 (Some 11%nat) demo_joined.

Lemma demo_joined_reachable : rtc (registry_step demo_namespaces) demo_start demo_joined.
Proof.
  exact (rtc_l _ _ demo_one _ (step_register _ "a" 1 (Some 10%nat) demo_start)
    (rtc_l _ _ demo_two _ (step_register _ "b" 2 None demo_one)
      (rtc_once _ _ (step_receive _ 1 (ISubscribe announce) demo_two)))).
Qed.

Lemma demo_replaced_reachable : rtc (registry_step demo_namespaces) demo_start demo_replaced.
Proof. exact (rtc_r _ _ _ demo_joined_reachable (step_register _ "a" 3 (Some 11%nat) demo_joined)). Qed.

Example demo_routes :
  entriesOf (remotes demo_joined) "a.b" = [Build_RemoteEntry "a" 7; Build_RemoteEntry "a" 3] ∧
  entriesOf (remotes demo_replaced) "a.b" = [] ∧ names demo_replaced = ["a"; "b"].
Proof. vm_compute. done. Qed.

Lemma registry_consistent_witness : Build_RemoteEntry "a" 7 ∈ entriesOf (remotes demo_joined) "a.b" ∧ "a" ∈ names demo_joined.
Proof.
  assert (Build_RemoteEntry "a" 7 ∈ entriesOf (remotes demo_joined) "a.b") as He by (apply (bool_decide_unpack _); vm_compute; exact I).
  split; [exact He|].
  exact (proj1 (proj2 (proj2 (proj2 (registry_consistent demo_namespaces demo_locals demo_joined demo_joined_reachable)))) _ _ He).
Defined.

(** The promise of the replaced transport settles late. *)
Lemma settlement_clears_exactly_witness : ("a", 11%nat) ∈ getPendingReadyEntries None (promise_settled 10 demo_replaced).
Proof.
  apply (settlement_clears_exactly demo_namespaces demo_locals demo_replaced demo_replaced_reachable 10 "a" 11).
  split; [apply (bool_decide_unpack _); vm_compute; exact I|discriminate].
Defined.

Lemma unregister_releases_witness :
  getTransport "a" demo_joined = Some 1%nat ∧ getTransport "a" (unregister demo_namespaces "a" 1 demo_joined) = None.
Proof.
  split; [reflexivity|].
  exact (proj1 (unregister_releases demo_namespaces demo_locals demo_joined demo_joined_reachable "a" 1 0 eq_refl) "a").
Defined.

Lemma handshake_for_current_registration_witness :
  (3%nat, 2%nat) ∈ handshakes (sync_settled demo_namespaces 2 None true demo_replaced) ∧
  ∃ name, registered_as name 3 2 demo_replaced.
Proof.
  assert ((3%nat, 2%nat) ∈ handshakes (sync_settled demo_namespaces 2 None true demo_replaced)) as Hin
    by (apply (bool_decide_unpack _); vm_compute; exact I).
  split; [exact Hin|].
  destruct (handshake_for_current_registration demo_namespaces demo_locals demo_replaced demo_replaced_reachable
    _ (step_synced _ 2 None true _) 3 2 Hin) as [Hno|Hyes]; [|exact Hyes].
  exfalso. revert Hno. apply (bool_decide_unpack _). vm_compute. exact I.
Defined.

(** The closure of an earlier registration of the same object removes the
    later one: [current?.transport === transport] cannot tell them apart. *)
Lemma stale_unregister_removes_later_registration :
  let twice := registerTransport demo_namespaces "a" 1 None (registerTransport demo_namespaces "a" 1 None demo_start) in
  registered_as "a" 1 1 twice ∧ names (unregister demo_namespaces "a" 1 twice) = [] ∧
  listeners (unregister demo_namespaces "a" 1 twice) = [].
Proof. vm_compute. done. Qed.
