(* ===== verification/Ingress.v ===== *)
(** * What comes in: events, requests and broadcasts from a transport

    The receiving half of [core/bus-core/src/registries/transport-registry.ts]
    and [core/bus-core/src/methods/broadcast.ts].  An inbound event is relayed
    and then emitted ([Events]); an inbound request is dispatched ([Dispatch])
    and answered; a broadcast asks every local handler and every other transport
    and merges the answers.

    One world carries the acts of all of them.  A call of a transport gives a
    promise, that is a delay and a settlement; a broadcast handler is a program
    over its context.  Answers that come at the same instant are merged in the
    order in which they were asked for. *)
From S2P Require Import Prelude JsValue Subjects Filters Handlers Errors Remote Dispatch Events.

(** ** Messages *)
(** A message has a subject and a namespace, unless it is malformed. *)
Record IncomingEvent := {
  ie_subject : option string; ie_namespace : option string; ie_payload : value;
  ie_messageId : string; ie_correlationId : option string
}.

Record IncomingRequest := {
  ir_subject : option string; ir_namespace : option string; ir_payload : value;
  ir_messageId : string; ir_correlationId : string;
  ir_timeout : option Z; ir_priority : option Z; ir_readinessTimeout : option Z
}.

Record BroadcastMessage := {
  bm_subject : option string; bm_namespace : option string; bm_payload : value;
  bm_messageId : string; bm_correlationId : string; bm_timeout : option Z
}.

Record BroadcastResult := { nodeId : string; br_payload : value }.

(** What is sent back to the transport a message came from. *)
Inductive Reply :=
  | Response (correlationId : string) (result : value)
  | ErrorResponse (correlationId : string) (error : BusTransportError)
  | OnBroadcastResults (correlationId : string) (results : list BroadcastResult) (error : option BusTransportError)
  | BroadcastResponse (correlationId : string) (results : option (list BroadcastResult)) (error : option BusTransportError).

(** ** Worlds *)
Record BroadcastContext := {
  bc_payload : value; bc_messageId : string; bc_correlationId : string; bc_remote : bool
}.

Inductive IAct (H : Type) :=
  | Routed (e : Event H)
  | Evented (a : Act H)
  | Asked (h : H) (ctx : BroadcastContext)
  | Relayed (transport : string) (m : BroadcastMessage)
  | Replied (transport : string) (r : Reply).
Arguments Routed {H}. Arguments Evented {H}. Arguments Asked {H}. Arguments Relayed {H}. Arguments Replied {H}.

Record IWorld (H : Type) := { i_now : Z; i_fresh : nat; i_acts : list (Z * IAct H) }.
Arguments i_now {_}. Arguments i_fresh {_}. Arguments i_acts {_}. Arguments Build_IWorld {_}.

Section world.
Context {H : Type}.
Implicit Types (w : IWorld H).

Definition did (a : IAct H) w : IWorld H :=
  {| i_now := i_now w; i_fresh := i_fresh w; i_acts := i_acts w ++ [(i_now w, a)] |}.

Definition request_view w : World H :=
  {| now := i_now w; fresh := i_fresh w;
     trace := omap (λ ta, match ta.2 with Routed e => Some (ta.1, e) | _ => None end) (i_acts w) |}.

Definition event_view w : BusWorld (Act H) :=
  {| clock := i_now w; acts := omap (λ ta, match ta.2 with Evented e => Some (ta.1, e) | _ => None end) (i_acts w) |}.

(** Run a computation of [Dispatch] or of [Events]; its new acts are added. *)
Definition on_request {A} (m : ST (World H) thrown A) : ST (IWorld H) thrown A := λ w,
  let '(o, w') := m (request_view w) in
  (o, {| i_now := now w'; i_fresh := fresh w';
         i_acts := i_acts w ++ map (λ te, (te.1, Routed te.2)) (drop (List.length (trace (request_view w))) (trace w')) |}).

Definition on_events {A} (m : ST (BusWorld (Act H)) thrown A) : ST (IWorld H) thrown A := λ w,
  let '(o, w') := m (event_view w) in
  (o, {| i_now := clock w'; i_fresh := i_fresh w;
         i_acts := i_acts w ++ map (λ te, (te.1, Evented te.2)) (drop (List.length (acts (event_view w))) (acts w')) |}).

Definition new_error (mk : nat → thrown) : ST (IWorld H) thrown thrown := λ w,
  (Ok (mk (i_fresh w)), {| i_now := i_now w; i_fresh := S (i_fresh w); i_acts := i_acts w |}).

Definition after {A} (p : Pending A) : ST (IWorld H) thrown A := λ w,
  (settled p, {| i_now := i_now w + Z.of_nat (settles_after p); i_fresh := i_fresh w; i_acts := i_acts w |}).

Definition try_catch {A} (m : ST (IWorld H) thrown A) (handle : thrown → ST (IWorld H) thrown A) : ST (IWorld H) thrown A := λ w,
  match m w with (Throw e, w') => handle e w' | r => r end.
End world.

(** ** Broadcast handlers *)
Inductive BProg :=
  | BReturn
  | BThrow (e : thrown)
  | BIdentify (id : string) (k : BProg)
  | BSetResult (v : value) (k : BProg)
  | BExtendResult (extension : list (string * value)) (k : BProg)
  | BRead (k : option value → BProg)             (* [ctx.result] *)
  | BWait (milliseconds : nat) (k : BProg).

(** [Object.assign(v, extension)]: null and undefined cannot be extended, and
    other primitives are left as they are; results are not arrays. *)
Definition object_assign (v : value) (extension : list (string * value)) : option value :=
  match v with
  | VUndef | VNull => None
  | VObj fields => Some (VObj (JsMap.assign fields extension))
  | v => Some v
  end.

Record BroadcastState := { bs_node : string; bs_entry : option BroadcastResult }.

(** The handler, through the context [createBroadcastContext] gives it: whether
    it returns, the entry it has pushed and the time it took.  The pushed entry
    holds the result object, so that later extensions show in it. *)
Fixpoint run_broadcast (p : BProg) (s : BroadcastState) : bool * option BroadcastResult * nat :=
  match p with
  | BReturn => (true, bs_entry s, 0%nat)
  | BThrow _ => (false, bs_entry s, 0%nat)
  | BIdentify id k => run_broadcast k {| bs_node := id; bs_entry := bs_entry s |}
  | BSetResult v k =>
      run_broadcast k {| bs_node := bs_node s;
        bs_entry := match bs_entry s with None => Some {| nodeId := bs_node s; br_payload := v |} | e => e end |}
  | BExtendResult ext k =>
      match bs_entry s with
      | None => run_broadcast k {| bs_node := bs_node s;
                  bs_entry := Some {| nodeId := bs_node s; br_payload := VObj (JsMap.assign [] ext) |} |}
      | Some e => match object_assign (br_payload e) ext with
                  | None => (false, bs_entry s, 0%nat)
                  | Some v => run_broadcast k {| bs_node := bs_node s;
                                bs_entry := Some {| nodeId := nodeId e; br_payload := v |} |}
                  end
      end
  | BRead k => run_broadcast (k (br_payload <$> bs_entry s)) s
  | BWait ms k => let '(r, t) := run_broadcast k s in (r, (ms + t)%nat)
  end.

(** A transport, as a broadcast uses it. *)
Record BroadcastTransport := {
  bt_isReady : option bool;
  bt_canSend : BroadcastMessage → option bool;
  bt_send : BroadcastMessage → Z → Pending (list BroadcastResult)
}.
#[export] Instance broadcast_gate : TransportGate BroadcastTransport BroadcastMessage :=
  {| gate_isReady := bt_isReady; gate_canSend := bt_canSend |}.

(** ** What the bus consults *)
Record IngressEnvironment (H : Type) := {
  localSubjects : list string;
  requestEnv : Environment H;
  eventEnv : EventEnvironment H;
  broadcastHandler : H → BroadcastContext → BProg;
  requestHandlersNow : IWorld H → list (string * list (HandlerEntry H));
  broadcastTransports : IWorld H → list (string * BroadcastTransport);
  validateRequestPayload : string → value → option thrown;
  validateResponsePayload : string → value → option thrown;
  hasBroadcastSeam : string → bool;                 (* [onBroadcastResults] *)
  reply_to : IWorld H → string → Reply → Pending unit
}.
Arguments localSubjects {_}. Arguments requestEnv {_}. Arguments eventEnv {_}. Arguments broadcastHandler {_}.
Arguments requestHandlersNow {_}. Arguments broadcastTransports {_}. Arguments validateRequestPayload {_}.
Arguments validateResponsePayload {_}. Arguments hasBroadcastSeam {_}. Arguments reply_to {_}.

Record BroadcastOptions := {
  bo_messageId : string; bo_correlationId : string; bo_timeout : option Z; bo_signal : option AbortSignal;
  bo_transports : option (list string); bo_remote : bool
}.

Definition getSubjectFromBusMessage (subject namespace : option string) : option string :=
  match subject, namespace with
  | Some s, Some n => Some (n +:+ "." +:+ s)
  | _, _ => None
  end.

Definition resolveSubjectDefinition (subject namespace : option string) (isReq : bool) : SubjectDefinition :=
  {| Handlers.subject := default "" subject; Handlers.namespace := default "" namespace; isRequest := isReq |}.

(** The [$meta] of a definition made from a message. *)
Definition wire_meta : SubjectMeta := {| meta_local := false; meta_defaultTransports := None |}.

Definition LocalSubjectError (subject : string) : nat → thrown :=
  BusError ErrorClass "LocalSubjectError"
    ("Subject " +:+ quoted subject +:+ " is local-only and cannot be invoked over a transport. " +:+
     "Register a non-local handler on each node that needs to respond to this subject.") subject None [].

Definition anchorRequestDeadline (timeout : Z) (now : Z) : option Z :=
  if bool_decide (0 < timeout) then Some (now + timeout) else None.

Definition resolveInboundReadinessTimeout (readinessTimeout : option Z) : option Z :=
  match readinessTimeout with Some r => if bool_decide (0 ≤ r) then Some r else None | None => None end.

Section ingress.
Context {R : JsRealm} {H : Type} (env : IngressEnvironment H).
Notation W := (IWorld H).
Notation M := (ST W thrown).
Notation ns := (namespacesOf (eventEnv env)).

(** ** Broadcast *)
Definition executeLocalBroadcastHandler (h : H) (ctx : BroadcastContext) (fullSubjectKey : string) :
    Pending (list BroadcastResult) :=
  let '(returned, entry, t) := run_broadcast (broadcastHandler env h ctx) {| bs_node := "anonymous"; bs_entry := None |} in
  {| settles_after := t;
     settled := if negb returned then Ok []
                else match entry with
                     | None => Ok []
                     | Some e => match validateResponsePayload env fullSubjectKey (br_payload e) with
                                 | Some err => Throw err
                                 | None => Ok [e]
                                 end
                     end |}.

(** The loop over the answers of a transport ends at the first invalid one. *)
Fixpoint valid_results (fullSubjectKey : string) (results : list BroadcastResult) : list BroadcastResult :=
  match results with
  | [] => []
  | r :: rest => match validateResponsePayload env fullSubjectKey (br_payload r) with
                 | Some _ => []
                 | None => r :: valid_results fullSubjectKey rest
                 end
  end.

Definition transport_answer (fullSubjectKey : string) (p : Pending (list BroadcastResult)) : Pending (list BroadcastResult) :=
  {| settles_after := settles_after p;
     settled := Ok match settled p with Ok results => valid_results fullSubjectKey results | Throw _ => [] end |}.

(** The array into which each promise pushes its results when it settles. *)
Definition collected (ps : list (Pending (list BroadcastResult))) : list BroadcastResult :=
  List.concat (map (λ p, match settled p with Ok rs => rs | Throw _ => [] end)
    (js_sort (λ p q, (settles_after p <=? settles_after q)%nat) ps)).

(** [awaitWithTimeoutAndSignal], and the [catch] around it, as a promise. *)
Definition await_results (subject : string) (op : Pending (list BroadcastResult)) (timeout : Z)
    (signal : option AbortSignal) (w : W) : Pending (list BroadcastResult) * W :=
  let '(o, w') := awaitWithTimeoutAndSignal op timeout signal (request_view w) in
  ({| settles_after := Z.to_nat (now w' - i_now w);
      settled := match o with
                 | Throw error => Throw (if instanceof error PTimeoutErrorClass &&
                                            negb (isRequestCancellation error (aborted signal w'))
                                         then TimeoutError subject timeout (fresh w') else error)
                 | Ok results => Ok results
                 end |},
   {| i_now := i_now w; i_fresh := S (fresh w'); i_acts := i_acts w |}).

Definition broadcast_message (sd : SubjectDefinition) (payload : value) (o : BroadcastOptions) : BroadcastMessage :=
  {| bm_subject := Some (subject sd); bm_namespace := Some (namespace sd); bm_payload := payload;
     bm_messageId := bo_messageId o; bm_correlationId := bo_correlationId o;
     bm_timeout := Some (default DEFAULT_REQUEST_TIMEOUT_MS (bo_timeout o)) |}.

Definition broadcast_context (payload : value) (o : BroadcastOptions) : BroadcastContext :=
  {| bc_payload := payload; bc_messageId := bo_messageId o; bc_correlationId := bo_correlationId o;
     bc_remote := bo_remote o |}.

Definition broadcast_targets (sd : SubjectDefinition) (meta : SubjectMeta) (payload : value) (o : BroadcastOptions)
    (w : W) : list (string * BroadcastTransport) :=
  let message := broadcast_message sd payload o in
  let effectiveTransports :=
    resolveEffectiveTransports ns meta (getFullSubjectForSubjectDefinition sd) (bo_transports o) in
  match effectiveTransports with
  | None => if meta_local meta then [] else getReadyTransports (broadcastTransports env w) None (Some message)
  | Some _ => normalizeTransportTargets ns (broadcastTransports env w) effectiveTransports sd meta (Some message)
  end.

(** What [broadcast] does before it first gives up control, and its promise. *)
Definition broadcast (sd : SubjectDefinition) (meta : SubjectMeta) (payload : value) (o : BroadcastOptions) (w : W) :
    Pending (list BroadcastResult) * W :=
  let key := getFullSubjectForSubjectDefinition sd in
  let timeout := default DEFAULT_REQUEST_TIMEOUT_MS (bo_timeout o) in
  match validateRequestPayload env key payload with
  | Some e => ({| settles_after := 0; settled := Throw e |}, w)
  | None =>
      let ctx := broadcast_context payload o in
      let message := broadcast_message sd payload o in
      let handlers := getMatchingHandlers (requestHandlersNow env w) key in
      let targets := broadcast_targets sd meta payload o w in
      let w := foldl (λ w h, did (Asked h ctx) w) w handlers in
      let w := foldl (λ w t, did (Relayed t message) w) w (map fst targets) in
      let localPromises := map (λ h, executeLocalBroadcastHandler h ctx key) handlers in
      let transportPromises := map (λ nt, transport_answer key (bt_send nt.2 message timeout)) targets in
      let promises := localPromises ++ transportPromises in
      let all := promise_all promises in
      await_results (subject sd)
        {| settles_after := settles_after all;
           settled := match settled all with Ok _ => Ok (collected promises) | Throw e => Throw e end |}
        timeout (bo_signal o) w
  end.

(** ** Answering *)
Definition reply (source : string) (r : Reply) : M unit := λ w,
  after (reply_to env w source r) (did (Replied source r) w).

Definition sendErrorResponse (source correlationId : string) (error : thrown) : M unit :=
  try_catch (reply source (ErrorResponse correlationId (serializeError error))) (λ _, st_ret tt).

Definition deliverBroadcastResults (source correlationId : string) (results : list BroadcastResult)
    (error : option BusTransportError) : M unit :=
  if hasBroadcastSeam env source then reply source (OnBroadcastResults correlationId results error)
  else reply source (BroadcastResponse correlationId
         (match results with [] => None | _ => Some results end) error).

(** ** The three kinds of messages *)
Definition isLocalSubject (subject : string) : bool := bool_decide (subject ∈ localSubjects env).

Definition relay_event (source : string) (m : EventMessage) : M unit := on_events (λ w,
  let relayTargets := getReadyTransports (transportsAt (eventEnv env) w) (Some source) (Some m) in
  let '(promises, w') := post relayTargets m None w in await (promise_all promises) w').

Definition handleEventMessage (source : string) (m : IncomingEvent) : M unit :=
  match getSubjectFromBusMessage (ie_subject m) (ie_namespace m) with
  | None => st_ret tt
  | Some fullSubject =>
      if isLocalSubject fullSubject then st_ret tt
      else
        let definition := resolveSubjectDefinition (ie_subject m) (ie_namespace m) false in
        let message := {| em_subject := subject definition; em_namespace := namespace definition;
                          em_payload := ie_payload m; em_messageId := ie_messageId m;
                          em_correlationId := ie_correlationId m |} in
        let* _ := if bool_decide (fullSubject ∈ collectorOnlySubjects ns) then st_ret tt
                  else relay_event source message in
        on_events (emit (eventEnv env) definition wire_meta (ie_payload m)
          {| eo_messageId := ie_messageId m; eo_correlationId := ie_correlationId m;
             eo_transports := Some []; eo_remote := true; eo_connectionId := None |})
  end.

Definition inbound_options (m : IncomingRequest) (hostLocalRequest : bool) (w : W) : DispatchOptions :=
  let relayTimeout := default DEFAULT_REQUEST_TIMEOUT_MS (ir_timeout m) in
  {| allowedTransports := None; cursor := ir_priority m; correlationId := ir_correlationId m;
     messageId := ir_messageId m; timeout := relayTimeout;
     readinessTimeout := resolveInboundReadinessTimeout (ir_readinessTimeout m);
     deadline := anchorRequestDeadline relayTimeout (i_now w); signal := None;
     localOnly := hostLocalRequest; excludeFirstHopOnlyRemote := true |}.

Definition handleRequestMessage (source : string) (m : IncomingRequest) : M unit :=
  match getSubjectFromBusMessage (ir_subject m) (ir_namespace m) with
  | None =>
      let* e := new_error (λ i, TErr i ErrorClass "Invalid subject in request message" None []) in
      sendErrorResponse source (ir_correlationId m) e
  | Some fullSubject =>
      if isLocalSubject fullSubject then
        let* e := new_error (LocalSubjectError fullSubject) in sendErrorResponse source (ir_correlationId m) e
      else
        let hostLocalRequest := bool_decide (fullSubject ∈ hostLocalRequestSubjects ns) in
        let definition := resolveSubjectDefinition (ir_subject m) (ir_namespace m) true in
        try_catch
          (let* outcome := λ w, on_request (dispatch (requestEnv env) definition false (ir_payload m)
                                              (inbound_options m hostLocalRequest w)) w in
           match outcome with
           | None => let* e := new_error (NoHandlerError fullSubject) in
                     sendErrorResponse source (ir_correlationId m) e
           | Some v => reply source (Response (ir_correlationId m) v)
           end)
          (λ error, sendErrorResponse source (ir_correlationId m) error)
  end.

(** Local handlers and relays, all started at once. *)
Definition gather_broadcast (source : string) (m : BroadcastMessage) (w : W) :
    Pending (list BroadcastResult * option BusTransportError) * W :=
  let relayTimeout := default DEFAULT_REQUEST_TIMEOUT_MS (bm_timeout m) in
  let definition := resolveSubjectDefinition (bm_subject m) (bm_namespace m) true in
  let '(localPromise, w) := broadcast definition wire_meta (bm_payload m)
    {| bo_messageId := bm_messageId m; bo_correlationId := bm_correlationId m; bo_timeout := Some relayTimeout;
       bo_signal := None; bo_transports := Some []; bo_remote := true |} w in
  let localError := match settled localPromise with Throw e => Some (serializeError e) | Ok _ => None end in
  let relayTargets := getReadyTransports (broadcastTransports env w) (Some source) (Some m) in
  let w := foldl (λ w t, did (Relayed t m) w) w (map fst relayTargets) in
  let promises := localPromise :: map (λ nt, bt_send nt.2 m relayTimeout) relayTargets in
  ({| settles_after := last_settled promises; settled := Ok (collected promises, localError) |}, w).

Definition handleBroadcastMessage (source : string) (m : BroadcastMessage) : M unit :=
  match getSubjectFromBusMessage (bm_subject m) (bm_namespace m) with
  | None =>
      let* e := new_error (λ i, TErr i ErrorClass "Invalid subject in broadcast message" None []) in
      deliverBroadcastResults source (bm_correlationId m) [] (Some (serializeError e))
  | Some fullSubject =>
      if isLocalSubject fullSubject then
        let* e := new_error (LocalSubjectError fullSubject) in
        deliverBroadcastResults source (bm_correlationId m) [] (Some (serializeError e))
      else
        try_catch
          (let* r := λ w, let '(p, w') := gather_broadcast source m w in after p w' in
           deliverBroadcastResults source (bm_correlationId m) r.1 r.2)
          (λ error, deliverBroadcastResults source (bm_correlationId m) [] (Some (serializeError error)))
  end.

Inductive IncomingMessage :=
  | IEvent (m : IncomingEvent)
  | IRequest (m : IncomingRequest)
  | IBroadcast (m : BroadcastMessage).

(** The part of [handleIncomingMessage] after the subscription messages; what
    is thrown is logged. *)
Definition handleIncomingMessage (source : string) (message : IncomingMessage) : M unit :=
  try_catch
    (match message with
     | IEvent m => handleEventMessage source m
     | IRequest m => handleRequestMessage source m
     | IBroadcast m => handleBroadcastMessage source m
     end)
    (λ _, st_ret tt).
End ingress.

(** ** Lemmas *)
Section lemmas.
Context {R : JsRealm} {H : Type} (env : IngressEnvironment H).
Notation W := (IWorld H).
Notation ns := (namespacesOf (eventEnv env)).
Implicit Types (w : W) (source : string).

Lemma on_request_acts {A} (m : ST (World H) thrown A) w evs :
  trace (m (request_view w)).2 = trace (request_view w) ++ evs →
  on_request m w = ((m (request_view w)).1,
    {| i_now := now (m (request_view w)).2; i_fresh := fresh (m (request_view w)).2;
       i_acts := i_acts w ++ map (λ te, (te.1, Routed te.2)) evs |}).
Proof. unfold on_request. destruct (m (request_view w)) as [o w']. cbn [fst snd]. intros ->. by rewrite drop_app_length. Qed.

Lemma on_events_acts {A} (m : ST (BusWorld (Act H)) thrown A) w evs :
  acts (m (event_view w)).2 = acts (event_view w) ++ evs →
  on_events m w = ((m (event_view w)).1,
    {| i_now := clock (m (event_view w)).2; i_fresh := i_fresh w;
       i_acts := i_acts w ++ map (λ te, (te.1, Evented te.2)) evs |}).
Proof. unfold on_events. destruct (m (event_view w)) as [o w']. cbn [fst snd]. intros ->. by rewrite drop_app_length. Qed.

(** An answer: recorded when it is sent, and then awaited. *)
Lemma reply_acts source r w :
  i_acts (reply env source r w).2 = i_acts w ++ [(i_now w, Replied source r)] ∧
  i_now w ≤ i_now (reply env source r w).2 ∧
  (reply env source r w).1 = settled (reply_to env w source r).
Proof. unfold reply, after, did. simpl. split_and!; [done|lia|done]. Qed.

Lemma sendErrorResponse_acts source cid e w :
  (sendErrorResponse env source cid e w).1 = Ok tt ∧
  i_acts (sendErrorResponse env source cid e w).2 =
    i_acts w ++ [(i_now w, Replied source (ErrorResponse cid (serializeError e)))].
Proof.
  unfold sendErrorResponse, try_catch. pose proof (reply_acts source (ErrorResponse cid (serializeError e)) w) as (Ha & _ & _).
  by destruct (reply env source _ w) as [[[]|e'] w'].
Qed.

Lemma full_subject subject namespace s b :
  getSubjectFromBusMessage subject namespace = Some s →
  getFullSubjectForSubjectDefinition (resolveSubjectDefinition subject namespace b) = s.
Proof. unfold getSubjectFromBusMessage. repeat case_match; intros [= <-]; done. Qed.

(** *** Relays *)
Lemma ready_other {T M} `{!TransportGate T M} (registered : list (string * T)) source (m : option M) nt :
  nt ∈ getReadyTransports registered (Some source) m → nt.1 ≠ source ∧ nt ∈ registered.
Proof.
  unfold getReadyTransports, getSortedTransports. rewrite list_elem_of_filter, js_sort_elem, list_elem_of_filter.
  intros (_ & Hne & Hin). split; [congruence|done].
Qed.

Lemma relay_event_acts source m w :
  let relayTargets := getReadyTransports (transportsAt (eventEnv env) (event_view w)) (Some source) (Some m) in
  (relay_event env source m w).1 = Ok tt ∧ i_now w ≤ i_now (relay_event env source m w).2 ∧
  i_acts (relay_event env source m w).2 =
    i_acts w ++ map (λ nt, (i_now w, Evented (Posted nt.1 m))) relayTargets.
Proof.
  intros targets. unfold relay_event.
  destruct (post_acts (H := H) targets m None (event_view w)) as (Hc & (posted & Ha & _ & Hall) & Hf).
  rewrite (Hall eq_refl) in Ha. apply promise_all_ok in Hf.
  set (mm := λ w0 : BusWorld (Act H), _).
  assert (mm (event_view w) = let '(ps, w') := post targets m None (event_view w) in await (promise_all ps) w') as E by done.
  destruct (post targets m None (event_view w)) as [ps w'] eqn:Ep. simpl in Hc, Ha, Hf.
  rewrite (on_events_acts mm w (map (λ n, (clock (event_view w), Posted n m)) (map fst targets))).
  - rewrite E. unfold await. cbn [fst snd i_acts i_now elapse clock]. rewrite Hf, Hc. split_and!; [done|simpl; lia|].
    f_equal. rewrite !map_map. done.
  - rewrite E. exact Ha.
Qed.

(** *** Broadcast: its acts and its results *)
Lemma did_all {A} (f : A → IAct H) l w :
  i_acts (foldl (λ w x, did (f x) w) w l) = i_acts w ++ map (λ x, (i_now w, f x)) l ∧
  i_now (foldl (λ w x, did (f x) w) w l) = i_now w.
Proof.
  revert w. induction l as [|x l IH]; intros w; simpl; [by rewrite app_nil_r|].
  destruct (IH (did (f x) w)) as [-> ->]. simpl. by rewrite <- app_assoc.
Qed.

Definition answers (p : Pending (list BroadcastResult)) : list BroadcastResult :=
  match settled p with Ok rs => rs | Throw _ => [] end.

Lemma collected_perm ps : collected ps ≡ₚ List.concat (map answers ps).
Proof.
  unfold collected. fold answers. rewrite <- !flat_map_concat_map.
  pose proof (js_sort_perm (λ p q : Pending (list BroadcastResult), (settles_after p <=? settles_after q)%nat) ps) as Hp.
  revert Hp. generalize (js_sort (λ p q : Pending (list BroadcastResult), (settles_after p <=? settles_after q)%nat) ps).
  intros l Hp. by rewrite Hp.
Qed.

(** The wait for the results: its promise, and that it takes no longer. *)
Lemma await_results_spec subject op timeout signal w :
  let r := await_results subject op timeout signal w in
  i_acts r.2 = i_acts w ∧ i_now r.2 = i_now w ∧
  (∀ rs, settled r.1 = Ok rs → settled op = Ok rs ∧ settles_after r.1 = settles_after op ∧
    (0 < timeout → Z.of_nat (settles_after op) ≤ timeout)) ∧
  (signal = None → 0 ≤ timeout → (timeout = 0 ∨ Z.of_nat (settles_after op) ≤ timeout) →
    ∀ rs, settled op = Ok rs → settled r.1 = Ok rs).
Proof.
  unfold await_results. destruct (awaitWithTimeoutAndSignal op timeout signal (request_view w)) as [o w'] eqn:E.
  cbn zeta. cbn [fst snd i_acts i_now settled settles_after]. split_and!; [done|done| |].
  - intros rs Ho. destruct o as [rs'|e]; [|done]. injection Ho as <-.
    pose proof (await_extends _ _ _ _ _ _ E) as (_ & _ & Hlt). revert E. unfold awaitWithTimeoutAndSignal.
    unfold throw_new, throw_abort.
    destruct signal as [s|]; [destruct (aborted (Some s) _)|]; repeat case_match; intros [= E1 E2]; subst w'; simpl in *;
      split_and!; try done; lia.
  - intros -> Hpos Htime rs Ho. revert E. unfold awaitWithTimeoutAndSignal. simpl.
    rewrite bool_decide_false by lia. destruct (bool_decide (timeout = 0)) eqn:Hz; simpl.
    + intros [= <- <-]. by rewrite Ho.
    + apply bool_decide_eq_false in Hz. rewrite bool_decide_true by lia. intros [= <- <-]. by rewrite Ho.
Qed.
End lemmas.

(** *** Requests *)
Section requests.
Context {H : Type} (env : IngressEnvironment H).
Notation W := (IWorld H).
Notation ns := (namespacesOf (eventEnv env)).
Implicit Types (w : W) (source : string) (m : IncomingRequest).

(** The dispatch of an inbound request. *)
Definition dispatched m s w : outcome thrown (option value) * World H :=
  dispatch (requestEnv env) (resolveSubjectDefinition (ir_subject m) (ir_namespace m) true) false (ir_payload m)
    (inbound_options m (bool_decide (s ∈ hostLocalRequestSubjects ns)) w) (request_view w).

(** What the answer of a dispatch says. *)
Definition answer_for m s (outcome : outcome thrown (option value)) (i : nat) : Reply :=
  match outcome with
  | Ok (Some v) => Response (ir_correlationId m) v
  | Ok None => ErrorResponse (ir_correlationId m) (serializeError (NoHandlerError s i))
  | Throw e => ErrorResponse (ir_correlationId m) (serializeError e)
  end.

Lemma inbound_request m s w source (Hs : getSubjectFromBusMessage (ir_subject m) (ir_namespace m) = Some s)
    (Hl : s ∉ localSubjects env) :
  ∃ evs w1 rest, trace (dispatched m s w).2 = trace (request_view w) ++ evs ∧
    (handleRequestMessage env source m w).1 = Ok tt ∧
    i_acts (handleRequestMessage env source m w).2 =
      i_acts w ++ map (λ te, (te.1, Routed te.2)) evs ++
      (now (dispatched m s w).2, Replied source (answer_for m s (dispatched m s w).1 (fresh (dispatched m s w).2))) :: rest ∧
    match (dispatched m s w).1, settled (reply_to env w1 source (answer_for m s (dispatched m s w).1 (fresh (dispatched m s w).2))) with
    | Ok (Some _), Throw e => ∃ t, rest = [(t, Replied source (ErrorResponse (ir_correlationId m) (serializeError e)))]
    | _, _ => rest = []
    end.
Proof.
  unfold handleRequestMessage, isLocalSubject. rewrite Hs, bool_decide_false by done.
  set (mm := dispatch (requestEnv env) (resolveSubjectDefinition (ir_subject m) (ir_namespace m) true) false
    (ir_payload m) (inbound_options m (bool_decide (s ∈ hostLocalRequestSubjects ns)) w)).
  destruct (sound_dispatch (requestEnv env) (resolveSubjectDefinition (ir_subject m) (ir_namespace m) true) (λ _, True)
    false (ir_payload m) (inbound_options m (bool_decide (s ∈ hostLocalRequestSubjects ns)) w) (request_view w)
    (λ _, conj (λ _ _ _ _, I) (λ _ _ _ _ _ _ _, I))) as (_ & evs & Ht & _).
  change (dispatched m s w) with (mm (request_view w)).
  change (trace (mm (request_view w)).2 = trace (request_view w) ++ evs) in Ht.
  pose proof (on_request_acts mm w evs Ht) as E. unfold try_catch, st_bind. cbv beta. fold mm. rewrite E. clear E.
  exists evs. destruct (mm (request_view w)) as [[[v|]|e] d]; cbn [fst snd] in *.
  - set (w1 := Build_IWorld _ _ _). exists w1.
    destruct (reply_acts env source (Response (ir_correlationId m) v) w1) as (Ha & _ & Ho).
    destruct (reply env source (Response (ir_correlationId m) v) w1) as [[[]|e] w2]; cbn [fst snd] in *; simpl; rewrite <- Ho.
    + exists []. split_and!; [done..| |done]. rewrite Ha. simpl. by rewrite <- app_assoc.
    + destruct (sendErrorResponse_acts env source (ir_correlationId m) e w2) as [H1 H2].
      eexists. split_and!; [done|exact H1| |eexists; reflexivity]. rewrite H2, Ha. simpl. by rewrite <- !app_assoc.
  - set (w1 := {| i_now := now d; i_fresh := S (fresh d); i_acts := i_acts w ++ map (λ te, (te.1, Routed te.2)) evs |}).
    exists w1, []. destruct (sendErrorResponse_acts env source (ir_correlationId m) (NoHandlerError s (fresh d)) w1) as [H1 H2].
    simpl. fold w1. destruct (sendErrorResponse env source _ _ w1) as [[[]|e] w2]; cbn [fst snd] in *; [|done].
    split_and!; [done..| |done]. rewrite H2. simpl. by rewrite <- app_assoc.
  - set (w1 := Build_IWorld _ _ _). exists w1, [].
    destruct (sendErrorResponse_acts env source (ir_correlationId m) e w1) as [H1 H2].
    split_and!; [done|exact H1| |done]. rewrite H2. simpl. by rewrite <- app_assoc.
Qed.
End requests.

(** A route to a relayed request is never blocked by its class. *)
Lemma matching_remote_admitted rs s e :
  e ∈ getMatchingRemoteEntries rs s true → re_transport e ∉ blockedTransports rs s.
Proof.
  unfold getMatchingRemoteEntries. rewrite js_sort_elem, JsSet.elem_fold_add.
  intros [[]%elem_of_nil|Hin]. apply list_elem_of_In, in_concat in Hin as (l & Hl & He).
  apply list_elem_of_In in Hl, He. apply list_elem_of_fmap in Hl as (pe & -> & _).
  destruct (matchesSubscription s pe.1); [|by apply elem_of_nil in He].
  apply list_elem_of_filter in He as [Ha _]. by apply Ha.
Qed.

Section routes.
Context {H : Type} (env : IngressEnvironment H).
Implicit Types (w : IWorld H) (m : IncomingRequest).

Lemma dispatched_routes m s w (Hs : getSubjectFromBusMessage (ir_subject m) (ir_namespace m) = Some s) evs :
  trace (dispatched env m s w).2 = trace (request_view w) ++ evs →
  Forall (λ te, match te.2 with
    | Tried (RemoteRoute t prio) _ _ => s ∉ hostLocalRequestSubjects (namespacesOf (eventEnv env)) ∧
        ∃ u, t ∉ blockedTransports (remoteAt (requestEnv env) u) s
    | _ => True end) evs.
Proof.
  intros Ht.
  destruct (sound_dispatch (requestEnv env) (resolveSubjectDefinition (ir_subject m) (ir_namespace m) true)
    (λ te : Z * Event H, match te.2 with
    | Tried (RemoteRoute t prio) _ _ => s ∉ hostLocalRequestSubjects (namespacesOf (eventEnv env)) ∧
        ∃ u, t ∉ blockedTransports (remoteAt (requestEnv env) u) s
    | _ => True end) false (ir_payload m)
    (inbound_options m (bool_decide (s ∈ hostLocalRequestSubjects (namespacesOf (eventEnv env)))) w) (request_view w))
    as (_ & evs' & Ht' & Hall).
  - intros w'. split; [done|]. intros w1 e payload msg Hin _ _. destruct e as [h prio|t prio]; [done|]. simpl.
    unfold merged_at, buildMergedList in Hin. rewrite (full_subject _ _ _ true Hs) in Hin.
    apply js_sort_elem, elem_of_app in Hin as [(x & Hx & _)%list_elem_of_fmap|(x & Hx & Hin)%list_elem_of_fmap];
      [done|]. simplify_eq. simpl in Hin.
    case_bool_decide as Hh; simpl in Hin; [by apply elem_of_nil in Hin|]. split; [done|].
    exists w'. by apply matching_remote_admitted in Hin.
  - change (trace (dispatched env m s w).2 = trace (request_view w) ++ evs') in Ht'.
    rewrite Ht in Ht'. by simplify_list_eq.
Qed.
End routes.

(** ** Theorems *)
Section properties.
Context {R : JsRealm} {H : Type} (env : IngressEnvironment H).
Notation W := (IWorld H).
Notation ns := (namespacesOf (eventEnv env)).
Implicit Types (w : W) (source : string).

(** C20: A local-only subject does not cross a transport.  An inbound message
    that names one runs no handler and is sent to no other transport; a request
    or a broadcast is answered, once, with the error, an event is dropped. *)
Theorem local_subject_never_crosses w source message s (Hlocal : s ∈ localSubjects env)
    (Hs : match message with
          | IEvent m => getSubjectFromBusMessage (ie_subject m) (ie_namespace m)
          | IRequest m => getSubjectFromBusMessage (ir_subject m) (ir_namespace m)
          | IBroadcast m => getSubjectFromBusMessage (bm_subject m) (bm_namespace m)
          end = Some s) :
  let err := serializeError (LocalSubjectError s (i_fresh w)) in
  (handleIncomingMessage env source message w).1 = Ok tt ∧
  i_acts (handleIncomingMessage env source message w).2 = i_acts w ++
    match message with
    | IEvent _ => []
    | IRequest m => [(i_now w, Replied source (ErrorResponse (ir_correlationId m) err))]
    | IBroadcast m => [(i_now w, Replied source
        (if hasBroadcastSeam env source then OnBroadcastResults (bm_correlationId m) [] (Some err)
         else BroadcastResponse (bm_correlationId m) None (Some err)))]
    end.
Proof.
  intros err. unfold handleIncomingMessage, try_catch.
  destruct message as [m|m|m]; unfold handleEventMessage, handleRequestMessage, handleBroadcastMessage, isLocalSubject;
    rewrite Hs, bool_decide_true by done.
  - simpl. by rewrite app_nil_r.
  - unfold st_bind, new_error. cbn [fst snd].
    set (w1 := Build_IWorld _ _ _). destruct (sendErrorResponse_acts env source (ir_correlationId m)
      (LocalSubjectError s (i_fresh w)) w1) as [Ho Ha].
    by destruct (sendErrorResponse env source _ _ w1) as [[[]|e] w2].
  - unfold st_bind, new_error, deliverBroadcastResults. cbn [fst snd]. set (w1 := Build_IWorld _ _ _).
    destruct (hasBroadcastSeam env source);
      match goal with |- context [reply env source ?r w1] =>
        destruct (reply_acts env source r w1) as (Ha & _ & _); by destruct (reply env source r w1) as [[[]|e] w2]
      end.
Qed.

(** Every inbound request is answered with the outcome of its dispatch: its
    result, a no-handler error, or the error that was thrown.  There is one
    answer, unless sending a result fails: then an error response follows. *)
Theorem request_answered w source m s (Hs : getSubjectFromBusMessage (ir_subject m) (ir_namespace m) = Some s)
    (Hl : s ∉ localSubjects env) :
  let r := dispatched env m s w in
  let answer := answer_for m s r.1 (fresh r.2) in
  ∃ evs w1 rest, trace r.2 = trace (request_view w) ++ evs ∧
    (handleIncomingMessage env source (IRequest m) w).1 = Ok tt ∧
    i_acts (handleIncomingMessage env source (IRequest m) w).2 =
      i_acts w ++ map (λ te, (te.1, Routed te.2)) evs ++ (now r.2, Replied source answer) :: rest ∧
    match r.1, settled (reply_to env w1 source answer) with
    | Ok (Some _), Throw e => ∃ t, rest = [(t, Replied source (ErrorResponse (ir_correlationId m) (serializeError e)))]
    | _, _ => rest = []
    end.
Proof.
  intros r answer. destruct (inbound_request env m s w source Hs Hl) as (evs & w1 & rest & Ht & Ho & Ha & Hr).
  exists evs, w1, rest. unfold handleIncomingMessage, try_catch.
  destruct (handleRequestMessage env source m w) as [[[]|e] w2]; [|done]. done.
Qed.

(** C33: An inbound request goes only where it may: not at all beyond this bus
    when its subject is host-local, and otherwise never to a transport that has
    subscribed to a matching pattern for its first hop only. *)
Theorem inbound_request_routes w source m s (Hs : getSubjectFromBusMessage (ir_subject m) (ir_namespace m) = Some s)
    x t prio payload msg
    (Hin : (x, Routed (Tried (RemoteRoute t prio) payload msg)) ∈
             drop (List.length (i_acts w)) (i_acts (handleIncomingMessage env source (IRequest m) w).2)) :
  s ∉ hostLocalRequestSubjects ns ∧
  ∃ u, ∀ pattern classes c, (pattern, classes) ∈ remoteSubscriptionDeliveryClasses (remoteAt (requestEnv env) u) →
    Matches s pattern → (t, c) ∈ classes → c = relayable.
Proof.
  destruct (decide (s ∈ localSubjects env)) as [Hl|Hl].
  { exfalso. revert Hin. unfold handleIncomingMessage, try_catch, handleRequestMessage, isLocalSubject.
    rewrite Hs, bool_decide_true by done. unfold st_bind, new_error. cbn [fst snd].
    set (w1 := Build_IWorld _ _ _). destruct (sendErrorResponse_acts env source (ir_correlationId m)
      (LocalSubjectError s (i_fresh w)) w1) as [Ho Ha].
    destruct (sendErrorResponse env source _ _ w1) as [[[]|e] w2]; [|done]. cbn [fst snd] in *. rewrite Ha.
    subst w1. cbn [i_acts]. rewrite drop_app_length. by intros [=]%list_elem_of_singleton. }
  destruct (inbound_request env m s w source Hs Hl) as (evs & w1 & rest & Ht & Ho & Ha & Hr).
  pose proof (dispatched_routes env m s w Hs evs Ht) as Hall.
  assert (i_acts (handleIncomingMessage env source (IRequest m) w).2 = i_acts (handleRequestMessage env source m w).2) as E.
  { unfold handleIncomingMessage, try_catch. by destruct (handleRequestMessage env source m w) as [[[]|e] w2]. }
  rewrite E, Ha, drop_app_length in Hin.
  apply elem_of_app in Hin as [(te & Hte & Hin)%list_elem_of_fmap|[?|Hin]%elem_of_cons]; [|done|].
  - injection Hte as -> He. destruct te as [x' e]. simpl in He. subst e.
    rewrite Forall_forall in Hall. apply Hall in Hin as [Hh [u Hb]]. split; [done|]. exists u. by apply blocked_iff.
  - repeat case_match; destruct_and?; subst; try (by apply elem_of_nil in Hin).
    destruct Hr as [t' ->]. by apply list_elem_of_singleton in Hin.
Qed.

(** An inbound event is first sent to every other transport that is ready
    for it, and to none when its subject is collector-only; then, from the
    moment those sends have settled, it is emitted here and posted nowhere
    else.  It never goes back where it came from. *)
Theorem event_relayed_then_delivered w source m s
    (Hs : getSubjectFromBusMessage (ie_subject m) (ie_namespace m) = Some s) (Hl : s ∉ localSubjects env) :
  let definition := resolveSubjectDefinition (ie_subject m) (ie_namespace m) false in
  let message := {| em_subject := subject definition; em_namespace := namespace definition; em_payload := ie_payload m;
                    em_messageId := ie_messageId m; em_correlationId := ie_correlationId m |} in
  let targets := if bool_decide (s ∈ collectorOnlySubjects ns) then []
                 else getReadyTransports (transportsAt (eventEnv env) (event_view w)) (Some source) (Some message) in
  let emitted := on_events (emit (eventEnv env) definition wire_meta (ie_payload m)
    {| eo_messageId := ie_messageId m; eo_correlationId := ie_correlationId m; eo_transports := Some [];
       eo_remote := true; eo_connectionId := None |}) in
  ∃ w1 evs, i_now w ≤ i_now w1 ∧
    i_acts w1 = i_acts w ++ map (λ nt, (i_now w, Evented (Posted nt.1 message))) targets ∧
    handleEventMessage env source m w = emitted w1 ∧
    i_acts (emitted w1).2 = i_acts w1 ++ map (λ te, (te.1, Evented te.2)) evs ∧ Forall (λ a, ¬ is_posted a) evs ∧
    ∀ nt, nt ∈ targets → nt.1 ≠ source.
Proof.
  intros definition message targets emitted.
  assert (∀ w1, ∃ evs, i_acts (emitted w1).2 = i_acts w1 ++ map (λ te, (te.1, Evented te.2)) evs ∧
                       Forall (λ a, ¬ is_posted a) evs) as Hemit.
  { intros w1. set (o := {| eo_messageId := ie_messageId m; eo_correlationId := ie_correlationId m; eo_transports := Some [];
       eo_remote := true; eo_connectionId := None |}) in emitted.
    destruct (emit_quiet (eventEnv env) definition wire_meta (ie_payload m) o (event_view w1)) as (evs & Ha & Hq).
    { intros w' p. unfold targets_at, normalizeTransportTargets. simpl. by case_bool_decide. }
    exists evs. split; [|done]. unfold emitted. by rewrite (on_events_acts _ w1 evs Ha). }
  unfold handleEventMessage, isLocalSubject. rewrite Hs, bool_decide_false by done. fold definition message emitted.
  unfold targets. destruct (bool_decide (s ∈ collectorOnlySubjects ns)).
  - destruct (Hemit w) as (evs & Ha & Hq). exists w, evs. split_and!; try done; [by rewrite app_nil_r|].
    by intros nt []%elem_of_nil.
  - destruct (relay_event_acts env source message w) as (Ho & Hn & Ha).
    unfold st_bind. destruct (relay_event env source message w) as [o w1]. cbn [fst snd] in *. subst o.
    destruct (Hemit w1) as (evs & Ha1 & Hq). exists w1, evs. split_and!; try done.
    by intros nt [Hne _]%ready_other.
Qed.

(** The promises a broadcast waits for: one per matching handler, one per
    transport. *)
Definition broadcast_promises (sd : SubjectDefinition) meta payload o w : list (Pending (list BroadcastResult)) :=
  let key := getFullSubjectForSubjectDefinition sd in
  map (λ h, executeLocalBroadcastHandler env h (broadcast_context payload o) key)
    (getMatchingHandlers (requestHandlersNow env w) key) ++
  map (λ nt, transport_answer env key (bt_send nt.2 (broadcast_message sd payload o)
                                        (default DEFAULT_REQUEST_TIMEOUT_MS (bo_timeout o))))
    (broadcast_targets env sd meta payload o w).

(** A broadcast in full.  A payload its schema rejects goes nowhere.
    Otherwise every matching handler and every target transport is asked, at
    once; the results are all their answers, each once, after the last of them
    and within the timeout; a broadcast succeeds whenever no handler's answer is
    invalid and all settle in time. *)
Theorem broadcast_correct sd meta payload o w :
  let key := getFullSubjectForSubjectDefinition sd in
  let timeout := default DEFAULT_REQUEST_TIMEOUT_MS (bo_timeout o) in
  let promises := broadcast_promises sd meta payload o w in
  let '(p, w') := broadcast env sd meta payload o w in
  i_now w' = i_now w ∧
  match validateRequestPayload env key payload with
  | Some e => settled p = Throw e ∧ w' = w
  | None =>
      i_acts w' = i_acts w ++
        map (λ h, (i_now w, Asked h (broadcast_context payload o))) (getMatchingHandlers (requestHandlersNow env w) key) ++
        map (λ nt, (i_now w, Relayed nt.1 (broadcast_message sd payload o))) (broadcast_targets env sd meta payload o w) ∧
      (∀ results, settled p = Ok results →
         results ≡ₚ List.concat (map answers promises) ∧
         (∀ q, q ∈ promises → fulfilled q = true ∧ (settles_after q ≤ settles_after p)%nat) ∧
         (0 < timeout → Z.of_nat (settles_after p) ≤ timeout)) ∧
      (bo_signal o = None → 0 ≤ timeout → (timeout = 0 ∨ ∀ q, q ∈ promises → Z.of_nat (settles_after q) ≤ timeout) →
         Forall (λ q, fulfilled q = true) promises → ∃ results, settled p = Ok results)
  end.
Proof.
  intros key timeout promises. unfold broadcast. fold key timeout.
  destruct (validateRequestPayload env key payload) as [e|]; [done|].
  set (handlers := getMatchingHandlers (requestHandlersNow env w) key).
  set (targets := broadcast_targets env sd meta payload o w).
  change (map (λ h, executeLocalBroadcastHandler env h (broadcast_context payload o) key) handlers ++
          map (λ nt, transport_answer env key (bt_send nt.2 (broadcast_message sd payload o) timeout)) targets) with promises.
  set (w1 := foldl _ _ (map fst targets)).
  assert (i_acts w1 = i_acts w ++ map (λ h, (i_now w, Asked h (broadcast_context payload o))) handlers ++
    map (λ nt, (i_now w, Relayed nt.1 (broadcast_message sd payload o))) targets ∧ i_now w1 = i_now w) as [Ha Hn].
  { unfold w1. destruct (did_all (λ h, Asked h (broadcast_context payload o)) handlers w) as [Ha Hn].
    destruct (did_all (λ t, Relayed t (broadcast_message sd payload o)) (map fst targets)
      (foldl (λ w h, did (Asked h (broadcast_context payload o)) w) w handlers)) as [-> ->].
    rewrite Ha, Hn, map_map, app_assoc. done. }
  match goal with |- context [await_results ?s ?op timeout ?sg w1] =>
    destruct (await_results_spec s op timeout sg w1) as (E1 & E2 & E3 & E4);
    destruct (await_results s op timeout sg w1) as [p w'] end.
  cbn [fst snd settled settles_after] in *.
  assert (∀ rs, match settled (promise_all promises) with Ok _ => Ok (collected promises) | Throw e => Throw e end = Ok rs →
    settled (promise_all promises) = Ok tt ∧ rs = collected promises) as Hrs
    by (intros rs; destruct (settled (promise_all promises)) as [[]|]; naive_solver).
  split_and!; [congruence|congruence| |].
  - intros results Hres. destruct (E3 _ Hres) as (Hop & -> & Ht). apply Hrs in Hop as [Hall ->].
    split_and!; [apply collected_perm| |done]. intros q Hq. split; [|by apply promise_all_waits].
    apply promise_all_ok in Hall. rewrite Forall_forall in Hall. auto.
  - intros Hsig Hpos Htime Hall. apply promise_all_ok in Hall. eexists. eapply E4; [done..| |].
    + destruct Htime as [?|Htime]; [by left|right].
      assert (∀ n, (∀ q, q ∈ promises → Z.of_nat (settles_after q) ≤ n) → 0 ≤ n →
        Z.of_nat (settles_after (promise_all promises)) ≤ n) as Hmax; [|by apply Hmax].
      unfold promise_all in *. destruct (first_rejection promises) as [[]|]; [done|]. simpl. unfold last_settled.
      generalize promises. clear. intros l n. induction l as [|q l IH]; intros Hl Hn; simpl; [lia|].
      pose proof (Hl q ltac:(left)). specialize (IH ltac:(intros; apply Hl; by right) Hn). lia.
    + by rewrite Hall.
Qed.

Definition broadcast_reply source cid results err : Reply :=
  if hasBroadcastSeam env source then OnBroadcastResults cid results err
  else BroadcastResponse cid match results with [] => None | _ => Some results end err.

Lemma deliver_acts source cid results err w :
  i_acts (deliverBroadcastResults env source cid results err w).2 =
    i_acts w ++ [(i_now w, Replied source (broadcast_reply source cid results err))] ∧
  (deliverBroadcastResults env source cid results err w).1 =
    settled (reply_to env w source (broadcast_reply source cid results err)).
Proof.
  unfold deliverBroadcastResults, broadcast_reply. destruct (hasBroadcastSeam env source);
    match goal with |- context [reply env source ?r w] => by destruct (reply_acts env source r w) as (? & _ & ?) end.
Qed.

(** An inbound broadcast is answered once, after every local handler and
    every other ready transport has had its say, with all their results and the
    error of the local part, if it failed; if sending that fails an empty answer
    with the error follows. *)
Theorem broadcast_answered w source m s (Hs : getSubjectFromBusMessage (bm_subject m) (bm_namespace m) = Some s)
    (Hl : s ∉ localSubjects env) :
  let relayTimeout := default DEFAULT_REQUEST_TIMEOUT_MS (bm_timeout m) in
  let '(localPromise, wb) := broadcast env (resolveSubjectDefinition (bm_subject m) (bm_namespace m) true) wire_meta
    (bm_payload m) {| bo_messageId := bm_messageId m; bo_correlationId := bm_correlationId m;
                      bo_timeout := Some relayTimeout; bo_signal := None; bo_transports := Some []; bo_remote := true |} w in
  let relayTargets := getReadyTransports (broadcastTransports env wb) (Some source) (Some m) in
  let promises := localPromise :: map (λ nt, bt_send nt.2 m relayTimeout) relayTargets in
  let err := match settled localPromise with Throw e => Some (serializeError e) | Ok _ => None end in
  ∃ results w1 rest,
    i_acts (handleIncomingMessage env source (IBroadcast m) w).2 =
      i_acts wb ++ map (λ nt, (i_now wb, Relayed nt.1 m)) relayTargets ++
      (i_now wb + Z.of_nat (last_settled promises),
       Replied source (broadcast_reply source (bm_correlationId m) results err)) :: rest ∧
    results ≡ₚ List.concat (map answers promises) ∧ (∀ nt, nt ∈ relayTargets → nt.1 ≠ source) ∧
    match settled (reply_to env w1 source (broadcast_reply source (bm_correlationId m) results err)) with
    | Ok _ => rest = []
    | Throw e => ∃ t, rest = [(t, Replied source (broadcast_reply source (bm_correlationId m) [] (Some (serializeError e))))]
    end.
Proof.
  intros relayTimeout. unfold handleIncomingMessage, try_catch, handleBroadcastMessage, isLocalSubject.
  rewrite Hs, bool_decide_false by done. unfold try_catch, st_bind, gather_broadcast. cbv beta zeta. fold relayTimeout.
  destruct (broadcast env _ wire_meta (bm_payload m) _ w) as [lp wb].
  set (relayTargets := getReadyTransports (broadcastTransports env wb) (Some source) (Some m)).
  set (promises := lp :: map (λ nt, bt_send nt.2 m relayTimeout) relayTargets). cbv zeta.
  set (err := match settled lp with Throw e => Some (serializeError e) | Ok _ => None end).
  destruct (did_all (λ t, Relayed t m) (map fst relayTargets) wb) as [Ha Hn]. rewrite map_map in Ha.
  unfold after. cbn [settled settles_after fst snd].
  set (w1 := @Build_IWorld H (_ + _) _ _).
  destruct (deliver_acts source (bm_correlationId m) (collected promises) err w1) as [Hd Ho].
  exists (collected promises), w1.
  destruct (deliverBroadcastResults env source (bm_correlationId m) (collected promises) err w1) as [[[]|e] w2];
    cbn [fst snd] in *; rewrite <- Ho.
  - exists []. split_and!; [|apply collected_perm|by intros nt [? _]%ready_other|done].
    rewrite Hd. subst w1. cbn [i_acts i_now]. rewrite Ha, Hn. by rewrite <- app_assoc.
  - destruct (deliver_acts source (bm_correlationId m) [] (Some (serializeError e)) w2) as [Hd2 _].
    exists [(i_now w2, Replied source (broadcast_reply source (bm_correlationId m) [] (Some (serializeError e))))].
    split_and!; [|apply collected_perm|by intros nt [? _]%ready_other|by eexists].
    destruct (deliverBroadcastResults env source (bm_correlationId m) [] (Some (serializeError e)) w2) as [[[]|e'] w3];
      unfold st_ret; cbn [fst snd] in *; rewrite Hd2, Hd; subst w1; cbn [i_acts i_now]; rewrite Ha, Hn; by rewrite <- !app_assoc.
Qed.
End properties.

(** *** Witnesses *)
#[local] Instance demo_realm : JsRealm := {| inherited := λ _ _, VUndef |}.

(** A relay between [p], where requests for [a.b] have handlers, and [q]. *)
Definition demo_requests : Environment nat :=
  {| program := demo_program;
     requestHandlersAt := λ _, [("a.b", passing)];
     remoteAt := λ _, remote announced;
     getTransport := λ _ t, if bool_decide (t = "p") then Some (λ m, Build_Pending 3 (Ok (VStr "from p"))) else None;
     hasCancelRequest := λ _, false; Dispatch.isReady := λ _ _, true; getPendingReadyEntries := λ _ _, [] |}.

Definition demo_ns : NamespaceRegistry :=
  {| listRegisteredSubjects := []; hostLocalRequestSubjects := ["h.l"]; collectorOnlySubjects := ["t.fact"]; defaultTransportsMap := [] |}.

Definition demo_event_env : EventEnvironment nat :=
  {| namespacesOf := demo_ns; validateEventPayload := λ _ _, None; interceptorsAt := λ _, []; interceptorOf := λ _, (None, IReturn);
     eventHandlersAt := λ _, addToHandlerMap [] "a.e" 10%nat 0; callHandler := λ h _ _, Ok {| settles_after := h; settled := Ok tt |};
     transportsAt := λ _, [("q", demo_transport); ("p", demo_transport)] |}.

(** Handler 1 identifies itself and answers in two steps, 2 fails, 3 is silent. *)
Definition demo_broadcaster (h : nat) (ctx : BroadcastContext) : BProg :=
  match h with
  | 1%nat => BIdentify "here" (BSetResult (VObj [("a", VNull)]) (BWait 5 (BExtendResult [("b", VNull)] BReturn)))
  | 2%nat => BWait 1 (BThrow (TVal 0 VNull))
  | _ => BReturn
  end.

Definition demo_answer : BroadcastResult := {| nodeId := "there"; br_payload := VObj [] |}.
Definition demo_peer : BroadcastTransport :=
  {| bt_isReady := None; bt_canSend := λ _, None; bt_send := λ _ _, Build_Pending 2 (Ok [demo_answer]) |}.

Definition demo_ingress : IngressEnvironment nat :=
  {| localSubjects := ["l.o"]; requestEnv := demo_requests; eventEnv := demo_event_env; broadcastHandler := demo_broadcaster;
     requestHandlersNow := λ _, [("a.b", [Build_HandlerEntry 1%nat 0; Build_HandlerEntry 2%nat 0; Build_HandlerEntry 3%nat 0])];
     broadcastTransports := λ _, [("q", demo_peer); ("p", demo_peer)];
     validateRequestPayload := λ _ _, None; validateResponsePayload := λ _ _, None;
     hasBroadcastSeam := λ _, false; reply_to := λ _ _ _, Build_Pending 0 (Ok tt) |}.

Definition demo_iworld : IWorld nat := {| i_now := 100; i_fresh := 0; i_acts := [] |}.
Definition demo_request (s n : string) : IncomingRequest :=
  {| ir_subject := Some s; ir_namespace := Some n; ir_payload := VNull; ir_messageId := "m"; ir_correlationId := "c";
     ir_timeout := None; ir_priority := None; ir_readinessTimeout := None |}.
Definition demo_event : IncomingEvent :=
  {| ie_subject := Some "e"; ie_namespace := Some "a"; ie_payload := VNull; ie_messageId := "m"; ie_correlationId := None |}.
Definition demo_broadcast : BroadcastMessage :=
  {| bm_subject := Some "b"; bm_namespace := Some "a"; bm_payload := VNull; bm_messageId := "m"; bm_correlationId := "c";
     bm_timeout := None |}.

(** The results in the order in which they came, the peer's first. *)
Example demo_broadcast_run :
  map snd (i_acts (handleIncomingMessage demo_ingress "p" (IBroadcast demo_broadcast) demo_iworld).2) =
  let ctx := {| bc_payload := VNull; bc_messageId := "m"; bc_correlationId := "c"; bc_remote := true |} in
  [Asked 1%nat ctx; Asked 2%nat ctx; Asked 3%nat ctx; Relayed "q" demo_broadcast;
   Replied "p" (BroadcastResponse "c" (Some [demo_answer;
     {| nodeId := "here"; br_payload := VObj [("a", VNull); ("b", VNull)] |}]) None)].
Proof. vm_compute. reflexivity. Qed.

Definition demo_local : BroadcastMessage :=
  {| bm_subject := Some "o"; bm_namespace := Some "l"; bm_payload := VNull; bm_messageId := "m"; bm_correlationId := "c";
     bm_timeout := None |}.

Lemma local_subject_never_crosses_witness :
  i_acts (handleIncomingMessage demo_ingress "p" (IBroadcast demo_local) demo_iworld).2 =
    [(100, Replied "p" (BroadcastResponse "c" None (Some (serializeError (LocalSubjectError "l.o" 0)))))].
Proof.
  refine (proj2 (local_subject_never_crosses demo_ingress demo_iworld "p" (IBroadcast demo_local) "l.o" _ eq_refl)).
  left.
Defined.

(** The local handlers pass, the route of [p] gives the result. *)
Lemma request_answered_witness :
  (dispatched demo_ingress (demo_request "b" "a") "a.b" demo_iworld).1 = Ok (Some (VStr "from p")) ∧
  (handleIncomingMessage demo_ingress "q" (IRequest (demo_request "b" "a")) demo_iworld).1 = Ok tt.
Proof.
  split; [vm_compute; reflexivity|].
  destruct (request_answered demo_ingress demo_iworld "q" (demo_request "b" "a") "a.b" eq_refl) as (evs & w1 & rest & _ & Ho & _).
  - apply (bool_decide_unpack _). vm_compute. exact I.
  - exact Ho.
Defined.

Lemma inbound_request_routes_witness : "a.b" ∉ hostLocalRequestSubjects demo_ns.
Proof.
  destruct (nth_error (i_acts (handleIncomingMessage demo_ingress "q" (IRequest (demo_request "b" "a")) demo_iworld).2) 1)
    as [[x a]|] eqn:E; vm_compute in E; [|discriminate E].
  injection E as Ex Ea.
  refine (proj1 (inbound_request_routes demo_ingress demo_iworld "q" (demo_request "b" "a") "a.b" eq_refl _ "p" _ _ _ _)).
  vm_compute. right. left.
Defined.

Lemma event_relayed_then_delivered_witness :
  ∃ w1 : IWorld nat, i_acts w1 = [(100, Evented (Posted "q" {| em_subject := "e"; em_namespace := "a"; em_payload := VNull;
                                                  em_messageId := "m"; em_correlationId := None |}))] ∧
        100 ≤ i_now w1.
Proof.
  destruct (event_relayed_then_delivered demo_ingress demo_iworld "p" demo_event "a.e" eq_refl) as (w1 & evs & Hn & Ha & _).
  - apply (bool_decide_unpack _). vm_compute. exact I.
  - exists w1. split; [exact Ha|exact Hn].
Defined.

Lemma broadcast_answered_witness :
  ∃ before t rest results, i_acts (handleIncomingMessage demo_ingress "p" (IBroadcast demo_broadcast) demo_iworld).2 =
    before ++ [(100, Relayed "q" demo_broadcast)] ++
    (t, Replied "p" (broadcast_reply demo_ingress "p" "c" results None)) :: rest ∧
  results ≡ₚ [{| nodeId := "here"; br_payload := VObj [("a", VNull); ("b", VNull)] |}; demo_answer].
Proof.
  pose proof (broadcast_answered demo_ingress demo_iworld "p" demo_broadcast "a.b" eq_refl
    ltac:(apply (bool_decide_unpack _); vm_compute; exact I)) as Hb.
  cbv zeta in Hb.
  match type of Hb with context [broadcast ?e ?s ?m ?p ?o ?w] => destruct (broadcast e s m p o w) as [lp wb] eqn:E end.
  vm_compute in E. injection E as <- <-. destruct Hb as (results & w1 & rest & Ha & Hp & _).
  eexists _, _, rest, results. split; [exact Ha|exact Hp].
Defined.

(** A negative timeout of a peer, unlike its readiness budget, is not dropped:
    every remote hop then fails in the timeout primitive. *)
Lemma negative_timeout_fails_every_hop :
  let m := {| ir_subject := Some "b"; ir_namespace := Some "a"; ir_payload := VNull; ir_messageId := "m"; ir_correlationId := "c";
              ir_timeout := Some (-5); ir_priority := None; ir_readinessTimeout := Some (-5) |} in
  readinessTimeout (inbound_options m false demo_iworld) = None ∧
  timeout (inbound_options m false demo_iworld) = -5 ∧
  match (dispatched demo_ingress m "a.b" demo_iworld).1 with
  | Throw e => error_cause e = Some (p_timeout_invalid 0)
  | Ok _ => False
  end.
Proof. vm_compute. done. Qed.
