(* ===== verification/Once.v ===== *)
(** * Waiting for one message

    [core/bus-core/src/methods/once.ts], both versions of [once].  The promise
    version is a small state machine: a subscription, a timer that starts when
    the subscription has reached the transports, an abort listener, a promise.
    The callback version is a handler that unsubscribes before it runs; it is
    followed through re-entrant emits, which start their handlers from an array
    taken beforehand ([executeHandlers] of [methods/emit.ts], without
    interceptors). *)
From S2P Require Import Prelude JsValue Correlation.

(** ** The promise version *)
Inductive Settlement :=
  | Resolved (ctx : value)
  | RejectedAbort                   (* [OnceAbortError] *)
  | RejectedTimeout (ms : Z).       (* [OnceTimeoutError] *)

Record OnceOptions := { timeoutMs : option Z; hasSignal : bool }.

Record OnceState := {
  clock : Z;
  subscribed : bool;               (* [unsubscribe] is not null *)
  timer : option Z;                (* when it is due *)
  abortListener : bool;
  promise : option (Z * Settlement);
  propagatedAt : option Z
}.

Section once.
Context (options : OnceOptions).
Implicit Types (st : OnceState).

Definition cleanup st : OnceState :=
  {| clock := clock st; subscribed := false; timer := None; abortListener := false;
     promise := promise st; propagatedAt := propagatedAt st |}.

(** [resolve] and [reject]: the first call counts. *)
Definition settle (s : Settlement) st : OnceState :=
  {| clock := clock st; subscribed := subscribed st; timer := timer st; abortListener := abortListener st;
     promise := match promise st with Some p => Some p | None => Some (clock st, s) end;
     propagatedAt := propagatedAt st |}.

(** The executor of the promise; [aborted]: the signal has fired already. *)
Definition once (aborted : bool) (now : Z) : OnceState :=
  let st := {| clock := now; subscribed := false; timer := None; abortListener := false; promise := None; propagatedAt := None |} in
  if hasSignal options && aborted then settle RejectedAbort (cleanup st)
  else {| clock := now; subscribed := true; timer := None; abortListener := hasSignal options; promise := None;
          propagatedAt := None |}.

Definition delivered (ctx : value) st : OnceState := settle (Resolved ctx) (cleanup st).

(** [startTimer]; a timeout of zero is none. *)
Definition startTimer st : OnceState :=
  {| clock := clock st; subscribed := subscribed st;
     timer := match timeoutMs options with
              | Some ms => if bool_decide (ms ≠ 0) && subscribed st then Some (clock st + timer_delay ms) else timer st
              | None => timer st
              end;
     abortListener := abortListener st; promise := promise st; propagatedAt := Some (clock st) |}.

Definition timer_fires st : OnceState := settle (RejectedTimeout (default 0 (timeoutMs options))) (cleanup st).
Definition abort_fires st : OnceState := settle RejectedAbort (cleanup st).
Definition elapse (ms : nat) st : OnceState :=
  {| clock := clock st + Z.of_nat ms; subscribed := subscribed st; timer := timer st; abortListener := abortListener st;
     promise := promise st; propagatedAt := propagatedAt st |}.

(** A handler may still be called from an array taken before it was removed. *)
Inductive once_step : OnceState → OnceState → Prop :=
  | s_delivered ctx st : once_step st (delivered ctx st)
  | s_propagated st : propagatedAt st = None → once_step st (startTimer st)
  | s_timer st : timer st = Some (clock st) → once_step st (timer_fires st)
  | s_abort st : abortListener st = true → once_step st (abort_fires st)
  | s_elapse ms st : (∀ due, timer st = Some due → clock st + Z.of_nat ms ≤ due) → once_step st (elapse ms st).

(** Waiting, with everything in place, or settled, with nothing left. *)
Record once_ok st : Prop := {
  ok_settled : is_Some (promise st) → subscribed st = false ∧ timer st = None ∧ abortListener st = false;
  ok_waiting : promise st = None → subscribed st = true ∧ abortListener st = hasSignal options ∧
    timer st = match propagatedAt st, timeoutMs options with
               | Some p, Some ms => if bool_decide (ms ≠ 0) then Some (p + timer_delay ms) else None
               | _, _ => None
               end;
  ok_due due : timer st = Some due → clock st ≤ due;
  ok_timeout t ms : promise st = Some (t, RejectedTimeout ms) →
    timeoutMs options = Some ms ∧ ms ≠ 0 ∧ ∃ p, propagatedAt st = Some p ∧ t = p + timer_delay ms;
  ok_past t s : promise st = Some (t, s) → t ≤ clock st
}.

Lemma once_start_ok aborted now : once_ok (once aborted now).
Proof.
  unfold once. destruct (hasSignal options) eqn:Hs, aborted; simpl; split; simpl; try done; try naive_solver lia.
  all: intros; simplify_eq; lia.
Qed.

(** Every way of settling cleans up first. *)
Lemma settle_ok s st : once_ok st →
  (promise st = None → ∀ ms, s = RejectedTimeout ms →
    timeoutMs options = Some ms ∧ ms ≠ 0 ∧ ∃ p, propagatedAt st = Some p ∧ clock st = p + timer_delay ms) →
  once_ok (settle s (cleanup st)).
Proof.
  intros [Hs Hw Hd Ht Hp] Hr. split; simpl; try done.
  - by destruct (promise st).
  - intros t ms. destruct (promise st) as [[t' s']|]; [apply Ht|]. intros [= <- ->]. by apply Hr.
  - intros t s'. destruct (promise st) as [[t' s'']|]; [apply Hp|]. intros [= <- ->]. lia.
Qed.

Lemma once_step_ok st st' : once_ok st → once_step st st' → once_ok st'.
Proof.
  intros Hok. destruct 1 as [ctx st|st Hp|st Ht|st Ha|ms st Hms].
  - by apply settle_ok.
  - destruct Hok as [Hs Hw Hd Ht Hpast]. split; simpl; try done.
    + intros Hsome. destruct (Hs Hsome) as (Hsub & -> & Hl). rewrite Hsub. split_and!; [done| |done].
      destruct (timeoutMs options); [|done]. by rewrite andb_false_r.
    + intros Hnone. destruct (Hw Hnone) as (Hsub & Hl & Htm). rewrite Hsub, Htm, Hp. split_and!; [done..|].
      destruct (timeoutMs options); [|done]. rewrite andb_true_r. done.
    + intros due. destruct (timeoutMs options) as [ms|]; [|apply Hd]. destruct (_ && _); [|apply Hd].
      intros [= <-]. pose proof (timer_delay_positive ms). lia.
    + intros t ms Hto. destruct (Ht t ms Hto) as (_ & _ & p & Hp' & _). congruence.
  - apply settle_ok; [done|]. intros Hnone ms [= <-]. destruct Hok as [Hs Hw Hd _ _].
    destruct (Hw Hnone) as (_ & _ & Htm). rewrite Ht in Htm. destruct (propagatedAt st) as [p|]; [|done].
    destruct (timeoutMs options) as [ms|]; [|done]. case_bool_decide; [|done]. injection Htm as Htm.
    split_and!; [done..|]. by exists p.
  - by apply settle_ok.
  - destruct Hok as [Hs Hw Hd Ht Hpast]. split; simpl; auto. intros t s Hprom. specialize (Hpast t s Hprom). lia.
Qed.

Lemma once_reachable_ok aborted now st : rtc once_step (once aborted now) st → once_ok st.
Proof.
  intros Hst. apply (@rtc_ind_r _ once_step once_ok _ (once_start_ok aborted now)); [|done].
  intros st1 st2 _ Hstep Hok. by eapply once_step_ok.
Qed.

Lemma once_step_final st st' t s : once_step st st' → promise st = Some (t, s) → promise st' = Some (t, s).
Proof. destruct 1; simpl; intros Hp; by rewrite ?Hp. Qed.
End once.

(** ** The callback version, through re-entrant emits of its subject *)
Record CallbackState := {
  registered : list nat;      (* the handlers of the subject, in priority order *)
  armed : list nat;           (* wrappers whose [unsubscribe] is not null *)
  calls : list nat            (* whose functions have been called, oldest first *)
}.

Section callback.
(** How often the function of a handler emits the subject while it runs, given
    the calls so far, its own included. *)
Context (emits : nat → list nat → nat).
Implicit Types (st : CallbackState) (h : nat).

(** The wrapper of [once], or the function itself: an unarmed handler. *)
Definition enter h st : CallbackState :=
  {| registered := if decide (h ∈ armed st) then filter (λ x, x ≠ h) (registered st) else registered st;
     armed := filter (λ x, x ≠ h) (armed st);
     calls := calls st ++ [h] |}.

(** The function [once] returns. *)
Definition cancel h st : CallbackState :=
  if decide (h ∈ armed st)
  then {| registered := filter (λ x, x ≠ h) (registered st); armed := filter (λ x, x ≠ h) (armed st); calls := calls st |}
  else st.

(** [emit] up to a depth of nested emits; [None] when there are more. *)
Fixpoint emit (fuel : nat) st : option CallbackState :=
  match fuel with
  | O => None
  | S fuel =>
      (fix start (handlers : list nat) st : option CallbackState :=
         match handlers with
         | [] => Some st
         | h :: rest =>
             let st1 := enter h st in
             Nat.iter (emits h (calls st1)) (λ r, st ← r; emit fuel st) (Some st1) ≫= start rest
         end) (registered st) st
  end.

Definition start (fuel : nat) : list nat → CallbackState → option CallbackState :=
  fix start (handlers : list nat) st : option CallbackState :=
    match handlers with
    | [] => Some st
    | h :: rest =>
        let st1 := enter h st in
        Nat.iter (emits h (calls st1)) (λ r, st ← r; emit fuel st) (Some st1) ≫= start rest
    end.

Lemma emit_start fuel st : emit (S fuel) st = start fuel (registered st) st.
Proof. reflexivity. Qed.

Definition times h (l : list nat) : nat := List.length (filter (λ x, x = h) l).

Lemma times_app h a b : times h (a ++ b) = (times h a + times h b)%nat.
Proof. unfold times. by rewrite filter_app, length_app. Qed.

Lemma iter_some {A} (P : A → Prop) (f : A → option A) n a b :
  (∀ x y, P x → f x = Some y → P y) → P a → Nat.iter n (λ r, x ← r; f x) (Some a) = Some b → P b.
Proof.
  intros Hf Ha. revert b. induction n as [|n IH]; intros b; simpl; [by intros [= <-]|].
  destruct (Nat.iter n _ (Some a)) as [x|]; [|done]. simpl. intros Hx. eapply Hf; [by apply IH|done].
Qed.

(** Once gone from the registry a handler is not called by an emit. *)
Definition gone h n st : Prop := h ∉ registered st ∧ times h (calls st) = n.

Lemma enter_gone h h' n st : h' ≠ h → gone h n st → gone h n (enter h' st).
Proof.
  intros Hne [Hr Hn]. split; simpl.
  - case_decide; [|done]. intros [_ Hin]%list_elem_of_filter. done.
  - rewrite times_app, Hn. unfold times. rewrite filter_cons_False by done. simpl. lia.
Qed.

Lemma emit_gone h n fuel st st' : gone h n st → emit fuel st = Some st' → gone h n st'.
Proof.
  revert st st'. induction fuel as [|fuel IH]; intros st st'; [done|]. rewrite emit_start. intros Hg.
  assert (h ∉ registered st) as Hni by apply Hg. revert Hni Hg. generalize (registered st). intros l Hni Hg. revert st Hg.
  induction l as [|x l IHl]; intros st Hg; simpl; [by intros [= <-]|].
  apply not_elem_of_cons in Hni as [Hx Hni]. pose proof (enter_gone h x n st (not_eq_sym Hx) Hg) as Hg1.
  destruct (Nat.iter _ _ (Some (enter x st))) as [st2|] eqn:E; [|done]. simpl. apply IHl; [done|].
  eapply (iter_some (gone h n)); [|exact Hg1|exact E]. intros ? ? ? ?. by eapply IH.
Qed.

Lemma enter_once h n st : h ∈ armed st → times h (calls st) = n → gone h (S n) (enter h st).
Proof.
  intros Ha Hn. split; simpl.
  - rewrite decide_True by done. rewrite list_elem_of_filter. naive_solver.
  - rewrite times_app, Hn. unfold times. rewrite filter_cons_True by done. simpl. lia.
Qed.

(** Handlers that do not emit run in one pass. *)
Lemma start_quiet h fuel l st : (∀ x cs, x ≠ h → emits x cs = 0%nat) → h ∉ l →
  ∃ st', start fuel l st = Some st' ∧ times h (calls st') = times h (calls st) ∧
    (h ∈ armed st → h ∈ armed st') ∧ (h ∉ registered st → h ∉ registered st').
Proof.
  intros Hq. revert st. induction l as [|x l IH]; intros st Hni; [by exists st|].
  apply not_elem_of_cons in Hni as [Hx Hni]. simpl. rewrite (Hq x) by done. simpl.
  destruct (IH (enter x st) Hni) as (st' & -> & Ht & Ha & Hr). exists st'. split; [done|]. split_and!.
  - rewrite Ht. simpl. rewrite times_app. unfold times at 2. rewrite filter_cons_False by done. simpl. lia.
  - intros Hin. apply Ha. simpl. apply list_elem_of_filter. done.
  - intros Hin. apply Hr. simpl. case_decide; [|done]. rewrite list_elem_of_filter. naive_solver.
Qed.
End callback.

(** ** Theorems *)

(** However deliveries, the end of the propagation, the timer and the signal
    fall: the promise settles at most once and then nothing is left behind; a
    timeout is reported exactly its time after the subscription has reached
    the transports; and a call with a timeout does not wait longer than that. *)
Theorem once_settles (options : OnceOptions) (aborted : bool) (now : Z) (st : OnceState)
    (Hst : rtc (once_step options) (once options aborted now) st) :
  (∀ t s, promise st = Some (t, s) →
     subscribed st = false ∧ timer st = None ∧ abortListener st = false ∧
     ∀ st', rtc (once_step options) st st' → promise st' = Some (t, s)) ∧
  (∀ t ms, promise st = Some (t, RejectedTimeout ms) →
     timeoutMs options = Some ms ∧ ms ≠ 0 ∧ ∃ p, propagatedAt st = Some p ∧ t = p + timer_delay ms) ∧
  (promise st = None → subscribed st = true ∧
     ∀ p ms, propagatedAt st = Some p → timeoutMs options = Some ms → ms ≠ 0 → clock st ≤ p + timer_delay ms).
Proof.
  apply once_reachable_ok in Hst. destruct Hst as [Hs Hw Hd Ht _]. split_and!; [|done|].
  - intros t s Hp. destruct Hs as (Hsub & Htm & Ha); [by eexists|]. split_and!; [done..|].
    intros st' Hrtc. clear -Hp Hrtc. induction Hrtc as [st|st st1 st2 Hstep _ IH]; [done|].
    apply IH. by eapply once_step_final.
  - intros Hnone. destruct (Hw Hnone) as (Hsub & _ & Htm). split; [done|]. intros p ms Hp Hms Hne. apply Hd.
    rewrite Htm, Hp, Hms. by rewrite bool_decide_true.
Qed.

(** A handler registered with [once] that emits its own subject while it
    runs is called once by the emit that reaches it and the emits it makes. *)
Theorem once_handler_reenters (emits : nat → list nat → nat) (fuel : nat) (st : CallbackState) (h : nat) (l1 l2 : list nat)
    (Harmed : h ∈ armed st) (Hreg : registered st = l1 ++ h :: l2) (Hfresh : h ∉ l1 ++ l2)
    (Hquiet : ∀ x cs, x ≠ h → emits x cs = 0%nat) :
  ∃ st', emit emits (S (S fuel)) st = Some st' ∧ times h (calls st') = S (times h (calls st)) ∧ h ∉ registered st'.
Proof.
  rewrite emit_start, Hreg. apply not_elem_of_app in Hfresh as [H1 H2].
  assert (∀ st l k, start emits (S fuel) (l ++ k) st = start emits (S fuel) l st ≫= start emits (S fuel) k) as Happ.
  { clear. intros st l k. revert st. induction l as [|x l IH]; intros st; [done|]. cbn [start app].
    destruct (Nat.iter _ _ _); [|done]. cbn. apply IH. }
  rewrite Happ. destruct (start_quiet emits h (S fuel) l1 st Hquiet H1) as (st1 & -> & Ht1 & Ha1 & _).
  specialize (Ha1 Harmed). cbn [mbind option_bind start].
  pose proof (enter_once emits h _ st1 Ha1 eq_refl) as Hg. rewrite Ht1 in Hg. set (n := S (times h (calls st))) in *.
  assert (∀ k s, gone h n s → ∃ s', Nat.iter k (λ r, st ← r; emit emits (S fuel) st) (Some s) = Some s' ∧ gone h n s') as Hiter.
  { clear -Hquiet. intros k. induction k as [|k IH]; intros s Hs; [by exists s|].
    rewrite Nat.iter_succ. destruct (IH s Hs) as (s1 & -> & Hs1). cbn [mbind option_bind]. rewrite emit_start.
    destruct (start_quiet emits h fuel (registered s1) s1 Hquiet (proj1 Hs1)) as (s2 & E & Ht & _ & Hr).
    exists s2. split; [exact E|]. destruct Hs1 as [Hr1 Hn]. split; [auto|lia]. }
  destruct (Hiter (emits h (calls (enter h st1))) (enter h st1) Hg) as (st2 & -> & [Hr2 Hn2]).
  cbn [mbind option_bind]. destruct (start_quiet emits h (S fuel) l2 st2 Hquiet H2) as (st3 & -> & Ht3 & _ & Hr3).
  exists st3. split; [done|]. split; [lia|auto].
Qed.

(** ** Witnesses *)
Definition demo_options : OnceOptions := {| timeoutMs := Some 50; hasSignal := true |}.
Definition demo_waiting : OnceState := elapse 20 (startTimer demo_options (elapse 5 (once demo_options false 0))).

Lemma demo_waiting_reachable : rtc (once_step demo_options) (once demo_options false 0) demo_waiting.
Proof.
  eapply rtc_l; [apply (s_elapse _ 5); done|]. eapply rtc_l; [by apply s_propagated|].
  apply rtc_once, (s_elapse _ 20). intros due [= <-]. vm_compute. discriminate.
Qed.

Lemma once_settles_witness : clock demo_waiting ≤ 5 + timer_delay 50.
Proof.
  exact (proj2 (proj2 (proj2 (once_settles demo_options false 0 demo_waiting demo_waiting_reachable)) eq_refl) 5 50
    eq_refl eq_refl ltac:(discriminate)).
Defined.

(** Handler 2 is a [once] handler that emits its own subject. *)
Lemma once_handler_reenters_witness :
  ∃ st', emit (λ h _, if decide (h = 2%nat) then 1%nat else 0%nat) 2 {| registered := [1; 2; 3]%nat; armed := [2%nat]; calls := [] |} = Some st' ∧
    times 2 (calls st') = 1%nat ∧ 2%nat ∉ registered st'.
Proof.
  refine (once_handler_reenters (λ h _, if decide (h = 2%nat) then 1%nat else 0%nat) 0
    {| registered := [1; 2; 3]%nat; armed := [2%nat]; calls := [] |} 2 [1%nat] [3%nat] _ eq_refl _ _).
  - left.
  - apply (bool_decide_unpack _). vm_compute. exact I.
  - intros x cs Hx. by rewrite decide_False.
Defined.

(** A sibling that emits the subject before the [once] handler has had its turn
    makes it run twice: the outer emit still has the wrapper in its array. *)
Lemma once_handler_runs_twice :
  calls <$> emit (λ h cs, if decide (h = 1%nat ∧ cs = [1%nat]) then 1%nat else 0%nat) 2
    {| registered := [1; 2]%nat; armed := [2%nat]; calls := [] |} = Some [1; 1; 2; 2]%nat.
Proof. vm_compute. reflexivity. Qed.
