(* ===== verification/MessagePort.v ===== *)
(** * Message port transport

    [transports/message-channel/src/message-port-transport.ts]: the transport
    that joins two buses over a port.  It answers the requests it has sent
    through [Correlation], holds back messages that come before the bus listens
    and replays them, and mirrors the subscriptions of its bus to the peer.

    Third-party: the port, which delivers what is posted, and the receive
    handlers, which are names here; [delivered] is the order in which they are
    called.  A call of a handler may take any time: the replay loop goes on
    when the environment says that the handler it awaits has returned. *)
From S2P Require Import Prelude JsValue Filters Errors Handlers Remote Dispatch Correlation.

(** ** Messages *)
Inductive PortMessage :=
  | Heartbeat
  | SubscribeSyncComplete
  | SubscribeM (m : SubscribeMessage) (filters : list (string * PayloadFilter))
  | UnsubscribeM (subjects : list (string * list Z))
  | BusM (m : BusMessage) (body : value).

Definition bus_message (m : PortMessage) : BusMessage :=
  match m with BusM b _ => b | _ => Other end.

(** What comes out of a port: a message, an envelope, or anything else. *)
Inductive PortData :=
  | Plain (m : PortMessage)
  | Envelope (channel : string) (m : PortMessage)
  | Unrecognized.

Definition wrap (useEnvelope : bool) (m : PortMessage) : PortData :=
  if useEnvelope then Envelope "bus" m else Plain m.

Definition unwrap (useEnvelope : bool) (data : PortData) : option PortMessage :=
  if useEnvelope
  then match data with Envelope channel m => if decide (channel = "bus") then Some m else None | _ => None end
  else match data with Plain m => Some m | _ => None end.

(** ** State *)
(** A message and its place in the order of arrival. *)
Definition Arrival : Type := nat * PortMessage.

(** A replay awaits the handler; [remaining] follows. *)
Record Replay := { replay_handler : nat; remaining : list Arrival }.

Record Transport := {
  handlers : list nat;
  correlations : Tracker;
  preRegistrationBuffer : list Arrival;
  syncCompleteReceived : bool;
  localSubscriptions : list string;
  localPriorities : list (string * list Z);
  localFilters : list (string * option PayloadFilter);
  localDeliveryClasses : list (string * SubscriptionDeliveryClass);
  attached : bool;                 (* [port.onmessage] is set *)
  ready : bool;                    (* [readyPromise] is resolved *)
  replays : list Replay;
  arrived : nat;
  sent : list PortData;
  delivered : list (nat * Arrival)
}.

Definition createMessagePortTransport (t : Z) : Transport :=
  {| handlers := []; correlations := new_tracker t; preRegistrationBuffer := []; syncCompleteReceived := false;
     localSubscriptions := []; localPriorities := []; localFilters := []; localDeliveryClasses := [];
     attached := false; ready := false; replays := []; arrived := 0; sent := []; delivered := [] |}.

Section transport.
Context (useEnvelope : bool).
Implicit Types (st : Transport).

(** The state with new receive-side fields, and with new send-side fields. *)
Definition receiving hs buffer sync rdy rs n dl st : Transport :=
  {| handlers := hs; correlations := correlations st; preRegistrationBuffer := buffer; syncCompleteReceived := sync;
     localSubscriptions := localSubscriptions st; localPriorities := localPriorities st;
     localFilters := localFilters st; localDeliveryClasses := localDeliveryClasses st;
     attached := attached st; ready := rdy; replays := rs; arrived := n; sent := sent st; delivered := dl |}.

Definition subscribing subs ps fs cs st : Transport :=
  {| handlers := handlers st; correlations := correlations st; preRegistrationBuffer := preRegistrationBuffer st;
     syncCompleteReceived := syncCompleteReceived st; localSubscriptions := subs; localPriorities := ps;
     localFilters := fs; localDeliveryClasses := cs; attached := attached st; ready := ready st;
     replays := replays st; arrived := arrived st; sent := sent st; delivered := delivered st |}.

Definition with_correlations (c : Tracker) st : Transport :=
  {| handlers := handlers st; correlations := c; preRegistrationBuffer := preRegistrationBuffer st;
     syncCompleteReceived := syncCompleteReceived st; localSubscriptions := localSubscriptions st;
     localPriorities := localPriorities st; localFilters := localFilters st;
     localDeliveryClasses := localDeliveryClasses st; attached := attached st; ready := ready st;
     replays := replays st; arrived := arrived st; sent := sent st; delivered := delivered st |}.

Definition transmit (m : PortMessage) st : Transport :=
  {| handlers := handlers st; correlations := correlations st; preRegistrationBuffer := preRegistrationBuffer st;
     syncCompleteReceived := syncCompleteReceived st; localSubscriptions := localSubscriptions st;
     localPriorities := localPriorities st; localFilters := localFilters st;
     localDeliveryClasses := localDeliveryClasses st; attached := attached st; ready := ready st;
     replays := replays st; arrived := arrived st; sent := sent st ++ [wrap useEnvelope m]; delivered := delivered st |}.

(** ** Operations *)
Definition connect st : Transport :=
  {| handlers := handlers st; correlations := correlations st; preRegistrationBuffer := preRegistrationBuffer st;
     syncCompleteReceived := syncCompleteReceived st; localSubscriptions := localSubscriptions st;
     localPriorities := localPriorities st; localFilters := localFilters st;
     localDeliveryClasses := localDeliveryClasses st; attached := true; ready := ready st;
     replays := replays st; arrived := arrived st; sent := sent st; delivered := delivered st |}.

Definition disconnect st : Transport :=
  {| handlers := []; correlations := cleanup (correlations st); preRegistrationBuffer := [];
     syncCompleteReceived := false; localSubscriptions := []; localPriorities := []; localFilters := [];
     localDeliveryClasses := []; attached := false; ready := true;
     replays := replays st; arrived := arrived st; sent := sent st; delivered := delivered st |}.

Definition handleMessage (data : PortData) st : Transport :=
  match unwrap useEnvelope data with
  | None | Some Heartbeat => st
  | Some SubscribeSyncComplete =>
      receiving (handlers st) (preRegistrationBuffer st) true
        (ready st || bool_decide (handlers st ≠ [] ∧ preRegistrationBuffer st = []))
        (replays st) (arrived st) (delivered st) st
  | Some message =>
      let '(handled, c) := handleCorrelationResponse (bus_message message) (correlations st) in
      if handled then with_correlations c st
      else
        let a := (arrived st, message) in
        match handlers st with
        | [] => receiving [] (preRegistrationBuffer st ++ [a]) (syncCompleteReceived st) (ready st)
                  (replays st) (S (arrived st)) (delivered st) st
        | hs => receiving hs (preRegistrationBuffer st) (syncCompleteReceived st) (ready st)
                  (replays st) (S (arrived st)) (delivered st ++ map (λ h, (h, a)) hs) st
        end
  end.

Definition send (m : PortMessage) (timeout : option Z) st : option nat * Transport :=
  let st1 := transmit m st in
  let '(p, c) := trackMessageCorrelation (bus_message m) (default DEFAULT_REQUEST_TIMEOUT_MS timeout) None
                   (correlations st1) in
  (p, with_correlations c st1).

Definition onReceive (h : nat) st : Transport :=
  let hs := JsSet.add h (handlers st) in
  match preRegistrationBuffer st with
  | [] => receiving hs [] (syncCompleteReceived st) (ready st || syncCompleteReceived st)
            (replays st) (arrived st) (delivered st) st
  | a :: rest => receiving hs [] (syncCompleteReceived st) (ready st)
                   (replays st ++ [{| replay_handler := h; remaining := rest |}])
                   (arrived st) (delivered st ++ [(h, a)]) st
  end.

(** The function [onReceive] returns. *)
Definition offReceive (h : nat) st : Transport :=
  receiving (JsSet.delete h (handlers st)) (preRegistrationBuffer st) (syncCompleteReceived st) (ready st)
    (replays st) (arrived st) (delivered st) st.

(** The handler that replay [i] awaits has returned or failed. *)
Definition replay_next (i : nat) st : Transport :=
  match replays st !! i with
  | None => st
  | Some r =>
      match remaining r with
      | a :: rest =>
          receiving (handlers st) (preRegistrationBuffer st) (syncCompleteReceived st) (ready st)
            (<[i := {| replay_handler := replay_handler r; remaining := rest |}]> (replays st))
            (arrived st) (delivered st ++ [(replay_handler r, a)]) st
      | [] =>
          receiving (handlers st) (preRegistrationBuffer st) (syncCompleteReceived st)
            (ready st || syncCompleteReceived st) (delete i (replays st)) (arrived st) (delivered st) st
      end
  end.

Definition class_value (c : SubscriptionDeliveryClass) : value :=
  VStr (match c with relayable => "relayable" | first_hop_only => "first-hop-only" end).

Definition subscribe (subject : string) (filter : option PayloadFilter) (priorities : option (list Z))
    (deliveryClass : option SubscriptionDeliveryClass) st : Transport :=
  let resolvedFilter := match filter with Some f => Some f | None => default None (JsMap.get subject (localFilters st)) end in
  let resolvedClass := match deliveryClass with Some c => c | None =>
                         default relayable (JsMap.get subject (localDeliveryClasses st)) end in
  let ps := default [] priorities in
  transmit (SubscribeM {| sm_subjects := [(subject, ps)]; sm_deliveryClasses := [(subject, class_value resolvedClass)] |}
              (match resolvedFilter with Some f => [(subject, f)] | None => [] end))
    (subscribing (JsSet.add subject (localSubscriptions st)) (JsMap.set subject ps (localPriorities st))
       (JsMap.set subject resolvedFilter (localFilters st))
       (JsMap.set subject resolvedClass (localDeliveryClasses st)) st).

Definition unsubscribe (subject : string) st : Transport :=
  let priorities := default [] (JsMap.get subject (localPriorities st)) in
  transmit (UnsubscribeM [(subject, priorities)])
    (subscribing (JsSet.delete subject (localSubscriptions st)) (JsMap.delete subject (localPriorities st))
       (JsMap.delete subject (localFilters st)) (JsMap.delete subject (localDeliveryClasses st)) st).

Definition cancelRequest (correlationId : string) (error : option thrown) st : Transport :=
  with_correlations (cancel correlationId error (correlations st)) st.

(** ** Runs *)
Inductive PortInput :=
  | Connect | Disconnect
  | SendMessage (m : PortMessage) (timeout : option Z)
  | OnReceive (h : nat) | OffReceive (h : nat)
  | SubscribeTo (subject : string) (filter : option PayloadFilter) (priorities : option (list Z))
      (deliveryClass : option SubscriptionDeliveryClass)
  | UnsubscribeFrom (subject : string)
  | CancelRequest' (correlationId : string) (error : option thrown)
  | Arrive (data : PortData)
  | ReplayNext (i : nat)
  | FireTimer (timer : nat) | AdvanceTo (t : Z).

Definition port_perform (i : PortInput) st : Transport :=
  match i with
  | Connect => connect st
  | Disconnect => disconnect st
  | SendMessage m timeout => (send m timeout st).2
  | OnReceive h => onReceive h st
  | OffReceive h => offReceive h st
  | SubscribeTo s f ps c => subscribe s f ps c st
  | UnsubscribeFrom s => unsubscribe s st
  | CancelRequest' c e => cancelRequest c e st
  | Arrive data => handleMessage data st
  | ReplayNext i => replay_next i st
  | FireTimer t => with_correlations (fire t (correlations st)) st
  | AdvanceTo t => with_correlations (at_clock t (correlations st)) st
  end.

Definition port_enabled (i : PortInput) st : Prop :=
  match i with
  | Arrive _ => attached st = true
  | FireTimer t => enabled (Fire t) (correlations st)
  | AdvanceTo t => enabled (Advance t) (correlations st)
  | _ => True
  end.

(** An id in use is not used again. *)
Definition port_fresh (i : PortInput) st : Prop :=
  match i with
  | SendMessage m timeout => fresh_id (Send (bus_message m) 0 None) (correlations st)
  | _ => True
  end.

Inductive port_step st : Transport → Prop :=
  | port_step_intro i : port_enabled i st → port_fresh i st → port_step st (port_perform i st).
End transport.

(** ** The pieces of a step *)
(** A run in which the transport stays open and subscribes through
    [subscribe] and [unsubscribe] only. *)
Definition open_input (i : PortInput) : Prop :=
  match i with
  | Disconnect | SendMessage (SubscribeM _ _ | UnsubscribeM _) _ => False
  | _ => True
  end.
Inductive open_step (useEnvelope : bool) (st : Transport) : Transport → Prop :=
  | open_step_intro i : open_input i → port_enabled i st → port_fresh i st →
      open_step useEnvelope st (port_perform useEnvelope i st).

Section facts.
Context (useEnvelope : bool).
Notation port_perform := (port_perform useEnvelope).
Notation handleMessage := (handleMessage useEnvelope).
Implicit Types (st : Transport).

(** The messages that handlers are called with. *)
Definition dispatchable (m : PortMessage) : Prop :=
  match m with
  | Heartbeat | SubscribeSyncComplete | BusM (Response _ _ _ | BroadcastResponse _ _ _) _ => False
  | _ => True
  end.

(** What [handleMessage] does with one piece of data. *)
Inductive handled st (data : PortData) : Transport → Prop :=
  | handled_ignored : unwrap useEnvelope data = None ∨ unwrap useEnvelope data = Some Heartbeat → handled st data st
  | handled_sync : unwrap useEnvelope data = Some SubscribeSyncComplete →
      handled st data (receiving (handlers st) (preRegistrationBuffer st) true
        (ready st || bool_decide (handlers st ≠ [] ∧ preRegistrationBuffer st = []))
        (replays st) (arrived st) (delivered st) st)
  | handled_response m c : unwrap useEnvelope data = Some m →
      handleCorrelationResponse (bus_message m) (correlations st) = (true, c) →
      handled st data (with_correlations c st)
  | handled_buffered m : unwrap useEnvelope data = Some m → dispatchable m → handlers st = [] →
      handled st data (receiving [] (preRegistrationBuffer st ++ [(arrived st, m)]) (syncCompleteReceived st) (ready st)
                         (replays st) (S (arrived st)) (delivered st) st)
  | handled_delivered m : unwrap useEnvelope data = Some m → dispatchable m → handlers st ≠ [] →
      handled st data (receiving (handlers st) (preRegistrationBuffer st) (syncCompleteReceived st) (ready st)
                         (replays st) (S (arrived st))
                         (delivered st ++ map (λ h, (h, (arrived st, m))) (handlers st)) st).

Lemma handleMessage_handled st data : handled st data (handleMessage data st).
Proof.
  unfold handleMessage. destruct (unwrap useEnvelope data) as [m|] eqn:Hm; [|by apply handled_ignored; left].
  assert (m = Heartbeat ∨ m = SubscribeSyncComplete ∨
    (∃ c, handleCorrelationResponse (bus_message m) (correlations st) = (true, c)) ∨
    dispatchable m ∧ handleCorrelationResponse (bus_message m) (correlations st) = (false, correlations st)) as Hcases.
  { destruct m as [| | | |[?|?|? []|? []|] ?]; simpl; eauto 6. }
  destruct Hcases as [->|[->|[[c Hc]|[Hd Hc]]]]; [by apply handled_ignored; right|by apply handled_sync|..].
  - destruct m; try (by simpl in Hc); rewrite Hc; by eapply handled_response.
  - destruct m; try done; rewrite Hc; destruct (handlers st) eqn:Hh;
      (by apply handled_buffered) || (rewrite <- Hh; apply handled_delivered; [done..|by rewrite Hh]).
Qed.

(** ** Requests: the tracker of a transport makes proper runs *)
Lemma port_step_tracker st st' :
  port_step useEnvelope st st' → rtc proper_step (correlations st) (correlations st').
Proof.
  assert (∀ i c, enabled i c → fresh_id i c → rtc proper_step c (perform i c)) as Hone
    by (intros; apply rtc_once; by constructor).
  intros [i He Hf]. destruct i; simpl in *; try apply rtc_refl.
  - apply (Hone Cleanup); done.
  - unfold send. destruct (trackMessageCorrelation _ _ _ _) as [p c] eqn:Hc. simpl.
    replace c with (perform (Send (bus_message m) (default DEFAULT_REQUEST_TIMEOUT_MS timeout) None) (correlations st))
      by (simpl in *; by rewrite Hc).
    by apply Hone.
  - unfold onReceive. destruct (preRegistrationBuffer st); apply rtc_refl.
  - by apply (Hone (Cancel correlationId error)).
  - destruct (handleMessage_handled st data) as [?|?|m c ? Hc|?|?]; try apply rtc_refl. simpl.
    replace c with (perform (Receive (bus_message m)) (correlations st)) by (simpl; by rewrite Hc).
    by apply Hone.
  - unfold replay_next. destruct (replays st !! i) as [r|]; [destruct (remaining r)|]; apply rtc_refl.
  - by apply (Hone (Fire timer)).
  - by apply (Hone (Advance t)).
Qed.

Lemma port_tracker_proper t st :
  rtc (port_step useEnvelope) (createMessagePortTransport t) st → rtc proper_step (new_tracker t) (correlations st).
Proof.
  intros H. apply (@rtc_ind_r _ (port_step useEnvelope) (λ s, rtc proper_step (new_tracker t) (correlations s))
    (createMessagePortTransport t)); [apply rtc_refl| |exact H].
  intros st1 st2 _ Hs IH. etransitivity; [exact IH|by apply port_step_tracker].
Qed.

Lemma open_port_steps st st' : rtc (open_step useEnvelope) st st' → rtc (port_step useEnvelope) st st'.
Proof. apply rtc_subrel. intros s1 s2 [i _ He Hf]. by constructor. Qed.

(** ** Arrivals *)
Definition before (a b : Arrival) : Prop := (a.1 < b.1)%nat.
Definition flow (rs : list Replay) : list Arrival := List.concat (map remaining rs).

(** Messages held back: not yet given to a handler. *)
Definition waiting st : list Arrival := preRegistrationBuffer st ++ flow (replays st).

Lemma flow_app rs rs' : flow (rs ++ rs') = flow rs ++ flow rs'.
Proof. unfold flow. by rewrite map_app, concat_app. Qed.
Lemma flow_middle i rs r : flow (take i rs ++ r :: drop (S i) rs) ≡ₚ remaining r ++ flow (delete i rs).
Proof. rewrite delete_take_drop, !flow_app. simpl. by rewrite Permutation_app_swap_app. Qed.
Lemma flow_lookup rs i r : rs !! i = Some r → flow rs ≡ₚ remaining r ++ flow (delete i rs).
Proof. intros H. rewrite <- (take_drop_middle rs i r H) at 1. apply flow_middle. Qed.
Lemma flow_insert rs i r r' : rs !! i = Some r → flow (<[i:=r']> rs) ≡ₚ remaining r' ++ flow (delete i rs).
Proof. intros H. rewrite insert_take_drop by (by eapply lookup_lt_Some). apply flow_middle. Qed.

(** [w]: waiting; [dl]: the calls of handlers; [n]: messages so far. *)
Record stock (w : list Arrival) (dl : list (nat * Arrival)) (n : nat) : Prop := {
  sk_once : NoDup w.*1;
  sk_apart : ∀ a h b, a ∈ w → (h, b) ∈ dl → a.1 ≠ b.1;
  sk_delivered : NoDup (map (λ d : nat * Arrival, (d.1, d.2.1)) dl);
  sk_kept : ∀ k, (k < n)%nat → ∃ m, (k, m) ∈ w ∨ ∃ h, (h, (k, m)) ∈ dl;
  sk_past : ∀ a, a ∈ w ∨ (∃ h, (h, a) ∈ dl) → (a.1 < n)%nat ∧ dispatchable a.2
}.

Lemma stock_perm w w' dl n : w ≡ₚ w' → stock w dl n → stock w' dl n.
Proof. intros Hp [S1 S2 S3 S4 S5]. split; try setoid_rewrite <- Hp; done. Qed.

Lemma stock_arrive w dl n m : stock w dl n → dispatchable m → stock (w ++ [(n, m)]) dl (S n).
Proof.
  intros [S1 S2 S3 S4 S5] Hm. split.
  - rewrite fmap_app. apply NoDup_app. split_and!; [done| |by apply NoDup_singleton].
    intros k Hk Hn. apply list_elem_of_singleton in Hn. subst k. apply list_elem_of_fmap in Hk as ([k m'] & E & Ha).
    destruct (S5 _ (or_introl Ha)). simpl in *. lia.
  - intros a h b [Ha|Ha]%elem_of_app Hb; [by eapply S2|]. apply list_elem_of_singleton in Ha as ->.
    destruct (S5 b) as [? _]; [right; by eexists|]. simpl. lia.
  - done.
  - intros k Hk. destruct (decide (k = n)) as [->|Hne].
    + exists m. left. apply elem_of_app. right. by apply list_elem_of_singleton.
    + destruct (S4 k) as (m' & [H|H]); [lia| |]; exists m'; [left|by right]. apply elem_of_app. by left.
  - intros a [[Ha|Ha]%elem_of_app|Ha].
    + destruct (S5 a) as [? ?]; [by left|]. split; [lia|done].
    + apply list_elem_of_singleton in Ha as ->. split; [simpl; lia|done].
    + destruct (S5 a) as [? ?]; [by right|]. split; [lia|done].
Qed.

Lemma stock_live w dl n m hs :
  stock w dl n → dispatchable m → NoDup hs → hs ≠ [] → stock w (dl ++ map (λ h, (h, (n, m))) hs) (S n).
Proof.
  intros [S1 S2 S3 S4 S5] Hm Hnd Hne.
  assert (∀ h a, (h, a) ∈ map (λ h, (h, (n, m))) hs ↔ h ∈ hs ∧ a = (n, m)) as Hel
    by (intros h a; rewrite list_elem_of_fmap; naive_solver).
  split.
  - done.
  - intros a h b Ha [Hb|Hb]%elem_of_app; [by eapply S2|]. apply Hel in Hb as [_ ->].
    destruct (S5 a) as [? _]; [by left|]. simpl. lia.
  - rewrite map_app, map_map. apply NoDup_app. split_and!; [done| |].
    + intros [h k] Hk Hk'. apply list_elem_of_fmap in Hk' as (h' & [= -> ->] & _).
      apply list_elem_of_fmap in Hk as ([h2 [k2 m2]] & [= -> ->] & Hd).
      destruct (S5 (k2, m2)) as [? _]; [right; by eexists|]. simpl in *. lia.
    + apply (NoDup_fmap_2_strong (λ h, (h, n))); [|done]. intros h1 h2 _ _ [= ->]. done.
  - intros k Hk. destruct (decide (k = n)) as [->|Hkn].
    + destruct hs as [|h hs]; [done|]. exists m. right. exists h. apply elem_of_app. right. apply Hel.
      split; [by left|done].
    + destruct (S4 k) as (m' & [H|[h H]]); [lia| |]; exists m'; [by left|right]. exists h. apply elem_of_app. by left.
  - intros a [Ha|[h [Ha|Ha]%elem_of_app]].
    + destruct (S5 a) as [? ?]; [by left|]. split; [lia|done].
    + destruct (S5 a) as [? ?]; [right; by eexists|]. split; [lia|done].
    + apply Hel in Ha as [_ ->]. split; [simpl; lia|done].
Qed.

Lemma stock_deliver a w dl n h : stock (a :: w) dl n → stock w (dl ++ [(h, a)]) n.
Proof.
  intros [S1 S2 S3 S4 S5]. simpl in S1. apply NoDup_cons in S1 as [Ha S1]. split.
  - done.
  - intros b h' c Hb [Hc|Hc]%elem_of_app; [by eapply S2; [right|]|].
    apply list_elem_of_singleton in Hc as [= -> ->]. intros E. apply Ha. rewrite <- E.
    by apply list_elem_of_fmap_2.
  - rewrite map_app. apply NoDup_app. split_and!; [done| |by apply NoDup_singleton].
    intros hk Hk Hx. apply list_elem_of_singleton in Hx as ->. apply list_elem_of_fmap in Hk as ([h2 b] & [= -> E] & Hd).
    exact (S2 a h2 b (list_elem_of_here _ _) Hd E).
  - intros k Hk. destruct (S4 k Hk) as (m & [[<-|H]%elem_of_cons|[h' H]]); exists m.
    + right. exists h. apply elem_of_app. right. by apply list_elem_of_singleton.
    + by left.
    + right. exists h'. apply elem_of_app. by left.
  - intros b [Hb|[h' [Hb|Hb]%elem_of_app]]; apply S5.
    + left. by right.
    + right. by eexists.
    + apply list_elem_of_singleton in Hb as [= -> ->]. left. by left.
Qed.

Record receive_ok st : Prop := {
  ro_stock : stock (waiting st) (delivered st) (arrived st);
  ro_buffer : handlers st ≠ [] → preRegistrationBuffer st = [];
  ro_handlers : NoDup (handlers st);
  ro_sorted : StronglySorted before (preRegistrationBuffer st);
  ro_replay : ∀ r, r ∈ replays st → StronglySorted before (remaining r);
  ro_ready : ready st = true → syncCompleteReceived st = true;
  ro_settled : syncCompleteReceived st = true → handlers st ≠ [] → ready st = true ∨ replays st ≠ []
}.
Lemma create_receive_ok t : receive_ok (createMessagePortTransport t).
Proof.
  assert (stock [] [] 0) as Hs.
  { split; simpl; [constructor| |constructor|intros; lia|].
    - intros a h b Ha. by apply elem_of_nil in Ha.
    - intros a [Ha|[h Ha]]; by apply elem_of_nil in Ha. }
  split; simpl; [done..|apply NoDup_nil_2|constructor|by intros r Hr%elem_of_nil|done|done].
Qed.

Lemma onReceive_ok h st : receive_ok st → receive_ok (onReceive h st).
Proof.
  intros [Hs Hb Hh Hso Hre Hr Hse]. unfold onReceive.
  destruct (preRegistrationBuffer st) as [|a rest] eqn:Ebuf.
  - split; simpl; try done.
    + unfold waiting in *. simpl. by rewrite Ebuf in Hs.
    + by apply JsSet.NoDup_add.
    + intros [?|?]%orb_true_iff; auto.
    + intros Hsync _. left. rewrite Hsync. apply orb_true_r.
  - split; simpl; try done.
    + eapply stock_perm; [|apply (stock_deliver a (rest ++ flow (replays st)) _ _ h)].
      * unfold waiting. simpl. rewrite flow_app. simpl. unfold flow at 3. simpl. rewrite !app_nil_r.
        apply Permutation_app_comm.
      * unfold waiting in Hs. by rewrite Ebuf in Hs.
    + by apply JsSet.NoDup_add.
    + constructor.
    + intros r [Hin|Hin]%elem_of_app; [by apply Hre|]. apply list_elem_of_singleton in Hin as ->. simpl.
      by apply StronglySorted_inv in Hso as [? _].
    + intros _ _. right. by destruct (replays st).
Qed.

Lemma offReceive_ok h st : receive_ok st → receive_ok (offReceive h st).
Proof.
  intros [Hs Hb Hh Hso Hre Hr Hse].
  assert (JsSet.delete h (handlers st) ≠ [] → handlers st ≠ []) as Hne
    by (intros H E; apply H; by rewrite E).
  split; simpl; auto. by apply NoDup_filter.
Qed.

Lemma handleMessage_ok data st : receive_ok st → receive_ok (handleMessage data st).
Proof.
  intros Hok. destruct (handleMessage_handled st data) as [_|_|m c _ _|m _ Hm Hnil|m _ Hm Hne];
    destruct Hok as [Hs Hb Hh Hso Hre Hr Hse]; split; simpl; try done; auto.
  - intros _ Hne. left. rewrite bool_decide_true by auto. apply orb_true_r.
  - eapply stock_perm; [|exact (stock_arrive _ _ _ m Hs Hm)]. unfold waiting. simpl.
    rewrite <- !app_assoc. apply Permutation_app_head, Permutation_app_comm.
  - constructor.
  - apply StronglySorted_app_2; [|done|by repeat constructor].
    intros a b Ha ->%list_elem_of_singleton. unfold before. simpl.
    apply (sk_past _ _ _ Hs). left. apply elem_of_app. by left.
  - by apply stock_live.
Qed.

Lemma replay_next_ok i st : receive_ok st → receive_ok (replay_next i st).
Proof.
  intros Hok. unfold replay_next. destruct (replays st !! i) as [r|] eqn:Hi; [|done].
  destruct Hok as [Hs Hb Hh Hso Hre Hr Hse]. pose proof (flow_lookup _ _ _ Hi) as Hflow.
  assert (r ∈ replays st) as Hin by (by eapply list_elem_of_lookup_2).
  destruct (remaining r) as [|a rest] eqn:Hrem; split; simpl; try done; auto.
  - eapply stock_perm; [|exact Hs]. unfold waiting. simpl. by rewrite Hflow.
  - intros r' Hr'. apply Hre. apply list_elem_of_lookup in Hr' as [j Hj].
    rewrite delete_take_drop in Hj. apply list_elem_of_lookup_2, elem_of_app in Hj as [Hj|Hj];
      apply list_elem_of_lookup in Hj as [k Hk].
    + apply lookup_take_Some in Hk as [Hk _]. by eapply list_elem_of_lookup_2.
    + rewrite lookup_drop in Hk. by eapply list_elem_of_lookup_2.
  - intros [?|?]%orb_true_iff; auto.
  - intros Hsync _. left. rewrite Hsync. apply orb_true_r.
  - eapply stock_perm; [|apply (stock_deliver a (rest ++ waiting (receiving (handlers st) (preRegistrationBuffer st)
      true true (delete i (replays st)) 0 [] st)) _ _ (replay_handler r))].
    + unfold waiting. simpl. rewrite (flow_insert _ _ r _ Hi). simpl. apply Permutation_app_swap_app.
    + eapply stock_perm; [|exact Hs]. unfold waiting. simpl. rewrite Hflow. simpl.
      rewrite <- Permutation_middle. constructor. apply Permutation_app_swap_app.
  - intros r' Hr'. apply list_elem_of_lookup in Hr' as [j Hj].
    apply list_lookup_insert_Some in Hj as [(-> & <- & _)|[_ Hj]]; [|by eapply Hre, list_elem_of_lookup_2].
    simpl. specialize (Hre r Hin). rewrite Hrem in Hre. by apply StronglySorted_inv in Hre as [? _].
  - intros Hsync Hne. destruct (Hse Hsync Hne) as [?|Hrs]; [by left|right].
    intros E. apply (f_equal List.length) in E. rewrite length_insert in E. by destruct (replays st).
Qed.

Lemma open_step_receive st st' : open_step useEnvelope st st' → receive_ok st → receive_ok st'.
Proof.
  intros [i Ho He Hf] Hok. destruct i; simpl; try done;
    auto using onReceive_ok, offReceive_ok, handleMessage_ok, replay_next_ok; try (by destruct Hok).
  unfold send. destruct (trackMessageCorrelation _ _ _ _). by destruct Hok.
Qed.

(** ** Subscriptions

    The peer's bus applies what it reads from the port to its remote
    subscriptions, under its own name [t] for this transport. *)
Section mirror.
Context {H : Type} `{EqDecision H} (t : string).

Definition peer_receive (ctx : BusContext H) (data : PortData) : BusContext H :=
  match unwrap useEnvelope data with
  | Some (SubscribeM m _) => (propagateSubscribe ctx t m).1
  | Some (UnsubscribeM subjects) => (propagateUnsubscribe ctx t (JsMap.keys subjects)).1
  | _ => ctx
  end.

(** What the peer knows, against the local tables and what it knew before. *)
Record mirrors (rs0 rs : RemoteState) st (s : string) : Prop := {
  mi_entries : entriesOf rs s = without t (entriesOf rs0 s) ++
    map (Build_RemoteEntry t) (default [] (JsMap.get s (localPriorities st)));
  mi_events t' : t' ∈ eventsOf rs s ↔
    if decide (t' = t) then JsMap.get s (localPriorities st) = Some [] else t' ∈ eventsOf rs0 s;
  mi_class t' : deliveryClassOf rs s t' =
    if decide (t' = t) then JsMap.get s (localDeliveryClasses st) else deliveryClassOf rs0 s t'
}.

Lemma unwrap_wrap m : unwrap useEnvelope (wrap useEnvelope m) = Some m.
Proof. unfold unwrap, wrap. destruct useEnvelope; [by rewrite decide_True|done]. Qed.

Lemma normalize_class c : normalizeSubscriptionDeliveryClass (class_value c) = c.
Proof. by destruct c. Qed.

Lemma without_mirrored es ps : without t (without t es ++ map (Build_RemoteEntry t) ps) = without t es.
Proof.
  unfold without. rewrite filter_app, (filter_all _ (filter _ es)), (filter_none _ (map _ ps)), app_nil_r; [done|..].
  - intros e He. apply list_elem_of_fmap in He as (p & -> & _). simpl. congruence.
  - intros e He. by apply list_elem_of_filter in He as [? _].
Qed.

Lemma mirrors_same rs0 rs rs' st s : same_view s rs' rs → mirrors rs0 rs st s → mirrors rs0 rs' st s.
Proof.
  intros (E1 & E2 & E3) [M1 M2 M3]. split; [by rewrite E1|intros t'; by rewrite E2|intros t'; by rewrite E3].
Qed.

Lemma mirrors_tables rs0 rs st st' s :
  JsMap.get s (localPriorities st') = JsMap.get s (localPriorities st) →
  JsMap.get s (localDeliveryClasses st') = JsMap.get s (localDeliveryClasses st) →
  mirrors rs0 rs st s → mirrors rs0 rs st' s.
Proof.
  intros E1 E2 [M1 M2 M3]. split; [by rewrite E1|intros t'; by rewrite E1|intros t'; by rewrite E2].
Qed.

Lemma mirrors_subscribe rs0 ctx st subject filter priorities cls :
  let st' := subscribe useEnvelope subject filter priorities cls st in
  (∀ s, mirrors rs0 (remote ctx) st s) →
  ∀ s, mirrors rs0 (remote (foldl peer_receive ctx (drop (List.length (sent st)) (sent st')))) st' s.
Proof.
  intros st' Hm s. unfold st', subscribe, transmit. cbn [sent]. rewrite drop_app_length.
  cbn [foldl]. unfold peer_receive. rewrite unwrap_wrap. unfold propagateSubscribe.
  cbn [foldl fst remote with_remote sm_subjects sm_deliveryClasses].
  set (ps := default [] priorities). set (c := match cls with Some c => c | None => _ end).
  destruct (decide (subject = s)) as [->|Hne].
  - destruct (Hm s) as [M1 M2 M3]. split; cbn [localPriorities localDeliveryClasses subscribing].
    + rewrite entries_subscribeOne, decide_True, M1, without_mirrored, JsMap.get_set_eq by done. done.
    + intros t'. rewrite events_subscribeOne, JsMap.get_set_eq. destruct (decide (t' = t)) as [->|Ht].
      * rewrite decide_True by done. split; [by intros ->|by intros [= ->]].
      * rewrite decide_False by naive_solver. rewrite M2, decide_False by done. done.
    + intros t'. rewrite class_subscribeOne, JsMap.get_set_eq. destruct (decide (t' = t)) as [->|Ht].
      * rewrite decide_True by done. f_equal. cbn [JsMap.get].
        rewrite decide_True by done. apply normalize_class.
      * rewrite decide_False by naive_solver. by rewrite M3, decide_False.
  - eapply mirrors_same; [by apply view_subscribe_other|]. eapply mirrors_tables; [..|apply Hm]; simpl;
      by rewrite JsMap.get_set_ne.
Qed.

Lemma mirrors_unsubscribe rs0 ctx st subject :
  let st' := unsubscribe useEnvelope subject st in
  (∀ s, mirrors rs0 (remote ctx) st s) →
  ∀ s, mirrors rs0 (remote (foldl peer_receive ctx (drop (List.length (sent st)) (sent st')))) st' s.
Proof.
  intros st' Hm s. unfold st', unsubscribe, transmit. cbn [sent]. rewrite drop_app_length.
  cbn [foldl]. unfold peer_receive. rewrite unwrap_wrap. unfold propagateUnsubscribe. cbn [JsMap.keys fmap list_fmap fst remote with_remote foldl].
  destruct (decide (subject = s)) as [->|Hne].
  - destruct (Hm s) as [M1 M2 M3]. destruct (purged_unsubscribeOne t (remote ctx) s) as (P1 & P2 & P3).
    split; cbn [localPriorities localDeliveryClasses subscribing].
    + rewrite P1, M1, without_mirrored, JsMap.get_delete_eq. simpl. by rewrite app_nil_r.
    + intros t'. rewrite P2, JsSet.elem_delete, JsMap.get_delete_eq. case_decide; [naive_solver|].
      rewrite M2, decide_False by done. naive_solver.
    + intros t'. rewrite P3, JsMap.get_delete_eq. destruct (decide (t' = t)) as [->|Ht]; [by rewrite decide_True|].
      rewrite decide_False by congruence. by rewrite M3, decide_False.
  - eapply mirrors_same; [by apply view_unsubscribeOne_other|]. eapply mirrors_tables; [..|apply Hm]; simpl;
      by rewrite JsMap.get_delete_ne.
Qed.

(** Every step but these two leaves the tables alone and sends nothing that
    the peer takes for a subscription. *)
Lemma quiet_step i st :
  open_input i → (∀ s f ps c, i ≠ SubscribeTo s f ps c) → (∀ s, i ≠ UnsubscribeFrom s) →
  let st' := port_perform i st in
  localSubscriptions st' = localSubscriptions st ∧ localPriorities st' = localPriorities st ∧
  localDeliveryClasses st' = localDeliveryClasses st ∧
  ∃ extra, sent st' = sent st ++ extra ∧ ∀ ctx, foldl peer_receive ctx extra = ctx.
Proof.
  intros Ho Hs Hu.
  assert (∀ st', localSubscriptions st' = localSubscriptions st → localPriorities st' = localPriorities st →
    localDeliveryClasses st' = localDeliveryClasses st → sent st' = sent st →
    localSubscriptions st' = localSubscriptions st ∧ localPriorities st' = localPriorities st ∧
    localDeliveryClasses st' = localDeliveryClasses st ∧
    ∃ extra, sent st' = sent st ++ extra ∧ ∀ ctx, foldl peer_receive ctx extra = ctx) as Hsame.
  { intros st' E1 E2 E3 E4. split_and!; try done. exists []. by rewrite app_nil_r. }
  destruct i as [| |m timeout|h|h|s f ps c|s|c e|data|i|timer|t']; simpl; try (by apply Hsame).
  - done.
  - unfold send. destruct (trackMessageCorrelation _ _ _ _). simpl. split_and!; try done.
    exists [wrap useEnvelope m]. split; [done|]. intros ctx. simpl. unfold peer_receive. rewrite unwrap_wrap.
    by destruct m.
  - unfold onReceive. destruct (preRegistrationBuffer st); by apply Hsame.
  - by destruct (Hs s f ps c).
  - by destruct (Hu s).
  - destruct (handleMessage_handled st data); by apply Hsame.
  - unfold replay_next. destruct (replays st !! i) as [r|]; [|by apply Hsame].
    destruct (remaining r); by apply Hsame.
Qed.

Record subscriptions_ok (ctx0 : BusContext H) st : Prop := {
  so_mirrors s : mirrors (remote ctx0) (remote (foldl peer_receive ctx0 (sent st))) st s;
  so_subscribed s : s ∈ localSubscriptions st ↔ is_Some (JsMap.get s (localPriorities st));
  so_classified s : is_Some (JsMap.get s (localDeliveryClasses st)) ↔ is_Some (JsMap.get s (localPriorities st))
}.

Lemma sent_grows ctx st extra st' :
  sent st' = sent st ++ extra →
  foldl peer_receive ctx (sent st') =
    foldl peer_receive (foldl peer_receive ctx (sent st)) (drop (List.length (sent st)) (sent st')).
Proof. intros ->. by rewrite drop_app_length, foldl_app. Qed.

Lemma subscriptions_step ctx0 st st' :
  open_step useEnvelope st st' → subscriptions_ok ctx0 st → subscriptions_ok ctx0 st'.
Proof.
  intros [i Ho He Hf] [Hm Hs Hc].
  assert (∀ s f ps c, subscriptions_ok ctx0 (subscribe useEnvelope s f ps c st)) as Hsub.
  { intros s f ps c. split; [|intros s'; simpl..].
    - eassert (sent (subscribe useEnvelope s f ps c st) = sent st ++ _) as E by reflexivity.
      rewrite (sent_grows ctx0 st _ _ E). by apply mirrors_subscribe.
    - rewrite JsSet.elem_add, JsMap.get_set, Hs. case_decide; naive_solver.
    - rewrite !JsMap.get_set. case_decide; [naive_solver|apply Hc]. }
  assert (∀ s, subscriptions_ok ctx0 (unsubscribe useEnvelope s st)) as Hunsub.
  { intros s. split; [|intros s'; simpl..].
    - eassert (sent (unsubscribe useEnvelope s st) = sent st ++ _) as E by reflexivity.
      rewrite (sent_grows ctx0 st _ _ E). by apply mirrors_unsubscribe.
    - rewrite JsSet.elem_delete, JsMap.get_delete, Hs. case_decide; naive_solver.
    - rewrite !JsMap.get_delete. case_decide; [naive_solver|apply Hc]. }
  assert ((∃ s f ps c, i = SubscribeTo s f ps c) ∨ (∃ s, i = UnsubscribeFrom s) ∨
    (∀ s f ps c, i ≠ SubscribeTo s f ps c) ∧ ∀ s, i ≠ UnsubscribeFrom s) as [(s & f & ps & c & ->)|[[s ->]|[H1 H2]]]
    by (destruct i; eauto 10; right; right; split; congruence).
  - apply Hsub.
  - apply Hunsub.
  - destruct (quiet_step i st Ho H1 H2) as (E1 & E2 & E3 & extra & E4 & E5). split.
    + intros s. rewrite E4, foldl_app, E5. eapply mirrors_tables; [by rewrite E2|by rewrite E3|apply Hm].
    + intros s. by rewrite E1, E2.
    + intros s. by rewrite E2, E3.
Qed.

(** The peer has not heard of this transport. *)
Definition unknown (rs : RemoteState) : Prop := ∀ s,
  without t (entriesOf rs s) = entriesOf rs s ∧ t ∉ eventsOf rs s ∧ deliveryClassOf rs s t = None.

Lemma create_subscriptions_ok ctx0 t0 : unknown (remote ctx0) → subscriptions_ok ctx0 (createMessagePortTransport t0).
Proof.
  intros Hu. split; simpl; [|intros s; split; [by intros Hn%elem_of_nil|by intros [? ?]]|done].
  intros s. destruct (Hu s) as (U1 & U2 & U3). split; simpl.
  - by rewrite U1, app_nil_r.
  - intros t'. case_decide; [by subst|done].
  - intros t'. case_decide; [by subst|done].
Qed.
End mirror.
End facts.

(** ** Theorems *)
Section properties.
Context (useEnvelope : bool) (t0 : Z).
Notation start := (createMessagePortTransport t0).
Implicit Types (st : Transport).

Lemma open_receive_ok st : rtc (open_step useEnvelope) start st → receive_ok st.
Proof.
  intros H. apply (@rtc_ind_r _ (open_step useEnvelope) receive_ok start); [apply create_receive_ok| |exact H].
  intros st1 st2 _ Hs IH. by eapply open_step_receive.
Qed.

(** Whatever is subscribed and unsubscribed, the peer that reads the port
    in order knows exactly the local subscriptions: the priorities of each
    subject, events for a subject without priorities, the delivery class; and
    what it knows of other transports is untouched. *)
Theorem subscriptions_mirrored {H} `{EqDecision H} (t : string) (ctx : BusContext H) st
    (Hr : rtc (open_step useEnvelope) start st) (Hu : unknown t (remote ctx)) s :
  let rs := remote (foldl (peer_receive useEnvelope t) ctx (sent st)) in
  entriesOf rs s = entriesOf (remote ctx) s ++
    map (Build_RemoteEntry t) (default [] (JsMap.get s (localPriorities st))) ∧
  (t ∈ eventsOf rs s ↔ JsMap.get s (localPriorities st) = Some []) ∧
  deliveryClassOf rs s t = JsMap.get s (localDeliveryClasses st) ∧
  (s ∈ localSubscriptions st ↔ is_Some (deliveryClassOf rs s t)) ∧
  ∀ t', t' ≠ t → (t' ∈ eventsOf rs s ↔ t' ∈ eventsOf (remote ctx) s) ∧
                 deliveryClassOf rs s t' = deliveryClassOf (remote ctx) s t'.
Proof.
  assert (subscriptions_ok useEnvelope t ctx st) as [Hm Hs Hc].
  { apply (@rtc_ind_r _ (open_step useEnvelope) (subscriptions_ok useEnvelope t ctx) start);
      [by apply create_subscriptions_ok| |exact Hr].
    intros st1 st2 _ Hstep IH. by eapply subscriptions_step. }
  destruct (Hm s) as [M1 M2 M3]. cbv zeta. split_and!.
  - rewrite <- (proj1 (Hu s)). exact M1.
  - rewrite M2. by rewrite decide_True.
  - by rewrite M3, decide_True.
  - rewrite M3, decide_True by done. by rewrite Hs, Hc.
  - intros t' Hne. split; [rewrite M2|rewrite M3]; by rewrite decide_False.
Qed.

(** No message is lost or repeated while the transport is open: each one
    that arrived is held back or has been given to a handler, never twice to
    the same one; held-back messages keep their order; and once a handler is
    there and the replays are over, nothing is held back. *)
Theorem arrivals_accounted st (Hr : rtc (open_step useEnvelope) start st) :
  (∀ n, (n < arrived st)%nat → ∃ m, (n, m) ∈ waiting st ∨ ∃ h, (h, (n, m)) ∈ delivered st) ∧
  NoDup (map (λ d : nat * Arrival, (d.1, d.2.1)) (delivered st)) ∧
  (∀ h a, (h, a) ∈ delivered st → a ∉ waiting st ∧ dispatchable a.2) ∧
  StronglySorted before (preRegistrationBuffer st) ∧
  (∀ r, r ∈ replays st → StronglySorted before (remaining r)) ∧
  (handlers st ≠ [] → replays st = [] → waiting st = []).
Proof.
  pose proof (open_receive_ok st Hr) as [[S1 S2 S3 S4 S5] Hb Hh Hso Hre _ _]. split_and!; try done.
  - intros h a Ha. split; [|apply S5; right; by exists h]. intros Hw. exact (S2 a h a Hw Ha eq_refl).
  - intros Hne Hrs. unfold waiting. by rewrite Hb, Hrs.
Qed.

(** A transport reports ready only after the handshake, and it does report
    it once the handshake has come, a handler is there and no replay is left. *)
Theorem ready_with_handshake st (Hr : rtc (open_step useEnvelope) start st) :
  (ready st = true → syncCompleteReceived st = true) ∧
  (syncCompleteReceived st = true → handlers st ≠ [] → replays st = [] → ready st = true).
Proof.
  pose proof (open_receive_ok st Hr) as [_ _ _ _ _ H1 H2]. split; [done|].
  intros Hs Hne Hrs. destruct (H2 Hs Hne) as [?|?]; done.
Qed.

(** A disconnect at any time releases everything: every request ever sent
    is settled, the open ones with an error, no timer is left, nothing is held
    back for a later handler, and whoever awaits readiness goes on. *)
Theorem disconnect_releases st (Hr : rtc (port_step useEnvelope) start st) :
  let st' := disconnect st in
  ready st' = true ∧ attached st' = false ∧ handlers st' = [] ∧ preRegistrationBuffer st' = [] ∧
  localSubscriptions st' = [] ∧ pending (correlations st') = [] ∧ timers (correlations st') = ∅ ∧
  ∀ p r, promises (correlations st) !! p = Some r →
    promises (correlations st') !! p = Some (set_state (Throw
      (TErr (next (correlations st)) ErrorClass "Transport disconnected" None [])) r).
Proof.
  pose proof (port_tracker_proper useEnvelope t0 st Hr) as Hp.
  pose proof (proper_sound t0 _ Hp) as Hok.
  assert (sound (cleanup (correlations st))) as [H' _] by (by apply (perform_sound Cleanup)).
  simpl. split_and!; try done.
  - apply map_empty. intros i. destruct (timers (cleanup (correlations st)) !! i) as [tm|] eqn:Htm; [|done].
    destruct (ac_timers _ _ H' i tm Htm) as (q & Hq & _). done.
  - intros p r Hr'. pose proof (perform_fate Cleanup _ p r Hok I Hr') as [[Hsame Hno]|(_ & q & o & _ & _ & -> & Hset)];
      [|exact Hset].
    rewrite <- (set_state_settled (Throw (TErr (next (correlations st)) ErrorClass "Transport disconnected" None [])) r)
      in Hsame; [exact Hsame|].
    intros Hs. destruct (ac_unsettled _ _ (proj1 Hok) p r Hr' Hs) as (q & Hq & _).
    by eapply (Hno Hs q _ Hq).
Qed.
End properties.

(** *** Concrete runs *)
#[export] Instance port_enabled_dec i st : Decision (port_enabled i st).
Proof. destruct i; simpl; first [apply (enabled_dec (Fire _))|apply (enabled_dec (Advance _))|apply _]. Defined.
#[export] Instance port_fresh_dec i st : Decision (port_fresh i st).
Proof.
  destruct i as [| |m timeout| | | | | | | | |]; try exact (left I).
  exact (fresh_id_dec (Send (bus_message m) 0 None) (correlations st)).
Defined.
#[export] Instance open_input_dec i : Decision (open_input i).
Proof. destruct i as [| |[] ?| | | | | | | | |]; simpl; apply _. Defined.

Fixpoint port_run (inputs : list PortInput) (st : Transport) : option Transport :=
  match inputs with
  | [] => Some st
  | i :: rest => if decide (open_input i ∧ port_enabled i st ∧ port_fresh i st)
                 then port_run rest (port_perform false i st) else None
  end.

Lemma port_run_open inputs st st' : port_run inputs st = Some st' → rtc (open_step false) st st'.
Proof.
  revert st. induction inputs as [|i rest IH]; intros st; simpl; [intros [= ->]; apply rtc_refl|].
  case_decide as H; [|done]. destruct H as (Ho & He & Hf). intros Hrun.
  eapply rtc_l; [exact (open_step_intro false st i Ho He Hf)|by apply IH].
Qed.

Definition note (n : Z) : PortMessage := BusM Other (VNum (Int n)).
Definition start0 : Transport := createMessagePortTransport 0.

Definition busy : list PortInput :=
  [Connect; SendMessage (BusM (Request "r") VNull) None; Arrive (Plain (note 1)); Arrive (Plain (note 2));
   SubscribeTo "a.b" None (Some [5; 3]) None; SubscribeTo "c" None None (Some first_hop_only);
   UnsubscribeFrom "x"; OnReceive 7; ReplayNext 0; ReplayNext 0; Arrive (Plain SubscribeSyncComplete);
   Arrive (Plain (note 3))].
Definition demo_port : Transport := default start0 (port_run busy start0).

Lemma demo_port_open : rtc (open_step false) start0 demo_port.
Proof. apply (port_run_open busy). vm_compute. reflexivity. Qed.

Definition empty_bus : BusContext nat :=
  {| local := {| requests := []; events := [] |}; remote := empty_remote;
     namespaces := {| listRegisteredSubjects := []; hostLocalRequestSubjects := []; collectorOnlySubjects := [];
                      defaultTransportsMap := [] |}; transports := [] |}.

Lemma subscriptions_mirrored_witness :
  let rs := remote (foldl (peer_receive false "worker") empty_bus (sent demo_port)) in
  entriesOf rs "a.b" = map (Build_RemoteEntry "worker") [5; 3] ∧
  deliveryClassOf rs "c" "worker" = Some first_hop_only.
Proof.
  assert (unknown "worker" (remote empty_bus)) as Hu
    by (intros s; split_and!; [reflexivity|apply not_elem_of_nil|reflexivity]).
  split.
  - exact (proj1 (subscriptions_mirrored false 0 "worker" empty_bus demo_port demo_port_open Hu "a.b")).
  - exact (proj1 (proj2 (proj2 (subscriptions_mirrored false 0 "worker" empty_bus demo_port demo_port_open Hu "c")))).
Defined.

Lemma arrivals_accounted_witness :
  delivered demo_port = [(7%nat, (0%nat, note 1)); (7%nat, (1%nat, note 2)); (7%nat, (2%nat, note 3))] ∧
  waiting demo_port = [].
Proof.
  split; [vm_compute; reflexivity|].
  apply (proj2 (proj2 (proj2 (proj2 (proj2 (arrivals_accounted false 0 demo_port demo_port_open))))));
    vm_compute; [discriminate|reflexivity].
Defined.

Lemma ready_with_handshake_witness : ready demo_port = true.
Proof.
  apply (proj2 (ready_with_handshake false 0 demo_port demo_port_open)); vm_compute;
    [reflexivity|discriminate|reflexivity].
Defined.

Lemma disconnect_releases_witness :
  p_state <$> promises (correlations demo_port) !! 0%nat = Some None ∧
  pending (correlations (disconnect demo_port)) = [].
Proof.
  split; [vm_compute; reflexivity|].
  exact (proj1 (proj2 (proj2 (proj2 (proj2 (proj2
    (disconnect_releases false 0 demo_port (open_port_steps false _ _ demo_port_open)))))))).
Defined.

(** A replay awaits its first handler call when the handshake comes: the
    transport reports ready although the second message is still held back. *)
Definition early : list PortInput :=
  [Connect; Arrive (Plain (note 1)); Arrive (Plain (note 2)); OnReceive 7; Arrive (Plain SubscribeSyncComplete)].
Lemma ready_before_replay_done :
  let st := default start0 (port_run early start0) in
  ready st = true ∧ waiting st = [(1%nat, note 2)] ∧ delivered st = [(7%nat, (0%nat, note 1))].
Proof. vm_compute. done. Qed.

(** A message that arrives during a replay is delivered before older ones. *)
Definition overtaking : list PortInput :=
  [Connect; Arrive (Plain (note 1)); Arrive (Plain (note 2)); OnReceive 7; Arrive (Plain (note 3)); ReplayNext 0].
Lemma live_message_overtakes_replay :
  delivered (default start0 (port_run overtaking start0)) =
    [(7%nat, (0%nat, note 1)); (7%nat, (2%nat, note 3)); (7%nat, (1%nat, note 2))].
Proof. vm_compute. reflexivity. Qed.
