(* ===== verification/TopoSort.v ===== *)
(** * Extension load order

    [packages/kernel/src/extension/topo-sort.ts]: dependency validation, fatal
    for enabled packages and downgraded to a warning for the others, and Kahn's
    algorithm over the loaded packages.

    Version ranges are decided by the third-party semver library, the
    parameter [versionSatisfies]; nothing is assumed of it. *)
From S2P Require Import Prelude JsValue.

Record Dependency := { dep_name : string; dep_version : string; optional : bool }.
Record Extension := { ext_name : string; ext_version : string; dependencies : list Dependency }.

(** [enabledNames]; [None] when omitted: every package participates. *)
Definition TopoSortOptions := option (list string).
Definition Warning : Type := string * string.

Section topo_sort.
Context (versionSatisfies : string → string → bool).
Notation M := (ST (list Warning) string).

Definition is_fatal (options : TopoSortOptions) (name : string) : bool :=
  match options with None => true | Some names => bool_decide (name ∈ names) end.

Definition reportValidationFailure (isFatal : bool) (name message : string) : M unit :=
  if isFatal then st_throw message else λ ws, (Ok tt, ws ++ [(name, message)]).

Fixpoint collectUniqueNames (nodes : list string) (packages : list Extension) : M (list string) :=
  match packages with
  | [] => st_ret nodes
  | p :: ps =>
      if decide (ext_name p ∈ nodes)
      then st_throw ("ExtensionCoordinator: duplicate package name detected: " +:+ quoted (ext_name p))
      else collectUniqueNames (nodes ++ [ext_name p]) ps
  end.

Definition find_package (packages : list Extension) (name : string) : option Extension :=
  snd <$> list_find (λ p, ext_name p = name) packages.

Definition missing_dependencies (nodes : list string) (p : Extension) : list Dependency :=
  filter (λ d, optional d = false ∧ dep_name d ∉ nodes) (dependencies p).

Fixpoint checkVersions (packages : list Extension) (isFatal : bool) (name : string)
    (deps : list Dependency) : M unit :=
  match deps with
  | [] => st_ret tt
  | d :: ds =>
      let* _ := match find_package packages (dep_name d) with
                | None => st_ret tt
                | Some q =>
                    if versionSatisfies (ext_version q) (dep_version d) then st_ret tt
                    else reportValidationFailure isFatal name
                           ("ExtensionCoordinator: package " +:+ quoted name +:+ " dependency " +:+ quoted (dep_name d) +:+
                            " version " +:+ ext_version q +:+ " does not satisfy " +:+ dep_version d)
                end in
      checkVersions packages isFatal name ds
  end.

Definition validatePackageDependencies (packages : list Extension) (nodes : list string)
    (options : TopoSortOptions) (p : Extension) : M unit :=
  let isFatal := is_fatal options (ext_name p) in
  let* _ := match missing_dependencies nodes p with
            | [] => st_ret tt
            | missing => reportValidationFailure isFatal (ext_name p)
                ("ExtensionCoordinator: package " +:+ quoted (ext_name p) +:+ " declares missing dependencies: " +:+
                 Str.join ", " (map dep_name missing))
            end in
  checkVersions packages isFatal (ext_name p) (dependencies p).

Fixpoint validateDependencies (packages : list Extension) (nodes : list string)
    (options : TopoSortOptions) (todo : list Extension) : M unit :=
  match todo with
  | [] => st_ret tt
  | p :: ps => let* _ := validatePackageDependencies packages nodes options p in
               validateDependencies packages nodes options ps
  end.

Definition buildRemainingDependencyMap (packages : list Extension) (nodes : list string) :
    list (string * list string) :=
  foldl (λ m p, JsMap.set (ext_name p)
    (JsSet.of_list (map dep_name (filter (λ d, dep_name d ∈ nodes) (dependencies p)))) m) [] packages.

(** The loop body after [node] was shifted: delete it from every dependency
    set, queueing the dependents it was the last dependency of. *)
Fixpoint unblock (node : string) (visited : list string) (remainingDeps : list (string * list string)) :
    list (string * list string) * list string :=
  match remainingDeps with
  | [] => ([], [])
  | (dependent, deps) :: rest =>
      let '(rest', queued) := unblock node visited rest in
      if decide (node ∈ deps) then
        let deps' := JsSet.delete node deps in
        ((dependent, deps') :: rest',
         if bool_decide (deps' = []) && bool_decide (dependent ∉ visited) then dependent :: queued else queued)
      else ((dependent, deps) :: rest', queued)
  end.

Fixpoint kahn (fuel : nat) (queue : list string) (remainingDeps : list (string * list string))
    (result : list string) : option (list string) :=
  match queue with
  | [] => Some result
  | node :: queue' =>
      match fuel with
      | O => None
      | S fuel =>
          if decide (node ∈ result) then kahn fuel queue' remainingDeps result
          else
            let result' := result ++ [node] in
            let '(remainingDeps', queued) := unblock node result' remainingDeps in
            kahn fuel (queue' ++ queued) remainingDeps' result'
      end
  end.

Definition initial_queue (remainingDeps : list (string * list string)) : list string :=
  (filter (λ nd : string * list string, nd.2 = []) remainingDeps).*1.

Definition runKahnSort (nodes : list string) (remainingDeps : list (string * list string))
    (options : TopoSortOptions) : option (M (list string)) :=
  match kahn (List.length nodes) (initial_queue remainingDeps) remainingDeps [] with
  | None => None
  | Some result => Some (
      if bool_decide (List.length result = List.length nodes) then st_ret result
      else
        let cycle := filter (λ n, n ∉ result) nodes in
        let fatalCycleMembers := filter (λ n, is_fatal options n = true) cycle in
        match fatalCycleMembers with
        | [] =>
            let message := "ExtensionCoordinator: circular dependency detected among disabled packages: " +:+
                           Str.join ", " cycle in
            λ ws, (Ok (result ++ cycle), ws ++ map (λ n, (n, message)) cycle)
        | _ => st_throw ("ExtensionCoordinator: circular dependency detected among: " +:+
                         Str.join ", " cycle)
        end)
  end.

(** [None] when the loop bound was too small, which never happens. *)
Definition topoSort (packages : list Extension) (options : TopoSortOptions) :
    option (outcome string (list string) * list Warning) :=
  match collectUniqueNames [] packages [] with
  | (Throw e, ws) => Some (Throw e, ws)
  | (Ok nodes, ws) =>
      match validateDependencies packages nodes options packages ws with
      | (Throw e, ws) => Some (Throw e, ws)
      | (Ok _, ws) =>
          match runKahnSort nodes (buildRemainingDependencyMap packages nodes) options with
          | Some m => Some (m ws)
          | None => None
          end
      end
  end.
End topo_sort.

(** ** Kahn's algorithm on an abstract dependency table *)
Section kahn.
Context (deps0 : list (string * list string)).
Notation nodes := (JsMap.keys deps0).
Implicit Types (result queue : list string).

(** The table after the nodes of [result] were deleted from every set. *)
Definition remaining_deps result : list (string * list string) :=
  map (λ nd : string * list string, (nd.1, filter (λ d, d ∉ result) nd.2)) deps0.

(** The dependencies of [n] are all in [result]. *)
Definition ready result n : Prop := ∃ ds, (n, ds) ∈ deps0 ∧ ∀ d, d ∈ ds → d ∈ result.

(** Each node comes after all its dependencies. *)
Definition deps_first result : Prop :=
  ∀ l1 n l2, result = l1 ++ n :: l2 → ready l1 n.

Record kahn_inv queue result : Prop := {
  ki_nodup : NoDup (queue ++ result);
  ki_ready n : n ∈ queue ++ result ↔ ready result n;
  ki_order : deps_first result;
}.

Lemma filter_snoc result node (ds : list string) :
  filter (λ d, d ∉ result ++ [node]) ds = JsSet.delete node (filter (λ d, d ∉ result) ds).
Proof.
  unfold JsSet.delete. rewrite filter_filter_and. apply list_filter_iff. intros d. set_solver.
Qed.

Hypothesis nodes_nodup : NoDup nodes.

Lemma deps_unique n ds ds' : (n, ds) ∈ deps0 → (n, ds') ∈ deps0 → ds = ds'.
Proof. intros H1%(JsMap.elem_get _ _ _ nodes_nodup) H2%(JsMap.elem_get _ _ _ nodes_nodup). congruence. Qed.

Lemma ready_node result n : ready result n → n ∈ nodes.
Proof. intros (ds & Hin & _). apply list_elem_of_fmap. by exists (n, ds). Qed.

Lemma unblock_spec node result :
  let '(rem', queued) := unblock node (result ++ [node]) (remaining_deps result) in
  rem' = remaining_deps (result ++ [node]) ∧ NoDup queued ∧
  ∀ n, n ∈ queued ↔ ∃ ds, (n, ds) ∈ deps0 ∧ node ∈ ds ∧ node ∉ result ∧
    (∀ d, d ∈ ds → d ∈ result ++ [node]) ∧ n ∉ result ++ [node].
Proof.
  unfold remaining_deps. induction deps0 as [|[n ds] deps IH]; simpl.
  { split_and!; [done|apply NoDup_nil_2|]. set_solver. }
  apply NoDup_cons in nodes_nodup as [Hni Hnd]. specialize (IH Hnd).
  destruct (unblock node (result ++ [node]) (map _ deps)) as [rest queued].
  destruct IH as (-> & Hq & Hqe).
  assert (Hnq : n ∉ queued).
  { intros (ds' & Hin & _)%Hqe. apply Hni, list_elem_of_fmap. by exists (n, ds'). }
  assert (Hempty : JsSet.delete node (filter (λ d, d ∉ result) ds) = [] ↔ ∀ d, d ∈ ds → d ∈ result ++ [node]).
  { rewrite <- filter_snoc. split.
    - intros He d Hd. destruct (decide (d ∈ result ++ [node])); [done|].
      exfalso. apply (not_elem_of_nil d). rewrite <- He. by apply list_elem_of_filter.
    - intros Hall. apply filter_none. intros d Hd Hno. by apply Hno, Hall. }
  destruct (decide (node ∈ filter (λ d, d ∉ result) ds)) as [[Hnr Hin]%list_elem_of_filter|Hnin].
  - rewrite filter_snoc. split; [done|].
    assert (∀ n', n' ∈ queued ∨ (n' = n ∧ JsSet.delete node (filter (λ d, d ∉ result) ds) = [] ∧ n ∉ result ++ [node]) ↔
      ∃ ds', (n', ds') ∈ (n, ds) :: deps ∧ node ∈ ds' ∧ node ∉ result ∧
        (∀ d, d ∈ ds' → d ∈ result ++ [node]) ∧ n' ∉ result ++ [node]) as Hiff.
    { intros n'. rewrite Hqe, Hempty. setoid_rewrite elem_of_cons. naive_solver. }
    destruct (bool_decide (_ = []) && bool_decide (n ∉ _)) eqn:E.
    + apply andb_true_iff in E as [E1%bool_decide_eq_true E2%bool_decide_eq_true].
      split; [by apply NoDup_cons|]. intros n'. rewrite <- Hiff, elem_of_cons. naive_solver.
    + split; [done|]. intros n'. rewrite <- Hiff. split; [by left|]. intros [?|(-> & E1 & E2)]; [done|].
      by rewrite !bool_decide_true in E by done.
  - rewrite filter_snoc. unfold JsSet.delete. rewrite (filter_all (λ y, y ≠ node)) by set_solver.
    split_and!; [done|done|]. intros n'. rewrite Hqe. setoid_rewrite elem_of_cons.
    split; [naive_solver|]. intros (ds' & [Heq|Hin] & H1 & H2 & H3); [|eauto]. simplify_eq.
    exfalso. apply Hnin. by apply list_elem_of_filter.
Qed.

Lemma kahn_inv_step node queue result :
  kahn_inv (node :: queue) result →
  let '(rem', queued) := unblock node (result ++ [node]) (remaining_deps result) in
  node ∉ result ∧ rem' = remaining_deps (result ++ [node]) ∧ kahn_inv (queue ++ queued) (result ++ [node]).
Proof.
  intros [Hnd Hready Hord]. pose proof (unblock_spec node result) as Hu.
  destruct (unblock _ _ _) as [rem' queued]. destruct Hu as (-> & Hndq & Hq).
  simpl in Hnd. apply NoDup_cons in Hnd as [Hnode Hnd].
  assert (Hnr : node ∉ result) by set_solver. split; [done|]. split; [done|].
  assert (Hnode_ready : ready result node) by (apply Hready; left).
  assert (Hmono : ∀ n, ready result n → ready (result ++ [node]) n).
  { intros n (ds & Hin & Hall). exists ds. split; [done|]. set_solver. }
  assert (Hnq : ∀ n, n ∈ queued → n ∉ queue ++ result).
  { intros n (ds & Hin & Hnd' & _)%Hq Hn.
    assert (ready result n) as (ds' & Hin' & Hall) by (apply Hready; right; done).
    rewrite (deps_unique _ _ _ Hin Hin') in Hnd'. set_solver. }
  split.
  - rewrite <- app_assoc. apply NoDup_app in Hnd as (N1 & N2 & N3). apply NoDup_app.
    split; [done|]. split.
    + intros x Hx. rewrite !elem_of_app. intros [Hxq|[Hxr|Hxn]].
      * by apply (Hnq x Hxq), elem_of_app; left.
      * by apply (N2 x).
      * apply list_elem_of_singleton in Hxn as ->. set_solver.
    + apply NoDup_app. split; [done|]. split.
      * intros x Hx Hin. apply Hq in Hx as (ds & _ & _ & _ & _ & Hx). done.
      * apply NoDup_app. split; [done|]. split; [set_solver|apply NoDup_singleton].
  - intros n. rewrite !elem_of_app, list_elem_of_singleton. split.
    + intros [[Hn|Hn]|[Hn| ->]].
      * apply Hmono, Hready. right. apply elem_of_app. by left.
      * apply Hq in Hn as (ds & Hin & _ & _ & Hall & _). by exists ds.
      * apply Hmono, Hready. right. apply elem_of_app. by right.
      * by apply Hmono.
    + intros (ds & Hin & Hall). destruct (decide (node ∈ ds)) as [Hd|Hd].
      * left. right. apply Hq. exists ds. split_and!; try done. intros Hn.
        assert (ready result n) as (ds' & Hin' & Hall').
        { apply elem_of_app in Hn as [Hn|Hn%list_elem_of_singleton]; [|by subst].
          apply Hready. right. apply elem_of_app. by right. }
        rewrite (deps_unique _ _ _ Hin Hin') in Hd. by apply Hnr, Hall'.
      * assert (ready result n) as Hr.
        { exists ds. split; [done|]. intros d Hds. specialize (Hall d Hds). set_solver. }
        apply Hready in Hr. set_solver.
  - intros l1 n l2 Heq. destruct l2 as [|x l2 _] using rev_ind.
    + apply app_inj_tail in Heq as [<- <-]. done.
    + rewrite app_comm_cons, app_assoc in Heq. apply app_inj_tail in Heq as [-> _]. by eapply Hord.
Qed.

Lemma kahn_spec fuel queue result :
  kahn_inv queue result → (List.length nodes ≤ fuel + List.length result)%nat →
  ∃ order, kahn fuel queue (remaining_deps result) result = Some order ∧ kahn_inv [] order.
Proof.
  revert queue result. induction fuel as [|fuel IH]; intros queue result Hinv Hf; destruct queue as [|node queue];
    simpl; [eauto|exfalso|eauto|].
  - pose proof (ki_nodup _ _ Hinv) as Hnd.
    assert (List.length ((node :: queue) ++ result) ≤ List.length nodes)%nat as Hle; [|simpl in Hle; rewrite length_app in Hle; lia].
    apply submseteq_length, NoDup_submseteq; [done|]. intros n Hn. eapply ready_node. by apply (ki_ready _ _ Hinv).
  - pose proof (kahn_inv_step _ _ _ Hinv) as Hs. destruct (unblock _ _ _) as [rem' queued].
    destruct Hs as (Hnr & -> & Hinv'). rewrite decide_False by done. apply IH; [done|].
    rewrite length_app. simpl. lia.
Qed.

Lemma kahn_start :
  kahn_inv (initial_queue (remaining_deps [])) [] ∧ remaining_deps [] = deps0.
Proof.
  assert (remaining_deps [] = deps0) as Heq.
  { unfold remaining_deps. rewrite <- (map_id deps0) at 2. apply map_ext. intros [n ds]. simpl. f_equal.
    apply filter_all. set_solver. }
  split; [|done]. rewrite Heq. unfold initial_queue. split.
  - rewrite app_nil_r. by apply (JsMap.NoDup_keys_filter (λ nd, nd.2 = [])).
  - intros n. rewrite app_nil_r, list_elem_of_fmap. unfold ready. split.
    + intros ([n' ds] & -> & [Hds Hin]%list_elem_of_filter). simpl in *. subst. exists []. set_solver.
    + intros (ds & Hin & Hall). exists (n, ds). split; [done|]. apply list_elem_of_filter. split; [|done]. simpl.
      destruct ds as [|d ds]; [done|]. exfalso. apply (not_elem_of_nil d), Hall. left.
  - intros l1 n l2 Heq'. by destruct l1.
Qed.

Hypothesis deps_known : ∀ n ds d, (n, ds) ∈ deps0 → d ∈ ds → d ∈ nodes.

(** A rank that every dependency lowers reaches every node. *)
Lemma kahn_complete order (rank : string → nat) :
  kahn_inv [] order → (∀ n ds d, (n, ds) ∈ deps0 → d ∈ ds → (rank d < rank n)%nat) →
  ∀ n, n ∈ nodes → n ∈ order.
Proof.
  intros [_ Hready _] Hrank n. remember (rank n) as r eqn:Hr. revert n Hr.
  induction (lt_wf r) as [r _ IH]. intros n -> Hn. apply (Hready n).
  apply list_elem_of_fmap in Hn as ([n' ds] & -> & Hin). exists ds. split; [done|]. intros d Hd.
  eapply IH; [by eapply Hrank|done|by eapply deps_known].
Qed.
End kahn.

(** ** Validation *)
Lemma collectUniqueNames_spec nodes packages ws :
  NoDup nodes →
  match collectUniqueNames nodes packages ws with
  | (Ok ns, ws') => ns = nodes ++ map ext_name packages ∧ NoDup ns ∧ ws' = ws
  | (Throw _, _) => ¬ NoDup (nodes ++ map ext_name packages)
  end.
Proof.
  revert nodes. induction packages as [|p ps IH]; intros nodes Hnd; simpl; [by rewrite app_nil_r|].
  case_decide as Hin; simpl.
  - intros Hn. apply NoDup_app in Hn as (_ & Hn & _). apply (Hn _ Hin). left.
  - specialize (IH (nodes ++ [ext_name p])). rewrite <- app_assoc in IH. apply IH.
    apply NoDup_app. split_and!; [done|set_solver|apply NoDup_singleton].
Qed.

Lemma buildRemaining_eq packages nodes :
  NoDup (map ext_name packages) →
  buildRemainingDependencyMap packages nodes =
    map (λ p, (ext_name p, JsSet.of_list (map dep_name (filter (λ d, dep_name d ∈ nodes) (dependencies p))))) packages.
Proof.
  unfold buildRemainingDependencyMap. induction packages as [|p ps IH] using rev_ind; intros Hnd; [done|].
  rewrite map_app in Hnd. simpl in Hnd. apply NoDup_app in Hnd as (Hnd & Hdis & _).
  rewrite foldl_app, map_app. simpl. rewrite IH by done. rewrite JsMap.set_absent; [done|].
  apply JsMap.get_None. unfold JsMap.keys. rewrite list_elem_of_fmap.
  intros ([k ds] & Hk & (q & Heq & Hq)%list_elem_of_fmap). injection Heq as Hq1 _. simpl in Hk.
  apply (Hdis (ext_name p)); [|left]. apply list_elem_of_fmap. exists q. by rewrite Hk, Hq1.
Qed.

Section validation.
Context (versionSatisfies : string → string → bool).
Implicit Types (packages : list Extension) (p : Extension) (options : TopoSortOptions).

(** What fatal validation asks of a package. *)
Definition dependencies_ok packages p : Prop :=
  (∀ d, d ∈ dependencies p → optional d = false → dep_name d ∈ map ext_name packages) ∧
  (∀ d q, d ∈ dependencies p → find_package packages (dep_name d) = Some q →
     versionSatisfies (ext_version q) (dep_version d) = true).

Lemma checkVersions_spec packages isFatal name deps ws :
  let r := (checkVersions versionSatisfies packages isFatal name deps ws).1 in
  (r = Ok tt ∨ ∃ e, r = Throw e) ∧
  (r = Ok tt ↔ (isFatal = true → ∀ d q, d ∈ deps → find_package packages (dep_name d) = Some q →
     versionSatisfies (ext_version q) (dep_version d) = true)).
Proof.
  revert ws. induction deps as [|d deps IH]; intros ws; simpl.
  { split; [by left|]. split; [|done]. by intros _ _ d q ?%elem_of_nil. }
  unfold st_bind. destruct (find_package packages (dep_name d)) as [q|] eqn:Hf; simpl.
  - destruct (versionSatisfies (ext_version q) (dep_version d)) eqn:Hv; simpl.
    + destruct (IH ws) as [H1 H2]. split; [done|]. rewrite H2. setoid_rewrite elem_of_cons. naive_solver.
    + destruct isFatal; simpl.
      * split; [eauto|]. split; [done|]. intros Hall. rewrite (Hall eq_refl d q) in Hv; [done|left|done].
      * destruct (IH (ws ++ [(name, "ExtensionCoordinator: package " +:+ quoted name +:+ " dependency " +:+
          quoted (dep_name d) +:+ " version " +:+ ext_version q +:+ " does not satisfy " +:+ dep_version d)]))
          as [H1 H2]. split; [done|]. rewrite H2. done.
  - destruct (IH ws) as [H1 H2]. split; [done|]. rewrite H2. setoid_rewrite elem_of_cons. naive_solver.
Qed.

Lemma validatePackage_spec packages options p ws :
  let r := (validatePackageDependencies versionSatisfies packages (map ext_name packages) options p ws).1 in
  (r = Ok tt ∨ ∃ e, r = Throw e) ∧
  (r = Ok tt ↔ (is_fatal options (ext_name p) = true → dependencies_ok packages p)).
Proof.
  unfold validatePackageDependencies, dependencies_ok, st_bind.
  assert (Hm : missing_dependencies (map ext_name packages) p = [] ↔
    ∀ d, d ∈ dependencies p → optional d = false → dep_name d ∈ map ext_name packages).
  { unfold missing_dependencies. split.
    - intros He d Hd Ho. destruct (decide (dep_name d ∈ map ext_name packages)); [done|].
      exfalso. apply (not_elem_of_nil d). rewrite <- He. by apply list_elem_of_filter.
    - intros Hall. apply filter_none. intros d Hd [Ho Hn]. by apply Hn, Hall. }
  destruct (missing_dependencies _ p) as [|d ds] eqn:Hmiss; simpl.
  - destruct (checkVersions_spec packages (is_fatal options (ext_name p)) (ext_name p) (dependencies p) ws) as [H1 H2].
    split; [done|]. rewrite H2. rewrite <- Hm. naive_solver.
  - assert (¬ ∀ d, d ∈ dependencies p → optional d = false → dep_name d ∈ map ext_name packages) as Hno.
    { intros Hall. by apply Hm in Hall. }
    destruct (is_fatal options (ext_name p)); simpl.
    + split; [eauto|]. split; [done|]. intros Hok. by destruct Hno, (Hok eq_refl).
    + match goal with |- context [checkVersions _ _ _ _ _ ?ws'] =>
        destruct (checkVersions_spec packages false (ext_name p) (dependencies p) ws') as [H1 H2] end.
      split; [done|]. rewrite H2. done.
Qed.

Lemma validateDependencies_spec packages options todo ws :
  let r := (validateDependencies versionSatisfies packages (map ext_name packages) options todo ws).1 in
  (r = Ok tt ∨ ∃ e, r = Throw e) ∧
  (r = Ok tt ↔ ∀ p, p ∈ todo → is_fatal options (ext_name p) = true → dependencies_ok packages p).
Proof.
  revert ws. induction todo as [|p todo IH]; intros ws; simpl.
  { split; [by left|]. split; [|done]. by intros _ p ?%elem_of_nil. }
  unfold st_bind. pose proof (validatePackage_spec packages options p ws) as [H1 H2].
  destruct (validatePackageDependencies _ _ _ _ _ ws) as [[[]|e] ws']; simpl in *.
  - destruct (IH ws') as [H3 H4]. split; [done|]. rewrite H4. setoid_rewrite elem_of_cons. naive_solver.
  - split; [eauto|]. split; [done|]. intros Hall. destruct H2 as [_ H2].
    apply H2, Hall. left.
Qed.

End validation.

(** The dependency table of a package set. *)
Definition table packages : list (string * list string) :=
  map (λ p, (ext_name p, JsSet.of_list (map dep_name
    (filter (λ d, dep_name d ∈ map ext_name packages) (dependencies p))))) packages.

Lemma table_keys packages : JsMap.keys (table packages) = map ext_name packages.
Proof. unfold JsMap.keys, table. by rewrite <- list_fmap_compose. Qed.

Lemma table_elem packages n ds d :
  (n, ds) ∈ table packages → d ∈ ds ↔
  (∃ p dep, p ∈ packages ∧ (n, ds) = (ext_name p, JsSet.of_list (map dep_name
      (filter (λ d, dep_name d ∈ map ext_name packages) (dependencies p)))) ∧
    dep ∈ dependencies p ∧ d = dep_name dep ∧ d ∈ map ext_name packages).
Proof.
  intros (p & Heq & Hp)%list_elem_of_fmap. split.
  - intros Hd. exists p. injection Heq as -> ->. rewrite JsSet.elem_of_list in Hd.
    apply list_elem_of_fmap in Hd as (dep & -> & [Hin Hdep]%list_elem_of_filter). eauto 10.
  - intros (q & dep & Hq & Heq' & Hdep & -> & Hin). injection Heq' as -> ->.
    apply JsSet.elem_of_list, list_elem_of_fmap. exists dep. split; [done|]. by apply list_elem_of_filter.
Qed.

(** [x] stands before [y] in the order. *)
Definition before (order : list string) (x y : string) : Prop :=
  ∃ l1 l2, order = l1 ++ y :: l2 ∧ x ∈ l1.

Definition rank_lowered packages (rank : string → nat) : Prop :=
  ∀ p d, p ∈ packages → d ∈ dependencies p → dep_name d ∈ map ext_name packages →
    (rank (dep_name d) < rank (ext_name p))%nat.

(** The sort of a set without duplicate names. *)
Lemma kahn_table packages :
  NoDup (map ext_name packages) →
  ∃ order, kahn (List.length (map ext_name packages)) (initial_queue (table packages)) (table packages) [] = Some order ∧
    kahn_inv (table packages) [] order.
Proof.
  intros Hnd. assert (NoDup (JsMap.keys (table packages))) as Hk by by rewrite table_keys.
  destruct (kahn_start (table packages) Hk) as [Hinv Heq].
  destruct (kahn_spec (table packages) Hk (List.length (map ext_name packages)) _ [] Hinv) as (order & Ho & Hi).
  { rewrite table_keys. simpl. lia. }
  exists order. by rewrite Heq in Ho.
Qed.

Lemma kahn_order_perm packages order :
  NoDup (map ext_name packages) → kahn_inv (table packages) [] order →
  NoDup order ∧ (∀ n, n ∈ order → n ∈ map ext_name packages).
Proof.
  intros Hnd Hi. split; [apply (ki_nodup _ _ _ Hi)|]. intros n Hn. rewrite <- table_keys.
  eapply ready_node. by apply (ki_ready _ _ _ Hi).
Qed.

Lemma kahn_before packages order p d rest :
  NoDup (map ext_name packages) → kahn_inv (table packages) [] order →
  p ∈ packages → d ∈ dependencies p → dep_name d ∈ map ext_name packages → ext_name p ∈ order →
  before (order ++ rest) (dep_name d) (ext_name p).
Proof.
  intros Hnd Hi Hp Hd Hl Hin. apply list_elem_of_split in Hin as (l1 & l2 & ->).
  destruct (ki_order _ _ _ Hi l1 (ext_name p) l2 eq_refl) as (ds & Hds & Hall).
  exists l1, (l2 ++ rest). rewrite <- app_assoc. split; [done|]. apply Hall.
  apply (table_elem packages _ _ _ Hds). apply list_elem_of_fmap in Hds as (q & Heq & Hq).
  exists p, d. split_and!; try done.
  assert (q = p) as ->; [|done]. injection Heq as Hn _.
  apply list_elem_of_lookup in Hq as [i Hi']. apply list_elem_of_lookup in Hp as [j Hj].
  assert (i = j) as ->; [|congruence].
  apply (NoDup_lookup _ i j (ext_name p) Hnd); change (map ext_name packages) with (ext_name <$> packages);
    rewrite list_lookup_fmap, ?Hi', ?Hj; simpl; congruence.
Qed.

(** *** Properties *)

(** The sort always terminates with an order or an error: the loop visits
    each package at most once, so the bound it is given suffices. *)
Theorem topoSort_total (versionSatisfies : string → string → bool) (packages : list Extension)
    (options : TopoSortOptions) : topoSort versionSatisfies packages options ≠ None.
Proof.
  unfold topoSort.
  pose proof (collectUniqueNames_spec [] packages [] (NoDup_nil_2)) as Hc.
  destruct (collectUniqueNames [] packages []) as [[ns|e] ws]; [|done]. destruct Hc as (-> & Hnd & ->). simpl in *.
  destruct (validateDependencies _ _ _ _ _ _) as [[[]|e] ws]; [|done].
  unfold runKahnSort. rewrite buildRemaining_eq by done. fold (table packages).
  destruct (kahn_table packages Hnd) as (order & -> & _). done.
Qed.

(** What is sorted has unique names. *)
Lemma topoSort_unique (versionSatisfies : string → string → bool) packages options order ws :
  topoSort versionSatisfies packages options = Some (Ok order, ws) → NoDup (map ext_name packages).
Proof.
  unfold topoSort. pose proof (collectUniqueNames_spec [] packages [] (NoDup_nil_2)) as Hc.
  destruct (collectUniqueNames [] packages []) as [[ns|e] ws0]; [|done]. by destruct Hc as (-> & Hnd & _).
Qed.

(** A produced order holds every package once, and for every package
    that takes part in fatal validation its required dependencies are loaded,
    the loaded ones satisfy its version ranges, and all of them come first. *)
Theorem topoSort_order (versionSatisfies : string → string → bool) (packages : list Extension)
    (options : TopoSortOptions) (order : list string) (ws : list Warning)
    (Hr : topoSort versionSatisfies packages options = Some (Ok order, ws)) :
  order ≡ₚ map ext_name packages ∧
  ∀ p, p ∈ packages → is_fatal options (ext_name p) = true →
    dependencies_ok versionSatisfies packages p ∧
    ∀ d, d ∈ dependencies p → dep_name d ∈ map ext_name packages → before order (dep_name d) (ext_name p).
Proof.
  unfold topoSort in Hr.
  pose proof (collectUniqueNames_spec [] packages [] (NoDup_nil_2)) as Hc.
  destruct (collectUniqueNames [] packages []) as [[ns|e] ws0]; [|done]. destruct Hc as (-> & Hnd & ->). simpl in *.
  pose proof (validateDependencies_spec versionSatisfies packages options packages []) as [_ Hv].
  destruct (validateDependencies _ _ _ _ _ _) as [[[]|e] ws1]; [|done]. simpl in Hv.
  unfold runKahnSort in Hr. rewrite buildRemaining_eq in Hr by done. fold (table packages) in Hr.
  destruct (kahn_table packages Hnd) as (result & Hk & Hi). rewrite Hk in Hr.
  destruct (kahn_order_perm packages result Hnd Hi) as [Hndr Hsub].
  assert (Hfatal : ∀ p rest, p ∈ packages → is_fatal options (ext_name p) = true → ext_name p ∈ result →
    dependencies_ok versionSatisfies packages p ∧
    ∀ d, d ∈ dependencies p → dep_name d ∈ map ext_name packages → before (result ++ rest) (dep_name d) (ext_name p)).
  { intros p rest Hp Hf Hin. split; [by apply Hv|]. intros d Hd Hl. by apply (kahn_before packages). }
  unfold st_ret, st_throw in Hr. case_bool_decide as Hlen; simplify_eq/=.
  - assert (order ≡ₚ map ext_name packages) as Hperm.
    { apply submseteq_length_Permutation; [by apply NoDup_submseteq|lia]. }
    split; [done|]. intros p Hp Hf. rewrite <- (app_nil_r order). apply Hfatal; [done..|].
    rewrite Hperm. by apply list_elem_of_fmap_2.
  - destruct (filter _ (filter _ _)) as [|c cs] eqn:Hcyc; simplify_eq/=. split.
    + apply NoDup_Permutation; [|done|].
      * apply NoDup_app. split_and!; [done| |by apply NoDup_filter].
        intros n Hn [Hno _]%list_elem_of_filter. done.
      * intros n. rewrite elem_of_app, list_elem_of_filter. split; [naive_solver|].
        intros Hn. destruct (decide (n ∈ result)); auto.
    + intros p Hp Hf. apply Hfatal; [done..|].
      destruct (decide (ext_name p ∈ result)); [done|]. exfalso.
      apply (not_elem_of_nil (ext_name p)). rewrite <- Hcyc. apply list_elem_of_filter. split; [done|].
      apply list_elem_of_filter. split; [done|]. by apply list_elem_of_fmap_2.
Qed.

(** A set without duplicate names and without dependency cycles is always
    sorted, whatever is wrong with packages outside the fatal set; so an
    error means a duplicate, a fatal defect or an actual cycle. *)
Theorem topoSort_accepts (versionSatisfies : string → string → bool) (packages : list Extension)
    (options : TopoSortOptions) (rank : string → nat)
    (Hnd : NoDup (map ext_name packages))
    (Hok : ∀ p, p ∈ packages → is_fatal options (ext_name p) = true →
             dependencies_ok versionSatisfies packages p)
    (Hrank : rank_lowered packages rank) :
  ∃ order ws, topoSort versionSatisfies packages options = Some (Ok order, ws).
Proof.
  unfold topoSort.
  pose proof (collectUniqueNames_spec [] packages [] (NoDup_nil_2)) as Hc.
  destruct (collectUniqueNames [] packages []) as [[ns|e] ws0]; [|done]. destruct Hc as (-> & _ & ->). simpl in *.
  pose proof (validateDependencies_spec versionSatisfies packages options packages []) as [_ Hv].
  apply Hv in Hok. destruct (validateDependencies _ _ _ _ _ _) as [[[]|e] ws1]; [|done].
  unfold runKahnSort. rewrite buildRemaining_eq by done. fold (table packages).
  destruct (kahn_table packages Hnd) as (result & -> & Hi).
  destruct (kahn_order_perm packages result Hnd Hi) as [Hndr Hsub].
  assert (Hk : NoDup (JsMap.keys (table packages))) by by rewrite table_keys.
  assert (∀ n ds d, (n, ds) ∈ table packages → d ∈ ds → d ∈ JsMap.keys (table packages)) as Hknown.
  { intros n ds d Hin Hd. rewrite table_keys. by apply (table_elem _ _ _ _ Hin) in Hd as (? & ? & _ & _ & _ & _ & ?). }
  assert (∀ n, n ∈ map ext_name packages → n ∈ result) as Hall.
  { intros n Hn. apply (kahn_complete (table packages) Hknown result rank); [done| |by rewrite table_keys].
    intros n' ds d Hin Hd. apply (table_elem _ _ _ _ Hin) in Hd as (p & dep & Hp & Heq & Hdep & -> & Hl).
    injection Heq as -> _. by apply Hrank. }
  rewrite bool_decide_true; [eauto|]. apply Permutation_length, submseteq_length_Permutation.
  - by apply NoDup_submseteq.
  - by apply submseteq_length, NoDup_submseteq.
Qed.

Definition any_version (v r : string) : bool := true.
Definition needs (n : string) (opt : bool) : Dependency := {| dep_name := n; dep_version := "*"; optional := opt |}.
Definition ext (n : string) (ds : list Dependency) : Extension :=
  {| ext_name := n; ext_version := "1.0.0"; dependencies := ds |}.

(** The residue of Kahn's algorithm also holds packages that merely
    depend on a cycle.  An enabled package with an optional dependency on a
    disabled package whose own cycle runs through disabled packages only makes
    the sort fail, although no cycle member takes part in fatal validation. *)
Theorem disabled_cycle_aborts_dependents (versionSatisfies : string → string → bool)
    (Hv : versionSatisfies "1.0.0" "*" = true) :
  ∃ e, topoSort versionSatisfies
    [ext "app" [needs "b" true]; ext "b" [needs "c" false]; ext "c" [needs "b" false]]
    (Some ["app"]) = Some (Throw e, []).
Proof.
  unfold topoSort. simpl. unfold validatePackageDependencies, checkVersions, st_bind. simpl. rewrite !Hv. simpl.
  eexists. vm_compute. reflexivity.
Qed.

(** *** Witnesses *)
Definition three : list Extension :=
  [ext "ui" [needs "core" false; needs "absent" true]; ext "core" []; ext "db" [needs "core" false]].

Lemma topoSort_order_witness :
  topoSort any_version three None = Some (Ok ["core"; "ui"; "db"], []) ∧
  ["core"; "ui"; "db"] ≡ₚ ["ui"; "core"; "db"].
Proof.
  split; [vm_compute; reflexivity|].
  exact (proj1 (topoSort_order any_version three None ["core"; "ui"; "db"] [] eq_refl)).
Defined.

Lemma topoSort_accepts_witness : ∃ order ws, topoSort any_version three None = Some (Ok order, ws).
Proof.
  apply (topoSort_accepts any_version three None (λ n, if decide (n = "core") then 0%nat else 1%nat)).
  - apply (bool_decide_unpack _); vm_compute; exact I.
  - intros p Hp _. split; [|done]. intros d Hd Ho. unfold three in *.
    repeat (apply elem_of_cons in Hp as [->|Hp]); [..|by apply elem_of_nil in Hp]; simpl in Hd;
      repeat (apply elem_of_cons in Hd as [->|Hd]); try (by apply elem_of_nil in Hd); try discriminate;
      apply (bool_decide_unpack _); vm_compute; exact I.
  - intros p d Hp Hd Hl. unfold three in *.
    repeat (apply elem_of_cons in Hp as [->|Hp]); [..|by apply elem_of_nil in Hp]; simpl in Hd;
      repeat (apply elem_of_cons in Hd as [->|Hd]); try (by apply elem_of_nil in Hd);
      first [exfalso; revert Hl; apply (bool_decide_unpack _); vm_compute; exact I | clear; vm_compute; lia].
Defined.

Lemma disabled_cycle_aborts_dependents_witness :
  ∃ e, topoSort any_version
    [ext "app" [needs "b" true]; ext "b" [needs "c" false]; ext "c" [needs "b" false]]
    (Some ["app"]) = Some (Throw e, []).
Proof. exact (disabled_cycle_aborts_dependents any_version eq_refl). Defined.
