(* ===== verification/OutputBuffer.v ===== *)
(** * Terminal output buffer

    [subsystems/native-session-supervisor/src/pty/output-buffer.ts]: the
    bounded buffer of output chunks kept for reconnection replay.  Strings are
    sequences of code units; a line feed is code 10. *)
From S2P Require Import Prelude JsValue.

#[local] Arguments String.append : simpl nomatch.

Definition newline : Ascii.ascii := Ascii.ascii_of_nat 10.

Record Chunk := { seq : Z; data : string; newlines : Z }.

Record OutputBuffer := {
  maxLines : Z;
  maxChunks : Z;
  chunks : list Chunk;
  newlineCount : Z;
  truncated : bool;
}.

Record BufferReadResult := { content : string; wasTruncated : bool }.

(** [new OutputBuffer(maxLines, maxChunks)]. *)
Definition new_OutputBuffer (lines cap : option Z) : OutputBuffer :=
  {| maxLines := default 5000 lines; maxChunks := default 10000 cap;
     chunks := []; newlineCount := 0; truncated := false |}.

Fixpoint count_newlines (s : string) : Z :=
  match s with
  | EmptyString => 0
  | String c s' => (if decide (c = newline) then 1 else 0) + count_newlines s'
  end.

Definition concat_data (cs : list Chunk) : string := String.concat "" (map data cs).

(** The loop of [push]: drop chunks from the front while over either bound. *)
Fixpoint evict (maxLines maxChunks : Z) (cs : list Chunk) (count : Z) (tr : bool) : list Chunk * Z * bool :=
  match cs with
  | [] => ([], count, tr)
  | c :: cs' =>
      if bool_decide (maxLines < count) || bool_decide (maxChunks < Z.of_nat (List.length cs))
      then evict maxLines maxChunks cs' (count - newlines c) true
      else (cs, count, tr)
  end.

Definition push (s : Z) (d : string) (b : OutputBuffer) : OutputBuffer :=
  if bool_decide (d = "") then b
  else
    let n := count_newlines d in
    let '(cs, count, tr) :=
      evict (maxLines b) (maxChunks b) (chunks b ++ [{| seq := s; data := d; newlines := n |}])
        (newlineCount b + n) (truncated b) in
    {| maxLines := maxLines b; maxChunks := maxChunks b; chunks := cs; newlineCount := count; truncated := tr |}.

Definition getContent (b : OutputBuffer) : string := concat_data (chunks b).

(** The backward scan of [getLastNLines], over the chunks newest first. *)
Fixpoint collect (cs : list Chunk) (linesNeeded : Z) : list Chunk :=
  match cs with
  | [] => []
  | c :: cs' => if bool_decide (linesNeeded - newlines c ≤ 0) then [c]
                else c :: collect cs' (linesNeeded - newlines c)
  end.

Definition by_seq (a b : Chunk) : bool := bool_decide (seq a ≤ seq b).

(** [lines.slice(-n)]. *)
Definition last_n {A} (n : nat) (l : list A) : list A := drop (List.length l - n) l.

(** Cut a string down to its last lines. *)
Definition trim_lines (lineCount : Z) (s : string) : string :=
  let hasTrailingNewline := Str.ends_with s (String newline "") in
  let lines := Str.split newline s in
  let lines := if hasTrailingNewline then removelast lines else lines in
  if bool_decide (lineCount < Z.of_nat (List.length lines)) then
    Str.join (String newline "") (last_n (Z.to_nat lineCount) lines) +:+
      (if hasTrailingNewline then String newline "" else "")
  else s.

Definition getLastNLines (lineCount : option Z) (b : OutputBuffer) : BufferReadResult :=
  match lineCount with
  | None => {| content := getContent b; wasTruncated := truncated b |}
  | Some n =>
      if bool_decide (n ≤ 0) || bool_decide (chunks b = []) then
        {| content := ""; wasTruncated := truncated b |}
      else
        let collected := js_sort by_seq (collect (reverse (chunks b)) n) in
        {| content := trim_lines n (concat_data collected); wasTruncated := truncated b |}
  end.

Definition getSince (sinceSeq : option Z) (b : OutputBuffer) : BufferReadResult :=
  match sinceSeq with
  | None => {| content := getContent b; wasTruncated := truncated b |}
  | Some s =>
      {| content := concat_data (filter (λ c, s < seq c) (chunks b));
         wasTruncated := match chunks b with c :: _ => bool_decide (s < seq c) | [] => false end |}
  end.

Definition clear (b : OutputBuffer) : OutputBuffer :=
  {| maxLines := maxLines b; maxChunks := maxChunks b; chunks := []; newlineCount := 0; truncated := false |}.

Definition drain (b : OutputBuffer) : BufferReadResult * OutputBuffer :=
  ({| content := getContent b; wasTruncated := truncated b |}, clear b).

(** ** The buffer against the whole output *)
Definition sum_newlines (cs : list Chunk) : Z := foldr (λ c n, newlines c + n) 0 cs.
Definition entry (c : Chunk) : Z * string := (seq c, data c).

(** [holds b log]: the buffer has the newest entries of the output so far, the
    flag says whether older ones were dropped, and both bounds are kept. *)
Record holds (b : OutputBuffer) (log : list (Z * string)) : Prop := {
  h_suffix : ∃ dropped, log = dropped ++ map entry (chunks b) ∧ (truncated b = true ↔ dropped ≠ []);
  h_counted c : c ∈ chunks b → newlines c = count_newlines (data c);
  h_total : newlineCount b = sum_newlines (chunks b);
  h_bounds : chunks b = [] ∨ newlineCount b ≤ maxLines b ∧ Z.of_nat (List.length (chunks b)) ≤ maxChunks b;
}.

Lemma sum_newlines_app a b : sum_newlines (a ++ b) = sum_newlines a + sum_newlines b.
Proof. unfold sum_newlines. induction a as [|c a IH]; simpl; [lia|]. rewrite IH. lia. Qed.

Lemma evict_spec L C cs count tr :
  count = sum_newlines cs →
  let '(cs', count', tr') := evict L C cs count tr in
  ∃ d, cs = d ++ cs' ∧ count' = sum_newlines cs' ∧ tr' = tr || negb (bool_decide (d = [])) ∧
    (cs' = [] ∨ count' ≤ L ∧ Z.of_nat (List.length cs') ≤ C).
Proof.
  revert count tr. induction cs as [|c cs IH]; intros count tr ->; simpl.
  { exists []. split_and!; [done..| |by left]. by rewrite orb_false_r. }
  destruct (_ || _) eqn:E.
  - specialize (IH (newlines c + sum_newlines cs - newlines c) true ltac:(lia)).
    destruct (evict _ _ cs _ true) as [[cs' n'] tr']. destruct IH as (d & -> & -> & -> & Hb).
    exists (c :: d). split_and!; [done..| |done]. by rewrite orb_true_r.
  - apply orb_false_iff in E as [E1%bool_decide_eq_false E2%bool_decide_eq_false].
    exists []. split_and!; [done..| |right; simpl in *; lia]. by rewrite orb_false_r.
Qed.

Lemma holds_new l c : holds (new_OutputBuffer l c) [].
Proof. split; simpl; [exists []; naive_solver|set_solver|done|by left]. Qed.

Lemma holds_push s d b log :
  holds b log → d ≠ "" → holds (push s d b) (log ++ [(s, d)]).
Proof.
  intros [(dr & Hlog & Htr) Hc Ht Hb] Hd. unfold push. rewrite bool_decide_false by done.
  pose proof (evict_spec (maxLines b) (maxChunks b)
    (chunks b ++ [{| seq := s; data := d; newlines := count_newlines d |}])
    (newlineCount b + count_newlines d) (truncated b)) as He.
  destruct (evict _ _ _ _ _) as [[cs n] tr].
  destruct He as (d1 & Hcs & -> & -> & Hbounds).
  { rewrite sum_newlines_app, Ht. simpl. lia. }
  split; simpl.
  - exists (dr ++ map entry d1). split.
    + rewrite <- app_assoc, <- map_app, <- Hcs, map_app, app_assoc, <- Hlog. done.
    + rewrite orb_true_iff, Htr, negb_true_iff, bool_decide_eq_false.
      destruct dr, d1; simpl; naive_solver.
  - intros c Hin. assert (c ∈ chunks b ++ [{| seq := s; data := d; newlines := count_newlines d |}]) as Hin'.
    { rewrite Hcs. apply elem_of_app. by right. }
    apply elem_of_app in Hin' as [?|?%list_elem_of_singleton]; [auto|by subst].
  - done.
  - destruct Hbounds; [by left|by right].
Qed.

(** The output [h] of a process, its chunks numbered from 1 as the runtime does. *)
Fixpoint numbered_from (i : Z) (h : list string) : list (Z * string) :=
  match h with [] => [] | d :: h' => (i, d) :: numbered_from (i + 1) h' end.

Definition nonempty (e : Z * string) : Prop := e.2 ≠ "".
#[export] Instance nonempty_dec e : Decision (nonempty e).
Proof. unfold nonempty. apply _. Defined.

Definition output_log (h : list string) : list (Z * string) := filter nonempty (numbered_from 1 h).
Definition feed (b : OutputBuffer) (log : list (Z * string)) : OutputBuffer :=
  foldl (λ b e, push e.1 e.2 b) b log.

Lemma feed_holds b log log' : holds b log → holds (feed b log') (log ++ filter nonempty log').
Proof.
  unfold feed. revert b log. induction log' as [|[s d] log' IH]; intros b log Hh; simpl.
  { by rewrite app_nil_r. }
  destruct (decide (d = "")) as [->|Hd].
  - change (push s "" b) with b. rewrite filter_cons_False by (intros Hn; by apply Hn). by apply IH.
  - rewrite filter_cons_True by done. specialize (IH _ _ (holds_push s d b log Hh Hd)).
    by rewrite <- app_assoc in IH.
Qed.

Definition texts (log : list (Z * string)) : string := String.concat "" log.*2.

Lemma concat_cons_str (x : string) l : String.concat "" (x :: l) = x +:+ String.concat "" l.
Proof. destruct l; simpl; [by rewrite Str.app_nil_r|done]. Qed.

Lemma concat_app_str (a b : list string) : String.concat "" (a ++ b) = String.concat "" a +:+ String.concat "" b.
Proof.
  induction a as [|x a IH]; [done|]. rewrite <- app_comm_cons, !concat_cons_str, IH. apply Str.app_assoc.
Qed.

Lemma concat_data_texts cs : concat_data cs = texts (map entry cs).
Proof. unfold concat_data, texts. f_equal. induction cs as [|c cs IH]; simpl; [done|]. by rewrite IH. Qed.

(** Numbers grow along the output. *)
Lemma numbered_bounds i h e : e ∈ numbered_from i h → i ≤ e.1.
Proof.
  revert i. induction h as [|d h IH]; intros i; simpl; [set_solver|].
  intros [->|Hin]%elem_of_cons; simpl; [lia|]. apply IH in Hin. lia.
Qed.

Lemma numbered_sorted i h : StronglySorted (λ a b : Z * string, a.1 < b.1) (numbered_from i h).
Proof.
  revert i. induction h as [|d h IH]; intros i; simpl; constructor; [done|].
  apply Forall_forall. intros e He. apply numbered_bounds in He. simpl. lia.
Qed.

Lemma StronglySorted_filter {A} (R : A → A → Prop) (P : A → Prop) `{∀ x, Decision (P x)} l :
  StronglySorted R l → StronglySorted R (filter P l).
Proof.
  induction 1 as [|x l Hl IH Hx]; [constructor|]. rewrite filter_cons. case_decide; [|done].
  constructor; [done|]. rewrite Forall_forall in *. intros y [_ Hy]%list_elem_of_filter. auto.
Qed.

Lemma output_log_sorted h : StronglySorted (λ a b : Z * string, a.1 < b.1) (output_log h).
Proof. apply StronglySorted_filter, numbered_sorted. Qed.

Lemma texts_cons e log : texts (e :: log) = e.2 +:+ texts log.
Proof. apply concat_cons_str. Qed.

Lemma texts_nonempty log : texts (filter nonempty log) = texts log.
Proof.
  induction log as [|[s d] log IH]; [done|]. rewrite filter_cons.
  case_decide as Hd; rewrite !texts_cons, ?IH; [done|]. unfold nonempty in Hd. simpl in *.
  destruct (decide (d = "")) as [->|]; [done|done].
Qed.

Lemma numbered_after i (k : nat) h :
  filter (λ e : Z * string, i + Z.of_nat k ≤ e.1) (numbered_from i h) = numbered_from (i + Z.of_nat k) (drop k h).
Proof.
  revert i k. induction h as [|d h IH]; intros i k; simpl; [by rewrite drop_nil|].
  destruct k as [|k]; simpl.
  - rewrite filter_cons_True by (simpl; lia). rewrite Z.add_0_r. f_equal. apply filter_all.
    intros e He%numbered_bounds. lia.
  - rewrite filter_cons_False by (simpl; lia). replace (i + Z.of_nat (S k)) with (i + 1 + Z.of_nat k) by lia.
    apply IH.
Qed.

Lemma numbered_texts i h : texts (numbered_from i h) = String.concat "" h.
Proof.
  unfold texts. f_equal. revert i. induction h as [|d h IH]; intros i; simpl; [done|]. by rewrite IH.
Qed.

(** What was output after sequence number [k]. *)
Lemma texts_after h (k : nat) :
  texts (filter (λ e : Z * string, Z.of_nat k < e.1) (output_log h)) = String.concat "" (drop k h).
Proof.
  unfold output_log. rewrite filter_filter_and.
  transitivity (texts (filter nonempty (filter (λ e : Z * string, 1 + Z.of_nat k ≤ e.1) (numbered_from 1 h)))).
  - f_equal. rewrite filter_filter_and. apply list_filter_iff. intros e. split; intros [? ?]; split; done || lia.
  - rewrite texts_nonempty, numbered_after. apply numbered_texts.
Qed.

(** ** Lines *)
Lemma count_newlines_app a b : count_newlines (a +:+ b) = count_newlines a + count_newlines b.
Proof. induction a as [|c a IH]; simpl; [lia|]. rewrite IH. lia. Qed.

Lemma count_newlines_nonneg s : 0 ≤ count_newlines s.
Proof. induction s; simpl; [lia|]. case_decide; lia. Qed.

Lemma split_length s : Z.of_nat (List.length (Str.split newline s)) = count_newlines s + 1.
Proof.
  induction s as [|c s IH]; simpl; [done|]. pose proof (Str.split_nonempty newline s) as Hne.
  case_decide; simpl; [lia|]. destruct (Str.split newline s); [done|]. simpl in *. lia.
Qed.

Lemma last_n_cons {A} n (x : A) l : (n ≤ List.length l)%nat → last_n n (x :: l) = last_n n l.
Proof.
  intros Hn. unfold last_n. simpl List.length.
  replace (S (List.length l) - n)%nat with (S (List.length l - n)) by lia. done.
Qed.

Lemma last_n_all {A} n (l : list A) : (List.length l ≤ n)%nat → last_n n l = l.
Proof. intros Hn. unfold last_n. replace (List.length l - n)%nat with 0%nat by lia. done. Qed.

(** Prepending text changes no line but the first. *)
Lemma last_n_split n r s :
  (n < List.length (Str.split newline s))%nat →
  last_n n (Str.split newline (r +:+ s)) = last_n n (Str.split newline s).
Proof.
  intros Hn. assert (∀ r, (List.length (Str.split newline s) ≤ List.length (Str.split newline (r +:+ s)))%nat) as Hle.
  { intros r'. apply Nat2Z.inj_le. rewrite !split_length, count_newlines_app.
    pose proof (count_newlines_nonneg r'). lia. }
  induction r as [|c r IH]; [done|]. simpl. specialize (Hle r).
  case_decide; [rewrite last_n_cons by lia; done|].
  destruct (Str.split newline (r +:+ s)) as [|w ws] eqn:E; simpl in *; [lia|].
  rewrite last_n_cons by lia. rewrite <- IH. by rewrite last_n_cons by lia.
Qed.

Lemma trim_lines_no_trailing n s :
  0 ≤ n → Str.ends_with s (String newline "") = false →
  trim_lines n s = Str.join (String newline "") (last_n (Z.to_nat n) (Str.split newline s)).
Proof.
  intros Hn Hs. unfold trim_lines. rewrite Hs. case_bool_decide.
  - apply Str.app_nil_r.
  - rewrite last_n_all by lia. by rewrite Str.join_split.
Qed.

(** The scan takes a suffix of the chunks holding [n] line feeds, or all. *)
Lemma collect_spec cs n :
  ∃ rest, cs = collect cs n ++ rest ∧ (rest = [] ∨ n ≤ sum_newlines (collect cs n)) ∧
    (cs ≠ [] → collect cs n ≠ []).
Proof.
  revert n. induction cs as [|c cs IH]; intros n; simpl; [exists []; naive_solver|].
  case_bool_decide.
  - exists cs. split_and!; [done|right; simpl; lia|done].
  - destruct (IH (n - newlines c)) as (rest & Hcs & Hor & _). exists rest. simpl.
    split_and!; [by rewrite <- Hcs| |done]. destruct Hor; [by left|right; simpl; lia].
Qed.

#[export] Instance by_seq_preorder : TotalPreorder by_seq.
Proof. split; unfold by_seq; intros *; rewrite !bool_decide_eq_true; lia. Qed.

Lemma chunks_ordered b h :
  holds b (output_log h) → StronglySorted (λ c d, seq c < seq d) (chunks b).
Proof.
  intros [(dr & Hlog & _) _ _ _]. pose proof (output_log_sorted h) as Hs. rewrite Hlog in Hs.
  apply StronglySorted_app in Hs as (_ & _ & Hs).
  clear Hlog. revert Hs. generalize (chunks b). intros cs. induction cs as [|c cs IH]; intros Hs; [constructor|].
  apply StronglySorted_inv in Hs as [Hs Hc]. constructor; [auto|].
  apply Forall_forall. intros d Hd. rewrite Forall_forall in Hc. apply (Hc (entry d)).
  by apply (list_elem_of_fmap_2 entry).
Qed.

Lemma sum_newlines_count b log cs :
  holds b log → (∀ c, c ∈ cs → c ∈ chunks b) → sum_newlines cs = count_newlines (concat_data cs).
Proof.
  intros [_ Hc _ _] Hsub. unfold concat_data. induction cs as [|c cs IH]; [done|].
  simpl map. rewrite concat_cons_str, count_newlines_app, <- IH by (intros d Hd; apply Hsub; by right).
  simpl. rewrite Hc by (apply Hsub; left). lia.
Qed.

Lemma increasing_ordered cs : StronglySorted (λ c d, seq c < seq d) cs → ordered by_seq cs.
Proof.
  induction 1 as [|c cs Hs IH Hc]; constructor; [done|]. eapply Forall_impl; [exact Hc|].
  intros d Hd. apply bool_decide_eq_true. simpl in *. lia.
Qed.

Lemma increasing_unique cs c d :
  StronglySorted (λ c d, seq c < seq d) cs → c ∈ cs → d ∈ cs → seq c = seq d → c = d.
Proof.
  induction 1 as [|e cs Hs IH He]; [set_solver|]. rewrite Forall_forall in He.
  intros [->|Hc]%elem_of_cons [->|Hd]%elem_of_cons Heq; auto.
  - specialize (He _ Hd). simpl in He. lia.
  - specialize (He _ Hc). simpl in He. lia.
Qed.

(** Sorting the scan by number restores the output order. *)
Lemma sort_collected b h n :
  holds b (output_log h) →
  ∃ rest, chunks b = rest ++ js_sort by_seq (collect (reverse (chunks b)) n) ∧
    (rest = [] ∨ n ≤ sum_newlines (js_sort by_seq (collect (reverse (chunks b)) n))).
Proof.
  intros Hh. destruct (collect_spec (reverse (chunks b)) n) as (rest & Hc & Hor & _).
  set (col := collect (reverse (chunks b)) n) in *.
  assert (chunks b = reverse rest ++ reverse col) as Hcs.
  { by rewrite <- reverse_app, <- Hc, reverse_involutive. }
  pose proof (chunks_ordered b h Hh) as Hs. rewrite Hcs in Hs.
  apply StronglySorted_app in Hs as (_ & _ & Hs).
  assert (js_sort by_seq col = reverse col) as Hsort.
  { apply js_sort_perm_eq; [apply _| |symmetry; apply reverse_Permutation|by apply increasing_ordered].
    intros x y Hx Hy Ht. eapply increasing_unique; [exact Hs|done|done|].
    unfold tied, by_seq in Ht. apply andb_true_iff in Ht as [H1%bool_decide_eq_true H2%bool_decide_eq_true]. lia. }
  rewrite Hsort. exists (reverse rest). split; [done|].
  destruct Hor as [->|Hn]; [by left|right].
  assert (sum_newlines (reverse col) = sum_newlines col) as ->; [|done].
  clear. induction col as [|c col IH]; [done|]. rewrite reverse_cons, sum_newlines_app, IH. simpl. lia.
Qed.

Lemma numbered_upper i h e : e ∈ numbered_from i h → e.1 < i + Z.of_nat (List.length h).
Proof.
  revert i. induction h as [|d h IH]; intros i; simpl; [set_solver|].
  intros [->|Hin]%elem_of_cons; simpl; [lia|]. apply IH in Hin. lia.
Qed.

Lemma list_filter_iff' {A} (P Q : A → Prop) `{∀ x, Decision (P x), ∀ x, Decision (Q x)} (l : list A) :
  (∀ x, x ∈ l → P x ↔ Q x) → filter P l = filter Q l.
Proof.
  induction l as [|x l IH]; intros Hl; [done|]. rewrite !filter_cons.
  pose proof (Hl x ltac:(by left)). rewrite (IH (λ y Hy, Hl y (list_elem_of_further _ _ _ Hy))).
  repeat case_decide; naive_solver.
Qed.

Lemma filter_entries (k : Z) cs :
  map entry (filter (λ c, k < seq c) cs) = filter (λ x : Z * string, k < x.1) (map entry cs).
Proof.
  induction cs as [|c cs IH]; [done|]. cbn [map]. rewrite !filter_cons. change ((entry c).1) with (seq c).
  case_decide; cbn [map]; by rewrite IH.
Qed.

(** What a replay holds: the output after [k] as far as the buffer still has it,
    the first [e] outputs being evicted. *)
Lemma getSince_replay (lines cap : option Z) (h : list string) :
  let b := feed (new_OutputBuffer lines cap) (numbered_from 1 h) in
  ∃ e : nat, (e <= List.length h)%nat ∧ (truncated b = false → e = 0%nat) ∧
    (∀ c cs, chunks b = c :: cs → Z.of_nat e < seq c) ∧
    ∀ k : nat, content (getSince (Some (Z.of_nat k)) b) = String.concat "" (drop (Nat.max k e) h).
Proof.
  intros b. pose proof (feed_holds (new_OutputBuffer lines cap) [] (numbered_from 1 h) (holds_new _ _)) as Hh.
  fold b in Hh. change (holds b (output_log h)) in Hh. destruct Hh as [(dr & Hlog & Htr) _ _ _].
  pose proof (output_log_sorted h) as Hs. rewrite Hlog in Hs. apply StronglySorted_app in Hs as (Hx & Hsd & _).
  assert (∃ e : nat, (e <= List.length h)%nat ∧ (dr = [] → e = 0%nat) ∧ (∀ x, x ∈ dr → x.1 ≤ Z.of_nat e) ∧
    ∀ x, x ∈ map entry (chunks b) → Z.of_nat e < x.1) as (e & Hle & H0 & Hd & Hc).
  { assert (∀ x, x ∈ output_log h → 1 ≤ x.1 ≤ Z.of_nat (List.length h)) as Hrange.
    { intros x [_ Hx']%list_elem_of_filter. split; [by eapply numbered_bounds|by apply numbered_upper in Hx'; lia]. }
    destruct dr as [|x dr _] using rev_ind.
    - exists 0%nat. split_and!; [lia|done|by intros ? ?%elem_of_nil|]. intros x Hin. specialize (Hrange x). rewrite Hlog in Hrange.
      specialize (Hrange ltac:(done)). lia.
    - specialize (Hrange x). rewrite Hlog in Hrange. specialize (Hrange ltac:(set_solver)). exists (Z.to_nat x.1).
      rewrite Z2Nat.id by lia. split_and!; [lia|by destruct dr| |].
      + intros y [Hy| ->%list_elem_of_singleton]%elem_of_app; [|lia]. apply StronglySorted_app in Hsd as (Hy' & _ & _).
        specialize (Hy' y x Hy ltac:(by left)). simpl in Hy'. lia.
      + intros y Hy. apply Hx; [set_solver|done]. }
  exists e. split_and!; [done| | |].
  - intros Hf. apply H0. destruct dr; [done|]. destruct Htr as [_ Htr]. by rewrite Htr in Hf.
  - intros c cs Ecs. apply (Hc (entry c)). rewrite Ecs. by left.
  - intros k. simpl. rewrite <- texts_after, Hlog, filter_app, concat_data_texts.
    rewrite (filter_none _ dr) by (intros x Hin; specialize (Hd x Hin); lia).
    f_equal. simpl. rewrite filter_entries. apply list_filter_iff'. intros x Hin. specialize (Hc x Hin). lia.
Qed.

(** *** Properties *)

(** After any output the buffer holds an uncut tail of it within both
    bounds, its line count is exact, and unless the truncation flag is set
    nothing was lost. *)
Theorem buffer_invariant (lines cap : option Z) (h : list string) :
  let b := feed (new_OutputBuffer lines cap) (numbered_from 1 h) in
  (∃ lost, String.concat "" h = lost +:+ getContent b) ∧
  (truncated b = false → getContent b = String.concat "" h) ∧
  newlineCount b = count_newlines (getContent b) ∧
  (chunks b = [] ∨ newlineCount b ≤ maxLines b ∧ Z.of_nat (List.length (chunks b)) ≤ maxChunks b).
Proof.
  intros b. pose proof (feed_holds (new_OutputBuffer lines cap) [] (numbered_from 1 h) (holds_new _ _)) as Hh.
  fold b in Hh. change (holds b (output_log h)) in Hh. pose proof Hh as [(dr & Hlog & Htr) Hc Ht Hb].
  assert (String.concat "" h = texts dr +:+ getContent b) as Htext.
  { rewrite <- (numbered_texts 1 h), <- texts_nonempty. fold (output_log h). rewrite Hlog.
    unfold getContent. rewrite concat_data_texts. unfold texts. by rewrite fmap_app, concat_app_str. }
  split_and!; [eauto| | |done].
  - intros Hf. rewrite Htext. destruct dr as [|e dr]; [done|].
    destruct Htr as [_ Htr]. by rewrite Htr in Hf.
  - rewrite Ht. by apply (sum_newlines_count b (output_log h)).
Qed.

(** For output that does not end in a line feed, asking for the last [n]
    lines yields exactly the last [n] lines of the buffered text. *)
Theorem last_lines_correct (lines cap : option Z) (h : list string) (n : Z) :
  let b := feed (new_OutputBuffer lines cap) (numbered_from 1 h) in
  0 < n → chunks b ≠ [] → Str.ends_with (getContent b) (String newline "") = false →
  content (getLastNLines (Some n) b) =
    Str.join (String newline "") (last_n (Z.to_nat n) (Str.split newline (getContent b))).
Proof.
  intros b Hn Hne Htrail. pose proof (feed_holds (new_OutputBuffer lines cap) [] (numbered_from 1 h) (holds_new _ _)) as Hh.
  fold b in Hh. change (holds b (output_log h)) in Hh.
  unfold getLastNLines. rewrite bool_decide_false by lia. rewrite bool_decide_false by done. simpl.
  destruct (sort_collected b h n Hh) as (rest & Hcs & Hor).
  set (col := js_sort by_seq _) in *.
  assert (getContent b = concat_data rest +:+ concat_data col) as Hcontent.
  { unfold getContent. rewrite Hcs at 1. unfold concat_data. by rewrite map_app, concat_app_str. }
  assert (sum_newlines col = count_newlines (concat_data col)) as Hsum.
  { apply (sum_newlines_count b (output_log h)); [done|]. intros c Hc. rewrite Hcs. apply elem_of_app. by right. }
  rewrite trim_lines_no_trailing; [|lia|].
  - f_equal. rewrite Hcontent. destruct Hor as [->|Hn']; [done|].
    symmetry. apply last_n_split. apply Nat2Z.inj_lt. rewrite split_length. lia.
  - destruct (Str.ends_with (concat_data col) _) eqn:E; [|done].
    apply Str.ends_with_true in E as [r Hr]. rewrite <- Htrail, Hcontent, Hr. symmetry.
    apply Str.ends_with_true. exists (concat_data rest +:+ r). apply Str.app_assoc.
Qed.

(** A single chunk of more lines than the buffer keeps empties it, and then a
    replay reports neither the output nor its loss. *)
Theorem flood_is_silent (s : Z) (d : string) (lines : Z) (Hl : lines < count_newlines d) (Hd : d ≠ "") :
  let b := push s d (new_OutputBuffer (Some lines) None) in
  truncated b = true ∧ ∀ k, getSince (Some k) b = {| content := ""; wasTruncated := false |}.
Proof.
  unfold push. rewrite bool_decide_false by done. simpl.
  rewrite (bool_decide_true (lines < 0 + count_newlines d)) by lia. done.
Qed.

(** A subscriber that has seen everything up to the oldest buffered chunk is
    told output was lost although the replay is complete. *)
Theorem adjacent_replay_alarm (d : string) (Hd : d ≠ "") :
  let b := push 1 d (new_OutputBuffer None None) in
  count_newlines d ≤ 5000 →
  getSince (Some 0) b = {| content := d; wasTruncated := true |} ∧ truncated b = false.
Proof.
  unfold push. rewrite bool_decide_false by done. simpl. intros Hc.
  rewrite (bool_decide_false (5000 < 0 + count_newlines d)) by lia. simpl. done.
Qed.

Definition line (s : string) : string := s +:+ String newline "".

(** When the text ends in a line feed, the scan stops one line feed early: if
    the last line spans two chunks, only its second part is returned. *)
Theorem last_line_cut :
  let b := feed (new_OutputBuffer None None) [(1, line "one" +:+ "hello "); (2, line "world")] in
  getContent b = line "one" +:+ line "hello world" ∧
  content (getLastNLines (Some 1) b) = line "world".
Proof. vm_compute. done. Qed.

(** *** Witnesses *)
Lemma last_lines_correct_witness :
  content (getLastNLines (Some 2) (feed (new_OutputBuffer None None) (numbered_from 1 [line "a"; "b"; line "c" +:+ "d"])))
    = line "bc" +:+ "d".
Proof.
  rewrite (last_lines_correct None None [line "a"; "b"; line "c" +:+ "d"] 2 ltac:(lia)
    ltac:(vm_compute; discriminate) eq_refl). vm_compute. reflexivity.
Defined.

Lemma flood_is_silent_witness :
  getSince (Some 3) (push 4 (line "x" +:+ line "y") (new_OutputBuffer (Some 1) None)) =
    {| content := ""; wasTruncated := false |}.
Proof.
  exact (proj2 (flood_is_silent 4 (line "x" +:+ line "y") 1 ltac:(vm_compute; reflexivity)
    ltac:(vm_compute; discriminate)) 3).
Defined.

Lemma adjacent_replay_alarm_witness :
  getSince (Some 0) (push 1 "x" (new_OutputBuffer None None)) = {| content := "x"; wasTruncated := true |}.
Proof. exact (proj1 (adjacent_replay_alarm "x" ltac:(discriminate) ltac:(vm_compute; discriminate))). Defined.
