(* ===== verification/PtyRuntime.v ===== *)
(** * Supervised terminal sessions

    [subsystems/native-session-supervisor/src/pty/pty-runtime.ts] and
    [session-cleanup.ts]: the session table, numbering and streaming of output,
    subscriber counting, replay on reconnection and orphan cleanup.

    A process is its handle; spawning it and talking to it are effects of the
    backend, recorded in order.  Every operation that reads the clock takes it
    as an argument. *)
From S2P Require Import Prelude JsValue OutputBuffer.

Record PtySession := {
  pty : nat;
  outputBuffer : OutputBuffer;
  activeSubscriptions : Z;
  lastSeq : Z;
  lastActivity : Z;
  disconnectedAt : option Z;
}.

Inductive Effect :=
  | OnOutput (supervisorSessionId : string) (seq : Z) (data : string)
  | OnExit (supervisorSessionId : string) (exitCode : Z) (signal : option Z)
  | Dispose (pty : nat)
  | Kill (pty : nat) (signal : option string)
  | Write (pty : nat) (data : string)
  | Resize (pty : nat) (cols rows : Z).

Definition Sessions := list (string * PtySession).

Definition ORPHAN_CLEANUP_TIMEOUT_MS : Z := 5 * 60 * 1000.

Definition shouldCleanupSession (at_ : option Z) (now timeoutMs : Z) : bool :=
  match at_ with
  | None => false
  | Some t => bool_decide (timeoutMs ≤ now - t)
  end.

Definition new_session (p : nat) (now : Z) : PtySession :=
  {| pty := p; outputBuffer := new_OutputBuffer None None; activeSubscriptions := 0; lastSeq := 0;
     lastActivity := now; disconnectedAt := Some now |}.

(** [spawn] once the backend returned the process [p] while the runtime is
    initialised: replace any session of that id. *)
Definition spawn (id : string) (p : nat) (now : Z) (ss : Sessions) : Sessions * list Effect :=
  match JsMap.get id ss with
  | Some existing =>
      (JsMap.set id (new_session p now) (JsMap.delete id ss), [Dispose (pty existing); Kill (pty existing) None])
  | None => (JsMap.set id (new_session p now) ss, [])
  end.

(** [spawn] when [destroy] ran while the backend was spawning. *)
Definition spawn_destroyed (p : nat) : list Effect := [Kill p None].

Definition session_data (now : Z) (d : string) (s : PtySession) : PtySession :=
  {| pty := pty s; outputBuffer := push (lastSeq s + 1) d (outputBuffer s);
     activeSubscriptions := activeSubscriptions s; lastSeq := lastSeq s + 1; lastActivity := now;
     disconnectedAt := disconnectedAt s |}.


Definition onExit (id : string) (exitCode : Z) (signal : option Z) (ss : Sessions) : Sessions * list Effect :=
  (JsMap.delete id ss,
   match JsMap.get id ss with Some s => [Dispose (pty s)] | None => [] end ++ [OnExit id exitCode signal]).

Definition session_write (now : Z) (s : PtySession) : PtySession :=
  {| pty := pty s; outputBuffer := outputBuffer s; activeSubscriptions := activeSubscriptions s;
     lastSeq := lastSeq s; lastActivity := now; disconnectedAt := disconnectedAt s |}.

Definition write (id : string) (d : string) (now : Z) (ss : Sessions) : bool * Sessions * list Effect :=
  match JsMap.get id ss with
  | None => (false, ss, [])
  | Some s => (true, JsMap.set id (session_write now s) ss, [Write (pty s) d])
  end.

Definition resize (id : string) (cols rows : Z) (ss : Sessions) : bool * list Effect :=
  match JsMap.get id ss with
  | None => (false, [])
  | Some s => (true, [Resize (pty s) cols rows])
  end.

Definition kill (id : string) (signal : option string) (ss : Sessions) : bool * list Effect :=
  match JsMap.get id ss with
  | None => (false, [])
  | Some s => (true, [Kill (pty s) (Some (default "SIGHUP" signal))])
  end.


Definition session_connect (now : Z) (s : PtySession) : PtySession :=
  {| pty := pty s; outputBuffer := outputBuffer s; activeSubscriptions := activeSubscriptions s + 1;
     lastSeq := lastSeq s; lastActivity := now; disconnectedAt := None |}.


Definition session_disconnect (now : Z) (s : PtySession) : PtySession :=
  let active := if bool_decide (0 < activeSubscriptions s) then activeSubscriptions s - 1
                else activeSubscriptions s in
  {| pty := pty s; outputBuffer := outputBuffer s; activeSubscriptions := active; lastSeq := lastSeq s;
     lastActivity := lastActivity s;
     disconnectedAt := if bool_decide (active = 0) && bool_decide (disconnectedAt s = None)
                       then Some now else disconnectedAt s |}.

Definition disconnect (id : string) (now : Z) (ss : Sessions) : bool * Sessions :=
  match JsMap.get id ss with
  | None => (false, ss)
  | Some s => (true, JsMap.set id (session_disconnect now s) ss)
  end.

Record SessionStatus := {
  ss_pty : nat; ss_bufferedOutput : string; ss_wasTruncated : bool; ss_lastSeq : Z;
  ss_activeSubscriptions : Z; ss_disconnectedAt : option Z;
}.

Definition getSessionStatus (id : string) (ss : Sessions) : option SessionStatus :=
  (λ s, {| ss_pty := pty s; ss_bufferedOutput := getContent (outputBuffer s);
           ss_wasTruncated := truncated (outputBuffer s); ss_lastSeq := lastSeq s;
           ss_activeSubscriptions := activeSubscriptions s; ss_disconnectedAt := disconnectedAt s |})
    <$> JsMap.get id ss.

Record Scrollback := {
  sb_content : string; sb_totalSize : Z; sb_offset : Z; sb_hasMore : bool; sb_wasTruncated : bool;
}.

Definition getScrollback (id : string) (lastNLines : option Z) (offset limit : Z) (ss : Sessions) :
    option Scrollback :=
  match JsMap.get id ss with
  | None => None
  | Some s =>
      let readResult := getLastNLines lastNLines (outputBuffer s) in
      let totalSize := Z.of_nat (String.length (content readResult)) in
      let safeOffset := Z.max 0 (Z.min offset totalSize) in
      let safeLimit := Z.max 0 limit in
      let end_ := Z.min (safeOffset + safeLimit) totalSize in
      Some {| sb_content := String.substring (Z.to_nat safeOffset) (Z.to_nat (end_ - safeOffset)) (content readResult);
              sb_totalSize := totalSize; sb_offset := safeOffset;
              sb_hasMore := bool_decide (end_ < totalSize); sb_wasTruncated := wasTruncated readResult |}
  end.

(** [cleanupOrphans]: collect the candidates, then tear each one down after
    re-checking its current state.  Nothing runs between the two phases of one
    synchronous call. *)
Definition orphan_candidates (now : Z) (ss : Sessions) : list string :=
  (filter (λ ks : string * PtySession,
     shouldCleanupSession (disconnectedAt ks.2) now ORPHAN_CLEANUP_TIMEOUT_MS = true) ss).*1.

Definition cleanup_one (acc : Sessions * list Effect) (id : string) : Sessions * list Effect :=
  let '(ss, effects) := acc in
  match JsMap.get id ss with
  | None => acc
  | Some current =>
      if bool_decide (0 < activeSubscriptions current) || bool_decide (disconnectedAt current = None) then acc
      else (JsMap.delete id ss, effects ++ [Dispose (pty current); Kill (pty current) None; OnExit id 1 None])
  end.

Definition cleanupOrphans (now : Z) (ss : Sessions) : Sessions * list Effect :=
  foldl cleanup_one (ss, []) (orphan_candidates now ss).

Definition destroy (ss : Sessions) : Sessions * list Effect :=
  ([], List.concat (map (λ ks : string * PtySession, [Dispose (pty ks.2); Kill (pty ks.2) None]) ss)).

(** ** What a session of a process with output [h] looks like *)
Record session_ok (h : list string) (s : PtySession) : Prop := {
  so_seq : lastSeq s = Z.of_nat (List.length h);
  so_buffer : outputBuffer s = feed (new_OutputBuffer None None) (numbered_from 1 h);
  so_active : 0 ≤ activeSubscriptions s;
  so_connected : disconnectedAt s = None ↔ 0 < activeSubscriptions s;
}.

Inductive session_step : list string * PtySession → list string * PtySession → Prop :=
  | ss_data h s d now : session_step (h, s) (h ++ [d], session_data now d s)
  | ss_connect h s now : session_step (h, s) (h, session_connect now s)
  | ss_write h s now : session_step (h, s) (h, session_write now s)
  | ss_disconnect h s now : session_step (h, s) (h, session_disconnect now s).

(** A session in the table whose process has output [h]. *)
Definition session_reached (h : list string) (s : PtySession) : Prop :=
  ∃ p t0, rtc session_step ([], new_session p t0) (h, s).

Lemma numbered_app i h h' :
  numbered_from i (h ++ h') = numbered_from i h ++ numbered_from (i + Z.of_nat (List.length h)) h'.
Proof.
  revert i. induction h as [|d h IH]; intros i; simpl; [by rewrite Z.add_0_r|].
  rewrite IH. do 3 f_equal. lia.
Qed.

Lemma session_ok_new p now : session_ok [] (new_session p now).
Proof. split; simpl; done || lia. Qed.

Lemma session_ok_data h s d now : session_ok h s → session_ok (h ++ [d]) (session_data now d s).
Proof.
  intros [Hs Hb Ha Hc]. split; simpl; [rewrite length_app; simpl; lia| |done..].
  rewrite Hb, numbered_app. unfold feed. rewrite foldl_app. simpl. rewrite Hs. f_equal. lia.
Qed.

Lemma session_ok_step x y : session_step x y → session_ok x.1 x.2 → session_ok y.1 y.2.
Proof.
  destruct 1 as [h s d now|h s now|h s now|h s now]; simpl; intros Hok; [by apply session_ok_data|..];
    destruct Hok as [Hs Hb Ha Hc]; split; simpl; try done; try lia.
  - split; done || lia.
  - case_bool_decide; lia.
  - destruct (disconnectedAt s) as [t|]; rewrite andb_comm; simpl.
    + destruct Hc as [_ Hc]. assert (¬ 0 < activeSubscriptions s) by (intros H; by apply Hc in H).
      rewrite !bool_decide_false by done. split; [done|lia].
    + assert (0 < activeSubscriptions s) by by apply Hc.
      rewrite !(bool_decide_true (0 < activeSubscriptions s)) by done.
      case_bool_decide; split; intros; first [discriminate | done | lia | exfalso; lia].
Qed.

(** Data for other operations leaves an entry alone. *)
Lemma cleanup_fold ids ss effects id :
  NoDup (JsMap.keys ss) →
  (∀ i s, i ∈ ids → JsMap.get i ss = Some s → ¬ 0 < activeSubscriptions s ∧ disconnectedAt s ≠ None) →
  JsMap.get id (foldl cleanup_one (ss, effects) ids).1 =
    if decide (id ∈ ids) then None else JsMap.get id ss.
Proof.
  revert ss effects. induction ids as [|i ids IH]; intros ss effects Hnd Hall; simpl.
  { done. }
  destruct (JsMap.get i ss) as [s|] eqn:Hi.
  - destruct (Hall i s ltac:(left) Hi) as [Ha Hd]. rewrite !bool_decide_false by done. simpl.
    rewrite IH; [|auto with js|].
    + rewrite JsMap.get_delete. destruct (decide (i = id)) as [->|Hne].
      * rewrite (decide_True (P := id ∈ id :: ids)) by left. by case_decide.
      * destruct (decide (id ∈ ids)); [by rewrite decide_True by (by right)|].
        rewrite decide_False; [done|]. intros [?|?]%elem_of_cons; congruence.
    + intros j s' Hj. rewrite JsMap.get_delete. destruct (decide (i = j)); [done|]. apply Hall. by right.
  - rewrite IH; [|done|intros j s' Hj; apply Hall; by right].
    destruct (decide (id ∈ ids)); [by rewrite decide_True by (by right)|].
    destruct (decide (id = i)) as [->|Hne]; [rewrite Hi; by case_decide|].
    rewrite decide_False; [done|]. intros [?|?]%elem_of_cons; congruence.
Qed.

Lemma candidate_iff now ss id s :
  NoDup (JsMap.keys ss) → JsMap.get id ss = Some s →
  id ∈ orphan_candidates now ss ↔
    ∃ t, disconnectedAt s = Some t ∧ ORPHAN_CLEANUP_TIMEOUT_MS ≤ now - t.
Proof.
  intros Hnd Hg. unfold orphan_candidates. rewrite list_elem_of_fmap. setoid_rewrite list_elem_of_filter.
  unfold shouldCleanupSession. split.
  - intros ([id' s'] & -> & Hs & Hin). simpl in *. apply (JsMap.elem_get _ _ _ Hnd) in Hin. simplify_eq.
    destruct (disconnectedAt s) as [t|]; [|done]. exists t. by apply bool_decide_eq_true in Hs.
  - intros (t & Ht & Hle). exists (id, s). split_and!; [done| |by apply JsMap.get_elem]. simpl. rewrite Ht.
    by apply bool_decide_eq_true.
Qed.



Lemma session_reached_ok h s : session_reached h s → session_ok h s.
Proof.
  intros (p & t0 & Hr). assert (∀ x y, rtc session_step x y → session_ok x.1 x.2 → session_ok y.1 y.2) as Hinv.
  { induction 1; eauto using session_ok_step. }
  exact (Hinv _ _ Hr (session_ok_new p t0)).
Qed.

(** *** Properties *)

(** In every state a session can reach from its spawn, its number counts
    its output, its buffer is the replay buffer of that output, and it is
    marked disconnected exactly while it has no subscriber. *)
Theorem session_invariant (p : nat) (t0 : Z) (h : list string) (s : PtySession)
    (Hr : rtc session_step ([], new_session p t0) (h, s)) : session_ok h s.
Proof. apply session_reached_ok. by exists p, t0. Qed.


(** The orphan sweep removes exactly the sessions that have been without
    a subscriber for the whole timeout; a connected session always survives. *)
Theorem orphan_cleanup_exact (now : Z) (ss : Sessions) (Hnd : NoDup (JsMap.keys ss))
    (Hok : ∀ id s, JsMap.get id ss = Some s → ∃ h, session_ok h s) (id : string) (s : PtySession)
    (Hs : JsMap.get id ss = Some s) :
  JsMap.get id (cleanupOrphans now ss).1 = None ↔
    activeSubscriptions s = 0 ∧ ∃ t, disconnectedAt s = Some t ∧ t + 300000 ≤ now.
Proof.
  unfold cleanupOrphans. rewrite cleanup_fold; [|done|].
  - rewrite Hs. destruct (Hok id s Hs) as (h & [_ _ Ha Hc]).
    assert (id ∈ orphan_candidates now ss ↔ activeSubscriptions s = 0 ∧ ∃ t, disconnectedAt s = Some t ∧ t + 300000 ≤ now) as <-.
    { rewrite candidate_iff by done. unfold ORPHAN_CLEANUP_TIMEOUT_MS. split.
      - intros (t & Ht & Hle). split; [|exists t; split; [done|lia]].
        destruct Hc as [_ Hc]. destruct (decide (0 < activeSubscriptions s)) as [Hlt|]; [|lia].
        specialize (Hc Hlt). congruence.
      - intros (_ & t & Ht & Hle). exists t. split; [done|lia]. }
    by case_decide.
  - intros i s' Hin Hg. apply (candidate_iff now ss i s' Hnd Hg) in Hin as (t & Ht & _).
    destruct (Hok i s' Hg) as (h & [_ _ _ Hc]). split; [|by rewrite Ht].
    intros Hlt. apply Hc in Hlt. congruence.
Qed.

(** *** Witnesses *)
Definition demo_session : PtySession :=
  session_disconnect 9 (session_data 6 "b" (session_connect 5 (session_data 3 "a" (new_session 1 0)))).

Lemma demo_session_reached : rtc session_step ([], new_session 1 0) (["a"; "b"], demo_session).
Proof.
  eapply rtc_l; [apply ss_data|]. eapply rtc_l; [apply ss_connect|].
  eapply rtc_l; [apply ss_data|]. eapply rtc_l; [apply ss_disconnect|]. apply rtc_refl.
Qed.

Lemma demo_session_ok : session_ok ["a"; "b"] demo_session.
Proof. split; [reflexivity|reflexivity|vm_compute; discriminate|]. vm_compute. split; discriminate. Qed.

Lemma session_invariant_witness : session_ok ["a"; "b"] demo_session.
Proof. exact (session_invariant 1 0 ["a"; "b"] demo_session demo_session_reached). Defined.


Lemma orphan_cleanup_exact_witness :
  JsMap.get "s" (cleanupOrphans 300009 [("s", demo_session)]).1 = None ↔
    activeSubscriptions demo_session = 0 ∧ ∃ t, disconnectedAt demo_session = Some t ∧ t + 300000 ≤ 300009.
Proof.
  apply (orphan_cleanup_exact 300009 [("s", demo_session)]); [| |reflexivity].
  - apply (bool_decide_unpack _); vm_compute; exact I.
  - intros id s Hg. simpl in Hg. destruct (decide ("s" = id)); [|discriminate].
    injection Hg as <-. exists ["a"; "b"]. exact demo_session_ok.
Defined.
