(* ===== verification/Turns.v ===== *)
(** * Turns and turn slots

    [services/core/src/session/entities/turn.ts] and
    [services/core/src/session/turn-slot-registry.ts].

    A [Turn] holds the read-only fields of the object and its identity; its
    mutable fields are the [Ledger].  Freshly allocated reservations and
    promises are identities passed to the operations that allocate them. *)
From S2P Require Import Prelude.

Inductive MessageOutcome := Completed | Superseded | Merged | Cancelled | Error_ | Rejected.
#[export] Instance MessageOutcome_eq_dec : EqDecision MessageOutcome.
Proof. solve_decision. Defined.

Record Turn := {
  turn_ref : nat;
  turnId : string;
  sessionId : string;
  turnNumber : Z;
  agentIds : list string;
}.
#[export] Instance Turn_eq_dec : EqDecision Turn.
Proof. solve_decision. Defined.

Record Ledger := {
  messageIds : list string;
  admittedTargets : list (string * list string);
  terminalPairs : list ((string * string) * (MessageOutcome * option string));
  pendingAdmissions : list string;
}.

Definition empty_ledger : Ledger :=
  {| messageIds := []; admittedTargets := []; terminalPairs := []; pendingAdmissions := [] |}.

Definition new_Turn (ref : nat) (tid sid : string) (number : Z) (agents : list string) : outcome string Turn :=
  if bool_decide (number < 1) then Throw "turnNumber must be a positive integer"
  else Ok {| turn_ref := ref; turnId := tid; sessionId := sid; turnNumber := number; agentIds := agents |}.

Definition hasAgent (t : Turn) (a : string) : bool := bool_decide (a ∈ agentIds t).
Definition hasPendingMessageAppends (l : Ledger) : bool := bool_decide (pendingAdmissions l ≠ []).

Definition admitMessage (t : Turn) (m : string) (agents : list string) (l : Ledger) : outcome string Ledger :=
  if JsMap.has m (admittedTargets l) then
    Throw ("Turn " +:+ turnId t +:+ " already admitted message " +:+ m)
  else if bool_decide (List.length agents = 0%nat) || bool_decide (List.length (JsSet.of_list agents) ≠ List.length agents) then
    Throw ("Turn " +:+ turnId t +:+ " requires a non-empty unique target set for message " +:+ m)
  else if existsb (λ a, negb (hasAgent t a)) agents then
    Throw ("Turn " +:+ turnId t +:+ " cannot admit targets outside its immutable participant set")
  else Ok {| messageIds := messageIds l ++ [m];
             admittedTargets := JsMap.set m (JsSet.of_list agents) (admittedTargets l);
             terminalPairs := terminalPairs l;
             pendingAdmissions := JsSet.add m (pendingAdmissions l) |}.

Definition commitMessageAdmission (t : Turn) (m : string) (l : Ledger) : outcome string Ledger :=
  if negb (JsMap.has m (admittedTargets l)) then
    Throw ("Turn " +:+ turnId t +:+ " cannot commit unknown message " +:+ m)
  else Ok {| messageIds := messageIds l; admittedTargets := admittedTargets l; terminalPairs := terminalPairs l;
             pendingAdmissions := JsSet.delete m (pendingAdmissions l) |}.

(** [indexOf] followed by [splice(index, 1)]. *)
Fixpoint remove_one (m : string) (ms : list string) : list string :=
  match ms with
  | [] => []
  | x :: ms' => if decide (x = m) then ms' else x :: remove_one m ms'
  end.

Definition rollbackMessageAdmission (t : Turn) (m : string) (l : Ledger) : outcome string Ledger :=
  match JsMap.get m (admittedTargets l) with
  | None => Ok l
  | Some targets =>
      if existsb (λ a, JsMap.has (m, a) (terminalPairs l)) targets then
        Throw ("Turn " +:+ turnId t +:+ " cannot roll back terminal message " +:+ m)
      else Ok {| messageIds := remove_one m (messageIds l);
                 admittedTargets := JsMap.delete m (admittedTargets l);
                 terminalPairs := terminalPairs l;
                 pendingAdmissions := JsSet.delete m (pendingAdmissions l) |}
  end.

Definition addMessage (t : Turn) (m : string) (l : Ledger) : outcome string Ledger :=
  match admitMessage t m (agentIds t) l with
  | Throw e => Throw e
  | Ok l' => commitMessageAdmission t m l'
  end.

Definition hasAdmittedPair (m a : string) (l : Ledger) : bool :=
  match JsMap.get m (admittedTargets l) with
  | None => false
  | Some targets => bool_decide (a ∈ targets)
  end.

Definition admittedPairs (l : Ledger) : list (string * string) :=
  List.concat (map (λ mt : string * list string, map (λ a, (mt.1, a)) mt.2) (admittedTargets l)).

Definition isComplete (l : Ledger) : bool :=
  if bool_decide (admittedTargets l = []) then false
  else if bool_decide (pendingAdmissions l ≠ []) then false
  else forallb (λ mt : string * list string, forallb (λ a, JsMap.has (mt.1, a) (terminalPairs l)) mt.2)
         (admittedTargets l).

Record TurnResult := { success : bool; errors : list string }.

Definition getResult (l : Ledger) : TurnResult :=
  let errs := map (λ e : MessageOutcome * option string, default "Unknown error" e.2)
    (filter (λ e : MessageOutcome * option string, e.1 = Error_) (JsMap.values (terminalPairs l))) in
  {| success := bool_decide (errs = []); errors := errs |}.

Inductive TurnPairStateChange :=
  | NotAccepted
  | Accepted
  | TurnComplete (result : TurnResult).

Definition recordPairTerminal (m a : string) (o : MessageOutcome) (error : option string) (l : Ledger) :
    TurnPairStateChange * Ledger :=
  if negb (hasAdmittedPair m a l) then (NotAccepted, l)
  else if JsMap.has (m, a) (terminalPairs l) then (NotAccepted, l)
  else
    let l' := {| messageIds := messageIds l; admittedTargets := admittedTargets l;
                 terminalPairs := JsMap.set (m, a) (o, error) (terminalPairs l);
                 pendingAdmissions := pendingAdmissions l |} in
    (if isComplete l' then TurnComplete (getResult l') else Accepted, l').

Definition getContext (t : Turn) (l : Ledger) : outcome string (string * string) :=
  match last (messageIds l) with
  | None => Throw ("Turn " +:+ turnId t +:+ " has no messages yet")
  | Some m => Ok (turnId t, m)
  end.

(** ** The slot registry *)
Record TurnReservation := { res_ref : nat; res_session : string }.
#[export] Instance TurnReservation_eq_dec : EqDecision TurnReservation.
Proof. solve_decision. Defined.

Record TurnSlotRegistry := {
  activeTurns : list (string * Turn);
  reservations : list (string * TurnReservation);
  pendingAcquisitions : list (string * nat);
  pendingPreparations : list (string * (Turn * nat));
  preparedTurnIds : list string;
  pendingFinalizations : list (string * nat);
  finalizingTurnIds : list string;
}.

Definition empty_registry : TurnSlotRegistry :=
  {| activeTurns := []; reservations := []; pendingAcquisitions := []; pendingPreparations := [];
     preparedTurnIds := []; pendingFinalizations := []; finalizingTurnIds := [] |}.

Definition with_active (a : list (string * Turn)) (r : TurnSlotRegistry) : TurnSlotRegistry :=
  {| activeTurns := a; reservations := reservations r; pendingAcquisitions := pendingAcquisitions r;
     pendingPreparations := pendingPreparations r; preparedTurnIds := preparedTurnIds r;
     pendingFinalizations := pendingFinalizations r; finalizingTurnIds := finalizingTurnIds r |}.
Definition with_reservations (rs : list (string * TurnReservation)) (r : TurnSlotRegistry) : TurnSlotRegistry :=
  {| activeTurns := activeTurns r; reservations := rs; pendingAcquisitions := pendingAcquisitions r;
     pendingPreparations := pendingPreparations r; preparedTurnIds := preparedTurnIds r;
     pendingFinalizations := pendingFinalizations r; finalizingTurnIds := finalizingTurnIds r |}.
Definition with_acquisitions (ps : list (string * nat)) (r : TurnSlotRegistry) : TurnSlotRegistry :=
  {| activeTurns := activeTurns r; reservations := reservations r; pendingAcquisitions := ps;
     pendingPreparations := pendingPreparations r; preparedTurnIds := preparedTurnIds r;
     pendingFinalizations := pendingFinalizations r; finalizingTurnIds := finalizingTurnIds r |}.
Definition with_preparations (ps : list (string * (Turn * nat))) (ids : list string) (r : TurnSlotRegistry) :
    TurnSlotRegistry :=
  {| activeTurns := activeTurns r; reservations := reservations r; pendingAcquisitions := pendingAcquisitions r;
     pendingPreparations := ps; preparedTurnIds := ids;
     pendingFinalizations := pendingFinalizations r; finalizingTurnIds := finalizingTurnIds r |}.
Definition with_finalizations (ps : list (string * nat)) (ids : list string) (r : TurnSlotRegistry) :
    TurnSlotRegistry :=
  {| activeTurns := activeTurns r; reservations := reservations r; pendingAcquisitions := pendingAcquisitions r;
     pendingPreparations := pendingPreparations r; preparedTurnIds := preparedTurnIds r;
     pendingFinalizations := ps; finalizingTurnIds := ids |}.

(** [awaitFinalization] up to its await: the promise to wait for, [pending]
    being the one [finalize] returns; and its [finally] block. *)
Definition awaitFinalization (sid : string) (pending : nat) (r : TurnSlotRegistry) : nat * TurnSlotRegistry :=
  match JsMap.get sid (pendingFinalizations r) with
  | Some existing => (existing, r)
  | None => (pending, with_finalizations (JsMap.set sid pending (pendingFinalizations r)) (finalizingTurnIds r) r)
  end.
Definition finalization_settled (sid : string) (pending : nat) (r : TurnSlotRegistry) : TurnSlotRegistry :=
  if bool_decide (JsMap.get sid (pendingFinalizations r) = Some pending)
  then with_finalizations (JsMap.delete sid (pendingFinalizations r)) (finalizingTurnIds r) r else r.

Definition getActive (sid : string) (r : TurnSlotRegistry) : option Turn := JsMap.get sid (activeTurns r).
Definition findActiveByTurnId (tid : string) (r : TurnSlotRegistry) : option Turn :=
  head (filter (λ t, turnId t = tid) (JsMap.values (activeTurns r))).

Definition reserve (sid : string) (ref : nat) (r : TurnSlotRegistry) :
    outcome string (TurnReservation * TurnSlotRegistry) :=
  if JsMap.has sid (activeTurns r) || JsMap.has sid (reservations r) then
    Throw ("Session " +:+ sid +:+ " already has a routable or pending turn")
  else let reservation := {| res_ref := ref; res_session := sid |} in
    Ok (reservation, with_reservations (JsMap.set sid reservation (reservations r)) r).

Definition release (res : TurnReservation) (r : TurnSlotRegistry) : TurnSlotRegistry :=
  if bool_decide (JsMap.get (res_session res) (reservations r) = Some res)
  then with_reservations (JsMap.delete (res_session res) (reservations r)) r else r.

Definition activate (res : TurnReservation) (t : Turn) (r : TurnSlotRegistry) : outcome string TurnSlotRegistry :=
  if bool_decide (JsMap.get (res_session res) (reservations r) ≠ Some res) then
    Throw ("Turn reservation for session " +:+ res_session res +:+ " is no longer active")
  else Ok (release res (with_active (JsMap.set (res_session res) t (activeTurns r)) r)).

Definition owns_slot (t : Turn) (r : TurnSlotRegistry) : bool :=
  bool_decide (turnId <$> JsMap.get (sessionId t) (activeTurns r) = Some (turnId t)).

Definition clearActive (t : Turn) (r : TurnSlotRegistry) : bool * TurnSlotRegistry :=
  if negb (owns_slot t r) then (false, r)
  else (true, with_preparations (pendingPreparations r) (JsSet.delete (turnId t) (preparedTurnIds r))
                (with_active (JsMap.delete (sessionId t) (activeTurns r)) r)).

(** [acquire] up to its await.  [creation] is the promise [create] returns. *)
Inductive Acquisition :=
  | Existing (t : Turn)
  | AwaitPending (promise : nat)
  | Creating (reservation : TurnReservation) (promise : nat).

Definition acquire (sid : string) (ref creation : nat) (r : TurnSlotRegistry) :
    outcome string (Acquisition * TurnSlotRegistry) :=
  match JsMap.get sid (activeTurns r) with
  | Some t => Ok (Existing t, r)
  | None =>
      match JsMap.get sid (pendingAcquisitions r) with
      | Some p => Ok (AwaitPending p, r)
      | None =>
          match reserve sid ref r with
          | Throw e => Throw e
          | Ok (reservation, r') =>
              Ok (Creating reservation creation,
                  with_acquisitions (JsMap.set sid creation (pendingAcquisitions r')) r')
          end
      end
  end.
Definition acquisition_settled (sid : string) (creation : nat) (r : TurnSlotRegistry) : TurnSlotRegistry :=
  if bool_decide (JsMap.get sid (pendingAcquisitions r) = Some creation)
  then with_acquisitions (JsMap.delete sid (pendingAcquisitions r)) r else r.

(** [None]: finalization already won. *)
Definition tryAdmitMessage (t : Turn) (m : string) (agents : list string) (r : TurnSlotRegistry) (l : Ledger) :
    option (outcome string Ledger) :=
  if bool_decide (turnId t ∈ finalizingTurnIds r) || negb (owns_slot t r) then None
  else Some (admitMessage t m agents l).

Definition beginFinalization (t : Turn) (r : TurnSlotRegistry) : bool * TurnSlotRegistry :=
  if bool_decide (turnId t ∈ finalizingTurnIds r) then (false, r)
  else if negb (owns_slot t r) then (false, r)
  else (true, (clearActive t (with_finalizations (pendingFinalizations r)
                 (JsSet.add (turnId t) (finalizingTurnIds r)) r)).2).

Definition finishFinalization (t : Turn) (r : TurnSlotRegistry) : TurnSlotRegistry :=
  with_finalizations (pendingFinalizations r) (JsSet.delete (turnId t) (finalizingTurnIds r)) r.

(** [ready = None] is an already resolved promise. *)
Record TurnPreparationLease := { lease_turn : Turn; isOwner : bool; ready : option nat }.

Definition beginPreparation (t : Turn) (promise : nat) (r : TurnSlotRegistry) :
    TurnPreparationLease * TurnSlotRegistry :=
  if bool_decide (turnId t ∈ preparedTurnIds r) then
    ({| lease_turn := t; isOwner := false; ready := None |}, r)
  else match JsMap.get (turnId t) (pendingPreparations r) with
  | Some (_, p) => ({| lease_turn := t; isOwner := false; ready := Some p |}, r)
  | None =>
      ({| lease_turn := t; isOwner := true; ready := Some promise |},
       with_preparations (JsMap.set (turnId t) (t, promise) (pendingPreparations r)) (preparedTurnIds r) r)
  end.

(** The promise resolved, and the registry after. *)
Definition completePreparation (lease : TurnPreparationLease) (r : TurnSlotRegistry) :
    outcome string (nat * TurnSlotRegistry) :=
  let t := lease_turn lease in
  if negb (isOwner lease) then
    Throw ("Only the preparation owner can complete turn " +:+ turnId t)
  else match JsMap.get (turnId t) (pendingPreparations r) with
  | Some (t', p) =>
      if decide (t' = t) then
        Ok (p, with_preparations (JsMap.delete (turnId t) (pendingPreparations r))
                 (JsSet.add (turnId t) (preparedTurnIds r)) r)
      else Throw ("Turn preparation for " +:+ turnId t +:+ " is no longer active")
  | None => Throw ("Turn preparation for " +:+ turnId t +:+ " is no longer active")
  end.

(** The promise rejected, if any, and the registry after. *)
Definition failPreparation (lease : TurnPreparationLease) (r : TurnSlotRegistry) :
    outcome string (option nat * TurnSlotRegistry) :=
  let t := lease_turn lease in
  if negb (isOwner lease) then
    Throw ("Only the preparation owner can fail turn " +:+ turnId t)
  else match JsMap.get (turnId t) (pendingPreparations r) with
  | Some (t', p) =>
      if decide (t' = t) then
        Ok (Some p, with_preparations (JsMap.delete (turnId t) (pendingPreparations r)) (preparedTurnIds r) r)
      else Ok (None, r)
  | None => Ok (None, r)
  end.

(** The promises rejected by [clear]. *)
Definition clear (r : TurnSlotRegistry) : list nat * TurnSlotRegistry :=
  (map (λ e : string * (Turn * nat), e.2.2) (pendingPreparations r), empty_registry).

(** ** The ledger invariant *)
Record ledger_ok (t : Turn) (l : Ledger) : Prop := {
  lo_nodup : NoDup (JsMap.keys (admittedTargets l));
  lo_messages : messageIds l = JsMap.keys (admittedTargets l);
  lo_targets : ∀ m ts, JsMap.get m (admittedTargets l) = Some ts → ts ≠ [] ∧ NoDup ts ∧ ts ⊆ agentIds t;
  lo_terminal : ∀ m a, JsMap.has (m, a) (terminalPairs l) = true → hasAdmittedPair m a l = true;
  lo_pending : ∀ m, m ∈ pendingAdmissions l → JsMap.has m (admittedTargets l) = true;
}.

Inductive ledger_step (t : Turn) : Ledger → Ledger → Prop :=
  | ls_admit m agents l l' : admitMessage t m agents l = Ok l' → ledger_step t l l'
  | ls_commit m l l' : commitMessageAdmission t m l = Ok l' → ledger_step t l l'
  | ls_rollback m l l' : rollbackMessageAdmission t m l = Ok l' → ledger_step t l l'
  | ls_terminal m a o e l : ledger_step t l (recordPairTerminal m a o e l).2.

Lemma hasAdmittedPair_get m a l :
  hasAdmittedPair m a l = true ↔ ∃ ts, JsMap.get m (admittedTargets l) = Some ts ∧ a ∈ ts.
Proof.
  unfold hasAdmittedPair. destruct (JsMap.get _ _) as [ts|]; rewrite ?bool_decide_eq_true; naive_solver.
Qed.

Lemma remove_one_filter m ms : NoDup ms → remove_one m ms = filter (λ x, x ≠ m) ms.
Proof.
  induction 1 as [|x ms Hx Hnd IH]; [done|]. simpl. destruct (decide (x = m)) as [->|Hne].
  - rewrite filter_cons_False by naive_solver. symmetry. apply filter_all. intros y Hy ->. done.
  - rewrite filter_cons_True by done. by rewrite IH.
Qed.

Lemma targets_ok t agents :
  List.length agents ≠ 0%nat → existsb (λ a, negb (hasAgent t a)) agents = false →
  JsSet.of_list agents ≠ [] ∧ NoDup (JsSet.of_list agents) ∧ JsSet.of_list agents ⊆ agentIds t.
Proof.
  intros Hl He. split_and!.
  - destruct agents as [|a agents]; [done|]. intros H0.
    assert (a ∈ JsSet.of_list (a :: agents)) as Ha by (apply JsSet.elem_of_list; left). rewrite H0 in Ha. by apply elem_of_nil in Ha.
  - apply JsSet.NoDup_fold_add. constructor.
  - intros a Ha. rewrite JsSet.elem_of_list in Ha.
    destruct (hasAgent t a) eqn:Hh; [by apply bool_decide_eq_true in Hh|].
    assert (existsb (λ a, negb (hasAgent t a)) agents = true) as Hc; [|congruence].
    apply existsb_exists. exists a. rewrite Hh. split; [by rewrite <- list_elem_of_In|done].
Qed.

Lemma admitMessage_inv t m agents l l' :
  admitMessage t m agents l = Ok l' →
  JsMap.get m (admittedTargets l) = None ∧
  (JsSet.of_list agents ≠ [] ∧ NoDup (JsSet.of_list agents) ∧ JsSet.of_list agents ⊆ agentIds t) ∧
  l' = {| messageIds := messageIds l ++ [m];
          admittedTargets := JsMap.set m (JsSet.of_list agents) (admittedTargets l);
          terminalPairs := terminalPairs l; pendingAdmissions := JsSet.add m (pendingAdmissions l) |}.
Proof.
  unfold admitMessage. destruct (JsMap.has m _) eqn:Hm; [done|].
  destruct (bool_decide (List.length agents = 0%nat)) eqn:Hl; [done|]. apply bool_decide_eq_false in Hl.
  destruct (bool_decide (_ ≠ _)); [done|]. simpl.
  destruct (existsb _ agents) eqn:He; [done|]. intros [= <-].
  split; [|split; [by apply targets_ok|done]].
  unfold JsMap.has in Hm. by destruct (JsMap.get m _).
Qed.

Lemma commit_inv t m l l' :
  commitMessageAdmission t m l = Ok l' →
  l' = {| messageIds := messageIds l; admittedTargets := admittedTargets l; terminalPairs := terminalPairs l;
          pendingAdmissions := JsSet.delete m (pendingAdmissions l) |}.
Proof. unfold commitMessageAdmission. destruct (negb _); congruence. Qed.

Lemma rollback_inv t m l l' :
  rollbackMessageAdmission t m l = Ok l' →
  (JsMap.get m (admittedTargets l) = None ∧ l' = l) ∨
  ∃ ts, JsMap.get m (admittedTargets l) = Some ts ∧ (∀ a, a ∈ ts → JsMap.has (m, a) (terminalPairs l) = false) ∧
    l' = {| messageIds := remove_one m (messageIds l); admittedTargets := JsMap.delete m (admittedTargets l);
            terminalPairs := terminalPairs l; pendingAdmissions := JsSet.delete m (pendingAdmissions l) |}.
Proof.
  unfold rollbackMessageAdmission. destruct (JsMap.get m _) as [ts|]; [|intros [= <-]; by left].
  destruct (existsb _ ts) eqn:He; [done|]. intros [= <-]. right. exists ts. split_and!; [done| |done].
  intros a Ha. destruct (JsMap.has (m, a) _) eqn:Hh; [|done].
  rewrite <- He. symmetry. apply existsb_exists. exists a. split; [by rewrite <- list_elem_of_In|done].
Qed.

Lemma record_inv m a o e l :
  (recordPairTerminal m a o e l = (NotAccepted, l) ∧
    (hasAdmittedPair m a l = false ∨ JsMap.has (m, a) (terminalPairs l) = true)) ∨
  hasAdmittedPair m a l = true ∧ JsMap.has (m, a) (terminalPairs l) = false ∧
  ∃ c l', recordPairTerminal m a o e l = (c, l') ∧
    c = (if isComplete l' then TurnComplete (getResult l') else Accepted) ∧
    l' = {| messageIds := messageIds l; admittedTargets := admittedTargets l;
            terminalPairs := JsMap.set (m, a) (o, e) (terminalPairs l); pendingAdmissions := pendingAdmissions l |}.
Proof.
  unfold recordPairTerminal. destruct (hasAdmittedPair m a l) eqn:Ha; simpl; [|left; auto].
  destruct (JsMap.has (m, a) _) eqn:Hh; [left; auto|]. right. eauto 10.
Qed.

Lemma ledger_ok_empty t : ledger_ok t empty_ledger.
Proof.
  split; simpl; [constructor|done|done|done|]. intros m Hm. by apply elem_of_nil in Hm.
Qed.

Lemma ledger_ok_admit t m agents l l' : admitMessage t m agents l = Ok l' → ledger_ok t l → ledger_ok t l'.
Proof.
  intros (Hm & Ht & ->)%admitMessage_inv [Hnd Hms Hts Hte Hp]. split; simpl.
  - auto with js.
  - rewrite JsMap.set_absent by done. unfold JsMap.keys in *. by rewrite fmap_app, Hms.
  - intros m' ts. rewrite JsMap.get_set. destruct (decide (m = m')); [|apply Hts]. intros [= <-]. done.
  - intros m' a Hh. specialize (Hte m' a Hh). apply hasAdmittedPair_get in Hte as (ts & Hg & Ha).
    apply hasAdmittedPair_get. exists ts. simpl. rewrite JsMap.get_set_ne by congruence. done.
  - intros m'. rewrite JsSet.elem_add. unfold JsMap.has in *. rewrite JsMap.get_set.
    destruct (decide (m = m')); [done|]. intros [->|Hm']; [done|by apply Hp].
Qed.

Lemma ledger_ok_commit t m l l' : commitMessageAdmission t m l = Ok l' → ledger_ok t l → ledger_ok t l'.
Proof.
  intros ->%commit_inv [Hnd Hms Hts Hte Hp]. split; simpl; try done.
  intros m' [_ Hm']%JsSet.elem_delete. by apply Hp.
Qed.

Lemma keys_delete {K V} `{EqDecision K} (k : K) (m : list (K * V)) :
  JsMap.keys (JsMap.delete k m) = filter (λ x, x ≠ k) (JsMap.keys m).
Proof.
  rewrite JsMap.delete_filter. induction m as [|[k' v] m IH]; [done|]. rewrite filter_cons. simpl.
  rewrite filter_cons. case_decide; simpl; by rewrite <- IH.
Qed.

Lemma ledger_ok_rollback t m l l' : rollbackMessageAdmission t m l = Ok l' → ledger_ok t l → ledger_ok t l'.
Proof.
  intros [[_ ->]|(ts & Hg & Hno & ->)]%rollback_inv; [done|]. intros [Hnd Hms Hts Hte Hp]. split; simpl.
  - auto with js.
  - rewrite Hms, remove_one_filter by done. by rewrite keys_delete.
  - intros m' ts'. rewrite JsMap.get_delete. destruct (decide (m = m')); [done|apply Hts].
  - intros m' a Hh. pose proof (Hte m' a Hh) as (ts' & Hg' & Ha)%hasAdmittedPair_get.
    apply hasAdmittedPair_get. exists ts'. simpl. rewrite JsMap.get_delete_ne; [done|]. intros ->. simplify_eq.
    rewrite Hno in Hh; done.
  - intros m' [Hne Hm']%JsSet.elem_delete. unfold JsMap.has. rewrite JsMap.get_delete_ne by congruence. by apply Hp.
Qed.

Lemma has_set {K V} `{EqDecision K} (k k' : K) (v : V) m :
  JsMap.has k' (JsMap.set k v m) = bool_decide (k = k') || JsMap.has k' m.
Proof. unfold JsMap.has. rewrite JsMap.get_set. destruct (decide (k = k')); by case_bool_decide. Qed.

Lemma ledger_ok_terminal t m a o e l : ledger_ok t l → ledger_ok t (recordPairTerminal m a o e l).2.
Proof.
  intros Hok. destruct (record_inv m a o e l) as [[-> _]|(Ha & Hh & c & l' & -> & _ & ->)]; [done|].
  destruct Hok as [Hnd Hms Hts Hte Hp]. split; simpl; try done.
  intros m' a'. rewrite has_set, orb_true_iff, bool_decide_eq_true. intros [[= <- <-]|Hh']; [exact Ha|].
  exact (Hte m' a' Hh').
Qed.

Lemma ledger_ok_step t l l' : ledger_step t l l' → ledger_ok t l → ledger_ok t l'.
Proof.
  destruct 1; eauto using ledger_ok_admit, ledger_ok_commit, ledger_ok_rollback, ledger_ok_terminal.
Qed.

(** ** Completion *)
Definition open_pairs (l : Ledger) : list (string * string) :=
  filter (λ p, JsMap.has p (terminalPairs l) = false) (admittedPairs l).

Lemma elem_admittedPairs t m a l : ledger_ok t l → (m, a) ∈ admittedPairs l ↔ hasAdmittedPair m a l = true.
Proof.
  intros Hok. rewrite hasAdmittedPair_get. unfold admittedPairs.
  rewrite list_elem_of_In, in_concat. split.
  - intros (ps & Hps & Hin). apply in_map_iff in Hps as ([m' ts] & <- & Hm).
    apply in_map_iff in Hin as (a' & [= -> ->] & Ha). exists ts.
    rewrite <- list_elem_of_In in Hm. rewrite <- list_elem_of_In in Ha.
    split; [|done]. apply JsMap.elem_get; [apply Hok|done].
  - intros (ts & Hg & Ha). exists (map (λ a, (m, a)) ts). split.
    + apply in_map_iff. exists (m, ts). split; [done|]. apply list_elem_of_In. by apply JsMap.get_elem.
    + apply in_map_iff. exists a. split; [done|]. by apply list_elem_of_In.
Qed.

Lemma elem_open_pairs t m a l :
  ledger_ok t l → (m, a) ∈ open_pairs l ↔ hasAdmittedPair m a l = true ∧ JsMap.has (m, a) (terminalPairs l) = false.
Proof. intros Hok. unfold open_pairs. rewrite list_elem_of_filter, (elem_admittedPairs t) by done. tauto. Qed.

Lemma isComplete_iff t l :
  ledger_ok t l →
  isComplete l = true ↔ admittedTargets l ≠ [] ∧ pendingAdmissions l = [] ∧ open_pairs l = [].
Proof.
  intros Hok. unfold isComplete. case_bool_decide as H1; [naive_solver|]. case_bool_decide as H2; [naive_solver|].
  rewrite forallb_forall. split.
  - intros Hall. split_and!; [done..|]. apply filter_none. intros [m a] Hin.
    apply (elem_admittedPairs t) in Hin; [|done]. apply hasAdmittedPair_get in Hin as (ts & Hg & Ha).
    specialize (Hall (m, ts)). rewrite <- list_elem_of_In, forallb_forall in Hall.
    specialize (Hall (JsMap.get_elem _ _ _ Hg) a). rewrite <- list_elem_of_In in Hall. simpl in Hall.
    rewrite (Hall Ha). done.
  - intros (_ & _ & Ho) [m ts] Hm. rewrite <- list_elem_of_In in Hm. apply forallb_forall. intros a Ha.
    rewrite <- list_elem_of_In in Ha. simpl. destruct (JsMap.has (m, a) _) eqn:Hh; [done|].
    assert ((m, a) ∈ open_pairs l) as Hc; [|rewrite Ho in Hc; by apply elem_of_nil in Hc].
    apply (elem_open_pairs t); [done|]. split; [|done]. apply hasAdmittedPair_get. exists ts. split; [|done].
    apply JsMap.elem_get; [apply Hok|done].
Qed.

Lemma open_pairs_record m a o e l :
  open_pairs {| messageIds := messageIds l; admittedTargets := admittedTargets l;
                terminalPairs := JsMap.set (m, a) (o, e) (terminalPairs l); pendingAdmissions := pendingAdmissions l |}
  = filter (λ p, p ≠ (m, a)) (open_pairs l).
Proof.
  unfold open_pairs, admittedPairs. simpl. rewrite filter_filter_and. apply list_filter_iff. intros p.
  rewrite has_set, orb_false_iff, bool_decide_eq_false. naive_solver.
Qed.

Lemma reachable_ok t l : rtc (ledger_step t) empty_ledger l → ledger_ok t l.
Proof.
  assert (∀ x y, rtc (ledger_step t) x y → ledger_ok t x → ledger_ok t y) as Hinv.
  { induction 1; eauto using ledger_ok_step. }
  eauto using ledger_ok_empty.
Qed.

(** *** Properties *)

(** Recording an outcome succeeds exactly for an admitted pair without
    one, closes that pair only, and reports the turn complete exactly when it
    was the last open pair and no admission is pending; the result then fails
    exactly if some pair ended in an error, the errors in arrival order. *)
Theorem turn_completion_exact (t : Turn) (l : Ledger) (Hr : rtc (ledger_step t) empty_ledger l)
    (m a : string) (o : MessageOutcome) (e : option string) :
  let '(c, l') := recordPairTerminal m a o e l in
  (c ≠ NotAccepted ↔ (m, a) ∈ open_pairs l) ∧
  open_pairs l' = filter (λ p, p ≠ (m, a)) (open_pairs l) ∧
  (∀ res, c = TurnComplete res ↔
     (m, a) ∈ open_pairs l ∧ (∀ p, p ∈ open_pairs l → p = (m, a)) ∧ pendingAdmissions l = [] ∧
     success res = bool_decide (errors res = []) ∧
     errors res = errors (getResult l) ++ (if decide (o = Error_) then [default "Unknown error" e] else [])).
Proof.
  pose proof (reachable_ok t l Hr) as Hok. pose proof (ledger_ok_terminal t m a o e l Hok) as Hok'.
  destruct (record_inv m a o e l) as [[-> Hno]|(Ha & Hh & c & l' & Heq & -> & Hl')].
  - assert ((m, a) ∉ open_pairs l) as Hn.
    { rewrite (elem_open_pairs t) by done. destruct Hno as [-> | ->]; intros [? ?]; congruence. }
    split_and!; [naive_solver| |naive_solver]. symmetry. apply filter_all. intros p Hp ->. done.
  - rewrite Heq in *. simpl in Hok'. rewrite Hl' at 3. rewrite open_pairs_record.
    assert ((m, a) ∈ open_pairs l) as Hin by by apply (elem_open_pairs t).
    split_and!; [destruct (isComplete l'); naive_solver|done|]. intros res.
    assert (errors (getResult l') =
      errors (getResult l) ++ (if decide (o = Error_) then [default "Unknown error" e] else [])) as Hres.
    { rewrite Hl'. unfold getResult. simpl. unfold JsMap.has in Hh. destruct (JsMap.get (m, a) _) eqn:Hg; [done|].
      rewrite JsMap.set_absent by done. unfold JsMap.values. rewrite fmap_app, filter_app, map_app. simpl.
      rewrite filter_cons. simpl. destruct (decide (o = Error_)); done. }
    assert (isComplete l' = true ↔ pendingAdmissions l = [] ∧ ∀ p, p ∈ open_pairs l → p = (m, a)) as Hc.
    { rewrite (isComplete_iff t) by done. rewrite Hl', open_pairs_record. simpl. split.
      - intros (_ & Hp & Ho). split; [done|]. intros p Hp'. destruct (decide (p = (m, a))); [done|].
        assert (p ∈ filter (λ p, p ≠ (m, a)) (open_pairs l)) as Hc by by apply list_elem_of_filter.
        rewrite Ho in Hc. by apply elem_of_nil in Hc.
      - intros [Hp Ho]. split_and!; [|done|apply filter_none; naive_solver].
        intros Hnil. apply hasAdmittedPair_get in Ha as (ts & Hg & _). by rewrite Hnil in Hg. }
    destruct (isComplete l').
    + destruct (proj1 Hc eq_refl) as [Hp Ho]. split.
      * intros [= <-]. by split_and!.
      * intros (_ & _ & _ & Hs & He). rewrite <- Hres in He. f_equal. destruct res as [s es]. simpl in *. by subst.
    + split; [done|]. intros (_ & Ho & Hp & _). destruct Hc as [_ Hc]. by specialize (Hc (conj Hp Ho)).
Qed.

(** *** Witnesses *)
Definition demo_turn : Turn :=
  {| turn_ref := 0; turnId := "t"; sessionId := "s"; turnNumber := 1; agentIds := ["a"; "b"] |}.
Definition demo_ledger : Ledger :=
  {| messageIds := ["m"]; admittedTargets := [("m", ["a"; "b"])];
     terminalPairs := [(("m", "a"), (Error_, None))]; pendingAdmissions := [] |}.

Lemma demo_ledger_reachable : rtc (ledger_step demo_turn) empty_ledger demo_ledger.
Proof.
  eapply rtc_l; [apply (ls_admit _ "m" ["a"; "b"]); reflexivity|].
  eapply rtc_l; [apply (ls_commit _ "m"); reflexivity|].
  eapply rtc_l; [apply (ls_terminal _ "m" "a" Error_ None)|]. apply rtc_refl.
Qed.

Lemma turn_completion_exact_witness :
  (recordPairTerminal "m" "b" Completed None demo_ledger).1 =
    TurnComplete {| success := false; errors := ["Unknown error"] |}.
Proof.
  pose proof (turn_completion_exact demo_turn demo_ledger demo_ledger_reachable "m" "b" Completed None) as H.
  change (recordPairTerminal "m" "b" Completed None demo_ledger) with
    (TurnComplete {| success := false; errors := ["Unknown error"] |},
     (recordPairTerminal "m" "b" Completed None demo_ledger).2) in *.
  simpl in H |- *. destruct H as (_ & _ & H). apply H.
  split_and!; [left| |reflexivity..]. intros p Hp. by apply list_elem_of_singleton in Hp.
Defined.
