(* ===== verification/TurnManager.v ===== *)
(** * The turn manager

    [services/core/src/session/session-turn-manager.ts],
    [turn-admission.ts] and [turn-completion-events.ts]: the transitions by
    which turns are created, admitOnce messages, complete and are finalized.

    The manager is asynchronous: each constructor of [step] is a stretch of
    code between two awaits, so runs of [step] are all its interleavings.
    [turns] and the contents of [heap] and [promises] are the objects the code
    has allocated; [allocated] numbers them. *)
From S2P Require Import Prelude Turns.

Inductive AdmissionState :=
  | Waiting     (* acquireMessageAdmission awaits preparation.ready *)
  | Held        (* the lease was returned to the caller *)
  | Committed
  | Checking    (* a joiner's rollback awaits its isComplete test *)
  | Gone.
#[export] Instance AdmissionState_eq_dec : EqDecision AdmissionState.
Proof. solve_decision. Defined.

Record Admission := {
  a_turn : Turn;
  a_msg : string;
  preparation : TurnPreparationLease;
  a_state : AdmissionState;
}.

Record Manager := {
  turnSlots : TurnSlotRegistry;
  heap : list (nat * Ledger);
  promises : list (nat * (Turn * option bool));
  admissions : list Admission;
  completingTurns : list (string * Turn);
  pendingTerminalResults : list (string * TurnResult);
  setupFinalizingTurnIds : list string;
  turns : list Turn;
  allocated : nat;
}.

Definition new_manager : Manager :=
  {| turnSlots := empty_registry; heap := []; promises := []; admissions := []; completingTurns := [];
     pendingTerminalResults := []; setupFinalizingTurnIds := []; turns := []; allocated := 0 |}.

Definition ledger_of (t : Turn) (w : Manager) : Ledger := default empty_ledger (JsMap.get (turn_ref t) (heap w)).

Definition set_slots (r : TurnSlotRegistry) (w : Manager) : Manager :=
  {| turnSlots := r; heap := heap w; promises := promises w; admissions := admissions w;
     completingTurns := completingTurns w; pendingTerminalResults := pendingTerminalResults w;
     setupFinalizingTurnIds := setupFinalizingTurnIds w; turns := turns w; allocated := allocated w |}.
Definition set_ledger (t : Turn) (l : Ledger) (w : Manager) : Manager :=
  {| turnSlots := turnSlots w; heap := JsMap.set (turn_ref t) l (heap w); promises := promises w;
     admissions := admissions w; completingTurns := completingTurns w;
     pendingTerminalResults := pendingTerminalResults w;
     setupFinalizingTurnIds := setupFinalizingTurnIds w; turns := turns w; allocated := allocated w |}.
Definition set_promise (p : nat) (t : Turn) (state : option bool) (w : Manager) : Manager :=
  {| turnSlots := turnSlots w; heap := heap w; promises := JsMap.set p (t, state) (promises w);
     admissions := admissions w; completingTurns := completingTurns w;
     pendingTerminalResults := pendingTerminalResults w;
     setupFinalizingTurnIds := setupFinalizingTurnIds w; turns := turns w; allocated := allocated w |}.
Definition set_admissions (ads : list Admission) (w : Manager) : Manager :=
  {| turnSlots := turnSlots w; heap := heap w; promises := promises w; admissions := ads;
     completingTurns := completingTurns w; pendingTerminalResults := pendingTerminalResults w;
     setupFinalizingTurnIds := setupFinalizingTurnIds w; turns := turns w; allocated := allocated w |}.
Definition allocate (w : Manager) : Manager :=
  {| turnSlots := turnSlots w; heap := heap w; promises := promises w; admissions := admissions w;
     completingTurns := completingTurns w; pendingTerminalResults := pendingTerminalResults w;
     setupFinalizingTurnIds := setupFinalizingTurnIds w; turns := turns w; allocated := S (allocated w) |}.
Definition set_turns (ts : list Turn) (w : Manager) : Manager :=
  {| turnSlots := turnSlots w; heap := heap w; promises := promises w; admissions := admissions w;
     completingTurns := completingTurns w; pendingTerminalResults := pendingTerminalResults w;
     setupFinalizingTurnIds := setupFinalizingTurnIds w; turns := ts; allocated := allocated w |}.
Definition set_completing (c : list (string * Turn)) (r : list (string * TurnResult)) (s : list string)
    (w : Manager) : Manager :=
  {| turnSlots := turnSlots w; heap := heap w; promises := promises w; admissions := admissions w;
     completingTurns := c; pendingTerminalResults := r; setupFinalizingTurnIds := s; turns := turns w;
     allocated := allocated w |}.

Definition set_state (i : nat) (s : AdmissionState) (w : Manager) : Manager :=
  set_admissions (alter (λ ad, {| a_turn := a_turn ad; a_msg := a_msg ad; preparation := preparation ad;
                                  a_state := s |}) i (admissions w)) w.

(** [SessionTurnManager.beginFinalization]. *)
Definition finalize (t : Turn) (result : TurnResult) (setup : bool) (w : Manager) : Manager :=
  let canonical := default result (JsMap.get (turnId t) (pendingTerminalResults w)) in
  set_slots (beginFinalization t (turnSlots w)).2
    (set_completing (JsMap.set (turnId t) t (completingTurns w))
       (JsMap.set (turnId t) canonical (pendingTerminalResults w))
       (if setup then JsSet.add (turnId t) (setupFinalizingTurnIds w) else setupFinalizingTurnIds w) w).

(** [clearCompletionState], as far as it concerns this state. *)
Definition clearCompletionState (t : Turn) (w : Manager) : Manager :=
  set_slots (finishFinalization t (turnSlots w))
    (set_completing (JsMap.delete (turnId t) (completingTurns w))
       (JsMap.delete (turnId t) (pendingTerminalResults w))
       (JsSet.delete (turnId t) (setupFinalizingTurnIds w)) w).

(** The turn constructed and activated by [createReservedTurn], whose
    [finally] then releases the reservation. *)
Definition createReservedTurn (res : TurnReservation) (t : Turn) (w : Manager) : outcome string Manager :=
  match activate res t (turnSlots w) with
  | Throw e => Throw e
  | Ok r => Ok (allocate (set_turns (t :: turns w) (set_slots (release res r) w)))
  end.

(** One attempt of the loop of [acquireMessageAdmission], once the turn is
    acquired; [None]: the loop goes round again. *)
Definition admitOnce (t : Turn) (m : string) (agents : list string) (w : Manager) : option (outcome string Manager) :=
  match tryAdmitMessage t m agents (turnSlots w) (ledger_of t w) with
  | None => None
  | Some (Throw e) => Some (Throw e)
  | Some (Ok l) =>
      let p := allocated w in
      let '(lease, r) := beginPreparation t p (turnSlots w) in
      let w' := allocate (set_slots r (set_ledger t l w)) in
      let ad := {| a_turn := t; a_msg := m; preparation := lease;
                   a_state := if isOwner lease then Held else Waiting |} in
      let w'' := set_admissions (admissions w' ++ [ad]) w' in
      Some (Ok (if isOwner lease then set_promise p t None w'' else w''))
  end.

(** [commit] of the composed lease. *)
Definition commit (i : nat) (ad : Admission) (w : Manager) : Manager :=
  let t := a_turn ad in
  match commitMessageAdmission t (a_msg ad) (ledger_of t w) with
  | Throw _ => set_state i Gone w
  | Ok l =>
      let w' := set_state i Committed (set_ledger t l w) in
      if isOwner (preparation ad) then
        match completePreparation (preparation ad) (turnSlots w) with
        | Throw _ => w'
        | Ok (p, r) => set_promise p t (Some true) (set_slots r w')
        end
      else w'
  end.

(** [admission.rollback()]: a throw rejects its promise. *)
Definition rollback_ledger (ad : Admission) (w : Manager) : bool * Manager :=
  match rollbackMessageAdmission (a_turn ad) (a_msg ad) (ledger_of (a_turn ad) w) with
  | Throw _ => (false, w)
  | Ok l => (true, set_ledger (a_turn ad) l w)
  end.

(** [rollback] of the composed lease up to its first await that matters. *)
Definition rollback_owner (i : nat) (ad : Admission) (errorCode : string) (w : Manager) : Manager :=
  let w1 := (rollback_ledger ad w).2 in
  let w2 := finalize (a_turn ad) {| success := false; errors := [errorCode] |} true w1 in
  let w3 := set_state i Gone w2 in
  match failPreparation (preparation ad) (turnSlots w3) with
  | Ok (Some p, r) => set_promise p (a_turn ad) (Some false) (set_slots r w3)
  | _ => w3
  end.

Definition rollback_joiner (i : nat) (ad : Admission) (w : Manager) : Manager :=
  let '(ok, w1) := rollback_ledger ad w in
  set_state i (if ok then Checking else Gone) w1.

(** The code of a joiner's [rollback] after its await. *)
Definition check_completed (i : nat) (ad : Admission) (w : Manager) : Manager :=
  let w1 := set_state i Gone w in
  let l := ledger_of (a_turn ad) w in
  if isComplete l then finalize (a_turn ad) (getResult l) false w1 else w1.

Definition findTurnForCompletion (tid : string) (w : Manager) : option Turn :=
  match findActiveByTurnId tid (turnSlots w) with
  | Some t => Some t
  | None => JsMap.get tid (completingTurns w)
  end.

(** [recordTurnPairCompletion] up to its emission. *)
Definition recordTurnPairCompletion (tid m a : string) (o : MessageOutcome) (error : option string) (w : Manager) :
    Manager :=
  match findTurnForCompletion tid w with
  | None => w
  | Some t =>
      if negb (hasAgent t a) then w
      else let '(change, l) := recordPairTerminal m a o error (ledger_of t w) in
        match change with
        | NotAccepted => w
        | Accepted => set_ledger t l w
        | TurnComplete result => finalize t result false (set_ledger t l w)
        end
  end.

(** The preparation promise an admission awaits. *)
Definition ready_state (ad : Admission) (w : Manager) : option bool :=
  match ready (preparation ad) with
  | None => Some true
  | Some p => match JsMap.get p (promises w) with Some (_, s) => s | None => None end
  end.

(** A provider completes only messages routed to it, which happens after the
    admission was committed. *)
Definition routed (tid m : string) (w : Manager) : Prop :=
  ∀ t, t ∈ turns w → turnId t = tid → m ∉ pendingAdmissions (ledger_of t w).

Inductive step : Manager → Manager → Prop :=
  | st_acquire sid acq r w :
      acquire sid (allocated w) (S (allocated w)) (turnSlots w) = Ok (acq, r) →
      step w (allocate (allocate (set_slots r w)))
  | st_reserve sid res r w :
      reserve sid (allocated w) (turnSlots w) = Ok (res, r) → step w (allocate (set_slots r w))
  | st_release res w : step w (set_slots (release res (turnSlots w)) w)
  | st_settled sid p w : step w (set_slots (acquisition_settled sid p (turnSlots w)) w)
  | st_create res t w w' :
      turn_ref t = allocated w → sessionId t = res_session res →
      (∀ t', t' ∈ turns w → turnId t' ≠ turnId t) →
      createReservedTurn res t w = Ok w' → step w w'
  | st_admit t m agents w w' :
      t ∈ turns w → admitOnce t m agents w = Some (Ok w') → step w w'
  | st_ready i ad w :
      admissions w !! i = Some ad → a_state ad = Waiting → ready_state ad w = Some true →
      step w (set_state i Held w)
  | st_rejected i ad w :
      admissions w !! i = Some ad → a_state ad = Waiting → ready_state ad w = Some false →
      step w (set_state i Gone (rollback_ledger ad w).2)
  | st_commit i ad w :
      admissions w !! i = Some ad → a_state ad = Held → step w (commit i ad w)
  | st_rollback_owner i ad errorCode w :
      admissions w !! i = Some ad → a_state ad = Held → isOwner (preparation ad) = true →
      step w (rollback_owner i ad errorCode w)
  | st_rollback_joiner i ad w :
      admissions w !! i = Some ad → a_state ad = Held → isOwner (preparation ad) = false →
      step w (rollback_joiner i ad w)
  | st_check i ad w :
      admissions w !! i = Some ad → a_state ad = Checking → step w (check_completed i ad w)
  | st_pair tid m a o error w :
      routed tid m w → step w (recordTurnPairCompletion tid m a o error w)
  | st_setup_failed t error w :
      t ∈ turns w → getActive (sessionId t) (turnSlots w) = Some t →
      step w (finalize t {| success := false; errors := [error] |} true w)
  | st_complete_turn t result w : t ∈ turns w → step w (finalize t result false w)
  | st_discard t w : t ∈ turns w → step w (set_slots (clearActive t (turnSlots w)).2 w)
  | st_finalized t w :
      JsMap.get (turnId t) (completingTurns w) = Some t → step w (clearCompletionState t w).

(** ** The slots *)
Record slots_ok (ts : list Turn) (r : TurnSlotRegistry) : Prop := {
  so_nodup : NoDup (JsMap.keys (activeTurns r));
  so_active : ∀ sid t, JsMap.get sid (activeTurns r) = Some t →
    sessionId t = sid ∧ t ∈ ts ∧ turnId t ∉ finalizingTurnIds r ∧ JsMap.get sid (reservations r) = None;
  so_finalizing : ∀ tid, tid ∈ finalizingTurnIds r → tid ∈ map turnId ts;
}.

Definition routable (t : Turn) (r : TurnSlotRegistry) : Prop := getActive (sessionId t) r = Some t.

(** [r'] routes no turn that [r] does not route, and closes none again. *)
Definition shrinks (r r' : TurnSlotRegistry) : Prop :=
  ∀ t, routable t r' → routable t r.

Lemma acquire_inv sid n p r acq r' :
  acquire sid n p r = Ok (acq, r') →
  activeTurns r' = activeTurns r ∧ finalizingTurnIds r' = finalizingTurnIds r ∧
  pendingPreparations r' = pendingPreparations r ∧ preparedTurnIds r' = preparedTurnIds r ∧
  (reservations r' = reservations r ∨
   JsMap.get sid (activeTurns r) = None ∧ ∃ res, reservations r' = JsMap.set sid res (reservations r)).
Proof.
  unfold acquire. destruct (JsMap.get sid (activeTurns r)) as [t|] eqn:Ha; [intros [= <- <-]; auto 10|].
  destruct (JsMap.get sid (pendingAcquisitions r)) as [q|]; [intros [= <- <-]; auto 10|].
  unfold reserve. destruct (_ || _); [done|]. intros [= <- <-]. simpl. split_and!; eauto.
Qed.

Lemma reserve_inv sid n r res r' :
  reserve sid n r = Ok (res, r') →
  JsMap.get sid (activeTurns r) = None ∧ r' = with_reservations (JsMap.set sid res (reservations r)) r.
Proof.
  unfold reserve, JsMap.has. destruct (JsMap.get sid (activeTurns r)); [done|]. simpl.
  destruct (JsMap.get sid (reservations r)); [done|]. by intros [= <- <-].
Qed.

Lemma release_fields res r :
  activeTurns (release res r) = activeTurns r ∧ finalizingTurnIds (release res r) = finalizingTurnIds r ∧
  pendingPreparations (release res r) = pendingPreparations r ∧ preparedTurnIds (release res r) = preparedTurnIds r ∧
  (∀ sid, JsMap.get sid (reservations r) = None → JsMap.get sid (reservations (release res r)) = None).
Proof.
  unfold release. case_bool_decide; [|auto 10]. simpl. split_and!; try done.
  intros sid Hn. rewrite JsMap.get_delete. by case_decide.
Qed.

Lemma clearActive_fields t r :
  finalizingTurnIds (clearActive t r).2 = finalizingTurnIds r ∧ reservations (clearActive t r).2 = reservations r ∧
  pendingPreparations (clearActive t r).2 = pendingPreparations r ∧
  (∀ tid, tid ∈ preparedTurnIds (clearActive t r).2 → tid ∈ preparedTurnIds r) ∧
  (activeTurns (clearActive t r).2 = activeTurns r ∧ owns_slot t r = false ∨
   activeTurns (clearActive t r).2 = JsMap.delete (sessionId t) (activeTurns r)).
Proof.
  unfold clearActive. destruct (owns_slot t r) eqn:Ho; simpl; [|auto 10]. split_and!; auto.
  intros tid [_ ?]%JsSet.elem_delete. done.
Qed.

Lemma slots_ok_keep ts r r' :
  activeTurns r' = activeTurns r → finalizingTurnIds r' = finalizingTurnIds r →
  (∀ sid t, JsMap.get sid (activeTurns r) = Some t → JsMap.get sid (reservations r) = None →
     JsMap.get sid (reservations r') = None) →
  slots_ok ts r → slots_ok ts r' ∧ shrinks r r'.
Proof.
  intros Ha Hf Hr [Hnd Hok Hfin]. unfold shrinks, routable, getActive. rewrite Ha. split; [|auto].
  split; rewrite ?Ha, ?Hf; [done| |done]. intros sid t Hg. destruct (Hok sid t Hg) as (?&?&?&?). split_and!; eauto.
Qed.

Lemma slots_ok_clear ts t r :
  slots_ok ts r → slots_ok ts (clearActive t r).2 ∧ shrinks r (clearActive t r).2 ∧ ¬ routable t (clearActive t r).2.
Proof.
  intros [Hnd Hok Hfin]. destruct (clearActive_fields t r) as (Hf & Hr & _ & _ & [[Ha Ho]|Ha]);
    unfold shrinks, routable, getActive; rewrite Ha.
  - split_and!; [split; rewrite ?Ha, ?Hf, ?Hr; auto|auto|]. intros Hg. unfold owns_slot in Ho. rewrite Hg in Ho.
    by apply bool_decide_eq_false in Ho.
  - split_and!.
    + split; rewrite ?Ha, ?Hf, ?Hr; [auto with js| |done]. intros sid t'. rewrite JsMap.get_delete.
      case_decide; [done|apply Hok].
    + intros t'. rewrite JsMap.get_delete. by case_decide.
    + by rewrite JsMap.get_delete_eq.
Qed.

Lemma beginFinalization_eq t r :
  (beginFinalization t r).2 = r ∧ (turnId t ∈ finalizingTurnIds r ∨ owns_slot t r = false) ∨
  turnId t ∉ finalizingTurnIds r ∧ owns_slot t r = true ∧
  (beginFinalization t r).2 =
    (clearActive t (with_finalizations (pendingFinalizations r) (JsSet.add (turnId t) (finalizingTurnIds r)) r)).2.
Proof.
  unfold beginFinalization. case_bool_decide; [auto|]. destruct (owns_slot t r); simpl; auto.
Qed.

Lemma slots_ok_finalize ts t r :
  (∀ t1 t2, t1 ∈ ts → t2 ∈ ts → turnId t1 = turnId t2 → t1 = t2) → t ∈ ts →
  slots_ok ts r →
  slots_ok ts (beginFinalization t r).2 ∧ shrinks r (beginFinalization t r).2 ∧ ¬ routable t (beginFinalization t r).2.
Proof.
  intros Hinj Ht Hok. destruct (beginFinalization_eq t r) as [[-> Hcase]|(Hf & Ho & ->)].
  - split_and!; [done|by unfold shrinks|]. intros Hg. unfold routable, getActive in Hg. destruct Hcase as [Hf|Ho].
    + destruct Hok as [_ Hok _]. by destruct (Hok _ _ Hg) as (_ & _ & ? & _).
    + unfold owns_slot in Ho. rewrite Hg in Ho. by apply bool_decide_eq_false in Ho.
  - unfold owns_slot in Ho. apply bool_decide_eq_true in Ho.
    destruct (JsMap.get (sessionId t) (activeTurns r)) as [t0|] eqn:Hg; [|done]. injection Ho as Hid.
    destruct Hok as [Hnd Hact Hfin]. destruct (Hact _ _ Hg) as (_ & Ht0 & _).
    assert (t0 = t) as -> by auto. unfold clearActive, owns_slot. simpl. rewrite Hg. simpl.
    rewrite bool_decide_true by done. simpl. unfold shrinks, routable, getActive. simpl. split_and!.
    + split; simpl; [auto with js| |].
      * intros sid t'. rewrite JsMap.get_delete. case_decide as Hne; [done|]. intros Hg'.
        destruct (Hact _ _ Hg') as (Hs & Ht' & Hf' & Hr'). split_and!; try done. rewrite JsSet.elem_add.
        intros [Hc|Hc]; [|done]. apply (Hinj t' t Ht' Ht) in Hc as ->. done.
      * intros tid [->|Hin]%JsSet.elem_add; [|auto]. by apply (list_elem_of_fmap_2 turnId).
    + intros t'. rewrite JsMap.get_delete. by case_decide.
    + by rewrite JsMap.get_delete_eq.
Qed.

Lemma slots_ok_finish ts t r :
  slots_ok ts r → slots_ok ts (finishFinalization t r) ∧ shrinks r (finishFinalization t r).
Proof.
  intros [Hnd Hok Hfin]. split; [|by unfold shrinks]. split; simpl; [done| |].
  - intros sid t' Hg. destruct (Hok _ _ Hg) as (?&?&Hf&?). split_and!; try done. rewrite JsSet.elem_delete. tauto.
  - intros tid [_ Hin]%JsSet.elem_delete. auto.
Qed.

Lemma activate_inv res t r r' :
  activate res t r = Ok r' →
  JsMap.get (res_session res) (reservations r) = Some res ∧
  r' = release res (with_active (JsMap.set (res_session res) t (activeTurns r)) r).
Proof. unfold activate. case_bool_decide as H; [done|]. intros [= <-]. by split. Qed.

Lemma release_twice res r : release res (release res r) = release res r.
Proof.
  destruct (decide (JsMap.get (res_session res) (reservations r) = Some res)) as [H|H].
  - unfold release. rewrite (bool_decide_true (JsMap.get _ (reservations r) = _)) by done. simpl.
    by rewrite bool_decide_false by (by rewrite JsMap.get_delete_eq).
  - assert (release res r = r) as -> by (unfold release; by rewrite bool_decide_false).
    unfold release. by rewrite bool_decide_false.
Qed.

(** An activated turn occupies the slot its reservation held. *)
Lemma slots_ok_activate ts res t r r' :
  activate res t r = Ok r' → sessionId t = res_session res → (∀ t', t' ∈ ts → turnId t' ≠ turnId t) →
  slots_ok ts r →
  slots_ok (t :: ts) (release res r') ∧ (∀ t', routable t' (release res r') → t' = t ∨ routable t' r).
Proof.
  intros [Hres ->]%activate_inv Hs Hfresh [Hnd Hact Hfin]. rewrite release_twice.
  unfold release. simpl. rewrite bool_decide_true by done. split.
  - split; simpl; [auto with js| |intros tid Hin; right; by apply Hfin].
    intros sid t'. rewrite JsMap.get_set, JsMap.get_delete. case_decide as He.
    + intros [= <-]. subst sid. split_and!; [done|left| |done].
      intros (t' & Hid & Ht')%Hfin%list_elem_of_fmap. by apply (Hfresh t').
    + intros Hg. destruct (Hact _ _ Hg) as (?&?&?&?). split_and!; try done. by right.
  - intros t'. unfold routable, getActive. simpl. rewrite JsMap.get_set. case_decide; [intros [= ->]; auto|auto].
Qed.

(** ** The invariant of the manager *)
Definition ledger_wf (t : Turn) (l : Ledger) : Prop :=
  ledger_ok t l ∧ ∀ m a, m ∈ pendingAdmissions l → JsMap.has (m, a) (terminalPairs l) = false.

Definition unsettled (s : AdmissionState) : Prop := s = Waiting ∨ s = Held.

Definition owner_committed (t : Turn) (w : Manager) : Prop :=
  ∃ i ad, admissions w !! i = Some ad ∧ a_turn ad = t ∧ isOwner (preparation ad) = true ∧ a_state ad = Committed.

Definition being_checked (t : Turn) (w : Manager) : Prop :=
  ∃ i ad, admissions w !! i = Some ad ∧ a_turn ad = t ∧ a_state ad = Checking.

(** [P] holds of turns whose completion the running code has yet to notice. *)
Record inv_but (P : Turn → Prop) (w : Manager) : Prop := {
  iv_slots : slots_ok (turns w) (turnSlots w);
  iv_ids : ∀ t1 t2, t1 ∈ turns w → t2 ∈ turns w → turnId t1 = turnId t2 → t1 = t2;
  iv_refs : ∀ t1 t2, t1 ∈ turns w → t2 ∈ turns w → turn_ref t1 = turn_ref t2 → t1 = t2;
  iv_alloc : ∀ t, t ∈ turns w → (turn_ref t < allocated w)%nat;
  iv_heap : ∀ n, (allocated w ≤ n)%nat → JsMap.get n (heap w) = None;
  iv_completing : ∀ tid t, JsMap.get tid (completingTurns w) = Some t → t ∈ turns w ∧ turnId t = tid;
  iv_ledgers : ∀ t, t ∈ turns w → ledger_wf t (ledger_of t w);
  iv_lease : ∀ i ad, admissions w !! i = Some ad → a_turn ad ∈ turns w ∧
    (unsettled (a_state ad) → a_msg ad ∈ pendingAdmissions (ledger_of (a_turn ad) w));
  iv_same : ∀ i ad, admissions w !! i = Some ad → lease_turn (preparation ad) = a_turn ad;
  iv_unique : ∀ i j ad ad', admissions w !! i = Some ad → admissions w !! j = Some ad' →
    unsettled (a_state ad) → unsettled (a_state ad') → a_turn ad = a_turn ad' → a_msg ad = a_msg ad' → i = j;
  iv_no_lost : ∀ t, t ∈ turns w → isComplete (ledger_of t w) = true →
    P t ∨ ¬ routable t (turnSlots w) ∨ being_checked t w;
  iv_preparing : ∀ tid t p, JsMap.get tid (pendingPreparations (turnSlots w)) = Some (t, p) →
    turnId t = tid ∧ t ∈ turns w ∧ JsMap.get p (promises w) = Some (t, None);
  iv_prepared : ∀ tid, tid ∈ preparedTurnIds (turnSlots w) →
    ∃ t, t ∈ turns w ∧ turnId t = tid ∧ owner_committed t w;
  iv_ready : ∀ i ad p, admissions w !! i = Some ad → ready (preparation ad) = Some p →
    ∃ s, JsMap.get p (promises w) = Some (a_turn ad, s);
  iv_rejected : ∀ p t, JsMap.get p (promises w) = Some (t, Some false) → t ∈ turns w ∧ ¬ routable t (turnSlots w);
  iv_resolved : ∀ p t, JsMap.get p (promises w) = Some (t, Some true) → owner_committed t w;
  iv_promises : ∀ p, (allocated w ≤ p)%nat → JsMap.get p (promises w) = None;
  iv_joiner : ∀ i ad, admissions w !! i = Some ad → isOwner (preparation ad) = false →
    ready (preparation ad) = None ∨ (a_state ad ≠ Waiting ∧ a_state ad ≠ Gone) → owner_committed (a_turn ad) w;
}.
Notation inv := (inv_but (λ _, False)).

Lemma inv_new : inv new_manager.
Proof.
  split; simpl; try done; try (intros; by exfalso; eapply elem_of_nil).
  split; simpl; [constructor|done..].
Qed.

Lemma inv_slots P r w :
  inv_but P w → slots_ok (turns w) r → shrinks (turnSlots w) r →
  pendingPreparations r = pendingPreparations (turnSlots w) →
  (∀ tid, tid ∈ preparedTurnIds r → tid ∈ preparedTurnIds (turnSlots w)) →
  inv_but P (set_slots r w).
Proof.
  intros [] Hr Hsh Hpp Hpr. split; simpl; try done.
  - intros t Ht Hc. destruct (iv_no_lost0 t Ht Hc) as [?|[Hn|?]]; [auto| |auto].
    right. left. intros Hro. apply Hn, Hsh, Hro.
  - by rewrite Hpp.
  - intros tid Htid. apply iv_prepared0. auto.
  - intros p t Hp. destruct (iv_rejected0 p t Hp) as [? Hn]. split; [done|]. intros Hro. apply Hn, Hsh, Hro.
Qed.

Lemma inv_allocate P w : inv_but P w → inv_but P (allocate w).
Proof.
  intros []. split; simpl; try done.
  - intros t Ht. specialize (iv_alloc0 t Ht). lia.
  - intros n Hn. apply iv_heap0. lia.
  - intros p Hp. apply iv_promises0. lia.
Qed.

Lemma inv_completing P c r s w :
  inv_but P w → (∀ tid t, JsMap.get tid c = Some t → t ∈ turns w ∧ turnId t = tid) →
  inv_but P (set_completing c r s w).
Proof. intros [] Hc. split; simpl; done. Qed.

Lemma inv_weaken (P Q : Turn → Prop) w :
  inv_but P w → (∀ t, t ∈ turns w → P t → Q t ∨ ¬ routable t (turnSlots w) ∨ being_checked t w) → inv_but Q w.
Proof.
  intros [] Hpq. split; try done. intros t Ht Hc. destruct (iv_no_lost0 t Ht Hc) as [?|?]; auto.
Qed.

Lemma inv_finalize t result setup w : t ∈ turns w → inv_but (eq t) w → inv (finalize t result setup w).
Proof.
  intros Ht Hinv. pose proof Hinv as []. unfold finalize.
  destruct (slots_ok_finalize (turns w) t (turnSlots w)) as (Hok & Hsh & Hnr); [done..|].
  apply (inv_weaken (eq t)).
  - apply inv_slots; simpl; [|done|done| |].
    + apply inv_completing; [done|]. intros tid t'. rewrite JsMap.get_set.
      case_decide; [intros [= <-]; done|apply iv_completing0].
    + destruct (beginFinalization_eq t (turnSlots w)) as [[-> _]|(_ & _ & ->)]; [done|].
      by destruct (clearActive_fields t (with_finalizations (pendingFinalizations (turnSlots w))
        (JsSet.add (turnId t) (finalizingTurnIds (turnSlots w))) (turnSlots w))) as (_ & _ & -> & _).
    + destruct (beginFinalization_eq t (turnSlots w)) as [[-> _]|(_ & _ & ->)]; [done|].
      intros tid Htid. by apply clearActive_fields in Htid.
  - simpl. intros t' _ <-. auto.
Qed.

Definition with_state (s : AdmissionState) (ad : Admission) : Admission :=
  {| a_turn := a_turn ad; a_msg := a_msg ad; preparation := preparation ad; a_state := s |}.

Lemma lookup_set_state i s w j ad' :
  admissions (set_state i s w) !! j = Some ad' ↔
    ∃ ad, admissions w !! j = Some ad ∧ ad' = (if decide (j = i) then with_state s ad else ad).
Proof.
  simpl. destruct (decide (j = i)) as [->|Hne].
  - rewrite list_lookup_alter_eq, fmap_Some. done.
  - rewrite list_lookup_alter_ne by done. naive_solver.
Qed.

Lemma inv_set_state P i s ad w :
  inv_but P w → admissions w !! i = Some ad →
  (unsettled s → unsettled (a_state ad)) →
  (isOwner (preparation ad) = false → s ≠ Waiting → s ≠ Gone → owner_committed (a_turn ad) w) →
  (a_state ad = Committed → s = Committed) → (a_state ad = Checking → P (a_turn ad)) →
  inv_but P (set_state i s w) ∧ (∀ t, owner_committed t w → owner_committed t (set_state i s w)).
Proof.
  intros [] Hi Hun Hjoin Hcom Hchk.
  assert (∀ t, owner_committed t w → owner_committed t (set_state i s w)) as Hoc.
  { intros t (j & ad' & Hj & Ht & Ho & Hc). exists j, (if decide (j = i) then with_state s ad' else ad').
    split; [apply lookup_set_state; eauto|]. case_decide; [|done]. subst j. simplify_eq. simpl. auto. }
  split; [|done]. split; try done.
  - intros j ad' (ad0 & Hj & ->)%lookup_set_state. destruct (iv_lease0 j ad0 Hj) as [? Hp].
    case_decide; [|done]. subst j. simplify_eq. simpl. auto.
  - intros j ad' (ad0 & Hj & ->)%lookup_set_state. destruct (decide (j = i)); simpl; eauto.
  - intros j k ad1 ad2 (ad1' & Hj & ->)%lookup_set_state (ad2' & Hk & ->)%lookup_set_state Hu1 Hu2 Ht Hm.
    apply (iv_unique0 j k ad1' ad2' Hj Hk); repeat case_decide; simplify_eq; auto.
  - intros t Ht Hc. destruct (iv_no_lost0 t Ht Hc) as [?|[?|(j & ad' & Hj & Ht' & Hs)]]; [auto..|].
    destruct (decide (j = i)) as [->|Hne]; [simplify_eq; auto|]. right. right.
    exists j, ad'. split; [|done]. apply lookup_set_state. exists ad'. by rewrite decide_False.
  - intros tid Htid. destruct (iv_prepared0 tid Htid) as (t & ? & ? & ?). eauto.
  - intros j ad' p (ad0 & Hj & ->)%lookup_set_state Hr. destruct (iv_ready0 j ad0 p Hj) as [s' Hs'].
    { by case_decide. } exists s'. by case_decide.
  - intros p t Hp. eauto.
  - intros j ad' (ad0 & Hj & ->)%lookup_set_state Ho Hor. apply Hoc. case_decide; [|by eapply iv_joiner0].
    subst j. simplify_eq. simpl in *. destruct Hor as [Hr|[Hw Hg]]; [eapply iv_joiner0; eauto|auto].
Qed.

Lemma ledger_of_set t t' l w :
  ledger_of t' (set_ledger t l w) = if decide (turn_ref t = turn_ref t') then l else ledger_of t' w.
Proof. unfold ledger_of. simpl. rewrite JsMap.get_set. by case_decide. Qed.

Lemma inv_set_ledger P t l w :
  inv_but P w → t ∈ turns w → ledger_wf t l →
  (∀ i ad, admissions w !! i = Some ad → a_turn ad = t → unsettled (a_state ad) → a_msg ad ∈ pendingAdmissions l) →
  (isComplete l = true → P t ∨ ¬ routable t (turnSlots w) ∨ being_checked t w) →
  inv_but P (set_ledger t l w).
Proof.
  intros [] Ht Hwf Hlease Hcomp.
  assert (∀ t', t' ∈ turns w → ledger_of t' (set_ledger t l w) = if decide (t = t') then l else ledger_of t' w) as Hl.
  { intros t' Ht'. rewrite ledger_of_set. repeat case_decide; try done; [|congruence]. exfalso. auto. }
  split; try done.
  - intros n Hn. simpl. rewrite JsMap.get_set. case_decide; [|auto]. specialize (iv_alloc0 t Ht). simpl in Hn. lia.
  - intros t' Ht'. rewrite Hl by done. case_decide; [by subst|auto].
  - intros i ad Hi. destruct (iv_lease0 i ad Hi) as [Ha Hp]. split; [done|]. intros Hu. rewrite Hl by done.
    case_decide; [|auto]. eauto.
  - intros t' Ht'. rewrite Hl by done. case_decide; [subst; auto|]. by apply iv_no_lost0.
Qed.

(** ** What the transitions do to a ledger *)
Lemma wf_admit t m agents l l' :
  admitMessage t m agents l = Ok l' → ledger_wf t l →
  ledger_wf t l' ∧ m ∉ pendingAdmissions l ∧ m ∈ pendingAdmissions l' ∧
  pendingAdmissions l ⊆ pendingAdmissions l' ∧ isComplete l' = false.
Proof.
  intros Ha [Hok Hp]. pose proof (ledger_ok_admit _ _ _ _ _ Ha Hok) as Hok'.
  apply admitMessage_inv in Ha as (Hm & _ & ->). simpl.
  assert (∀ a, JsMap.has (m, a) (terminalPairs l) = false) as Hnt.
  { intros a. destruct (JsMap.has (m, a) _) eqn:Hh; [|done].
    apply (lo_terminal _ _ Hok), hasAdmittedPair_get in Hh as (ts & Hg & _). congruence. }
  split_and!.
  - split; [done|]. simpl. intros m' a [->|?]%JsSet.elem_add; auto.
  - intros Hin%(lo_pending _ _ Hok). unfold JsMap.has in Hin. by rewrite Hm in Hin.
  - apply JsSet.elem_add. by left.
  - intros x Hx. apply JsSet.elem_add. by right.
  - destruct (isComplete _) eqn:Hc; [|done]. apply (isComplete_iff t) in Hc as (_ & Hc & _); [|done]. simpl in Hc.
    assert (m ∈ JsSet.add m (pendingAdmissions l)) as Hin by (apply JsSet.elem_add; by left).
    rewrite Hc in Hin. by apply elem_of_nil in Hin.
Qed.

Lemma wf_commit t m l l' :
  commitMessageAdmission t m l = Ok l' → ledger_wf t l → m ∈ pendingAdmissions l →
  ledger_wf t l' ∧ pendingAdmissions l' = JsSet.delete m (pendingAdmissions l) ∧ isComplete l' = false.
Proof.
  intros Hc [Hok Hp] Hm. pose proof (ledger_ok_commit _ _ _ _ Hc Hok) as Hok'. apply commit_inv in Hc as ->.
  split_and!; [split; [done|]; intros m' a [_ ?]%JsSet.elem_delete; by apply Hp|done|].
  destruct (isComplete _) eqn:Hcomp; [|done]. apply (isComplete_iff t) in Hcomp as (_ & _ & Ho); [|done].
  pose proof (lo_pending _ _ Hok m Hm) as Hh. unfold JsMap.has in Hh.
  destruct (JsMap.get m (admittedTargets l)) as [[|a ts]|] eqn:Hg; [by destruct (lo_targets _ _ Hok _ _ Hg)| |done].
  match type of Ho with open_pairs ?l' = _ => assert ((m, a) ∈ open_pairs l') as Hin end;
    [|rewrite Ho in Hin; by apply elem_of_nil in Hin].
  apply (elem_open_pairs t); [done|]. split; [|by apply Hp]. apply hasAdmittedPair_get.
  exists (a :: ts). split; [done|left].
Qed.

Lemma wf_rollback t m l l' :
  rollbackMessageAdmission t m l = Ok l' → ledger_wf t l →
  ledger_wf t l' ∧ (∀ m', m' ≠ m → m' ∈ pendingAdmissions l → m' ∈ pendingAdmissions l').
Proof.
  intros Hr [Hok Hp]. pose proof (ledger_ok_rollback _ _ _ _ Hr Hok) as Hok'.
  apply rollback_inv in Hr as [[_ ->]|(ts & Hg & Hno & ->)]; [done|]. split; [split; [done|]|].
  - intros m' a [_ ?]%JsSet.elem_delete. by apply Hp.
  - intros m' Hne Hm'. by apply JsSet.elem_delete.
Qed.

Lemma wf_record t m a o e l c l' :
  recordPairTerminal m a o e l = (c, l') → ledger_wf t l → m ∉ pendingAdmissions l →
  ledger_wf t l' ∧ pendingAdmissions l' = pendingAdmissions l ∧
  (c = NotAccepted ∧ l' = l ∨ c = Accepted ∧ isComplete l' = false ∨ c = TurnComplete (getResult l')).
Proof.
  intros Hr [Hok Hp] Hm. pose proof (ledger_ok_terminal t m a o e l Hok) as Hok'. rewrite Hr in Hok'. simpl in Hok'.
  destruct (record_inv m a o e l) as [[Heq _]|(_ & _ & c' & l'' & Heq & Hc & Hl)]; rewrite Hr in Heq; injection Heq as -> ->.
  - split_and!; [done|done|auto].
  - split_and!; [|by rewrite Hl|subst c'; destruct (isComplete l''); auto]. split; [done|]. rewrite Hl. simpl.
    intros m' a' Hm'. rewrite has_set. apply orb_false_iff. split; [|by apply Hp]. apply bool_decide_eq_false. congruence.
Qed.

(** ** The invariant is kept *)
Lemma lookup_admission P w i ad :
  inv_but P w → admissions w !! i = Some ad → a_turn ad ∈ turns w ∧ ledger_wf (a_turn ad) (ledger_of (a_turn ad) w).
Proof. intros [] Hi. destruct (iv_lease0 i ad Hi). auto. Qed.

(** Rolling back a lease that nobody holds any more. *)
Lemma inv_rollback_ledger w i ad s :
  inv w → admissions w !! i = Some ad → unsettled (a_state ad) → s = Gone ∨ s = Checking →
  (s = Checking → owner_committed (a_turn ad) w) →
  inv_but (eq (a_turn ad)) (rollback_ledger ad (set_state i s w)).2.
Proof.
  intros Hinv Hi Hu Hs Hoc. destruct (lookup_admission _ _ _ _ Hinv Hi) as [Ht Hwf].
  assert (inv_but (eq (a_turn ad)) (set_state i s w)) as Hinv1.
  { apply (inv_set_state _ i s ad w); [eapply inv_weaken; [done|]; done|done| | | |].
    - destruct Hs as [-> | ->]; intros [? | ?]; done.
    - intros _ _ Hg. destruct Hs as [-> | ->]; [done|auto].
    - intros Hc. destruct Hu as [Hu | Hu]; congruence.
    - done. }
  unfold rollback_ledger. change (ledger_of _ (set_state i s w)) with (ledger_of (a_turn ad) w).
  destruct (rollbackMessageAdmission _ _ _) as [l|] eqn:Hr; simpl; [|done].
  destruct (wf_rollback _ _ _ _ Hr Hwf) as [Hwf' Hpend].
  apply inv_set_ledger; [done|done|done| |by left].
  intros j ad' (ad0 & Hj & ->)%lookup_set_state Ha' Hu'.
  destruct (decide (j = i)) as [->|Hne]; [destruct Hs as [-> | ->], Hu'; done|].
  destruct (iv_lease _ _ Hinv j ad0 Hj) as [_ Hp]. rewrite Ha' in Hp. apply Hpend; [|auto].
  intros Hm. apply Hne. by apply (iv_unique _ _ Hinv j i ad0 ad).
Qed.

Lemma inv_settle_preparation P w t p b pr r :
  inv_but P w → r = with_preparations (JsMap.delete (turnId t) (pendingPreparations (turnSlots w))) pr (turnSlots w) →
  JsMap.get (turnId t) (pendingPreparations (turnSlots w)) = Some (t, p) →
  (∀ tid, tid ∈ pr → tid ∈ preparedTurnIds (turnSlots w) ∨ tid = turnId t ∧ b = true) →
  (b = true → owner_committed t w) → (b = false → ¬ routable t (turnSlots w)) →
  inv_but P (set_promise p t (Some b) (set_slots r w)).
Proof.
  intros [] -> Hpp Hpr Htrue Hfalse. destruct (iv_preparing0 _ _ _ Hpp) as (_ & Ht & Hp).
  split; simpl; try done.
  - destruct iv_slots0 as [Hnd Ha Hf]. by split.
  - intros tid t' p'. rewrite !JsMap.get_delete. case_decide as Hne; [done|]. intros Hg.
    destruct (iv_preparing0 _ _ _ Hg) as (? & ? & Hp'). split_and!; [done..|]. rewrite JsMap.get_set.
    case_decide; [|done]. subst p'. congruence.
  - intros tid Htid. destruct (Hpr tid Htid) as [Hin|[-> Hb]]; [by apply iv_prepared0|]. exists t. auto.
  - intros j ad p' Hj Hr. destruct (iv_ready0 j ad p' Hj Hr) as [s Hs]. rewrite JsMap.get_set. case_decide; [|eauto].
    subst p'. rewrite Hp in Hs. injection Hs as <- _. eauto.
  - intros p' t'. rewrite JsMap.get_set. case_decide; [|apply iv_rejected0]. intros [= <- ->]. auto.
  - intros p' t'. rewrite JsMap.get_set. case_decide; [|apply iv_resolved0]. intros [= <- ->]. auto.
  - intros p' Hle. rewrite JsMap.get_set. case_decide; [|auto]. subst p'. rewrite iv_promises0 in Hp; done.
Qed.

Lemma owner_committed_turns w t : inv w → owner_committed t w → t ∈ turns w.
Proof. intros Hinv (i & ad & Hi & <- & _). by destruct (iv_lease _ _ Hinv i ad Hi). Qed.

Lemma inv_create res t w w' :
  inv w → turn_ref t = allocated w → sessionId t = res_session res → (∀ t', t' ∈ turns w → turnId t' ≠ turnId t) →
  createReservedTurn res t w = Ok w' →
  inv w' ∧ (∀ t', t' ∈ turns w → routable t' (turnSlots w') → routable t' (turnSlots w)).
Proof.
  intros Hinv Href Hs Hfresh. unfold createReservedTurn.
  destruct (activate _ _ _) as [r|] eqn:Hact; [|done]. intros [= <-]. pose proof Hinv as [].
  destruct (slots_ok_activate _ _ _ _ _ Hact Hs Hfresh iv_slots0) as [Hok Hro].
  assert (∀ t', t' ∈ turns w → routable t' (release res r) → routable t' (turnSlots w)) as Hsh.
  { intros t' Ht' [->|?]%Hro; [|done]. by destruct (Hfresh t). }
  split; [|done]. apply activate_inv in Hact as [_ ->]. rewrite release_twice in *.
  destruct (release_fields res (with_active (JsMap.set (res_session res) t (activeTurns (turnSlots w))) (turnSlots w)))
    as (_ & _ & Hpp & Hpr & _). simpl in Hpp, Hpr.
  assert (ledger_of t w = empty_ledger) as Hempty by (unfold ledger_of; by rewrite iv_heap0 by lia).
  split; simpl; try done.
  - intros t1 t2 [->|H1]%elem_of_cons [->|H2]%elem_of_cons Hid; [done| | |auto].
    + by destruct (Hfresh t2 H2).
    + by destruct (Hfresh t1 H1).
  - intros t1 t2 [->|H1]%elem_of_cons [->|H2]%elem_of_cons Hid; [done| | |auto].
    + specialize (iv_alloc0 _ H2). lia.
    + specialize (iv_alloc0 _ H1). lia.
  - intros t' [->|H1]%elem_of_cons; [lia|]. specialize (iv_alloc0 _ H1). lia.
  - intros n Hn. apply iv_heap0. lia.
  - intros tid t' Hg. destruct (iv_completing0 _ _ Hg). split; [by right|done].
  - intros t' [->|H1]%elem_of_cons; [|by apply iv_ledgers0].
    change (ledger_wf t (ledger_of t w)). rewrite Hempty. split; [apply ledger_ok_empty|].
    intros m a Hm. by apply elem_of_nil in Hm.
  - intros i ad Hi. destruct (iv_lease0 i ad Hi). split; [by right|done].
  - intros t' [->|H1]%elem_of_cons Hc; [change (isComplete (ledger_of t w) = true) in Hc; by rewrite Hempty in Hc|].
    destruct (iv_no_lost0 t' H1 Hc) as [?|[Hn|?]]; [done| |by right; right].
    right. left. intros Hr. by apply Hn, Hsh.
  - rewrite Hpp. intros tid t' p Hg. destruct (iv_preparing0 _ _ _ Hg) as (?&?&?). split_and!; [done|by right|done].
  - rewrite Hpr. intros tid Htid. destruct (iv_prepared0 tid Htid) as (t' & ? & ? & ?). exists t'. split_and!; [by right|done..].
  - intros p t' Hp. destruct (iv_rejected0 p t' Hp) as [? Hn]. split; [by right|]. intros Hr. by apply Hn, Hsh.
  - intros p Hp. apply iv_promises0. lia.
Qed.

Lemma lookup_snoc_inv {A} (l : list A) x i y : (l ++ [x]) !! i = Some y → l !! i = Some y ∨ i = List.length l ∧ y = x.
Proof.
  intros Hi. apply lookup_app_Some in Hi as [?|[Hle Hi]]; [by left|]. right.
  apply list_lookup_singleton_Some in Hi as [H0 ->]. split; [lia|done].
Qed.

Lemma inv_append w ad :
  inv w → a_turn ad ∈ turns w → unsettled (a_state ad) → lease_turn (preparation ad) = a_turn ad →
  a_msg ad ∈ pendingAdmissions (ledger_of (a_turn ad) w) →
  (∀ i ad', admissions w !! i = Some ad' → unsettled (a_state ad') → a_turn ad' = a_turn ad → a_msg ad' ≠ a_msg ad) →
  (∀ p, ready (preparation ad) = Some p → ∃ s, JsMap.get p (promises w) = Some (a_turn ad, s)) →
  (isOwner (preparation ad) = false →
     a_state ad = Waiting ∧ (ready (preparation ad) = None → owner_committed (a_turn ad) w)) →
  inv (set_admissions (admissions w ++ [ad]) w).
Proof.
  intros [] Ht Hu Hlt Hm Huniq Hready Hjoin. set (w' := set_admissions _ w).
  assert (∀ t, owner_committed t w → owner_committed t w') as Hoc.
  { intros t (i & ad' & Hi & ?). exists i, ad'. split; [|done]. simpl. by apply lookup_app_l_Some. }
  assert (∀ t, being_checked t w → being_checked t w') as Hbc.
  { intros t (i & ad' & Hi & ?). exists i, ad'. split; [|done]. simpl. by apply lookup_app_l_Some. }
  split; try done.
  - intros i ad' [Hi|[_ ->]]%lookup_snoc_inv; [by apply (iv_lease0 i)|done].
  - intros i ad' [Hi|[_ ->]]%lookup_snoc_inv; eauto.
  - intros i j ad1 ad2 [Hi|[-> ->]]%lookup_snoc_inv [Hj|[-> ->]]%lookup_snoc_inv; [by apply iv_unique0| | |done];
      intros Hu1 Hu2 Ht' Hm'; exfalso; [by eapply (Huniq i ad1)|by eapply (Huniq j ad2)].
  - intros t Ht' Hc. destruct (iv_no_lost0 t Ht' Hc) as [?|[?|?]]; [done|auto|right; right; by apply Hbc].
  - intros tid Htid. destruct (iv_prepared0 _ Htid) as (t & ? & ? & ?). eauto 10 using Hoc.
  - intros i ad' p [Hi|[_ ->]]%lookup_snoc_inv Hrd'; eauto.
  - intros p t Hp. apply Hoc. eauto.
  - intros i ad' [Hi|[_ ->]]%lookup_snoc_inv Ho' Hor; [apply Hoc; eauto|]. apply Hoc.
    destruct (Hjoin Ho') as [Hst Hn]. destruct Hor as [?|[? _]]; [auto|done].
Qed.

Lemma inv_new_promise w t r :
  inv w → t ∈ turns w →
  r = with_preparations (JsMap.set (turnId t) (t, allocated w) (pendingPreparations (turnSlots w)))
        (preparedTurnIds (turnSlots w)) (turnSlots w) →
  inv (set_promise (allocated w) t None (allocate (set_slots r w))).
Proof.
  intros [] Ht ->. assert (JsMap.get (allocated w) (promises w) = None) as Hp0 by by apply iv_promises0.
  split; simpl; try done.
  - destruct iv_slots0. by split.
  - intros t' Ht'. specialize (iv_alloc0 t' Ht'). lia.
  - intros n Hn. apply iv_heap0. lia.
  - intros tid t' p. rewrite !JsMap.get_set. case_decide as He.
    + intros [= <- <-]. by rewrite decide_True.
    + intros Hg. destruct (iv_preparing0 _ _ _ Hg) as (?&?&Hp). split_and!; [done..|]. case_decide; [congruence|done].
  - intros i ad' p Hi Hrd. destruct (iv_ready0 _ _ _ Hi Hrd) as [s Hs]. rewrite JsMap.get_set.
    case_decide; [congruence|eauto].
  - intros p t'. rewrite JsMap.get_set. case_decide; [done|apply iv_rejected0].
  - intros p t'. rewrite JsMap.get_set. case_decide; [done|apply iv_resolved0].
  - intros p Hp. rewrite JsMap.get_set. case_decide; [lia|]. apply iv_promises0. lia.
Qed.

Lemma inv_admit t m agents w w' :
  inv w → t ∈ turns w → admitOnce t m agents w = Some (Ok w') →
  inv w' ∧ activeTurns (turnSlots w') = activeTurns (turnSlots w) ∧ routable t (turnSlots w).
Proof.
  intros Hinv Ht. unfold admitOnce, tryAdmitMessage.
  destruct (bool_decide (turnId t ∈ _)); [done|]. simpl. destruct (owns_slot t (turnSlots w)) eqn:Ho; [|done]. simpl.
  assert (routable t (turnSlots w)) as Hro.
  { unfold owns_slot in Ho. apply bool_decide_eq_true, fmap_Some in Ho as (t0 & Hg & Hid).
    destruct (so_active _ _ (iv_slots _ _ Hinv) _ _ Hg) as (_ & Ht0 & _).
    unfold routable, getActive. rewrite Hg. f_equal. by apply (iv_ids _ _ Hinv). }
  destruct (admitMessage _ _ _ _) as [l|] eqn:Ha; [|done].
  destruct (wf_admit _ _ _ _ _ Ha (iv_ledgers _ _ Hinv t Ht)) as (Hwf & Hnew & Hin & Hsub & Hnc).
  assert (inv (set_ledger t l w)) as Hinv1.
  { apply inv_set_ledger; [done..| |by rewrite Hnc]. intros i ad Hi <- Hu. apply Hsub.
    by destruct (iv_lease _ _ Hinv i ad Hi) as [_ Hp]; apply Hp. }
  assert (∀ i ad', admissions w !! i = Some ad' → unsettled (a_state ad') → a_turn ad' = t → a_msg ad' ≠ m) as Huniq.
  { intros i ad' Hi Hu <- <-. destruct (iv_lease _ _ Hinv i ad' Hi) as [_ Hp]. auto. }
  assert (m ∈ pendingAdmissions (ledger_of t (set_ledger t l w))) as Hpend.
  { rewrite ledger_of_set. by rewrite decide_True. }
  unfold beginPreparation. case_bool_decide as Hprep; [|destruct (JsMap.get (turnId t) (pendingPreparations _)) as [[t0 p]|] eqn:Hpp];
    simpl; intros [= <-].
  - split; [|done].
    refine (inv_append (allocate (set_ledger t l w)) {| a_turn := t; a_msg := m; preparation := {| lease_turn := t; isOwner := false; ready := None |}; a_state := Waiting |} _ _ _ _ _ _ _ _); simpl; auto.
    + by apply inv_allocate.
    + by left.
    + done.
    + intros _. split; [done|]. intros _. destruct (iv_prepared _ _ Hinv1 (turnId t) Hprep) as (t0 & Ht0 & Hid & Hoc).
      by rewrite <- (iv_ids _ _ Hinv t0 t Ht0 Ht Hid).
  - split; [|done].
    destruct (iv_preparing _ _ Hinv _ _ _ Hpp) as (Hid & Ht0 & Hp). apply (iv_ids _ _ Hinv t0 t Ht0 Ht) in Hid as ->.
    refine (inv_append (allocate (set_ledger t l w)) {| a_turn := t; a_msg := m; preparation := {| lease_turn := t; isOwner := false; ready := Some p |}; a_state := Waiting |} _ _ _ _ _ _ _ _); simpl; auto.
    + by apply inv_allocate.
    + by left.
    + intros p' [= <-]. eauto.
    + done.
  - split; [|done].
    refine (inv_append (set_promise (allocated w) t None (allocate (set_slots _ (set_ledger t l w)))) {| a_turn := t; a_msg := m; preparation := {| lease_turn := t; isOwner := true; ready := Some (allocated w) |}; a_state := Held |} _ _ _ _ _ _ _ _); simpl; auto.
    + by apply (inv_new_promise (set_ledger t l w) t).
    + by right.
    + intros p' [= <-]. rewrite JsMap.get_set_eq. eauto.
    + done.
Qed.

Lemma inv_commit i ad w : inv w → admissions w !! i = Some ad → a_state ad = Held → inv (commit i ad w).
Proof.
  intros Hinv Hi Hst. destruct (lookup_admission _ _ _ _ Hinv Hi) as [Ht Hwf].
  destruct (iv_lease _ _ Hinv i ad Hi) as [_ Hpend]. specialize (Hpend (or_intror Hst)).
  assert (∀ s, s = Gone ∨ s = Committed → inv (set_state i s w)) as Hset.
  { intros s Hs. apply (inv_set_state _ i s ad w); [done|done|..]; rewrite ?Hst.
    - destruct Hs as [-> | ->]; intros [? | ?]; done.
    - intros Ho _ _. apply (iv_joiner _ _ Hinv i ad Hi Ho). right. by rewrite Hst.
    - done.
    - done. }
  unfold commit. destruct (commitMessageAdmission _ _ _) as [l|] eqn:Hc; [|auto].
  destruct (wf_commit _ _ _ _ Hc Hwf Hpend) as (Hwf' & Hpl & Hnc).
  assert (inv (set_state i Committed (set_ledger (a_turn ad) l w))) as Hinv'.
  { change (inv (set_ledger (a_turn ad) l (set_state i Committed w))). apply inv_set_ledger; [auto|done|done| |by rewrite Hnc].
    intros j ad' (ad0 & Hj & ->)%lookup_set_state Ha' Hu'.
    destruct (decide (j = i)) as [->|Hne]; [by destruct Hu'|]. rewrite Hpl. apply JsSet.elem_delete.
    destruct (iv_lease _ _ Hinv j ad0 Hj) as [_ Hp]. rewrite Ha' in Hp. split; [|auto].
    intros Hm. apply Hne. apply (iv_unique _ _ Hinv j i ad0 ad); try done. by right. }
  destruct (isOwner (preparation ad)) eqn:Ho; [|done].
  unfold completePreparation. rewrite Ho. simpl.
  destruct (JsMap.get (turnId (lease_turn (preparation ad))) _) as [[t' p]|] eqn:Hpp; [|done].
  case_decide as Ht'; [|done]. subst t'.
  rewrite (iv_same _ _ Hinv i ad Hi) in *. apply inv_settle_preparation with (pr := JsSet.add (turnId (a_turn ad)) (preparedTurnIds (turnSlots w))); simpl; try done.
  - intros tid [->|?]%JsSet.elem_add; auto.
  - intros _. exists i, (with_state Committed ad). split; [|done]. apply lookup_set_state. exists ad.
    split; [done|]. by rewrite decide_True.
Qed.

Lemma inv_rollback_owner i ad code w :
  inv w → admissions w !! i = Some ad → a_state ad = Held → isOwner (preparation ad) = true →
  inv (rollback_owner i ad code w).
Proof.
  intros Hinv Hi Hst Ho. destruct (lookup_admission _ _ _ _ Hinv Hi) as [Ht _].
  pose proof (inv_rollback_ledger w i ad Gone Hinv Hi (or_intror Hst) (or_introl eq_refl) ltac:(done)) as Hinv1.
  assert (turns (rollback_ledger ad (set_state i Gone w)).2 = turns w) as Hts.
  { unfold rollback_ledger. by destruct (rollbackMessageAdmission _ _ _). }
  set (result := {| success := false; errors := [code] |}).
  assert (inv (finalize (a_turn ad) result true (rollback_ledger ad (set_state i Gone w)).2)) as Hinv2.
  { apply inv_finalize; [by rewrite Hts|done]. }
  assert (set_state i Gone (finalize (a_turn ad) result true (rollback_ledger ad w).2) =
    finalize (a_turn ad) result true (rollback_ledger ad (set_state i Gone w)).2) as Heq.
  { unfold rollback_ledger. change (ledger_of _ (set_state i Gone w)) with (ledger_of (a_turn ad) w).
    by destruct (rollbackMessageAdmission _ _ _). }
  unfold rollback_owner. fold result. rewrite Heq. clear Heq. set (w3 := finalize _ _ _ _) in *.
  assert (¬ routable (a_turn ad) (turnSlots w3)) as Hnr.
  { apply (slots_ok_finalize (turns w)); [apply (iv_ids _ _ Hinv)|done|].
    pose proof (iv_slots _ _ Hinv1) as Hs. by rewrite Hts in Hs. }
  unfold failPreparation. rewrite Ho. simpl. rewrite (iv_same _ _ Hinv i ad Hi).
  destruct (JsMap.get (turnId (a_turn ad)) _) as [[t' p]|] eqn:Hpp; [|done].
  case_decide as Ht'; [|done]. subst t'.
  apply inv_settle_preparation with (pr := preparedTurnIds (turnSlots w3)); try done; auto.
Qed.

Lemma inv_rollback_joiner i ad w :
  inv w → admissions w !! i = Some ad → a_state ad = Held → isOwner (preparation ad) = false →
  inv (rollback_joiner i ad w).
Proof.
  intros Hinv Hi Hst Ho. unfold rollback_joiner, rollback_ledger.
  assert (owner_committed (a_turn ad) w) as Hoc.
  { apply (iv_joiner _ _ Hinv i ad Hi Ho). right. by rewrite Hst. }
  pose proof (inv_rollback_ledger w i ad Checking Hinv Hi (or_intror Hst) (or_intror eq_refl) (λ _, Hoc)) as Hinv1.
  unfold rollback_ledger in Hinv1. change (ledger_of _ (set_state i Checking w)) with (ledger_of (a_turn ad) w) in Hinv1.
  destruct (rollbackMessageAdmission _ _ _) as [l|]; simpl in *.
  - eapply inv_weaken; [exact Hinv1|]. intros t _ <-. right. right. exists i, (with_state Checking ad).
    split; [|done]. apply lookup_set_state. exists ad. by rewrite decide_True.
  - apply (inv_set_state _ i Gone ad w); [done|done|intros [? | ?]; done|done|by rewrite Hst|by rewrite Hst].
Qed.

Lemma inv_rejected i ad w :
  inv w → admissions w !! i = Some ad → a_state ad = Waiting → ready_state ad w = Some false →
  inv (set_state i Gone (rollback_ledger ad w).2).
Proof.
  intros Hinv Hi Hst Hrd.
  assert (¬ routable (a_turn ad) (turnSlots w)) as Hnr.
  { unfold ready_state in Hrd. destruct (ready (preparation ad)) as [p|] eqn:Hp; [|done].
    destruct (iv_ready _ _ Hinv i ad p Hi Hp) as [s Hs]. rewrite Hs in Hrd. subst s.
    by apply (iv_rejected _ _ Hinv p). }
  pose proof (inv_rollback_ledger w i ad Gone Hinv Hi (or_introl Hst) (or_introl eq_refl) ltac:(done)) as Hinv1.
  assert (set_state i Gone (rollback_ledger ad w).2 = (rollback_ledger ad (set_state i Gone w)).2) as ->.
  { unfold rollback_ledger. change (ledger_of _ (set_state i Gone w)) with (ledger_of (a_turn ad) w).
    by destruct (rollbackMessageAdmission _ _ _). }
  eapply inv_weaken; [exact Hinv1|]. intros t _ <-. right. left. unfold rollback_ledger.
  by destruct (rollbackMessageAdmission _ _ _).
Qed.

Lemma inv_check i ad w :
  inv w → admissions w !! i = Some ad → a_state ad = Checking → inv (check_completed i ad w).
Proof.
  intros Hinv Hi Hst. destruct (lookup_admission _ _ _ _ Hinv Hi) as [Ht _].
  assert (inv_but (eq (a_turn ad)) (set_state i Gone w)) as Hinv1.
  { apply (inv_set_state _ i Gone ad w); [eapply inv_weaken; [done|]; done|done|intros [? | ?]; done|done|by rewrite Hst|done]. }
  unfold check_completed. destruct (isComplete _) eqn:Hc; [by apply inv_finalize|].
  split; try apply Hinv1. intros t Ht' Hct. destruct (iv_no_lost _ _ Hinv1 t Ht' Hct) as [<-|?]; [|auto].
  change (isComplete (ledger_of (a_turn ad) w) = true) in Hct. congruence.
Qed.

Lemma findTurnForCompletion_spec P tid w t :
  inv_but P w → findTurnForCompletion tid w = Some t → t ∈ turns w ∧ turnId t = tid.
Proof.
  intros Hinv. unfold findTurnForCompletion, findActiveByTurnId.
  destruct (head _) as [t0|] eqn:Hh; [|apply (iv_completing _ _ Hinv)]. intros [= ->].
  assert (t ∈ filter (λ t, turnId t = tid) (JsMap.values (activeTurns (turnSlots w)))) as Hin.
  { by destruct (filter _ _); [|injection Hh as ->; left]. }
  apply list_elem_of_filter in Hin as [Hid Hin]. split; [|done].
  apply list_elem_of_fmap in Hin as ([sid t'] & -> & Hin).
  apply JsMap.elem_get in Hin; [|apply (iv_slots _ _ Hinv)].
  by destruct (so_active _ _ (iv_slots _ _ Hinv) _ _ Hin) as (_ & ? & _).
Qed.

Lemma inv_pair tid m a o error w : inv w → routed tid m w → inv (recordTurnPairCompletion tid m a o error w).
Proof.
  intros Hinv Hrt. unfold recordTurnPairCompletion.
  destruct (findTurnForCompletion tid w) as [t|] eqn:Hf; [|done].
  destruct (findTurnForCompletion_spec _ _ _ _ Hinv Hf) as [Ht Hid].
  destruct (negb _); [done|]. destruct (recordPairTerminal _ _ _ _ _) as [c l] eqn:Hrec.
  destruct (wf_record t _ _ _ _ _ _ _ Hrec (iv_ledgers _ _ Hinv t Ht) (Hrt t Ht Hid)) as (Hwf & Hpl & Hcase).
  assert (∀ i ad, admissions w !! i = Some ad → a_turn ad = t → unsettled (a_state ad) → a_msg ad ∈ pendingAdmissions l) as Hlease.
  { intros i ad Hi <- Hu. rewrite Hpl. destruct (iv_lease _ _ Hinv i ad Hi) as [_ Hp]. auto. }
  destruct Hcase as [[-> _]|[[-> Hnc]| ->]]; [done| |].
  - apply inv_set_ledger; [done..|by rewrite Hnc].
  - apply inv_finalize; [done|]. apply inv_set_ledger; [|done..|by left]. eapply inv_weaken; [done|]. done.
Qed.

Lemma inv_step w w' : step w w' → inv w → inv w'.
Proof.
  intros Hstep Hinv. pose proof (iv_slots _ _ Hinv) as Hok. destruct Hstep as
    [sid acq r w Hr|sid res r w Hr|res w|sid p w|res t w w' ??? Hc|t m agents w w' ? Ha|i ad w Hi Hs Hrd|i ad w Hi Hs Hrd
    |i ad w Hi Hs|i ad code w Hi Hs Ho|i ad w Hi Hs Ho|i ad w Hi Hs|tid m a o e w Hrt|t e w Ht _|t res w Ht|t w Ht|t w Ht].
  - apply acquire_inv in Hr as (Ha & Hf & Hpp & Hpr & Hres). do 2 apply inv_allocate.
    destruct (slots_ok_keep (turns w) (turnSlots w) r) as [? ?]; [done..| |done|apply inv_slots; auto; by rewrite Hpr].
    intros sid' t Hg Hn. destruct Hres as [->|(Hnone & res & ->)]; [done|]. rewrite JsMap.get_set_ne by congruence. done.
  - apply reserve_inv in Hr as [Hn ->]. apply inv_allocate.
    destruct (slots_ok_keep (turns w) (turnSlots w) (with_reservations (JsMap.set sid res (reservations (turnSlots w))) (turnSlots w)))
      as [? ?]; [done..| |done|by apply inv_slots].
    intros sid' t Hg Hn'. simpl. rewrite JsMap.get_set_ne by congruence. done.
  - destruct (release_fields res (turnSlots w)) as (Ha & Hf & Hpp & Hpr & Hres).
    destruct (slots_ok_keep (turns w) (turnSlots w) (release res (turnSlots w))) as [? ?]; [auto..|].
    apply inv_slots; auto. by rewrite Hpr.
  - unfold acquisition_settled. case_bool_decide; [|by destruct w].
    destruct (slots_ok_keep (turns w) (turnSlots w)
      (with_acquisitions (JsMap.delete sid (pendingAcquisitions (turnSlots w))) (turnSlots w))) as [? ?]; [done..|].
    by apply inv_slots.
  - by eapply inv_create.
  - by eapply inv_admit.
  - apply (inv_set_state _ i Held ad w); [done|done|by left| |by rewrite Hs|by rewrite Hs].
    intros Ho _ _. unfold ready_state in Hrd. destruct (ready (preparation ad)) as [p|] eqn:Hp.
    + destruct (iv_ready _ _ Hinv i ad p Hi Hp) as [s Hs']. rewrite Hs' in Hrd. subst s.
      by apply (iv_resolved _ _ Hinv p).
    + apply (iv_joiner _ _ Hinv i ad Hi Ho). by left.
  - by apply inv_rejected.
  - by apply inv_commit.
  - by apply inv_rollback_owner.
  - by apply inv_rollback_joiner.
  - by apply inv_check.
  - by apply inv_pair.
  - apply inv_finalize; [done|]. by eapply inv_weaken.
  - apply inv_finalize; [done|]. by eapply inv_weaken.
  - destruct (slots_ok_clear (turns w) t (turnSlots w) Hok) as (? & ? & _).
    destruct (clearActive_fields t (turnSlots w)) as (_ & _ & ? & ? & _). by apply inv_slots.
  - destruct (slots_ok_finish (turns w) t (turnSlots w) Hok). unfold clearCompletionState.
    apply inv_slots; [|done..]. apply inv_completing; [done|]. intros tid t'. rewrite JsMap.get_delete.
    case_decide; [done|apply (iv_completing _ _ Hinv)].
Qed.

(** ** A closed turn stays closed *)
Definition closes (w w' : Manager) : Prop :=
  ∀ t, t ∈ turns w → t ∈ turns w' ∧ (routable t (turnSlots w') → routable t (turnSlots w)) ∧
    (messageIds (ledger_of t w') ⊆ messageIds (ledger_of t w) ∨ routable t (turnSlots w)).

#[export] Instance closes_preorder : PreOrder closes.
Proof.
  split; [intros w t Ht; auto|]. intros w1 w2 w3 H12 H23 t Ht. destruct (H12 t Ht) as (Ht2 & Hr & Hm).
  destruct (H23 t Ht2) as (Ht3 & Hr' & Hm'). split_and!; [done|auto|].
  destruct Hm' as [Hm'|?]; [|auto]. destruct Hm as [Hm|?]; [|auto]. left. by etrans.
Qed.

(** Transitions that touch neither turns, ledgers nor routable slots. *)
Lemma closes_same w w' :
  turns w' = turns w → heap w' = heap w → shrinks (turnSlots w) (turnSlots w') → closes w w'.
Proof. intros Ht Hh Hs t Hin. unfold ledger_of. rewrite Ht, Hh. auto. Qed.

Lemma closes_ledger w t l :
  inv w → t ∈ turns w → messageIds l ⊆ messageIds (ledger_of t w) ∨ routable t (turnSlots w) →
  closes w (set_ledger t l w).
Proof.
  intros Hinv Ht Hl t' Ht'. split_and!; [done|done|]. rewrite ledger_of_set. case_decide as Hr; [|auto].
  apply (iv_refs _ _ Hinv) in Hr as <-; done.
Qed.

Lemma closes_rollback_ledger w ad :
  inv w → a_turn ad ∈ turns w → closes w (rollback_ledger ad w).2.
Proof.
  intros Hinv Ht. unfold rollback_ledger.
  destruct (rollbackMessageAdmission _ _ _) as [l|] eqn:Hr; simpl; [|reflexivity].
  apply closes_ledger; [done..|]. left. destruct (iv_ledgers _ _ Hinv _ Ht) as [Hok _].
  apply rollback_inv in Hr as [[_ ->]|(ts & _ & _ & ->)]; [done|]. simpl.
  rewrite (lo_messages _ _ Hok), remove_one_filter by apply Hok. intros m [_ ?]%list_elem_of_filter. done.
Qed.

Lemma closes_finalize t result setup w0 w :
  inv w0 → t ∈ turns w0 → turns w = turns w0 → turnSlots w = turnSlots w0 → closes w (finalize t result setup w).
Proof.
  intros Hinv Ht Hts Hsl. apply closes_same; [done..|]. unfold finalize. simpl. rewrite Hsl.
  apply (slots_ok_finalize (turns w0)); [apply (iv_ids _ _ Hinv)|done|apply (iv_slots _ _ Hinv)].
Qed.

Lemma closes_id w w' :
  turns w' = turns w → heap w' = heap w → activeTurns (turnSlots w') = activeTurns (turnSlots w) → closes w w'.
Proof. intros Ht Hh Ha. apply closes_same; [done..|]. intros t. unfold routable, getActive. by rewrite Ha. Qed.

Lemma closes_step w w' : inv w → step w w' → closes w w'.
Proof.
  intros Hinv Hstep. destruct Hstep as
    [sid acq r w Hr|sid res r w Hr|res w|sid p w|res t w w' Href Hs Hfresh Hc|t m agents w w' Ht Ha|i ad w Hi Hs Hrd
    |i ad w Hi Hs Hrd|i ad w Hi Hs|i ad code w Hi Hs Ho|i ad w Hi Hs Ho|i ad w Hi Hs|tid m a o e w Hrt|t e w Ht _
    |t res w Ht|t w Ht|t w Ht];
    try (destruct (lookup_admission _ _ _ _ Hinv Hi) as [Hat _]).
  - apply acquire_inv in Hr as (Ha & _). by apply closes_id.
  - apply reserve_inv in Hr as [_ ->]. by apply closes_id.
  - destruct (release_fields res (turnSlots w)) as (Ha & _). by apply closes_id.
  - apply closes_id; [done..|]. unfold acquisition_settled. simpl. by case_bool_decide.
  - destruct (inv_create _ _ _ _ Hinv Href Hs Hfresh Hc) as [_ Hr]. unfold createReservedTurn in Hc.
    destruct (activate _ _ _); [|done]. injection Hc as <-. intros t' Ht'. split_and!; [by right|auto|by left].
  - destruct (inv_admit _ _ _ _ _ Hinv Ht Ha) as (_ & Hact & Hro). revert Ha. unfold admitOnce.
    destruct (tryAdmitMessage _ _ _ _ _) as [[l|]|]; [|done..].
    destruct (beginPreparation _ _ _) as [lease r] eqn:Hb. intros [= <-].
    transitivity (set_ledger t l w); [by apply closes_ledger; auto|].
    by apply closes_id; [destruct (isOwner lease)..|rewrite Hact].
  - by apply closes_id.
  - transitivity (rollback_ledger ad w).2; [by apply closes_rollback_ledger|by apply closes_id].
  - unfold commit. destruct (commitMessageAdmission _ _ _) as [l|] eqn:Hc; [|by apply closes_id].
    transitivity (set_ledger (a_turn ad) l w).
    + apply closes_ledger; [done..|]. left. apply commit_inv in Hc as ->. done.
    + unfold completePreparation. repeat case_match; simplify_eq; by apply closes_id.
  - unfold rollback_owner. transitivity (rollback_ledger ad w).2; [by apply closes_rollback_ledger|].
    set (w1 := (rollback_ledger ad w).2). 
    assert (turns w1 = turns w ∧ turnSlots w1 = turnSlots w) as [Hts Hsl].
    { unfold w1, rollback_ledger. by destruct (rollbackMessageAdmission _ _ _). }
    etransitivity; [by apply (closes_finalize (a_turn ad) {| success := false; errors := [code] |} true w w1)|].
    unfold failPreparation. repeat case_match; simplify_eq; by apply closes_id.
  - unfold rollback_joiner. pose proof (closes_rollback_ledger w ad Hinv Hat) as Hcl.
    destruct (rollback_ledger ad w) as [ok w1]. transitivity w1; [done|by apply closes_id].
  - unfold check_completed. case_match; [|by apply closes_id].
    transitivity (set_state i Gone w); [by apply closes_id|by apply (closes_finalize _ _ _ w)].
  - unfold recordTurnPairCompletion. destruct (findTurnForCompletion tid w) as [t|] eqn:Hf; [|reflexivity].
    destruct (findTurnForCompletion_spec _ _ _ _ Hinv Hf) as [Ht _]. destruct (negb _); [reflexivity|].
    destruct (recordPairTerminal m a o e (ledger_of t w)) as [c l] eqn:Hrec.
    assert (closes w (set_ledger t l w)) as Hcl.
    { apply closes_ledger; [done..|]. left. 
      destruct (record_inv m a o e (ledger_of t w)) as [[Heq _]|(_ & _ & c' & l' & Heq & _ & ->)];
        rewrite Hrec in Heq; by injection Heq as -> ->. }
    destruct c; [reflexivity|done|]. transitivity (set_ledger t l w); [done|by apply (closes_finalize _ _ _ w)].
  - by apply (closes_finalize _ _ _ w).
  - by apply (closes_finalize _ _ _ w).
  - apply closes_same; [done..|]. by apply (slots_ok_clear (turns w)), (iv_slots _ _ Hinv).
  - by apply closes_id.
Qed.

Lemma inv_reachable w w' : rtc step w w' → inv w → inv w' ∧ closes w w'.
Proof.
  induction 1 as [w|w w1 w' Hs _ IH]; intros Hinv; [by split|].
  destruct (IH (inv_step _ _ Hs Hinv)) as [Hinv' Hcl]. split; [done|].
  transitivity w1; [by apply closes_step|done].
Qed.

(** *** Properties *)

(** C9: no completion is lost: in every reachable state, a turn whose ledger
    is complete is no longer routable, or the joiner's rollback that completed
    it is about to finalize it. *)
Theorem no_lost_completion (w : Manager) (Hr : rtc step new_manager w) (t : Turn) (Ht : t ∈ turns w)
    (Hc : isComplete (ledger_of t w) = true) :
  getActive (sessionId t) (turnSlots w) ≠ Some t ∨
  ∃ i ad, admissions w !! i = Some ad ∧ a_turn ad = t ∧ a_state ad = Checking.
Proof.
  destruct (inv_reachable _ _ Hr inv_new) as [Hinv _].
  destruct (iv_no_lost _ _ Hinv t Ht Hc) as [?|?]; done.
Qed.

(** Once a turn stops being routable, whatever happens next, it never
    becomes routable again and its ledger admits no further message. *)
Theorem closed_turn_admits_nothing (w w' : Manager) (Hr : rtc step new_manager w) (Hr' : rtc step w w')
    (t : Turn) (Ht : t ∈ turns w) (Hclosed : getActive (sessionId t) (turnSlots w) ≠ Some t) :
  getActive (sessionId t) (turnSlots w') ≠ Some t ∧
  messageIds (ledger_of t w') ⊆ messageIds (ledger_of t w).
Proof.
  destruct (inv_reachable _ _ Hr inv_new) as [Hinv _]. destruct (inv_reachable _ _ Hr' Hinv) as [_ Hcl].
  destruct (Hcl t Ht) as (_ & Hro & Hm). split; [intros H; by apply Hclosed, Hro|]. by destruct Hm.
Qed.

(** No message is committed for routing before the turn is durably
    prepared: a committed message implies that the owner of the turn's
    preparation has committed its own. *)
Theorem committed_after_preparation (w : Manager) (Hr : rtc step new_manager w) (i : nat) (ad : Admission)
    (Hi : admissions w !! i = Some ad) (Hc : a_state ad = Committed) :
  ∃ j owner, admissions w !! j = Some owner ∧ a_turn owner = a_turn ad ∧
    isOwner (preparation owner) = true ∧ a_state owner = Committed.
Proof.
  destruct (inv_reachable _ _ Hr inv_new) as [Hinv _].
  destruct (isOwner (preparation ad)) eqn:Ho; [by exists i, ad|].
  apply (iv_joiner _ _ Hinv i ad Hi Ho). right. by rewrite Hc.
Qed.

(** *** Witnesses *)
Definition demo_t : Turn :=
  {| turn_ref := 1; turnId := "t"; sessionId := "s"; turnNumber := 1; agentIds := ["a"] |}.
Definition demo_res : TurnReservation := {| res_ref := 0; res_session := "s" |}.
Definition got {E} (w : Manager) (o : outcome E Manager) : Manager := match o with Ok w' => w' | Throw _ => w end.
Definition demo_reserved : Manager :=
  allocate (set_slots (with_reservations [("s", demo_res)] empty_registry) new_manager).
Definition demo_created : Manager := got demo_reserved (createReservedTurn demo_res demo_t demo_reserved).
Definition demo_admitted : Manager :=
  match admitOnce demo_t "m" ["a"] demo_created with Some o => got demo_created o | None => demo_created end.
Definition demo_admission : Admission :=
  {| a_turn := demo_t; a_msg := "m"; a_state := Held;
     preparation := {| lease_turn := demo_t; isOwner := true; ready := Some 2%nat |} |}.
Definition demo_committed : Manager := commit 0 demo_admission demo_admitted.
Definition demo_done : Manager := recordTurnPairCompletion "t" "m" "a" Completed None demo_committed.

Lemma demo_committed_reachable : rtc step new_manager demo_committed.
Proof.
  eapply rtc_l; [eapply (st_reserve "s" demo_res); reflexivity|].
  eapply rtc_l; [eapply (st_create demo_res demo_t _ demo_created); [done|done| |done]|].
  { intros t' Ht'. by apply elem_of_nil in Ht'. }
  eapply rtc_l; [eapply (st_admit demo_t "m" ["a"] _ demo_admitted); [left|done]|].
  eapply rtc_l; [eapply (st_commit 0 demo_admission); reflexivity|]. apply rtc_refl.
Qed.

Lemma demo_done_step : step demo_committed demo_done.
Proof.
  apply st_pair. intros t Ht _. apply list_elem_of_singleton in Ht as ->. apply not_elem_of_nil.
Qed.

Lemma demo_done_reachable : rtc step new_manager demo_done.
Proof. eapply rtc_r; [exact demo_committed_reachable|exact demo_done_step]. Qed.

Lemma no_lost_completion_witness :
  getActive "s" (turnSlots demo_done) ≠ Some demo_t ∨
  ∃ i ad, admissions demo_done !! i = Some ad ∧ a_turn ad = demo_t ∧ a_state ad = Checking.
Proof. apply (no_lost_completion demo_done demo_done_reachable demo_t); [left|reflexivity]. Defined.

Lemma closed_turn_admits_nothing_witness :
  getActive "s" (turnSlots (clearCompletionState demo_t demo_done)) ≠ Some demo_t ∧
  messageIds (ledger_of demo_t (clearCompletionState demo_t demo_done)) ⊆ messageIds (ledger_of demo_t demo_done).
Proof.
  apply (closed_turn_admits_nothing demo_done (clearCompletionState demo_t demo_done) demo_done_reachable
    (rtc_once _ _ (st_finalized demo_t demo_done eq_refl)) demo_t); [left|done].
Defined.

Lemma committed_after_preparation_witness :
  ∃ j owner, admissions demo_committed !! j = Some owner ∧ a_turn owner = demo_t ∧
    isOwner (preparation owner) = true ∧ a_state owner = Committed.
Proof.
  apply (committed_after_preparation demo_committed demo_committed_reachable 0 (with_state Committed demo_admission));
    reflexivity.
Defined.
