(* ===== verification/Json.v ===== *)
(** * JSON values and their canonical form

    [packages/utils/src/canonical-stringify.ts]: the serialization that sorts
    object members by name at every depth, by which the execution-attempt
    store compares allocation references and outcomes.

    A JSON text is represented by the tree [JSON.parse] yields, members in
    order; [JSON.stringify] is injective on such trees, so two texts are equal
    exactly when their trees are. *)
From stdpp Require Import pretty.
From S2P Require Import Prelude.

Inductive json :=
  | JNull
  | JBool (b : bool)
  | JNum (n : Z)
  | JStr (s : string)
  | JArr (items : list json)
  | JObj (members : list (string * json)).

Section json_ind.
Context (P : json → Prop) (Hnull : P JNull) (Hbool : ∀ b, P (JBool b)) (Hnum : ∀ n, P (JNum n))
  (Hstr : ∀ s, P (JStr s)) (Harr : ∀ l, Forall P l → P (JArr l))
  (Hobj : ∀ m, Forall (λ kv : string * json, P kv.2) m → P (JObj m)).

Fixpoint json_ind' (v : json) : P v :=
  match v with
  | JNull => Hnull
  | JBool b => Hbool b
  | JNum n => Hnum n
  | JStr s => Hstr s
  | JArr l => Harr l ((fix go l := match l return Forall P l with
      | [] => List.Forall_nil _ | x :: l' => List.Forall_cons _ _ _ (json_ind' x) (go l') end) l)
  | JObj m => Hobj m ((fix go m := match m return Forall (λ kv : string * json, P kv.2) m with
      | [] => List.Forall_nil _ | kv :: m' => List.Forall_cons _ _ _ (json_ind' kv.2) (go m') end) m)
  end.
End json_ind.

#[export] Instance json_eq_dec : EqDecision json.
Proof.
  unfold EqDecision, RelDecision. fix go 1. intros v w.
  destruct v as [|b|n|s|l|m], w as [|b'|n'|s'|l'|m']; try (right; discriminate).
  - by left.
  - destruct (decide (b = b')); [left; congruence|right; congruence].
  - destruct (decide (n = n')); [left; congruence|right; congruence].
  - destruct (decide (s = s')); [left; congruence|right; congruence].
  - assert (Decision (l = l')) as [?|?]; [|left; congruence|right; congruence].
    revert l'. induction l as [|x l IH]; intros [|y l']; [by left|by right|by right|].
    destruct (go x y); [|right; congruence]. destruct (IH l'); [left; congruence|right; congruence].
  - assert (Decision (m = m')) as [?|?]; [|left; congruence|right; congruence].
    revert m'. induction m as [|[k x] m IH]; intros [|[k' y] m']; [by left|by right|by right|].
    destruct (decide (k = k')); [|right; congruence].
    destruct (go x y); [|right; congruence]. destruct (IH m'); [left; congruence|right; congruence].
Defined.

(** Member names in the order of [Array.prototype.sort]. *)
Definition by_name (x y : string * json) : bool := String.leb x.1 y.1.

(** A member name that is an array index: the canonical decimal text of a
    number below [2^32 - 1]. *)
Fixpoint digits (acc : N) (s : string) : option N :=
  match s with
  | EmptyString => Some acc
  | String c s' => let d := Ascii.N_of_ascii c in
      if (48 <=? d)%N && (d <=? 57)%N then digits (10 * acc + (d - 48)) s' else None
  end.
Definition array_index (s : string) : option N :=
  match digits 0 s with
  | Some n => if decide (pretty n = s ∧ (n < 4294967295)%N) then Some n else None
  | None => None
  end.
Definition is_index (kv : string * json) : Prop := array_index kv.1 ≠ None.
Definition by_index (x y : string * json) : bool :=
  (default 0%N (array_index x.1) <=? default 0%N (array_index y.1))%N.

(** Own-property order of an object whose members were inserted in the order
    of [m]: array indices ascending, then the other names as inserted. *)
Definition own_order (m : list (string * json)) : list (string * json) :=
  js_sort by_index (filter is_index m) ++ filter (λ kv, ¬ is_index kv) m.

(** The tree [canonicalStringify] serializes. *)
Fixpoint canonical (v : json) : json :=
  match v with
  | JArr l => JArr (map canonical l)
  | JObj m => JObj (own_order (js_sort by_name (map (λ kv : string * json, (kv.1, canonical kv.2)) m)))
  | _ => v
  end.

(** [canonicalStringify(v) === canonicalStringify(w)]. *)
Definition same_json (v w : json) : bool := bool_decide (canonical v = canonical w).

(** ** The order of member names *)
#[export] Instance by_name_total : TotalPreorder by_name.
Proof. split; intros; [apply String.leb_total|by eapply string_leb_trans]. Qed.

(** ** Equality up to the order of members *)
Inductive same_value : json → json → Prop :=
  | sv_null : same_value JNull JNull
  | sv_bool b : same_value (JBool b) (JBool b)
  | sv_num n : same_value (JNum n) (JNum n)
  | sv_str s : same_value (JStr s) (JStr s)
  | sv_arr l l' : Forall2 same_value l l' → same_value (JArr l) (JArr l')
  | sv_obj m m1 m' : m ≡ₚ m1 →
      Forall2 (λ kv kv' : string * json, kv.1 = kv'.1 ∧ same_value kv.2 kv'.2) m1 m' →
      same_value (JObj m) (JObj m').

(** An object has no two members of the same name. *)
Inductive wf_json : json → Prop :=
  | wj_null : wf_json JNull
  | wj_bool b : wf_json (JBool b)
  | wj_num n : wf_json (JNum n)
  | wj_str s : wf_json (JStr s)
  | wj_arr l : Forall wf_json l → wf_json (JArr l)
  | wj_obj m : NoDup m.*1 → Forall (λ kv : string * json, wf_json kv.2) m → wf_json (JObj m).

Definition canonical_member (kv : string * json) : string * json := (kv.1, canonical kv.2).

Lemma canonical_members_keys m : (map canonical_member m).*1 = m.*1.
Proof. induction m as [|kv m IH]; [done|]. change (kv.1 :: (map canonical_member m).*1 = kv.1 :: m.*1). by rewrite IH. Qed.

Lemma canonical_obj m : canonical (JObj m) = JObj (own_order (js_sort by_name (map canonical_member m))).
Proof. done. Qed.

Lemma own_order_perm m : own_order m ≡ₚ m.
Proof.
  unfold own_order. rewrite js_sort_perm. induction m as [|kv m IH]; [done|].
  rewrite !filter_cons. destruct (decide (is_index kv)) as [Hi|Hi], (decide (¬ is_index kv)); try done; simpl.
  - by f_equiv.
  - rewrite <- Permutation_middle. by f_equiv.
Qed.
Lemma members_perm m : own_order (js_sort by_name (map canonical_member m)) ≡ₚ map canonical_member m.
Proof. by rewrite own_order_perm, js_sort_perm. Qed.

Lemma NoDup_key_eq (m : list (string * json)) x y : NoDup m.*1 → x ∈ m → y ∈ m → x.1 = y.1 → x = y.
Proof.
  intros Hnd Hx Hy He. destruct x as [k v], y as [k' v']. simpl in He. subst k'. f_equal.
  apply (JsMap.elem_get _ _ _ Hnd) in Hx. apply (JsMap.elem_get _ _ _ Hnd) in Hy. congruence.
Qed.

Lemma sorted_unique (m m' : list (string * json)) :
  m ≡ₚ m' → NoDup m'.*1 → js_sort by_name m = js_sort by_name m'.
Proof.
  intros Hp Hnd. refine (js_sort_perm_eq by_name m (js_sort by_name m') _ _ _);
    [|by rewrite js_sort_perm|apply js_sort_ordered; apply _].
  intros x y Hx Hy Ht. rewrite js_sort_perm in Hx. rewrite js_sort_perm in Hy.
  apply (NoDup_key_eq m' x y Hnd Hx Hy). apply andb_true_iff in Ht as [H1 H2].
  by apply String.leb_antisym.
Qed.

Lemma wf_arr_inv l : wf_json (JArr l) → Forall wf_json l.
Proof. by inversion 1. Qed.
Lemma wf_obj_inv m : wf_json (JObj m) → NoDup m.*1 ∧ Forall (λ kv : string * json, wf_json kv.2) m.
Proof. by inversion 1. Qed.

Lemma same_value_canonical v w : wf_json v → wf_json w → same_value v w → canonical v = canonical w.
Proof.
  revert w. induction v as [|b|n|s|l IH|m IH] using json_ind'; intros w Hv Hw Hs; inversion Hs as
    [| | | |? l' Hf|? m1 m' Hp Hf]; subst; try done.
  - apply wf_arr_inv in Hv, Hw. clear Hs. simpl. f_equal. induction Hf as [|x y l l' Hxy Hf IHf]; [done|].
    apply Forall_cons in IH as [IHx IH], Hv as [Hx Hv], Hw as [Hy Hw]. simpl. f_equal; auto.
  - apply wf_obj_inv in Hv as [Hnd Hv], Hw as [Hnd' Hw]. clear Hs. rewrite !canonical_obj. f_equal.
    assert (map canonical_member m1 = map canonical_member m') as <-.
    { rewrite Hp in IH, Hv. clear Hp Hnd Hnd'. induction Hf as [|[k x] [k' y] m1 m' [Hk Hxy] Hf IHf]; [done|].
      apply Forall_cons in IH as [IHx IH], Hv as [Hx Hv], Hw as [Hy Hw]. simpl in *. subst k'.
      unfold canonical_member at 1 3. simpl. f_equal; [f_equal|]; auto. }
    f_equal. apply sorted_unique; [by rewrite Hp|]. rewrite canonical_members_keys. by rewrite <- Hp.
Qed.

Lemma canonical_same_value v w : wf_json v → wf_json w → canonical v = canonical w → same_value v w.
Proof.
  revert w. induction v as [|b|n|s|l IH|m IH] using json_ind'; intros [| | | |l'|m'] Hv Hw Hc;
    try (simpl in Hc; done); try (simpl in Hc; injection Hc as <-; constructor); [by constructor|..].
  - apply wf_arr_inv in Hv, Hw. simpl in Hc. injection Hc as Hc. constructor. revert l' Hw Hc.
    induction l as [|x l IHl]; intros [|y l'] Hw Hc; try done.
    apply Forall_cons in IH as [IHx IH], Hv as [Hx Hv], Hw as [Hy Hw]. simpl in Hc. injection Hc as Hxy Hc.
    constructor; auto.
  - apply wf_obj_inv in Hv as [Hnd Hv], Hw as [Hnd' Hw]. rewrite !canonical_obj in Hc. injection Hc as Hc.
    assert (map canonical_member m' ≡ₚ map canonical_member m) as Hp.
    { rewrite <- (members_perm m), Hc. by rewrite members_perm. }
    apply Permutation_map_inv in Hp as (m1 & Heq & Hp). apply (sv_obj m m1 m' Hp).
    rewrite Hp in IH, Hv. clear Hp Hc Hnd Hnd' m. revert m' Hw Heq.
    induction m1 as [|[k x] m1 IHm]; intros [|[k' y] m'] Hw Heq; try done.
    apply Forall_cons in IH as [IHx IH], Hv as [Hx Hv], Hw as [Hy Hw]. simpl in *.
    injection Heq as Hk Hxy Heq. constructor; [split; simpl; auto|auto].
Qed.

(** Two JSON values have the same canonical serialization exactly when
    they are equal up to the order of object members at any depth; array order
    counts. *)
Theorem canonical_correct (v w : json) (Hv : wf_json v) (Hw : wf_json w) :
  same_json v w = true ↔ same_value v w.
Proof.
  unfold same_json. rewrite bool_decide_eq_true. split; [by apply canonical_same_value|by apply same_value_canonical].
Qed.

Lemma same_json_refl v : same_json v v = true.
Proof. by apply bool_decide_eq_true. Qed.

Lemma canonical_correct_witness :
  same_value (JObj [("a", JNum 1); ("b", JArr [JNull])]) (JObj [("b", JArr [JNull]); ("a", JNum 1)]).
Proof.
  apply canonical_correct; [| |reflexivity]; repeat constructor; simpl;
    intros ?; repeat match goal with H : _ ∈ _ |- _ => apply elem_of_cons in H as [?|?] end; done || set_solver.
Defined.
