(* ===== verification/Attempts.v ===== *)
(** * Execution attempts: durable facts and decisions

    [subsystems/workflow-engine/src/execution-attempt-repository.ts] (data),
    [execution-attempt-decisions.ts] and [execution-attempt-cancellation.ts]
    (the pure decisions every store must take), [provider-operation.ts].

    Instants are integers (milliseconds); allocation references and outcomes
    are JSON values already accepted by their codecs. *)
From S2P Require Import Prelude Json.

Inductive ExecutionAttemptStatus := Pending | Provisioning | Allocated | Settled.
Inductive SettlementKind := OutcomeCommitted | Abandoned | InfrastructureFailure.
Inductive OperationStartGate := Open | Closed.
Inductive OperationKind := RuntimeProbe | WorkflowRun | WorkspacePreparation | WorkloadInvocation.
Inductive Obligation := ProvisioningResolution | AllocationControl | TerminalConvergence.
Inductive AllocationLifetime := ProvisionerProcessBound | ProviderManaged.
#[export] Instance status_eq_dec : EqDecision ExecutionAttemptStatus. Proof. solve_decision. Defined.
#[export] Instance settlement_eq_dec : EqDecision SettlementKind. Proof. solve_decision. Defined.
#[export] Instance gate_eq_dec : EqDecision OperationStartGate. Proof. solve_decision. Defined.
#[export] Instance kind_eq_dec : EqDecision OperationKind. Proof. solve_decision. Defined.
#[export] Instance obligation_eq_dec : EqDecision Obligation. Proof. solve_decision. Defined.
#[export] Instance lifetime_eq_dec : EqDecision AllocationLifetime. Proof. solve_decision. Defined.

(** The five nullable columns of the active operation. *)
Record ActiveOperation := {
  activeOperationId : option string;
  activeOperationKind : option OperationKind;
  activeOperationKey : option string;
  activeOperationGeneration : option Z;
  activeOperationAdmittedAt : option Z;
}.
Definition no_operation : ActiveOperation :=
  {| activeOperationId := None; activeOperationKind := None; activeOperationKey := None;
     activeOperationGeneration := None; activeOperationAdmittedAt := None |}.

Record AttemptControlState := {
  runtimeGeneration : Z;
  runtimeIncarnationId : option string;
  runtimeReadyAt : option Z;
  operationStartGate : OperationStartGate;
  activeOperation : ActiveOperation;
  lastCompletedOperationId : option string;
}.
Definition INITIAL_ATTEMPT_CONTROL_STATE : AttemptControlState :=
  {| runtimeGeneration := 0; runtimeIncarnationId := None; runtimeReadyAt := None; operationStartGate := Open;
     activeOperation := no_operation; lastCompletedOperationId := None |}.

(** [result]: the whole preparation result; [boundRoots]: the ids of
    [result.binding.sourceRoots]. *)
Record PreparationResult := { result : json; boundRoots : list string }.
Record PreparationReceipt := { operationId : string; receiptGeneration : Z; receiptResult : PreparationResult }.
#[export] Instance PreparationResult_eq_dec : EqDecision PreparationResult. Proof. solve_decision. Defined.
#[export] Instance PreparationReceipt_eq_dec : EqDecision PreparationReceipt. Proof. solve_decision. Defined.

(** [workspace]: the ids of [instruction.workspace.sourceRoots], if any. *)
Record AttemptExecutionState := { workspace : option (list string); preparationReceipts : list PreparationReceipt }.
#[export] Instance AttemptExecutionState_eq_dec : EqDecision AttemptExecutionState. Proof. solve_decision. Defined.

Record CancellationIntent := { requestKey : string; controlRevision : Z; requestedAt : Z; reason : option string }.
#[export] Instance CancellationIntent_eq_dec : EqDecision CancellationIntent. Proof. solve_decision. Defined.

Record ProviderOperationClaim := { claimGeneration : Z; claimOwner : string; claimToken : string }.

(** Every kind of decision the repository answers with. *)
Inductive Decision :=
  | NotFound | Resolved (allocationRef : option json) | Fenced | NotAllocated
  | Registered (generation : Z) | DuplicateRuntime (generation : Z) (readyAt : option Z)
  | OperationActive (id : string)
  | OperationAdmitted (id : string) (generation admittedAt : Z) | DuplicateOperation (id : string) (generation admittedAt : Z)
  | GateClosed | NotReady | StaleGeneration
  | PreparationNotRequired | PreparationAlreadyCompleted | PreparationRequired
  | Accepted (r : PreparationResult) | DuplicateReport (r : PreparationResult) | ReportConflict
  | NoActiveOperation | OperationMismatch | BindingMismatch
  | OperationCompleted | DuplicateCompletion | NotActive | Mismatch (id : string) | ResultRequired
  | Ready (acceptedAt : Z) | DuplicateReady (acceptedAt : Z)
  | Started (claim : ProviderOperationClaim) | AlreadyProvisioning | AlreadyAllocated (ref : json)
  | Claimed (claim : ProviderOperationClaim) | Stale | Recorded | EvidenceRecorded | Completed | AlreadyCompleted
  | DuplicateAllocation (ref : json) | AllocationConflict (ref : json)
  | NotProcessBound (l : option AllocationLifetime) | IncarnationMismatch (incarnation : option string)
  | NotTerminated | StaleRef (storedRef : option json) | Evolved
  | OutcomeAccepted (text : json) (control : option CancellationIntent)
  | OutcomeDuplicate (text : json) (control : option CancellationIntent) | OutcomeConflict
  | AttemptAbandoned | AlreadyAbandoned | AlreadySettled | StillProvisioning | StillAllocated
  | CancellationAccepted (i : CancellationIntent) | CancellationReplayed (i : CancellationIntent) | CancellationConflict
  | Created.

(** ** Decisions *)
Record AttemptReachability := { matchesExecution : bool; settled : bool; active : bool; allocated : bool }.

Definition evaluateAttemptReachability (f : AttemptReachability) : option Decision :=
  if negb (matchesExecution f) then Some NotFound
  else if settled f then Some (Resolved None)
  else if negb (active f) then Some Fenced
  else if negb (allocated f) then Some NotAllocated
  else None.

Definition evaluateRuntimeRegistration (c : AttemptControlState) (incarnation : string) : option Decision :=
  if decide (runtimeIncarnationId c = Some incarnation) then
    Some (DuplicateRuntime (runtimeGeneration c) (runtimeReadyAt c))
  else match activeOperationId (activeOperation c) with
  | Some id => if decide (activeOperationKind (activeOperation c) = Some RuntimeProbe) then None
               else Some (OperationActive id)
  | None => None
  end.

Definition prepared (generation : Z) (e : AttemptExecutionState) : bool :=
  existsb (λ r, bool_decide (receiptGeneration r = generation)) (preparationReceipts e).
Definition requiresPreparation (e : AttemptExecutionState) : bool := bool_decide (workspace e ≠ None).

Definition evaluateOperationAdmission (c : AttemptControlState) (kind : OperationKind) (key : string)
    (generation fallbackAdmittedAt : Z) (e : AttemptExecutionState) : option Decision :=
  match activeOperationId (activeOperation c) with
  | Some id =>
      Some (if decide (activeOperationKey (activeOperation c) = Some key)
            then DuplicateOperation id (default (runtimeGeneration c) (activeOperationGeneration (activeOperation c)))
                   (default fallbackAdmittedAt (activeOperationAdmittedAt (activeOperation c)))
            else OperationActive id)
  | None =>
      if decide (operationStartGate c = Closed) then Some GateClosed
      else if decide (kind ≠ RuntimeProbe ∧ runtimeReadyAt c = None) then Some NotReady
      else if decide (runtimeGeneration c ≠ generation) then Some StaleGeneration
      else if decide (kind = WorkspacePreparation ∧ requiresPreparation e = false) then Some PreparationNotRequired
      else if decide (kind = WorkspacePreparation ∧ prepared (runtimeGeneration c) e = true)
           then Some PreparationAlreadyCompleted
      else if decide ((kind = WorkloadInvocation ∨ kind = WorkflowRun) ∧ requiresPreparation e = true ∧
                      prepared (runtimeGeneration c) e = false) then Some PreparationRequired
      else None
  end.

Definition sorted_ids (ids : list string) : list string := js_sort String.leb ids.
Definition find_receipt (id : string) (e : AttemptExecutionState) : option PreparationReceipt :=
  head (filter (λ r, operationId r = id) (preparationReceipts e)).

Definition evaluatePreparationReport (f : AttemptReachability) (c : AttemptControlState)
    (e : AttemptExecutionState) (id : string) (generation : Z) (r : PreparationResult) : option Decision :=
  if negb (matchesExecution f) then Some NotFound
  else match find_receipt id e with
  | Some previous =>
      Some (if decide (receiptGeneration previous = generation ∧
                       same_json (result (receiptResult previous)) (result r) = true)
            then DuplicateReport (receiptResult previous) else ReportConflict)
  | None =>
      match evaluateAttemptReachability f with
      | Some unreachable => Some unreachable
      | None =>
          if decide (runtimeGeneration c ≠ generation) then Some StaleGeneration
          else match activeOperationId (activeOperation c) with
          | None => Some NoActiveOperation
          | Some activeId =>
              if decide (activeId ≠ id ∨ activeOperationKind (activeOperation c) ≠ Some WorkspacePreparation)
              then Some OperationMismatch
              else if decide (activeOperationGeneration (activeOperation c) ≠ Some generation) then Some StaleGeneration
              else match workspace e with
              | None => Some PreparationNotRequired
              | Some requested =>
                  if decide (sorted_ids requested ≠ sorted_ids (boundRoots r)) then Some BindingMismatch else None
              end
          end
      end
  end.

Definition evaluateOperationCompletion (c : AttemptControlState) (id : string) (generation : Z) : option Decision :=
  if decide (lastCompletedOperationId c = Some id) then Some DuplicateCompletion
  else match activeOperationId (activeOperation c) with
  | None => Some NotActive
  | Some activeId =>
      if decide (activeId ≠ id) then Some (Mismatch activeId)
      else if decide (activeOperationGeneration (activeOperation c) ≠ Some generation) then Some StaleGeneration
      else if decide (activeOperationKind (activeOperation c) = Some WorkspacePreparation ∨
                      activeOperationKind (activeOperation c) = Some WorkloadInvocation) then Some ResultRequired
      else None
  end.

Definition evaluateRuntimeReadiness (c : AttemptControlState) (generation : Z) : option Decision :=
  if decide (runtimeGeneration c ≠ generation) then Some StaleGeneration
  else match runtimeReadyAt c with
  | Some at_ => Some (DuplicateReady at_)
  | None => OperationActive <$> activeOperationId (activeOperation c)
  end.

(** [operationId = None]: a startup failure before any operation. *)
Record RuntimeOutcomeFence := { fenceGeneration : Z; fenceOperationId : option string }.

(** [assertRuntimeOutcomeFence] does not throw. *)
Definition runtimeOutcomeFence_holds (c : AttemptControlState) (fence : option RuntimeOutcomeFence) : bool :=
  match fence with
  | None => true
  | Some f =>
      bool_decide (runtimeGeneration c = fenceGeneration f) &&
      bool_decide (activeOperationId (activeOperation c) = fenceOperationId f) &&
      (bool_decide (fenceOperationId f = None) ||
       bool_decide (activeOperationGeneration (activeOperation c) = Some (fenceGeneration f)))
  end.

Definition evaluateAttemptCancellation (stored : option CancellationIntent) (key : string)
    (why : option string) (now : Z) : Decision :=
  match stored with
  | Some i =>
      if decide (requestKey i = key ∧ reason i ≠ why) then CancellationConflict else CancellationReplayed i
  | None => CancellationAccepted {| requestKey := key; controlRevision := 1; requestedAt := now; reason := why |}
  end.
