(* ===== verification/AttemptStore.v ===== *)
(** * The execution-attempt store

    The PostgreSQL realization of the execution-attempt repository:
    [storage/pg/src/execution-attempt-transaction.ts], [-rows.ts], [-core.ts],
    [-runtime.ts], [-control.ts], [-provider.ts] and [-provider-claim.ts].

    Every transition locks the owner of its attempt before it reads, so a
    transition is one atomic function of the rows of its attempt, a [Cell]:
    the attempt row, its provider operation, its cancellation, and the table
    of active attempts.  A [Write] is a guarded SQL statement: it returns the
    number of rows its WHERE clause matched.  Generated identifiers and the
    clock are arguments. *)
From S2P Require Import Prelude Json Attempts.

Record Attempt := {
  executionId : string;
  status : ExecutionAttemptStatus;
  settlementKind : option SettlementKind;
  allocationRef : option json;
  claimable : bool;
  outcomeText : option json;
  outcomeControl : option CancellationIntent;
  control : AttemptControlState;
  execution : AttemptExecutionState;
  providerId : option string;
  allocationLifetime : option AllocationLifetime;
  provisionerIncarnationId : option string;
}.

Record Operation := {
  generation : Z;
  ownerId : option string;
  token : option string;
  leaseExpiresAt : option Z;
  obligation : Obligation;
  failureCount : Z;
  lastFailure : option json;
  completionEvidence : option json;
}.

Record Cell := {
  cell_id : string;
  pointers : list (string * string);
  attempt : Attempt;
  operation : option Operation;
  cancellation : option CancellationIntent;
}.

Inductive AttemptError :=
  | Contended                 (* a guarded transition affected no rows while durable state still permitted it *)
  | MissingEvidence           (* pre-allocation settlement succeeded without completion evidence *)
  | DuplicateOperationRow     (* unique violation on provider_operation *)
  | ProviderMismatch          (* requireAllocationRefProvider *)
  | RuntimeOutcomeFenceMismatch
  | DuplicateExecutionAttempt.

Definition Tx := ST Cell AttemptError Decision.
Definition Write := ST Cell AttemptError nat.

(** ** Row updates *)
Definition with_attempt (a : Attempt) (c : Cell) : Cell :=
  {| cell_id := cell_id c; pointers := pointers c; attempt := a; operation := operation c;
     cancellation := cancellation c |}.
Definition with_operation (o : option Operation) (c : Cell) : Cell :=
  {| cell_id := cell_id c; pointers := pointers c; attempt := attempt c; operation := o;
     cancellation := cancellation c |}.
Definition with_cancellation (i : option CancellationIntent) (c : Cell) : Cell :=
  {| cell_id := cell_id c; pointers := pointers c; attempt := attempt c; operation := operation c;
     cancellation := i |}.
Definition set_control (k : AttemptControlState) (a : Attempt) : Attempt :=
  {| executionId := executionId a; status := status a; settlementKind := settlementKind a;
     allocationRef := allocationRef a; claimable := claimable a; outcomeText := outcomeText a;
     outcomeControl := outcomeControl a; control := k; execution := execution a; providerId := providerId a;
     allocationLifetime := allocationLifetime a; provisionerIncarnationId := provisionerIncarnationId a |}.
Definition set_execution (e : AttemptExecutionState) (a : Attempt) : Attempt :=
  {| executionId := executionId a; status := status a; settlementKind := settlementKind a;
     allocationRef := allocationRef a; claimable := claimable a; outcomeText := outcomeText a;
     outcomeControl := outcomeControl a; control := control a; execution := e; providerId := providerId a;
     allocationLifetime := allocationLifetime a; provisionerIncarnationId := provisionerIncarnationId a |}.
Definition set_allocation (s : ExecutionAttemptStatus) (r : option json) (b : bool) (a : Attempt) : Attempt :=
  {| executionId := executionId a; status := s; settlementKind := settlementKind a;
     allocationRef := r; claimable := b; outcomeText := outcomeText a;
     outcomeControl := outcomeControl a; control := control a; execution := execution a; providerId := providerId a;
     allocationLifetime := allocationLifetime a; provisionerIncarnationId := provisionerIncarnationId a |}.
Definition set_outcome (t : option json) (i : option CancellationIntent) (a : Attempt) : Attempt :=
  {| executionId := executionId a; status := status a; settlementKind := settlementKind a;
     allocationRef := allocationRef a; claimable := claimable a; outcomeText := t;
     outcomeControl := i; control := control a; execution := execution a; providerId := providerId a;
     allocationLifetime := allocationLifetime a; provisionerIncarnationId := provisionerIncarnationId a |}.
Definition set_provider (s : ExecutionAttemptStatus) (p : string) (l : AllocationLifetime) (i : string)
    (a : Attempt) : Attempt :=
  {| executionId := executionId a; status := s; settlementKind := settlementKind a;
     allocationRef := allocationRef a; claimable := claimable a; outcomeText := outcomeText a;
     outcomeControl := outcomeControl a; control := control a; execution := execution a; providerId := Some p;
     allocationLifetime := Some l; provisionerIncarnationId := Some i |}.

Definition close_gate (k : AttemptControlState) : AttemptControlState :=
  {| runtimeGeneration := runtimeGeneration k; runtimeIncarnationId := runtimeIncarnationId k;
     runtimeReadyAt := runtimeReadyAt k; operationStartGate := Closed; activeOperation := activeOperation k;
     lastCompletedOperationId := lastCompletedOperationId k |}.
Definition set_operation (o : ActiveOperation) (last : option string) (k : AttemptControlState) :
    AttemptControlState :=
  {| runtimeGeneration := runtimeGeneration k; runtimeIncarnationId := runtimeIncarnationId k;
     runtimeReadyAt := runtimeReadyAt k; operationStartGate := operationStartGate k; activeOperation := o;
     lastCompletedOperationId := last |}.

(** [UPDATE execution_attempt ... WHERE execution_attempt_id = id AND guard]. *)
Definition update_attempt (guard : Cell → bool) (f : Attempt → Attempt) : Write := λ c,
  if guard c then (Ok 1%nat, with_attempt (f (attempt c)) c) else (Ok 0%nat, c).
Definition update_operation (guard : Cell → bool) (f : Operation → Operation) : Write := λ c,
  match operation c with
  | Some o => if guard c then (Ok 1%nat, with_operation (Some (f o)) c) else (Ok 0%nat, c)
  | None => (Ok 0%nat, c)
  end.

(** ** Predicates shared by the transitions *)
Definition readActiveAttemptId (owner : string) (c : Cell) : option string := JsMap.get owner (pointers c).
Definition isActiveAttemptRow (c : Cell) : bool :=
  bool_decide (readActiveAttemptId (executionId (attempt c)) c = Some (cell_id c)).
Definition allocationTerminated (c : Cell) : bool :=
  match operation c with Some o => bool_decide (obligation o = TerminalConvergence) | None => false end.
Definition operationIsUnresolved (c : Cell) : bool :=
  match operation c with
  | Some o => bool_decide (completionEvidence o = None) || bool_decide (settlementKind (attempt c) = None)
  | None => false
  end.
Definition claimHolds (claim : ProviderOperationClaim) (c : Cell) : bool :=
  match operation c with
  | Some o => bool_decide (generation o = claimGeneration claim ∧ ownerId o = Some (claimOwner claim) ∧
                           token o = Some (claimToken claim))
  | None => false
  end.
Definition claimAuthorizes (claim : ProviderOperationClaim) (c : Cell) : bool :=
  claimHolds claim c && operationIsUnresolved c.

Definition runtimeReachability (c : Cell) : option Decision :=
  let a := attempt c in
  let settled := bool_decide (settlementKind a ≠ None) in
  let active := negb settled && isActiveAttemptRow c in
  evaluateAttemptReachability
    {| matchesExecution := true; settled := settled; active := active;
       allocated := active && bool_decide (allocationRef a ≠ None) && negb (allocationTerminated c) |}.

(** [decideByWrite]: the write repeats the guards of the read; a write without
    effect is decided again, and fails if the state still permits it. *)
Definition decideByWrite (read : ST Cell AttemptError (Decision + Write * Decision)) : Tx :=
  let* first := read in
  match first with
  | inl refusal => st_ret refusal
  | inr (write, accepted) =>
      let* rowsAffected := write in
      if bool_decide (0 < rowsAffected)%nat then st_ret accepted
      else let* contended := read in
        match contended with
        | inl refusal => st_ret refusal
        | inr _ => st_throw Contended
        end
  end.

Definition refuse (d : Decision) : ST Cell AttemptError (Decision + Write * Decision) := st_ret (inl d).
Definition permit (w : Write) (d : Decision) : ST Cell AttemptError (Decision + Write * Decision) :=
  st_ret (inr (w, d)).

(** [transact]: a throw rolls back. *)
Definition transact (m : Tx) : Tx := λ c,
  match m c with
  | (Ok d, c') => (Ok d, c')
  | (Throw e, _) => (Throw e, c)
  end.

(** ** Runtime and operation transitions *)
Definition registerRuntime (owner incarnation : string) : Tx := transact (decideByWrite (λ c,
  let a := attempt c in
  let k := control a in
  if decide (executionId a ≠ owner) then refuse NotFound c
  else match runtimeReachability c with
  | Some unreachable => refuse unreachable c
  | None =>
      match evaluateRuntimeRegistration k incarnation with
      | Some refusal => refuse refusal c
      | None =>
          let allocatedGeneration := runtimeGeneration k + 1 in
          permit (update_attempt (λ c',
              let a' := attempt c' in
              bool_decide (executionId a' = owner ∧ runtimeGeneration (control a') = runtimeGeneration k ∧
                settlementKind a' = None ∧
                (activeOperationId (activeOperation (control a')) = None ∨
                 activeOperationKind (activeOperation (control a')) = Some RuntimeProbe) ∧
                allocationRef a' ≠ None) && negb (allocationTerminated c') && isActiveAttemptRow c')
            (λ a', set_control {| runtimeGeneration := allocatedGeneration; runtimeIncarnationId := Some incarnation;
               runtimeReadyAt := None; operationStartGate := operationStartGate (control a');
               activeOperation := no_operation;
               lastCompletedOperationId := lastCompletedOperationId (control a') |} a'))
            (Registered allocatedGeneration) c
      end
  end)).

Definition admitOperation (owner : string) (kind : OperationKind) (key : string) (gen : Z)
    (operationId : string) (admittedAt : Z) : Tx := transact (decideByWrite (λ c,
  let a := attempt c in
  if decide (executionId a ≠ owner) then refuse NotFound c
  else match runtimeReachability c with
  | Some unreachable => refuse unreachable c
  | None =>
      match evaluateOperationAdmission (control a) kind key gen admittedAt (execution a) with
      | Some refusal => refuse refusal c
      | None =>
          permit (update_attempt (λ c',
              let a' := attempt c' in
              bool_decide (executionId a' = owner ∧ activeOperationId (activeOperation (control a')) = None ∧
                operationStartGate (control a') = Open ∧ runtimeGeneration (control a') = gen ∧
                execution a' = execution a ∧ settlementKind a' = None ∧ allocationRef a' ≠ None ∧
                (kind = RuntimeProbe ∨ runtimeReadyAt (control a') ≠ None)) &&
              negb (allocationTerminated c') && isActiveAttemptRow c')
            (λ a', set_control (set_operation
               {| activeOperationId := Some operationId; activeOperationKind := Some kind;
                  activeOperationKey := Some key; activeOperationGeneration := Some gen;
                  activeOperationAdmittedAt := Some admittedAt |}
               (lastCompletedOperationId (control a')) (control a')) a'))
            (OperationAdmitted operationId gen admittedAt) c
      end
  end)).

Definition reportOperation (owner id : string) (gen : Z) (r : PreparationResult) : Tx :=
  transact (decideByWrite (λ c,
  let a := attempt c in
  if decide (executionId a ≠ owner) then refuse NotFound c
  else match evaluatePreparationReport
      {| matchesExecution := true; settled := bool_decide (settlementKind a ≠ None);
         active := bool_decide (readActiveAttemptId owner c = Some (cell_id c));
         allocated := bool_decide (allocationRef a ≠ None) && negb (allocationTerminated c) |}
      (control a) (execution a) id gen r with
  | Some refusal => refuse refusal c
  | None =>
      permit (update_attempt (λ c',
          let a' := attempt c' in
          bool_decide (executionId a' = owner ∧ settlementKind a' = None ∧ runtimeGeneration (control a') = gen ∧
            activeOperationId (activeOperation (control a')) = Some id ∧
            activeOperationKind (activeOperation (control a')) = Some WorkspacePreparation ∧
            activeOperationGeneration (activeOperation (control a')) = Some gen ∧
            execution a' = execution a ∧ allocationRef a' ≠ None) &&
          negb (allocationTerminated c') && isActiveAttemptRow c')
        (λ a', set_execution {| workspace := workspace (execution a');
             preparationReceipts := preparationReceipts (execution a) ++
               [{| operationId := id; receiptGeneration := gen; receiptResult := r |}] |}
           (set_control (set_operation no_operation (Some id) (control a')) a')))
        (Accepted r) c
  end)).

Definition completeOperation (id : string) (gen : Z) : Tx := transact (decideByWrite (λ c,
  let a := attempt c in
  if decide (settlementKind a ≠ None) then refuse (Resolved None) c
  else match evaluateOperationCompletion (control a) id gen with
  | Some refusal => refuse refusal c
  | None =>
      permit (update_attempt (λ c',
          let a' := attempt c' in
          bool_decide (settlementKind a' = None ∧ activeOperationId (activeOperation (control a')) = Some id ∧
            (activeOperationKind (activeOperation (control a')) = Some RuntimeProbe ∨
             activeOperationKind (activeOperation (control a')) = Some WorkflowRun) ∧
            activeOperationGeneration (activeOperation (control a')) = Some gen))
        (λ a', set_control (set_operation no_operation (Some id) (control a')) a'))
        OperationCompleted c
  end)).

Definition markRuntimeReady (owner : string) (gen acceptedAt : Z) : Tx := transact (decideByWrite (λ c,
  let a := attempt c in
  if decide (executionId a ≠ owner) then refuse NotFound c
  else match runtimeReachability c with
  | Some unreachable => refuse unreachable c
  | None =>
      match evaluateRuntimeReadiness (control a) gen with
      | Some refusal => refuse refusal c
      | None =>
          permit (update_attempt (λ c',
              let a' := attempt c' in
              bool_decide (executionId a' = owner ∧ settlementKind a' = None ∧
                runtimeGeneration (control a') = gen ∧ runtimeReadyAt (control a') = None ∧
                activeOperationId (activeOperation (control a')) = None ∧ allocationRef a' ≠ None) &&
              negb (allocationTerminated c') && isActiveAttemptRow c')
            (λ a', set_control {| runtimeGeneration := runtimeGeneration (control a');
               runtimeIncarnationId := runtimeIncarnationId (control a'); runtimeReadyAt := Some acceptedAt;
               operationStartGate := operationStartGate (control a'); activeOperation := activeOperation (control a');
               lastCompletedOperationId := lastCompletedOperationId (control a') |} a'))
            (Ready acceptedAt) c
      end
  end)).

(** ** Provider transitions *)
Definition isProviderOperationResolved (a : Attempt) (o : Operation) : bool :=
  bool_decide (settlementKind a ≠ None) && bool_decide (completionEvidence o ≠ None).

Inductive ClaimAuthorization := NoClaim | ClaimResolved | ClaimStale | Authorized (o : Operation).
Definition authorize (claim : ProviderOperationClaim) (c : Cell) : ClaimAuthorization :=
  match operation c with
  | None => NoClaim
  | Some o =>
      if isProviderOperationResolved (attempt c) o then ClaimResolved
      else if decide (token o = None ∨ token o ≠ Some (claimToken claim) ∨ generation o ≠ claimGeneration claim ∨
                      ownerId o ≠ Some (claimOwner claim)) then ClaimStale
      else Authorized o
  end.
Definition refuseUnauthorized (claim : ProviderOperationClaim) (c : Cell) : option Decision :=
  match authorize claim c with
  | NoClaim => Some NotFound
  | ClaimResolved => Some (Resolved None)
  | ClaimStale => Some Stale
  | Authorized _ => None
  end.

Definition beginProvisioning (owner provider : string) (lifetime : AllocationLifetime) (incarnation : string)
    (claimant tok : string) (lease : Z) : Tx := transact (decideByWrite (λ c,
  let a := attempt c in
  let claim := {| claimGeneration := 1; claimOwner := claimant; claimToken := tok |} in
  if decide (executionId a ≠ owner) then refuse NotFound c
  else if decide (readActiveAttemptId owner c ≠ Some (cell_id c)) then refuse Fenced c
  else if decide (settlementKind a ≠ None) then refuse (Resolved (allocationRef a)) c
  else match allocationRef a with
  | Some r => refuse (AlreadyAllocated r) c
  | None =>
      if decide (operationStartGate (control a) = Closed) then refuse Fenced c
      else if decide (status a ≠ Pending) then refuse AlreadyProvisioning c
      else permit (
        let* applied := update_attempt (λ c',
            let a' := attempt c' in
            bool_decide (executionId a' = owner ∧ status a' = Pending ∧ operationStartGate (control a') = Open ∧
              allocationRef a' = None ∧ settlementKind a' = None) && isActiveAttemptRow c')
          (set_provider Provisioning provider lifetime incarnation) in
        if bool_decide (applied = 0%nat) then st_ret applied
        else λ c', match operation c' with
          | Some _ => (Throw DuplicateOperationRow, c')
          | None => (Ok applied, with_operation (Some {| generation := 1; ownerId := Some claimant;
              token := Some tok; leaseExpiresAt := Some lease; obligation := ProvisioningResolution;
              failureCount := 0; lastFailure := None; completionEvidence := None |}) c')
          end) (Started claim) c
  end)).

Definition set_lease (g : Z) (o : option string) (t : option string) (l : option Z) (op : Operation) : Operation :=
  {| generation := g; ownerId := o; token := t; leaseExpiresAt := l; obligation := obligation op;
     failureCount := failureCount op; lastFailure := lastFailure op; completionEvidence := completionEvidence op |}.
Definition set_debt (ob : Obligation) (n : Z) (f : option json) (e : option json) (op : Operation) : Operation :=
  {| generation := generation op; ownerId := ownerId op; token := token op; leaseExpiresAt := leaseExpiresAt op;
     obligation := ob; failureCount := n; lastFailure := f; completionEvidence := e |}.

(** A transition of the provider operation that any authorized claim may make. *)
Definition claimed_update (claim : ProviderOperationClaim) (f : Operation → Operation) (accepted : Decision) : Tx :=
  transact (decideByWrite (λ c,
    match refuseUnauthorized claim c with
    | Some refusal => refuse refusal c
    | None => permit (update_operation (claimAuthorizes claim) f) accepted c
    end)).

Definition renewProviderOperationClaim (claim : ProviderOperationClaim) (lease : Z) : Tx :=
  claimed_update claim (λ o, set_lease (generation o) (ownerId o) (token o) (Some lease) o) (Claimed claim).
Definition handoffProviderOperation (claim : ProviderOperationClaim) (evidence : option json) : Tx :=
  claimed_update claim (λ o, set_lease (generation o) None None None
    (set_debt (obligation o) (failureCount o) (match evidence with Some e => Some e | None => lastFailure o end)
       (completionEvidence o) o)) Recorded.
Definition recordProviderOperationUncertainty (claim : ProviderOperationClaim) (evidence : json) : Tx :=
  claimed_update claim (λ o, set_debt (obligation o) (failureCount o + 1) (Some evidence) (completionEvidence o) o)
    Recorded.

Definition takeOverProviderOperation (claimant tok : string) (observedAt lease : Z) : Tx := transact (λ c,
  match operation c with
  | None => (Ok NotFound, c)
  | Some o =>
      if isProviderOperationResolved (attempt c) o then (Ok (Resolved None), c)
      else if bool_decide (ownerId o ≠ None) &&
              match leaseExpiresAt o with Some l => bool_decide (observedAt < l) | None => false end
      then (Ok Stale, c)
      else
        let claim := {| claimGeneration := generation o + 1; claimOwner := claimant; claimToken := tok |} in
        (let* rowsAffected := update_operation (λ c',
            match operation c' with Some o' => bool_decide (generation o' = generation o) | None => false end &&
            operationIsUnresolved c')
           (set_lease (generation o + 1) (Some claimant) (Some tok) (Some lease)) in
         if bool_decide (0 < rowsAffected)%nat then st_ret (Claimed claim)
         else λ c', (Ok (match operation c' with
             | Some o' => if isProviderOperationResolved (attempt c') o' then Resolved None else Stale
             | None => Stale end), c')) c
  end).

Definition completeProviderOperation (claim : ProviderOperationClaim) (evidence : json) : Tx := transact (λ c,
  match operation c with
  | None => (Ok NotFound, c)
  | Some o =>
      if negb (claimHolds claim c) then (Ok Stale, c)
      else if isProviderOperationResolved (attempt c) o then (Ok AlreadyCompleted, c)
      else if decide (completionEvidence o ≠ None) then (Ok EvidenceRecorded, c)
      else
        (let* recorded := update_operation (λ c', claimHolds claim c' &&
             match operation c' with Some o' => bool_decide (completionEvidence o' = None) | None => false end)
           (λ o', set_debt (obligation o') (failureCount o') (lastFailure o') (Some evidence) o') in
         if bool_decide (0 < recorded)%nat
         then λ c', (Ok (if decide (settlementKind (attempt c') = None) then EvidenceRecorded else Completed), c')
         else λ c', (Ok (match operation c' with
             | None => NotFound
             | Some o' => if negb (claimHolds claim c') then Stale
                          else if isProviderOperationResolved (attempt c') o' then AlreadyCompleted
                          else if decide (completionEvidence o' ≠ None) then EvidenceRecorded else Stale
             end), c')) c
  end).

(** [applyAllocation]: [recordAllocation] with [bootstrapClaimable = true],
    [recordDiscoveredAllocation] with [false].  [refProvider] is
    [allocationRef.providerId]. *)
Definition applyAllocation (claim : ProviderOperationClaim) (ref : json) (refProvider : string)
    (bootstrapClaimable : bool) : Tx := transact (decideByWrite (λ c,
  let a := attempt c in
  match authorize claim c with
  | NoClaim => refuse NotFound c
  | auth =>
      if decide (providerId a ≠ Some refProvider) then (Throw ProviderMismatch, c)
      else match auth with
      | ClaimResolved => refuse (Resolved (allocationRef a)) c
      | Authorized _ =>
          match allocationRef a with
          | Some stored => refuse (if same_json stored ref then DuplicateAllocation stored
                                   else AllocationConflict stored) c
          | None =>
              permit (
                let* applied := (λ c', update_attempt (λ c'', bool_decide (allocationRef (attempt c'') = None) &&
                                                              claimAuthorizes claim c'')
                  (λ a', set_allocation (if decide (settlementKind a' = None) then Allocated else status a') (Some ref)
                     (bootstrapClaimable && bool_decide (settlementKind a' = None) && isActiveAttemptRow c') a') c') in
                if bool_decide (0 < applied)%nat
                then let* _ := update_operation (λ _, true)
                       (λ o, set_debt AllocationControl (failureCount o) (lastFailure o) (completionEvidence o) o) in
                     st_ret applied
                else st_ret applied) Recorded c
          end
      | _ => refuse Stale c
      end
  end)).

(** [settleAttempt]. *)
Definition settleAttempt (k : SettlementKind) (guard : Cell → bool) : Write :=
  update_attempt (λ c, bool_decide (settlementKind (attempt c) = None) && guard c)
    (λ a, {| executionId := executionId a; status := Settled; settlementKind := Some k;
             allocationRef := allocationRef a; claimable := false; outcomeText := outcomeText a;
             outcomeControl := outcomeControl a; control := close_gate (control a); execution := execution a;
             providerId := providerId a; allocationLifetime := allocationLifetime a;
             provisionerIncarnationId := provisionerIncarnationId a |}).

Definition record_evidence (claim : ProviderOperationClaim) (evidence : json) : Write :=
  update_operation (λ c, claimHolds claim c &&
      match operation c with Some o => bool_decide (completionEvidence o = None) | None => false end)
    (λ o, set_debt (obligation o) (failureCount o) (lastFailure o) (Some evidence) o).

Definition settleAndCompletePreallocationOperation (claim : ProviderOperationClaim) (guard : Cell → bool)
    (evidence : json) (alreadySettled : bool) : Write :=
  if alreadySettled then record_evidence claim evidence
  else
    let* settled := settleAttempt Abandoned guard in
    if bool_decide (settled = 0%nat) then st_ret settled
    else
      let* proof := record_evidence claim evidence in
      λ c, if bool_decide (proof = 0%nat) &&
              match operation c with Some o => bool_decide (completionEvidence o = None) | None => false end
           then (Throw MissingEvidence, c) else (Ok settled, c).

Definition recordProvisioningAbsent (owner : string) (claim : ProviderOperationClaim) (evidence : json) : Tx :=
  transact (decideByWrite (λ c,
  let a := attempt c in
  match authorize claim c with
  | Authorized _ =>
      if decide (executionId a ≠ owner) then refuse NotFound c
      else match allocationRef a with
      | Some r => refuse (AlreadyAllocated r) c
      | None =>
          let preservedSettlement := bool_decide (settlementKind a ≠ None) in
          permit (settleAndCompletePreallocationOperation claim (λ c', bool_decide (executionId (attempt c') = owner ∧
                    allocationRef (attempt c') = None) && claimHolds claim c') evidence preservedSettlement)
            (if preservedSettlement then Completed else Recorded) c
      end
  | _ => refuse (default NotFound (refuseUnauthorized claim c)) c
  end)).

Definition evaluateProvisionerIncarnationLoss (a : Attempt) (owner lostIncarnation : string) : option Decision :=
  if decide (executionId a ≠ owner) then Some NotFound
  else if decide (allocationLifetime a ≠ Some ProvisionerProcessBound) then Some (NotProcessBound (allocationLifetime a))
  else if decide (provisionerIncarnationId a = None ∨ provisionerIncarnationId a ≠ Some lostIncarnation)
  then Some (IncarnationMismatch (provisionerIncarnationId a))
  else AlreadyAllocated <$> allocationRef a.

Definition recordProvisionerIncarnationLost (owner : string) (claim : ProviderOperationClaim)
    (lostIncarnation : string) (evidence : json) : Tx := transact (decideByWrite (λ c,
  let a := attempt c in
  match authorize claim c with
  | Authorized _ =>
      if decide (executionId a ≠ owner) then refuse NotFound c
      else match allocationRef a with
      | Some r => refuse (AlreadyAllocated r) c
      | None =>
          match evaluateProvisionerIncarnationLoss a owner lostIncarnation with
          | Some refusal => refuse refusal c
          | None =>
              let preservedSettlement := bool_decide (settlementKind a ≠ None) in
              permit (settleAndCompletePreallocationOperation claim (λ c', bool_decide (
                        executionId (attempt c') = owner ∧ allocationRef (attempt c') = None ∧
                        allocationLifetime (attempt c') = Some ProvisionerProcessBound ∧
                        provisionerIncarnationId (attempt c') = Some lostIncarnation) && claimHolds claim c')
                        evidence preservedSettlement)
                (if preservedSettlement then Completed else Recorded) c
          end
      end
  | _ => refuse (default NotFound (refuseUnauthorized claim c)) c
  end)).

Definition recordAllocationTerminated (claim : ProviderOperationClaim) (evidence : json) : Tx :=
  transact (decideByWrite (λ c,
  match refuseUnauthorized claim c with
  | Some refusal => refuse refusal c
  | None =>
      if decide (allocationRef (attempt c) = None) then refuse NotAllocated c
      else permit (update_operation (λ c', claimAuthorizes claim c' && bool_decide (allocationRef (attempt c') ≠ None))
             (λ o, set_debt TerminalConvergence (failureCount o) (Some evidence) (completionEvidence o) o)) Recorded c
  end)).

Definition recordInfrastructureFailure (owner : string) (claim : ProviderOperationClaim) : Tx :=
  transact (decideByWrite (λ c,
  let a := attempt c in
  match authorize claim c with
  | Authorized o =>
      if decide (executionId a ≠ owner) then refuse NotFound c
      else if decide (settlementKind a ≠ None) then refuse (Resolved None) c
      else if decide (allocationRef a = None) then refuse NotAllocated c
      else if decide (obligation o ≠ TerminalConvergence) then refuse NotTerminated c
      else permit (settleAttempt InfrastructureFailure (λ c', bool_decide (executionId (attempt c') = owner ∧
               allocationRef (attempt c') ≠ None) && allocationTerminated c' && claimHolds claim c')) Recorded c
  | _ => refuse (default NotFound (refuseUnauthorized claim c)) c
  end)).

Definition evolveAllocationRef (owner : string) (claim : ProviderOperationClaim) (currentRef nextRef : json) : Tx :=
  transact (decideByWrite (λ c,
  let a := attempt c in
  match authorize claim c with
  | ClaimStale => refuse (StaleRef (allocationRef a)) c
  | Authorized _ =>
      if decide (executionId a ≠ owner) then refuse NotFound c
      else match allocationRef a with
      | None => refuse NotAllocated c
      | Some stored =>
          if negb (same_json stored currentRef) then refuse (StaleRef (Some stored)) c
          else permit (update_attempt (λ c', bool_decide (executionId (attempt c') = owner ∧
                   allocationRef (attempt c') = Some stored) && claimAuthorizes claim c')
                 (λ a', set_allocation (status a') (Some nextRef) (claimable a') a')) Evolved c
      end
  | _ => refuse (default NotFound (refuseUnauthorized claim c)) c
  end)).

(** ** Control transitions *)
Definition requestAttemptCancellation (owner key : string) (why : option string) (now : Z) : Tx := transact (λ c,
  if decide (executionId (attempt c) ≠ owner) then (Ok NotFound, c)
  else match evaluateAttemptCancellation (cancellation c) key why now with
  | CancellationAccepted i =>
      (Ok (CancellationAccepted i),
       with_attempt (set_control (close_gate (control (attempt c))) (attempt c)) (with_cancellation (Some i) c))
  | d => (Ok d, c)
  end).

Definition commitOutcome (owner : string) (text : json) (fence : option RuntimeOutcomeFence) : Tx :=
  transact (decideByWrite (λ c,
  let a := attempt c in
  if decide (readActiveAttemptId owner c ≠ Some (cell_id c)) then refuse Fenced c
  else match outcomeText a with
  | Some stored => refuse (if same_json stored text then OutcomeDuplicate stored (outcomeControl a)
                           else OutcomeConflict) c
  | None =>
      if decide (settlementKind a ≠ None) then refuse OutcomeConflict c
      else if negb (runtimeOutcomeFence_holds (control a) fence) then (Throw RuntimeOutcomeFenceMismatch, c)
      else permit (
        let* committed := update_attempt (λ c', bool_decide (outcomeText (attempt c') = None ∧
              settlementKind (attempt c') = None) && runtimeOutcomeFence_holds (control (attempt c')) fence &&
              isActiveAttemptRow c')
            (set_outcome (Some text) (cancellation c)) in
        if bool_decide (committed = 0%nat) then st_ret committed
        else settleAttempt OutcomeCommitted (λ c', bool_decide (outcomeText (attempt c') ≠ None)))
        (OutcomeAccepted text (cancellation c)) c
  end)).

Definition abandonPendingAttempt (owner : string) : Tx := transact (decideByWrite (λ c,
  let a := attempt c in
  if decide (readActiveAttemptId owner c ≠ Some (cell_id c)) then refuse Fenced c
  else match status a with
  | Allocated => refuse StillAllocated c
  | Provisioning => refuse StillProvisioning c
  | Settled => refuse (if decide (settlementKind a = Some Abandoned) then AlreadyAbandoned else AlreadySettled) c
  | Pending =>
      permit (settleAttempt Abandoned (λ c', bool_decide (executionId (attempt c') = owner ∧
                status (attempt c') = Pending) && isActiveAttemptRow c')) AttemptAbandoned c
  end)).

(** ** What a cell always satisfies *)
Definition slot_ok (k : AttemptControlState) (e : AttemptExecutionState) : Prop :=
  activeOperation k = no_operation ∨
  ∃ id kd key at_, activeOperation k =
      {| activeOperationId := Some id; activeOperationKind := Some kd; activeOperationKey := Some key;
         activeOperationGeneration := Some (runtimeGeneration k); activeOperationAdmittedAt := Some at_ |} ∧
    (kd ≠ RuntimeProbe → runtimeReadyAt k ≠ None) ∧
    (kd = WorkloadInvocation ∨ kd = WorkflowRun → requiresPreparation e = true →
     prepared (runtimeGeneration k) e = true).

Record cell_ok (c : Cell) : Prop := {
  co_settled : status (attempt c) = Settled ↔ settlementKind (attempt c) ≠ None;
  co_closed : settlementKind (attempt c) ≠ None →
    operationStartGate (control (attempt c)) = Closed ∧ claimable (attempt c) = false;
  co_allocated : settlementKind (attempt c) = None → (status (attempt c) = Allocated ↔ allocationRef (attempt c) ≠ None);
  co_operation : operation c = None ↔ providerId (attempt c) = None;
  co_unbound : providerId (attempt c) = None → allocationRef (attempt c) = None;
  co_pending : status (attempt c) = Pending → providerId (attempt c) = None;
  co_provisioning : status (attempt c) = Provisioning → providerId (attempt c) ≠ None;
  co_outcome : settlementKind (attempt c) = Some OutcomeCommitted ↔ outcomeText (attempt c) ≠ None;
  co_slot : slot_ok (control (attempt c)) (execution (attempt c));
  co_superseded : isActiveAttemptRow c = false → operationStartGate (control (attempt c)) = Closed;
  co_claimable : claimable (attempt c) = true → isActiveAttemptRow c = true ∧ status (attempt c) = Allocated;
  co_pointer : ∀ owner, readActiveAttemptId owner c = Some (cell_id c) → executionId (attempt c) = owner;
  co_obligation : ∀ o, operation c = Some o → obligation o ≠ ProvisioningResolution → allocationRef (attempt c) ≠ None;
}.

(** What a later state of an attempt has kept of an earlier one. *)
Record evolves (c c' : Cell) : Prop := {
  ev_id : cell_id c' = cell_id c;
  ev_owner : executionId (attempt c') = executionId (attempt c);
  ev_settlement : settlementKind (attempt c) ≠ None → settlementKind (attempt c') = settlementKind (attempt c);
  ev_outcome : outcomeText (attempt c) ≠ None →
    outcomeText (attempt c') = outcomeText (attempt c) ∧ outcomeControl (attempt c') = outcomeControl (attempt c);
  ev_provider : providerId (attempt c) ≠ None → providerId (attempt c') = providerId (attempt c) ∧
    allocationLifetime (attempt c') = allocationLifetime (attempt c) ∧
    provisionerIncarnationId (attempt c') = provisionerIncarnationId (attempt c);
  ev_allocation : allocationRef (attempt c) ≠ None → allocationRef (attempt c') ≠ None;
  ev_gate : operationStartGate (control (attempt c)) = Closed → operationStartGate (control (attempt c')) = Closed;
  ev_runtime : runtimeGeneration (control (attempt c)) ≤ runtimeGeneration (control (attempt c'));
  ev_instruction : workspace (execution (attempt c')) = workspace (execution (attempt c));
  ev_receipts : preparationReceipts (execution (attempt c)) `prefix_of` preparationReceipts (execution (attempt c'));
  ev_cancellation : cancellation c ≠ None → cancellation c' = cancellation c;
  ev_operation : ∀ o, operation c = Some o → ∃ o', operation c' = Some o' ∧ generation o ≤ generation o' ∧
    (completionEvidence o ≠ None → completionEvidence o' = completionEvidence o);
}.

#[export] Instance evolves_preorder : PreOrder evolves.
Proof.
  split; [intros c; split; naive_solver|]. intros c1 c2 c3 [] []. split; try congruence.
  - intros H. rewrite ev_settlement1; [auto|]. by rewrite ev_settlement0.
  - intros H. destruct (ev_outcome0 H) as [E1 E2]. rewrite <- E1, <- E2. apply ev_outcome1. by rewrite E1.
  - intros H. destruct (ev_provider0 H) as (E1 & E2 & E3). rewrite <- E1, <- E2, <- E3. apply ev_provider1. by rewrite E1.
  - auto.
  - auto.
  - lia.
  - by etrans.
  - intros H. rewrite ev_cancellation1; [auto|]. by rewrite ev_cancellation0.
  - intros o Ho. destruct (ev_operation0 o Ho) as (o2 & Ho2 & Hg & He).
    destruct (ev_operation1 o2 Ho2) as (o3 & Ho3 & Hg' & He'). exists o3. split_and!; [done|lia|].
    intros H. rewrite He'; [auto|]. by rewrite He.
Qed.

(** A transition that fails does so only for a reason of its caller. *)
Definition excused (r : outcome AttemptError Decision) : Prop :=
  match r with Throw e => e = ProviderMismatch ∨ e = RuntimeOutcomeFenceMismatch | Ok _ => True end.

Definition step_ok (c c' : Cell) : Prop := cell_ok c' ∧ evolves c c' ∧ pointers c' = pointers c.
Definition good (m : Tx) : Prop := ∀ c, cell_ok c → excused (m c).1 ∧ step_ok c (m c).2.

Lemma step_ok_refl c : cell_ok c → step_ok c c.
Proof. by split. Qed.

Lemma good_transact m : good m → good (transact m).
Proof.
  intros Hm c Hc. specialize (Hm c Hc). unfold transact. destruct (m c) as [[d|e] c']; simpl in *; [done|].
  split; [apply Hm|by apply step_ok_refl].
Qed.

(** A guarded transition is good if, whenever its read permits the write, the
    write finds its guard true and keeps the cell in order. *)
Lemma good_decide read :
  (∀ c, cell_ok c → ∃ x, read c = (x, c) ∧
     match x with
     | Throw e => e = ProviderMismatch ∨ e = RuntimeOutcomeFenceMismatch
     | Ok (inl _) => True
     | Ok (inr (w, _)) => ∃ n c', w c = (Ok (S n), c') ∧ step_ok c c'
     end) → good (transact (decideByWrite read)).
Proof.
  intros Hread. apply good_transact. intros c Hc. unfold decideByWrite, st_bind.
  destruct (Hread c Hc) as (x & Hr & Hx). rewrite Hr. destruct x as [[d|[w d]]|e]; simpl.
  - split; [done|by apply step_ok_refl].
  - destruct Hx as (n & c' & Hw & Hs). by rewrite Hw.
  - split; [done|by apply step_ok_refl].
Qed.

Lemma reachability_none c :
  runtimeReachability c = None →
  settlementKind (attempt c) = None ∧ isActiveAttemptRow c = true ∧ allocationRef (attempt c) ≠ None ∧
  allocationTerminated c = false.
Proof.
  unfold runtimeReachability, evaluateAttemptReachability. simpl.
  destruct (settlementKind (attempt c)); simpl; [done|]. destruct (isActiveAttemptRow c); simpl; [|done].
  destruct (allocationRef (attempt c)); simpl; [|done]. by destruct (allocationTerminated c).
Qed.

Lemma operation_kept (o : Operation) (oo : option Operation) :
  oo = Some o → ∃ o', oo = Some o' ∧ generation o ≤ generation o' ∧
    (completionEvidence o ≠ None → completionEvidence o' = completionEvidence o).
Proof. intros ->. exists o. split_and!; done || lia. Qed.
#[local] Hint Resolve operation_kept : core.

(** Changing control columns other than the gate, and adding receipts. *)
Lemma step_control c k e :
  cell_ok c → operationStartGate k = operationStartGate (control (attempt c)) →
  runtimeGeneration (control (attempt c)) ≤ runtimeGeneration k →
  workspace e = workspace (execution (attempt c)) →
  preparationReceipts (execution (attempt c)) `prefix_of` preparationReceipts e → slot_ok k e →
  step_ok c (with_attempt (set_execution e (set_control k (attempt c))) c).
Proof.
  intros [] Hg Hr Hw Hp Hk. split_and!; [| |done].
  - split; simpl; try done; by rewrite Hg.
  - split; simpl; try done; [by rewrite Hg|auto].
Qed.

Lemma slot_none k e : activeOperation k = no_operation → slot_ok k e.
Proof. by left. Qed.

(** The read refuses. *)
Ltac refused := solve [eexists; split; [reflexivity|exact I]].

Lemma good_registerRuntime owner inc : good (registerRuntime owner inc).
Proof.
  apply good_decide. intros c Hc. unfold refuse, permit, st_ret. case_decide as Ho; [refused|].
  destruct (runtimeReachability c) as [d|] eqn:Hreach; [refused|].
  destruct (reachability_none c Hreach) as (Hs & Ha & Hal & Ht).
  destruct (evaluateRuntimeRegistration _ _) as [d|] eqn:He; [refused|]. eexists. split; [reflexivity|].
  exists 0%nat. unfold update_attempt. simpl. eexists. split.
  - rewrite bool_decide_true; [by rewrite Ht, Ha|]. split_and!; try done.
    unfold evaluateRuntimeRegistration in He. case_decide; [done|].
    destruct (activeOperationId _); [|by left]. case_decide; [by right|done].
  - apply (step_control c _ (execution (attempt c))); simpl; try done; [lia|by left].
Qed.

Lemma good_admitOperation owner kind key gen id at_ : good (admitOperation owner kind key gen id at_).
Proof.
  apply good_decide. intros c Hc. unfold refuse, permit, st_ret. case_decide as Ho; [refused|].
  destruct (runtimeReachability c) as [d|] eqn:Hreach; [refused|].
  destruct (reachability_none c Hreach) as (Hs & Ha & Hal & Ht).
  destruct (evaluateOperationAdmission _ _ _ _ _ _) as [d|] eqn:He; [refused|]. eexists. split; [reflexivity|].
  unfold evaluateOperationAdmission in He.
  destruct (activeOperationId (activeOperation (control (attempt c)))) eqn:Hid; [done|].
  destruct (decide (operationStartGate _ = Closed)) as [|Hopen]; [done|].
  destruct (decide (kind ≠ RuntimeProbe ∧ _)) as [|Hready]; [done|].
  destruct (decide (runtimeGeneration _ ≠ gen)) as [|Hgen]; [done|]. apply dec_stable in Hgen.
  do 2 (case_decide; [done|]). destruct (decide ((kind = WorkloadInvocation ∨ _) ∧ _)) as [|Hprep]; [done|].
  assert (kind = RuntimeProbe ∨ runtimeReadyAt (control (attempt c)) ≠ None) as Hr.
  { destruct (decide (kind = RuntimeProbe)); [by left|]. right. intros Hn. by apply Hready. }
  exists 0%nat. unfold update_attempt. simpl. eexists. split.
  - rewrite bool_decide_true; [by rewrite Ht, Ha|]. split_and!; try done. by destruct (operationStartGate _).
  - apply (step_control c _ (execution (attempt c))); simpl; try done. right. simpl. exists id, kind, key, at_. rewrite Hgen. split_and!; [done| |].
    + intros Hk. by destruct Hr.
    + intros Hk Hreq. destruct (prepared gen _) eqn:Hp; [done|]. exfalso. apply Hprep. by rewrite Hgen.
Qed.

Lemma slot_of_active k e id :
  slot_ok k e → activeOperationId (activeOperation k) = Some id →
  ∃ kd, activeOperationKind (activeOperation k) = Some kd.
Proof. intros [->|(id' & kd & key & at_ & -> & _)]; [done|]. simpl. eauto. Qed.

Lemma good_completeOperation id gen : good (completeOperation id gen).
Proof.
  apply good_decide. intros c Hc. unfold refuse, permit, st_ret. case_decide as Hs; [refused|].
  destruct (evaluateOperationCompletion _ _ _) as [d|] eqn:He; [refused|]. eexists. split; [reflexivity|].
  unfold evaluateOperationCompletion in He. case_decide; [done|].
  destruct (activeOperationId _) as [activeId|] eqn:Hid; [|done]. case_decide as Hne; [done|]. subst activeId.
  case_decide as Hgen; [done|]. case_decide as Hk; [done|].
  destruct (slot_of_active _ _ _ (co_slot _ Hc) Hid) as [kd Hkd].
  exists 0%nat. unfold update_attempt. simpl. eexists. split.
  - rewrite bool_decide_true; [done|]. split_and!; try done. rewrite Hkd in *. destruct kd; auto; exfalso; auto.
  - apply (step_control c _ (execution (attempt c))); simpl; try done. by left.
Qed.

Lemma good_markRuntimeReady owner gen at_ : good (markRuntimeReady owner gen at_).
Proof.
  apply good_decide. intros c Hc. unfold refuse, permit, st_ret. case_decide as Ho; [refused|].
  destruct (runtimeReachability c) as [d|] eqn:Hreach; [refused|].
  destruct (reachability_none c Hreach) as (Hs & Ha & Hal & Ht).
  destruct (evaluateRuntimeReadiness _ _) as [d|] eqn:He; [refused|]. eexists. split; [reflexivity|].
  unfold evaluateRuntimeReadiness in He. case_decide as Hg; [done|].
  destruct (runtimeReadyAt _) eqn:Hr; [done|]. destruct (activeOperationId _) eqn:Hid; [done|].
  exists 0%nat. unfold update_attempt. simpl. eexists. split.
  - rewrite bool_decide_true; [by rewrite Ht, Ha|]. by split_and!.
  - apply (step_control c _ (execution (attempt c))); simpl; try done. left. simpl.
    destruct (co_slot _ Hc) as [|(? & ? & ? & ? & Heq & _)]; [done|]. by rewrite Heq in Hid.
Qed.

Lemma good_reportOperation owner id gen r : good (reportOperation owner id gen r).
Proof.
  apply good_decide. intros c Hc. unfold refuse, permit, st_ret. case_decide as Ho; [refused|].
  destruct (evaluatePreparationReport _ _ _ _ _ _) as [d|] eqn:He; [refused|]. eexists. split; [reflexivity|].
  unfold evaluatePreparationReport in He. simpl in He. destruct (find_receipt _ _); [done|].
  unfold evaluateAttemptReachability in He. simpl in He.
  destruct (settlementKind (attempt c)) eqn:Hs; simpl in He; [done|].
  destruct (bool_decide (readActiveAttemptId owner c = _)) eqn:Ha; simpl in He; [|done].
  apply bool_decide_eq_true in Ha.
  destruct (allocationRef (attempt c)) as [ref|] eqn:Hal; simpl in He; [|done].
  destruct (allocationTerminated c) eqn:Ht; simpl in He; [done|].
  case_decide as Hg; [done|]. destruct (activeOperationId _) as [activeId|] eqn:Hid; [|done].
  case_decide as Hm; [done|]. case_decide as Hag; [done|].
  assert (activeId = id ∧ activeOperationKind (activeOperation (control (attempt c))) = Some WorkspacePreparation) as [-> Hk].
  { destruct (decide (activeId = id)); [|exfalso; apply Hm; by left]. split; [done|].
    destruct (decide (activeOperationKind (activeOperation (control (attempt c))) = Some WorkspacePreparation)); [done|].
    exfalso. apply Hm. by right. }
  assert (isActiveAttemptRow c = true) as Hact by (apply bool_decide_eq_true; by rewrite Ho).
  exists 0%nat. unfold update_attempt. simpl. eexists. split.
  - rewrite bool_decide_true; [by rewrite Ht, Hact|]. by rewrite Hal; split_and!.
  - apply step_control; simpl; try done; [by apply prefix_app_r|by left].
Qed.

(** ** Provider transitions keep the cell in order *)
Lemma step_trans c1 c2 c3 : step_ok c1 c2 → step_ok c2 c3 → step_ok c1 c3.
Proof. intros (_ & He & Hp) (Hc & He' & Hp'). split_and!; [done|by etrans|congruence]. Qed.

Lemma step_operation c o o' :
  cell_ok c → operation c = Some o → generation o ≤ generation o' →
  (completionEvidence o ≠ None → completionEvidence o' = completionEvidence o) →
  (obligation o' ≠ ProvisioningResolution → obligation o ≠ ProvisioningResolution ∨ allocationRef (attempt c) ≠ None) →
  step_ok c (with_operation (Some o') c).
Proof.
  intros [] Ho Hg He Hob. split_and!; [| |done].
  - split; simpl; try done.
    + split; [done|]. intros Hn. apply co_operation0 in Hn. congruence.
    + intros o1 [= <-] H. destruct (Hob H); [by apply (co_obligation0 o)|done].
  - split; simpl; try done. intros o1 Ho1. rewrite Ho in Ho1. injection Ho1 as <-. eauto.
Qed.

Definition settled_attempt (k : SettlementKind) (t : option json) (i : option CancellationIntent) (a : Attempt) : Attempt :=
  {| executionId := executionId a; status := Settled; settlementKind := Some k;
     allocationRef := allocationRef a; claimable := false; outcomeText := t;
     outcomeControl := i; control := close_gate (control a); execution := execution a;
     providerId := providerId a; allocationLifetime := allocationLifetime a;
     provisionerIncarnationId := provisionerIncarnationId a |}.

Lemma step_settle c k t i :
  cell_ok c → settlementKind (attempt c) = None → (k = OutcomeCommitted ↔ t ≠ None) →
  step_ok c (with_attempt (settled_attempt k t i (attempt c)) c).
Proof.
  intros [] Hs Hk.
  assert (outcomeText (attempt c) = None) as Ht.
  { destruct (outcomeText (attempt c)) eqn:E; [|done]. destruct co_outcome0 as [_ H]. specialize (H ltac:(done)). congruence. }
  split_and!; [| |done].
  - split; simpl; try done. split; [intros [= ->]; by apply Hk|intros ->%Hk; done].
  - split; simpl; try done; auto.
Qed.

Lemma settleAttempt_eq k guard c :
  settlementKind (attempt c) = None → guard c = true →
  settleAttempt k guard c =
    (Ok 1%nat, with_attempt (settled_attempt k (outcomeText (attempt c)) (outcomeControl (attempt c)) (attempt c)) c).
Proof. intros Hs Hg. unfold settleAttempt, update_attempt. by rewrite Hs, Hg. Qed.

Lemma unsettled_no_outcome c : cell_ok c → settlementKind (attempt c) = None → outcomeText (attempt c) = None.
Proof.
  intros [] Hs. destruct (outcomeText (attempt c)) eqn:E; [|done].
  destruct co_outcome0 as [_ H]. specialize (H ltac:(done)). congruence.
Qed.

Lemma authorized_inv claim c o :
  authorize claim c = Authorized o →
  operation c = Some o ∧ claimHolds claim c = true ∧ claimAuthorizes claim c = true ∧
  (completionEvidence o = None ∨ settlementKind (attempt c) = None).
Proof.
  unfold authorize. destruct (operation c) as [o'|] eqn:Ho; [|done].
  destruct (isProviderOperationResolved _ _) eqn:Hr; [done|]. case_decide as Hd; [done|]. intros [= ->].
  assert (claimHolds claim c = true) as Hh.
  { unfold claimHolds. rewrite Ho. apply bool_decide_eq_true.
    destruct (decide (token o = Some (claimToken claim))), (decide (generation o = claimGeneration claim)),
      (decide (ownerId o = Some (claimOwner claim))); try done; exfalso; apply Hd; auto. }
  assert (completionEvidence o = None ∨ settlementKind (attempt c) = None) as Hu.
  { unfold isProviderOperationResolved in Hr. apply andb_false_iff in Hr as [H|H]; apply bool_decide_eq_false in H;
      apply dec_stable in H; auto. }
  split_and!; [done|done| |done]. unfold claimAuthorizes. rewrite Hh. unfold operationIsUnresolved. rewrite Ho. simpl.
  apply orb_true_iff. rewrite !bool_decide_eq_true. destruct Hu; auto.
Qed.

Lemma refuseUnauthorized_none claim c :
  refuseUnauthorized claim c = None → ∃ o, authorize claim c = Authorized o.
Proof. unfold refuseUnauthorized. destruct (authorize claim c); eauto; done. Qed.

Lemma good_claimed_update claim f d :
  (∀ o, generation o ≤ generation (f o) ∧ completionEvidence (f o) = completionEvidence o ∧ obligation (f o) = obligation o) →
  good (claimed_update claim f d).
Proof.
  intros Hf. apply good_decide. intros c Hc. unfold refuse, permit, st_ret.
  destruct (refuseUnauthorized claim c) as [r|] eqn:Hr; [refused|]. eexists. split; [reflexivity|].
  apply refuseUnauthorized_none in Hr as (o & Ha). apply authorized_inv in Ha as (Ho & _ & Hau & _).
  exists 0%nat. unfold update_operation. rewrite Ho, Hau. eexists. split; [done|].
  destruct (Hf o) as (Hg & He & Hob). apply (step_operation c o); auto. rewrite Hob. auto.
Qed.

Lemma good_takeOver claimant tok now lease : good (takeOverProviderOperation claimant tok now lease).
Proof.
  apply good_transact. intros c Hc. destruct (operation c) as [o|] eqn:Ho; [|split; [done|by apply step_ok_refl]].
  destruct (isProviderOperationResolved _ _) eqn:Hr; [split; [done|by apply step_ok_refl]|].
  destruct (_ && _); [split; [done|by apply step_ok_refl]|]. unfold st_bind, update_operation. rewrite Ho.
  assert (operationIsUnresolved c = true) as Hu.
  { unfold operationIsUnresolved. rewrite Ho. unfold isProviderOperationResolved in Hr.
    apply andb_false_iff in Hr as [H|H]; apply bool_decide_eq_false in H; apply dec_stable in H; rewrite H; simpl;
      by rewrite ?orb_true_r. }
  rewrite Hu, bool_decide_true by done. simpl. split; [done|].
  apply (step_operation c o); simpl; auto. lia.
Qed.

Lemma good_complete claim e : good (completeProviderOperation claim e).
Proof.
  apply good_transact. intros c Hc. destruct (operation c) as [o|] eqn:Ho; [|split; [done|by apply step_ok_refl]].
  destruct (claimHolds claim c) eqn:Hh; simpl; [|split; [done|by apply step_ok_refl]].
  destruct (isProviderOperationResolved _ _); [split; [done|by apply step_ok_refl]|].
  case_decide as He; [split; [done|by apply step_ok_refl]|]. unfold st_bind, update_operation. rewrite Ho, Hh.
  rewrite bool_decide_true by done. simpl. split; [done|].
  apply (step_operation c o); simpl; auto; [lia|done].
Qed.

Lemma good_beginProvisioning owner p l i cl tok lease : good (beginProvisioning owner p l i cl tok lease).
Proof.
  apply good_decide. intros c Hc. unfold refuse, permit, st_ret. case_decide as Ho; [refused|].
  case_decide as Hact; [refused|]. case_decide as Hs; [refused|].
  destruct (allocationRef (attempt c)) as [r|] eqn:Hal; [refused|].
  destruct (decide (operationStartGate _ = Closed)) as [|Hg]; [refused|]. case_decide as Hp; [refused|].
  eexists. split; [reflexivity|].
  assert (operation c = None) as Hop by by apply (co_operation _ Hc), (co_pending _ Hc).
  assert (isActiveAttemptRow c = true) as Ha by (apply bool_decide_eq_true; by rewrite Ho).
  exists 0%nat. unfold st_bind, update_attempt. rewrite bool_decide_true; [rewrite Ha; simpl; rewrite Hop|].
  2: { split_and!; try done. by destruct (operationStartGate _). }
  eexists. split; [done|]. pose proof (co_pending _ Hc Hp) as Hpr. destruct Hc. split_and!; [| |done].
  - split; simpl; try done.
    + intros Hcl. destruct (co_claimable0 Hcl) as [_ Hst]. congruence.
    + by intros o [= <-].
  - split; simpl; try done. congruence.
Qed.

Lemma good_applyAllocation claim ref rp b : good (applyAllocation claim ref rp b).
Proof.
  apply good_decide. intros c Hc. unfold refuse, permit, st_ret.
  destruct (authorize claim c) as [| | |o] eqn:Ha; [refused|case_decide; [eexists; split; [reflexivity|by left]|refused]..|].
  case_decide as Hp; [eexists; split; [reflexivity|by left]|].
  destruct (allocationRef (attempt c)) as [stored|] eqn:Hal; [refused|]. eexists. split; [reflexivity|].
  apply authorized_inv in Ha as (Ho & _ & Hau & _). exists 0%nat. unfold st_bind, update_attempt.
  rewrite Hal, Hau, bool_decide_true by done. simpl. unfold update_operation. simpl. rewrite Ho. eexists. split; [done|].
  set (c1 := with_attempt _ c).
  assert (step_ok c c1) as Hs1.
  { destruct Hc. split_and!; [| |done].
    - split; simpl; try done.
      + case_decide as Hs; [|done]. by rewrite Hs.
      + intros Hn. destruct (co_closed0 Hn). split; [done|]. rewrite bool_decide_false by done. by rewrite andb_false_r.
      + intros Hs. by rewrite decide_True.
      + intros Hn. apply co_operation0 in Hn. congruence.
      + intros Hst. apply co_pending0. by case_decide.
      + intros Hst. apply co_provisioning0. by case_decide.
      + intros [[_ Hs]%andb_true_iff Hact]%andb_true_iff. apply bool_decide_eq_true in Hs. by rewrite decide_True.
    - split; simpl; try done. auto. }
  eapply step_trans; [exact Hs1|]. apply (step_operation c1 o); simpl; auto; [apply Hs1|lia].
Qed.

Lemma record_evidence_eq claim e c o :
  operation c = Some o → claimHolds claim c = true → completionEvidence o = None →
  record_evidence claim e c = (Ok 1%nat, with_operation (Some (set_debt (obligation o) (failureCount o) (lastFailure o) (Some e) o)) c).
Proof. intros Ho Hh He. unfold record_evidence, update_operation. rewrite Ho, Hh. by rewrite bool_decide_true. Qed.

Lemma good_preallocation claim guard e c o :
  cell_ok c → authorize claim c = Authorized o → allocationRef (attempt c) = None →
  (settlementKind (attempt c) = None → guard c = true) →
  ∃ n c', settleAndCompletePreallocationOperation claim guard e (bool_decide (settlementKind (attempt c) ≠ None)) c
    = (Ok (S n), c') ∧ step_ok c c'.
Proof.
  intros Hc Ha Hal Hg. apply authorized_inv in Ha as (Ho & Hh & _ & Hu). unfold settleAndCompletePreallocationOperation.
  case_bool_decide as Hs.
  - destruct Hu as [He|]; [|done]. rewrite (record_evidence_eq claim e c o) by done. exists 0%nat. eexists. split; [done|].
    apply (step_operation c o); simpl; auto; [lia|done].
  - unfold st_bind. rewrite settleAttempt_eq by auto. simpl.
    set (c1 := with_attempt _ c).
    assert (step_ok c c1) as Hs1.
    { apply step_settle; [done..|]. rewrite (unsettled_no_outcome c) by done. done. }
    destruct (completionEvidence o) as [e0|] eqn:He.
    + unfold record_evidence, update_operation. simpl. rewrite Ho. change (claimHolds claim c1) with (claimHolds claim c).
      rewrite Hh, He. simpl. rewrite Ho, He. simpl. eauto.
    + rewrite (record_evidence_eq claim e c1 o) by done. simpl. exists 0%nat. eexists. split; [done|].
      eapply step_trans; [exact Hs1|]. apply (step_operation c1 o); simpl; auto; [apply Hs1|lia|done].
Qed.

Lemma good_absent owner claim e : good (recordProvisioningAbsent owner claim e).
Proof.
  apply good_decide. intros c Hc. unfold refuse, permit, st_ret.
  destruct (authorize claim c) as [| | |o] eqn:Ha; [refused..|]. case_decide as Ho; [refused|].
  destruct (allocationRef (attempt c)) as [r|] eqn:Hal; [refused|]. eexists. split; [reflexivity|].
  apply (good_preallocation claim _ e c o); try done. intros _. rewrite bool_decide_true by done.
  by apply authorized_inv in Ha as (_ & -> & _).
Qed.

Lemma good_incarnationLost owner claim inc e : good (recordProvisionerIncarnationLost owner claim inc e).
Proof.
  apply good_decide. intros c Hc. unfold refuse, permit, st_ret.
  destruct (authorize claim c) as [| | |o] eqn:Ha; [refused..|]. case_decide as Ho; [refused|].
  destruct (allocationRef (attempt c)) as [r|] eqn:Hal; [refused|].
  destruct (evaluateProvisionerIncarnationLoss _ _ _) as [d|] eqn:He; [refused|]. eexists. split; [reflexivity|].
  unfold evaluateProvisionerIncarnationLoss in He. case_decide; [done|]. case_decide as Hl; [done|].
  case_decide as Hi; [done|].
  assert (provisionerIncarnationId (attempt c) = Some inc) as Hinc.
  { destruct (decide (provisionerIncarnationId (attempt c) = Some inc)); [done|]. exfalso. apply Hi. by right. }
  apply (good_preallocation claim _ e c o); try done. intros _. rewrite bool_decide_true by done.
  by apply authorized_inv in Ha as (_ & -> & _).
Qed.

Lemma good_terminated claim e : good (recordAllocationTerminated claim e).
Proof.
  apply good_decide. intros c Hc. unfold refuse, permit, st_ret.
  destruct (refuseUnauthorized claim c) as [r|] eqn:Hr; [refused|]. case_decide as Hal; [refused|].
  eexists. split; [reflexivity|].
  apply refuseUnauthorized_none in Hr as (o & Ha). apply authorized_inv in Ha as (Ho & _ & Hau & _).
  exists 0%nat. unfold update_operation. rewrite Ho, Hau, bool_decide_true by done. eexists. split; [done|].
  apply (step_operation c o); simpl; auto. lia.
Qed.

Lemma good_infrastructureFailure owner claim : good (recordInfrastructureFailure owner claim).
Proof.
  apply good_decide. intros c Hc. unfold refuse, permit, st_ret.
  destruct (authorize claim c) as [| | |o] eqn:Ha; [refused..|]. case_decide as Ho; [refused|].
  case_decide as Hs; [refused|]. case_decide as Hal; [refused|]. case_decide as Hob; [refused|].
  eexists. split; [reflexivity|]. apply authorized_inv in Ha as (Hop & Hh & _ & _). exists 0%nat.
  rewrite settleAttempt_eq; [|done|].
  - eexists. split; [done|]. apply step_settle; [done..|]. by rewrite (unsettled_no_outcome c).
  - rewrite bool_decide_true by done. unfold allocationTerminated. by rewrite Hop, Hh, bool_decide_true.
Qed.

Lemma good_evolve owner claim cur next : good (evolveAllocationRef owner claim cur next).
Proof.
  apply good_decide. intros c Hc. unfold refuse, permit, st_ret.
  destruct (authorize claim c) as [| | |o] eqn:Ha; [refused..|]. case_decide as Ho; [refused|].
  destruct (allocationRef (attempt c)) as [stored|] eqn:Hal; [|refused].
  destruct (negb _); [refused|]. eexists. split; [reflexivity|].
  apply authorized_inv in Ha as (Hop & _ & Hau & _). exists 0%nat. unfold update_attempt.
  rewrite Hau, bool_decide_true by done. eexists. split; [done|]. destruct Hc. split_and!; [| |done].
  - split; simpl; try done.
    + intros Hs. rewrite (co_allocated0 Hs), Hal. done.
    + intros Hn. specialize (co_unbound0 Hn). congruence.
  - split; simpl; try done. auto.
Qed.

Lemma good_cancel owner key why now : good (requestAttemptCancellation owner key why now).
Proof.
  apply good_transact. intros c Hc. case_decide as Ho; [split; [done|by apply step_ok_refl]|].
  unfold evaluateAttemptCancellation. destruct (cancellation c) as [i|] eqn:Hi.
  - case_decide; (split; [done|by apply step_ok_refl]).
  - split; [done|]. simpl. destruct Hc. split_and!; [| |done].
    + split; simpl; try done. intros Hn. by destruct (co_closed0 Hn).
    + split; simpl; try done; auto.
Qed.

Lemma good_commitOutcome owner t fence : good (commitOutcome owner t fence).
Proof.
  apply good_decide. intros c Hc. unfold refuse, permit, st_ret. case_decide as Hact; [refused|].
  destruct (outcomeText (attempt c)) as [stored|] eqn:Ht; [refused|]. case_decide as Hs; [refused|].
  destruct (runtimeOutcomeFence_holds _ _) eqn:Hf; simpl; [|eexists; split; [reflexivity|by right]].
  eexists. split; [reflexivity|]. exists 0%nat. unfold st_bind, update_attempt. rewrite Ht, Hs, Hf. simpl.
  assert (isActiveAttemptRow c = true) as Ha.
  { apply bool_decide_eq_true. by rewrite (co_pointer _ Hc owner). }
  rewrite Ha. simpl. rewrite settleAttempt_eq by done. eexists. split; [done|].
  change (step_ok c (with_attempt (settled_attempt OutcomeCommitted (Some t) (cancellation c) (attempt c)) c)).
  by apply step_settle.
Qed.

Lemma good_abandon owner : good (abandonPendingAttempt owner).
Proof.
  apply good_decide. intros c Hc. unfold refuse, permit, st_ret. case_decide as Hact; [refused|].
  destruct (status (attempt c)) eqn:Hst; [|refused..]. eexists. split; [reflexivity|].
  assert (settlementKind (attempt c) = None) as Hs.
  { destruct (settlementKind (attempt c)) eqn:E; [|done]. destruct (co_settled _ Hc) as [_ H]. rewrite E, Hst in H.
    by specialize (H ltac:(done)). }
  pose proof (co_pointer _ Hc owner Hact) as Ho. exists 0%nat. rewrite settleAttempt_eq; [|done|].
  - eexists. split; [done|]. apply step_settle; [done..|]. by rewrite (unsettled_no_outcome c).
  - rewrite bool_decide_true by done. apply bool_decide_eq_true. by rewrite Ho.
Qed.

(** ** The database *)
Record Db := {
  attempts : list (string * Attempt);
  operations : list (string * Operation);
  cancellations : list (string * CancellationIntent);
  activeAttempts : list (string * string);
}.
Definition empty_db : Db := {| attempts := []; operations := []; cancellations := []; activeAttempts := [] |}.

Definition cell_of (id : string) (db : Db) : option Cell :=
  (λ a, {| cell_id := id; pointers := activeAttempts db; attempt := a;
           operation := JsMap.get id (operations db); cancellation := JsMap.get id (cancellations db) |})
    <$> JsMap.get id (attempts db).

Definition put_row {V} (id : string) (v : option V) (m : list (string * V)) : list (string * V) :=
  match v with Some v => JsMap.set id v m | None => JsMap.delete id m end.

Definition put_cell (c : Cell) (db : Db) : Db :=
  {| attempts := JsMap.set (cell_id c) (attempt c) (attempts db);
     operations := put_row (cell_id c) (operation c) (operations db);
     cancellations := put_row (cell_id c) (cancellation c) (cancellations db);
     activeAttempts := activeAttempts db |}.

Definition new_attempt (owner : string) (ws : option (list string)) : Attempt :=
  {| executionId := owner; status := Pending; settlementKind := None; allocationRef := None; claimable := false;
     outcomeText := None; outcomeControl := None; control := INITIAL_ATTEMPT_CONTROL_STATE;
     execution := {| workspace := ws; preparationReceipts := [] |}; providerId := None;
     allocationLifetime := None; provisionerIncarnationId := None |}.

(** The attempt a new one of the same owner replaces: the two UPDATEs. *)
Definition supersede (a : Attempt) : Attempt :=
  set_control (close_gate (control a))
    (set_allocation (status a) (allocationRef a) (if decide (status a = Allocated) then false else claimable a) a).

Definition createAttempt (id owner : string) (ws : option (list string)) (db : Db) : outcome AttemptError Db :=
  if JsMap.has id (attempts db) then Throw DuplicateExecutionAttempt
  else
    let inserted := JsMap.set id (new_attempt owner ws) (attempts db) in
    let superseded := match JsMap.get owner (activeAttempts db) with
      | Some previous =>
          match JsMap.get previous inserted with
          | Some a => JsMap.set previous (supersede a) inserted
          | None => inserted
          end
      | None => inserted
      end in
    Ok {| attempts := superseded; operations := operations db; cancellations := cancellations db;
          activeAttempts := JsMap.set owner id (activeAttempts db) |}.

(** Every transition of an existing attempt. *)
Inductive transition : Tx → Prop :=
  | t_registerRuntime owner incarnation : transition (registerRuntime owner incarnation)
  | t_admitOperation owner kind key gen id now : transition (admitOperation owner kind key gen id now)
  | t_reportOperation owner id gen r : transition (reportOperation owner id gen r)
  | t_completeOperation id gen : transition (completeOperation id gen)
  | t_markRuntimeReady owner gen now : transition (markRuntimeReady owner gen now)
  | t_beginProvisioning owner p l i cl tok lease : transition (beginProvisioning owner p l i cl tok lease)
  | t_renew claim lease : transition (renewProviderOperationClaim claim lease)
  | t_handoff claim e : transition (handoffProviderOperation claim e)
  | t_uncertainty claim e : transition (recordProviderOperationUncertainty claim e)
  | t_takeOver cl tok now lease : transition (takeOverProviderOperation cl tok now lease)
  | t_complete claim e : transition (completeProviderOperation claim e)
  | t_applyAllocation claim r rp b : transition (applyAllocation claim r rp b)
  | t_absent owner claim e : transition (recordProvisioningAbsent owner claim e)
  | t_incarnationLost owner claim i e : transition (recordProvisionerIncarnationLost owner claim i e)
  | t_terminated claim e : transition (recordAllocationTerminated claim e)
  | t_infrastructureFailure owner claim : transition (recordInfrastructureFailure owner claim)
  | t_evolve owner claim cur next : transition (evolveAllocationRef owner claim cur next)
  | t_cancel owner key why now : transition (requestAttemptCancellation owner key why now)
  | t_commitOutcome owner text fence : transition (commitOutcome owner text fence)
  | t_abandon owner : transition (abandonPendingAttempt owner).

Inductive db_step : Db → Db → Prop :=
  | d_transition id m c db : transition m → cell_of id db = Some c → db_step db (put_cell (m c).2 db)
  | d_create id owner ws db db' : createAttempt id owner ws db = Ok db' → db_step db db'.

Lemma transition_good m : transition m → good m.
Proof.
  destruct 1; eauto using good_registerRuntime, good_admitOperation, good_reportOperation, good_completeOperation,
    good_markRuntimeReady, good_beginProvisioning, good_takeOver, good_complete, good_applyAllocation, good_absent,
    good_incarnationLost, good_terminated, good_infrastructureFailure, good_evolve, good_cancel, good_commitOutcome,
    good_abandon; apply good_claimed_update; intros o; simpl; split_and!; done || lia.
Qed.

Record db_ok (db : Db) : Prop := {
  do_cells : ∀ id c, cell_of id db = Some c → cell_ok c;
  do_operations : ∀ id, JsMap.get id (attempts db) = None →
    JsMap.get id (operations db) = None ∧ JsMap.get id (cancellations db) = None;
  do_pointers : ∀ owner id, JsMap.get owner (activeAttempts db) = Some id → JsMap.get id (attempts db) ≠ None;
}.

Lemma get_put_row {V} id id' (v : option V) m :
  JsMap.get id' (put_row id v m) = if decide (id = id') then v else JsMap.get id' m.
Proof. destruct v; simpl; [apply JsMap.get_set|apply JsMap.get_delete]. Qed.

Lemma cell_put id c db :
  pointers c = activeAttempts db →
  cell_of id (put_cell c db) = if decide (cell_id c = id) then Some c else cell_of id db.
Proof.
  intros Hp. unfold cell_of. simpl. rewrite JsMap.get_set, !get_put_row. case_decide as He; [|done]. subst id. simpl.
  rewrite <- Hp. by destruct c.
Qed.

Lemma cell_of_fields id db c : cell_of id db = Some c → cell_id c = id ∧ pointers c = activeAttempts db ∧
  JsMap.get id (attempts db) = Some (attempt c).
Proof. unfold cell_of. destruct (JsMap.get id (attempts db)); [|done]. by intros [= <-]. Qed.

(** Attempts are kept, and each evolves. *)
Definition db_evolves (db db' : Db) : Prop :=
  ∀ id c, cell_of id db = Some c → ∃ c', cell_of id db' = Some c' ∧ evolves c c'.

Lemma db_ok_transition id m c db :
  transition m → cell_of id db = Some c → db_ok db →
  db_ok (put_cell (m c).2 db) ∧ db_evolves db (put_cell (m c).2 db).
Proof.
  intros Hm Hcell [Hc Hops Hptr]. destruct (cell_of_fields _ _ _ Hcell) as (Hid & Hp & Hg).
  destruct (transition_good m Hm c (Hc id c Hcell)) as [_ (Hc' & He & Hp')].
  pose proof (ev_id _ _ He) as Hid'. rewrite Hid in Hid'.
  split; [split|].
  - intros i ci. rewrite cell_put by congruence. case_decide; [intros [= <-]; done|apply Hc].
  - intros i. simpl. rewrite JsMap.get_set, !get_put_row. case_decide; [done|apply Hops].
  - intros owner i Hi. simpl. rewrite JsMap.get_set. case_decide; [done|by apply (Hptr owner)].
  - intros i ci Hci. rewrite cell_put by congruence. case_decide as Hd; [|by exists ci].
    rewrite <- Hd, Hid' in Hci. rewrite Hcell in Hci. injection Hci as <-. eauto.
Qed.

Lemma cell_ok_new id owner ws ptrs :
  (∀ o, JsMap.get o ptrs ≠ Some id) →
  cell_ok {| cell_id := id; pointers := JsMap.set owner id ptrs; attempt := new_attempt owner ws;
             operation := None; cancellation := None |}.
Proof.
  intros Hfresh. split; simpl; try done.
  - by left.
  - unfold isActiveAttemptRow, readActiveAttemptId. simpl. by rewrite JsMap.get_set_eq, bool_decide_true.
  - intros o. unfold readActiveAttemptId. simpl. rewrite JsMap.get_set. case_decide; [done|]. intros Ho. by destruct (Hfresh o).
Qed.

(** What happens to the other attempts when [owner] gets the new attempt [id]. *)
Lemma cell_ok_superseded owner id c (previous : bool) :
  cell_ok c → cell_id c ≠ id →
  previous = bool_decide (JsMap.get owner (pointers c) = Some (cell_id c)) →
  let c' := {| cell_id := cell_id c; pointers := JsMap.set owner id (pointers c);
               attempt := if previous then supersede (attempt c) else attempt c;
               operation := operation c; cancellation := cancellation c |} in
  cell_ok c' ∧ evolves c c'.
Proof.
  intros [] Hne Hprev c'.
  assert (isActiveAttemptRow c' = true → isActiveAttemptRow c = true ∧ previous = false) as Hact.
  { unfold isActiveAttemptRow, readActiveAttemptId. simpl. intros H%bool_decide_eq_true.
    assert (executionId (attempt c') = executionId (attempt c)) as He by (simpl; by destruct previous).
    simpl in He. rewrite He in H. rewrite JsMap.get_set in H. case_decide as Ho; [congruence|].
    split; [by apply bool_decide_eq_true|]. rewrite Hprev. apply bool_decide_eq_false. intros Hp.
    apply Ho. symmetry. by apply co_pointer0. }
  assert (previous = false → isActiveAttemptRow c' = false → isActiveAttemptRow c = false) as Hinact.
  { intros Hp. unfold isActiveAttemptRow, readActiveAttemptId. simpl. rewrite Hp. rewrite JsMap.get_set.
    rewrite Hp in Hprev. symmetry in Hprev. apply bool_decide_eq_false in Hprev.
    case_decide as Ho; [|done]. intros _. apply bool_decide_eq_false. by rewrite <- Ho. }
  assert (∀ o, readActiveAttemptId o c' = Some (cell_id c) → executionId (attempt c) = o) as Hptr.
  { intros o. unfold readActiveAttemptId. simpl. rewrite JsMap.get_set. destruct (decide (owner = o)); [intros [= ?]; congruence|apply co_pointer0]. }
  destruct previous.
  - split; [|split; simpl; try done; auto]. split; simpl; try done.
    + intros H. destruct (co_closed0 H) as [_ Hcl]. split; [done|]. by destruct (decide (status _ = Allocated)).
    + intros Hcl. exfalso. destruct (decide (status _ = Allocated)) as [|Hst]; [done|].
      by destruct (co_claimable0 Hcl).
  - split; [|split; simpl; try done; auto]. split; simpl; try done.
    + intros H. by apply co_superseded0, Hinact.
    + intros Hcl. destruct (co_claimable0 Hcl) as [Ha Hst]. split; [|done].
      destruct (isActiveAttemptRow c') eqn:E; [done|]. by rewrite Hinact in Ha.
Qed.

Lemma createAttempt_cells id owner ws db db' :
  createAttempt id owner ws db = Ok db' → db_ok db →
  cell_of id db = None ∧
  cell_of id db' = Some {| cell_id := id; pointers := JsMap.set owner id (activeAttempts db);
    attempt := new_attempt owner ws; operation := None; cancellation := None |} ∧
  (∀ i, i ≠ id → cell_of i db' = (λ c, {| cell_id := i; pointers := JsMap.set owner id (activeAttempts db);
     attempt := if bool_decide (JsMap.get owner (activeAttempts db) = Some i) then supersede (attempt c) else attempt c;
     operation := operation c; cancellation := cancellation c |}) <$> cell_of i db).
Proof.
  unfold createAttempt, JsMap.has. destruct (JsMap.get id (attempts db)) eqn:Hg; [done|]. intros [= <-] [Hc Hops Hptr].
  destruct (Hops id Hg) as [Ho Hca].
  split; [unfold cell_of; by rewrite Hg|]. unfold cell_of. simpl.
  destruct (JsMap.get owner (activeAttempts db)) as [previous|] eqn:Hprev.
  - assert (previous ≠ id) as Hne by (intros ->; by apply (Hptr owner id)).
    pose proof (Hptr owner previous Hprev) as Hp. destruct (JsMap.get previous (attempts db)) as [a|] eqn:Ha; [|done].
    rewrite (JsMap.get_set_ne id previous) by done. rewrite Ha. split.
    + rewrite JsMap.get_set_ne, JsMap.get_set_eq by done. simpl. by rewrite Ho, Hca.
    + intros i Hi. rewrite !JsMap.get_set. case_decide as He.
      * subst i. rewrite Ha. simpl. by rewrite bool_decide_true.
      * rewrite decide_False by done. destruct (JsMap.get i (attempts db)); [|done]. simpl.
        rewrite bool_decide_false by congruence. done.
  - split.
    + rewrite JsMap.get_set_eq. simpl. by rewrite Ho, Hca.
    + intros i Hi. rewrite JsMap.get_set_ne by done. by destruct (JsMap.get i (attempts db)).
Qed.

Lemma db_ok_create id owner ws db db' :
  createAttempt id owner ws db = Ok db' → db_ok db → db_ok db' ∧ db_evolves db db'.
Proof.
  intros Hcr Hok. destruct (createAttempt_cells _ _ _ _ _ Hcr Hok) as (Hnone & Hid & Hother).
  assert (∀ o, JsMap.get o (activeAttempts db) ≠ Some id) as Hfresh.
  { intros o Ho. apply (do_pointers _ Hok o id Ho). unfold cell_of in Hnone. by destruct (JsMap.get id (attempts db)). }
  assert (∀ i c, i ≠ id → cell_of i db = Some c → ∃ c', cell_of i db' = Some c' ∧ cell_ok c' ∧ evolves c c') as Hold.
  { intros i c Hi Hci. rewrite Hother, Hci by done. simpl. eexists. split; [done|].
    destruct (cell_of_fields _ _ _ Hci) as (Hcid & Hp & _).
    pose proof (cell_ok_superseded owner id c _ (do_cells _ Hok i c Hci) ltac:(congruence) eq_refl) as Hs.
    simpl in Hs. by rewrite Hcid, Hp in Hs. }
  split; [split|].
  - intros i c Hci. destruct (decide (i = id)) as [->|Hi].
    + rewrite Hid in Hci. injection Hci as <-. by apply cell_ok_new.
    + pose proof (Hother i Hi) as Ho. rewrite Hci in Ho. destruct (cell_of i db) as [c0|] eqn:Hc0; [|done].
      destruct (Hold i c0 Hi Hc0) as (c' & Hc' & Hok' & _). rewrite Hci in Hc'. by injection Hc' as <-.
  - intros i Hi. assert (i ≠ id) as Hne by (intros ->; unfold cell_of in Hid; by rewrite Hi in Hid).
    pose proof (Hother i Hne) as Ho. unfold cell_of in Ho. rewrite Hi in Ho.
    assert (JsMap.get i (attempts db) = None) as Hi0 by by destruct (JsMap.get i (attempts db)).
    destruct (do_operations _ Hok i Hi0) as [H1 H2]. unfold createAttempt in Hcr.
    destruct (JsMap.has id (attempts db)); [done|]. by injection Hcr as <-.
  - intros o i Ho. assert (activeAttempts db' = JsMap.set owner id (activeAttempts db)) as Hact.
    { unfold createAttempt in Hcr. destruct (JsMap.has id (attempts db)); [done|]. by injection Hcr as <-. }
    rewrite Hact, JsMap.get_set in Ho. assert (cell_of i db' ≠ None) as Hn.
    { case_decide; [injection Ho as <-; by rewrite Hid|].
      destruct (decide (i = id)) as [->|Hi]; [by rewrite Hid|]. rewrite Hother by done.
      pose proof (do_pointers _ Hok o i Ho) as Hp. unfold cell_of. by destruct (JsMap.get i (attempts db)). }
    unfold cell_of in Hn. by destruct (JsMap.get i (attempts db')).
  - intros i c Hci. destruct (decide (i = id)) as [->|Hi]; [congruence|].
    destruct (Hold i c Hi Hci) as (c' & ? & _ & ?). eauto.
Qed.

#[export] Instance db_evolves_preorder : PreOrder db_evolves.
Proof.
  split; [intros db id c Hc; by exists c|]. intros d1 d2 d3 H12 H23 id c Hc.
  destruct (H12 id c Hc) as (c2 & Hc2 & He). destruct (H23 id c2 Hc2) as (c3 & Hc3 & He'). exists c3. split; [done|]. by etrans.
Qed.

Lemma db_ok_empty : db_ok empty_db.
Proof. by split. Qed.

Lemma db_reachable db db' : rtc db_step db db' → db_ok db → db_ok db' ∧ db_evolves db db'.
Proof.
  induction 1 as [db|db db1 db' Hs _ IH]; intros Hok; [by split|].
  assert (db_ok db1 ∧ db_evolves db db1) as [Hok1 He].
  { destruct Hs; [by apply (db_ok_transition id)|by eapply db_ok_create]. }
  destruct (IH Hok1) as [? ?]. split; [done|by etrans].
Qed.

(** ** Transitions made on behalf of a claim *)
Inductive claimed_by (claim : ProviderOperationClaim) : Tx → Prop :=
  | cb_renew lease : claimed_by claim (renewProviderOperationClaim claim lease)
  | cb_handoff e : claimed_by claim (handoffProviderOperation claim e)
  | cb_uncertainty e : claimed_by claim (recordProviderOperationUncertainty claim e)
  | cb_complete e : claimed_by claim (completeProviderOperation claim e)
  | cb_applyAllocation r rp b : claimed_by claim (applyAllocation claim r rp b)
  | cb_absent owner e : claimed_by claim (recordProvisioningAbsent owner claim e)
  | cb_incarnationLost owner i e : claimed_by claim (recordProvisionerIncarnationLost owner claim i e)
  | cb_terminated e : claimed_by claim (recordAllocationTerminated claim e)
  | cb_infrastructureFailure owner : claimed_by claim (recordInfrastructureFailure owner claim)
  | cb_evolve owner cur next : claimed_by claim (evolveAllocationRef owner claim cur next).

Definition refused_claim (r : outcome AttemptError Decision) : Prop :=
  match r with
  | Ok Stale | Ok (StaleRef _) | Ok (Resolved _) | Throw ProviderMismatch => True
  | _ => False
  end.

Lemma authorize_stale claim c o :
  operation c = Some o → generation o ≠ claimGeneration claim →
  authorize claim c = ClaimResolved ∨ authorize claim c = ClaimStale.
Proof.
  intros Ho Hg. unfold authorize. rewrite Ho. destruct (isProviderOperationResolved _ _); [by left|]. right.
  rewrite decide_True; [done|auto].
Qed.

Lemma stale_refused claim m c o :
  claimed_by claim m → operation c = Some o → generation o ≠ claimGeneration claim →
  (m c).2 = c ∧ refused_claim (m c).1.
Proof.
  intros Hm Ho Hg. pose proof (authorize_stale claim c o Ho Hg) as Ha.
  destruct Hm as [lease|e|e|e|r rp b|owner e|owner i e|e|owner|owner cur next].
  4: { unfold completeProviderOperation, transact. rewrite Ho.
       assert (claimHolds claim c = false) as ->; [|done].
       unfold claimHolds. rewrite Ho. apply bool_decide_eq_false. naive_solver. }
  all: unfold renewProviderOperationClaim, handoffProviderOperation, recordProviderOperationUncertainty,
    claimed_update, applyAllocation, recordProvisioningAbsent, recordProvisionerIncarnationLost,
    recordAllocationTerminated, recordInfrastructureFailure, evolveAllocationRef, transact, decideByWrite, st_bind,
    refuse, st_ret, refuseUnauthorized.
  all: destruct Ha as [-> | ->]; simpl; try done; destruct (decide (providerId (attempt c) ≠ Some rp)); done.
Qed.

(** *** Properties *)

(** Every transition of every reachable attempt answers with a decision,
    unless the caller presented another provider's allocation or an outdated
    runtime fence: a guarded write never fails where its decision permitted it,
    and no transition leaves an attempt half settled. *)
Theorem transitions_answer (db : Db) (Hr : rtc db_step empty_db db) (id : string) (c : Cell)
    (Hc : cell_of id db = Some c) (m : Tx) (Hm : transition m) :
  (∃ d, (m c).1 = Ok d) ∨ (m c).1 = Throw ProviderMismatch ∨ (m c).1 = Throw RuntimeOutcomeFenceMismatch.
Proof.
  destruct (db_reachable _ _ Hr db_ok_empty) as [Hok _].
  destruct (transition_good m Hm c (do_cells _ Hok id c Hc)) as [He _].
  destruct (m c) as [[d|e] c']; simpl in *; [eauto|]. destruct He as [-> | ->]; auto.
Qed.

(** History is final: whatever happens later, an attempt keeps its
    settlement, its outcome with the cancellation observed at commit, its
    provider binding, the fact of its allocation, its instruction, its
    cancellation and its completion evidence; a closed gate stays closed,
    receipts are only added, and generations never decrease. *)
Theorem attempt_history_is_final (db db' : Db) (Hr : rtc db_step empty_db db) (Hr' : rtc db_step db db')
    (id : string) (c : Cell) (Hc : cell_of id db = Some c) :
  ∃ c', cell_of id db' = Some c' ∧ evolves c c'.
Proof.
  destruct (db_reachable _ _ Hr db_ok_empty) as [Hok _]. destruct (db_reachable _ _ Hr' Hok) as [_ He]. by apply He.
Qed.

(** C8: a claim that was taken over is powerless for ever: once the operation
    has a later generation, nothing done in its name ever changes the attempt,
    and it is told so. *)
Theorem stale_claim_is_powerless (db db' : Db) (Hr : rtc db_step empty_db db) (Hr' : rtc db_step db db')
    (id : string) (c c' : Cell) (o : Operation) (claim : ProviderOperationClaim)
    (Hc : cell_of id db = Some c) (Ho : operation c = Some o) (Hg : claimGeneration claim < generation o)
    (Hc' : cell_of id db' = Some c') (m : Tx) (Hm : claimed_by claim m) :
  (m c').2 = c' ∧ refused_claim (m c').1.
Proof.
  destruct (db_reachable _ _ Hr db_ok_empty) as [Hok _]. destruct (db_reachable _ _ Hr' Hok) as [_ He].
  destruct (He id c Hc) as (c1 & Hc1 & Hev). rewrite Hc' in Hc1. injection Hc1 as <-.
  destruct (ev_operation _ _ Hev o Ho) as (o' & Ho' & Hle & _). apply (stale_refused claim m c' o' Hm Ho'). lia.
Qed.

(** C16: outcomes are committed exactly once: after one was accepted, every
    later submission leaves the attempt unchanged; it is a duplicate, answered
    with the committed outcome, exactly if it is the same JSON value. *)
Theorem outcome_committed_once (db db' : Db) (Hr : rtc db_step empty_db db) (Hr' : rtc db_step db db')
    (id : string) (c c' : Cell) (text : json) (Hc : cell_of id db = Some c) (Ht : outcomeText (attempt c) = Some text)
    (Hc' : cell_of id db' = Some c') (owner : string) (text' : json) (fence : option RuntimeOutcomeFence) :
  commitOutcome owner text' fence c' =
    (Ok (if decide (readActiveAttemptId owner c' = Some id) then
           if same_json text text' then OutcomeDuplicate text (outcomeControl (attempt c)) else OutcomeConflict
         else Fenced), c').
Proof.
  destruct (db_reachable _ _ Hr db_ok_empty) as [Hok _]. destruct (db_reachable _ _ Hr' Hok) as [_ He].
  destruct (He id c Hc) as (c1 & Hc1 & Hev). rewrite Hc' in Hc1. injection Hc1 as <-.
  destruct (ev_outcome _ _ Hev ltac:(by rewrite Ht)) as [Ht' Hctl]. rewrite Ht in Ht'.
  destruct (cell_of_fields _ _ _ Hc') as (Hid & _). unfold commitOutcome, transact, decideByWrite, st_bind, refuse, st_ret.
  rewrite Hid, Ht', Hctl. destruct (decide (readActiveAttemptId owner c' = Some id)) as [Ha|Ha].
  - by rewrite decide_False by naive_solver.
  - by rewrite decide_True.
Qed.

(** C34: work only runs where it may: in every reachable state, an active
    workload or workflow operation runs on the current runtime generation,
    whose readiness was accepted, with an accepted preparation of that
    generation if the instruction has a workspace. *)
Theorem workload_runs_prepared (db : Db) (Hr : rtc db_step empty_db db) (id : string) (c : Cell)
    (Hc : cell_of id db = Some c) (kind : OperationKind) (Hk : kind = WorkloadInvocation ∨ kind = WorkflowRun)
    (Ha : activeOperationKind (activeOperation (control (attempt c))) = Some kind) :
  activeOperationGeneration (activeOperation (control (attempt c))) = Some (runtimeGeneration (control (attempt c))) ∧
  runtimeReadyAt (control (attempt c)) ≠ None ∧
  (workspace (execution (attempt c)) ≠ None →
   ∃ r, r ∈ preparationReceipts (execution (attempt c)) ∧ receiptGeneration r = runtimeGeneration (control (attempt c))).
Proof.
  destruct (db_reachable _ _ Hr db_ok_empty) as [Hok _].
  destruct (co_slot _ (do_cells _ Hok id c Hc)) as [Hn|(i & kd & key & at_ & Heq & Hready & Hprep)].
  { by rewrite Hn in Ha. }
  rewrite Heq in *. simpl in *. injection Ha as ->. split_and!; [done|apply Hready; by destruct Hk as [-> | ->]|].
  intros Hw. specialize (Hprep Hk ltac:(by apply bool_decide_eq_true)).
  unfold prepared in Hprep. apply existsb_exists in Hprep as (r & Hin & Hg). exists r.
  apply bool_decide_eq_true in Hg. by rewrite list_elem_of_In.
Qed.

(** An owner never has two attempts that a worker could claim, and a
    superseded attempt admits no operation any more. *)
Theorem one_claimable_attempt (db : Db) (Hr : rtc db_step empty_db db) (i j : string) (ci cj : Cell)
    (Hi : cell_of i db = Some ci) (Hj : cell_of j db = Some cj)
    (Ho : executionId (attempt ci) = executionId (attempt cj)) (Hci : claimable (attempt ci) = true) (Hij : i ≠ j) :
  claimable (attempt cj) = false ∧ operationStartGate (control (attempt cj)) = Closed.
Proof.
  destruct (db_reachable _ _ Hr db_ok_empty) as [Hok _].
  pose proof (do_cells _ Hok i ci Hi) as Hoki. pose proof (do_cells _ Hok j cj Hj) as Hokj.
  destruct (co_claimable _ Hoki Hci) as [Ha _]. destruct (cell_of_fields _ _ _ Hi) as (Hidi & Hpi & _).
  destruct (cell_of_fields _ _ _ Hj) as (Hidj & Hpj & _).
  assert (isActiveAttemptRow cj = false) as Hn.
  { apply bool_decide_eq_false. unfold isActiveAttemptRow in Ha. apply bool_decide_eq_true in Ha.
    unfold readActiveAttemptId in *. rewrite <- Ho, Hpj, Hidj. rewrite Hpi, Hidi in Ha. congruence. }
  split; [|by apply (co_superseded _ Hokj)]. destruct (claimable (attempt cj)) eqn:E; [|done].
  destruct (co_claimable _ Hokj E). congruence.
Qed.

(** *** Witnesses *)
Definition run (id : string) (m : Tx) (db : Db) : Db :=
  match cell_of id db with Some c => put_cell (m c).2 db | None => db end.

Lemma run_step id m db : transition m → rtc db_step db (run id m db).
Proof.
  intros Hm. unfold run. destruct (cell_of id db) as [c|] eqn:Hc; [|done]. apply rtc_once. by apply (d_transition id).
Qed.

Definition demo_claim (g : Z) : ProviderOperationClaim := {| claimGeneration := g; claimOwner := "w"; claimToken := "k" |}.
Definition demo_ref : json := JObj [("id", JNum 7)].
Definition demo_created : Db := match createAttempt "a" "o" None empty_db with Ok db => db | Throw _ => empty_db end.
Definition demo_allocated : Db :=
  run "a" (applyAllocation (demo_claim 1) demo_ref "p" true)
    (run "a" (beginProvisioning "o" "p" ProviderManaged "i" "w" "k" 10) demo_created).
Definition demo_ready : Db := run "a" (markRuntimeReady "o" 1 20) (run "a" (registerRuntime "o" "r") demo_allocated).
Definition demo_running : Db := run "a" (admitOperation "o" WorkflowRun "key" 1 "op" 30) demo_ready.
Definition demo_outcome : json := JObj [("x", JNum 1); ("y", JNull)].
Definition demo_settled : Db := run "a" (commitOutcome "o" demo_outcome None) demo_running.
Definition demo_taken_over : Db := run "a" (takeOverProviderOperation "v" "l" 50 60) demo_allocated.

Lemma demo_allocated_reachable : rtc db_step empty_db demo_allocated.
Proof.
  unfold demo_allocated. etrans; [|apply run_step; constructor].
  etrans; [|apply run_step; constructor]. apply rtc_once. by apply (d_create "a" "o" None).
Qed.

Lemma demo_running_reachable : rtc db_step empty_db demo_running.
Proof.
  unfold demo_running, demo_ready. etrans; [|apply run_step; constructor].
  etrans; [|apply run_step; constructor]. etrans; [|apply run_step; constructor].
  exact demo_allocated_reachable.
Qed.

Definition demo_cell (db : Db) : Cell :=
  match cell_of "a" db with
  | Some c => c
  | None => {| cell_id := ""; pointers := []; attempt := new_attempt "" None; operation := None; cancellation := None |}
  end.

Lemma transitions_answer_witness :
  (∃ d, (completeOperation "op" 1 (demo_cell demo_running)).1 = Ok d) ∨
  (completeOperation "op" 1 (demo_cell demo_running)).1 = Throw ProviderMismatch ∨
  (completeOperation "op" 1 (demo_cell demo_running)).1 = Throw RuntimeOutcomeFenceMismatch.
Proof.
  apply (transitions_answer demo_running demo_running_reachable "a"); [reflexivity|constructor].
Defined.

Lemma attempt_history_is_final_witness :
  ∃ c', cell_of "a" demo_settled = Some c' ∧ evolves (demo_cell demo_running) c'.
Proof.
  apply (attempt_history_is_final demo_running demo_settled demo_running_reachable); [|reflexivity].
  apply run_step. constructor.
Defined.

Lemma stale_claim_is_powerless_witness :
  (recordAllocationTerminated (demo_claim 1) JNull (demo_cell demo_taken_over)).2 = demo_cell demo_taken_over ∧
  refused_claim (recordAllocationTerminated (demo_claim 1) JNull (demo_cell demo_taken_over)).1.
Proof.
  assert (rtc db_step empty_db demo_taken_over) as Hr.
  { etrans; [exact demo_allocated_reachable|]. apply run_step. constructor. }
  refine (stale_claim_is_powerless demo_taken_over demo_taken_over Hr (rtc_refl _ _) "a" (demo_cell demo_taken_over)
    (demo_cell demo_taken_over) _ (demo_claim 1) eq_refl eq_refl _ eq_refl _ _); [reflexivity|constructor].
Defined.

Lemma outcome_committed_once_witness :
  commitOutcome "o" (JObj [("y", JNull); ("x", JNum 1)]) None (demo_cell demo_settled) =
    (Ok (OutcomeDuplicate demo_outcome None), demo_cell demo_settled).
Proof.
  assert (rtc db_step empty_db demo_settled) as Hr.
  { etrans; [exact demo_running_reachable|]. apply run_step. constructor. }
  assert (cell_of "a" demo_settled = Some (demo_cell demo_settled)) as Hc by (vm_compute; reflexivity).
  assert (outcomeText (attempt (demo_cell demo_settled)) = Some demo_outcome) as Ht by (vm_compute; reflexivity).
  etrans; [exact (outcome_committed_once _ _ Hr (rtc_refl _ _) _ _ _ _ Hc Ht Hc "o"
    (JObj [("y", JNull); ("x", JNum 1)]) None)|].
  vm_compute. reflexivity.
Defined.

Lemma workload_runs_prepared_witness :
  runtimeReadyAt (control (attempt (demo_cell demo_running))) ≠ None.
Proof.
  apply (workload_runs_prepared demo_running demo_running_reachable "a" (demo_cell demo_running) eq_refl WorkflowRun
    (or_intror eq_refl) eq_refl).
Defined.

Definition demo_two : Db :=
  let db := match createAttempt "b" "o" None demo_created with Ok db => db | Throw _ => demo_created end in
  run "b" (applyAllocation (demo_claim 1) demo_ref "p" true)
    (run "b" (beginProvisioning "o" "p" ProviderManaged "i" "w" "k" 10) db).

Lemma demo_two_reachable : rtc db_step empty_db demo_two.
Proof.
  unfold demo_two. etrans; [|apply run_step; constructor]. etrans; [|apply run_step; constructor].
  eapply rtc_l; [by apply (d_create "a" "o" None)|]. apply rtc_once. by apply (d_create "b" "o" None).
Qed.

Definition cell_in (id : string) (db : Db) : Cell := default (demo_cell db) (cell_of id db).

Lemma one_claimable_attempt_witness :
  claimable (attempt (cell_in "a" demo_two)) = false ∧
  operationStartGate (control (attempt (cell_in "a" demo_two))) = Closed.
Proof.
  apply (one_claimable_attempt demo_two demo_two_reachable "b" "a" (cell_in "b" demo_two) (cell_in "a" demo_two));
    reflexivity || done.
Defined.
