(* ===== verification/Ownership.v ===== *)
(** * Session ownership: rows and operations

    [services/core/src/session/storage]: the in-memory ownership store
    ([memory-store.ts], [ownership-memory-rows.ts], [ownership-memory-claim.ts],
    [ownership-memory-settle.ts], [ownership-memory-handler.ts]), the recovery
    guard ([ownership-recovery-guard.ts]), and the writes of the neighbouring
    session and agent stores that touch the same rows
    ([agent-memory-handler.ts], [memory-handler.ts]).

    A row carries the columns these operations read or write; the others are
    left out. Every handler is synchronous, so an operation is a function on the
    store; [now] is its instant and [uuid] the identifier it mints. *)
From S2P Require Import Prelude.

(** ** Rows *)
Inductive AgentStatus := Starting | Idle | Active | Dead | Disposed.
Inductive SessionStatus := SessionActive | SessionClosed | SessionArchived | SessionDiscovered.
Inductive ClaimStatus := Held | Releasing | Abandoned.
Inductive CurrencyState := Inherited | Confirmed | Moved.
Inductive OwnershipTopology := MachineExclusive | SharedMachine.
#[export] Instance AgentStatus_eq_dec : EqDecision AgentStatus. Proof. solve_decision. Defined.
#[export] Instance SessionStatus_eq_dec : EqDecision SessionStatus. Proof. solve_decision. Defined.
#[export] Instance ClaimStatus_eq_dec : EqDecision ClaimStatus. Proof. solve_decision. Defined.
#[export] Instance CurrencyState_eq_dec : EqDecision CurrencyState. Proof. solve_decision. Defined.
#[export] Instance OwnershipTopology_eq_dec : EqDecision OwnershipTopology. Proof. solve_decision. Defined.

Record Claim := {
  claimId : string; machineId : string; adapterId : string; adapterName : string; providerSessionId : string;
  claimSessionId : string; claimAgentId : string; ownerInstanceId : option string; claimToken : string;
  fence : Z; claimStatus : ClaimStatus; claimedAt : Z; updatedAt : Z;
}.

(** [runtimeOwner]: machine and process. *)
Record Agent := {
  agentId : string; agentSessionId : string; status : AgentStatus; agentAdapterId : string;
  runtimeOwner : option (string * string); recoveryAttemptId : option string;
  agentOrigin : option string; agentCurrent : option string; agentCurrentState : option CurrencyState;
  revision : option Z; currencyFence : option Z; lastActivityAt : Z;
}.

Record Session := {
  sessionStatus : SessionStatus; leadAgentId : option string;
  sessionOrigin : option string; sessionCurrent : option string; sessionCurrentState : option CurrencyState;
}.

Record RuntimeInstance := {
  instanceId : string; instanceMachineId : string; incarnation : Z; startedAt : Z; retiredAt : option Z;
}.

Record Store := {
  sessions : list (string * Session);
  agents : list (string * Agent);
  claims : list (string * Claim);
  runtimeInstances : list (string * RuntimeInstance);
}.
Definition empty_store : Store := {| sessions := []; agents := []; claims := []; runtimeInstances := [] |}.

Record CurrencySnapshot := { origin : option string; current : option string; currentState : CurrencyState }.
Record CurrencyTarget := { targetId : option string; targetState : CurrencyState }.
#[export] Instance CurrencySnapshot_eq_dec : EqDecision CurrencySnapshot. Proof. solve_decision. Defined.

(** The binding is adapter, machine and process. *)
Record RecoveryPreimage := {
  preStatus : AgentStatus; preAdapterId : string; preBinding : option (string * string * string);
  preAttemptId : option string;
}.
Record OwnerGeneration := {
  genClaimId : string; genToken : string; genFence : Z; genOwner : option string; genStatus : ClaimStatus;
}.
#[export] Instance OwnerGeneration_eq_dec : EqDecision OwnerGeneration. Proof. solve_decision. Defined.

Record RecoveryGuard := {
  expectedStatus : AgentStatus; expectedPreimage : RecoveryPreimage; expectedRevision : Z;
  expectedCurrencyFence : Z; expectedCurrency : CurrencySnapshot; ownerGeneration : option OwnerGeneration;
}.

Record Designation := { expectedLeadAgentId : option string; clear : bool; restore : bool }.

Record ClaimRequest := {
  rqMachineId : string; rqAdapterId : string; rqAdapterName : string; rqProvider : option string;
  rqOwner : option string; rqTopology : OwnershipTopology; rqGuard : option RecoveryGuard;
  rqAttempt : option string; rqSessionId : string; rqAgentId : string; rqToken : string;
  rqSupersedes : option string; rqDesignate : option Designation;
}.

Inductive MissingRow := MissingSession | MissingAgent.
Inductive ClaimResult :=
  | Claimed (claim : option Claim) (recovery : option (string * RecoveryPreimage)) (leadDesignated : bool)
            (previousLead : option string)
  | Idempotent (claim : option Claim) (recovery : option (string * RecoveryPreimage)) (leadDesignated : bool)
               (previousLead : option string)
  | AlreadyClaimed (holder : Claim)
  | AgentDisposed
  | SessionNotActive (s : SessionStatus)
  | LeadConflict (currentLead : option string)
  | NotFoundRow (missing : MissingRow)
  | RecoveryCurrencyChanged (rev fen : Z) (cur : CurrencySnapshot)
  | RecoveryConflict (s : AgentStatus) (gen : option OwnerGeneration).

Inductive OwnershipError :=
  | InvalidRequest | TokenInUse (token : string) | MissingOwnerInstance | MissingAttemptId | PairingViolated.

Definition Op := ST Store OwnershipError.
Definition gets {A} (f : Store → A) : Op A := λ st, (Ok (f st), st).
Definition modify (f : Store → Store) : Op unit := λ st, (Ok tt, f st).

Definition with_claims (m : list (string * Claim)) (st : Store) : Store :=
  {| sessions := sessions st; agents := agents st; claims := m; runtimeInstances := runtimeInstances st |}.
Definition with_instances (m : list (string * RuntimeInstance)) (st : Store) : Store :=
  {| sessions := sessions st; agents := agents st; claims := claims st; runtimeInstances := m |}.
Definition with_agents (m : list (string * Agent)) (st : Store) : Store :=
  {| sessions := sessions st; agents := m; claims := claims st; runtimeInstances := runtimeInstances st |}.
Definition with_sessions (m : list (string * Session)) (st : Store) : Store :=
  {| sessions := m; agents := agents st; claims := claims st; runtimeInstances := runtimeInstances st |}.

Definition put_claim (c : Claim) (st : Store) : Store := with_claims (JsMap.set (claimId c) c (claims st)) st.
Definition drop_claim (id : string) (st : Store) : Store := with_claims (JsMap.delete id (claims st)) st.
Definition put_agent (id : string) (a : Agent) (st : Store) : Store := with_agents (JsMap.set id a (agents st)) st.
Definition put_session (id : string) (s : Session) (st : Store) : Store :=
  with_sessions (JsMap.set id s (sessions st)) st.

Definition set_lifecycle (s : AgentStatus) (adapter : string) (owner : option (string * string))
    (attempt : option string) (now : Z) (a : Agent) : Agent :=
  {| agentId := agentId a; agentSessionId := agentSessionId a; status := s; agentAdapterId := adapter;
     runtimeOwner := owner; recoveryAttemptId := attempt; agentOrigin := agentOrigin a;
     agentCurrent := agentCurrent a; agentCurrentState := agentCurrentState a; revision := revision a;
     currencyFence := currencyFence a; lastActivityAt := now |}.
Definition set_currency (t : CurrencyTarget) (f rev now : Z) (a : Agent) : Agent :=
  {| agentId := agentId a; agentSessionId := agentSessionId a; status := status a; agentAdapterId := agentAdapterId a;
     runtimeOwner := runtimeOwner a; recoveryAttemptId := recoveryAttemptId a; agentOrigin := agentOrigin a;
     agentCurrent := targetId t; agentCurrentState := Some (targetState t); revision := Some rev;
     currencyFence := Some f; lastActivityAt := now |}.
Definition set_lead (l : option string) (s : Session) : Session :=
  {| sessionStatus := sessionStatus s; leadAgentId := l; sessionOrigin := sessionOrigin s;
     sessionCurrent := sessionCurrent s; sessionCurrentState := sessionCurrentState s |}.
Definition set_snapshot (c : option string) (x : CurrencyState) (s : Session) : Session :=
  {| sessionStatus := sessionStatus s; leadAgentId := leadAgentId s; sessionOrigin := sessionOrigin s;
     sessionCurrent := c; sessionCurrentState := Some x |}.
Definition set_status (x : ClaimStatus) (now : Z) (c : Claim) : Claim :=
  {| claimId := claimId c; machineId := machineId c; adapterId := adapterId c; adapterName := adapterName c;
     providerSessionId := providerSessionId c; claimSessionId := claimSessionId c; claimAgentId := claimAgentId c;
     ownerInstanceId := ownerInstanceId c; claimToken := claimToken c; fence := fence c; claimStatus := x;
     claimedAt := claimedAt c; updatedAt := now |}.
Definition adopt (owner : string) (c : Claim) : Claim :=
  {| claimId := claimId c; machineId := machineId c; adapterId := adapterId c; adapterName := adapterName c;
     providerSessionId := providerSessionId c; claimSessionId := claimSessionId c; claimAgentId := claimAgentId c;
     ownerInstanceId := Some owner; claimToken := claimToken c; fence := fence c; claimStatus := claimStatus c;
     claimedAt := claimedAt c; updatedAt := updatedAt c |}.

(** ** Row helpers ([ownership-memory-rows.ts]) *)
Definition has_key (m a p : string) (c : Claim) : Prop :=
  machineId c = m ∧ adapterId c = a ∧ providerSessionId c = p.
#[export] Instance has_key_dec m a p c : Decision (has_key m a p c).
Proof. unfold has_key. apply _. Defined.

Definition findClaimByKey (m : list (string * Claim)) (machine adapter provider : string) : option Claim :=
  head (filter (has_key machine adapter provider) (JsMap.values m)).
Definition findClaimByToken (m : list (string * Claim)) (token : string) : option Claim :=
  head (filter (λ c, claimToken c = token) (JsMap.values m)).
Definition maxLiveClaimFence (m : list (string * Claim)) (id : string) : Z :=
  foldl (λ highest c, if decide (claimAgentId c = id ∧ highest < fence c) then fence c else highest) 0
    (JsMap.values m).
Definition allocateFence (st : Store) (id : string) (floor : Z) : Z :=
  let currency := default 0 (JsMap.get id (agents st) ≫= currencyFence) in
  1 + Z.max floor (Z.max currency (maxLiveClaimFence (claims st) id)).

Definition runtimeInstanceKey (instance machine : string) : string :=
  pretty (N.of_nat (String.length instance)) +:+ ":" +:+ instance +:+ machine.

Definition next_incarnation (machine : string) (m : list (string * RuntimeInstance)) : Z :=
  foldl (λ inc r, if decide (instanceMachineId r = machine ∧ inc ≤ incarnation r) then incarnation r + 1 else inc) 1
    (JsMap.values m).
Definition ensureMemoryRuntimeInstance (instance machine : string) (now : Z) (st : Store) : Store :=
  let key := runtimeInstanceKey instance machine in
  match JsMap.get key (runtimeInstances st) with
  | Some _ => st
  | None =>
      with_instances (JsMap.set key
        {| instanceId := instance; instanceMachineId := machine;
           incarnation := next_incarnation machine (runtimeInstances st); startedAt := now; retiredAt := None |}
        (runtimeInstances st)) st
  end.

Record TakeoverRequest := {
  tkMachineId : string; tkAgentId : string; tkOwner : string; tkTopology : OwnershipTopology;
  tkSuperseded : option string;
}.
Definition memoryMayTakeOver (st : Store) (r : TakeoverRequest) (incumbent : Claim) : bool :=
  match ownerInstanceId incumbent with
  | None => false
  | Some holder =>
      if decide (tkSuperseded r = Some (claimToken incumbent)) then true
      else if decide (claimStatus incumbent = Held ∧ claimAgentId incumbent = tkAgentId r ∧ holder = tkOwner r) then true
      else
        let incumbentOwner := JsMap.get (runtimeInstanceKey holder (machineId incumbent)) (runtimeInstances st) in
        if decide (is_Some (incumbentOwner ≫= retiredAt)) then true
        else if decide (tkTopology r = MachineExclusive) then
          match JsMap.get (runtimeInstanceKey (tkOwner r) (tkMachineId r)) (runtimeInstances st), incumbentOwner with
          | Some requester, Some o => bool_decide (incarnation o < incarnation requester)
          | _, _ => false
          end
        else false
  end.

Definition resolveResumableAdapterSessionId (s : CurrencySnapshot) : option string :=
  match currentState s with Inherited => origin s | Confirmed => current s | Moved => None end.

Definition resolveLeadCurrencyMirror (a : Agent) (sessionOrigin : option string) : option string * CurrencyState :=
  match default Inherited (agentCurrentState a) with
  | Inherited =>
      if decide (agentOrigin a = sessionOrigin) then (None, Inherited)
      else match agentOrigin a with None => (None, Moved) | Some o => (Some o, Confirmed) end
  | state => (agentCurrent a, state)
  end.

(** [true] where [assertCurrencyPairing] does not throw. *)
Definition currency_paired (id : option string) (x : CurrencyState) : bool :=
  bool_decide ((x = Confirmed) ↔ (id ≠ None)).

Definition agentCurrencySnapshot (a : Agent) : CurrencySnapshot :=
  {| origin := agentOrigin a; current := agentCurrent a; currentState := default Inherited (agentCurrentState a) |}.

(** ** Request validation ([session-ownership-designation-mutation.ts] and the
    refinement of [SessionOwnershipClaimRequestSchema]) *)
Definition hasPureDesignationShape (r : ClaimRequest) : bool :=
  bool_decide (rqProvider r = None ∧ rqOwner r = None ∧ rqAttempt r = None ∧ rqSupersedes r = None) &&
  match rqGuard r with None => true | Some _ => false end.
Definition isPureLeadRelinquishment (r : ClaimRequest) : bool :=
  match rqDesignate r with
  | Some d => clear d && negb (restore d) && bool_decide (expectedLeadAgentId d = Some (rqAgentId r)) &&
              hasPureDesignationShape r
  | None => false
  end.
Definition isPureLeadRestoration (r : ClaimRequest) : bool :=
  match rqDesignate r with
  | Some d => restore d && negb (clear d) && bool_decide (expectedLeadAgentId d ≠ None) &&
              bool_decide (expectedLeadAgentId d ≠ Some (rqAgentId r)) && hasPureDesignationShape r
  | None => false
  end.
Definition isInactiveSafeLeadDesignationMutation (r : ClaimRequest) : bool :=
  isPureLeadRelinquishment r || isPureLeadRestoration r.
(** [true] where there is no violation. *)
Definition designation_valid (r : ClaimRequest) : bool :=
  match rqDesignate r with
  | None => true
  | Some d =>
      if clear d && restore d then false
      else if clear d && negb (isPureLeadRelinquishment r) then false
      else if restore d && negb (isPureLeadRestoration r) then false
      else match rqGuard r with Some _ => false | None => true end
  end.
Definition guard_valid (g : RecoveryGuard) : bool :=
  bool_decide (preStatus (expectedPreimage g) = expectedStatus g) &&
  match preBinding (expectedPreimage g) with
  | Some (adapter, _, _) => bool_decide (adapter = preAdapterId (expectedPreimage g))
  | None => true
  end &&
  currency_paired (current (expectedCurrency g)) (currentState (expectedCurrency g)).
Definition claimRequest_valid (r : ClaimRequest) : bool :=
  designation_valid r &&
  (bool_decide (rqProvider r = None) || bool_decide (rqOwner r ≠ None)) &&
  match rqGuard r with
  | Some g => bool_decide (rqOwner r ≠ None) && bool_decide (rqAttempt r ≠ None) && guard_valid g
  | None => bool_decide (rqAttempt r = None)
  end.
Definition normalizeSessionOwnershipClaimRequest (r : ClaimRequest) : Op ClaimRequest :=
  if claimRequest_valid r then st_ret r else st_throw InvalidRequest.

(** ** Recovery guard ([ownership-recovery-guard.ts]) *)
Definition recoveryOwnerGeneration (c : option Claim) : option OwnerGeneration :=
  match c with
  | None => None
  | Some c => Some {| genClaimId := claimId c; genToken := claimToken c; genFence := fence c;
                      genOwner := ownerInstanceId c; genStatus := claimStatus c |}
  end.
Definition sameRecoveryOwnerGeneration (cur expected : option OwnerGeneration) : bool := bool_decide (cur = expected).

Definition agent_binding (a : Agent) : option (string * string * string) :=
  match runtimeOwner a with Some (m, i) => Some (agentAdapterId a, m, i) | None => None end.
Definition binding_owner (b : option (string * string * string)) : option (string * string) :=
  match b with Some (_, m, i) => Some (m, i) | None => None end.

Definition classifyRecoveryGuard (r : ClaimRequest) (a : Agent) (holder : option Claim) : option ClaimResult :=
  match rqGuard r with
  | None => None
  | Some g =>
      if decide (default 0 (revision a) ≠ expectedRevision g ∨ default 0 (currencyFence a) ≠ expectedCurrencyFence g ∨
                 agentCurrencySnapshot a ≠ expectedCurrency g)
      then Some (RecoveryCurrencyChanged (default 0 (revision a)) (default 0 (currencyFence a)) (agentCurrencySnapshot a))
      else
        let expected := expectedPreimage g in
        if decide (status a ≠ preStatus expected ∨ agentAdapterId a ≠ preAdapterId expected ∨
                   runtimeOwner a ≠ binding_owner (preBinding expected) ∨
                   recoveryAttemptId a ≠ preAttemptId expected)
        then Some (RecoveryConflict (status a) (recoveryOwnerGeneration holder))
        else
          let currentOwner := recoveryOwnerGeneration holder in
          if bool_decide (status a ≠ expectedStatus g) || negb (sameRecoveryOwnerGeneration currentOwner (ownerGeneration g))
          then Some (RecoveryConflict (status a) currentOwner)
          else None
  end.

(** ** Claim ([ownership-memory-claim.ts]) *)
Inductive LeadOutcome :=
  | LeadOk (leadDesignated : bool) (previousLeadAgentId : option string)
  | LeadMismatch (currentLeadAgentId : option string)
  | LeadRefused (result : ClaimResult).

Definition recovery_preimage (a : Agent) : RecoveryPreimage :=
  {| preStatus := status a; preAdapterId := agentAdapterId a; preBinding := agent_binding a;
     preAttemptId := recoveryAttemptId a |}.

(** [agent] is the row the request named when the operation began. *)
Definition finishRecoveryClaim (agent : option Agent) (r : ClaimRequest) (now : Z) (res : ClaimResult) : Op ClaimResult :=
  let reserve (a : Agent) (report : option (string * RecoveryPreimage) → ClaimResult) : Op ClaimResult :=
    match rqAttempt r with
    | None => st_throw MissingAttemptId
    | Some attempt =>
        match rqOwner r with
        | None => λ st, (Throw MissingOwnerInstance,
            put_agent (rqAgentId r) (set_lifecycle Starting (rqAdapterId r) (runtimeOwner a) (recoveryAttemptId a)
                                       (lastActivityAt a) a) st)
        | Some owner =>
            let* _ := modify (put_agent (rqAgentId r)
              (set_lifecycle Starting (rqAdapterId r) (Some (rqMachineId r, owner)) (Some attempt) now a)) in
            st_ret (report (Some (attempt, recovery_preimage a)))
        end
    end in
  match rqGuard r, agent, res with
  | Some _, Some a, Claimed c _ d p => reserve a (λ rec, Claimed c rec d p)
  | Some _, Some a, Idempotent c _ d p => reserve a (λ rec, Idempotent c rec d p)
  | _, _, _ => st_ret res
  end.

Definition designateLead (r : ClaimRequest) (a : Agent) : Op LeadOutcome := λ st,
  match JsMap.get (rqSessionId r) (sessions st) with
  | None => (Ok (LeadRefused (NotFoundRow MissingSession)), st)
  | Some s =>
      if decide (sessionStatus s ≠ SessionActive ∧
                 (sessionStatus s ≠ SessionClosed ∨ isInactiveSafeLeadDesignationMutation r = false))
      then (Ok (LeadRefused (SessionNotActive (sessionStatus s))), st)
      else
        let previous := leadAgentId s in
        match rqDesignate r with
        | None => (Ok (LeadOk false previous), st)
        | Some d =>
            let clearing := clear d in
            if negb clearing && bool_decide (status a = Disposed) then (Ok (LeadRefused AgentDisposed), st)
            else if negb clearing && bool_decide (previous = Some (agentId a)) then (Ok (LeadOk false previous), st)
            else if decide (previous ≠ expectedLeadAgentId d) then (Ok (LeadMismatch previous), st)
            else
              let s' := set_lead (if clearing then None else Some (agentId a)) s in
              let s' := if clearing then s'
                        else let '(c, x) := resolveLeadCurrencyMirror a (sessionOrigin s) in set_snapshot c x s' in
              (Ok (LeadOk true previous), put_session (rqSessionId r) s' st)
        end
  end.

Definition resolveClaimTargets (r : ClaimRequest) (incumbent : option Claim) : Op (ClaimResult + Agent) := λ st,
  if negb (JsMap.has (rqSessionId r) (sessions st)) then (Ok (inl (NotFoundRow MissingSession)), st)
  else match JsMap.get (rqAgentId r) (agents st) with
  | None => (Ok (inl (NotFoundRow MissingAgent)), st)
  | Some a =>
      if decide (agentSessionId a ≠ rqSessionId r) then (Ok (inl (NotFoundRow MissingAgent)), st)
      else if decide (status a = Disposed) then (Ok (inl AgentDisposed), st)
      else match findClaimByToken (claims st) (rqToken r) with
      | Some holder =>
          if decide (Some (claimId holder) ≠ claimId <$> incumbent) then (Throw (TokenInUse (rqToken r)), st)
          else (Ok (inr a), st)
      | None => (Ok (inr a), st)
      end
  end.

Definition lead_refusal (o : LeadOutcome) : option ClaimResult :=
  match o with
  | LeadOk _ _ => None
  | LeadMismatch l => Some (LeadConflict l)
  | LeadRefused res => Some res
  end.
Definition takenClaim (build : option Claim → option (string * RecoveryPreimage) → bool → option string → ClaimResult)
    (c : option Claim) (o : LeadOutcome) : ClaimResult :=
  match o with
  | LeadOk d p => build c None d p
  | LeadMismatch l => LeadConflict l
  | LeadRefused res => res
  end.

Definition acquireFreeKey (r : ClaimRequest) (provider owner uuid : string) (now : Z) : Op ClaimResult :=
  let* targets := resolveClaimTargets r None in
  match targets with
  | inl refusal => st_ret refusal
  | inr a =>
      let* f := gets (λ st, allocateFence st (rqAgentId r) 0) in
      let c := {| claimId := uuid; machineId := rqMachineId r; adapterId := rqAdapterId r;
                  adapterName := rqAdapterName r; providerSessionId := provider; claimSessionId := rqSessionId r;
                  claimAgentId := rqAgentId r; ownerInstanceId := Some owner; claimToken := rqToken r; fence := f;
                  claimStatus := Held; claimedAt := now; updatedAt := now |} in
      let* _ := modify (put_claim c) in
      let* lead := designateLead r a in
      match lead_refusal lead with
      | Some refusal => let* _ := modify (drop_claim uuid) in st_ret refusal
      | None => st_ret (takenClaim Claimed (Some c) lead)
      end
  end.

Definition takeOverClaim (r : ClaimRequest) (owner : string) (existing : Claim) (now : Z) : Op ClaimResult :=
  let* targets := resolveClaimTargets r (Some existing) in
  match targets with
  | inl refusal => st_ret refusal
  | inr a =>
      let* f := gets (λ st, allocateFence st (rqAgentId r) (fence existing)) in
      let c := {| claimId := claimId existing; machineId := machineId existing; adapterId := adapterId existing;
                  adapterName := rqAdapterName r; providerSessionId := providerSessionId existing;
                  claimSessionId := rqSessionId r; claimAgentId := rqAgentId r; ownerInstanceId := Some owner;
                  claimToken := rqToken r; fence := f; claimStatus := Held; claimedAt := now; updatedAt := now |} in
      let* _ := modify (put_claim c) in
      let* lead := designateLead r a in
      match lead_refusal lead with
      | Some refusal => let* _ := modify (put_claim existing) in st_ret refusal
      | None => st_ret (takenClaim Claimed (Some c) lead)
      end
  end.

Definition repeatClaim (r : ClaimRequest) (existing : Claim) : Op ClaimResult :=
  if decide (claimStatus existing ≠ Held) then st_ret (AlreadyClaimed existing)
  else
    let* targets := resolveClaimTargets r (Some existing) in
    match targets with
    | inl refusal => st_ret refusal
    | inr a => let* lead := designateLead r a in st_ret (takenClaim Idempotent (Some existing) lead)
    end.

Definition runKeylessReservation (r : ClaimRequest) : Op ClaimResult := λ st,
  match JsMap.get (rqAgentId r) (agents st) with
  | None => (Ok (NotFoundRow MissingAgent), st)
  | Some a =>
      if decide (agentSessionId a ≠ rqSessionId r) then (Ok (NotFoundRow MissingAgent), st)
      else if decide (status a = Disposed ∧ (clear <$> rqDesignate r) ≠ Some true) then (Ok AgentDisposed, st)
      else (let* lead := designateLead r a in st_ret (takenClaim Claimed None lead)) st
  end.

Definition is_claimed (res : ClaimResult) : bool := match res with Claimed _ _ _ _ => true | _ => false end.
Definition drop_instance (key : string) (st : Store) : Store :=
  with_instances (JsMap.delete key (runtimeInstances st)) st.

(** Undo an owner row this call allocated. *)
Definition undo_owner (existed : bool) (key : string) (st : Store) : Store :=
  if existed then st else drop_instance key st.

Definition runKeyedClaim (r : ClaimRequest) (provider : string) (agent : option Agent) (existing : option Claim)
    (uuid : string) (now : Z) : Op ClaimResult :=
  match rqOwner r with
  | None => st_throw MissingOwnerInstance
  | Some owner =>
      let ownerKey := runtimeInstanceKey owner (rqMachineId r) in
      let* ownerAlreadyExisted := gets (λ st, JsMap.has ownerKey (runtimeInstances st)) in
      let* _ := modify (ensureMemoryRuntimeInstance owner (rqMachineId r) now) in
      match existing with
      | None =>
          let* res := acquireFreeKey r provider owner uuid now in
          let* _ := modify (undo_owner (ownerAlreadyExisted || is_claimed res) ownerKey) in
          finishRecoveryClaim agent r now res
      | Some c =>
          if decide (claimToken c = rqToken r) then
            if decide (claimAgentId c = rqAgentId r ∧ claimSessionId c = rqSessionId r) then
              let* res := repeatClaim r c in
              let* _ := modify (undo_owner ownerAlreadyExisted ownerKey) in
              finishRecoveryClaim agent r now res
            else let* _ := modify (undo_owner ownerAlreadyExisted ownerKey) in st_ret (AlreadyClaimed c)
          else
            let* takeover := gets (λ st, memoryMayTakeOver st
              {| tkMachineId := rqMachineId r; tkAgentId := rqAgentId r; tkOwner := owner;
                 tkTopology := rqTopology r; tkSuperseded := rqSupersedes r |} c) in
            if takeover : bool then
              let* res := takeOverClaim r owner c now in
              let* _ := modify (undo_owner (ownerAlreadyExisted || is_claimed res) ownerKey) in
              finishRecoveryClaim agent r now res
            else let* _ := modify (undo_owner ownerAlreadyExisted ownerKey) in st_ret (AlreadyClaimed c)
      end
  end.

Definition runKeylessClaim (r : ClaimRequest) (agent : option Agent) (now : Z) : Op ClaimResult :=
  match rqGuard r, rqOwner r with
  | Some _, Some owner =>
      let ownerKey := runtimeInstanceKey owner (rqMachineId r) in
      let* ownerAlreadyExisted := gets (λ st, JsMap.has ownerKey (runtimeInstances st)) in
      let* _ := modify (ensureMemoryRuntimeInstance owner (rqMachineId r) now) in
      let* res := runKeylessReservation r in
      let* _ := modify (undo_owner (ownerAlreadyExisted || is_claimed res) ownerKey) in
      finishRecoveryClaim agent r now res
  | _, _ => let* res := runKeylessReservation r in finishRecoveryClaim agent r now res
  end.

Definition runClaim (request : ClaimRequest) (uuid : string) (now : Z) : Op ClaimResult :=
  let* r := normalizeSessionOwnershipClaimRequest request in
  let* agent := gets (λ st, JsMap.get (rqAgentId r) (agents st)) in
  let* existing := gets (λ st, rqProvider r ≫= findClaimByKey (claims st) (rqMachineId r) (rqAdapterId r)) in
  match agent ≫= (λ a, classifyRecoveryGuard r a existing) with
  | Some refusal => st_ret refusal
  | None =>
      match rqProvider r with
      | None => runKeylessClaim r agent now
      | Some provider => runKeyedClaim r provider agent existing uuid now
      end
  end.

(** ** Settle ([ownership-memory-settle.ts]) *)
Record SettleRequest := {
  stAgentId : string; stToken : string; stFence : Z; stExpectedRevision : Z; stTarget : CurrencyTarget;
}.
Inductive SettleResult :=
  | Settled (rev : Z) (cur : CurrencySnapshot) (sessionSnapshotUpdated : bool)
  | SettleIdempotent (rev : Z) (cur : CurrencySnapshot)
  | Superseded (currentFence : Z)
  | CurrencyChanged (rev : Z) (cur : CurrencySnapshot)
  | NotOwner
  | SettleDisposed
  | SettleNotFound.

Definition refuseSettle (a : Agent) (r : SettleRequest) (st : Store) : option SettleResult :=
  let rev := default 0 (revision a) in
  let fen := default 0 (currencyFence a) in
  if decide (status a = Disposed) then Some SettleDisposed
  else
    let authority := match findClaimByToken (claims st) (stToken r) with
      | None => false
      | Some c => bool_decide (claimAgentId c = stAgentId r ∧ claimSessionId c = agentSessionId a ∧
                               claimStatus c = Held ∧ fence c = stFence r)
      end in
    if negb authority then Some NotOwner
    else if decide (stFence r < fen) then Some (Superseded fen)
    else
      let cur := agentCurrencySnapshot a in
      if decide (current cur = targetId (stTarget r) ∧ currentState cur = targetState (stTarget r) ∧ fen = stFence r)
      then Some (SettleIdempotent rev cur)
      else if decide (rev ≠ stExpectedRevision r) then Some (CurrencyChanged rev cur)
      else None.

(** The mirror of a lead's currency on its session row; reports whether it wrote. *)
Definition mirror_lead (id : string) (a : Agent) : Op bool := λ st,
  match JsMap.get (agentSessionId a) (sessions st) with
  | Some s =>
      if decide (leadAgentId s = Some id) then
        let '(c, x) := resolveLeadCurrencyMirror a (sessionOrigin s) in
        (Ok true, put_session (agentSessionId a) (set_snapshot c x s) st)
      else (Ok false, st)
  | None => (Ok false, st)
  end.

Definition applySettle (a : Agent) (r : SettleRequest) (now : Z) : Op SettleResult :=
  let* refusal := gets (refuseSettle a r) in
  match refusal with
  | Some res => st_ret res
  | None =>
      if negb (currency_paired (targetId (stTarget r)) (targetState (stTarget r))) then st_throw PairingViolated
      else
        let a' := set_currency (stTarget r) (stFence r) (stExpectedRevision r + 1) now a in
        let* _ := modify (put_agent (stAgentId r) a') in
        let* updated := mirror_lead (stAgentId r) a' in
        st_ret (Settled (stExpectedRevision r + 1)
          {| origin := agentOrigin a; current := targetId (stTarget r); currentState := targetState (stTarget r) |}
          updated)
  end.

Definition settleCurrency (r : SettleRequest) (now : Z) : Op SettleResult := λ st,
  match JsMap.get (stAgentId r) (agents st) with
  | None => (Ok SettleNotFound, st)
  | Some a => applySettle a r now st
  end.

(** ** Movement *)
Inductive Movement :=
  | ConfirmedAt (provider token : string)
  | Demote (token : string).
Definition movement_token (m : Movement) : string := match m with ConfirmedAt _ t => t | Demote t => t end.
Record MovementRequest := {
  mvMachineId : string; mvAdapterId : string; mvAdapterName : string; mvOwner : option string;
  mvTopology : OwnershipTopology; mvSessionId : string; mvAgentId : string; mvExpectedRevision : Z;
  movement : Movement;
}.
Inductive MovementResult :=
  | MovementSettled (rev : Z) (cur : CurrencySnapshot) (sessionSnapshotUpdated : bool)
                    (releasedProviderSessionIds : list string) (claim : Claim)
  | MovementIdempotent (rev : Z) (cur : CurrencySnapshot) (claim : option Claim)
  | MovementAlreadyClaimed (holder : Claim)
  | MovementRefused (res : SettleResult)
  | MovementDisposed
  | MovementNotFound.

Definition assertMovementTokenIsFree (token id : string) : Op unit := λ st,
  match findClaimByToken (claims st) token with
  | Some holder => if decide (claimId holder = id) then (Ok tt, st) else (Throw (TokenInUse token), st)
  | None => (Ok tt, st)
  end.

Definition resolveOwnGeneration (r : MovementRequest) (owner : string) (incumbent : option Claim) : option Claim :=
  match incumbent with
  | Some c =>
      if decide (claimAgentId c = mvAgentId r ∧ claimStatus c = Held ∧
                 (ownerInstanceId c = None ∨ ownerInstanceId c = Some owner)) then Some c else None
  | None => None
  end.

Definition adoptSettledLegacyGeneration (c : Claim) (owner : string) : Op Claim :=
  match ownerInstanceId c with
  | Some _ => st_ret c
  | None => let* _ := modify (put_claim (adopt owner c)) in st_ret (adopt owner c)
  end.

Record MovementClaimsPhase := {
  generation : Claim; releasedProviderSessionIds : list string; rollback : Store → Store;
}.

Definition retired_claims (r : MovementRequest) (g : Claim) (st : Store) : list Claim :=
  match movement r with
  | ConfirmedAt _ _ =>
      filter (λ c, claimAgentId c = mvAgentId r ∧ claimStatus c = Held ∧ claimId c ≠ claimId g) (JsMap.values (claims st))
  | Demote _ => []
  end.
Definition drop_claims (l : list Claim) (st : Store) : Store := foldl (λ st c, drop_claim (claimId c) st) st l.
Definition put_claims (l : list Claim) (st : Store) : Store := foldl (λ st c, put_claim c st) st l.

Definition runMovementClaimsPhase (r : MovementRequest) (owner provider uuid : string) (now : Z) :
    Op (MovementResult + MovementClaimsPhase) :=
  let* incumbent := gets (λ st, findClaimByKey (claims st) (mvMachineId r) (mvAdapterId r) provider) in
  let retire (g : Claim) (rollbackClaim : Store → Store) : Op (MovementResult + MovementClaimsPhase) :=
    let* retired := gets (retired_claims r g) in
    let* _ := modify (drop_claims retired) in
    st_ret (inr {| generation := g; releasedProviderSessionIds := providerSessionId <$> retired;
                   rollback := λ st, rollbackClaim (put_claims retired st) |}) in
  match resolveOwnGeneration r owner incumbent with
  | Some own => retire own id
  | None =>
      let* refused := gets (λ st, match incumbent with
        | Some c => negb (memoryMayTakeOver st {| tkMachineId := mvMachineId r; tkAgentId := mvAgentId r;
                      tkOwner := owner; tkTopology := mvTopology r; tkSuperseded := None |} c)
        | None => false
        end) in
      match incumbent, refused : bool with
      | Some c, true => st_ret (inl (MovementAlreadyClaimed c))
      | _, _ =>
          let id := default uuid (claimId <$> incumbent) in
          let* _ := assertMovementTokenIsFree (movement_token (movement r)) id in
          let* f := gets (λ st, allocateFence st (mvAgentId r) (default 0 (fence <$> incumbent))) in
          let g := {| claimId := id; machineId := mvMachineId r; adapterId := mvAdapterId r;
                      adapterName := mvAdapterName r; providerSessionId := provider; claimSessionId := mvSessionId r;
                      claimAgentId := mvAgentId r; ownerInstanceId := Some owner;
                      claimToken := movement_token (movement r); fence := f; claimStatus := Held;
                      claimedAt := now; updatedAt := now |} in
          let* _ := modify (put_claim g) in
          retire g (match incumbent with None => drop_claim id | Some c => put_claim c end)
      end
  end.

Definition resolveMovementTarget (m : Movement) (a : Agent) : option (string * CurrencyTarget) :=
  match m with
  | ConfirmedAt provider _ => Some (provider, {| targetId := Some provider; targetState := Confirmed |})
  | Demote _ =>
      match resolveResumableAdapterSessionId (agentCurrencySnapshot a) with
      | None => None
      | Some provider => Some (provider, {| targetId := None; targetState := Moved |})
      end
  end.

(** ** Handlers ([ownership-memory-handler.ts]) *)
Definition settleMovement (r : MovementRequest) (uuid : string) (now : Z) : Op MovementResult :=
  match mvOwner r with
  | None => st_throw InvalidRequest
  | Some owner =>
      let ownerKey := runtimeInstanceKey owner (mvMachineId r) in
      let* existed := gets (λ st, JsMap.has ownerKey (runtimeInstances st)) in
      let* _ := modify (ensureMemoryRuntimeInstance owner (mvMachineId r) now) in
      let refuse (res : MovementResult) : Op MovementResult :=
        let* _ := modify (undo_owner existed ownerKey) in st_ret res in
      let* agent := gets (λ st, JsMap.get (mvAgentId r) (agents st)) in
      match agent with
      | None => refuse MovementNotFound
      | Some a =>
          if decide (agentSessionId a ≠ mvSessionId r) then refuse MovementNotFound
          else if decide (status a = Disposed) then refuse MovementDisposed
          else match resolveMovementTarget (movement r) a with
          | None => refuse (MovementIdempotent (default 0 (revision a)) (agentCurrencySnapshot a) None)
          | Some (provider, target) =>
              let* phase := runMovementClaimsPhase r owner provider uuid now in
              match phase with
              | inl res => refuse res
              | inr p =>
                  let g := generation p in
                  let* settled := applySettle a {| stAgentId := mvAgentId r; stToken := claimToken g; stFence := fence g;
                                                   stExpectedRevision := mvExpectedRevision r; stTarget := target |} now in
                  match settled with
                  | Settled rev cur updated =>
                      let* persisted := adoptSettledLegacyGeneration g owner in
                      st_ret (MovementSettled rev cur updated (releasedProviderSessionIds p) persisted)
                  | SettleIdempotent rev cur =>
                      let* _ := modify (rollback p) in refuse (MovementIdempotent rev cur (Some g))
                  | res => let* _ := modify (rollback p) in refuse (MovementRefused res)
                  end
              end
          end
      end
  end.

Inductive TerminalAction := Rollback (preimage : RecoveryPreimage) | Succeeded | Failed.
(** [binding]: adapter, machine, process. *)
Definition finalizeRecovery (id attempt : string) (binding : string * string * string) (action : TerminalAction)
    (now : Z) : Op bool := λ st,
  match JsMap.get id (agents st) with
  | None => (Ok false, st)
  | Some a =>
      if decide (status a ≠ Starting ∨ recoveryAttemptId a ≠ Some attempt ∨ agentAdapterId a ≠ binding.1.1 ∨
                 runtimeOwner a ≠ Some (binding.1.2, binding.2))
      then (Ok false, st)
      else
        let a' := match action with
          | Rollback p => set_lifecycle (preStatus p) (preAdapterId p) (binding_owner (preBinding p)) (preAttemptId p) now a
          | Succeeded => set_lifecycle Idle (agentAdapterId a) (runtimeOwner a) None now a
          | Failed => set_lifecycle Dead (agentAdapterId a) (runtimeOwner a) None now a
          end in
        (Ok true, put_agent id a' st)
  end.

Inductive Disposition := Release | Mark (s : ClaimStatus).
(** [released], [releasing] or [abandoned]. *)
Definition disposition_valid (d : Disposition) : Prop := d ≠ Mark Held.
Inductive ReleaseResult := Released | Marked (c : Claim) | ReleaseNotOwner (holder : Claim) | ReleaseNotFound.

Definition release (id token : string) (d : Disposition) (now : Z) : Op ReleaseResult := λ st,
  match findClaimByToken (claims st) token with
  | None => (Ok ReleaseNotFound, st)
  | Some c =>
      if decide (claimAgentId c ≠ id) then (Ok (ReleaseNotOwner c), st)
      else match d with
      | Release => (Ok Released, drop_claim (claimId c) st)
      | Mark s => (Ok (Marked (set_status s now c)), put_claim (set_status s now c) st)
      end
  end.

Definition scoped_claims (id : string) (token : option string) (st : Store) : list Claim :=
  filter (λ c, claimAgentId c = id ∧ (token = None ∨ token = Some (claimToken c))) (JsMap.values (claims st)).
Definition releaseAgentClaims (id : string) (token : option string) (d : Disposition) (now : Z) :
    Op (list string * list Claim * bool) := λ st,
  let scoped := scoped_claims id token st in
  let missing := bool_decide (token ≠ None ∧ scoped = []) in
  match d with
  | Release => (Ok (providerSessionId <$> scoped, [], missing), drop_claims scoped st)
  | Mark s => let marked := set_status s now <$> scoped in (Ok ([], marked, missing), put_claims marked st)
  end.

Definition retire (id : string) (now : Z) (kr : string * RuntimeInstance) : string * RuntimeInstance :=
  let '(k, r) := kr in
  if decide (instanceId r ≠ id ∨ retiredAt r ≠ None) then (k, r)
  else (k, {| instanceId := instanceId r; instanceMachineId := instanceMachineId r; incarnation := incarnation r;
              startedAt := startedAt r; retiredAt := Some now |}).
Definition retireInstance (id : string) (now : Z) : Op nat := λ st,
  (Ok (List.length (filter (λ r, instanceId r = id ∧ retiredAt r = None) (JsMap.values (runtimeInstances st)))),
   with_instances (map (retire id now) (runtimeInstances st)) st).

(** [localeLe] is the collation of [String.prototype.localeCompare]. *)
Section reads.
Context (localeLe : string → string → bool).
Definition claim_order (key : Claim → Z) (a b : Claim) : bool :=
  if bool_decide (key a = key b) then localeLe (claimId a) (claimId b) else bool_decide (key a ≤ key b).
Definition readClaims (id : string) (st : Store) : list Claim :=
  js_sort (claim_order fence) (filter (λ c, claimAgentId c = id) (JsMap.values (claims st))).
Definition read (id : string) (st : Store) : option (string * CurrencySnapshot * Z * Z * list Claim) :=
  match JsMap.get id (agents st) with
  | None => None
  | Some a => Some (agentSessionId a, agentCurrencySnapshot a, default 0 (revision a), default 0 (currencyFence a),
                    readClaims id st)
  end.
Definition listClaims (machine : string) (adapter provider : option string) (statuses : option (list ClaimStatus))
    (st : Store) : list Claim :=
  js_sort (claim_order claimedAt) (filter (λ c, machineId c = machine ∧
    (adapter = None ∨ adapter = Some (adapterId c)) ∧ (provider = None ∨ provider = Some (providerSessionId c)) ∧
    match statuses with None => true | Some l => bool_decide (claimStatus c ∈ l) end = true) (JsMap.values (claims st))).
End reads.

(** ** Other writers of the same rows *)

(** [storeAgentPreservingOwnership] ([storage:agent.set]). *)
Definition storeAgentPreservingOwnership (id : string) (next : Agent) (st : Store) : Store :=
  let previous := JsMap.get id (agents st) in
  put_agent id
    {| agentId := agentId next; agentSessionId := agentSessionId next;
       status := if decide (status <$> previous = Some Disposed) then Disposed else status next;
       agentAdapterId := agentAdapterId next;
       runtimeOwner := match previous with None => runtimeOwner next | Some p => runtimeOwner p end;
       recoveryAttemptId := match previous with None => recoveryAttemptId next | Some p => recoveryAttemptId p end;
       agentOrigin := match previous with None => agentOrigin next | Some p => agentOrigin p end;
       agentCurrent := previous ≫= agentCurrent;
       agentCurrentState := Some (default Inherited (previous ≫= agentCurrentState));
       revision := Some (default 0 (previous ≫= revision));
       currencyFence := Some (default 0 (previous ≫= currencyFence));
       lastActivityAt := lastActivityAt next |} st.

Definition deleteClaimsWhere (matches : Claim → Prop) `{∀ c, Decision (matches c)} (st : Store) : Store :=
  with_claims (filter (λ kc : string * Claim, ¬ matches kc.2) (claims st)) st.
Definition deleteAgentCascading (id : string) (st : Store) : Store :=
  let st := deleteClaimsWhere (λ c, claimAgentId c = id) st in
  with_agents (JsMap.delete id (agents st)) st.

Definition applyStatusTransition (id : string) (s : AgentStatus) (expected : option (list AgentStatus)) (now : Z) :
    Op (bool * bool) := λ st,
  match JsMap.get id (agents st) with
  | None => (Ok (false, false), st)
  | Some a =>
      if decide (status a = Disposed) then (Ok (true, false), st)
      else if match expected with None => false | Some l => bool_decide (status a ∉ l) end
      then (Ok (true, false), st)
      else (Ok (true, true),
            put_agent id (set_lifecycle s (agentAdapterId a) (runtimeOwner a) (recoveryAttemptId a) now a) st)
  end.

(** [storage:agent.updateRuntime], on the columns of the model. *)
Definition applyRuntimeUpdate (id : string) (adapter : option string) (owner : option (string * string))
    (adapterSession : option string) (now : Z) (st : Store) : Store :=
  match JsMap.get id (agents st) with
  | None => st
  | Some a =>
      put_agent id
        {| agentId := agentId a; agentSessionId := agentSessionId a; status := status a;
           agentAdapterId := default (agentAdapterId a) adapter;
           runtimeOwner := match owner with Some o => Some o | None => runtimeOwner a end;
           recoveryAttemptId := recoveryAttemptId a;
           agentOrigin := match adapterSession with Some o => Some o | None => agentOrigin a end;
           agentCurrent := agentCurrent a; agentCurrentState := agentCurrentState a; revision := revision a;
           currencyFence := currencyFence a; lastActivityAt := now |} st
  end.

(** [storage:session.set] with [preserveCasOwnedFields]. *)
Definition setSession (id : string) (next : Session) (ifAbsent : bool) (st : Store) : Store :=
  if ifAbsent && JsMap.has id (sessions st) then st
  else
    let previous := JsMap.get id (sessions st) in
    put_session id
      {| sessionStatus := sessionStatus next;
         leadAgentId := match previous with None => leadAgentId next | Some p => leadAgentId p end;
         sessionOrigin := sessionOrigin next;
         sessionCurrent := previous ≫= sessionCurrent;
         sessionCurrentState := Some (default Inherited (previous ≫= sessionCurrentState)) |} st.

(** [storage:session.update], on the columns of the model. *)
Definition applySessionUpdate (id : string) (s : option SessionStatus) (identityOrigin reconciled : option string)
    (st : Store) : Store :=
  match JsMap.get id (sessions st) with
  | None => st
  | Some x =>
      let o := match identityOrigin with Some o => Some o | None => sessionOrigin x end in
      put_session id
        {| sessionStatus := default (sessionStatus x) s; leadAgentId := leadAgentId x;
           sessionOrigin := match reconciled with Some o => Some o | None => o end;
           sessionCurrent := sessionCurrent x; sessionCurrentState := sessionCurrentState x |} st
  end.

(** [storage:session.delete]. *)
Definition deleteSession (id : string) (st : Store) : Store :=
  let orphaned := (filter (λ ka : string * Agent, agentSessionId ka.2 = id) (agents st)).*1 in
  let st := with_agents (filter (λ ka : string * Agent, agentSessionId ka.2 ≠ id) (agents st)) st in
  let st := deleteClaimsWhere (λ c, claimSessionId c = id ∨ claimAgentId c ∈ orphaned) st in
  with_sessions (JsMap.delete id (sessions st)) st.

(** ** Histories

    One call is one synchronous handler; [call_ok] is what the callers provide:
    identifiers minted fresh, an agent written under its own id, and the three
    dispositions of the contract. *)
Inductive Call :=
  | CClaim (r : ClaimRequest) (uuid : string) (now : Z)
  | CSettle (r : SettleRequest) (now : Z)
  | CMovement (r : MovementRequest) (uuid : string) (now : Z)
  | CFinalize (id attempt : string) (binding : string * string * string) (action : TerminalAction) (now : Z)
  | CRelease (id token : string) (d : Disposition) (now : Z)
  | CReleaseAgent (id : string) (token : option string) (d : Disposition) (now : Z)
  | CRetire (id : string) (now : Z)
  | CSetAgent (id : string) (next : Agent)
  | CDeleteAgent (id : string)
  | CUpdateStatus (id : string) (s : AgentStatus) (expected : option (list AgentStatus)) (now : Z)
  | CUpdateRuntime (id : string) (adapter : option string) (owner : option (string * string))
                   (adapterSession : option string) (now : Z)
  | CSetSession (id : string) (next : Session) (ifAbsent : bool)
  | CUpdateSession (id : string) (s : option SessionStatus) (identityOrigin reconciled : option string)
  | CDeleteSession (id : string).

Definition perform (c : Call) (st : Store) : Store :=
  match c with
  | CClaim r uuid now => (runClaim r uuid now st).2
  | CSettle r now => (settleCurrency r now st).2
  | CMovement r uuid now => (settleMovement r uuid now st).2
  | CFinalize id attempt binding action now => (finalizeRecovery id attempt binding action now st).2
  | CRelease id token d now => (release id token d now st).2
  | CReleaseAgent id token d now => (releaseAgentClaims id token d now st).2
  | CRetire id now => (retireInstance id now st).2
  | CSetAgent id next => storeAgentPreservingOwnership id next st
  | CDeleteAgent id => deleteAgentCascading id st
  | CUpdateStatus id s expected now => (applyStatusTransition id s expected now st).2
  | CUpdateRuntime id adapter owner session now => applyRuntimeUpdate id adapter owner session now st
  | CSetSession id next ifAbsent => setSession id next ifAbsent st
  | CUpdateSession id s o o' => applySessionUpdate id s o o' st
  | CDeleteSession id => deleteSession id st
  end.

Definition call_ok (c : Call) (st : Store) : Prop :=
  match c with
  | CClaim _ uuid _ | CMovement _ uuid _ => JsMap.get uuid (claims st) = None
  | CRelease _ _ d _ | CReleaseAgent _ _ d _ => disposition_valid d
  | CSetAgent id next => agentId next = id
  | _ => True
  end.

Inductive step (st : Store) : Store → Prop :=
  | step_call c : call_ok c st → step st (perform c st).
