(* ===== verification/OwnershipEffects.v ===== *)
(** * Session ownership: effects of the operations

    What [runClaim], [applySettle] and [settleMovement] of [Ownership] do to the
    store, as inductive descriptions with one constructor per kind of outcome:
    refusals leave the store as it was, the others write a generation, move a
    designation, reserve a recovery or settle a currency. *)
From S2P Require Import Prelude Ownership.

(** ** Claim tables *)
Definition same_key (c c' : Claim) : Prop := has_key (machineId c) (adapterId c) (providerSessionId c) c'.

Record claims_ok (m : list (string * Claim)) : Prop := {
  ck_nodup : NoDup (JsMap.keys m);
  ck_id k c : JsMap.get k m = Some c → claimId c = k ∧ 1 ≤ fence c;
  ck_key k k' c c' : JsMap.get k m = Some c → JsMap.get k' m = Some c' → same_key c c' → k = k';
  ck_token k k' c c' : JsMap.get k m = Some c → JsMap.get k' m = Some c' → claimToken c = claimToken c' → k = k';
  ck_fence k k' c c' : JsMap.get k m = Some c → JsMap.get k' m = Some c' →
    claimAgentId c = claimAgentId c' → fence c = fence c' → k = k';
}.

Lemma claims_ok_sub m m' : claims_ok m → NoDup (JsMap.keys m') →
  (∀ k c, JsMap.get k m' = Some c → JsMap.get k m = Some c) → claims_ok m'.
Proof. intros [? Hi Hk Ht Hf] Hnd Hsub. split; [done|..]; eauto. Qed.

Lemma claims_ok_delete m k : claims_ok m → claims_ok (JsMap.delete k m).
Proof.
  intros Hok. apply (claims_ok_sub m); [done|apply JsMap.NoDup_keys_delete, Hok|].
  intros k' c. rewrite JsMap.get_delete. by case_decide.
Qed.

Lemma values_get m c : claims_ok m → c ∈ JsMap.values m ↔ JsMap.get (claimId c) m = Some c.
Proof.
  intros Hok. unfold JsMap.values. rewrite list_elem_of_fmap. split.
  - intros ([k c'] & -> & Hin). simpl. apply (JsMap.elem_get _ _ _ (ck_nodup _ Hok)) in Hin as Hg.
    by destruct (ck_id _ Hok _ _ Hg) as [-> _].
  - intros Hg. exists (claimId c, c). split; [done|]. by apply JsMap.get_elem.
Qed.

Lemma head_filter_Some {A} (P : A → Prop) `{∀ x, Decision (P x)} l x :
  head (filter P l) = Some x → P x ∧ x ∈ l.
Proof.
  destruct (filter P l) as [|y l'] eqn:E; [done|]. intros [= ->].
  rewrite <- list_elem_of_filter, E. by left.
Qed.
Lemma head_filter_None {A} (P : A → Prop) `{∀ x, Decision (P x)} l :
  head (filter P l) = None → ∀ x, x ∈ l → ¬ P x.
Proof.
  destruct (filter P l) as [|y l'] eqn:E; [|done]. intros _ x Hx HP.
  assert (x ∈ filter P l) as Hin by by apply list_elem_of_filter. rewrite E in Hin. by apply elem_of_nil in Hin.
Qed.

Lemma findClaimByKey_Some m ma ad pr c : claims_ok m → findClaimByKey m ma ad pr = Some c →
  JsMap.get (claimId c) m = Some c ∧ has_key ma ad pr c.
Proof. intros Hok [Hk Hin]%head_filter_Some. by apply values_get in Hin. Qed.
Lemma findClaimByKey_None m ma ad pr k c : claims_ok m → findClaimByKey m ma ad pr = None →
  JsMap.get k m = Some c → ¬ has_key ma ad pr c.
Proof.
  intros Hok Hn Hg. destruct (ck_id _ Hok _ _ Hg) as [<- _]. apply (head_filter_None _ _ Hn). by apply values_get.
Qed.
Lemma findClaimByToken_Some m t c : claims_ok m → findClaimByToken m t = Some c →
  JsMap.get (claimId c) m = Some c ∧ claimToken c = t.
Proof. intros Hok [Hk Hin]%head_filter_Some. by apply values_get in Hin. Qed.
Lemma findClaimByToken_None m t k c : claims_ok m → findClaimByToken m t = None →
  JsMap.get k m = Some c → claimToken c ≠ t.
Proof.
  intros Hok Hn Hg. destruct (ck_id _ Hok _ _ Hg) as [<- _]. apply (head_filter_None _ _ Hn). by apply values_get.
Qed.

(** A stored row whose key, token and fence clash with no other row. *)
Definition fits (c : Claim) (m : list (string * Claim)) : Prop :=
  1 ≤ fence c ∧ ∀ k c', JsMap.get k m = Some c' → k ≠ claimId c →
    ¬ same_key c c' ∧ claimToken c' ≠ claimToken c ∧ (claimAgentId c' = claimAgentId c → fence c' ≠ fence c).

Lemma claims_ok_set m c : claims_ok m → fits c m → claims_ok (JsMap.set (claimId c) c m).
Proof.
  intros Hok [Hpos Hfit]. pose proof (ck_id _ Hok) as Hid.
  assert (∀ c1 c2, same_key c1 c2 → same_key c2 c1) as Hsym by (unfold same_key, has_key; naive_solver).
  split; [apply JsMap.NoDup_keys_set, Hok|..].
  - intros k c'. rewrite JsMap.get_set. case_decide; [|apply Hok]. intros [= <-]. by subst.
  - intros k k' c1 c2. rewrite !JsMap.get_set. do 2 case_decide; try congruence; try apply Hok.
    + intros [= <-] H2 Hk. destruct (Hfit k' c2) as (Hn & _); [done|congruence|]. by destruct Hn.
    + intros H1 [= <-] Hk. destruct (Hfit k c1) as (Hn & _); [done|congruence|]. destruct Hn. by apply Hsym.
  - intros k k' c1 c2. rewrite !JsMap.get_set. do 2 case_decide; try congruence; try apply Hok.
    + intros [= <-] H2 Hk. destruct (Hfit k' c2) as (_ & Hn & _); congruence.
    + intros H1 [= <-] Hk. destruct (Hfit k c1) as (_ & Hn & _); congruence.
  - intros k k' c1 c2. rewrite !JsMap.get_set. do 2 case_decide; try congruence; try apply Hok.
    + intros [= <-] H2 Ha Hk. destruct (Hfit k' c2) as (_ & _ & Hn); [done|congruence|]. by destruct Hn.
    + intros H1 [= <-] Ha Hk. destruct (Hfit k c1) as (_ & _ & Hn); [done|congruence|]. by destruct Hn.
Qed.

(** ** Fences *)
Lemma maxLive_ge l id x : x ≤ foldl (λ highest c, if decide (claimAgentId c = id ∧ highest < fence c) then fence c
    else highest) x l.
Proof.
  revert x. induction l as [|c l IH]; intros x; simpl; [lia|].
  destruct (decide (claimAgentId c = id ∧ x < fence c)) as [[_ Hlt]|]; [|apply IH].
  etrans; [|apply IH]. lia.
Qed.
Lemma maxLive_bound l id x c : c ∈ l → claimAgentId c = id →
  fence c ≤ foldl (λ highest c, if decide (claimAgentId c = id ∧ highest < fence c) then fence c else highest) x l.
Proof.
  revert x. induction l as [|c' l IH]; intros x Hin Ha; [by apply elem_of_nil in Hin|].
  apply elem_of_cons in Hin as [<-|Hin]; simpl; [|by apply IH].
  etrans; [|apply maxLive_ge]. destruct (decide (x < fence c)); [by rewrite decide_True|case_decide; [done|lia]].
Qed.
Lemma maxLiveClaimFence_ge m id k c : JsMap.get k m = Some c → claimAgentId c = id →
  fence c ≤ maxLiveClaimFence m id.
Proof.
  intros Hg Ha. apply maxLive_bound; [|done]. apply list_elem_of_fmap. exists (k, c).
  split; [done|]. by apply JsMap.get_elem.
Qed.

Lemma allocateFence_above st id floor :
  floor < allocateFence st id floor ∧
  (∀ a, JsMap.get id (agents st) = Some a → default 0 (currencyFence a) < allocateFence st id floor) ∧
  (∀ k c, JsMap.get k (claims st) = Some c → claimAgentId c = id → fence c < allocateFence st id floor) ∧
  0 < allocateFence st id floor.
Proof.
  unfold allocateFence. split_and!; [lia|..].
  - intros a ->. simpl. lia.
  - intros k c Hg Ha. pose proof (maxLiveClaimFence_ge _ _ _ _ Hg Ha). lia.
  - pose proof (maxLive_ge (JsMap.values (claims st)) id 0). unfold maxLiveClaimFence. lia.
Qed.

(** ** Allocation of a generation *)
Record allocated (st : Store) (ag sess tok owner ma ad pr : string) (incumbent : option Claim) (c : Claim) : Prop := {
  al_agent : claimAgentId c = ag;
  al_session : claimSessionId c = sess;
  al_token : claimToken c = tok;
  al_owner : ownerInstanceId c = Some owner;
  al_status : claimStatus c = Held;
  al_fence : fence c = allocateFence st ag (default 0 (fence <$> incumbent));
  al_key : has_key ma ad pr c;
  al_incumbent : match incumbent with
    | None => JsMap.get (claimId c) (claims st) = None ∧ ∀ k c', JsMap.get k (claims st) = Some c' → ¬ has_key ma ad pr c'
    | Some e => JsMap.get (claimId c) (claims st) = Some e ∧ has_key ma ad pr e
    end;
  al_fresh : ∀ k c', JsMap.get k (claims st) = Some c' → k ≠ claimId c → claimToken c' ≠ tok;
}.

Lemma allocated_fits st ag sess tok owner ma ad pr inc c :
  claims_ok (claims st) → allocated st ag sess tok owner ma ad pr inc c → fits c (claims st).
Proof.
  intros Hok [Ha _ Ht _ _ Hf Hk Hi Hn].
  destruct (allocateFence_above st ag (default 0 (fence <$> inc))) as (_ & _ & Habove & Hpos).
  split; [lia|]. intros k c' Hg Hne. split_and!.
  - intros Hs. unfold same_key in Hs. destruct Hk as (<- & <- & <-). destruct inc as [e|].
    + destruct Hi as [Hge Hke]. apply Hne, (ck_key _ Hok _ _ _ _ Hg Hge).
      destruct Hs as (? & ? & ?), Hke as (? & ? & ?). unfold same_key. split_and!; congruence.
    + destruct Hi as [_ Hno]. by apply (Hno _ _ Hg).
  - rewrite Ht. by apply (Hn k).
  - rewrite Ha, Hf. intros Hag. specialize (Habove _ _ Hg Hag). lia.
Qed.

(** ** Runtime instances *)
Lemma ensure_other owner machine now st :
  let st' := ensureMemoryRuntimeInstance owner machine now st in
  sessions st' = sessions st ∧ agents st' = agents st ∧ claims st' = claims st.
Proof. unfold ensureMemoryRuntimeInstance. by destruct (JsMap.get _ _). Qed.

Lemma store_eq st st' : sessions st = sessions st' → agents st = agents st' → claims st = claims st' →
  runtimeInstances st = runtimeInstances st' → st = st'.
Proof. destruct st, st'. simpl. by intros -> -> -> ->. Qed.

Lemma undo_ensure owner machine now st :
  let key := runtimeInstanceKey owner machine in
  undo_owner (JsMap.has key (runtimeInstances st)) key (ensureMemoryRuntimeInstance owner machine now st) = st.
Proof.
  simpl. unfold JsMap.has, ensureMemoryRuntimeInstance, undo_owner.
  destruct (JsMap.get _ (runtimeInstances st)) as [i|] eqn:Hg; [done|].
  apply store_eq; simpl; try done. by apply JsMap.delete_set_absent.
Qed.

Lemma allocateFence_ensure owner machine now st id floor :
  allocateFence (ensureMemoryRuntimeInstance owner machine now st) id floor = allocateFence st id floor.
Proof. unfold allocateFence. by destruct (ensure_other owner machine now st) as (_ & -> & ->). Qed.

(** ** Effects of the claim operation *)
Definition refused (res : ClaimResult) : bool :=
  match res with Claimed _ _ _ _ | Idempotent _ _ _ _ => false | _ => true end.

(** The lead designation: untouched, or moved on the request's session row. *)
Inductive lead_moved (r : ClaimRequest) (a : Agent) (st : Store) : bool → Store → Prop :=
  | lead_kept : lead_moved r a st false st
  | lead_written s d :
      JsMap.get (rqSessionId r) (sessions st) = Some s → rqDesignate r = Some d →
      leadAgentId s = expectedLeadAgentId d → (clear d = false → status a ≠ Disposed) →
      lead_moved r a st true (put_session (rqSessionId r)
        (if clear d then set_lead None s
         else let '(c, x) := resolveLeadCurrencyMirror a (sessionOrigin s) in
              set_snapshot c x (set_lead (Some (agentId a)) s)) st).

Lemma designateLead_effect r a st : ∃ o st', designateLead r a st = (Ok o, st') ∧
  match lead_refusal o with
  | Some res => refused res = true ∧ st' = st
  | None => ∃ d p, o = LeadOk d p ∧ lead_moved r a st d st'
  end.
Proof.
  unfold designateLead. destruct (JsMap.get _ _) as [s|] eqn:Hs; [|by eexists _, _].
  destruct (decide _) as [_|_]; [by eexists _, _|].
  destruct (rqDesignate r) as [d|] eqn:Hd; [|eexists _, _; split; [done|]; simpl; do 2 eexists; by split; [|constructor]].
  destruct (negb (clear d) && bool_decide (status a = Disposed)) eqn:H1; [by eexists _, _|].
  destruct (negb (clear d) && bool_decide (leadAgentId s = Some (agentId a))) eqn:H2;
    [eexists _, _; split; [done|]; simpl; do 2 eexists; by split; [|constructor]|].
  destruct (decide (leadAgentId s ≠ expectedLeadAgentId d)) as [|He]; [by eexists _, _|].
  eexists _, _. split; [done|]. simpl. exists true, (leadAgentId s). split; [done|].
  replace (if clear d then set_lead (if clear d then None else Some (agentId a)) s else _) with
    (if clear d then set_lead None s else let '(c, x) := resolveLeadCurrencyMirror a (sessionOrigin s) in
       set_snapshot c x (set_lead (Some (agentId a)) s)) by by destruct (clear d).
  constructor; [done|done|by apply dec_stable|]. intros Hc. rewrite Hc in H1. simpl in H1.
  by apply bool_decide_eq_false in H1.
Qed.

(** The rows a claim references. *)
Record targets_ok (r : ClaimRequest) (incumbent : option Claim) (st : Store) (a : Agent) : Prop := {
  tg_session : is_Some (JsMap.get (rqSessionId r) (sessions st));
  tg_agent : JsMap.get (rqAgentId r) (agents st) = Some a;
  tg_member : agentSessionId a = rqSessionId r;
  tg_alive : status a ≠ Disposed;
  tg_token : claims_ok (claims st) → ∀ k c, JsMap.get k (claims st) = Some c →
    Some k ≠ claimId <$> incumbent → claimToken c ≠ rqToken r;
}.

Lemma resolveClaimTargets_effect r inc st : ∃ o, resolveClaimTargets r inc st = (o, st) ∧
  match o with
  | Throw e => e = TokenInUse (rqToken r)
  | Ok (inl res) => refused res = true
  | Ok (inr a) => targets_ok r inc st a
  end.
Proof.
  unfold resolveClaimTargets, JsMap.has. destruct (JsMap.get (rqSessionId r) _) eqn:Hs; simpl; [|by eexists].
  destruct (JsMap.get (rqAgentId r) _) as [a|] eqn:Ha; [|by eexists].
  destruct (decide _) as [|Hm%dec_stable]; [by eexists|]. destruct (decide _) as [|Hd]; [by eexists|].
  destruct (findClaimByToken _ _) as [h|] eqn:Ht.
  - destruct (decide _) as [|Hi%dec_stable]; [by eexists|]. eexists. split; [done|]. constructor; try done.
    intros Hok k c Hg Hne Hct. apply (findClaimByToken_Some _ _ _ Hok) in Ht as [Hh Hht].
    apply Hne. rewrite <- Hi. f_equal. apply (ck_token _ Hok _ _ _ _ Hg Hh). congruence.
  - eexists. split; [done|]. constructor; try done. intros Hok k c Hg _. by apply (findClaimByToken_None _ _ k _ Hok Ht).
Qed.

(** Outcome of the claims-and-designation half, from state [st] to [st']. *)
Inductive took (r : ClaimRequest) (owner provider : string) (st : Store) : outcome OwnershipError ClaimResult →
    Store → Prop :=
  | took_error e : e = TokenInUse (rqToken r) → took r owner provider st (Throw e) st
  | took_refused res : refused res = true → took r owner provider st (Ok res) st
  | took_claim a c inc d p st' :
      targets_ok r inc st a →
      (claims_ok (claims st) →
       allocated st (rqAgentId r) (rqSessionId r) (rqToken r) owner (rqMachineId r) (rqAdapterId r) provider inc c) →
      lead_moved r a (put_claim c st) d st' →
      took r owner provider st (Ok (Claimed (Some c) None d p)) st'.

Lemma acquireFreeKey_took r owner provider uuid now st :
  JsMap.get uuid (claims st) = None → findClaimByKey (claims st) (rqMachineId r) (rqAdapterId r) provider = None →
  let '(o, st') := acquireFreeKey r provider owner uuid now st in took r owner provider st o st'.
Proof.
  intros Hu Hk. unfold acquireFreeKey, st_bind, gets, modify, st_ret.
  destruct (resolveClaimTargets_effect r None st) as (o & -> & Ho). destruct o as [[res|a]|e]; [by constructor| |by constructor].
  set (c := {| claimId := uuid |}).
  destruct (designateLead_effect r a (put_claim c st)) as (lo & st' & -> & Hlo).
  destruct (lead_refusal lo) as [res|] eqn:Hr.
  - destruct Hlo as [Href ->]. replace (drop_claim uuid (put_claim c st)) with st; [by constructor|].
    apply store_eq; try done. simpl. by rewrite JsMap.delete_set_absent.
  - destruct Hlo as (d & p & -> & Hl). apply took_claim with a None; [done| |done].
    intros Hok. split; try done; simpl.
    + split; [done|]. intros k c'. by apply findClaimByKey_None.
    + intros k c' Hg _. by apply (tg_token _ _ _ _ Ho Hok k).
Qed.

Lemma takeOverClaim_took r owner provider existing now st :
  JsMap.get (claimId existing) (claims st) = Some existing →
  has_key (rqMachineId r) (rqAdapterId r) provider existing →
  let '(o, st') := takeOverClaim r owner existing now st in took r owner provider st o st'.
Proof.
  intros Hg Hk. unfold takeOverClaim, st_bind, gets, modify, st_ret.
  destruct (resolveClaimTargets_effect r (Some existing) st) as (o & -> & Ho).
  destruct o as [[res|a]|e]; [by constructor| |by constructor].
  set (c := {| claimId := claimId existing |}).
  destruct (designateLead_effect r a (put_claim c st)) as (lo & st' & -> & Hlo).
  destruct (lead_refusal lo) as [res|] eqn:Hr.
  - destruct Hlo as [Href ->]. replace (put_claim existing (put_claim c st)) with st; [by constructor|].
    apply store_eq; try done. simpl. by rewrite JsMap.set_set, JsMap.set_id.
  - destruct Hlo as (d & p & -> & Hl). apply took_claim with a (Some existing); [done| |done].
    intros Hok. split; try done; simpl.
    intros k c' Hg' Hne. apply (tg_token _ _ _ _ Ho Hok k); [done|]. simpl. congruence.
Qed.

(** A retry or a keyless reservation writes at most the lead designation. *)
Inductive designated (r : ClaimRequest) (st : Store) : outcome OwnershipError ClaimResult → Store → Prop :=
  | des_error e : e = TokenInUse (rqToken r) → designated r st (Throw e) st
  | des_refused res : refused res = true → designated r st (Ok res) st
  | des_done a res d st' :
      JsMap.get (rqAgentId r) (agents st) = Some a → agentSessionId a = rqSessionId r →
      ((∃ p c, res = Idempotent (Some c) None d p) ∨ (∃ p, res = Claimed None None d p)) →
      lead_moved r a st d st' → designated r st (Ok res) st'.

Lemma repeatClaim_designated r existing st :
  let '(o, st') := repeatClaim r existing st in designated r st o st'.
Proof.
  unfold repeatClaim, st_bind, st_ret. destruct (decide _); [by constructor|].
  destruct (resolveClaimTargets_effect r (Some existing) st) as (o & -> & Ho).
  destruct o as [[res|a]|e]; [by constructor| |by constructor].
  destruct (designateLead_effect r a st) as (lo & st' & -> & Hlo).
  destruct lo; simpl in Hlo; [|destruct Hlo as [Href ->]; by constructor..].
  destruct Hlo as (? & ? & [= <- <-] & Hl). apply (des_done _ _ a _ leadDesignated); [apply Ho|apply Ho| |done].
  left. by eexists _, _.
Qed.

Lemma runKeylessReservation_designated r st :
  let '(o, st') := runKeylessReservation r st in designated r st o st'.
Proof.
  unfold runKeylessReservation, st_bind, st_ret. destruct (JsMap.get _ (agents st)) as [a|] eqn:Ha; [|by constructor].
  destruct (decide _) as [|Hm%dec_stable]; [by constructor|]. destruct (decide _) as [|Hd]; [by constructor|].
  destruct (designateLead_effect r a st) as (lo & st' & -> & Hlo).
  destruct lo; simpl in Hlo; [|destruct Hlo as [Href ->]; by constructor..].
  destruct Hlo as (? & ? & [= <- <-] & Hl). apply (des_done _ _ a _ leadDesignated); [done|done| |done].
  right. by eexists.
Qed.

(** The lifecycle half of a guarded reservation. *)
Inductive reserved (r : ClaimRequest) (now : Z) (agent : option Agent) (st : Store) :
    option (string * RecoveryPreimage) → Store → Prop :=
  | reserved_none : (rqGuard r = None ∨ agent = None) → reserved r now agent st None st
  | reserved_guard g a attempt owner :
      rqGuard r = Some g → agent = Some a → rqAttempt r = Some attempt → rqOwner r = Some owner →
      reserved r now agent st (Some (attempt, recovery_preimage a))
        (put_agent (rqAgentId r)
           (set_lifecycle Starting (rqAdapterId r) (Some (rqMachineId r, owner)) (Some attempt) now a) st).

Definition with_recovery (rec : option (string * RecoveryPreimage)) (res : ClaimResult) : ClaimResult :=
  match res with
  | Claimed c _ d p => Claimed c rec d p
  | Idempotent c _ d p => Idempotent c rec d p
  | _ => res
  end.

Lemma claimRequest_guard r g : claimRequest_valid r = true → rqGuard r = Some g →
  (∃ attempt, rqAttempt r = Some attempt) ∧ (∃ owner, rqOwner r = Some owner).
Proof.
  unfold claimRequest_valid. intros Hv Hg. rewrite Hg in Hv. rewrite !andb_true_iff in Hv.
  destruct Hv as [_ [[Ho Ha] _]]. apply bool_decide_eq_true in Ho, Ha.
  split; [destruct (rqAttempt r)|destruct (rqOwner r)]; naive_solver.
Qed.

Lemma finishRecoveryClaim_refused agent r now res st : refused res = true →
  finishRecoveryClaim agent r now res st = (Ok res, st).
Proof. unfold finishRecoveryClaim. by destruct (rqGuard r), agent, res. Qed.

Lemma finishRecoveryClaim_reserved agent r now res st :
  claimRequest_valid r = true → refused res = false → with_recovery None res = res →
  ∃ rec st', finishRecoveryClaim agent r now res st = (Ok (with_recovery rec res), st') ∧
             reserved r now agent st rec st'.
Proof.
  intros Hv Hr Hn. unfold finishRecoveryClaim.
  destruct (rqGuard r) as [g|] eqn:Hg; [|exists None, st; rewrite Hn; split; [done|by constructor; left]].
  destruct agent as [a|]; [|exists None, st; rewrite Hn; split; [done|by constructor; right]].
  destruct (claimRequest_guard _ _ Hv Hg) as [[at_ Hat] [ow How]]. rewrite Hat, How.
  destruct res; try done; eexists _, _; (split; [reflexivity|]); by econstructor.
Qed.

Definition same_rows (st st' : Store) : Prop :=
  sessions st' = sessions st ∧ agents st' = agents st ∧ claims st' = claims st.
Lemma allocated_rows st st' ag sess tok owner ma ad pr inc c :
  same_rows st st' → allocated st' ag sess tok owner ma ad pr inc c → allocated st ag sess tok owner ma ad pr inc c.
Proof.
  intros (_ & Ha & Hc) [? ? ? ? ? Hf ? Hi Hn]. rewrite Hc in *. split; try done.
  rewrite Hf. unfold allocateFence. by rewrite Ha, Hc.
Qed.
Lemma targets_rows r inc st st' a : same_rows st st' → targets_ok r inc st' a → targets_ok r inc st a.
Proof. intros (Hs & Ha & Hc) [? ? ? ? ?]. rewrite Hs, Ha, Hc in *. by split. Qed.

Lemma lead_moved_undo r a st d st1 owner machine now :
  let key := runtimeInstanceKey owner machine in
  lead_moved r a (ensureMemoryRuntimeInstance owner machine now st) d st1 →
  lead_moved r a st d (undo_owner (JsMap.has key (runtimeInstances st)) key st1).
Proof.
  intros key. inversion 1 as [|s dd Hs Hd He Hc]; subst; [unfold key; rewrite undo_ensure; constructor|].
  destruct (ensure_other owner machine now st) as (Hs' & Ha' & Hc'). rewrite Hs' in Hs.
  pose proof (undo_ensure owner machine now st) as Hu. fold key in Hu.
  pose proof (lead_written r a st s dd Hs Hd He Hc) as Hl.
  replace (undo_owner _ _ _) with (put_session (rqSessionId r) (if clear dd then set_lead None s
         else let '(c, x) := resolveLeadCurrencyMirror a (sessionOrigin s) in
              set_snapshot c x (set_lead (Some (agentId a)) s)) st); [done|].
  apply (f_equal runtimeInstances) in Hu. unfold undo_owner in *.
  destruct (JsMap.has _ _); apply store_eq; simpl in *; congruence.
Qed.

Definition takeover_request (r : ClaimRequest) (owner : string) : TakeoverRequest :=
  {| tkMachineId := rqMachineId r; tkAgentId := rqAgentId r; tkOwner := owner; tkTopology := rqTopology r;
     tkSuperseded := rqSupersedes r |}.

(** What one claim request does to the store. *)
Inductive claim_effect (r : ClaimRequest) (now : Z) (st : Store) : outcome OwnershipError ClaimResult → Store → Prop :=
  | ce_error e st' : same_rows st st' →
      (st' = st ∨ ∃ owner, rqOwner r = Some owner ∧
                           st' = ensureMemoryRuntimeInstance owner (rqMachineId r) now st) →
      claim_effect r now st (Throw e) st'
  | ce_refused res : refused res = true → claim_effect r now st (Ok res) st
  | ce_claimed owner provider a c inc d p st1 rec st' :
      rqProvider r = Some provider → rqOwner r = Some owner → targets_ok r inc st a →
      allocated st (rqAgentId r) (rqSessionId r) (rqToken r) owner (rqMachineId r) (rqAdapterId r) provider inc c →
      (∀ e, inc = Some e → claimToken e ≠ rqToken r ∧
        memoryMayTakeOver (ensureMemoryRuntimeInstance owner (rqMachineId r) now st) (takeover_request r owner) e = true) →
      lead_moved r a (put_claim c (ensureMemoryRuntimeInstance owner (rqMachineId r) now st)) d st1 →
      reserved r now (JsMap.get (rqAgentId r) (agents st)) st1 rec st' →
      claim_effect r now st (Ok (Claimed (Some c) rec d p)) st'
  | ce_designated a res d st0 st1 rec st' :
      (st0 = st ∨ ∃ owner, rqOwner r = Some owner ∧ rqGuard r ≠ None ∧
                           st0 = ensureMemoryRuntimeInstance owner (rqMachineId r) now st) →
      JsMap.get (rqAgentId r) (agents st) = Some a → agentSessionId a = rqSessionId r →
      ((∃ p c, res = Idempotent (Some c) None d p) ∨ (∃ p, res = Claimed None None d p)) →
      lead_moved r a st0 d st1 →
      reserved r now (JsMap.get (rqAgentId r) (agents st)) st1 rec st' →
      claim_effect r now st (Ok (with_recovery rec res)) st'.

Lemma ensure_rows owner machine now st : same_rows st (ensureMemoryRuntimeInstance owner machine now st).
Proof. apply ensure_other. Qed.

Lemma is_claimed_refused res : refused res = true → is_claimed res = false.
Proof. by destruct res. Qed.

(** The free-key and takeover paths of a keyed claim, after its claims half. *)
Lemma keyed_finish r owner provider now st o st1 agent :
  claims_ok (claims st) → claimRequest_valid r = true →
  rqProvider r = Some provider → rqOwner r = Some owner → agent = JsMap.get (rqAgentId r) (agents st) →
  took r owner provider (ensureMemoryRuntimeInstance owner (rqMachineId r) now st) o st1 →
  (∀ a c inc, allocated st (rqAgentId r) (rqSessionId r) (rqToken r) owner (rqMachineId r) (rqAdapterId r) provider inc c →
     targets_ok r inc st a → ∀ e, inc = Some e → claimToken e ≠ rqToken r ∧
     memoryMayTakeOver (ensureMemoryRuntimeInstance owner (rqMachineId r) now st) (takeover_request r owner) e = true) →
  let key := runtimeInstanceKey owner (rqMachineId r) in
  let '(o', st') := st_bind (λ _, (o, st1)) (λ res,
    let* _ := modify (undo_owner (JsMap.has key (runtimeInstances st) || is_claimed res) key) in
    finishRecoveryClaim agent r now res) st in
  claim_effect r now st o' st'.
Proof.
  intros Hok Hv Hp Ho -> Ht Hinc key. destruct (ensure_rows owner (rqMachineId r) now st) as (Hs & Ha & Hc).
  inversion Ht as [e ?|res Hr|a c inc d p st2 Htg Hal Hl]; subst; unfold st_bind; simpl.
  - constructor; [done|]. right. by exists owner.
  - rewrite is_claimed_refused, orb_false_r by done. unfold key. rewrite undo_ensure.
    rewrite finishRecoveryClaim_refused by done. by constructor.
  - rewrite orb_true_r. simpl. destruct (finishRecoveryClaim_reserved (JsMap.get (rqAgentId r) (agents st)) r now
      (Claimed (Some c) None d p) st1 Hv eq_refl eq_refl) as (rec & st' & -> & Hres). simpl.
    rewrite Hc in Hal. specialize (Hal Hok). apply (allocated_rows _ _ _ _ _ _ _ _ _ _ _ (ensure_rows _ _ _ _)) in Hal.
    apply (targets_rows _ _ _ _ _ (ensure_rows _ _ _ _)) in Htg. by econstructor; eauto.
Qed.

(** Undoing the owner row after a retry keeps only its designation. *)
Lemma designated_finish r owner now st o st1 (keep : ClaimResult → bool) agent :
  claimRequest_valid r = true → rqOwner r = Some owner → agent = JsMap.get (rqAgentId r) (agents st) →
  designated r (ensureMemoryRuntimeInstance owner (rqMachineId r) now st) o st1 →
  (∀ res, refused res = true → keep res = false) →
  (∀ res, o = Ok res → keep res = true → rqGuard r ≠ None) →
  let key := runtimeInstanceKey owner (rqMachineId r) in
  let '(o', st') := st_bind (λ _, (o, st1)) (λ res,
    let* _ := modify (undo_owner (JsMap.has key (runtimeInstances st) || keep res) key) in
    finishRecoveryClaim agent r now res) st in
  claim_effect r now st o' st'.
Proof.
  intros Hv Ho -> Hd Hdrop Hkeep key. destruct (ensure_rows owner (rqMachineId r) now st) as (Hs & Ha & Hc).
  inversion Hd as [e ?|res Hr|a res d st2 Hag Hm Hres Hl]; subst; unfold st_bind; simpl.
  - constructor; [done|]. right. by exists owner.
  - rewrite Hdrop, orb_false_r by done. unfold key. rewrite undo_ensure.
    rewrite finishRecoveryClaim_refused by done. by constructor.
  - rewrite Ha in Hag.
    assert (refused res = false ∧ with_recovery None res = res) as [Hnr Hw] by by destruct Hres as [(? & ? & ->)|(? & ->)].
    destruct (keep res) eqn:E; simpl; cycle 1.
    + rewrite orb_false_r. apply lead_moved_undo in Hl. fold key in Hl.
      destruct (finishRecoveryClaim_reserved (JsMap.get (rqAgentId r) (agents st)) r now res
        (undo_owner (JsMap.has key (runtimeInstances st)) key st1) Hv Hnr Hw) as (rec & st' & -> & Hre). simpl.
      eapply (ce_designated r now st a res d st); eauto.
    + rewrite orb_true_r. simpl.
      destruct (finishRecoveryClaim_reserved (JsMap.get (rqAgentId r) (agents st)) r now res st1 Hv Hnr Hw)
        as (rec & st' & -> & Hre). simpl.
      eapply (ce_designated r now st a res d (ensureMemoryRuntimeInstance owner (rqMachineId r) now st)); eauto.
      right. exists owner. split_and!; [done|by apply (Hkeep res)|done].
Qed.

Lemma runKeyedClaim_effect r provider uuid now st :
  claims_ok (claims st) → JsMap.get uuid (claims st) = None → claimRequest_valid r = true → rqProvider r = Some provider →
  let '(o, st') := runKeyedClaim r provider (JsMap.get (rqAgentId r) (agents st))
    (findClaimByKey (claims st) (rqMachineId r) (rqAdapterId r) provider) uuid now st in
  claim_effect r now st o st'.
Proof.
  intros Hok Hu Hv Hp. unfold runKeyedClaim. destruct (rqOwner r) as [owner|] eqn:Ho.
  2: { simpl. constructor; [done|by left]. }
  destruct (ensure_rows owner (rqMachineId r) now st) as (Hs & Ha & Hc).
  assert (Hrefuse : ∀ c, let '(o, st') := (let* _ := modify (undo_owner (JsMap.has (runtimeInstanceKey owner (rqMachineId r))
      (runtimeInstances st)) (runtimeInstanceKey owner (rqMachineId r))) in st_ret (AlreadyClaimed c))
      (ensureMemoryRuntimeInstance owner (rqMachineId r) now st) in claim_effect r now st o st').
  { intros c. unfold st_bind, modify, st_ret. rewrite undo_ensure. by constructor. }
  destruct (findClaimByKey (claims st) _ _ _) as [c|] eqn:Hk; unfold st_bind at 1 2, gets at 1, modify at 1.
  - destruct (findClaimByKey_Some _ _ _ _ _ Hok Hk) as [Hg Hkey].
    destruct (decide (claimToken c = rqToken r)) as [Ht|Ht].
    + destruct (decide _); [|apply Hrefuse].
      pose proof (repeatClaim_designated r c (ensureMemoryRuntimeInstance owner (rqMachineId r) now st)) as Hd.
      destruct (repeatClaim r c _) as [o st1] eqn:E. unfold st_bind at 1. rewrite E.
      pose proof (designated_finish r owner now st o st1 (λ _, false) _ Hv Ho eq_refl Hd) as H. simpl in H.
      unfold st_bind at 1 in H. rewrite orb_false_r in H. by apply H.
    + unfold st_bind at 1, gets. destruct (memoryMayTakeOver _ _ c) eqn:Hm; [|apply Hrefuse].
      pose proof (takeOverClaim_took r owner provider c now (ensureMemoryRuntimeInstance owner (rqMachineId r) now st)) as Htk.
      rewrite Hc in Htk. specialize (Htk Hg Hkey). destruct (takeOverClaim r owner c now _) as [o st1] eqn:E.
      unfold st_bind at 1. rewrite E. apply (keyed_finish r owner provider now st o st1 _ Hok Hv Hp Ho eq_refl Htk).
      intros a c' inc Hal _ e ->. destruct (al_incumbent _ _ _ _ _ _ _ _ _ _ Hal) as [Hge Hke].
      assert (e = c) as ->; [|done]. assert (claimId c' = claimId c) as Hid.
      { apply (ck_key _ Hok _ _ _ _ Hge Hg). destruct Hke as (? & ? & ?), Hkey as (? & ? & ?).
        unfold same_key. split_and!; congruence. }
      congruence.
  - pose proof (acquireFreeKey_took r owner provider uuid now (ensureMemoryRuntimeInstance owner (rqMachineId r) now st)) as Htk.
    rewrite Hc in Htk. specialize (Htk Hu Hk). destruct (acquireFreeKey r provider owner uuid now _) as [o st1] eqn:E.
    unfold st_bind at 1. rewrite E. apply (keyed_finish r owner provider now st o st1 _ Hok Hv Hp Ho eq_refl Htk).
    intros a c' inc Hal _ e ->. destruct (al_incumbent _ _ _ _ _ _ _ _ _ _ Hal) as [Hge Hke].
    by destruct (findClaimByKey_None _ _ _ _ _ _ Hok Hk Hge).
Qed.

Lemma runKeylessClaim_effect r now st :
  claims_ok (claims st) → claimRequest_valid r = true →
  let '(o, st') := runKeylessClaim r (JsMap.get (rqAgentId r) (agents st)) now st in claim_effect r now st o st'.
Proof.
  intros Hok Hv. unfold runKeylessClaim.
  destruct (rqGuard r) as [g|] eqn:Hg; [destruct (rqOwner r) as [owner|] eqn:Ho|].
  - unfold st_bind at 1 2, gets, modify at 1.
    pose proof (runKeylessReservation_designated r (ensureMemoryRuntimeInstance owner (rqMachineId r) now st)) as Hd.
    destruct (runKeylessReservation r _) as [o st1] eqn:E. unfold st_bind at 1. rewrite E.
    pose proof (designated_finish r owner now st o st1 is_claimed _ Hv Ho eq_refl Hd is_claimed_refused) as H.
    unfold st_bind at 1 in H. apply H. congruence.
  - destruct (claimRequest_guard _ _ Hv Hg) as [_ [ow How]]. congruence.
  - pose proof (runKeylessReservation_designated r st) as Hd. unfold st_bind.
    destruct (runKeylessReservation r st) as [o st1] eqn:E.
    inversion Hd as [e ?|res Hr|a res d st2 Hag Hm Hres Hl]; subst.
    + constructor; [done|by left].
    + rewrite finishRecoveryClaim_refused by done. by constructor.
    + assert (refused res = false ∧ with_recovery None res = res) as [Hnr Hw] by by destruct Hres as [(? & ? & ->)|(? & ->)].
      destruct (finishRecoveryClaim_reserved (JsMap.get (rqAgentId r) (agents st)) r now res st1 Hv Hnr Hw)
        as (rec & st' & -> & Hre). eapply (ce_designated r now st a res d st); eauto.
Qed.

Lemma classify_refused r a c res : classifyRecoveryGuard r a c = Some res → refused res = true.
Proof.
  unfold classifyRecoveryGuard. destruct (rqGuard r); [|done]. do 2 (destruct (decide _); [by intros [= <-]|]).
  destruct (_ || _); [by intros [= <-]|done].
Qed.

Lemma runClaim_effect r uuid now st :
  claims_ok (claims st) → JsMap.get uuid (claims st) = None →
  let '(o, st') := runClaim r uuid now st in claim_effect r now st o st'.
Proof.
  intros Hok Hu. unfold runClaim, normalizeSessionOwnershipClaimRequest.
  destruct (claimRequest_valid r) eqn:Hv; [|unfold st_bind, st_throw; constructor; [done|by left]].
  unfold st_bind, st_ret, gets.
  destruct (JsMap.get (rqAgentId r) (agents st) ≫= _) as [res|] eqn:Hc.
  - apply bind_Some in Hc as (a & _ & Hc). constructor. by apply (classify_refused r a _ _ Hc).
  - clear Hc. destruct (rqProvider r) as [provider|] eqn:Hp; [|by apply runKeylessClaim_effect].
    pose proof (runKeyedClaim_effect r provider uuid now st Hok Hu Hv Hp) as H. by simpl.
Qed.

(** ** Effects of settle *)
Inductive mirror_step (id : string) (a : Agent) (st : Store) : bool → Store → Prop :=
  | mirror_none :
      (∀ s, JsMap.get (agentSessionId a) (sessions st) = Some s → leadAgentId s ≠ Some id) → mirror_step id a st false st
  | mirror_done s :
      JsMap.get (agentSessionId a) (sessions st) = Some s → leadAgentId s = Some id →
      mirror_step id a st true (put_session (agentSessionId a)
        (let '(c, x) := resolveLeadCurrencyMirror a (sessionOrigin s) in set_snapshot c x s) st).

Lemma mirror_lead_step id a st : ∃ b st', mirror_lead id a st = (Ok b, st') ∧ mirror_step id a st b st'.
Proof.
  unfold mirror_lead. destruct (JsMap.get _ _) as [s|] eqn:Hs.
  - destruct (decide (leadAgentId s = Some id)) as [Hl|Hl].
    + pose proof (mirror_done id a st s Hs Hl) as H. destruct (resolveLeadCurrencyMirror _ _). by eexists _, _.
    + eexists _, _. split; [done|]. constructor. intros s' Hs'. congruence.
  - eexists _, _. split; [done|]. constructor. congruence.
Qed.

Definition is_settled (res : SettleResult) : bool := match res with Settled _ _ _ => true | _ => false end.

(** The row a settle writes through. *)
Record authority (st : Store) (a : Agent) (id token : string) (f : Z) : Prop := {
  au_alive : status a ≠ Disposed;
  au_fence : default 0 (currencyFence a) ≤ f;
  au_claim : ∃ c, findClaimByToken (claims st) token = Some c ∧ claimAgentId c = id ∧
                  claimSessionId c = agentSessionId a ∧ claimStatus c = Held ∧ fence c = f;
}.

Inductive settle_effect (a : Agent) (r : SettleRequest) (now : Z) (st : Store) :
    outcome OwnershipError SettleResult → Store → Prop :=
  | se_error e : settle_effect a r now st (Throw e) st
  | se_refused res : is_settled res = false → settle_effect a r now st (Ok res) st
  | se_settled b st' cur :
      authority st a (stAgentId r) (stToken r) (stFence r) →
      default 0 (revision a) = stExpectedRevision r →
      currency_paired (targetId (stTarget r)) (targetState (stTarget r)) = true →
      let a' := set_currency (stTarget r) (stFence r) (stExpectedRevision r + 1) now a in
      mirror_step (stAgentId r) a' (put_agent (stAgentId r) a' st) b st' →
      settle_effect a r now st (Ok (Settled (stExpectedRevision r + 1) cur b)) st'.

Lemma refuseSettle_refused a r st res : refuseSettle a r st = Some res → is_settled res = false.
Proof.
  unfold refuseSettle. destruct (decide _); [by intros [= <-]|]. destruct (negb _); [by intros [= <-]|].
  do 3 (destruct (decide _); [by intros [= <-]|]). done.
Qed.

Lemma refuseSettle_authority a r st : refuseSettle a r st = None →
  authority st a (stAgentId r) (stToken r) (stFence r) ∧ default 0 (revision a) = stExpectedRevision r.
Proof.
  unfold refuseSettle. destruct (decide (status a = Disposed)) as [|Hd]; [done|].
  destruct (findClaimByToken _ _) as [c|] eqn:Ht; simpl; [|done].
  destruct (bool_decide _) eqn:Hb; [|done]. apply bool_decide_eq_true in Hb as (? & ? & ? & ?). simpl.
  destruct (decide (stFence r < _)); [done|]. destruct (decide _); [done|].
  destruct (decide (default 0 (revision a) ≠ _)) as [|Hr%dec_stable]; [done|]. intros _. split; [|done].
  split; [done|lia|]. by exists c.
Qed.

Lemma applySettle_effect a r now st : let '(o, st') := applySettle a r now st in settle_effect a r now st o st'.
Proof.
  unfold applySettle, st_bind, gets, st_ret, modify. destruct (refuseSettle a r st) as [res|] eqn:Hr.
  - constructor. by eapply refuseSettle_refused.
  - destruct (refuseSettle_authority _ _ _ Hr) as [Hau Hrev].
    destruct (currency_paired _ _) eqn:Hp; simpl; [|constructor].
    set (a' := set_currency _ _ _ _ _).
    destruct (mirror_lead_step (stAgentId r) a' (put_agent (stAgentId r) a' st)) as (b & st' & -> & Hm).
    by constructor.
Qed.

(** ** Effects of a movement *)
Lemma drop_claims_other l st : sessions (drop_claims l st) = sessions st ∧ agents (drop_claims l st) = agents st ∧
  runtimeInstances (drop_claims l st) = runtimeInstances st.
Proof. unfold drop_claims. revert st. induction l as [|c l IH]; intros st; simpl; [done|]. apply (IH (drop_claim (claimId c) st)). Qed.
Lemma put_claims_other l st : sessions (put_claims l st) = sessions st ∧ agents (put_claims l st) = agents st ∧
  runtimeInstances (put_claims l st) = runtimeInstances st.
Proof. unfold put_claims. revert st. induction l as [|c l IH]; intros st; simpl; [done|]. apply (IH (put_claim c st)). Qed.

Lemma drop_claims_get l st k :
  JsMap.get k (claims (drop_claims l st)) = if decide (k ∈ claimId <$> l) then None else JsMap.get k (claims st).
Proof.
  unfold drop_claims. revert st. induction l as [|c l IH]; intros st; simpl; [done|].
  rewrite IH. simpl. rewrite JsMap.get_delete. repeat case_decide; set_solver.
Qed.
Lemma drop_claims_nodup l st : NoDup (JsMap.keys (claims st)) → NoDup (JsMap.keys (claims (drop_claims l st))).
Proof.
  unfold drop_claims. revert st. induction l as [|c l IH]; intros st Hnd; simpl; [done|].
  apply IH. simpl. by apply JsMap.NoDup_keys_delete.
Qed.
Lemma put_claims_nodup l st : NoDup (JsMap.keys (claims st)) → NoDup (JsMap.keys (claims (put_claims l st))).
Proof.
  unfold put_claims. revert st. induction l as [|c l IH]; intros st Hnd; simpl; [done|].
  apply IH. simpl. by apply JsMap.NoDup_keys_set.
Qed.
(** Writing back rows of [m]. *)
Lemma put_claims_get m l st k : (∀ c, c ∈ l → JsMap.get (claimId c) m = Some c) →
  JsMap.get k (claims (put_claims l st)) =
    if decide (k ∈ claimId <$> l) then JsMap.get k m else JsMap.get k (claims st).
Proof.
  unfold put_claims. revert st. induction l as [|c l IH]; intros st Hm; simpl; [done|].
  rewrite IH by (intros; apply Hm; by right). simpl. rewrite JsMap.get_set.
  destruct (decide (k ∈ claimId <$> l)); [rewrite decide_True by set_solver; done|].
  case_decide as Heq; [|by rewrite decide_False by set_solver].
  rewrite decide_True by set_solver. rewrite <- Heq. symmetry. apply Hm. by left.
Qed.

Lemma get_perm {V} (m m' : list (string * V)) : NoDup (JsMap.keys m) → NoDup (JsMap.keys m') →
  (∀ k, JsMap.get k m = JsMap.get k m') → m ≡ₚ m'.
Proof.
  intros H1 H2 Hg. apply NoDup_Permutation; [by apply NoDup_fmap_1 in H1|by apply NoDup_fmap_1 in H2|].
  intros [k v]. rewrite <- !JsMap.get_elem_iff by done. by rewrite Hg.
Qed.

Lemma retired_rows r g st c : claims_ok (claims st) → c ∈ retired_claims r g st →
  JsMap.get (claimId c) (claims st) = Some c ∧ claimAgentId c = mvAgentId r ∧ claimStatus c = Held ∧ claimId c ≠ claimId g.
Proof.
  intros Hok. unfold retired_claims. destruct (movement r); [|by intros ?%elem_of_nil].
  rewrite list_elem_of_filter, values_get by done. tauto.
Qed.

Lemma restore_retired l st : NoDup (JsMap.keys (claims st)) →
  (∀ c, c ∈ l → JsMap.get (claimId c) (claims st) = Some c) →
  let st' := put_claims l (drop_claims l st) in
  NoDup (JsMap.keys (claims st')) ∧ ∀ k, JsMap.get k (claims st') = JsMap.get k (claims st).
Proof.
  intros Hnd Hl. simpl. split; [by apply put_claims_nodup, drop_claims_nodup|].
  intros k. rewrite (put_claims_get (claims st)) by done. rewrite drop_claims_get. by case_decide.
Qed.

(** The generation a movement settles through, and the store holding it. *)
Inductive movement_generation (r : MovementRequest) (owner provider : string) (st : Store) :
    Claim → Store → (Store → Store) → Prop :=
  | mg_own g :
      JsMap.get (claimId g) (claims st) = Some g → has_key (mvMachineId r) (mvAdapterId r) provider g →
      claimAgentId g = mvAgentId r → claimStatus g = Held → (ownerInstanceId g = None ∨ ownerInstanceId g = Some owner) →
      movement_generation r owner provider st g st id
  | mg_new g inc rb :
      allocated st (mvAgentId r) (mvSessionId r) (movement_token (movement r)) owner (mvMachineId r) (mvAdapterId r)
        provider inc g →
      (∀ e, inc = Some e → memoryMayTakeOver st {| tkMachineId := mvMachineId r; tkAgentId := mvAgentId r;
         tkOwner := owner; tkTopology := mvTopology r; tkSuperseded := None |} e = true) →
      rb = match inc with None => drop_claim (claimId g) | Some c => put_claim c end →
      movement_generation r owner provider st g (put_claim g st) rb.

Lemma runMovementClaimsPhase_effect r owner provider uuid now st :
  claims_ok (claims st) → JsMap.get uuid (claims st) = None →
  let '(o, st') := runMovementClaimsPhase r owner provider uuid now st in
  match o with
  | Throw e => st' = st
  | Ok (inl res) => (∃ c, res = MovementAlreadyClaimed c) ∧ st' = st
  | Ok (inr p) => ∃ st1 rb, movement_generation r owner provider st (generation p) st1 rb ∧
      st' = drop_claims (retired_claims r (generation p) st1) st1 ∧
      rollback p = λ s, rb (put_claims (retired_claims r (generation p) st1) s)
  end.
Proof.
  intros Hok Hu. unfold runMovementClaimsPhase, st_bind, gets, modify, st_ret. simpl.
  destruct (findClaimByKey _ _ _ _) as [c|] eqn:Hk.
  - destruct (findClaimByKey_Some _ _ _ _ _ Hok Hk) as [Hg Hkey]. simpl.
    destruct (decide (claimAgentId c = mvAgentId r ∧ _)) as [(Ha & Hs & Ho)|_].
    { eexists _, _. split; [by apply mg_own|done]. }
    destruct (memoryMayTakeOver _ _ c) eqn:Hm; simpl; [|by split; [exists c|]].
    unfold assertMovementTokenIsFree. destruct (findClaimByToken _ _) as [h|] eqn:Ht; [destruct (decide _) as [Hh|]; [|done]|].
    + eexists _, _. split; [apply (mg_new _ _ _ _ _ (Some c)); [|by intros ? [= <-]|done]|done].
      destruct (findClaimByToken_Some _ _ _ Hok Ht) as [Hgh Hth]. split; try done; simpl.
      intros k c' Hg' Hne Htk. apply Hne. rewrite <- Hh. apply (ck_token _ Hok _ _ _ _ Hg' Hgh). congruence.
    + eexists _, _. split; [apply (mg_new _ _ _ _ _ (Some c)); [|by intros ? [= <-]|done]|done].
      split; try done; simpl. intros k c' Hg' _. by apply (findClaimByToken_None _ _ k _ Hok Ht).
  - simpl. unfold assertMovementTokenIsFree.
    destruct (findClaimByToken _ _) as [h|] eqn:Ht; [destruct (decide _) as [Hh|]; [|done]|].
    + destruct (findClaimByToken_Some _ _ _ Hok Ht) as [Hgh _]. congruence.
    + eexists _, _. split; [apply (mg_new _ _ _ _ _ None); [|done|done]|done].
      split; try done; simpl.
      * split; [done|]. intros k c'. by apply findClaimByKey_None.
      * intros k c' Hg' _. by apply (findClaimByToken_None _ _ k _ Hok Ht).
Qed.

Lemma movement_rollback r owner provider st g st1 rb :
  claims_ok (claims st) → movement_generation r owner provider st g st1 rb →
  let l := retired_claims r g st1 in
  let st' := rb (put_claims l (drop_claims l st1)) in
  sessions st' = sessions st ∧ agents st' = agents st ∧ runtimeInstances st' = runtimeInstances st ∧
  claims st' ≡ₚ claims st.
Proof.
  intros Hok Hg l st'. destruct (drop_claims_other l st1) as (Hs1 & Ha1 & Hr1).
  destruct (put_claims_other l (drop_claims l st1)) as (Hs2 & Ha2 & Hr2).
  assert (claims_ok (claims st1)) as Hok1.
  { inversion Hg; subst; [done|]. apply claims_ok_set; [done|]. by eapply allocated_fits. }
  destruct (restore_retired l st1) as [Hnd Hget]; [apply Hok1|intros c Hc; by apply (retired_rows r g)|].
  inversion Hg as [|g' inc rb' Hal Hmay Hrb]; subst.
  - unfold st', id. rewrite Hs2, Ha2, Hr2, Hs1, Ha1, Hr1. split_and!; try done.
    apply get_perm; [done|apply Hok|done].
  - pose proof (al_incumbent _ _ _ _ _ _ _ _ _ _ Hal) as Hi.
    destruct inc as [c|]; unfold st'; simpl; rewrite Hs2, Ha2, Hr2, Hs1, Ha1, Hr1; split_and!; try done.
    all: apply get_perm; [first [by apply JsMap.NoDup_keys_set|by apply JsMap.NoDup_keys_delete]|apply Hok|].
    + intros k. destruct Hi as [Hi _]. destruct (ck_id _ Hok _ _ Hi) as [Hid _]. rewrite JsMap.get_set, Hget. simpl.
      rewrite JsMap.get_set, Hid. by case_decide; subst.
    + intros k. destruct Hi as [Hi _]. rewrite JsMap.get_delete, Hget. simpl. rewrite JsMap.get_set.
      by case_decide; subst.
Qed.

Lemma movement_generation_ok r owner provider st g st1 rb :
  claims_ok (claims st) → movement_generation r owner provider st g st1 rb →
  claims_ok (claims st1) ∧ JsMap.get (claimId g) (claims st1) = Some g ∧
  sessions st1 = sessions st ∧ agents st1 = agents st ∧ runtimeInstances st1 = runtimeInstances st ∧
  claimAgentId g = mvAgentId r ∧ claimStatus g = Held ∧ has_key (mvMachineId r) (mvAdapterId r) provider g.
Proof.
  intros Hok Hg. inversion Hg as [|g' inc rb' Hal Hmay Hrb]; subst; [done|]. split_and!; try done; try apply Hal.
  - apply claims_ok_set; [done|]. by eapply allocated_fits.
  - simpl. by rewrite JsMap.get_set_eq.
Qed.

Definition movement_settled (res : MovementResult) : bool :=
  match res with MovementSettled _ _ _ _ _ => true | _ => false end.

(** What one movement request does to the store. *)
Inductive movement_effect (r : MovementRequest) (now : Z) (st : Store) : outcome OwnershipError MovementResult → Store → Prop :=
  | me_error e st' : same_rows st st' →
      (st' = st ∨ ∃ owner, mvOwner r = Some owner ∧
                           st' = ensureMemoryRuntimeInstance owner (mvMachineId r) now st) →
      movement_effect r now st (Throw e) st'
  | me_refused res st' : movement_settled res = false →
      sessions st' = sessions st → agents st' = agents st → runtimeInstances st' = runtimeInstances st →
      claims st' ≡ₚ claims st → movement_effect r now st (Ok res) st'
  | me_settled owner a provider target g st1 rb b st2 res st' :
      let f := fence g in
      let a' := set_currency target f (mvExpectedRevision r + 1) now a in
      mvOwner r = Some owner → JsMap.get (mvAgentId r) (agents st) = Some a → agentSessionId a = mvSessionId r →
      status a ≠ Disposed → resolveMovementTarget (movement r) a = Some (provider, target) →
      movement_generation r owner provider (ensureMemoryRuntimeInstance owner (mvMachineId r) now st) g st1 rb →
      default 0 (currencyFence a) ≤ f → default 0 (revision a) = mvExpectedRevision r →
      currency_paired (targetId target) (targetState target) = true → claimSessionId g = agentSessionId a →
      mirror_step (mvAgentId r) a' (put_agent (mvAgentId r) a' (drop_claims (retired_claims r g st1) st1)) b st2 →
      (∃ g', movement_settled res = true ∧
         ((ownerInstanceId g ≠ None ∧ g' = g ∧ st' = st2) ∨
          (ownerInstanceId g = None ∧ g' = adopt owner g ∧ st' = put_claim g' st2))) →
      movement_effect r now st (Ok res) st'.

Lemma undo_rows existed key st : same_rows st (undo_owner existed key st).
Proof. by destruct existed. Qed.

Lemma settled_generation r owner provider st g st1 rb a :
  claims_ok (claims st) → movement_generation r owner provider st g st1 rb →
  authority (drop_claims (retired_claims r g st1) st1) a (mvAgentId r) (claimToken g) (fence g) →
  default 0 (currencyFence a) ≤ fence g ∧ claimSessionId g = agentSessionId a.
Proof.
  intros Hok Hg [Hd Hf (c & Hc & _ & Hs & _)]. split; [done|].
  destruct (movement_generation_ok _ _ _ _ _ _ _ Hok Hg) as (Hok1 & Hg1 & _).
  assert (claims_ok (claims (drop_claims (retired_claims r g st1) st1))) as Hok2.
  { apply (claims_ok_sub (claims st1)); [done|apply drop_claims_nodup, Hok1|].
    intros k c'. rewrite drop_claims_get. by case_decide. }
  destruct (findClaimByToken_Some _ _ _ Hok2 Hc) as [Hcg Htok].
  rewrite drop_claims_get in Hcg. destruct (decide _); [done|].
  pose proof (ck_token _ Hok1 _ _ _ _ Hcg Hg1 Htok) as He. congruence.
Qed.

Lemma settleMovement_effect r uuid now st :
  claims_ok (claims st) → JsMap.get uuid (claims st) = None →
  let '(o, st') := settleMovement r uuid now st in movement_effect r now st o st'.
Proof.
  intros Hok Hu. unfold settleMovement. destruct (mvOwner r) as [owner|] eqn:Ho; [|constructor; [done|by left]].
  set (key := runtimeInstanceKey owner (mvMachineId r)). set (st0 := ensureMemoryRuntimeInstance owner (mvMachineId r) now st).
  destruct (ensure_rows owner (mvMachineId r) now st) as (Hs0 & Ha0 & Hc0). fold st0 in Hs0, Ha0, Hc0.
  assert (Hrefuse : ∀ res st1, movement_settled res = false → sessions st1 = sessions st0 → agents st1 = agents st0 →
    runtimeInstances st1 = runtimeInstances st0 → claims st1 ≡ₚ claims st0 →
    movement_effect r now st (Ok res) (undo_owner (JsMap.has key (runtimeInstances st)) key st1)).
  { intros res st1 Hres Hs Ha Hr Hc. pose proof (undo_ensure owner (mvMachineId r) now st) as Hun.
    fold key st0 in Hun. destruct (undo_rows (JsMap.has key (runtimeInstances st)) key st1) as (H1 & H2 & H3).
    constructor; [done|congruence|congruence| |by rewrite H3, Hc, Hc0].
    apply (f_equal runtimeInstances) in Hun. etrans; [|exact Hun]. unfold undo_owner, drop_instance.
    destruct (JsMap.has _ _); simpl; congruence. }
  unfold st_bind at 1 2 3, gets, modify at 1. fold key st0. rewrite Ha0.
  destruct (JsMap.get (mvAgentId r) (agents st)) as [a|] eqn:Ha; [|by apply Hrefuse].
  destruct (decide _) as [|Hm%dec_stable]; [by apply Hrefuse|]. destruct (decide _) as [|Hd]; [by apply Hrefuse|].
  destruct (resolveMovementTarget (movement r) a) as [[provider target]|] eqn:Ht; [|by apply Hrefuse].
  rewrite <- Hc0 in Hok, Hu. pose proof (runMovementClaimsPhase_effect r owner provider uuid now st0 Hok Hu) as Hp.
  unfold st_bind at 1. destruct (runMovementClaimsPhase _ _ _ _ _ _) as [[[res|p]|e] st1'] eqn:E.
  - destruct Hp as [[c ->] ->]. by apply Hrefuse.
  - destruct Hp as (st1 & rb & Hg & -> & Hrb). set (l := retired_claims r (generation p) st1) in *.
    unfold st_bind at 1.
    pose proof (applySettle_effect a {| stAgentId := mvAgentId r; stToken := claimToken (generation p);
      stFence := fence (generation p); stExpectedRevision := mvExpectedRevision r; stTarget := target |} now
      (drop_claims l st1)) as Hse.
    destruct (movement_rollback _ _ _ _ _ _ _ Hok Hg) as (Hs & Hag & Hr & Hc). fold l in Hs, Hag, Hr, Hc.
    destruct (applySettle _ _ _ _) as [o st2] eqn:Es. inversion Hse as [e|res Hres|b st3 cur Hau Hrev Hpair a'' Hmir]; subst.
    + exfalso. revert Es. unfold applySettle, st_bind, gets, st_ret. destruct (refuseSettle _ _ _); [done|]. simpl.
      replace (currency_paired (targetId target) (targetState target)) with true;
        [simpl; unfold modify; destruct (mirror_lead_step (mvAgentId r) (set_currency target (fence (generation p))
          (mvExpectedRevision r + 1) now a) (put_agent (mvAgentId r) (set_currency target (fence (generation p))
          (mvExpectedRevision r + 1) now a) (drop_claims l st1))) as (? & ? & -> & _); done|].
      revert Ht. unfold resolveMovementTarget. destruct (movement r); [by intros [= <- <-]|].
      destruct (resolveResumableAdapterSessionId _); [by intros [= <- <-]|done].
    + destruct res; try done; unfold st_bind, modify, st_ret; rewrite Hrb; by apply Hrefuse.
    + simpl in *. destruct (settled_generation _ _ _ _ _ _ _ _ Hok Hg Hau) as [Hf Hcs].
      unfold adoptSettledLegacyGeneration, st_bind, st_ret, modify.
      destruct (ownerInstanceId (generation p)) as [ow|] eqn:Eo.
      * eapply me_settled; eauto. eexists. split; [done|]. left. by rewrite Eo.
      * eapply me_settled; eauto. eexists. split; [done|]. right. split_and!; try done.
  - subst st1'. constructor; [done|]. right. by exists owner.
Qed.
