(* ===== verification/OwnershipSafety.v ===== *)
(** * Session ownership: what the store guarantees

    The well-formedness of every reachable store, and the authority, history,
    atomicity and recovery properties of claims and currency. *)
From S2P Require Import Prelude Ownership OwnershipEffects.

(** ** Runtime instance keys *)
#[local] Arguments String.append : simpl nomatch.

Fixpoint no_colon (s : string) : bool :=
  match s with
  | EmptyString => true
  | String c s' => bool_decide (c ≠ Ascii.ascii_of_nat 58) && no_colon s'
  end.
Lemma no_colon_cut s s' t t' : no_colon s = true → no_colon s' = true →
  s +:+ ":" +:+ t = s' +:+ ":" +:+ t' → s = s' ∧ t = t'.
Proof.
  revert s'. induction s as [|c s IH]; intros [|c' s']; simpl; rewrite ?andb_true_iff, ?bool_decide_eq_true.
  - by intros _ _ [= ->].
  - intros _ [Hc _] [= H _]. by destruct Hc.
  - intros [Hc _] _ [= H _]. by destruct Hc.
  - intros [_ Hs] [_ Hs'] [= -> H]. by destruct (IH s' Hs Hs' H) as [-> ->].
Qed.

Lemma pretty_no_colon (n : N) : no_colon (pretty n) = true.
Proof.
  assert (∀ x, no_colon (String (pretty_N_char x) "") = true) as Hc.
  { intros x. unfold pretty_N_char. repeat case_match; reflexivity. }
  assert (∀ s, no_colon s = true → no_colon (pretty_N_go n s) = true) as H.
  { induction (N.lt_wf_0 n) as [n _ IH]. intros s Hs. destruct (decide (0 < n)%N) as [Hn|Hn].
    - rewrite pretty_N_go_step by done. apply IH; [apply N.div_lt; lia|]. simpl. rewrite Hs, andb_true_r.
      specialize (Hc (n `mod` 10)%N). simpl in Hc. by rewrite andb_true_r in Hc.
    - assert (n = 0%N) as -> by lia. by rewrite pretty_N_go_0. }
  unfold pretty, pretty_N. case_decide; [done|]. by apply H.
Qed.

Lemma append_length_inj s s' t t' : String.length s = String.length s' → s +:+ t = s' +:+ t' → s = s' ∧ t = t'.
Proof.
  revert s'. induction s as [|c s IH]; intros [|c' s']; simpl; try done. intros [= Hl] [= -> H].
  by destruct (IH s' Hl H) as [-> ->].
Qed.

Lemma runtimeInstanceKey_inj i m i' m' : runtimeInstanceKey i m = runtimeInstanceKey i' m' → i = i' ∧ m = m'.
Proof.
  unfold runtimeInstanceKey. intros H. apply no_colon_cut in H as [Hn H]; [|apply pretty_no_colon..].
  apply (inj pretty) in Hn. apply append_length_inj in H; [done|]. by apply Nat2N.inj in Hn.
Qed.

(** ** Well-formed stores *)
Definition agent_paired (a : Agent) : bool := currency_paired (agentCurrent a) (default Inherited (agentCurrentState a)).
Definition session_paired (s : Session) : bool :=
  currency_paired (sessionCurrent s) (default Inherited (sessionCurrentState s)).
Definition agent_ok (id : string) (a : Agent) : Prop :=
  agentId a = id ∧ agent_paired a = true ∧ 0 ≤ default 0 (revision a) ∧ 0 ≤ default 0 (currencyFence a).

Record instances_ok (m : list (string * RuntimeInstance)) : Prop := {
  io_nodup : NoDup (JsMap.keys m);
  io_key k i : JsMap.get k m = Some i → k = runtimeInstanceKey (instanceId i) (instanceMachineId i) ∧ 1 ≤ incarnation i;
  io_incarnation k k' i i' : JsMap.get k m = Some i → JsMap.get k' m = Some i' →
    instanceMachineId i = instanceMachineId i' → incarnation i = incarnation i' → k = k';
}.

(** The rows a stored claim references. *)
Definition claim_refs (c : Claim) (st : Store) : Prop :=
  is_Some (JsMap.get (claimAgentId c) (agents st)) ∧
  ∃ owner, ownerInstanceId c = Some owner ∧
    is_Some (JsMap.get (runtimeInstanceKey owner (machineId c)) (runtimeInstances st)).

Record store_ok (st : Store) : Prop := {
  so_claims : claims_ok (claims st);
  so_refs k c : JsMap.get k (claims st) = Some c → claim_refs c st;
  so_agent_keys : NoDup (JsMap.keys (agents st));
  so_agents id a : JsMap.get id (agents st) = Some a → agent_ok id a;
  so_session_keys : NoDup (JsMap.keys (sessions st));
  so_sessions id s : JsMap.get id (sessions st) = Some s → session_paired s = true;
  so_instances : instances_ok (runtimeInstances st);
}.

Lemma store_ok_empty : store_ok empty_store.
Proof. repeat split; simpl; try apply NoDup_nil_2; try done. Qed.

Lemma next_incarnation_ge machine l x :
  x ≤ foldl (λ inc i, if decide (instanceMachineId i = machine ∧ inc ≤ incarnation i) then incarnation i + 1 else inc) x l.
Proof.
  revert x. induction l as [|i l IH]; intros x; simpl; [lia|]. etrans; [|apply IH]. destruct (decide _) as [[_ ?]|]; lia.
Qed.
Lemma next_incarnation_gt machine l x i : i ∈ l → instanceMachineId i = machine →
  incarnation i <
    foldl (λ inc i, if decide (instanceMachineId i = machine ∧ inc ≤ incarnation i) then incarnation i + 1 else inc) x l.
Proof.
  intros Hin Hm. revert x. induction l as [|i' l IH]; intros x; [by apply elem_of_nil in Hin|].
  apply elem_of_cons in Hin as [<-|Hin]; simpl; [|by apply IH].
  eapply Z.lt_le_trans; [|apply next_incarnation_ge]. destruct (decide (x ≤ incarnation i));
    [rewrite decide_True by done; lia|rewrite decide_False by tauto; lia].
Qed.
Lemma next_incarnation_above machine m k i : JsMap.get k m = Some i → instanceMachineId i = machine →
  incarnation i < next_incarnation machine m.
Proof.
  intros Hg Hm. apply next_incarnation_gt; [|done]. apply list_elem_of_fmap. exists (k, i).
  split; [done|]. by apply JsMap.get_elem.
Qed.

Lemma instances_ok_ensure owner machine now st : instances_ok (runtimeInstances st) →
  instances_ok (runtimeInstances (ensureMemoryRuntimeInstance owner machine now st)).
Proof.
  intros Hok. unfold ensureMemoryRuntimeInstance. destruct (JsMap.get _ (runtimeInstances st)) eqn:Hg; [done|]. simpl.
  pose proof (io_key _ Hok) as Hk. split; [apply JsMap.NoDup_keys_set, Hok|..].
  - intros k i. rewrite JsMap.get_set. case_decide as He; [|apply Hok]. intros [= <-]. split; [done|].
    unfold next_incarnation. simpl. apply next_incarnation_ge.
  - intros k k' i i'. rewrite !JsMap.get_set. do 2 case_decide; try congruence; try apply Hok.
    + intros [= <-] H2. simpl. intros Hm Hi. pose proof (next_incarnation_above _ _ _ _ H2 (eq_sym Hm)). lia.
    + intros H1 [= <-]. simpl. intros Hm Hi. pose proof (next_incarnation_above _ _ _ _ H1 Hm). lia.
Qed.

Lemma ensure_has owner machine now st k :
  is_Some (JsMap.get k (runtimeInstances st)) ∨ k = runtimeInstanceKey owner machine →
  is_Some (JsMap.get k (runtimeInstances (ensureMemoryRuntimeInstance owner machine now st))).
Proof.
  unfold ensureMemoryRuntimeInstance. destruct (JsMap.get (runtimeInstanceKey owner machine) _) as [i|] eqn:Hg.
  - intros [?| ->]; eauto.
  - simpl. rewrite JsMap.get_set. case_decide; [by eexists|]. by intros [?| ->].
Qed.

(** *** Primitive writes keep the store well formed *)
Lemma store_ok_ensure owner machine now st : store_ok st → store_ok (ensureMemoryRuntimeInstance owner machine now st).
Proof.
  intros [? Hrefs ? ? ? ? ?]. destruct (ensure_rows owner machine now st) as (Hs & Ha & Hc).
  split; rewrite ?Hs, ?Ha, ?Hc; try done; [|by apply instances_ok_ensure].
  intros k c Hg. destruct (Hrefs _ _ Hg) as (? & ow & ? & ?). unfold claim_refs. rewrite Ha.
  split_and!; try done. exists ow. split; [done|]. apply ensure_has. by left.
Qed.

Lemma store_ok_put_claim c st : store_ok st → fits c (claims st) → claim_refs c st → store_ok (put_claim c st).
Proof.
  intros [? Hrefs ? ? ? ? ?] Hf Hc. split; try done; simpl; [by apply claims_ok_set|].
  intros k c'. rewrite JsMap.get_set. case_decide; [by intros [= <-]|apply Hrefs].
Qed.

Lemma store_ok_with_claims m st : store_ok st → NoDup (JsMap.keys m) →
  (∀ k c, JsMap.get k m = Some c → JsMap.get k (claims st) = Some c) → store_ok (with_claims m st).
Proof. intros [? Hrefs ? ? ? ? ?] Hnd Hsub. split; try done; simpl; [by eapply claims_ok_sub|eauto]. Qed.

Lemma store_ok_put_session id s st : store_ok st → session_paired s = true → store_ok (put_session id s st).
Proof.
  intros [? Hrefs ? ? ? Hs ?] Hp. split; try done; simpl; [by apply JsMap.NoDup_keys_set|].
  intros k s'. rewrite JsMap.get_set. case_decide; [by intros [= <-]|apply Hs].
Qed.

Lemma store_ok_put_agent id a st : store_ok st → agent_ok id a → store_ok (put_agent id a st).
Proof.
  intros [? Hrefs ? Ha ? ? ?] Hp. split; try done; simpl; [|by apply JsMap.NoDup_keys_set|].
  - intros k c Hg. destruct (Hrefs _ _ Hg) as (? & ?). split; [|done]. simpl. rewrite JsMap.get_set.
    by case_decide.
  - intros k s'. rewrite JsMap.get_set. case_decide; [by intros [= <-]; subst|apply Ha].
Qed.

Lemma drop_claims_with l st : drop_claims l st = with_claims (claims (drop_claims l st)) st.
Proof. destruct (drop_claims_other l st) as (? & ? & ?). by apply store_eq. Qed.
Lemma store_ok_drop_claims l st : store_ok st → store_ok (drop_claims l st).
Proof.
  intros Hok. rewrite drop_claims_with. apply store_ok_with_claims; [done|apply drop_claims_nodup, Hok|].
  intros k c. rewrite drop_claims_get. by case_decide.
Qed.

(** A row that only changes its status, owner or time stamps. *)
Lemma fits_same c c' m : claims_ok m → JsMap.get (claimId c) m = Some c → claimId c' = claimId c →
  same_key c c' → claimToken c' = claimToken c → claimAgentId c' = claimAgentId c → fence c' = fence c → fits c' m.
Proof.
  intros Hok Hg Hi Hk Ht Ha Hf. destruct (ck_id _ Hok _ _ Hg) as [_ Hpos]. split; [lia|].
  intros k x Hx Hne. rewrite Hi in Hne. split_and!.
  - intros Hs. apply Hne, (ck_key _ Hok _ _ _ _ Hx Hg). destruct Hk as (? & ? & ?), Hs as (? & ? & ?).
    unfold same_key. split_and!; congruence.
  - intros Hs. apply Hne, (ck_token _ Hok _ _ _ _ Hx Hg). congruence.
  - intros Hs Hs'. apply Hne, (ck_fence _ Hok _ _ _ _ Hx Hg); congruence.
Qed.

Lemma mirror_paired a o : agent_paired a = true →
  let '(c, x) := resolveLeadCurrencyMirror a o in currency_paired c x = true.
Proof.
  unfold agent_paired, resolveLeadCurrencyMirror. destruct (default Inherited (agentCurrentState a)) eqn:E; try done.
  intros _. destruct (decide _); [done|]. by destruct (agentOrigin a).
Qed.

Lemma store_ok_lead r a st d st' : store_ok st → agent_paired a = true → lead_moved r a st d st' → store_ok st'.
Proof.
  intros Hok Ha. inversion 1 as [|s x Hs Hd He Hc]; subst; [done|]. apply store_ok_put_session; [done|].
  pose proof (so_sessions _ Hok _ _ Hs) as Hp. destruct (clear x); [done|].
  pose proof (mirror_paired a (sessionOrigin s) Ha) as Hm. by destruct (resolveLeadCurrencyMirror _ _).
Qed.

Lemma store_ok_reserved r now agent st rec st' : store_ok st → agent = JsMap.get (rqAgentId r) (agents st) →
  reserved r now agent st rec st' → store_ok st'.
Proof.
  intros Hok -> . inversion 1 as [|g a att ow Hg Ha Hat How]; subst; [done|]. apply store_ok_put_agent; [done|].
  exact (so_agents _ Hok _ _ (eq_sym Ha)) || exact (so_agents _ Hok _ _ Ha).
Qed.

Lemma store_ok_mirror id a st b st' : store_ok st → agent_paired a = true → mirror_step id a st b st' → store_ok st'.
Proof.
  intros Hok Ha. inversion 1 as [|s Hs Hl]; subst; [done|]. apply store_ok_put_session; [done|].
  pose proof (mirror_paired a (sessionOrigin s) Ha) as Hm. by destruct (resolveLeadCurrencyMirror _ _).
Qed.

Lemma lead_moved_rows r a st d st' : lead_moved r a st d st' →
  agents st' = agents st ∧ claims st' = claims st ∧ runtimeInstances st' = runtimeInstances st.
Proof. by inversion 1. Qed.
Lemma mirror_step_rows id a st d st' : mirror_step id a st d st' →
  agents st' = agents st ∧ claims st' = claims st ∧ runtimeInstances st' = runtimeInstances st.
Proof. by inversion 1. Qed.

Lemma agent_ok_settled id a t f rev now : agent_ok id a → currency_paired (targetId t) (targetState t) = true →
  0 ≤ rev → 0 ≤ f → agent_ok id (set_currency t f rev now a).
Proof. by intros (? & ? & ? & ?) ???. Qed.

Lemma claim_effect_ok r now st o st' : store_ok st → claim_effect r now st o st' → store_ok st'.
Proof.
  intros Hok. inversion 1 as [e ? Hrows Hst|res Hr|owner provider a c inc d p st1 rec ? Hp Ho Htg Hal Htk Hl Hre
    |a res d st0 st1 rec ? H0 Ha Hm Hres Hl Hre]; subst.
  - destruct Hst as [->|(ow & _ & ->)]; [done|by apply store_ok_ensure].
  - done.
  - pose proof (so_agents _ Hok _ _ (tg_agent _ _ _ _ Htg)) as Hag.
    assert (store_ok (put_claim c (ensureMemoryRuntimeInstance owner (rqMachineId r) now st))) as Hok1.
    { destruct (ensure_rows owner (rqMachineId r) now st) as (Hs & Hags & Hc).
      apply store_ok_put_claim; [by apply store_ok_ensure|rewrite Hc; eapply allocated_fits; [apply Hok|exact Hal]|].
      destruct Hal as [Ha _ _ How _ _ Hk _ _]. unfold claim_refs. rewrite Hags, Ha, How.
      split; [by rewrite (tg_agent _ _ _ _ Htg)|]. exists owner. split; [done|].
      destruct Hk as (-> & _). apply ensure_has. by right. }
    assert (store_ok st1) as Hok2 by (eapply store_ok_lead; [exact Hok1|apply Hag|done]).
    destruct (lead_moved_rows _ _ _ _ _ Hl) as (Hags & _ & _). eapply store_ok_reserved; [exact Hok2| |done].
    rewrite Hags. simpl. by destruct (ensure_rows owner (rqMachineId r) now st) as (_ & -> & _).
  - assert (store_ok st0 ∧ agents st0 = agents st) as [Hok0 Hags0].
    { destruct H0 as [->|(ow & _ & _ & ->)]; [done|]. split; [by apply store_ok_ensure|apply ensure_rows]. }
    assert (store_ok st1) as Hok2 by (eapply store_ok_lead; [exact Hok0|apply (so_agents _ Hok _ _ Ha)|done]).
    destruct (lead_moved_rows _ _ _ _ _ Hl) as (Hags & _ & _). eapply store_ok_reserved; [exact Hok2| |done].
    by rewrite Hags, Hags0.
Qed.

Lemma settle_effect_ok a r now st o st' : store_ok st → JsMap.get (stAgentId r) (agents st) = Some a →
  settle_effect a r now st o st' → store_ok st'.
Proof.
  intros Hok Ha. inversion 1 as [e|res Hr|b ? cur Hau Hrev Hp a' Hmir]; subst; [done..|].
  pose proof (so_agents _ Hok _ _ Ha) as Hag. pose proof (au_fence _ _ _ _ _ Hau).
  destruct Hag as (Hid & Hpair & Hr0 & Hf0).
  assert (agent_ok (stAgentId r) a') as Hag' by (apply agent_ok_settled; [done|done|lia|lia]).
  eapply store_ok_mirror; [by apply store_ok_put_agent|apply Hag'|done].
Qed.

Lemma movement_effect_ok r now st o st' : store_ok st → movement_effect r now st o st' → store_ok st'.
Proof.
  intros Hok. inversion 1 as [e ? Hrows Hst|res ? Hres Hs Ha Hi Hc
    |owner a provider target g st1 rb b st2 res ? f a' How Ha Hm Hd Ht Hg Hf Hrev Hp Hcs Hmir Hfin]; subst.
  - destruct Hst as [->|(ow & _ & ->)]; [done|by apply store_ok_ensure].
  - replace st' with (with_claims (claims st') st) by by apply store_eq.
    apply store_ok_with_claims; [done|unfold JsMap.keys; rewrite Hc; apply Hok|]. intros k c Hg.
    apply JsMap.get_elem_iff; [apply Hok|]. rewrite <- Hc. by apply JsMap.get_elem.
  - pose proof (store_ok_ensure owner (mvMachineId r) now st Hok) as Hok0.
    destruct (ensure_rows owner (mvMachineId r) now st) as (Hs & Hags & Hcl).
    destruct (movement_generation_ok _ _ _ _ _ _ _ (so_claims _ Hok0) Hg) as (Hok1 & Hget & Hs1 & Ha1 & Hi1 & Hga & Hgs & Hgk).
    assert (store_ok st1) as Hok2.
    { inversion Hg as [|? inc ? Hal]; subst; [done|]. apply store_ok_put_claim; [done|eapply allocated_fits; [apply Hok0|exact Hal]|].
      destruct Hal as [Hal1 _ _ Hal3 _ _ (Hal4 & _) _ _]. unfold claim_refs. rewrite Hags, Hal1, Hal3, Hal4.
      split; [by rewrite Ha|]. exists owner. split; [done|]. apply ensure_has. by right. }
    pose proof (so_agents _ Hok _ _ Ha) as Hag. pose proof Hag as (Hid & Hpair & Hr0 & Hf0).
    assert (agent_ok (mvAgentId r) a') as Hag' by (apply agent_ok_settled; [done|done|lia|lia]).
    assert (store_ok st2) as Hok3.
    { eapply store_ok_mirror; [|apply Hag'|exact Hmir]. apply store_ok_put_agent; [|done]. by apply store_ok_drop_claims. }
    destruct Hfin as (g' & _ & [(_ & -> & ->)|(Hnone & -> & ->)]); [done|].
    exfalso. destruct (so_refs _ Hok2 _ _ Hget) as (_ & ow & How' & _). congruence.
Qed.

(** ** Every call keeps the store well formed *)
Lemma put_claims_with l st : put_claims l st = with_claims (claims (put_claims l st)) st.
Proof. destruct (put_claims_other l st) as (? & ? & ?). by apply store_eq. Qed.

Lemma store_ok_mark c s now st : store_ok st → JsMap.get (claimId c) (claims st) = Some c →
  store_ok (put_claim (set_status s now c) st).
Proof.
  intros Hok Hg. apply store_ok_put_claim; [done| |by apply (so_refs _ Hok _ _ Hg)].
  by apply (fits_same c); [apply Hok|..].
Qed.

Lemma store_ok_mark_all s now l st : store_ok st →
  (∀ c, c ∈ l → JsMap.get (claimId c) (claims st) = Some c) → NoDup (claimId <$> l) →
  store_ok (put_claims (set_status s now <$> l) st).
Proof.
  unfold put_claims. revert st. induction l as [|c l IH]; intros st Hok Hl Hnd; simpl; [done|].
  apply NoDup_cons in Hnd as [Hni Hnd]. apply IH; [apply store_ok_mark; [done|apply Hl; by left]| |done].
  intros c' Hc'. simpl. rewrite JsMap.get_set_ne; [apply Hl; by right|].
  simpl. intros He. apply Hni. rewrite He. by apply list_elem_of_fmap_2.
Qed.

Lemma scoped_rows id token st c : claims_ok (claims st) → c ∈ scoped_claims id token st →
  JsMap.get (claimId c) (claims st) = Some c ∧ claimAgentId c = id ∧ (token = None ∨ token = Some (claimToken c)).
Proof. intros Hok. unfold scoped_claims. rewrite list_elem_of_filter, values_get by done. tauto. Qed.

Lemma values_ids_nodup m : claims_ok m → NoDup (claimId <$> JsMap.values m).
Proof.
  intros Hok. replace (claimId <$> JsMap.values m) with (JsMap.keys m); [apply Hok|].
  assert (∀ k c, (k, c) ∈ m → claimId c = k) as Hid.
  { intros k c Hin. apply (ck_id _ Hok). apply JsMap.elem_get; [apply Hok|done]. }
  clear Hok. unfold JsMap.keys, JsMap.values. induction m as [|[k c] m IH]; [done|]. simpl.
  rewrite (Hid k c) by left. f_equal. apply IH. intros k' c' Hin. apply Hid. by right.
Qed.
Lemma scoped_nodup id token st : claims_ok (claims st) → NoDup (claimId <$> scoped_claims id token st).
Proof.
  intros Hok. eapply sublist_NoDup; [by apply values_ids_nodup|]. apply fmap_sublist, sublist_filter.
Qed.

Lemma retire_get id now k m : JsMap.get k (map (retire id now) m) =
  match JsMap.get k m with Some i => Some (retire id now (k, i)).2 | None => None end.
Proof.
  induction m as [|[k' i] m IH]; [done|]. cbn -[retire].
  destruct (retire id now (k', i)) as [k2 i2] eqn:E.
  assert (k2 = k') as -> by by (revert E; unfold retire; destruct (decide _); intros [= <- _]).
  destruct (decide (k' = k)) as [->|]; [by rewrite E|done].
Qed.
Lemma retire_keys id now m : JsMap.keys (map (retire id now) m) = JsMap.keys m.
Proof.
  unfold JsMap.keys. induction m as [|[k i] m IH]; [done|]. change (((retire id now (k, i)).1 :: (map (retire id now) m).*1) = k :: m.*1).
  rewrite IH. f_equal. unfold retire. by destruct (decide _).
Qed.
Lemma retire_fields id now m k i' : JsMap.get k (map (retire id now) m) = Some i' →
  ∃ i, JsMap.get k m = Some i ∧ instanceId i' = instanceId i ∧ instanceMachineId i' = instanceMachineId i ∧
       incarnation i' = incarnation i.
Proof.
  rewrite retire_get. destruct (JsMap.get k m) as [i|]; [|done]. intros He. apply (inj Some) in He as <-. exists i.
  split; [done|]. unfold retire. by destruct (decide _).
Qed.

Lemma store_ok_retire id now st : store_ok st → store_ok (with_instances (map (retire id now) (runtimeInstances st)) st).
Proof.
  intros [? Hrefs ? ? ? ? Hio]. split; try done; simpl.
  - intros k c Hg. destruct (Hrefs _ _ Hg) as (? & ow & ? & [i Hi]). split; [done|]. exists ow. split; [done|].
    simpl. rewrite retire_get, Hi. by eexists.
  - split.
    + rewrite retire_keys. apply Hio.
    + intros k i (j & Hj & -> & -> & ->)%retire_fields. by apply Hio.
    + intros k k' i i' (j & Hj & _ & -> & ->)%retire_fields (j' & Hj' & _ & -> & ->)%retire_fields. by apply Hio.
Qed.

Lemma store_ok_delete_where (P : Claim → Prop) `{∀ c, Decision (P c)} st : store_ok st →
  store_ok (deleteClaimsWhere P st) ∧
  ∀ k c, JsMap.get k (claims (deleteClaimsWhere P st)) = Some c → JsMap.get k (claims st) = Some c ∧ ¬ P c.
Proof.
  intros Hok. assert (∀ k c, JsMap.get k (claims (deleteClaimsWhere P st)) = Some c →
    JsMap.get k (claims st) = Some c ∧ ¬ P c) as Hsub.
  { intros k c. simpl. rewrite JsMap.get_filter by apply Hok. destruct (JsMap.get k _) as [c'|]; [|done].
    simpl. case_decide; [|done]. by intros [= ->]. }
  split; [|done]. apply store_ok_with_claims; [done|apply JsMap.NoDup_keys_filter, Hok|]. intros k c Hg. by apply Hsub.
Qed.

Lemma store_ok_agents_sub m st : store_ok st → NoDup (JsMap.keys m) →
  (∀ k a, JsMap.get k m = Some a → JsMap.get k (agents st) = Some a) →
  (∀ k c, JsMap.get k (claims st) = Some c → is_Some (JsMap.get (claimAgentId c) m)) → store_ok (with_agents m st).
Proof.
  intros [? Hrefs ? Ha ? ? ?] Hnd Hsub Hc. split; try done; simpl; [|eauto].
  intros k c Hg. destruct (Hrefs _ _ Hg) as (_ & ?). split; [exact (Hc _ _ Hg)|done].
Qed.

Lemma step_ok st st' : store_ok st → step st st' → store_ok st'.
Proof.
  intros Hok [c Hc]. destruct c; simpl in *.
  - pose proof (runClaim_effect r uuid now st (so_claims _ Hok) Hc) as He. destruct (runClaim _ _ _ _).
    by eapply claim_effect_ok.
  - unfold settleCurrency. destruct (JsMap.get _ _) as [a|] eqn:Ha; [|done].
    pose proof (applySettle_effect a r now st) as He. destruct (applySettle _ _ _ _). by eapply settle_effect_ok.
  - pose proof (settleMovement_effect r uuid now st (so_claims _ Hok) Hc) as He. destruct (settleMovement _ _ _ _).
    by eapply movement_effect_ok.
  - unfold finalizeRecovery. destruct (JsMap.get _ _) as [a|] eqn:Ha; [|done]. destruct (decide _); [done|].
    apply store_ok_put_agent; [done|]. pose proof (so_agents _ Hok _ _ Ha). by destruct action.
  - unfold release. destruct (findClaimByToken _ _) as [c|] eqn:Ht; [|done]. destruct (decide _); [done|].
    destruct (findClaimByToken_Some _ _ _ (so_claims _ Hok) Ht) as [Hg _].
    destruct d; [|by apply store_ok_mark]. apply (store_ok_drop_claims [c] st Hok).
  - unfold releaseAgentClaims. destruct d; [by apply store_ok_drop_claims|].
    apply store_ok_mark_all; [done| |apply scoped_nodup, Hok]. intros c Hin. by apply (scoped_rows id token st c (so_claims _ Hok)).
  - by apply store_ok_retire.
  - unfold storeAgentPreservingOwnership. apply store_ok_put_agent; [done|].
    destruct (JsMap.get id (agents st)) as [p|] eqn:Hp; simpl.
    + destruct (so_agents _ Hok _ _ Hp) as (? & ? & ? & ?). by split_and!.
    + by split_and!.
  - destruct (store_ok_delete_where (λ c, claimAgentId c = id) st Hok) as [Hok1 Hsub].
    apply (store_ok_agents_sub _ _ Hok1); simpl; [apply JsMap.NoDup_keys_delete, Hok|..].
    + intros k a. rewrite JsMap.get_delete. by case_decide.
    + intros k c Hg. destruct (Hsub k c Hg) as [Hg0 Hne]. rewrite JsMap.get_delete_ne by congruence.
      by apply (so_refs _ Hok _ _ Hg0).
  - unfold applyStatusTransition. destruct (JsMap.get _ _) as [a|] eqn:Ha; [|done]. destruct (decide _); [done|].
    destruct (match expected with None => _ | Some _ => _ end); [done|].
    apply store_ok_put_agent; [done|]. exact (so_agents _ Hok _ _ Ha).
  - unfold applyRuntimeUpdate. destruct (JsMap.get _ _) as [a|] eqn:Ha; [|done].
    apply store_ok_put_agent; [done|]. exact (so_agents _ Hok _ _ Ha).
  - unfold setSession. destruct (_ && _); [done|]. apply store_ok_put_session; [done|].
    destruct (JsMap.get id (sessions st)) as [p|] eqn:Hp; [|done]. exact (so_sessions _ Hok _ _ Hp).
  - unfold applySessionUpdate. destruct (JsMap.get _ _) as [p|] eqn:Hp; [|done].
    apply store_ok_put_session; [done|]. exact (so_sessions _ Hok _ _ Hp).
  - unfold deleteSession.
    assert (Hd : store_ok (deleteClaimsWhere (λ c, claimSessionId c = id ∨ claimAgentId c ∈
      (filter (λ ka : string * Agent, agentSessionId ka.2 = id) (agents st)).*1)
      (with_agents (filter (λ ka : string * Agent, agentSessionId ka.2 ≠ id) (agents st)) st))).
    { destruct (store_ok_delete_where (λ c, claimSessionId c = id ∨ claimAgentId c ∈
        (filter (λ ka : string * Agent, agentSessionId ka.2 = id) (agents st)).*1) st Hok) as [Hok1 Hsub].
      apply (store_ok_agents_sub _ _ Hok1); simpl; [apply JsMap.NoDup_keys_filter, Hok|..].
      - intros k a. rewrite JsMap.get_filter by apply Hok. destruct (JsMap.get k _); [|done]. by case_decide.
      - intros k c Hg. destruct (Hsub k c Hg) as [Hg0 Hne]. destruct (so_refs _ Hok _ _ Hg0) as ([a Ha] & _).
        rewrite JsMap.get_filter, Ha by apply Hok. simpl. case_decide as Hs; [by eexists|].
        destruct Hne. right. apply list_elem_of_fmap. exists (claimAgentId c, a).
        split; [done|]. apply list_elem_of_filter. split; [done|]. by apply JsMap.get_elem. }
    destruct Hd as [? Hrefs ? ? ? Hs ?]. split; try done; simpl in *; [by apply JsMap.NoDup_keys_delete|].
    intros k s. rewrite JsMap.get_delete. case_decide; [done|]. apply Hs.
Qed.

Lemma steps_ok st st' : rtc step st st' → store_ok st → store_ok st'.
Proof. induction 1 as [|st1 st2 st3 Hs _ IH]; [done|]. intros Hok. by apply IH, (step_ok st1). Qed.

(** ** References to sessions

    The session identifiers the rows of a store name. *)
Definition named (st : Store) (x : string) : Prop :=
  (∃ k a, JsMap.get k (agents st) = Some a ∧ agentSessionId a = x) ∨
  (∃ k c, JsMap.get k (claims st) = Some c ∧ claimSessionId c = x).
Definition session_rows (st : Store) (x : string) : Prop := is_Some (JsMap.get x (sessions st)).
Definition sessions_exist (st : Store) : Prop := ∀ x, named st x → session_rows st x.

(** No session goes, and a name that is new has its session. *)
Record links (st st' : Store) : Prop := {
  lk_sessions x : session_rows st x → session_rows st' x;
  lk_named x : named st' x → named st x ∨ session_rows st' x
}.
#[export] Instance links_preorder : PreOrder links.
Proof.
  split; [by split; auto|]. intros s1 s2 s3 [A1 B1] [A2 B2]. split; [auto|].
  intros x [H|H]%B2; [|by right]. destruct (B1 x H); [by left|right; auto].
Qed.
Lemma links_exist st st' : links st st' → sessions_exist st → sessions_exist st'.
Proof. intros [A B] H x [Hx|Hx]%B; auto. Qed.

(** Rows whose session names are among the old ones. *)
Lemma links_rows st st' : (∀ x, session_rows st x → session_rows st' x) →
  (∀ k a, JsMap.get k (agents st') = Some a → named st (agentSessionId a) ∨ session_rows st' (agentSessionId a)) →
  (∀ k c, JsMap.get k (claims st') = Some c → named st (claimSessionId c) ∨ session_rows st' (claimSessionId c)) →
  links st st'.
Proof. intros Hs Ha Hc. split; [done|]. intros x [(k & a & Hg & <-)|(k & c & Hg & <-)]; eauto. Qed.
Lemma named_agent st k a : JsMap.get k (agents st) = Some a → named st (agentSessionId a).
Proof. left. eauto. Qed.
Lemma named_claim st k c : JsMap.get k (claims st) = Some c → named st (claimSessionId c).
Proof. right. eauto. Qed.
#[local] Hint Resolve named_agent named_claim : core.

Lemma links_put_agent id a st : named st (agentSessionId a) ∨ session_rows st (agentSessionId a) →
  links st (put_agent id a st).
Proof. intros Ha. apply links_rows; [done| |eauto]. intros k a'. simpl. rewrite JsMap.get_set. case_decide; [intros [= <-]|]; eauto. Qed.
Lemma links_put_claim c st : named st (claimSessionId c) ∨ session_rows st (claimSessionId c) → links st (put_claim c st).
Proof. intros Hc. apply links_rows; [done|eauto|]. intros k c'. simpl. rewrite JsMap.get_set. case_decide; [intros [= <-]|]; eauto. Qed.
Lemma links_put_session id s st : links st (put_session id s st).
Proof.
  split; [|by left]. intros x [s' Hx]. unfold session_rows. simpl. rewrite JsMap.get_set.
  case_decide; [by eexists|by rewrite Hx].
Qed.
Lemma links_claims st st' : sessions st' = sessions st → agents st' = agents st →
  (∀ k c, JsMap.get k (claims st') = Some c → ∃ c', JsMap.get k (claims st) = Some c' ∧ claimSessionId c' = claimSessionId c) →
  links st st'.
Proof.
  intros Hs Ha Hc. apply links_rows; rewrite ?Ha; [|eauto|].
  - unfold session_rows. by rewrite Hs.
  - intros k c (c' & Hg & <-)%Hc. left. eauto.
Qed.
Lemma links_same st st' : same_rows st st' → links st st'.
Proof. intros (Hs & Ha & Hc). apply links_claims; [done..|]. rewrite Hc. eauto. Qed.
Lemma links_drop l st : links st (drop_claims l st).
Proof.
  destruct (drop_claims_other l st) as (Hs & Ha & _). apply links_claims; [done..|].
  intros k c. rewrite drop_claims_get. case_decide; [done|eauto].
Qed.

(** The three kinds of effect. *)
Lemma links_lead r a st d st' : lead_moved r a st d st' → links st st'.
Proof. destruct 1; [reflexivity|apply links_put_session]. Qed.
Lemma links_mirror id a st b st' : mirror_step id a st b st' → links st st'.
Proof. destruct 1; [reflexivity|apply links_put_session]. Qed.
Lemma links_reserved r now agent st rec st' : reserved r now agent st rec st' →
  (∀ a, agent = Some a → named st (agentSessionId a)) → links st st'.
Proof. destruct 1 as [|g a]; [reflexivity|]. intros Ha. apply links_put_agent. left. by apply (Ha a). Qed.

Lemma named_agents st st' x k a : agents st' = agents st → JsMap.get k (agents st) = Some a → agentSessionId a = x → named st' x.
Proof. intros E Hg <-. left. rewrite E. eauto. Qed.

Lemma links_claim r now st o st' : claim_effect r now st o st' → links st st'.
Proof.
  destruct 1 as [e st' Hrows _|res Hr|owner provider a c inc d p st1 rec st' _ Ho Htg Hal _ Hl Hre
    |a res d st0 st1 rec st' H0 Ha Hs _ Hl Hre].
  - by apply links_same.
  - reflexivity.
  - pose proof (ensure_rows owner (rqMachineId r) now st) as Hrows. assert (agents st1 = agents st) as Ea.
    { destruct Hrows as (_ & E & _). by destruct Hl. }
    etrans; [by apply links_same|]. etrans; [apply links_put_claim|etrans; [by eapply links_lead|]].
    + right. destruct Hrows as (E & _ & _). unfold session_rows. rewrite E, (al_session _ _ _ _ _ _ _ _ _ _ Hal). apply Htg.
    + eapply links_reserved; [done|]. intros a' Ha'. by eapply named_agents.
  - assert (same_rows st st0) as Hrows by (destruct H0 as [->|(ow & _ & _ & ->)]; [done|apply ensure_rows]).
    etrans; [by apply links_same|]. etrans; [by eapply links_lead|]. eapply links_reserved; [done|].
    intros a' Ha'. eapply named_agents; [|done|done]. destruct Hrows as (_ & E & _). by destruct Hl.
Qed.

Lemma links_settle a r now st o st' : JsMap.get (stAgentId r) (agents st) = Some a → settle_effect a r now st o st' → links st st'.
Proof.
  intros Ha. destruct 1 as [| |b st' cur _ _ _ a' Hm]; [reflexivity..|].
  etrans; [apply (links_put_agent (stAgentId r) a')|by eapply links_mirror]. left. by apply (named_agent _ _ _ Ha).
Qed.

Lemma links_movement r now st o st' : claims_ok (claims st) → movement_effect r now st o st' → links st st'.
Proof.
  intros Hok. destruct 1 as [e st' Hrows _|res st' _ Hs Ha _ Hc
    |owner a provider target g st1 rb b st2 res st' f a' _ Ha _ _ _ Hg _ _ _ Hgs Hm (g' & _ & Hf)].
  - by apply links_same.
  - apply links_claims; [done..|]. intros k c Hg. exists c. split; [|done].
    assert (NoDup (JsMap.keys (claims st'))) as Hnd by (unfold JsMap.keys; rewrite Hc; apply Hok).
    apply JsMap.elem_get; [apply Hok|]. rewrite <- Hc. by apply JsMap.get_elem.
  - set (st0 := ensureMemoryRuntimeInstance owner (mvMachineId r) now st) in *.
    pose proof (ensure_rows owner (mvMachineId r) now st) as Hrows. fold st0 in Hrows.
    assert (named st0 (agentSessionId a)) as Hn by (eapply named_agents; [apply Hrows|done|done]).
    assert (links st0 st1 ∧ agents st1 = agents st0) as [L1 E1].
    { inversion Hg; subst; [by split|]. split; [|done]. apply links_put_claim. left. by rewrite Hgs. }
    assert (links st1 (drop_claims (retired_claims r g st1) st1)) as L2 by apply links_drop.
    assert (agents (drop_claims (retired_claims r g st1) st1) = agents st) as E2.
    { destruct (drop_claims_other (retired_claims r g st1) st1) as (_ & -> & _). rewrite E1. apply Hrows. }
    set (st1' := drop_claims _ st1) in *.
    assert (links st1' (put_agent (mvAgentId r) a' st1')) as L3 by (apply links_put_agent; left; by eapply named_agents).
    apply links_mirror in Hm as L4. assert (links st st2) as L.
    { etrans; [by apply links_same|]. etrans; [exact L1|]. etrans; [exact L2|]. by etrans. }
    destruct Hf as [(_ & _ & ->)|(_ & -> & ->)]; [done|]. etrans; [done|]. apply links_put_claim. left.
    simpl. rewrite Hgs. left. exists (mvAgentId r), a'. split; [|done]. destruct Hm; simpl; apply JsMap.get_set_eq.
Qed.

(** What the memory store does not check: an agent is stored for a session that
    exists. *)
Inductive linked_step (st : Store) : Store → Prop :=
  | linked_call k : call_ok k st →
      match k with CSetAgent _ next => session_rows st (agentSessionId next) | _ => True end →
      linked_step st (perform k st).
Lemma linked_steps st st' : rtc linked_step st st' → rtc step st st'.
Proof. apply rtc_subrel. intros s1 s2 [k Hk _]. by constructor. Qed.

Lemma links_delete_where (P : Claim → Prop) `{∀ c, Decision (P c)} st : store_ok st → links st (deleteClaimsWhere P st).
Proof.
  intros Hok. apply links_claims; [done..|]. intros k c Hg. exists c. split; [|done].
  by apply (proj2 (store_ok_delete_where P st Hok)).
Qed.

Lemma links_put_claims l st0 st : links st0 st → (∀ c, c ∈ l → named st0 (claimSessionId c)) → links st0 (put_claims l st).
Proof.
  unfold put_claims. revert st. induction l as [|c l IH]; intros st L Hl; [done|]. simpl.
  apply IH; [|intros c' Hc'; apply Hl; by right]. destruct L as [A B]. split; [exact A|].
  intros x [(k & a & Hg & <-)|(k & c' & Hg & <-)]; [apply B; left; eauto|]. simpl in Hg. rewrite JsMap.get_set in Hg.
  case_decide; [simplify_eq; left; apply Hl; by left|apply B; right; eauto].
Qed.

Lemma links_put_agent_same id a a' st : JsMap.get id (agents st) = Some a → agentSessionId a' = agentSessionId a →
  links st (put_agent id a' st).
Proof. intros Ha E. apply links_put_agent. left. rewrite E. eauto. Qed.

Lemma links_claim_calls k st : store_ok st → call_ok k st →
  match k with CSetAgent _ _ | CDeleteSession _ => False | _ => True end → links st (perform k st).
Proof.
  intros Hok Hk _k. destruct k; simpl in *; try done.
  - pose proof (runClaim_effect r uuid now st (so_claims _ Hok) Hk) as He. destruct (runClaim _ _ _ _). by eapply links_claim.
  - unfold settleCurrency. destruct (JsMap.get _ _) as [a|] eqn:Ha; [|reflexivity].
    pose proof (applySettle_effect a r now st) as He. destruct (applySettle _ _ _ _). by eapply links_settle.
  - pose proof (settleMovement_effect r uuid now st (so_claims _ Hok) Hk) as He. destruct (settleMovement _ _ _ _).
    eapply links_movement, He. apply Hok.
  - unfold finalizeRecovery. destruct (JsMap.get _ _) as [a|] eqn:Ha; [|reflexivity]. destruct (decide _); [reflexivity|].
    eapply links_put_agent_same; [done|]. by destruct action.
  - unfold release. destruct (findClaimByToken _ _) as [c|] eqn:Ht; [|reflexivity]. destruct (decide _); [reflexivity|].
    destruct (findClaimByToken_Some _ _ _ (so_claims _ Hok) Ht) as [Hg _].
    destruct d; [apply (links_drop [c])|apply links_put_claim; left; exact (named_claim st _ _ Hg)].
  - unfold releaseAgentClaims. destruct d; [apply links_drop|]. apply links_put_claims; [done|].
    intros c' (c & -> & Hc)%list_elem_of_fmap. simpl.
    by eapply named_claim, (scoped_rows id token st c (so_claims _ Hok)).
  - apply links_same. by split_and!.
  - destruct (store_ok_delete_where (λ c, claimAgentId c = id) st Hok) as [_ Hsub]. apply links_rows; simpl; [done| |].
    + intros k a. rewrite JsMap.get_delete. case_decide; [done|]. intros Hg. left. by eapply named_agent.
    + intros k c [Hg _]%Hsub. left. by eapply named_claim.
  - unfold applyStatusTransition. destruct (JsMap.get _ _) as [a|] eqn:Ha; [|reflexivity]. destruct (decide _); [reflexivity|].
    destruct (match expected with None => _ | Some _ => _ end); [reflexivity|]. by eapply links_put_agent_same.
  - unfold applyRuntimeUpdate. destruct (JsMap.get _ _) as [a|] eqn:Ha; [|reflexivity]. by eapply links_put_agent_same.
  - unfold setSession. destruct (_ && _); [reflexivity|]. apply links_put_session.
  - unfold applySessionUpdate. destruct (JsMap.get _ _) as [p|] eqn:Hp; [|reflexivity]. apply links_put_session.
Qed.

Lemma delete_session_exists id st : store_ok st → sessions_exist st → sessions_exist (deleteSession id st).
Proof.
  intros Hok Hse. unfold deleteSession. set (st1 := with_agents _ st).
  assert (∀ x, x ≠ id → named st x → session_rows (with_sessions (JsMap.delete id (sessions st)) st) x) as Hrow.
  { intros x Hx Hn. destruct (Hse x Hn) as [s Hs]. unfold session_rows. simpl. rewrite JsMap.get_delete_ne by congruence. by eexists. }
  intros x [(k & a & Hg & <-)|(k & c & Hg & <-)]; simpl in Hg.
  - rewrite JsMap.get_filter in Hg by apply Hok. destruct (JsMap.get k (agents st)) as [a'|] eqn:Ha; [|done]. simpl in Hg.
    case_decide; simplify_eq. by apply Hrow; [|by eapply named_agent].
  - rewrite JsMap.get_filter in Hg by apply Hok. destruct (JsMap.get k (claims st)) as [c'|] eqn:Hc; [|done]. simpl in Hg.
    case_decide as Hd; simplify_eq. apply Hrow; [|by eapply named_claim]. intros E. apply Hd. left; exact E.
Qed.

Lemma linked_step_exists st st' : store_ok st → sessions_exist st → linked_step st st' → sessions_exist st'.
Proof.
  intros Hok Hse [k Hk Hl].
  destruct k; try (eapply links_exist; [by apply links_claim_calls|done]).
  - eapply links_exist; [|done]. simpl. unfold storeAgentPreservingOwnership. apply links_put_agent. by right.
  - by apply delete_session_exists.
Qed.

Lemma linked_steps_exist st st' : rtc linked_step st st' → store_ok st → sessions_exist st → sessions_exist st'.
Proof.
  induction 1 as [|st1 st2 st3 Hs _ IH]; [done|]. intros Hok Hse. apply IH; [|by eapply linked_step_exists].
  apply (step_ok st1); [done|]. destruct Hs. by constructor.
Qed.

(** C37: every reachable ownership store satisfies what the SQL schema declares on
    its claims, agents and runtime instances, and the currency check of sessions:
    row keys, one claim per machine, adapter and provider session, one claim per
    token, distinct positive fences per agent, claims of existing agents and
    runtime instances, unique incarnations per machine, and currency pairs that
    name a provider session exactly when confirmed.  The references of claims and
    agents to sessions hold too when every agent was stored for a session that
    exists, which the store does not check. *)
Theorem ownership_store_well_formed (st : Store) (Hr : rtc step empty_store st) :
  store_ok st ∧ (rtc linked_step empty_store st → sessions_exist st).
Proof.
  split; [by apply (steps_ok _ _ Hr), store_ok_empty|]. intros Hl. apply (linked_steps_exist _ _ Hl store_ok_empty).
  by intros x [(k & a & Hg & _)|(k & c & Hg & _)].
Qed.

Lemma get_agent_set id id' a st : JsMap.get id (agents (put_agent id' a st)) =
  if decide (id' = id) then Some a else JsMap.get id (agents st).
Proof. apply JsMap.get_set. Qed.

(** ** Currency *)

(** The part of an agent row the ownership seam alone writes. *)
Definition currency_of (a : Agent) : option string * CurrencyState * Z * Z :=
  (agentCurrent a, default Inherited (agentCurrentState a), default 0 (revision a), default 0 (currencyFence a)).

(** A generation held by the agent in its session. *)
Definition holds (st : Store) (id : string) (a : Agent) (f : Z) : Prop :=
  ∃ c, JsMap.get (claimId c) (claims st) = Some c ∧ claimAgentId c = id ∧ claimSessionId c = agentSessionId a ∧
       claimStatus c = Held ∧ fence c = f.

Record currency_write (st' : Store) (id : string) (a a' : Agent) : Prop := {
  cw_alive : status a ≠ Disposed;
  cw_revision : default 0 (revision a') = default 0 (revision a) + 1;
  cw_fence : default 0 (currencyFence a) ≤ default 0 (currencyFence a');
  cw_holder : holds st' id a (default 0 (currencyFence a'));
}.

Definition currency_step (st st' : Store) : Prop := ∀ id a a',
  JsMap.get id (agents st) = Some a → JsMap.get id (agents st') = Some a' →
  currency_of a' = currency_of a ∨ currency_write st' id a a'.

Lemma currency_same st st' : agents st' = agents st → currency_step st st'.
Proof. intros He id a a' H1 H2. rewrite He in H2. left. congruence. Qed.

Lemma currency_put st st' k b : agents st' = agents (put_agent k b st) →
  (∀ a, JsMap.get k (agents st) = Some a → currency_of b = currency_of a ∨ currency_write st' k a b) → currency_step st st'.
Proof.
  intros He Hb id a a' H1 H2. rewrite He, get_agent_set in H2. case_decide as Hk; [|left; congruence].
  injection H2 as <-. subst. by apply Hb.
Qed.

Lemma claim_effect_currency r now st o st' : claim_effect r now st o st' → currency_step st st'.
Proof.
  inversion 1 as [e ? Hrows Hst|res Hr|owner provider a c inc d p st1 rec ? Hp Ho Htg Hal Htk Hl Hre
    |a res d st0 st1 rec ? H0 Ha Hm Hres Hl Hre]; subst; [by apply currency_same, Hrows|by apply currency_same|..].
  all: assert (agents st1 = agents st) as Hag1.
  { destruct (lead_moved_rows _ _ _ _ _ Hl) as (-> & _). apply (ensure_rows owner (rqMachineId r) now st). }
  2: { destruct (lead_moved_rows _ _ _ _ _ Hl) as (-> & _). destruct H0 as [->|(ow & _ & _ & ->)]; [done|apply ensure_rows]. }
  all: inversion Hre as [|g a0 att ow Hg Ha0 Hat How]; subst; [by apply currency_same|].
  all: apply (currency_put _ _ (rqAgentId r) (set_lifecycle Starting (rqAdapterId r) (Some (rqMachineId r, ow)) (Some att) now a0));
    [simpl; by rewrite Hag1|]; intros a1 Ha1; left; assert (a1 = a0) as -> by congruence; done.
Qed.

(** The rows a settled movement leaves. *)
Lemma movement_settled_rows r owner provider st g st1 rb a' b st2 st' :
  claims_ok (claims st) → movement_generation r owner provider st g st1 rb →
  mirror_step (mvAgentId r) a' (put_agent (mvAgentId r) a' (drop_claims (retired_claims r g st1) st1)) b st2 →
  (∃ g', (ownerInstanceId g ≠ None ∧ g' = g ∧ st' = st2) ∨
         (ownerInstanceId g = None ∧ g' = adopt owner g ∧ st' = put_claim g' st2)) →
  agents st' = JsMap.set (mvAgentId r) a' (agents st) ∧
  ∃ g', JsMap.get (claimId g) (claims st') = Some g' ∧ (g' = g ∨ ownerInstanceId g = None ∧ g' = adopt owner g).
Proof.
  intros Hok Hg Hmir Hfin. destruct (mirror_step_rows _ _ _ _ _ Hmir) as (Hags & Hcl & _).
  destruct (movement_generation_ok _ _ _ _ _ _ _ Hok Hg) as (Hok1 & Hget & _ & Ha1 & _).
  destruct (drop_claims_other (retired_claims r g st1) st1) as (_ & Ha2 & _).
  assert (JsMap.get (claimId g) (claims st2) = Some g) as Hg2.
  { rewrite Hcl. simpl. rewrite drop_claims_get. rewrite decide_False; [done|].
    intros (c & He & Hin)%list_elem_of_fmap. apply (retired_rows r g st1 c Hok1) in Hin as (_ & _ & _ & Hne). congruence. }
  destruct Hfin as (g' & [(_ & -> & ->)|(Hn & -> & ->)]); simpl; rewrite Hags; simpl; rewrite Ha2, Ha1; (split; [done|]).
  - exists g. by split; [|left].
  - exists (adopt owner g). change (claimId g) with (claimId (adopt owner g)) at 1. rewrite JsMap.get_set_eq. by split; [|right].
Qed.

Lemma movement_effect_currency r now st o st' : store_ok st → movement_effect r now st o st' → currency_step st st'.
Proof.
  intros Hok. inversion 1 as [e ? Hrows Hst|res ? Hres Hs Ha Hi Hcl
    |owner a provider target g st1 rb b st2 res ? f a' How Ha Hm Hd Ht Hg Hf Hrev Hp Hcs Hmir Hfin]; subst.
  - apply currency_same, Hrows.
  - by apply currency_same.
  - pose proof (store_ok_ensure owner (mvMachineId r) now st Hok) as Hok0.
    destruct (movement_generation_ok _ _ _ _ _ _ _ (so_claims _ Hok0) Hg) as (_ & _ & _ & _ & _ & Hga & Hgs & _).
    destruct (movement_settled_rows _ _ _ _ _ _ _ _ _ _ st' (so_claims _ Hok0) Hg Hmir) as (Hags & g' & Hget & Hg').
    { destruct Hfin as (g' & _ & Hfin). by exists g'. }
    destruct (ensure_rows owner (mvMachineId r) now st) as (_ & Hae & _). rewrite Hae in Hags.
    apply (currency_put _ _ (mvAgentId r) a' Hags). intros a0 Ha0. right. assert (a0 = a) as -> by congruence.
    split; [done|simpl; lia|done|]. exists g'. by destruct Hg' as [->|[_ ->]].
Qed.

Lemma step_currency st st' : store_ok st → step st st' → currency_step st st'.
Proof.
  intros Hok [c Hc]. destruct c; simpl in *.
  - pose proof (runClaim_effect r uuid now st (so_claims _ Hok) Hc) as He. destruct (runClaim _ _ _ _).
    by eapply claim_effect_currency.
  - unfold settleCurrency. destruct (JsMap.get _ _) as [a|] eqn:Ha; [|by apply currency_same].
    pose proof (applySettle_effect a r now st) as He. destruct (applySettle _ _ _ _) as [o s'].
    inversion He as [e|res Hr|b ? cur Hau Hrev Hp a' Hmir]; subst; [by apply currency_same..|]. simpl.
    destruct (mirror_step_rows _ _ _ _ _ Hmir) as (Hags & Hcl & _).
    apply (currency_put _ _ (stAgentId r) a' Hags). intros a0 Ha0. right. assert (a0 = a) as -> by congruence.
    split; [apply Hau|simpl; lia|apply Hau|]. destruct Hau as [_ _ (c & Hfc & ? & ? & ? & ?)].
    exists c. rewrite Hcl. by destruct (findClaimByToken_Some _ _ _ (so_claims _ Hok) Hfc).
  - pose proof (settleMovement_effect r uuid now st (so_claims _ Hok) Hc) as He. destruct (settleMovement _ _ _ _).
    by eapply movement_effect_currency.
  - unfold finalizeRecovery. destruct (JsMap.get _ _) as [a|] eqn:Ha; [|by apply currency_same].
    destruct (decide _); [by apply currency_same|]. eapply currency_put; [reflexivity|].
    intros a0 Ha0. left. assert (a0 = a) as -> by congruence. by destruct action.
  - unfold release. destruct (findClaimByToken _ _) as [c|]; [|by apply currency_same].
    destruct (decide _); [by apply currency_same|]. by destruct d; apply currency_same.
  - unfold releaseAgentClaims. destruct d; apply currency_same; [apply drop_claims_other|apply put_claims_other].
  - by apply currency_same.
  - unfold storeAgentPreservingOwnership. eapply currency_put; [reflexivity|].
    intros a0 Ha0. left. by rewrite Ha0.
  - intros id' a a' H1 H2. simpl in H2. rewrite JsMap.get_delete in H2. case_decide; [done|]. left. congruence.
  - unfold applyStatusTransition. destruct (JsMap.get _ _) as [a|] eqn:Ha; [|by apply currency_same].
    destruct (decide _); [by apply currency_same|].
    destruct (match expected with None => _ | Some _ => _ end); [by apply currency_same|].
    eapply currency_put; [reflexivity|]. intros a0 Ha0. left. by assert (a0 = a) as -> by congruence.
  - unfold applyRuntimeUpdate. destruct (JsMap.get _ _) as [a|] eqn:Ha; [|by apply currency_same].
    eapply currency_put; [reflexivity|]. intros a0 Ha0. left. by assert (a0 = a) as -> by congruence.
  - unfold setSession. destruct (_ && _); by apply currency_same.
  - unfold applySessionUpdate. by destruct (JsMap.get _ _); apply currency_same.
  - intros id' a a' H1 H2. simpl in H2. rewrite JsMap.get_filter in H2 by apply Hok. rewrite H1 in H2.
    case_decide; [|done]. left. congruence.
Qed.

(** In any step of a reachable store, an agent's currency, revision and
    fence either stay as they were, or a live agent's revision grows by exactly
    one and its fence does not fall, under a held generation of that agent in
    its own session that carries the new fence. *)
Theorem currency_written_by_holder (st st' : Store) (Hr : rtc step empty_store st) (Hs : step st st')
    (id : string) (a a' : Agent) (Ha : JsMap.get id (agents st) = Some a) (Ha' : JsMap.get id (agents st') = Some a') :
  currency_of a' = currency_of a ∨ currency_write st' id a a'.
Proof. apply (step_currency st st'); [apply (steps_ok _ _ Hr), store_ok_empty|done..]. Qed.

(** Steps through which the agent row stays. *)
Definition live_step (id : string) (st st' : Store) : Prop := step st st' ∧ is_Some (JsMap.get id (agents st')).

Lemma fence_monotone id st st' a a' : store_ok st → rtc (live_step id) st st' →
  JsMap.get id (agents st) = Some a → JsMap.get id (agents st') = Some a' →
  default 0 (currencyFence a) ≤ default 0 (currencyFence a').
Proof.
  intros Hok Hl. revert a Hok. induction Hl as [st|st1 st2 st3 [Hs [b Hb]] _ IH]; intros a Hok Ha Ha';
    [by assert (a = a') as -> by congruence|].
  transitivity (default 0 (currencyFence b)); [|by apply (IH b (step_ok _ _ Hok Hs))].
  destruct (step_currency _ _ Hok Hs id a b Ha Hb) as [He|Hw]; [|apply Hw].
  apply (f_equal snd) in He. simpl in He. lia.
Qed.

(** C29: once an agent's currency was written under a fence, a settle under a
    lower fence is refused for as long as the agent exists and changes nothing. *)
Theorem superseded_generation_is_powerless (st st' : Store) (Hr : rtc step empty_store st) (id : string)
    (Hl : rtc (live_step id) st st') (a : Agent) (Ha : JsMap.get id (agents st) = Some a)
    (r : SettleRequest) (now : Z) (Hid : stAgentId r = id) (Hlow : stFence r < default 0 (currencyFence a)) :
  ∃ res, settleCurrency r now st' = (Ok res, st') ∧
    (res = SettleDisposed ∨ res = NotOwner ∨ res = SettleNotFound ∨ ∃ f, res = Superseded f ∧ stFence r < f).
Proof.
  unfold settleCurrency. rewrite Hid. destruct (JsMap.get id (agents st')) as [a'|] eqn:Ha'; [|by eexists; eauto].
  pose proof (fence_monotone id st st' a a' (steps_ok _ _ Hr store_ok_empty) Hl Ha Ha') as Hm.
  unfold applySettle, st_bind, gets, refuseSettle. destruct (decide (status a' = Disposed)); [by eexists; eauto|].
  destruct (negb _); [by eexists; eauto|]. rewrite decide_True by lia.
  eexists. split; [done|]. do 3 right. eexists. split; [done|]. lia.
Qed.

(** ** Generations *)

(** The facts that let a request replace a stored generation. *)
Definition takeover_justified (st st' : Store) (c : Claim) (r : TakeoverRequest) : Prop :=
  tkSuperseded r = Some (claimToken c) ∨
  (claimStatus c = Held ∧ claimAgentId c = tkAgentId r ∧ ownerInstanceId c = Some (tkOwner r)) ∨
  ∃ i, ownerInstanceId c = Some (instanceId i) ∧ instanceMachineId i = machineId c ∧
       JsMap.get (runtimeInstanceKey (instanceId i) (machineId c)) (runtimeInstances st) = Some i ∧
       (retiredAt i ≠ None ∨
        tkTopology r = MachineExclusive ∧
        ∃ j, JsMap.get (runtimeInstanceKey (tkOwner r) (tkMachineId r)) (runtimeInstances st') = Some j ∧
             incarnation i < incarnation j).

Lemma ensure_get owner machine now st k i : JsMap.get k (runtimeInstances st) = Some i →
  JsMap.get k (runtimeInstances (ensureMemoryRuntimeInstance owner machine now st)) = Some i.
Proof.
  unfold ensureMemoryRuntimeInstance. destruct (JsMap.get (runtimeInstanceKey owner machine) _) eqn:Hg; [done|].
  simpl. rewrite JsMap.get_set. case_decide; [|done]. congruence.
Qed.

Lemma takeover_justified_intro owner now st c r :
  store_ok st → JsMap.get (claimId c) (claims st) = Some c →
  let st1 := ensureMemoryRuntimeInstance owner (tkMachineId r) now st in
  memoryMayTakeOver st1 r c = true → takeover_justified st st1 c r.
Proof.
  intros Hok Hg st1. unfold memoryMayTakeOver. destruct (so_refs _ Hok _ _ Hg) as (_ & ow & How & [i Hi]). rewrite How.
  destruct (io_key _ (so_instances _ Hok) _ _ Hi) as [Hkey _]. apply runtimeInstanceKey_inj in Hkey as [-> Hm].
  destruct (decide (tkSuperseded r = _)); [by left|].
  destruct (decide (claimStatus c = Held ∧ _)) as [(? & ? & ?)|_]; [right; left; split_and!; congruence|].
  rewrite (ensure_get _ _ _ _ _ _ Hi : JsMap.get _ (runtimeInstances st1) = Some i). intros Hcase. right. right. exists i.
  split_and!; try done. revert Hcase. simpl. destruct (decide (is_Some (retiredAt i))) as [[t Ht]|_]; [left; by rewrite Ht|].
  destruct (decide (tkTopology r = MachineExclusive)) as [He|]; [|done].
  destruct (JsMap.get _ (runtimeInstances st1)) as [j|] eqn:Hj; [|done].
  intros Hlt%bool_decide_eq_true. right. split; [done|]. by exists j.
Qed.

(** Why a call may change or remove the stored generation [c]. *)
Inductive cause (st : Store) (c : Claim) : Call → Store → Prop :=
  | cause_claim r uuid now owner st' :
      rqOwner r = Some owner → takeover_justified st st' c (takeover_request r owner) → cause st c (CClaim r uuid now) st'
  | cause_own_movement r uuid now st' : mvAgentId r = claimAgentId c → cause st c (CMovement r uuid now) st'
  | cause_movement r uuid now owner st' :
      mvOwner r = Some owner →
      takeover_justified st st' c {| tkMachineId := mvMachineId r; tkAgentId := mvAgentId r; tkOwner := owner;
                                     tkTopology := mvTopology r; tkSuperseded := None |} →
      cause st c (CMovement r uuid now) st'
  | cause_release d now st' : cause st c (CRelease (claimAgentId c) (claimToken c) d now) st'
  | cause_release_agent token d now st' :
      token = None ∨ token = Some (claimToken c) → cause st c (CReleaseAgent (claimAgentId c) token d now) st'
  | cause_delete_agent st' : cause st c (CDeleteAgent (claimAgentId c)) st'
  | cause_delete_session id st' :
      claimSessionId c = id ∨ agentSessionId <$> JsMap.get (claimAgentId c) (agents st) = Some id →
      cause st c (CDeleteSession id) st'.

Definition kept_or_caused (st : Store) (c : Claim) (k : Call) (st' : Store) : Prop :=
  JsMap.get (claimId c) (claims st') = Some c ∨ cause st c k st'.

Lemma kept st c k st' : claims st' = claims st → JsMap.get (claimId c) (claims st) = Some c → kept_or_caused st c k st'.
Proof. intros He ?. left. by rewrite He. Qed.

Lemma takeover_later st st1 st' c r : takeover_justified st st1 c r → runtimeInstances st' = runtimeInstances st1 →
  takeover_justified st st' c r.
Proof. unfold takeover_justified. by intros ? ->. Qed.

Lemma reserved_rows r now ag st rec st' : reserved r now ag st rec st' →
  sessions st' = sessions st ∧ claims st' = claims st ∧ runtimeInstances st' = runtimeInstances st.
Proof. by inversion 1. Qed.

Lemma claim_effect_cause r uuid now st o st' c : store_ok st → JsMap.get (claimId c) (claims st) = Some c →
  claim_effect r now st o st' → kept_or_caused st c (CClaim r uuid now) st'.
Proof.
  intros Hok Hg. inversion 1 as [e ? Hrows Hst|res Hr|owner provider a c' inc d p st1 rec ? Hp Ho Htg Hal Htk Hl Hre
    |a res d st0 st1 rec ? H0 Ha Hm Hres Hl Hre]; subst; [by apply kept; [apply Hrows|]|by apply kept|..].
  - destruct (reserved_rows _ _ _ _ _ _ Hre) as (_ & Hc1 & Hi1), (lead_moved_rows _ _ _ _ _ Hl) as (_ & Hc2 & Hi2).
    destruct (decide (claimId c' = claimId c)) as [He|Hne].
    + pose proof (al_incumbent _ _ _ _ _ _ _ _ _ _ Hal) as Hin. rewrite He in Hin. destruct inc as [e|]; [|by destruct Hin; congruence].
      destruct Hin as [Hge _]. assert (e = c) as -> by congruence. destruct (Htk c eq_refl) as [_ Hmay].
      right. apply (cause_claim _ _ _ _ _ owner); [done|].
      pose proof (takeover_justified_intro owner now st c (takeover_request r owner) Hok Hg Hmay) as Hj.
      apply (takeover_later _ _ _ _ _ Hj). by rewrite Hi1, Hi2.
    + left. rewrite Hc1, Hc2. simpl. rewrite JsMap.get_set_ne by done.
      by destruct (ensure_rows owner (rqMachineId r) now st) as (_ & _ & ->).
  - destruct (reserved_rows _ _ _ _ _ _ Hre) as (_ & Hc1 & _), (lead_moved_rows _ _ _ _ _ Hl) as (_ & Hc2 & _).
    apply kept; [|done]. rewrite Hc1, Hc2. destruct H0 as [->|(ow & _ & _ & ->)]; [done|apply ensure_rows].
Qed.

Lemma movement_effect_cause r uuid now st o st' c : store_ok st → JsMap.get (claimId c) (claims st) = Some c →
  movement_effect r now st o st' → kept_or_caused st c (CMovement r uuid now) st'.
Proof.
  intros Hok Hg. inversion 1 as [e ? Hrows Hst|res ? Hres Hs Ha Hi Hcl
    |owner a provider target g st1 rb b st2 res ? f a' How Ha Hm Hd Ht Hgen Hf Hrev Hp Hcs Hmir Hfin]; subst.
  - by apply kept; [apply Hrows|].
  - left. apply JsMap.get_elem_iff; [unfold JsMap.keys; rewrite Hcl; apply Hok|]. rewrite Hcl. by apply JsMap.get_elem.
  - destruct (decide (mvAgentId r = claimAgentId c)) as [|Hne]; [right; by apply cause_own_movement|].
    destruct (ensure_rows owner (mvMachineId r) now st) as (_ & _ & Hc0).
    pose proof (store_ok_ensure owner (mvMachineId r) now st Hok) as Hok0.
    destruct (mirror_step_rows _ _ _ _ _ Hmir) as (_ & Hcl & Hil). destruct (drop_claims_other (retired_claims r g st1) st1) as (_ & _ & Hid1).
    destruct (movement_generation_ok _ _ _ _ _ _ _ (so_claims _ Hok0) Hgen) as (Hok1 & Hg1 & _ & _ & Hi1 & Hag & _).
    assert (claims st' = claims st2 ∧ runtimeInstances st' = runtimeInstances st2) as [Hc3 Hi3].
    { destruct Hfin as (g' & _ & [(_ & -> & ->)|(Hn & _)]); [done|]. exfalso.
      inversion Hgen as [? Hgs|? inc ? Hal]; subst; [|destruct Hal; congruence].
      destruct (so_refs _ Hok0 _ _ Hgs) as (_ & ow & ? & _). congruence. }
    destruct (decide (claimId g = claimId c)) as [He|Hnc].
    + inversion Hgen as [? Hgs ? Hga|? inc ? Hal Hmay]; subst; [rewrite He, Hc0 in Hgs; congruence|].
      pose proof (al_incumbent _ _ _ _ _ _ _ _ _ _ Hal) as Hin. rewrite He, Hc0 in Hin. destruct inc as [e|]; [|by destruct Hin; congruence].
      destruct Hin as [Hge _]. assert (e = c) as -> by congruence.
      right. apply (cause_movement _ _ _ _ _ owner); [done|].
      pose proof (takeover_justified_intro owner now st c {| tkMachineId := mvMachineId r; tkAgentId := mvAgentId r;
        tkOwner := owner; tkTopology := mvTopology r; tkSuperseded := None |} Hok Hg (Hmay c eq_refl)) as Hj.
      apply (takeover_later _ _ _ _ _ Hj). rewrite Hi3, Hil. simpl. by rewrite Hid1, Hi1.
    + left. rewrite Hc3, Hcl. simpl. rewrite drop_claims_get. rewrite decide_False.
      * inversion Hgen; subst; simpl; rewrite ?JsMap.get_set_ne by done; by rewrite Hc0.
      * intros (x & Hx & Hin)%list_elem_of_fmap. apply (retired_rows r g st1 x Hok1) in Hin as (Hgx & Hax & _ & _).
        rewrite <- Hx in Hgx. apply Hne. rewrite <- Hax. f_equal.
        inversion Hgen; subst; simpl in Hgx; rewrite ?JsMap.get_set_ne in Hgx by done; congruence.
Qed.

Lemma put_claims_other_row l st k : k ∉ claimId <$> l → JsMap.get k (claims (put_claims l st)) = JsMap.get k (claims st).
Proof.
  unfold put_claims. revert st. induction l as [|c l IH]; intros st Hk; simpl; [done|].
  rewrite IH by set_solver. simpl. rewrite JsMap.get_set_ne; [done|]. set_solver.
Qed.

(** C30: a stored generation of a reachable store changes or disappears only
    through a call that names its token or its agent, deletes its session, or
    replaces it under one of the takeover facts: named supersession, the same
    agent and process, a retired owner, or a newer process of an exclusive machine. *)
Theorem generation_lost_only_for_cause (st : Store) (Hr : rtc step empty_store st) (k : Call) (Hk : call_ok k st)
    (c : Claim) (Hc : JsMap.get (claimId c) (claims st) = Some c) :
  JsMap.get (claimId c) (claims (perform k st)) = Some c ∨ cause st c k (perform k st).
Proof.
  pose proof (steps_ok _ _ Hr store_ok_empty) as Hok. change (kept_or_caused st c k (perform k st)).
  destruct k; simpl in *.
  - pose proof (runClaim_effect r uuid now st (so_claims _ Hok) Hk) as He. destruct (runClaim _ _ _ _).
    by eapply claim_effect_cause.
  - apply kept; [|done]. unfold settleCurrency. destruct (JsMap.get (stAgentId r) (agents st)) as [a|]; [|done].
    pose proof (applySettle_effect a r now st) as He. destruct (applySettle _ _ _ _).
    inversion He as [| |b ? cur Hau Hrev Hp a' Hmir]; subst; [done..|]. apply (mirror_step_rows _ _ _ _ _ Hmir).
  - pose proof (settleMovement_effect r uuid now st (so_claims _ Hok) Hk) as He. destruct (settleMovement _ _ _ _).
    by eapply movement_effect_cause.
  - apply kept; [|done]. unfold finalizeRecovery. destruct (JsMap.get id (agents st)); [|done]. by destruct (decide _).
  - unfold release. destruct (findClaimByToken _ _) as [x|] eqn:Ht; [|by apply kept].
    destruct (findClaimByToken_Some _ _ _ (so_claims _ Hok) Ht) as [Hg <-].
    destruct (decide _) as [|<-%dec_stable]; [by apply kept|].
    destruct (decide (claimId x = claimId c)) as [He|Hne].
    { assert (x = c) as -> by congruence. right. constructor. }
    left. destruct d; simpl; [by rewrite JsMap.get_delete_ne|by rewrite JsMap.get_set_ne].
  - destruct (decide (claimId c ∈ claimId <$> scoped_claims id token st)) as [(x & Hx & Hin)%list_elem_of_fmap|Hni].
    + apply (scoped_rows id token st x (so_claims _ Hok)) in Hin as (Hg & <- & Ht).
      assert (x = c) as -> by congruence. right. by constructor.
    + left. unfold releaseAgentClaims. destruct d; simpl; [by rewrite drop_claims_get, decide_False|].
      rewrite put_claims_other_row; [done|]. by rewrite <- list_fmap_compose.
  - by apply kept.
  - by apply kept.
  - destruct (decide (claimAgentId c = id)) as [<-|Hne]; [right; constructor|]. left. simpl.
    rewrite JsMap.get_filter, Hc by apply Hok. by rewrite decide_True.
  - apply kept; [|done]. unfold applyStatusTransition. destruct (JsMap.get id (agents st)); [|done]. destruct (decide _); [done|].
    by destruct (match expected with None => _ | Some _ => _ end).
  - apply kept; [|done]. unfold applyRuntimeUpdate. by destruct (JsMap.get id (agents st)).
  - apply kept; [|done]. unfold setSession. by destruct (_ && _).
  - apply kept; [|done]. unfold applySessionUpdate. by destruct (JsMap.get id (sessions st)).
  - destruct (decide (claimSessionId c = id ∨ agentSessionId <$> JsMap.get (claimAgentId c) (agents st) = Some id)) as [|Hn];
      [right; by constructor|]. left. simpl. rewrite JsMap.get_filter, Hc by apply Hok. rewrite decide_True; [done|].
    intros [?|((x & y) & Hx & Hin)%list_elem_of_fmap]; apply Hn; [by left|right].
    apply list_elem_of_filter in Hin as [Hs Hin]. simpl in *. subst x.
    rewrite (JsMap.elem_get _ _ _ (so_agent_keys _ Hok) Hin). simpl. by rewrite Hs.
Qed.

(** ** Refusals *)

(** C35: a refused claim, settle or movement leaves the store as it was (a
    movement that undoes its claims phase restores the same rows, possibly in
    another order), and a claim or movement that throws leaves every session,
    agent and claim row as it was. *)
Theorem refused_writes_nothing (st : Store) (Hr : rtc step empty_store st) (uuid : string)
    (Hu : JsMap.get uuid (claims st) = None) (now : Z) :
  (∀ r, match runClaim r uuid now st with
        | (Ok res, st') => refused res = true → st' = st
        | (Throw _, st') => same_rows st st'
        end) ∧
  (∀ r, match settleCurrency r now st with
        | (Ok res, st') => is_settled res = false → st' = st
        | (Throw _, st') => st' = st
        end) ∧
  (∀ r, match settleMovement r uuid now st with
        | (Ok res, st') => movement_settled res = false →
            sessions st' = sessions st ∧ agents st' = agents st ∧ runtimeInstances st' = runtimeInstances st ∧
            claims st' ≡ₚ claims st
        | (Throw _, st') => same_rows st st'
        end).
Proof.
  pose proof (steps_ok _ _ Hr store_ok_empty) as Hok. split_and!; intros r.
  - pose proof (runClaim_effect r uuid now st (so_claims _ Hok) Hu) as He. destruct (runClaim _ _ _ _).
    inversion He as [| |owner provider a c inc d p st1 rec ? Hp Ho Htg Hal Htk Hl Hre|a res d st0 st1 rec ? H0 Ha Hm Hres Hl Hre];
      subst; try done.
    by destruct Hres as [(? & ? & ->)|(? & ->)].
  - unfold settleCurrency. destruct (JsMap.get (stAgentId r) (agents st)) as [a|]; [|done].
    pose proof (applySettle_effect a r now st) as He. destruct (applySettle _ _ _ _). by inversion He; subst.
  - pose proof (settleMovement_effect r uuid now st (so_claims _ Hok) Hu) as He. destruct (settleMovement _ _ _ _).
    inversion He as [| |owner a provider target g st1 rb b st2 res ? f a' ? ? ? ? ? ? ? ? ? ? ? (g' & Hs & _)]; subst; try done.
    congruence.
Qed.

(** ** The published currency of a session *)
Definition sessionSnapshot (s : Session) : CurrencySnapshot :=
  {| origin := sessionOrigin s; current := sessionCurrent s; currentState := default Inherited (sessionCurrentState s) |}.

(** The session advertises what its lead, when it is a member, would resume. *)
Definition mirrored (sid : string) (st : Store) : Prop := ∀ s l a,
  JsMap.get sid (sessions st) = Some s → leadAgentId s = Some l → JsMap.get l (agents st) = Some a →
  agentSessionId a = sid →
  resolveResumableAdapterSessionId (sessionSnapshot s) = resolveResumableAdapterSessionId (agentCurrencySnapshot a).

Lemma mirror_resolves a s l : resolveResumableAdapterSessionId
    (sessionSnapshot (let '(c, x) := resolveLeadCurrencyMirror a (sessionOrigin s) in set_snapshot c x (set_lead l s))) =
  resolveResumableAdapterSessionId (agentCurrencySnapshot a).
Proof.
  unfold resolveLeadCurrencyMirror, agentCurrencySnapshot, resolveResumableAdapterSessionId, sessionSnapshot.
  destruct (default Inherited (agentCurrentState a)) eqn:E; simpl; try done; [].
  destruct (decide (agentOrigin a = sessionOrigin s)) as [->|]; simpl; [done|]. by destruct (agentOrigin a).
Qed.
Lemma mirror_resolves_kept a s : resolveResumableAdapterSessionId
    (sessionSnapshot (let '(c, x) := resolveLeadCurrencyMirror a (sessionOrigin s) in set_snapshot c x s)) =
  resolveResumableAdapterSessionId (agentCurrencySnapshot a).
Proof.
  rewrite <- (mirror_resolves a s (leadAgentId s)). by destruct s, (resolveLeadCurrencyMirror _ _).
Qed.
Lemma mirror_lead_kept a s : let s' := (let '(c, x) := resolveLeadCurrencyMirror a (sessionOrigin s) in set_snapshot c x s) in
  leadAgentId s' = leadAgentId s.
Proof. by destruct (resolveLeadCurrencyMirror _ _). Qed.

(** Agents that resolve alike. *)
Definition same_resume (st st' : Store) : Prop := ∀ id a', JsMap.get id (agents st') = Some a' →
  ∃ a, JsMap.get id (agents st) = Some a ∧ agentSessionId a = agentSessionId a' ∧
       agentCurrencySnapshot a = agentCurrencySnapshot a'.

Lemma mirrored_same sid st st' : mirrored sid st → sessions st' = sessions st → same_resume st st' → mirrored sid st'.
Proof.
  intros Hm He Hs s l a' H1 H2 H3 H4. rewrite He in H1. destruct (Hs l a' H3) as (a & Ha & Hsid & Hcur).
  rewrite <- Hcur. apply (Hm s l a); congruence.
Qed.
Lemma same_resume_refl st st' : agents st' = agents st → same_resume st st'.
Proof. intros He id a' Ha. rewrite He in Ha. by exists a'. Qed.
Lemma same_resume_put st st' k b : agents st' = agents (put_agent k b st) →
  (∃ a, JsMap.get k (agents st) = Some a ∧ agentSessionId a = agentSessionId b ∧
        agentCurrencySnapshot a = agentCurrencySnapshot b) → same_resume st st'.
Proof.
  intros He (a & Ha & Hs & Hc) id a' Ha'. rewrite He, get_agent_set in Ha'. case_decide; [|by exists a'].
  injection Ha' as <-. subst. by exists a.
Qed.

Lemma mirrored_lead sid r a st d st' : mirrored sid st → agent_ok (rqAgentId r) a →
  JsMap.get (rqAgentId r) (agents st) = Some a → lead_moved r a st d st' → mirrored sid st'.
Proof.
  intros Hm (Hid & _) Ha. inversion 1 as [|s x Hs Hd He Hc]; subst; [done|]. intros s' l a' H1 H2 H3 H4.
  simpl in H1, H3. rewrite JsMap.get_set in H1. case_decide as Hk; [|by apply (Hm s' l a')].
  injection H1 as <-. destruct (clear x); [done|]. rewrite mirror_resolves.
  assert (l = rqAgentId r) as ->; [|by assert (a' = a) as -> by congruence].
  revert H2. destruct (resolveLeadCurrencyMirror _ _). simpl. congruence.
Qed.

Lemma mirrored_settled sid id a' st b st' : mirrored sid st →
  (∃ a, JsMap.get id (agents st) = Some a ∧ agentSessionId a = agentSessionId a') →
  mirror_step id a' (put_agent id a' st) b st' → mirrored sid st'.
Proof.
  intros Hm (a & Ha & Hsid) Hmir s l x H1 H2 H3 H4. destruct (mirror_step_rows _ _ _ _ _ Hmir) as (Hags & _).
  rewrite Hags, get_agent_set in H3. inversion Hmir as [Hno|s0 Hs0 Hl0]; subst.
  - case_decide as Hk; [|by apply (Hm s l x)]. injection H3 as <-. subst. by destruct (Hno s H1).
  - simpl in H1, Hs0. rewrite JsMap.get_set in H1. destruct (decide (agentSessionId a' = agentSessionId x)) as [Hk|Hk].
    + injection H1 as <-. rewrite mirror_lead_kept in H2. assert (l = id) as -> by congruence.
      rewrite decide_True in H3 by done. injection H3 as <-. apply mirror_resolves_kept.
    + case_decide; [congruence|]. by apply (Hm s l x).
Qed.

(** The writers outside the ownership seam that change an origin identity or an
    agent's session. *)
Definition moves_origin (k : Call) : bool :=
  match k with CSetAgent _ _ | CUpdateRuntime _ _ _ _ _ | CSetSession _ _ _ | CUpdateSession _ _ _ _ => true | _ => false end.

Lemma claim_effect_mirrored sid r now st o st' : store_ok st → mirrored sid st → claim_effect r now st o st' → mirrored sid st'.
Proof.
  intros Hok Hm. inversion 1 as [e ? Hrows Hst|res Hr|owner provider a c inc d p st1 rec ? Hp Ho Htg Hal Htk Hl Hre
    |a res d st0 st1 rec ? H0 Ha Hmem Hres Hl Hre]; subst; [|done|..].
  { destruct Hrows as (? & ? & _). by apply (mirrored_same sid st); [| |apply same_resume_refl]. }
  all: assert (Hpre : ∀ s0, sessions s0 = sessions st → agents s0 = agents st → mirrored sid s0)
    by (intros s0 ? ?; by apply (mirrored_same sid st); [| |apply same_resume_refl]).
  all: assert (Hend : mirrored sid st1 ∧ agents st1 = agents st).
  { destruct (lead_moved_rows _ _ _ _ _ Hl) as (-> & _). destruct (ensure_rows owner (rqMachineId r) now st) as (Hs & Hags & _).
    split; [|done]. refine (mirrored_lead sid r a _ d _ _ _ _ Hl);
      [by apply Hpre|apply (so_agents _ Hok), Htg|simpl; rewrite Hags; apply Htg]. }
  2: { assert (sessions st0 = sessions st ∧ agents st0 = agents st) as [Hs0 Ha0].
    { destruct H0 as [->|(ow & _ & _ & ->)]; [done|]. by destruct (ensure_rows ow (rqMachineId r) now st) as (? & ? & _). }
    destruct (lead_moved_rows _ _ _ _ _ Hl) as (-> & _). split; [|done].
    refine (mirrored_lead sid r a _ d _ _ _ _ Hl); [by apply Hpre|by apply (so_agents _ Hok)|by rewrite Ha0]. }
  all: destruct Hend as [Hm1 Ha1]; inversion Hre as [|g a0 att ow Hg Ha0 Hat How]; subst; [done|].
  all: apply (mirrored_same sid st1); [done|done|]; eapply same_resume_put; [reflexivity|]; exists a0; by rewrite Ha1.
Qed.

Lemma movement_effect_mirrored sid r now st o st' : store_ok st → mirrored sid st → movement_effect r now st o st' → mirrored sid st'.
Proof.
  intros Hok Hm. inversion 1 as [e ? Hrows Hst|res ? Hres Hs Ha Hi Hcl
    |owner a provider target g st1 rb b st2 res ? f a' How Ha Hmem Hd Ht Hg Hf Hrev Hp Hcs Hmir Hfin]; subst.
  - destruct Hrows as (? & ? & _). by apply (mirrored_same sid st); [| |apply same_resume_refl].
  - by apply (mirrored_same sid st); [| |apply same_resume_refl].
  - pose proof (store_ok_ensure owner (mvMachineId r) now st Hok) as Hok0.
    destruct (ensure_rows owner (mvMachineId r) now st) as (Hs0 & Ha0 & _).
    destruct (movement_generation_ok _ _ _ _ _ _ _ (so_claims _ Hok0) Hg) as (_ & _ & Hs1 & Ha1 & _).
    destruct (drop_claims_other (retired_claims r g st1) st1) as (Hs2 & Ha2 & _).
    assert (mirrored sid st2) as Hm2.
    { refine (mirrored_settled sid _ a' _ b st2 _ _ Hmir); [|exists a; split; [by rewrite Ha2, Ha1, Ha0|reflexivity]].
      apply (mirrored_same sid st); [done|congruence|]. apply same_resume_refl. congruence. }
    destruct Hfin as (g' & _ & [(_ & _ & ->)|(_ & _ & ->)]); [done|].
    by apply (mirrored_same sid st2); [| |apply same_resume_refl].
Qed.

(** Every ownership operation, and every other call that leaves origins and
    memberships alone, keeps a session advertising exactly the provider session
    its lead would resume. *)
Theorem lead_currency_published (st : Store) (Hr : rtc step empty_store st) (k : Call) (Hk : call_ok k st)
    (Hseam : moves_origin k = false) (sid : string) (Hm : mirrored sid st) : mirrored sid (perform k st).
Proof.
  pose proof (steps_ok _ _ Hr store_ok_empty) as Hok. destruct k; simpl in *; try done.
  - pose proof (runClaim_effect r uuid now st (so_claims _ Hok) Hk) as He. destruct (runClaim _ _ _ _).
    by eapply claim_effect_mirrored.
  - unfold settleCurrency. destruct (JsMap.get (stAgentId r) (agents st)) as [a|] eqn:Ha; [|done].
    pose proof (applySettle_effect a r now st) as He. destruct (applySettle _ _ _ _).
    inversion He as [| |b ? cur Hau Hrev Hp a' Hmir]; subst; [done..|]. simpl.
    refine (mirrored_settled sid _ _ _ b _ Hm _ Hmir). by exists a.
  - pose proof (settleMovement_effect r uuid now st (so_claims _ Hok) Hk) as He. destruct (settleMovement _ _ _ _).
    by eapply movement_effect_mirrored.
  - unfold finalizeRecovery. destruct (JsMap.get id (agents st)) as [a|] eqn:Ha; [|done]. destruct (decide _); [done|].
    apply (mirrored_same sid st); [done|done|]. eapply same_resume_put; [reflexivity|]. exists a. by destruct action.
  - unfold release. destruct (findClaimByToken _ _); [|done]. destruct (decide _); [done|].
    destruct d; by apply (mirrored_same sid st); [| |apply same_resume_refl].
  - unfold releaseAgentClaims. destruct d; simpl.
    + destruct (drop_claims_other (scoped_claims id token st) st) as (? & ? & _).
      by apply (mirrored_same sid st); [| |apply same_resume_refl].
    + destruct (put_claims_other (set_status s now <$> scoped_claims id token st) st) as (? & ? & _).
      by apply (mirrored_same sid st); [| |apply same_resume_refl].
  - intros s l a H1 H2 H3 H4. simpl in H1, H3. rewrite JsMap.get_delete in H3. case_decide; [done|]. by apply (Hm s l a).
  - unfold applyStatusTransition. destruct (JsMap.get id (agents st)) as [a|] eqn:Ha; [|done]. destruct (decide _); [done|].
    destruct (match expected with None => _ | Some _ => _ end); [done|].
    apply (mirrored_same sid st); [done|done|]. eapply same_resume_put; [reflexivity|]. by exists a.
  - intros s l a H1 H2 H3 H4. simpl in H1, H3. rewrite JsMap.get_delete in H1. case_decide; [done|].
    rewrite JsMap.get_filter in H3 by apply Hok. destruct (JsMap.get l (agents st)) as [a0|] eqn:Ha; [|done].
    case_decide; [|done]. injection H3 as <-. by apply (Hm s l a0).
Qed.

(** ** Recovery *)
Definition recovery_of (res : ClaimResult) : option (string * RecoveryPreimage) :=
  match res with Claimed _ rec _ _ | Idempotent _ rec _ _ => rec | _ => None end.

Lemma claim_effect_recovery r now st res st' rec a owner :
  claim_effect r now st (Ok res) st' → recovery_of res = Some rec → rqOwner r = Some owner →
  JsMap.get (rqAgentId r) (agents st) = Some a →
  rec.2 = recovery_preimage a ∧ JsMap.get (rqAgentId r) (agents st') =
    Some (set_lifecycle Starting (rqAdapterId r) (Some (rqMachineId r, owner)) (Some rec.1) now a).
Proof.
  intros He Hrec Ho Ha. inversion He as [|? Hr|owner' provider a1 c inc d p st1 rec' ? Hp Ho' Htg Hal Htk Hl Hre
    |a1 res' d st0 st1 rec' ? H0 Ha' Hmem Hres Hl Hre]; subst; [by destruct res|..].
  all: assert (rec' = Some rec) as -> by
    (first [done|by destruct Hres as [(? & ? & ->)|(? & ->)]]).
  all: inversion Hre as [|g a2 att ow Hg Ha2 Hat How]; subst; simpl; rewrite JsMap.get_set_eq;
    assert (ow = owner) as -> by congruence; by assert (a2 = a) as -> by congruence.
Qed.

(** Rolling back a guarded reservation with the attempt and preimage it
    reported restores the agent's status, adapter, runtime owner and attempt;
    no other attempt can terminate the recovery. *)
Theorem recovery_rollback_restores (st : Store) (Hr : rtc step empty_store st) (r : ClaimRequest) (uuid : string)
    (Hu : JsMap.get uuid (claims st) = None) (now : Z) (res : ClaimResult) (st' : Store)
    (Hrun : runClaim r uuid now st = (Ok res, st')) (attempt : string) (pre : RecoveryPreimage)
    (Hrec : recovery_of res = Some (attempt, pre)) (owner : string) (Ho : rqOwner r = Some owner)
    (a : Agent) (Ha : JsMap.get (rqAgentId r) (agents st) = Some a) (now' : Z) :
  let binding := (rqAdapterId r, rqMachineId r, owner) in
  (let '(applied, st'') := finalizeRecovery (rqAgentId r) attempt binding (Rollback pre) now' st' in
   applied = Ok true ∧ JsMap.get (rqAgentId r) (agents st'') =
     Some (set_lifecycle (status a) (agentAdapterId a) (runtimeOwner a) (recoveryAttemptId a) now' a)) ∧
  (∀ attempt' b action, attempt' ≠ attempt →
     finalizeRecovery (rqAgentId r) attempt' b action now' st' = (Ok false, st')).
Proof.
  pose proof (steps_ok _ _ Hr store_ok_empty) as Hok.
  pose proof (runClaim_effect r uuid now st (so_claims _ Hok) Hu) as He. rewrite Hrun in He.
  destruct (claim_effect_recovery _ _ _ _ _ _ _ _ He Hrec Ho Ha) as [Hpre Hag]. simpl in Hpre, Hag. subst pre.
  unfold finalizeRecovery. rewrite Hag. split.
  - rewrite decide_False; [|simpl; naive_solver]. split; [done|]. simpl. rewrite JsMap.get_set_eq. unfold agent_binding.
    destruct a as [? ? ? ? [[m i]|] ? ? ? ? ? ? ?]; done.
  - intros attempt' b action Hne. rewrite decide_True; [done|]. right. left. simpl. congruence.
Qed.

(** ** Witnesses *)
Definition demo_session : Session :=
  {| sessionStatus := SessionActive; leadAgentId := None; sessionOrigin := Some "p0"; sessionCurrent := None;
     sessionCurrentState := None |}.
Definition demo_agent (id : string) : Agent :=
  {| agentId := id; agentSessionId := "s"; status := Idle; agentAdapterId := "ad"; runtimeOwner := None;
     recoveryAttemptId := None; agentOrigin := Some "p9"; agentCurrent := None; agentCurrentState := None;
     revision := None; currencyFence := None; lastActivityAt := 1 |}.
Definition demo_claim (id provider owner token : string) (lead : option Designation) : ClaimRequest :=
  {| rqMachineId := "m"; rqAdapterId := "ad"; rqAdapterName := "n"; rqProvider := Some provider; rqOwner := Some owner;
     rqTopology := SharedMachine; rqGuard := None; rqAttempt := None; rqSessionId := "s"; rqAgentId := id;
     rqToken := token; rqSupersedes := None; rqDesignate := lead |}.
Definition demo_lead : option Designation := Some {| expectedLeadAgentId := None; clear := false; restore := false |}.
Definition demo_movement : MovementRequest :=
  {| mvMachineId := "m"; mvAdapterId := "ad"; mvAdapterName := "n"; mvOwner := Some "i"; mvTopology := SharedMachine;
     mvSessionId := "s"; mvAgentId := "a"; mvExpectedRevision := 0; movement := ConfirmedAt "p2" "t2" |}.
Definition demo_rows : Store :=
  perform (CSetAgent "b" (demo_agent "b")) (perform (CSetAgent "a" (demo_agent "a")) (perform (CSetSession "s" demo_session true) empty_store)).
Definition demo_claimed : Store := perform (CClaim (demo_claim "a" "p1" "i" "t1" demo_lead) "u1" 5) demo_rows.
Definition demo_moved : Store := perform (CMovement demo_movement "u2" 7) demo_claimed.
Definition demo_guard : RecoveryGuard :=
  {| expectedStatus := Idle;
     expectedPreimage := {| preStatus := Idle; preAdapterId := "ad"; preBinding := None; preAttemptId := None |};
     expectedRevision := 0; expectedCurrencyFence := 0;
     expectedCurrency := {| origin := Some "p9"; current := None; currentState := Inherited |}; ownerGeneration := None |}.
Definition demo_recovery : ClaimRequest :=
  {| rqMachineId := "m"; rqAdapterId := "ad"; rqAdapterName := "n"; rqProvider := Some "p1"; rqOwner := Some "i";
     rqTopology := SharedMachine; rqGuard := Some demo_guard; rqAttempt := Some "x"; rqSessionId := "s";
     rqAgentId := "a"; rqToken := "t1"; rqSupersedes := None; rqDesignate := None |}.

Lemma demo_step k st : call_ok k st → rtc step empty_store st → rtc step empty_store (perform k st).
Proof. intros Hk Hr. eapply rtc_r; [exact Hr|by constructor]. Qed.
Lemma demo_rows_reachable : rtc step empty_store demo_rows.
Proof. do 3 (apply demo_step; [done|]). constructor. Qed.
Lemma demo_claimed_reachable : rtc step empty_store demo_claimed.
Proof. apply demo_step; [done|]. exact demo_rows_reachable. Qed.
Lemma demo_moved_step : step demo_claimed demo_moved.
Proof. apply (step_call demo_claimed (CMovement demo_movement "u2" 7)). reflexivity. Qed.

Definition agent_in (id : string) (st : Store) : Agent := default (demo_agent id) (JsMap.get id (agents st)).
Definition claim_in (id : string) (st : Store) : Claim := default
  {| claimId := ""; machineId := ""; adapterId := ""; adapterName := ""; providerSessionId := ""; claimSessionId := "";
     claimAgentId := ""; ownerInstanceId := None; claimToken := ""; fence := 0; claimStatus := Held; claimedAt := 0;
     updatedAt := 0 |} (JsMap.get id (claims st)).



Lemma demo_claimed_linked : rtc linked_step empty_store demo_claimed.
Proof.
  apply (rtc_r _ demo_rows); [|by apply (linked_call demo_rows (CClaim (demo_claim "a" "p1" "i" "t1" demo_lead) "u1" 5))].
  do 2 (eapply rtc_r; [|apply linked_call; [done|vm_compute; by eexists]]).
  apply rtc_once. by apply (linked_call empty_store (CSetSession "s" demo_session true)).
Qed.

Lemma ownership_store_well_formed_witness : store_ok demo_claimed ∧ sessions_exist demo_claimed.
Proof.
  split; [apply ownership_store_well_formed; exact demo_claimed_reachable|].
  apply ownership_store_well_formed; [exact demo_claimed_reachable|exact demo_claimed_linked].
Defined.

(** An agent stored for a session nobody created claims by a movement: the claim
    names a session without a row, which [adapter_session_claims.session_id]
    refuses. *)
Definition adrift : Store := perform (CMovement demo_movement "u2" 7) (perform (CSetAgent "a" (demo_agent "a")) empty_store).
Example claim_without_session : rtc step empty_store adrift ∧
  (∃ k c, JsMap.get k (claims adrift) = Some c ∧ claimSessionId c = "s") ∧ JsMap.get "s" (sessions adrift) = None.
Proof.
  split_and!; [|by exists "u2"; vm_compute; eexists|done].
  apply (rtc_l _ _ (perform (CSetAgent "a" (demo_agent "a")) empty_store));
    [by apply (step_call empty_store (CSetAgent "a" (demo_agent "a")))|]. apply rtc_once.
  by apply (step_call (perform (CSetAgent "a" (demo_agent "a")) empty_store) (CMovement demo_movement "u2" 7)).
Qed.

Lemma currency_written_by_holder_witness :
  currency_of (agent_in "a" demo_moved) = currency_of (agent_in "a" demo_claimed) ∨
  currency_write demo_moved "a" (agent_in "a" demo_claimed) (agent_in "a" demo_moved).
Proof.
  apply (currency_written_by_holder demo_claimed demo_moved demo_claimed_reachable demo_moved_step); vm_compute; reflexivity.
Defined.

Definition demo_stale : SettleRequest :=
  {| stAgentId := "a"; stToken := "t1"; stFence := 1; stExpectedRevision := 1;
     stTarget := {| targetId := None; targetState := Moved |} |}.
Lemma superseded_generation_is_powerless_witness :
  ∃ res, settleCurrency demo_stale 9 demo_moved = (Ok res, demo_moved) ∧
    (res = SettleDisposed ∨ res = NotOwner ∨ res = SettleNotFound ∨ ∃ f, res = Superseded f ∧ stFence demo_stale < f).
Proof.
  apply (superseded_generation_is_powerless demo_moved demo_moved (rtc_r _ _ _ demo_claimed_reachable demo_moved_step)
    "a" (rtc_refl _ _) (agent_in "a" demo_moved)); vm_compute; reflexivity.
Defined.

Lemma generation_lost_only_for_cause_witness :
  JsMap.get "u1" (claims demo_moved) = Some (claim_in "u1" demo_claimed) ∨
  cause demo_claimed (claim_in "u1" demo_claimed) (CMovement demo_movement "u2" 7) demo_moved.
Proof.
  apply (generation_lost_only_for_cause demo_claimed demo_claimed_reachable (CMovement demo_movement "u2" 7) eq_refl
    (claim_in "u1" demo_claimed)). vm_compute. reflexivity.
Defined.

Lemma refused_writes_nothing_witness : (runClaim (demo_claim "b" "p1" "j" "t3" None) "u3" 9 demo_claimed).2 = demo_claimed.
Proof.
  destruct (refused_writes_nothing demo_claimed demo_claimed_reachable "u3" eq_refl 9) as [H _].
  specialize (H (demo_claim "b" "p1" "j" "t3" None)).
  destruct (runClaim (demo_claim "b" "p1" "j" "t3" None) "u3" 9 demo_claimed) as [o st'] eqn:E.
  assert (o = Ok (AlreadyClaimed (claim_in "u1" demo_claimed))) as ->.
  { change o with (o, st').1. rewrite <- E. vm_compute. reflexivity. }
  exact (H eq_refl).
Defined.

Lemma demo_mirrored : mirrored "s" demo_claimed.
Proof.
  intros s l a H1 H2 H3 _. vm_compute in H1. injection H1 as <-. injection H2 as <-. vm_compute in H3.
  by injection H3 as <-.
Qed.
Lemma lead_currency_published_witness : mirrored "s" demo_moved.
Proof.
  apply (lead_currency_published demo_claimed demo_claimed_reachable (CMovement demo_movement "u2" 7) eq_refl eq_refl).
  exact demo_mirrored.
Defined.

Lemma recovery_rollback_restores_witness :
  JsMap.get "a" (agents (finalizeRecovery "a" "x" ("ad", "m", "i")
    (Rollback (recovery_preimage (agent_in "a" demo_rows))) 8 (runClaim demo_recovery "u1" 7 demo_rows).2).2) =
    Some (set_lifecycle Idle "ad" None None 8 (agent_in "a" demo_rows)).
Proof.
  pose proof (recovery_rollback_restores demo_rows demo_rows_reachable demo_recovery "u1" eq_refl 7
    (match (runClaim demo_recovery "u1" 7 demo_rows).1 with Ok res => res | Throw _ => AgentDisposed end)
    (runClaim demo_recovery "u1" 7 demo_rows).2 ltac:(vm_compute; reflexivity) "x"
    (recovery_preimage (agent_in "a" demo_rows)) ltac:(vm_compute; reflexivity) "i" eq_refl
    (agent_in "a" demo_rows) ltac:(vm_compute; reflexivity) 8) as [H _].
  revert H. vm_compute. by intros [_ H].
Defined.

(** A reused token throws after the owner row was allocated, and leaves it. *)
Lemma reused_token_leaves_instance :
  let '(o, st') := runClaim (demo_claim "b" "p7" "k" "t1" None) "u3" 9 demo_claimed in
  o = Throw (TokenInUse "t1") ∧ claims st' = claims demo_claimed ∧
  JsMap.has (runtimeInstanceKey "k" "m") (runtimeInstances demo_claimed) = false ∧
  JsMap.has (runtimeInstanceKey "k" "m") (runtimeInstances st') = true.
Proof. vm_compute. done. Qed.
