(* ===== verification/Workflow.v ===== *)
(** * Workflow definitions, frames and the runtime context

    The node tree of a workflow ([core/contracts/src/workflow/schemas.ts]), the
    frames an execution keeps of it, the expression context of a node
    ([subsystems/workflow-engine/src/runtime/runtime-context.ts]), gate rows, and
    what a run asks of its surroundings: expressions, handlers, storage, the
    artifact service.

    A frame is an object the registry and the executors share; the model refers
    to it by its identifier, and a write through any reference is a write to
    the object.  Frames loaded for a resumption are objects of the index and not
    of the registry, as in the code.  Frame identifiers are drawn by the code at
    random; here they are the position of the write in the run, which no two
    writes share.  Every await takes the time [latency] says. *)
From S2P Require Import Prelude Json.

(** ** Node definitions

    The branches of a parallel node are listed in the order of
    [Object.entries].  The [id], [when] and [skip] of a sequence that is the
    body of a container are never read by the runtime and are left out. *)
Inductive parallel_mode := AllSettled | FailFast.

Inductive auto_action := AutoApprove | AutoReject.

Record gate_config := {
  g_prompt : string;
  g_title : option string;
  g_autoAction : auto_action;
  g_timeoutMs : option Z;
  g_resumeSchema : option json;
}.

Record escalation_config := {
  e_title : option string;
  e_prompt : string;
  e_resumeSchema : option json;
  e_autoAction : option auto_action;
  e_timeoutMs : option Z;
}.

Record loop_gate := {
  lg_handler : string;
  lg_input : option string;
  lg_config : option json;
  lg_escalation : option escalation_config;
}.

Inductive node :=
  | Node (id : string) (node_when skip : option string) (kind : node_kind)
with node_kind :=
  | Station (role : option string)
  | DelegateAgent
  | DelegateRole
  | Parallel (mode : option parallel_mode) (branches : list (string * list node))
  | Gate (g : gate_config)
  | Iterate (collection : string) (body : list node) (concurrency : option Z)
  | IterateChain (collection : string) (body : list node)
  | Loop (maxRounds : Z) (body : list node) (gate : loop_gate)
  | Sequence (nodes : list node).

Definition node_id (n : node) : string := let 'Node id _ _ _ := n in id.
Definition node_when (n : node) : option string := let 'Node _ w _ _ := n in w.
Definition node_skip (n : node) : option string := let 'Node _ _ s _ := n in s.
Definition node_body (n : node) : node_kind := let 'Node _ _ _ k := n in k.

Inductive node_type :=
  | TStation | TDelegateAgent | TDelegateRole | TParallel | TGate | TIterate | TIterateChain
  | TLoop | TSequence.

#[export] Instance node_type_eq_dec : EqDecision node_type.
Proof. solve_decision. Defined.

Definition type_of (n : node) : node_type :=
  match node_body n with
  | Station _ => TStation
  | DelegateAgent => TDelegateAgent
  | DelegateRole => TDelegateRole
  | Parallel _ _ => TParallel
  | Gate _ => TGate
  | Iterate _ _ _ => TIterate
  | IterateChain _ _ => TIterateChain
  | Loop _ _ _ => TLoop
  | Sequence _ => TSequence
  end.

Section node_ind.
Context (P : node → Prop).
Context (Hstation : ∀ id w s r, P (Node id w s (Station r)))
  (Hagent : ∀ id w s, P (Node id w s DelegateAgent))
  (Hrole : ∀ id w s, P (Node id w s DelegateRole))
  (Hparallel : ∀ id w s mode bs, Forall (λ b : string * list node, Forall P b.2) bs →
     P (Node id w s (Parallel mode bs)))
  (Hgate : ∀ id w s g, P (Node id w s (Gate g)))
  (Hiterate : ∀ id w s c body k, Forall P body → P (Node id w s (Iterate c body k)))
  (Hchain : ∀ id w s c body, Forall P body → P (Node id w s (IterateChain c body)))
  (Hloop : ∀ id w s m body g, Forall P body → P (Node id w s (Loop m body g)))
  (Hseq : ∀ id w s ns, Forall P ns → P (Node id w s (Sequence ns))).

(** Induction over nodes, through the bodies and branches they contain. *)
Fixpoint node_ind' (n : node) : P n :=
  let all := fix all (ns : list node) : Forall P ns :=
    match ns with
    | [] => List.Forall_nil _
    | m :: ns' => List.Forall_cons _ _ _ (node_ind' m) (all ns')
    end in
  match n with
  | Node id w s k =>
      match k with
      | Station r => Hstation id w s r
      | DelegateAgent => Hagent id w s
      | DelegateRole => Hrole id w s
      | Parallel mode bs => Hparallel id w s mode bs
          ((fix go (l : list (string * list node)) :
              Forall (λ b : string * list node, Forall P b.2) l :=
              match l with
              | [] => List.Forall_nil _
              | b :: l' => List.Forall_cons _ _ _ (all b.2) (go l')
              end) bs)
      | Gate g => Hgate id w s g
      | Iterate c body k => Hiterate id w s c body k (all body)
      | IterateChain c body => Hchain id w s c body (all body)
      | Loop m body g => Hloop id w s m body g (all body)
      | Sequence ns => Hseq id w s ns (all ns)
      end
  end.
End node_ind.

(** ** Frames *)
Inductive frame_status :=
  | SPending | SRunning | SWaiting | SCompleted | SFailed | SSkipped | SCancelled.

#[export] Instance frame_status_eq_dec : EqDecision frame_status.
Proof. solve_decision. Defined.

(** A write's position in the run, innermost counter first. *)
Definition frame_id := list nat.

Record frame := {
  frameId : frame_id;
  nodeId : string;
  nodeType : node_type;
  path : list frame_id;
  parentFrameId : option frame_id;
  status : frame_status;
  attempt : Z;
  iteration : option Z;
  branchKey : option string;
  output : option json;
  error : option string;
  startedAt : option Z;
  completedAt : option Z;
}.

Definition status_text (s : frame_status) : string :=
  match s with
  | SPending => "pending" | SRunning => "running" | SWaiting => "waiting"
  | SCompleted => "completed" | SFailed => "failed" | SSkipped => "skipped"
  | SCancelled => "cancelled"
  end.

Definition with_status (s : frame_status) (f : frame) : frame :=
  {| frameId := frameId f; nodeId := nodeId f; nodeType := nodeType f; path := path f;
     parentFrameId := parentFrameId f; status := s; attempt := attempt f;
     iteration := iteration f; branchKey := branchKey f; output := output f; error := error f;
     startedAt := startedAt f; completedAt := completedAt f |}.
Definition with_started (t : Z) (f : frame) : frame :=
  {| frameId := frameId f; nodeId := nodeId f; nodeType := nodeType f; path := path f;
     parentFrameId := parentFrameId f; status := status f; attempt := attempt f;
     iteration := iteration f; branchKey := branchKey f; output := output f; error := error f;
     startedAt := Some t; completedAt := completedAt f |}.
Definition with_completed (t : Z) (f : frame) : frame :=
  {| frameId := frameId f; nodeId := nodeId f; nodeType := nodeType f; path := path f;
     parentFrameId := parentFrameId f; status := status f; attempt := attempt f;
     iteration := iteration f; branchKey := branchKey f; output := output f; error := error f;
     startedAt := startedAt f; completedAt := Some t |}.
Definition with_output (o : option json) (f : frame) : frame :=
  {| frameId := frameId f; nodeId := nodeId f; nodeType := nodeType f; path := path f;
     parentFrameId := parentFrameId f; status := status f; attempt := attempt f;
     iteration := iteration f; branchKey := branchKey f; output := o; error := error f;
     startedAt := startedAt f; completedAt := completedAt f |}.
Definition with_error (e : string) (f : frame) : frame :=
  {| frameId := frameId f; nodeId := nodeId f; nodeType := nodeType f; path := path f;
     parentFrameId := parentFrameId f; status := status f; attempt := attempt f;
     iteration := iteration f; branchKey := branchKey f; output := output f; error := Some e;
     startedAt := startedAt f; completedAt := completedAt f |}.

(** ** Expression contexts

    [item] and the members of [config] and [trigger] are any values of the
    program; the model keeps their JSON. *)
Record frame_entry := { fe_status : frame_status; fe_output : option json }.

Inductive previous_step :=
  | PrevCompleted (o : option json)
  | PrevSkipped.

Record expr_ctx := {
  inputs : json;
  config : json;
  trigger : json;
  frames : list (string * frame_entry);
  previousSteps : list (string * previous_step);
  x_output : option json;
  item : option json;
  index : option Z;
  previous : option json;
}.

(** Entries that are neither completed nor skipped are left out. *)
Definition buildPreviousStepsFromFrames (fs : list (string * frame_entry)) :
    list (string * previous_step) :=
  foldl (λ acc '(id, e),
    match fe_status e with
    | SCompleted => JsMap.set id (PrevCompleted (fe_output e)) acc
    | SSkipped => JsMap.set id PrevSkipped acc
    | _ => acc
    end) [] fs.

(** A frame entry that may be merged: [completed] with or without output, or
    [skipped]. *)
Inductive mergeable :=
  | MergeCompleted (o : option json)
  | MergeSkipped.

Definition entry_of (m : mergeable) : frame_entry :=
  match m with
  | MergeCompleted o => {| fe_status := SCompleted; fe_output := o |}
  | MergeSkipped => {| fe_status := SSkipped; fe_output := None |}
  end.

Definition mergeFrameOutput (c : expr_ctx) (id : string) (m : mergeable) : expr_ctx :=
  let fs := JsMap.set id (entry_of m) (frames c) in
  {| inputs := inputs c; config := config c; trigger := trigger c;
     frames := fs;
     previousSteps := buildPreviousStepsFromFrames fs;
     x_output := match m with MergeCompleted o => o | MergeSkipped => x_output c end;
     item := item c; index := index c; previous := previous c |}.

(** [{ ...expressionCtx, item, index }], and the same with [previous] when there
    is one. *)
Definition with_item (i : json) (k : Z) (c : expr_ctx) : expr_ctx :=
  {| inputs := inputs c; config := config c; trigger := trigger c; frames := frames c;
     previousSteps := previousSteps c; x_output := x_output c;
     item := Some i; index := Some k; previous := previous c |}.
Definition with_previous (p : option json) (c : expr_ctx) : expr_ctx :=
  match p with
  | None => c
  | Some _ =>
      {| inputs := inputs c; config := config c; trigger := trigger c; frames := frames c;
         previousSteps := previousSteps c; x_output := x_output c;
         item := item c; index := index c; previous := p |}
  end.

(** An optional member of an object literal. *)
Definition opt_member (k : string) (o : option json) : list (string * json) :=
  match o with Some v => [(k, v)] | None => [] end.

Definition json_of_entry (e : frame_entry) : json :=
  JObj (("status", JStr (status_text (fe_status e))) :: opt_member "output" (fe_output e)).

Definition json_of_previous_step (p : previous_step) : json :=
  match p with
  | PrevCompleted o => JObj (("status", JStr "completed") :: opt_member "output" o)
  | PrevSkipped => JObj [("status", JStr "skipped")]
  end.

(** The object an expression is evaluated against: the context, the aliases
    [input] and [steps], and the same object again under [ctx]. *)
Definition buildRuntimeExpressionScope (c : expr_ctx) : json :=
  let fs := JObj (map (λ kv, (kv.1, json_of_entry kv.2)) (frames c)) in
  let scope :=
    [("inputs", inputs c); ("config", config c); ("trigger", trigger c); ("frames", fs);
     ("previousSteps", JObj (map (λ kv, (kv.1, json_of_previous_step kv.2)) (previousSteps c)))]
    ++ opt_member "output" (x_output c) ++ opt_member "item" (item c)
    ++ opt_member "index" (JNum <$> index c) ++ opt_member "previous" (previous c)
    ++ [("input", inputs c); ("steps", fs)] in
  JObj (scope ++ [("ctx", JObj scope)]).

(** [Boolean(x)] on what an expression yields, [None] being [undefined]. *)
Definition truthy (v : option json) : bool :=
  match v with
  | None | Some JNull | Some (JBool false) | Some (JNum 0) | Some (JStr EmptyString) => false
  | _ => true
  end.

(** ** Outcomes of nodes *)
Inductive node_outcome :=
  | NCompleted (o : option json)
  | NSkipped
  | NCancelled
  | NPaused (pausedAtGateId : string) (pausedAtFrameId : frame_id)
  | NFailed (e : string).

#[export] Instance node_outcome_eq_dec : EqDecision node_outcome.
Proof. solve_decision. Defined.

(** ** Gate instances and bus events *)
Inductive gate_status := GWaiting | GResumed | GRejected | GTimedOut | GCancelled.

#[export] Instance gate_status_eq_dec : EqDecision gate_status.
Proof. solve_decision. Defined.

Definition gate_status_text (s : gate_status) : string :=
  match s with
  | GWaiting => "waiting" | GResumed => "resumed" | GRejected => "rejected"
  | GTimedOut => "timed-out" | GCancelled => "cancelled"
  end.

Record gate_instance := {
  gi_attempt : option string;
  gi_nodeId : string;
  gi_frameId : frame_id;
  gi_schema : json;
  gi_prompt : option string;
  gi_status : gate_status;
  gi_autoAction : auto_action;
  gi_timeoutMs : option Z;
  gi_resumeData : option json;
  gi_reason : option string;
  gi_createdAt : Z;
  gi_resolvedAt : option Z;
}.

Inductive gate_action := Approve | Reject.

#[export] Instance gate_action_eq_dec : EqDecision gate_action.
Proof. solve_decision. Defined.

Inductive resolution :=
  | ByUser (a : gate_action) (reason : option string)
  | ByTimeout (a : gate_action)
  | ByCancellation.

(** A row of the span read model. *)
Record span := {
  sp_frameId : frame_id;
  sp_stepId : string;
  sp_stepType : node_type;
  sp_status : frame_status;
  sp_startedAt : option Z;
  sp_completedAt : option Z;
  sp_durationMs : option Z;
  sp_output : option json;
}.

(** What leaves the runtime besides frames and gate rows: bus events, span rows,
    and calls of node executors ([Invoked]). *)
Inductive effect :=
  | FrameStarted (f : frame)
  | FrameCompleted (f : frame) (duration : option Z)
  | FrameFailed (f : frame) (e : string) (duration : option Z)
  | GateSuspended (nodeId : string) (fid : frame_id) (schema : json) (prompt : string)
      (title : option string) (autoAction : auto_action) (timeoutMs : option Z) (openedAt : Z)
  | GateResumedEv (nodeId : string) (fid : frame_id) (resumeData : json)
  | GateResolved (nodeId : string) (fid : frame_id) (r : resolution)
  | SpanSet (sp : span)
  | Invoked (nodeId : string) (fid : frame_id) (at_ : Z) (c : expr_ctx).

(** ** The surroundings of a run

    Station handlers, the delegation executors, the expression language, the
    template language, the JSON Schema compiler, the loop gate handlers, the
    messages other parties send, and how storage and the artifact service answer
    are not code of the runtime. *)

(** An abort signal: the first instant at which it reads aborted. *)
Definition signal := option Z.

(** What a handler call yields, and how long it takes ([None]: for ever). *)
Record call_result (A : Type) := { cr_value : A; cr_duration : option nat }.
Arguments cr_value {A} _.
Arguments cr_duration {A} _.

Record station_input := {
  si_previousSteps : list (string * previous_step);
  si_item : option json;
  si_index : option Z;
  si_previous : option json;
}.

Inductive leaf_outcome :=
  | LeafCompleted (o : option json)
  | LeafCancelled
  | LeafFailed (e : string).

Record ajv_error := { instancePath : string; ajv_message : option string }.

(** A compiled schema: [None] accepts, [Some errors] refuses. *)
Definition ValidateFunction := json → option (list ajv_error).

Inductive loop_gate_outcome :=
  | LGPass
  | LGLoop
  | LGEscalate (reason : string).

Record loop_gate_context := {
  lgc_nodeId : string;
  lgc_round : Z;
  lgc_maxRounds : Z;
}.

(** The payload of [workflow.gate.respond]. *)
Record respond_payload := {
  rp_executionId : string;
  rp_executionAttemptId : option string;
  rp_gateId : string;
  rp_frameId : option frame_id;
  rp_action : gate_action;
  rp_resumeData : json;
  rp_reason : option string;
}.

(** How a storage request ends: answered, without a handler, or failed; a request
    that failed may have been carried out all the same. *)
Inductive storage_reply :=
  | Answered
  | Unhandled
  | Faulted (message : string) (done : bool).

(** The artifact a workflow is bound to ([WorkflowDefinition.artifact]), the
    reference a start may carry, and what its expressions are evaluated against. *)
Record artifact_binding := {
  ab_kind : string;
  ab_resolve : option string;
  ab_create : option string;
}.

Record artifact_start := {
  as_binding : option artifact_binding;
  as_ref : option (string * string);
  as_context : json;
}.

Class Surroundings := {
  (** a throw carries the error message *)
  evaluateSync : string → json → outcome string (option json);
  resolveTemplate : string → json → outcome string string;
  ajv_compile : json → outcome string ValidateFunction;
  station_handlers : string →
    option (station_input → Z → signal → call_result (outcome string (option json)));
  (** [executeRoleSubagentNode], [executeDelegateAgentNode], [executeDelegateRoleNode] *)
  delegation : string → node_type → expr_ctx → frame_id → Z → signal →
    call_result (outcome string leaf_outcome);
  runtimeLoopGates : string →
    option (option json → json → loop_gate_context → outcome string loop_gate_outcome);
  (** responses that reach the handler a gate registers at the given instant *)
  gate_responses : string → frame_id → Z → list (Z * respond_payload);
  (** the time an await takes *)
  latency : frame_id → nat;
  (** storage and the artifact service, by the position of the request: a write of
      a frame, of a span, of a gate row, the reads of a gate row and of the frames
      of an execution, [artifact.query] and [artifact.create] *)
  setFrame : frame_id → frame → storage_reply;
  setSpan : frame_id → span → storage_reply;
  setGateInstance : frame_id → gate_instance → storage_reply;
  getGateInstance : frame_id → string → frame_id → storage_reply;
  listFrames : frame_id → storage_reply;
  artifact_query : frame_id → string * string → outcome string (list json);
  artifact_create : frame_id → string → list (string * json) → outcome string json;
}.
