(* ===== verification/RuntimeContext.v ===== *)
(** * The state of a run

    [RuntimeContext] of [subsystems/workflow-engine/src/runtime/runtime-context.ts]:
    the registry of frames, their persistence and the lifecycle events; the
    lifecycle helpers of [runtime/node-execution.ts]; the index of frames an
    earlier run persisted ([runtime/resume-frames.ts]).

    A write of a frame is a task of the frame's queue: [createFrame] only enqueues
    its write, [persistFrame] enqueues one and awaits it, which lets the earlier
    ones happen first.  A task may find no handler or fail; whether that throws
    depends on the suspension strategy.  A frame is written through one
    [RuntimeContext] only (a branch's frames through the one derived for the
    branch), so the queues of all contexts make one list, [inflight].  What a run
    awaits, and how long, is explicit: [tick] is the end of an await. *)
From stdpp Require Import pretty.
From S2P Require Import Prelude JsValue Json Workflow.

(** How a run handles suspension points. *)
Inductive suspension_strategy := WaitInProcess | ExitAndRedispatch | ExitAndResume.

#[export] Instance suspension_strategy_eq_dec : EqDecision suspension_strategy.
Proof. solve_decision. Defined.

(** The immutable part of a [RuntimeContext]. *)
Record run_ctx := {
  executionId : string;
  executionAttemptId : option string;
  suspensionStrategy : suspension_strategy;
  rsignal : signal;
}.

(** [suspensionStrategy !== 'wait-in-process'] *)
Definition parks (ctx : run_ctx) : bool := negb (bool_decide (suspensionStrategy ctx = WaitInProcess)).

(** A task of [framePersistenceTasks]: the snapshot to write, taken at [fw_at],
    and whether the write is required. *)
Record frame_write := {
  fw_at : frame_id;
  fw_required : bool;
  fw_frame : frame;
}.

(** The mutable part, shared by every context derived with [withSignal], and
    the storage behind it. *)
Record rt := {
  pos : frame_id;
  now : Z;
  registry : list (frame_id * frame);
  resumeFrames : list frame;
  inflight : list frame_write;
  stored : list (frame_id * frame);
  gates : list ((string * frame_id) * gate_instance);
  effects : list effect;
}.

(** Why a computation yields no value: it throws, it awaits something that never
    comes, or (for loops) the model's bound is exhausted. *)
Inductive halt :=
  | Raised (message : string)
  | Never
  | OutOfFuel.

Definition M (A : Type) : Type := ST rt halt A.

Definition asks {A} (f : rt → A) : M A := λ s, (Ok (f s), s).
Definition modify (f : rt → rt) : M unit := λ s, (Ok tt, f s).
Definition raise {A} (m : string) : M A := st_throw (Raised m).

(** [try { m } catch (error) { h(message) }] *)
Definition try_catch {A} (m : M A) (h : string → M A) : M A := λ s,
  match m s with
  | (Throw (Raised e), s') => h e s'
  | r => r
  end.

(** A throw of a function outside the runtime. *)
Definition rethrow {A} (o : outcome string A) : M A :=
  match o with Ok a => st_ret a | Throw e => raise e end.

Definition next_pos (p : frame_id) : frame_id :=
  match p with [] => [] | k :: rest => S k :: rest end.

Definition set_pos (p : frame_id) (s : rt) : rt :=
  {| pos := p; now := now s; registry := registry s; resumeFrames := resumeFrames s;
     inflight := inflight s; stored := stored s; gates := gates s; effects := effects s |}.
Definition set_now (t : Z) (s : rt) : rt :=
  {| pos := pos s; now := t; registry := registry s; resumeFrames := resumeFrames s;
     inflight := inflight s; stored := stored s; gates := gates s; effects := effects s |}.
Definition set_registry (r : list (frame_id * frame)) (s : rt) : rt :=
  {| pos := pos s; now := now s; registry := r; resumeFrames := resumeFrames s;
     inflight := inflight s; stored := stored s; gates := gates s; effects := effects s |}.
Definition set_resumeFrames (r : list frame) (s : rt) : rt :=
  {| pos := pos s; now := now s; registry := registry s; resumeFrames := r;
     inflight := inflight s; stored := stored s; gates := gates s; effects := effects s |}.
Definition set_stored (r : list (frame_id * frame)) (s : rt) : rt :=
  {| pos := pos s; now := now s; registry := registry s; resumeFrames := resumeFrames s;
     inflight := inflight s; stored := r; gates := gates s; effects := effects s |}.
Definition set_inflight (ws : list frame_write) (s : rt) : rt :=
  {| pos := pos s; now := now s; registry := registry s; resumeFrames := resumeFrames s;
     inflight := ws; stored := stored s; gates := gates s; effects := effects s |}.
Definition set_gates (g : list ((string * frame_id) * gate_instance)) (s : rt) : rt :=
  {| pos := pos s; now := now s; registry := registry s; resumeFrames := resumeFrames s;
     inflight := inflight s; stored := stored s; gates := g; effects := effects s |}.
Definition add_effect (e : effect) (s : rt) : rt :=
  {| pos := pos s; now := now s; registry := registry s; resumeFrames := resumeFrames s;
     inflight := inflight s; stored := stored s; gates := gates s; effects := effects s ++ [e] |}.

(** ** Signals *)
Definition aborted_at (a : signal) (t : Z) : bool :=
  match a with Some i => i <=? t | None => false end.

(** [ctx.signal.aborted] *)
Definition aborted (ctx : run_ctx) : M bool := asks (λ s, aborted_at (rsignal ctx) (now s)).

(** Aborts as soon as either input does. *)
Definition linkSignals (outer inner : signal) : signal :=
  match outer, inner with
  | Some a, Some b => Some (Z.min a b)
  | Some a, None => Some a
  | None, _ => inner
  end.

Definition withSignal (ctx : run_ctx) (a : signal) : run_ctx :=
  {| executionId := executionId ctx; executionAttemptId := executionAttemptId ctx;
     suspensionStrategy := suspensionStrategy ctx; rsignal := a |}.

Section run.
Context `{Surroundings}.

(** The end of an await that takes [d]. *)
Definition pass (d : nat) : M unit :=
  modify (λ s, set_pos (next_pos (pos s)) (set_now (now s + Z.of_nat d) s)).

Definition tick : M unit :=
  let* d := asks (λ s, latency (pos s)) in pass d.

(** [bus.emit], failures of observers being swallowed by every caller. *)
Definition emit (e : effect) : M unit :=
  let* _ := modify (add_effect e) in tick.

(** ** Frame objects *)

(** The object a reference denotes: registered by this run, or loaded for the
    resumption. *)
Definition frame_object (fid : frame_id) (s : rt) : option frame :=
  match JsMap.get fid (registry s) with
  | Some f => Some f
  | None => List.find (λ f, bool_decide (frameId f = fid)) (resumeFrames s)
  end.

Definition patch_frame (fid : frame_id) (g : frame → frame) (s : rt) : rt :=
  match JsMap.get fid (registry s) with
  | Some f => set_registry (JsMap.set fid (g f) (registry s)) s
  | None =>
      set_resumeFrames
        (map (λ f, if bool_decide (frameId f = fid) then g f else f) (resumeFrames s)) s
  end.

(** ** Persistence *)
Definition toSpanStepType (t : node_type) : option node_type :=
  match t with
  | TStation | TDelegateAgent | TDelegateRole | TGate => Some t
  | _ => None
  end.

Definition toFrameSpanRecord (f : frame) : option span :=
  match toSpanStepType (nodeType f) with
  | None => None
  | Some stepType =>
      match status f with
      | SRunning | SCompleted | SFailed | SSkipped =>
          Some {| sp_frameId := frameId f; sp_stepId := nodeId f; sp_stepType := stepType;
                  sp_status := status f; sp_startedAt := startedAt f;
                  sp_completedAt := completedAt f;
                  sp_durationMs :=
                    match startedAt f, completedAt f with
                    | Some a, Some b => Some (Z.max 0 (b - a))
                    | _, _ => None
                    end;
                  sp_output := output f |}
      | _ => None
      end
  end.

(** [bus.request] throws without a handler, [bus.requestOptional] does not; both
    throw when the request fails. *)
Definition request_error (required : bool) (subject : string) (r : storage_reply) : option string :=
  match r with
  | Answered => None
  | Unhandled =>
      if required then Some ("No handler registered for request subject " +:+ quoted subject) else None
  | Faulted m _ => Some m
  end.

Definition carried_out (r : storage_reply) : bool :=
  match r with Answered => true | Unhandled => false | Faulted _ done => done end.

(** The upsert of a frame row. *)
Definition put_row (f : frame) (s : rt) : rt := set_stored (JsMap.set (frameId f) f (stored s)) s.

Definition write_span (w : frame_write) (s : rt) : option string * rt :=
  match toFrameSpanRecord (fw_frame w) with
  | None => (None, s)
  | Some sp =>
      let r := setSpan (fw_at w) sp in
      (request_error false "storage:workflow.setSpan" r,
       if carried_out r then add_effect (SpanSet sp) s else s)
  end.

(** The body of a task, with the error it ends with: the frame, then its span. *)
Definition write_frame (w : frame_write) (s : rt) : option string * rt :=
  let r := setFrame (fw_at w) (fw_frame w) in
  let s' := if carried_out r then put_row (fw_frame w) s else s in
  match request_error (fw_required w) "storage:workflow.setFrame" r with
  | Some m => (Some m, s')
  | None => write_span w s'
  end.

(** Tasks in order: each starts when the one before has settled, however it did;
    the error of the last is what its caller sees. *)
Definition run_queue (ws : list frame_write) (s : rt) : option string * rt :=
  foldl (λ es w, write_frame w es.2) (None, s) ws.

Definition enqueue (w : frame_write) (s : rt) : rt := set_inflight (inflight s ++ [w]) s.

(** The queue of a frame, to its end. *)
Definition drain (fid : frame_id) (s : rt) : option string * rt :=
  run_queue (filter (λ w, frameId (fw_frame w) = fid) (inflight s))
    (set_inflight (filter (λ w, frameId (fw_frame w) ≠ fid) (inflight s)) s).

(** A snapshot of the frame is enqueued and its task awaited.  The error of a
    write that is not required is logged only. *)
Definition persistFrame (ctx : run_ctx) (fid : frame_id) (required : bool) : M unit :=
  let requireFrameStorage := required || parks ctx in
  let* p := asks pos in
  let* o := asks (frame_object fid) in
  match o with
  | None => tick
  | Some f =>
      let* _ := modify (enqueue {| fw_at := p; fw_required := requireFrameStorage; fw_frame := f |}) in
      let* e := (λ s, let '(e, s') := drain (frameId f) s in (Ok e, s')) in
      let* _ := tick in
      match e with
      | Some m => if requireFrameStorage then raise m else st_ret tt
      | None => st_ret tt
      end
  end.

(** ** Creating and finding frames *)
Record create_params := {
  cp_nodeId : string;
  cp_nodeType : node_type;
  cp_path : list frame_id;
  cp_parentFrameId : option frame_id;
  cp_iteration : option Z;
  cp_branchKey : option string;
}.

Definition new_frame (fid : frame_id) (p : create_params) : frame :=
  {| frameId := fid; nodeId := cp_nodeId p; nodeType := cp_nodeType p;
     path := cp_path p ++ [fid]; parentFrameId := cp_parentFrameId p;
     status := SPending; attempt := 0; iteration := cp_iteration p;
     branchKey := cp_branchKey p; output := None; error := None;
     startedAt := None; completedAt := None |}.

(** The first write is enqueued and not awaited; nobody sees its error. *)
Definition createFrame (ctx : run_ctx) (p : create_params) : M frame :=
  let* fid := asks pos in
  let f := new_frame fid p in
  let* _ := modify (λ s, enqueue {| fw_at := fid; fw_required := parks ctx; fw_frame := f |}
    (set_pos (next_pos fid) (set_registry (JsMap.set fid f (registry s)) s))) in
  st_ret f.

Definition frame_name (fid : frame_id) : string :=
  "frm_" +:+ Str.join "." (pretty <$> rev fid).

(** [updateFrame(frameId, { status }, { requireFrameStorage })] *)
Definition updateFrame (ctx : run_ctx) (fid : frame_id) (st : frame_status)
    (requireFrameStorage : bool) : M unit :=
  let* o := asks (λ s, JsMap.get fid (registry s)) in
  match o with
  | None => raise ("Frame not found: " +:+ frame_name fid)
  | Some _ =>
      let* _ := modify (patch_frame fid (with_status st)) in
      persistFrame ctx fid requireFrameStorage
  end.

Definition started_le (f g : frame) : bool :=
  default 0 (startedAt f) <=? default 0 (startedAt g).

Definition getFramesByNodeId (id : string) (s : rt) : list frame :=
  js_sort started_le (filter (λ f, nodeId f = id) (JsMap.values (registry s))).

(** ** Lifecycle *)
Definition startFrame (ctx : run_ctx) (fid : frame_id) : M unit :=
  let* t := asks now in
  let* _ := modify (patch_frame fid (λ f, with_started t (with_status SRunning f))) in
  let* _ := persistFrame ctx fid false in
  let* o := asks (frame_object fid) in
  match o with Some f => emit (FrameStarted f) | None => st_ret tt end.

(** [Math.max(0, completedAt - frame.startedAt)], when it has started. *)
Definition duration (t : Z) (f : frame) : option Z :=
  (λ a, Z.max 0 (t - a)) <$> startedAt f.

Definition completeFrame (ctx : run_ctx) (fid : frame_id) (o : option json) : M unit :=
  let* t := asks now in
  let* before := asks (frame_object fid) in
  let* _ := modify (patch_frame fid
    (λ f, with_completed t (with_output o (with_status SCompleted f)))) in
  let* _ := persistFrame ctx fid false in
  let* after := asks (frame_object fid) in
  match after with
  | Some f => emit (FrameCompleted f (before ≫= duration t))
  | None => st_ret tt
  end.

Definition failFrame (ctx : run_ctx) (fid : frame_id) (e : string) : M unit :=
  let* t := asks now in
  let* before := asks (frame_object fid) in
  let* _ := modify (patch_frame fid
    (λ f, with_completed t (with_error e (with_status SFailed f)))) in
  let* _ := persistFrame ctx fid false in
  let* after := asks (frame_object fid) in
  match after with
  | Some f => emit (FrameFailed f e (before ≫= duration t))
  | None => st_ret tt
  end.

Definition skipFrame (ctx : run_ctx) (fid : frame_id) : M unit :=
  let* t := asks now in
  let* _ := modify (patch_frame fid (λ f, with_completed t (with_status SSkipped f))) in
  persistFrame ctx fid false.

Definition cancelFrame (ctx : run_ctx) (fid : frame_id) : M unit :=
  let* t := asks now in
  let* _ := modify (patch_frame fid (λ f, with_completed t (with_status SCancelled f))) in
  persistFrame ctx fid false.

(** ** Frames of an earlier run *)
Record match_criteria := {
  mc_parentFrameId : option frame_id;
  mc_branchKey : option string;
  mc_iteration : option Z;
  mc_statuses : list frame_status;
}.

Definition DEFAULT_REUSABLE_FRAME_STATUSES : list frame_status := [SCompleted; SSkipped; SWaiting].

Definition matches (c : match_criteria) (f : frame) : bool :=
  bool_decide (parentFrameId f = mc_parentFrameId c) &&
  bool_decide (branchKey f = mc_branchKey c) &&
  bool_decide (iteration f = mc_iteration c) &&
  bool_decide (status f ∈ mc_statuses c).

(** The frames of a node, in the order storage listed them. *)
Definition byNodeId (fs : list frame) (id : string) : list frame :=
  filter (λ f, nodeId f = id) fs.

Definition findReusableResumeFrame (fs : list frame) (id : string) (c : match_criteria) :
    option frame :=
  List.find (matches c) (byNodeId fs id).
End run.

(** ** Basic facts *)
Lemma linkSignals_aborted a b t :
  aborted_at (linkSignals a b) t = aborted_at a t || aborted_at b t.
Proof.
  destruct a as [a|], b as [b|]; simpl; rewrite ?orb_false_r; [|done..].
  apply eq_true_iff_eq. rewrite orb_true_iff, !Z.leb_le. lia.
Qed.

Lemma aborted_mono a t t' : t ≤ t' → aborted_at a t = true → aborted_at a t' = true.
Proof. destruct a as [a|]; simpl; [|done]. rewrite !Z.leb_le. lia. Qed.

Lemma find_some_elem {A} (p : A → bool) l x : List.find p l = Some x → x ∈ l ∧ p x = true.
Proof. intros [Hin Hp]%List.find_some. by rewrite list_elem_of_In. Qed.

Lemma findReusable_spec fs id c f :
  findReusableResumeFrame fs id c = Some f →
  f ∈ fs ∧ nodeId f = id ∧ parentFrameId f = mc_parentFrameId c ∧ branchKey f = mc_branchKey c ∧
  iteration f = mc_iteration c ∧ status f ∈ mc_statuses c.
Proof.
  intros [Hin Hm]%find_some_elem. apply list_elem_of_filter in Hin as [Hid Hin].
  unfold matches in Hm. rewrite !andb_true_iff, !bool_decide_eq_true in Hm. naive_solver.
Qed.

Lemma findReusable_none fs id c f :
  findReusableResumeFrame fs id c = None → f ∈ fs → nodeId f = id →
  parentFrameId f = mc_parentFrameId c → branchKey f = mc_branchKey c →
  iteration f = mc_iteration c → status f ∉ mc_statuses c.
Proof.
  intros Hn Hin Hid Hp Hb Hi Hs.
  assert (matches c f = true) as Hm.
  { unfold matches. rewrite !andb_true_iff, !bool_decide_eq_true. naive_solver. }
  pose proof (List.find_none _ _ Hn f) as Hf. rewrite Hm in Hf. discriminate Hf.
  by apply list_elem_of_In, list_elem_of_filter.
Qed.
