(* ===== verification/GateNode.v ===== *)
(** * Gates

    A gate suspends a run until somebody answers.
    [subsystems/workflow-engine/src/runtime/gate-node.ts] for gate nodes,
    [runtime/loop-escalation.ts] for the gate a loop raises,
    [runtime/gate-resume-validation.ts], [runtime/deferred-race.ts].

    An in-process gate is a waiter fed with responses, one timeout and one abort
    in the order they happen; events of the same instant are taken in that
    order.  Exit-based strategies park the run instead and decide from the
    persisted gate row when it is dispatched again. *)
From stdpp Require Import pretty.
From S2P Require Import Prelude JsValue Json Workflow RuntimeContext.

Section gates.
Context `{Surroundings}.

(** ** Validation of resume data *)
Inductive validator_result :=
  | ValidatorOk (v : option ValidateFunction)
  | ValidatorFailed (e : string).

Definition compileGateResumeValidator (gateId : string) (schema : option json) : validator_result :=
  match schema with
  | None => ValidatorOk None
  | Some sch =>
      match ajv_compile sch with
      | Ok v => ValidatorOk (Some v)
      | Throw m => ValidatorFailed ("Gate '" +:+ gateId +:+ "' has an invalid resumeSchema: " +:+ m)
      end
  end.

Definition formatAjvErrors (errors : list ajv_error) : string :=
  match errors with
  | [] => "schema validation failed"
  | _ => Str.join "; " (map (λ e,
      (if (0 <? String.length (instancePath e))%nat then instancePath e else "/") +:+ " "
      +:+ default "is invalid" (ajv_message e)) errors)
  end.

(** [None] for valid data, the error otherwise. *)
Definition validateGateResumeData (v : option ValidateFunction) (d : json) : option string :=
  match v with
  | None => None
  | Some f => formatAjvErrors <$> f d
  end.

Definition validateGateResumeDataForSchema (gateId : string) (schema : option json) (d : json) :
    option string :=
  match compileGateResumeValidator gateId schema with
  | ValidatorFailed e => Some e
  | ValidatorOk v => validateGateResumeData v d
  end.

(** ** The in-process waiter *)

(** What can reach a waiting gate. *)
Inductive gate_input :=
  | InRespond (p : respond_payload)
  | InTimeout
  | InAbort.

(** How a [gate.respond] request is answered; [Forwarded] is [next()]. *)
Inductive respond_reply := Accepted | Refused | Forwarded.

#[export] Instance respond_reply_eq_dec : EqDecision respond_reply.
Proof. solve_decision. Defined.

Inductive race_result :=
  | RaceResponse (a : gate_action) (d : json) (reason : option string)
  | RaceTimedOut
  | RaceCancelled.

(** The [pending] flag shared by the handler, the timer and the abort listener,
    and the settlement of the race. *)
Record waiter := { pending : bool; settled : option race_result }.

Definition fresh_waiter : waiter := {| pending := true; settled := None |}.

Definition settle_with (w : waiter) (r : race_result) : waiter :=
  if pending w then {| pending := false; settled := Some r |} else w.

(** The [gate.respond] handler of a gate. *)
Definition on_respond (ctx : run_ctx) (id : string) (fid : frame_id)
    (v : option ValidateFunction) (w : waiter) (p : respond_payload) : respond_reply * waiter :=
  if negb (bool_decide (rp_executionId p = executionId ctx)) || negb (bool_decide (rp_gateId p = id))
     || negb (bool_decide (rp_executionAttemptId p = executionAttemptId ctx))
     || match rp_frameId p with Some f => negb (bool_decide (f = fid)) | None => false end
  then (Forwarded, w)
  else if negb (pending w) then (Refused, w)
  else match validateGateResumeData v (rp_resumeData p) with
       | Some _ => (Refused, w)
       | None => (Accepted, settle_with w (RaceResponse (rp_action p) (rp_resumeData p) (rp_reason p)))
       end.

Definition on_input (ctx : run_ctx) (id : string) (fid : frame_id) (v : option ValidateFunction)
    (w : waiter) (i : gate_input) : option respond_reply * waiter :=
  match i with
  | InRespond p => let '(r, w') := on_respond ctx id fid v w p in (Some r, w')
  | InTimeout => (None, settle_with w RaceTimedOut)
  | InAbort => (None, settle_with w RaceCancelled)
  end.

(** The replies and the final waiter of a series of inputs. *)
Fixpoint feed (ctx : run_ctx) (id : string) (fid : frame_id) (v : option ValidateFunction)
    (w : waiter) (xs : list gate_input) : list (option respond_reply) * waiter :=
  match xs with
  | [] => ([], w)
  | i :: xs' =>
      let '(r, w1) := on_input ctx id fid v w i in
      let '(rs, w2) := feed ctx id fid v w1 xs' in
      (r :: rs, w2)
  end.

Definition input_le (x y : Z * gate_input) : bool := x.1 <=? y.1.

(** What reaches a gate that registered its handler at some instant and armed
    its timer and abort listener at [armed]: responses may come in between, and
    an abort of that time is noticed when the listener is added. *)
Definition gate_inputs (responses : list (Z * respond_payload)) (armed : Z)
    (timeoutMs : option Z) (a : signal) : list (Z * gate_input) :=
  let rs := map (λ tp : Z * respond_payload, (tp.1, InRespond tp.2)) (js_sort (λ x y, x.1 <=? y.1) responses) in
  let early := filter (λ tp : Z * gate_input, tp.1 ≤ armed) rs in
  let late := filter (λ tp : Z * gate_input, armed < tp.1) rs in
  let timeout := match timeoutMs with Some d => [(armed + d, InTimeout)] | None => [] end in
  let abort := match a with Some i => [(Z.max armed i, InAbort)] | None => [] end in
  early ++
  (if aborted_at a armed then abort ++ late ++ timeout
   else js_sort input_le (late ++ timeout ++ abort)).

(** The first input that settles the race, and when the gate sees it. *)
Fixpoint race (ctx : run_ctx) (id : string) (fid : frame_id) (v : option ValidateFunction)
    (armed : Z) (w : waiter) (xs : list (Z * gate_input)) : option (Z * race_result) :=
  match xs with
  | [] => None
  | (t, i) :: xs' =>
      let w' := (on_input ctx id fid v w i).2 in
      match settled w' with
      | Some r => Some (Z.max armed t, r)
      | None => race ctx id fid v armed w' xs'
      end
  end.

(** Wait until an instant that is not in the past. *)
Definition wait_until (t : Z) : M unit :=
  let* n := asks now in pass (Z.to_nat (t - n)).

(** [raceGateSuspension], [raceDeferredResponse]: a race nothing settles is never
    left. *)
Definition raceResponse (ctx : run_ctx) (id : string) (fid : frame_id)
    (v : option ValidateFunction) (registered : Z) (timeoutMs : option Z) : M race_result :=
  let* armed := asks now in
  match race ctx id fid v armed fresh_waiter
          (gate_inputs (gate_responses id fid registered) armed timeoutMs (rsignal ctx)) with
  | None => st_throw Never
  | Some (t, r) => let* _ := wait_until t in st_ret r
  end.

(** ** Gate rows *)
Definition AUTO_APPROVE_TIMEOUT_RESUME_DATA : json :=
  JObj [("action", JStr "approve"); ("source", JStr "timeout")].


(** Without [required] the error is logged only. *)
Definition upsertGateInstance (required : bool) (g : gate_instance) : M unit :=
  let* p := asks pos in
  let r := setGateInstance p g in
  let* _ := modify (λ s,
    if carried_out r then set_gates (JsMap.set (gi_nodeId g, gi_frameId g) g (gates s)) s else s) in
  let* _ := tick in
  match request_error required "storage:workflow.setGateInstance" r with
  | Some m => if required then raise m else st_ret tt
  | None => st_ret tt
  end.

(** In process, storage without a handler has no row. *)
Definition loadGateInstance (ctx : run_ctx) (id : string) (fid : frame_id) : M (option gate_instance) :=
  let* p := asks pos in
  let r := getGateInstance p id fid in
  let* _ := tick in
  match request_error (parks ctx) "storage:workflow.getGateInstance" r with
  | Some m => raise m
  | None => asks (λ s, match r with Answered => JsMap.get (id, fid) (gates s) | _ => None end)
  end.

(** [{ ...gate, status, resolvedAt }], with the answer when there is one. *)
Definition settle_instance (st : gate_status) (d : option json) (reason : option string) (t : Z)
    (g : gate_instance) : gate_instance :=
  {| gi_attempt := gi_attempt g; gi_nodeId := gi_nodeId g; gi_frameId := gi_frameId g;
     gi_schema := gi_schema g; gi_prompt := gi_prompt g; gi_status := st;
     gi_autoAction := gi_autoAction g; gi_timeoutMs := gi_timeoutMs g;
     gi_resumeData := match d with Some _ => d | None => gi_resumeData g end;
     gi_reason := match reason with Some _ => reason | None => gi_reason g end;
     gi_createdAt := gi_createdAt g; gi_resolvedAt := Some t |}.

(** [String(timeoutMs)] *)
Definition ms_text (t : option Z) : string := match t with Some z => pretty z | None => "null" end.

(** [timeoutMs !== null && Date.now() >= createdAt + timeoutMs] *)
Definition expired (g : gate_instance) (t : Z) : bool :=
  match gi_timeoutMs g with Some d => gi_createdAt g + d <=? t | None => false end.

Definition user_status (a : gate_action) : gate_status :=
  match a with Reject => GRejected | Approve => GResumed end.

Definition action_of_status (st : gate_status) : gate_action :=
  match st with GRejected => Reject | _ => Approve end.

(** ** Gate nodes *)
Definition emitGateSuspended (id : string) (title : option string) (a : auto_action)
    (timeoutMs : option Z) (fid : frame_id) (schema : json) (prompt : string) (openedAt : Z) : M unit :=
  emit (GateSuspended id fid schema prompt title a timeoutMs openedAt).

Definition emitGateResolved (id : string) (fid : frame_id) (r : resolution) : M unit :=
  emit (GateResolved id fid r).

Definition gate_output (d : json) : option json := Some (JObj [("resumeData", d)]).

(** A gate whose timeout elapsed: its auto action decides. *)
Definition settleTimedOutGate (ctx : run_ctx) (id : string) (fid : frame_id) (g : gate_instance)
    (v : option ValidateFunction) : M node_outcome :=
  let* resolvedAt := asks now in
  match gi_autoAction g with
  | AutoApprove =>
      match validateGateResumeData v AUTO_APPROVE_TIMEOUT_RESUME_DATA with
      | Some e =>
          let* _ := upsertGateInstance (parks ctx) (settle_instance GTimedOut None None resolvedAt g) in
          let* _ := emitGateResolved id fid (ByTimeout Reject) in
          st_ret (NFailed ("Gate '" +:+ id +:+
            "' auto-approve timeout resume data does not match resumeSchema: " +:+ e))
      | None =>
          let* _ := upsertGateInstance (parks ctx)
            (settle_instance GResumed (Some AUTO_APPROVE_TIMEOUT_RESUME_DATA) None resolvedAt g) in
          let* _ := emitGateResolved id fid (ByTimeout Approve) in
          st_ret (NCompleted (gate_output AUTO_APPROVE_TIMEOUT_RESUME_DATA))
      end
  | AutoReject =>
      let* _ := upsertGateInstance (parks ctx) (settle_instance GTimedOut None None resolvedAt g) in
      let* _ := emitGateResolved id fid (ByTimeout Reject) in
      st_ret (NFailed ("Gate '" +:+ id +:+ "' timed out after " +:+ ms_text (gi_timeoutMs g) +:+
        "ms and auto-rejected"))
  end.

Definition settleCancelledGate (required : bool) (id : string) (fid : frame_id) (g : gate_instance) :
    M node_outcome :=
  let* t := asks now in
  let* _ := upsertGateInstance required (settle_instance GCancelled None None t g) in
  let* _ := emitGateResolved id fid ByCancellation in
  st_ret NCancelled.

(** A response settles the gate unless the run was aborted meanwhile.  A user's
    rejection resumes the run too. *)
Definition settleGateOutcome (ctx : run_ctx) (id : string) (fid : frame_id) (g : gate_instance)
    (v : option ValidateFunction) (r : race_result) : M node_outcome :=
  match r with
  | RaceTimedOut => settleTimedOutGate ctx id fid g v
  | RaceCancelled => settleCancelledGate (parks ctx) id fid g
  | RaceResponse a d reason =>
      let* ab := aborted ctx in
      if ab then settleCancelledGate (parks ctx) id fid g
      else
        let* t := asks now in
        let* _ := upsertGateInstance (parks ctx) (settle_instance (user_status a) (Some d) reason t g) in
        let* _ := emit (GateResumedEv id fid d) in
        let* _ := emitGateResolved id fid (ByUser a reason) in
        st_ret (NCompleted (gate_output d))
  end.

(** The outcome a persisted row decides; [None] when there is no row and the gate
    opens. *)
Definition resolvePersistedGate (ctx : run_ctx) (id : string) (fid : frame_id) :
    M (option node_outcome) :=
  let* row := loadGateInstance ctx id fid in
  match row with
  | None => st_ret None
  | Some g =>
      match gi_status g, gi_resumeData g with
      | (GResumed | GRejected), Some d =>
          match validateGateResumeDataForSchema id (Some (gi_schema g)) d with
          | Some e => st_ret (Some (NFailed ("Gate '" +:+ id +:+ "' persisted resumeData is invalid: " +:+ e)))
          | None =>
              let* _ := emit (GateResumedEv id fid d) in
              let* _ := emitGateResolved id fid (ByUser (action_of_status (gi_status g)) (gi_reason g)) in
              st_ret (Some (NCompleted (gate_output d)))
          end
      | GWaiting, _ =>
          let* t := asks now in
          if expired g t then
            match compileGateResumeValidator id (Some (gi_schema g)) with
            | ValidatorFailed e => st_ret (Some (NFailed e))
            | ValidatorOk v =>
                let* o := settleGateOutcome ctx id fid g v RaceTimedOut in st_ret (Some o)
            end
          else st_ret (Some (NPaused id fid))
      | (GResumed | GRejected) as st, None =>
          st_ret (Some (NFailed ("Gate '" +:+ id +:+ "' has status '" +:+ gate_status_text st +:+
            "' but resumeData is missing — cannot reconstruct output")))
      | st, _ =>
          st_ret (Some (NFailed ("Gate '" +:+ id +:+ "' cannot resume from status '" +:+
            gate_status_text st +:+ "'")))
      end
  end.

Definition open_instance (ctx : run_ctx) (id : string) (fid : frame_id) (schema : json)
    (prompt : string) (a : auto_action) (timeoutMs : option Z) (t : Z) : gate_instance :=
  {| gi_attempt := executionAttemptId ctx; gi_nodeId := id; gi_frameId := fid; gi_schema := schema;
     gi_prompt := Some prompt; gi_status := GWaiting; gi_autoAction := a; gi_timeoutMs := timeoutMs;
     gi_resumeData := None; gi_reason := None; gi_createdAt := t; gi_resolvedAt := None |}.

(** Persist the waiting gate, then park, or wait for an answer. *)
Definition suspendGateInProcess (ctx : run_ctx) (id : string) (cfg : gate_config) (c : expr_ctx)
    (fid : frame_id) (schema : json) (v : option ValidateFunction) : M node_outcome :=
  let* prompt := rethrow (resolveTemplate (g_prompt cfg) (buildRuntimeExpressionScope c)) in
  let* createdAt := asks now in
  let g := open_instance ctx id fid schema prompt (g_autoAction cfg) (g_timeoutMs cfg) createdAt in
  let* _ := upsertGateInstance (parks ctx) g in
  let* _ := updateFrame ctx fid SWaiting (parks ctx) in
  let suspended :=
    emitGateSuspended id (g_title cfg) (g_autoAction cfg) (g_timeoutMs cfg) fid schema prompt createdAt in
  if parks ctx then
    let* _ := suspended in
    st_ret (NPaused id fid)
  else
    let* registered := asks now in
    let* _ := suspended in
    let* r := raceResponse ctx id fid v registered (g_timeoutMs cfg) in
    settleGateOutcome ctx id fid g v r.

Definition executeGateNode (ctx : run_ctx) (id : string) (cfg : gate_config) (c : expr_ctx)
    (fid : frame_id) : M node_outcome :=
  let* ab := aborted ctx in
  if ab then st_ret NCancelled
  else
    let open :=
      match compileGateResumeValidator id (g_resumeSchema cfg) with
      | ValidatorFailed e => st_ret (NFailed e)
      | ValidatorOk v =>
          suspendGateInProcess ctx id cfg c fid (default (JObj []) (g_resumeSchema cfg)) v
      end in
    if parks ctx then
      let* early := resolvePersistedGate ctx id fid in
      match early with
      | Some o => st_ret o
      | None => open
      end
    else open.

(** ** The gate of a loop *)
Definition json_of_gate_outcome (o : loop_gate_outcome) : json :=
  match o with
  | LGPass => JObj [("kind", JStr "pass")]
  | LGLoop => JObj [("kind", JStr "loop")]
  | LGEscalate r => JObj [("kind", JStr "escalate"); ("reason", JStr r)]
  end.

Definition buildLoopOutput (result : string) (rounds : Z) (last : loop_gate_outcome)
    (bodyOutputs : list json) (resumeData : option json) : json :=
  JObj ([("outcome", JStr result); ("rounds", JNum rounds);
         ("lastGateOutcome", json_of_gate_outcome last); ("bodyOutputs", JArr bodyOutputs)]
        ++ opt_member "resumeData" resumeData).

Definition escalated (rounds : Z) (last : loop_gate_outcome) (bodyOutputs : list json)
    (resumeData : option json) : node_outcome :=
  NCompleted (Some (buildLoopOutput "escalate" rounds last bodyOutputs resumeData)).

Definition resolveExpiredEscalationGate (storageRequired : bool) (id : string) (fid : frame_id)
    (g : gate_instance) (last : loop_gate_outcome) (rounds : Z) (bodyOutputs : list json) : M node_outcome :=
  let* resolvedAt := asks now in
  match gi_autoAction g with
  | AutoApprove =>
      match validateGateResumeDataForSchema id (Some (gi_schema g)) AUTO_APPROVE_TIMEOUT_RESUME_DATA with
      | Some e =>
          let* _ := upsertGateInstance storageRequired (settle_instance GTimedOut None None resolvedAt g) in
          let* _ := emitGateResolved id fid (ByTimeout Reject) in
          st_ret (NFailed ("Loop '" +:+ id +:+
            "' escalation gate auto-approve timeout resume data does not match resumeSchema: " +:+ e))
      | None =>
          let* _ := upsertGateInstance storageRequired
            (settle_instance GResumed (Some AUTO_APPROVE_TIMEOUT_RESUME_DATA) None resolvedAt g) in
          let* _ := emitGateResolved id fid (ByTimeout Approve) in
          st_ret (escalated rounds last bodyOutputs (Some AUTO_APPROVE_TIMEOUT_RESUME_DATA))
      end
  | AutoReject =>
      let* _ := upsertGateInstance storageRequired (settle_instance GTimedOut None None resolvedAt g) in
      let* _ := emitGateResolved id fid (ByTimeout Reject) in
      st_ret (NFailed ("Loop '" +:+ id +:+ "' escalation gate timed out after " +:+
        ms_text (gi_timeoutMs g) +:+ "ms and auto-rejected"))
  end.

Definition settleInProcessResponse (id : string) (fid : frame_id) (g : gate_instance)
    (a : gate_action) (d : json) (reason : option string) (last : loop_gate_outcome) (rounds : Z)
    (bodyOutputs : list json) : M node_outcome :=
  let* t := asks now in
  let* _ := upsertGateInstance false (settle_instance (user_status a) (Some d) reason t g) in
  let* _ := emit (GateResumedEv id fid d) in
  let* _ := emitGateResolved id fid (ByUser a reason) in
  st_ret (escalated rounds last bodyOutputs (Some d)).

Definition waitForInProcessResponse (ctx : run_ctx) (id : string) (esc : escalation_config)
    (fid : frame_id) (g : gate_instance) (last : loop_gate_outcome) (rounds : Z)
    (bodyOutputs : list json) : M node_outcome :=
  match compileGateResumeValidator id (e_resumeSchema esc) with
  | ValidatorFailed e => st_ret (NFailed e)
  | ValidatorOk v =>
      let* registered := asks now in
      let* _ := emitGateSuspended id (e_title esc) (default AutoReject (e_autoAction esc))
        (e_timeoutMs esc) fid (gi_schema g) (default "" (gi_prompt g)) (gi_createdAt g) in
      let* r := raceResponse ctx id fid v registered (gi_timeoutMs g) in
      match r with
      | RaceTimedOut => resolveExpiredEscalationGate false id fid g last rounds bodyOutputs
      | RaceResponse a d reason => settleInProcessResponse id fid g a d reason last rounds bodyOutputs
      | RaceCancelled => settleCancelledGate false id fid g
      end
  end.

Definition openEscalationGate (ctx : run_ctx) (id : string) (esc : option escalation_config)
    (c : expr_ctx) (fid : frame_id) (last : loop_gate_outcome) (rounds : Z) (bodyOutputs : list json) :
    M node_outcome :=
  match esc with
  | None => st_ret (escalated rounds last bodyOutputs None)
  | Some e =>
      let* prompt := rethrow (resolveTemplate (e_prompt e) (buildRuntimeExpressionScope c)) in
      let schema := default (JObj []) (e_resumeSchema e) in
      let* createdAt := asks now in
      let a := default AutoReject (e_autoAction e) in
      let g := open_instance ctx id fid schema prompt a (e_timeoutMs e) createdAt in
      let* _ := upsertGateInstance (parks ctx) g in
      let* _ := updateFrame ctx fid SWaiting (parks ctx) in
      if parks ctx then
        let* _ := emitGateSuspended id (e_title e) a (e_timeoutMs e) fid schema prompt createdAt in
        st_ret (NPaused id fid)
      else waitForInProcessResponse ctx id e fid g last rounds bodyOutputs
  end.

(** The outcome a persisted escalation row decides. *)
Definition resolvePersistedEscalationGate (ctx : run_ctx) (id : string) (fid : frame_id) (last : loop_gate_outcome)
    (rounds : Z) (bodyOutputs : list json) : M (option node_outcome) :=
  let* row := loadGateInstance ctx id fid in
  match row with
  | None => st_ret None
  | Some g =>
      match gi_status g, gi_resumeData g with
      | (GResumed | GRejected), Some d =>
          match validateGateResumeDataForSchema id (Some (gi_schema g)) d with
          | Some e => st_ret (Some (NFailed ("Loop '" +:+ id +:+ "' escalation gate resumeData is invalid: " +:+ e)))
          | None =>
              let* _ := emit (GateResumedEv id fid d) in
              let* _ := emitGateResolved id fid (ByUser (action_of_status (gi_status g)) (gi_reason g)) in
              st_ret (Some (escalated rounds last bodyOutputs (Some d)))
          end
      | GWaiting, _ =>
          let* t := asks now in
          if expired g t then
            let* o := resolveExpiredEscalationGate true id fid g last rounds bodyOutputs in st_ret (Some o)
          else st_ret (Some (NPaused id fid))
      | (GResumed | GRejected) as st, None =>
          st_ret (Some (NFailed ("Loop '" +:+ id +:+ "' escalation gate has status '" +:+
            gate_status_text st +:+ "' but resumeData is missing")))
      | st, _ =>
          st_ret (Some (NFailed ("Loop '" +:+ id +:+ "' escalation gate cannot resume from status '" +:+
            gate_status_text st +:+ "'")))
      end
  end.
End gates.
