(* ===== verification/NodeRuntime.v ===== *)
(** * The node interpreter of the workflow engine

    [subsystems/workflow-engine/src/runtime]: sequences ([primitive-runtime.ts]),
    the dispatcher ([node-execution.ts]), stations ([station-node.ts]), parallel
    branches ([parallel-node.ts]), fan-out over collections ([iterate-node.ts],
    [iterate-chain-node.ts], [iterate-helpers.ts]), gated loops ([loop-node.ts]),
    and the run of a whole definition ([workflow-orchestrator.ts]).

    Concurrency is by time.  The branches of a [fork] start together and each is
    run on the shared state with the clock set back to the start; frames of
    different branches are disjoint, so this order does not show.  A branch whose
    settlement aborts its siblings does so one instant after it settles: a first
    run of all branches under the outer signal finds the earliest such
    settlement, which nothing can precede, and the branches are then run with
    the abort of that instant.  When [Promise.all] rejects, the node goes on at
    that instant while its other branches run on; the state holds what they do. *)
From stdpp Require Import pretty.
From S2P Require Import Prelude JsValue Json Workflow RuntimeContext GateNode.

(** ** Branches that run together *)

(** What a branch leaves: a result, or a cancellation whose frame is still to be
    settled, because whether it stays resumable depends on what cancelled it. *)
Inductive branch_run (A : Type) :=
  | Settled (a : A)
  | Interrupted (fid : frame_id).
Arguments Settled {A} _.
Arguments Interrupted {A} _.

Section fork.
Context {A : Type}.

(** Each branch starts at [t0], with positions of its own. *)
Fixpoint run_all (p : frame_id) (i : nat) (t0 : Z) (ms : list (M A)) (s : rt) :
    list (outcome halt A * Z) * rt :=
  match ms with
  | [] => ([], s)
  | m :: ms' =>
      let '(r, s1) := m (set_pos (O :: i :: p) (set_now t0 s)) in
      let '(rs, s2) := run_all p (S i) t0 ms' s1 in
      ((r, now s1) :: rs, s2)
  end.

Definition min_end (x y : option Z) : option Z :=
  match x, y with
  | Some a, Some b => Some (Z.min a b)
  | None, _ => y
  | _, None => x
  end.

(** When the first branch whose result satisfies the test has ended. *)
Definition first_end (test : A → bool) (rs : list (outcome halt A * Z)) : option Z :=
  foldr (λ re acc, match re with
    | (Ok a, e) => if test a then min_end (Some e) acc else acc
    | (Throw _, _) => acc
    end) None rs.

Fixpoint collect_all (rs : list (outcome halt A * Z)) : outcome halt (list (A * Z)) :=
  match rs with
  | [] => Ok []
  | (Throw e, _) :: _ => Throw e
  | (Ok a, e) :: rs' =>
      match collect_all rs' with Ok l => Ok ((a, e) :: l) | Throw x => Throw x end
  end.

(** The first rejection in time, of those of the same instant the first listed. *)
Definition first_rejection (rs : list (outcome halt A * Z)) : option (string * Z) :=
  foldr (λ re acc, match re with
    | (Throw (Raised m), e) =>
        match acc with
        | Some (_, e') => if e' <? e then acc else Some (m, e)
        | None => Some (m, e)
        end
    | _ => acc
    end) None rs.

(** [Promise.all]: every result, or a throw as soon as one of them is rejected. *)
Definition promise_all (rs : list (outcome halt A * Z)) : M (list (A * Z)) := λ s,
  match first_rejection rs with
  | Some (m, e) => (Throw (Raised m), set_now e s)
  | None => (collect_all rs, s)
  end.

Definition latest (t0 : Z) (rs : list (outcome halt A * Z)) : Z := foldl Z.max t0 rs.*2.

(** Run the branches to their ends; the first result that satisfies [stop] aborts
    the others. *)
Definition fork (ctx : run_ctx) (stop : A → bool) (branches : list (run_ctx → M A)) :
    M (list (outcome halt A * Z)) := λ s,
  let dry := (run_all (pos s) 0 (now s) (map (λ b, b ctx) branches) s).1 in
  let inner := (λ e, e + 1) <$> first_end stop dry in
  let ctx' := withSignal ctx (linkSignals (rsignal ctx) inner) in
  let '(rs, s') := run_all (pos s) 0 (now s) (map (λ b, b ctx') branches) s in
  (Ok rs, set_pos (next_pos (pos s)) (set_now (latest (now s) rs) s')).
End fork.

Section runtime.
Context `{Surroundings}.

Section settle.
Context {A : Type} (cancelled : A) (paused : A → bool) (rescue : string → option A).

(** A branch that throws: [rescue] gives the outcome it counts as, if any. *)
Definition monitored {B} (inj : A → B) (m : M B) : M B :=
  try_catch m (λ e, match rescue e with Some a => st_ret (inj a) | None => raise e end).

(** The outcome of a computation, as a value. *)
Definition attempt {B} (m : M B) : M (outcome halt B) := λ s, let '(r, s') := m s in (Ok r, s').

Definition is_paused_run (b : branch_run A) : bool :=
  match b with Settled a => paused a | Interrupted _ => false end.

(** When the pause controller of the siblings aborts. *)
Definition pause_signal (rs : list (outcome halt (branch_run A) * Z)) : signal :=
  (λ e, e + 1) <$> first_end is_paused_run rs.

(** [shouldKeepBranchFrameRunningOnCancel], [shouldKeepItemFrameRunningOnCancel] at
    the instant the branch was cancelled. *)
Definition shouldKeepFrameRunningOnCancel (outer pause : signal) (fid : frame_id) (t : Z) (s : rt) : bool :=
  bool_decide (status <$> frame_object fid s = Some SRunning) &&
  aborted_at pause t && negb (aborted_at outer t).

(** Cancel the frame of an interrupted branch, at its own time, unless it stays
    resumable. *)
Definition settle_branch (ctx : run_ctx) (pause : signal)
    (be : outcome halt (branch_run A) * Z) : M (outcome halt A * Z) :=
  match be with
  | (Throw h, e) => st_ret (Throw h, e)
  | (Ok (Settled a), e) => st_ret (Ok a, e)
  | (Ok (Interrupted fid), e) =>
      let* keep := asks (shouldKeepFrameRunningOnCancel (rsignal ctx) pause fid e) in
      if keep : bool then st_ret (Ok cancelled, e)
      else
        let* join := asks now in
        let* _ := modify (set_now e) in
        let* r := attempt (monitored id (let* _ := cancelFrame ctx fid in st_ret cancelled)) in
        let* e' := asks now in
        let* _ := modify (set_now (Z.max join e')) in
        st_ret (r, e')
  end.

Fixpoint settle_branches (ctx : run_ctx) (pause : signal)
    (rs : list (outcome halt (branch_run A) * Z)) : M (list (outcome halt A * Z)) :=
  match rs with
  | [] => st_ret []
  | be :: rs' =>
      let* x := settle_branch ctx pause be in
      let* xs := settle_branches ctx pause rs' in
      st_ret (x :: xs)
  end.

(** Fork, settle what was interrupted, wait for all. *)
Definition join_branches (ctx : run_ctx) (stop : branch_run A → bool)
    (pause : list (outcome halt (branch_run A) * Z) → signal)
    (branches : list (run_ctx → M (branch_run A))) : M (list (A * Z)) :=
  let* rs := fork ctx stop (map (λ b ctx', monitored Settled (b ctx')) branches) in
  let* xs := settle_branches ctx (pause rs) rs in
  promise_all xs.
End settle.

(** The [try] around a body: a throw fails the frame. *)
Definition run_body (ctx : run_ctx) (fid : frame_id) (m : M node_outcome) : M (node_outcome + string) :=
  try_catch (let* o := m in st_ret (inl o))
    (λ e, let* _ := failFrame ctx fid e in st_ret (inr e)).

(** ** Expressions of nodes *)
Definition evaluateNodeCondition (e : string) (c : expr_ctx) : outcome string bool :=
  match evaluateSync e (buildRuntimeExpressionScope c) with
  | Ok v => Ok (truthy v)
  | Throw m => Throw m
  end.

Definition typeof_text (v : option json) : string :=
  match v with
  | None => "undefined"
  | Some (JBool _) => "boolean"
  | Some (JNum _) => "number"
  | Some (JStr _) => "string"
  | Some _ => "object"
  end.

Definition evaluateCollection (id label expr : string) (c : expr_ctx) : list json + node_outcome :=
  match evaluateSync expr (buildRuntimeExpressionScope c) with
  | Ok (Some (JArr items)) => inl items
  | Ok v => inr (NFailed (label +:+ " node '" +:+ id +:+
      "': collection expression did not resolve to an array (got " +:+ typeof_text v +:+ ")"))
  | Throw m => inr (NFailed (label +:+ " node '" +:+ id +:+
      "': collection expression evaluation failed: " +:+ m))
  end.

(** The output of the last child, in declaration order, that completed under the
    given frame; only frames of this run are looked at. *)
Fixpoint last_output (rev_nodes : list node) (container : frame_id) (s : rt) : option json :=
  match rev_nodes with
  | [] => None
  | child :: rest =>
      match List.find (λ f, bool_decide (parentFrameId f = Some container) &&
                            bool_decide (status f = SCompleted))
              (getFramesByNodeId (node_id child) s) with
      | Some f => output f
      | None => last_output rest container s
      end
  end.

Definition extractLastSequenceOutput (nodes : list node) (container : frame_id) (s : rt) : option json :=
  last_output (rev nodes) container s.

(** ** Leaf nodes *)

(** Await a call: it may take for ever. *)
Definition await_call {A} (r : call_result A) : M A :=
  match cr_duration r with
  | None => st_throw Never
  | Some d => let* _ := pass d in st_ret (cr_value r)
  end.

Definition leaf_result (l : leaf_outcome) : node_outcome :=
  match l with
  | LeafCompleted o => NCompleted o
  | LeafCancelled => NCancelled
  | LeafFailed e => NFailed e
  end.

Definition executeDelegation (id : string) (ty : node_type) (ctx : run_ctx) (c : expr_ctx)
    (fid : frame_id) : M node_outcome :=
  let* _ := modify (λ s, add_effect (Invoked id fid (now s) c) s) in
  let* t := asks now in
  let* r := await_call (delegation id ty c fid t (rsignal ctx)) in
  let* l := rethrow r in
  st_ret (leaf_result l).

Definition station_context (c : expr_ctx) : station_input :=
  {| si_previousSteps := buildPreviousStepsFromFrames (frames c);
     si_item := item c; si_index := index c; si_previous := previous c |}.

(** A registered handler runs; a throw is a failure of the node.  Without one,
    the node's role is delegated to. *)
Definition executeStationNode (id : string) (role : option string) (ctx : run_ctx) (c : expr_ctx)
    (fid : frame_id) : M node_outcome :=
  let* ab := aborted ctx in
  if ab then st_ret NCancelled
  else
    match station_handlers id with
    | Some h =>
        let* _ := modify (λ s, add_effect (Invoked id fid (now s) c) s) in
        let* t := asks now in
        let* r := await_call (h (station_context c) t (rsignal ctx)) in
        st_ret (match r with Ok o => NCompleted o | Throw e => NFailed e end)
    | None =>
        match role with
        | None => st_ret (NFailed ("No handler registered for station node '" +:+ id +:+ "'"))
        | Some _ => executeDelegation id TStation ctx c fid
        end
    end.

(** ** Sequences *)
Definition STRUCTURAL_RESUME_STATUSES : list frame_status := [SCompleted; SSkipped; SWaiting; SRunning].

Definition isStructuralResumeNode (n : node) : bool :=
  match type_of n with TParallel | TIterate | TIterateChain | TLoop => true | _ => false end.

Definition findSequenceChildResumeFrame (child : node) (parent : option frame_id) (s : rt) : option frame :=
  findReusableResumeFrame (resumeFrames s) (node_id child)
    {| mc_parentFrameId := parent; mc_branchKey := None; mc_iteration := None;
       mc_statuses := if isStructuralResumeNode child then STRUCTURAL_RESUME_STATUSES
                      else DEFAULT_REUSABLE_FRAME_STATUSES |}.

(** A completed or skipped frame is replayed into the context. *)
Definition mergeTerminalResumeFrame (c : expr_ctx) (child : node) (f : option frame) : option expr_ctx :=
  match f with
  | Some f =>
      match status f with
      | SCompleted => Some (mergeFrameOutput c (node_id child) (MergeCompleted (output f)))
      | SSkipped => Some (mergeFrameOutput c (node_id child) MergeSkipped)
      | _ => None
      end
  | None => None
  end.

Definition child_params (child : node) (path : list frame_id) (parent : option frame_id) : create_params :=
  {| cp_nodeId := node_id child; cp_nodeType := type_of child; cp_path := path;
     cp_parentFrameId := parent; cp_iteration := None; cp_branchKey := None |}.

(** [inl] the value of the condition, [inr] the failure of the sequence. *)
Definition evaluateConditionExpression (e kind : string) (child : node) (ctx : run_ctx) (c : expr_ctx)
    (path : list frame_id) (parent : option frame_id) : M (bool + node_outcome) :=
  match evaluateNodeCondition e c with
  | Ok b => st_ret (inl b)
  | Throw m =>
      let* f := createFrame ctx (child_params child path parent) in
      let* _ := failFrame ctx (frameId f) ("'" +:+ kind +:+ "' condition evaluation failed: " +:+ m) in
      st_ret (inr (NFailed ("'" +:+ kind +:+ "' condition evaluation failed for '" +:+ node_id child
        +:+ "': " +:+ m)))
  end.

(** A condition that is absent, or does not skip the node, lets it run. *)
Definition check_condition (e : option string) (kind : string) (skips : bool → bool) (child : node)
    (ctx : run_ctx) (c : expr_ctx) (path : list frame_id) (parent : option frame_id) : M (bool + node_outcome) :=
  match e with
  | None => st_ret (inl false)
  | Some e =>
      let* r := evaluateConditionExpression e kind child ctx c path parent in
      match r with
      | inr o => st_ret (inr o)
      | inl b =>
          if skips b then
            let* f := createFrame ctx (child_params child path parent) in
            let* _ := skipFrame ctx (frameId f) in
            st_ret (inl true)
          else st_ret (inl false)
      end
  end.

(** The execution of one node, [executeNode(child, ...)]; a container gets its
    children together with their executions, as the code gets [executeSequence]
    injected. *)
Definition execution : Type := run_ctx → expr_ctx → frame_id → list frame_id → M node_outcome.
Definition runnable : Type := node * execution.

(** The context after a child, and the outcome of the sequence if it stops. *)
Definition executeSequenceChild (runnable_child : runnable) (ctx : run_ctx) (c : expr_ctx) (ppath : list frame_id)
    (parent : option frame_id) (existing : option frame) : M (expr_ctx * option node_outcome) :=
  let '(child, executeNode) := runnable_child in
  let* f := match existing with
            | Some f => st_ret f
            | None => createFrame ctx (child_params child ppath parent)
            end in
  let fid := frameId f in
  let* ab := aborted ctx in
  if ab then
    let* _ := cancelFrame ctx fid in
    st_ret (c, Some NCancelled)
  else
    let* _ := match existing with None => startFrame ctx fid | Some _ => st_ret tt end in
    let* r := run_body ctx fid (executeNode ctx c fid (path f)) in
    match r with
    | inr e => st_ret (c, Some (NFailed e))
    | inl (NCompleted o) =>
        let* _ := completeFrame ctx fid o in
        st_ret (mergeFrameOutput c (node_id child) (MergeCompleted o), None)
    | inl NSkipped =>
        let* _ := skipFrame ctx fid in
        st_ret (mergeFrameOutput c (node_id child) MergeSkipped, None)
    | inl NCancelled =>
        let* _ := cancelFrame ctx fid in
        st_ret (c, Some NCancelled)
    | inl (NPaused g x) => st_ret (c, Some (NPaused g x))
    | inl (NFailed e) =>
        let* _ := failFrame ctx fid e in
        st_ret (c, Some (NFailed e))
    end.

(** Waiting gates and unfinished containers go on in the frame they have. *)
Definition existing_frame (child : node) (f : option frame) : option frame :=
  match f with
  | Some f =>
      if (bool_decide (status f = SWaiting) && bool_decide (type_of child = TGate)) ||
         ((bool_decide (status f = SRunning) || bool_decide (status f = SWaiting)) &&
          isStructuralResumeNode child)
      then Some f else None
  | None => None
  end.

(** One child: its new context, or the outcome the sequence ends with. *)
Definition sequence_step (runnable_child : runnable) (ctx : run_ctx) (c : expr_ctx)
    (ppath : list frame_id) (parent : option frame_id) : M (expr_ctx * option node_outcome) :=
  let child := runnable_child.1 in
  let* ab := aborted ctx in
  if ab then st_ret (c, Some NCancelled)
  else
    let* resumed := asks (findSequenceChildResumeFrame child parent) in
    match mergeTerminalResumeFrame c child resumed with
    | Some c' => st_ret (c', None)
    | None =>
        let* w := check_condition (node_when child) "when" negb child ctx c ppath parent in
        match w with
        | inr o => st_ret (c, Some o)
        | inl true => st_ret (mergeFrameOutput c (node_id child) MergeSkipped, None)
        | inl false =>
            let* k := check_condition (node_skip child) "skip" (λ b, b) child ctx c ppath parent in
            match k with
            | inr o => st_ret (c, Some o)
            | inl true => st_ret (mergeFrameOutput c (node_id child) MergeSkipped, None)
            | inl false =>
                executeSequenceChild runnable_child ctx c ppath parent (existing_frame child resumed)
            end
        end
    end.

Fixpoint executeSequence (nodes : list runnable) (ctx : run_ctx) (c : expr_ctx) (parent : option frame_id)
    (ppath : list frame_id) : M node_outcome :=
  match nodes with
  | [] => st_ret (NCompleted None)
  | child :: rest =>
      let* r := sequence_step child ctx c ppath parent in
      match r with
      | (_, Some o) => st_ret o
      | (c', None) => executeSequence rest ctx c' parent ppath
      end
  end.

(** ** Bodies in a frame of their own

    A branch, an item and a round each run their body in a frame that an earlier
    run may have left behind: [runBranch], [runItem], [runChainItem] and
    [executeRoundBody] begin alike and differ in what they make of the result. *)

(** [BRANCH_RESUME_STATUSES], [ITEM_RESUME_STATUSES], [ROUND_RESUME_STATUSES] *)
Definition BODY_RESUME_STATUSES : list frame_status := [SCompleted; SRunning].

Definition findBodyFrame (p : create_params) (s : rt) : option frame :=
  findReusableResumeFrame (resumeFrames s) (cp_nodeId p)
    {| mc_parentFrameId := cp_parentFrameId p; mc_branchKey := cp_branchKey p;
       mc_iteration := cp_iteration p; mc_statuses := BODY_RESUME_STATUSES |}.

(** The frame to replay, if the one found is complete. *)
Definition completed_frame (f : option frame) : option frame :=
  match f with Some f => if bool_decide (status f = SCompleted) then Some f else None | None => None end.

Inductive body_run :=
  | BodyReplayed (f : frame)
  | BodyAborted (fid : frame_id)
  | BodyRan (fid : frame_id) (r : node_outcome + string).

Definition run_in_frame (p : create_params) (nodes : list runnable) (ctx : run_ctx) (c : expr_ctx) : M body_run :=
  let* resumed := asks (findBodyFrame p) in
  match completed_frame resumed with
  | Some f => st_ret (BodyReplayed f)
  | None =>
      let* f := match resumed with Some f => st_ret f | None => createFrame ctx p end in
      let fid := frameId f in
      let* ab := aborted ctx in
      if ab then st_ret (BodyAborted fid)
      else
        let* _ := match resumed with None => startFrame ctx fid | Some _ => st_ret tt end in
        let* r := run_body ctx fid (executeSequence nodes ctx c (Some fid) (path f)) in
        st_ret (BodyRan fid r)
  end.

(** ** Parallel nodes *)
Definition paused_outcome (o : node_outcome) : bool := match o with NPaused _ _ => true | _ => false end.
Definition failed_outcome (o : node_outcome) : bool := match o with NFailed _ => true | _ => false end.

Definition branch_params (id key : string) (ppath : list frame_id) (parent : frame_id) : create_params :=
  {| cp_nodeId := id; cp_nodeType := TParallel; cp_path := ppath; cp_parentFrameId := Some parent;
     cp_iteration := None; cp_branchKey := Some key |}.

(** One branch, up to the settlement of a cancelled frame. *)
Definition runBranch (id : string) (c : expr_ctx) (parent : frame_id) (ppath : list frame_id)
    (branch : string * list runnable) (ctx : run_ctx) : M (branch_run node_outcome) :=
  let* ab := aborted ctx in
  if ab then st_ret (Settled NCancelled)
  else
    let* r := run_in_frame (branch_params id branch.1 ppath parent) branch.2 ctx c in
    match r with
    | BodyReplayed f => st_ret (Settled (NCompleted (output f)))
    | BodyAborted fid | BodyRan fid (inl NCancelled) => st_ret (Interrupted fid)
    | BodyRan fid (inr e) => st_ret (Settled (NFailed e))
    | BodyRan fid (inl (NCompleted _)) =>
        let* o := asks (extractLastSequenceOutput branch.2.*1 fid) in
        let* _ := completeFrame ctx fid o in
        st_ret (Settled (NCompleted o))
    | BodyRan fid (inl NSkipped) =>
        let* _ := completeFrame ctx fid None in
        st_ret (Settled (NCompleted None))
    | BodyRan fid (inl (NPaused g x)) => st_ret (Settled (NPaused g x))
    | BodyRan fid (inl (NFailed e)) =>
        let* _ := failFrame ctx fid e in
        st_ret (Settled (NFailed e))
    end.

Definition mode_text (m : parallel_mode) : string :=
  match m with AllSettled => "all-settled" | FailFast => "fail-fast" end.

Definition outcomeToSettled (frame_text : frame_id → string) (o : node_outcome) : json :=
  match o with
  | NCompleted v => JObj (("status", JStr "fulfilled") :: opt_member "value" v)
  | NSkipped => JObj [("status", JStr "fulfilled"); ("value", JNull)]
  | NCancelled => JObj [("status", JStr "cancelled")]
  | NPaused g x => JObj [("status", JStr "paused"); ("pausedAtGateId", JStr g);
                         ("pausedAtFrameId", JStr (frame_text x))]
  | NFailed e => JObj [("status", JStr "rejected"); ("reason", JStr e)]
  end.

Definition buildSettledMap (keys : list string) (os : list node_outcome) : list (string * json) :=
  zip_with (λ k o, (k, outcomeToSettled frame_name o)) keys os.

Definition buildParallelOutput (settled : list (string * json)) (m : parallel_mode) : json :=
  JObj [("mode", JStr (mode_text m)); ("branches", JObj settled)].

(** The monitor of [runFailFast], fed with the branches as they settle. *)
Record fail_fast_state := { firstError : option string; firstPaused : option (string * frame_id) }.

Definition monitor (st : fail_fast_state) (o : node_outcome) : fail_fast_state :=
  match o, firstError st, firstPaused st with
  | NFailed e, None, p => {| firstError := Some e; firstPaused := p |}
  | NPaused g x, e, None => {| firstError := e; firstPaused := Some (g, x) |}
  | _, _, _ => st
  end.

Inductive fail_fast_result :=
  | FFCompleted (outcomes : list node_outcome)
  | FFFailed (e : string)
  | FFCancelled
  | FFPaused (gateId : string) (fid : frame_id).

Definition end_le {A} (x y : A * Z) : bool := x.2 <=? y.2.

(** Branches that settle at the same instant are monitored in branch order. *)
Definition runFailFast (results : list (node_outcome * Z)) : fail_fast_result :=
  let st := foldl (λ st r, monitor st r.1) {| firstError := None; firstPaused := None |}
              (js_sort end_le results) in
  match firstPaused st with
  | Some (g, x) => FFPaused g x
  | None =>
      match firstError st with
      | Some e => FFFailed e
      | None =>
          if existsb (λ r, bool_decide (r.1 = NCancelled)) results then FFCancelled
          else FFCompleted results.*1
      end
  end.

(** What aborts the siblings of a settled branch. *)
Definition aborts_siblings (m : parallel_mode) (ctx : run_ctx) (b : branch_run node_outcome) : bool :=
  match b, m with
  | Settled o, FailFast => failed_outcome o || paused_outcome o
  | Settled o, AllSettled => parks ctx && paused_outcome o
  | Interrupted _, _ => false
  end.

(** The pause signal the branches are given, if any. *)
Definition branch_pause_signal (m : parallel_mode) (ctx : run_ctx)
    (rs : list (outcome halt (branch_run node_outcome) * Z)) : signal :=
  match m with
  | FailFast => pause_signal paused_outcome rs
  | AllSettled => if parks ctx then pause_signal paused_outcome rs else None
  end.

(** [runFailFast] takes the rejection of a branch for a failure. *)
Definition branch_rescue (m : parallel_mode) (e : string) : option node_outcome :=
  match m with FailFast => Some (NFailed e) | AllSettled => None end.

Definition executeParallelNode (id : string) (mode : option parallel_mode)
    (branches : list (string * list runnable)) (ctx : run_ctx) (c : expr_ctx) (parent : frame_id)
    (ppath : list frame_id) : M node_outcome :=
  let m := default AllSettled mode in
  let* ab := aborted ctx in
  if ab then st_ret NCancelled
  else
    match branches with
    | [] => st_ret (NCompleted (Some (buildParallelOutput [] m)))
    | _ =>
        let* results := join_branches NCancelled (branch_rescue m) ctx (aborts_siblings m ctx) (branch_pause_signal m ctx)
          (map (runBranch id c parent ppath) branches) in
        match m with
        | AllSettled =>
            match List.find paused_outcome results.*1 with
            | Some o => st_ret o
            | None => st_ret (NCompleted (Some (buildParallelOutput (buildSettledMap branches.*1 results.*1) m)))
            end
        | FailFast =>
            match runFailFast results with
            | FFCancelled => st_ret NCancelled
            | FFPaused g x => st_ret (NPaused g x)
            | FFFailed e => st_ret (NFailed e)
            | FFCompleted os =>
                st_ret (NCompleted (Some (buildParallelOutput (buildSettledMap branches.*1 os) m)))
            end
        end
    end.

(** ** Iteration *)
Inductive item_settled :=
  | IFulfilled (value : option json)
  | IRejected (reason : string)
  | ICancelled
  | IPaused (gateId : string) (fid : frame_id).

Definition item_paused (i : item_settled) : bool := match i with IPaused _ _ => true | _ => false end.
Definition item_cancelled (i : item_settled) : bool := match i with ICancelled => true | _ => false end.

Definition json_of_item (i : item_settled) : json :=
  match i with
  | IFulfilled v => JObj (("status", JStr "fulfilled") :: opt_member "value" v)
  | IRejected e => JObj [("status", JStr "rejected"); ("reason", JStr e)]
  | ICancelled => JObj [("status", JStr "cancelled")]
  | IPaused g x => JObj [("status", JStr "paused"); ("pausedAtGateId", JStr g);
                         ("pausedAtFrameId", JStr (frame_name x))]
  end.

Definition buildIterateOutput (settled : list item_settled) : json :=
  JObj [("items", JArr (map json_of_item settled))].

Definition item_params (id : string) (ty : node_type) (ppath : list frame_id) (parent : frame_id)
    (k : Z) : create_params :=
  {| cp_nodeId := id; cp_nodeType := ty; cp_path := ppath; cp_parentFrameId := Some parent;
     cp_iteration := Some k; cp_branchKey := None |}.

(** An item of [iterate]. *)
Definition runItem (id : string) (body : list runnable) (c : expr_ctx) (parent : frame_id)
    (ppath : list frame_id) (ki : Z * json) (ctx : run_ctx) : M (branch_run item_settled) :=
  let* ab := aborted ctx in
  if ab then st_ret (Settled ICancelled)
  else
    let* r := run_in_frame (item_params id TIterate ppath parent ki.1) body ctx (with_item ki.2 ki.1 c) in
    match r with
    | BodyReplayed f => st_ret (Settled (IFulfilled (output f)))
    | BodyAborted fid | BodyRan fid (inl NCancelled) => st_ret (Interrupted fid)
    | BodyRan fid (inr e) => st_ret (Settled (IRejected e))
    | BodyRan fid (inl (NCompleted _)) =>
        let* o := asks (extractLastSequenceOutput body.*1 fid) in
        let* _ := completeFrame ctx fid o in
        st_ret (Settled (IFulfilled o))
    | BodyRan fid (inl NSkipped) =>
        let* _ := completeFrame ctx fid None in
        st_ret (Settled (IFulfilled None))
    | BodyRan fid (inl (NPaused g x)) => st_ret (Settled (IPaused g x))
    | BodyRan fid (inl (NFailed e)) =>
        let* _ := failFrame ctx fid e in
        st_ret (Settled (IRejected e))
    end.

Definition item_aborts (ctx : run_ctx) (b : branch_run item_settled) : bool :=
  match b with Settled i => parks ctx && item_paused i | Interrupted _ => false end.

(** Items that run together: all of them, or one batch. *)
Definition run_batch (id : string) (body : list runnable) (ctx : run_ctx) (c : expr_ctx) (parent : frame_id)
    (ppath : list frame_id) (items : list (Z * json)) : M (list item_settled) :=
  let* xs := join_branches ICancelled (λ _, None) ctx (item_aborts ctx)
    (λ rs, if parks ctx then pause_signal item_paused rs else None)
    (map (runItem id body c parent ppath) items) in
  st_ret xs.*1.

(** Batches in order; the slots after an abort or a pause are cancelled. *)
Fixpoint run_batches (fuel : nat) (id : string) (body : list runnable) (ctx : run_ctx) (c : expr_ctx)
    (parent : frame_id) (ppath : list frame_id) (batchSize : nat) (rest : list (Z * json)) :
    M (list item_settled) :=
  match rest with
  | [] => st_ret []
  | _ =>
      match fuel with
      | O => st_throw OutOfFuel
      | S fuel =>
          let* ab := aborted ctx in
          if ab then st_ret (map (λ _, ICancelled) rest)
          else
            let* xs := run_batch id body ctx c parent ppath (take batchSize rest) in
            if existsb item_paused xs
            then st_ret (xs ++ map (λ _, ICancelled) (drop batchSize rest))
            else
              let* ys := run_batches fuel id body ctx c parent ppath batchSize (drop batchSize rest) in
              st_ret (xs ++ ys)
      end
  end.

Definition indexed (items : list json) : list (Z * json) := imap (λ i x, (Z.of_nat i, x)) items.

Definition runItemsWithConcurrency (id : string) (body : list runnable) (ctx : run_ctx) (c : expr_ctx)
    (parent : frame_id) (ppath : list frame_id) (batchSize : Z) (items : list json) :
    M (list item_settled) :=
  if batchSize =? 0 then run_batch id body ctx c parent ppath (indexed items)
  else run_batches (List.length items) id body ctx c parent ppath (Z.to_nat batchSize) (indexed items).

Definition executeIterateNode (id collection : string) (body : list runnable) (concurrency : option Z)
    (ctx : run_ctx) (c : expr_ctx) (parent : frame_id) (ppath : list frame_id) : M node_outcome :=
  let* ab := aborted ctx in
  if ab then st_ret NCancelled
  else
    match evaluateCollection id "iterate" collection c with
    | inr o => st_ret o
    | inl [] => st_ret (NCompleted (Some (buildIterateOutput [])))
    | inl items =>
        let batchSize := match concurrency with Some n => if 0 <? n then n else 0 | None => 0 end in
        let* settled := runItemsWithConcurrency id body ctx c parent ppath batchSize items in
        let* ab := aborted ctx in
        if ab && forallb item_cancelled settled then st_ret NCancelled
        else
          match List.find item_paused settled with
          | Some (IPaused g x) => st_ret (NPaused g x)
          | _ => st_ret (NCompleted (Some (buildIterateOutput settled)))
          end
    end.

(** An item of [iterate-chain]; a cancelled frame is settled at once. *)
Definition runChainItem (id : string) (body : list runnable) (ctx : run_ctx) (c : expr_ctx)
    (parent : frame_id) (ppath : list frame_id) (k : Z) (x : json) (prev : option json) :
    M item_settled :=
  let* ab := aborted ctx in
  if ab then st_ret ICancelled
  else
    let* r := run_in_frame (item_params id TIterateChain ppath parent k) body ctx
      (with_previous prev (with_item x k c)) in
    match r with
    | BodyReplayed f => st_ret (IFulfilled (output f))
    | BodyAborted fid | BodyRan fid (inl NCancelled) =>
        let* _ := cancelFrame ctx fid in
        st_ret ICancelled
    | BodyRan fid (inr e) => st_ret (IRejected e)
    | BodyRan fid (inl (NCompleted _)) =>
        let* o := asks (extractLastSequenceOutput body.*1 fid) in
        let* _ := completeFrame ctx fid o in
        st_ret (IFulfilled o)
    | BodyRan fid (inl NSkipped) =>
        let* _ := completeFrame ctx fid None in
        st_ret (IFulfilled None)
    | BodyRan fid (inl (NPaused g x)) => st_ret (IPaused g x)
    | BodyRan fid (inl (NFailed e)) =>
        let* _ := failFrame ctx fid e in
        st_ret (IRejected e)
    end.

(** The items one after the other, each seeing what the one before yielded. *)
Fixpoint run_chain (id : string) (body : list runnable) (ctx : run_ctx) (c : expr_ctx) (parent : frame_id)
    (ppath : list frame_id) (items : list (Z * json)) (settled : list item_settled)
    (prev : option json) : M node_outcome :=
  match items with
  | [] => st_ret (NCompleted (Some (buildIterateOutput settled)))
  | (k, x) :: rest =>
      let* ab := aborted ctx in
      if ab then st_ret NCancelled
      else
        let* r := runChainItem id body ctx c parent ppath k x prev in
        match r with
        | IFulfilled v => run_chain id body ctx c parent ppath rest (settled ++ [r]) v
        | IRejected e => st_ret (NFailed e)
        | ICancelled => st_ret NCancelled
        | IPaused g x => st_ret (NPaused g x)
        end
  end.

Definition executeIterateChainNode (id collection : string) (body : list runnable) (ctx : run_ctx)
    (c : expr_ctx) (parent : frame_id) (ppath : list frame_id) : M node_outcome :=
  let* ab := aborted ctx in
  if ab then st_ret NCancelled
  else
    match evaluateCollection id "iterate-chain" collection c with
    | inr o => st_ret o
    | inl [] => st_ret (NCompleted (Some (buildIterateOutput [])))
    | inl items => run_chain id body ctx c parent ppath (indexed items) [] None
    end.

(** ** Loops *)

(** What the gate of a loop sees of a round: the outputs of the body nodes that
    completed in this run under the round's frame. *)
Definition buildLoopGateExpressionContext (body : list node) (c : expr_ctx) (roundFrame : frame_id)
    (s : rt) : expr_ctx :=
  foldl (λ acc n,
    match List.find (λ f, bool_decide (parentFrameId f = Some roundFrame) &&
                          bool_decide (status f = SCompleted)) (getFramesByNodeId (node_id n) s) with
    | Some f => mergeFrameOutput acc (node_id n) (MergeCompleted (output f))
    | None => acc
    end) c body.

Inductive round_result :=
  | RoundTerminal (o : node_outcome)
  | RoundDone (out : json) (replayed : bool) (gateCtx : expr_ctx).

Definition executeRoundBody (id : string) (body : list runnable) (round : Z) (ctx : run_ctx) (c : expr_ctx)
    (parent : frame_id) (ppath : list frame_id) : M round_result :=
  let* r := run_in_frame (item_params id TLoop ppath parent round) body ctx c in
  match r with
  | BodyReplayed f =>
      let* g := asks (buildLoopGateExpressionContext body.*1 c (frameId f)) in
      st_ret (RoundDone (default JNull (output f)) true g)
  | BodyAborted fid | BodyRan fid (inl NCancelled) =>
      let* _ := cancelFrame ctx fid in
      st_ret (RoundTerminal NCancelled)
  | BodyRan fid (inr e) => st_ret (RoundTerminal (NFailed e))
  | BodyRan fid (inl (NFailed e)) =>
      let* _ := failFrame ctx fid e in
      st_ret (RoundTerminal (NFailed e))
  | BodyRan fid (inl (NPaused g x)) => st_ret (RoundTerminal (NPaused g x))
  | BodyRan fid (inl (NCompleted _ | NSkipped)) =>
      let* o := asks (extractLastSequenceOutput body.*1 fid) in
      let out := default JNull o in
      let* _ := completeFrame ctx fid (Some out) in
      let* g := asks (buildLoopGateExpressionContext body.*1 c fid) in
      st_ret (RoundDone out false g)
  end.

Definition hasReusableRoundFrame (id : string) (round : Z) (parent : frame_id) (s : rt) : bool :=
  bool_decide (findBodyFrame (item_params id TLoop [] parent round) s ≠ None).

(** [inl] the gate's verdict, [inr] a failure.  The last round escalates. *)
Definition evaluateGate (id : string) (maxRounds : Z) (gate : loop_gate) (round : Z) (c : expr_ctx)
    (h : option json → json → loop_gate_context → outcome string loop_gate_outcome) :
    M (loop_gate_outcome + node_outcome) :=
  match match lg_input gate with
        | None => Ok (Some JNull)
        | Some e => evaluateSync e (buildRuntimeExpressionScope c)
        end with
  | Throw m => st_ret (inr (NFailed ("Loop node '" +:+ id +:+
      "': gate input expression evaluation failed: " +:+ m)))
  | Ok input =>
      let* o := rethrow (h input (default JNull (lg_config gate))
        {| lgc_nodeId := id; lgc_round := round + 1; lgc_maxRounds := maxRounds |}) in
      st_ret (inl (match o with
        | LGLoop => if maxRounds <=? round + 1 then LGEscalate "max_rounds_reached" else LGLoop
        | _ => o
        end))
  end.

(** The rounds.  A replayed round is past its gate: the run goes on with the next
    round, or with the gate that was raised after the last one. *)
Fixpoint run_rounds (fuel : nat) (id : string) (maxRounds : Z) (body : list runnable) (gate : loop_gate)
    (h : option json → json → loop_gate_context → outcome string loop_gate_outcome)
    (ctx : run_ctx) (c : expr_ctx) (parent : frame_id) (ppath : list frame_id)
    (round : Z) (outputs : list json) : M node_outcome :=
  match fuel with
  | O => st_throw OutOfFuel
  | S fuel =>
      let continue := run_rounds fuel id maxRounds body gate h ctx c parent ppath (round + 1) in
      let* ab := aborted ctx in
      if ab then st_ret NCancelled
      else
        let* r := executeRoundBody id body round ctx c parent ppath in
        match r with
        | RoundTerminal o => st_ret o
        | RoundDone out true _ =>
            let outputs' := outputs ++ [out] in
            let* more := asks (hasReusableRoundFrame id (round + 1) parent) in
            if more : bool then continue outputs'
            else
              match lg_escalation gate with
              | Some _ =>
                  if parks ctx then
                    let* early := resolvePersistedEscalationGate ctx id parent
                      (LGEscalate "resumed_from_gate") (round + 1) outputs' in
                    match early with
                    | Some o => st_ret o
                    | None => continue outputs'
                    end
                  else continue outputs'
              | None => continue outputs'
              end
        | RoundDone out false gctx =>
            let outputs' := outputs ++ [out] in
            let* v := evaluateGate id maxRounds gate round gctx h in
            match v with
            | inr o => st_ret o
            | inl LGPass =>
                st_ret (NCompleted (Some (buildLoopOutput "pass" (round + 1) LGPass outputs' None)))
            | inl (LGEscalate reason) =>
                openEscalationGate ctx id (lg_escalation gate) c parent (LGEscalate reason) (round + 1) outputs'
            | inl LGLoop => continue outputs'
            end
        end
  end.

(** [while (true)]: every round that goes on either stays below [maxRounds] or
    replays a frame of its own. *)
Definition executeLoopNode (id : string) (maxRounds : Z) (body : list runnable) (gate : loop_gate)
    (ctx : run_ctx) (c : expr_ctx) (parent : frame_id) (ppath : list frame_id) : M node_outcome :=
  let* ab := aborted ctx in
  if ab then st_ret NCancelled
  else
    match runtimeLoopGates (lg_handler gate) with
    | None => st_ret (NFailed ("Loop node '" +:+ id +:+ "': no gate handler registered for '" +:+
        lg_handler gate +:+ "'"))
    | Some h =>
        let* n := asks (λ s, List.length (resumeFrames s)) in
        run_rounds (S (Z.to_nat maxRounds + n)) id maxRounds body gate h ctx c parent ppath 0 []
    end.

(** ** The dispatcher *)
Fixpoint executeNode (n : node) : run_ctx → expr_ctx → frame_id → list frame_id → M node_outcome :=
  λ ctx c fid ppath,
  let* ab := aborted ctx in
  if ab then st_ret NCancelled
  else
    match n with
    | Node id _ _ k =>
        match k with
        | Sequence nodes => executeSequence (map (λ m, (m, executeNode m)) nodes) ctx c (Some fid) ppath
        | Station role => executeStationNode id role ctx c fid
        | DelegateAgent => executeDelegation id TDelegateAgent ctx c fid
        | DelegateRole => executeDelegation id TDelegateRole ctx c fid
        | Parallel mode branches =>
            executeParallelNode id mode (map (λ b, (b.1, map (λ m, (m, executeNode m)) b.2)) branches) ctx c fid ppath
        | Gate g => executeGateNode ctx id g c fid
        | Iterate collection body concurrency =>
            executeIterateNode id collection (map (λ m, (m, executeNode m)) body) concurrency ctx c fid ppath
        | IterateChain collection body =>
            executeIterateChainNode id collection (map (λ m, (m, executeNode m)) body) ctx c fid ppath
        | Loop maxRounds body gate =>
            executeLoopNode id maxRounds (map (λ m, (m, executeNode m)) body) gate ctx c fid ppath
        end
    end.

Definition runnables (nodes : list node) : list runnable := map (λ m, (m, executeNode m)) nodes.

(** ** Runs *)
Definition buildExpressionContext (ins cfg trig : json) : expr_ctx :=
  {| inputs := ins; config := cfg; trigger := trig; frames := []; previousSteps := [];
     x_output := None; item := None; index := None; previous := None |}.

Inductive sequence_result :=
  | RunCompleted
  | RunFailed (e : string)
  | RunCancelled
  | RunPaused (gateId : string) (fid : frame_id).

(** The mutable state a run starts from, with the rows storage has. *)
Definition initial_state (t : Z) (listed : list frame)
    (rows : list ((string * frame_id) * gate_instance)) (p : frame_id) : rt :=
  {| pos := p; now := t; registry := []; resumeFrames := []; inflight := [];
     stored := map (λ f, (frameId f, f)) listed; gates := rows; effects := [] |}.

(** [loadResumeFrames(executionId, bus, { required: true })] *)
Definition loadResumeFrames (executionId : string) : M unit :=
  let* p := asks pos in
  let* _ := tick in
  match listFrames p with
  | Unhandled => raise ("Frame storage handler is required to resume execution '" +:+ executionId +:+ "'.")
  | Faulted m _ => raise m
  | Answered => modify (λ s, set_resumeFrames (JsMap.values (stored s)) s)
  end.

(** ** The artifact a run is bound to *)
Definition normalizeExistingArtifactRef (v : option json) : outcome string (option (string * string)) :=
  match v with
  | None | Some JNull => Ok None
  | Some (JObj kvs) =>
      match JsMap.get "kind" kvs, JsMap.get "id" kvs with
      | Some (JStr k), Some (JStr i) => Ok (Some (k, i))
      | _, _ => Throw "Artifact resolve expression must return an object with string kind and id fields."
      end
  | Some _ => Throw "Artifact resolve expression must return an object with string kind and id fields."
  end.

Definition normalizeInitialData (v : option json) : outcome string (option (list (string * json))) :=
  match v with
  | None => Ok None
  | Some (JObj kvs) => Ok (Some kvs)
  | Some _ => Throw "Artifact create expression must return an object."
  end.

(** The revision the artifact service has, or makes; [None] if it has none. *)
Definition resolveOrCreateArtifactBinding (b : artifact_binding) (existing : option (string * string))
    (initialData : option (list (string * json))) : M (option json) :=
  match existing with
  | Some ref =>
      let* p := asks pos in
      let* _ := tick in
      let* found := rethrow (artifact_query p ref) in
      st_ret (head found)
  | None =>
      match initialData with
      | None => raise ("Workflow artifact binding for '" +:+ ab_kind b +:+
          "' requires an existing artifact reference or explicit initial data from its create expression.")
      | Some d =>
          let* p := asks pos in
          let* _ := tick in
          let* made := rethrow (artifact_create p (ab_kind b) d) in
          st_ret (Some made)
      end
  end.

(** An expression that is not there yields nothing. *)
Definition evaluate_optional {A} (e : option string) (scope : json)
    (normalize : option json → outcome string (option A)) : M (option A) :=
  match e with
  | None => st_ret None
  | Some e =>
      let* v := rethrow (evaluateSync e scope) in
      rethrow (normalize v)
  end.

Definition resolveWorkflowArtifactBinding (a : artifact_start) : M (option json) :=
  match as_binding a with
  | None => st_ret None
  | Some b =>
      let* existing := match as_ref a with
                       | Some ref => st_ret (Some ref)
                       | None => evaluate_optional (ab_resolve b) (as_context a) normalizeExistingArtifactRef
                       end in
      let* initialData := match existing with
                          | Some _ => st_ret None
                          | None => evaluate_optional (ab_create b) (as_context a) normalizeInitialData
                          end in
      let* current := resolveOrCreateArtifactBinding b existing initialData in
      match current with
      | Some _ => st_ret current
      | None => raise "Workflow artifact binding could not be resolved for the configured artifact reference."
      end
  end.

(** What precedes the first node: a strategy that exits loads the frames storage
    lists, and the artifact is bound. *)
Definition prepare_run (a : artifact_start) (ctx : run_ctx) : M unit :=
  let* _ := (if parks ctx then loadResumeFrames (executionId ctx) else st_ret tt) in
  let* _ := resolveWorkflowArtifactBinding a in
  st_ret tt.

Definition runRuntimeSequence (root : list node) (a : artifact_start) (ctx : run_ctx) (c : expr_ctx) :
    M sequence_result :=
  let* _ := prepare_run a ctx in
  let* o := executeSequence (runnables root) ctx c None [] in
  match o with
  | NFailed e => st_ret (RunFailed e)
  | NPaused g x => st_ret (RunPaused g x)
  | _ =>
      let* ab := aborted ctx in
      st_ret (if ab || bool_decide (o = NCancelled) then RunCancelled else RunCompleted)
  end.
End runtime.
