(* ===== verification/NodeFacts.v ===== *)
(** * Reasoning about runs

    A program logic for the node interpreter of [NodeRuntime]: weakest
    preconditions with two-state postconditions, and one induction over nodes
    that shows, for every invariant closed under the writes of the runtime, that
    a run keeps it, that sequences throw only when a required write of a frame
    failed, that loops never exhaust their bound, and, while storage does not fail
    such a write, that whatever a node started is finished when it returns, unless
    it paused.  [NodeSafety] instantiates it. *)
From S2P Require Import Prelude JsValue Json Workflow RuntimeContext GateNode NodeRuntime.

(** ** Weakest preconditions *)
Definition wp {A} (m : M A) (Q : outcome halt A → rt → Prop) (s : rt) : Prop := Q (m s).1 (m s).2.

Lemma wp_mono {A} (m : M A) (Q Q' : outcome halt A → rt → Prop) s :
  wp m Q s → (∀ r s', Q r s' → Q' r s') → wp m Q' s.
Proof. unfold wp. auto. Qed.

Lemma wp_ret {A} (a : A) (Q : outcome halt A → rt → Prop) s : Q (Ok a) s → wp (st_ret a) Q s.
Proof. done. Qed.

Lemma wp_bind {A B} (m : M A) (f : A → M B) (Q : outcome halt B → rt → Prop) s :
  wp m (λ r s', match r with Ok a => wp (f a) Q s' | Throw e => Q (Throw e) s' end) s →
  wp (st_bind m f) Q s.
Proof. unfold wp, st_bind. by destruct (m s) as [[a|e] s']. Qed.

Lemma wp_asks {A} (f : rt → A) (Q : outcome halt A → rt → Prop) s : Q (Ok (f s)) s → wp (asks f) Q s.
Proof. done. Qed.

Lemma wp_modify f (Q : outcome halt () → rt → Prop) s : Q (Ok tt) (f s) → wp (modify f) Q s.
Proof. done. Qed.

(** ** What a run may change *)

(** The part of a frame no write changes. *)
Definition ident (f : frame) : frame_id * string * option frame_id * option Z * option string :=
  (frameId f, nodeId f, parentFrameId f, iteration f, branchKey f).

Definition pos_advanced (p q : frame_id) : Prop :=
  p = q ∨ ∃ k k' rest, p = k :: rest ∧ q = k' :: rest ∧ (k ≤ k')%nat.

(** Storage has a row for the frame. *)
Definition row (fid : frame_id) (s : rt) : Prop := JsMap.get fid (stored s) ≠ None.

(** Frames and rows are added and never removed, and frames keep their identity. *)
Record grows (s s' : rt) : Prop := {
  ex_registry fid f : JsMap.get fid (registry s) = Some f →
    ∃ f', JsMap.get fid (registry s') = Some f' ∧ ident f' = ident f;
  ex_resume : map ident (resumeFrames s') = map ident (resumeFrames s);
  ex_rows x : row x s → row x s';
}.

Definition extends (s s' : rt) : Prop := pos_advanced (pos s) (pos s') ∧ grows s s'.

#[export] Instance pos_advanced_preorder : PreOrder pos_advanced.
Proof.
  split; [by left|]. intros p q r [->|(k & k' & rest & -> & -> & Hk)]; [done|].
  intros [<-|(k1 & k2 & rest' & ? & -> & Hk2)]; right.
  - by exists k, k', rest.
  - simplify_eq. exists k, k2, rest'. split_and!; [done..|lia].
Qed.

#[export] Instance grows_preorder : PreOrder grows.
Proof.
  split.
  - intros s. split; [|done..]. intros fid f Hf. by exists f.
  - intros s1 s2 s3 [G1 R1 O1] [G2 R2 O2]. split; [|congruence|auto].
    intros fid f Hf. destruct (G1 _ _ Hf) as (f' & Hf' & Hi). destruct (G2 _ _ Hf') as (f'' & ? & ?).
    exists f''. split; [done|congruence].
Qed.

#[export] Instance extends_preorder : PreOrder extends.
Proof.
  split; [by intros s|]. intros s1 s2 s3 [P1 G1] [P2 G2]. split; by etrans.
Qed.

Lemma same_frames_grows s s' :
  registry s' = registry s → resumeFrames s' = resumeFrames s → (∀ x, row x s → row x s') →
  grows s s'.
Proof. intros Hr Hf Ho. split; [|by rewrite Hf|done]. intros fid f Hg. exists f. by rewrite Hr. Qed.

Lemma extends_same_frames s s' :
  pos_advanced (pos s) (pos s') → registry s' = registry s → resumeFrames s' = resumeFrames s →
  (∀ x, row x s → row x s') → extends s s'.
Proof. intros. split; [done|by apply same_frames_grows]. Qed.

Lemma pos_advanced_next p : pos_advanced p (next_pos p).
Proof. destruct p as [|k rest]; [by left|]. right. exists k, (S k), rest. split_and!; [done..|lia]. Qed.

(** ** Kinds of runs *)

(** A required write of a frame may fail. *)
Definition storage_faults `{Surroundings} : Prop :=
  ∃ w s m, fw_required w = true ∧ (write_frame w s).1 = Some m.

(** Whether the run exits at gates, its writes being required then, and whether
    one of them may fail. *)
Class run_kind `{Surroundings} := {
  exits : bool;
  unreliable : Prop;
  faults_unreliable : exits = true → storage_faults → unreliable;
}.

(** ** Statuses *)
Definition terminal (st : frame_status) : bool :=
  match st with SCompleted | SFailed | SSkipped | SCancelled => true | _ => false end.

Section statuses.
Context `{run_kind}.

(** Claims about statuses are made of reliable runs only. *)
Definition has_status (X : frame_status → bool) (fid : frame_id) (s : rt) : Prop :=
  ¬ unreliable ∧ ∃ f, JsMap.get fid (registry s) = Some f ∧ X (status f) = true.

Definition is_open (st : frame_status) : bool := negb (terminal st).
Definition is_pending (st : frame_status) : bool := match st with SPending => true | _ => false end.

(** Every open frame was open before, every pending one pending. *)
Definition closes (s s' : rt) : Prop := ∀ fid, has_status is_open fid s' → has_status is_open fid s.
Definition starts_all (s s' : rt) : Prop :=
  ∀ fid, has_status is_pending fid s' → has_status is_pending fid s.

#[global] Instance closes_preorder : PreOrder closes.
Proof. split; [by intros s fid|]. intros s1 s2 s3 H1 H2 fid Hf. by apply H1, H2. Qed.
#[global] Instance starts_all_preorder : PreOrder starts_all.
Proof. split; [by intros s fid|]. intros s1 s2 s3 H1 H2 fid Hf. by apply H1, H2. Qed.

Lemma same_registry_closes s s' : registry s' = registry s → closes s s' ∧ starts_all s s'.
Proof. intros Hr. split; intros fid (Hn & f & Hf & Hs); (split; [done|]); exists f; by rewrite Hr in Hf. Qed.

(** What is left when something returns: nothing open that was not, if it did
    not pause; nothing pending in any case.  [extra] is a frame still to settle. *)
Definition settled_except (extra : frame_id → Prop) (s s' : rt) : Prop :=
  ∀ fid, has_status is_open fid s' → has_status is_open fid s ∨ extra fid.
Definition started_except (extra : frame_id → Prop) (s s' : rt) : Prop :=
  ∀ fid, has_status is_pending fid s' → has_status is_pending fid s ∨ extra fid.

Definition outcome_post (s : rt) (o : node_outcome) (s' : rt) : Prop :=
  starts_all s s' ∧ (paused_outcome o = true ∨ closes s s').

(** The same for a node that runs in frame [fid]: its own frame is its caller's. *)
Definition node_post (fid : frame_id) (s : rt) (o : node_outcome) (s' : rt) : Prop :=
  starts_all s s' ∧ (paused_outcome o = true ∨ settled_except (eq fid) s s').

Lemma unreliable_status X fid s : unreliable → ¬ has_status X fid s.
Proof. by intros Hu [? _]. Qed.

Lemma unreliable_starts s s' : unreliable → starts_all s s'.
Proof. intros Hu x Hx. by destruct (unreliable_status _ _ _ Hu Hx). Qed.

Lemma unreliable_settled X s s' : unreliable → settled_except X s s'.
Proof. intros Hu x Hx. by destruct (unreliable_status _ _ _ Hu Hx). Qed.
End statuses.

(** ** Writes of the runtime *)
Section writes.
Context `{Surroundings}.

(** What writing rows of one frame changes: that frame's row, to one of the
    snapshots, and spans. *)
Record written (fid : frame_id) (P : frame → Prop) (s s' : rt) : Prop := {
  wr_pos : pos s' = pos s;
  wr_now : now s' = now s;
  wr_registry : registry s' = registry s;
  wr_resume : resumeFrames s' = resumeFrames s;
  wr_inflight : inflight s' = inflight s;
  wr_other x : x ≠ fid → JsMap.get x (stored s') = JsMap.get x (stored s);
  wr_row f : JsMap.get fid (stored s') = Some f → JsMap.get fid (stored s) = Some f ∨ P f;
  wr_kept : row fid s → row fid s';
  wr_invoked id x t c : Invoked id x t c ∈ effects s' ↔ Invoked id x t c ∈ effects s;
}.

Lemma written_refl fid P s : written fid P s s.
Proof. by constructor; auto. Qed.

Lemma written_trans fid (P Q : frame → Prop) s1 s2 s3 :
  written fid P s1 s2 → written fid Q s2 s3 → written fid (λ f, P f ∨ Q f) s1 s3.
Proof.
  intros [] []. constructor; try congruence; auto.
  - intros x Hx. rewrite wr_other1, wr_other0; done.
  - intros f [?|?]%wr_row1; [|by auto]. destruct (wr_row0 f); auto.
  - intros id x t c. by rewrite wr_invoked1, wr_invoked0.
Qed.

Lemma written_weaken fid (P Q : frame → Prop) s s' :
  (∀ f, P f → Q f) → written fid P s s' → written fid Q s s'.
Proof. intros HPQ []. constructor; auto. intros f Hf. destruct (wr_row0 f Hf); auto. Qed.

Lemma put_row_written f s : written (frameId f) (eq f) s (put_row f s).
Proof.
  constructor; try done; unfold row; simpl.
  - intros x Hx. rewrite JsMap.get_set. by rewrite decide_False.
  - intros f'. rewrite JsMap.get_set_eq. intros [= <-]. by right.
  - by rewrite JsMap.get_set_eq.
Qed.

Lemma span_written fid P sp s : written fid P s (add_effect (SpanSet sp) s).
Proof.
  constructor; auto. intros id x t c. simpl. rewrite elem_of_app, list_elem_of_singleton. naive_solver.
Qed.

Lemma write_frame_written w s : written (frameId (fw_frame w)) (eq (fw_frame w)) s (write_frame w s).2.
Proof.
  unfold write_frame. set (s' := if carried_out _ then _ else s).
  assert (written (frameId (fw_frame w)) (eq (fw_frame w)) s s') as Hs.
  { unfold s'. destruct (carried_out _); [apply put_row_written|apply written_refl]. }
  destruct (request_error _ _ _); [done|]. unfold write_span. destruct (toFrameSpanRecord _) as [sp|]; [|done].
  destruct (carried_out (setSpan _ sp)); [|done]. simpl.
  eapply written_weaken; [|eapply written_trans; [exact Hs|apply (span_written _ (eq (fw_frame w)))]]. intros f [?|?]; done.
Qed.

Lemma run_queue_snoc ws w s : run_queue (ws ++ [w]) s = write_frame w (run_queue ws s).2.
Proof. unfold run_queue. by rewrite foldl_app. Qed.

Lemma run_queue_written fid ws s :
  Forall (λ w, frameId (fw_frame w) = fid) ws →
  written fid (λ f, ∃ w, w ∈ ws ∧ fw_frame w = f) s (run_queue ws s).2.
Proof.
  induction ws as [|w ws IH] using rev_ind; intros Hws; [apply written_refl|].
  apply Forall_app in Hws as [Hws [Hw _]%Forall_cons]. rewrite run_queue_snoc.
  eapply written_weaken; [|eapply written_trans; [by apply IH|]].
  2:{ rewrite <- Hw. apply write_frame_written. }
  intros f [(w' & Hin & Hf)|<-]; [exists w'; split; [|done]|exists w; split; [|done]];
    apply elem_of_app; [by left|right; by left].
Qed.

(** The writes of a frame with the given identifier. *)
Definition writes_of (fid : frame_id) (ws : list frame_write) : list frame_write :=
  filter (λ w, frameId (fw_frame w) = fid) ws.

Lemma drain_written fid s :
  written fid (λ f, ∃ w, w ∈ inflight s ∧ fw_frame w = f ∧ frameId f = fid)
    (set_inflight (filter (λ w, frameId (fw_frame w) ≠ fid) (inflight s)) s) (drain fid s).2.
Proof.
  unfold drain. eapply written_weaken; [|apply run_queue_written].
  - intros f (w & [Hw Hin]%list_elem_of_filter & <-). eauto.
  - apply Forall_forall. by intros w [? _]%list_elem_of_filter.
Qed.

(** ** States the runtime's writes lead to *)
Definition created (b : bool) (p : create_params) (s : rt) : rt :=
  enqueue {| fw_at := pos s; fw_required := b; fw_frame := new_frame (pos s) p |}
    (set_pos (next_pos (pos s)) (set_registry (JsMap.set (pos s) (new_frame (pos s) p) (registry s)) s)).

(** A snapshot enqueued, and the queue at its end. *)
Definition persisted (b : bool) (fid : frame_id) (s : rt) : option string * rt :=
  match frame_object fid s with
  | Some f => drain (frameId f) (enqueue {| fw_at := pos s; fw_required := b; fw_frame := f |} s)
  | None => (None, s)
  end.

Definition patched (b : bool) (fid : frame_id) (g : frame → frame) (s : rt) : rt :=
  (persisted b fid (patch_frame fid g s)).2.

(** Patches of the lifecycle: identity and start are kept. *)
Definition lifecycle (g : frame → frame) : Prop :=
  ∀ f, ident (g f) = ident f ∧ startedAt (g f) = startedAt f.

Lemma persisted_last b fid f s :
  frame_object fid s = Some f →
  persisted b fid s = write_frame {| fw_at := pos s; fw_required := b; fw_frame := f |}
    (drain (frameId f) s).2.
Proof.
  intros Hf. unfold persisted. rewrite Hf. unfold drain. simpl.
  rewrite !filter_app, filter_cons_True, filter_nil, run_queue_snoc by done. f_equal. f_equal. f_equal.
  rewrite filter_cons_False, filter_nil, app_nil_r; [done|]. simpl. tauto.
Qed.

(** What the queue of [fid] holds and a last snapshot of it may leave in storage. *)
Lemma persisted_written b fid s f :
  frame_object fid s = Some f →
  written (frameId f) (λ f', f' = f ∨ ∃ w, w ∈ inflight s ∧ fw_frame w = f' ∧ frameId f' = frameId f)
    (set_inflight (filter (λ w, frameId (fw_frame w) ≠ frameId f) (inflight s)) s) (persisted b fid s).2.
Proof.
  intros Hf. rewrite (persisted_last _ _ _ _ Hf).
  eapply written_weaken; [|eapply written_trans; [apply drain_written|]].
  2:{ apply (write_frame_written {| fw_at := pos s; fw_required := b; fw_frame := f |}). }
  simpl. intros f' [?|<-]; auto.
Qed.

(** A required write that is awaited either throws or leaves its row. *)
Lemma persisted_row fid s f :
  frame_object fid s = Some f → (persisted true fid s).1 = None →
  JsMap.get (frameId f) (stored (persisted true fid s).2) = Some f.
Proof.
  intros Hf. rewrite (persisted_last _ _ _ _ Hf). unfold write_frame, write_span. simpl.
  destruct (setFrame _ f) as [| |m d]; simpl; [|done..].
  destruct (toFrameSpanRecord f) as [sp|]; simpl; [destruct (carried_out _); simpl|];
    intros _; apply JsMap.get_set_eq.
Qed.

Lemma persisted_faults b fid s m :
  (persisted b fid s).1 = Some m → b = true → storage_faults.
Proof.
  destruct (frame_object fid s) as [f|] eqn:Hf; [|unfold persisted; by rewrite Hf].
  rewrite (persisted_last _ _ _ _ Hf). intros He Hb.
  by exists {| fw_at := pos s; fw_required := b; fw_frame := f |}, (drain (frameId f) s).2, m.
Qed.

(** What persisting leaves alone. *)
Lemma persisted_same b fid s :
  let s' := (persisted b fid s).2 in
  pos s' = pos s ∧ now s' = now s ∧ registry s' = registry s ∧ resumeFrames s' = resumeFrames s ∧
  (∀ x, row x s → row x s') ∧
  (∀ id x t c, Invoked id x t c ∈ effects s' ↔ Invoked id x t c ∈ effects s).
Proof.
  cbv zeta. destruct (frame_object fid s) as [f|] eqn:Hf.
  - destruct (persisted_written b fid s f Hf). split_and!; try done. intros x Hx.
    destruct (decide (x = frameId f)) as [->|Hne]; [by apply wr_kept0|].
    unfold row in *. by rewrite wr_other0.
  - unfold persisted. by rewrite Hf.
Qed.
End writes.

Lemma patch_frame_pos fid g s : pos (patch_frame fid g s) = pos s.
Proof. unfold patch_frame. by destruct (JsMap.get _ _). Qed.
Lemma patch_frame_now fid g s : now (patch_frame fid g s) = now s.
Proof. unfold patch_frame. by destruct (JsMap.get _ _). Qed.
#[export] Hint Rewrite patch_frame_pos patch_frame_now : js.

Lemma patch_frame_registry fid g s x :
  JsMap.get x (registry (patch_frame fid g s)) =
    if decide (x = fid) then g <$> JsMap.get x (registry s) else JsMap.get x (registry s).
Proof.
  unfold patch_frame. destruct (JsMap.get fid (registry s)) as [f|] eqn:Hf; simpl.
  - rewrite JsMap.get_set. repeat case_decide; subst; try done. by rewrite Hf.
  - case_decide; [subst; by rewrite Hf|done].
Qed.

Section patches.
Context `{run_kind}.

Lemma patched_pos b fid g s : pos (patched b fid g s) = pos s.
Proof. unfold patched. destruct (persisted_same b fid (patch_frame fid g s)) as (-> & _). apply patch_frame_pos. Qed.

Lemma patched_registry b fid g s x :
  JsMap.get x (registry (patched b fid g s)) =
    if decide (x = fid) then g <$> JsMap.get x (registry s) else JsMap.get x (registry s).
Proof.
  unfold patched. destruct (persisted_same b fid (patch_frame fid g s)) as (_ & _ & -> & _).
  apply patch_frame_registry.
Qed.

Lemma patched_resume b fid g s :
  resumeFrames (patched b fid g s) =
    match JsMap.get fid (registry s) with
    | Some _ => resumeFrames s
    | None => map (λ f, if bool_decide (frameId f = fid) then g f else f) (resumeFrames s)
    end.
Proof.
  unfold patched. destruct (persisted_same b fid (patch_frame fid g s)) as (_ & _ & _ & -> & _).
  unfold patch_frame. by destruct (JsMap.get _ _).
Qed.

Lemma patch_frame_row fid g s x : row x (patch_frame fid g s) ↔ row x s.
Proof. unfold patch_frame. by destruct (JsMap.get _ _). Qed.

Lemma patch_frame_extends fid g s : (∀ f, ident (g f) = ident f) → extends s (patch_frame fid g s).
Proof.
  intros Hg. split; [by rewrite patch_frame_pos; left|split].
  - intros x f Hf. rewrite patch_frame_registry, Hf. case_decide; eexists; split; simpl; eauto.
  - unfold patch_frame. destruct (JsMap.get _ _); [done|]. simpl.
    rewrite map_map. apply map_ext. intros f. by case_bool_decide.
  - intros x. by rewrite patch_frame_row.
Qed.

Lemma patched_extends b fid g s : (∀ f, ident (g f) = ident f) → extends s (patched b fid g s).
Proof.
  intros Hg. etrans; [by apply patch_frame_extends|]. unfold patched.
  destruct (persisted_same b fid (patch_frame fid g s)) as (Hp & _ & Hr & Hf & Ho & _).
  apply extends_same_frames; [by rewrite Hp; left|done..].
Qed.

(** Setting a status: only the patched frame changes. *)
Lemma patch_frame_status (X : frame_status → bool) fid g s x :
  has_status X x (patch_frame fid g s) →
  (x ≠ fid ∧ has_status X x s) ∨
  (x = fid ∧ ¬ unreliable ∧ ∃ f, JsMap.get fid (registry s) = Some f ∧ X (status (g f)) = true).
Proof.
  intros (Hn & f & Hf & Hs). rewrite patch_frame_registry in Hf. case_decide as Hx.
  - right. split_and!; [done..|]. subst. destruct (JsMap.get fid (registry s)) as [f0|]; simplify_eq/=. by exists f0.
  - left. split; [done|]. split; [done|]. by exists f.
Qed.

Lemma created_registry b p s x :
  JsMap.get x (registry (created b p s)) =
    if decide (pos s = x) then Some (new_frame (pos s) p) else JsMap.get x (registry s).
Proof. apply JsMap.get_set. Qed.

Lemma created_extends b p s : JsMap.get (pos s) (registry s) = None → extends s (created b p s).
Proof.
  intros Hn. split; [apply pos_advanced_next|split; [|done..]].
  intros x f Hf. rewrite created_registry. case_decide; [congruence|eauto].
Qed.
End patches.

(** ** Invariants closed under the writes of a run *)
Definition at_coords (p : create_params) (r : frame) : Prop :=
  nodeId r = cp_nodeId p ∧ parentFrameId r = cp_parentFrameId p ∧
  iteration r = cp_iteration p ∧ branchKey r = cp_branchKey p.

(** A frame is created only where no finished frame of an earlier run is found:
    either there is none, or one that is not finished is found before it. *)
Definition allowed (p : create_params) (s : rt) : Prop :=
  ∀ r, r ∈ resumeFrames s → at_coords p r →
    (status r = SCompleted ∨ (status r = SSkipped ∧ cp_iteration p = None ∧ cp_branchKey p = None)) →
    ∃ r', r' ∈ resumeFrames s ∧ at_coords p r' ∧ (status r' = SWaiting ∨ status r' = SRunning).

Definition bus_effect (e : effect) : Prop := match e with Invoked _ _ _ _ => False | _ => True end.

Definition registered_as (id : string) (fid : frame_id) (s : rt) : Prop :=
  ∃ f, JsMap.get fid (registry s) = Some f ∧ nodeId f = id.

Lemma registered_as_extends id fid s s' : extends s s' → registered_as id fid s → registered_as id fid s'.
Proof.
  intros [_ He] (f & Hf & Hid). destruct (ex_registry _ _ He _ _ Hf) as (f' & Hf' & Hi).
  exists f'. split; [done|]. injection Hi. congruence.
Qed.

Record closed `{run_kind} (σ : signal) (I : rt → Prop) (Hd : frame_id → Prop) : Prop := {
  c_time s t : I s → I (set_now t s);
  c_next s : I s → I (set_pos (next_pos (pos s)) s);
  c_branch s p i : I s → (pos s = p ∨ ∃ k j, pos s = k :: j :: p ∧ (j < i)%nat) → p ≠ [] →
    I (set_pos (O :: i :: p) s);
  c_join s p : I s → (pos s = p ∨ ∃ k j, pos s = k :: j :: p) → p ≠ [] → I (set_pos (next_pos p) s);
  c_pos s : I s → pos s ≠ [];
  c_fresh s : I s → JsMap.get (pos s) (registry s) = None;
  c_named s x f : I s → frame_object x s = Some f → frameId f = x;
  c_effect s e : I s → bus_effect e → I (add_effect e s);
  c_invoked s id fid c : I s → registered_as id fid s → (exits = true → row fid s) →
    aborted_at σ (now s) = false → I (add_effect (Invoked id fid (now s) c) s);
  c_gates s g : I s → I (set_gates g s);
  c_created b s p : I s → allowed p s → I (created b p s) ∧ Hd (pos s);
  c_reused s f : I s → f ∈ resumeFrames s → (status f = SRunning ∨ status f = SWaiting) → Hd (frameId f);
  c_started b s fid : I s → Hd fid → aborted_at σ (now s) = false →
    I (patched b fid (λ f, with_started (now s) (with_status SRunning f)) s);
  c_patched b s fid g : I s → Hd fid → lifecycle g → I (patched b fid g s);
}.

(** What a run may wait for: an executor that does not return, or an answer to a
    gate while in process. *)
Record may_wait `{Surroundings} (W : Prop) : Prop := {
  w_station id h i t a : station_handlers id = Some h → cr_duration (h i t a) = None → W;
  w_delegation id ty c fid t a : cr_duration (delegation id ty c fid t a) = None → W;
}.

(** How a computation may stop short: it waits, in a run that may, or a required
    write of a frame failed. *)
Definition halts `{run_kind} (W : Prop) (e : halt) : Prop :=
  match e with Never => W | Raised _ => unreliable | OutOfFuel => False end.

Section logic.
Context `{run_kind} (W : Prop) (σ : signal) (I : rt → Prop) (Hd : frame_id → Prop).
Context (C : closed σ I Hd).

(** A computation that returns, keeping the invariant, unless a required write of
    a frame failed. *)
Definition did {A} (s : rt) (Q : A → rt → Prop) (r : outcome halt A) (s' : rt) : Prop :=
  I s' ∧ extends s s' ∧ match r with Ok a => Q a s' | Throw e => halts False e end.

(** ... that may wait for ever besides. *)
Definition quiet {A} (s : rt) (Q : A → rt → Prop) (r : outcome halt A) (s' : rt) : Prop :=
  I s' ∧ extends s s' ∧ match r with Ok a => Q a s' | Throw e => halts W e end.

(** ... that may throw, leaving nothing open but the frame it runs in. *)
Definition loud {A} (fid : frame_id) (s : rt) (Q : A → rt → Prop) (r : outcome halt A) (s' : rt) : Prop :=
  I s' ∧ extends s s' ∧
  match r with
  | Ok a => Q a s'
  | Throw Never => W
  | Throw (Raised _) => starts_all s s' ∧ settled_except (eq fid) s s'
  | Throw OutOfFuel => False
  end.

Lemma did_bind {A B} (m : M A) (f : A → M B) s s0 Q (Q' : B → rt → Prop) :
  extends s0 s →
  wp m (did s Q) s →
  (∀ a s1, I s1 → extends s s1 → Q a s1 → wp (f a) (did s0 Q') s1) →
  wp (st_bind m f) (did s0 Q') s.
Proof.
  intros He Hm Hf. apply wp_bind. eapply wp_mono; [apply Hm|]. intros [a|e] s1 (HI & He1 & HQ); [auto|].
  split_and!; [done|by etrans|done].
Qed.

Lemma wp_quiet_bind {A B} (m : M A) (f : A → M B) s s0 Q (Q' : B → rt → Prop) :
  extends s0 s →
  wp m (quiet s Q) s →
  (∀ a s1, I s1 → extends s s1 → Q a s1 → wp (f a) (quiet s0 Q') s1) →
  wp (st_bind m f) (quiet s0 Q') s.
Proof.
  intros He Hm Hf. apply wp_bind. eapply wp_mono; [apply Hm|]. intros [a|e] s1 (HI & He1 & HQ); [auto|].
  split_and!; [done|by etrans|done].
Qed.

Lemma quiet_loud {A} fid (m : M A) s s0 Q (Q' : A → rt → Prop) :
  extends s0 s → wp m (quiet s Q) s → (∀ a s', extends s s' → Q a s' → Q' a s') → wp m (loud fid s0 Q') s.
Proof.
  intros He Hm HQ. eapply wp_mono; [apply Hm|]. intros [a|e] s1 (HI & He1 & Hq).
  - split_and!; [done|by etrans|by apply HQ].
  - split_and!; [done|by etrans|]. destruct e; try done. split;
      [by apply unreliable_starts|by apply unreliable_settled].
Qed.

Lemma did_quiet {A} (m : M A) s s0 Q (Q' : A → rt → Prop) :
  extends s0 s → wp m (did s Q) s → (∀ a s', extends s s' → Q a s' → Q' a s') → wp m (quiet s0 Q') s.
Proof.
  intros He Hm HQ. eapply wp_mono; [apply Hm|]. intros [a|e] s1 (HI & He1 & Hq);
    (split_and!; [done|by etrans|]); [by apply HQ|by destruct e].
Qed.

Lemma wp_did_bind {A B} (m : M A) (f : A → M B) s s0 Q (Q' : B → rt → Prop) :
  extends s0 s →
  wp m (did s Q) s →
  (∀ a s1, I s1 → extends s s1 → Q a s1 → wp (f a) (quiet s0 Q') s1) →
  wp (st_bind m f) (quiet s0 Q') s.
Proof.
  intros He Hm Hf. eapply wp_quiet_bind; [done|eapply did_quiet; [done|exact Hm|]|exact Hf]. auto.
Qed.

Definition same_frames (s s' : rt) : Prop :=
  registry s' = registry s ∧ resumeFrames s' = resumeFrames s.

Lemma pass_did d s : I s → wp (pass d) (did s (λ _ s', same_frames s s' ∧ now s' = now s + Z.of_nat d)) s.
Proof.
  intros HI. apply wp_modify. split_and!.
  - apply (c_next _ _ _ C (set_now _ s)). by apply (c_time _ _ _ C).
  - by apply extends_same_frames; [apply pos_advanced_next|..].
  - done.
  - done.
Qed.

Lemma tick_did s : I s → wp tick (did s (λ _ s', same_frames s s')) s.
Proof.
  intros HI. unfold tick. apply wp_bind, wp_asks. eapply wp_mono; [by apply pass_did|].
  intros [[]|e] s1 (? & ? & Hr); [by destruct Hr|done].
Qed.

Lemma emit_did e s : I s → bus_effect e → wp (emit e) (did s (λ _ s', same_frames s s')) s.
Proof.
  intros HI He. unfold emit. apply wp_bind, wp_modify.
  eapply wp_mono; [apply tick_did; by apply (c_effect _ _ _ C)|].
  intros r s1 (? & Hx & Hs). split_and!; [done| |by destruct r].
  etrans; [|done]. by apply extends_same_frames.
Qed.

(** *** Lifecycle *)

(** Only the status of [fid] changed, to [t]. *)
Definition set_to (fid : frame_id) (t : frame_status) (s s' : rt) : Prop :=
  ∀ x X, has_status X x s' → (x ≠ fid ∧ has_status X x s) ∨
    (x = fid ∧ X t = true ∧ has_status (λ _, true) fid s).

Lemma set_to_same fid t s s1 s2 : set_to fid t s s1 → same_frames s1 s2 → set_to fid t s s2.
Proof. intros Hs [Hr _] x X (Hn & f & Hf & Hx). rewrite Hr in Hf. apply Hs. split; [done|]. by exists f. Qed.

Lemma patch_set_to fid g t s : (∀ f, status (g f) = t) → set_to fid t s (patch_frame fid g s).
Proof.
  intros Hg x X Hx. destruct (patch_frame_status _ _ _ _ _ Hx) as [?|(? & Hn & f & Hf & Hs)]; [by left|].
  right. split_and!; [done|by rewrite <- (Hg f)|split; [done|by exists f]].
Qed.

(** An exiting run that goes on has a row for the frame. *)
Definition checkpointed (fid : frame_id) (s s' : rt) : Prop :=
  exits = true → frame_object fid s' ≠ None → row fid s'.

Lemma same_frames_object s s' x : same_frames s s' → frame_object x s' = frame_object x s.
Proof. intros [Hr Hf]. unfold frame_object. by rewrite Hr, Hf. Qed.

(** Awaiting the write of an object. *)
Lemma persistFrame_did ctx fid b s :
  parks ctx = exits → (b = true → parks ctx = true) → (∀ b', I (persisted b' fid s).2) →
  wp (persistFrame ctx fid b) (did s (λ _ s', same_frames s s' ∧ checkpointed fid s s')) s.
Proof.
  intros Hk Hb HIp. unfold persistFrame. apply wp_bind, wp_asks, wp_bind, wp_asks.
  assert (b || parks ctx = exits) as ->.
  { rewrite <- Hk. destruct b; [by rewrite Hb|done]. }
  specialize (HIp exits). pose proof (persisted_same exits fid s) as (Hp & _ & Hg & Hrf & Hro & _).
  pose proof (persisted_faults exits fid s) as Hfa. pose proof (persisted_row fid s) as Hrow.
  destruct (frame_object fid s) as [f|] eqn:Hf; last first.
  { unfold persisted in HIp. rewrite Hf in HIp. eapply wp_mono; [by apply tick_did|].
    intros [[]|e] s1 (? & ? & Hs1); split_and!; try done. intros _ Hx.
    by rewrite (same_frames_object s) in Hx. }
  assert (drain (frameId f) (enqueue {| fw_at := pos s; fw_required := exits; fw_frame := f |} s) =
    persisted exits fid s) as Hdr by (unfold persisted; by rewrite Hf).
  apply wp_bind, wp_modify, wp_bind. unfold wp at 1. cbv beta. rewrite Hdr.
  destruct (persisted exits fid s) as [e s1] eqn:Hps. simpl in *.
  assert (extends s s1) as He by (apply extends_same_frames; [by rewrite Hp; left|done..]).
  apply wp_bind. eapply wp_mono; [by apply tick_did|]. intros [[]|h] s2 (HI2 & He2 & Hs2); last first.
  { split_and!; [done|by etrans|done]. }
  assert (same_frames s s2) as Hsame by (destruct Hs2; split; congruence).
  assert (extends s s2) as He02 by by etrans.
  destruct e as [m|].
  - destruct exits eqn:Hx; [|apply wp_ret; split_and!; [done..|intros ?; congruence]].
    split_and!; [done..|]. simpl. apply faults_unreliable; [done|]. by eapply Hfa.
  - apply wp_ret. split_and!; [done..|]. intros Hx _. rewrite Hx in Hps.
    specialize (Hrow f eq_refl). rewrite Hps in Hrow. apply (ex_rows _ _ (proj2 He2)). unfold row.
    simpl in Hrow. rewrite <- (c_named _ _ _ C s2 fid f), Hrow; [done..|]. by rewrite (same_frames_object s).
Qed.

(** Patch an object, write it, await the write. *)
Lemma patch_persist_did ctx fid b g t s :
  parks ctx = exits → (b = true → parks ctx = true) →
  (∀ b', I (patched b' fid g s)) → (∀ f, ident (g f) = ident f) → (∀ f, status (g f) = t) →
  wp (let* _ := modify (patch_frame fid g) in persistFrame ctx fid b)
    (did s (λ _ s', set_to fid t s s' ∧ checkpointed fid s s')) s.
Proof.
  intros Hk Hb HI Hi Ht. apply wp_bind, wp_modify.
  eapply wp_mono; [apply (persistFrame_did ctx fid b (patch_frame fid g s)); done|].
  intros r s1 (HI1 & He & Hq). split_and!; [done|by etrans; [apply patch_frame_extends|]|].
  destruct r; [|done]. destruct Hq as [Hs Hc]. split; [|done].
  eapply set_to_same; [by apply patch_set_to|done].
Qed.

(** An optional event about the object at the end of a lifecycle operation. *)
Lemma emit_object_did fid (e : frame → effect) s :
  I s → (∀ f, bus_effect (e f)) →
  wp (let* o := asks (frame_object fid) in
      match o with Some f => emit (e f) | None => st_ret tt end)
     (did s (λ _ s', same_frames s s')) s.
Proof.
  intros HI He. apply wp_bind, wp_asks. destruct (frame_object fid s); [by apply emit_did|].
  by apply wp_ret.
Qed.

Lemma patch_emit_did ctx fid g t (e : frame → effect) s :
  parks ctx = exits → (∀ b, I (patched b fid g s)) → (∀ f, ident (g f) = ident f) →
  (∀ f, status (g f) = t) → (∀ f, bus_effect (e f)) →
  wp (let* _ := modify (patch_frame fid g) in
      let* _ := persistFrame ctx fid false in
      let* o := asks (frame_object fid) in
      match o with Some f => emit (e f) | None => st_ret tt end)
     (did s (λ _ s', set_to fid t s s' ∧ checkpointed fid s s')) s.
Proof.
  intros Hk HI Hi Ht He.
  assert (wp (st_bind (let* _ := modify (patch_frame fid g) in persistFrame ctx fid false) (λ _,
      let* o := asks (frame_object fid) in
      match o with Some f => emit (e f) | None => st_ret tt end))
     (did s (λ _ s', set_to fid t s s' ∧ checkpointed fid s s')) s) as Hw.
  { eapply did_bind; [done|by apply (patch_persist_did ctx fid false g t)|]. intros [] s1 HI1 He1 [Hs1 Hc1].
    eapply wp_mono; [by apply emit_object_did|]. intros r s2 (HI2 & He2 & Hq).
    split_and!; [done|by etrans|]. destruct r; [|done]. split; [by eapply set_to_same|].
    intros Hx Ho. apply (ex_rows _ _ (proj2 He2)), Hc1; [done|]. by rewrite <- (same_frames_object s1 s2). }
  unfold wp, st_bind, modify in *. cbv beta iota in *.
  destruct (persistFrame ctx fid false (patch_frame fid g s)) as [[a|h] s1]; done.
Qed.

Lemma startFrame_did ctx fid s :
  parks ctx = exits → I s → Hd fid → aborted_at σ (now s) = false →
  wp (startFrame ctx fid) (did s (λ _ s', set_to fid SRunning s s' ∧ checkpointed fid s s')) s.
Proof.
  intros Hk HI Hh Ha. unfold startFrame. apply wp_bind, wp_asks.
  apply patch_emit_did; [done|intros; by apply (c_started _ _ _ C)|done..].
Qed.

Lemma completeFrame_did ctx fid o s :
  parks ctx = exits → I s → Hd fid →
  wp (completeFrame ctx fid o) (did s (λ _ s', set_to fid SCompleted s s')) s.
Proof.
  intros Hk HI Hh. unfold completeFrame. apply wp_bind, wp_asks, wp_bind, wp_asks. eapply wp_mono.
  - apply (patch_emit_did ctx fid _ SCompleted (λ f, FrameCompleted f _)); [done| |done..].
    intros. by apply (c_patched _ _ _ C).
  - intros [[]|h] s' (? & ? & Hq); by split_and!; try destruct Hq.
Qed.

Lemma failFrame_did ctx fid e s :
  parks ctx = exits → I s → Hd fid →
  wp (failFrame ctx fid e) (did s (λ _ s', set_to fid SFailed s s')) s.
Proof.
  intros Hk HI Hh. unfold failFrame. apply wp_bind, wp_asks, wp_bind, wp_asks. eapply wp_mono.
  - apply (patch_emit_did ctx fid _ SFailed (λ f, FrameFailed f e _)); [done| |done..].
    intros. by apply (c_patched _ _ _ C).
  - intros [[]|h] s' (? & ? & Hq); by split_and!; try destruct Hq.
Qed.

Lemma skipFrame_did ctx fid s :
  parks ctx = exits → I s → Hd fid → wp (skipFrame ctx fid) (did s (λ _ s', set_to fid SSkipped s s')) s.
Proof.
  intros Hk HI Hh. unfold skipFrame. apply wp_bind, wp_asks. eapply wp_mono.
  - apply (patch_persist_did ctx fid false _ SSkipped); [done..| |done|done].
    intros. by apply (c_patched _ _ _ C).
  - intros [[]|h] s' (? & ? & Hq); by split_and!; try destruct Hq.
Qed.

Lemma cancelFrame_did ctx fid s :
  parks ctx = exits → I s → Hd fid → wp (cancelFrame ctx fid) (did s (λ _ s', set_to fid SCancelled s s')) s.
Proof.
  intros Hk HI Hh. unfold cancelFrame. apply wp_bind, wp_asks. eapply wp_mono.
  - apply (patch_persist_did ctx fid false _ SCancelled); [done..| |done|done].
    intros. by apply (c_patched _ _ _ C).
  - intros [[]|h] s' (? & ? & Hq); by split_and!; try destruct Hq.
Qed.

(** *** Creating frames *)
Definition adds (fid : frame_id) (s s' : rt) : Prop :=
  ∀ x X, has_status X x s' → has_status X x s ∨ x = fid.

Lemma createFrame_did ctx p s :
  I s → allowed p s →
  wp (createFrame ctx p) (did s (λ f s', Hd (frameId f) ∧ adds (frameId f) s s' ∧ now s' = now s ∧
     registered_as (cp_nodeId p) (frameId f) s' ∧ resumeFrames s' = resumeFrames s)) s.
Proof.
  intros HI Ha. destruct (c_created _ _ _ C (parks ctx) _ _ HI Ha) as [HI' Hh].
  unfold createFrame. apply wp_bind, wp_asks, wp_bind, wp_modify. apply wp_ret.
  change (did s (λ f s', Hd (frameId f) ∧ adds (frameId f) s s' ∧ now s' = now s ∧
     registered_as (cp_nodeId p) (frameId f) s' ∧ resumeFrames s' = resumeFrames s)
     (Ok (new_frame (pos s) p)) (created (parks ctx) p s)).
  split_and!; [done|by apply created_extends, (c_fresh _ _ _ C)|done| |done| |done].
  - intros x X (Hn & f & Hf & Hx). rewrite created_registry in Hf. case_decide; [by right|].
    left. split; [done|]. by exists f.
  - exists (new_frame (pos s) p). split; [|done]. rewrite created_registry. by case_decide.
Qed.

(** *** Gates *)
Lemma same_frames_settled (s s' : rt) : same_frames s s' → starts_all s s' ∧ closes s s'.
Proof. intros [Hr _]. split; intros x (Hn & f & Hf & Hx); (split; [done|]); exists f; by rewrite Hr in Hf. Qed.

(** What a gate does to frames: its own may wait. *)
Definition gate_frames (fid : frame_id) (s s' : rt) : Prop :=
  starts_all s s' ∧ settled_except (eq fid) s s'.

#[global] Instance gate_frames_preorder fid : PreOrder (gate_frames fid).
Proof.
  split; [split; [done|by left]|]. intros s1 s2 s3 [A1 B1] [A2 B2]. split; [by etrans|].
  intros x Hx. destruct (B2 x Hx); [by apply B1|by right].
Qed.

Lemma same_gate_frames fid s s' : same_frames s s' → gate_frames fid s s'.
Proof. intros [Hs Hc]%same_frames_settled. split; [done|]. intros x Hx. left. by apply Hc. Qed.

Lemma waiting_gate_frames fid s s' : set_to fid SWaiting s s' → gate_frames fid s s'.
Proof.
  intros Hs. split; intros x Hx; destruct (Hs _ _ Hx) as [[_ ?]|(? & ? & _)]; simplify_eq/=; auto.
Qed.

(** The weakest useful specification of a computation of a gate. *)
Definition gated {A} (fid : frame_id) (s : rt) (r : outcome halt A) (s' : rt) : Prop :=
  I s' ∧ extends s s' ∧ match r with
    | Ok _ | Throw (Raised _) => gate_frames fid s s'
    | Throw Never => W
    | Throw OutOfFuel => False
    end.

Lemma gated_bind {A B} fid (m : M A) (f : A → M B) s0 s :
  extends s0 s → gate_frames fid s0 s →
  wp m (gated fid s) s → (∀ a s1, I s1 → wp (f a) (gated fid s1) s1) →
  wp (st_bind m f) (gated fid s0) s.
Proof.
  intros He Hg Hm Hf. apply wp_bind. eapply wp_mono; [apply Hm|]. intros [a|e] s1 (HI & He1 & Hp).
  - eapply wp_mono; [by apply Hf|]. intros r s2 (HI2 & He2 & Hp2).
    split_and!; [done|by do 2 (etrans; [done|])|].
    destruct r as [b|[]]; try done; by do 2 (etrans; [done|]).
  - split_and!; [done|by etrans|]. destruct e; try done. by etrans.
Qed.

Lemma gated_ret {A} fid (a : A) s : I s → wp (st_ret a) (gated fid s) s.
Proof. intros HI. apply wp_ret. by split_and!. Qed.

Lemma gated_asks {A} fid (f : rt → A) s : I s → wp (asks f) (gated fid s) s.
Proof. intros HI. apply wp_asks. by split_and!. Qed.

Lemma gated_rethrow {A} fid (o : outcome string A) s : I s → wp (rethrow o) (gated fid s) s.
Proof. intros HI. destruct o; [by apply gated_ret|]. unfold wp. simpl. by split_and!. Qed.

Lemma unreliable_gate_frames fid s s' : unreliable → gate_frames fid s s'.
Proof. intros Hu. split; [by apply unreliable_starts|by apply unreliable_settled]. Qed.

Lemma gated_did {A} fid (m : M A) s (Q : A → rt → Prop) :
  wp m (did s Q) s → (∀ a s', Q a s' → gate_frames fid s s') → wp m (gated fid s) s.
Proof.
  intros Hm HQ. eapply wp_mono; [done|]. intros [a|e] s' (? & ? & Hq); (split_and!; [done..|]); [eauto|].
  destruct e; try done. by apply unreliable_gate_frames.
Qed.

Lemma gated_same {A} fid (m : M A) s :
  wp m (did s (λ _ s', same_frames s s')) s → wp m (gated fid s) s.
Proof. intros Hm. eapply gated_did; [done|]. intros a s'. apply same_gate_frames. Qed.

(** What a request throws or yields, in a state it left as it was. *)
Lemma gated_raise {A} fid m s : I s → wp (raise m : M A) (gated fid s) s.
Proof. intros HI. unfold wp. simpl. by split_and!. Qed.

Lemma gated_emit fid e s : I s → bus_effect e → wp (emit e) (gated fid s) s.
Proof. intros. by apply gated_same, emit_did. Qed.

Lemma gated_upsert fid b g s : I s → wp (upsertGateInstance b g) (gated fid s) s.
Proof.
  intros HI. unfold upsertGateInstance. apply wp_bind, wp_asks. set (r := setGateInstance _ _).
  eapply (gated_bind fid _ _ s s); [done..| |].
  - apply gated_same, wp_modify. destruct (carried_out r); split_and!; try done.
    + by apply (c_gates _ _ _ C).
    + by apply extends_same_frames.
  - intros _ s1 HI1. eapply gated_bind; [done..|by apply gated_same, tick_did|]. intros _ s2 HI2.
    destruct (request_error b _ r); [destruct b; [by apply gated_raise|]|]; by apply gated_ret.
Qed.

Lemma gated_load fid ctx id x s : I s → wp (loadGateInstance ctx id x) (gated fid s) s.
Proof.
  intros HI. unfold loadGateInstance. apply wp_bind, wp_asks.
  eapply gated_bind; [done..|by apply gated_same, tick_did|]. intros _ s1 HI1.
  destruct (request_error _ _ _); [by apply gated_raise|by apply gated_asks].
Qed.

Lemma gated_update fid ctx b s :
  parks ctx = exits → (b = true → parks ctx = true) → I s → Hd fid →
  wp (updateFrame ctx fid SWaiting b) (gated fid s) s.
Proof.
  intros Hk Hb HI Hh. unfold updateFrame. apply wp_bind, wp_asks.
  destruct (JsMap.get fid (registry s)); [|by apply gated_raise].
  eapply gated_did; [apply (patch_persist_did ctx fid b _ SWaiting); [done..| |done|done]|].
  - intros. by apply (c_patched _ _ _ C).
  - intros _ s' [Hs _]. by apply waiting_gate_frames.
Qed.

Lemma gated_race fid ctx id x v r t s : W → I s → wp (raceResponse ctx id x v r t) (gated fid s) s.
Proof.
  intros HW HI. unfold raceResponse. apply wp_bind, wp_asks. destruct (race _ _ _ _ _ _ _) as [[t' res]|].
  - eapply gated_bind; [done..| |].
    + unfold wait_until. apply wp_bind, wp_asks. eapply gated_did; [by apply pass_did|].
      intros _ s' [? _]. by apply same_gate_frames.
    + intros. by apply gated_ret.
  - unfold wp. simpl. by split_and!.
Qed.

Lemma gated_aborted fid ctx s : I s → wp (aborted ctx) (gated fid s) s.
Proof. apply gated_asks. Qed.
End logic.

(** Steps through the code of a gate. *)
Ltac gated_step C :=
  match goal with
  | |- wp (st_bind _ _) _ _ => eapply (gated_bind _ _); [reflexivity|reflexivity| |intros]
  | |- wp (if parks ?c then _ else _) _ _ => destruct (parks c) eqn:?
  | |- wp (match ?x with _ => _ end) _ _ => destruct x
  | |- wp (st_ret _) _ _ => by apply gated_ret
  | |- wp (asks _) _ _ => by apply gated_asks
  | |- wp (aborted _) _ _ => by apply gated_aborted
  | |- wp (rethrow _) _ _ => by apply gated_rethrow
  | |- wp (emit _) _ _ => by eapply (gated_emit _ _ _ _ C)
  | |- wp (upsertGateInstance _ _) _ _ => by eapply (gated_upsert _ _ _ _ C)
  | |- wp (loadGateInstance _ _ _) _ _ => by eapply (gated_load _ _ _ _ C)
  | |- wp (updateFrame _ _ _ _) _ _ => by eapply (gated_update _ _ _ _ C)
  | |- wp (raceResponse _ _ _ _ _ _) _ _ => eapply (gated_race _ _ _ _ C); [auto|done]
  end.

Section gate_facts.
Context `{run_kind} (W : Prop) (σ : signal) (I : rt → Prop) (Hd : frame_id → Prop).
Context (C : closed σ I Hd).

Lemma settleTimedOutGate_gated ctx id fid g v s : I s → wp (settleTimedOutGate ctx id fid g v) (gated W I fid s) s.
Proof. intros HI. unfold settleTimedOutGate, emitGateResolved. repeat gated_step C. Qed.

Lemma settleCancelledGate_gated b id fid g s : I s → wp (settleCancelledGate b id fid g) (gated W I fid s) s.
Proof. intros HI. unfold settleCancelledGate, emitGateResolved. repeat gated_step C. Qed.

Lemma settleGateOutcome_gated ctx id fid g v r s :
  I s → wp (settleGateOutcome ctx id fid g v r) (gated W I fid s) s.
Proof.
  intros HI. unfold settleGateOutcome, emitGateResolved. destruct r;
    [|by apply settleTimedOutGate_gated|by apply settleCancelledGate_gated].
  eapply gated_bind; [reflexivity..|by apply gated_aborted|]. intros [] s1 HI1;
    [by apply settleCancelledGate_gated|]. repeat gated_step C.
Qed.

Lemma executeGateNode_gated ctx id g c fid s :
  parks ctx = exits → (parks ctx = false → W) → I s → Hd fid →
  wp (executeGateNode ctx id g c fid) (gated W I fid s) s.
Proof.
  intros Hk HW HI Hh. unfold executeGateNode. eapply gated_bind; [reflexivity..|by apply gated_aborted|].
  intros ab s1 HI1. destruct ab; [by apply gated_ret|].
  assert (∀ s2, I s2 → wp (match compileGateResumeValidator id (g_resumeSchema g) with
      | ValidatorFailed e => st_ret (NFailed e)
      | ValidatorOk v => suspendGateInProcess ctx id g c fid (default (JObj []) (g_resumeSchema g)) v
      end) (gated W I fid s2) s2) as Hopen.
  { intros s2 HI2. destruct (compileGateResumeValidator _ _); [|by apply gated_ret].
    unfold suspendGateInProcess, emitGateSuspended. repeat (gated_step C || by apply settleGateOutcome_gated). }
  destruct (parks ctx) eqn:?; [|by apply Hopen].
  eapply gated_bind; [reflexivity..| |].
  - unfold resolvePersistedGate, emitGateResolved. repeat (gated_step C || by apply settleGateOutcome_gated).
  - intros [o|] s2 HI2; [by apply gated_ret|by apply Hopen].
Qed.

Lemma resolveExpired_gated b id fid g last rounds outs s :
  I s → wp (resolveExpiredEscalationGate b id fid g last rounds outs) (gated W I fid s) s.
Proof. intros HI. unfold resolveExpiredEscalationGate, emitGateResolved. repeat gated_step C. Qed.

Lemma openEscalationGate_gated ctx id esc c fid last rounds outs s :
  parks ctx = exits → (parks ctx = false → W) → I s → Hd fid →
  wp (openEscalationGate ctx id esc c fid last rounds outs) (gated W I fid s) s.
Proof.
  intros Hk HW HI Hh. unfold openEscalationGate, waitForInProcessResponse, settleInProcessResponse,
    emitGateSuspended, emitGateResolved.
  repeat (gated_step C || by apply resolveExpired_gated || by apply settleCancelledGate_gated).
Qed.

Lemma resolvePersistedEscalation_gated ctx id fid last rounds outs s :
  I s → wp (resolvePersistedEscalationGate ctx id fid last rounds outs) (gated W I fid s) s.
Proof.
  intros HI. unfold resolvePersistedEscalationGate, emitGateResolved.
  repeat (gated_step C || by apply resolveExpired_gated).
Qed.

(** A gate's computation as one of a node. *)
Lemma gated_loud (m : M node_outcome) fid s :
  wp m (gated W I fid s) s → wp m (loud W I fid s (node_post fid s)) s.
Proof.
  intros Hm. eapply wp_mono; [done|]. intros [o|[]] s' (HI & He & Hg); split_and!; try done;
    destruct Hg; [split; [done|by right]|done..].
Qed.
End gate_facts.
