(* ===== verification/NodeInduction.v ===== *)
(** * Runs keep invariants

    The induction over nodes announced in [NodeFacts]: each combinator of
    [NodeRuntime] is shown to meet its specification when its children do. *)
From S2P Require Import Prelude JsValue Json Workflow RuntimeContext GateNode NodeRuntime NodeFacts.

Section induction.
Context `{run_kind} (W : Prop) (σ : signal) (I : rt → Prop) (Hd : frame_id → Prop).
Context (MW : may_wait W) (C : closed σ I Hd).

(** The signal of a context aborts no later than the signal of the run, only some
    runs wait in process, and contexts have the strategy of the run. *)
Definition refines (ctx : run_ctx) : Prop :=
  (∀ t, aborted_at σ t = true → aborted_at (rsignal ctx) t = true) ∧
  (parks ctx = false → W) ∧ parks ctx = exits.

Lemma refines_exits ctx : refines ctx → parks ctx = exits.
Proof. by intros (_ & _ & ?). Qed.

Lemma refines_waits ctx : refines ctx → parks ctx = false → W.
Proof. by intros (_ & ? & _). Qed.
Hint Resolve refines_exits refines_waits : core.

Lemma refines_link ctx a : refines ctx → refines (withSignal ctx (linkSignals (rsignal ctx) a)).
Proof.
  intros (Hr & Hw & Hk). split_and!; [|done..]. intros t Ht. simpl. rewrite linkSignals_aborted, Hr by done. done.
Qed.

Lemma refines_not_aborted ctx t : refines ctx → aborted_at (rsignal ctx) t = false → aborted_at σ t = false.
Proof. intros [Hr _] Ha. destruct (aborted_at σ t) eqn:Hs; [|done]. apply Hr in Hs. congruence. Qed.

Definition leaf (n : node) : bool :=
  match type_of n with TStation | TDelegateAgent | TDelegateRole => true | _ => false end.

(** The frame of a leaf that is about to be executed: registered, and in storage
    if the run exits. *)
Definition ready (id : string) (fid : frame_id) (s : rt) : Prop :=
  registered_as id fid s ∧ (exits = true → row fid s).

(** The specification of a node's execution. *)
Definition runnable_ok (r : runnable) : Prop :=
  ∀ ctx c fid ppath s, refines ctx → I s → Hd fid →
    (leaf r.1 = true → ready (node_id r.1) fid s) →
    wp (r.2 ctx c fid ppath) (loud W I fid s (node_post fid s)) s.

(** *** Settling a frame *)
Lemma finish_closes fid t s s1 s2 :
  settled_except (eq fid) s s1 → set_to fid t s1 s2 → terminal t = true → closes s s2.
Proof.
  intros He Hs Ht x Hx. destruct (Hs _ _ Hx) as [[Hne Ho]|(_ & Ho & _)].
  - destruct (He _ Ho); [done|congruence].
  - unfold is_open in Ho. by rewrite Ht in Ho.
Qed.

Lemma finish_starts fid t s s1 s2 :
  started_except (eq fid) s s1 → set_to fid t s1 s2 → is_pending t = false → starts_all s s2.
Proof.
  intros He Hs Ht x Hx. destruct (Hs _ _ Hx) as [[Hne Ho]|(_ & Ho & _)]; [|congruence].
  destruct (He _ Ho); [done|congruence].
Qed.

Lemma starts_except fid s s' : starts_all s s' → started_except (eq fid) s s'.
Proof. intros Hs x Hx. left. by apply Hs. Qed.

Lemma closes_except X s s' : closes s s' → settled_except X s s'.
Proof. intros Hs x Hx. left. by apply Hs. Qed.

Lemma settled_except_trans X s s1 s2 :
  settled_except X s s1 → settled_except X s1 s2 → settled_except X s s2.
Proof. intros H1 H2 x Hx. destruct (H2 x Hx); [by apply H1|by right]. Qed.

Lemma started_except_trans X s s1 s2 :
  started_except X s s1 → started_except X s1 s2 → started_except X s s2.
Proof. intros H1 H2 x Hx. destruct (H2 x Hx); [by apply H1|by right]. Qed.

(** A lifecycle operation that settles the frame after a body. *)
Lemma settle_after {A} (m : M unit) (k : M A) fid t s s1 (Q : A → rt → Prop) :
  terminal t = true →
  extends s s1 → Hd fid → I s1 →
  settled_except (eq fid) s s1 → started_except (eq fid) s s1 →
  wp m (did I s1 (λ _ s', set_to fid t s1 s')) s1 →
  (∀ s2, I s2 → extends s s2 → closes s s2 → starts_all s s2 → wp k (quiet W I s Q) s2) →
  wp (let* _ := m in k) (quiet W I s Q) s1.
Proof.
  intros Ht He Hh HI Hse Hst Hm Hk. eapply wp_did_bind; [done..|]. intros [] s2 HI2 He2 Hs.
  apply Hk; [done|by etrans|by eapply finish_closes|].
  eapply finish_starts; [done..|by destruct t].
Qed.

Lemma aborted_wp {B} ctx (f : bool → M B) (Q : outcome halt B → rt → Prop) s :
  wp (f (aborted_at (rsignal ctx) (now s))) Q s → wp (st_bind (aborted ctx) f) Q s.
Proof. done. Qed.

Lemma asks_wp {A B} (g : rt → A) (f : A → M B) (Q : outcome halt B → rt → Prop) s :
  wp (f (g s)) Q s → wp (st_bind (asks g) f) Q s.
Proof. done. Qed.

Lemma ret_wp {A B} (a : A) (f : A → M B) (Q : outcome halt B → rt → Prop) s :
  wp (f a) Q s → wp (st_bind (st_ret a) f) Q s.
Proof. done. Qed.

Lemma quiet_ret {A} (a : A) s s1 (Q : A → rt → Prop) :
  I s1 → extends s s1 → Q a s1 → wp (st_ret a) (quiet W I s Q) s1.
Proof. intros. by apply wp_ret. Qed.

(** The end of a computation that did not pause. *)
Ltac ended := apply quiet_ret; [done..|]; split; [done|by right].

(** *** Bodies *)
Definition body_result_post (fid : frame_id) (s : rt) (r : node_outcome + string) (s' : rt) : Prop :=
  starts_all s s' ∧
  match r with
  | inl o => paused_outcome o = true ∨ settled_except (eq fid) s s'
  | inr _ => ∀ x, has_status is_open x s' → x ≠ fid ∧ has_status is_open x s
  end.

Lemma run_body_quiet ctx fid m s :
  parks ctx = exits → Hd fid → wp m (loud W I fid s (node_post fid s)) s →
  wp (run_body ctx fid m) (quiet W I s (body_result_post fid s)) s.
Proof.
  intros Hk Hh Hm. unfold wp in Hm. unfold wp.
  assert (run_body ctx fid m s = match m s with
    | (Ok o, s1) => (Ok (inl o), s1)
    | (Throw (Raised e), s1) => (let* _ := failFrame ctx fid e in st_ret (inr e)) s1
    | (Throw e, s1) => (Throw e, s1)
    end) as ->.
  { unfold run_body, try_catch, st_bind at 1. by destruct (m s) as [[o|[e| |]] s1]. }
  destruct (m s) as [[o|[e| |]] s1]; simpl in Hm; destruct Hm as (HI & He & Hp).
  - by split_and!.
  - destruct Hp as [Hst Hse].
    change (wp (let* _ := failFrame ctx fid e in st_ret (inr e)) (quiet W I s (body_result_post fid s)) s1).
    eapply wp_did_bind; [done|eapply failFrame_did; eauto|]. intros [] s2 HI2 He2 Hset.
    apply quiet_ret; [done|by etrans|]. split.
    + eapply finish_starts; [by apply starts_except|done..].
    + intros x Hx. destruct (Hset _ _ Hx) as [[Hne Ho]|(_ & Ho & _)]; [|done].
      split; [done|]. destruct (Hse _ Ho); [done|congruence].
  - by split_and!.
  - done.
Qed.

(** *** Sequences *)
Definition step_post (s : rt) (r : expr_ctx * option node_outcome) (s' : rt) : Prop :=
  match r.2 with
  | Some o => outcome_post s o s'
  | None => starts_all s s' ∧ closes s s'
  end.

Lemma child_allowed child parent ppath c s :
  mergeTerminalResumeFrame c child (findSequenceChildResumeFrame child parent s) = None →
  allowed (child_params child ppath parent) s.
Proof.
  unfold findSequenceChildResumeFrame. intros Hm r Hr (Hid & Hp & Hi & Hb) Hst. simpl in *.
  assert (status r ∈ if isStructuralResumeNode child then STRUCTURAL_RESUME_STATUSES
                     else DEFAULT_REUSABLE_FRAME_STATUSES) as Hin.
  { destruct Hst as [->|[-> _]]; destruct (isStructuralResumeNode child); compute; set_solver. }
  destruct (findReusableResumeFrame _ _ _) as [f|] eqn:Hf.
  - destruct (findReusable_spec _ _ _ _ Hf) as (Hfin & ? & ? & ? & ? & Hfs). simpl in *.
    exists f. split; [done|]. split; [done|].
    destruct (status f) eqn:Hs; try done; auto; destruct (isStructuralResumeNode child);
      by repeat (apply elem_of_cons in Hfs as [?|Hfs]; [done|]); apply elem_of_nil in Hfs.
  - by eapply findReusable_none in Hf.
Qed.

Lemma create_then_finish {A} ctx p (fin : frame_id → M unit) t (k : frame → M A) s (Q : A → rt → Prop) :
  I s → allowed p s → terminal t = true →
  (∀ fid s1, I s1 → Hd fid → wp (fin fid) (did I s1 (λ _ s', set_to fid t s1 s')) s1) →
  (∀ f s2, I s2 → extends s s2 → closes s s2 → starts_all s s2 → wp (k f) (quiet W I s Q) s2) →
  wp (let* f := createFrame ctx p in let* _ := fin (frameId f) in k f) (quiet W I s Q) s.
Proof.
  intros HI Ha Ht Hfin Hk. eapply wp_did_bind; [done|by eapply createFrame_did|].
  intros f s1 HI1 He1 (Hh & Hadds & Hnow & _ & _).
  eapply settle_after with (fid := frameId f) (t := t); [done..| | |by apply Hfin|auto].
  - intros x Hx. destruct (Hadds _ _ Hx); auto.
  - intros x Hx. destruct (Hadds _ _ Hx); auto.
Qed.

Lemma check_condition_quiet e kind skips child ctx c ppath parent s :
  refines ctx → I s → allowed (child_params child ppath parent) s →
  wp (check_condition e kind skips child ctx c ppath parent)
     (quiet W I s (λ r s', match r with
        | inl false => s' = s
        | inl true => starts_all s s' ∧ closes s s'
        | inr o => outcome_post s o s'
        end)) s.
Proof.
  intros Href HI Ha. unfold check_condition. destruct e as [e|]; [|by apply quiet_ret].
  unfold evaluateConditionExpression. destruct (evaluateNodeCondition e c) as [b|m].
  - apply ret_wp. destruct (skips b); [|by apply quiet_ret].
    eapply create_then_finish with (t := SSkipped); [done..|intros; eapply skipFrame_did; eauto|].
    intros. by apply quiet_ret.
  - eapply wp_quiet_bind with
      (Q := λ r s', match r : bool + node_outcome with inr o => outcome_post s o s' | inl _ => False end);
      [done|..].
    + eapply create_then_finish with (t := SFailed)
        (fin := λ fid, failFrame ctx fid ("'" +:+ kind +:+ "' condition evaluation failed: " +:+ m));
         [done..|intros; eapply failFrame_did; eauto|].
      intros. ended.
    + intros [b|o] s1 HI1 He1 Hp; [done|]. by apply quiet_ret.
Qed.

(** The frame a child runs in: the one it goes on in, or a new one. *)
Definition reused_or_new (r : runnable) (ppath : list frame_id) (parent : option frame_id)
    (existing : option frame) (s : rt) : Prop :=
  match existing with
  | None => allowed (child_params r.1 ppath parent) s
  | Some f => f ∈ resumeFrames s ∧ (status f = SRunning ∨ status f = SWaiting) ∧ leaf r.1 = false
  end.

Lemma child_frame_did r ctx ppath parent existing s :
  I s → reused_or_new r ppath parent existing s →
  wp (match existing with Some f => st_ret f | None => createFrame ctx (child_params r.1 ppath parent) end)
    (did I s (λ f s', Hd (frameId f) ∧ settled_except (eq (frameId f)) s s' ∧
       started_except (eq (frameId f)) s s' ∧
       match existing with
       | None => registered_as (node_id r.1) (frameId f) s'
       | Some f0 => f = f0 ∧ s' = s
       end)) s.
Proof.
  intros HI Hex. destruct existing as [f|]; simpl in Hex.
  - destruct Hex as (Hin & Hst & Hl). apply wp_ret. split_and!; try done.
    + by eapply (c_reused _ _ _ C).
    + by left.
    + by left.
  - eapply wp_mono; [by eapply createFrame_did|]. intros [f|e] s1; [|done].
    intros (? & ? & ? & Ha & ? & ? & ?). split_and!; try done; intros x Hx; destruct (Ha _ _ Hx); auto.
Qed.

Lemma child_start_did ctx (existing : option frame) fid s s1 :
  parks ctx = exits → I s1 → Hd fid → aborted_at σ (now s1) = false →
  settled_except (eq fid) s s1 → started_except (eq fid) s s1 → (existing ≠ None → s1 = s) →
  wp (match existing with None => startFrame ctx fid | Some _ => st_ret tt end)
    (did I s1 (λ _ s', settled_except (eq fid) s s' ∧ starts_all s s' ∧
       (existing = None → checkpointed fid s1 s'))) s1.
Proof.
  intros Hk HI1 Hh Hab Hse Hst Hex. destruct existing as [f'|].
  - rewrite Hex in * by done. apply wp_ret. by split_and!.
  - eapply wp_mono; [by eapply startFrame_did|].
    intros [[]|e] s2 (? & ? & Hset); [|done]. destruct Hset as [Hset ?]. split_and!; try done.
    + intros x Hx. destruct (Hset _ _ Hx) as [[_ Ho]|(-> & _ & _)]; [by apply Hse|by right].
    + by eapply finish_starts.
Qed.

(** What a child's result makes of its frame. *)
Lemma child_result_quiet child ctx c fid res s0 s s3 :
  refines ctx → I s3 → extends s s3 → Hd fid → settled_except (eq fid) s s0 → starts_all s s0 →
  body_result_post fid s0 res s3 →
  wp (match res with
      | inr e => st_ret (c, Some (NFailed e))
      | inl (NCompleted o) =>
          let* _ := completeFrame ctx fid o in
          st_ret (mergeFrameOutput c (node_id child) (MergeCompleted o), None)
      | inl NSkipped =>
          let* _ := skipFrame ctx fid in
          st_ret (mergeFrameOutput c (node_id child) MergeSkipped, None)
      | inl NCancelled =>
          let* _ := cancelFrame ctx fid in
          st_ret (c, Some NCancelled)
      | inl (NPaused g x) => st_ret (c, Some (NPaused g x))
      | inl (NFailed e) =>
          let* _ := failFrame ctx fid e in
          st_ret (c, Some (NFailed e))
      end) (quiet W I s (step_post s)) s3.
Proof.
  intros Href HI3 He Hh Hse Hst [Hst3 Hres]. assert (starts_all s s3) as Hs by by etrans.
  destruct res as [o|e].
  2:{ apply quiet_ret; [done..|]. split; [done|]. right. intros x Hx.
      destruct (Hres _ Hx) as [Hne Ho]. destruct (Hse _ Ho); [done|congruence]. }
  assert (paused_outcome o = true ∨ settled_except (eq fid) s s3) as Hset.
  { destruct Hres as [?|Hres]; [by left|right]. by eapply settled_except_trans. }
  pose proof (starts_except fid _ _ Hs) as Hse3.
  destruct o as [out| | |g x|e].
  4:{ apply quiet_ret; [done..|]. split; [done|by left]. }
  all: destruct Hset as [Hset|Hset]; [done|].
  - apply settle_after with (fid := fid) (t := SCompleted); [done..|eapply completeFrame_did; eauto|].
    intros. by apply quiet_ret.
  - apply settle_after with (fid := fid) (t := SSkipped); [done..|eapply skipFrame_did; eauto|].
    intros. by apply quiet_ret.
  - apply settle_after with (fid := fid) (t := SCancelled); [done..|eapply cancelFrame_did; eauto|].
    intros. ended.
  - apply settle_after with (fid := fid) (t := SFailed); [done..|eapply failFrame_did; eauto|].
    intros. ended.
Qed.

(** A frame that was started is ready. *)
Lemma started_ready id fid s s' :
  extends s s' → registered_as id fid s → checkpointed fid s s' → ready id fid s'.
Proof.
  intros He Hr Hc. pose proof (registered_as_extends _ _ _ _ He Hr) as Hr'. split; [done|].
  intros Hx. apply Hc; [done|]. destruct Hr' as (f & Hf & _). unfold frame_object. by rewrite Hf.
Qed.

Lemma executeSequenceChild_quiet r ctx c ppath parent existing s :
  runnable_ok r → refines ctx → I s → reused_or_new r ppath parent existing s →
  wp (executeSequenceChild r ctx c ppath parent existing) (quiet W I s (step_post s)) s.
Proof.
  intros Hok Href HI Hex. unfold executeSequenceChild. pose proof (child_frame_did _ ctx _ _ _ _ HI Hex) as Hframe.
  destruct r as [child exec]. eapply wp_did_bind; [done|exact Hframe|]. clear Hframe.
  intros f s1 HI1 He1 (Hh & Hse & Hst & Hreg).
  apply aborted_wp. destruct (aborted_at (rsignal ctx) (now s1)) eqn:Hab.
  { eapply settle_after with (fid := frameId f) (t := SCancelled); [done..|eapply cancelFrame_did; eauto|].
    intros. ended. }
  eapply wp_did_bind; [done|apply (child_start_did ctx existing (frameId f) s s1); try done|].
  { by apply refines_exits. }
  { by eapply refines_not_aborted. }
  { destruct existing; [by destruct Hreg|done]. }
  intros [] s2 HI2 He2 (Hse2 & Hst2 & Hck). eapply wp_quiet_bind; [by etrans| |].
  { apply run_body_quiet; [by apply refines_exits|done|]. apply (Hok ctx c (frameId f) (path f) s2); [done..|]. simpl. intros Hl.
    destruct existing; [destruct Hex as (_ & _ & Hl'); simpl in Hl'; congruence|].
    eapply started_ready; [done..|by apply Hck]. }
  intros res s3 HI3 He3 Hres. apply child_result_quiet with (s0 := s2); try done.
  by do 2 (etrans; [done|]).
Qed.

Lemma existing_frame_ok child parent ppath c s :
  mergeTerminalResumeFrame c child (findSequenceChildResumeFrame child parent s) = None →
  ∀ exec, reused_or_new (child, exec) ppath parent
    (existing_frame child (findSequenceChildResumeFrame child parent s)) s.
Proof.
  intros Hm exec. pose proof (child_allowed child parent ppath c s Hm) as Ha. clear Hm.
  destruct (existing_frame _ _) as [f|] eqn:He; [|done]. unfold existing_frame in He.
  destruct (findSequenceChildResumeFrame child parent s) as [f0|] eqn:Hf; [|done].
  apply findReusable_spec in Hf as [Hin _].
  destruct (_ || _) eqn:Hc; [|done]. injection He as ->.
  rewrite orb_true_iff, !andb_true_iff, orb_true_iff, !bool_decide_eq_true in Hc.
  split; [done|]. unfold leaf, isStructuralResumeNode in *. simpl.
  destruct Hc as [[Hs Ht]|[[Hs|Hs] Ht]]; rewrite ?Ht; (split; [by auto|]); destruct (type_of child); done.
Qed.

Lemma sequence_step_quiet r ctx c ppath parent s :
  runnable_ok r → refines ctx → I s →
  wp (sequence_step r ctx c ppath parent) (quiet W I s (step_post s)) s.
Proof.
  intros Hok Href HI. unfold sequence_step. apply aborted_wp.
  destruct (aborted_at _ _); [ended|].
  apply asks_wp. destruct (mergeTerminalResumeFrame c r.1 _) as [c'|] eqn:Hm; [by apply quiet_ret|].
  pose proof (child_allowed r.1 parent ppath c s Hm) as Ha.
  eapply wp_quiet_bind; [done|by apply check_condition_quiet|].
  intros [[]|o] s1 HI1 He1 Hp1; [by apply quiet_ret| |by apply quiet_ret].
  subst s1. eapply wp_quiet_bind; [done|by apply check_condition_quiet|].
  intros [[]|o] s1 HI2 He2 Hp2; [by apply quiet_ret| |by apply quiet_ret].
  subst s1. apply executeSequenceChild_quiet; [done..|]. destruct r. by eapply existing_frame_ok.
Qed.

Lemma executeSequence_quiet nodes ctx c parent ppath s :
  Forall runnable_ok nodes → refines ctx → I s →
  wp (executeSequence nodes ctx c parent ppath) (quiet W I s (outcome_post s)) s.
Proof.
  intros Hok Href. revert c s. induction Hok as [|r nodes Hr Hok IH]; intros c s HI; simpl.
  - ended.
  - eapply wp_quiet_bind; [done|by apply sequence_step_quiet|].
    intros [c' [o|]] s1 HI1 He1 Hp; [by apply quiet_ret|]. destruct Hp as [Hs Hc].
    eapply wp_mono; [by apply IH|]. intros r' s2 (HI2 & He2 & Hp). split_and!; [done|by etrans|].
    destruct r' as [o|e]; [|done]. destruct Hp as [Hs2 Hp]. split; [by etrans|].
    destruct Hp; [by left|right; by etrans].
Qed.

(** *** Bodies in frames of their own *)
Definition body_post (p : create_params) (s : rt) (b : body_run) (s' : rt) : Prop :=
  match b with
  | BodyReplayed f => s' = s ∧ f ∈ resumeFrames s ∧ at_coords p f
  | BodyAborted fid => Hd fid ∧ settled_except (eq fid) s s' ∧ started_except (eq fid) s s'
  | BodyRan fid (inl o) =>
      Hd fid ∧ starts_all s s' ∧ (paused_outcome o = true ∨ settled_except (eq fid) s s')
  | BodyRan fid (inr _) => starts_all s s' ∧ closes s s'
  end.

Definition body_params (p : create_params) : Prop := cp_iteration p ≠ None ∨ cp_branchKey p ≠ None.

Lemma body_allowed p s : body_params p → completed_frame (findBodyFrame p s) = None →
  match findBodyFrame p s with
  | None => allowed p s
  | Some f => f ∈ resumeFrames s ∧ (status f = SRunning ∨ status f = SWaiting)
  end.
Proof.
  unfold findBodyFrame. intros Hbp Hc. destruct (findReusableResumeFrame _ _ _) as [f|] eqn:Hf.
  - apply findReusable_spec in Hf as (Hin & _ & _ & _ & _ & Hs). simpl in *. split; [done|].
    unfold completed_frame in Hc. case_bool_decide; [done|]. left.
    by repeat (apply elem_of_cons in Hs as [?|Hs]; [done|]); apply elem_of_nil in Hs.
  - intros r Hr (Hid & Hp & Hi & Hb) Hst.
    destruct (decide (status r = SCompleted)) as [Hs|Hs].
    + eapply findReusable_none in Hf; [|done..]. simpl in Hf. rewrite Hs in Hf. set_solver.
    + exfalso. destruct Hst as [?|(Hsk & Hni & Hnb)]; [done|]. by destruct Hbp.
Qed.

Lemma run_in_frame_quiet p nodes ctx c s :
  body_params p → Forall runnable_ok nodes → refines ctx → I s →
  wp (run_in_frame p nodes ctx c) (quiet W I s (body_post p s)) s.
Proof.
  intros Hbp Hok Href HI. unfold run_in_frame. apply asks_wp.
  destruct (completed_frame (findBodyFrame p s)) as [f|] eqn:Hc.
  { apply quiet_ret; [done..|]. split; [done|]. unfold completed_frame in Hc.
    destruct (findBodyFrame p s) as [f0|] eqn:Hf; [|done]. case_bool_decide; [|done]. simplify_eq.
    apply findReusable_spec in Hf. simpl in Hf. unfold at_coords. naive_solver. }
  pose proof (body_allowed p s Hbp Hc) as Ha. clear Hc.
  set (resumed := findBodyFrame p s) in *.
  assert (wp (match resumed with Some f => st_ret f | None => createFrame ctx p end)
    (did I s (λ f s', Hd (frameId f) ∧ settled_except (eq (frameId f)) s s' ∧
       started_except (eq (frameId f)) s s' ∧ (resumed ≠ None → s' = s))) s) as Hframe.
  { destruct resumed as [f|].
    - destruct Ha as [Hin Hst]. apply wp_ret. split_and!; try done.
      + by eapply (c_reused _ _ _ C).
      + by left.
      + by left.
    - eapply wp_mono; [by eapply createFrame_did|]. intros [f|e] s1; [|done].
      intros (? & ? & ? & Hadds & ? & ? & ?). split_and!; try done; intros x Hx; destruct (Hadds _ _ Hx); auto. }
  eapply wp_did_bind; [done|exact Hframe|]. clear Hframe. intros f s1 HI1 He1 (Hh & Hse & Hst & Hsame).
  apply aborted_wp. destruct (aborted_at (rsignal ctx) (now s1)) eqn:Hab; [by apply quiet_ret|].
  eapply wp_did_bind; [done|apply (child_start_did ctx resumed (frameId f) s s1); try done|].
  { by apply refines_exits. }
  { by eapply refines_not_aborted. }
  intros [] s2 HI2 He2 (Hse2 & Hst2 & _). eapply wp_quiet_bind; [by etrans| |].
  { apply run_body_quiet; [by apply refines_exits|done|].
    eapply quiet_loud; [done|by apply executeSequence_quiet|].
    intros o s' He [Hs Hp]. split; [done|]. destruct Hp; [by left|right; by apply closes_except]. }
  intros r s3 HI3 He3 [Hst3 Hr]. apply quiet_ret; [done|do 2 (etrans; [done|]); done|].
  destruct r as [o|e]; simpl.
  - split_and!; [done|by etrans|]. destruct Hr as [?|Hr]; [by left|right]. by eapply settled_except_trans.
  - split; [by etrans|]. intros x Hx. destruct (Hr _ Hx) as [Hne Ho].
    destruct (Hse2 _ Ho); [done|congruence].
Qed.

(** *** Branches that run together *)
Definition interrupted {A} (bs : list (branch_run A)) (fid : frame_id) : Prop := Interrupted fid ∈ bs.

Definition some_paused {A} (paused : A → bool) (bs : list (branch_run A)) : Prop :=
  ∃ a, Settled a ∈ bs ∧ paused a = true.

Definition branch_post {A} (paused : A → bool) (s : rt) (b : branch_run A) (s' : rt) : Prop :=
  match b with
  | Settled a => starts_all s s' ∧ (paused a = true ∨ closes s s')
  | Interrupted fid => Hd fid ∧ settled_except (eq fid) s s' ∧ started_except (eq fid) s s'
  end.

Definition batch_post {A} (paused : A → bool) (s : rt) (bs : list (branch_run A)) (s' : rt) : Prop :=
  (∀ fid, interrupted bs fid → Hd fid) ∧ started_except (interrupted bs) s s' ∧
  (some_paused paused bs ∨ settled_except (interrupted bs) s s').

Lemma batch_post_nil {A} (paused : A → bool) s : batch_post paused s [] s.
Proof. split_and!; [by intros ? ?%elem_of_nil|by left|right; by left]. Qed.

Lemma batch_post_cons {A} (paused : A → bool) s b s1 bs s2 :
  branch_post paused s b s1 → batch_post paused s1 bs s2 → batch_post paused s (b :: bs) s2.
Proof.
  intros Hb (Hh & Hst & Hse). unfold interrupted in *.
  assert (∀ x, x ∈ bs → x ∈ b :: bs) as Hin by (intros; by right).
  destruct b as [a|fid]; simpl in Hb.
  - destruct Hb as [Hs Hp]. split_and!.
    + intros fid [?|?]%elem_of_cons; [done|auto].
    + intros x Hx. destruct (Hst _ Hx) as [?|?]; [left; by apply Hs|right; by apply Hin].
    + destruct Hp as [Hp|Hc]; [left; exists a; split; [by left|done]|].
      destruct Hse as [(a' & Ha & Hpa)|Hse]; [left; exists a'; auto|right].
      intros x Hx. destruct (Hse _ Hx) as [?|?]; [left; by apply Hc|right; by apply Hin].
  - destruct Hb as (Hf & Hs1 & Hs2). split_and!.
    + intros x [?|?]%elem_of_cons; [by simplify_eq|auto].
    + intros x Hx. destruct (Hst _ Hx) as [Hx1|?]; [|right; by apply Hin].
      destruct (Hs2 _ Hx1) as [?|<-]; [by left|right; by left].
    + destruct Hse as [(a' & Ha & Hpa)|Hse]; [left; exists a'; auto|right].
      intros x Hx. destruct (Hse _ Hx) as [Hx1|?]; [|right; by apply Hin].
      destruct (Hs1 _ Hx1) as [?|<-]; [by left|right; by left].
Qed.

Definition at_branch (p : frame_id) (i : nat) (s : rt) : Prop :=
  pos s = p ∨ ∃ k j, pos s = k :: j :: p ∧ (j < i)%nat.

Definition branch_ok {A} (paused : A → bool) (m : M (branch_run A)) : Prop :=
  ∀ s, I s → wp m (quiet W I s (branch_post paused s)) s.

(** A branch whose throw is taken for an outcome. *)
Lemma monitored_ok {A} (paused : A → bool) rescue (m : M (branch_run A)) :
  branch_ok paused m → branch_ok paused (monitored rescue Settled m).
Proof.
  intros Hm s HI. specialize (Hm s HI). unfold wp, monitored, try_catch in *.
  destruct (m s) as [[b|[e| |]] s1]; try done. simpl in Hm. destruct Hm as (HI1 & He1 & Hu).
  destruct (rescue e) as [a|]; [|by split_and!]. split_and!; [done..|].
  split; [by apply unreliable_starts|right]. intros x Hx. by destruct (unreliable_status _ _ _ Hu Hx).
Qed.

(** What the branches of a fork leave, whether or not they all returned. *)
Definition branches_post {A} (paused : A → bool) (s : rt) (rs : list (outcome halt (branch_run A) * Z))
    (s' : rt) : Prop :=
  (∀ e t, (Throw e, t) ∈ rs → halts W e) ∧
  (∀ fid t, (Ok (Interrupted fid), t) ∈ rs → Hd fid) ∧
  (∀ l, collect_all rs = Ok l → batch_post paused s l.*1 s').

Lemma run_all_quiet {A} (paused : A → bool) p t0 ms i s rs s' :
  Forall (branch_ok paused) ms → p ≠ [] → I s → at_branch p i s → run_all p i t0 ms s = (rs, s') →
  I s' ∧ grows s s' ∧ (∃ n, at_branch p n s') ∧ branches_post paused s rs s'.
Proof.
  intros Hms Hne. revert i s rs s'. induction Hms as [|m ms Hm Hms IH]; intros i s rs s' HI Hp Hrun; simpl in Hrun.
  - simplify_eq. unfold branches_post. split_and!; [done|done|by exists i|by intros ?? ?%elem_of_nil|by intros ?? ?%elem_of_nil|].
    intros l Hl. injection Hl as <-. apply batch_post_nil.
  - set (s0 := set_pos (O :: i :: p) (set_now t0 s)) in *.
    assert (I s0) as HI0.
    { apply (c_branch _ _ _ C (set_now t0 s)); [by apply (c_time _ _ _ C)|done..]. }
    pose proof (Hm s0 HI0) as Hw. unfold wp in Hw. destruct (m s0) as [r s1]. simpl in Hw.
    destruct (run_all p (S i) t0 ms s1) as [rs' s2] eqn:Hrest. simplify_eq.
    destruct Hw as (HI1 & [He1 Hg1] & Hr).
    assert (at_branch p (S i) s1) as Hp1.
    { right. unfold s0 in He1. simpl in He1. destruct He1 as [Hq|(k & k' & rest & Hq & Hq' & _)].
      - exists O, i. split; [congruence|lia].
      - simplify_eq. exists k', i. split; [done|lia]. }
    destruct (IH _ _ _ _ HI1 Hp1 Hrest) as (HI2 & Hg2 & Hp2 & Hthrow & Hint & Hcol).
    unfold branches_post. split_and!; [done|etrans; [by apply (same_frames_grows s s0)|by etrans]|done| | |].
    + intros e t [Heq|?]%elem_of_cons; [by simplify_eq|by eapply Hthrow].
    + intros fid t [Heq|?]%elem_of_cons; [|by eapply Hint]. simplify_eq. apply Hr.
    + intros l Hl. simpl in Hl. destruct r as [b|]; [|done].
      destruct (collect_all rs') as [l'|]; [|done]. injection Hl as <-. simpl.
      by apply batch_post_cons with s1; [|apply Hcol].
Qed.

Lemma fork_quiet {A} (paused : A → bool) ctx stop branches s :
  (∀ b ctx', b ∈ branches → refines ctx' → branch_ok paused (b ctx')) → refines ctx → I s →
  wp (fork ctx stop branches) (quiet W I s (branches_post paused s)) s.
Proof.
  intros Hb Href HI. unfold fork, wp.
  set (inner := (λ e, e + 1) <$> first_end _ _).
  set (ctx' := withSignal ctx _).
  destruct (run_all _ _ _ (map (λ b, b ctx') branches) s) as [rs s'] eqn:Hrun.
  assert (Forall (branch_ok paused) (map (λ b, b ctx') branches)) as Hok.
  { apply Forall_map, Forall_forall. intros b Hin. simpl. apply Hb; [done|]. by apply refines_link. }
  assert (pos s ≠ []) as Hne by by eapply (c_pos _ _ _ C).
  destruct (run_all_quiet paused _ _ _ _ _ _ _ Hok Hne HI (or_introl eq_refl) Hrun) as
    (HI1 & Hg & [n Hp] & Hbp).
  split_and!; [|split; [apply pos_advanced_next|]|done].
  - apply (c_join _ _ _ C (set_now _ s')); [by apply (c_time _ _ _ C)| |done].
    simpl. destruct Hp as [?|(k & j & ? & _)]; [by left|right; by exists k, j].
  - simpl. etrans; [done|]. by apply same_frames_grows.
Qed.

(** Settling the interrupted branches: what was returned stays returned. *)
Definition settle_post {A} (pause : signal) (rs : list (outcome halt (branch_run A) * Z)) (s : rt)
    (xs : list (outcome halt A * Z)) (s' : rt) : Prop :=
  (∀ e t, (Throw e, t) ∈ xs → halts W e) ∧
  (∀ l', collect_all xs = Ok l' → ∃ l, collect_all rs = Ok l ∧ ∀ a, Settled a ∈ l.*1 → a ∈ l'.*1) ∧
  (∀ x, has_status is_pending x s' → has_status is_pending x s ∧ Ok (Interrupted x) ∉ rs.*1) ∧
  (∀ x, has_status is_open x s' →
     has_status is_open x s ∧ (pause = None → Ok (Interrupted x) ∉ rs.*1)).

Definition settled_one {A} (pause : signal) (be : outcome halt (branch_run A) * Z) (s : rt)
    (x : outcome halt A * Z) (s' : rt) : Prop :=
  (∀ e, x.1 = Throw e → halts W e) ∧
  (∀ a, x.1 = Ok a → ∃ b, be.1 = Ok b ∧ ∀ a', b = Settled a' → a' = a) ∧
  (∀ y, has_status is_pending y s' → has_status is_pending y s ∧ be.1 ≠ Ok (Interrupted y)) ∧
  (∀ y, has_status is_open y s' →
     has_status is_open y s ∧ (pause = None → be.1 ≠ Ok (Interrupted y))).

Lemma attempt_cancel {A} (cancelled : A) rescue ctx fid s :
  parks ctx = exits → I s → Hd fid →
  ∃ v s', attempt (monitored rescue id (let* _ := cancelFrame ctx fid in st_ret cancelled)) s = (Ok v, s') ∧
    I s' ∧ extends s s' ∧ (∀ h, v = Throw h → halts W h) ∧ set_to fid SCancelled s s'.
Proof.
  intros Hk HI Hh. pose proof (cancelFrame_did σ I Hd C ctx fid s Hk HI Hh) as Hc. unfold wp in Hc.
  unfold attempt, monitored, try_catch, st_bind. destruct (cancelFrame ctx fid s) as [r s1]. simpl in Hc.
  destruct Hc as (HI1 & He & Hq).
  assert (unreliable → set_to fid SCancelled s s1) as Hvac.
  { intros Hu x X Hx. by destruct (unreliable_status _ _ _ Hu Hx). }
  destruct r as [[]|[m| |]]; [by exists (Ok cancelled), s1| |done..]. simpl in Hq.
  destruct (rescue m) as [a|]; [by exists (Ok a), s1; split_and!; auto|].
  exists (Throw (Raised m)), s1. split_and!; auto. by intros h [= <-].
Qed.

Lemma settle_branch_quiet {A} (cancelled : A) rescue ctx pause be s :
  parks ctx = exits →
  (∀ fid, be.1 = Ok (Interrupted fid) → Hd fid) → (∀ e, be.1 = Throw e → halts W e) → I s →
  wp (settle_branch cancelled rescue ctx pause be) (quiet W I s (settled_one pause be s)) s.
Proof.
  intros Hk Hh Ht HI. destruct be as [[[a|fid]|h] e]; simpl in *.
  { apply quiet_ret; [done..|]. split_and!; simpl; try done. intros a' [= ->].
    eexists; split; [done|]. by intros a'' [= ->]. }
  2:{ apply quiet_ret; [done..|]. split_and!; simpl; try done. intros e' [= ->]. by apply Ht. }
  apply asks_wp. destruct (shouldKeepFrameRunningOnCancel (rsignal ctx) pause fid e s) eqn:Hkeep.
  - apply quiet_ret; [done..|]. unfold shouldKeepFrameRunningOnCancel in Hkeep.
    rewrite !andb_true_iff, bool_decide_eq_true in Hkeep. destruct Hkeep as [[Hrun Hpa] _].
    split_and!; simpl; [done|by intros a [= <-]; eexists|..]; intros x Hx; (split; [done|]).
    + intros ?. simplify_eq. destruct Hx as (_ & f & Hf & Hst).
      unfold frame_object in Hrun. rewrite Hf in Hrun. simpl in Hrun. destruct (status f); done.
    + by intros ->.
  - apply asks_wp. apply wp_bind, wp_modify.
    destruct (attempt_cancel cancelled rescue ctx fid (set_now e s)) as (v & s1 & Hv & HI1 & [Hp1 Hg1] & Hvh & Hset);
      [done|by apply (c_time _ _ _ C)|by apply Hh|].
    apply wp_bind. unfold wp at 1. rewrite Hv. cbn [fst snd].
    apply asks_wp, wp_bind, wp_modify, quiet_ret; [by apply (c_time _ _ _ C)| |].
    + split; [done|]. etrans; [by apply (same_frames_grows s (set_now e s))|].
      etrans; [done|]. by apply same_frames_grows.
    + split_and!; simpl; [done|by intros a _; eexists|..];
        intros x Hx; (destruct (Hset x _ Hx) as [[Hne Ho]|(_ & Ho & _)]; [|done]);
        (split; [done|]); [|intros _]; congruence.
Qed.

Lemma settle_branches_quiet {A} (cancelled : A) rescue ctx pause rs s :
  parks ctx = exits →
  (∀ fid t, (Ok (Interrupted fid), t) ∈ rs → Hd fid) → (∀ e t, (Throw e, t) ∈ rs → halts W e) → I s →
  wp (settle_branches cancelled rescue ctx pause rs) (quiet W I s (settle_post pause rs s)) s.
Proof.
  intros Hk. revert s. induction rs as [|be rs IH]; intros s Hh Ht HI; simpl.
  { apply quiet_ret; [done..|]. split_and!; [by intros ?? ?%elem_of_nil|
      by intros l' [= <-]; exists []; split; [|intros a ?%elem_of_nil]|..]; intros x Hx; (split; [done|]);
      [|intros _]; by intros ?%elem_of_nil. }
  eapply wp_quiet_bind; [done|apply settle_branch_quiet; [done| | |done]|].
  { intros fid Hin. apply (Hh fid be.2). destruct be; simpl in Hin; subst; by left. }
  { intros e Hin. apply (Ht e be.2). destruct be; simpl in Hin; subst; by left. }
  intros x s1 HI1 He1 (Hx1 & Hv1 & Hp1 & Ho1). eapply wp_quiet_bind; [done|apply IH; [..|done]|].
  { intros fid t Hin. apply (Hh fid t). by right. }
  { intros e t Hin. apply (Ht e t). by right. }
  intros xs s2 HI2 He2 (Hx2 & Hv2 & Hp2 & Ho2). apply quiet_ret; [done|by etrans|].
  split_and!.
  - intros e t [<-|Hin]%elem_of_cons; [by apply (Hx1 e)|by eapply Hx2].
  - intros l' Hl'. simpl in Hl'. destruct x as [[a|] t]; [|done].
    destruct (collect_all xs) as [l2|]; [|done]. injection Hl' as <-.
    destruct (Hv1 a eq_refl) as (b & Hb & Hba). destruct (Hv2 l2 eq_refl) as (l & Hl & Hin).
    destruct be as [o t']. simpl in Hb. subst o. exists ((b, t') :: l). simpl. rewrite Hl. split; [done|].
    intros a' [Hab|Ha]%elem_of_cons; [rewrite (Hba a' (eq_sym Hab)); by left|right; by apply Hin].
  - intros y Hy. destruct (Hp2 _ Hy) as [Hy1 Hn2]. destruct (Hp1 _ Hy1) as [Hy0 Hn1].
    split; [done|]. by intros [?|?]%elem_of_cons; [|apply Hn2].
  - intros y Hy. destruct (Ho2 _ Hy) as [Hy1 Hn2]. destruct (Ho1 _ Hy1) as [Hy0 Hn1].
    split; [done|]. intros Hnone [?|?]%elem_of_cons; [by apply Hn1|by apply Hn2].
Qed.

(** Waiting for all. *)
Lemma collect_throw {A} (rs : list (outcome halt A * Z)) e :
  collect_all rs = Throw e → ∃ t, (Throw e, t) ∈ rs.
Proof.
  induction rs as [|[[a|e'] t] rs IH]; simpl; [done| |].
  - destruct (collect_all rs); [done|]. intros. destruct IH as [t' ?]; [done|]. exists t'. by right.
  - intros. simplify_eq. exists t. by left.
Qed.

Lemma first_rejection_elem {A} (rs : list (outcome halt A * Z)) m e :
  first_rejection rs = Some (m, e) → (Throw (Raised m), e) ∈ rs.
Proof.
  revert m e. induction rs as [|[[a|[m'| |]] t] rs IH]; intros m e; simpl; try done; try (right; by apply IH).
  destruct (first_rejection rs) as [[m2 e2]|]; [|intros [= <- <-]; by left].
  destruct (_ <? _); [right; by apply IH|intros [= <- <-]; by left].
Qed.

Lemma collect_elem {A} (rs : list (outcome halt A * Z)) l a t :
  collect_all rs = Ok l → (Ok a, t) ∈ rs → (a, t) ∈ l.
Proof.
  revert l. induction rs as [|[[b|h] u] rs IH]; intros l; simpl; [by intros _ ?%elem_of_nil| |done].
  destruct (collect_all rs) as [l'|]; [|done]. intros [= <-] [Heq|Hin]%elem_of_cons; [simplify_eq; by left|].
  right. by apply IH.
Qed.

Lemma promise_all_quiet {A} (xs : list (outcome halt A * Z)) s0 s (Q : list (A * Z) → rt → Prop) :
  I s → extends s0 s → (∀ e t, (Throw e, t) ∈ xs → halts W e) →
  (∀ l, collect_all xs = Ok l → Q l s) →
  wp (promise_all xs) (quiet W I s0 Q) s.
Proof.
  intros HI He Ht HQ. unfold wp, promise_all. destruct (first_rejection xs) as [[m e]|] eqn:Hf; simpl.
  - split_and!; [by apply (c_time _ _ _ C)| |apply (Ht _ e); by apply first_rejection_elem].
    etrans; [done|]. by apply extends_same_frames; [left|..].
  - split_and!; [done..|]. destruct (collect_all xs) as [l|h] eqn:Hc; [by apply HQ|].
    apply collect_throw in Hc as [t ?]. by eapply Ht.
Qed.

Lemma first_end_some {A} (test : A → bool) (rs : list (outcome halt A * Z)) e :
  first_end test rs = Some e → ∃ a t, (Ok a, t) ∈ rs ∧ test a = true.
Proof.
  revert e. induction rs as [|[[a|x] t] rs IH]; intros e; simpl; [done| |].
  - destruct (test a) eqn:Ha; [intros _; exists a, t; split; [by left|done]|].
    intros He. destruct (IH _ He) as (b & t' & ? & ?). exists b, t'. split; [by right|done].
  - intros He. destruct (IH _ He) as (b & t' & ? & ?). exists b, t'. split; [by right|done].
Qed.

Definition has_paused {A} (paused : A → bool) (rs : list (outcome halt (branch_run A) * Z)) : Prop :=
  ∃ a t, (Ok (Settled a), t) ∈ rs ∧ paused a = true.

Lemma pause_signal_some {A} (paused : A → bool) rs : pause_signal paused rs ≠ None → has_paused paused rs.
Proof.
  unfold pause_signal. destruct (first_end _ _) as [e|] eqn:He; [|done]. intros _.
  apply first_end_some in He as ([a|] & t & Hin & Hb); [|done]. by exists a, t.
Qed.

(** The branches of a fork, settled: nothing is left pending, and nothing open
    unless one paused. *)
Definition joined_post {A} (paused : A → bool) (s : rt) (xs : list A) (s' : rt) : Prop :=
  starts_all s s' ∧ (existsb paused xs = true ∨ closes s s').

Lemma joined {A} (paused : A → bool) pause rs xs l s s1 s2 :
  (pause ≠ None → has_paused paused rs) →
  branches_post paused s rs s1 → settle_post pause rs s1 xs s2 → collect_all xs = Ok l →
  joined_post paused s l.*1 s2.
Proof.
  intros Hpause (_ & _ & Hbp) (_ & Hv & Hp & Ho) Hl. destruct (Hv l Hl) as (lr & Hr & Hin).
  destruct (Hbp lr Hr) as (_ & Hst & Hse).
  assert (some_paused paused lr.*1 → existsb paused l.*1 = true) as Hsome.
  { intros (a & Ha & Hpa). apply existsb_exists. exists a. split; [|done]. by apply list_elem_of_In, Hin. }
  assert (∀ x, interrupted lr.*1 x → Ok (Interrupted x) ∈ rs.*1) as Hint.
  { intros x (be & Hx & Hbe)%list_elem_of_fmap. destruct be as [b t]. simpl in Hx. subst b.
    apply list_elem_of_fmap. exists (Ok (Interrupted x), t). split; [done|].
    clear -Hr Hbe. revert lr Hr Hbe. induction rs as [|[[c|h] u] rs IH]; intros lr; simpl; [| |done].
    - intros [= <-]. by intros ?%elem_of_nil.
    - destruct (collect_all rs) as [l'|]; [|done]. intros [= <-] [Heq|Hx]%elem_of_cons;
        [simplify_eq; by left|right; by eapply IH]. }
  split.
  - intros x Hx. destruct (Hp _ Hx) as [Hx1 Hn]. by destruct (Hst _ Hx1) as [|?%Hint].
  - destruct Hse as [?|Hse]; [left; auto|].
    destruct pause as [t|].
    + left. destruct Hpause as (a & u & Ha & Hpa); [done|]. apply Hsome. exists a. split; [|done].
      apply list_elem_of_fmap. exists (Settled a, u). split; [done|]. by eapply collect_elem.
    + right. intros x Hx. destruct (Ho _ Hx) as [Hx1 Hn]. destruct (Hse _ Hx1) as [|?%Hint]; [done|].
      by destruct Hn.
Qed.

(** *** Branches, items and rounds *)

(** After a body that did not pause, one lifecycle operation settles its frame. *)
Lemma settle_body {A} (m : M unit) (k : M A) fid t s s1 (Q : A → rt → Prop) o :
  terminal t = true → extends s s1 → I s1 → Hd fid →
  starts_all s s1 → (paused_outcome o = true ∨ settled_except (eq fid) s s1) →
  paused_outcome o = false →
  wp m (did I s1 (λ _ s', set_to fid t s1 s')) s1 →
  (∀ s2, I s2 → extends s s2 → closes s s2 → starts_all s s2 → wp k (quiet W I s Q) s2) →
  wp (let* _ := m in k) (quiet W I s Q) s1.
Proof.
  intros Ht He HI Hh Hst [Hp|Hse] Hnp Hm Hk; [congruence|].
  apply settle_after with (fid := fid) (t := t); [done..|by apply starts_except|done|done].
Qed.

(** ... with the lemma of that operation, where the computation then ends. *)
Ltac settles st op := eapply settle_body with (t := st); [done..|eapply op; eauto|]; intros; ended.

Lemma runBranch_ok id c parent ppath branch ctx :
  Forall runnable_ok branch.2 → refines ctx → branch_ok paused_outcome (runBranch id c parent ppath branch ctx).
Proof.
  intros Hok Href s HI. unfold runBranch. apply aborted_wp.
  destruct (aborted_at _ _); [ended|].
  eapply wp_quiet_bind; [done|by apply run_in_frame_quiet; [right|..]|].
  intros b s1 HI1 He1 Hb. destruct b as [f|fid|fid [o|e]]; simpl in Hb.
  - destruct Hb as [-> _]. ended.
  - by apply quiet_ret.
  - destruct Hb as (Hh & Hst & Hse). destruct o as [out| | |g x|e].
    + apply asks_wp. settles SCompleted completeFrame_did.
    + settles SCompleted completeFrame_did.
    + apply quiet_ret; [done..|]. destruct Hse as [?|Hse]; [done|].
      split_and!; [done..|by apply starts_except].
    + apply quiet_ret; [done..|]. split; [done|by left].
    + settles SFailed failFrame_did.
  - destruct Hb as [Hst Hc]. ended.
Qed.

Lemma runItem_ok id body c parent ppath ki ctx :
  Forall runnable_ok body → refines ctx → branch_ok item_paused (runItem id body c parent ppath ki ctx).
Proof.
  intros Hok Href s HI. unfold runItem. apply aborted_wp.
  destruct (aborted_at _ _); [ended|].
  eapply wp_quiet_bind; [done|by apply run_in_frame_quiet; [left|..]|].
  intros b s1 HI1 He1 Hb. destruct b as [f|fid|fid [o|e]]; simpl in Hb.
  - destruct Hb as [-> _]. ended.
  - by apply quiet_ret.
  - destruct Hb as (Hh & Hst & Hse). destruct o as [out| | |g x|e].
    + apply asks_wp. settles SCompleted completeFrame_did.
    + settles SCompleted completeFrame_did.
    + apply quiet_ret; [done..|]. destruct Hse as [?|Hse]; [done|].
      split_and!; [done..|by apply starts_except].
    + apply quiet_ret; [done..|]. split; [done|by left].
    + settles SFailed failFrame_did.
  - destruct Hb as [Hst Hc]. ended.
Qed.

Definition item_post (s : rt) (r : item_settled) (s' : rt) : Prop :=
  starts_all s s' ∧ (item_paused r = true ∨ closes s s').

Lemma runChainItem_quiet id body ctx c parent ppath k x prev s :
  Forall runnable_ok body → refines ctx → I s →
  wp (runChainItem id body ctx c parent ppath k x prev) (quiet W I s (item_post s)) s.
Proof.
  intros Hok Href HI. unfold runChainItem. apply aborted_wp.
  destruct (aborted_at _ _); [ended|].
  eapply wp_quiet_bind; [done|by apply run_in_frame_quiet; [left|..]|].
  intros b s1 HI1 He1 Hb. destruct b as [f|fid|fid [o|e]]; simpl in Hb.
  - destruct Hb as [-> _]. ended.
  - destruct Hb as (Hh & Hse & Hst).
    apply settle_after with (fid := fid) (t := SCancelled); [done..|eapply cancelFrame_did; eauto|].
    intros. ended.
  - destruct Hb as (Hh & Hst & Hse). destruct o as [out| | |g y|e].
    + apply asks_wp. settles SCompleted completeFrame_did.
    + settles SCompleted completeFrame_did.
    + settles SCancelled cancelFrame_did.
    + apply quiet_ret; [done..|]. split; [done|by left].
    + settles SFailed failFrame_did.
  - destruct Hb as [Hst Hc]. ended.
Qed.

Lemma run_chain_quiet id body ctx c parent ppath items settled prev s :
  Forall runnable_ok body → refines ctx → I s →
  wp (run_chain id body ctx c parent ppath items settled prev) (quiet W I s (outcome_post s)) s.
Proof.
  intros Hok Href. revert settled prev s. induction items as [|[k x] items IH]; intros settled prev s HI; simpl.
  - ended.
  - apply aborted_wp. destruct (aborted_at _ _); [ended|].
    eapply wp_quiet_bind; [done|by apply runChainItem_quiet|]. intros r s1 HI1 He1 [Hst Hp].
    destruct r as [v|e| |g y]; try (apply quiet_ret; [done..|]; by split).
    destruct Hp as [Hp|Hc]; [done|]. eapply wp_mono; [by apply IH|]. intros r s2 (HI2 & He2 & Hq).
    split_and!; [done|by etrans|]. destruct r as [o|]; [|done]. destruct Hq as [Hs2 Hq].
    split; [by etrans|]. destruct Hq; [by left|right; by etrans].
Qed.

Lemma join_quiet {A} (cancelled : A) (paused : A → bool) rescue ctx stop pause branches s :
  (∀ rs, pause rs ≠ None → has_paused paused rs) →
  (∀ b ctx', b ∈ branches → refines ctx' → branch_ok paused (b ctx')) → refines ctx → I s →
  wp (join_branches cancelled rescue ctx stop pause branches)
     (quiet W I s (λ xs s', joined_post paused s xs.*1 s')) s.
Proof.
  intros Hpause Hb Href HI. eapply wp_quiet_bind; [done|apply (fork_quiet paused); [|done..]|].
  { intros b ctx' (b0 & -> & Hin)%list_elem_of_fmap Href'. by apply monitored_ok, Hb. }
  intros rs s1 HI1 He1 Hbp. destruct (Hbp) as (Ht & Hh & _).
  eapply wp_quiet_bind; [done|by apply settle_branches_quiet; [apply refines_exits|..]|].
  intros xs s2 HI2 He2 Hs. apply promise_all_quiet; [done|by etrans|apply Hs|]. intros l Hl.
  by apply (joined paused (pause rs) rs xs l s s1 s2); [apply Hpause|..].
Qed.

(** *** Containers *)
Lemma existsb_find {A} (p : A → bool) l : existsb p l = true → ∃ x, List.find p l = Some x ∧ p x = true.
Proof.
  intros Hex. destruct (List.find p l) as [x|] eqn:Hf; [by exists x; apply find_some_elem in Hf as [_ ?]|].
  apply existsb_exists in Hex as (x & Hin & Hx). pose proof (List.find_none _ _ Hf x Hin). congruence.
Qed.

Lemma monitor_paused os st :
  (firstPaused st ≠ None ∨ existsb (λ r : node_outcome * Z, paused_outcome r.1) os = true) →
  firstPaused (foldl (λ st (r : node_outcome * Z), monitor st r.1) st os) ≠ None.
Proof.
  revert st. induction os as [|[o t] os IH]; intros st; simpl; [by intros [?|?]|].
  intros Hp. apply IH. destruct o; simpl in *; try (by destruct (firstError st), (firstPaused st); auto).
  left. destruct (firstError st), (firstPaused st) eqn:Hfp; simpl; congruence.
Qed.

Lemma runFailFast_paused (results : list (node_outcome * Z)) :
  existsb paused_outcome results.*1 = true → ∃ g x, runFailFast results = FFPaused g x.
Proof.
  intros Hex. unfold runFailFast.
  assert (existsb (λ r : node_outcome * Z, paused_outcome r.1) (js_sort end_le results) = true) as Hs.
  { apply existsb_exists in Hex as (o & Hin & Ho). apply in_map_iff in Hin as ([o' t] & <- & Hin).
    apply existsb_exists. exists (o', t). split; [|done]. apply list_elem_of_In.
    rewrite js_sort_perm. by apply list_elem_of_In. }
  pose proof (monitor_paused _ {| firstError := None; firstPaused := None |} (or_intror Hs)) as Hn.
  destruct (firstPaused _) as [[g x]|]; [|done]. by exists g, x.
Qed.

Lemma executeParallelNode_quiet id mode branches ctx c parent ppath s :
  Forall (λ b : string * list runnable, Forall runnable_ok b.2) branches → refines ctx → I s →
  wp (executeParallelNode id mode branches ctx c parent ppath) (quiet W I s (outcome_post s)) s.
Proof.
  intros Hok Href HI. unfold executeParallelNode. set (m := default AllSettled mode). apply aborted_wp.
  destruct (aborted_at _ _); [ended|].
  destruct branches as [|b0 bs] eqn:Hbs; [ended|].
  rewrite <- Hbs in *. clear Hbs b0 bs.
  eapply wp_quiet_bind; [done|apply (join_quiet NCancelled paused_outcome); [| |done..]|].
  - intros rs Hp. apply pause_signal_some. unfold branch_pause_signal in Hp.
    destruct m; [destruct (parks ctx)|]; done.
  - intros b ctx' Hin Href'. apply list_elem_of_fmap in Hin as (br & -> & Hin).
    apply runBranch_ok; [|done]. by eapply Forall_forall in Hok.
  - intros results s1 HI1 He1 [Hst Hp]. destruct m.
    + destruct (List.find paused_outcome results.*1) as [o|] eqn:Hf.
      * apply quiet_ret; [done..|]. apply find_some_elem in Hf as [_ Ho]. split; [done|by left].
      * apply quiet_ret; [done..|]. split; [done|]. right.
        destruct Hp as [Hex|Hc]; [|done]. apply existsb_find in Hex as (x & Hx & _). congruence.
    + destruct Hp as [Hex|Hc].
      * destruct (runFailFast_paused _ Hex) as (g & x & ->). apply quiet_ret; [done..|]. split; [done|by left].
      * destruct (runFailFast results); apply quiet_ret; try done; split; try done; by right.
Qed.

Lemma run_batch_quiet id body ctx c parent ppath items s :
  Forall runnable_ok body → refines ctx → I s →
  wp (run_batch id body ctx c parent ppath items) (quiet W I s (joined_post item_paused s)) s.
Proof.
  intros Hok Href HI. unfold run_batch.
  eapply wp_quiet_bind; [done|apply (join_quiet ICancelled item_paused); [| |done..]|].
  - intros rs Hp. apply pause_signal_some. by destruct (parks ctx).
  - intros b ctx' Hin Href'. apply list_elem_of_fmap in Hin as (ki & -> & Hin). by apply runItem_ok.
  - intros xs s1 HI1 He1 Hj. by apply quiet_ret.
Qed.

Lemma run_batches_quiet fuel id body ctx c parent ppath n rest s :
  (0 < n)%nat → (List.length rest ≤ fuel)%nat → Forall runnable_ok body → refines ctx → I s →
  wp (run_batches fuel id body ctx c parent ppath n rest) (quiet W I s (joined_post item_paused s)) s.
Proof.
  intros Hn Hlen Hok Href. revert rest Hlen s.
  induction fuel as [|fuel IH]; intros rest Hlen s HI; destruct rest as [|x rest]; simpl;
    [apply quiet_ret; [done..|]; split; [done|by right]|simpl in Hlen; lia|
     apply quiet_ret; [done..|]; split; [done|by right]|].
  apply aborted_wp. destruct (aborted_at _ _); [ended|].
  eapply wp_quiet_bind; [done|by apply run_batch_quiet|]. intros xs s1 HI1 He1 [Hst Hp].
  destruct (existsb item_paused xs) eqn:Hex.
  { apply quiet_ret; [done..|]. split; [done|left]. by rewrite existsb_app, Hex. }
  destruct Hp as [?|Hc]; [congruence|].
  eapply wp_quiet_bind; [done|apply IH; [|done]|].
  { rewrite length_drop. simpl in *. lia. }
  intros ys s2 HI2 He2 [Hst2 Hp2]. apply quiet_ret; [done|by etrans|]. split; [by etrans|].
  destruct Hp2 as [Hp2|?]; [left; by rewrite existsb_app, Hp2, orb_true_r|right; by etrans].
Qed.

Lemma executeIterateNode_quiet id collection body concurrency ctx c parent ppath s :
  Forall runnable_ok body → refines ctx → I s →
  wp (executeIterateNode id collection body concurrency ctx c parent ppath) (quiet W I s (outcome_post s)) s.
Proof.
  intros Hok Href HI. unfold executeIterateNode. apply aborted_wp.
  destruct (aborted_at _ _); [ended|].
  destruct (evaluateCollection _ _ _ _) as [[|x items]|o] eqn:Hc.
  - apply quiet_ret; [done..|]; split; [done|by right].
  - eapply wp_quiet_bind; [done| |].
    + unfold runItemsWithConcurrency. destruct (_ =? 0) eqn:Hz; [by apply run_batch_quiet|].
      apply run_batches_quiet; [|by unfold indexed; rewrite length_imap|done..].
      destruct concurrency as [n|]; [|done]. destruct (0 <? n) eqn:Hpos; [|done].
      apply Z.ltb_lt in Hpos. lia.
    + intros settled s1 HI1 He1 [Hst Hp]. apply aborted_wp.
      destruct (_ && forallb item_cancelled settled) eqn:Hall.
      * apply quiet_ret; [done..|]. split; [done|right]. destruct Hp as [Hex|?]; [|done].
        apply existsb_exists in Hex as (i & Hin & Hi). apply andb_true_iff in Hall as [_ Hall].
        rewrite forallb_forall in Hall. specialize (Hall i Hin). by destruct i.
      * destruct Hp as [Hex|Hcl].
        -- apply existsb_find in Hex as (i & -> & Hi). destruct i; try done.
           apply quiet_ret; [done..|]. split; [done|by left].
        -- destruct (List.find item_paused settled) as [[]|]; apply quiet_ret; try done; split; auto.
  - apply quiet_ret; [done..|]; split; [done|by right].
Qed.

Lemma executeIterateChainNode_quiet id collection body ctx c parent ppath s :
  Forall runnable_ok body → refines ctx → I s →
  wp (executeIterateChainNode id collection body ctx c parent ppath) (quiet W I s (outcome_post s)) s.
Proof.
  intros Hok Href HI. unfold executeIterateChainNode. apply aborted_wp.
  destruct (aborted_at _ _); [ended|].
  destruct (evaluateCollection _ _ _ _) as [[|x items]|o];
    try (apply quiet_ret; [done..|]; split; [done|by right]). by apply run_chain_quiet.
Qed.

(** *** Loops *)
Definition round_post (round : Z) (s : rt) (r : round_result) (s' : rt) : Prop :=
  match r with
  | RoundTerminal o => outcome_post s o s'
  | RoundDone _ true _ => s' = s ∧ ∃ f, f ∈ resumeFrames s ∧ iteration f = Some round
  | RoundDone _ false _ => starts_all s s' ∧ closes s s'
  end.

Lemma executeRoundBody_quiet id body round ctx c parent ppath s :
  Forall runnable_ok body → refines ctx → I s →
  wp (executeRoundBody id body round ctx c parent ppath) (quiet W I s (round_post round s)) s.
Proof.
  intros Hok Href HI. unfold executeRoundBody.
  eapply wp_quiet_bind; [done|by apply run_in_frame_quiet; [left|..]|].
  intros b s1 HI1 He1 Hb. destruct b as [f|fid|fid [o|e]]; simpl in Hb.
  - destruct Hb as (-> & Hin & _ & _ & Hit & _). apply asks_wp, quiet_ret; [done..|]. split; [done|].
    by exists f.
  - destruct Hb as (Hh & Hse & Hst).
    apply settle_after with (fid := fid) (t := SCancelled); [done..|eapply cancelFrame_did; eauto|].
    intros. ended.
  - destruct Hb as (Hh & Hst & Hse). destruct o as [out| | |g y|e].
    + apply asks_wp. eapply settle_body with (t := SCompleted); [done..|eapply completeFrame_did; eauto|].
      intros. by apply asks_wp, quiet_ret.
    + apply asks_wp. eapply settle_body with (t := SCompleted); [done..|eapply completeFrame_did; eauto|].
      intros. by apply asks_wp, quiet_ret.
    + settles SCancelled cancelFrame_did.
    + apply quiet_ret; [done..|]. split; [done|by left].
    + settles SFailed failFrame_did.
  - destruct Hb as [Hst Hc]. ended.
Qed.

(** Frames of an earlier run that belong to a round not before the given one. *)
Definition at_or_after (round : Z) (o : option Z) : bool :=
  match o with Some k => round <=? k | None => false end.
Definition from_round (round : Z) (s : rt) : nat :=
  List.length (List.filter (λ i, at_or_after round i.1.2) (map ident (resumeFrames s))).

Lemma from_round_extends round s s' : extends s s' → from_round round s' = from_round round s.
Proof. intros [_ [_ Hr]]. unfold from_round. by rewrite Hr. Qed.

Lemma filter_length_le {A} (p q : A → bool) l :
  (∀ x, p x = true → q x = true) → (List.length (List.filter p l) ≤ List.length (List.filter q l))%nat.
Proof.
  intros Hpq. induction l as [|x l IH]; simpl; [done|].
  destruct (p x) eqn:Hp; [rewrite (Hpq _ Hp); simpl; lia|]. destruct (q x); simpl; lia.
Qed.

Lemma filter_length_lt {A} (p q : A → bool) l x :
  (∀ x, p x = true → q x = true) → In x l → p x = false → q x = true →
  (List.length (List.filter p l) < List.length (List.filter q l))%nat.
Proof.
  intros Hpq Hin Hp Hq. induction l as [|y l IH]; simpl in *; [done|].
  destruct Hin as [->|Hin].
  - rewrite Hp, Hq. simpl. pose proof (filter_length_le p q l Hpq). lia.
  - specialize (IH Hin). destruct (p y) eqn:Hpy; [rewrite (Hpq _ Hpy); simpl; lia|].
    destruct (q y); simpl; lia.
Qed.

Lemma from_round_next round s : (from_round (round + 1) s ≤ from_round round s)%nat.
Proof.
  apply filter_length_le. intros i. unfold at_or_after. destruct i.1.2; [|done].
  rewrite !Z.leb_le. lia.
Qed.

Lemma from_round_replayed round s f :
  f ∈ resumeFrames s → iteration f = Some round → (from_round (round + 1) s < from_round round s)%nat.
Proof.
  intros Hin Hit. apply filter_length_lt with (x := ident f).
  - intros i. unfold at_or_after. destruct i.1.2; [|done]. rewrite !Z.leb_le. lia.
  - apply in_map. by apply list_elem_of_In.
  - simpl. rewrite Hit. simpl. apply Z.leb_gt. lia.
  - simpl. rewrite Hit. simpl. apply Z.leb_le. lia.
Qed.

(** What bounds the rounds still to come. *)
Definition rounds_left (maxRounds round : Z) (s : rt) : nat :=
  (Z.to_nat (maxRounds - round) + from_round round s)%nat.

Lemma quiet_loud_bind {A B} fid (m : M A) (f : A → M B) s s0 Q (Q' : B → rt → Prop) :
  extends s0 s → wp m (quiet W I s Q) s →
  (∀ a s1, I s1 → extends s s1 → Q a s1 → wp (f a) (loud W I fid s0 Q') s1) →
  wp (st_bind m f) (loud W I fid s0 Q') s.
Proof.
  intros He Hm Hf. apply wp_bind. eapply wp_mono; [apply Hm|]. intros [a|e] s1 (HI & He1 & HQ); [auto|].
  split_and!; [done|by etrans|]. destruct e; try done. split;
    [by apply unreliable_starts|by apply unreliable_settled].
Qed.

Lemma loud_ret {A} (a : A) fid s s1 (Q : A → rt → Prop) :
  I s1 → extends s s1 → Q a s1 → wp (st_ret a) (loud W I fid s Q) s1.
Proof. intros. by apply wp_ret. Qed.

Lemma outcome_node_post fid s o s' : outcome_post s o s' → node_post fid s o s'.
Proof. intros [? Hp]. split; [done|]. destruct Hp; [by left|right; by apply closes_except]. Qed.

(** Going on from a state where everything is settled. *)
Lemma loud_after fid (m : M node_outcome) s s1 :
  extends s s1 → starts_all s s1 → settled_except (eq fid) s s1 →
  wp m (loud W I fid s1 (node_post fid s1)) s1 → wp m (loud W I fid s (node_post fid s)) s1.
Proof.
  intros He Hs Hc Hm. eapply wp_mono; [done|]. intros r s2 (HI & He2 & Hr). split_and!; [done|by etrans|].
  assert (settled_except (eq fid) s1 s2 → settled_except (eq fid) s s2) as Hset.
  { intros Hse. by eapply settled_except_trans. }
  destruct r as [o|[]]; try done; destruct Hr as [Hs2 Hp].
  - split; [by etrans|]. destruct Hp; [by left|right; auto].
  - split; [by etrans|auto].
Qed.

Lemma evaluateGate_wp id maxRounds gate round c h s fid :
  I s →
  wp (evaluateGate id maxRounds gate round c h)
     (loud W I fid s (λ v s', s' = s ∧ match v with inl LGLoop => round + 1 < maxRounds | _ => True end)) s.
Proof.
  intros HI. unfold evaluateGate.
  destruct (match lg_input gate with None => _ | Some e => _ end) as [input|m]; [|by apply loud_ret].
  destruct (h _ _ _) as [v|m].
  - apply ret_wp, loud_ret; [done..|]. split; [done|]. destruct v; try done.
    destruct (maxRounds <=? round + 1) eqn:Hle; [done|]. by apply Z.leb_gt in Hle.
  - unfold wp. simpl. split_and!; [done..|by left].
Qed.

Lemma gated_option_loud {A} fid (m : M (option node_outcome)) (f : option node_outcome → M A) s Q :
  wp m (gated W I fid s) s →
  (∀ a s1, I s1 → extends s s1 → gate_frames fid s s1 → wp (f a) (loud W I fid s Q) s1) →
  wp (st_bind m f) (loud W I fid s Q) s.
Proof.
  intros Hm Hf. apply wp_bind. eapply wp_mono; [done|]. intros [a|e] s1 (HI & He & Hg); [auto|].
  split_and!; [done..|]. destruct e; done.
Qed.

Lemma run_rounds_loud fuel id maxRounds body gate h ctx c parent ppath round outs s :
  (rounds_left maxRounds round s < fuel)%nat →
  Forall runnable_ok body → refines ctx → Hd parent → I s →
  wp (run_rounds fuel id maxRounds body gate h ctx c parent ppath round outs)
     (loud W I parent s (node_post parent s)) s.
Proof.
  intros Hfuel Hok Href Hh. revert round outs s Hfuel.
  induction fuel as [|fuel IH]; intros round outs s Hfuel HI; [lia|]. cbn [run_rounds].
  apply aborted_wp. destruct (aborted_at _ _); [apply loud_ret; [done..|]; split; [done|right; by left]|].
  eapply quiet_loud_bind; [done|by apply executeRoundBody_quiet|].
  intros r s1 HI1 He1 Hr. destruct r as [o|out [] gctx]; simpl in Hr.
  - apply loud_ret; [done..|by apply outcome_node_post].
  - destruct Hr as [-> (f & Hin & Hit)].
    assert (∀ s2, I s2 → extends s s2 → gate_frames parent s s2 →
      wp (run_rounds fuel id maxRounds body gate h ctx c parent ppath (round + 1) (outs ++ [out]))
        (loud W I parent s (node_post parent s)) s2) as Hcont.
    { intros s2 HI2 He2 [Hg1 Hg2]. apply loud_after; [done..|]. apply IH; [|done].
      unfold rounds_left in *. rewrite (from_round_extends _ _ _ He2).
      pose proof (from_round_replayed round s f Hin Hit). lia. }
    apply asks_wp. destruct (hasReusableRoundFrame id (round + 1) parent s); [by apply Hcont|].
    destruct (lg_escalation gate); [|by apply Hcont]. destruct (parks ctx); [|by apply Hcont].
    apply gated_option_loud; [by eapply (resolvePersistedEscalation_gated _ _ _ _ C)|].
    intros [o|] s2 HI2 He2 Hg; [|by apply Hcont]. apply loud_ret; [done..|].
    destruct Hg. split; [done|by right].
  - destruct Hr as [Hst Hc]. apply wp_bind. eapply wp_mono; [by apply evaluateGate_wp with (fid := parent)|].
    intros v s2 (HI2 & He2 & Hv). destruct v as [v|e].
    + destruct Hv as [-> Hv]. destruct v as [[| |reason]|o].
      * apply loud_ret; [done..|]. split; [done|right; by apply closes_except].
      * apply loud_after; [done..|by apply closes_except|]. apply IH; [|done].
        unfold rounds_left in *. rewrite (from_round_extends _ _ _ He1).
        pose proof (from_round_next round s). lia.
      * apply loud_after; [done..|by apply closes_except|]. apply gated_loud. eapply (openEscalationGate_gated _ _ _ _ C); [by apply refines_exits|by apply refines_waits|done..].
      * apply loud_ret; [done..|]. split; [done|right; by apply closes_except].
    + split_and!; [done|by etrans|]. destruct e; [|done|done]. destruct Hv as [Hv1 Hv2].
      split; [by etrans|]. eapply settled_except_trans; [by apply closes_except|done].
Qed.

Lemma executeLoopNode_loud id maxRounds body gate ctx c parent ppath s :
  Forall runnable_ok body → refines ctx → Hd parent → I s →
  wp (executeLoopNode id maxRounds body gate ctx c parent ppath) (loud W I parent s (node_post parent s)) s.
Proof.
  intros Hok Href Hh HI. unfold executeLoopNode. apply aborted_wp.
  destruct (aborted_at _ _); [apply loud_ret; [done..|]; split; [done|right; by left]|].
  destruct (runtimeLoopGates (lg_handler gate)) as [h|];
    [|apply loud_ret; [done..|]; split; [done|right; by left]].
  apply asks_wp. apply run_rounds_loud; [|done..]. unfold rounds_left. rewrite Z.sub_0_r.
  pose proof (filter_length_le (λ i, at_or_after 0 i.1.2) (λ _, true) (map ident (resumeFrames s)) ltac:(done)) as Hle.
  unfold from_round. rewrite List.filter_true, length_map in Hle. lia.
Qed.

(** *** Leaves and the dispatcher *)
Lemma await_call_quiet {A} (r : call_result A) s :
  (cr_duration r = None → W) → I s → wp (await_call r) (quiet W I s (λ _ s', same_frames s s')) s.
Proof.
  intros HW HI. unfold await_call. destruct (cr_duration r) as [d|];
    [|by split_and!; simpl; auto].
  eapply wp_quiet_bind; [done| |].
  - eapply did_quiet; [done|by eapply (pass_did _ _ _ C)|]. intros a s' He [Hs _]. exact Hs.
  - intros [] s1 HI1 He1 Hs. by apply quiet_ret.
Qed.

Lemma executeDelegation_loud id ty ctx c fid s :
  I s → ready id fid s → aborted_at (rsignal ctx) (now s) = false → refines ctx →
  wp (executeDelegation id ty ctx c fid) (loud W I fid s (node_post fid s)) s.
Proof.
  intros HI Hreg Hab Href. unfold executeDelegation. apply wp_bind, wp_modify, asks_wp.
  assert (I (add_effect (Invoked id fid (now s) c) s)) as HI1.
  { destruct Hreg. apply (c_invoked _ _ _ C); [done..|]. by eapply refines_not_aborted. }
  eapply quiet_loud_bind; [by apply extends_same_frames|apply await_call_quiet; [apply (w_delegation _ MW)|done]|].
  intros r s1 HI2 He1 Hs. apply same_frames_settled in Hs as [Hs Hc].
  assert (extends s s1) as He by (etrans; [|done]; by apply extends_same_frames).
  destruct r as [l|m].
  - apply loud_ret; [done..|]. split; [exact Hs|]. right. intros x Hx. left. by apply Hc.
  - unfold wp. simpl. split_and!; [done..|]. intros x Hx. left. by apply Hc.
Qed.

Lemma executeStationNode_loud id role ctx c fid s :
  I s → ready id fid s → refines ctx →
  wp (executeStationNode id role ctx c fid) (loud W I fid s (node_post fid s)) s.
Proof.
  intros HI Hreg Href. unfold executeStationNode. apply aborted_wp.
  destruct (aborted_at _ _) eqn:Hab; [apply loud_ret; [done..|]; split; [done|right; by left]|].
  destruct (station_handlers id) as [h|] eqn:Hsh.
  - apply wp_bind, wp_modify, asks_wp.
    assert (I (add_effect (Invoked id fid (now s) c) s)) as HI1.
    { destruct Hreg. apply (c_invoked _ _ _ C); [done..|]. by eapply refines_not_aborted. }
    eapply quiet_loud_bind; [by apply extends_same_frames|apply await_call_quiet; [by apply (w_station _ MW id)|done]|].
    intros r s1 HI2 He1 Hs. apply same_frames_settled in Hs as [Hs Hc].
    apply loud_ret; [done|etrans; [|done]; by apply extends_same_frames|].
    split; [exact Hs|]. right. intros x Hx. left. by apply Hc.
  - destruct role; [by apply executeDelegation_loud|].
    apply loud_ret; [done..|]; split; [done|right; by left].
Qed.

(** Every node meets its specification. *)
Theorem executeNode_ok n : runnable_ok (n, executeNode n).
Proof.
  assert (∀ ns, Forall (λ m, runnable_ok (m, executeNode m)) ns → Forall runnable_ok (runnables ns)) as Hall.
  { intros ns Hns. by apply Forall_map. }
  induction n using node_ind'; intros ctx cx fid ppath s0 Href HI Hh Hreg; simpl;
    apply aborted_wp; (destruct (aborted_at (rsignal ctx) (now s0)) eqn:Hab;
      [apply loud_ret; [done..|]; split; [done|right; by left]|]).
  - apply executeStationNode_loud; [done|by apply Hreg|done].
  - apply executeDelegation_loud; [done|by apply Hreg|done..].
  - apply executeDelegation_loud; [done|by apply Hreg|done..].
  - eapply quiet_loud; [done|apply executeParallelNode_quiet; [|done..]|].
    + apply Forall_map. eapply Forall_impl; [done|]. intros b Hb. simpl. by apply Hall.
    + intros o s' _. apply outcome_node_post.
  - apply gated_loud. eapply (executeGateNode_gated _ _ _ _ C); [by apply refines_exits|by apply refines_waits|done..].
  - eapply quiet_loud; [done|apply executeIterateNode_quiet; [by apply Hall|done..]|].
    intros o s' _. apply outcome_node_post.
  - eapply quiet_loud; [done|apply executeIterateChainNode_quiet; [by apply Hall|done..]|].
    intros o s' _. apply outcome_node_post.
  - apply executeLoopNode_loud; [by apply Hall|done..].
  - eapply quiet_loud; [done|apply executeSequence_quiet; [by apply Hall|done..]|].
    intros o s' _. apply outcome_node_post.
Qed.
End induction.
