(* ===== verification/NodeSafety.v ===== *)
(** * What runs of the node interpreter guarantee

    The invariant of a run with respect to the frames storage listed for its
    resumption, closed under the writes of the runtime ([run_inv_closed]), and
    what follows for whole runs through the induction of [NodeInduction]. *)
From S2P Require Import Prelude JsValue Json Workflow RuntimeContext GateNode NodeRuntime NodeFacts.
From S2P Require Import NodeInduction.

(** ** The order in which a run names its frames *)
Fixpoint lex_lt (a b : list nat) : Prop :=
  match a, b with
  | _, [] => False
  | [], _ :: _ => True
  | x :: a, y :: b => (x < y)%nat ∨ (x = y ∧ lex_lt a b)
  end.

Definition before (x p : frame_id) : Prop := lex_lt (rev x) (rev p).

Lemma lex_lt_irrefl a : ¬ lex_lt a a.
Proof. induction a as [|x a IH]; simpl; [tauto|]. intros [?|[_ ?]]; [lia|done]. Qed.

Lemma lex_lt_trans a b c : lex_lt a b → lex_lt b c → lex_lt a c.
Proof.
  revert b c. induction a as [|x a IH]; intros [|y b] [|z c]; simpl; try done.
  intros [?|[-> ?]] [?|[-> ?]]; [left; lia..|]. right. split; [done|]. by eapply IH.
Qed.

Lemma lex_lt_app c a b : lex_lt (c ++ a) (c ++ b) ↔ lex_lt a b.
Proof.
  induction c as [|x c IH]; simpl; [done|]. rewrite IH. split; [intros [?|[_ ?]]; [lia|done]|auto].
Qed.

Lemma lex_lt_app_r a b c : lex_lt a b → lex_lt a (b ++ c).
Proof. revert b. induction a as [|x a IH]; intros [|y b]; simpl; try done. naive_solver. Qed.

Lemma before_trans x p q : before x p → before p q → before x q.
Proof. apply lex_lt_trans. Qed.

Lemma before_cons l k p : (l < k)%nat → before (l :: p) (k :: p).
Proof. intros. unfold before. simpl. apply lex_lt_app. by left. Qed.

(** Going on, into a branch, and back from the branches. *)
Lemma before_next x p : before x p → before x (next_pos p).
Proof.
  intros Hx. destruct p as [|k p]; [done|]. simpl. eapply before_trans; [done|]. apply before_cons. lia.
Qed.

Lemma before_self p : p ≠ [] → before p (next_pos p).
Proof. destruct p as [|k p]; [done|]. intros _. simpl. apply before_cons. lia. Qed.

Lemma before_inside x p k i : before x p → before x (k :: i :: p).
Proof. unfold before. simpl. intros Hx. by do 2 apply lex_lt_app_r. Qed.

Lemma before_sibling p k j k' i : (j < i)%nat → before (k :: j :: p) (k' :: i :: p).
Proof.
  intros. unfold before. simpl. rewrite <- !app_assoc. apply lex_lt_app. simpl. by left.
Qed.

Lemma before_join k j p : p ≠ [] → before (k :: j :: p) (next_pos p).
Proof.
  destruct p as [|l p]; [done|]. intros _. unfold before. simpl. rewrite <- !app_assoc.
  apply lex_lt_app. simpl. left. lia.
Qed.

(** ** Frame objects and writes *)
Lemma find_map {A} (p : A → bool) (g : A → A) l :
  (∀ a, p (g a) = p a) → List.find p (map g l) = g <$> List.find p l.
Proof. intros Hg. induction l as [|a l IH]; simpl; [done|]. rewrite Hg. by destruct (p a). Qed.

Lemma frame_object_patch fid g s x :
  (∀ f, frameId (g f) = frameId f) →
  frame_object x (patch_frame fid g s) =
    if decide (x = fid) then g <$> frame_object x s else frame_object x s.
Proof.
  intros Hg. unfold frame_object. rewrite patch_frame_registry.
  destruct (JsMap.get x (registry s)) as [f|] eqn:Hx.
  { by case_decide. }
  assert (∀ o : option frame, (if decide (x = fid) then g <$> (None : option frame) else None) = None) as Hn.
  { intros _. by case_decide. }
  rewrite (Hn None). unfold patch_frame. destruct (JsMap.get fid (registry s)) as [f|] eqn:Hf; simpl.
  { case_decide; [|done]. subst. congruence. }
  rewrite find_map; last first.
  { intros f. destruct (bool_decide (frameId f = fid)); by rewrite ?Hg. }
  destruct (List.find _ (resumeFrames s)) as [f|] eqn:Hfi; simpl; [|by case_decide].
  apply List.find_some in Hfi as [_ Hi%bool_decide_eq_true]. rewrite Hi.
  by case_decide; case_bool_decide.
Qed.

Lemma frame_object_patched `{run_kind} b fid g s x :
  (∀ f, frameId (g f) = frameId f) →
  frame_object x (patched b fid g s) =
    if decide (x = fid) then g <$> frame_object x s else frame_object x s.
Proof.
  intros Hg. rewrite <- (frame_object_patch fid g s x Hg). unfold patched.
  destruct (persisted_same b fid (patch_frame fid g s)) as (_ & _ & Hr & Hf & _).
  unfold frame_object. by rewrite Hr, Hf.
Qed.

Lemma frame_object_created `{run_kind} b p s x :
  frame_object x (created b p s) =
    if decide (pos s = x) then Some (new_frame (pos s) p) else frame_object x s.
Proof. unfold frame_object. rewrite created_registry. by case_decide. Qed.

(** ** What storage holds, and will hold *)
Section storage.
Context `{run_kind}.

(** Storage answers every write of the frame. *)
Definition answers_for (x : frame_id) : Prop := ∀ p f, frameId f = x → setFrame p f = Answered.

(** The row of a frame once its queue is empty. *)
Definition latest (x : frame_id) (s : rt) : option frame :=
  match last (writes_of x (inflight s)) with
  | Some w => Some (fw_frame w)
  | None => JsMap.get x (stored s)
  end.

(** The state once every write in flight has landed. *)
Definition landed (s : rt) : rt := (run_queue (inflight s) (set_inflight [] s)).2.

Lemma write_frame_answered w s x :
  answers_for x → JsMap.get x (stored (write_frame w s).2) =
    if decide (frameId (fw_frame w) = x) then Some (fw_frame w) else JsMap.get x (stored s).
Proof.
  intros Ha. case_decide as Hx; [|by apply (wr_other _ _ _ _ (write_frame_written w s))].
  unfold write_frame. rewrite (Ha _ _ Hx). simpl. unfold write_span.
  destruct (toFrameSpanRecord _); simpl; [destruct (carried_out _); simpl|]; rewrite Hx; apply JsMap.get_set_eq.
Qed.

(** Storage answers every write of a frame, and no write of a span fails. *)
Definition frame_storage_answers : Prop :=
  (∀ p f, setFrame p f = Answered) ∧ (∀ p sp m d, setSpan p sp ≠ Faulted m d).

Lemma answers_no_faults : frame_storage_answers → ¬ storage_faults.
Proof.
  intros [Hf Hs] (w & s & m & _ & Hw). unfold write_frame in Hw. rewrite Hf in Hw. simpl in Hw.
  unfold write_span in Hw. destruct (toFrameSpanRecord _) as [sp|]; [|done]. simpl in Hw.
  pose proof (Hs (fw_at w) sp) as Hsp. destruct (setSpan _ _) as [| |m' d]; try done. by destruct (Hsp m' d).
Qed.

Lemma run_queue_answered ws s x :
  answers_for x → JsMap.get x (stored (run_queue ws s).2) =
    match last (writes_of x ws) with Some w => Some (fw_frame w) | None => JsMap.get x (stored s) end.
Proof.
  intros Ha. induction ws as [|w ws IH] using rev_ind; [done|].
  rewrite run_queue_snoc, write_frame_answered by done. unfold writes_of in *. rewrite filter_app, IH.
  case_decide as Hx; [rewrite filter_cons_True, filter_nil, last_snoc by done; done|].
  by rewrite filter_cons_False, filter_nil, app_nil_r.
Qed.

Lemma landed_latest s x : answers_for x → JsMap.get x (stored (landed s)) = latest x s.
Proof. intros Ha. unfold landed. by rewrite run_queue_answered. Qed.

Lemma writes_of_others x fid ws :
  writes_of x (filter (λ w, frameId (fw_frame w) ≠ fid) ws) = if decide (x = fid) then [] else writes_of x ws.
Proof.
  unfold writes_of. induction ws as [|w ws IH]; [by case_decide|].
  destruct (decide (frameId (fw_frame w) = fid)) as [Hw|Hw].
  - rewrite (filter_cons_False _ w) by auto. rewrite IH. case_decide as Hx; [done|].
    rewrite filter_cons_False; [done|congruence].
  - rewrite (filter_cons_True _ w) by auto. rewrite !filter_cons, IH. repeat case_decide; congruence.
Qed.

(** Awaiting a write of the object [o] of frame [fid]. *)
Record wrote (fid : frame_id) (o : option frame) (s s' : rt) : Prop := {
  wo_other x : x ≠ fid → JsMap.get x (stored s') = JsMap.get x (stored s);
  wo_row f : JsMap.get fid (stored s') = Some f →
    JsMap.get fid (stored s) = Some f ∨ o = Some f ∨ ∃ w, w ∈ inflight s ∧ fw_frame w = f ∧ frameId f = fid;
  wo_kept : row fid s → row fid s';
  wo_inflight w : w ∈ inflight s' → w ∈ inflight s;
  wo_latest x : x ≠ fid → latest x s' = latest x s;
  wo_new f : o = Some f → answers_for fid → latest fid s' = Some f;
  wo_invoked id x t c : Invoked id x t c ∈ effects s' ↔ Invoked id x t c ∈ effects s;
}.

Lemma persisted_wrote b fid s :
  (∀ f, frame_object fid s = Some f → frameId f = fid) →
  wrote fid (frame_object fid s) s (persisted b fid s).2.
Proof.
  intros Hid. destruct (frame_object fid s) as [f|] eqn:Hf; last first.
  { unfold persisted. rewrite Hf. by constructor; auto. }
  specialize (Hid f eq_refl). pose proof (persisted_written b fid s f Hf) as Hw. rewrite Hid in Hw.
  destruct Hw. simpl in *. constructor; auto.
  - intros f' [?|[->|?]]%wr_row; auto.
  - rewrite wr_inflight. by intros w [_ ?]%list_elem_of_filter.
  - intros x Hx. unfold latest. rewrite wr_inflight, writes_of_others, wr_other by done. by rewrite decide_False.
  - intros f' [= <-] Ha. unfold latest. rewrite wr_inflight, writes_of_others, decide_True by done. simpl.
    rewrite (persisted_last _ _ _ _ Hf), write_frame_answered by done. simpl. by rewrite decide_True.
Qed.

Lemma patched_wrote b fid g s :
  (∀ f, frameId (g f) = frameId f) → (∀ f, frame_object fid s = Some f → frameId f = fid) →
  wrote fid (g <$> frame_object fid s) s (patched b fid g s).
Proof.
  intros Hg Hid. assert (frame_object fid (patch_frame fid g s) = g <$> frame_object fid s) as Ho.
  { rewrite frame_object_patch by done. by rewrite decide_True. }
  assert (wrote fid (g <$> frame_object fid s) (patch_frame fid g s) (patched b fid g s)) as Hw.
  { rewrite <- Ho. apply persisted_wrote. rewrite Ho. intros f Hf.
    destruct (frame_object fid s) as [f0|]; simplify_eq/=. rewrite Hg. auto. }
  revert Hw. unfold patch_frame. by destruct (JsMap.get fid (registry s)); intros []; constructor.
Qed.
End storage.

(** ** The frames a resumption starts from *)
Definition live (st : frame_status) : bool :=
  match st with SRunning | SWaiting => true | _ => false end.

Definition same_coords (f g : frame) : Prop :=
  nodeId f = nodeId g ∧ parentFrameId f = parentFrameId g ∧ iteration f = iteration g ∧
  branchKey f = branchKey g.

#[export] Instance same_coords_dec f g : Decision (same_coords f g).
Proof. unfold same_coords. apply _. Defined.

(** Frames the code reads back instead of executing: completed ones, and the
    skipped children of a sequence. *)
Definition replayable (f : frame) : bool :=
  match status f with
  | SCompleted => true
  | SSkipped => bool_decide (iteration f = None) && bool_decide (branchKey f = None)
  | _ => false
  end.

(** Frame ids of run [r] end in [r]. *)
Definition own (r : nat) (fid : frame_id) : Prop := last fid = Some r.
#[export] Instance own_dec r fid : Decision (own r fid).
Proof. unfold own. apply _. Defined.

(** What a run of number [r] needs of the frames listed for it: each has an id
    of its own, of an earlier run, and no place in the tree holds both a frame
    to be read back and one still live. *)
Record resumable (r : nat) (listed : list frame) : Prop := {
  rs_nodup : NoDup (map frameId listed);
  rs_new f : f ∈ listed → ¬ own r (frameId f);
  rs_coords f g : f ∈ listed → g ∈ listed → same_coords f g → replayable f = true →
    live (status g) = false;
}.

(** What a run does to a listed frame: a frame that is not live is kept as it
    is; a live one keeps its identity. *)
Definition kept (σ : signal) (f0 f : frame) : Prop :=
  ident f = ident f0 ∧ (live (status f0) = false → f = f0) ∧
  (startedAt f = startedAt f0 ∨ ∃ t, startedAt f = Some t ∧ aborted_at σ t = false).

(** A snapshot of a frame of the run, not necessarily the latest. *)
Record snapshot (σ : signal) (x : frame_id) (f : frame) (s : rt) : Prop := {
  sn_id : frameId f = x;
  sn_frame : ∃ f', JsMap.get x (registry s) = Some f' ∧ ident f = ident f';
  sn_started t : startedAt f = Some t → aborted_at σ t = false;
}.

(** The invariant of run [r], with the rows storage had and the frames the run
    listed of them. *)
Record run_inv `{run_kind} (σ : signal) (r : nat) (rows listed : list frame) (s : rt) : Prop := {
  ri_pos : Nat.Even (length (pos s)) ∧ pos s ≠ [] ∧ own r (pos s);
  ri_keys x f : JsMap.get x (registry s) = Some f → frameId f = x ∧ own r x ∧ before x (pos s);
  ri_resume : Forall2 (kept σ) listed (resumeFrames s);
  ri_rows x f : own r x → JsMap.get x (stored s) = Some f → snapshot σ x f s;
  ri_inflight w : w ∈ inflight s → own r (frameId (fw_frame w)) ∧ status (fw_frame w) = SPending ∧
    snapshot σ (frameId (fw_frame w)) (fw_frame w) s;
  ri_latest x f : frame_object x s = Some f → answers_for x → latest x s = Some f;
  ri_untouched g : g ∈ rows → (g ∈ listed → live (status g) = false) →
    JsMap.get (frameId g) (stored s) = Some g;
  ri_created x f g : JsMap.get x (registry s) = Some f → g ∈ listed → same_coords f g →
    replayable g = false;
  ri_started x f t : JsMap.get x (registry s) = Some f → startedAt f = Some t →
    aborted_at σ t = false;
  ri_invoked id fid t c : Invoked id fid t c ∈ effects s →
    own r fid ∧ registered_as id fid s ∧ (exits = true → row fid s) ∧ aborted_at σ t = false;
}.

(** The frames a run may write: its own, and the live ones it was given. *)
Definition headed (r : nat) (listed : list frame) (fid : frame_id) : Prop :=
  own r fid ∨ ∃ f, f ∈ listed ∧ frameId f = fid ∧ live (status f) = true.

Section closure.
Context `{run_kind} (σ : signal) (r : nat) (rows listed : list frame).
Context (Rr : resumable r rows) (R : resumable r listed) (Hsub : ∀ f, f ∈ listed → f ∈ rows).
Notation inv := (run_inv σ r rows listed).
Notation Hd := (headed r listed).

Lemma own_suffix (p q : frame_id) : p ≠ [] → own r (q ++ p) ↔ own r p.
Proof. intros Hp. unfold own. rewrite last_app. destruct (last p) eqn:Hl; [done|]. by apply last_None in Hl. Qed.

Lemma own_next (p : frame_id) : (2 ≤ length p)%nat → own r p → own r (next_pos p).
Proof. destruct p as [|k [|l p]]; simpl; [lia..|]. done. Qed.

Lemma even_two (p : frame_id) : Nat.Even (length p) → p ≠ [] → (2 ≤ length p)%nat.
Proof. destruct p as [|k [|l p]]; simpl; intros [m Hm]; [done|lia|lia]. Qed.

(** Writes that leave frames, storage and calls alone, and move on in the tree. *)
Lemma inv_moved s s' :
  inv s → Nat.Even (length (pos s')) → pos s' ≠ [] → own r (pos s') →
  (∀ x, before x (pos s) → before x (pos s')) →
  registry s' = registry s → resumeFrames s' = resumeFrames s → inflight s' = inflight s →
  stored s' = stored s →
  (∀ id fid t c, Invoked id fid t c ∈ effects s' → Invoked id fid t c ∈ effects s ∨
     own r fid ∧ registered_as id fid s ∧ (exits = true → row fid s) ∧ aborted_at σ t = false) →
  inv s'.
Proof.
  intros HI He Hn Ho Hb Hr Hf Hq Hs Hi.
  assert (∀ x, frame_object x s' = frame_object x s) as Hfo.
  { intros x. unfold frame_object. by rewrite Hr, Hf. }
  assert (∀ x, latest x s' = latest x s) as Hla by (intros x; unfold latest; by rewrite Hq, Hs).
  assert (∀ x f, snapshot σ x f s → snapshot σ x f s') as Hsn.
  { intros x f []. constructor; [done|by rewrite Hr|done]. }
  destruct HI. constructor; rewrite ?Hr, ?Hf, ?Hs, ?Hq; eauto.
  - intros x f Hx. destruct (ri_keys0 _ _ Hx) as (? & ? & ?). auto.
  - intros w Hw. destruct (ri_inflight0 _ Hw) as (? & ? & ?). auto.
  - intros x f. rewrite Hfo, Hla. eauto.
  - assert (∀ id fid, registered_as id fid s → registered_as id fid s') as Hra.
    { intros id fid. unfold registered_as. by rewrite Hr. }
    assert (∀ fid, row fid s → row fid s') as Hro by (intros fid; unfold row; by rewrite Hs).
    intros id fid t c [Hin|(? & ? & ? & ?)]%Hi; [|by auto 6].
    destruct (ri_invoked0 _ _ _ _ Hin) as (? & ? & ? & ?). auto 6.
Qed.

Lemma kept_find fs x f :
  Forall2 (kept σ) listed fs → List.find (λ f, bool_decide (frameId f = x)) fs = Some f →
  f ∈ fs ∧ frameId f = x.
Proof. intros _ [Hin Hx%bool_decide_eq_true]%find_some_elem. done. Qed.

Lemma frame_object_id s x f : inv s → frame_object x s = Some f → frameId f = x.
Proof.
  intros HI. unfold frame_object. destruct (JsMap.get x (registry s)) eqn:Hg.
  - intros [= <-]. by apply (ri_keys _ _ _ _ _ HI).
  - intros Hf. eapply kept_find; [apply (ri_resume _ _ _ _ _ HI)|done].
Qed.

(** Listed frames are not the run's. *)
Lemma resume_not_own s f : inv s → f ∈ resumeFrames s → ¬ own r (frameId f).
Proof.
  intros HI Hf. destruct (Forall2_elem_r _ _ _ _ (ri_resume _ _ _ _ _ HI) Hf) as (f0 & Hin & Hi & _).
  injection Hi as -> _. by apply (rs_new _ _ R).
Qed.

Lemma own_frame_object s x : inv s → own r x → frame_object x s = JsMap.get x (registry s).
Proof.
  intros HI Ho. unfold frame_object. destruct (JsMap.get x (registry s)); [done|].
  destruct (List.find _ _) as [f|] eqn:Hf; [|done].
  destruct (kept_find _ _ _ (ri_resume _ _ _ _ _ HI) Hf) as [Hin <-]. by destruct (resume_not_own _ _ HI Hin).
Qed.

Lemma listed_object s f : inv s → f ∈ resumeFrames s → frame_object (frameId f) s = Some f.
Proof.
  intros HI Hf. pose proof (resume_not_own _ _ HI Hf) as Ho. unfold frame_object.
  destruct (JsMap.get (frameId f) (registry s)) as [f'|] eqn:Hg.
  { by destruct (ri_keys _ _ _ _ _ HI _ _ Hg) as (_ & ? & _). }
  destruct (List.find _ _) as [g|] eqn:Hgf.
  - apply find_some_elem in Hgf as [Hin Hid%bool_decide_eq_true]. f_equal.
    eapply (NoDup_map_inj frameId); [|done..]. assert (map frameId (resumeFrames s) = map frameId listed) as ->;
      [|apply (rs_nodup _ _ R)].
    pose proof (ri_resume _ _ _ _ _ HI) as HF. clear -HF.
    induction HF as [|f0 f l k (Hi & _) HF IH]; simpl; [done|]. injection Hi. congruence.
  - assert (In f (resumeFrames s)) as Hin by by apply list_elem_of_In.
    pose proof (List.find_none _ _ Hgf f Hin) as Hn. simpl in Hn. by rewrite bool_decide_true in Hn.
Qed.

Lemma snapshot_extends x f s s' : extends s s' → snapshot σ x f s → snapshot σ x f s'.
Proof.
  intros [_ He] [? (f' & Hf' & Hi) ?]. constructor; [done| |done].
  destruct (ex_registry _ _ He _ _ Hf') as (f2 & ? & ?). exists f2. split; [done|congruence].
Qed.

(** A row a run may not write. *)
Lemma untouched_not_headed fid g :
  Hd fid → g ∈ rows → (g ∈ listed → live (status g) = false) → frameId g ≠ fid.
Proof.
  intros [Ho|(f & Hf & Hid & Hl)] Hg Hlive <-; [by apply (rs_new _ _ Rr) in Hg|].
  assert (f = g) as -> by (eapply (NoDup_map_inj frameId); [apply (rs_nodup _ _ Rr)|auto..]).
  rewrite Hlive in Hl; done.
Qed.

(** A write to a frame of the run, or to a live one. *)
Lemma inv_patched b s fid g :
  inv s → Hd fid → (∀ f, ident (g f) = ident f) →
  (∀ f, startedAt (g f) = startedAt f ∨ ∃ t, startedAt (g f) = Some t ∧ aborted_at σ t = false) →
  inv (patched b fid g s).
Proof.
  intros HI Hh Hi Hst.
  assert (∀ f, frameId (g f) = frameId f) as Hid by (intros f; specialize (Hi f); injection Hi; congruence).
  assert (∀ x f, JsMap.get x (registry (patched b fid g s)) = Some f →
    ∃ f', JsMap.get x (registry s) = Some f' ∧ (f = f' ∨ f = g f')) as Hreg.
  { intros x f. rewrite patched_registry. case_decide; [|eauto].
    destruct (JsMap.get x (registry s)); intros [= <-]; eauto. }
  assert (∀ x, frame_object x (patched b fid g s) =
    if decide (x = fid) then g <$> frame_object x s else frame_object x s) as Hfo.
  { intros x. by apply frame_object_patched. }
  pose proof (patched_wrote b fid g s Hid (λ f, frame_object_id s fid f HI)) as Hwo.
  pose proof (patched_extends b fid g s Hi) as Hex.
  constructor.
  - rewrite patched_pos. apply HI.
  - intros x f (f' & Hx & Hf)%Hreg. rewrite patched_pos.
    destruct (ri_keys _ _ _ _ _ HI _ _ Hx) as (? & ? & ?). split_and!; [|done..].
    destruct Hf as [->| ->]; [done|by rewrite Hid].
  - rewrite patched_resume. destruct (JsMap.get fid (registry s)) eqn:Hg; [apply HI|].
    apply Forall2_map_elem; [apply HI|]. intros f0 f Hf0 Hf (Hi0 & Hl & Hs0). case_bool_decide as Hx; [|done].
    split_and!; [by rewrite Hi| |].
    + intros Hlf. destruct (untouched_not_headed fid f0 Hh (Hsub _ Hf0) (λ _, Hlf)).
      injection Hi0. congruence.
    + destruct (Hst f) as [Hs|(t & Hs & Ha)]; [rewrite Hs; exact Hs0|right; eauto].
  - intros x f Ho Hx. apply (snapshot_extends _ _ s); [done|].
    destruct (decide (x = fid)) as [->|Hne]; [|apply (ri_rows _ _ _ _ _ HI); [done|by rewrite <- (wo_other _ _ _ _ Hwo)]].
    destruct (wo_row _ _ _ _ Hwo _ Hx) as [?|[Hg|(w & Hw & <- & Hwf)]]; [by apply (ri_rows _ _ _ _ _ HI)| |].
    + rewrite (own_frame_object _ _ HI Ho) in Hg. destruct (JsMap.get fid (registry s)) as [f0|] eqn:Hf0; simplify_eq/=.
      destruct (ri_keys _ _ _ _ _ HI _ _ Hf0) as (<- & _ & _). constructor; [done|by exists f0|].
      intros t Ht. destruct (Hst f0) as [Hs|(t' & Hs & ?)]; [|congruence].
      eapply (ri_started _ _ _ _ _ HI); [done|congruence].
    + rewrite <- Hwf. by apply (ri_inflight _ _ _ _ _ HI).
  - intros w Hw%(wo_inflight _ _ _ _ Hwo). destruct (ri_inflight _ _ _ _ _ HI _ Hw) as (? & ? & ?).
    split_and!; [done..|]. by eapply snapshot_extends.
  - intros x f. rewrite Hfo. case_decide as Hx; [subst; apply (wo_new _ _ _ _ Hwo)|].
    rewrite (wo_latest _ _ _ _ Hwo) by done. apply (ri_latest _ _ _ _ _ HI).
  - intros q Hq Hl. rewrite (wo_other _ _ _ _ Hwo); [by apply (ri_untouched _ _ _ _ _ HI)|]. by apply untouched_not_headed.
  - intros x f q (f' & Hx & Hf)%Hreg Hq Hc. eapply (ri_created _ _ _ _ _ HI); [done..|].
    destruct Hf as [->| ->]; [done|]. specialize (Hi f'). injection Hi as ? ? ? ? ?.
    destruct Hc as (? & ? & ? & ?). unfold same_coords. split_and!; congruence.
  - intros x f t (f' & Hx & Hf)%Hreg Ht. destruct Hf as [->| ->]; [by eapply (ri_started _ _ _ _ _ HI)|].
    destruct (Hst f') as [Hs|(t' & Hs & Ha)]; [|congruence].
    eapply (ri_started _ _ _ _ _ HI); [done|congruence].
  - intros id x t c Hin%(wo_invoked _ _ _ _ Hwo). destruct (ri_invoked _ _ _ _ _ HI _ _ _ _ Hin) as (? & ? & ? & ?).
    split_and!; [done|by eapply registered_as_extends| |done].
    intros Hx. apply (ex_rows _ _ (proj2 Hex)). auto.
Qed.

(** A listed frame that is not live is found as it was listed. *)
Lemma listed_kept s g : inv s → g ∈ listed → live (status g) = false → g ∈ resumeFrames s.
Proof.
  intros HI Hg Hl. destruct (Forall2_elem_l _ _ _ _ (ri_resume _ _ _ _ _ HI) Hg) as (g' & Hin & _ & Hk & _).
  by rewrite <- Hk.
Qed.

Lemma replayable_not_live g : replayable g = true → live (status g) = false.
Proof. unfold replayable. by destruct (status g). Qed.

(** Only where nothing is to be read back is a frame created. *)
Lemma allowed_not_replayable s p g :
  inv s → allowed p s → g ∈ listed → at_coords p g → replayable g = false.
Proof.
  intros HI Ha Hg Hc. destruct (replayable g) eqn:Hr; [|done]. exfalso.
  pose proof (listed_kept _ _ HI Hg (replayable_not_live _ Hr)) as Hin.
  destruct (Ha _ Hin Hc) as (q & Hq & Hcq & Hlq).
  - destruct Hc as (_ & _ & Hci & Hcb). unfold replayable in Hr.
    destruct (status g); try done; [by left|]. right. rewrite andb_true_iff, !bool_decide_eq_true in Hr.
    split_and!; [done|destruct Hr; congruence..].
  - destruct (Forall2_elem_r _ _ _ _ (ri_resume _ _ _ _ _ HI) Hq) as (q0 & Hq0 & Hi & Hk & _).
    assert (live (status q0) = false) as Hl0.
    { apply (rs_coords _ _ R g); [done..| |done]. injection Hi as ? ? ? ? ?.
      destruct Hc as (? & ? & ? & ?), Hcq as (? & ? & ? & ?). split_and!; congruence. }
    rewrite Hk in Hlq by done. by destruct Hlq as [Hs|Hs]; rewrite Hs in Hl0.
Qed.

Lemma inv_created b s p : inv s → allowed p s → inv (created b p s).
Proof.
  intros HI Ha. destruct (ri_pos _ _ _ _ _ HI) as (Hev & Hne & Ho).
  assert (JsMap.get (pos s) (registry s) = None) as Hfresh.
  { destruct (JsMap.get _ _) eqn:Hg; [|done].
    destruct (ri_keys _ _ _ _ _ HI _ _ Hg) as (_ & _ & []%lex_lt_irrefl). }
  pose proof (created_extends b p s Hfresh) as Hex.
  set (w := {| fw_at := pos s; fw_required := b; fw_frame := new_frame (pos s) p |}).
  assert (inflight (created b p s) = inflight s ++ [w]) as Hq by done.
  assert (stored (created b p s) = stored s) as Hs by done.
  constructor.
  - change (pos (created b p s)) with (next_pos (pos s)).
    split_and!; [|by destruct (pos s)|by apply own_next; [apply even_two|]]. by destruct (pos s).
  - intros x f. rewrite created_registry. case_decide as Hx.
    + intros [= <-]. subst. split_and!; [done..|by apply before_self].
    + intros Hg. destruct (ri_keys _ _ _ _ _ HI _ _ Hg) as (? & ? & ?).
      split_and!; [done..|by apply before_next].
  - apply HI.
  - intros x f Hox Hx. apply (snapshot_extends _ _ s); [done|]. by apply (ri_rows _ _ _ _ _ HI).
  - rewrite Hq. intros w' [Hw|Hw%list_elem_of_singleton]%elem_of_app.
    + destruct (ri_inflight _ _ _ _ _ HI _ Hw) as (? & ? & ?). split_and!; [done..|]. by eapply snapshot_extends.
    + subst w'. split_and!; [done..|]. constructor; [done| |done].
      exists (new_frame (pos s) p). split; [|done]. change (frameId (fw_frame w)) with (pos s).
      rewrite created_registry. by case_decide.
  - intros x f. rewrite frame_object_created. unfold latest. rewrite Hq, Hs. unfold writes_of. rewrite filter_app.
    case_decide as Hx.
    + intros [= <-] _. by rewrite filter_cons_True, filter_nil, last_snoc.
    + rewrite filter_cons_False, filter_nil, app_nil_r by done. apply (ri_latest _ _ _ _ _ HI).
  - apply (ri_untouched _ _ _ _ _ HI).
  - intros x f g. rewrite created_registry. case_decide as Hx; [|apply HI].
    intros [= <-] Hg (? & ? & ? & ?). eapply allowed_not_replayable; [done..|]. by split_and!.
  - intros x f t. rewrite created_registry. case_decide as Hx; [by intros [= <-]|apply HI].
  - intros id x t c Hin. destruct (ri_invoked _ _ _ _ _ HI _ _ _ _ Hin) as (? & ? & ? & ?).
    split_and!; [done|by eapply registered_as_extends|done..].
Qed.

(** The invariant is closed under every write of the runtime. *)
Lemma run_inv_closed : closed σ inv Hd.
Proof.
  assert (∀ s p : frame_id, s = p ∨ (∃ k j, s = k :: j :: p) → own r s → p ≠ [] → own r p) as Hown.
  { intros s p [->|(k & j & ->)] Ho Hp; [done|]. by apply (own_suffix p [k; j]) in Ho. }
  assert (∀ (s p : frame_id), s = p ∨ (∃ k j, s = k :: j :: p) → Nat.Even (length s) → Nat.Even (length p)) as Heven.
  { intros s p [->|(k & j & ->)]; [done|]. by intros [m Hm]; exists (m - 1)%nat; simpl in Hm; lia. }
  assert (∀ id fid s t c e, Invoked id fid t c ∈ effects (add_effect e s) →
    Invoked id fid t c ∈ effects s ∨ e = Invoked id fid t c) as Hinv.
  { intros id fid s t c e. simpl. rewrite elem_of_app, list_elem_of_singleton. naive_solver. }
  assert (∀ s p, inv s → pos s = p ∨ (∃ k j, pos s = k :: j :: p) → p ≠ [] →
    Nat.Even (length p) ∧ own r p) as Hbase.
  { intros s p HI Hp Hne. destruct (ri_pos _ _ _ _ _ HI) as (Hev & _ & Ho). split; eauto. }
  assert (∀ s p, inv s → pos s = p → Nat.Even (length (next_pos p)) ∧ next_pos p ≠ [] ∧ own r (next_pos p)) as Hnext.
  { intros s p HI <-. destruct (ri_pos _ _ _ _ _ HI) as (Hev & Hne & Ho).
    pose proof (own_next _ (even_two _ Hev Hne) Ho). by destruct (pos s). }
  constructor.
  - intros s t HI. apply (inv_moved s); [done|apply HI..|done|done|done|done|done|by left].
  - intros s HI. destruct (Hnext s _ HI eq_refl) as (? & ? & ?).
    apply (inv_moved s); [done..|intros x; apply before_next|done|done|done|done|by left].
  - intros s p i HI Hp Hne. destruct (Hbase s p HI) as [Hev Ho]; [|done|].
    { destruct Hp as [?|(k & j & ? & _)]; [by left|right; eauto]. }
    apply (inv_moved s); [done|by destruct Hev as [m Hm]; exists (S m); simpl; lia|done| | |done..|by left].
    + by apply (own_suffix p [O; i]).
    + intros x Hx. simpl. destruct Hp as [<-|(k & j & Hs & Hj)]; [by apply before_inside|].
      rewrite Hs in Hx. eapply before_trans; [done|by apply before_sibling].
  - intros s p HI Hp Hne. destruct (Hbase s p HI Hp Hne) as [Hev Ho].
    apply (inv_moved s); [done|by destruct p|by destruct p|by apply own_next; [apply even_two|]| |done..|by left].
    intros x Hx. simpl. destruct Hp as [<-|(k & j & Hs)]; [by apply before_next|].
    rewrite Hs in Hx. eapply before_trans; [done|by apply before_join].
  - intros s HI. apply HI.
  - intros s HI. destruct (JsMap.get _ _) eqn:Hg; [|done].
    destruct (ri_keys _ _ _ _ _ HI _ _ Hg) as (_ & _ & []%lex_lt_irrefl).
  - intros s x f HI. by apply frame_object_id.
  - intros s e HI He. apply (inv_moved s); [done|apply HI..|done|done|done|done|done|].
    intros id fid t c [?| ->]%Hinv; [by left|done].
  - intros s id fid c HI Hreg Hrow Ha. apply (inv_moved s); [done|apply HI..|done|done|done|done|done|].
    intros id' fid' t c' [?|[= <- <- <- <-]]%Hinv; [by left|]. right. split_and!; [|done..].
    destruct Hreg as (f & Hf & _). by apply (ri_keys _ _ _ _ _ HI _ _ Hf).
  - intros s g HI. apply (inv_moved s); [done|apply HI..|done|done|done|done|done|by left].
  - intros b s p HI Ha. split; [by apply inv_created|left; apply HI].
  - intros s f HI Hf Hl. destruct (Forall2_elem_r _ _ _ _ (ri_resume _ _ _ _ _ HI) Hf) as (f0 & Hf0 & Hi & Hk & _).
    right. exists f0. injection Hi as ? ? ? ? ?. split_and!; [done|done|].
    destruct (live (status f0)) eqn:Hl0; [done|]. rewrite Hk in Hl by done.
    by destruct Hl as [Hs|Hs]; rewrite Hs in Hl0.
  - intros b s fid HI Hh Ha. apply inv_patched; [done..|right; eauto].
  - intros b s fid g HI Hh Hl. apply inv_patched; [done..|intros f; apply Hl|left; apply Hl].
Qed.
End closure.

(** ** Runs *)
Definition start_position (r : nat) : frame_id := [O; r].

Definition run_from `{Surroundings} (root : list node) (a : artifact_start) (ctx : run_ctx) (c : expr_ctx)
    (t : Z) (listed : list frame) (rows : list ((string * frame_id) * gate_instance)) (r : nat) :
    outcome halt sequence_result * rt :=
  runRuntimeSequence root a ctx c (initial_state t listed rows (start_position r)).

Definition paused_result (r : sequence_result) : bool :=
  match r with RunPaused _ _ => true | _ => false end.

(** A run of a context exits or not; what may fail are its required writes. *)
Definition kind_of `{Surroundings} (ctx : run_ctx) : run_kind :=
  {| exits := parks ctx; unreliable := parks ctx = true ∧ storage_faults;
     faults_unreliable := @conj _ _ |}.

(** *** Before the first node *)
Record fresh (r : nat) (rows : list frame) (s : rt) : Prop := {
  fr_pos : ∃ k, pos s = [k; r];
  fr_registry : registry s = [];
  fr_inflight : inflight s = [];
  fr_effects : effects s = [];
  fr_stored : stored s = map (λ f, (frameId f, f)) rows;
  fr_resume : resumeFrames s = [] ∨ resumeFrames s = rows;
}.

Section preparation.
Context `{Surroundings} (r : nat) (rows : list frame).

(** A computation of the preparation: it returns or throws, having changed
    nothing. *)
Definition prepares {A} (s : rt) (o : outcome halt A) (s' : rt) : Prop :=
  fresh r rows s' ∧ resumeFrames s' = resumeFrames s ∧ ∀ h, o = Throw h → ∃ m, h = Raised m.

Lemma prepares_bind {A B} (m : M A) (f : A → M B) s :
  wp m (prepares s) s → (∀ a s', fresh r rows s' → wp (f a) (prepares s') s') →
  wp (st_bind m f) (prepares s) s.
Proof.
  intros Hm Hf. apply wp_bind. eapply wp_mono; [exact Hm|]. intros [a|h] s1 (HF & Hr & Hh).
  - eapply wp_mono; [by apply Hf|]. intros o s2 (? & ? & ?). split_and!; [done|congruence|done].
  - split_and!; [done..|]. intros h' [= <-]. by apply Hh.
Qed.

Lemma prepares_ret {A} (a : A) s : fresh r rows s → wp (st_ret a) (prepares s) s.
Proof. intros HF. by split_and!. Qed.

Lemma prepares_raise {A} m s : fresh r rows s → wp (raise m : M A) (prepares s) s.
Proof. intros HF. split_and!; [done..|]. intros h [= <-]. by eexists. Qed.

Lemma prepares_rethrow {A} (o : outcome string A) s : fresh r rows s → wp (rethrow o) (prepares s) s.
Proof. intros HF. destruct o; [by apply prepares_ret|by apply prepares_raise]. Qed.

Lemma prepares_asks {A} (f : rt → A) s : fresh r rows s → wp (asks f) (prepares s) s.
Proof. intros HF. by split_and!. Qed.

Lemma prepares_tick s : fresh r rows s → wp tick (prepares s) s.
Proof.
  intros [(k & Hk) ? ? ? ? ?]. split_and!; [|done..]. constructor; try done. simpl. rewrite Hk. by eexists.
Qed.

Lemma evaluate_optional_prepares {A} e scope (normalize : option json → outcome string (option A)) s :
  fresh r rows s → wp (evaluate_optional e scope normalize) (prepares s) s.
Proof.
  intros HF. destruct e as [e|]; [|by apply prepares_ret].
  apply prepares_bind; [by apply prepares_rethrow|]. intros. by apply prepares_rethrow.
Qed.

Lemma binding_prepares a s : fresh r rows s → wp (resolveWorkflowArtifactBinding a) (prepares s) s.
Proof.
  intros HF. unfold resolveWorkflowArtifactBinding. destruct (as_binding a) as [b|]; [|by apply prepares_ret].
  apply prepares_bind.
  { destruct (as_ref a); [by apply prepares_ret|by apply evaluate_optional_prepares]. }
  intros existing s1 HF1. apply prepares_bind.
  { destruct existing; [by apply prepares_ret|by apply evaluate_optional_prepares]. }
  intros d s2 HF2. apply prepares_bind; [|intros [c|] s3 HF3; [by apply prepares_ret|by apply prepares_raise]].
  unfold resolveOrCreateArtifactBinding.
  destruct existing as [ref|]; [|destruct d as [d|]; [|by apply prepares_raise]].
  all: apply prepares_bind; [by apply prepares_asks|intros p s3 HF3].
  all: apply prepares_bind; [by apply prepares_tick|intros _ s4 HF4].
  all: apply prepares_bind; [by apply prepares_rethrow|intros v s5 HF5; by apply prepares_ret].
Qed.

Definition prepared_run (ctx : run_ctx) (o : outcome halt ()) (s : rt) : Prop :=
  fresh r rows s ∧ (parks ctx = false → resumeFrames s = []) ∧
  match o with
  | Ok _ => parks ctx = true → resumeFrames s = rows
  | Throw h => ∃ m, h = Raised m
  end.

Lemma prepare_run_fresh a ctx t gs :
  wp (prepare_run a ctx) (prepared_run ctx) (initial_state t rows gs (start_position r)).
Proof.
  set (s0 := initial_state _ _ _ _).
  assert (fresh r rows s0) as HF0 by (constructor; simpl; try done; [by eexists|by left]).
  assert (wp (if parks ctx then loadResumeFrames (executionId ctx) else st_ret tt) (prepared_run ctx) s0) as Hload.
  { destruct (parks ctx) eqn:Hk; [|by split_and!; try (intros; congruence)].
    unfold loadResumeFrames. apply wp_bind, wp_asks, wp_bind. eapply wp_mono; [by apply prepares_tick|].
    intros [[]|h] s1 (HF1 & Hr1 & Hh); [|split_and!; [done|congruence|by apply Hh]].
    destruct (listFrames (pos s0)) as [| |m d].
    - apply wp_modify. assert (JsMap.values (stored s1) = rows) as Hv.
      { rewrite (fr_stored _ _ _ HF1). unfold JsMap.values. rewrite <- list_fmap_compose. by rewrite list_fmap_id. }
      split_and!; [|congruence|done]. destruct HF1. constructor; try done. by right.
    - split_and!; [done|congruence|]. by eexists.
    - split_and!; [done|congruence|]. by eexists. }
  unfold prepare_run. apply wp_bind. eapply wp_mono; [exact Hload|]. intros [[]|h] s1 (HF1 & Hn1 & Hq1).
  - apply wp_bind. eapply wp_mono; [by apply binding_prepares|]. intros [v|h] s2 (HF2 & Hr2 & Hh).
    + apply wp_ret. split_and!; [done|rewrite Hr2; done..].
    + split_and!; [done|rewrite Hr2; done|by apply Hh].
  - by split_and!.
Qed.
End preparation.

(** *** Whole runs *)
Definition run_post `{Surroundings} (W : Prop) (a : artifact_start) (ctx : run_ctx) (r : nat)
    (rows : list frame) (s0 : rt) (o : outcome halt sequence_result) (s : rt) : Prop :=
  let K := kind_of ctx in
  ∃ listed, resumable r listed ∧ (∀ f, f ∈ listed → f ∈ rows) ∧
    (parks ctx = true → listed = rows ∨ registry s = [] ∧ effects s = []) ∧
    run_inv (rsignal ctx) r rows listed s ∧
    match o with
    | Ok res => ¬ unreliable → ∀ x f, JsMap.get x (registry s) = Some f →
        status f ≠ SPending ∧ (paused_result res = false → terminal (status f) = true)
    | Throw (Raised m) => unreliable ∨ (prepare_run a ctx s0).1 = Throw (Raised m)
    | Throw Never => W
    | Throw OutOfFuel => False
    end.

Lemma inv_fresh `{run_kind} σ r rows s :
  resumable r rows → fresh r rows s → run_inv σ r rows (resumeFrames s) s.
Proof.
  intros R [(k & Hk) Hreg Hq He Hs Hres].
  assert (NoDup (JsMap.keys (stored s))) as Hnd.
  { rewrite Hs. unfold JsMap.keys. rewrite <- list_fmap_compose. apply (rs_nodup _ _ R). }
  assert (∀ f, f ∈ rows → JsMap.get (frameId f) (stored s) = Some f) as Hrow.
  { intros f Hf. apply JsMap.elem_get; [done|]. rewrite Hs. apply list_elem_of_fmap. by exists f. }
  constructor; rewrite ?Hreg, ?Hq, ?He; simpl; try done.
  - rewrite Hk. split; [by exists 1%nat|done].
  - apply Forall2_same_length_lookup. split; [done|]. intros i f f' Hf Hf'. simplify_eq.
    split_and!; [done..|by left].
  - intros x f Ho Hx. apply JsMap.get_elem in Hx. rewrite Hs in Hx.
    apply list_elem_of_fmap in Hx as (g & [= -> ->] & Hg). by apply (rs_new _ _ R) in Hg.
  - by intros w ?%elem_of_nil.
  - intros x f Hf _. unfold frame_object in Hf. rewrite Hreg in Hf. unfold latest. rewrite Hq. simpl.
    apply find_some_elem in Hf as [Hin Hx%bool_decide_eq_true]. subst x. apply Hrow.
    destruct Hres as [Hn|Hn]; rewrite Hn in Hin; [by apply elem_of_nil in Hin|done].
  - auto.
  - by intros id fid u c Hin%elem_of_nil.
Qed.

Lemma resumable_nil r (rows : list frame) : resumable r [] ∧ ∀ f : frame, f ∈ [] → f ∈ rows.
Proof.
  split; [|by intros f ?%elem_of_nil].
  split; [apply NoDup_nil_2|intros f Hf|intros f g Hf]; by apply elem_of_nil in Hf.
Qed.

Lemma resumable_fresh r rows s : resumable r rows → fresh r rows s → resumable r (resumeFrames s).
Proof.
  intros R [_ _ _ _ _ [Hn|Hn]]; rewrite Hn; [|done]. by apply (resumable_nil r rows).
Qed.

Lemma fresh_subset r rows s f : fresh r rows s → f ∈ resumeFrames s → f ∈ rows.
Proof. intros [_ _ _ _ _ [Hn|Hn]]; rewrite Hn; [by intros ?%elem_of_nil|done]. Qed.

Lemma may_wait_True `{Surroundings} : may_wait True.
Proof. by constructor. Qed.

Section runs.
Context `{run_kind} (W : Prop) (MW : may_wait W).

Lemma runnables_ok σ I Hd (C : closed σ I Hd) root : Forall (runnable_ok W σ I Hd) (runnables root).
Proof. apply Forall_map, Forall_forall. intros n _. simpl. by eapply executeNode_ok. Qed.

(** The root sequence, from a prepared state. *)
Lemma sequence_post root ctx c r rows s :
  resumable r rows → fresh r rows s → parks ctx = exits → (parks ctx = false → W) →
  wp (executeSequence (runnables root) ctx c None [])
    (quiet W (run_inv (rsignal ctx) r rows (resumeFrames s)) s (outcome_post s)) s.
Proof.
  intros R HF Hk HW.
  assert (closed (rsignal ctx) (run_inv (rsignal ctx) r rows (resumeFrames s)) (headed r (resumeFrames s))) as C.
  { apply run_inv_closed; [done|by eapply resumable_fresh|]. intros f. by eapply fresh_subset. }
  eapply executeSequence_quiet; [exact MW|exact C|by eapply runnables_ok|by split_and!|by apply inv_fresh].
Qed.

(** Nothing was there before: all of the frames are settled. *)
Lemma outcome_settled s o s' :
  registry s = [] → outcome_post s o s' → ¬ unreliable → ∀ x f, JsMap.get x (registry s') = Some f →
  status f ≠ SPending ∧ (paused_outcome o = true ∨ terminal (status f) = true).
Proof.
  intros Hs [Hst Hcl] Hu x f Hx.
  assert (∀ X, ¬ has_status X x s) as Hno.
  { intros X (_ & f0 & Hf0 & _). by rewrite Hs in Hf0. }
  split.
  - intros Hp. apply (Hno is_pending), Hst. split; [done|]. exists f. by rewrite Hp.
  - destruct Hcl as [?|Hcl]; [by left|right]. destruct (terminal (status f)) eqn:Ht; [done|].
    destruct (Hno is_open). apply Hcl. split; [done|]. exists f. unfold is_open. by rewrite Ht.
Qed.
End runs.

Lemma run_from_post `{Surroundings} W (MW : may_wait W) root a ctx c t rows gs r :
  resumable r rows → (parks ctx = false → W) →
  let run := run_from root a ctx c t rows gs r in
  run_post W a ctx r rows (initial_state t rows gs (start_position r)) run.1 run.2.
Proof.
  intros R HW. set (s0 := initial_state t rows gs (start_position r)).
  cut (wp (runRuntimeSequence root a ctx c) (run_post W a ctx r rows s0) s0); [done|].
  unfold runRuntimeSequence. apply wp_bind. pose proof (prepare_run_fresh r rows a ctx t gs) as Hprep.
  fold s0 in Hprep. unfold wp in Hprep |- *. destruct (prepare_run a ctx s0) as [o s1] eqn:Hrun. cbn [fst snd] in *.
  destruct Hprep as (HF & Hn & Ho). set (K := kind_of ctx).
  pose proof (inv_fresh (rsignal ctx) r rows s1 R HF) as HI1. pose proof (resumable_fresh r rows s1 R HF) as R1.
  pose proof (λ f, fresh_subset r rows s1 f HF) as Hsub.
  destruct o as [[]|h]; last first.
  { exists (resumeFrames s1). split_and!; [done..|right; split; apply HF|done|].
    destruct Ho as [m ->]. right. by rewrite Hrun. }
  change (wp (let* o := executeSequence (runnables root) ctx c None [] in
    match o with
    | NFailed e => st_ret (RunFailed e)
    | NPaused g x => st_ret (RunPaused g x)
    | _ => let* ab := aborted ctx in
           st_ret (if ab || bool_decide (o = NCancelled) then RunCancelled else RunCompleted)
    end) (run_post W a ctx r rows s0) s1).
  apply wp_bind. eapply wp_mono; [exact (@sequence_post _ K W MW root ctx c r rows s1 R HF eq_refl HW)|].
  intros [o|h] s2 (HI2 & _ & Hp).
  - pose proof (outcome_settled s1 o s2 (fr_registry _ _ _ HF) Hp) as Hset.
    assert (∀ res, (paused_outcome o = true → paused_result res = true) → run_post W a ctx r rows s0 (Ok res) s2) as Hres.
    { intros res Hpr. exists (resumeFrames s1). split_and!; [done..|by left; apply Ho|done|].
      intros Hu x f Hx. destruct (Hset Hu x f Hx) as [? [Hpa|?]]; [|done]. rewrite Hpr by done. done. }
    destruct o; try (apply wp_bind, wp_asks); apply wp_ret, Hres; done.
  - exists (resumeFrames s1). split_and!; [done..|by left; apply Ho|done|].
    destruct h; [by left|done..].
Qed.
