(* ===== verification/NodeResults.v ===== *)
(** * Results of gates, branches and items

    Which answer a waiting gate takes, what a parallel node makes of the ends of
    its branches, and the shape of the outputs of parallel and iterate nodes. *)
From S2P Require Import Prelude JsValue Json Workflow RuntimeContext GateNode NodeRuntime.

(** ** Gates that wait for an answer *)
Section gates.
Context `{Surroundings}.

Definition waiter_ok (v : option ValidateFunction) (w : waiter) : Prop :=
  (pending w = true ↔ settled w = None) ∧
  ∀ a d reason, settled w = Some (RaceResponse a d reason) → validateGateResumeData v d = None.

Definition answered (w : waiter) : bool :=
  match settled w with Some (RaceResponse _ _ _) => true | _ => false end.

Definition accepted (rs : list (option respond_reply)) : list (option respond_reply) :=
  filter (λ r, r = Some Accepted) rs.

(** Each input: accepted exactly if it settles the race with a response. *)
Definition input_post (v : option ValidateFunction) (w : waiter) (r : option respond_reply) (w' : waiter) : Prop :=
  waiter_ok v w' ∧ (pending w = false → w' = w ∧ r ≠ Some Accepted) ∧
  (pending w = true → r = Some Accepted ↔ answered w' = true).

Lemma unanswered v w : waiter_ok v w → pending w = true → answered w = false.
Proof. unfold answered. intros [Hp _] ->%Hp. done. Qed.

Lemma input_ignored v w r : waiter_ok v w → r ≠ Some Accepted → input_post v w r w.
Proof.
  intros Hw Hr. split_and!; [done..|]. intros Hp. rewrite (unanswered v w) by done. done.
Qed.

Lemma input_settles v w res :
  waiter_ok v w → (∀ a d reason, res ≠ RaceResponse a d reason) →
  input_post v w None (settle_with w res).
Proof.
  intros Hw Hres. unfold settle_with. destruct (pending w) eqn:Hp; [|by apply input_ignored].
  assert (answered {| pending := false; settled := Some res |} = false) as Hna.
  { unfold answered. simpl. destruct res; [|done..]. by edestruct Hres. }
  split_and!; [|congruence|by rewrite Hna]. split; simpl; [done|]. intros a d reason [= ->]. by edestruct Hres.
Qed.

Lemma on_input_ok ctx id fid v w i :
  waiter_ok v w → input_post v w (on_input ctx id fid v w i).1 (on_input ctx id fid v w i).2.
Proof.
  intros Hw. destruct i as [p| |]; simpl; [|by apply input_settles..].
  unfold on_respond. destruct (_ || _ : bool); [by apply input_ignored|].
  destruct (pending w) eqn:Hpw; simpl; [|by apply input_ignored].
  destruct (validateGateResumeData v (rp_resumeData p)) eqn:Hval; [by apply input_ignored|].
  unfold settle_with. rewrite Hpw. simpl. split_and!; [|congruence|done].
  split; simpl; [done|]. by intros a d reason [= <- <- <-].
Qed.

Lemma feed_closed ctx id fid v w xs :
  waiter_ok v w → pending w = false → (feed ctx id fid v w xs).2 = w ∧ accepted (feed ctx id fid v w xs).1 = [].
Proof.
  intros Hw Hp. induction xs as [|i xs IH]; simpl; [done|].
  pose proof (on_input_ok ctx id fid v w i Hw) as Hi. destruct (on_input ctx id fid v w i) as [r w1]. simpl in Hi.
  destruct Hi as (_ & Hc & _). destruct (Hc Hp) as [-> Hr]. destruct (feed ctx id fid v w xs) as [rs w2].
  simpl in *. destruct IH as [-> IH]. split; [done|]. unfold accepted. by rewrite filter_cons_False.
Qed.

Lemma feed_ok ctx id fid v w xs :
  waiter_ok v w → pending w = true →
  let '(rs, w') := feed ctx id fid v w xs in
  waiter_ok v w' ∧ accepted rs = if answered w' then [Some Accepted] else [].
Proof.
  revert w. induction xs as [|i xs IH]; intros w Hw Hp; simpl.
  - split; [done|]. unfold answered. by rewrite (proj1 (proj1 Hw) Hp).
  - pose proof (on_input_ok ctx id fid v w i Hw) as Hi. destruct (on_input ctx id fid v w i) as [r w1]. simpl in Hi.
    destruct Hi as (Hw1 & _ & Hr). specialize (Hr Hp). destruct (pending w1) eqn:Hp1.
    + specialize (IH w1 Hw1 Hp1). destruct (feed ctx id fid v w1 xs) as [rs w2]. destruct IH as [? IH].
      split; [done|]. unfold accepted. rewrite filter_cons_False; [exact IH|].
      by rewrite Hr, (unanswered v w1).
    + destruct (feed_closed ctx id fid v w1 xs Hw1 Hp1) as [H2 Hrs]. destruct (feed ctx id fid v w1 xs) as [rs w2].
      simpl in *. subst w2. split; [done|]. unfold accepted in *.
      destruct (decide (r = Some Accepted)) as [->|Hne].
      * rewrite filter_cons_True, Hrs by done. by rewrite (proj1 Hr eq_refl).
      * rewrite filter_cons_False, Hrs by done. destruct (answered w1); [|done]. by destruct Hne; apply Hr.
Qed.

Lemma race_settled ctx id fid v armed w (xs : list (Z * gate_input)) :
  waiter_ok v w → settled w = None →
  snd <$> race ctx id fid v armed w xs = settled (feed ctx id fid v w xs.*2).2.
Proof.
  revert w. induction xs as [|[t i] xs IH]; intros w Hw Hs; [done|]. rewrite fmap_cons. cbn [race feed snd].
  pose proof (on_input_ok ctx id fid v w i Hw) as Hi. destruct (on_input ctx id fid v w i) as [r w1]. simpl in Hi.
  destruct Hi as (Hw1 & _ & _). cbn [snd fst]. destruct (settled w1) as [res|] eqn:Hs1.
  - destruct (feed_closed ctx id fid v w1 xs.*2 Hw1) as [H2 _].
    { destruct (pending w1) eqn:Hp1; [|done]. apply Hw1 in Hp1. congruence. }
    destruct (feed ctx id fid v w1 xs.*2). simpl in *. by rewrite H2, Hs1.
  - rewrite IH by done. by destruct (feed ctx id fid v w1 xs.*2).
Qed.

(** C23: However many responses reach a gate that waits in process, around its
    timeout and the abort of the run, at most one is accepted: exactly one if the
    race is won by a response, which then satisfies the gate's schema, none if it
    is won by the timeout, the abort or nobody. The race the gate awaits ends
    with what the first settling input said. *)
Theorem gate_accepts_at_most_one_response ctx id fid v armed (xs : list (Z * gate_input)) :
  let '(rs, w) := feed ctx id fid v fresh_waiter xs.*2 in
  accepted rs = (if answered w then [Some Accepted] else []) ∧
  snd <$> race ctx id fid v armed fresh_waiter xs = settled w ∧
  (∀ a d reason, settled w = Some (RaceResponse a d reason) → validateGateResumeData v d = None).
Proof.
  assert (waiter_ok v fresh_waiter) as Hw by done.
  pose proof (race_settled ctx id fid v armed fresh_waiter xs Hw eq_refl) as Hr.
  pose proof (feed_ok ctx id fid v fresh_waiter xs.*2 Hw eq_refl) as Hf.
  destruct (feed ctx id fid v fresh_waiter xs.*2) as [rs w]. destruct Hf as [[_ Hv] Ha]. done.
Qed.
End gates.

(** ** Parallel nodes *)
#[export] Instance end_le_preorder {A} : TotalPreorder (@end_le A).
Proof. unfold end_le. split; intros; rewrite ?Z.leb_le in *; lia. Qed.

Definition is_paused (r : node_outcome * Z) : option (string * frame_id) :=
  match r.1 with NPaused g x => Some (g, x) | _ => None end.
Definition is_failed (r : node_outcome * Z) : option string :=
  match r.1 with NFailed e => Some e | _ => None end.

Definition first_of {A B} (p : A → option B) (l : list A) : option B := head (omap p l).

Lemma first_of_cons {A B} (p : A → option B) a l :
  first_of p (a :: l) = match p a with Some b => Some b | None => first_of p l end.
Proof. unfold first_of. simpl. by destruct (p a). Qed.

(** The monitor keeps the first failure and the first pause. *)
Lemma foldl_monitor l st :
  foldl (λ st r, monitor st r.1) st l =
    {| firstError := match firstError st with Some e => Some e | None => first_of is_failed l end;
       firstPaused := match firstPaused st with Some p => Some p | None => first_of is_paused l end |}.
Proof.
  revert st. induction l as [|[o t] l IH]; intros [e p]; simpl; [by destruct e, p|].
  rewrite IH, !first_of_cons. by destruct o, e, p.
Qed.

(** In a list ordered by end, the first is the earliest. *)
Lemma first_of_ordered {A B} (p : A * Z → option B) l b :
  ordered end_le l → first_of p l = Some b →
  ∃ a t, (a, t) ∈ l ∧ p (a, t) = Some b ∧ ∀ a' t', (a', t') ∈ l → p (a', t') ≠ None → t ≤ t'.
Proof.
  induction 1 as [|[a t] l Hl IH Ha]; [done|]. rewrite first_of_cons.
  destruct (p (a, t)) as [b'|] eqn:Hp.
  - intros [= <-]. exists a, t. split_and!; [by left|done|]. intros a' t' [[= -> ->]|Hin]%elem_of_cons _; [done|].
    rewrite Forall_forall in Ha. specialize (Ha _ Hin). unfold end_le in Ha. by apply Z.leb_le in Ha.
  - intros Hf. destruct (IH Hf) as (a1 & t1 & Hin & Hp1 & Hle). exists a1, t1. split_and!; [by right|done|].
    intros a' t' [[= -> ->]|Hin']%elem_of_cons Hn; [congruence|]. by eapply Hle.
Qed.

Lemma first_of_none {A B} (p : A → option B) l : first_of p l = None ↔ ∀ a, a ∈ l → p a = None.
Proof.
  induction l as [|a l IH]; [split; [by intros _ a ?%elem_of_nil|done]|]. rewrite first_of_cons.
  destruct (p a) eqn:Hp; [split; [done|intros Hn; rewrite (Hn a) in Hp by left; done]|].
  rewrite IH. split; [intros Hl b [->|?]%elem_of_cons; auto|intros Hl b ?; apply Hl; by right].
Qed.

Lemma first_of_sorted {B} (p : node_outcome * Z → option B) results b :
  first_of p (js_sort end_le results) = Some b →
  ∃ a t, (a, t) ∈ results ∧ p (a, t) = Some b ∧ ∀ a' t', (a', t') ∈ results → p (a', t') ≠ None → t ≤ t'.
Proof.
  intros Hf. destruct (first_of_ordered p _ b (js_sort_ordered _ _) Hf) as (a & t & Hin & Hp & Hle).
  exists a, t. rewrite js_sort_elem in Hin. split_and!; [done..|]. intros a' t' Hin'. apply Hle.
  by apply js_sort_elem.
Qed.

Lemma first_of_sorted_none {B} (p : node_outcome * Z → option B) results :
  first_of p (js_sort end_le results) = None → ∀ a, a ∈ results → p a = None.
Proof. rewrite first_of_none. intros Hn a Ha. apply Hn. by apply js_sort_elem. Qed.

(** The decision of [fail-fast]. *)
Definition fail_fast_post (results : list (node_outcome * Z)) (r : fail_fast_result) : Prop :=
  match r with
  | FFPaused g x => ∃ t, (NPaused g x, t) ∈ results ∧
      ∀ g' x' t', (NPaused g' x', t') ∈ results → t ≤ t'
  | FFFailed e => (∀ g x t, (NPaused g x, t) ∉ results) ∧
      ∃ t, (NFailed e, t) ∈ results ∧ ∀ e' t', (NFailed e', t') ∈ results → t ≤ t'
  | FFCancelled => (∀ r, r ∈ results → is_paused r = None ∧ is_failed r = None) ∧ NCancelled ∈ results.*1
  | FFCompleted os => os = results.*1 ∧
      ∀ o, o ∈ os → (∃ v, o = NCompleted v) ∨ o = NSkipped
  end.

Lemma fail_fast_report results : fail_fast_post results (runFailFast results).
Proof.
  unfold runFailFast. rewrite foldl_monitor. simpl.
  destruct (first_of is_paused _) as [[g x]|] eqn:Hp.
  { destruct (first_of_sorted _ _ _ Hp) as (a & t & Hin & Ha & Hle). unfold is_paused in Ha.
    destruct a; try done. injection Ha as -> ->. exists t. split; [done|]. intros g' x' t' Hin'. by eapply Hle. }
  pose proof (first_of_sorted_none _ _ Hp) as Hnp.
  destruct (first_of is_failed _) as [e|] eqn:Hf.
  { split; [by intros g x t Hin%Hnp|].
    destruct (first_of_sorted _ _ _ Hf) as (a & t & Hin & Ha & Hle). unfold is_failed in Ha.
    destruct a; try done. injection Ha as ->. exists t. split; [done|]. intros e' t' Hin'. by eapply Hle. }
  pose proof (first_of_sorted_none _ _ Hf) as Hnf.
  destruct (existsb _ results) eqn:Hc.
  - split; [by auto|]. apply existsb_exists in Hc as (r & Hr & Hrc%bool_decide_eq_true).
    apply list_elem_of_fmap. exists r. split; [done|]. by apply list_elem_of_In.
  - split; [done|]. intros o (r & -> & Hr)%list_elem_of_fmap. specialize (Hnp _ Hr). specialize (Hnf _ Hr).
    unfold is_paused, is_failed in *. destruct (r.1) eqn:Ho; eauto; try done.
    rewrite <- not_true_iff_false, existsb_exists in Hc. destruct Hc. exists r.
    split; [by apply list_elem_of_In|by apply bool_decide_eq_true].
Qed.

(** C31: What [fail-fast] makes of the ends of its branches: a pause wins over a
    failure, and of several pauses or failures the one that happened first; a
    cancelled branch counts only when nothing paused or failed; otherwise the
    outcomes of all branches are returned in branch order. *)
Theorem fail_fast_reports_the_earliest_end results :
  match runFailFast results with
  | FFPaused g x => ∃ t, (NPaused g x, t) ∈ results ∧
      ∀ g' x' t', (NPaused g' x', t') ∈ results → t ≤ t'
  | FFFailed e => (∀ g x t, (NPaused g x, t) ∉ results) ∧
      ∃ t, (NFailed e, t) ∈ results ∧ ∀ e' t', (NFailed e', t') ∈ results → t ≤ t'
  | FFCancelled => (∀ r, r ∈ results → is_paused r = None ∧ is_failed r = None) ∧ NCancelled ∈ results.*1
  | FFCompleted os => os = results.*1 ∧
      ∀ o, o ∈ os → (∃ v, o = NCompleted v) ∨ o = NSkipped
  end.
Proof. apply fail_fast_report. Qed.

(** ** Values a computation can return *)
Definition yields {A} (m : M A) (Q : A → Prop) : Prop := ∀ s a s', m s = (Ok a, s') → Q a.

Lemma yields_ret {A} (a : A) (Q : A → Prop) : Q a → yields (st_ret a) Q.
Proof. intros Ha s a' s' [= <- _]. done. Qed.

Lemma yields_bind {A B} (m : M A) (f : A → M B) (P : A → Prop) (Q : B → Prop) :
  yields m P → (∀ a, P a → yields (f a) Q) → yields (st_bind m f) Q.
Proof.
  intros Hm Hf s b s' Hb. unfold st_bind in Hb. destruct (m s) as [[a|e] s1] eqn:Ha; [|done].
  eapply Hf; [by eapply Hm|exact Hb].
Qed.

Lemma yields_after {A B} (m : M A) (f : A → M B) (Q : B → Prop) :
  (∀ a, yields (f a) Q) → yields (st_bind m f) Q.
Proof. intros Hf. apply (yields_bind m f (λ _, True)); [done|auto]. Qed.

Section outputs.
Context `{Surroundings}.

Lemma run_all_length {A} p i t0 (ms : list (M A)) s : length (run_all p i t0 ms s).1 = length ms.
Proof.
  revert i s. induction ms as [|m ms IH]; intros i s; simpl; [done|].
  destruct (m _) as [r s1]. specialize (IH (S i) s1). destruct (run_all p (S i) t0 ms s1). simpl in *. by rewrite IH.
Qed.

Lemma collect_length {A} (rs : list (outcome halt A * Z)) l : collect_all rs = Ok l → length l = length rs.
Proof.
  revert l. induction rs as [|[[a|e] t] rs IH]; simpl; intros l; [by intros [= <-]| |done].
  destruct (collect_all rs) as [l'|]; [|done]. intros [= <-]. simpl. by rewrite (IH l').
Qed.

Lemma fork_length {A} ctx stop (branches : list (run_ctx → M A)) :
  yields (fork ctx stop branches) (λ l, length l = length branches).
Proof.
  intros s l s'. unfold fork. cbv zeta. set (ctx' := withSignal _ _).
  pose proof (run_all_length (pos s) 0 (now s) (map (λ b, b ctx') branches) s) as Hl.
  destruct (run_all _ _ _ (map (λ b, b ctx') branches) s) as [rs s1]. intros [= <- _].
  by rewrite length_map in Hl.
Qed.

Lemma promise_all_length {A} (rs : list (outcome halt A * Z)) :
  yields (promise_all rs) (λ l, length l = length rs).
Proof.
  intros s l s'. unfold promise_all. destruct (first_rejection rs) as [[m e]|]; [done|].
  intros [= Hc _]. by apply collect_length.
Qed.

Lemma settle_length {A} (cancelled : A) rescue ctx pause rs :
  yields (settle_branches cancelled rescue ctx pause rs) (λ l, length l = length rs).
Proof.
  induction rs as [|be rs IH]; simpl; [by apply yields_ret|].
  apply yields_after. intros x. eapply yields_bind; [exact IH|]. intros xs Hxs. apply yields_ret. simpl. by rewrite Hxs.
Qed.

Lemma join_length {A} (cancelled : A) rescue ctx stop pause branches :
  yields (join_branches cancelled rescue ctx stop pause branches) (λ l, length l = length branches).
Proof.
  unfold join_branches. eapply yields_bind; [apply fork_length|]. intros rs Hrs. rewrite length_map in Hrs.
  rewrite <- Hrs. eapply yields_bind; [apply settle_length|]. intros xs <-. apply promise_all_length.
Qed.

(** What a parallel node may return. *)
Definition parallel_post (m : parallel_mode) (keys : list string) (o : node_outcome) : Prop :=
  match o with
  | NCompleted out => ∃ outcomes, length outcomes = length keys ∧
      out = Some (buildParallelOutput (buildSettledMap keys outcomes) m) ∧
      ∀ x, x ∈ outcomes → paused_outcome x = false ∧
        (m = FailFast → (∃ v, x = NCompleted v) ∨ x = NSkipped)
  | NFailed _ => m = FailFast
  | NSkipped => False
  | NCancelled | NPaused _ _ => True
  end.

(** A parallel node that completes reports one entry per branch, under the
    branch's key and in the declared order, and no branch of it is paused; under
    [all-settled] the node never fails, whatever its branches do, and under
    [fail-fast] it completes only if every branch completed or was skipped. *)
Theorem parallel_nodes_report_every_branch id mode branches ctx c parent ppath :
  yields (executeParallelNode id mode branches ctx c parent ppath)
    (parallel_post (default AllSettled mode) branches.*1).
Proof.
  unfold executeParallelNode. apply yields_after. intros []; [by apply yields_ret|].
  destruct branches as [|b branches].
  { apply yields_ret. exists []. split_and!; [done..|by intros x ?%elem_of_nil]. }
  eapply yields_bind; [apply join_length|]. intros results Hlen. rewrite length_map in Hlen.
  destruct (default AllSettled mode).
  - destruct (List.find paused_outcome results.*1) as [o|] eqn:Hf.
    + apply find_some_elem in Hf as [_ Ho]. apply yields_ret. by destruct o.
    + apply yields_ret. exists results.*1. rewrite !length_fmap. split_and!; [done..|]. intros x Hx. split; [|done].
      apply (List.find_none _ _ Hf). by apply list_elem_of_In.
  - pose proof (fail_fast_report results) as Hff. destruct (runFailFast results); apply yields_ret; [|done..].
    destruct Hff as [-> Hos]. exists results.*1. rewrite !length_fmap. split_and!; [done..|].
    intros x Hx. split; [|by auto]. by destruct (Hos x Hx) as [[v ->]| ->].
Qed.

Definition item_values (o : node_outcome) (items : list json) : Prop :=
  match o with
  | NCompleted out => ∃ settled, out = Some (buildIterateOutput settled) ∧ length settled = length items ∧
      ∀ i, i ∈ settled → item_paused i = false
  | NSkipped => False
  | _ => True
  end.

Lemma run_batch_length id body ctx c parent ppath items :
  yields (run_batch id body ctx c parent ppath items) (λ l, length l = length items).
Proof.
  unfold run_batch. eapply yields_bind; [apply join_length|]. intros xs Hxs. apply yields_ret.
  by rewrite length_fmap, Hxs, length_map.
Qed.

Lemma run_batches_length fuel id body ctx c parent ppath batchSize items :
  yields (run_batches fuel id body ctx c parent ppath batchSize items) (λ l, length l = length items).
Proof.
  revert items. induction fuel as [|fuel IH]; intros items; destruct items as [|i items]; cbn [run_batches];
    [by apply yields_ret|done|by apply yields_ret|].
  apply yields_after. intros []; [by apply yields_ret; rewrite length_map|].
  eapply yields_bind; [apply run_batch_length|]. intros xs Hxs.
  assert (length (i :: items) = length xs + length (drop batchSize (i :: items)))%nat as Hl.
  { rewrite Hxs, length_take, length_drop. lia. }
  destruct (existsb item_paused xs).
  - apply yields_ret. by rewrite length_app, length_map.
  - eapply yields_bind; [apply IH|]. intros ys Hys. apply yields_ret. by rewrite length_app, Hys, Hl.
Qed.

(** An iterate node that completes reports exactly one entry per element of
    its collection, in the order of the collection however the items were batched
    and interleaved, and no item of it is paused. *)
Theorem iterate_nodes_report_every_item id collection body concurrency ctx c parent ppath items :
  evaluateCollection id "iterate" collection c = inl items →
  yields (executeIterateNode id collection body concurrency ctx c parent ppath) (λ o, item_values o items).
Proof.
  intros Hc. unfold executeIterateNode. rewrite Hc. apply yields_after. intros []; [by apply yields_ret|].
  destruct items as [|x items]; [apply yields_ret; by exists []; split_and!; [..|intros i ?%elem_of_nil]|].
  eapply yields_bind with (P := λ l, length l = length (x :: items)).
  { unfold runItemsWithConcurrency. rewrite <- (length_imap (λ i y, (Z.of_nat i, y)) (x :: items)).
    destruct (_ =? 0); [apply run_batch_length|apply run_batches_length]. }
  intros settled Hlen. apply yields_after. intros ab. destruct (ab && _); [by apply yields_ret|].
  destruct (List.find item_paused settled) as [i|] eqn:Hf.
  - apply find_some_elem in Hf as [_ Hp]. destruct i; [done..|]. by apply yields_ret.
  - apply yields_ret. exists settled. split_and!; [done..|]. intros i Hi.
    apply (List.find_none _ _ Hf). by apply list_elem_of_In.
Qed.
End outputs.
