(* ===== verification/NodeReplay.v ===== *)
(** * Redispatch reads back what was executed

    The frame a finished child leaves in storage is all a redispatch needs: from
    it the sequence rebuilds the context the child's execution produced, without
    a step of its own. *)
From S2P Require Import Prelude JsValue Json Workflow RuntimeContext GateNode NodeRuntime NodeFacts.
From S2P Require Import NodeInduction NodeSafety.

Lemma wp_and {A} (m : M A) (P Q : outcome halt A → rt → Prop) s :
  wp m P s → wp m Q s → wp m (λ r s', P r s' ∧ Q r s') s.
Proof. done. Qed.

(** ** Writes that are awaited *)
Section effects.
Context `{Surroundings}.

(** If the computation returns, storage holds the frame. *)
Definition keeps {A} (x : frame_id) (f : frame) (o : outcome halt A) (s : rt) : Prop :=
  ∀ a, o = Ok a → JsMap.get x (stored s) = Some f.

(** No write of the frame is lost silently: storage answers, or the run exits. *)
Definition secure (ctx : run_ctx) (x : frame_id) : Prop := answers_for x ∨ parks ctx = true.

Lemma persist_keeps ctx fid b f s :
  secure ctx fid → frame_object fid s = Some f → frameId f = fid →
  wp (persistFrame ctx fid b) (keeps fid f) s.
Proof.
  intros Hsec Hf Hid. unfold persistFrame. apply wp_bind, wp_asks, wp_bind, wp_asks. rewrite Hf.
  set (r := b || parks ctx).
  assert (drain (frameId f) (enqueue {| fw_at := pos s; fw_required := r; fw_frame := f |} s) =
    persisted r fid s) as Hd by (unfold persisted; by rewrite Hf).
  apply wp_bind, wp_modify, wp_bind. unfold wp at 1. cbv beta. rewrite Hd.
  assert (answers_for fid ∨ (r = true ∧ (persisted r fid s).1 = None) →
    JsMap.get fid (stored (persisted r fid s).2) = Some f) as Hst.
  { intros [Ha|[-> He]].
    - rewrite (persisted_last _ _ _ _ Hf), write_frame_answered by done. simpl. by rewrite decide_True.
    - pose proof (persisted_row fid s f Hf He) as Hr. by rewrite Hid in Hr. }
  destruct (persisted r fid s) as [e s1]. cbn [fst snd] in *. apply wp_bind. unfold wp at 1. simpl.
  assert (parks ctx = true → r = true) as Hr by (intros Hp; unfold r; by rewrite Hp, orb_true_r).
  destruct e as [m|]; [destruct r eqn:Hre; [done|]|]; intros [] _; apply Hst.
  - destruct Hsec as [?|Hp]; [by left|]. by apply Hr in Hp.
  - destruct Hsec as [?|Hp]; [by left|]. right. auto.
Qed.

Lemma emit_keeps e x f s : JsMap.get x (stored s) = Some f → wp (emit e) (keeps x f) s.
Proof. intros Hx [] _. exact Hx. Qed.

Lemma keeps_bind {A B} x f (m : M A) (k : A → M B) s :
  wp m (keeps x f) s → (∀ a s', JsMap.get x (stored s') = Some f → wp (k a) (keeps x f) s') →
  wp (st_bind m k) (keeps x f) s.
Proof.
  intros Hm Hk. apply wp_bind. eapply wp_mono; [exact Hm|]. intros [a|h] s' Hs; [|done].
  apply Hk. by apply (Hs a).
Qed.

Lemma patch_object fid (g : frame → frame) f s :
  (∀ q, ident (g q) = ident q) → frame_object fid s = Some f →
  frame_object fid (patch_frame fid g s) = Some (g f).
Proof.
  intros Hg Hf. rewrite frame_object_patch; [by rewrite decide_True, Hf|].
  intros q. specialize (Hg q). by injection Hg.
Qed.

Lemma patch_persist_keeps ctx fid g f s :
  secure ctx fid → (∀ q, ident (g q) = ident q) → frame_object fid s = Some f → frameId f = fid →
  wp (let* _ := modify (patch_frame fid g) in persistFrame ctx fid false) (keeps fid (g f)) s.
Proof.
  intros Hsec Hg Hf Hid. apply wp_bind, wp_modify. apply persist_keeps; [done|by apply patch_object|].
  specialize (Hg f). injection Hg. congruence.
Qed.

Lemma patch_emit_keeps ctx fid g f (e : frame → effect) s :
  secure ctx fid → (∀ q, ident (g q) = ident q) → frame_object fid s = Some f → frameId f = fid →
  wp (let* _ := modify (patch_frame fid g) in
      let* _ := persistFrame ctx fid false in
      let* o := asks (frame_object fid) in
      match o with Some f => emit (e f) | None => st_ret tt end)
     (keeps fid (g f)) s.
Proof.
  intros Hsec Hg Hf Hid. apply wp_bind, wp_modify. apply keeps_bind.
  - apply persist_keeps; [done|by apply patch_object|]. specialize (Hg f). injection Hg. congruence.
  - intros [] s' Hs'. apply wp_bind, wp_asks. destruct (frame_object fid s'); [by apply emit_keeps|].
    apply wp_ret. by intros a _.
Qed.

Lemma completeFrame_keeps ctx fid o f s :
  secure ctx fid → frame_object fid s = Some f → frameId f = fid →
  wp (completeFrame ctx fid o)
     (keeps fid (with_completed (now s) (with_output o (with_status SCompleted f)))) s.
Proof.
  intros Hsec Hf Hid. unfold completeFrame. apply wp_bind, wp_asks, wp_bind, wp_asks.
  by apply (patch_emit_keeps ctx fid (λ f, with_completed (now s) (with_output o (with_status SCompleted f)))
    f (λ q, FrameCompleted q _)).
Qed.

Lemma skipFrame_keeps ctx fid f s :
  secure ctx fid → frame_object fid s = Some f → frameId f = fid →
  wp (skipFrame ctx fid) (keeps fid (with_completed (now s) (with_status SSkipped f))) s.
Proof.
  intros Hsec Hf Hid. unfold skipFrame. apply wp_bind, wp_asks.
  by apply (patch_persist_keeps ctx fid (λ f, with_completed (now s) (with_status SSkipped f))).
Qed.
End effects.

(** ** The frame of a finished child *)
Definition stands_at (child : node) (parent : option frame_id) (f : frame) : Prop :=
  nodeId f = node_id child ∧ parentFrameId f = parent ∧ iteration f = None ∧ branchKey f = None.

(** Storage holds a frame for the child from which [c'] is rebuilt. *)
Definition recorded (child : node) (parent : option frame_id) (c c' : expr_ctx) (s : rt) : Prop :=
  ∃ f, JsMap.get (frameId f) (stored s) = Some f ∧ stands_at child parent f ∧
    mergeTerminalResumeFrame c child (Some f) = Some c'.

Lemma stands_ident child parent f f' : ident f' = ident f → stands_at child parent f → stands_at child parent f'.
Proof. intros Hi (? & ? & ? & ?). injection Hi as ? ? ? ? ?. split_and!; congruence. Qed.

Section replay.
Context `{run_kind} (σ : signal) (r : nat) (rows listed : list frame).
Context (Rr : resumable r rows) (R : resumable r listed) (Hsub : ∀ f, f ∈ listed → f ∈ rows).
Notation inv := (run_inv σ r rows listed).
Notation Hd := (headed r listed).

(** A frame of a run stays, with its identity. *)
Lemma object_kept s s' x f :
  inv s → inv s' → extends s s' → frame_object x s = Some f →
  ∃ f', frame_object x s' = Some f' ∧ ident f' = ident f.
Proof.
  intros HI HI' [_ He]. unfold frame_object at 1. destruct (JsMap.get x (registry s)) as [f0|] eqn:Hx.
  - intros [= ->]. destruct (ex_registry _ _ He _ _ Hx) as (f' & Hf' & Hi). exists f'.
    unfold frame_object. by rewrite Hf'.
  - intros [Hin Hid%bool_decide_eq_true]%find_some_elem.
    assert (ident f ∈ map ident (resumeFrames s')) as Hin'.
    { rewrite (ex_resume _ _ He). apply list_elem_of_fmap. eauto. }
    apply list_elem_of_fmap in Hin' as (f' & Hi & Hf'). exists f'. split; [|done].
    assert (frameId f' = x) as <- by (injection Hi; congruence). by eapply listed_object.
Qed.

(** A frame that was just settled is recorded. *)
Lemma kept_recorded {A} child parent c c' fid f f' (o : outcome halt A) a s' :
  stands_at child parent f → frameId f = fid → ident f' = ident f →
  mergeTerminalResumeFrame c child (Some f') = Some c' →
  keeps fid f' o s' → o = Ok a → recorded child parent c c' s'.
Proof.
  intros Hst Hid Hi Hm Hk Ho. exists f'. split_and!; [|by eapply stands_ident|done].
  assert (frameId f' = fid) as -> by (injection Hi; congruence). by apply (Hk a).
Qed.

Lemma complete_recorded child parent ctx c fid o f s :
  secure ctx fid → inv s → frame_object fid s = Some f → stands_at child parent f →
  wp (completeFrame ctx fid o)
    (λ v s', ∀ a, v = Ok a → recorded child parent c (mergeFrameOutput c (node_id child) (MergeCompleted o)) s') s.
Proof.
  intros Hsec HI Hf Hst. pose proof (frame_object_id _ _ _ _ _ _ _ HI Hf) as Hid.
  eapply wp_mono; [by apply (completeFrame_keeps ctx fid o f)|]. intros v s' Hk a Ha.
  by eapply (kept_recorded child parent c _ fid f _ v a s' Hst Hid); [..|exact Hk|exact Ha].
Qed.

Lemma skip_recorded child parent ctx c fid f s :
  secure ctx fid → inv s → frame_object fid s = Some f → stands_at child parent f →
  wp (skipFrame ctx fid)
    (λ v s', ∀ a, v = Ok a → recorded child parent c (mergeFrameOutput c (node_id child) MergeSkipped) s') s.
Proof.
  intros Hsec HI Hf Hst. pose proof (frame_object_id _ _ _ _ _ _ _ HI Hf) as Hid.
  eapply wp_mono; [by apply (skipFrame_keeps ctx fid f)|]. intros v s' Hk a Ha.
  by eapply (kept_recorded child parent c _ fid f _ v a s' Hst Hid); [..|exact Hk|exact Ha].
Qed.

(** One step of a sequence: if it goes on, its context can be rebuilt. *)
Definition going_on (child : node) (parent : option frame_id) (c : expr_ctx)
    (o : outcome halt (expr_ctx * option node_outcome)) (s : rt) : Prop :=
  match o with Ok (c', None) => recorded child parent c c' s | _ => True end.

Lemma wp_going_on {A} child parent c (m : M A) (k : A → M (expr_ctx * option node_outcome)) s :
  wp m (λ r s', match r with Ok a => wp (k a) (going_on child parent c) s' | Throw _ => True end) s →
  wp (st_bind m k) (going_on child parent c) s.
Proof. intros Hm. apply wp_bind. eapply wp_mono; [exact Hm|]. by intros [a|e] s'. Qed.

Lemma stops {A} child parent c c' o (m : M A) s :
  wp (let* _ := m in st_ret (c', Some o)) (going_on child parent c) s.
Proof. apply wp_going_on. unfold wp. by destruct (m s) as [[]]. Qed.

Lemma quiet_going_on {A} child parent c (m : M A) (k : A → M (expr_ctx * option node_outcome)) s Q :
  wp m (quiet True inv s Q) s →
  (∀ a s1, inv s1 → extends s s1 → Q a s1 → wp (k a) (going_on child parent c) s1) →
  wp (st_bind m k) (going_on child parent c) s.
Proof.
  intros Hm Hk. apply wp_going_on. eapply wp_mono; [exact Hm|]. intros [a|e] s1 (HI & He & HQ); auto.
Qed.

Lemma check_condition_recorded e kind skips child ctx c ppath parent s :
  (∀ x, secure ctx x) → inv s → allowed (child_params child ppath parent) s →
  wp (check_condition e kind skips child ctx c ppath parent)
     (λ v s', match v with
        | Ok (inl true) => recorded child parent c (mergeFrameOutput c (node_id child) MergeSkipped) s'
        | Ok (inl false) => s' = s
        | _ => True
        end) s.
Proof.
  intros Hsec HI Ha. unfold check_condition. destruct e as [e|]; [|done].
  unfold evaluateConditionExpression. destruct (evaluateNodeCondition e c) as [b|m].
  - apply ret_wp. destruct (skips b); [|done]. set (p := child_params child ppath parent).
    change (wp (let* _ := skipFrame ctx (pos s) in st_ret (inl true : bool + node_outcome)) (λ v s', match v with
        | Ok (inl true) => recorded child parent c (mergeFrameOutput c (node_id child) MergeSkipped) s'
        | Ok (inl false) => s' = s
        | _ => True
        end) (created (parks ctx) p s)).
    apply wp_bind. eapply wp_mono.
    + apply (skip_recorded child parent ctx c (pos s) (new_frame (pos s) p)); [done|by apply inv_created| |done].
      rewrite frame_object_created. by case_decide.
    + intros [[]|x] s' Hs; [by apply (Hs tt)|done].
  - unfold wp, st_bind. destruct (createFrame _ _ s) as [[f|x] s1]; [|done].
    by destruct (failFrame _ _ _ s1) as [[]].
Qed.

(** While storage answers, it holds every frame of the index. *)
Lemma index_answered s g :
  inv s → g ∈ resumeFrames s → answers_for (frameId g) → JsMap.get (frameId g) (stored s) = Some g.
Proof.
  intros HI Hg Ha. pose proof (listed_object _ _ _ _ R _ _ HI Hg) as Ho.
  pose proof (ri_latest _ _ _ _ _ HI _ _ Ho Ha) as Hl. unfold latest in Hl.
  destruct (writes_of (frameId g) (inflight s)) as [|w ws] eqn:Hw; [done|].
  assert (w ∈ writes_of (frameId g) (inflight s)) as Hin by (rewrite Hw; by left).
  apply list_elem_of_filter in Hin as [Hid Hin]. destruct (ri_inflight _ _ _ _ _ HI _ Hin) as [Hown _].
  rewrite Hid in Hown. by destruct (resume_not_own _ _ _ _ R _ _ HI Hg).
Qed.

Section step.
Context (ctx : run_ctx) (Href : refines True σ ctx) (Hsec : ∀ x, secure ctx x).

Definition child_frame_at (child : node) (parent : option frame_id) (existing : option frame) : Prop :=
  match existing with Some f => stands_at child parent f | None => True end.

Lemma child_result_recorded child parent c fid res f s :
  inv s → frame_object fid s = Some f → stands_at child parent f →
  wp (match res with
      | inr e => st_ret (c, Some (NFailed e))
      | inl (NCompleted o) =>
          let* _ := completeFrame ctx fid o in
          st_ret (mergeFrameOutput c (node_id child) (MergeCompleted o), None)
      | inl NSkipped =>
          let* _ := skipFrame ctx fid in
          st_ret (mergeFrameOutput c (node_id child) MergeSkipped, None)
      | inl NCancelled =>
          let* _ := cancelFrame ctx fid in
          st_ret (c, Some NCancelled)
      | inl (NPaused g x) => st_ret (c, Some (NPaused g x))
      | inl (NFailed e) =>
          let* _ := failFrame ctx fid e in
          st_ret (c, Some (NFailed e))
      end) (going_on child parent c) s.
Proof.
  intros HI Hf Hst. destruct res as [[o| | |g x|e]|e]; [| |apply stops|done|apply stops|done].
  - apply wp_going_on. eapply wp_mono; [by eapply complete_recorded|].
    intros [[]|e] s' Hr; [by apply (Hr tt)|done].
  - apply wp_going_on. eapply wp_mono; [by eapply skip_recorded|].
    intros [[]|e] s' Hr; [by apply (Hr tt)|done].
Qed.

Lemma executeSequenceChild_recorded child c ppath parent existing s :
  inv s → reused_or_new (child, executeNode child) ppath parent existing s →
  child_frame_at child parent existing →
  wp (executeSequenceChild (child, executeNode child) ctx c ppath parent existing) (going_on child parent c) s.
Proof.
  intros HI Hex Hat. pose proof (run_inv_closed σ r rows listed Rr R Hsub) as C. unfold executeSequenceChild.
  pose proof (child_frame_did σ inv Hd C _ ctx _ _ _ _ HI Hex) as Hframe.
  assert (wp (match existing with Some f => st_ret f | None => createFrame ctx (child_params child ppath parent) end)
    (λ v s1, ∃ f, v = Ok f ∧ frame_object (frameId f) s1 = Some f ∧ stands_at child parent f) s) as Hobj.
  { destruct existing as [f|].
    - exists f. split_and!; [done| |done]. by apply (listed_object _ _ _ _ R _ _ HI), Hex.
    - exists (new_frame (pos s) (child_params child ppath parent)). split_and!; [done| |done].
      change (frame_object (pos s) (created (parks ctx) (child_params child ppath parent) s) =
        Some (new_frame (pos s) (child_params child ppath parent))).
      rewrite frame_object_created. by case_decide. }
  apply wp_going_on. eapply wp_mono; [apply (wp_and _ _ _ _ Hframe Hobj)|]. clear Hframe Hobj.
  intros [f|e] s1 [Hframe Hobj]; [|done]. simpl in Hframe.
  destruct Hframe as (HI1 & He1 & Hh & Hse & Hst & Hreg). destruct Hobj as (? & [= <-] & Hobj & Hat1).
  apply (aborted_wp ctx). destruct (aborted_at (rsignal ctx) (now s1)) eqn:Hab; [apply stops|].
  eapply quiet_going_on.
  { eapply did_quiet; [reflexivity| |intros a s' _ Hq; exact Hq].
    apply (child_start_did σ inv Hd C ctx existing (frameId f) s s1); try done.
    - by eapply refines_exits.
    - by eapply refines_not_aborted.
    - destruct existing; [by destruct Hreg|done]. }
  intros [] s2 HI2 He2 (_ & _ & Hck). destruct (object_kept _ _ _ _ HI1 HI2 He2 Hobj) as (f2 & Hf2 & Hi2).
  eapply quiet_going_on.
  { pose proof (executeNode_ok True σ inv Hd may_wait_True C child ctx c (frameId f) (path f) s2 Href HI2 Hh) as Hn.
    cbn [fst snd] in Hn. eapply run_body_quiet; [exact C|by eapply refines_exits|exact Hh|]. apply Hn. intros Hl.
    destruct existing; [destruct Hex as (_ & _ & Hl'); simpl in Hl'; congruence|].
    eapply started_ready; [done..|by apply Hck]. }
  intros res s3 HI3 He3 _. destruct (object_kept _ _ _ _ HI2 HI3 He3 Hf2) as (f3 & Hf3 & Hi3).
  eapply child_result_recorded; [done..|]. eapply stands_ident; [|done]. congruence.
Qed.

(** What the index says is finished, storage says too. *)
Definition index_stored (s : rt) : Prop :=
  ∀ g, g ∈ resumeFrames s → replayable g = true → JsMap.get (frameId g) (stored s) = Some g.

Lemma sequence_step_recorded child c ppath parent s :
  inv s → index_stored s →
  wp (sequence_step (child, executeNode child) ctx c ppath parent) (going_on child parent c) s.
Proof.
  intros HI Hix. unfold sequence_step. simpl. apply (aborted_wp ctx). destruct (aborted_at _ _); [done|].
  apply asks_wp. set (f := findSequenceChildResumeFrame child parent s).
  destruct (mergeTerminalResumeFrame c child f) as [c'|] eqn:Hm.
  { unfold f in Hm. destruct (findSequenceChildResumeFrame child parent s) as [g|] eqn:Hf; [|done].
    apply findReusable_spec in Hf as (Hin & ? & ? & Hb & Hi & _). exists g. split_and!; [|done..].
    apply Hix; [done|]. unfold mergeTerminalResumeFrame in Hm. unfold replayable. simpl in Hb, Hi.
    destruct (status g); try done. by rewrite Hb, Hi. }
  pose proof (run_inv_closed σ r rows listed Rr R Hsub) as C.
  pose proof (child_allowed True σ inv Hd may_wait_True C child parent ppath c s Hm) as Ha.
  apply wp_going_on. eapply wp_mono; [by apply check_condition_recorded|].
  intros [[[]|o]|e] s1 Hs1; [done| |done|done]. subst s1.
  apply wp_going_on. eapply wp_mono; [by apply check_condition_recorded|].
  intros [[[]|o]|e] s1 Hs1; [done| |done|done]. subst s1.
  apply executeSequenceChild_recorded; [done|by eapply (existing_frame_ok True σ inv Hd may_wait_True C)|].
  unfold child_frame_at, existing_frame. fold f. destruct f as [g|] eqn:Hg; [|done].
  apply findReusable_spec in Hg as (_ & ? & ? & ? & ? & _). by destruct (_ || _).
Qed.
End step.

(** Replaying is a pure step. *)
Lemma replay_step child exec ctx' c c' ppath parent f s :
  aborted_at (rsignal ctx') (now s) = false →
  findSequenceChildResumeFrame child parent s = Some f →
  mergeTerminalResumeFrame c child (Some f) = Some c' →
  sequence_step (child, exec) ctx' c ppath parent s = (Ok (c', None), s).
Proof.
  intros Ha Hf Hm. unfold sequence_step, st_bind, aborted, asks. simpl. rewrite Ha, Hf, Hm. done.
Qed.
End replay.

(** The state of run [r] of a context, with the rows storage had and the frames
    the run listed. *)
Definition run_state `{Surroundings} (ctx : run_ctx) (r : nat) (rows listed : list frame) (s : rt) : Prop :=
  let K := kind_of ctx in run_inv (rsignal ctx) r rows listed s.

(** C13: A redispatch rebuilds from storage the context a run had: when a child of
    a sequence finished and the sequence went on with context [c'], storage holds
    a frame at the child's place; and in any later run that has not been aborted
    and finds this frame, the same step of the sequence executes nothing, changes
    nothing and goes on with the same [c'].  Storage may fail where the run exits
    at gates, since a write it loses stops the sequence, as long as the finished
    frames of the index are in storage. *)
Theorem finished_children_are_replayed `{Surroundings} r rows listed ctx child c c' ppath parent s s1 :
  resumable r rows → listed = rows ∨ listed = [] → run_state ctx r rows listed s →
  (∀ x, answers_for x) ∨ parks ctx = true ∧ index_stored s →
  sequence_step (child, executeNode child) ctx c ppath parent s = (Ok (c', None), s1) →
  ∃ f, JsMap.get (frameId f) (stored s1) = Some f ∧ stands_at child parent f ∧
    ∀ exec ctx2 ppath2 s2, aborted_at (rsignal ctx2) (now s2) = false →
      findSequenceChildResumeFrame child parent s2 = Some f →
      sequence_step (child, exec) ctx2 c ppath2 parent s2 = (Ok (c', None), s2).
Proof.
  intros Rr HL HI Hst Hrun. unfold run_state in HI. set (K := kind_of ctx) in HI.
  assert (resumable r listed ∧ ∀ f, f ∈ listed → f ∈ rows) as [R Hsub].
  { destruct HL as [->| ->]; [done|]. by apply resumable_nil. }
  assert (index_stored s) as Hix.
  { destruct Hst as [Ha|[_ ?]]; [|done]. intros g Hg _. eapply (index_answered _ r rows listed); eauto. }
  assert (∀ x, secure ctx x) as Hsec by (intros x; destruct Hst as [?|[? _]]; [by left|by right]).
  assert (refines True (rsignal ctx) ctx) as Href by by split_and!.
  pose proof (sequence_step_recorded (rsignal ctx) r rows listed Rr R Hsub ctx Href Hsec child c ppath parent s HI Hix) as Hw.
  unfold wp in Hw. rewrite Hrun in Hw. destruct Hw as (f & Hf & Hat & Hm). exists f. split_and!; [done..|].
  intros. by eapply replay_step.
Qed.
