(* ===== verification/NodeRuns.v ===== *)
(** * Properties of runs of the node interpreter

    What [NodeSafety] gives for the runs of [runRuntimeSequence] that start from
    the frames storage lists, with concrete runs of a small program that
    witness each statement; then redispatches that go wrong, and runs whose storage
    loses writes. *)
From S2P Require Import Prelude JsValue Json Workflow RuntimeContext GateNode NodeRuntime NodeFacts.
From S2P Require Import NodeInduction NodeSafety NodeResults NodeReplay.

(** ** Surroundings for the examples

    Expressions evaluate to true, [items] to a list of three; [fail] is a station
    whose handler throws, [slow] one that takes long; gates get no answer while
    in process; the gate of loops asks for another round, then escalates. *)
Module Demo.
Definition evaluateDemo (e : string) (scope : json) : outcome string (option json) :=
  if decide (e = "items") then Ok (Some (JArr [JNum 1; JNum 2; JNum 3]))
  else if decide (e = "bad") then Throw "boom" else Ok (Some (JBool true)).

Definition handler (id : string) (i : station_input) (t : Z) (a : signal) :
    call_result (outcome string (option json)) :=
  {| cr_value := if decide (id = "fail") then Throw "no" else Ok (Some (JStr id));
     cr_duration := Some (if decide (id = "slow") then 50%nat else 2%nat) |}.

(** With storage that answers the writes of frames and the listing as given. *)
Definition surroundings_with (write : frame_id → frame → storage_reply) (listing : storage_reply) :
    Surroundings := {|
  evaluateSync := evaluateDemo;
  resolveTemplate t s := Ok t;
  ajv_compile j := Ok (λ _, None);
  station_handlers id := Some (handler id);
  delegation _ _ _ _ _ _ := {| cr_value := Ok LeafCancelled; cr_duration := Some 1%nat |};
  runtimeLoopGates _ := Some (λ i c g, if 2 <=? lgc_round g then Ok (LGEscalate "x") else Ok LGLoop);
  gate_responses _ _ _ := [];
  latency _ := 1%nat;
  setFrame := write;
  setSpan _ _ := Answered;
  setGateInstance _ _ := Answered;
  getGateInstance _ _ _ := Answered;
  listFrames _ := listing;
  artifact_query _ _ := Ok [];
  artifact_create _ _ d := Ok (JObj d);
|}.

#[export] Instance surroundings : Surroundings := surroundings_with (λ _ _, Answered) Answered.

Definition station (id : string) : node := Node id None None (Station None).
Definition gate (id : string) : node :=
  Node id None None (Gate {| g_prompt := "?"; g_title := None; g_autoAction := AutoReject;
    g_timeoutMs := None; g_resumeSchema := None |}).

Definition context (a : signal) : run_ctx :=
  {| executionId := "e"; executionAttemptId := None; suspensionStrategy := ExitAndResume; rsignal := a |}.
Definition empty_context : expr_ctx := buildExpressionContext JNull JNull JNull.

Definition unbound : artifact_start :=
  {| as_binding := None; as_ref := None; as_context := JNull |}.

Notation first_run root := (run_from root unbound (context None) empty_context 0 [] [] 0).

(** Every open gate is answered, and the frames in storage are listed for run [r]. *)
Definition answer (rows : list ((string * frame_id) * gate_instance)) :=
  map (λ kg : (string * frame_id) * gate_instance,
    (kg.1, settle_instance GResumed (Some (JStr "yes")) None 5 kg.2)) rows.
Definition listed_after (s : rt) : list frame := JsMap.values (stored s).
Notation next_run root a r s :=
  (run_from root unbound (context a) empty_context 100 (listed_after s) (answer (gates s)) r).


(** A boolean check of [resumable]. *)
Definition resumable_b (r : nat) (listed : list frame) : bool :=
  bool_decide (NoDup (map frameId listed)) && forallb (λ f, negb (bool_decide (own r (frameId f)))) listed &&
  forallb (λ f, forallb (λ g, negb (bool_decide (same_coords f g) && replayable f && live (status g))) listed) listed.

Lemma resumable_check r listed : resumable_b r listed = true → resumable r listed.
Proof.
  unfold resumable_b. rewrite !andb_true_iff, bool_decide_eq_true, !forallb_forall. intros [[Hn Ho] Hc].
  constructor; [done|..].
  - intros f Hf%list_elem_of_In. specialize (Ho _ Hf). apply negb_true_iff, bool_decide_eq_false in Ho. done.
  - intros f g Hf%list_elem_of_In Hg%list_elem_of_In Hs Hr. specialize (Hc _ Hf). rewrite forallb_forall in Hc.
    specialize (Hc _ Hg). apply negb_true_iff in Hc. rewrite bool_decide_true, Hr in Hc by done. done.
Qed.
End Demo.
Import Demo.

Section properties.
Context `{Surroundings}.

(** C2: A frame that storage lists as completed for a redispatch (or as a
    skipped child of a sequence) is read back and never executed again: after the
    run it is stored as it was, no frame of the run stands at its place in the
    tree, and every executor the run called was called for another place. *)
Theorem completed_frames_are_not_executed_again root a ctx c t listed rows r g :
  resumable r listed → parks ctx = true → g ∈ listed → replayable g = true →
  let s := (run_from root a ctx c t listed rows r).2 in
  JsMap.get (frameId g) (stored s) = Some g ∧
  (∀ x f, own r x → JsMap.get x (stored s) = Some f → ¬ same_coords f g) ∧
  (∀ id x u c', Invoked id x u c' ∈ effects s →
     ∃ f, JsMap.get x (stored s) = Some f ∧ nodeId f = id ∧ ¬ same_coords f g).
Proof.
  intros R Hp Hg Hr s.
  destruct (run_from_post True may_wait_True root a ctx c t listed rows r R) as (L & RL & Hsub & HL & HI & _); [done|].
  fold s in HI, HL. specialize (HL Hp).
  assert (∀ x f, own r x → JsMap.get x (stored s) = Some f → ¬ same_coords f g) as Hown.
  { intros x f Ho Hx Hc. destruct (ri_rows _ _ _ _ _ HI _ _ Ho Hx) as [_ (f' & Hf' & Hi) _].
    destruct HL as [->|[Hn _]]; [|by rewrite Hn in Hf'].
    assert (replayable g = false); [|congruence]. apply (ri_created _ _ _ _ _ HI _ _ _ Hf' Hg).
    injection Hi as ? ? ? ? ?. destruct Hc as (? & ? & ? & ?). split_and!; congruence. }
  split_and!; [|done|].
  - apply (ri_untouched _ _ _ _ _ HI); [done|]. intros _. by apply replayable_not_live.
  - intros id x u c' Hin. destruct (ri_invoked _ _ _ _ _ HI _ _ _ _ Hin) as (Ho & (f & Hf & Hid) & Hrow & _).
    specialize (Hrow Hp). unfold row in Hrow. destruct (JsMap.get x (stored s)) as [f'|] eqn:Hx; [|done].
    exists f'. split_and!; [done| |by eapply Hown].
    destruct (ri_rows _ _ _ _ _ HI _ _ Ho Hx) as [_ (f2 & Hf2 & Hi) _]. injection Hi. congruence.
Qed.

(** C12: Once the signal of a run has aborted, no frame of the run starts and no
    executor is called: every start and every call happened before. *)
Theorem nothing_starts_after_abort root a ctx c t listed rows r :
  resumable r listed →
  let s := (run_from root a ctx c t listed rows r).2 in
  (∀ x f u, own r x → JsMap.get x (stored s) = Some f → startedAt f = Some u →
     aborted_at (rsignal ctx) u = false) ∧
  (∀ id x u c', Invoked id x u c' ∈ effects s → aborted_at (rsignal ctx) u = false).
Proof.
  intros R s.
  destruct (run_from_post True may_wait_True root a ctx c t listed rows r R) as (L & _ & _ & _ & HI & _); [done|].
  fold s in HI. split.
  - intros x f u Ho Hx. apply (sn_started _ _ _ _ (ri_rows _ _ _ _ _ HI _ _ Ho Hx)).
  - intros id x u c' Hin. apply (ri_invoked _ _ _ _ _ HI _ _ _ _ Hin).
Qed.

(** C22: When a run returns, none of its frames is left pending, and unless it
    paused at a gate all of them are completed, failed, skipped or cancelled; the
    same holds of the row of every frame whose writes storage answered.  Where the
    run exits at gates, a required write that fails throws and may leave frames
    open, so there storage is to answer. *)
Theorem returned_runs_leave_no_open_frame root a ctx c t listed rows r res :
  resumable r listed → (parks ctx = true → frame_storage_answers) →
  (run_from root a ctx c t listed rows r).1 = Ok res →
  let s := (run_from root a ctx c t listed rows r).2 in
  let closed_frame f := status f ≠ SPending ∧ (paused_result res = false → terminal (status f) = true) in
  (∀ x f, JsMap.get x (registry s) = Some f → closed_frame f) ∧
  (∀ x f, own r x → answers_for x → JsMap.get x (stored s) = Some f → closed_frame f).
Proof.
  intros R Hst Hres s closed_frame.
  destruct (run_from_post True may_wait_True root a ctx c t listed rows r R) as (L & RL & _ & _ & HI & Hend); [done|].
  fold s in HI, Hend. rewrite Hres in Hend.
  assert (∀ x f, JsMap.get x (registry s) = Some f → closed_frame f) as Hreg.
  { apply Hend. intros [Hp Hf]. exact (answers_no_faults (Hst Hp) Hf). }
  split; [done|]. intros x f Ho Ha Hx.
  destruct (ri_rows _ _ _ _ _ HI _ _ Ho Hx) as [_ (f' & Hf' & _) _].
  assert (frame_object x s = Some f') as Hobj by by rewrite (own_frame_object _ _ _ _ RL _ _ HI).
  pose proof (ri_latest _ _ _ _ _ HI _ _ Hobj Ha) as Hl. unfold latest in Hl.
  destruct (last _) as [w|] eqn:Hw.
  - apply last_Some_elem_of, list_elem_of_filter in Hw as [_ Hw].
    destruct (ri_inflight _ _ _ _ _ HI _ Hw) as (_ & Hpend & _). injection Hl as <-. by destruct (Hreg _ _ Hf').
  - rewrite Hx in Hl. injection Hl as ->. by eapply Hreg.
Qed.


End properties.

(** ** Witnesses

    A program that pauses at its gate, redispatched once the gate is answered. *)
Module Witness.
Definition program : list node := [station "a"; gate "g"; station "b"].
Definition paused : rt := Eval vm_compute in (first_run program).2.

(** The frame of [a], completed by the first run. *)
Definition frame_a : frame := Eval vm_compute in hd (new_frame [] (Build_create_params "" TStation [] None None None)) (listed_after paused).

Lemma paused_resumable : resumable 1 (listed_after paused).
Proof. apply resumable_check. vm_compute. exact eq_refl. Qed.

Lemma completed_frames_are_not_executed_again_witness :
  status frame_a = SCompleted ∧
  JsMap.get (frameId frame_a) (stored (next_run program None 1 paused).2) = Some frame_a.
Proof.
  split; [reflexivity|].
  apply (completed_frames_are_not_executed_again program unbound (context None) empty_context 100 (listed_after paused)
    (answer (gates paused)) 1 frame_a paused_resumable eq_refl); [|reflexivity].
  by apply (list_elem_of_lookup_2 _ 0%nat).
Defined.

Lemma nothing_starts_after_abort_witness :
  (next_run program (Some 104) 1 paused).1 = Ok RunCancelled ∧
  (∀ id x u c', Invoked id x u c' ∈ effects (next_run program (Some 104) 1 paused).2 →
     aborted_at (Some 104) u = false).
Proof.
  split; [vm_compute; reflexivity|].
  apply (nothing_starts_after_abort program unbound (context (Some 104)) empty_context 100 (listed_after paused)
    (answer (gates paused)) 1 paused_resumable).
Defined.

Lemma storage_answers : frame_storage_answers.
Proof. done. Qed.

Lemma returned_runs_leave_no_open_frame_witness :
  (next_run program None 1 paused).1 = Ok RunCompleted ∧
  ∀ x f, own 1 x → JsMap.get x (stored (next_run program None 1 paused).2) = Some f → terminal (status f) = true.
Proof.
  assert ((next_run program None 1 paused).1 = Ok RunCompleted) as Hres by (vm_compute; reflexivity).
  split; [exact Hres|]. intros x f Ho Hx.
  exact (proj2 (proj2 (returned_runs_leave_no_open_frame program unbound (context None) empty_context 100
    (listed_after paused) (answer (gates paused)) 1 RunCompleted paused_resumable (λ _, storage_answers) Hres)
    x f Ho (λ _ _ _, eq_refl) Hx) eq_refl).
Defined.




(** The first step of the program. *)
Definition start : rt := initial_state 0 [] [] (start_position 0).
Definition after_a := Eval vm_compute in
  sequence_step (station "a", executeNode (station "a")) (context None) empty_context [] None start.
Definition context_after_a : expr_ctx := Eval vm_compute in
  match after_a.1 with Ok (c, _) => c | _ => empty_context end.

Lemma start_resumable : resumable 0 [].
Proof. apply resumable_check. vm_compute. exact eq_refl. Qed.

Lemma start_state : run_state (context None) 0 [] [] start.
Proof.
  apply (@inv_fresh _ (kind_of (context None)) None 0 [] start start_resumable).
  constructor; try done; [by eexists|by left].
Qed.

Lemma finished_children_are_replayed_witness :
  ∃ f, JsMap.get (frameId f) (stored after_a.2) = Some f ∧
    sequence_step (station "a", executeNode (station "a")) (context None) empty_context [] None
      (set_resumeFrames [f] start) = (Ok (context_after_a, None), set_resumeFrames [f] start).
Proof.
  destruct (finished_children_are_replayed 0 [] [] (context None) (station "a") empty_context context_after_a [] None
    start after_a.2 start_resumable (or_introl eq_refl) start_state (or_introl (λ _ _ _ _, eq_refl)))
    as (f & Hf & Hat & Hre).
  { vm_compute. reflexivity. }
  exists f. split; [exact Hf|]. apply Hre; [reflexivity|].
  destruct Hat as (Hid & Hp & Hi & Hb). unfold findSequenceChildResumeFrame, findReusableResumeFrame, byNodeId.
  assert (status f = SCompleted) as Hs.
  { apply JsMap.get_elem in Hf. unfold after_a in Hf. cbn [snd stored] in Hf.
    apply list_elem_of_singleton, (f_equal snd) in Hf. cbn [snd] in Hf. by rewrite Hf. }
  simpl. rewrite filter_cons_True by done. simpl. unfold matches. simpl.
  by rewrite Hp, Hb, Hi, Hs.
Defined.

Lemma iterate_nodes_report_every_item_witness :
  ∀ s o s', executeIterateNode "it" "items" (runnables [station "a"; station "b"]) (Some 2) (context None) empty_context
    [0; 0]%nat [] s = (Ok o, s') → item_values o [JNum 1; JNum 2; JNum 3].
Proof.
  intros s o s' Hrun.
  assert (evaluateCollection "it" "iterate" "items" empty_context = inl [JNum 1; JNum 2; JNum 3]) as Hc
    by (vm_compute; reflexivity).
  eapply (iterate_nodes_report_every_item "it" "items" (runnables [station "a"; station "b"]) (Some 2) (context None)
    empty_context [0; 0]%nat [] [JNum 1; JNum 2; JNum 3] Hc); exact Hrun.
Defined.
End Witness.

(** ** What redispatch gets wrong *)
Module Redispatch.
(** Branch [x] is interrupted by its gate while [y] is still at work. *)
Definition branches : list node :=
  [Node "par" None None (Parallel None [("x", [station "a"; gate "g"]); ("y", [station "slow"; station "d"])])].
Definition branches_paused : rt := Eval vm_compute in (first_run branches).2.
Definition branches_resumed : outcome halt sequence_result * rt := Eval vm_compute in next_run branches None 1 branches_paused.

Definition frame_where (p : frame → bool) (s : rt) : option frame := List.find p (listed_after s).

(** [extractLastSequenceOutput] looks for the last child of a branch among the
    frames of the current run.  A child that was resumed is none of them: the
    branch completes without the output its last child has. *)
Example resumed_branch_loses_its_output :
  next_run branches None 1 branches_paused = branches_resumed ∧ branches_resumed.1 = Ok RunCompleted ∧
  (λ f, (status f, output f)) <$> frame_where (λ f, bool_decide (nodeId f = "g")) branches_resumed.2 =
    Some (SCompleted, Some (JObj [("resumeData", JStr "yes")])) ∧
  (λ f, (status f, output f)) <$> frame_where (λ f, bool_decide (branchKey f = Some "x")) branches_resumed.2 =
    Some (SCompleted, None).
Proof. vm_compute. split_and!; reflexivity. Qed.

(** A gate inside a nested sequence: the frame of the nested sequence is not
    found again, so every redispatch executes its children once more and opens
    another gate. *)
Definition nested : list node := [Node "sq" None None (Sequence [station "a"; gate "g"])].
Definition calls (id : string) (s : rt) : nat :=
  List.length (List.filter (λ e, match e with Invoked i _ _ _ => bool_decide (i = id) | _ => false end) (effects s)).

Example gate_in_nested_sequence_is_never_passed :
  let run1 := first_run nested in
  let run2 := next_run nested None 1 run1.2 in
  let run3 := next_run nested None 2 run2.2 in
  (calls "a" run1.2, calls "a" run2.2, calls "a" run3.2) = (1%nat, 1%nat, 1%nat) ∧
  (List.length (gates run1.2), List.length (gates run2.2), List.length (gates run3.2)) = (1%nat, 2%nat, 3%nat) ∧
  ∃ x, run3.1 = Ok (RunPaused "g" x) ∧ own 2 x.
Proof. vm_compute. split_and!; [reflexivity..|]. eexists; split; reflexivity. Qed.

(** A loop whose body holds a gate, and that escalates after its second round. *)
Definition escalating : list node :=
  [Node "lp" None None (Loop 3 [station "a"; gate "g"]
    {| lg_handler := "h"; lg_input := None; lg_config := None;
       lg_escalation := Some {| e_title := None; e_prompt := "?"; e_resumeSchema := None;
                                e_autoAction := None; e_timeoutMs := None |} |})].

(** The frame of a resumed loop is not in the registry [updateFrame] looks in:
    raising the escalation gate throws, and the loop fails. *)
Example resumed_loop_cannot_escalate :
  let run1 := first_run escalating in
  let run2 := next_run escalating None 1 run1.2 in
  let run3 := next_run escalating None 2 run2.2 in
  (∃ x, run2.1 = Ok (RunPaused "g" x)) ∧ run3.1 = Ok (RunFailed "Frame not found: frm_0.1").
Proof. vm_compute. split; [eexists; reflexivity|reflexivity]. Qed.
End Redispatch.

(** ** Storage that fails *)
Module Unreliable.
(** Storage refuses the writes of one station's frame in one status. *)
Definition refusing (id : string) (st : frame_status) : Surroundings :=
  surroundings_with (λ _ f,
    if bool_decide (nodeId f = id) && bool_decide (status f = st) then Faulted "disk full" false else Answered)
    Answered.

Definition in_process : run_ctx :=
  {| executionId := "e"; executionAttemptId := None; suspensionStrategy := WaitInProcess; rsignal := None |}.
Definition two_stations : list node := [station "a"; station "b"].
Definition run_with (S : Surroundings) (root : list node) (ctx : run_ctx) :=
  @run_from S root unbound ctx empty_context 0 [] [] 0.
Definition rows (s : rt) : list (string * frame_status) := map (λ f, (nodeId f, status f)) (listed_after s).
Definition frames_of (s : rt) : list (string * frame_status) :=
  map (λ f, (nodeId f, status f)) (JsMap.values (registry s)).

(** A run that exits at gates throws when the write before an executor fails:
    the executor is not called, and the frame of its node stays running. *)
Example lost_checkpoint_stops_the_run :
  let run := run_with (refusing "b" SRunning) two_stations (context None) in
  run.1 = Throw (Raised "disk full") ∧ Redispatch.calls "a" run.2 = 1%nat ∧ Redispatch.calls "b" run.2 = 0%nat ∧
  frames_of run.2 = [("a", SCompleted); ("b", SRunning)] ∧ rows run.2 = [("a", SCompleted); ("b", SPending)].
Proof. vm_compute. split_and!; reflexivity. Qed.

(** In process the failure is logged and the run goes on: the row is stale. *)
Example lost_write_leaves_a_stale_row :
  let run := run_with (refusing "b" SCompleted) two_stations in_process in
  run.1 = Ok RunCompleted ∧ frames_of run.2 = [("a", SCompleted); ("b", SCompleted)] ∧
  rows run.2 = [("a", SCompleted); ("b", SRunning)].
Proof. vm_compute. split_and!; reflexivity. Qed.

(** A write lost inside the body of a branch fails the branch, and under
    [fail-fast] the node.  The write of the branch's own frame makes the branch
    throw: an [all-settled] node throws then, and its own frame fails. *)
Definition forked (m : parallel_mode) : list node :=
  [Node "par" None None (Parallel (Some m) [("x", [station "a"]); ("y", [station "b"])])].

Example lost_write_in_a_branch :
  (run_with (refusing "b" SRunning) (forked FailFast) (context None)).1 = Ok (RunFailed "disk full") ∧
  (run_with (refusing "b" SRunning) (forked AllSettled) (context None)).1 = Ok RunCompleted ∧
  (run_with (refusing "par" SCompleted) (forked AllSettled) (context None)).1 = Ok (RunFailed "disk full").
Proof. vm_compute. split_and!; reflexivity. Qed.

(** Nothing is executed when the frames to resume cannot be listed. *)
Example unlisted_frames_stop_the_run :
  let run := run_with (surroundings_with (λ _ _, Answered) Unhandled) two_stations (context None) in
  run.1 = Throw (Raised "Frame storage handler is required to resume execution 'e'.") ∧ effects run.2 = [].
Proof. vm_compute. split; reflexivity. Qed.

(** Without a handler for frames, a run in process completes and stores nothing. *)
Example no_storage_in_process :
  let run := run_with (surroundings_with (λ _ _, Unhandled) Unhandled) two_stations in_process in
  run.1 = Ok RunCompleted ∧ stored run.2 = [].
Proof. vm_compute. split; reflexivity. Qed.
End Unreliable.
