(* ===== verification/JsonTree.v ===== *)
(** * JSON trees as the artifact code reads them

    [core/contracts/src/shared/json-tree.ts]: own properties, equality of two
    JSON trees by value, and following a property path.  A value that may be
    [undefined] is an [option json].

    [jsonEquals] is proved to decide [Json.same_value], the equality up to the
    order of object members that the canonical serialization decides too. *)
From S2P Require Import Prelude Json.

(** An object is the list of its own members, in their own order. *)
Notation members := (list (string * json)).

(** [Object.hasOwn(object, key) ? Reflect.get(object, key) : undefined]. *)
Definition ownValue (object : members) (key : string) : option json := JsMap.get key object.

Definition isJsonObject (value : json) : bool :=
  match value with JObj _ => true | _ => false end.

Definition as_object (value : option json) : option members :=
  match value with Some (JObj m) => Some m | _ => None end.
Definition as_array (value : option json) : option (list json) :=
  match value with Some (JArr l) => Some l | _ => None end.
Definition as_string (value : option json) : option string :=
  match value with Some (JStr s) => Some s | _ => None end.

Fixpoint readPropertyPath (value : option json) (path : list string) : option json :=
  match path with
  | [] => value
  | key :: path' => m ← as_object value; readPropertyPath (ownValue m key) path'
  end.

(** The two loops of [jsonEquals] are the two inner fixpoints: entry against
    entry, and every own key of the left object against the right object. *)
Fixpoint jsonEquals (left right : json) {struct left} : bool :=
  match left, right with
  | JArr l, JArr r =>
      Nat.eqb (length l) (length r) &&
      (fix entries l r := match l, r with
         | x :: l', y :: r' => jsonEquals x y && entries l' r'
         | _, _ => true end) l r
  | JObj l, JObj r =>
      Nat.eqb (length l) (length r) &&
      (fix keys (l : members) := match l with
         | [] => true
         | (key, x) :: l' => match ownValue r key with
             | Some y => jsonEquals x y && keys l'
             | None => false end
         end) l
  | JNull, JNull => true
  | JBool a, JBool b => bool_decide (a = b)
  | JNum a, JNum b => bool_decide (a = b)
  | JStr a, JStr b => bool_decide (a = b)
  | _, _ => false
  end.

(** [jsonEquals] where either side may be [undefined]: two absent values are
    strictly equal, an absent and a present one are not. *)
Definition equal_values (left right : option json) : bool :=
  match left, right with
  | Some v, Some w => jsonEquals v w
  | None, None => true
  | _, _ => false
  end.

Lemma as_string_Some v s : as_string v = Some s → v = Some (JStr s).
Proof. by destruct v as [[]|]; intros; simplify_eq/=. Qed.
Lemma as_array_Some v l : as_array v = Some l → v = Some (JArr l).
Proof. by destruct v as [[]|]; intros; simplify_eq/=. Qed.
Lemma as_object_Some v m : as_object v = Some m → v = Some (JObj m).
Proof. by destruct v as [[]|]; intros; simplify_eq/=. Qed.

(** ** [jsonEquals] decides equality up to the order of members *)
Lemma jsonEquals_arr l r :
  jsonEquals (JArr l) (JArr r) = true ↔ Forall2 (λ x y, jsonEquals x y = true) l r.
Proof.
  simpl. rewrite andb_true_iff, Nat.eqb_eq. split.
  - intros [Hlen Hall]. revert r Hlen Hall.
    induction l as [|x l IH]; intros [|y r] Hlen Hall; try done.
    apply andb_true_iff in Hall as [Hx Hall]. constructor; [done|]. apply IH; [by injection Hlen|done].
  - intros Hall. split; [by eapply Forall2_length|]. induction Hall; [done|]. by apply andb_true_iff.
Qed.

Lemma jsonEquals_obj l r :
  jsonEquals (JObj l) (JObj r) = true ↔ length l = length r ∧
    Forall (λ kv : string * json, ∃ y, ownValue r kv.1 = Some y ∧ jsonEquals kv.2 y = true) l.
Proof.
  simpl. rewrite andb_true_iff, Nat.eqb_eq. apply and_iff_compat_l. induction l as [|[k x] l IH].
  { split; [intros _; constructor|done]. }
  rewrite Forall_cons. simpl. destruct (ownValue r k) as [y|] eqn:Hy.
  - rewrite andb_true_iff, IH. naive_solver.
  - naive_solver.
Qed.


(** Deleting a member that a duplicate-free object has. *)
Lemma delete_get_perm (m : members) k v :
  NoDup m.*1 → JsMap.get k m = Some v → m ≡ₚ (k, v) :: JsMap.delete k m.
Proof.
  induction m as [|[k' v'] m IH]; simpl; [done|]. intros [Hni Hnd]%NoDup_cons Hg. case_decide as Hk.
  - simplify_eq. f_equiv. rewrite (JsMap.delete_absent k m); [done|]. by apply JsMap.get_None.
  - rewrite (IH Hnd Hg) at 1. by rewrite Permutation_swap.
Qed.

(** An object related to a duplicate-free one member by member, names apart
    from order, is equal to it up to the order of members. *)
Lemma same_value_by_key m : ∀ m', NoDup m.*1 → NoDup m'.*1 → length m = length m' →
  Forall (λ kv : string * json, ∃ y, JsMap.get kv.1 m' = Some y ∧ same_value kv.2 y) m →
  ∃ m1, m' ≡ₚ m1 ∧ Forall2 (λ kv kv' : string * json, kv.1 = kv'.1 ∧ same_value kv.2 kv'.2) m m1.
Proof.
  induction m as [|[k x] m IH]; intros m' Hnd Hnd' Hlen Hall.
  { destruct m'; [|done]. by exists []. }
  apply NoDup_cons in Hnd as [Hni Hnd]. apply Forall_cons in Hall as [(y & Hy & Hxy) Hall]. simpl in Hy, Hxy.
  pose proof (delete_get_perm m' k y Hnd' Hy) as Hp.
  destruct (IH (JsMap.delete k m')) as (m1 & Hm1 & Hf); [done|by apply JsMap.NoDup_keys_delete| |..].
  - apply Permutation_length in Hp. simpl in Hp, Hlen. lia.
  - apply Forall_forall. intros kv Hkv. rewrite Forall_forall in Hall. destruct (Hall kv Hkv) as (z & Hz & Hs).
    exists z. split; [|done]. rewrite JsMap.get_delete_ne; [done|]. intros Heq. apply Hni. rewrite Heq.
    apply list_elem_of_fmap. by exists kv.
  - exists ((k, y) :: m1). split; [by rewrite Hp, Hm1|]. constructor; [done|done].
Qed.

(** Membership form of equality of objects. *)
Lemma same_value_members m m' : NoDup m.*1 → NoDup m'.*1 → same_value (JObj m) (JObj m') →
  length m = length m' ∧ Forall (λ kv : string * json, ∃ y, JsMap.get kv.1 m' = Some y ∧ same_value kv.2 y) m.
Proof.
  intros Hnd Hnd' Hs. inversion Hs as [| | | | |? m1 ? Hp Hf]; subst. split.
  - rewrite (Permutation_length Hp). by eapply Forall2_length.
  - rewrite Hp. apply Forall_forall. intros kv Hkv. destruct (Forall2_elem_l _ _ _ _ Hf Hkv) as ([k' y] & Hin & Hk & Hy).
    exists y. split; [|done]. simpl in *. subst. by apply JsMap.elem_get.
Qed.

(** Equality of wellformed objects, key by key. *)
Lemma same_value_obj m m' : NoDup m.*1 → NoDup m'.*1 →
  same_value (JObj m) (JObj m') ↔ length m = length m' ∧
    Forall (λ kv : string * json, ∃ y, JsMap.get kv.1 m' = Some y ∧ same_value kv.2 y) m.
Proof.
  intros Hnd Hnd'. split; [by apply same_value_members|]. intros [Hlen Hall].
  destruct (same_value_by_key m m' Hnd Hnd' Hlen Hall) as (m1 & Hp & Hf). symmetry in Hp.
  destruct (Forall2_perm_r _ _ _ _ Hf Hp) as (m2 & Hp2 & Hf2). by apply (sv_obj m m2 m').
Qed.

Lemma same_value_arr l r : same_value (JArr l) (JArr r) ↔ Forall2 same_value l r.
Proof. split; [by inversion 1|by constructor]. Qed.

Lemma wf_member m k v : wf_json (JObj m) → ownValue m k = Some v → wf_json v.
Proof.
  intros [_ Hall]%wf_obj_inv Hg%JsMap.get_elem. rewrite Forall_forall in Hall. by apply (Hall (k, v)).
Qed.

(** Two JSON trees are equal under [jsonEquals] exactly when they are the same
    JSON value up to the order of object members at any depth. *)
Theorem json_equals_correct (v w : json) (Hv : wf_json v) (Hw : wf_json w) :
  jsonEquals v w = true ↔ same_value v w.
Proof.
  revert w Hw. induction v as [|b|n|s|l IH|m IH] using json_ind'; intros w Hw;
    try (destruct w; simpl; rewrite ?bool_decide_eq_true;
         (split; [intros; simplify_eq; constructor|by inversion 1])).
  - destruct w as [| | | |r|]; try (split; [done|by inversion 1]). rewrite jsonEquals_arr, same_value_arr.
    apply wf_arr_inv in Hv, Hw. rewrite Forall_forall in IH, Hv, Hw.
    split; intros Hf; (eapply Forall2_impl_elem; [exact Hf|]; intros x y Hx Hy; by apply IH; auto).
  - destruct w as [| | | | |r]; try (split; [done|by inversion 1]).
    pose proof (wf_obj_inv _ Hv) as [Hnd Hall]. pose proof (wf_obj_inv _ Hw) as [Hnd' _].
    rewrite jsonEquals_obj, (same_value_obj _ _ Hnd Hnd'). apply and_iff_compat_l.
    rewrite !Forall_forall in *. split; intros Hf kv Hkv; destruct (Hf kv Hkv) as (y & Hy & Hxy);
      exists y; (split; [done|]); apply (IH kv Hkv (Hall kv Hkv) y); eauto using wf_member.
Qed.

Lemma json_equals_correct_witness :
  jsonEquals (JObj [("a", JNum 1); ("b", JArr [JNull])]) (JObj [("b", JArr [JNull]); ("a", JNum 1)]) = true ↔
  same_value (JObj [("a", JNum 1); ("b", JArr [JNull])]) (JObj [("b", JArr [JNull]); ("a", JNum 1)]).
Proof.
  apply json_equals_correct; repeat constructor; rewrite ?elem_of_cons, ?elem_of_nil; naive_solver.
Defined.

(** Comparing a tree with itself succeeds, duplicate member names or not. *)
Lemma jsonEquals_refl v : wf_json v → jsonEquals v v = true.
Proof.
  intros Hv. apply json_equals_correct; [done|done|]. clear -Hv.
  induction v as [|b|n|s|l IH|m IH] using json_ind'; try by constructor.
  - apply wf_arr_inv in Hv. constructor. induction IH as [|x l Hx IH IHl]; [constructor|].
    apply Forall_cons in Hv as [??]. constructor; auto.
  - pose proof (wf_obj_inv _ Hv) as [Hnd Hall]. apply (sv_obj m m m); [done|].
    clear Hv Hnd. induction IH as [|x l Hx IH IHl]; [constructor|].
    apply Forall_cons in Hall as [??]. constructor; auto.
Qed.
