(* ===== verification/Objects.v ===== *)
(** * JavaScript objects by reference

    The memory the artifact patch engine reads and writes: objects and arrays
    are cells, a value refers to them by location, so two values may share a
    cell.  [structuredClone] copies everything reachable from a value,
    preserving sharing and cycles by its memory map; the readers of
    [core/contracts/src/shared/json-tree.ts] are given on memory here, as
    [JsonTree] gives them on trees.

    [rep h v j S]: under memory [h] the value [v] is the JSON tree [j], whose
    cells are exactly [S], each reached once. *)
From stdpp Require Import gmap.
From S2P Require Import Prelude Json JsonTree.

Notation loc := nat.

(** A value without [undefined]; an absent value is [None]. *)
Inductive hval :=
  | HNull
  | HBool (b : bool)
  | HNum (n : Z)
  | HStr (s : string)
  | HRef (l : loc).

(** What a reference refers to: an object's own members in order, or an
    array's items. *)
Inductive cell :=
  | CObj (own : list (string * hval))
  | CArr (items : list hval).

Notation heap := (gmap loc cell).

(** Cells, and the first location no cell has been allocated at. *)
Record mem := Mem { cells : heap; brk : loc }.

#[export] Instance hval_eq_dec : EqDecision hval.
Proof. solve_decision. Defined.

(** Overwriting the cell at a location; allocating a cell. *)
Definition put (l : loc) (c : cell) (m : mem) : mem := Mem (<[l := c]> (cells m)) (brk m).
Definition alloc (c : cell) (m : mem) : mem := Mem (<[brk m := c]> (cells m)) (S (brk m)).

(** ** Reading *)
Section readers.
Context (h : heap).

Definition object_at (v : option hval) : option (loc * list (string * hval)) :=
  match v with
  | Some (HRef l) => match h !! l with Some (CObj own) => Some (l, own) | _ => None end
  | _ => None
  end.
Definition array_at (v : option hval) : option (loc * list hval) :=
  match v with
  | Some (HRef l) => match h !! l with Some (CArr items) => Some (l, items) | _ => None end
  | _ => None
  end.

(** [for (const key of path) { if (!isJsonObject(current) || !Object.hasOwn(current, key)) return undefined; ... }] *)
Fixpoint readPropertyPath (value : option hval) (path : list string) : option hval :=
  match path with
  | [] => value
  | key :: path' => o ← object_at value; readPropertyPath (JsMap.get key o.2) path'
  end.

(** [list.every(f)], where [f] may exhaust the call stack ([None]). *)
Fixpoint every {A} (f : A → option bool) (l : list A) : option bool :=
  match l with
  | [] => Some true
  | x :: l' => match f x with Some true => every f l' | r => r end
  end.

(** [jsonEquals]; [fuel] bounds the depth of the recursion.  [===] holds of two
    references to the same cell. *)
Fixpoint jsonEquals (fuel : nat) (left right : option hval) : option bool :=
  match fuel with
  | O => None
  | S fuel' =>
      if bool_decide (left = right) then Some true
      else match array_at left, array_at right with
      | Some (_, l), Some (_, r) =>
          if Nat.eqb (length l) (length r)
          then every (λ xy : hval * hval, jsonEquals fuel' (Some xy.1) (Some xy.2)) (zip l r)
          else Some false
      | Some _, None | None, Some _ => Some false
      | None, None =>
          match object_at left, object_at right with
          | Some (_, l), Some (_, r) =>
              if Nat.eqb (length l) (length r)
              then every (λ kv : string * hval, if JsMap.has kv.1 r
                     then jsonEquals fuel' (Some kv.2) (JsMap.get kv.1 r) else Some false) l
              else Some false
          | _, _ => Some false
          end
      end
  end.
End readers.

(** A depth no tree in the memory reaches: one more than its cells. *)
Definition depth_of (m : mem) : nat := S (S (size (cells m))).

Definition equals (m : mem) (left right : option hval) : option bool :=
  jsonEquals (cells m) (depth_of m) left right.

(** ** [structuredClone]

    The algorithm's memory maps the cells already copied to their copies, so a
    cell reached twice is copied once. *)
Notation memo := (gmap loc loc).

Fixpoint copies (f : mem * memo → hval → option (mem * memo * hval)) (st : mem * memo) (vs : list hval)
    : option (mem * memo * list hval) :=
  match vs with
  | [] => Some (st, [])
  | v :: vs' =>
      '(st1, w) ← f st v;
      '(st2, ws) ← copies f st1 vs';
      Some (st2, w :: ws)
  end.

Fixpoint copy (fuel : nat) (st : mem * memo) (v : hval) : option (mem * memo * hval) :=
  match v with
  | HRef l =>
      match st.2 !! l with
      | Some l' => Some (st, HRef l')
      | None =>
          match fuel with
          | O => None
          | S fuel' =>
              let l' := brk st.1 in
              match cells st.1 !! l with
              | Some (CArr items) =>
                  '(st', items') ← copies (copy fuel') (alloc (CArr []) st.1, <[l := l']> st.2) items;
                  Some (put l' (CArr items') st'.1, st'.2, HRef l')
              | Some (CObj own) =>
                  '(st', vals') ← copies (copy fuel') (alloc (CObj []) st.1, <[l := l']> st.2) (own.*2);
                  Some (put l' (CObj (zip own.*1 vals')) st'.1, st'.2, HRef l')
              | None => None
              end
          end
      end
  | _ => Some (st, v)
  end.

Definition structuredClone (m : mem) (v : hval) : option (mem * hval) :=
  '(m', _, w) ← copy (depth_of m) (m, ∅) v; Some (m', w).

(** ** Trees in memory *)
Inductive rep (h : heap) : hval → json → gset loc → Prop :=
  | rep_null : rep h HNull JNull ∅
  | rep_bool b : rep h (HBool b) (JBool b) ∅
  | rep_num n : rep h (HNum n) (JNum n) ∅
  | rep_str s : rep h (HStr s) (JStr s) ∅
  | rep_arr l items js S :
      h !! l = Some (CArr items) → reps h items js S → l ∉ S →
      rep h (HRef l) (JArr js) ({[l]} ∪ S)
  | rep_obj l own m S :
      h !! l = Some (CObj own) → own.*1 = m.*1 → NoDup m.*1 → reps h (own.*2) (m.*2) S → l ∉ S →
      rep h (HRef l) (JObj m) ({[l]} ∪ S)
with reps (h : heap) : list hval → list json → gset loc → Prop :=
  | reps_nil : reps h [] [] ∅
  | reps_cons v vs j js S1 S2 :
      rep h v j S1 → reps h vs js S2 → S1 ## S2 → reps h (v :: vs) (j :: js) (S1 ∪ S2).

Scheme rep_mind := Induction for rep Sort Prop
  with reps_mind := Induction for reps Sort Prop.
Combined Scheme rep_reps_ind from rep_mind, reps_mind.

(** No cell beyond the allocation point. *)
Definition wf_mem (m : mem) : Prop := ∀ l, is_Some (cells m !! l) → (l < brk m)%nat.

Lemma wf_put m l c : wf_mem m → (l < brk m)%nat → wf_mem (put l c m).
Proof. intros Hm Hl k. simpl. rewrite lookup_insert_is_Some. intros [->|[_ Hk]]; [done|by apply Hm]. Qed.
Lemma wf_alloc m c : wf_mem m → wf_mem (alloc c m).
Proof. intros Hm k. simpl. rewrite lookup_insert_is_Some. intros [->|[_ Hk%Hm]]; lia. Qed.

(** A tree only depends on the cells it is made of. *)
Lemma rep_reps_frame h :
  (∀ v j S, rep h v j S → ∀ h', (∀ l, l ∈ S → h' !! l = h !! l) → rep h' v j S) ∧
  (∀ vs js S, reps h vs js S → ∀ h', (∀ l, l ∈ S → h' !! l = h !! l) → reps h' vs js S).
Proof.
  apply rep_reps_ind; try by (intros; constructor).
  - intros l items js S Hl _ IH Hni h' Hag. econstructor; [|by apply IH; set_solver|done]. by rewrite Hag by set_solver.
  - intros l own m S Hl Hk Hnd _ IH Hni h' Hag.
    econstructor; [|done|done|by apply IH; set_solver|done]. by rewrite Hag by set_solver.
  - intros v vs j js S1 S2 _ IH1 _ IH2 Hd h' Hag. constructor; [apply IH1|apply IH2|done]; set_solver.
Qed.
Lemma rep_frame h h' v j S : rep h v j S → (∀ l, l ∈ S → h' !! l = h !! l) → rep h' v j S.
Proof. intros Hr. by apply (proj1 (rep_reps_frame h)). Qed.
Lemma reps_frame h h' vs js S : reps h vs js S → (∀ l, l ∈ S → h' !! l = h !! l) → reps h' vs js S.
Proof. intros Hr. by apply (proj2 (rep_reps_frame h)). Qed.

(** Its cells are allocated. *)
Lemma rep_reps_dom h :
  (∀ v j S, rep h v j S → S ⊆ dom h) ∧ (∀ vs js S, reps h vs js S → S ⊆ dom h).
Proof.
  apply rep_reps_ind; intros; try set_solver.
  - assert (l ∈ dom h) by (by eapply elem_of_dom_2). set_solver.
  - assert (l ∈ dom h) by (by eapply elem_of_dom_2). set_solver.
Qed.
Lemma rep_dom h v j S : rep h v j S → S ⊆ dom h.
Proof. apply rep_reps_dom. Qed.
Lemma reps_dom h vs js S : reps h vs js S → S ⊆ dom h.
Proof. apply rep_reps_dom. Qed.
Lemma rep_brk m v j S l : wf_mem m → rep (cells m) v j S → l ∈ S → (l < brk m)%nat.
Proof. intros Hm Hr%rep_dom Hl. apply Hm. apply elem_of_dom. set_solver. Qed.
Lemma reps_brk m vs js S l : wf_mem m → reps (cells m) vs js S → l ∈ S → (l < brk m)%nat.
Proof. intros Hm Hr%reps_dom Hl. apply Hm. apply elem_of_dom. set_solver. Qed.

Lemma reps_length h vs js S : reps h vs js S → length vs = length js.
Proof. induction 1; simpl; congruence. Qed.

(** The tree a value stands for, and its cells, are determined. *)
Lemma fmap_pair_eq {A B} (m m' : list (A * B)) : m.*1 = m'.*1 → m.*2 = m'.*2 → m = m'.
Proof.
  revert m'. induction m as [|[a b] m IH]; intros [|[a' b'] m'] H1 H2; try done. simpl in *. simplify_eq. f_equal. auto.
Qed.
Lemma rep_reps_det h :
  (∀ v j S, rep h v j S → ∀ j' S', rep h v j' S' → j = j' ∧ S = S') ∧
  (∀ vs js S, reps h vs js S → ∀ js' S', reps h vs js' S' → js = js' ∧ S = S').
Proof.
  apply rep_reps_ind; try by (intros; match goal with H : rep _ _ _ _ |- _ => inversion H | H : reps _ _ _ _ |- _ => inversion H end).
  - intros l items js S Hl _ IH Hni j' S' Hr. inversion Hr as [| | | |? ? js' S1 Hl' Hrs|]; simplify_eq.
    by destruct (IH _ _ Hrs) as [-> ->].
  - intros l own m S Hl Hk Hnd _ IH Hni j' S' Hr. inversion Hr as [| | | | |? ? m' S1 Hl' Hk' Hnd' Hrs]; simplify_eq.
    destruct (IH _ _ Hrs) as [? ->]. split; [|done]. f_equal. apply fmap_pair_eq; congruence.
  - intros v vs j js S1 S2 _ IH1 _ IH2 Hd j' S' Hr. inversion Hr as [|? ? j1 js1 T1 T2 Hr1 Hr2]; subst.
    destruct (IH1 _ _ Hr1) as [-> ->]. by destruct (IH2 _ _ Hr2) as [-> ->].
Qed.
Lemma rep_det h v j j' S S' : rep h v j S → rep h v j' S' → j = j' ∧ S = S'.
Proof. intros H1 H2. by eapply (proj1 (rep_reps_det h)). Qed.

Lemma rep_reps_wf h :
  (∀ v j S, rep h v j S → wf_json j) ∧ (∀ vs js S, reps h vs js S → Forall wf_json js).
Proof.
  apply rep_reps_ind; try by (intros; constructor).
  intros l own m S Hl Hk Hnd _ IH Hni. constructor; [done|]. apply Forall_forall. intros kv Hkv.
  rewrite Forall_forall in IH. apply IH. apply list_elem_of_fmap. by exists kv.
Qed.
Lemma rep_wf h v j S : rep h v j S → wf_json j.
Proof. apply rep_reps_wf. Qed.

(** A child's cells are fewer than its parent's. *)
Lemma reps_elem h vs js S : reps h vs js S →
  Forall2 (λ v j, ∃ Sv, Sv ⊆ S ∧ rep h v j Sv) vs js.
Proof.
  induction 1 as [|v vs j js S1 S2 Hv Hvs IH Hd]; constructor.
  - exists S1. split; [set_solver|done].
  - eapply Forall2_impl; [exact IH|]. intros x y (T & HT & Hr). exists T. split; [set_solver|done].
Qed.

(** ** The readers on a tree *)
Lemma array_at_rep h v j S : rep h v j S → JsonTree.as_array (Some j) = None → array_at h (Some v) = None.
Proof. by destruct 1 as [| | | |l items js S Hl|l own m S Hl]; intros; simplify_eq/=; rewrite ?Hl. Qed.
Lemma object_at_rep h v j S : rep h v j S → JsonTree.as_object (Some j) = None → object_at h (Some v) = None.
Proof. by destruct 1 as [| | | |l items js S Hl|l own m S Hl]; intros; simplify_eq/=; rewrite ?Hl. Qed.

Lemma rep_arr_inv h v js S : rep h v (JArr js) S → ∃ l items S',
  v = HRef l ∧ h !! l = Some (CArr items) ∧ reps h items js S' ∧ l ∉ S' ∧ S = {[l]} ∪ S'.
Proof. inversion 1; subst. naive_solver. Qed.
Lemma rep_obj_inv h v m S : rep h v (JObj m) S → ∃ l own S',
  v = HRef l ∧ h !! l = Some (CObj own) ∧ own.*1 = m.*1 ∧ NoDup m.*1 ∧ reps h (own.*2) (m.*2) S' ∧ l ∉ S' ∧ S = {[l]} ∪ S'.
Proof. inversion 1; subst. naive_solver. Qed.

(** A possibly absent value and a possibly absent tree. *)
Definition repo (h : heap) (v : option hval) (j : option json) : Prop :=
  match v, j with
  | Some v, Some j => ∃ S, rep h v j S
  | None, None => True
  | _, _ => False
  end.

Lemma get_rep h (own : list (string * hval)) (m : list (string * json)) S k : own.*1 = m.*1 → reps h (own.*2) (m.*2) S →
  repo h (JsMap.get k own) (JsMap.get k m).
Proof.
  revert m S. induction own as [|[k1 v] own IH]; intros [|[k2 j] m] S Hk Hrs; try done; simpl in *.
  simplify_eq. inversion Hrs; subst. case_decide; [simpl; by eexists|by eapply IH].
Qed.

Lemma has_rep h (own : list (string * hval)) (m : list (string * json)) S k : own.*1 = m.*1 → reps h (own.*2) (m.*2) S → JsMap.has k own = JsMap.has k m.
Proof.
  intros Hk Hrs. pose proof (get_rep h own m S k Hk Hrs) as Hg. unfold JsMap.has, repo in *. by repeat case_match.
Qed.

Lemma readPropertyPath_rep h path : ∀ v j, repo h v j →
  repo h (readPropertyPath h v path) (JsonTree.readPropertyPath j path).
Proof.
  induction path as [|key path IH]; intros [v|] [j|] Hr; try done. simpl in Hr. destruct Hr as [S Hr].
  destruct (JsonTree.as_object (Some j)) as [m|] eqn:Ho.
  - destruct j; simplify_eq/=. apply rep_obj_inv in Hr as (l & own & S' & -> & Hl & Hk & _ & Hrs & _ & _).
    rewrite Hl. simpl. apply IH. by eapply get_rep.
  - cbn [readPropertyPath JsonTree.readPropertyPath]. by rewrite (object_at_rep h v j S Hr Ho), Ho.
Qed.

(** ** Equality in memory is equality of the trees *)
Lemma every_zip h fuel l r js ks :
  Forall2 (λ v j, ∀ w k T, rep h w k T → jsonEquals h fuel (Some v) (Some w) = Some (JsonTree.jsonEquals j k)) l js →
  Forall2 (λ w k, ∃ T, rep h w k T) r ks → length js = length ks →
  every (λ xy, jsonEquals h fuel (Some xy.1) (Some xy.2)) (zip l r) =
  Some (JsonTree.jsonEquals (JArr js) (JArr ks)).
Proof.
  intros Hl Hr Hlen. simpl. rewrite Hlen, Nat.eqb_refl. simpl. revert r ks Hr Hlen.
  induction Hl as [|v j l js Hv Hl IH]; intros r ks Hr Hlen; destruct Hr as [|w k r ks [T Hw] Hr]; try done.
  simpl. rewrite (Hv w k T Hw). destruct (JsonTree.jsonEquals j k); simpl; [|done]. apply IH; [done|by injection Hlen].
Qed.

Lemma every_members h fuel l r m n S :
  l.*1 = m.*1 → Forall2 (λ v j, ∀ w k T, rep h w k T →
    jsonEquals h fuel (Some v) (Some w) = Some (JsonTree.jsonEquals j k)) (l.*2) (m.*2) →
  r.*1 = n.*1 → reps h (r.*2) (n.*2) S → length m = length n →
  every (λ kv : string * hval, if JsMap.has kv.1 r then jsonEquals h fuel (Some kv.2) (JsMap.get kv.1 r) else Some false) l =
  Some (JsonTree.jsonEquals (JObj m) (JObj n)).
Proof.
  intros Hk Hl Hk' Hr Hlen. simpl. rewrite Hlen, Nat.eqb_refl. simpl. clear Hlen. revert m Hk Hl.
  induction l as [|[k v] l IH]; intros [|[k1 j] m] Hk Hl; try done. simpl in *. inversion Hk; subst.
  apply Forall2_cons in Hl as [Hv Hl]. pose proof (get_rep h r n S k1 Hk' Hr) as Hg.
  unfold JsMap.has, ownValue. destruct (JsMap.get k1 r) as [w|], (JsMap.get k1 n) as [jn|]; simpl in Hg; try done.
  destruct Hg as [T Hw]. rewrite (Hv w jn T Hw). destruct (JsonTree.jsonEquals j jn); simpl; [by apply IH|done].
Qed.

Lemma size_child (l : loc) (S Sv : gset loc) fuel :
  l ∉ S → Sv ⊆ S → (size ({[l]} ∪ S) < Datatypes.S fuel)%nat → (size Sv < fuel)%nat.
Proof.
  intros Hl Hsub Hs. rewrite size_union, size_singleton in Hs by set_solver.
  apply subseteq_size in Hsub. lia.
Qed.

Lemma jsonEquals_rep h : ∀ fuel v j S, rep h v j S → (size S < fuel)%nat → ∀ w k T, rep h w k T →
  jsonEquals h fuel (Some v) (Some w) = Some (JsonTree.jsonEquals j k).
Proof.
  induction fuel as [|fuel IH]; intros v j S Hv Hs w k T Hw; [lia|]. cbn [jsonEquals].
  case_bool_decide as He.
  { simplify_eq. destruct (rep_det _ _ _ _ _ _ Hv Hw) as [-> _]. by rewrite (jsonEquals_refl _ (rep_wf _ _ _ _ Hw)). }
  assert (∀ vs js Sv, reps h vs js Sv → (∀ Sx, Sx ⊆ Sv → (size Sx < fuel)%nat) →
    Forall2 (λ v j, ∀ w k T, rep h w k T →
      jsonEquals h fuel (Some v) (Some w) = Some (JsonTree.jsonEquals j k)) vs js) as Hchildren.
  { intros vs js Sv Hrs%reps_elem Hlt. eapply Forall2_impl; [exact Hrs|]. intros x y (Sx & Hsub & Hx). by eapply IH; eauto. }
  destruct j as [| | | |js|m].
  1-4: rewrite (array_at_rep _ _ _ _ Hv eq_refl), (object_at_rep _ _ _ _ Hv eq_refl);
    inversion Hv; subst; destruct k; inversion Hw; subst; simpl;
    repeat match goal with H : _ !! _ = Some _ |- _ => rewrite H end;
    rewrite ?bool_decide_eq_false_2 by congruence; try done; congruence.
  - apply rep_arr_inv in Hv as (l & items & S' & -> & Hl & Hrs & Hni & ->). simpl array_at at 1. rewrite Hl.
    destruct k as [| | | |ks|n]; try by rewrite (array_at_rep _ _ _ _ Hw eq_refl).
    apply rep_arr_inv in Hw as (l' & items' & T' & -> & Hl' & Hrs' & _ & ->). simpl array_at. rewrite Hl'.
    rewrite (reps_length _ _ _ _ Hrs), (reps_length _ _ _ _ Hrs').
    destruct (Nat.eqb (length js) (length ks)) eqn:Hlen; [|simpl; by rewrite Hlen].
    apply Nat.eqb_eq in Hlen. apply every_zip; [|by eapply Forall2_impl; [by apply reps_elem|]; naive_solver|done].
    apply (Hchildren items js S' Hrs). intros Sx Hx. by eapply size_child.
  - apply rep_obj_inv in Hv as (l & own & S' & -> & Hl & Hk & _ & Hrs & Hni & ->). simpl array_at at 1. simpl object_at at 1. rewrite Hl.
    destruct k as [| | | |ks|n];
      try by rewrite (array_at_rep _ _ _ _ Hw eq_refl), (object_at_rep _ _ _ _ Hw eq_refl).
    { apply rep_arr_inv in Hw as (l' & items' & T' & -> & Hl' & _). simpl. by rewrite Hl'. }
    apply rep_obj_inv in Hw as (l' & own' & T' & -> & Hl' & Hk' & _ & Hrs' & _ & ->). simpl. rewrite Hl'.
    assert (length own = length m) as -> by (by rewrite <- (length_fmap fst own), Hk, length_fmap).
    assert (length own' = length n) as -> by (by rewrite <- (length_fmap fst own'), Hk', length_fmap).
    destruct (Nat.eqb (length m) (length n)) eqn:Hlen; [|done].
    apply Nat.eqb_eq in Hlen. rewrite (every_members h fuel own own' m n T'); [simpl; by rewrite Hlen, Nat.eqb_refl|done| |done..].
    apply (Hchildren (own.*2) (m.*2) S' Hrs). intros Sx Hx. by eapply size_child.
Qed.

Lemma depth_enough m v j S : rep (cells m) v j S → (size S < depth_of m)%nat.
Proof.
  intros Hr%rep_dom. unfold depth_of. apply subseteq_size in Hr. rewrite size_dom in Hr. lia.
Qed.

(** [jsonEquals] in memory, on two trees, does not exhaust the stack and decides
    equality of the trees. *)
Lemma equals_rep m v w j k : repo (cells m) v j → repo (cells m) w k → equals m v w = Some (equal_values j k).
Proof.
  unfold equals. pose proof (depth_enough m) as Hdepth. destruct v as [v|], j as [j|]; try done;
    destruct w as [w|], k as [k|]; try done; cbn [repo equal_values].
  - intros [S Hv] [T Hw]. eapply jsonEquals_rep; eauto.
  - intros _ _. unfold depth_of. simpl. by repeat case_match.
  - intros _ _. unfold depth_of. simpl. by repeat case_match.
Qed.

(** ** Copies of trees *)

(** [m'] extends [m] with cells of its own: nothing allocated before changes,
    and the cells [S] are new. *)
Definition extends (m m' : mem) (S : gset loc) : Prop :=
  wf_mem m' ∧ (brk m ≤ brk m')%nat ∧
  (∀ l, (l < brk m)%nat → cells m' !! l = cells m !! l) ∧
  (∀ l, l ∈ S → (brk m ≤ l < brk m')%nat).

Lemma size_union_l (S1 S2 : gset loc) : (size S1 ≤ size (S1 ∪ S2))%nat.
Proof. apply subseteq_size. set_solver. Qed.
Lemma size_union_r (S1 S2 : gset loc) : (size S2 ≤ size (S1 ∪ S2))%nat.
Proof. apply subseteq_size. set_solver. Qed.

(** A copied sequence of children, put into the cell allocated for them. *)
Lemma extends_parent m c0 m2 c S :
  wf_mem m → extends (alloc c0 m) m2 S → brk m ∉ S ∧ extends m (put (brk m) c m2) ({[brk m]} ∪ S).
Proof.
  intros Hm (Hwf & Hle & Hold & Hnew). simpl in *. split; [intros ?%Hnew; lia|]. split_and!; simpl.
  - apply wf_put; [done|lia].
  - lia.
  - intros l Hl. rewrite lookup_insert_ne by lia. rewrite Hold by lia. simpl. by rewrite lookup_insert_ne by lia.
  - intros l Hl. apply elem_of_union in Hl as [->%elem_of_singleton|Hl%Hnew]; lia.
Qed.

Section copy.
Context (h : heap).

(** What [copy] and [copies] do to a tree whose cells are not in the memo. *)
Definition copies_tree (v : hval) (j : json) (S : gset loc) : Prop :=
  ∀ fuel m μ, (size S < fuel)%nat → wf_mem m → (∀ l, l ∈ S → cells m !! l = h !! l ∧ (l < brk m)%nat ∧ μ !! l = None) →
  ∃ m' μ' w S', copy fuel (m, μ) v = Some (m', μ', w) ∧ rep (cells m') w j S' ∧ extends m m' S' ∧
    (∀ l, l ∉ S → μ' !! l = μ !! l).
Definition copies_trees (vs : list hval) (js : list json) (S : gset loc) : Prop :=
  ∀ fuel m μ, (size S < fuel)%nat → wf_mem m → (∀ l, l ∈ S → cells m !! l = h !! l ∧ (l < brk m)%nat ∧ μ !! l = None) →
  ∃ m' μ' ws S', copies (copy fuel) (m, μ) vs = Some (m', μ', ws) ∧ reps (cells m') ws js S' ∧ extends m m' S' ∧
    (∀ l, l ∉ S → μ' !! l = μ !! l).

Lemma copy_primitive v j : (∀ l, v ≠ HRef l) → (∀ h', rep h' v j ∅) → copies_tree v j ∅.
Proof.
  intros Hv Hr fuel m μ Hs Hm _. exists m, μ, v, ∅. split; [destruct fuel, v; try done; by edestruct Hv|].
  split; [done|]. split; [|done]. split_and!; [done|lia|done|set_solver].
Qed.

(** The children of the cell at [l], copied before the copy of [l] is filled. *)
Lemma copy_children l vs js S c0 fuel m μ :
  copies_trees vs js S → l ∉ S → (size ({[l]} ∪ S) < Datatypes.S fuel)%nat → wf_mem m →
  (∀ k, k ∈ ({[l]} ∪ S) → cells m !! k = h !! k ∧ (k < brk m)%nat ∧ μ !! k = None) →
  ∃ m2 μ2 ws S2, copies (copy fuel) (alloc c0 m, <[l := brk m]> μ) vs = Some (m2, μ2, ws) ∧
    reps (cells m2) ws js S2 ∧ extends (alloc c0 m) m2 S2 ∧ (∀ k, k ∉ ({[l]} ∪ S) → μ2 !! k = μ !! k).
Proof.
  intros Hc Hni Hs Hm HS.
  destruct (Hc fuel (alloc c0 m) (<[l := brk m]> μ)) as (m2 & μ2 & ws & S2 & Hcp & Hrs & Hext & Hμ).
  - by eapply size_child.
  - by apply wf_alloc.
  - intros k Hk. destruct (HS k ltac:(set_solver)) as (H1 & H2 & H3). simpl.
    split_and!; [rewrite lookup_insert_ne by lia; done|lia|rewrite lookup_insert_ne; [done|set_solver]].
  - exists m2, μ2, ws, S2. split_and!; [done..|]. intros k Hk. rewrite Hμ by set_solver.
    rewrite lookup_insert_ne; [done|set_solver].
Qed.

Lemma copy_rep_reps :
  (∀ v j S, rep h v j S → copies_tree v j S) ∧ (∀ vs js S, reps h vs js S → copies_trees vs js S).
Proof.
  apply rep_reps_ind.
  1-4: intros; apply copy_primitive; [done|by constructor].
  - intros l items js S Hl _ IH Hni fuel m μ Hs Hm HS. destruct fuel as [|fuel]; [lia|].
    destruct (HS l ltac:(set_solver)) as (Hcl & _ & Hμl). simpl. rewrite Hμl, Hcl, Hl.
    destruct (copy_children l items js S (CArr []) fuel m μ IH Hni Hs Hm HS)
      as (m2 & μ2 & ws & S2 & Hcp & Hrs & Hext & Hμ).
    rewrite Hcp. simpl. destruct (extends_parent m (CArr []) m2 (CArr ws) S2 Hm Hext) as [Hfr Hx].
    do 4 eexists. split_and!; [done| |exact Hx|done]. econstructor; [apply lookup_insert_eq| |done].
    eapply reps_frame; [exact Hrs|]. intros k Hk. simpl. rewrite lookup_insert_ne; [done|set_solver].
  - intros l own om S Hl Hk Hnd _ IH Hni fuel m μ Hs Hm HS. destruct fuel as [|fuel]; [lia|].
    destruct (HS l ltac:(set_solver)) as (Hcl & _ & Hμl). simpl. rewrite Hμl, Hcl, Hl.
    destruct (copy_children l (own.*2) (om.*2) S (CObj []) fuel m μ IH Hni Hs Hm HS)
      as (m2 & μ2 & ws & S2 & Hcp & Hrs & Hext & Hμ).
    rewrite Hcp. simpl. destruct (extends_parent m (CObj []) m2 (CObj (zip own.*1 ws)) S2 Hm Hext) as [Hfr Hx].
    pose proof (reps_length _ _ _ _ Hrs) as Hlen. rewrite Hk, !length_fmap in *.
    do 4 eexists. split_and!; [done| |exact Hx|done]. econstructor; [apply lookup_insert_eq| |done| |done].
    + rewrite fst_zip; [done|]. rewrite length_fmap. lia.
    + rewrite snd_zip by (rewrite length_fmap; lia).
      eapply reps_frame; [exact Hrs|]. intros k Hk'. simpl. rewrite lookup_insert_ne; [done|set_solver].
  - intros fuel m μ Hs Hm _. exists m, μ, [], ∅. split_and!; [done|constructor| |done].
    split_and!; [done|lia|done|set_solver].
  - intros v vs j js S1 S2 _ IH1 _ IH2 Hd fuel m μ Hs Hm HS.
    destruct (IH1 fuel m μ) as (m1 & μ1 & w & T1 & Hc1 & Hr1 & (Hwf1 & Hle1 & Hold1 & Hnew1) & Hμ1);
      [pose proof (size_union_l S1 S2); lia|done|intros; apply HS; set_solver|].
    destruct (IH2 fuel m1 μ1) as (m2 & μ2 & ws & T2 & Hc2 & Hr2 & (Hwf2 & Hle2 & Hold2 & Hnew2) & Hμ2);
      [pose proof (size_union_r S1 S2); lia|done| |].
    { intros k Hk. destruct (HS k ltac:(set_solver)) as (H1 & H2 & H3).
      split_and!; [by rewrite Hold1|lia|rewrite Hμ1; [done|set_solver]]. }
    exists m2, μ2, (w :: ws), (T1 ∪ T2). simpl. rewrite Hc1. simpl. rewrite Hc2. simpl. split_and!; [done| | |].
    + constructor; [|done|].
      * eapply rep_frame; [exact Hr1|]. intros k Hk%Hnew1. apply Hold2. lia.
      * apply elem_of_disjoint. intros k Hk1%Hnew1 Hk2%Hnew2. lia.
    + split_and!; [done|lia| |].
      * intros k Hk. rewrite Hold2 by lia. by apply Hold1.
      * intros k [Hk%Hnew1|Hk%Hnew2]%elem_of_union; lia.
    + intros k Hk. rewrite Hμ2 by set_solver. apply Hμ1. set_solver.
Qed.
End copy.

(** Cloning a tree returns: a tree equal to it, made of new cells only, and
    nothing that existed is changed. *)
Lemma structuredClone_rep m v j S : wf_mem m → rep (cells m) v j S →
  ∃ m' w S', structuredClone m v = Some (m', w) ∧ rep (cells m') w j S' ∧ extends m m' S'.
Proof.
  intros Hm Hr. destruct (proj1 (copy_rep_reps (cells m)) v j S Hr (depth_of m) m ∅)
    as (m' & μ' & w & S' & Hc & Hr' & Hx & _); [by eapply depth_enough|done| |].
  - intros l Hl. split_and!; [done|by eapply rep_brk|done].
  - exists m', w, S'. unfold structuredClone. rewrite Hc. done.
Qed.
