(* ===== verification/KindPaths.v ===== *)
(** * Declared locations of an artifact kind's data schema

    [core/contracts/src/artifact/kind-paths.ts]: which JSON Schema fragments a
    data-relative location selects, through local references, unions and
    intersections, and the registration checks built on it.

    A schema node is the member list of its object.  The recursion of
    [fieldSchemas] and [combineConjuncts] is bounded by fuel: [None] is a call
    that has not returned within it, [Some None] is [undefined].

    A JSON tree does not carry the identity of its objects; the one place where
    the code compares two with [!==] (array-valued [type]s) goes through the
    class [Identity]. *)
From Stdlib Require Import Ascii.
From S2P Require Import Prelude Json.
From S2P Require Import JsValue JsonTree.

(** Whether two structurally given objects or arrays are the same object. *)
Class Identity := identical : json → json → bool.

(** [v === w] on JSON values. *)
Definition strictly_equal `{Identity} (v w : json) : bool :=
  match v, w with
  | JArr _, JArr _ | JObj _, JObj _ => identical v w
  | _, _ => bool_decide (v = w)
  end.

Definition truthy (v : option json) : bool :=
  match v with
  | None | Some JNull | Some (JBool false) | Some (JNum 0) | Some (JStr "") => false
  | Some _ => true
  end.

(** One schema declaration reachable at an inspected location. *)
Inductive ArtifactSchemaFragment := FBool (b : bool) | FNode (node : members).
Definition fragment_json (f : ArtifactSchemaFragment) : json :=
  match f with FBool b => JBool b | FNode n => JObj n end.

Definition ARTIFACT_COLLECTION_ELEMENT_SEGMENT : string := "[]".
Definition draft_2020_12 : string := "https://json-schema.org/draft/2020-12/schema".

Definition schemaObject (value : option json) : option members := as_object value.

Definition declaresType (node : members) (expected : string) : bool :=
  match ownValue node "type" with
  | Some (JStr t) => bool_decide (t = expected)
  | Some (JArr [JStr t]) => bool_decide (t = expected)
  | _ => false
  end.
(** [declaresType] on a fragment: a boolean schema declares no type. *)
Definition fragmentDeclaresType (f : ArtifactSchemaFragment) (expected : string) : bool :=
  match f with FBool _ => false | FNode n => declaresType n expected end.

Definition applyBooleanReferenceSiblings (target : bool) (siblings : members) : ArtifactSchemaFragment :=
  match siblings with
  | [] => FBool target
  | _ => if target then FNode siblings else FBool false
  end.

(** [s.replace(/~c/g, by)]. *)
Fixpoint replace_token (c by_ : Ascii.ascii) (s : string) : string :=
  match s with
  | String a ((String b s') as rest) =>
      if bool_decide (a = "~"%char ∧ b = c) then String by_ (replace_token c by_ s')
      else String a (replace_token c by_ rest)
  | _ => s
  end.

Fixpoint follow (node : option json) (parts : list string) : option json :=
  match parts with
  | [] => node
  | part :: parts' =>
      let key := replace_token "0"%char "~"%char (replace_token "1"%char "/"%char part) in
      object ← schemaObject node; follow (ownValue object key) parts'
  end.

(** [ref.slice(2)]. *)
Definition slice2 (s : string) : string :=
  match s with String _ (String _ s') => s' | _ => "" end.

Definition resolvePointer (root : members) (ref : string) : option json :=
  if bool_decide (ref = "#") then Some (JObj root)
  else if negb (Str.starts_with ref "#/") then None
  else follow (Some (JObj root)) (Str.split "/"%char (slice2 ref)).

(** [const { [key]: _, ...rest } = node]. *)
Definition without (key : string) (node : members) : members := JsMap.delete key node.

(** [Array.isArray(value) ? value : []]. *)
Definition items_or_empty (value : option json) : list json := default [] (as_array value).

Definition resolveRef (root source : members) : option ArtifactSchemaFragment :=
  match as_string (ownValue source "$ref") with
  | None => None
  | Some ref =>
      let is_2020 := bool_decide (ownValue root "$schema" = Some (JStr draft_2020_12)) in
      let siblings := without "$ref" source in
      match resolvePointer root ref with
      | Some (JBool target) =>
          Some (if is_2020 then applyBooleanReferenceSiblings target siblings else FBool target)
      | target =>
          match schemaObject target with
          | None => None
          | Some schema =>
              if negb is_2020 then Some (FNode schema)
              else match siblings with
                   | [] => Some (FNode schema)
                   | _ => Some (FNode (JsMap.set "allOf"
                            (JArr (JObj siblings :: items_or_empty (ownValue schema "allOf"))) schema))
                   end
          end
      end
  end.

(** Assigning to [__proto__] sets the prototype, not an own property. *)
Definition assign_property (target : members) (key : string) (value : json) : members :=
  if bool_decide (key = "__proto__") then target else JsMap.set key value target.

Definition mergePropertyDeclarations (target source : members) : members :=
  foldl (λ target kv, assign_property target kv.1
    (match ownValue target kv.1 with Some declared => JObj [("allOf", JArr [declared; kv.2])] | None => kv.2 end))
    target source.

Definition requiredProperties (node : members) : list string :=
  omap (λ key, as_string (Some key)) (items_or_empty (ownValue node "required")).

Definition declaredPropertySchema (node : members) (key : string) : option ArtifactSchemaFragment :=
  properties ← schemaObject (ownValue node "properties");
  match ownValue properties key with
  | Some (JBool b) => Some (FBool b)
  | property => FNode <$> schemaObject property
  end.

(** [for (const key of keys) set.add(key)] on an insertion-ordered set. *)
Definition add_all (set keys : list string) : list string :=
  foldl (λ set key, if bool_decide (key ∈ set) then set else set ++ [key]) set keys.

(** What the loop of [combineConjuncts] accumulates. *)
Record conjunction := Conjunction {
  combined : members;
  properties : members;
  required : list string;
}.

Section inspection.
Context `{Identity} (root : members).

(** The two keywords an intersected array keeps from at most one conjunct. *)
Definition keep_item_keyword (branch : members) (key : string) (combined : members) : option members :=
  match ownValue branch key, ownValue combined key with
  | None, _ => Some combined
  | Some v, None => Some (JsMap.set key v combined)
  | Some _, Some _ => None
  end.

Definition keep_type (branch combined : members) : option members :=
  match ownValue branch "type" with
  | None => Some combined
  | Some t =>
      match ownValue combined "type" with
      | Some t' => if strictly_equal t' t then Some (JsMap.set "type" t combined) else None
      | None => Some (JsMap.set "type" t combined)
      end
  end.

(** One round of the loop, on a branch that is neither [undefined] nor a union. *)
Definition add_conjunct (c : conjunction) (branch : members) : option conjunction :=
  combined1 ← keep_type branch (combined c);
  combined2 ← keep_item_keyword branch "items" combined1;
  combined3 ← keep_item_keyword branch "prefixItems" combined2;
  Some {| combined := combined3;
          properties := mergePropertyDeclarations (properties c)
                          (default [] (schemaObject (ownValue branch "properties")));
          required := add_all (required c) (requiredProperties branch) |}.

Fixpoint conjuncts (combine : members → option (option members)) (c : conjunction) (candidates : list json)
    : option (option conjunction) :=
  match candidates with
  | [] => Some (Some c)
  | candidate :: rest =>
      branch ← match schemaObject (Some candidate) with Some object => combine object | None => Some None end;
      match branch with
      | None => Some None
      | Some branch =>
          if truthy (ownValue branch "anyOf") || truthy (ownValue branch "oneOf") then Some None
          else match add_conjunct c branch with
               | Some c' => conjuncts combine c' rest
               | None => Some None
               end
      end
  end.

Definition conjunction_node (c : conjunction) : members :=
  JsMap.set "required" (JArr (map JStr (required c)))
    (JsMap.set "properties" (JObj (properties c)) (combined c)).

Fixpoint combineConjuncts (fuel : nat) (node : members) (refs : list string) : option (option members) :=
  match fuel with
  | O => None
  | S fuel' =>
      match as_string (ownValue node "$ref") with
      | Some ref =>
          if bool_decide (ref ∈ refs) then Some None
          else match resolveRef root node with
               | Some (FNode target) => combineConjuncts fuel' target (refs ++ [ref])
               | _ => Some None
               end
      | None =>
          match as_array (ownValue node "allOf") with
          | None => Some (Some node)
          | Some allOf =>
              c ← conjuncts (λ object, combineConjuncts fuel' object refs) (Conjunction [] [] [])
                    (JObj (without "allOf" node) :: allOf);
              Some (option_map conjunction_node c)
          end
      end
  end.

(** The combined node, and the reference resolved for it. *)
Definition combineUnionBranchNode (base object : members) : members * option string :=
  match as_string (ownValue object "$ref") with
  | None =>
      (JsMap.set "allOf" (JArr (JObj base :: items_or_empty (ownValue object "allOf"))) object, None)
  | Some ref =>
      match resolveRef root object with
      | Some (FNode refTarget) =>
          (JsMap.set "allOf" (JArr (JObj base :: items_or_empty (ownValue refTarget "allOf"))) refTarget, Some ref)
      | _ => ([("allOf", JArr [JObj base; JObj object])], None)
      end
  end.

(** [results.every((result) => result !== undefined) ? results.flatMap(...) : undefined]. *)
Definition all_defined {A} (results : list (option (list A))) : option (list A) :=
  option_map (@List.concat A) (mapM (λ r, r) results).

(** [const unionKey = Array.isArray(node.anyOf) ? 'anyOf' : 'oneOf'], with the
    alternatives where [node[unionKey]] is an array. *)
Definition union_of (node : members) : option (string * list json) :=
  match as_array (ownValue node "anyOf") with
  | Some alternatives => Some ("anyOf", alternatives)
  | None => alternatives ← as_array (ownValue node "oneOf"); Some ("oneOf", alternatives)
  end.

Section fields.
(** The recursive call. *)
Context (field : members → list string → bool → list string → bool → bool →
                 option (option (list ArtifactSchemaFragment))).

Definition fieldSchemasForReference (node : members) (ref : string) (parts : list string) (required : bool)
    (refs : list string) (objectGuaranteed requiredAfterElement : bool) :=
  if bool_decide (ref ∈ refs) then Some None
  else match resolveRef root node with
       | Some (FBool target) => Some (match parts with [] => Some [FBool target] | _ => None end)
       | Some (FNode target) => field target parts required (refs ++ [ref]) objectGuaranteed requiredAfterElement
       | None => Some None
       end.

Definition elementSchemas (node : members) (parts : list string) (required : bool) :=
  if negb (declaresType node "array") then Some None
  else match ownValue node "items" with
       | Some (JBool items) => Some (match parts with [] => Some [FBool items] | _ => None end)
       | items =>
           match schemaObject items with
           | Some item => field item parts required [] false false
           | None => Some None
           end
       end.

Definition childStepSchemas (child : option ArtifactSchemaFragment) (rest : list string)
    (required requiredAfterElement : bool) :=
  match child with
  | Some (FBool b) => Some (match rest with [] => Some [FBool b] | _ => None end)
  | Some (FNode node) => field node rest required [] false requiredAfterElement
  | None => Some None
  end.

Definition unionSchemas (unionKey : string) (alternatives : list json) (node : members) (parts : list string)
    (required : bool) (refs : list string) (objectGuaranteed requiredAfterElement : bool) :=
  results ← mapM (λ branch,
      match schemaObject (Some branch) with
      | None => Some None
      | Some object =>
          let '(combined, ref) := combineUnionBranchNode (without unionKey node) object in
          let branchRefs := match ref with Some ref => refs ++ [ref] | None => refs end in
          field combined parts required branchRefs objectGuaranteed requiredAfterElement
      end) alternatives;
  Some (all_defined results).

(** What is left once references, unions and intersections are resolved. *)
Definition stepSchemas (node : members) (parts : list string) (required objectGuaranteed requiredAfterElement : bool) :=
  match parts with
  | [] => Some (Some [FNode node])
  | key :: rest =>
      if bool_decide (key = ARTIFACT_COLLECTION_ELEMENT_SEGMENT)
      then elementSchemas node rest (required || requiredAfterElement)
      else if negb (declaresType node "object") &&
              negb (bool_decide (ownValue node "type" = None) && objectGuaranteed) then Some None
      else if bool_decide (key = "") || (required && bool_decide (key ∉ requiredProperties node)) then Some None
      else childStepSchemas (declaredPropertySchema node key) rest required requiredAfterElement
  end.
End fields.

Fixpoint fieldSchemas (fuel : nat) (node : members) (parts : list string) (required : bool) (refs : list string)
    (objectGuaranteed requiredAfterElement : bool) : option (option (list ArtifactSchemaFragment)) :=
  match fuel with
  | O => None
  | S fuel' =>
      match as_string (ownValue node "$ref") with
      | Some ref => fieldSchemasForReference (fieldSchemas fuel') node ref parts required refs
                      objectGuaranteed requiredAfterElement
      | None =>
          match union_of node with
          | Some (unionKey, alternatives) =>
              unionSchemas (fieldSchemas fuel') unionKey alternatives node parts required refs
                objectGuaranteed requiredAfterElement
          | None =>
              match as_array (ownValue node "allOf") with
              | Some _ =>
                  combined ← combineConjuncts fuel' node refs;
                  match combined with
                  | Some combined => fieldSchemas fuel' combined parts required refs objectGuaranteed requiredAfterElement
                  | None => Some None
                  end
              | None => stepSchemas (fieldSchemas fuel') node parts required objectGuaranteed requiredAfterElement
              end
          end
      end
  end.

Definition inspectArtifactDataLocation (fuel : nat) (segments : list string) (required requiredAfterElement : bool) :=
  fieldSchemas fuel root segments required [] true requiredAfterElement.

Definition isArtifactDataPathDeclared (fuel : nat) (path : string) : option bool :=
  fragments ← inspectArtifactDataLocation fuel (Str.split dot path) false false;
  Some (match fragments with Some _ => true | None => false end).
End inspection.
