(* ===== verification/JsonSchema.v ===== *)
(** * Conforming data

    What data a JSON Schema admits (draft-7, and draft 2020-12 for the siblings of
    a reference), as far as the inspection of an artifact kind relies on it: a
    validator that admits less satisfies it too.  Nothing here is taken from the
    code of the repository: a reference is a URI fragment, percent-decoded, that
    holds a JSON Pointer (RFC 6901) into the schema resource the reference stands
    in, and an [$id] opens a resource of its own.

    Strings are sequences of Latin-1 code units here; a reference that decodes to
    other characters, names an anchor or another document puts no constraint. *)
From stdpp Require Import pretty.
From Stdlib Require Import Ascii.
From S2P Require Import Prelude Json.
From S2P Require Import JsValue JsonTree.

(** ** References *)
Definition hex_code (c : ascii) : option N :=
  let n := N_of_ascii c in
  (if (48 <=? n) && (n <=? 57) then Some (n - 48) else if (65 <=? n) && (n <=? 70) then Some (n - 55)
   else if (97 <=? n) && (n <=? 102) then Some (n - 87) else None)%N.
Definition hex_byte (h l : ascii) : option N := x ← hex_code h; y ← hex_code l; Some (16 * x + y)%N.

(** UTF-8 of one character in escapes of one or two bytes. *)
Fixpoint percent_decode (s : string) : option string :=
  match s with
  | EmptyString => Some EmptyString
  | String c s1 =>
      if negb (bool_decide (c = "%"%char)) then String c <$> percent_decode s1
      else match s1 with
      | String h (String l s2) =>
          byte ← hex_byte h l;
          if (byte <? 128)%N then String (ascii_of_N byte) <$> percent_decode s2
          else match s2 with
          | String "%" (String h' (String l' s3)) =>
              byte' ← hex_byte h' l';
              if ((194 <=? byte) && (byte <=? 195) && (128 <=? byte') && (byte' <=? 191))%N
              then String (ascii_of_N ((byte - 192) * 64 + (byte' - 128))) <$> percent_decode s3 else None
          | _ => None
          end
      | _ => None
      end
  end.

(** The member or element name a token of a pointer stands for. *)
Fixpoint unescape (token : string) : string :=
  match token with
  | String c ((String d s2) as s1) =>
      if bool_decide (c = "~"%char ∧ d = "0"%char) then String "~" (unescape s2)
      else if bool_decide (c = "~"%char ∧ d = "1"%char) then String "/" (unescape s2)
      else String c (unescape s1)
  | _ => token
  end.

Definition element (token : string) (l : list json) : option json :=
  i ← head (filter (λ i, pretty (N.of_nat i) = token) (seq 0 (length l))); l !! i.

Definition dialect_2020 (root : members) : Prop :=
  ownValue root "$schema" = Some (JStr "https://json-schema.org/draft/2020-12/schema").
#[export] Instance dialect_2020_dec root : Decision (dialect_2020 root).
Proof. unfold dialect_2020. apply _. Defined.

(** The resource a schema stands in, [base] being that of its parent: draft-7
    ignores the [$id] beside a reference. *)
Definition resource (root base : members) (schema : json) : members :=
  match schema with
  | JObj node =>
      if JsMap.has "$ref" node && negb (bool_decide (dialect_2020 root)) then base
      else match ownValue node "$id" with
      | Some (JStr id) => if bool_decide (id = "") || Str.starts_with id "#" then base else node
      | _ => base
      end
  | _ => base
  end.

(** Evaluate a pointer: what it points at, and the resource around that. *)
Fixpoint evaluate (root base : members) (v : json) (tokens : list string) : option (members * json) :=
  match tokens with
  | [] => Some (base, v)
  | token :: tokens' =>
      match v with
      | JObj node => w ← ownValue node (unescape token); evaluate root (resource root base v) w tokens'
      | JArr l => w ← element token l; evaluate root base w tokens'
      | _ => None
      end
  end.

Definition reference (root base : members) (ref : string) : option (members * json) :=
  match ref with
  | String "#" fragment =>
      pointer ← percent_decode fragment;
      match pointer with
      | EmptyString => Some (base, JObj base)
      | String "/" tokens => evaluate root base (JObj base) (Str.split "/"%char tokens)
      | _ => None
      end
  | _ => None
  end.

(** ** Conformance *)

(** The names of a value's type. *)
Definition type_names (d : json) : list string :=
  match d with
  | JNull => ["null"]
  | JBool _ => ["boolean"]
  | JNum _ => ["integer"; "number"]
  | JStr _ => ["string"]
  | JArr _ => ["array"]
  | JObj _ => ["object"]
  end.
Definition has_type (d t : json) : Prop :=
  match t with
  | JStr t => t ∈ type_names d
  | JArr ts => ∃ t, JStr t ∈ ts ∧ t ∈ type_names d
  | _ => True
  end.

(** The keywords of a node without a reference, [C] being conformance. *)
Record keywords (C : json → json → Prop) (d : json) (node : members) : Prop := Keywords {
  kw_type : ∀ t, ownValue node "type" = Some t → has_type d t;
  kw_required : ∀ rs dm k, ownValue node "required" = Some (JArr rs) → JStr k ∈ rs → d = JObj dm → is_Some (ownValue dm k);
  kw_properties : ∀ ps k s dm v, ownValue node "properties" = Some (JObj ps) → (k, s) ∈ ps →
    d = JObj dm → ownValue dm k = Some v → C v s;
  kw_items : ∀ s l v, ownValue node "prefixItems" = None → ownValue node "items" = Some s →
    (∀ l', s ≠ JArr l') → d = JArr l → v ∈ l → C v s;
  kw_allOf : ∀ l s, ownValue node "allOf" = Some (JArr l) → s ∈ l → C d s;
  kw_anyOf : ∀ l, ownValue node "anyOf" = Some (JArr l) → ∃ s, s ∈ l ∧ C d s;
  kw_oneOf : ∀ l, ownValue node "oneOf" = Some (JArr l) → ∃ s, s ∈ l ∧ C d s;
}.

(** [conforms root base d s]: the schema [s] in the resource [base] admits [d].
    Draft-7 ignores the siblings of a reference. *)
Inductive conforms (root : members) : members → json → json → Prop :=
  | conforms_true base d : conforms root base d (JBool true)
  | conforms_ref base d node ref :
      ownValue node "$ref" = Some (JStr ref) →
      (∀ base' target, reference root base ref = Some (base', target) →
         conforms root (resource root base' target) d target) →
      (dialect_2020 root → conforms root base d (JObj (JsMap.delete "$ref" node))) →
      conforms root base d (JObj node)
  | conforms_node base d node :
      (∀ ref, ownValue node "$ref" ≠ Some (JStr ref)) →
      keywords (λ d s, conforms root (resource root base s) d s) d node → conforms root base d (JObj node).

(** The data a schema document admits. *)
Definition admits (root : members) (d : json) : Prop := conforms root root d (JObj root).
