(* ===== verification/KindSchemas.v ===== *)
(** * Declared locations and conforming data

    What [KindPaths.fieldSchemas] promises about data: at a location it selects,
    data that conforms to the schema has a value that conforms to one of the
    selected fragments, and a required location has a value.

    The code looks a reference up in the document, without decoding it and without
    regard to [$id]. [meets] is conformance under that lookup; [JsonSchema.conforms]
    implies it where no reference holds a percent sign and nothing below the root
    has an [$id]. *)
From Stdlib Require Import Ascii.
From S2P Require Import Prelude Json.
From S2P Require Import JsValue JsonTree KindPaths JsonSchema.

(** Conformance with references looked up as the code does. *)
Inductive meets (root : members) : json → json → Prop :=
  | meets_true d : meets root d (JBool true)
  | meets_ref d node ref :
      ownValue node "$ref" = Some (JStr ref) →
      (∀ target, resolvePointer root ref = Some target → meets root d target) →
      (ownValue root "$schema" = Some (JStr draft_2020_12) → meets root d (JObj (without "$ref" node))) →
      meets root d (JObj node)
  | meets_node d node :
      as_string (ownValue node "$ref") = None → keywords (meets root) d node → meets root d (JObj node).

Lemma elem_required node k : k ∈ requiredProperties node ↔ ∃ rs, ownValue node "required" = Some (JArr rs) ∧ JStr k ∈ rs.
Proof.
  unfold requiredProperties, items_or_empty. destruct (ownValue node "required") as [[| | | |l|]|]; simpl;
    try (split; [by intros ?%elem_of_nil|intros (? & ? & _); done]).
  split.
  - intros (v & Hv & Hk)%list_elem_of_omap. destruct v; simpl in Hk; simplify_eq. eauto.
  - intros (rs & [= <-] & Hk). apply list_elem_of_omap. by exists (JStr k).
Qed.
Lemma required_present C d node dm k : keywords C d node → d = JObj dm → k ∈ requiredProperties node → is_Some (ownValue dm k).
Proof. intros Hk Hd (rs & Hrs & Hin)%elem_required. by eapply (kw_required _ _ _ Hk). Qed.
Lemma as_string_None v : as_string v = None ↔ ∀ s, v ≠ Some (JStr s).
Proof. destruct v as [[]|]; simpl; split; try done. intros Hs. by destruct (Hs s). Qed.

Section soundness.
Context `{Identity} (root : members).
Notation meets := (meets root).
Implicit Types (d v s : json) (node base object : members).

Lemma meets_keywords d node : as_string (ownValue node "$ref") = None →
  meets d (JObj node) ↔ keywords meets d node.
Proof.
  intros Href. split; [|by apply meets_node]. inversion 1 as [|? ? ref Hr|]; subst; [|done]. by rewrite Hr in Href.
Qed.

Lemma meets_ref_inv d node ref : ownValue node "$ref" = Some (JStr ref) → meets d (JObj node) →
  (∀ target, resolvePointer root ref = Some target → meets d target) ∧
  (ownValue root "$schema" = Some (JStr draft_2020_12) → meets d (JObj (without "$ref" node))).
Proof.
  intros Href. inversion 1 as [|? ? ref' Hr Ht Hs|? ? Hno]; subst; [|by rewrite Href in Hno].
  rewrite Href in Hr. by simplify_eq.
Qed.

Lemma meets_false d : ¬ meets d (JBool false).
Proof. inversion 1. Qed.

(** Every keyword but [allOf] reads the same in two nodes. *)
Lemma meets_set_allOf d node l : meets d (JObj node) → (∀ s, s ∈ l → meets d s) →
  meets d (JObj (JsMap.set "allOf" (JArr l) node)).
Proof.
  intros Hd. revert l. remember (JObj node) as w eqn:Hw. revert node Hw.
  induction Hd as [|d node0 ref Href Ht IHt Hs IHs|d node0 Href Hk]; intros node Hw l Hl; simplify_eq.
  - eapply meets_ref; [unfold ownValue; rewrite JsMap.get_set_ne by done; exact Href|done|].
    intros H20. specialize (IHs H20 _ eq_refl l Hl). unfold without in *.
    by rewrite JsMap.delete_set_ne by done.
  - apply meets_node; [unfold ownValue in *; by rewrite JsMap.get_set_ne|].
    destruct Hk as [Kt Kr Kp Ki Ka Ky Ko].
    split; unfold requiredProperties, ownValue in *; rewrite ?JsMap.get_set_ne, ?JsMap.get_set_eq by done; try done.
    intros l' s Hl' Hs. simplify_eq. by apply Hl.
Qed.

Lemma meets_without d node key : as_string (ownValue node "$ref") = None → key ≠ "prefixItems" →
  meets d (JObj node) → meets d (JObj (without key node)).
Proof.
  intros Href Hkey Hd%meets_keywords; [|done].
  assert (∀ k w, ownValue (without key node) k = Some w → ownValue node k = Some w) as Hsub.
  { unfold ownValue, without. intros k w. rewrite JsMap.get_delete. by case_decide. }
  apply meets_node.
  - unfold as_string in *. destruct (ownValue (without key node) "$ref") as [w|] eqn:Hw; [|done].
    by rewrite (Hsub _ _ Hw) in Href.
  - destruct Hd as [Kt Kr Kp Ki Ka Ky Ko]. split; eauto.
    + intros s l v Hpre Hitems. apply Ki; [|eauto]. unfold ownValue, without in Hpre.
      rewrite JsMap.get_delete_ne in Hpre by congruence. done.
Qed.

(** The conjuncts of a node's optional [allOf], which a draft-7 reference
    hides. *)
Lemma meets_allOf d node s :
  as_string (ownValue node "$ref") = None ∨ ownValue root "$schema" = Some (JStr draft_2020_12) →
  meets d (JObj node) → s ∈ items_or_empty (ownValue node "allOf") → meets d s.
Proof.
  intros Hor Hd Hin. unfold items_or_empty in Hin.
  destruct (as_array (ownValue node "allOf")) as [l|] eqn:Hall; simpl in Hin; [|by apply elem_of_nil in Hin].
  apply as_array_Some in Hall. destruct (as_string (ownValue node "$ref")) as [ref|] eqn:Hr.
  - destruct Hor as [|H20]; [done|]. apply as_string_Some in Hr as Hr'. destruct (meets_ref_inv d node _ Hr' Hd) as [_ Hsib]. specialize (Hsib H20).
    apply meets_keywords in Hsib; [|unfold ownValue, without; by rewrite JsMap.get_delete_eq].
    eapply kw_allOf; [exact Hsib| |exact Hin]. unfold ownValue, without. by rewrite JsMap.get_delete_ne.
  - apply meets_keywords in Hd; [|done]. by eapply kw_allOf.
Qed.

(** Data conforming to a reference meets to what the reference resolves to. *)
Lemma resolveRef_meets d node ref f : ownValue node "$ref" = Some (JStr ref) →
  meets d (JObj node) → resolveRef root node = Some f → meets d (fragment_json f).
Proof.
  intros Href Hd Hf. destruct (meets_ref_inv d node ref Href Hd) as [Ht Hs].
  unfold resolveRef in Hf. rewrite Href in Hf. simpl in Hf.
  destruct (resolvePointer root ref) as [target|] eqn:Hp; [|done]. specialize (Ht _ eq_refl).
  destruct target as [|b| | | |schema]; try done; simpl in Hf; case_bool_decide as H20; simpl in Hf; simplify_eq; try done.
  - unfold applyBooleanReferenceSiblings. destruct (without "$ref" node) as [|kv siblings] eqn:Hw; [done|].
    destruct b; [by apply Hs|by apply meets_false in Ht].
  - destruct (without "$ref" node) as [|kv siblings] eqn:Hw; simplify_eq; [done|].
    apply meets_set_allOf; [done|]. intros s [->|Hin]%elem_of_cons; [by apply Hs|].
    eapply meets_allOf; eauto.
Qed.

(** ** Intersections *)

(** What the loop has accumulated holds of the data. *)
Record conjunction_holds (d : json) (c : conjunction) : Prop := ConjunctionHolds {
  ch_keys : ∀ k v, ownValue (combined c) k = Some v → k = "type" ∨ k = "items" ∨ k = "prefixItems";
  ch_type : ∀ t, ownValue (combined c) "type" = Some t → has_type d t;
  ch_items : ∀ s l v, ownValue (combined c) "prefixItems" = None → ownValue (combined c) "items" = Some s →
    (∀ l', s ≠ JArr l') → d = JArr l → v ∈ l → meets v s;
  ch_properties : ∀ k s dm v, (k, s) ∈ properties c → d = JObj dm → ownValue dm k = Some v → meets v s;
  ch_required : ∀ dm k, d = JObj dm → k ∈ required c → is_Some (ownValue dm k);
}.

Lemma conjunction_meets d c : conjunction_holds d c → meets d (JObj (conjunction_node c)).
Proof.
  intros [Hkeys Ht Hi Hp Hr]. assert (∀ k, k ≠ "required" → k ≠ "properties" →
    ownValue (conjunction_node c) k = ownValue (combined c) k) as Hget.
  { intros k H1 H2. unfold ownValue, conjunction_node. by rewrite !JsMap.get_set_ne. }
  assert (∀ k, k ≠ "required" → k ≠ "properties" → k ≠ "type" → k ≠ "items" → k ≠ "prefixItems" →
    ownValue (conjunction_node c) k = None) as Hnone.
  { intros k H1 H2 H3 H4 H5. rewrite Hget by done. destruct (ownValue (combined c) k) eqn:Hk; [|done].
    apply Hkeys in Hk. naive_solver. }
  apply meets_node; [by rewrite Hnone|]. split.
  - intros t. rewrite Hget by done. apply Ht.
  - intros rs dm k. unfold conjunction_node, ownValue at 1. rewrite JsMap.get_set_eq. intros Hrs Hk Hd.
    injection Hrs as <-. apply (Hr dm k Hd). by apply list_elem_of_fmap in Hk as (r & [= <-] & Hk).
  - intros ps k s dm v. unfold conjunction_node, ownValue at 1. rewrite JsMap.get_set_ne, JsMap.get_set_eq by done.
    intros Heq. injection Heq as <-. apply Hp.
  - intros s l v. rewrite !Hget by done. apply Hi.
  - intros l s. by rewrite Hnone.
  - intros l. by rewrite Hnone.
  - intros l. by rewrite Hnone.
Qed.

Lemma elem_of_set k v (m : members) k' v' : (k', v') ∈ JsMap.set k v m → (k' = k ∧ v' = v) ∨ (k', v') ∈ m.
Proof.
  induction m as [|[k1 v1] m IH]; simpl.
  - intros Hin%list_elem_of_singleton. simplify_eq. by left.
  - case_decide; rewrite !elem_of_cons; [subst|]; naive_solver.
Qed.

Lemma mergePropertyDeclarations_holds d source : ∀ target,
  (∀ k s dm v, (k, s) ∈ target → d = JObj dm → ownValue dm k = Some v → meets v s) →
  (∀ k s dm v, (k, s) ∈ source → d = JObj dm → ownValue dm k = Some v → meets v s) →
  ∀ k s dm v, (k, s) ∈ mergePropertyDeclarations target source → d = JObj dm →
    ownValue dm k = Some v → meets v s.
Proof.
  unfold mergePropertyDeclarations. induction source as [|[k1 s1] source IH]; intros target Ht Hs; simpl; [exact Ht|].
  apply IH; [|intros k s dm v Hin; apply (Hs k s dm v); by right]. intros k s dm v Hk Hd Hv. revert Hk.
  unfold assign_property. case_bool_decide; [intros; by eapply Ht|]. intros [[-> ->]|Hin]%elem_of_set; [|by eapply Ht].
  assert (meets v s1) as Hs1. { eapply (Hs k1 s1); [by left|done|done]. }
  destruct (ownValue target k1) as [declared|] eqn:Hdec; [|done].
  apply meets_node; [done|]. split; try done.
  - intros l s Hl Hin. simpl in Hl. simplify_eq.
    apply elem_of_cons in Hin as [->|Hin]; [|by apply list_elem_of_singleton in Hin as ->].
    eapply Ht; [by apply JsMap.get_elem|done|done].
Qed.

Lemma elem_of_add_all k keys : ∀ set, k ∈ add_all set keys → k ∈ set ∨ k ∈ keys.
Proof.
  unfold add_all. induction keys as [|k1 keys IH]; intros set Hk; simpl in *; [by left|].
  apply IH in Hk as [Hk|Hk]; [|right; by right]. case_bool_decide; [by left|].
  apply elem_of_app in Hk as [Hk|Hk%list_elem_of_singleton]; [by left|right; subst; by left].
Qed.

Lemma add_conjunct_holds d c branch c' : conjunction_holds d c → keywords meets d branch →
  add_conjunct c branch = Some c' → conjunction_holds d c'.
Proof.
  intros [Hkeys Ht Hi Hp Hr] [Kt Kr Kp Ki _ _ _] Hadd. unfold add_conjunct in Hadd.
  destruct (keep_type branch (combined c)) as [c1|] eqn:E1; [|done]. simpl in Hadd.
  destruct (keep_item_keyword branch "items" c1) as [c2|] eqn:E2; [|done]. simpl in Hadd.
  destruct (keep_item_keyword branch "prefixItems" c2) as [c3|] eqn:E3; [|done]. simpl in Hadd. simplify_eq. simpl.
  assert (Hc1 : ∀ k, ownValue c1 k = if decide (k = "type") then
      (match ownValue branch "type" with Some t => Some t | None => ownValue (combined c) "type" end)
      else ownValue (combined c) k).
  { unfold keep_type in E1. intros k. destruct (ownValue branch "type") as [t|] eqn:Hbt; simplify_eq;
      [|case_decide; by subst]. unfold ownValue in *.
    destruct (JsMap.get "type" (combined c)) as [t'|] eqn:Hct; [destruct (strictly_equal t' t); [|done]|]; simplify_eq;
      rewrite JsMap.get_set; repeat case_decide; congruence. }
  assert (Hkeep : ∀ key c0 c1, keep_item_keyword branch key c0 = Some c1 →
    ∀ k, ownValue c1 k = if decide (k = key) then
      (match ownValue branch key with Some t => Some t | None => ownValue c0 key end) else ownValue c0 k).
  { intros key c0 c1' Hk k. unfold keep_item_keyword in Hk. destruct (ownValue branch key) as [t|]; simplify_eq;
      [|case_decide; by subst]. unfold ownValue in *.
    destruct (JsMap.get key c0) as [t'|]; simplify_eq. rewrite JsMap.get_set. repeat case_decide; congruence. }
  pose proof (Hkeep _ _ _ E2) as Hc2. pose proof (Hkeep _ _ _ E3) as Hc3. clear Hkeep E1 E2 E3.
  split; simpl.
  - intros k v. rewrite Hc3. case_decide; [auto|]. rewrite Hc2. case_decide; [auto|]. rewrite Hc1. case_decide; [auto|].
    apply Hkeys.
  - intros t. rewrite Hc3, decide_False, Hc2, decide_False, Hc1, decide_True by done.
    destruct (ownValue branch "type") as [t'|] eqn:Hb; [intros; simplify_eq; by apply Kt|apply Ht].
  - intros s l v. rewrite Hc3, decide_True, Hc2, decide_False, Hc1, decide_False by done.
    rewrite Hc3, decide_False, Hc2, decide_True by done. rewrite Hc1, decide_False by done.
    destruct (ownValue branch "prefixItems") eqn:Hbp; [done|]. intros Hpre.
    destruct (ownValue branch "items") as [s'|] eqn:Hbi; [intros; simplify_eq; by eapply Ki|by apply Hi].
  - intros k s dm v. apply mergePropertyDeclarations_holds; [exact Hp|]. intros k1 s1 dm1 v1 Hin.
    destruct (schemaObject (ownValue branch "properties")) as [ps|] eqn:Hbp; [|by apply elem_of_nil in Hin].
    apply as_object_Some in Hbp. by eapply Kp.
  - intros dm k Hd [Hk|Hk]%elem_of_add_all; [by apply (Hr dm)|].
    apply elem_required in Hk as (rs & Hrs & Hk). by eapply Kr.
Qed.

Lemma conjuncts_hold d combine candidates : ∀ c c',
  (∀ object branch, meets d (JObj object) → combine object = Some (Some branch) →
    as_string (ownValue branch "$ref") = None ∧ meets d (JObj branch)) →
  conjunction_holds d c → (∀ s, s ∈ candidates → meets d s) →
  conjuncts combine c candidates = Some (Some c') → conjunction_holds d c'.
Proof.
  induction candidates as [|s candidates IH]; intros c c' Hcomb Hc Hs Hrun; simpl in Hrun; [by simplify_eq|].
  destruct s as [| | | | |object]; try done. simpl in Hrun.
  destruct (combine object) as [[branch|]|] eqn:Hb; try done. simpl in Hrun.
  destruct (truthy _ || truthy _); [done|]. destruct (add_conjunct c branch) as [c1|] eqn:Hadd; [|done].
  destruct (Hcomb object branch (Hs _ ltac:(left)) Hb) as [Href Hd].
  eapply (IH c1 c'); [done| |intros; apply Hs; by right|done].
  eapply add_conjunct_holds; [exact Hc| |exact Hadd]. by apply meets_keywords.
Qed.

Lemma conjunction_empty d : conjunction_holds d (Conjunction [] [] []).
Proof. split; simpl; try done; intros; by match goal with H : _ ∈ [] |- _ => apply elem_of_nil in H end. Qed.

Lemma combineConjuncts_meets d : ∀ fuel node refs node', meets d (JObj node) →
  combineConjuncts root fuel node refs = Some (Some node') →
  as_string (ownValue node' "$ref") = None ∧ meets d (JObj node').
Proof.
  induction fuel as [|fuel IH]; intros node refs node' Hd Hrun; [done|]. cbn [combineConjuncts] in Hrun.
  destruct (as_string (ownValue node "$ref")) as [ref|] eqn:Href.
  - case_bool_decide; [done|]. destruct (resolveRef root node) as [[|target]|] eqn:Hres; try done.
    eapply IH; [|exact Hrun]. apply as_string_Some in Href as Href'.
    by apply (resolveRef_meets d node ref (FNode target)).
  - destruct (as_array (ownValue node "allOf")) as [allOf|] eqn:Hall; [|by simplify_eq].
    match type of Hrun with (?x ≫= _) = _ => destruct x as [[c|]|] eqn:Hc; try done end. simpl in Hrun. simplify_eq.
    assert (conjunction_holds d c) as Hch.
    { eapply conjuncts_hold; [|apply conjunction_empty| |exact Hc].
      - intros object branch Ho Hb. by apply (IH object refs).
      - intros s [->|Hin]%elem_of_cons; [by apply meets_without|].
        apply (meets_allOf d node); [by left|done|]. unfold items_or_empty. by rewrite Hall. }
    split; [|by apply conjunction_meets]. destruct (ownValue (conjunction_node c) "$ref") as [v|] eqn:Hv; [|done].
    unfold ownValue, conjunction_node in Hv. rewrite !JsMap.get_set_ne in Hv by done.
    by apply (ch_keys _ _ Hch) in Hv as [?|[?|?]].
Qed.

(** ** Locations *)

(** What the inspection of a location promises of conforming data: the value
    there, if any, meets to a selected fragment, which is no reference; a
    required one exists. *)
Definition plain_fragment (f : ArtifactSchemaFragment) : Prop :=
  match f with FBool _ => True | FNode n => as_string (ownValue n "$ref") = None end.
Definition location_holds (d : json) (parts : list string) (required : bool) (fragments : list ArtifactSchemaFragment) : Prop :=
  (∀ v, readPropertyPath (Some d) parts = Some v → ∃ f, f ∈ fragments ∧ plain_fragment f ∧ meets v (fragment_json f)) ∧
  (required = true → is_Some (readPropertyPath (Some d) parts)).

Lemma location_here d required f : plain_fragment f → meets d (fragment_json f) → location_holds d [] required [f].
Proof. intros Hf Hd. split; [|by exists d]. intros v Hv. simpl in Hv. simplify_eq. exists f. split; [by left|done]. Qed.

Lemma location_mono d parts required fs fs' :
  location_holds d parts required fs → (∀ f, f ∈ fs → f ∈ fs') → location_holds d parts required fs'.
Proof. intros [H1 H2] Hsub. split; [|done]. intros v Hv. destruct (H1 v Hv) as (f & Hf & Hc). eauto. Qed.

(** The recursive call, as a hypothesis of its users. *)
Definition field_sound (field : members → list string → bool → list string → bool → bool →
    option (option (list ArtifactSchemaFragment))) : Prop :=
  ∀ node parts required refs objectGuaranteed requiredAfterElement fragments d,
    ARTIFACT_COLLECTION_ELEMENT_SEGMENT ∉ parts → meets d (JObj node) →
    (objectGuaranteed = true → isJsonObject d = true) →
    field node parts required refs objectGuaranteed requiredAfterElement = Some (Some fragments) →
    location_holds d parts required fragments.

(** A plain fragment that declares a type is met by values of that type only. *)
Lemma fragment_type v f t : plain_fragment f → meets v (fragment_json f) → fragmentDeclaresType f t = true →
  t ∈ type_names v.
Proof.
  destruct f as [|n]; [done|]. simpl. intros Hp Hv%meets_keywords Ht; [|done]. unfold declaresType in Ht.
  destruct (ownValue n "type") as [ty|] eqn:Hty; [|done]. pose proof (kw_type _ _ _ Hv ty Hty) as Hk.
  destruct ty as [| | |s|[|[] [|]]|]; try done; apply bool_decide_eq_true in Ht; subst; [done|].
  destruct Hk as (t' & Hin%list_elem_of_singleton & Ht). by simplify_eq.
Qed.

Section step.
Context (field : members → list string → bool → list string → bool → bool →
  option (option (list ArtifactSchemaFragment))) (Hfield : field_sound field).

Lemma combineUnionBranchNode_meets d base object node ref :
  meets d (JObj base) → meets d (JObj object) →
  combineUnionBranchNode root base object = (node, ref) → meets d (JObj node).
Proof.
  intros Hb Ho Heq. unfold combineUnionBranchNode in Heq.
  assert (∀ n, meets d (JObj n) →
    (as_string (ownValue n "$ref") = None ∨ ownValue root "$schema" = Some (JStr draft_2020_12)) →
    meets d (JObj (JsMap.set "allOf" (JArr (JObj base :: items_or_empty (ownValue n "allOf"))) n))) as Hset.
  { intros n Hn Hor. apply meets_set_allOf; [done|].
    intros s [->|Hin]%elem_of_cons; [done|by eapply meets_allOf]. }
  assert (meets d (JObj [("allOf", JArr [JObj base; JObj object])])) as Hboth.
  { apply meets_node; [done|]. split; try done.
    - intros l s Hl Hin. simpl in Hl. simplify_eq. rewrite !elem_of_cons, elem_of_nil in Hin. naive_solver. }
  destruct (as_string (ownValue object "$ref")) as [r|] eqn:Href; [|simplify_eq; by apply Hset; auto].
  apply as_string_Some in Href as Href'.
  destruct (resolveRef root object) as [[|target]|] eqn:Hres; simplify_eq; [done| |done].
  pose proof (resolveRef_meets d object r (FNode target) Href' Ho Hres) as Ht. simpl in Ht.
  destruct (as_string (ownValue target "$ref")) as [r'|] eqn:Hr'; [|apply Hset; auto].
  destruct (decide (ownValue root "$schema" = Some (JStr draft_2020_12))) as [H20|H7]; [apply Hset; auto|].
  (* draft-7: the target's own reference hides the added conjunct *)
  apply as_string_Some in Hr' as Hr2.
  destruct (meets_ref_inv d target _ Hr2 Ht) as [Htt _].
  eapply meets_ref; [unfold ownValue; rewrite JsMap.get_set_ne by done; exact Hr2|done|done].
Qed.

Lemma unionSchemas_sound unionKey alternatives node parts required refs objectGuaranteed requiredAfterElement fragments d :
  ARTIFACT_COLLECTION_ELEMENT_SEGMENT ∉ parts → as_string (ownValue node "$ref") = None → meets d (JObj node) →
  (objectGuaranteed = true → isJsonObject d = true) → union_of node = Some (unionKey, alternatives) →
  unionSchemas root field unionKey alternatives node parts required refs objectGuaranteed requiredAfterElement
    = Some (Some fragments) →
  location_holds d parts required fragments.
Proof.
  intros Hparts Href Hd Hog Hu Hrun. unfold unionSchemas in Hrun.
  assert (∃ s, s ∈ alternatives ∧ meets d s) as (s & Hs & Hds).
  { apply meets_keywords in Hd as Hk; [|done]. unfold union_of in Hu.
    destruct (as_array (ownValue node "anyOf")) as [l|] eqn:Ha; simplify_eq;
      [apply (kw_anyOf _ _ _ Hk); by apply as_array_Some|].
    destruct (as_array (ownValue node "oneOf")) as [l|] eqn:Ho; simpl in Hu; simplify_eq.
    apply (kw_oneOf _ _ _ Hk). by apply as_array_Some. }
  assert (unionKey ≠ "prefixItems") as Hkey.
  { unfold union_of in Hu. destruct (as_array (ownValue node "anyOf")); simplify_eq; [done|].
    destruct (as_array (ownValue node "oneOf")); simpl in Hu; by simplify_eq. }
  destruct (mapM _ alternatives) as [results|] eqn:Hm; [|done]. simpl in Hrun.
  unfold all_defined in Hrun. destruct (mapM _ results) as [lists|] eqn:Hl; [|done]. simpl in Hrun. simplify_eq.
  apply mapM_Some in Hm, Hl. destruct (Forall2_elem_l _ _ _ _ Hm Hs) as (r & Hr & Hrun).
  destruct (Forall2_elem_l _ _ _ _ Hl Hr) as (l & Hin & ->).
  destruct s as [| | | | |object]; try done. simpl in Hrun.
  destruct (combineUnionBranchNode root (without unionKey node) object) as [combined ref] eqn:Hc.
  eapply location_mono; [eapply Hfield; [done| |exact Hog|exact Hrun]|].
  - eapply combineUnionBranchNode_meets; [|exact Hds|exact Hc]. by apply meets_without.
  - intros f Hf. apply list_elem_of_In, in_concat. exists l. split; by apply list_elem_of_In.
Qed.

Lemma fieldSchemasForReference_sound node ref parts required refs objectGuaranteed requiredAfterElement fragments d :
  ARTIFACT_COLLECTION_ELEMENT_SEGMENT ∉ parts → ownValue node "$ref" = Some (JStr ref) → meets d (JObj node) →
  (objectGuaranteed = true → isJsonObject d = true) →
  fieldSchemasForReference root field node ref parts required refs objectGuaranteed requiredAfterElement
    = Some (Some fragments) →
  location_holds d parts required fragments.
Proof.
  intros Hparts Href Hd Hog Hrun. unfold fieldSchemasForReference in Hrun. case_bool_decide; [done|].
  destruct (resolveRef root node) as [[b|target]|] eqn:Hres; try done.
  all: pose proof (resolveRef_meets d node ref _ Href Hd Hres) as Ht; simpl in Ht.
  - destruct parts; simplify_eq. by apply (location_here d required (FBool b)).
  - eapply Hfield; [exact Hparts|exact Ht|exact Hog|exact Hrun].
Qed.

Lemma childStepSchemas_sound child rest required requiredAfterElement fragments v :
  ARTIFACT_COLLECTION_ELEMENT_SEGMENT ∉ rest →
  (∀ f, child = Some f → meets v (fragment_json f)) →
  childStepSchemas field child rest required requiredAfterElement = Some (Some fragments) →
  location_holds v rest required fragments.
Proof.
  intros Hrest Hv Hrun. destruct child as [[b|n]|]; simpl in Hrun; [| |done].
  - destruct rest; simplify_eq. apply location_here; [done|]. by apply Hv.
  - eapply (Hfield n rest required [] false); [exact Hrest|by apply (Hv (FNode n))|done|exact Hrun].
Qed.

Lemma stepSchemas_sound node parts required objectGuaranteed requiredAfterElement fragments d :
  ARTIFACT_COLLECTION_ELEMENT_SEGMENT ∉ parts → as_string (ownValue node "$ref") = None → meets d (JObj node) →
  (objectGuaranteed = true → isJsonObject d = true) →
  stepSchemas field node parts required objectGuaranteed requiredAfterElement = Some (Some fragments) →
  location_holds d parts required fragments.
Proof.
  intros Hparts Href Hd Hog Hrun. destruct parts as [|key rest]; simpl in Hrun.
  { simplify_eq. by apply (location_here d required (FNode node)). }
  rewrite bool_decide_eq_false_2 in Hrun by (intros ->; apply Hparts; left).
  assert (∃ dm, d = JObj dm) as [dm ->].
  { destruct (declaresType node "object") eqn:Ht.
      { apply (fragment_type d (FNode node)) in Ht; [|done..].
        destruct d; simpl in Ht; rewrite ?elem_of_cons, ?elem_of_nil in Ht; [naive_solver..|by eexists]. }
      simpl in Hrun.
    destruct (negb _) eqn:Hn in Hrun; [done|]. apply negb_false_iff, andb_true_iff in Hn as [_ Hn].
    specialize (Hog Hn). destruct d; try done. by eexists. }
  destruct (negb _ && negb _); [done|]. destruct (bool_decide (key = "")); [done|]. simpl in Hrun.
  destruct (required && _) eqn:Hreq; [done|].
  apply meets_keywords in Hd as Hk; [|done].
  assert (∀ v, ownValue dm key = Some v → location_holds v rest required fragments) as Hsome.
  { intros v Hv. eapply childStepSchemas_sound; [set_solver| |exact Hrun]. intros f Hf.
    unfold declaredPropertySchema in Hf. destruct (ownValue node "properties") as [[| | | | |ps]|] eqn:Hps; try done.
    simpl in Hf. assert (ownValue ps key = Some (fragment_json f)) as Hpk.
    { destruct (ownValue ps key) as [[]|]; simpl in Hf; simplify_eq; done. }
    eapply (kw_properties _ _ _ Hk); [exact Hps|by apply JsMap.get_elem|done|exact Hv]. }
  split.
  - intros v Hv. cbn [readPropertyPath as_object mbind option_bind] in Hv.
    destruct (ownValue dm key) as [w|] eqn:Hw; [by apply (Hsome w eq_refl)|by destruct rest].
  - intros ->. simpl in Hreq. apply bool_decide_eq_false, dec_stable in Hreq.
    destruct (required_present _ _ _ dm key Hk eq_refl Hreq) as [w Hw].
    cbn [readPropertyPath as_object mbind option_bind]. rewrite Hw. by apply (Hsome w Hw).
Qed.
End step.

Lemma fieldSchemas_sound fuel : field_sound (fieldSchemas root fuel).
Proof.
  induction fuel as [|fuel IH]; intros node parts required refs og rae fragments d Hparts Hd Hog Hrun; [done|].
  cbn [fieldSchemas] in Hrun. destruct (as_string (ownValue node "$ref")) as [ref|] eqn:Href.
  { apply as_string_Some in Href as Href'. by eapply fieldSchemasForReference_sound. }
  destruct (union_of node) as [[unionKey alternatives]|] eqn:Hu; [by eapply unionSchemas_sound|].
  destruct (as_array (ownValue node "allOf")); [|by eapply stepSchemas_sound].
  destruct (combineConjuncts root fuel node refs) as [[combined|]|] eqn:Hc; simpl in Hrun; try done.
  eapply IH; [done| |exact Hog|exact Hrun]. by eapply combineConjuncts_meets.
Qed.

End soundness.

(** ** Where the two ways of following a reference agree

    [plain]: no reference below holds a percent sign, and nothing has an [$id]. *)
Definition plain_reference (node : members) : bool :=
  match ownValue node "$ref" with Some (JStr ref) => negb (Str.has_char "%" ref) | _ => true end.
Definition own_resource (node : members) : bool :=
  match ownValue node "$id" with Some (JStr _) => true | _ => false end.
Fixpoint plain (v : json) : bool :=
  match v with
  | JArr l => forallb plain l
  | JObj m => plain_reference m && negb (own_resource m) && forallb (λ kv : string * json, plain kv.2) m
  | _ => true
  end.
(** A document may have an [$id] itself. *)
Definition plain_document (root : members) : bool :=
  plain_reference root && forallb (λ kv : string * json, plain kv.2) root.

Lemma decode_plain s : Str.has_char "%" s = false → percent_decode s = Some s.
Proof.
  induction s as [|c s IH]; [done|]. cbn [Str.has_char percent_decode]. intros [Hc Hs]%orb_false_iff.
  rewrite (bool_decide_false (c = "%"%char)); [simpl; by rewrite IH|].
  intros ->. by apply bool_decide_eq_false in Hc.
Qed.

Lemma replace_other c by_ a r : a ≠ "~"%char → replace_token c by_ (String a r) = String a (replace_token c by_ r).
Proof. intros Ha. destruct r; [done|]. cbn [replace_token]. by rewrite bool_decide_false by tauto. Qed.
Lemma replace_hit c by_ r : replace_token c by_ (String "~" (String c r)) = String by_ (replace_token c by_ r).
Proof. cbn [replace_token]. by rewrite bool_decide_true. Qed.
Lemma replace_tilde c by_ b r : b ≠ c →
  replace_token c by_ (String "~" (String b r)) = String "~" (replace_token c by_ (String b r)).
Proof. intros Hb. cbn [replace_token]. by rewrite bool_decide_false by tauto. Qed.
Lemma replace_head c by_ b r : ∃ h t, replace_token c by_ (String b r) = String h t ∧ (h = b ∨ h = by_).
Proof.
  destruct r as [|b' r]; [by exists b, ""; auto|]. cbn [replace_token]. case_bool_decide; eexists _, _; split; eauto.
Qed.

Lemma unescape_cons c d s : unescape (String c (String d s)) =
  if bool_decide (c = "~"%char ∧ d = "0"%char) then String "~" (unescape s)
  else if bool_decide (c = "~"%char ∧ d = "1"%char) then String "/" (unescape s) else String c (unescape (String d s)).
Proof. done. Qed.

(** The tokens of a pointer are read in one pass or in two. *)
Lemma unescape_tokens s : unescape s = replace_token "0"%char "~"%char (replace_token "1"%char "/"%char s).
Proof.
  revert s. assert (∀ n s, (String.length s <= n)%nat →
    unescape s = replace_token "0"%char "~"%char (replace_token "1"%char "/"%char s)) as Hn.
  { induction n as [|n IH]; intros s Hs; [by destruct s; [|simpl in Hs; lia]|].
    destruct s as [|a [|b s]]; [done..|]. cbn [String.length] in Hs. rewrite unescape_cons.
    destruct (decide (a = "~"%char)) as [->|Ha].
    2:{ rewrite !bool_decide_false by tauto. rewrite (replace_other _ _ a (String b s)), (replace_other _ _ a) by done.
      rewrite IH; [done|simpl; lia]. }
    destruct (decide (b = "0"%char)) as [->|Hb0]; [|destruct (decide (b = "1"%char)) as [->|Hb1]].
    - rewrite bool_decide_true by done. rewrite replace_tilde by done. rewrite (replace_other _ _ "0"%char) by done.
      by rewrite replace_hit, IH by lia.
    - rewrite bool_decide_false, bool_decide_true by naive_solver. rewrite replace_hit.
      by rewrite (replace_other _ _ "/"%char), IH by (done || lia).
    - rewrite !bool_decide_false by naive_solver. rewrite (replace_tilde _ _ b s), IH by (done || simpl; lia).
      destruct (replace_head "1" "/" b s) as (h & t & -> & Hh). rewrite replace_tilde; [done|]. naive_solver. }
  intros s. by apply (Hn (String.length s)).
Qed.

Section agreement.
Context (root : members) (Hroot : plain_document root = true).

(** A schema met on the way: a plain one, or the document or part of it. *)
Definition children_plain (node : members) : Prop :=
  plain_reference node = true ∧ ∀ k v, (k, v) ∈ node → plain v = true.
Definition reached (s : json) : Prop := match s with JObj node => children_plain node | _ => plain s = true end.

Lemma root_plain : children_plain root.
Proof.
  unfold plain_document in Hroot. apply andb_true_iff in Hroot as [Hr Hc]. split; [done|].
  intros k v Hin. apply list_elem_of_In in Hin. rewrite forallb_forall in Hc. exact (Hc _ Hin).
Qed.
Lemma plain_reached s : plain s = true → reached s.
Proof.
  destruct s as [| | | | |m]; try done. simpl. intros [[Hr _]%andb_true_iff Hc]%andb_true_iff. split; [done|].
  intros k v Hin. apply list_elem_of_In in Hin. rewrite forallb_forall in Hc. exact (Hc _ Hin).
Qed.
Lemma plain_elements l v : plain (JArr l) = true → v ∈ l → plain v = true.
Proof. simpl. rewrite forallb_forall. intros Hl Hin. apply Hl. by apply list_elem_of_In. Qed.
Lemma member_plain node k v : children_plain node → ownValue node k = Some v → plain v = true.
Proof. intros [_ Hc] Hv. apply (Hc k). by apply JsMap.get_elem. Qed.
Lemma without_plain node : children_plain node → children_plain (without "$ref" node).
Proof.
  intros [_ Hc]. split.
  - unfold plain_reference, ownValue, without. by rewrite JsMap.get_delete_eq.
  - intros k v Hin. apply (Hc k). clear Hc. unfold without in Hin.
    induction node as [|[k1 v1] node IH]; simpl in Hin; [done|]. case_decide; [right; by apply IH|].
    apply elem_of_cons in Hin as [->|Hin]; [by left|right; by apply IH].
Qed.

(** There is one resource. *)
Lemma resource_plain s : plain s = true ∨ s = JObj root → resource root root s = root.
Proof.
  intros [Hs| ->]; [|simpl; repeat (case_match; try done)]. destruct s as [| | | | |m]; try done. simpl in *.
  apply andb_true_iff in Hs as [[_ Hid]%andb_true_iff _]. unfold own_resource in Hid.
  destruct (_ && _); [done|]. by destruct (ownValue m "$id") as [[]|].
Qed.

Lemma follow_evaluate v parts t : plain v = true ∨ v = JObj root → follow (Some v) parts = Some t →
  evaluate root root v parts = Some (root, t) ∧ (plain t = true ∨ t = JObj root).
Proof.
  revert v. induction parts as [|part parts IH]; intros v Hv Hf; simpl in Hf; [by simplify_eq|].
  destruct v as [| | | | |m]; try done. simpl in Hf. rewrite <- unescape_tokens in Hf.
  cbn [evaluate]. rewrite resource_plain by done.
  destruct (ownValue m (unescape part)) as [w|] eqn:Hw; [simpl|by destruct parts].
  apply IH; [|done]. left. apply (member_plain m _ _ ltac:(destruct Hv as [Hv|[= ->]];
    [exact (plain_reached (JObj m) Hv)|apply root_plain]) Hw).
Qed.

Lemma resolvePointer_reference ref t : Str.has_char "%" ref = false → resolvePointer root ref = Some t →
  reference root root ref = Some (root, t) ∧ (plain t = true ∨ t = JObj root).
Proof.
  unfold resolvePointer. intros Hp. case_bool_decide as Hr; [subst; intros [= <-]; by split; [|right]|].
  destruct (Str.starts_with ref "#/") eqn:Hs; [|done]. simpl.
  apply Str.starts_with_true in Hs as [r ->]. intros Ht. simpl in Ht, Hp.
  unfold reference. simpl. rewrite decode_plain by done. simpl. by apply follow_evaluate; [right|].
Qed.

Lemma conforms_meets base d s : conforms root base d s → base = root → reached s → meets root d s.
Proof.
  revert base d s. fix IH 4. intros base d s [base' d' |base' d' node ref Href Ht Hs|base' d' node Href Hk] Hb Hn.
  - apply meets_true.
  - subst base'. eapply meets_ref; [exact Href| |].
    + intros target Hp. destruct Hn as [Hpr _]. unfold plain_reference in Hpr. rewrite Href in Hpr.
      destruct (resolvePointer_reference ref target (proj1 (negb_true_iff _) Hpr) Hp) as [Hr Hpt].
      apply (IH _ _ _ (Ht root target Hr)); [by apply resource_plain|].
      destruct Hpt as [Hpt| ->]; [by apply plain_reached|apply root_plain].
    + intros H20. apply (IH _ _ _ (Hs H20)); [done|]. by apply without_plain.
  - subst base'. assert (∀ k v, ownValue node k = Some v → plain v = true) as Hm by (intros; by eapply member_plain).
    apply meets_node; [by apply as_string_None|]. destruct Hk as [Kt Kr Kp Ki Ka Ky Ko]. split; try done.
    + intros ps k s' dm v Hps Hin Hd Hv. assert (plain s' = true) as Hs'.
      { destruct (plain_reached _ (Hm _ _ Hps)) as [_ Hc]. by eapply Hc. }
      apply (IH _ _ _ (Kp ps k s' dm v Hps Hin Hd Hv)); [apply resource_plain; by left|by apply plain_reached].
    + intros s' l v Hpre Hit Har Hd Hv. pose proof (Hm _ _ Hit) as Hs'.
      apply (IH _ _ _ (Ki s' l v Hpre Hit Har Hd Hv)); [apply resource_plain; by left|by apply plain_reached].
    + intros l s' Hl Hin. pose proof (plain_elements _ _ (Hm _ _ Hl) Hin) as Hs'.
      apply (IH _ _ _ (Ka l s' Hl Hin)); [apply resource_plain; by left|by apply plain_reached].
    + intros l Hl. destruct (Ky l Hl) as (s' & Hin & Hc). exists s'. split; [done|].
      pose proof (plain_elements _ _ (Hm _ _ Hl) Hin) as Hs'.
      apply (IH _ _ _ Hc); [apply resource_plain; by left|by apply plain_reached].
    + intros l Hl. destruct (Ko l Hl) as (s' & Hin & Hc). exists s'. split; [done|].
      pose proof (plain_elements _ _ (Hm _ _ Hl) Hin) as Hs'.
      apply (IH _ _ _ Hc); [apply resource_plain; by left|by apply plain_reached].
Qed.

(** What a plain document admits meets it as the code reads it. *)
Lemma admits_meets d : admits root d → meets root d (JObj root).
Proof. intros Hd. by apply (conforms_meets _ _ _ Hd), root_plain. Qed.

End agreement.
