(* ===== verification/KindValidation.v ===== *)
(** * Registration checks on an artifact kind's data schema

    [core/contracts/src/artifact/kind-paths.ts]: the composition and reference
    profile of a data schema, the declared data paths of a kind, and reading the
    title of a payload.  A registration passes when no issue is reported.

    As in [KindPaths], [None] is a check that has not returned within its fuel. *)
From Stdlib Require Import Ascii.
From S2P Require Import Prelude Json.
From S2P Require Import JsValue JsonTree KindPaths JsonSchema KindSchemas.

(** One step of a diagnostic path: [string | number]. *)
Inductive pathkey := PName (name : string) | PIndex (index : nat).
Definition issue : Type := list pathkey * string.

(** A child schema node with its path relative to the parent. *)
Definition schema_child : Type := members * list pathkey.

Definition append_child (value : option json) (path : list pathkey) : list schema_child :=
  match schemaObject value with Some child => [(child, path)] | None => [] end.

Definition childSchemas (node : members) : list schema_child :=
  flat_map (λ key,
      flat_map (λ kv : string * json, append_child (Some kv.2) [PName key; PName kv.1])
        (default [] (schemaObject (ownValue node key))))
    ["properties"; "patternProperties"; "$defs"; "definitions"; "dependentSchemas"; "dependencies"] ++
  flat_map (λ key,
      List.concat (imap (λ index child, append_child (Some child) [PName key; PIndex index])
        (items_or_empty (ownValue node key))))
    ["allOf"; "anyOf"; "oneOf"; "prefixItems"; "items"] ++
  flat_map (λ key, append_child (ownValue node key) [PName key])
    ["items"; "additionalItems"; "additionalProperties"; "unevaluatedItems"; "unevaluatedProperties";
     "propertyNames"; "contains"; "not"; "if"; "then"; "else"; "contentSchema"].

(** [list.some(f)] where [f] may not return. *)
Fixpoint some_of {A} (f : A → option bool) (l : list A) : option bool :=
  match l with
  | [] => Some false
  | x :: l' => match f x with Some false => some_of f l' | r => r end
  end.

(** Calls of [f] on each element, their issues in order. *)
Fixpoint issues_of {A} (f : A → option (list issue)) (l : list A) : option (list issue) :=
  match l with
  | [] => Some []
  | x :: l' => is1 ← f x; is2 ← issues_of f l'; Some (is1 ++ is2)
  end.

Section checks.
Context `{Identity} (root : members).

Fixpoint containsClosedObject (fuel : nat) (node : members) (refs : list string) : option bool :=
  match fuel with
  | O => None
  | S fuel' =>
      if bool_decide (ownValue node "additionalProperties" = Some (JBool false)) then Some true
      else
        closed ← match as_string (ownValue node "$ref") with
                 | Some ref =>
                     if bool_decide (ref ∈ refs) then Some false
                     else match resolveRef root node with
                          | None => Some true
                          | Some (FNode target) => containsClosedObject fuel' target (refs ++ [ref])
                          | Some (FBool _) => Some false
                          end
                 | None => Some false
                 end;
        if (closed : bool) then Some true
        else some_of (λ child : schema_child, containsClosedObject fuel' child.1 refs) (childSchemas node)
  end.

Definition issue_when (b : bool) (path : list pathkey) (message : string) : list issue :=
  if b then [(path, message)] else [].

Definition validateSchemaReferences (node : members) (path : list pathkey) : list issue :=
  let here := path ++ [PName "$ref"] in
  let ref := as_string (ownValue node "$ref") in
  issue_when (JsMap.has "$ref" node && bool_decide (ref = None)) here "Schema reference must be a string" ++
  match ref with
  | None => []
  | Some ref =>
      issue_when (negb (Str.starts_with ref "#")) here
        "Only fragment schema references are supported; absolute and document-relative references are outside the artifact registration profile"
  end ++
  issue_when (JsMap.has "$anchor" node) (path ++ [PName "$anchor"])
    "Named schema anchors are not supported; use local JSON Pointer references" ++
  match ref with
  | None => []
  | Some ref =>
      issue_when (Str.starts_with ref "#" && (1 <? String.length ref)%nat && negb (Str.starts_with ref "#/")) here
        "Named schema references are not supported; use local JSON Pointer references" ++
      issue_when ((bool_decide (ref = "#") || Str.starts_with ref "#/") &&
                  match resolvePointer root ref with
                  | Some (JObj _) | Some (JBool _) => false
                  | _ => true
                  end) here
        "Fragment schema reference must resolve to an existing object or boolean schema"
  end.

Definition is_boolean (v : json) : bool := match v with JBool _ => true | _ => false end.

Fixpoint validateSchemaCompositions (fuel : nat) (node : members) (path : list pathkey) : option (list issue) :=
  match fuel with
  | O => None
  | S fuel' =>
      let async := issue_when (JsMap.has "$async" node &&
                               negb (bool_decide (ownValue node "$async" = Some (JBool false))))
                     (path ++ [PName "$async"]) "Asynchronous artifact schemas are not supported" in
      let unions := flat_map (λ keyword,
          issue_when (existsb is_boolean (items_or_empty (ownValue node keyword))) (path ++ [PName keyword])
            "Unsupported boolean union alternative: use object schema declarations") ["anyOf"; "oneOf"] in
      intersection ← match as_array (ownValue node "allOf") with
        | None => Some []
        | Some _ =>
            closed ← containsClosedObject fuel' node [];
            incompatible ← (if closed : bool then Some true
                            else combined ← combineConjuncts root fuel' node [];
                                 Some (match combined with Some _ => false | None => true end));
            Some (issue_when incompatible (path ++ [PName "allOf"])
                    "Unsupported intersection: use open compatible conjuncts or a single closed object schema")
        end;
      children ← issues_of (λ child : schema_child, validateSchemaCompositions fuel' child.1 (path ++ child.2))
                   (childSchemas node);
      Some (async ++ validateSchemaReferences node path ++ unions ++ intersection ++ children)
  end.

End checks.

Inductive uniqueness_selector := ByData (path : string) | ByRelationTarget (relationType : string).

(** The part of a kind registration its data paths are declared in. *)
Record KindDeclaration := {
  dataSchema : members;
  titlePath : string;
  indexedFields : option (list string);
  searchableFields : option (list string);
  views : option (list (string * list string));
  uniqueness : option (list (list uniqueness_selector));
}.

Definition declared_paths (value : KindDeclaration) : list (string * list pathkey) :=
  imap (λ index path, (path, [PName "indexedFields"; PIndex index])) (default [] (indexedFields value)) ++
  imap (λ index path, (path, [PName "searchableFields"; PIndex index])) (default [] (searchableFields value)) ++
  List.concat (imap (λ ri rule, List.concat (imap (λ si selector,
      match selector with
      | ByData path => [(path, [PName "uniqueness"; PIndex ri; PName "by"; PIndex si; PName "path"])]
      | ByRelationTarget _ => []
      end) rule)) (default [] (uniqueness value))) ++
  flat_map (λ view : string * list string,
      imap (λ index path, (path, [PName "views"; PName view.1; PName "fields"; PIndex index])) view.2)
    (default [] (views value)).

Definition validateKindDataPaths `{Identity} (fuel : nat) (value : KindDeclaration) : option (list issue) :=
  let root := dataSchema value in
  compositions ← validateSchemaCompositions root fuel root [PName "dataSchema"];
  title ← fieldSchemas root fuel root (Str.split dot (titlePath value)) true [] true false;
  let untitled := match title with
                  | None | Some [] => true
                  | Some title => existsb (λ field, negb (fragmentDeclaresType field "string")) title
                  end in
  paths ← issues_of (λ declared : string * list pathkey,
      found ← isArtifactDataPathDeclared root fuel declared.1;
      Some (issue_when (negb found) declared.2 ("Data path " +:+ declared.1 +:+ " must select a declared field")))
    (declared_paths value);
  Some (compositions ++
        issue_when untitled [PName "titlePath"] "titlePath must select a required string in every data schema variant" ++
        paths).

(** ** The title of a payload *)

(** White space of a string of Latin-1 code units, as [trim] and [\s] know it. *)
Definition is_space (c : ascii) : bool :=
  let n := N_of_ascii c in ((9 <=? n) && (n <=? 13) || (n =? 32) || (n =? 160))%N.
(** [s.trim().length === 0]. *)
Fixpoint blank (s : string) : bool :=
  match s with EmptyString => true | String c s' => is_space c && blank s' end.

(** [s.trim()]. *)
Fixpoint trim_start (s : string) : string :=
  match s with String c s' => if is_space c then trim_start s' else s | EmptyString => s end.
Fixpoint trim_end (s : string) : string :=
  match s with EmptyString => s | String c s' => if blank s then EmptyString else String c (trim_end s') end.
Definition trim (s : string) : string := trim_end (trim_start s).

(** The loop of [readArtifactTitle]: [None] is the first throw. *)
Fixpoint title_value (value : json) (keys : list string) : option json :=
  match keys with
  | [] => Some value
  | key :: keys' =>
      match value with
      | JObj m => w ← ownValue m key; title_value w keys'
      | _ => None
      end
  end.

(** [inl]: the error thrown. *)
Definition readArtifactTitle (data : members) (titlePath : string) : string + string :=
  match title_value (JObj data) (Str.split dot titlePath) with
  | None => inl ("Artifact title is missing at " +:+ titlePath)
  | Some (JStr s) =>
      if blank s then inl ("Artifact title at " +:+ titlePath +:+ " must be a nonblank string") else inr s
  | Some _ => inl ("Artifact title at " +:+ titlePath +:+ " must be a nonblank string")
  end.

(** [ArtifactDataPathSchema]: dot-separated names of letters, digits, [_], [$]
    and [-], none starting with a digit or [-]. *)
Definition is_letter (c : ascii) : bool :=
  let n := N_of_ascii c in ((65 <=? n) && (n <=? 90) || (97 <=? n) && (n <=? 122))%N.
Definition is_digit (c : ascii) : bool := let n := N_of_ascii c in ((48 <=? n) && (n <=? 57))%N.
Definition is_name_start (c : ascii) : bool := is_letter c || bool_decide (c = "_"%char) || bool_decide (c = "$"%char).
Definition is_name_char (c : ascii) : bool := is_name_start c || is_digit c.
Definition is_property_char (c : ascii) : bool := is_name_char c || bool_decide (c = "-"%char).
Fixpoint all_chars (p : ascii → bool) (s : string) : bool :=
  match s with EmptyString => true | String c s' => p c && all_chars p s' end.
Definition is_property_segment (s : string) : bool :=
  match s with EmptyString => false | String c s' => is_name_start c && all_chars is_property_char s' end.
Definition is_data_path (path : string) : bool := forallb is_property_segment (Str.split dot path).

(** ** A registered title *)
Lemma title_value_path d keys : title_value d keys = readPropertyPath (Some d) keys.
Proof.
  revert d. induction keys as [|key keys IH]; intros d; [done|]. destruct d as [| | | | |m]; try done.
  cbn [title_value readPropertyPath as_object mbind option_bind]. destruct (ownValue m key) as [w|]; [apply IH|by destruct keys].
Qed.

Lemma data_path_segments path : is_data_path path = true →
  ARTIFACT_COLLECTION_ELEMENT_SEGMENT ∉ Str.split dot path.
Proof.
  unfold is_data_path. rewrite forallb_forall. intros Hall Hin. apply list_elem_of_In in Hin.
  by specialize (Hall _ Hin).
Qed.

Lemma issue_when_nil b path message : issue_when b path message = [] → b = false.
Proof. by destruct b. Qed.

(** C15: A kind whose registration reports no issue, and whose schema is one
    resource with references that need no decoding, gives every payload the schema
    admits a string at its title path: reading the title fails only on a blank
    one. *)
Theorem registered_titles_are_present `{Identity} fuel (value : KindDeclaration) data
    (Hpath : is_data_path (titlePath value) = true)
    (Hok : validateKindDataPaths fuel value = Some []) (Hplain : plain_document (dataSchema value) = true)
    (Hdata : admits (dataSchema value) (JObj data)) :
  ∃ s, readPropertyPath (Some (JObj data)) (Str.split dot (titlePath value)) = Some (JStr s) ∧
    readArtifactTitle data (titlePath value) =
      (if blank s then inl ("Artifact title at " +:+ titlePath value +:+ " must be a nonblank string") else inr s).
Proof.
  apply (admits_meets _ Hplain) in Hdata. unfold validateKindDataPaths in Hok.
  destruct (validateSchemaCompositions _ _ _ _) as [is1|]; [|done]. simpl in Hok.
  destruct (fieldSchemas _ _ _ _ _ _ _ _) as [title|] eqn:Ht; [|done]. simpl in Hok.
  destruct (issues_of _ _) as [is2|]; [|done]. simpl in Hok. simplify_eq.
  apply app_eq_nil in Hok as [_ Hok]. apply app_eq_nil in Hok as [Hok _]. apply issue_when_nil in Hok.
  destruct title as [title|]; [|done].
  destruct (fieldSchemas_sound (dataSchema value) fuel _ _ _ _ _ _ _ (JObj data)
    (data_path_segments _ Hpath) Hdata (λ _, eq_refl) Ht) as [Hf Hreq].
  destruct (Hreq eq_refl) as [v Hv]. destruct (Hf v Hv) as (f & Hin & Hpf & Hc).
  assert (fragmentDeclaresType f "string" = true) as Hty.
  { destruct title as [|f0 title]; [done|]. apply not_true_iff_false in Hok.
    destruct (fragmentDeclaresType f "string") eqn:Hd; [done|]. exfalso. apply Hok, existsb_exists.
    exists f. split; [by apply list_elem_of_In|by rewrite Hd]. }
  apply (fragment_type _ v f "string" Hpf Hc) in Hty.
  destruct v as [| | |s| |]; simpl in Hty; rewrite ?elem_of_cons, ?elem_of_nil in Hty; try naive_solver.
  exists s. split; [done|]. unfold readArtifactTitle. rewrite title_value_path, Hv. done.
Qed.
