(* ===== verification/KindTermination.v ===== *)
(** * Termination of schema inspection

    [KindPaths.combineConjuncts] returns on every schema, references and cycles
    included: along a chain of references each is visited once, and between two
    references the node shrinks.

    [KindPaths.fieldSchemas] does not: a union alternative that is a reference
    is resolved without looking at the references already visited, so a union
    that reaches itself through its alternatives is expanded forever. *)
From stdpp Require Import gmap.
From S2P Require Import Prelude Json.
From S2P Require Import JsValue JsonTree KindPaths.

(** ** The references of a schema and its size *)
Fixpoint ref_strings (j : json) : list string :=
  match j with
  | JArr l => flat_map ref_strings l
  | JObj m => flat_map (λ kv : string * json,
      match kv with ("$ref", JStr s) => [s] | _ => [] end ++ ref_strings kv.2) m
  | _ => []
  end.

Fixpoint jsize (j : json) : nat :=
  match j with
  | JArr l => S (list_sum (map jsize l))
  | JObj m => S (list_sum (map (λ kv : string * json, jsize kv.2) m))
  | _ => 1
  end.

Lemma elem_of_flat_map {A B} (f : A → list B) l y : y ∈ flat_map f l ↔ ∃ x, x ∈ l ∧ y ∈ f x.
Proof.
  rewrite list_elem_of_In, in_flat_map. split; intros (x & Hx & Hy); exists x; by rewrite ?list_elem_of_In in *.
Qed.

Lemma list_sum_elem {A} (f : A → nat) l x : x ∈ l → (f x ≤ list_sum (map f l))%nat.
Proof. induction 1; simpl; lia. Qed.

Section refs.
Implicit Types (m : members) (j : json).

Lemma refs_member m k v s : (k, v) ∈ m → s ∈ ref_strings v → s ∈ ref_strings (JObj m).
Proof. intros Hin Hs. simpl. apply elem_of_flat_map. exists (k, v). split; [done|]. apply elem_of_app. by right. Qed.

Lemma refs_get m k v s : ownValue m k = Some v → s ∈ ref_strings v → s ∈ ref_strings (JObj m).
Proof. intros Hk%JsMap.get_elem. by eapply refs_member. Qed.

Lemma refs_own m s : ownValue m "$ref" = Some (JStr s) → s ∈ ref_strings (JObj m).
Proof.
  intros Hk%JsMap.get_elem. simpl. apply elem_of_flat_map. eexists. split; [exact Hk|]. apply elem_of_app. left. by left.
Qed.

Lemma refs_subset m m' s : m ⊆ m' → s ∈ ref_strings (JObj m) → s ∈ ref_strings (JObj m').
Proof.
  intros Hsub. simpl. rewrite !elem_of_flat_map. intros (kv & Hkv & Hs). exists kv. split; [by apply Hsub|done].
Qed.

Lemma without_subset key m : without key m ⊆ m.
Proof. unfold without. rewrite JsMap.delete_filter. intros kv [_ Hkv]%list_elem_of_filter. done. Qed.

Lemma refs_without key m s : s ∈ ref_strings (JObj (without key m)) → s ∈ ref_strings (JObj m).
Proof. apply refs_subset, without_subset. Qed.

Lemma refs_set m k v s : k ≠ "$ref" → s ∈ ref_strings (JObj (JsMap.set k v m)) →
  s ∈ ref_strings (JObj m) ∨ s ∈ ref_strings v.
Proof.
  intros Hk. induction m as [|[k1 v1] m IH]; simpl.
  - rewrite app_nil_r, elem_of_app. intros [Hs|Hs]; [|by right]. destruct (decide (k = "$ref")); [done|].
    exfalso. revert Hs. repeat case_match; simplify_eq; try done; by rewrite elem_of_nil.
  - case_decide as Hkk; [subst k1|]; simpl; rewrite !elem_of_app.
    + intros [[Hs|Hs]|Hs]; [|by right|left; by right].
      exfalso. revert Hs. repeat case_match; simplify_eq; try done; by rewrite elem_of_nil.
    + intros [Hs|Hs]; [by left; left|]. destruct (IH Hs); auto.
Qed.

Lemma refs_items l s v : v ∈ l → s ∈ ref_strings v → s ∈ ref_strings (JArr l).
Proof. intros Hv Hs. simpl. apply elem_of_flat_map. eauto. Qed.

Lemma refs_follow root parts : ∀ (node t : json) s,
  (∀ s, s ∈ ref_strings node → s ∈ ref_strings (JObj root)) →
  follow (Some node) parts = Some t → s ∈ ref_strings t → s ∈ ref_strings (JObj root).
Proof.
  induction parts as [|part parts IH]; intros node t s Hn Ht Hs; simpl in Ht; [simplify_eq; auto|].
  destruct node as [| | | | |m]; try done. simpl in Ht.
  destruct (ownValue m _) as [v|] eqn:Hv; [|by destruct parts].
  eapply (IH v); [|exact Ht|exact Hs]. intros s' Hs'. apply Hn. by eapply refs_get.
Qed.

Lemma refs_pointer root ref t s : resolvePointer root ref = Some t → s ∈ ref_strings t → s ∈ ref_strings (JObj root).
Proof.
  unfold resolvePointer. case_bool_decide; [intros; by simplify_eq|]. case_match; [done|].
  intros Ht Hs. by eapply refs_follow.
Qed.

Lemma refs_resolve root source target s : resolveRef root source = Some (FNode target) →
  s ∈ ref_strings (JObj target) → s ∈ ref_strings (JObj root) ∨ s ∈ ref_strings (JObj source).
Proof.
  unfold resolveRef. destruct (as_string (ownValue source "$ref")) as [ref|]; [|done].
  destruct (resolvePointer root ref) as [t|] eqn:Hp; [|done]. intros Hr Hs.
  assert (∀ s, s ∈ ref_strings t → s ∈ ref_strings (JObj root)) as Ht by (intros; by eapply refs_pointer).
  assert (∀ s, s ∈ ref_strings (JObj (without "$ref" source)) → s ∈ ref_strings (JObj source)) as Hsib
    by (intros; by eapply refs_without).
  destruct t as [|b| | | |schema]; try done; simpl in Hr.
  - case_bool_decide; [|done]. unfold applyBooleanReferenceSiblings in Hr.
    destruct (without "$ref" source) as [|kv sib]; [done|]. destruct b; simplify_eq. right. by apply Hsib.
  - case_bool_decide; simpl in Hr; [|simplify_eq; left; by apply Ht].
    destruct (without "$ref" source) as [|kv sib] eqn:Hw; simplify_eq; [left; by apply Ht|].
    apply refs_set in Hs as [Hs|Hs]; [left; by apply Ht| |done].
    simpl in Hs. apply elem_of_app in Hs as [Hs|Hs]; [right; apply Hsib; exact Hs|].
    left. apply Ht. unfold items_or_empty in Hs.
    destruct (as_array (ownValue schema "allOf")) as [l|] eqn:Hall; [|by apply elem_of_nil in Hs].
    apply as_array_Some in Hall. eapply refs_get; [exact Hall|exact Hs].
Qed.

Lemma jsize_get m k v : ownValue m k = Some v → (jsize v < jsize (JObj m))%nat.
Proof.
  intros Hk%JsMap.get_elem. simpl. pose proof (list_sum_elem (λ kv : string * json, jsize kv.2) m _ Hk). simpl in *. lia.
Qed.

Lemma jsize_pos j : (1 ≤ jsize j)%nat.
Proof. destruct j; simpl; lia. Qed.

Lemma jsize_without m k v : ownValue m k = Some v → (jsize (JObj (without k m)) < jsize (JObj m))%nat.
Proof.
  unfold without, ownValue. simpl. intros Hk. rewrite <- Nat.succ_lt_mono. induction m as [|[k1 v1] m IH]; simpl in *; [done|].
  pose proof (jsize_pos v1).
  assert (list_sum (map (λ kv, jsize kv.2) (JsMap.delete k m)) ≤ list_sum (map (λ kv, jsize kv.2) m))%nat.
  { clear. induction m as [|[k1 v1] m IH]; simpl; [lia|]. case_decide; simpl; lia. }
  case_decide; simpl; [lia|]. apply IH in Hk. lia.
Qed.
End refs.

(** ** Intersections are combined in finitely many steps *)
Section combine.
Context `{Identity} (root : members).

Lemma conjuncts_mono (f g : members → option (option members)) candidates : ∀ c r,
  (∀ o r, f o = Some r → g o = Some r) → conjuncts f c candidates = Some r → conjuncts g c candidates = Some r.
Proof.
  induction candidates as [|v candidates IH]; intros c r Hfg Hr; cbn [conjuncts] in *; [done|].
  destruct (schemaObject (Some v)) as [o|]; [|done].
  destruct (f o) as [b|] eqn:Hf; [|done]. simpl in Hr. rewrite (Hfg _ _ Hf). simpl.
  destruct b as [b|]; [|done]. destruct (_ || _); [done|]. destruct (add_conjunct c b); [by apply IH|done].
Qed.

Lemma combineConjuncts_mono fuel : ∀ fuel' node refs r, (fuel ≤ fuel')%nat →
  combineConjuncts root fuel node refs = Some r → combineConjuncts root fuel' node refs = Some r.
Proof.
  induction fuel as [|fuel IH]; intros [|fuel'] node refs r Hle Hr; try done; [lia|].
  cbn [combineConjuncts] in *. destruct (as_string (ownValue node "$ref")) as [ref|].
  - case_bool_decide; [done|]. destruct (resolveRef root node) as [[]|]; try done. apply (IH fuel'); [lia|done].
  - destruct (as_array (ownValue node "allOf")) as [allOf|]; [|done].
    match type of Hr with (?x ≫= _) = _ => destruct x as [c|] eqn:Hc; [|done] end.
    erewrite conjuncts_mono; [exact Hr| |exact Hc]. intros o r' Ho. apply (IH fuel'); [lia|done].
Qed.

(** A round of conjuncts, each of which is combined. *)
Lemma conjuncts_return refs candidates :
  (∀ o, JObj o ∈ candidates → ∃ fuel r, combineConjuncts root fuel o refs = Some r) →
  ∃ fuel, ∀ c, ∃ r, conjuncts (λ o, combineConjuncts root fuel o refs) c candidates = Some r.
Proof.
  induction candidates as [|v candidates IH]; intros Hall; [exists O; intros c; by eexists|].
  destruct IH as [n1 H1]; [intros; apply Hall; by right|].
  assert (∃ n2 b, match schemaObject (Some v) with Some o => combineConjuncts root n2 o refs | None => Some None end = Some b)
    as (n2 & b & H2).
  { destruct v; simpl; try (by exists O, None). apply Hall. by left. }
  exists (n1 + n2)%nat. intros c. cbn [conjuncts].
  assert (match schemaObject (Some v) with Some o => combineConjuncts root (n1 + n2) o refs | None => Some None end = Some b) as ->.
  { destruct (schemaObject (Some v)); [|done]. eapply combineConjuncts_mono; [|exact H2]. lia. }
  simpl. destruct b as [b|]; [|by eexists]. destruct (_ || _); [by eexists|].
  destruct (add_conjunct c b) as [c'|]; [|by eexists]. destruct (H1 c') as [r Hr]. exists r.
  eapply conjuncts_mono; [|exact Hr]. intros o r' Ho. eapply combineConjuncts_mono; [|exact Ho]. lia.
Qed.

(** The references still to visit, out of those of the schema. *)
Definition unvisited (universe : list string) (refs : list string) : nat :=
  size (list_to_set universe ∖ list_to_set refs : gset string).

Lemma unvisited_lt universe refs ref : ref ∈ universe → ref ∉ refs →
  (unvisited universe (refs ++ [ref]) < unvisited universe refs)%nat.
Proof. intros Hin Hni. apply subset_size. set_solver. Qed.

Lemma combineConjuncts_returns universe :
  (∀ s, s ∈ ref_strings (JObj root) → s ∈ universe) →
  ∀ n k node refs, (unvisited universe refs < n)%nat → (jsize (JObj node) < k)%nat →
  (∀ s, s ∈ ref_strings (JObj node) → s ∈ universe) →
  ∃ fuel r, combineConjuncts root fuel node refs = Some r.
Proof.
  intros Hroot. induction n as [|n IHn]; [lia|]. induction k as [|k IHk]; [lia|]. intros node refs Hn Hk Hnode.
  destruct (as_string (ownValue node "$ref")) as [ref|] eqn:Href.
  - destruct (decide (ref ∈ refs)) as [Hin|Hni].
    { exists 1%nat, None. cbn [combineConjuncts]. rewrite Href. by rewrite bool_decide_eq_true_2. }
    destruct (resolveRef root node) as [[b|target]|] eqn:Hres.
    2: { destruct (IHn (S (jsize (JObj target))) target (refs ++ [ref])) as (fuel & r & Hr).
      - apply as_string_Some in Href. pose proof (unvisited_lt universe refs ref (Hnode _ (refs_own _ _ Href)) Hni). lia.
      - lia.
      - intros s Hs. apply (refs_resolve root node target s Hres) in Hs as [Hs|Hs]; auto.
      - exists (S fuel), r. cbn [combineConjuncts]. rewrite Href, Hres. by rewrite bool_decide_eq_false_2. }
    all: exists 1%nat, None; cbn [combineConjuncts]; rewrite Href, Hres; by rewrite bool_decide_eq_false_2.
  - destruct (as_array (ownValue node "allOf")) as [allOf|] eqn:Hall.
    2: { exists 1%nat, (Some node). cbn [combineConjuncts]. by rewrite Href, Hall. }
    apply as_array_Some in Hall as Hall'. pose proof (jsize_get _ _ _ Hall') as Hsz.
    destruct (conjuncts_return refs (JObj (without "allOf" node) :: allOf)) as [fuel Hf].
    + intros o [Ho|Ho]%elem_of_cons.
      * simplify_eq. apply IHk; [done| |].
        -- pose proof (jsize_without _ _ _ Hall'). lia.
        -- intros s Hs. by eapply Hnode, refs_without.
      * apply IHk; [done| |].
        -- assert (jsize (JArr allOf) = S (list_sum (map jsize allOf))) by done.
           pose proof (list_sum_elem jsize allOf _ Ho). lia.
        -- intros s Hs. eapply Hnode, refs_get; [exact Hall'|]. by eapply refs_items.
    + destruct (Hf (Conjunction [] [] [])) as [r Hr]. exists (S fuel), (option_map conjunction_node r).
      cbn [combineConjuncts]. by rewrite Href, Hall, Hr.
Qed.
End combine.

(** [combineConjuncts] returns on every schema node, however its references are
    connected. *)
Theorem combining_conjuncts_terminates `{Identity} (root node : members) (refs : list string) :
  ∃ fuel result, combineConjuncts root fuel node refs = Some result.
Proof.
  eapply (combineConjuncts_returns root (ref_strings (JObj root) ++ ref_strings (JObj node)));
    [| |apply Nat.lt_succ_diag_r|]; [|apply Nat.lt_succ_diag_r|]; intros s Hs; apply elem_of_app; auto.
Qed.

(** ** A union that reaches itself *)
Section recursive_union.
Context `{Identity}.

(** [#/$defs/Node] is a union with itself as an alternative. *)
Definition node_schema : members :=
  [("anyOf", JArr [JObj [("$ref", JStr "#/$defs/Node")];
                   JObj [("type", JStr "object");
                         ("properties", JObj [("title", JObj [("type", JStr "string")])]);
                         ("required", JArr [JStr "title"])]])].
Definition recursive_union : members :=
  [("$ref", JStr "#/$defs/Node"); ("$defs", JObj [("Node", JObj node_schema)])].

Lemma union_expands fuel : ∀ base parts required refs objectGuaranteed requiredAfterElement,
  fieldSchemas recursive_union fuel (JsMap.set "allOf" (JArr [base]) node_schema) parts required refs
    objectGuaranteed requiredAfterElement = None.
Proof.
  induction fuel as [|fuel IH]; intros; [done|]. cbn [fieldSchemas]. simpl. unfold unionSchemas. simpl.
  unfold combineUnionBranchNode. simpl. by rewrite (IH (JObj [("allOf", JArr [base])])).
Qed.

Lemma node_expands fuel parts required refs objectGuaranteed requiredAfterElement :
  fieldSchemas recursive_union fuel node_schema parts required refs objectGuaranteed requiredAfterElement = None.
Proof.
  destruct fuel as [|fuel]; [done|]. cbn [fieldSchemas]. simpl. unfold unionSchemas. simpl.
  unfold combineUnionBranchNode. simpl. by rewrite (union_expands fuel (JObj [])).
Qed.

(** Inspecting any location of a schema whose union has itself as an
    alternative never returns: the references visited are recorded, but a union
    alternative is resolved without consulting them. *)
Theorem recursive_union_is_never_inspected fuel segments required requiredAfterElement :
  inspectArtifactDataLocation recursive_union fuel segments required requiredAfterElement = None.
Proof.
  unfold inspectArtifactDataLocation. destruct fuel as [|fuel]; [done|]. cbn [fieldSchemas]. simpl.
  apply node_expands.
Qed.
End recursive_union.
