(* ===== verification/ArtifactParts.v ===== *)
(** * Addressable parts of an artifact

    [core/contracts/src/artifact/artifact-parts.ts]: declared part areas at
    registration, local identifiers of a payload's parts, and the part a local
    identifier or a relation source names. *)
From stdpp Require Import pretty.
From S2P Require Import Prelude Json.
From S2P Require Import JsValue JsonTree KindPaths KindValidation.

(** One data area whose array elements are addressable. *)
Record part_area := PartArea { area_path : string; idPath : string }.

(** ** Registration *)
Definition is_tuple (f : ArtifactSchemaFragment) : bool :=
  match f with
  | FBool _ => false
  | FNode n => match as_array (ownValue n "prefixItems"), as_array (ownValue n "items") with None, None => false | _, _ => true end
  end.

Definition area_text (index : nat) : string := "addressableParts[" +:+ pretty index +:+ "]".

Section registration.
Context `{Identity} (fuel : nat) (dataSchema : members).

Definition validatePartIdPath (area : part_area) (index : nat) : option (list issue) :=
  let idIssue := ([PName "addressableParts"; PIndex index; PName "idPath"],
                  area_text index +:+ ".idPath must select a required string in every element variant") in
  idFragments ← inspectArtifactDataLocation dataSchema fuel
    (Str.split dot (area_path area) ++ [ARTIFACT_COLLECTION_ELEMENT_SEGMENT] ++ Str.split dot (idPath area)) false true;
  Some match idFragments with
  | None | Some [] => [idIssue]
  | Some fragments => if existsb (λ f, negb (fragmentDeclaresType f "string")) fragments then [idIssue] else []
  end.

Definition validatePartArea (area : part_area) (index : nat) : option (list issue) :=
  let here := [PName "addressableParts"; PIndex index; PName "path"] in
  areaFragments ← inspectArtifactDataLocation dataSchema fuel (Str.split dot (area_path area)) false false;
  match areaFragments with
  | None | Some [] => Some [(here, area_text index +:+ ".path must select a declared location in every data schema variant")]
  | Some fragments =>
      if existsb (λ f, negb (fragmentDeclaresType f "array")) fragments
      then Some [(here, area_text index +:+ ".path must select an array schema in every data schema variant")]
      else if existsb is_tuple fragments
      then Some [(here, area_text index +:+ ".path selects a tuple schema; tuples are outside the addressable-parts profile (homogeneous arrays only)")]
      else validatePartIdPath area index
  end.

Fixpoint validate_areas (areas : list part_area) (index : nat) (seenPaths : list string) : option (list issue) :=
  match areas with
  | [] => Some []
  | area :: rest =>
      let duplicate := issue_when (bool_decide (area_path area ∈ seenPaths))
        [PName "addressableParts"; PIndex index; PName "path"]
        (area_text index +:+ ".path duplicates an earlier area; each declared area must have a distinct path") in
      here ← validatePartArea area index;
      later ← validate_areas rest (S index) (area_path area :: seenPaths);
      Some (duplicate ++ here ++ later)
  end.

Definition validateArtifactPartAreas (addressableParts : option (list part_area)) : option (list issue) :=
  match addressableParts with
  | None | Some [] => Some []
  | Some areas => validate_areas areas 0 []
  end.
End registration.

(** ** Identifiers of a payload *)

(** [typeof v]. *)
Definition typeof (v : json) : string :=
  match v with
  | JStr _ => "string"
  | JNum _ => "number"
  | JBool _ => "boolean"
  | JNull | JArr _ | JObj _ => "object"
  end.

Record data_issue := DataIssue { issue_path : string; reason : string }.

(** The issues so far, and where each identifier was first seen. *)
Definition scan : Type := list data_issue * list (string * string).

Definition report (st : scan) (path reason : string) : scan := (st.1 ++ [DataIssue path reason], st.2).

Definition check_element (area : part_area) (st : scan) (elementIndex : nat) (element : json) : scan :=
  let idLocation := area_path area +:+ "." +:+ pretty elementIndex +:+ "." +:+ idPath area in
  if negb (isJsonObject element)
  then report st idLocation "part element is not an object; local identifier cannot be read"
  else match readPropertyPath (Some element) (Str.split dot (idPath area)) with
  | None => report st idLocation "local identifier is missing"
  | Some (JStr rawId) =>
      if blank rawId
      then report st idLocation "local identifier must be a non-empty, non-whitespace-only string"
      else match JsMap.get rawId st.2 with
      | Some prior => report st idLocation
          ("duplicate local identifier " +:+ quoted rawId +:+ "; also found at " +:+ prior)
      | None => (st.1, JsMap.set rawId idLocation st.2)
      end
  | Some v => report st idLocation ("local identifier must be a string; found " +:+ typeof v)
  end.

Fixpoint check_elements (area : part_area) (st : scan) (elementIndex : nat) (elements : list json) : scan :=
  match elements with
  | [] => st
  | element :: rest => check_elements area (check_element area st elementIndex element) (S elementIndex) rest
  end.

Definition check_area (data : members) (st : scan) (area : part_area) : scan :=
  match readPropertyPath (Some (JObj data)) (Str.split dot (area_path area)) with
  | None => st
  | Some (JArr elements) => check_elements area st 0 elements
  | Some v => report st (area_path area) ("declared part area must be an array; found " +:+ typeof v)
  end.

Definition checkArtifactPartIds (areas : list part_area) (data : members) : list data_issue :=
  (foldl (check_area data) ([], []) areas).1.

(** ** Resolution *)
Inductive resolution_failure := NO_PARTS_DECLARED | PART_NOT_FOUND | DUPLICATE_LOCAL_ID.

(** [inr]: the area the part was found in, and the part. *)
Definition ArtifactPartResolution : Type := resolution_failure + string * members.
Definition part_index : Type := list (string * ArtifactPartResolution).

Definition index_element (area : part_area) (parts : part_index) (element : json) : part_index :=
  match element with
  | JObj part =>
      match readPropertyPath (Some element) (Str.split dot (idPath area)) with
      | Some (JStr rawId) =>
          if JsMap.has rawId parts then JsMap.set rawId (inl DUPLICATE_LOCAL_ID) parts
          else JsMap.set rawId (inr (area_path area, part)) parts
      | _ => parts
      end
  | _ => parts
  end.

Definition index_area (data : members) (parts : part_index) (area : part_area) : part_index :=
  match readPropertyPath (Some (JObj data)) (Str.split dot (area_path area)) with
  | Some (JArr elements) => foldl (index_element area) parts elements
  | _ => parts
  end.

Definition indexArtifactParts (areas : list part_area) (data : members) : option part_index :=
  match areas with
  | [] => None
  | _ => Some (foldl (index_area data) [] areas)
  end.

Definition resolveArtifactPart (areas : list part_area) (data : members) (localId : string) : ArtifactPartResolution :=
  match indexArtifactParts areas data with
  | None => inl NO_PARTS_DECLARED
  | Some parts => default (inl PART_NOT_FOUND) (JsMap.get localId parts)
  end.

Record relation_issue := RelationIssue { relationIndex : nat; relation_reason : resolution_failure }.

(** Relations are given by their optional [sourceLocalId]. *)
Definition checkArtifactRelationSourceParts (areas : list part_area) (data : members) (relations : list (option string))
    : list relation_issue :=
  let partsByLocalId := indexArtifactParts areas data in
  List.concat (imap (λ relationIndex sourceLocalId,
    match sourceLocalId with
    | None => []
    | Some localId =>
        let resolution := default (inl (match areas with [] => NO_PARTS_DECLARED | _ => PART_NOT_FOUND end))
                            (partsByLocalId ≫= JsMap.get localId) in
        match resolution with inl reason => [RelationIssue relationIndex reason] | inr _ => [] end
    end) relations).

(** ** Identified parts resolve *)

(** The parts of a payload that carry an identifier, in order. *)
Definition identified (area : part_area) (element : json) : option (string * (string * members)) :=
  match element, readPropertyPath (Some element) (Str.split dot (idPath area)) with
  | JObj part, Some (JStr rawId) => Some (rawId, (area_path area, part))
  | _, _ => None
  end.
Definition area_elements (data : members) (area : part_area) : list json :=
  match readPropertyPath (Some (JObj data)) (Str.split dot (area_path area)) with Some (JArr l) => l | _ => [] end.
Definition parts_of (areas : list part_area) (data : members) : list (string * (string * members)) :=
  flat_map (λ area, omap (identified area) (area_elements data area)) areas.

Definition add_part (parts : part_index) (p : string * (string * members)) : part_index :=
  if JsMap.has p.1 parts then JsMap.set p.1 (inl DUPLICATE_LOCAL_ID) parts else JsMap.set p.1 (inr p.2) parts.

Lemma index_element_identified area parts element :
  index_element area parts element = foldl add_part parts (option_list (identified area element)).
Proof.
  unfold index_element, identified. destruct element; try done.
  by destruct (readPropertyPath _ _) as [[]|].
Qed.

Lemma index_parts areas data : ∀ parts, foldl (index_area data) parts areas = foldl add_part parts (parts_of areas data).
Proof.
  unfold parts_of. induction areas as [|area areas IH]; intros parts; simpl; [done|]. rewrite foldl_app, IH. f_equal.
  unfold index_area, area_elements. destruct (readPropertyPath _ _) as [[| | | |l|]|]; try done.
  revert parts. induction l as [|e l IHl]; intros parts; simpl; [done|]. rewrite index_element_identified, IHl.
  by destruct (identified area e).
Qed.

(** An identifier carried once is indexed as its part. *)
Lemma add_parts_get ps : ∀ parts id, NoDup ps.*1 → (∀ k, k ∈ ps.*1 → JsMap.get k parts = None) →
  JsMap.get id (foldl add_part parts ps) =
  match JsMap.get id ps with Some p => Some (inr p) | None => JsMap.get id parts end.
Proof.
  induction ps as [|[k p] ps IH]; intros parts id Hnd Hfresh; [done|]. rewrite fmap_cons in Hnd, Hfresh.
  apply NoDup_cons in Hnd as [Hni Hnd]. simpl foldl.
  assert (JsMap.get k parts = None) as Hk by (apply Hfresh; left).
  assert (add_part parts (k, p) = JsMap.set k (inr p) parts) as -> by (unfold add_part, JsMap.has; simpl; by rewrite Hk).
  rewrite IH; [|done|].
  - simpl. rewrite JsMap.get_set. case_decide; [subst|done].
    assert (JsMap.get id ps = None) as -> by (by apply JsMap.get_None). done.
  - intros k' Hk'. rewrite JsMap.get_set_ne; [apply Hfresh; by right|]. intros ->. done.
Qed.

(** The scan reports nothing only if every element carries a fresh identifier. *)
Lemma report_nonempty st path reason : (report st path reason).1 ≠ [].
Proof. unfold report. simpl. by destruct st.1. Qed.

Definition scanned (st : scan) (ids : list string) : Prop := NoDup ids ∧ ∀ id, id ∈ ids ↔ is_Some (JsMap.get id st.2).

Definition well_identified (area : part_area) (element : json) : Prop :=
  ∃ rawId part, element = JObj part ∧
    readPropertyPath (Some element) (Str.split dot (idPath area)) = Some (JStr rawId) ∧ blank rawId = false.

Lemma check_element_ok area st index element ids : scanned st ids →
  (check_element area st index element).1 = [] →
  st.1 = [] ∧ well_identified area element ∧
  scanned (check_element area st index element) (ids ++ option_list (fst <$> identified area element)).
Proof.
  intros [Hnd Hids] Hok. unfold check_element in *.
  destruct (isJsonObject element) eqn:Ho; simpl in Hok; [|by apply report_nonempty in Hok].
  destruct element as [| | | | |part]; try done.
  destruct (readPropertyPath (Some (JObj part)) _) as [v|] eqn:Hv; [|by apply report_nonempty in Hok].
  destruct v as [| | |rawId| |]; try (by apply report_nonempty in Hok).
  destruct (blank rawId) eqn:Hb; [by apply report_nonempty in Hok|].
  destruct (JsMap.get rawId st.2) as [prior|] eqn:Hg; [by apply report_nonempty in Hok|]. simpl in *.
  split_and!; [done|by exists rawId, part|]. unfold identified. rewrite Hv. simpl. split.
  - apply NoDup_app. split_and!; [done| |apply NoDup_singleton]. intros x Hx Hx'%list_elem_of_singleton. subst x.
    apply Hids in Hx. rewrite Hg in Hx. by destruct Hx.
  - intros id. simpl. rewrite elem_of_app, list_elem_of_singleton, Hids, JsMap.get_set.
    case_decide; [subst|]; split; intros; try naive_solver; by eexists.
Qed.

Lemma check_elements_ok area elements : ∀ st index ids, scanned st ids →
  (check_elements area st index elements).1 = [] →
  st.1 = [] ∧ Forall (well_identified area) elements ∧
  scanned (check_elements area st index elements) (ids ++ (omap (identified area) elements).*1).
Proof.
  induction elements as [|e elements IH]; intros st index ids Hst Hok; simpl in *.
  { split_and!; [done|constructor|by rewrite app_nil_r]. }
  assert (∀ st', st'.1 ≠ [] → ∀ i, (check_elements area st' i elements).1 ≠ []) as Hgrow.
  { clear. intros st'. revert st'. induction elements as [|e elements IH]; intros st' Hne i; simpl; [done|]. apply IH.
    unfold check_element. repeat case_match; simpl; try done; by destruct st'.1. }
  assert ((check_element area st index e).1 = []) as He.
  { destruct ((check_element area st index e).1) eqn:Hc; [done|]. exfalso.
    eapply Hgrow; [|exact Hok]. by rewrite Hc. }
  destruct (check_element_ok area st index e ids Hst He) as (Hs & Hw & Hst').
  destruct (IH _ _ _ Hst' Hok) as (_ & Hall & Hst''). split_and!; [done|by constructor|].
  rewrite <- app_assoc in Hst''. by destruct (identified area e).
Qed.

Lemma check_area_grows data area st : st.1 ≠ [] → (check_area data st area).1 ≠ [].
Proof.
  intros Hne. unfold check_area. destruct (readPropertyPath _ _) as [[| | | |l|]|]; try done; try apply report_nonempty.
  generalize 0%nat. revert st Hne. induction l as [|e l IH]; intros st Hne i; simpl; [done|]. apply IH.
  unfold check_element. repeat case_match; simpl; try done; by destruct st.1.
Qed.

Lemma check_areas_ok data areas : ∀ st ids, scanned st ids → (foldl (check_area data) st areas).1 = [] →
  st.1 = [] ∧ Forall (λ area, Forall (well_identified area) (area_elements data area)) areas ∧
  NoDup (ids ++ (parts_of areas data).*1).
Proof.
  induction areas as [|area areas IH]; intros st ids Hst Hok; simpl in *.
  { split_and!; [done|constructor|]. rewrite app_nil_r. apply Hst. }
  assert ((check_area data st area).1 = []) as Ha.
  { destruct ((check_area data st area).1) eqn:Hc; [done|]. exfalso. revert Hok.
    assert ((check_area data st area).1 ≠ []) as Hne by (by rewrite Hc). clear -Hne.
    revert Hne. generalize (check_area data st area). induction areas as [|a areas IH]; intros st' Hne; [done|].
    simpl. by apply IH, check_area_grows. }
  assert (st.1 = [] ∧ Forall (well_identified area) (area_elements data area) ∧
    scanned (check_area data st area) (ids ++ (omap (identified area) (area_elements data area)).*1)) as (H1 & H2 & H3).
  { unfold check_area, area_elements in *. destruct (readPropertyPath _ _) as [[| | | |l|]|];
      try (by apply report_nonempty in Ha); [by eapply check_elements_ok|].
    split_and!; [done|constructor|by rewrite app_nil_r]. }
  destruct (IH _ _ H3 Hok) as (_ & H4 & H5). split_and!; [done|by constructor|].
  unfold parts_of in *. simpl. by rewrite fmap_app, app_assoc.
Qed.

(** C25: In a payload whose part identifiers raise no issue, every element of every
    declared area is an object with a nonblank identifier, and resolving that
    identifier gives exactly this element of this area. *)
Theorem valid_parts_resolve (areas : list part_area) (data : members) (area : part_area) (element : json)
    (Hok : checkArtifactPartIds areas data = []) (Harea : area ∈ areas) (Helement : element ∈ area_elements data area) :
  ∃ id part, element = JObj part ∧
    readPropertyPath (Some element) (Str.split dot (idPath area)) = Some (JStr id) ∧ blank id = false ∧
    resolveArtifactPart areas data id = inr (area_path area, part).
Proof.
  unfold checkArtifactPartIds in Hok.
  destruct (check_areas_ok data areas ([], []) [] ltac:(split; [constructor|]; intros id; split; [by intros ?%elem_of_nil|by intros [??]]) Hok)
    as (_ & Hall & Hnd). simpl in Hnd.
  rewrite Forall_forall in Hall. specialize (Hall area Harea). rewrite Forall_forall in Hall.
  destruct (Hall element Helement) as (id & part & -> & Hid & Hb). exists id, part. split_and!; [done..|].
  unfold resolveArtifactPart, indexArtifactParts. destruct areas as [|a areas]; [by apply elem_of_nil in Harea|].
  rewrite index_parts. rewrite add_parts_get; [|done|done].
  assert ((id, (area_path area, part)) ∈ parts_of (a :: areas) data) as Hin.
  { unfold parts_of. apply list_elem_of_In, in_flat_map. exists area. split; [by apply list_elem_of_In|].
    apply list_elem_of_In, list_elem_of_omap. exists (JObj part). split; [done|]. unfold identified. by rewrite Hid. }
  by rewrite (JsMap.elem_get _ _ _ Hnd Hin).
Qed.

(** A relation source raises no issue exactly when it resolves. *)
Lemma relation_sources_resolve areas data relations : checkArtifactRelationSourceParts areas data relations = [] →
  ∀ localId, Some localId ∈ relations → ∃ part, resolveArtifactPart areas data localId = inr part.
Proof.
  unfold checkArtifactRelationSourceParts. intros Hok localId Hin.
  apply list_elem_of_lookup in Hin as [i Hi].
  assert (∀ (f : nat → option string → list relation_issue) l, List.concat (imap f l) = [] → ∀ i x, l !! i = Some x → f i x = []) as Hconcat.
  { clear. intros f l. revert f. induction l as [|y l IH]; intros f Hc i x Hx; [done|]. simpl in Hc.
    apply app_eq_nil in Hc as [H1 H2]. destruct i as [|i]; simpl in Hx; [by simplify_eq|]. by apply (IH (f ∘ S) H2 i). }
  specialize (Hconcat _ _ Hok i _ Hi). simpl in Hconcat. unfold resolveArtifactPart.
  unfold indexArtifactParts in *. destruct areas as [|a areas]; simpl in *; [done|].
  destruct (JsMap.get localId _) as [[e|p]|]; simpl in *; [done|by exists p|done].
Qed.
