(* ===== verification/ArtifactPatch.v ===== *)
(** * The artifact patch engine

    [core/contracts/src/artifact/patch.ts] (the grammar of a patch document)
    and [extensions/artifact-patch/src/patch-engine.ts]: applying a patch
    document to a copy of an artifact's payload, in memory.

    Payload and operands are values in the memory of [Objects]; the engine
    resolves each instruction to places inside the copy and mutates them.  The
    document's own shape (which operators, which paths, in which order) is only
    read, and is a record.  [None] is a call stack overflow: a payload or operand
    nested without end, or the schema inspection of [KindPaths] running out of
    fuel. *)
From stdpp Require Import gmap.
From Stdlib Require Import Ascii.
From S2P Require Import Prelude Json.
From S2P Require Import JsValue JsonTree Objects KindPaths KindValidation.

(** ** Patch documents *)
Inductive ArtifactPatchOperator := OpSet | OpUnset | OpPush | OpPull.
Definition ARTIFACT_PATCH_OPERATORS : list ArtifactPatchOperator := [OpSet; OpUnset; OpPush; OpPull].
#[export] Instance operator_eq_dec : EqDecision ArtifactPatchOperator.
Proof. solve_decision. Defined.

Definition operator_text (op : ArtifactPatchOperator) : string :=
  match op with OpSet => "$set" | OpUnset => "$unset" | OpPush => "$push" | OpPull => "$pull" end.

(** What one segment of a patch path addresses. *)
Inductive ArtifactPatchSegment :=
  | SProperty (name : string)
  | SIndex (index : N)
  | SFilter (placeholder : string).

(** The placeholder of [$[name]]. *)
Definition is_placeholder (s : string) : bool :=
  match s with EmptyString => false | String c s' => is_name_start c && all_chars is_name_char s' end.
Definition filter_placeholder (segment : string) : option string :=
  match segment with
  | String a (String b s) =>
      if bool_decide (a = "$"%char) && bool_decide (b = "["%char) && Str.ends_with s "]" &&
         is_placeholder (Str.drop_last 1 s)
      then Some (Str.drop_last 1 s) else None
  | _ => None
  end.

(** A canonical non-negative position; [Number(segment)] rounds only beyond any
    array length. *)
Definition index_segment (segment : string) : option N :=
  match segment with
  | String c s =>
      if bool_decide (segment = "0") || (is_digit c && negb (bool_decide (c = "0"%char)) && all_chars is_digit s)
      then digits 0 segment else None
  | EmptyString => None
  end.

Definition artifactPatchSegment (segment : string) : ArtifactPatchSegment :=
  match filter_placeholder segment with
  | Some placeholder => SFilter placeholder
  | None => match index_segment segment with Some index => SIndex index | None => SProperty segment end
  end.

Definition artifactPatchSegments (path : string) : list ArtifactPatchSegment :=
  map artifactPatchSegment (Str.split dot path).

Definition artifactPatchPathFilterNames (path : string) : list string :=
  omap (λ segment, match segment with SFilter placeholder => Some placeholder | _ => None end)
    (artifactPatchSegments path).

(** [ArtifactPatchPathSchema]. *)
Definition is_patch_path (path : string) : bool :=
  match Str.split dot path with
  | [] => false
  | first :: rest =>
      is_property_segment first &&
      forallb (λ s, match artifactPatchSegment s with SProperty name => is_property_segment name | _ => true end) rest
  end.

(** A document over operands of type [V]: values in memory, as the engine reads
    it, or the trees they stand for. *)
Section document.
Context {V : Type}.

(** One array filter: comparison keys and operands. *)
Definition ArtifactPatchArrayFilter : Type := list (string * V).

Record ArtifactPatchDocument := {
  instructions_of : ArtifactPatchOperator → option (list (string * V));
  arrayFilters : option (list ArtifactPatchArrayFilter);
}.

(** [key.split('.')[0]]. *)
Definition first_part (key : string) : string := default "" (head (Str.split dot key)).

Definition artifactPatchFilterName (filter : ArtifactPatchArrayFilter) : option string :=
  match remove_dups (map (λ kv : string * V, first_part kv.1) filter) with
  | [name] => if bool_decide (name = "") then None else Some name
  | _ => None
  end.

Record ArtifactPatchInstruction := { operator : ArtifactPatchOperator; path : string; operand : V }.

Definition artifactPatchInstructions (patch : ArtifactPatchDocument) : list ArtifactPatchInstruction :=
  flat_map (λ op, map (λ kv : string * V, {| operator := op; path := kv.1; operand := kv.2 |})
                    (default [] (instructions_of patch op))) ARTIFACT_PATCH_OPERATORS.

Definition CompiledFilter : Type := list (list string * V).
Definition filters_map : Type := list (string * CompiledFilter).

Definition compileFilter (filter : ArtifactPatchArrayFilter) : CompiledFilter :=
  map (λ kv : string * V, (tail (Str.split dot kv.1), kv.2)) filter.

Definition compileFilters (patch : ArtifactPatchDocument) : filters_map :=
  foldl (λ compiled filter,
    match artifactPatchFilterName filter with
    | Some name => JsMap.set name (compileFilter filter) compiled
    | None => compiled
    end) [] (default [] (arrayFilters patch)).
End document.
Arguments ArtifactPatchArrayFilter V : clear implicits.
Arguments ArtifactPatchDocument V : clear implicits.
Arguments ArtifactPatchInstruction V : clear implicits.
Arguments CompiledFilter V : clear implicits.
Arguments filters_map V : clear implicits.

(** ** Results *)
Inductive ArtifactPatchErrorCode :=
  | PATH_NOT_DECLARED | PATH_NOT_RESOLVABLE | TARGET_NOT_A_COLLECTION | UNSUPPORTED_TARGET | NO_MATCH.

Record ArtifactPatchError := PatchError {
  code : ArtifactPatchErrorCode;
  error_operator : ArtifactPatchOperator;
  error_path : string;
  message : string;
  repair : string;
}.

Record ArtifactPatchOperationResult := {
  result_operator : ArtifactPatchOperator;
  result_path : string;
  matched : nat;
}.

Record ArtifactPatchApplyOptions := { allowUndeclaredRemovals : bool }.

(** ** Places *)
Inductive PatchTarget :=
  | TProperty (container : loc) (key : string)
  | TElement (container : loc) (index : nat).

Definition toSchemaLocation (segments : list ArtifactPatchSegment) : list string :=
  map (λ segment, match segment with SProperty name => name | _ => ARTIFACT_COLLECTION_ELEMENT_SEGMENT end) segments.

(** [fragment.type === 'array']. *)
Definition type_is_array (f : ArtifactSchemaFragment) : bool :=
  match f with FBool _ => false | FNode n => bool_decide (ownValue n "type" = Some (JStr "array")) end.
Definition declaresArray (fragments : list ArtifactSchemaFragment) : bool :=
  negb (Nat.eqb (length fragments) 0) && forallb type_is_array fragments.

Definition matchesFilter (m : mem) (element : option hval) (conditions : CompiledFilter hval) : option bool :=
  every (λ condition : list string * hval,
    equals m (Objects.readPropertyPath (cells m) element condition.1) (Some condition.2)) conditions.

Definition matchesPullCondition (m : mem) (element : option hval) (condition : hval) : option bool :=
  match object_at (cells m) (Some condition) with
  | None => equals m element (Some condition)
  | Some (_, entries) =>
      match object_at (cells m) element with
      | None => Some false
      | Some (_, own) => every (λ kv : string * hval, equals m (JsMap.get kv.1 own) (Some kv.2)) entries
      end
  end.

(** [list.filter(f)], the indices kept, where [f] may not return. *)
Fixpoint indices_where {A} (f : A → option bool) (l : list A) (i : nat) : option (list nat) :=
  match l with
  | [] => Some []
  | x :: l' =>
      b ← f x;
      rest ← indices_where f l' (S i);
      Some (if (b : bool) then i :: rest else rest)
  end.

(** The places one segment addresses in one container. *)
Definition targets_in (m : mem) (segment : ArtifactPatchSegment) (filters : filters_map hval) (requireExisting : bool)
    (container : option hval) : option (list PatchTarget) :=
  match segment with
  | SProperty name =>
      match object_at (cells m) container with
      | None => Some []
      | Some (l, own) => Some (if requireExisting && negb (JsMap.has name own) then [] else [TProperty l name])
      end
  | SIndex index =>
      match array_at (cells m) container with
      | None => Some []
      | Some (l, items) => Some (if (index <? N.of_nat (length items))%N then [TElement l (N.to_nat index)] else [])
      end
  | SFilter placeholder =>
      match array_at (cells m) container with
      | None => Some []
      | Some (l, items) =>
          indices ← indices_where (λ element, matchesFilter m (Some element)
                                     (default [] (JsMap.get placeholder filters))) items 0;
          Some (map (TElement l) indices)
      end
  end.

Definition resolveTargets (m : mem) (containers : list (option hval)) (segment : ArtifactPatchSegment)
    (filters : filters_map hval) (requireExisting : bool) : option (list PatchTarget) :=
  targets ← mapM (targets_in m segment filters requireExisting) containers;
  Some (List.concat targets).

Definition readTarget (m : mem) (target : PatchTarget) : option hval :=
  match target with
  | TProperty l key => match cells m !! l with Some (CObj own) => JsMap.get key own | _ => None end
  | TElement l index => match cells m !! l with Some (CArr items) => items !! index | _ => None end
  end.

Definition writeTarget (m : mem) (target : PatchTarget) (v : hval) : mem :=
  match target with
  | TProperty l key => match cells m !! l with Some (CObj own) => put l (CObj (JsMap.set key v own)) m | _ => m end
  | TElement l index => match cells m !! l with Some (CArr items) => put l (CArr (<[index := v]> items)) m | _ => m end
  end.

Definition is_filter (segment : ArtifactPatchSegment) : bool :=
  match segment with SFilter _ => true | _ => false end.
Definition is_index (segment : ArtifactPatchSegment) : bool :=
  match segment with SIndex _ => true | _ => false end.
Definition is_property (segment : ArtifactPatchSegment) : bool :=
  match segment with SProperty _ => true | _ => false end.

(** The loop of [resolveContainers]: [inr] is the segment that stopped it. *)
Fixpoint resolveContainers (m : mem) (containers : list (option hval)) (segments : list ArtifactPatchSegment)
    (filters : filters_map hval) : option (list (option hval) + ArtifactPatchSegment) :=
  match segments with
  | [] => Some (inl containers)
  | segment :: rest =>
      targets ← resolveTargets m containers segment filters true;
      if Nat.eqb (length targets) 0 then Some (inr segment)
      else if negb (is_filter segment) && (length targets <? length containers)%nat then Some (inr segment)
      else resolveContainers m (map (readTarget m) targets) rest filters
  end.

(** ** Operators

    Each returns the memory it leaves and the number of changed places, [None]
    for [undefined]. *)
Fixpoint applySet (m : mem) (targets : list PatchTarget) (value : hval) : option mem :=
  match targets with
  | [] => Some m
  | target :: rest =>
      '(m1, v) ← structuredClone m value;
      applySet (writeTarget m1 target v) rest value
  end.

Definition delete_property (m : mem) (target : PatchTarget) : mem :=
  match target with
  | TProperty l key => match cells m !! l with Some (CObj own) => put l (CObj (JsMap.delete key own)) m | _ => m end
  | TElement _ _ => m
  end.
Definition applyUnset (m : mem) (targets : list PatchTarget) : mem := foldl delete_property m targets.

Fixpoint applyPush (m : mem) (targets : list PatchTarget) (value : hval) : option (mem * bool) :=
  match targets with
  | [] => Some (m, true)
  | target :: rest =>
      match readTarget m target with
      | None =>
          '(m1, v) ← structuredClone m value;
          applyPush (writeTarget (alloc (CArr [v]) m1) target (HRef (brk m1))) rest value
      | current =>
          match array_at (cells m) current with
          | None => Some (m, false)
          | Some (l, items) =>
              '(m1, v) ← structuredClone m value;
              applyPush (put l (CArr (items ++ [v])) m1) rest value
          end
      end
  end.

(** [current.filter((element) => !matchesPullCondition(element, condition))]. *)
Fixpoint retained (m : mem) (condition : hval) (items : list hval) : option (list hval) :=
  match items with
  | [] => Some []
  | element :: rest =>
      b ← matchesPullCondition m (Some element) condition;
      rest' ← retained m condition rest;
      Some (if (b : bool) then rest' else element :: rest')
  end.

Fixpoint applyPull (m : mem) (targets : list PatchTarget) (condition : hval) (removed : nat)
    : option (mem * option nat) :=
  match targets with
  | [] => Some (m, Some removed)
  | target :: rest =>
      match array_at (cells m) (readTarget m target) with
      | None => Some (m, None)
      | Some (l, items) =>
          kept ← retained m condition items;
          applyPull (put l (CArr kept) m) rest condition (removed + (length items - length kept))
      end
  end.

Definition applyOperator (m : mem) (op : ArtifactPatchOperator) (targets : list PatchTarget) (operand : hval)
    : option (mem * option nat) :=
  match op with
  | OpSet => m' ← applySet m targets operand; Some (m', Some (length targets))
  | OpUnset => Some (applyUnset m targets, Some (length targets))
  | OpPush => '(m', ok) ← applyPush m targets operand; Some (m', if (ok : bool) then Some (length targets) else None)
  | OpPull => applyPull m targets operand 0
  end.

(** ** Instructions *)
Definition segmentText (segment : ArtifactPatchSegment) : string :=
  match segment with
  | SProperty name => name
  | SIndex index => pretty index
  | SFilter placeholder => "$[" +:+ placeholder +:+ "]"
  end.

Definition noMatch (op : ArtifactPatchOperator) (path message : string) : ArtifactPatchError :=
  PatchError NO_MATCH op path message
    "Addressing nothing is a failure, not a silent no-op: check the match values against the current revision.".

Definition unsupportedTarget (op : ArtifactPatchOperator) (terminal : ArtifactPatchSegment) (path : string)
    : option ArtifactPatchError :=
  if is_property terminal then None
  else match op with
  | OpSet => None
  | OpUnset => Some (PatchError UNSUPPORTED_TARGET op path
      ("$unset addresses object properties; '" +:+ path +:+ "' addresses a collection entry.")
      "Remove a collection entry with $pull instead of $unset.")
  | OpPush | OpPull => Some (PatchError UNSUPPORTED_TARGET op path
      (operator_text op +:+ " addresses a collection; '" +:+ path +:+ "' addresses one of its entries.")
      ("Point " +:+ operator_text op +:+ " at the collection itself, without the trailing entry selector."))
  end.

(** [operator === '$push' || operator === '$pull']. *)
Definition is_collection_operator (op : ArtifactPatchOperator) : bool :=
  match op with OpPush | OpPull => true | _ => false end.

Section engine.
Context `{Identity} (fuel : nat) (dataSchema : members).

Definition checkDeclaration (op : ArtifactPatchOperator) (path : string) (segments : list ArtifactPatchSegment)
    : option (option ArtifactPatchError) :=
  fragments ← inspectArtifactDataLocation dataSchema fuel (toSchemaLocation segments) false false;
  Some match fragments with
  | None => Some (PatchError PATH_NOT_DECLARED op path
      ("The artifact kind does not declare '" +:+ path +:+ "'.")
      "Correct the path to one the kind schema declares; a misspelled field is never created.")
  | Some fragments =>
      if is_collection_operator op && negb (declaresArray fragments)
      then Some (PatchError TARGET_NOT_A_COLLECTION op path
        ("The artifact kind declares '" +:+ path +:+ "' as something other than a collection.")
        ("Use $set to replace '" +:+ path +:+ "', or point " +:+ operator_text op +:+ " at a declared collection."))
      else None
  end.

(** [declaration && !removesUndeclared]. *)
Definition refuses (options : ArtifactPatchApplyOptions) (op : ArtifactPatchOperator)
    (declaration : option ArtifactPatchError) : option ArtifactPatchError :=
  match declaration with
  | Some e =>
      match allowUndeclaredRemovals options, code e, op with
      | true, PATH_NOT_DECLARED, OpUnset => None
      | _, _, _ => Some e
      end
  | None => None
  end.

(** The part of [applyInstruction] that reads and writes the payload. *)
Definition applyToPayload (m : mem) (data : hval) (filters : filters_map hval) (op : ArtifactPatchOperator) (path : string)
    (value : hval) (walk : list ArtifactPatchSegment) (terminal : ArtifactPatchSegment)
    : option (mem * (ArtifactPatchError + ArtifactPatchOperationResult)) :=
  containers ← resolveContainers m [Some data] walk filters;
  match containers with
  | inr segment =>
      let stopped := segmentText segment in
      Some (m, inl (if is_property segment
        then PatchError PATH_NOT_RESOLVABLE op path
          ("This revision has no value at '" +:+ stopped +:+ "' along '" +:+ path +:+ "'.")
          ("Set the value at '" +:+ stopped +:+ "' before addressing anything below it.")
        else noMatch op path ("'" +:+ stopped +:+ "' in '" +:+ path +:+ "' addressed no entry in this revision.")))
  | inl containers =>
      let requireExisting := match op with OpUnset | OpPull => true | _ => false end in
      targets ← resolveTargets m containers terminal filters requireExisting;
      if Nat.eqb (length targets) 0
      then Some (m, inl (noMatch op path ("'" +:+ path +:+ "' addressed no entry in this revision.")))
      else if is_index terminal && (length targets <? length containers)%nat
      then Some (m, inl (noMatch op path
             ("'" +:+ path +:+ "' addressed no entry in every selected collection of this revision.")))
      else
        '(m', matched) ← applyOperator m op targets value;
        Some (m', match matched with
        | None => inl (PatchError TARGET_NOT_A_COLLECTION op path
            ("The value at '" +:+ path +:+ "' is not a collection in this revision.")
            ("Use $set to replace '" +:+ path +:+ "', or point " +:+ operator_text op +:+ " at a collection."))
        | Some O => inl (noMatch op path ("'" +:+ path +:+ "' changed nothing in this revision."))
        | Some n => inr {| result_operator := op; result_path := path; matched := n |}
        end)
  end.

Definition applyInstruction (m : mem) (data : hval) (instruction : ArtifactPatchInstruction hval) (filters : filters_map hval)
    (options : ArtifactPatchApplyOptions) : option (mem * (ArtifactPatchError + ArtifactPatchOperationResult)) :=
  let op := operator instruction in
  let path := path instruction in
  let segments := artifactPatchSegments path in
  match last segments with
  | None => Some (m, inl (noMatch op path ("'" +:+ path +:+ "' addresses nothing.")))
  | Some terminal =>
      match unsupportedTarget op terminal path with
      | Some e => Some (m, inl e)
      | None =>
          declaration ← checkDeclaration op path segments;
          match refuses options op declaration with
          | Some e => Some (m, inl e)
          | None => applyToPayload m data filters op path (operand instruction) (removelast segments) terminal
          end
      end
  end.

Fixpoint applyInstructions (m : mem) (draft : hval) (filters : filters_map hval) (options : ArtifactPatchApplyOptions)
    (operations : list ArtifactPatchOperationResult) (instructions : list (ArtifactPatchInstruction hval))
    : option (mem * (ArtifactPatchError + list ArtifactPatchOperationResult)) :=
  match instructions with
  | [] => Some (m, inr operations)
  | instruction :: rest =>
      '(m', outcome) ← applyInstruction m draft instruction filters options;
      match outcome with
      | inl e => Some (m', inl e)
      | inr operation => applyInstructions m' draft filters options (operations ++ [operation]) rest
      end
  end.

(** [inl]: the first rejected instruction; [inr]: the patched payload and what
    each instruction changed. *)
Definition applyArtifactPatch (m : mem) (data : hval) (patch : ArtifactPatchDocument hval)
    (options : ArtifactPatchApplyOptions)
    : option (mem * (ArtifactPatchError + hval * list ArtifactPatchOperationResult)) :=
  '(m1, draft) ← structuredClone m data;
  '(m2, outcome) ← applyInstructions m1 draft (compileFilters patch) options [] (artifactPatchInstructions patch);
  Some (m2, match outcome with inl e => inl e | inr operations => inr (draft, operations) end).
End engine.

(** A property named by a patch path is no array index, so a property added
    under it comes after the members an object has. *)
Lemma property_segment_index name : is_property_segment name = true → array_index name = None.
Proof.
  destruct name as [|c name]; [done|]. simpl. intros [Hc _]%andb_true_iff. unfold array_index. simpl.
  destruct ((48 <=? N_of_ascii c)%N && (N_of_ascii c <=? 57)%N) eqn:Hd; [|done].
  apply andb_true_iff in Hd as [H1%N.leb_le H2%N.leb_le]. exfalso. revert Hc.
  unfold is_name_start, is_letter. rewrite !orb_true_iff, !andb_true_iff, !N.leb_le, !bool_decide_eq_true.
  intros [[[?|?]| ->]| ->]; try lia; vm_compute in H1, H2; congruence.
Qed.

Lemma patch_property_names path name : is_patch_path path = true →
  SProperty name ∈ artifactPatchSegments path → array_index name = None.
Proof.
  unfold is_patch_path, artifactPatchSegments. destruct (Str.split dot path) as [|first rest]; [done|].
  intros [Hfirst Hrest]%andb_true_iff Hin. apply property_segment_index. simpl in Hin.
  apply elem_of_cons in Hin as [Heq|Hin].
  - unfold artifactPatchSegment in Heq. destruct (filter_placeholder first); [done|].
    destruct (index_segment first); by simplify_eq.
  - rewrite forallb_forall in Hrest. apply list_elem_of_fmap in Hin as (s & Hs & Hin%list_elem_of_In).
    specialize (Hrest _ Hin). by rewrite <- Hs in Hrest.
Qed.
