(* ===== verification/ArtifactEdits.v ===== *)
(** * What a patch document means

    The specification of the artifact patch engine, on JSON trees and without
    memory: each instruction is one structural edit of the payload at the places
    its path addresses.  An edit that cannot be carried out in every branch its
    path selects, or that changes nothing, makes the whole document fail. *)
From S2P Require Import Prelude Json.
From S2P Require Import JsValue JsonTree KindPaths KindValidation ArtifactPatch.

Definition tree_matches (conditions : CompiledFilter json) (element : json) : bool :=
  forallb (λ condition : list string * json,
    equal_values (readPropertyPath (Some element) condition.1) (Some condition.2)) conditions.

(** An object condition compares its own members, any other the whole element. *)
Definition tree_pulled (condition element : json) : bool :=
  match condition, element with
  | JObj entries, JObj own => forallb (λ kv : string * json, equal_values (ownValue own kv.1) (Some kv.2)) entries
  | JObj _, _ => false
  | _, _ => jsonEquals element condition
  end.

(** Editing each element, and the number of changed places. *)
Fixpoint edit_each (f : json → option (json * nat)) (items : list json) : option (list json * nat) :=
  match items with
  | [] => Some ([], 0%nat)
  | item :: rest =>
      '(item', n) ← f item;
      '(rest', k) ← edit_each f rest;
      Some (item' :: rest', (n + k)%nat)
  end.

Section edits.
Context (filters : filters_map json) (op : ArtifactPatchOperator) (operand : json).

Definition conditions_of (placeholder : string) : CompiledFilter json := default [] (JsMap.get placeholder filters).

(** The edit at the last segment: a property of an object, or elements of an
    array for [$set].  A property edit skips what is no object. *)
Definition edit_here (terminal : ArtifactPatchSegment) (j : json) : option (json * nat) :=
  match op, terminal, j with
  | OpSet, SProperty name, JObj m => Some (JObj (JsMap.set name operand m), 1%nat)
  | OpSet, SIndex i, JArr l =>
      if (i <? N.of_nat (length l))%N then Some (JArr (<[N.to_nat i := operand]> l), 1%nat) else None
  | OpSet, SFilter placeholder, JArr l =>
      let matches := tree_matches (conditions_of placeholder) in
      Some (JArr (map (λ c, if matches c then operand else c) l), length (List.filter matches l))
  | OpUnset, SProperty name, JObj m =>
      Some (if JsMap.has name m then (JObj (JsMap.delete name m), 1%nat) else (j, 0%nat))
  | OpPush, SProperty name, JObj m =>
      match ownValue m name with
      | None => Some (JObj (JsMap.set name (JArr [operand]) m), 1%nat)
      | Some (JArr l) => Some (JObj (JsMap.set name (JArr (l ++ [operand])) m), 1%nat)
      | Some _ => None
      end
  | OpPull, SProperty name, JObj m =>
      match ownValue m name with
      | None => Some (j, 0%nat)
      | Some (JArr l) =>
          let kept := List.filter (λ c, negb (tree_pulled operand c)) l in
          Some (JObj (JsMap.set name (JArr kept) m), (length l - length kept)%nat)
      | Some _ => None
      end
  | _, SProperty _, _ => Some (j, 0%nat)
  | OpSet, SFilter _, _ => Some (j, 0%nat)
  | _, _, _ => None
  end.

(** A named property and a position must be there in every branch; a filter may
    select any number of elements, of arrays. *)
Fixpoint edit (segments : list ArtifactPatchSegment) (j : json) {struct segments} : option (json * nat) :=
  match segments with
  | [] => None
  | segment :: rest =>
      match rest with
      | [] => edit_here segment j
      | _ =>
          match segment, j with
          | SProperty name, JObj m =>
              c ← ownValue m name;
              '(c', n) ← edit rest c;
              Some (JObj (JsMap.set name c' m), n)
          | SIndex i, JArr l =>
              c ← l !! N.to_nat i;
              '(c', n) ← edit rest c;
              Some (JArr (<[N.to_nat i := c']> l), n)
          | SFilter placeholder, JArr l =>
              '(l', n) ← edit_each (λ c, if tree_matches (conditions_of placeholder) c
                                         then edit rest c else Some (c, 0%nat)) l;
              Some (JArr l', n)
          | SFilter _, _ => Some (j, 0%nat)
          | _, _ => None
          end
      end
  end.
End edits.

Section documents.
Context `{Identity} (fuel : nat) (dataSchema : members) (options : ArtifactPatchApplyOptions).

(** One instruction: [Some None] rejects it, [None] is a schema inspection that
    has not returned. *)
Definition edit_instruction (filters : filters_map json) (j : json) (instruction : ArtifactPatchInstruction json)
    : option (option (json * ArtifactPatchOperationResult)) :=
  let op := operator instruction in
  let path := path instruction in
  let segments := artifactPatchSegments path in
  match last segments with
  | None => Some None
  | Some terminal =>
      match unsupportedTarget op terminal path with
      | Some _ => Some None
      | None =>
          declaration ← checkDeclaration fuel dataSchema op path segments;
          Some match refuses options op declaration with
          | Some _ => None
          | None =>
              match edit filters op (operand instruction) segments j with
              | Some (j', S n) => Some (j', {| result_operator := op; result_path := path; matched := S n |})
              | _ => None
              end
          end
      end
  end.

Fixpoint edit_instructions (filters : filters_map json) (j : json) (operations : list ArtifactPatchOperationResult)
    (instructions : list (ArtifactPatchInstruction json)) : option (option (json * list ArtifactPatchOperationResult)) :=
  match instructions with
  | [] => Some (Some (j, operations))
  | instruction :: rest =>
      outcome ← edit_instruction filters j instruction;
      match outcome with
      | None => Some None
      | Some (j', operation) => edit_instructions filters j' (operations ++ [operation]) rest
      end
  end.

Definition edit_document (j : json) (patch : ArtifactPatchDocument json) :=
  edit_instructions (compileFilters patch) j [] (artifactPatchInstructions patch).
End documents.

(** ** Edits are local *)

(** A property path that leaves the edited path at a property of another name. *)
Fixpoint diverges (segments : list ArtifactPatchSegment) (q : list string) : bool :=
  match segments, q with
  | SProperty a :: segments', b :: q' => if decide (a = b) then diverges segments' q' else true
  | _, _ => false
  end.

Lemma read_member (m : members) k q : readPropertyPath (Some (JObj m)) (k :: q) = readPropertyPath (ownValue m k) q.
Proof. done. Qed.

Lemma read_set_ne (m : members) a c b q : a ≠ b →
  readPropertyPath (Some (JObj (JsMap.set a c m))) (b :: q) = readPropertyPath (Some (JObj m)) (b :: q).
Proof. intros Hne. rewrite !read_member. unfold ownValue. by rewrite JsMap.get_set_ne. Qed.

Lemma edit_here_elsewhere filters op operand a b q j j' n : a ≠ b →
  edit_here filters op operand (SProperty a) j = Some (j', n) →
  readPropertyPath (Some j') (b :: q) = readPropertyPath (Some j) (b :: q).
Proof.
  intros Hne He. destruct op, j as [| | | | |m]; simpl in He; try (by simplify_eq).
  - simplify_eq. by apply read_set_ne.
  - destruct (JsMap.has a m); simplify_eq; [|done]. rewrite !read_member. unfold ownValue. by rewrite JsMap.get_delete_ne.
  - destruct (ownValue m a) as [[| | | |l|]|]; simplify_eq; by apply read_set_ne.
  - destruct (ownValue m a) as [[| | | |l|]|]; simplify_eq; [by apply read_set_ne|done].
Qed.

(** An edit changes nothing along a property path that leaves its own path. *)
Theorem edits_elsewhere_unchanged filters op operand segments q j j' n
    (Hedit : edit filters op operand segments j = Some (j', n)) (Hq : diverges segments q = true) :
  readPropertyPath (Some j') q = readPropertyPath (Some j) q.
Proof.
  revert q j j' n Hedit Hq. induction segments as [|s segments IH]; intros q j j' n He Hq; [done|].
  destruct s as [a| |], q as [|b q]; try done. simpl in Hq. destruct segments as [|s' segments].
  { case_decide; [by destruct q|]. by eapply edit_here_elsewhere. }
  destruct j as [| | | | |m]; try done.
  change ((c ← ownValue m a; '(c', k) ← edit filters op operand (s' :: segments) c; Some (JObj (JsMap.set a c' m), k)) = Some (j', n)) in He.
  destruct (ownValue m a) as [c|] eqn:Hc; [|done]. cbn [mbind option_bind] in He.
  destruct (edit filters op operand (s' :: segments) c) as [[c' k]|] eqn:He'; [|done]. cbn [mbind option_bind] in He. simplify_eq.
  case_decide as Hab; [subst b|by apply read_set_ne].
  rewrite !read_member, Hc. unfold ownValue. rewrite JsMap.get_set_eq. by eapply IH.
Qed.

(** What was set at a property path is read back there. *)
Theorem set_then_read filters operand q j j' n
    (Hedit : edit filters OpSet operand (map SProperty q) j = Some (j', S n)) :
  readPropertyPath (Some j') q = Some operand.
Proof.
  revert j j' n Hedit. induction q as [|a q IH]; intros j j' n He; [done|]. destruct q as [|b q].
  { destruct j as [| | | | |m]; simpl in He; simplify_eq. rewrite read_member. unfold ownValue. by rewrite JsMap.get_set_eq. }
  destruct j as [| | | | |m]; try done.
  change ((c ← ownValue m a; '(c', k) ← edit filters OpSet operand (map SProperty (b :: q)) c; Some (JObj (JsMap.set a c' m), k)) = Some (j', S n)) in He.
  destruct (ownValue m a) as [c|]; [|done]. cbn [mbind option_bind] in He.
  destruct (edit filters OpSet operand (map SProperty (b :: q)) c) as [[c' k]|] eqn:He'; [|done].
  cbn [mbind option_bind] in He. simplify_eq. rewrite read_member. unfold ownValue. rewrite JsMap.get_set_eq. by eapply IH.
Qed.
