(* ===== verification/PatchMemory.v ===== *)
(** * Changing a tree in memory

    Frame reasoning for the patch engine: [touches m m' S S'] says a run changed
    no cell outside [S] and left the cells [S'] of the same tree, and each lemma
    below gives the tree that a change of one cell or one child leaves. *)
From stdpp Require Import gmap.
From S2P Require Import Prelude Json.
From S2P Require Import JsonTree Objects.

Definition touches (m m' : mem) (S S' : gset loc) : Prop :=
  wf_mem m' ∧ (brk m ≤ brk m')%nat ∧
  (∀ l, (l < brk m)%nat → l ∉ S → cells m' !! l = cells m !! l) ∧
  (∀ l, l ∈ S' → l ∈ S ∨ (brk m ≤ l < brk m')%nat).

Lemma touches_refl m S : wf_mem m → touches m m S S.
Proof. intros Hm. split_and!; auto. Qed.

Lemma touches_extends m m' S : extends m m' S → touches m m' ∅ S.
Proof. intros (H1 & H2 & H3 & H4). split_and!; auto. Qed.

Lemma touches_trans m m1 m2 S S1 S2 : touches m m1 S S1 → touches m1 m2 S1 S2 → touches m m2 S S2.
Proof.
  intros (W1 & B1 & F1 & N1) (W2 & B2 & F2 & N2). split_and!; [done|lia| |].
  - intros l Hl Hn. rewrite F2; [by apply F1|lia|]. intros [?|?]%N1; [done|lia].
  - intros l [[Hl|Hl]%N1|Hl]%N2; [by left|right; lia|right; lia].
Qed.

(** A part of the tree that a run works on, the rest standing by. *)
Lemma touches_part m m' S S' R : (∀ l, l ∈ R → (l < brk m)%nat) → S ## R →
  touches m m' S S' → touches m m' (S ∪ R) (S' ∪ R) ∧ S' ## R.
Proof.
  intros HR Hd (W & B & F & N). split.
  - split_and!; [done|done|set_solver|]. intros l [[Hl|Hl]%N|Hl]%elem_of_union; set_solver.
  - apply elem_of_disjoint. intros l [Hl|Hl]%N Hr; [set_solver|]. apply HR in Hr. lia.
Qed.

Lemma touches_weaken m m' S S' T T' : S ⊆ T → T' ⊆ S' → touches m m' S S' → touches m m' T T'.
Proof.
  intros H1 H2 (W & B & F & N). split_and!; [done|done|set_solver|]. intros l Hl. destruct (N l); [set_solver|left; set_solver|by right].
Qed.

Lemma touches_same m m' S S' l : touches m m' S S' → (l < brk m)%nat → l ∉ S → cells m' !! l = cells m !! l.
Proof. intros (W & B & F & N). apply F. Qed.

Lemma touches_rep m m' S S' v j T : wf_mem m → touches m m' S S' → T ## S → rep (cells m) v j T → rep (cells m') v j T.
Proof.
  intros Hm Ht Hd Hr. eapply rep_frame; [exact Hr|]. intros l Hl. eapply touches_same; [done| |set_solver].
  by eapply rep_brk.
Qed.
Lemma touches_reps m m' S S' vs js T : wf_mem m → touches m m' S S' → T ## S → reps (cells m) vs js T → reps (cells m') vs js T.
Proof.
  intros Hm Ht Hd Hr. eapply reps_frame; [exact Hr|]. intros l Hl. eapply touches_same; [done| |set_solver].
  by eapply reps_brk.
Qed.

(** Overwriting one cell of the tree. *)
Lemma touches_put m l c S S' : wf_mem m → l ∈ S → (l < brk m)%nat → S' ⊆ S → touches m (put l c m) S S'.
Proof.
  intros Hm Hl Hlt HS. split_and!; [by apply wf_put|simpl; lia| |intros k Hk; left; set_solver].
  intros k Hk Hn. simpl. by rewrite lookup_insert_ne by set_solver.
Qed.

(** ** One child among its siblings *)
Section siblings.
Context (h : heap).

Lemma reps_app vs1 js1 S1 vs2 js2 S2 : reps h vs1 js1 S1 → reps h vs2 js2 S2 → S1 ## S2 →
  reps h (vs1 ++ vs2) (js1 ++ js2) (S1 ∪ S2).
Proof.
  induction 1 as [|v vs j js T1 T2 Hv Hvs IH Hd]; intros H2 Hdis; simpl.
  - replace (∅ ∪ S2) with S2 by set_solver. done.
  - replace ((T1 ∪ T2) ∪ S2) with (T1 ∪ (T2 ∪ S2)) by set_solver. constructor; [done| |set_solver].
    apply IH; [done|set_solver].
Qed.

Lemma reps_app_inv vs1 vs2 js S : reps h (vs1 ++ vs2) js S → ∃ js1 js2 S1 S2,
  js = js1 ++ js2 ∧ S = S1 ∪ S2 ∧ S1 ## S2 ∧ reps h vs1 js1 S1 ∧ reps h vs2 js2 S2.
Proof.
  revert js S. induction vs1 as [|v vs1 IH]; intros js S Hrs; simpl in *.
  - exists [], js, ∅, S. split_and!; [done|set_solver|set_solver|constructor|done].
  - inversion Hrs as [|? ? j js0 T1 T2 Hv Hvs Hd]; subst. destruct (IH _ _ Hvs) as (js1 & js2 & S1 & S2 & -> & -> & Hd2 & H1 & H2).
    exists (j :: js1), js2, (T1 ∪ S1), S2. split_and!; [done|set_solver|set_solver|constructor; [done..|set_solver]|done].
Qed.

Lemma reps_single v j S : rep h v j S → reps h [v] [j] S.
Proof. intros Hv. replace S with (S ∪ ∅) by set_solver. constructor; [done|constructor|set_solver]. Qed.
Lemma reps_single_inv v js S : reps h [v] js S → ∃ j, js = [j] ∧ rep h v j S.
Proof.
  inversion 1 as [|? ? j js0 T1 T2 Hv Hvs Hd]; subst. inversion Hvs; subst. exists j. split; [done|].
  by replace (T1 ∪ ∅) with T1 by set_solver.
Qed.

Lemma reps_lookup vs js S i : reps h vs js S → repo h (vs !! i) (js !! i).
Proof.
  intros Hrs. revert i. induction Hrs as [|v vs j js S1 S2 Hv Hvs IH Hd]; intros [|i]; simpl; try done; by eexists.
Qed.

(** Replacing the child at a position. *)
Lemma reps_focus vs js S i v j : reps h vs js S → vs !! i = Some v → js !! i = Some j → ∃ Sj R,
  S = Sj ∪ R ∧ Sj ## R ∧ rep h v j Sj ∧
  ∀ h' j' Sj', rep h' v j' Sj' → (∀ l, l ∈ R → h' !! l = h !! l) → Sj' ## R → reps h' vs (<[i := j']> js) (Sj' ∪ R).
Proof.
  intros Hrs. revert i. induction Hrs as [|v0 vs j0 js S1 S2 Hv Hvs IH Hd]; intros [|i] Hv0 Hj0; try done; simpl in *.
  - simplify_eq. exists S1, S2. split_and!; [done..|]. intros h' j' Sj' Hr Hfr Hdis. constructor; [done| |done].
    by eapply reps_frame.
  - destruct (IH i Hv0 Hj0) as (Sj & R & -> & Hd2 & Hr & Hput).
    exists Sj, (S1 ∪ R). split_and!; [set_solver|set_solver|done|]. intros h' j' Sj' Hr' Hfr Hdis.
    replace (Sj' ∪ (S1 ∪ R)) with (S1 ∪ (Sj' ∪ R)) by set_solver. constructor.
    + eapply rep_frame; [done|]. intros; apply Hfr; set_solver.
    + apply Hput; [done| |set_solver]. intros; apply Hfr; set_solver.
    + set_solver.
Qed.

(** The same for a member by name. *)
Lemma members_focus (own : list (string * hval)) (m : list (string * json)) S k v j : own.*1 = m.*1 → reps h (own.*2) (m.*2) S →
  JsMap.get k own = Some v → ownValue m k = Some j → ∃ Sj R,
  S = Sj ∪ R ∧ Sj ## R ∧ rep h v j Sj ∧
  ∀ h' j' Sj', rep h' v j' Sj' → (∀ l, l ∈ R → h' !! l = h !! l) → Sj' ## R →
    reps h' (own.*2) ((JsMap.set k j' m).*2) (Sj' ∪ R).
Proof.
  intros Hk Hrs Hv Hj. assert (∃ i, own.*2 !! i = Some v ∧ m.*2 !! i = Some j ∧ ∀ j', (JsMap.set k j' m).*2 = <[i := j']> (m.*2))
    as (i & Hi & Hi' & Hset).
  { clear Hrs. revert m Hk Hv Hj. induction own as [|[k1 v1] own IH]; intros [|[k2 j2] m] Hk Hv Hj; try done.
    simpl in *. simplify_eq. case_decide; simplify_eq; [by exists O|].
    destruct (IH m) as (i & H1 & H2 & H3); [done..|]. exists (Datatypes.S i). simpl. split_and!; [done..|]. intros j'. by rewrite H3. }
  destruct (reps_focus _ _ _ i v j Hrs Hi Hi') as (Sj & R & HS & Hd & Hr & Hput).
  exists Sj, R. split_and!; [done..|]. intros h' j' Sj' ???. rewrite Hset. by apply Hput.
Qed.

(** Storing a new child at a position, or under a name. *)
Lemma reps_insert vs js S i v j T : reps h vs js S → rep h v j T → T ## S →
  ∃ S', S' ⊆ S ∪ T ∧ reps h (<[i := v]> vs) (<[i := j]> js) S'.
Proof.
  intros Hrs Hv. revert i. induction Hrs as [|v0 vs j0 js S1 S2 Hv0 Hvs IH Hd]; intros [|i] HT; simpl.
  - exists ∅. split; [set_solver|constructor].
  - exists ∅. split; [set_solver|constructor].
  - exists (T ∪ S2). split; [set_solver|]. constructor; [done|done|set_solver].
  - destruct (IH i) as (S' & Hsub & Hrs); [set_solver|]. exists (S1 ∪ S'). split; [set_solver|]. constructor; [done|done|set_solver].
Qed.

Lemma members_set (own : list (string * hval)) (m : list (string * json)) S k v j T : own.*1 = m.*1 → reps h (own.*2) (m.*2) S → rep h v j T → T ## S →
  (JsMap.set k v own).*1 = (JsMap.set k j m).*1 ∧
  ∃ S', S' ⊆ S ∪ T ∧ reps h ((JsMap.set k v own).*2) ((JsMap.set k j m).*2) S'.
Proof.
  intros Hk Hrs Hv. revert m S Hk Hrs. induction own as [|[k1 v1] own IH]; intros [|[k2 j2] m] S Hk Hrs HT; try done; simpl in *.
  - split; [done|]. inversion Hrs; subst. exists T. split; [set_solver|by apply reps_single].
  - simplify_eq. inversion Hrs as [|? ? ? ? S1 S2 Hv1 Hvs Hd]; subst. case_decide; simpl.
    + split; [by f_equal|]. exists (T ∪ S2). split; [set_solver|]. constructor; [done|done|set_solver].
    + destruct (IH m S2) as (Hk' & S' & Hsub & Hrs'); [done|done|set_solver|]. split; [by f_equal|].
      exists (S1 ∪ S'). split; [set_solver|]. constructor; [done|done|set_solver].
Qed.

Lemma members_delete (own : list (string * hval)) (m : list (string * json)) S k :
  own.*1 = m.*1 → reps h (own.*2) (m.*2) S →
  (JsMap.delete k own).*1 = (JsMap.delete k m).*1 ∧
  ∃ S', S' ⊆ S ∧ reps h ((JsMap.delete k own).*2) ((JsMap.delete k m).*2) S'.
Proof.
  revert m S. induction own as [|[k1 v1] own IH]; intros [|[k2 j2] m] S Hk Hrs; try done; simpl in *.
  - split; [done|]. exists S. done.
  - simplify_eq. inversion Hrs as [|? ? ? ? S1 S2 Hv1 Hvs Hd]; subst. destruct (IH m S2) as (Hk' & S' & Hsub & Hrs'); [done|done|].
    case_decide; simpl; [split; [done|]; exists S'; split; [set_solver|done]|].
    split; [by f_equal|]. exists (S1 ∪ S'). split; [set_solver|]. constructor; [done|done|set_solver].
Qed.
End siblings.
