(* ===== verification/PatchRefinement.v ===== *)
(** * The patch engine refines the edits of a patch document

    The engine of [ArtifactPatch], which resolves places in a copy of the payload
    and mutates them in memory, computes the structural edits of
    [ArtifactEdits]. *)
From stdpp Require Import gmap.
From S2P Require Import Prelude Json.
From S2P Require Import JsValue JsonTree Objects KindPaths ArtifactPatch ArtifactEdits PatchMemory.

(** Positions whose element satisfies [p], from [i] on. *)
Fixpoint positions (p : json → bool) (l : list json) (i : nat) : list nat :=
  match l with
  | [] => []
  | x :: l' => if p x then i :: positions p l' (S i) else positions p l' (S i)
  end.

Section one_instruction.
(** Everything below [old] existed before the copy was made: the operands live
    there. *)
Context (old : loc) (filters : filters_map hval) (tree_filters : filters_map json).
Context (value : hval) (operand : json).

Definition old_rep (m : mem) (v : hval) (j : json) : Prop :=
  ∃ S, rep (cells m) v j S ∧ ∀ l, l ∈ S → (l < old)%nat.

Record fits (m : mem) : Prop := Fits {
  fits_wf : wf_mem m;
  fits_old : (old ≤ brk m)%nat;
  fits_operand : old_rep m value operand;
  fits_filters : ∀ p, Forall2 (λ c ct : list string * _, c.1 = ct.1 ∧ old_rep m c.2 ct.2)
    (default [] (JsMap.get p filters)) (conditions_of tree_filters p);
}.

(** The cells of the copy. *)
Definition drafted (S : gset loc) : Prop := ∀ l, l ∈ S → (old ≤ l)%nat.

Lemma touches_old m m' S S' v j : fits m → drafted S → touches m m' S S' → old_rep m v j → old_rep m' v j.
Proof.
  intros [Hwf Ho _ _] HS Ht (T & Hr & HT). exists T. split; [|done]. eapply touches_rep; [exact Hwf|exact Ht| |exact Hr].
  apply elem_of_disjoint. intros l Hl%HT Hl'%HS. lia.
Qed.

Lemma touches_fits m m' S S' : fits m → drafted S → touches m m' S S' → fits m' ∧ drafted S'.
Proof.
  intros Hf HS Ht. pose proof (fits_old _ Hf) as Ho. split.
  - split; [by destruct Ht|destruct Ht as (_ & ? & _); lia| |].
    + eapply touches_old; [done|done|done|apply Hf].
    + intros p. eapply Forall2_impl; [apply (fits_filters _ Hf p)|]. intros c ct [??]. split; [done|]. by eapply touches_old.
  - intros l Hl. destruct Ht as (_ & _ & _ & HN). apply HN in Hl as [Hl|Hl]; [by apply HS|lia].
Qed.

(** ** Filters *)
Lemma every_forallb {A B} (f : A → option bool) (g : B → bool) l k :
  Forall2 (λ x y, f x = Some (g y)) l k → every f l = Some (forallb g k).
Proof. induction 1 as [|x y l k Hxy Hl IH]; simpl; [done|]. rewrite Hxy. by destruct (g y). Qed.

Lemma matchesFilter_rep m v j p : fits m → repo (cells m) v (Some j) →
  matchesFilter m v (default [] (JsMap.get p filters)) = Some (tree_matches (conditions_of tree_filters p) j).
Proof.
  intros Hf Hv. apply every_forallb. eapply Forall2_impl; [apply (fits_filters _ Hf p)|].
  intros [path w] [path' t] [Hp (S & Hr & _)]. simpl in *. subst path'. apply equals_rep; [|by exists S].
  by apply readPropertyPath_rep.
Qed.

Lemma matchesPullCondition_rep m v j : fits m → (∃ S, rep (cells m) v j S) →
  matchesPullCondition m (Some v) value = Some (tree_pulled operand j).
Proof.
  intros Hf [S Hv]. destruct (fits_operand _ Hf) as (T & Ht & _). unfold matchesPullCondition, tree_pulled.
  assert (equals m (Some v) (Some value) = Some (JsonTree.jsonEquals j operand)) as Heq
    by (apply (equals_rep m (Some v) (Some value) (Some j) (Some operand)); [by exists S|by exists T]).
  destruct operand as [| | | | |entries].
  1-5: rewrite (object_at_rep _ _ _ _ Ht eq_refl); rewrite Heq; by destruct j.
  apply rep_obj_inv in Ht as (l & own & T' & -> & Hl & Hk & _ & Hrs & _). simpl object_at at 1. rewrite Hl.
  destruct j as [| | | | |om]; try by rewrite (object_at_rep _ _ _ _ Hv eq_refl).
  apply rep_obj_inv in Hv as (l' & own' & S' & -> & Hl' & Hk' & _ & Hrs' & _). simpl object_at. rewrite Hl'.
  apply every_forallb. clear -Hk Hrs Hk' Hrs'. revert entries T' Hk Hrs.
  induction own as [|[k w] own IH]; intros [|[k2 t] entries] T' Hk Hrs; try done; simpl in *. simplify_eq.
  inversion Hrs as [|? ? ? ? S1 S2 Hw Hvs]; subst. constructor; [|by eapply IH].
  apply equals_rep; [by eapply get_rep|by exists S1].
Qed.

(** ** Places *)
Definition places (v : hval) (j : json) (segment : ArtifactPatchSegment) (requireExisting : bool) : list PatchTarget :=
  match v, segment, j with
  | HRef l, SProperty name, JObj m => if requireExisting && negb (JsMap.has name m) then [] else [TProperty l name]
  | HRef l, SIndex i, JArr items => if (i <? N.of_nat (length items))%N then [TElement l (N.to_nat i)] else []
  | HRef l, SFilter p, JArr items =>
      map (TElement l) (positions (tree_matches (conditions_of tree_filters p)) items 0)
  | _, _, _ => []
  end.

Lemma indices_where_rep m p vs js S i : fits m → reps (cells m) vs js S →
  indices_where (λ element, matchesFilter m (Some element) (default [] (JsMap.get p filters))) vs i =
  Some (positions (tree_matches (conditions_of tree_filters p)) js i).
Proof.
  intros Hf Hrs. revert i. induction Hrs as [|v vs j js S1 S2 Hv Hvs IH Hd]; intros i; simpl; [done|].
  rewrite (matchesFilter_rep m (Some v) j p Hf) by (by exists S1). simpl. rewrite IH. simpl. by case_match.
Qed.

Lemma targets_in_rep m v j S segment requireExisting : fits m → rep (cells m) v j S →
  targets_in m segment filters requireExisting (Some v) = Some (places v j segment requireExisting).
Proof.
  intros Hf Hv. unfold targets_in. destruct segment as [name|i|p].
  - destruct j as [| | | | |om]; try (rewrite (object_at_rep _ _ _ _ Hv eq_refl); by destruct v).
    apply rep_obj_inv in Hv as (l & own & S' & -> & Hl & Hk & _ & Hrs & _). simpl. rewrite Hl.
    by rewrite (has_rep _ own om S' name Hk Hrs).
  - destruct j as [| | | |items|]; try (rewrite (array_at_rep _ _ _ _ Hv eq_refl); by destruct v).
    apply rep_arr_inv in Hv as (l & vs & S' & -> & Hl & Hrs & _). simpl. rewrite Hl.
    by rewrite (reps_length _ _ _ _ Hrs).
  - destruct j as [| | | |items|]; try (rewrite (array_at_rep _ _ _ _ Hv eq_refl); by destruct v).
    apply rep_arr_inv in Hv as (l & vs & S' & -> & Hl & Hrs & _). simpl. rewrite Hl.
    by rewrite (indices_where_rep m p vs items S' 0 Hf Hrs).
Qed.

Definition all_places (vs : list hval) (js : list json) (segment : ArtifactPatchSegment) (requireExisting : bool) :=
  List.concat (zip_with (λ v j, places v j segment requireExisting) vs js).

Lemma resolveTargets_rep m vs js S segment requireExisting : fits m → reps (cells m) vs js S →
  resolveTargets m (map Some vs) segment filters requireExisting = Some (all_places vs js segment requireExisting).
Proof.
  intros Hf Hrs. unfold resolveTargets, all_places.
  assert (mapM (targets_in m segment filters requireExisting) (map Some vs) =
    Some (zip_with (λ v j, places v j segment requireExisting) vs js)) as ->; [|done].
  induction Hrs as [|v vs j js S1 S2 Hv Hvs IH Hd]; simpl; [done|].
  rewrite (targets_in_rep m v j S1 _ _ Hf Hv). simpl. by rewrite IH.
Qed.

(** A named property and a position address at most one place per container. *)
Lemma places_le v j segment requireExisting : is_filter segment = false →
  (length (places v j segment requireExisting) ≤ 1)%nat.
Proof. intros Hs. unfold places. destruct v, segment, j; simpl; try lia; try done; case_match; simpl; lia. Qed.

Lemma all_places_le vs js segment requireExisting : is_filter segment = false →
  (length (all_places vs js segment requireExisting) ≤ length vs)%nat.
Proof.
  intros Hs. unfold all_places. revert js. induction vs as [|v vs IH]; intros [|j js]; simpl; try lia.
  rewrite length_app. pose proof (places_le v j segment requireExisting Hs). specialize (IH js). lia.
Qed.

(** A position is addressed in every container exactly when none misses it. *)
Lemma all_places_short vs js segment requireExisting : is_filter segment = false → length vs = length js →
  (length (all_places vs js segment requireExisting) < length vs)%nat ↔
  Exists (λ vj : hval * json, places vj.1 vj.2 segment requireExisting = []) (zip vs js).
Proof.
  intros Hs. unfold all_places. revert js. induction vs as [|v vs IH]; intros [|j js] Hlen; simpl in *; try done.
  { split; [lia|by inversion 1]. }
  pose proof (places_le v j segment requireExisting Hs) as H1.
  pose proof (all_places_le vs js segment requireExisting Hs) as H2. unfold all_places in H2.
  rewrite length_app, Exists_cons, <- (IH js) by lia. simpl. rewrite <- length_zero_iff_nil. lia.
Qed.

(** ** Walking down the path *)

(** The parts a segment selects in a tree, and the tree with them replaced. *)
Definition matching (p : string) : json → bool := tree_matches (conditions_of tree_filters p).
Definition picked (segment : ArtifactPatchSegment) (j : json) : list json :=
  match segment, j with
  | SProperty name, JObj m => option_list (ownValue m name)
  | SIndex i, JArr l => option_list (l !! N.to_nat i)
  | SFilter p, JArr l => List.filter (matching p) l
  | _, _ => []
  end.

Fixpoint plug (p : json → bool) (l cs : list json) : list json :=
  match l with
  | [] => []
  | x :: l' => if p x then match cs with c :: cs' => c :: plug p l' cs' | [] => x :: plug p l' [] end else x :: plug p l' cs
  end.

Definition restore (segment : ArtifactPatchSegment) (j : json) (cs : list json) : json :=
  match segment, j, cs with
  | SProperty name, JObj m, c :: _ => JObj (JsMap.set name c m)
  | SIndex i, JArr l, c :: _ => JArr (<[N.to_nat i := c]> l)
  | SFilter p, JArr l, _ => JArr (plug (matching p) l cs)
  | _, _, _ => j
  end.

Definition stuck (segment : ArtifactPatchSegment) (j : json) : bool :=
  negb (is_filter segment) && Nat.eqb (length (picked segment j)) 0.

Lemma option_list_nil {A} (o : option A) : Nat.eqb (length (option_list o)) 0 = true ↔ o = None.
Proof. by destruct o. Qed.

Notation edit := (edit tree_filters).

Lemma edit_cons op v segment s rest j : edit op v (segment :: s :: rest) j =
  match segment, j with
  | SProperty name, JObj m =>
      c ← ownValue m name; '(c', n) ← edit op v (s :: rest) c; Some (JObj (JsMap.set name c' m), n)
  | SIndex i, JArr l =>
      c ← l !! N.to_nat i; '(c', n) ← edit op v (s :: rest) c; Some (JArr (<[N.to_nat i := c']> l), n)
  | SFilter p, JArr l =>
      '(l', n) ← edit_each (λ c, if matching p c then edit op v (s :: rest) c else Some (c, 0%nat)) l; Some (JArr l', n)
  | SFilter _, _ => Some (j, 0%nat)
  | _, _ => None
  end.
Proof. done. Qed.

Lemma edit_each_plug p f l :
  edit_each (λ c, if (p c : bool) then f c else Some (c, 0%nat)) l =
  ('(cs, n) ← edit_each f (List.filter p l); Some (plug p l cs, n)).
Proof.
  induction l as [|c l IH]; simpl; [done|]. rewrite IH. destruct (p c); simpl.
  - destruct (f c) as [[c' k]|]; simpl; [|done]. by destruct (edit_each f _) as [[cs n]|].
  - by destruct (edit_each f _) as [[cs n]|].
Qed.

(** An edit below a segment edits the parts the segment selects. *)
Lemma edit_step op v segment rest j : rest ≠ [] → edit op v (segment :: rest) j =
  if stuck segment j then None
  else '(cs, n) ← edit_each (edit op v rest) (picked segment j); Some (restore segment j cs, n).
Proof.
  intros Hrest. unfold stuck. destruct rest as [|s rest]; [done|]. rewrite edit_cons.
  generalize (edit op v (s :: rest)). intros f.
  destruct segment as [name|i|p], j as [| | | |l|om]; simpl; try done.
  - destruct (ownValue om name) as [c|]; simpl; [|done]. by destruct (f c) as [[c' n]|]; simpl; rewrite ?Nat.add_0_r.
  - destruct (l !! N.to_nat i) as [c|]; simpl; [|done]. by destruct (f c) as [[c' n]|]; simpl; rewrite ?Nat.add_0_r.
  - rewrite edit_each_plug. by destruct (edit_each f _) as [[cs n]|].
Qed.

(** The places a segment addresses hold the parts it selects, and a tree in
    which those parts change is the tree with them replaced. *)
Definition selects (m : mem) (v : hval) (j : json) (S : gset loc) (segment : ArtifactPatchSegment) : Prop :=
  ∃ cvs Sc R, map (readTarget m) (places v j segment true) = map Some cvs ∧
    S = Sc ∪ R ∧ Sc ## R ∧ reps (cells m) cvs (picked segment j) Sc ∧
    ∀ h' cs Sc', reps h' cvs cs Sc' → (∀ l, l ∈ R → h' !! l = cells m !! l) → Sc' ## R →
      rep h' v (restore segment j cs) (Sc' ∪ R).

(** Nothing selected. *)
Lemma selects_none m v j S segment : rep (cells m) v j S → places v j segment true = [] → picked segment j = [] →
  restore segment j [] = j → selects m v j S segment.
Proof.
  intros Hr Hp Hk Hres. exists [], ∅, S. rewrite Hp, Hk. split_and!; [done|set_solver|set_solver|constructor|].
  intros h' cs Sc' Hrs Hag Hd. inversion Hrs; subst. rewrite Hres. replace (∅ ∪ S) with S by set_solver.
  by eapply rep_frame.
Qed.

Lemma keys_set_present (om : members) k c c' : JsMap.get k om = Some c → (JsMap.set k c' om).*1 = om.*1.
Proof.
  induction om as [|[k1 v1] om IH]; [done|]. cbn [JsMap.get JsMap.set]. case_decide; intros Hc; [done|].
  rewrite !fmap_cons. f_equal. by apply IH.
Qed.

Lemma selects_property m v j S name : rep (cells m) v j S → selects m v j S (SProperty name).
Proof.
  intros Hr. destruct j as [| | | | |om]; try (apply selects_none; [done|by destruct v|done|done]).
  pose proof Hr as Hr'. apply rep_obj_inv in Hr' as (l & own & S' & -> & Hl & Hk & Hnd & Hrs & Hni & ->).
  pose proof (get_rep (cells m) own om S' name Hk Hrs) as Hg.
  destruct (JsMap.get name own) as [w|] eqn:Hw, (JsMap.get name om) as [c|] eqn:Hc; try done.
  2: { apply selects_none; [done| |by simpl; unfold ownValue; rewrite Hc|done]. simpl. unfold JsMap.has. by rewrite Hc. }
  destruct (members_focus (cells m) own om S' name w c Hk Hrs Hw Hc) as (Sj & R & -> & Hd & Hcr & Hput).
  exists [w], Sj, ({[l]} ∪ R). split_and!; simpl.
  - unfold JsMap.has. rewrite Hc. simpl. by rewrite Hl, Hw.
  - set_solver.
  - set_solver.
  - unfold ownValue. rewrite Hc. by apply reps_single.
  - intros h' cs Sc' Hcs Hag Hdis. apply reps_single_inv in Hcs as (c' & -> & Hc'). simpl.
    replace (Sc' ∪ ({[l]} ∪ R)) with ({[l]} ∪ (Sc' ∪ R)) by set_solver.
    apply rep_obj with own; [by rewrite Hag by set_solver| | |apply Hput; [done|intros; apply Hag; set_solver|set_solver]|set_solver].
    + by rewrite Hk, (keys_set_present om name c c' Hc).
    + by apply JsMap.NoDup_keys_set.
Qed.

Lemma selects_index m v j S i : rep (cells m) v j S → selects m v j S (SIndex i).
Proof.
  intros Hr. destruct j as [| | | |l|]; try (apply selects_none; [done|by destruct v|done|done]).
  pose proof Hr as Hr'. apply rep_arr_inv in Hr' as (a & vs & S' & -> & Hl & Hrs & Hni & ->).
  pose proof (reps_lookup (cells m) vs l S' (N.to_nat i) Hrs) as Hg.
  destruct (vs !! N.to_nat i) as [w|] eqn:Hw, (l !! N.to_nat i) as [c|] eqn:Hc; try done.
  2: { apply selects_none; [done| |by simpl; rewrite Hc|done]. simpl. apply lookup_ge_None in Hc.
       destruct (N.ltb_spec i (N.of_nat (length l))); [lia|done]. }
  destruct (reps_focus (cells m) vs l S' _ w c Hrs Hw Hc) as (Sj & R & -> & Hd & Hcr & Hput).
  exists [w], Sj, ({[a]} ∪ R). split_and!; simpl.
  - apply lookup_lt_Some in Hc. destruct (N.ltb_spec i (N.of_nat (length l))); [|lia]. simpl. by rewrite Hl, Hw.
  - set_solver.
  - set_solver.
  - rewrite Hc. by apply reps_single.
  - intros h' cs Sc' Hcs Hag Hdis. apply reps_single_inv in Hcs as (c' & -> & Hc'). simpl.
    replace (Sc' ∪ ({[a]} ∪ R)) with ({[a]} ∪ (Sc' ∪ R)) by set_solver.
    apply rep_arr with vs; [by rewrite Hag by set_solver|apply Hput; [done|intros; apply Hag; set_solver|set_solver]|set_solver].
Qed.

(** The elements a filter keeps, and the array with them replaced. *)
Lemma reps_plug h p vs js S : reps h vs js S → ∃ cvs Sc R,
  S = Sc ∪ R ∧ Sc ## R ∧ reps h cvs (List.filter p js) Sc ∧
  (∀ pre, map (λ k, (pre ++ vs) !! k) (positions p js (length pre)) = map Some cvs) ∧
  ∀ h' cs Sc', reps h' cvs cs Sc' → (∀ l, l ∈ R → h' !! l = h !! l) → Sc' ## R → reps h' vs (plug p js cs) (Sc' ∪ R).
Proof.
  induction 1 as [|v vs j js S1 S2 Hv Hvs (cvs & Sc & R & -> & Hd & Hrs & Hpos & Hput) Hdis].
  { exists [], ∅, ∅. split_and!; [set_solver|set_solver|constructor|done|].
    intros h' cs Sc' Hrs _ _. inversion Hrs; subst. replace (∅ ∪ ∅ : gset loc) with (∅ : gset loc) by set_solver. constructor. }
  assert (∀ pre, map (λ k, (pre ++ v :: vs) !! k) (positions p js (Datatypes.S (length pre))) = map Some cvs) as Hpos'.
  { intros pre. rewrite <- (Hpos (pre ++ [v])), length_app, <- app_assoc, Nat.add_1_r. done. }
  simpl. destruct (p j) eqn:Hp.
  - exists (v :: cvs), (S1 ∪ Sc), R. split_and!; [set_solver|set_solver|constructor; [done..|set_solver]| |].
    + intros pre. simpl. rewrite Hpos'. f_equal. by apply list_lookup_middle.
    + intros h' cs Sc' Hcs Hag Hds. inversion Hcs as [|? ? c cs0 T1 T2 Hc Hcs0 Hdc]; subst. simpl.
      replace ((T1 ∪ T2) ∪ R) with (T1 ∪ (T2 ∪ R)) by set_solver.
      constructor; [done|apply Hput; [done|done|set_solver]|set_solver].
  - exists cvs, Sc, (S1 ∪ R). split_and!; [set_solver|set_solver|done|done|].
    intros h' cs Sc' Hcs Hag Hds. replace (Sc' ∪ (S1 ∪ R)) with (S1 ∪ (Sc' ∪ R)) by set_solver.
    constructor; [eapply rep_frame; [done|intros; apply Hag; set_solver]|apply Hput; [done|intros; apply Hag; set_solver|set_solver]|set_solver].
Qed.

Lemma selects_filter m v j S p : rep (cells m) v j S → selects m v j S (SFilter p).
Proof.
  intros Hr. destruct j as [| | | |l|]; try (apply selects_none; [done|by destruct v|done|done]).
  apply rep_arr_inv in Hr as (a & vs & S' & -> & Hl & Hrs & Hni & ->).
  destruct (reps_plug (cells m) (matching p) vs l S' Hrs) as (cvs & Sc & R & -> & Hd & Hc & Hpos & Hput).
  exists cvs, Sc, ({[a]} ∪ R). split_and!; [| set_solver|set_solver|done|].
  - rewrite <- (Hpos []). simpl. rewrite map_map. apply map_ext. intros k. simpl. by rewrite Hl.
  - intros h' cs Sc' Hcs Hag Hdis. replace (Sc' ∪ ({[a]} ∪ R)) with ({[a]} ∪ (Sc' ∪ R)) by set_solver.
    destruct cs as [|c cs]; apply rep_arr with vs; try (rewrite Hag by set_solver; done);
      try (apply Hput; [done|intros; apply Hag; set_solver|set_solver]); set_solver.
Qed.

Lemma rep_selects m v j S segment : rep (cells m) v j S → selects m v j S segment.
Proof. destruct segment; [apply selects_property|apply selects_index|apply selects_filter]. Qed.

(** The same over the containers reached so far. *)
Definition all_picked (segment : ArtifactPatchSegment) (js : list json) : list json :=
  List.concat (map (picked segment) js).
Fixpoint restores (segment : ArtifactPatchSegment) (js cs : list json) : list json :=
  match js with
  | [] => []
  | j :: js' =>
      let k := length (picked segment j) in
      restore segment j (take k cs) :: restores segment js' (drop k cs)
  end.

Lemma edit_each_app f l k : edit_each f (l ++ k) =
  ('(l', n1) ← edit_each f l; '(k', n2) ← edit_each f k; Some (l' ++ k', (n1 + n2)%nat)).
Proof.
  induction l as [|x l IH]; simpl; [by destruct (edit_each f k) as [[]|]|].
  destruct (f x) as [[x' n]|]; simpl; [|done]. rewrite IH. destruct (edit_each f l) as [[l' n1]|]; simpl; [|done].
  destruct (edit_each f k) as [[k' n2]|]; simpl; [|done]. by rewrite Nat.add_assoc.
Qed.

Lemma edit_each_length f l l' n : edit_each f l = Some (l', n) → length l' = length l.
Proof.
  revert l' n. induction l as [|x l IH]; intros l' n Heq; simpl in Heq; [by simplify_eq|].
  destruct (f x) as [[x' n1]|]; [|done]. simpl in Heq. destruct (edit_each f l) as [[k n2]|]; [|done]. simpl in Heq.
  simplify_eq. simpl. f_equal. by eapply IH.
Qed.

Lemma edit_each_step op v segment rest js : rest ≠ [] → edit_each (edit op v (segment :: rest)) js =
  if existsb (stuck segment) js then None
  else '(cs, n) ← edit_each (edit op v rest) (all_picked segment js); Some (restores segment js cs, n).
Proof.
  intros Hrest. induction js as [|j js IH]; [done|].
  change (all_picked segment (j :: js)) with (picked segment j ++ all_picked segment js).
  cbn [edit_each restores existsb]. rewrite (edit_step op v segment rest j Hrest), edit_each_app, IH.
  destruct (stuck segment j); [done|].
  destruct (edit_each (edit op v rest) (picked segment j)) as [[cs n]|] eqn:Hp; simpl; [|by destruct (existsb _ js)].
  destruct (existsb (stuck segment) js); [done|].
  destruct (edit_each (edit op v rest) (all_picked segment js)) as [[cs' n']|]; simpl; [|done].
  apply edit_each_length in Hp. by rewrite <- Hp, take_app_length, drop_app_length.
Qed.

Lemma all_places_selects m vs js S segment : reps (cells m) vs js S → ∃ cvs Sc R,
  map (readTarget m) (all_places vs js segment true) = map Some cvs ∧
  S = Sc ∪ R ∧ Sc ## R ∧ reps (cells m) cvs (all_picked segment js) Sc ∧
  ∀ h' cs Sc', reps h' cvs cs Sc' → (∀ l, l ∈ R → h' !! l = cells m !! l) → Sc' ## R →
    reps h' vs (restores segment js cs) (Sc' ∪ R).
Proof.
  unfold all_places, all_picked. induction 1 as [|v vs j js S1 S2 Hv Hvs (cvs & Sc & R & Hpl & -> & Hd & Hrs & Hput) Hdis].
  { exists [], ∅, ∅. split_and!; [done|set_solver|set_solver|constructor|].
    intros h' cs Sc' Hrs _ _. inversion Hrs; subst. replace (∅ ∪ ∅ : gset loc) with (∅ : gset loc) by set_solver. constructor. }
  destruct (rep_selects m v j S1 segment Hv) as (cv1 & Sc1 & R1 & Hpl1 & -> & Hd1 & Hrs1 & Hput1).
  exists (cv1 ++ cvs), (Sc1 ∪ Sc), (R1 ∪ R). simpl. split_and!.
  - by rewrite !map_app, Hpl, Hpl1.
  - set_solver.
  - set_solver.
  - apply reps_app; [done|done|set_solver].
  - intros h' cs Sc' Hcs Hag Hds. apply reps_app_inv in Hcs as (cs1 & cs2 & T1 & T2 & -> & -> & HdT & Hcs1 & Hcs2).
    rewrite <- (reps_length _ _ _ _ Hrs1), (reps_length _ _ _ _ Hcs1), take_app_length, drop_app_length.
    replace ((T1 ∪ T2) ∪ (R1 ∪ R)) with ((T1 ∪ R1) ∪ (T2 ∪ R)) by set_solver.
    constructor; [apply Hput1; [done|intros; apply Hag; set_solver|set_solver]
                 |apply Hput; [done|intros; apply Hag; set_solver|set_solver]|set_solver].
Qed.

(** A segment that is no filter is stuck in a branch exactly where it addresses
    nothing. *)
Lemma stuck_places m v j S segment : rep (cells m) v j S → is_filter segment = false →
  stuck segment j = true ↔ places v j segment true = [].
Proof.
  intros Hr Hs. destruct (rep_selects m v j S segment Hr) as (cvs & Sc & R & Hpl & _ & _ & Hrs & _).
  unfold stuck. rewrite Hs. simpl. rewrite Nat.eqb_eq, <- (reps_length _ _ _ _ Hrs), <- (length_map Some cvs), <- Hpl, length_map.
  apply length_zero_iff_nil.
Qed.

Lemma stuck_all_places m vs js S segment : reps (cells m) vs js S → is_filter segment = false →
  existsb (stuck segment) js = true ↔ (length (all_places vs js segment true) < length vs)%nat.
Proof.
  intros Hrs Hs. rewrite all_places_short by (done || by eapply reps_length).
  induction Hrs as [|v vs j js S1 S2 Hv Hvs IH Hd]; simpl; [split; [done|by inversion 1]|].
  rewrite orb_true_iff, Exists_cons, IH, (stuck_places m v j S1 segment Hv Hs). done.
Qed.

(** The containers a walk ends at, and how an edit there shows in the trees it
    started from. *)
Definition walked (m : mem) (vs : list hval) (js : list json) (S : gset loc) (segments tl : list ArtifactPatchSegment)
    (containers : list (option hval)) : Prop :=
  ∃ cvs cjs Sc R put, containers = map Some cvs ∧ reps (cells m) cvs cjs Sc ∧ S = Sc ∪ R ∧ Sc ## R ∧
    (∀ op v, edit_each (edit op v (segments ++ tl)) js = '(cs, n) ← edit_each (edit op v tl) cjs; Some (put cs, n)) ∧
    (∀ h' cs Sc', reps h' cvs cs Sc' → (∀ l, l ∈ R → h' !! l = cells m !! l) → Sc' ## R → reps h' vs (put cs) (Sc' ∪ R)).

(** Edits of a forest that are impossible, or touch nothing. *)
Definition no_effect (op : ArtifactPatchOperator) (v : json) (segments : list ArtifactPatchSegment) (js : list json) : Prop :=
  edit_each (edit op v segments) js = None ∨ ∃ js', edit_each (edit op v segments) js = Some (js', 0%nat).

Lemma resolveContainers_rep m tl segments : fits m → tl ≠ [] → ∀ vs js S, reps (cells m) vs js S →
  match resolveContainers m (map Some vs) segments filters with
  | None => False
  | Some (inr _) => ∀ op v, no_effect op v (segments ++ tl) js
  | Some (inl containers) => walked m vs js S segments tl containers
  end.
Proof.
  intros Hf Htl. induction segments as [|segment segments IH]; intros vs js S Hrs; cbn [resolveContainers].
  { exists vs, js, S, ∅, (λ cs, cs). split_and!; [done|done|set_solver|set_solver| |].
    - intros op v. simpl. by destruct (edit_each _ _) as [[]|].
    - intros h' cs Sc' Hcs _ _. by replace (Sc' ∪ ∅) with Sc' by set_solver. }
  rewrite (resolveTargets_rep m vs js S segment true Hf Hrs). simpl.
  assert (segments ++ tl ≠ []) as Hne by (destruct segments; [done|discriminate]).
  destruct (all_places_selects m vs js S segment Hrs) as (cvs & Sc & R & Hpl & -> & Hd & Hc & Hput).
  assert (length (all_places vs js segment true) = length (all_picked segment js)) as Hlen.
  { by rewrite <- (length_map (readTarget m)), Hpl, length_map, (reps_length _ _ _ _ Hc). }
  destruct (Nat.eqb_spec (length (all_places vs js segment true)) 0) as [H0|H0].
  { intros op v. unfold no_effect. rewrite <- ?app_comm_cons, (edit_each_step op v segment _ js Hne). destruct (existsb _ _); [by left|].
    right. rewrite H0 in Hlen. destruct (all_picked segment js); [by eexists|done]. }
  rewrite length_map. destruct (negb (is_filter segment) && _) eqn:Hshort.
  { apply andb_true_iff in Hshort as [Hs%negb_true_iff Hlt%Nat.ltb_lt]. intros op v. left.
    rewrite <- ?app_comm_cons, (edit_each_step op v segment _ js Hne). by rewrite (proj2 (stuck_all_places m vs js _ segment Hrs Hs)). }
  assert (existsb (stuck segment) js = false) as Hns.
  { apply not_true_iff_false. intros Hst. destruct (is_filter segment) eqn:Hs.
    - apply existsb_exists in Hst as (j & _ & Hj). unfold stuck in Hj. by rewrite Hs in Hj.
    - apply (stuck_all_places m vs js _ segment Hrs Hs), Nat.ltb_lt in Hst. by rewrite Hst in Hshort. }
  rewrite Hpl. specialize (IH cvs (all_picked segment js) Sc Hc).
  destruct (resolveContainers m (map Some cvs) segments filters) as [[containers|stop]|]; [| |done].
  - destruct IH as (cvs2 & cjs & Sc2 & R2 & put & -> & Hc2 & -> & Hd2 & Hed & Hput2).
    exists cvs2, cjs, Sc2, (R2 ∪ R), (λ cs, restores segment js (put cs)).
    split_and!; [done|done|set_solver|set_solver| |].
    + intros op v. rewrite <- ?app_comm_cons, (edit_each_step op v segment _ js Hne), Hns, Hed.
      by destruct (edit_each _ _) as [[]|].
    + intros h' cs Sc' Hcs Hag Hds. replace (Sc' ∪ (R2 ∪ R)) with ((Sc' ∪ R2) ∪ R) by set_solver.
      apply Hput; [apply Hput2; [done|intros; apply Hag; set_solver|set_solver]|intros; apply Hag; set_solver|set_solver].
  - intros op v. unfold no_effect. rewrite <- ?app_comm_cons, (edit_each_step op v segment _ js Hne), Hns.
    destruct (IH op v) as [->|[js' ->]]; [by left|right; simpl; by eexists].
Qed.
End one_instruction.
