(* ===== verification/PatchOperators.v ===== *)
(** * The operators of the patch engine

    Each operator, run on the places of one container in memory, leaves the tree
    that the edit at the last segment gives; over several containers, the trees
    that editing each gives. *)
From stdpp Require Import gmap.
From S2P Require Import Prelude Json.
From S2P Require Import JsValue JsonTree Objects KindPaths ArtifactPatch ArtifactEdits PatchMemory PatchRefinement.

Section operators.
Context (old : loc) (filters : filters_map hval) (tree_filters : filters_map json).
Context (value : hval) (operand : json).
Notation fits := (fits old filters tree_filters value operand).
Notation drafted := (drafted old).
Notation places := (places tree_filters).
Notation all_places := (all_places tree_filters).
Notation edit := (edit tree_filters).
Notation edit_here := (edit_here tree_filters).
Notation matching := (matching tree_filters).

Lemma clone_operand m : fits m → ∃ m' w Sw,
  structuredClone m value = Some (m', w) ∧ rep (cells m') w operand Sw ∧ extends m m' Sw.
Proof. intros Hf. destruct (fits_operand _ _ _ _ _ _ Hf) as (T & Ht & _). eapply structuredClone_rep; [apply Hf|exact Ht]. Qed.

(** A run that added the cells [T], followed by overwriting one cell of the
    tree. *)
Lemma touches_write m m1 S T S' l c : wf_mem m → extends m m1 T → l ∈ S → (l < brk m)%nat → S' ⊆ S ∪ T →
  touches m (put l c m1) S S'.
Proof.
  intros Hm Hx Hl Hlt HS. destruct Hx as (W & B & F & N).
  apply touches_trans with m1 (S ∪ T).
  - split_and!; [done|done|intros; by apply F|]. intros k [Hk|Hk%N]%elem_of_union; auto.
  - apply touches_put; [done|set_solver|lia|done].
Qed.

Lemma fresh_disjoint m m1 T S : extends m m1 T → (∀ l, l ∈ S → (l < brk m)%nat) → T ## S.
Proof. intros (_ & _ & _ & N) HS. apply elem_of_disjoint. intros l Hl%N Hl'%HS. lia. Qed.

Lemma extends_reps m m1 T vs js S : extends m m1 T → (∀ l, l ∈ S → (l < brk m)%nat) →
  reps (cells m) vs js S → reps (cells m1) vs js S.
Proof. intros (_ & _ & F & _) HS Hr. eapply reps_frame; [exact Hr|]. intros l Hl. by apply F, HS. Qed.

(** ** [$set] *)

(** Storing a new tree under a name of an object. *)
Lemma write_property m m1 l own om S k w c T : wf_mem m →
  cells m !! l = Some (CObj own) → own.*1 = om.*1 → NoDup om.*1 → reps (cells m) (own.*2) (om.*2) S → l ∉ S →
  (∀ x, x ∈ {[l]} ∪ S → (x < brk m)%nat) → extends m m1 T → rep (cells m1) w c T →
  ∃ S', rep (cells (writeTarget m1 (TProperty l k) w)) (HRef l) (JObj (JsMap.set k c om)) S' ∧
    touches m (writeTarget m1 (TProperty l k) w) ({[l]} ∪ S) S'.
Proof.
  intros Hm Hl Hk Hnd Hrs Hni Hlt Hx Hw. destruct (id Hx) as (W & B & F & N).
  assert (T ## {[l]} ∪ S) as Hdis by (by eapply fresh_disjoint).
  simpl. rewrite F by (apply Hlt; set_solver). rewrite Hl.
  destruct (members_set (cells m1) own om S k w c T) as (Hk' & S' & Hsub & Hrs'); [done| |done|set_solver|].
  { eapply extends_reps; [exact Hx|set_solver|done]. }
  exists ({[l]} ∪ S'). split.
  - apply rep_obj with (JsMap.set k w own); [apply lookup_insert_eq|done|by apply JsMap.NoDup_keys_set| |set_solver].
    eapply reps_frame; [exact Hrs'|]. intros x Hin. simpl. rewrite lookup_insert_ne; [done|set_solver].
  - eapply touches_write; [done|exact Hx|set_solver|apply Hlt; set_solver|set_solver].
Qed.

Lemma write_element m m1 l vs js S i w c T : wf_mem m →
  cells m !! l = Some (CArr vs) → reps (cells m) vs js S → l ∉ S →
  (∀ x, x ∈ {[l]} ∪ S → (x < brk m)%nat) → extends m m1 T → rep (cells m1) w c T →
  ∃ S', rep (cells (writeTarget m1 (TElement l i) w)) (HRef l) (JArr (<[i := c]> js)) S' ∧
    touches m (writeTarget m1 (TElement l i) w) ({[l]} ∪ S) S'.
Proof.
  intros Hm Hl Hrs Hni Hlt Hx Hw. assert (T ## {[l]} ∪ S) as Hdis by (by eapply fresh_disjoint).
  destruct (reps_insert (cells m1) vs js S i w c T) as (S' & Hsub & Hrs'); [|done|set_solver|].
  { eapply extends_reps; [exact Hx|set_solver|done]. }
  simpl. destruct (id Hx) as (W & B & F & N). rewrite F by (apply Hlt; set_solver). rewrite Hl.
  exists ({[l]} ∪ S'). split.
  - apply rep_arr with (<[i := w]> vs); [apply lookup_insert_eq| |set_solver].
    eapply reps_frame; [exact Hrs'|]. intros x Hin. simpl. rewrite lookup_insert_ne; [done|set_solver].
  - eapply touches_write; [done|exact Hx|set_solver|apply Hlt; set_solver|set_solver].
Qed.

(** Setting several elements of one array. *)
Lemma set_elements l idxs : ∀ m js S, fits m → drafted S → rep (cells m) (HRef l) (JArr js) S →
  ∃ m' S', applySet m (map (TElement l) idxs) value = Some m' ∧
    rep (cells m') (HRef l) (JArr (foldl (λ js i, <[i := operand]> js) js idxs)) S' ∧ touches m m' S S'.
Proof.
  induction idxs as [|i idxs IH]; intros m js S Hf HS Hr; simpl.
  { exists m, S. split_and!; [done|done|apply touches_refl; apply Hf]. }
  destruct (clone_operand m Hf) as (m1 & w & T & Hc & Hw & Hx). rewrite Hc. simpl.
  pose proof Hr as Hr'. apply rep_arr_inv in Hr' as (a & vs & S' & Heq & Hl & Hrs & Hni & ->). simplify_eq.
  destruct (write_element m m1 a vs js S' i w operand T) as (S1 & Hr1 & Ht1); [apply Hf|done..| |done|done|].
  { intros x Hx'. eapply rep_brk; [apply Hf|exact Hr|done]. }
  destruct (touches_fits _ _ _ _ _ _ _ _ _ Hf HS Ht1) as [Hf1 HS1].
  destruct (IH _ _ _ Hf1 HS1 Hr1) as (m' & S2 & Hrun & Hr2 & Ht2). exists m', S2.
  split_and!; [exact Hrun|done|by eapply touches_trans].
Qed.

Lemma fold_insert_positions p js : ∀ pre,
  foldl (λ js i, <[i := operand]> js) (pre ++ js) (positions p js (length pre)) =
  pre ++ map (λ c, if (p c : bool) then operand else c) js.
Proof.
  induction js as [|j js IH]; intros pre; simpl; [done|].
  assert (∀ x, foldl (λ js i, <[i := operand]> js) (pre ++ x :: js) (positions p js (S (length pre))) =
    pre ++ x :: map (λ c, if p c then operand else c) js) as Hrest.
  { intros x. specialize (IH (pre ++ [x])). rewrite length_app, Nat.add_1_r, <- !app_assoc in IH. exact IH. }
  destruct (p j); simpl; [|apply Hrest]. by rewrite insert_app_r_alt, Nat.sub_diag by lia; simpl; apply Hrest.
Qed.

Lemma length_positions p js i : length (positions p js i) = length (List.filter p js).
Proof. revert i. induction js as [|j js IH]; intros i; simpl; [done|]. destruct (p j); simpl; by rewrite IH. Qed.

(** What an operator leaves in one container. *)
Definition applies (m : mem) (op : ArtifactPatchOperator) (terminal : ArtifactPatchSegment) (v : hval) (j : json)
    (S : gset loc) (requireExisting : bool) : Prop :=
  match edit_here op operand terminal j with
  | None => (is_index terminal = true ∧ places v j terminal requireExisting = []) ∨
            ∃ m', applyOperator m op (places v j terminal requireExisting) value = Some (m', None)
  | Some (j', n) => ∃ m' S', applyOperator m op (places v j terminal requireExisting) value = Some (m', Some n) ∧
                      rep (cells m') v j' S' ∧ touches m m' S S'
  end.

Lemma applies_nothing m op terminal v j S r : fits m → rep (cells m) v j S →
  edit_here op operand terminal j = Some (j, 0%nat) → places v j terminal r = [] → applies m op terminal v j S r.
Proof.
  intros Hf Hr He Hp. unfold applies. rewrite He, Hp. exists m, S.
  split_and!; [by destruct op|done|apply touches_refl; apply Hf].
Qed.

Lemma set_applies m terminal v j S : fits m → drafted S → rep (cells m) v j S → applies m OpSet terminal v j S false.
Proof.
  intros Hf HS Hr. assert (∀ x, x ∈ S → (x < brk m)%nat) as Hlt by (intros; eapply rep_brk; [apply Hf|exact Hr|done]).
  destruct terminal as [name|i|p].
  - destruct j as [| | | | |om]; try (apply applies_nothing; [done|done|done|by destruct v]).
    apply rep_obj_inv in Hr as (l & own & S' & -> & Hl & Hk & Hnd & Hrs & Hni & ->).
    destruct (clone_operand m Hf) as (m1 & w & T & Hc & Hw & Hx).
    destruct (write_property m m1 l own om S' name w operand T) as (S1 & Hr1 & Ht1); [apply Hf|done..|].
    unfold applies. simpl. rewrite Hc. simpl. eexists _, S1. done.
  - destruct j as [| | | |js|]; try (unfold applies; simpl; left; by destruct v).
    unfold applies. simpl. destruct (rep_arr_inv _ _ _ _ Hr) as (l & vs & S' & -> & Hl & Hrs & Hni & ->). simpl.
    destruct (i <? N.of_nat (length js))%N; [|by left].
    destruct (set_elements l [N.to_nat i] m js _ Hf HS Hr) as (m' & S1 & Hrun & Hr1 & Ht1). simpl in *.
    rewrite Hrun. simpl. by exists m', S1.
  - destruct j as [| | | |js|]; try (apply applies_nothing; [done|done|done|by destruct v]).
    unfold applies. destruct (rep_arr_inv _ _ _ _ Hr) as (l & vs & S' & -> & Hl & Hrs & Hni & ->). cbn [ArtifactEdits.edit_here PatchRefinement.places applyOperator].
    destruct (set_elements l (positions (matching p) js 0) m js _ Hf HS Hr) as (m' & S1 & Hrun & Hr1 & Ht1).
    pose proof (fold_insert_positions (matching p) js []) as Hfold. simpl in Hfold. rewrite Hfold in Hr1.
    unfold PatchRefinement.matching in *. rewrite Hrun. simpl. rewrite length_map, length_positions. by exists m', S1.
Qed.

(** ** [$unset], [$push] and [$pull] *)
Lemma unset_applies m name v j S : fits m → drafted S → rep (cells m) v j S → applies m OpUnset (SProperty name) v j S true.
Proof.
  intros Hf HS Hr. destruct j as [| | | | |om]; try (apply applies_nothing; [done|done|done|by destruct v]).
  assert (∀ x, x ∈ S → (x < brk m)%nat) as Hlt by (intros; eapply rep_brk; [apply Hf|exact Hr|done]).
  destruct (JsMap.has name om) eqn:Hhas.
  2: { apply applies_nothing; [done|done|simpl; by rewrite Hhas|]. destruct v; try done. simpl. by rewrite Hhas. }
  apply rep_obj_inv in Hr as (l & own & S' & -> & Hl & Hk & Hnd & Hrs & Hni & ->).
  destruct (members_delete (cells m) own om S' name Hk Hrs) as (Hk' & S1 & Hsub & Hrs1).
  unfold applies. simpl. rewrite Hhas. simpl. unfold applyUnset. simpl. rewrite Hl.
  exists (put l (CObj (JsMap.delete name own)) m), ({[l]} ∪ S1). split_and!; [done| |].
  - apply rep_obj with (JsMap.delete name own); [apply lookup_insert_eq|done|by apply JsMap.NoDup_keys_delete| |set_solver].
    eapply reps_frame; [exact Hrs1|]. intros x Hin. simpl. rewrite lookup_insert_ne; [done|set_solver].
  - apply touches_put; [apply Hf|set_solver|apply Hlt; set_solver|set_solver].
Qed.

(** Replacing the items of a collection held under a name. *)
Lemma write_collection m m1 T l own om S name a items js items' js' : fits m → extends m m1 T →
  cells m !! l = Some (CObj own) → own.*1 = om.*1 → NoDup om.*1 → reps (cells m) (own.*2) (om.*2) S → l ∉ S →
  (∀ x, x ∈ {[l]} ∪ S → (x < brk m)%nat) →
  JsMap.get name own = Some (HRef a) → ownValue om name = Some (JArr js) → cells m !! a = Some (CArr items) →
  (∀ Si, reps (cells m) items js Si → a ∉ Si → Si ⊆ S → ∃ Si', Si' ⊆ Si ∪ T ∧ reps (cells m1) items' js' Si') →
  ∃ S', rep (cells (put a (CArr items') m1)) (HRef l) (JObj (JsMap.set name (JArr js') om)) S' ∧
    touches m (put a (CArr items') m1) ({[l]} ∪ S) S'.
Proof.
  intros Hf Hx Hl Hk Hnd Hrs Hni Hlt Hg Hgo Ha Hitems.
  destruct (members_focus (cells m) own om S name (HRef a) (JArr js) Hk Hrs Hg Hgo) as (Sj & R & -> & Hd & Hrj & Hput).
  apply rep_arr_inv in Hrj as (a' & items0 & Si & Heq & Ha' & Hrsi & Hnia & ->). simplify_eq.
  destruct (Hitems Si Hrsi Hnia ltac:(set_solver)) as (Si' & Hsub & Hrs').
  assert (T ## {[l]} ∪ ({[a']} ∪ Si ∪ R)) as Hdis by (by eapply fresh_disjoint).
  destruct (id Hx) as (W & B & F & N).
  assert (∀ x, x ∈ {[l]} ∪ R → cells (put a' (CArr items') m1) !! x = cells m !! x) as Hsame.
  { intros x Hx'. simpl. rewrite lookup_insert_ne by set_solver. apply F, Hlt. set_solver. }
  exists ({[l]} ∪ (({[a']} ∪ Si') ∪ R)). split.
  - apply rep_obj with own; [rewrite Hsame by set_solver; done| |by apply JsMap.NoDup_keys_set| |set_solver].
    + by rewrite (keys_set_present om name _ _ Hgo).
    + apply Hput; [|intros; apply Hsame; set_solver|set_solver].
      apply rep_arr with items'; [apply lookup_insert_eq| |set_solver].
      eapply reps_frame; [exact Hrs'|]. intros x Hin. simpl. rewrite lookup_insert_ne; [done|set_solver].
  - eapply touches_write; [apply Hf|exact Hx|set_solver|apply Hlt; set_solver|set_solver].
Qed.

Lemma push_applies m name v j S : fits m → drafted S → rep (cells m) v j S → applies m OpPush (SProperty name) v j S false.
Proof.
  intros Hf HS Hr. destruct j as [| | | | |om]; try (apply applies_nothing; [done|done|done|by destruct v]).
  assert (∀ x, x ∈ S → (x < brk m)%nat) as Hlt by (intros; eapply rep_brk; [apply Hf|exact Hr|done]).
  apply rep_obj_inv in Hr as (l & own & S' & -> & Hl & Hk & Hnd & Hrs & Hni & ->).
  pose proof (get_rep (cells m) own om S' name Hk Hrs) as Hg.
  destruct (clone_operand m Hf) as (m1 & w & T & Hc & Hw & Hx). destruct (id Hx) as (W & B & F & N).
  unfold applies. simpl. rewrite Hl. unfold ownValue.
  destruct (JsMap.get name own) as [cur|] eqn:Hcur, (JsMap.get name om) as [jc|] eqn:Hjc; try done.
  - destruct Hg as [Sc Hrc]. destruct (JsonTree.as_array (Some jc)) as [js|] eqn:Harr.
    + apply as_array_Some in Harr. simplify_eq.
      destruct (rep_arr_inv _ _ _ _ Hrc) as (a & items & Si & -> & Ha & _). simpl. rewrite Ha, Hc. simpl.
      destruct (write_collection m m1 T l own om S' name a items js (items ++ [w]) (js ++ [operand]) Hf Hx Hl Hk Hnd Hrs Hni Hlt Hcur Hjc Ha)
        as (S1 & Hr1 & Ht1).
      { intros Si' Hrsi Hnia Hsub. exists (Si' ∪ T). split; [set_solver|]. apply reps_app.
        - eapply extends_reps; [exact Hx| |exact Hrsi]. intros x Hin. apply Hlt. set_solver.
        - by apply reps_single.
        - assert (T ## {[l]} ∪ S') by (by eapply fresh_disjoint). set_solver. }
      eexists _, S1. done.
    + pose proof (array_at_rep _ _ _ _ Hrc Harr) as Hno. simpl in Hno |- *. rewrite Hno. destruct jc; simplify_eq; right; by eexists.
  - rewrite Hc. simpl.
    assert (extends m (alloc (CArr [w]) m1) ({[brk m1]} ∪ T)) as Hx2.
    { split_and!; simpl; [by apply wf_alloc|lia| |].
      - intros x Hin. rewrite lookup_insert_ne by lia. by apply F.
      - intros x [->%elem_of_singleton|Hin%N]%elem_of_union; lia. }
    assert (rep (cells (alloc (CArr [w]) m1)) (HRef (brk m1)) (JArr [operand]) ({[brk m1]} ∪ T)) as Hw2.
    { apply rep_arr with [w]; [apply lookup_insert_eq| |intros ?%N; lia]. apply reps_single.
      eapply rep_frame; [exact Hw|]. intros x Hin%N. simpl. rewrite lookup_insert_ne by lia. done. }
    destruct (write_property m (alloc (CArr [w]) m1) l own om S' name (HRef (brk m1)) (JArr [operand]) ({[brk m1]} ∪ T))
      as (S1 & Hr1 & Ht1); [apply Hf|done..|].
    eexists _, S1. split; [|split; [exact Hr1|exact Ht1]]. done.
Qed.

Lemma retained_rep m items js S : fits m → reps (cells m) items js S → ∃ kept S',
  retained m value items = Some kept ∧ S' ⊆ S ∧
  reps (cells m) kept (List.filter (λ c, negb (tree_pulled operand c)) js) S'.
Proof.
  intros Hf. induction 1 as [|v vs j js S1 S2 Hv Hvs (kept & S' & Hkept & Hsub & Hrs) Hd].
  - exists [], ∅. split_and!; [done|done|constructor].
  - simpl. rewrite (matchesPullCondition_rep _ _ _ _ _ m v j Hf) by (by exists S1). simpl. rewrite Hkept. simpl.
    destruct (tree_pulled operand j); simpl.
    + exists kept, S'. split_and!; [done|set_solver|done].
    + exists (v :: kept), (S1 ∪ S'). split_and!; [done|set_solver|constructor; [done..|set_solver]].
Qed.

Lemma pull_applies m name v j S : fits m → drafted S → rep (cells m) v j S → applies m OpPull (SProperty name) v j S true.
Proof.
  intros Hf HS Hr. destruct j as [| | | | |om]; try (apply applies_nothing; [done|done|done|by destruct v]).
  assert (∀ x, x ∈ S → (x < brk m)%nat) as Hlt by (intros; eapply rep_brk; [apply Hf|exact Hr|done]).
  pose proof Hr as Hr'. apply rep_obj_inv in Hr as (l & own & S' & -> & Hl & Hk & Hnd & Hrs & Hni & ->).
  pose proof (get_rep (cells m) own om S' name Hk Hrs) as Hg.
  destruct (JsMap.get name own) as [cur|] eqn:Hcur, (JsMap.get name om) as [jc|] eqn:Hjc; try done.
  2: { apply applies_nothing; [done|done|simpl; unfold ownValue; by rewrite Hjc|].
       simpl. unfold JsMap.has. by rewrite Hjc. }
  unfold applies. simpl. unfold JsMap.has, ownValue. rewrite Hjc. simpl. rewrite Hl, Hcur.
  destruct Hg as [Sc Hrc]. destruct (JsonTree.as_array (Some jc)) as [js|] eqn:Harr.
  - apply as_array_Some in Harr. simplify_eq.
    destruct (rep_arr_inv _ _ _ _ Hrc) as (a & items & Si & -> & Ha & Hrsi & _). simpl. rewrite Ha.
    destruct (retained_rep m items js Si Hf Hrsi) as (kept & Sk & Hkept & Hsub & Hrk). rewrite Hkept. simpl.
    rewrite (reps_length _ _ _ _ Hrsi), (reps_length _ _ _ _ Hrk).
    destruct (write_collection m m ∅ l own om S' name a items js kept (List.filter (λ c, negb (tree_pulled operand c)) js)
      Hf ltac:(split_and!; [apply Hf|lia|done|set_solver]) Hl Hk Hnd Hrs Hni Hlt Hcur Hjc Ha) as (S1 & Hr1 & Ht1).
    { intros Si' Hrsi' Hnia Hsub'. destruct (retained_rep m items js Si' Hf Hrsi') as (kept' & Sk' & Hkept' & Hsub2 & Hrk').
      rewrite Hkept in Hkept'. simplify_eq. exists Sk'. split; [set_solver|done]. }
    eexists _, S1. done.
  - pose proof (array_at_rep _ _ _ _ Hrc Harr) as Hno. simpl in Hno |- *. rewrite Hno. destruct jc; simplify_eq; right; by eexists.
Qed.

(** The places an operator asks for: the removing ones need something there. *)
Definition require_existing (op : ArtifactPatchOperator) : bool :=
  match op with OpUnset | OpPull => true | _ => false end.

Lemma operator_applies m op terminal v j S : op = OpSet ∨ is_property terminal = true →
  fits m → drafted S → rep (cells m) v j S → applies m op terminal v j S (require_existing op).
Proof.
  intros Hsup Hf HS Hr. destruct op; simpl.
  - by apply set_applies.
  - destruct Hsup as [|Hp]; [done|]. destruct terminal; [|done..]. by apply unset_applies.
  - destruct Hsup as [|Hp]; [done|]. destruct terminal; [|done..]. by apply push_applies.
  - destruct Hsup as [|Hp]; [done|]. destruct terminal; [|done..]. by apply pull_applies.
Qed.
End operators.
