(* ===== verification/PatchCorrect.v ===== *)
(** * Applying a patch document

    The engine on memory computes the edits of the document on trees
    ([patches_edit_the_payload]), and whatever the payload and the operands
    share, it leaves everything that existed before the call as it was
    ([patching_leaves_its_input]). *)
From stdpp Require Import gmap.
From S2P Require Import Prelude Json.
From S2P Require Import JsValue JsonTree Objects KindPaths ArtifactPatch ArtifactEdits.
From S2P Require Import PatchMemory PatchRefinement PatchOperators.

(** ** An operator over all the containers *)
Lemma applySet_app a b v : ∀ m, applySet m (a ++ b) v = m1 ← applySet m a v; applySet m1 b v.
Proof.
  induction a as [|t a IH]; intros m; simpl; [done|]. destruct (structuredClone m v) as [[m1 w]|]; simpl; [apply IH|done].
Qed.

Lemma applyPush_app a b v : ∀ m, applyPush m (a ++ b) v =
  '(m1, ok) ← applyPush m a v; if (ok : bool) then applyPush m1 b v else Some (m1, false).
Proof.
  induction a as [|t a IH]; intros m; cbn [app applyPush]; [done|]. destruct (readTarget m t) as [cur|].
  - destruct (array_at (cells m) (Some cur)) as [[l items]|]; [|done].
    destruct (structuredClone m v) as [[m1 w]|]; [apply IH|done].
  - destruct (structuredClone m v) as [[m1 w]|]; [apply IH|done].
Qed.

Lemma applyPull_app a b v : ∀ m k, applyPull m (a ++ b) v k =
  '(m1, r) ← applyPull m a v k; match r with Some n => applyPull m1 b v n | None => Some (m1, None) end.
Proof.
  induction a as [|t a IH]; intros m k; cbn [app applyPull]; [done|].
  destruct (array_at (cells m) (readTarget m t)) as [[l items]|]; [|done].
  destruct (retained m v items) as [kept|]; [apply IH|done].
Qed.

Lemma applyPull_count a v : ∀ m k, applyPull m a v k =
  '(m1, r) ← applyPull m a v 0; Some (m1, option_map (Nat.add k) r).
Proof.
  induction a as [|t a IH]; intros m k; cbn [applyPull]; [simpl; by rewrite Nat.add_0_r|].
  destruct (array_at (cells m) (readTarget m t)) as [[l items]|]; [|done].
  destruct (retained m v items) as [kept|]; [|done]. cbn [mbind option_bind].
  rewrite IH, (IH _ (0 + _)%nat). destruct (applyPull _ a v 0) as [[m1 [n|]]|]; simpl; [|done|done].
  do 3 f_equal. lia.
Qed.

Lemma applyOperator_app m op a b v : applyOperator m op (a ++ b) v =
  '(m1, r1) ← applyOperator m op a v;
  match r1 with
  | None => Some (m1, None)
  | Some n => '(m2, r2) ← applyOperator m1 op b v; Some (m2, option_map (Nat.add n) r2)
  end.
Proof.
  destruct op; simpl; rewrite ?length_app.
  - rewrite applySet_app. destruct (applySet m a v) as [m1|]; simpl; [|done]. by destruct (applySet m1 b v).
  - unfold applyUnset. by rewrite foldl_app.
  - rewrite applyPush_app. destruct (applyPush m a v) as [[m1 []]|]; simpl; [|done|done].
    by destruct (applyPush m1 b v) as [[m2 []]|].
  - rewrite applyPull_app. destruct (applyPull m a v 0) as [[m1 [n|]]|]; simpl; [|done|done]. apply applyPull_count.
Qed.

Section instruction.
Context (old : loc) (filters : filters_map hval) (tree_filters : filters_map json).
Context (value : hval) (operand : json).
Notation fits := (fits old filters tree_filters value operand).
Notation drafted := (drafted old).
Notation edit := (edit tree_filters).
Notation all_places := (all_places tree_filters).

Lemma operator_applies_all op terminal : op = OpSet ∨ is_property terminal = true → ∀ vs js m S,
  fits m → drafted S → reps (cells m) vs js S →
  match edit_each (edit op operand [terminal]) js with
  | None => (is_index terminal = true ∧ Exists (λ vj : hval * json,
               places tree_filters vj.1 vj.2 terminal (require_existing op) = []) (zip vs js)) ∨
            ∃ m', applyOperator m op (all_places vs js terminal (require_existing op)) value = Some (m', None)
  | Some (js', n) => ∃ m' S', applyOperator m op (all_places vs js terminal (require_existing op)) value = Some (m', Some n) ∧
                       reps (cells m') vs js' S' ∧ touches m m' S S'
  end.
Proof.
  intros Hsup. induction vs as [|v vs IH]; intros js m S Hf HS Hrs; inversion Hrs as [|? ? j js0 S1 S2 Hv Hvs Hd]; subst.
  { simpl. exists m, ∅. split_and!; [by destruct op|constructor|apply touches_refl; apply Hf]. }
  cbn [edit_each]. assert (Hhead := operator_applies old filters tree_filters value operand m op terminal v j S1 Hsup Hf
    ltac:(intros ??; apply HS; set_solver) Hv). unfold applies in Hhead.
  change (edit op operand [terminal] j) with (edit_here tree_filters op operand terminal j).
  unfold PatchRefinement.all_places in *. cbn [zip_with List.concat zip]. rewrite applyOperator_app.
  destruct (edit_here tree_filters op operand terminal j) as [[j' n1]|]; cbn [mbind option_bind].
  2: { destruct Hhead as [[Hi Hp]|[m' ->]]; [left; split; [done|by left]|right; by eexists]. }
  destruct Hhead as (m1 & S1' & Hrun & Hv1 & Ht1). rewrite Hrun. cbn [mbind option_bind].
  destruct (touches_part m m1 S1 S1' S2) as [Ht1' Hd1]; [intros l Hl; eapply reps_brk; [apply Hf|exact Hvs|done]|done|done|].
  destruct (touches_fits _ _ _ _ _ _ _ _ _ Hf HS Ht1') as [Hf1 HS1].
  assert (reps (cells m1) vs js0 S2) as Hvs1 by (eapply touches_reps; [apply Hf|exact Ht1|set_solver|exact Hvs]).
  specialize (IH js0 m1 S2 Hf1 ltac:(intros ??; apply HS1; set_solver) Hvs1).
  destruct (edit_each (edit op operand [terminal]) js0) as [[js' n2]|]; cbn [mbind option_bind].
  - destruct IH as (m2 & S2' & Hrun2 & Hvs2 & Ht2). rewrite Hrun2. simpl.
    destruct (touches_part m1 m2 S2 S2' S1') as [Ht2' Hd2]; [intros l Hl; eapply rep_brk; [apply Hf1|exact Hv1|done]|set_solver|done|].
    exists m2, (S1' ∪ S2'). split_and!; [done| |].
    + constructor; [|done|set_solver]. eapply touches_rep; [apply Hf1|exact Ht2|set_solver|exact Hv1].
    + eapply touches_trans; [exact Ht1'|]. eapply touches_weaken; [| |exact Ht2']; set_solver.
  - destruct IH as [[Hi Hex]|[m2 Hrun2]]; [left; split; [done|by right]|right]. rewrite Hrun2. simpl. by eexists.
Qed.

(** A position addressed in every container gives as many places as there are
    containers. *)
Lemma edit_each_places vs js m S op : reps (cells m) vs js S → ∀ i js' n,
  edit_each (edit op operand [SIndex i]) js = Some (js', n) →
  length (all_places vs js (SIndex i) (require_existing op)) = length vs.
Proof.
  unfold PatchRefinement.all_places. induction 1 as [|v vs j js S1 S2 Hv Hvs IH Hd]; intros i js' n He; [done|].
  cbn [edit_each] in He. change (edit op operand [SIndex i] j) with (edit_here tree_filters op operand (SIndex i) j) in He.
  destruct (edit_here tree_filters op operand (SIndex i) j) as [[j' n1]|] eqn:Hh; [|done]. simpl in He.
  destruct (edit_each _ js) as [[js2 n2]|] eqn:He2; [|done]. simpl. rewrite length_app, (IH i js2 n2 He2).
  destruct op; try (by destruct j). destruct j as [| | | |l|]; try done. simpl in Hh.
  inversion Hv; subst. simpl. by destruct (i <? N.of_nat (length l))%N.
Qed.

(** The part of an instruction that works on the payload carries out its edit,
    or rejects it where the edit is impossible or changes nothing. *)
Lemma applyToPayload_rep m data j S op path walk terminal : op = OpSet ∨ is_property terminal = true →
  fits m → drafted S → rep (cells m) data j S →
  match edit op operand (walk ++ [terminal]) j with
  | Some (j', Datatypes.S n) => ∃ m' S',
      applyToPayload m data filters op path value walk terminal =
        Some (m', inr {| result_operator := op; result_path := path; matched := Datatypes.S n |}) ∧
      rep (cells m') data j' S' ∧ touches m m' S S'
  | _ => ∃ m' e, applyToPayload m data filters op path value walk terminal = Some (m', inl e)
  end.
Proof.
  intros Hsup Hf HS Hr. unfold applyToPayload.
  pose proof (resolveContainers_rep old filters tree_filters value operand m [terminal] walk Hf ltac:(done) [data] [j] S
    (reps_single _ _ _ _ Hr)) as Hwalk. simpl map in Hwalk.
  destruct (resolveContainers m [Some data] walk filters) as [[containers|stop]|]; [| |done]; simpl.
  2: { destruct (Hwalk op operand) as [He|[js' He]]; cbn [edit_each] in He;
         destruct (edit op operand (walk ++ [terminal]) j) as [[j' n]|]; simpl in He; simplify_eq; try (by do 2 eexists).
       rewrite Nat.add_0_r in *. subst. by do 2 eexists. }
  destruct Hwalk as (cvs & cjs & Sc & R & put & -> & Hcs & -> & Hd & Hed & Hput). specialize (Hed op operand).
  cbn [edit_each] in Hed.
  rewrite (resolveTargets_rep _ _ _ _ _ m cvs cjs Sc terminal _ Hf Hcs). simpl. rewrite length_map.
  fold (require_existing op).
  assert (HSc : drafted Sc) by (intros ??; apply HS; set_solver).
  pose proof (operator_applies_all op terminal Hsup cvs cjs m Sc Hf HSc Hcs) as Hop.
  destruct (edit_each (edit op operand [terminal]) cjs) as [[cs n]|] eqn:He; simpl in Hed.
  - destruct Hop as (m' & Sc' & Hrun & Hcs' & Ht).
    destruct (edit op operand (walk ++ [terminal]) j) as [[j' n']|]; simpl in Hed; [|done].
    injection Hed as Hj Hn. rewrite Nat.add_0_r in Hn. subst n'.
    assert ((Nat.eqb (length (all_places cvs cjs terminal (require_existing op))) 0) = true → n = 0%nat) as Hzero.
    { intros H0%Nat.eqb_eq. apply length_zero_iff_nil in H0. rewrite H0 in Hrun. destruct op; simpl in Hrun; by simplify_eq. }
    assert (is_index terminal && (length (all_places cvs cjs terminal (require_existing op)) <? length cvs)%nat = false) as Hshort.
    { destruct terminal; try done. simpl. apply Nat.ltb_ge. by rewrite (edit_each_places cvs cjs m Sc op Hcs _ _ _ He). }
    destruct (Nat.eqb (length (all_places cvs cjs terminal (require_existing op))) 0) eqn:H0.
    { rewrite (Hzero eq_refl). by do 2 eexists. }
    rewrite Hshort, Hrun. simpl. destruct n as [|n]; [by do 2 eexists|].
    destruct (touches_part m m' Sc Sc' R) as [Ht' Hd']; [|done|done|].
    { intros l Hl. eapply rep_brk; [apply Hf|exact Hr|set_solver]. }
    exists m', (Sc' ∪ R). split_and!; [done| |done].
    assert (reps (cells m') [data] (put cs) (Sc' ∪ R)) as Hres.
    { apply Hput; [done| |done]. intros l Hl. eapply touches_same; [exact Ht| |set_solver].
      eapply rep_brk; [apply Hf|exact Hr|set_solver]. }
    rewrite <- Hj in Hres. apply reps_single_inv in Hres as (j0 & Heq & Hres). by simplify_eq.
  - destruct (edit op operand (walk ++ [terminal]) j) as [[j' n']|]; simpl in Hed; [done|].
    destruct (Nat.eqb _ 0); [by do 2 eexists|]. destruct Hop as [[Hi Hex]|[m' Hrun]].
    + assert (length (all_places cvs cjs terminal (require_existing op)) < length cvs)%nat as Hlt.
      { apply all_places_short; [by destruct terminal|by eapply reps_length|done]. }
      rewrite Hi, (proj2 (Nat.ltb_lt _ _) Hlt). simpl. by do 2 eexists.
    + destruct (is_index terminal && _); [by do 2 eexists|]. rewrite Hrun. simpl. by do 2 eexists.
Qed.
End instruction.

(** ** Documents *)

(** A document in memory stands for a document of trees: the same operators,
    paths and filter keys, each operand the tree it stands for. *)
Definition operand_stands (m : mem) {A} (kv : A * hval) (kt : A * json) : Prop :=
  kv.1 = kt.1 ∧ ∃ S, rep (cells m) kv.2 kt.2 S.

Record document_stands (m : mem) (patch : ArtifactPatchDocument hval) (tree : ArtifactPatchDocument json) : Prop := {
  stands_instructions : ∀ op,
    Forall2 (operand_stands m) (default [] (instructions_of patch op)) (default [] (instructions_of tree op));
  stands_filters : Forall2 (Forall2 (operand_stands m)) (default [] (arrayFilters patch)) (default [] (arrayFilters tree));
}.

Section document.
Context (old : loc).

Definition filters_stand (m : mem) (filters : filters_map hval) (tree_filters : filters_map json) : Prop :=
  ∀ p, Forall2 (λ c ct : list string * _, c.1 = ct.1 ∧ old_rep old m c.2 ct.2)
    (default [] (JsMap.get p filters)) (conditions_of tree_filters p).
Definition instruction_stands (m : mem) (i : ArtifactPatchInstruction hval) (t : ArtifactPatchInstruction json) : Prop :=
  operator i = operator t ∧ path i = path t ∧ old_rep old m (operand i) (operand t).

Lemma stands_old m {A} (kv : A * hval) (kt : A * json) : wf_mem m → brk m = old → operand_stands m kv kt →
  kv.1 = kt.1 ∧ old_rep old m kv.2 kt.2.
Proof. intros Hm Hb (Hk & S & Hr). split; [done|]. exists S. split; [done|]. intros l Hl. rewrite <- Hb. by eapply rep_brk. Qed.

Lemma stands_keys m (f : ArtifactPatchArrayFilter hval) (t : ArtifactPatchArrayFilter json) :
  Forall2 (operand_stands m) f t → f.*1 = t.*1.
Proof. induction 1 as [|kv kt f t [Hk _] Hf IH]; [done|]. rewrite !fmap_cons. by f_equal. Qed.

Lemma filter_name_keys {V W} (f : ArtifactPatchArrayFilter V) (t : ArtifactPatchArrayFilter W) :
  f.*1 = t.*1 → artifactPatchFilterName f = artifactPatchFilterName t.
Proof.
  intros Hk. unfold artifactPatchFilterName. rewrite <- (map_map fst first_part), <- (map_map fst first_part).
  change (map fst f) with f.*1. change (map fst t) with t.*1. by rewrite Hk.
Qed.

Lemma compileFilters_stand m patch tree : wf_mem m → brk m = old → document_stands m patch tree →
  filters_stand m (compileFilters patch) (compileFilters tree).
Proof.
  intros Hm Hb [_ Hf]. unfold compileFilters.
  assert (∀ acc tacc, filters_stand m acc tacc → filters_stand m
    (foldl (λ compiled filter, match artifactPatchFilterName filter with
       | Some name => JsMap.set name (compileFilter filter) compiled | None => compiled end) acc (default [] (arrayFilters patch)))
    (foldl (λ compiled filter, match artifactPatchFilterName filter with
       | Some name => JsMap.set name (compileFilter filter) compiled | None => compiled end) tacc (default [] (arrayFilters tree)))) as H.
  2: { apply H. intros p. constructor. }
  induction Hf as [|f t fs ts Hft Hf IH]; intros acc tacc Hacc; simpl; [done|]. apply IH.
  rewrite (filter_name_keys f t (stands_keys m f t Hft)). destruct (artifactPatchFilterName t) as [name|]; [|done].
  intros p. unfold conditions_of. rewrite !JsMap.get_set. case_decide; [|apply Hacc]. simpl. unfold compileFilter.
  clear -Hft Hm Hb. induction Hft as [|kv kt f t Hk Hft IH]; [constructor|]. simpl.
  destruct (stands_old m kv kt Hm Hb Hk) as [H1 H2]. constructor; [|done]. simpl. by rewrite H1.
Qed.

Lemma instructions_stand m patch tree : wf_mem m → brk m = old → document_stands m patch tree →
  Forall2 (instruction_stands m) (artifactPatchInstructions patch) (artifactPatchInstructions tree).
Proof.
  intros Hm Hb [Hi _]. unfold artifactPatchInstructions. induction ARTIFACT_PATCH_OPERATORS as [|op ops IH]; [constructor|].
  simpl. apply Forall2_app; [|exact IH]. specialize (Hi op).
  induction Hi as [|kv kt l k Hk Hl IHl]; simpl; [constructor|]. destruct (stands_old m kv kt Hm Hb Hk) as [H1 H2].
  constructor; [by split_and!|done].
Qed.

Section engine.
Context `{Identity} (fuel : nat) (dataSchema : members) (options : ArtifactPatchApplyOptions).
Context (filters : filters_map hval) (tree_filters : filters_map json).

(** The copy of the payload, between two instructions. *)
Record draft_stands (m : mem) (draft : hval) (j : json) (S : gset loc) : Prop := {
  ds_wf : wf_mem m;
  ds_old : (old ≤ brk m)%nat;
  ds_rep : rep (cells m) draft j S;
  ds_drafted : drafted old S;
  ds_filters : filters_stand m filters tree_filters;
}.

Lemma applyInstruction_rep m draft j S i t outcome : draft_stands m draft j S → instruction_stands m i t →
  edit_instruction fuel dataSchema options tree_filters j t = Some outcome →
  match outcome with
  | Some (j', res) => ∃ m' S', applyInstruction fuel dataSchema m draft i filters options = Some (m', inr res) ∧
      draft_stands m' draft j' S' ∧ ∀ v w, old_rep old m v w → old_rep old m' v w
  | None => ∃ m' e, applyInstruction fuel dataSchema m draft i filters options = Some (m', inl e)
  end.
Proof.
  intros [Hwf Hold Hr HS Hfil] (Hop & Hpath & Hv) He. unfold edit_instruction in He. unfold applyInstruction.
  rewrite Hop, Hpath. destruct (last (artifactPatchSegments (path t))) as [terminal|] eqn:Hlast.
  2: { simplify_eq. by do 2 eexists. }
  destruct (unsupportedTarget (operator t) terminal (path t)) eqn:Hun; [simplify_eq; by do 2 eexists|].
  destruct (checkDeclaration fuel dataSchema (operator t) (path t) (artifactPatchSegments (path t))) as [decl|]; [|done].
  cbn [mbind option_bind] in *. destruct (refuses options (operator t) decl); [simplify_eq; by do 2 eexists|].
  assert (artifactPatchSegments (path t) = removelast (artifactPatchSegments (path t)) ++ [terminal]) as Hseg.
  { clear -Hlast. induction (artifactPatchSegments (path t)) as [|s l IH]; [done|]. destruct l as [|s' l]; [by simplify_eq/=|].
    change (removelast (s :: s' :: l)) with (s :: removelast (s' :: l)). simpl. f_equal. apply IH. exact Hlast. }
  assert (operator t = OpSet ∨ is_property terminal = true) as Hsup.
  { unfold unsupportedTarget in Hun. destruct (is_property terminal); [by right|]. destruct (operator t); [by left|done..]. }
  assert (fits old filters tree_filters (operand i) (operand t) m) as Hf by (by split).
  pose proof (applyToPayload_rep old filters tree_filters (operand i) (operand t) m draft j S (operator t) (path t)
    (removelast (artifactPatchSegments (path t))) terminal Hsup Hf HS Hr) as Hrun. rewrite <- Hseg in Hrun.
  destruct (edit tree_filters (operator t) (operand t) (artifactPatchSegments (path t)) j) as [[j' [|n]]|]; simplify_eq; [done| |done].
  destruct Hrun as (m' & S' & Hrun & Hr' & Ht). destruct (touches_fits _ _ _ _ _ _ _ _ _ Hf HS Ht) as [Hf' HS'].
  exists m', S'. split_and!; [done| |].
  - split; [apply Hf'|apply Hf'|done|done|exact (fits_filters _ _ _ _ _ _ Hf')].
  - intros v w Hvw. eapply touches_old; [exact Hf|exact HS|exact Ht|exact Hvw].
Qed.

Lemma applyInstructions_rep is_ ts : ∀ m draft j S operations outcome,
  draft_stands m draft j S → Forall2 (instruction_stands m) is_ ts →
  edit_instructions fuel dataSchema options tree_filters j operations ts = Some outcome →
  match outcome with
  | Some (j', ops) => ∃ m' S', applyInstructions fuel dataSchema m draft filters options operations is_ = Some (m', inr ops) ∧
      draft_stands m' draft j' S'
  | None => ∃ m' e, applyInstructions fuel dataSchema m draft filters options operations is_ = Some (m', inl e)
  end.
Proof.
  revert ts. induction is_ as [|i is_ IH]; intros ts m draft j S operations outcome Hds Hi He;
    inversion Hi as [|? t ? ts' Hit Hi']; subst; simpl in He.
  { simplify_eq. simpl. by exists m, S. }
  destruct (edit_instruction fuel dataSchema options tree_filters j t) as [o|] eqn:Ho; [|done]. simpl in He.
  pose proof (applyInstruction_rep m draft j S i t o Hds Hit Ho) as Hrun. cbn [applyInstructions].
  destruct o as [[j' res]|].
  - destruct Hrun as (m' & S' & Hrun & Hds' & Hkeep). rewrite Hrun. cbn [mbind option_bind].
    apply (IH ts' m' draft j' S' (operations ++ [res]) outcome Hds'); [|done].
    eapply Forall2_impl; [exact Hi'|]. intros i' t' (H1 & H2 & H3). split_and!; auto.
  - simplify_eq. destruct Hrun as (m' & e & Hrun). rewrite Hrun. by do 2 eexists.
Qed.
End engine.
End document.

(** C5: Where the schema inspection returns, the engine returns, and its outcome is
    the edit of the payload's tree: on success the copy it hands back stands for
    the edited tree, is made of new cells only, and the reported counts are those
    of the edit; where the edit of any instruction is impossible or changes
    nothing, it rejects. *)
Theorem patches_edit_the_payload `{Identity} fuel dataSchema options (m : mem) data d S patch tree outcome
    (Hm : wf_mem m) (Hdata : rep (cells m) data d S) (Hpatch : document_stands m patch tree)
    (Hedit : edit_document fuel dataSchema options d tree = Some outcome) :
  match outcome with
  | Some (d', operations) => ∃ m' draft S',
      applyArtifactPatch fuel dataSchema m data patch options = Some (m', inr (draft, operations)) ∧
      rep (cells m') draft d' S' ∧ ∀ l, l ∈ S' → (brk m ≤ l)%nat
  | None => ∃ m' e, applyArtifactPatch fuel dataSchema m data patch options = Some (m', inl e)
  end.
Proof.
  unfold applyArtifactPatch. destruct (structuredClone_rep m data d S Hm Hdata) as (m1 & draft & S1 & Hc & Hr1 & Hx).
  rewrite Hc. cbn [mbind option_bind]. destruct Hx as (W & B & F & N).
  assert (∀ v w, old_rep (brk m) m v w → old_rep (brk m) m1 v w) as Hkeep.
  { intros v w (T & Hr & HT). exists T. split; [|done]. eapply rep_frame; [exact Hr|]. intros l Hl. by apply F, HT. }
  pose proof (compileFilters_stand (brk m) m patch tree Hm eq_refl Hpatch) as Hfil.
  pose proof (instructions_stand (brk m) m patch tree Hm eq_refl Hpatch) as Hins.
  assert (draft_stands (brk m) (compileFilters patch) (compileFilters tree) m1 draft d S1) as Hds.
  { split; [done|done|done|intros l Hl; by apply N|].
    intros p. eapply Forall2_impl; [apply Hfil|]. intros c ct [??]. auto. }
  pose proof (applyInstructions_rep (brk m) fuel dataSchema options _ _ _ _ m1 draft d S1 [] outcome Hds
    ltac:(eapply Forall2_impl; [exact Hins|]; intros i t (?&?&?); split_and!; auto) Hedit) as Hrun.
  destruct outcome as [[d' ops]|].
  - destruct Hrun as (m' & S' & Hrun & Hds'). exists m', draft, S'. rewrite Hrun.
    split_and!; [done|apply Hds'|apply Hds'].
  - destruct Hrun as (m' & e & Hrun). rewrite Hrun. by do 2 eexists.
Qed.
