(* ===== verification/PatchIsolation.v ===== *)
(** * A patch does not touch what it was given

    For any memory, shared and cyclic payloads included: applying a patch
    document changes no cell that existed before the call, whether the patch is
    carried out or rejected halfway, and the patched payload reaches no such
    cell. *)
From stdpp Require Import gmap.
From S2P Require Import Prelude Json.
From S2P Require Import JsValue JsonTree Objects KindPaths ArtifactPatch.

Definition vals (c : cell) : list hval :=
  match c with CObj own => own.*2 | CArr items => items end.

(** [l] is reached from [v]. *)
Inductive reaches (h : heap) : hval → loc → Prop :=
  | reaches_here l : reaches h (HRef l) l
  | reaches_in l c v k : h !! l = Some c → v ∈ vals c → reaches h v k → reaches h (HRef l) k.

Section fence.
(** Cells below [n] existed before. *)
Context (n : loc).

Definition old_value (v : hval) : Prop := ∀ l, v = HRef l → (l < n)%nat.
Definition new_value (v : hval) : Prop := ∀ l, v = HRef l → (n ≤ l)%nat.

(** No reference crosses between the cells that existed and the new ones. *)
Record fenced (m : mem) : Prop := Fenced {
  fenced_brk : (n ≤ brk m)%nat;
  fenced_old : ∀ l c, cells m !! l = Some c → (l < n)%nat → Forall old_value (vals c);
  fenced_new : ∀ l c, cells m !! l = Some c → (n ≤ l)%nat → Forall new_value (vals c);
}.
Definition same_old (m m' : mem) : Prop := ∀ l, (l < n)%nat → cells m' !! l = cells m !! l.

(** A step that keeps the fence and everything below it. *)
Definition keeps (m m' : mem) : Prop := fenced m' ∧ same_old m m'.

Lemma keeps_refl m : fenced m → keeps m m.
Proof. intros Hm. by split. Qed.
Lemma keeps_trans m m1 m2 : keeps m m1 → keeps m1 m2 → keeps m m2.
Proof. intros [_ H1] [Hf H2]. split; [done|]. intros l Hl. by rewrite H2, H1. Qed.

Lemma keeps_put m l c : fenced m → (n ≤ l)%nat → Forall new_value (vals c) → keeps m (put l c m).
Proof.
  intros [Hb Ho Hn] Hl Hc. split; [split|]; simpl.
  - done.
  - intros k d Hk Hlt. rewrite lookup_insert_ne in Hk by lia. by eapply Ho.
  - intros k d Hk Hlt. apply lookup_insert_Some in Hk as [[-> <-]|[_ Hk]]; [done|by eapply Hn].
  - intros k Hk. simpl. by rewrite lookup_insert_ne by lia.
Qed.

Lemma keeps_alloc m c : fenced m → Forall new_value (vals c) → keeps m (alloc c m).
Proof.
  intros Hm Hc. pose proof (fenced_brk m Hm) as Hb. destruct (keeps_put m (brk m) c Hm Hb Hc) as [[_ Ho Hn] Hs].
  split; [split|]; simpl in *; [lia|done|done|done].
Qed.

(** ** Copies *)
Definition new_memo (μ : gmap loc loc) : Prop := ∀ l l', μ !! l = Some l' → (n ≤ l')%nat.

Definition copies_new (f : mem * gmap loc loc → hval → option (mem * gmap loc loc * hval)) : Prop :=
  ∀ m μ v st w, fenced m → new_memo μ → old_value v → f (m, μ) v = Some (st, w) →
    keeps m st.1 ∧ new_memo st.2 ∧ new_value w.

Lemma copies_keep f vs : copies_new f → ∀ m μ st ws, fenced m → new_memo μ → Forall old_value vs →
  copies f (m, μ) vs = Some (st, ws) → keeps m st.1 ∧ new_memo st.2 ∧ Forall new_value ws.
Proof.
  intros Hf. induction vs as [|v vs IH]; intros m μ st ws Hm Hμ Hvs Hrun; simpl in Hrun.
  { simplify_eq. split_and!; [by apply keeps_refl|done|constructor]. }
  apply Forall_cons in Hvs as [Hv Hvs]. destruct (f (m, μ) v) as [[[m1 μ1] w]|] eqn:H1; [|done]. simpl in Hrun.
  destruct (Hf _ _ _ _ _ Hm Hμ Hv H1) as (Hk1 & Hμ1 & Hw). simpl in *.
  destruct (copies f (m1, μ1) vs) as [[st2 ws2]|] eqn:H2; [|done]. simpl in Hrun. simplify_eq.
  destruct (IH _ _ _ _ (proj1 Hk1) Hμ1 Hvs H2) as (Hk2 & Hμ2 & Hws).
  split_and!; [by eapply keeps_trans|done|by constructor].
Qed.

Lemma copy_keeps fuel : copies_new (copy fuel).
Proof.
  induction fuel as [|fuel IH]; intros m μ v st w Hm Hμ Hv Hrun.
  { destruct v as [| | | |l]; simpl in Hrun; simplify_eq; try (split_and!; [by apply keeps_refl|done|done]).
    destruct (μ !! l) eqn:Hl; simplify_eq. split_and!; [by apply keeps_refl|done|]. intros ? [= <-]. by eapply Hμ. }
  destruct v as [| | | |l]; simpl in Hrun; simplify_eq; try (split_and!; [by apply keeps_refl|done|done]).
  destruct (μ !! l) eqn:Hl; simplify_eq.
  { split_and!; [by apply keeps_refl|done|]. intros ? [= <-]. by eapply Hμ. }
  assert (Hb := fenced_brk m Hm).
  assert (new_memo (<[l := brk m]> μ)) as Hμ'.
  { intros k k' [[_ <-]|[_ Hk]]%lookup_insert_Some; [done|by eapply Hμ]. }
  assert (∀ c0 vs st1 ws c, vals c0 = [] → Forall old_value vs →
    copies (copy fuel) (alloc c0 m, <[l := brk m]> μ) vs = Some (st1, ws) → Forall new_value (vals c) →
    keeps m (put (brk m) c st1.1) ∧ new_memo st1.2) as Hfill.
  { intros c0 vs st1 ws c H0 Hvs Hc Hnew.
    destruct (copies_keep _ vs IH _ _ _ _ (proj1 (keeps_alloc m c0 Hm ltac:(by rewrite H0))) Hμ' Hvs Hc) as (Hk & Hμ1 & _).
    split; [|done]. eapply keeps_trans; [apply keeps_alloc; [done|by rewrite H0]|].
    eapply keeps_trans; [exact Hk|]. apply keeps_put; [apply Hk|done|done]. }
  assert (∀ c0 vs st1 ws, vals c0 = [] → Forall old_value vs →
    copies (copy fuel) (alloc c0 m, <[l := brk m]> μ) vs = Some (st1, ws) → Forall new_value ws) as Hnew.
  { intros c0 vs st1 ws H0 Hvs Hc.
    by apply (copies_keep _ vs IH _ _ _ _ (proj1 (keeps_alloc m c0 Hm ltac:(by rewrite H0))) Hμ' Hvs Hc). }
  destruct (cells m !! l) as [[own|items]|] eqn:Hc; [| |done].
  all: pose proof (fenced_old m Hm l _ Hc (Hv l eq_refl)) as Hvals; simpl in Hvals.
  - destruct (copies _ _ own.*2) as [[st1 ws]|] eqn:Hrun1; [|done]. simpl in Hrun. simplify_eq. simpl.
    pose proof (Hnew (CObj []) _ _ _ eq_refl Hvals Hrun1) as Hws.
    destruct (Hfill (CObj []) _ _ _ (CObj (zip own.*1 ws)) eq_refl Hvals Hrun1) as [Hk Hμ1].
    { simpl. clear -Hws. generalize (own.*1). intros ks. revert ks.
      induction Hws as [|w ws Hw Hws IHw]; intros [|k ks]; simpl; constructor; [done|apply IHw]. }
    split_and!; [done|done|]. intros ? [= <-]. done.
  - destruct (copies _ _ items) as [[st1 ws]|] eqn:Hrun1; [|done]. simpl in Hrun. simplify_eq. simpl.
    pose proof (Hnew (CArr []) _ _ _ eq_refl Hvals Hrun1) as Hws.
    destruct (Hfill (CArr []) _ _ _ (CArr ws) eq_refl Hvals Hrun1 Hws) as [Hk Hμ1].
    split_and!; [done|done|]. intros ? [= <-]. done.
Qed.

Lemma structuredClone_keeps m v m' w : fenced m → old_value v → structuredClone m v = Some (m', w) →
  keeps m m' ∧ new_value w.
Proof.
  intros Hm Hv Hc. unfold structuredClone in Hc. destruct (copy _ _ _) as [[[m1 μ1] w1]|] eqn:H1; [|done]. simpl in Hc.
  simplify_eq. by destruct (copy_keeps _ _ _ _ _ _ Hm (λ l l' H, ltac:(by rewrite lookup_empty in H)) Hv H1) as (Hk & _ & Hw).
Qed.

(** ** Places and operators *)
Definition new_target (t : PatchTarget) : Prop :=
  match t with TProperty l _ | TElement l _ => (n ≤ l)%nat end.
Definition new_container (c : option hval) : Prop := ∀ v, c = Some v → new_value v.

Lemma values_set (P : hval → Prop) k v (own : list (string * hval)) :
  P v → Forall P (own.*2) → Forall P ((JsMap.set k v own).*2).
Proof.
  intros Hv. induction own as [|[k1 v1] own IH]; intros Hall; [by repeat constructor|]. cbn [JsMap.set].
  rewrite fmap_cons in Hall. apply Forall_cons in Hall as [H1 Hall]. case_decide; rewrite fmap_cons; constructor; auto.
Qed.
Lemma values_delete (P : hval → Prop) k (own : list (string * hval)) :
  Forall P (own.*2) → Forall P ((JsMap.delete k own).*2).
Proof.
  induction own as [|[k1 v1] own IH]; intros Hall; [done|]. cbn [JsMap.delete].
  rewrite fmap_cons in Hall. apply Forall_cons in Hall as [H1 Hall]. case_decide; rewrite ?fmap_cons; auto.
Qed.

Lemma object_at_new m c l own : new_container c → object_at (cells m) c = Some (l, own) →
  (n ≤ l)%nat ∧ cells m !! l = Some (CObj own).
Proof.
  intros Hc Ho. destruct c as [[| | | |k]|]; try done. simpl in Ho. destruct (cells m !! k) as [[]|] eqn:Hk; simplify_eq.
  split; [by eapply (Hc (HRef l))|done].
Qed.
Lemma array_at_new m c l items : new_container c → array_at (cells m) c = Some (l, items) →
  (n ≤ l)%nat ∧ cells m !! l = Some (CArr items).
Proof.
  intros Hc Ho. destruct c as [[| | | |k]|]; try done. simpl in Ho. destruct (cells m !! k) as [[]|] eqn:Hk; simplify_eq.
  split; [by eapply (Hc (HRef l))|done].
Qed.

Lemma targets_in_new m segment filters r c ts : new_container c →
  targets_in m segment filters r c = Some ts → Forall new_target ts.
Proof.
  intros Hc Hrun. unfold targets_in in Hrun. destruct segment as [name|i|p].
  - destruct (object_at (cells m) c) as [[l own]|] eqn:Ho; [|by simplify_eq; constructor].
    destruct (object_at_new m c l own Hc Ho) as [Hl _]. simplify_eq. case_match; repeat constructor; done.
  - destruct (array_at (cells m) c) as [[l items]|] eqn:Ho; [|by simplify_eq; constructor].
    destruct (array_at_new m c l items Hc Ho) as [Hl _]. simplify_eq. case_match; repeat constructor; done.
  - destruct (array_at (cells m) c) as [[l items]|] eqn:Ho; [|by simplify_eq; constructor].
    destruct (array_at_new m c l items Hc Ho) as [Hl _]. destruct (indices_where _ _ _) as [is_|]; [|done].
    simpl in Hrun. simplify_eq. apply Forall_forall. intros t Ht. by apply list_elem_of_fmap in Ht as (i & -> & _).
Qed.

Lemma resolveTargets_new m cs segment filters r ts : Forall new_container cs →
  resolveTargets m cs segment filters r = Some ts → Forall new_target ts.
Proof.
  intros Hcs Hrun. unfold resolveTargets in Hrun. destruct (mapM _ cs) as [tss|] eqn:Hm; [|done]. simpl in Hrun. simplify_eq.
  apply mapM_Some in Hm. induction Hm as [|c ts cs tss Hc Hm IH]; [constructor|]. apply Forall_cons in Hcs as [H1 H2].
  simpl. apply Forall_app. split; [by eapply targets_in_new|by apply IH].
Qed.

Lemma readTarget_new m t : fenced m → new_target t → new_container (readTarget m t).
Proof.
  intros Hm Ht v Hv. destruct t as [l key|l i]; simpl in *; destruct (cells m !! l) as [[own|items]|] eqn:Hl; try done.
  - pose proof (fenced_new m Hm l _ Hl Ht) as Hall. apply JsMap.get_elem in Hv. rewrite Forall_forall in Hall.
    apply Hall. simpl. apply list_elem_of_fmap. by exists (key, v).
  - pose proof (fenced_new m Hm l _ Hl Ht) as Hall. rewrite Forall_forall in Hall. apply Hall.
    by eapply list_elem_of_lookup_2.
Qed.

Lemma resolveContainers_new m filters segments : fenced m → ∀ cs r, Forall new_container cs →
  resolveContainers m cs segments filters = Some (inl r) → Forall new_container r.
Proof.
  intros Hm. induction segments as [|segment segments IH]; intros cs r Hcs Hrun; cbn [resolveContainers] in Hrun; [by simplify_eq|].
  destruct (resolveTargets m cs segment filters true) as [ts|] eqn:Hts; [|done]. simpl in Hrun.
  destruct (Nat.eqb _ 0); [done|]. destruct (_ && _); [done|]. eapply IH; [|exact Hrun].
  pose proof (resolveTargets_new _ _ _ _ _ _ Hcs Hts) as Hnew. apply Forall_forall. intros c Hc.
  apply list_elem_of_fmap in Hc as (t & -> & Ht). rewrite Forall_forall in Hnew. by apply readTarget_new, Hnew.
Qed.

Lemma writeTarget_keeps m t v : fenced m → new_target t → new_value v → keeps m (writeTarget m t v).
Proof.
  intros Hm Ht Hv. destruct t as [l key|l i]; simpl in *; destruct (cells m !! l) as [[own|items]|] eqn:Hl;
    try by apply keeps_refl.
  - apply keeps_put; [done|done|]. simpl. apply values_set; [done|]. by apply (fenced_new m Hm l _ Hl Ht).
  - apply keeps_put; [done|done|]. simpl. apply Forall_insert; [|done]. by apply (fenced_new m Hm l _ Hl Ht).
Qed.

Lemma applySet_keeps value ts : old_value value → ∀ m m', fenced m → Forall new_target ts →
  applySet m ts value = Some m' → keeps m m'.
Proof.
  intros Hv. induction ts as [|t ts IH]; intros m m' Hm Hts Hrun; simpl in Hrun; [simplify_eq; by apply keeps_refl|].
  apply Forall_cons in Hts as [Ht Hts]. destruct (structuredClone m value) as [[m1 w]|] eqn:Hc; [|done]. simpl in Hrun.
  destruct (structuredClone_keeps _ _ _ _ Hm Hv Hc) as [Hk Hw].
  pose proof (writeTarget_keeps m1 t w (proj1 Hk) Ht Hw) as Hk2.
  eapply keeps_trans; [exact Hk|]. eapply keeps_trans; [exact Hk2|]. by apply IH; [apply Hk2|..].
Qed.

Lemma applyUnset_keeps ts : ∀ m, fenced m → Forall new_target ts → keeps m (applyUnset m ts).
Proof.
  unfold applyUnset. induction ts as [|t ts IH]; intros m Hm Hts; simpl; [by apply keeps_refl|].
  apply Forall_cons in Hts as [Ht Hts]. assert (keeps m (delete_property m t)) as Hk.
  { destruct t as [l key|l i]; simpl; [|by apply keeps_refl]. destruct (cells m !! l) as [[own|items]|] eqn:Hl;
      try by apply keeps_refl. apply keeps_put; [done|done|]. simpl. apply values_delete. by apply (fenced_new m Hm l _ Hl Ht). }
  eapply keeps_trans; [exact Hk|]. apply IH; [apply Hk|done].
Qed.

Lemma applyPush_keeps value ts : old_value value → ∀ m m' ok, fenced m → Forall new_target ts →
  applyPush m ts value = Some (m', ok) → keeps m m'.
Proof.
  intros Hv. induction ts as [|t ts IH]; intros m m' ok Hm Hts Hrun; cbn [applyPush] in Hrun.
  { simplify_eq. by apply keeps_refl. }
  apply Forall_cons in Hts as [Ht Hts]. pose proof (readTarget_new m t Hm Ht) as Hread.
  destruct (readTarget m t) as [cur|] eqn:Hcur.
  - destruct (array_at (cells m) (Some cur)) as [[l items]|] eqn:Ha; [|simplify_eq; by apply keeps_refl].
    destruct (array_at_new m _ l items Hread Ha) as [Hl Hcell].
    destruct (structuredClone m value) as [[m1 w]|] eqn:Hc; [|done]. cbn [mbind option_bind] in Hrun.
    destruct (structuredClone_keeps _ _ _ _ Hm Hv Hc) as [Hk Hw].
    assert (keeps m1 (put l (CArr (items ++ [w])) m1)) as Hk2.
    { apply keeps_put; [apply Hk|done|]. simpl. apply Forall_app. split; [by apply (fenced_new m Hm l _ Hcell Hl)|by repeat constructor]. }
    eapply keeps_trans; [exact Hk|]. eapply keeps_trans; [exact Hk2|]. eapply IH; [apply Hk2|done|exact Hrun].
  - destruct (structuredClone m value) as [[m1 w]|] eqn:Hc; [|done]. cbn [mbind option_bind] in Hrun.
    destruct (structuredClone_keeps _ _ _ _ Hm Hv Hc) as [Hk Hw].
    assert (keeps m1 (alloc (CArr [w]) m1)) as Hk2 by (apply keeps_alloc; [apply Hk|by repeat constructor]).
    assert (new_value (HRef (brk m1))) as Href by (intros ? [= <-]; apply fenced_brk, Hk).
    pose proof (writeTarget_keeps _ t _ (proj1 Hk2) Ht Href) as Hk3.
    eapply keeps_trans; [exact Hk|]. eapply keeps_trans; [exact Hk2|]. eapply keeps_trans; [exact Hk3|].
    eapply IH; [apply Hk3|done|exact Hrun].
Qed.

Lemma retained_subset m value items kept : retained m value items = Some kept → kept ⊆ items.
Proof.
  revert kept. induction items as [|v items IH]; intros kept Hrun; simpl in Hrun; [by simplify_eq|].
  destruct (matchesPullCondition m (Some v) value) as [b|]; [|done]. simpl in Hrun.
  destruct (retained m value items) as [rest|]; [|done]. simpl in Hrun. specialize (IH rest eq_refl).
  destruct b; simplify_eq; set_solver.
Qed.

Lemma applyPull_keeps value ts : ∀ m m' k r, fenced m → Forall new_target ts →
  applyPull m ts value k = Some (m', r) → keeps m m'.
Proof.
  induction ts as [|t ts IH]; intros m m' k r Hm Hts Hrun; cbn [applyPull] in Hrun; [simplify_eq; by apply keeps_refl|].
  apply Forall_cons in Hts as [Ht Hts]. pose proof (readTarget_new m t Hm Ht) as Hread.
  destruct (array_at (cells m) (readTarget m t)) as [[l items]|] eqn:Ha; [|simplify_eq; by apply keeps_refl].
  destruct (array_at_new m _ l items Hread Ha) as [Hl Hcell].
  destruct (retained m value items) as [kept|] eqn:Hkept; [|done]. cbn [mbind option_bind] in Hrun.
  assert (keeps m (put l (CArr kept) m)) as Hk.
  { apply keeps_put; [done|done|]. pose proof (fenced_new m Hm l _ Hcell Hl) as Hall. simpl in *.
    rewrite Forall_forall in *. intros x Hx. by apply Hall, (retained_subset _ _ _ _ Hkept). }
  eapply keeps_trans; [exact Hk|]. eapply IH; [apply Hk|done|exact Hrun].
Qed.

Lemma applyOperator_keeps m op ts value m' r : fenced m → old_value value → Forall new_target ts →
  applyOperator m op ts value = Some (m', r) → keeps m m'.
Proof.
  intros Hm Hv Hts Hrun. destruct op; simpl in Hrun.
  - destruct (applySet m ts value) as [m1|] eqn:H1; [|done]. simpl in Hrun. simplify_eq. by eapply applySet_keeps.
  - simplify_eq. by apply applyUnset_keeps.
  - destruct (applyPush m ts value) as [[m1 ok]|] eqn:H1; [|done]. simpl in Hrun. simplify_eq. by eapply applyPush_keeps.
  - by eapply applyPull_keeps.
Qed.

(** ** Instructions *)
Section engine.
Context `{Identity} (fuel : nat) (dataSchema : members) (options : ArtifactPatchApplyOptions) (filters : filters_map hval).

Lemma applyToPayload_keeps m data op path value walk terminal m' o : fenced m → new_value data → old_value value →
  applyToPayload m data filters op path value walk terminal = Some (m', o) → keeps m m'.
Proof.
  intros Hm Hd Hv Hrun. unfold applyToPayload in Hrun.
  destruct (resolveContainers _ _ _ _) as [[cs|stop]|] eqn:Hcs; [| |done]; simpl in Hrun; [|simplify_eq; by apply keeps_refl].
  destruct (resolveTargets _ _ _ _ _) as [ts|] eqn:Hts; [|done]. simpl in Hrun.
  destruct (Nat.eqb _ 0); [simplify_eq; by apply keeps_refl|]. destruct (_ && _); [simplify_eq; by apply keeps_refl|].
  destruct (applyOperator m op ts value) as [[m1 r]|] eqn:Hop; [|done]. simpl in Hrun. simplify_eq.
  eapply applyOperator_keeps; [done|done| |exact Hop]. eapply resolveTargets_new; [|exact Hts].
  eapply resolveContainers_new; [exact Hm| |exact Hcs]. constructor; [|done]. by intros ? [= <-].
Qed.

Lemma applyInstruction_keeps m data i m' o : fenced m → new_value data → old_value (operand i) →
  applyInstruction fuel dataSchema m data i filters options = Some (m', o) → keeps m m'.
Proof.
  intros Hm Hd Hv Hrun. unfold applyInstruction in Hrun.
  destruct (last _) as [terminal|]; [|simplify_eq; by apply keeps_refl].
  destruct (unsupportedTarget _ _ _); [simplify_eq; by apply keeps_refl|].
  destruct (checkDeclaration _ _ _ _ _) as [decl|]; [|done]. cbn [mbind option_bind] in Hrun.
  destruct (refuses _ _ _); [simplify_eq; by apply keeps_refl|]. by eapply applyToPayload_keeps.
Qed.

Lemma applyInstructions_keeps is_ : ∀ m data operations m' o, fenced m → new_value data →
  Forall (λ i, old_value (operand i)) is_ →
  applyInstructions fuel dataSchema m data filters options operations is_ = Some (m', o) → keeps m m'.
Proof.
  induction is_ as [|i is_ IH]; intros m data operations m' o Hm Hd Hv Hrun; cbn [applyInstructions] in Hrun.
  { simplify_eq. by apply keeps_refl. }
  apply Forall_cons in Hv as [Hi Hv].
  destruct (applyInstruction _ _ _ _ _ _ _) as [[m1 [e|res]]|] eqn:H1; [| |done]; cbn [mbind option_bind] in Hrun;
    pose proof (applyInstruction_keeps _ _ _ _ _ Hm Hd Hi H1) as Hk; [by simplify_eq|].
  eapply keeps_trans; [exact Hk|]. eapply IH; [apply Hk|done|done|exact Hrun].
Qed.
End engine.

Lemma reaches_new m v k : fenced m → new_value v → reaches (cells m) v k → (n ≤ k)%nat.
Proof.
  intros Hm Hv Hr. induction Hr as [l|l c v k Hl Hin Hr IH]; [by apply Hv|]. apply IH.
  pose proof (fenced_new m Hm l c Hl (Hv l eq_refl)) as Hall. rewrite Forall_forall in Hall. by apply Hall.
Qed.
End fence.

(** A memory whose references all lead to cells allocated in it. *)
Definition closed_mem (m : mem) : Prop :=
  wf_mem m ∧ ∀ l c, cells m !! l = Some c → Forall (old_value (brk m)) (vals c).

Lemma closed_fenced m : closed_mem m → fenced (brk m) m.
Proof.
  intros [Hwf Hc]. split; [done|intros; by eapply Hc|]. intros l c Hl Hle. pose proof (Hwf l ltac:(by eexists)). lia.
Qed.

(** C14: Whatever the payload and the operands of a patch share, in any memory:
    applying the patch, successfully or not, changes no cell that existed before,
    and a patched payload reaches no such cell. *)
Theorem patching_leaves_its_input `{Identity} fuel dataSchema options (m : mem) data patch m' outcome
    (Hm : closed_mem m) (Hdata : old_value (brk m) data)
    (Hpatch : Forall (λ i, old_value (brk m) (operand i)) (artifactPatchInstructions patch))
    (Hrun : applyArtifactPatch fuel dataSchema m data patch options = Some (m', outcome)) :
  (∀ l, (l < brk m)%nat → cells m' !! l = cells m !! l) ∧
  match outcome with
  | inr (patched, _) => ∀ l, reaches (cells m') patched l → (brk m ≤ l)%nat
  | inl _ => True
  end.
Proof.
  unfold applyArtifactPatch in Hrun. destruct (structuredClone m data) as [[m1 draft]|] eqn:Hc; [|done].
  cbn [mbind option_bind] in Hrun.
  destruct (structuredClone_keeps (brk m) _ _ _ _ (closed_fenced m Hm) Hdata Hc) as [Hk Hnew].
  destruct (applyInstructions _ _ _ _ _ _ _ _) as [[m2 o]|] eqn:Hi; [|done]. cbn [mbind option_bind] in Hrun.
  injection Hrun as <- <-. pose proof (applyInstructions_keeps (brk m) _ _ _ _ _ _ _ _ _ _ (proj1 Hk) Hnew Hpatch Hi) as Hk2.
  split; [by apply (keeps_trans _ _ _ _ Hk Hk2)|]. destruct o as [e|ops]; [done|].
  intros l. apply reaches_new; [apply Hk2|done].
Qed.
