(* ===== verification/PatchArtifact.v ===== *)
(** * Revising an artifact by patch

    [extensions/artifact-patch/src/patch-artifact.ts]: the whole operation
    behind [artifact.patch], from the requested revision to the stored one.

    The host (access, catalog, persistence) and the JSON Schema compiler are
    code outside the repository's core: parameters.  Each call of the host is
    logged with what it answered.  A rejection is modelled by its code and what a
    caller acts on; message and repair texts are left out, except for the one
    repair that depends on the patch (resend or rewrite). *)
From stdpp Require Import gmap.
From S2P Require Import Prelude Json.
From S2P Require Import JsValue JsonTree Objects KindPaths KindValidation ArtifactParts ArtifactPatch.

(** ** Reading a payload

    Code that only reads the payload is given its tree; [None] is a payload that
    is no finite tree. *)
Fixpoint tree_of (fuel : nat) (h : heap) (v : hval) : option json :=
  match v with
  | HNull => Some JNull
  | HBool b => Some (JBool b)
  | HNum n => Some (JNum n)
  | HStr s => Some (JStr s)
  | HRef l =>
      match fuel with
      | O => None
      | S fuel' =>
          match h !! l with
          | Some (CArr items) => js ← mapM (tree_of fuel' h) items; Some (JArr js)
          | Some (CObj own) => js ← mapM (tree_of fuel' h) own.*2; Some (JObj (zip own.*1 js))
          | None => None
          end
      end
  end.

Definition payload_of (m : mem) (v : hval) : option members := t ← tree_of (depth_of m) (cells m) v; as_object (Some t).

(** ** Requests, revisions, registrations *)
Record ArtifactRef := { ref_kind : string; ref_id : string; ref_revision : string }.

(** [relations]: the [sourceLocalId] of each. *)
Record ArtifactRevision := {
  rev_kind : string;
  rev_id : string;
  revision : string;
  rev_schemaVersion : Z;
  data : hval;
  relations : list (option string);
}.

Record ArtifactKindRegistration := {
  reg_kind : string;
  reg_schemaVersion : Z;
  reg_dataSchema : members;
  reg_titlePath : string;
  addressableParts : option (list part_area);
}.

Record ArtifactPatchRequest := {
  req_kind : string;
  req_id : string;
  baseRevision : string;
  patch : ArtifactPatchDocument hval;
  dryRun : bool;
  req_schemaVersion : option Z;
  statusPath : option string;
  representations : option hval;
}.

Record ArtifactPatchStoreRequest := {
  previous : ArtifactRevision;
  store_data : hval;
  store_schemaVersion : Z;
  store_statusPath : option string;
  store_representations : option hval;
}.

Inductive ArtifactPatchStoreResult :=
  | Stored (r : ArtifactRevision)
  | StoreConflict (conflictingRevision : string)
  | StoreRejection (message : string) (issues : list data_issue).

(** ** Outcomes *)
Inductive host_failure :=
  | LookupThrew (e : string) | WrongIdentity | ListThrew (e : string) | SchemaDoesNotCompile (e : string)
  | StoreThrew (e : string) | NotANewRevision | WrongSchemaVersion.

Inductive patch_failure :=
  | ArtifactNotFound
  | BaseRevisionConflict (currentRevision : string) (rebasable : bool)
  | KindNotRegistered
  | SchemaVersionMismatch (reachable : list Z)
  | InstructionRejected (e : ArtifactPatchError)
  | SchemaValidationFailed (issues : list data_issue)
  | PayloadInvariantFailed (issues : list data_issue)
  | NoChange
  | StoreRejected (named : option string) (issues : list data_issue)
  | HostFailed (why : host_failure).

Record patch_success := {
  base : ArtifactRef;
  success_dryRun : bool;
  artifact : option ArtifactRef;
  operations : list ArtifactPatchOperationResult;
  migration : option (Z * Z);
}.

(** Calls of the host with their answers; a write is logged with the memory it
    was asked in. *)
Inductive host_call :=
  | CalledResolve (answer : string + option ArtifactRevision)
  | CalledList (answer : string + list ArtifactKindRegistration)
  | CalledStore (m : mem) (request : ArtifactPatchStoreRequest) (answer : string + ArtifactPatchStoreResult).

(** [inl]: what the call threw. *)
Record ArtifactPatchHost (σ : Type) := {
  resolveCurrent : string * string → mem * σ → mem * σ * (string + option ArtifactRevision);
  listKinds : string → mem * σ → mem * σ * (string + list ArtifactKindRegistration);
  store : ArtifactPatchStoreRequest → mem * σ → mem * σ * (string + ArtifactPatchStoreResult);
}.
Arguments resolveCurrent {σ}.
Arguments listKinds {σ}.
Arguments store {σ}.

(** ** Statements

    A step of the operation: memory and host state, the host calls made, and a
    rejection or a result. *)
Definition step (σ A : Type) : Type := mem * σ → option (mem * σ * list host_call * (patch_failure + A)).

Section steps.
Context {σ : Type}.

#[export] Instance step_ret : MRet (step σ) := λ A a s, Some (s, [], inr a).
#[export] Instance step_bind : MBind (step σ) := λ A B k x s,
  match x s with
  | None => None
  | Some (s1, calls, inl f) => Some (s1, calls, inl f)
  | Some (s1, calls, inr a) =>
      match k a s1 with
      | None => None
      | Some (s2, calls2, r) => Some (s2, calls ++ calls2, r)
      end
  end.

(** [return failed(f)]. *)
Definition reject {A} (f : patch_failure) : step σ A := λ s, Some (s, [], inl f).
(** [if (rejection) return failed(rejection)]. *)
Definition unless (f : option patch_failure) : step σ unit :=
  match f with Some f => reject f | None => mret () end.
(** A pure result or rejection. *)
Definition checked {A} (r : patch_failure + A) : step σ A := λ s, Some (s, [], r).
(** A value that may not be computed in a finite stack. *)
Definition computed {A} (f : mem → option A) : step σ A := λ s, a ← f s.1; Some (s, [], inr a).
Definition memory : step σ mem := λ s, Some (s, [], inr s.1).
(** A call of the host, and what to report when it throws. *)
Definition host_step {A} (call : mem * σ → mem * σ * (string + A)) (log : mem → string + A → host_call)
    (thrown : string → patch_failure) : step σ A :=
  λ s, let '(s', answer) := call s in
       Some (s', [log s.1 answer], match answer with inl e => inl (thrown e) | inr a => inr a end).
End steps.

Definition artifactRef (kind id revision : string) : ArtifactRef :=
  {| ref_kind := kind; ref_id := id; ref_revision := revision |}.

Definition isRebasable (input : ArtifactPatchRequest) : bool :=
  match representations input, req_schemaVersion input with
  | None, None =>
      forallb (λ i : ArtifactPatchInstruction hval,
        bool_decide (operator i = OpPush) && forallb is_property (artifactPatchSegments (path i)))
        (artifactPatchInstructions (patch input))
  | _, _ => false
  end.

Definition baseRevisionConflict (input : ArtifactPatchRequest) (currentRevision : string) : patch_failure :=
  BaseRevisionConflict currentRevision (isRebasable input).

(** The host's issues pass the response schema, which asks for a reason; a blank
    message is replaced by a fallback text. *)
Definition storeRejection (message : string) (issues : list data_issue) : patch_failure :=
  StoreRejected (if bool_decide (trim message = "") then None else Some (trim message))
    (List.filter (λ i, negb (bool_decide (reason i = ""))) issues).

Definition checkTitle (payload : members) (registration : ArtifactKindRegistration) : option patch_failure :=
  match readArtifactTitle payload (reg_titlePath registration) with
  | inr _ => None
  | inl e => Some (PayloadInvariantFailed [DataIssue (reg_titlePath registration) e])
  end.

Definition areas_of (registration : ArtifactKindRegistration) : list part_area :=
  default [] (addressableParts registration).

Definition checkPartIds (payload : members) (registration : ArtifactKindRegistration) : option patch_failure :=
  match checkArtifactPartIds (areas_of registration) payload with
  | [] => None
  | issues => Some (PayloadInvariantFailed issues)
  end.

Definition failure_text (r : resolution_failure) : string :=
  match r with
  | NO_PARTS_DECLARED => "NO_PARTS_DECLARED" | PART_NOT_FOUND => "PART_NOT_FOUND" | DUPLICATE_LOCAL_ID => "DUPLICATE_LOCAL_ID"
  end.

Definition checkRelationSources (payload : members) (relations : list (option string))
    (registration : ArtifactKindRegistration) : option patch_failure :=
  match checkArtifactRelationSourceParts (areas_of registration) payload relations with
  | [] => None
  | issues => Some (PayloadInvariantFailed (map (λ i,
      DataIssue ("relations." +:+ pretty (relationIndex i) +:+ ".sourceLocalId") (failure_text (relation_reason i))) issues))
  end.

Definition resolveRegistration (registrations : list ArtifactKindRegistration) (artifact : ArtifactRevision) (target : Z)
    : patch_failure + ArtifactKindRegistration :=
  let candidates := List.filter (λ c, bool_decide (reg_kind c = rev_kind artifact)) registrations in
  match candidates with
  | [] => inl KindNotRegistered
  | _ =>
      match List.find (λ c, bool_decide (reg_schemaVersion c = target)) candidates with
      | Some registration => inr registration
      | None => inl (SchemaVersionMismatch
          (List.filter (λ version, rev_schemaVersion artifact <? version)%Z
             (js_sort Z.leb (remove_dups (map reg_schemaVersion candidates)))))
      end
  end.

Definition resolveTargetRegistration (input : ArtifactPatchRequest) (artifact : ArtifactRevision)
    (registrations : list ArtifactKindRegistration) : patch_failure + ArtifactKindRegistration :=
  if match req_schemaVersion input with Some v => (v <? rev_schemaVersion artifact)%Z | None => false end
  then inl (SchemaVersionMismatch [])
  else match resolveRegistration registrations artifact (default (rev_schemaVersion artifact) (req_schemaVersion input)) with
  | inl f => inl f
  | inr registration =>
      if bool_decide (reg_schemaVersion registration = rev_schemaVersion artifact) &&
         match artifactPatchInstructions (patch input) with [] => true | _ => false end
      then inl NoChange else inr registration
  end.

Definition checkStoredRevision (stored : ArtifactRevision) (base : ArtifactRef) (schemaVersion : Z) : option patch_failure :=
  if negb (bool_decide (rev_kind stored = ref_kind base)) || negb (bool_decide (rev_id stored = ref_id base)) ||
     bool_decide (revision stored = ref_revision base)
  then Some (HostFailed NotANewRevision)
  else if negb (bool_decide (rev_schemaVersion stored = schemaVersion)) then Some (HostFailed WrongSchemaVersion)
  else None.

(** The envelope owns [slug]: a payload carrying it is rejected beside what the
    schema rejects. *)
Definition reserved_slug_issue : data_issue :=
  DataIssue "slug" "Data field slug is reserved: the artifact envelope owns the slug".
Definition data_checker (validate : members → list data_issue) (payload : members) : list data_issue :=
  validate payload ++ (if JsMap.has "slug" payload then [reserved_slug_issue] else []).

Section operation.
Context `{Identity} (fuel : nat) {σ : Type} (host : ArtifactPatchHost σ).
(** The JSON Schema compiler: the error thrown, or a validator reporting what it
    rejects. *)
Context (compile : members → string + (members → list data_issue)).

Definition compileChecker (registration : ArtifactKindRegistration) : patch_failure + (members → list data_issue) :=
  match compile (reg_dataSchema registration) with
  | inl e => inl (HostFailed (SchemaDoesNotCompile e))
  | inr validate => inr (data_checker validate)
  end.

Definition loadBaseRevision (input : ArtifactPatchRequest) : step σ ArtifactRevision :=
  answer ← host_step (resolveCurrent host (req_kind input, req_id input)) (λ _, CalledResolve)
             (λ e, HostFailed (LookupThrew e));
  match answer with
  | None => reject ArtifactNotFound
  | Some artifact =>
      if negb (bool_decide (rev_kind artifact = req_kind input)) || negb (bool_decide (rev_id artifact = req_id input))
      then reject (HostFailed WrongIdentity)
      else if negb (bool_decide (revision artifact = baseRevision input))
      then reject (baseRevisionConflict input (revision artifact))
      else mret artifact
  end.

Definition apply_step (artifact : ArtifactRevision) (input : ArtifactPatchRequest) (registration : ArtifactKindRegistration)
    (migrating : bool) : step σ (hval * list ArtifactPatchOperationResult) :=
  λ s, '(m', outcome) ← applyArtifactPatch fuel (reg_dataSchema registration) s.1 (data artifact) (patch input)
                          {| allowUndeclaredRemovals := migrating |};
       Some ((m', s.2), [], match outcome with inl e => inl (InstructionRejected e) | inr applied => inr applied end).

(** The checks of the patched payload. *)
Definition check_payload (checker : members → list data_issue) (artifact : ArtifactRevision)
    (registration : ArtifactKindRegistration) (payload : members) : step σ unit :=
  _ ← unless match checker payload with [] => None | issues => Some (SchemaValidationFailed issues) end;
  _ ← unless (checkTitle payload registration);
  _ ← unless (checkPartIds payload registration);
  unless (checkRelationSources payload (relations artifact) registration).

Definition store_step (input : ArtifactPatchRequest) (artifact : ArtifactRevision) (registration : ArtifactKindRegistration)
    (patched : hval) : step σ ArtifactRevision :=
  let request := {| previous := artifact; store_data := patched; store_schemaVersion := reg_schemaVersion registration;
                    store_statusPath := statusPath input; store_representations := representations input |} in
  answer ← host_step (store host request) (λ m, CalledStore m request) (λ e, HostFailed (StoreThrew e));
  match answer with
  | StoreConflict conflictingRevision => reject (baseRevisionConflict input conflictingRevision)
  | StoreRejection message issues => reject (storeRejection message issues)
  | Stored stored =>
      _ ← unless (checkStoredRevision stored (artifactRef (rev_kind artifact) (rev_id artifact) (revision artifact))
                    (reg_schemaVersion registration));
      mret stored
  end.

Definition patchArtifact (input : ArtifactPatchRequest) : step σ patch_success :=
  artifact ← loadBaseRevision input;
  let base := artifactRef (rev_kind artifact) (rev_id artifact) (revision artifact) in
  registrations ← host_step (listKinds host (req_kind input)) (λ _, CalledList) (λ e, HostFailed (ListThrew e));
  registration ← checked (resolveTargetRegistration input artifact registrations);
  let migrating := negb (bool_decide (reg_schemaVersion registration = rev_schemaVersion artifact)) in
  checker ← checked (compileChecker registration);
  applied ← apply_step artifact input registration migrating;
  payload ← computed (λ m, payload_of m applied.1);
  _ ← check_payload checker artifact registration payload;
  let migration := if migrating then Some (rev_schemaVersion artifact, reg_schemaVersion registration) else None in
  if dryRun input
  then mret {| base := base; success_dryRun := true; artifact := None; operations := applied.2; migration := migration |}
  else
    stored ← store_step input artifact registration applied.1;
    mret {| base := base; success_dryRun := false;
            artifact := Some (artifactRef (rev_kind stored) (rev_id stored) (revision stored));
            operations := applied.2; migration := migration |}.
End operation.

(** ** What a run asked the host *)
Section runs.
Context {σ : Type}.
Implicit Types (s : mem * σ) (calls : list host_call).

Lemma bind_run {A B} (x : step σ A) (k : A → step σ B) s s' calls r : (x ≫= k) s = Some (s', calls, r) →
  (∃ f, x s = Some (s', calls, inl f) ∧ r = inl f) ∨
  ∃ s1 c1 a c2, x s = Some (s1, c1, inr a) ∧ k a s1 = Some (s', c2, r) ∧ calls = c1 ++ c2.
Proof.
  unfold mbind, step_bind. destruct (x s) as [[[s1 c1] [f|a]]|]; [| |done].
  - intros. simplify_eq. left. by exists f.
  - destruct (k a s1) as [[[s2 c2] r2]|] eqn:Hk; [|done]. intros. simplify_eq. right. by exists s1, c1, a, c2.
Qed.

Lemma unless_run f s s' calls r : unless (σ := σ) f s = Some (s', calls, r) →
  s' = s ∧ calls = [] ∧ r = match f with Some f => inl f | None => inr () end.
Proof. destruct f; simpl; unfold reject, mret, step_ret; intros; by simplify_eq. Qed.

Lemma unless_bind_run {B} f (k : unit → step σ B) s s' calls r : (unless f ≫= k) s = Some (s', calls, r) →
  (∃ e, f = Some e ∧ s' = s ∧ calls = [] ∧ r = inl e) ∨ (f = None ∧ k () s = Some (s', calls, r)).
Proof.
  intros [(e & Hx & ->)|(s1 & c1 & [] & c2 & Hx & Hk & ->)]%bind_run; apply unless_run in Hx as (-> & -> & Hx);
    destruct f; simplify_eq; [left; by eexists|by right].
Qed.

Lemma checked_run {A} (x : patch_failure + A) s s' calls r : checked (σ := σ) x s = Some (s', calls, r) →
  s' = s ∧ calls = [] ∧ r = x.
Proof. unfold checked. intros. by simplify_eq. Qed.

Definition store_free calls : Prop := ∀ m req ans, CalledStore m req ans ∉ calls.

Lemma store_free_nil : store_free [].
Proof. intros m req ans. apply not_elem_of_nil. Qed.
Lemma store_free_app c1 c2 : store_free c1 → store_free c2 → store_free (c1 ++ c2).
Proof. intros H1 H2 m req ans [?|?]%elem_of_app; [by eapply H1|by eapply H2]. Qed.
End runs.

Section results.
Context `{Identity} (fuel : nat) {σ : Type} (host : ArtifactPatchHost σ).
Context (compile : members → string + (members → list data_issue)) (input : ArtifactPatchRequest).

(** A payload that passed every check of the registration it is stored under. *)
Record acceptable (artifact : ArtifactRevision) (registration : ArtifactKindRegistration) (payload : members) : Prop := {
  ac_schema : ∃ validate, compile (reg_dataSchema registration) = inr validate ∧ data_checker validate payload = [];
  ac_title : ∃ title, readArtifactTitle payload (reg_titlePath registration) = inr title;
  ac_parts : checkArtifactPartIds (areas_of registration) payload = [];
  ac_relations : checkArtifactRelationSourceParts (areas_of registration) payload (relations artifact) = [];
}.

(** The revision and the registration a run settled on. *)
Record settled (artifact : ArtifactRevision) (registration : ArtifactKindRegistration)
    (registrations : list ArtifactKindRegistration) : Prop := {
  st_kind : rev_kind artifact = req_kind input;
  st_id : rev_id artifact = req_id input;
  st_revision : revision artifact = baseRevision input;
  st_listed : registration ∈ registrations;
  st_registered : reg_kind registration = rev_kind artifact;
  st_version : reg_schemaVersion registration = default (rev_schemaVersion artifact) (req_schemaVersion input);
  st_forward : (rev_schemaVersion artifact ≤ reg_schemaVersion registration)%Z;
  st_changes : reg_schemaVersion registration = rev_schemaVersion artifact → artifactPatchInstructions (patch input) ≠ [];
}.

Lemma loadBaseRevision_run s s' calls r : loadBaseRevision host input s = Some (s', calls, r) →
  store_free calls ∧ ∀ artifact, r = inr artifact →
    CalledResolve (inr (Some artifact)) ∈ calls ∧
    rev_kind artifact = req_kind input ∧ rev_id artifact = req_id input ∧ revision artifact = baseRevision input.
Proof.
  unfold loadBaseRevision. intros Hrun. apply bind_run in Hrun as [(f & Hx & ->)|(s1 & c1 & a & c2 & Hx & Hk & ->)];
    unfold host_step in Hx; destruct (resolveCurrent host _ s) as [s2 answer]; destruct answer as [e|o]; simplify_eq.
  - split; [|done]. intros m req ans Hin%list_elem_of_singleton. done.
  - assert (store_free [CalledResolve (inr a)]) as Hfree by (intros m req ans Hin%list_elem_of_singleton; done).
    destruct a as [artifact|]; [|unfold reject in Hk; simplify_eq; split; [by apply store_free_app; [|apply store_free_nil]|done]].
    repeat (case_bool_decide; simpl in Hk; try (unfold reject in Hk; simplify_eq; split; [by apply store_free_app; [|apply store_free_nil]|done])).
    unfold mret, step_ret in Hk. simplify_eq. split; [by apply store_free_app; [|apply store_free_nil]|].
    intros ? [= <-]. split_and!; try done. by left.
Qed.

Lemma resolveTargetRegistration_settled artifact registrations registration :
  rev_kind artifact = req_kind input → rev_id artifact = req_id input → revision artifact = baseRevision input →
  resolveTargetRegistration input artifact registrations = inr registration → settled artifact registration registrations.
Proof.
  intros Hk Hi Hr Hres. unfold resolveTargetRegistration in Hres.
  destruct (match req_schemaVersion input with Some v => (v <? rev_schemaVersion artifact)%Z | None => false end) eqn:Hback; [done|].
  unfold resolveRegistration in Hres.
  destruct (List.filter _ registrations) as [|c candidates] eqn:Hc; [done|]. rewrite <- Hc in Hres.
  destruct (List.find _ _) as [reg|] eqn:Hf; [|done]. apply find_some in Hf as [Hin Hv].
  apply bool_decide_eq_true in Hv. apply filter_In in Hin as [Hin Hkind]. apply bool_decide_eq_true in Hkind.
  destruct (bool_decide _ && _) eqn:Hsame; simplify_eq. split; try done.
  - by apply list_elem_of_In.
  - rewrite Hv. destruct (req_schemaVersion input); simpl; [by apply Z.ltb_ge|lia].
  - intros Heq Hnil. rewrite Hnil in Hsame. by rewrite bool_decide_eq_true_2 in Hsame.
Qed.

Lemma check_payload_run checker artifact registration payload s s' calls r :
  check_payload (σ := σ) checker artifact registration payload s = Some (s', calls, r) →
  s' = s ∧ calls = [] ∧ (r = inr () → checker payload = [] ∧
    (∃ title, readArtifactTitle payload (reg_titlePath registration) = inr title) ∧
    checkArtifactPartIds (areas_of registration) payload = [] ∧
    checkArtifactRelationSourceParts (areas_of registration) payload (relations artifact) = []) ∧
  (∀ why, r ≠ inl (HostFailed why)).
Proof.
  unfold check_payload, checkTitle, checkPartIds, checkRelationSources. intros Hrun.
  apply unless_bind_run in Hrun as [(e & He & -> & -> & ->)|[Hc Hrun]].
  { destruct (checker payload); simplify_eq. by split_and!. }
  apply unless_bind_run in Hrun as [(e & He & -> & -> & ->)|[Ht Hrun]].
  { destruct (readArtifactTitle _ _); simplify_eq. by split_and!. }
  apply unless_bind_run in Hrun as [(e & He & -> & -> & ->)|[Hp Hrun]].
  { destruct (checkArtifactPartIds _ _); simplify_eq. by split_and!. }
  apply unless_run in Hrun as (-> & -> & ->).
  destruct (checker payload) eqn:?, (readArtifactTitle _ _) as [|title] eqn:?, (checkArtifactPartIds _ _) eqn:?; try done.
  destruct (checkArtifactRelationSourceParts _ _ _) eqn:?; [|by split_and!].
  split_and!; [done|done|intros _; split_and!; [done|by exists title|done|done]|done].
Qed.

(** What the store's answer makes of a run. *)
Definition answered (artifact : ArtifactRevision) (registration : ArtifactKindRegistration)
    (answer : string + ArtifactPatchStoreResult) (r : patch_failure + ArtifactRevision) : Prop :=
  match answer with
  | inl e => r = inl (HostFailed (StoreThrew e))
  | inr (StoreConflict current) => r = inl (baseRevisionConflict input current)
  | inr (StoreRejection message issues) => r = inl (storeRejection message issues)
  | inr (Stored stored) =>
      (∃ why, r = inl (HostFailed why)) ∨
      r = inr stored ∧ rev_kind stored = rev_kind artifact ∧ rev_id stored = rev_id artifact ∧
        revision stored ≠ revision artifact ∧ rev_schemaVersion stored = reg_schemaVersion registration
  end.

Definition store_request (artifact : ArtifactRevision) (registration : ArtifactKindRegistration) (patched : hval) :=
  {| previous := artifact; store_data := patched; store_schemaVersion := reg_schemaVersion registration;
     store_statusPath := statusPath input; store_representations := representations input |}.

Lemma store_step_run artifact registration patched s s' calls r :
  store_step host input artifact registration patched s = Some (s', calls, r) →
  ∃ answer, calls = [CalledStore s.1 (store_request artifact registration patched) answer] ∧
    answered artifact registration answer r.
Proof.
  unfold store_step. intros Hrun. apply bind_run in Hrun as [(f & Hx & ->)|(s1 & c1 & a & c2 & Hx & Hk & ->)];
    unfold host_step in Hx; destruct (store host _ s) as [s2 answer]; destruct answer as [e|res]; simplify_eq.
  - by exists (inl e).
  - exists (inr a). destruct a as [stored|current|message issues]; simpl in Hk.
    + apply unless_bind_run in Hk as [(e & He & -> & -> & ->)|[He Hk]].
      * split; [done|]. left. unfold checkStoredRevision in He.
        destruct (negb _ || negb _ || _); [simplify_eq; by eexists|]. destruct (negb _); simplify_eq. by eexists.
      * unfold mret, step_ret in Hk. simplify_eq. split; [done|]. right. unfold checkStoredRevision in He.
        repeat (case_bool_decide; simpl in He; try done).
    + unfold reject in Hk. by simplify_eq.
    + unfold reject in Hk. by simplify_eq.
Qed.

(** A run up to the last statement: it ends without asking the host to store
    anything, or with one such request, about a payload that passed. *)
Definition stored_run (calls : list host_call) (r : patch_failure + patch_success) : Prop :=
  ∃ c0 artifact0 registrations registration payload m patched answer,
    calls = c0 ++ [CalledStore m (store_request artifact0 registration patched) answer] ∧ store_free c0 ∧
    CalledResolve (inr (Some artifact0)) ∈ c0 ∧ CalledList (inr registrations) ∈ c0 ∧
    settled artifact0 registration registrations ∧ acceptable artifact0 registration payload ∧
    payload_of m patched = Some payload ∧ dryRun input = false ∧
    ∃ stored, answered artifact0 registration answer stored ∧
      match stored with
      | inl f => r = inl f
      | inr new => ∃ ok, r = inr ok ∧ success_dryRun ok = false ∧
                     artifact ok = Some (artifactRef (rev_kind new) (rev_id new) (revision new))
      end.

Lemma patchArtifact_run s s' calls r : patchArtifact fuel host compile input s = Some (s', calls, r) →
  (store_free calls ∧ ∀ ok, r = inr ok → dryRun input = true ∧ success_dryRun ok = true ∧ artifact ok = None) ∨
  stored_run calls r.
Proof.
  unfold patchArtifact. intros Hrun.
  apply bind_run in Hrun as [(f & Hx & ->)|(s1 & c1 & artifact0 & c2 & Hx & Hrun & ->)];
    apply loadBaseRevision_run in Hx as [Hf1 Hload]; [by left|].
  destruct (Hload artifact0 eq_refl) as (Hres & Hk & Hi & Hr). clear Hload. cbv beta zeta in Hrun.
  apply bind_run in Hrun as [(f & Hx & ->)|(s2 & c3 & registrations & c4 & Hx & Hrun & ->)];
    unfold host_step in Hx; destruct (listKinds host _ s1) as [s3 [e|l]]; simplify_eq.
  { left. split; [|done]. apply store_free_app; [done|]. intros m req ans Hin%list_elem_of_singleton. done. }
  assert (store_free [CalledList (inr registrations)]) as Hf2 by (intros m req ans Hin%list_elem_of_singleton; done).
  cbv beta in Hrun. apply bind_run in Hrun as [(f & Hx & ->)|(s4 & c5 & registration & c6 & Hx & Hrun & ->)];
    apply checked_run in Hx as (-> & -> & Hreg).
  { left. split; [|done]. repeat apply store_free_app; [done|done|apply store_free_nil]. }
  symmetry in Hreg. pose proof (resolveTargetRegistration_settled _ _ _ Hk Hi Hr Hreg) as Hset.
  cbv beta zeta in Hrun. apply bind_run in Hrun as [(f & Hx & ->)|(s5 & c7 & checker & c8 & Hx & Hrun & ->)];
    apply checked_run in Hx as (-> & -> & Hcomp).
  { left. split; [|done]. repeat apply store_free_app; [done|done|apply store_free_nil..]. }
  cbv beta in Hrun. apply bind_run in Hrun as [(f & Hx & ->)|(s6 & c9 & applied & c10 & Hx & Hrun & ->)];
    unfold apply_step in Hx; destruct (applyArtifactPatch _ _ _ _ _ _) as [[m1 o]|]; try done; simpl in Hx; simplify_eq.
  { left. split; [|done]. repeat apply store_free_app; [done|done|apply store_free_nil..]. }
  cbv beta in Hrun. apply bind_run in Hrun as [(f & Hx & ->)|(s7 & c11 & payload & c12 & Hx & Hrun & ->)];
    unfold computed in Hx; destruct (payload_of _ _) as [p|] eqn:Hpay; try done; simpl in Hx; simplify_eq.
  cbv beta in Hrun. apply bind_run in Hrun as [(f & Hx & ->)|(s8 & c13 & [] & c14 & Hx & Hrun & ->)];
    apply check_payload_run in Hx as (-> & -> & Hok & _).
  { left. split; [|done]. repeat apply store_free_app; [done|done|apply store_free_nil..]. }
  destruct (Hok eq_refl) as (Hc & Ht & Hp & Hrel). clear Hok. cbv beta zeta in Hrun.
  assert (acceptable artifact0 registration payload) as Hacc.
  { split; try done. unfold compileChecker in Hcomp. destruct (compile _) as [|validate] eqn:Hv; [done|].
    simplify_eq. by exists validate. }
  destruct (dryRun input) eqn:Hdry.
  { unfold mret, step_ret in Hrun. simplify_eq. left.
    split; [repeat apply store_free_app; [done|done|apply store_free_nil..]|]. intros ok [= <-]. done. }
  right. cbn [fst] in *. apply bind_run in Hrun as [(f & Hx & ->)|(s9 & c15 & new & c16 & Hx & Hrun & ->)];
    apply store_step_run in Hx as (answer & -> & Hans).
  - exists (c1 ++ [CalledList (inr registrations)]), artifact0, registrations, registration, payload, m1, applied.1, answer.
    split_and!; try done; [by rewrite <- !app_assoc|by apply store_free_app|set_solver|set_solver|].
    exists (inl f). done.
  - unfold mret, step_ret in Hrun. simplify_eq.
    exists (c1 ++ [CalledList (inr registrations)]), artifact0, registrations, registration, payload, m1, applied.1, answer.
    split_and!; try done; [by rewrite <- !app_assoc|by apply store_free_app|set_solver|set_solver|].
    exists (inr new). split; [done|]. eexists. done.
Qed.
End results.

Lemma stored_run_last c0 m req answer m' req' answer' :
  store_free c0 → CalledStore m' req' answer' ∈ c0 ++ [CalledStore m req answer] → m' = m ∧ req' = req ∧ answer' = answer.
Proof. intros Hf [Hin|Hin%list_elem_of_singleton]%elem_of_app; [by apply Hf in Hin|by simplify_eq]. Qed.

(** C6: Whatever the host answers, it is asked to store at most once, as the last
    call, and never in a dry run; the payload it is handed is a tree that passes
    the validator of a listed registration of the artifact's kind at the
    requested version or, by default, the artifact's own, has a title, has unique
    part identifiers and resolves every carried relation source; and the revision
    it replaces is the one the caller named. *)
Theorem only_checked_payloads_are_stored `{Identity} fuel {σ} (host : ArtifactPatchHost σ) compile input s s' calls r m req answer
    (Hrun : patchArtifact fuel host compile input s = Some (s', calls, r))
    (Hstore : CalledStore m req answer ∈ calls) :
  dryRun input = false ∧
  (∃ c0, calls = c0 ++ [CalledStore m req answer] ∧ store_free c0) ∧
  ∃ registrations registration payload,
    CalledResolve (inr (Some (previous req))) ∈ calls ∧ CalledList (inr registrations) ∈ calls ∧
    settled input (previous req) registration registrations ∧
    store_schemaVersion req = reg_schemaVersion registration ∧
    payload_of m (store_data req) = Some payload ∧ acceptable compile (previous req) registration payload.
Proof.
  apply patchArtifact_run in Hrun as [[Hfree _]|Hst]; [by apply Hfree in Hstore|].
  destruct Hst as (c0 & a0 & regs & reg & payload & m0 & patched & ans & -> & Hfree & Hres & Hlist & Hset & Hacc & Hpay & Hdry & _).
  apply (stored_run_last c0) in Hstore as (-> & -> & ->); [|done]. split; [done|]. split; [by exists c0|].
  exists regs, reg, payload. simpl. split_and!; try done; apply elem_of_app; by left.
Qed.

(** C24: A rejection that is not reported as the host's failure leaves nothing
    persisted: if the host was asked to store at all, it refused.  A success that
    is not a dry run names a new revision of the same artifact, stored by the
    host at the version the payload was checked against. *)
Theorem rejections_persist_nothing `{Identity} fuel {σ} (host : ArtifactPatchHost σ) compile input s s' calls r
    (Hrun : patchArtifact fuel host compile input s = Some (s', calls, r)) :
  match r with
  | inl (HostFailed _) => True
  | inl _ => ∀ m req answer, CalledStore m req answer ∈ calls →
      (∃ current, answer = inr (StoreConflict current)) ∨ ∃ message issues, answer = inr (StoreRejection message issues)
  | inr ok => success_dryRun ok = true ∧ store_free calls ∨
      success_dryRun ok = false ∧ ∃ m req new, CalledStore m req (inr (Stored new)) ∈ calls ∧
        artifact ok = Some (artifactRef (rev_kind new) (rev_id new) (revision new)) ∧
        rev_kind new = rev_kind (previous req) ∧ rev_id new = rev_id (previous req) ∧
        revision new ≠ revision (previous req) ∧ rev_schemaVersion new = store_schemaVersion req
  end.
Proof.
  apply patchArtifact_run in Hrun as [[Hfree Hdry]|Hst].
  { destruct r as [f|ok]; [|left; by destruct (Hdry ok eq_refl) as (_ & ? & _)].
    destruct f; try done; intros m req answer Hin; by apply Hfree in Hin. }
  destruct Hst as (c0 & a0 & regs & reg & payload & m0 & patched & ans & -> & Hfree & _ & _ & _ & _ & _ & _ & stored & Hans & Hr).
  destruct ans as [e|[new|current|message issues]]; simpl in Hans.
  - subst stored. by subst r.
  - destruct Hans as [[why ->]|(-> & Hk & Hi & Hne & Hv)]; [by subst r|]. destruct Hr as (ok & -> & Hdry & Hok). right.
    split; [done|]. exists m0, (store_request input a0 reg patched), new. split_and!; try done. set_solver.
  - subst stored r. simpl. intros m req answer Hin. apply (stored_run_last c0) in Hin as (-> & -> & ->); [|done]. left. by eexists.
  - subst stored r. simpl. intros m req answer Hin. apply (stored_run_last c0) in Hin as (-> & -> & ->); [|done]. right. by do 2 eexists.
Qed.
