(* ===== verification/PatchRuns.v ===== *)
(** * Artifacts at work

    Concrete registrations, payloads and patches: the theorems on artifact
    schemas, parts and patches applied to them. *)
From stdpp Require Import gmap.
From S2P Require Import Prelude Json.
From S2P Require Import JsValue Objects JsonTree KindPaths JsonSchema KindSchemas KindValidation ArtifactParts ArtifactPatch ArtifactEdits.
From S2P Require Import PatchMemory PatchRefinement PatchOperators PatchCorrect PatchIsolation PatchArtifact.

(** No two objects of these schemas are compared. *)
#[local] Instance distinct_objects : Identity := λ _ _, false.

(** A board: a title, a note, and tasks with an identifier and tags. *)
Notation string_schema := (JObj [("type", JStr "string")]).
Notation object_schema ps rs :=
  [("type", JStr "object"); ("properties", JObj ps); ("required", JArr (map JStr rs))].
Notation array_schema s := (JObj [("type", JStr "array"); ("items", s)]).
Notation task_properties := [("id", string_schema); ("tags", array_schema string_schema)].
Notation board_schema := (object_schema
  [("title", string_schema); ("note", string_schema);
   ("tasks", array_schema (JObj (object_schema task_properties ["id"])))]
  ["title"]).
Notation board_kind :=
  {| dataSchema := board_schema; titlePath := "title"; indexedFields := Some ["note"]; searchableFields := None;
     views := Some [("short", ["title"; "tasks"])]; uniqueness := Some [[ByData "title"; ByRelationTarget "owner"]] |}.

(** The payload as a tree. *)
Notation task id tags := (JObj [("id", JStr id); ("tags", JArr tags)]).
Notation board := [("title", JStr "Board"); ("tasks", JArr [task "a" [JStr "x"]; task "b" []])].

(** The payload in memory, and an operand object. *)
Notation board_memory := {| cells := list_to_map
  [(0%nat, CObj [("title", HStr "Board"); ("tasks", HRef 1)]); (1%nat, CArr [HRef 2; HRef 4]);
   (2%nat, CObj [("id", HStr "a"); ("tags", HRef 3)]); (3%nat, CArr [HStr "x"]);
   (4%nat, CObj [("id", HStr "b"); ("tags", HRef 5)]); (5%nat, CArr [])]; brk := 6 |}.

Notation document ops filters := {| instructions_of := ops; arrayFilters := filters |}.
Notation same_version := {| allowUndeclaredRemovals := false |}.

(** Set the note, tag the task named by a filter, untag the first one. *)
Notation board_patch S := (document (λ op, match op with
    | OpSet => Some [("note", S "n")]
    | OpPush => Some [("tasks.$[t].tags", S "y")]
    | OpPull => Some [("tasks.0.tags", S "x")]
    | OpUnset => None end) (Some [[("t.id", S "b")]])).
Notation patched_board :=
  [("title", JStr "Board"); ("tasks", JArr [task "a" []; task "b" [JStr "y"]]); ("note", JStr "n")].
Notation result op p n := {| result_operator := op; result_path := p; matched := n |}.
Notation board_results :=
  [result OpSet "note" 1%nat; result OpPush "tasks.$[t].tags" 1%nat; result OpPull "tasks.0.tags" 1%nat].

(** Builds the tree a value in a concrete memory stands for. *)
Ltac build_rep :=
  repeat first
    [ apply rep_null | apply rep_bool | apply rep_num | apply rep_str
    | eapply rep_arr; [reflexivity| |] | eapply rep_obj; [reflexivity|reflexivity| | |]
    | apply reps_nil | eapply reps_cons ].

Lemma board_rep : ∃ S, rep (cells board_memory) (HRef 0) (JObj board) S.
Proof.
  eexists. build_rep; first [set_solver|apply (bool_decide_unpack _); vm_compute; exact I].
Qed.

Lemma board_wf : wf_mem board_memory.
Proof.
  intros l [c Hl]. simpl in *. repeat (apply lookup_insert_Some in Hl as [[<- _]|[_ Hl]]; [lia|]). by rewrite lookup_empty in Hl.
Qed.

Lemma board_document : document_stands board_memory (board_patch HStr) (board_patch JStr).
Proof.
  split; [intros []|]; simpl; repeat constructor; simpl; try done; eexists; apply rep_str.
Qed.

(** ** Witnesses *)
Module Witness.

(** The edits of the patch give the board with a note, a tag less and a tag
    more; the engine's copy stands for that tree. *)
Lemma patches_edit_the_payload_witness :
  ∃ m' draft S', applyArtifactPatch 50 board_schema board_memory (HRef 0) (board_patch HStr) same_version =
      Some (m', inr (draft, board_results)) ∧
    rep (cells m') draft (JObj patched_board) S' ∧ ∀ l, l ∈ S' → (brk board_memory ≤ l)%nat.
Proof.
  destruct board_rep as [S HS].
  refine (patches_edit_the_payload 50 board_schema same_version board_memory (HRef 0) (JObj board) S (board_patch HStr)
    (board_patch JStr) (Some (JObj patched_board, board_results)) board_wf HS board_document _).
  vm_compute. reflexivity.
Defined.

Lemma old_values_check n vs :
  forallb (λ v, match v with HRef l => (l <? n)%nat | _ => true end) vs = true → Forall (old_value n) vs.
Proof.
  rewrite forallb_forall, Forall_forall. intros Hall v Hv%list_elem_of_In l ->.
  specialize (Hall _ Hv). by apply Nat.ltb_lt in Hall.
Qed.

(** Both tasks are the same object, and the memory holds a cycle beside them. *)
Notation shared_memory := {| cells := list_to_map
  [(0%nat, CObj [("title", HStr "Board"); ("tasks", HRef 1)]); (1%nat, CArr [HRef 2; HRef 2]);
   (2%nat, CObj [("id", HStr "a"); ("tags", HRef 3)]); (3%nat, CArr []); (4%nat, CArr [HRef 4; HRef 0])]; brk := 5 |}.
Notation shared_patch := (document (λ op, match op with
    | OpSet => Some [("tasks.0.id", HStr "z")]
    | OpUnset => Some [("tasks.1.tags", HBool true)]
    | _ => None end) None).
Notation shared_run := (applyArtifactPatch 50 board_schema shared_memory (HRef 0) shared_patch same_version).

Definition outcome_of (r : option (mem * (ArtifactPatchError + hval * list ArtifactPatchOperationResult))) :=
  match r with Some (m, o) => (m, o) | None => (shared_memory, inr (HNull, [])) end.

Lemma patching_leaves_its_input_witness :
  shared_run = Some (outcome_of shared_run) ∧
  (∀ l, (l < 5)%nat → cells (outcome_of shared_run).1 !! l = cells shared_memory !! l) ∧
  match (outcome_of shared_run).2 with
  | inr (patched, _) => ∀ l, reaches (cells (outcome_of shared_run).1) patched l → (5 ≤ l)%nat
  | inl _ => True
  end.
Proof.
  assert (shared_run = Some (outcome_of shared_run)) as Hrun by (vm_compute; reflexivity).
  split; [exact Hrun|].
  refine (patching_leaves_its_input 50 board_schema same_version shared_memory (HRef 0) shared_patch
    (outcome_of shared_run).1 (outcome_of shared_run).2 _ _ _ _).
  - split.
    + intros l [c Hl]. simpl in *. repeat (apply lookup_insert_Some in Hl as [[<- _]|[_ Hl]]; [lia|]). by rewrite lookup_empty in Hl.
    + intros l c Hl. simpl in Hl.
      repeat (apply lookup_insert_Some in Hl as [[_ <-]|[_ Hl]]; [apply old_values_check; reflexivity|]).
      by rewrite lookup_empty in Hl.
  - intros l Hl. injection Hl as <-. simpl. lia.
  - repeat (apply List.Forall_cons; [intros l Hl; discriminate Hl|]). apply List.Forall_nil.
  - rewrite Hrun. by destruct (outcome_of shared_run).
Defined.

(** Conformance to the three kinds of schema used here. *)
Lemma conforms_string root base s : conforms root base (JStr s) string_schema.
Proof.
  apply conforms_node; [done|]. split; simpl; intros; simplify_eq; by left.
Qed.

Lemma conforms_array root base l s : (∀ v, v ∈ l → conforms root (resource root base s) v s) →
  conforms root base (JArr l) (array_schema s).
Proof.
  intros Hl. apply conforms_node; [done|]. split; simpl; intros; simplify_eq; first [by left|by apply Hl].
Qed.

Lemma conforms_object root base dm ps rs :
  (∀ k, k ∈ rs → is_Some (ownValue dm k)) →
  (∀ k s v, (k, s) ∈ ps → ownValue dm k = Some v → conforms root (resource root base s) v s) →
  conforms root base (JObj dm) (JObj (object_schema ps rs)).
Proof.
  intros Hr Hp. apply conforms_node; [done|]. split; simpl; intros; simplify_eq; try first [by left|by eapply Hp].
  apply Hr. match goal with H : JStr _ ∈ _ |- _ => by apply list_elem_of_fmap in H as (? & [= <-] & ?) end.
Qed.

Ltac each_member :=
  intros;
  repeat match goal with
  | H : _ ∈ [] |- _ => by apply elem_of_nil in H
  | H : _ ∈ _ :: _ |- _ => apply elem_of_cons in H as [H|H]
  end; simplify_eq/=.

Lemma board_conforms : admits board_schema (JObj board).
Proof.
  apply conforms_object; each_member; [by eexists|by apply conforms_string|].
  apply conforms_array; each_member; (apply (conforms_object _ _ _ task_properties ["id"]); each_member;
    [by eexists|by apply conforms_string|apply conforms_array; each_member; apply conforms_string]).
Qed.

Lemma registered_titles_are_present_witness :
  ∃ s, readPropertyPath (Some (JObj board)) (Str.split dot "title") = Some (JStr s) ∧
    readArtifactTitle board "title" =
      (if blank s then inl ("Artifact title at " +:+ "title" +:+ " must be a nonblank string") else inr s).
Proof.
  apply (registered_titles_are_present 50 board_kind board); [reflexivity|vm_compute; reflexivity|reflexivity|exact board_conforms].
Defined.

(** ** Titles the registration misjudges

    A kind of which only the title matters. *)
Notation titled schema path :=
  {| dataSchema := schema; titlePath := path; indexedFields := None; searchableFields := None; views := None;
     uniqueness := None |}.
Notation integer_schema := (JObj [("type", JStr "integer")]).
Notation reference_to ref := (JObj [("$ref", JStr ref)]).

Lemma conforms_integer root base n : conforms root base (JNum n) integer_schema.
Proof. apply conforms_node; [done|]. split; simpl; intros; simplify_eq; by left. Qed.

(** The reference decodes to [#/definitions/t]; the code looks up [%74]. *)
Notation encoded_schema :=
  (object_schema [("title", reference_to "#/definitions/%74")] ["title"] ++
   [("definitions", JObj [("%74", string_schema); ("t", integer_schema)])]).
(** The reference stands in a resource with definitions of its own. *)
Notation note_schema :=
  (("$id", JStr "https://example.org/note") ::
   object_schema [("title", reference_to "#/definitions/t")] ["title"] ++
   [("definitions", JObj [("t", integer_schema)])]).
Notation nested_schema :=
  (object_schema [("note", JObj note_schema)] ["note"] ++ [("definitions", JObj [("t", string_schema)])]).

Example encoded_reference_is_misread :
  validateKindDataPaths 50 (titled encoded_schema "title") = Some [] ∧
  admits encoded_schema (JObj [("title", JNum 7)]) ∧
  readArtifactTitle [("title", JNum 7)] "title" = inl "Artifact title at title must be a nonblank string".
Proof.
  split_and!; [vm_compute; reflexivity| |vm_compute; reflexivity].
  apply conforms_node; [done|]. split; simpl; intros; simplify_eq; each_member; try (by left); [by eexists|].
  eapply conforms_ref; [reflexivity| |done]. intros base' target Ht. vm_compute in Ht. simplify_eq. apply conforms_integer.
Qed.

Example nested_resource_is_misread :
  validateKindDataPaths 50 (titled nested_schema "note.title") = Some [] ∧
  admits nested_schema (JObj [("note", JObj [("title", JNum 7)])]) ∧
  readArtifactTitle [("note", JObj [("title", JNum 7)])] "note.title"
    = inl "Artifact title at note.title must be a nonblank string".
Proof.
  split_and!; [vm_compute; reflexivity| |vm_compute; reflexivity].
  apply conforms_node; [done|]. split; simpl; intros; simplify_eq; each_member; try (by left); [by eexists|].
  apply conforms_node; [done|]. split; simpl; intros; simplify_eq; each_member; try (by left); [by eexists|].
  eapply conforms_ref; [reflexivity| |done]. intros base' target Ht. vm_compute in Ht. simplify_eq. apply conforms_integer.
Qed.

(** Tasks and notes are addressable. *)
Notation board_areas := [PartArea "tasks" "id"].

Lemma valid_parts_resolve_witness :
  ∃ id part, task "b" [] = JObj part ∧
    readPropertyPath (Some (task "b" [])) (Str.split dot "id") = Some (JStr id) ∧ blank id = false ∧
    resolveArtifactPart board_areas board id = inr ("tasks", part).
Proof.
  apply (valid_parts_resolve board_areas board (PartArea "tasks" "id") (task "b" []));
    [vm_compute; reflexivity|by left|right; by left].
Defined.

(** A host with one board, whose kind has two generations; it stores every
    revision it is asked to. *)
Notation board_revision v := {| rev_kind := "board"; rev_id := "b1"; revision := v; rev_schemaVersion := 1;
  data := HRef 0; relations := [Some "a"; None] |}.
Notation board_registration v := {| reg_kind := "board"; reg_schemaVersion := v; reg_dataSchema := board_schema;
  reg_titlePath := "title"; addressableParts := Some board_areas |}.
Definition board_host : ArtifactPatchHost unit := {|
  resolveCurrent := λ _ s, (s, inr (Some (board_revision "r1")));
  listKinds := λ _ s, (s, inr [board_registration 1; board_registration 2]);
  store := λ req s, (s, inr (Stored {| rev_kind := "board"; rev_id := "b1"; revision := "r2";
    rev_schemaVersion := store_schemaVersion req; data := store_data req; relations := relations (previous req) |}));
|}.
(** A validator that insists on a title. *)
Definition board_compile (schema : members) : string + (members → list data_issue) :=
  inr (λ payload, if JsMap.has "title" payload then [] else [DataIssue "title" "is required"]).
Notation migrate_board := {| req_kind := "board"; req_id := "b1"; baseRevision := "r1"; patch := board_patch HStr;
  dryRun := false; req_schemaVersion := Some 2; statusPath := None; representations := None |}.
Notation board_run := (patchArtifact 50 board_host board_compile migrate_board (board_memory, ())).

Notation stored_call := (CalledStore (outcome_of (applyArtifactPatch 50 board_schema board_memory (HRef 0) (board_patch HStr)
    {| allowUndeclaredRemovals := true |})).1
  {| previous := board_revision "r1"; store_data := HRef 6; store_schemaVersion := 2; store_statusPath := None;
     store_representations := None |}
  (inr (Stored {| rev_kind := "board"; rev_id := "b1"; revision := "r2"; rev_schemaVersion := 2; data := HRef 6;
                  relations := [Some "a"; None] |}))).
Notation board_calls := [CalledResolve (inr (Some (board_revision "r1")));
  CalledList (inr [board_registration 1; board_registration 2]); stored_call].
Notation board_success := {| base := artifactRef "board" "b1" "r1"; success_dryRun := false;
  artifact := Some (artifactRef "board" "b1" "r2"); operations := board_results; migration := Some (1, 2) |}.
Definition memory_after : mem * unit := match board_run with Some (s, _, _) => s | None => (board_memory, ()) end.

Lemma board_runs : board_run = Some (memory_after, board_calls, inr board_success).
Proof. vm_compute. reflexivity. Qed.

Lemma only_checked_payloads_are_stored_witness :
  dryRun migrate_board = false ∧
  (∃ c0, board_calls = c0 ++ [stored_call] ∧ store_free c0) ∧
  ∃ registrations registration payload,
    CalledResolve (inr (Some (board_revision "r1"))) ∈ board_calls ∧ CalledList (inr registrations) ∈ board_calls ∧
    settled migrate_board (board_revision "r1") registration registrations ∧
    2 = reg_schemaVersion registration ∧
    payload_of (outcome_of (applyArtifactPatch 50 board_schema board_memory (HRef 0) (board_patch HStr)
      {| allowUndeclaredRemovals := true |})).1 (HRef 6) = Some payload ∧
    acceptable board_compile (board_revision "r1") registration payload.
Proof.
  refine (only_checked_payloads_are_stored 50 board_host board_compile migrate_board (board_memory, ()) memory_after
    board_calls (inr board_success) _ _ _ board_runs _).
  right; right; left.
Defined.

Lemma rejections_persist_nothing_witness :
  success_dryRun board_success = true ∧ store_free board_calls ∨
  success_dryRun board_success = false ∧ ∃ m req new, CalledStore m req (inr (Stored new)) ∈ board_calls ∧
    artifact board_success = Some (artifactRef (rev_kind new) (rev_id new) (revision new)) ∧
    rev_kind new = rev_kind (previous req) ∧ rev_id new = rev_id (previous req) ∧
    revision new ≠ revision (previous req) ∧ rev_schemaVersion new = store_schemaVersion req.
Proof.
  exact (rejections_persist_nothing 50 board_host board_compile migrate_board (board_memory, ()) memory_after
    board_calls (inr board_success) board_runs).
Defined.
End Witness.
