(* ===== verification/NameSegments.v ===== *)
(** * Extension names as path segments

    [core/contracts/src/extension/extension-name-path-segment.ts]: the codec
    between the name of an extension and the directory and configuration file
    kept for it.

    A JavaScript string is the list of its UTF-16 code units here, and bytes are
    numbers below 256; [TextEncoder] and the fatal [TextDecoder] are those of the
    encoding standard. *)
From S2P Require Import Prelude.

Definition is_unit (c : Z) : Prop := 0 ≤ c < 65536.
(** A JavaScript string. *)
Definition js_string (s : list Z) : Prop := Forall is_unit s.

Definition between (lo hi c : Z) : bool := (lo <=? c) && (c <=? hi).

(** ** Unicode

    The scalar values of a well-formed string; [None]: an unpaired surrogate. *)
Fixpoint scalars (s : list Z) : option (list Z) :=
  match s with
  | [] => Some []
  | c :: rest =>
      if between 55296 56319 c
      then match rest with
           | d :: rest' =>
               if between 56320 57343 d
               then cons (65536 + (c - 55296) * 1024 + (d - 56320)) <$> scalars rest' else None
           | [] => None
           end
      else if between 56320 57343 c then None else cons c <$> scalars rest
  end.

Definition units_of (c : Z) : list Z :=
  if c <? 65536 then [c] else [55296 + (c - 65536) / 1024; 56320 + (c - 65536) mod 1024].

(** [TextEncoder]. *)
Definition utf8 (c : Z) : list Z :=
  if c <? 128 then [c]
  else if c <? 2048 then [192 + c / 64; 128 + c mod 64]
  else if c <? 65536 then [224 + c / 4096; 128 + c / 64 mod 64; 128 + c mod 64]
  else [240 + c / 262144; 128 + c / 4096 mod 64; 128 + c / 64 mod 64; 128 + c mod 64].

(** [new TextDecoder('utf-8', { fatal: true, ignoreBOM: true })]. *)
Fixpoint text_decode (bytes : list Z) : option (list Z) :=
  match bytes with
  | [] => Some []
  | b0 :: rest =>
      if b0 <? 128 then cons b0 <$> text_decode rest
      else if between 194 223 b0
      then match rest with
           | b1 :: rest1 =>
               if between 128 191 b1 then cons ((b0 - 192) * 64 + (b1 - 128)) <$> text_decode rest1 else None
           | _ => None
           end
      else if between 224 239 b0
      then match rest with
           | b1 :: b2 :: rest2 =>
               if between (if b0 =? 224 then 160 else 128) (if b0 =? 237 then 159 else 191) b1 && between 128 191 b2
               then cons ((b0 - 224) * 4096 + (b1 - 128) * 64 + (b2 - 128)) <$> text_decode rest2 else None
           | _ => None
           end
      else if between 240 244 b0
      then match rest with
           | b1 :: b2 :: b3 :: rest3 =>
               if between (if b0 =? 240 then 144 else 128) (if b0 =? 244 then 143 else 191) b1 &&
                  between 128 191 b2 && between 128 191 b3
               then cons ((b0 - 240) * 262144 + (b1 - 128) * 4096 + (b2 - 128) * 64 + (b3 - 128)) <$> text_decode rest3
               else None
           | _ => None
           end
      else None
  end.

(** ** The codec *)
Definition dot_unit : Z := 46.
Definition percent : Z := 37.

(** [EXTENSION_NAME_PATH_SEGMENT_UNRESERVED.test]. *)
Definition is_unreserved (c : Z) : bool :=
  between 97 122 c || between 48 57 c || (c =? 46) || (c =? 95) || (c =? 45).

Definition MAX_OPERATOR_CONFIG_FILE_NAME_BYTES : nat := 255.
Definition EXTENSION_OPERATOR_CONFIG_FILE_SUFFIX : list Z := [46; 106; 115; 111; 110].
Definition DOT_SEGMENTS : list (list Z) := [[46]; [46; 46]].

(** [CON], [PRN], [AUX], [NUL], [COM1] to [COM9], [LPT1] to [LPT9]. *)
Definition WINDOWS_RESERVED_DEVICE_BASENAMES : list (list Z) :=
  [[67; 79; 78]; [80; 82; 78]; [65; 85; 88]; [78; 85; 76]]
  ++ map (λ d, [67; 79; 77; d]) [49; 50; 51; 52; 53; 54; 55; 56; 57]
  ++ map (λ d, [76; 80; 84; d]) [49; 50; 51; 52; 53; 54; 55; 56; 57].

(** [toUpperCase], as far as the reserved names can tell: no letter outside
    ASCII has an upper case among their letters. *)
Definition to_upper (c : Z) : Z := if between 97 122 c then c - 32 else c.

(** Everything before the first [.]. *)
Fixpoint basename (s : list Z) : list Z :=
  match s with
  | [] => []
  | c :: rest => if c =? dot_unit then [] else c :: basename rest
  end.

Definition isWindowsReservedDeviceName (extensionName : list Z) : bool :=
  bool_decide (map to_upper (basename extensionName) ∈ WINDOWS_RESERVED_DEVICE_BASENAMES).

Definition isAddressableExtensionName (extensionName : list Z) : bool :=
  if bool_decide (extensionName = []) || bool_decide (extensionName ∈ DOT_SEGMENTS) then false
  else if isWindowsReservedDeviceName extensionName then false
  else bool_decide (is_Some (scalars extensionName)).

Definition hex_digit (d : Z) : Z := if d <? 10 then 48 + d else 55 + d.
Definition escaped (byte : Z) : list Z := [percent; hex_digit (byte / 16); hex_digit (byte mod 16)].

Definition encode_byte (isEdge : bool) (byte : Z) : list Z :=
  if is_unreserved byte && negb (isEdge && (byte =? dot_unit)) then [byte] else escaped byte.

Definition encode_bytes (bytes : list Z) : list Z :=
  concat (imap (λ index, encode_byte (Nat.eqb index 0 || Nat.eqb index (length bytes - 1))) bytes).

(** [new TextEncoder().encode(name)]. *)
Definition name_bytes (extensionName : list Z) : list Z :=
  flat_map utf8 (default [] (scalars extensionName)).

Definition encodeExtensionNameAsPathSegment (extensionName : list Z) : option (list Z) :=
  if negb (isAddressableExtensionName extensionName) then None
  else
    let segment := encode_bytes (name_bytes extensionName) in
    if (MAX_OPERATOR_CONFIG_FILE_NAME_BYTES <? length segment + length EXTENSION_OPERATOR_CONFIG_FILE_SUFFIX)%nat
    then None else Some segment.

Definition is_hex (c : Z) : bool := between 48 57 c || between 65 70 c || between 97 102 c.
Definition hex_value (c : Z) : Z := if between 48 57 c then c - 48 else if between 65 70 c then c - 55 else c - 87.

Fixpoint readEncodedBytes (segment : list Z) : option (list Z) :=
  match segment with
  | [] => Some []
  | c :: rest =>
      if c =? percent
      then match rest with
           | h :: l :: rest' =>
               if is_hex h && is_hex l then cons (16 * hex_value h + hex_value l) <$> readEncodedBytes rest' else None
           | _ => None
           end
      else if is_unreserved c then cons c <$> readEncodedBytes rest else None
  end.

Definition decodeExtensionNamePathSegment (segment : list Z) : option (list Z) :=
  bytes ← readEncodedBytes segment;
  name ← flat_map units_of <$> text_decode bytes;
  if bool_decide (encodeExtensionNameAsPathSegment name = Some segment) then Some name else None.

(** ** Unicode round trips *)
Lemma between_spec lo hi c : between lo hi c = true ↔ lo ≤ c ≤ hi.
Proof. unfold between. lia. Qed.

Lemma between_out lo hi c : between lo hi c = false ↔ c < lo ∨ hi < c.
Proof. unfold between. lia. Qed.

(** Decide every comparison of the goal by arithmetic. *)
Ltac decide_units :=
  repeat match goal with
  | |- context [?a <? ?b] => first [rewrite (proj2 (Z.ltb_lt a b)) by lia | rewrite (proj2 (Z.ltb_ge a b)) by lia]
  | |- context [?a =? ?b] => first [rewrite (proj2 (Z.eqb_eq a b)) by lia | rewrite (proj2 (Z.eqb_neq a b)) by lia]
  | |- context [between ?a ?b ?c] =>
      first [rewrite (proj2 (between_spec a b c)) by lia | rewrite (proj2 (between_out a b c)) by lia]
  end.

(** A scalar value. *)
Definition is_scalar (c : Z) : Prop := 0 ≤ c < 55296 ∨ 57343 < c < 1114112.

Lemma length_ind {A} (P : list A → Prop) : (∀ s, (∀ t, (length t < length s)%nat → P t) → P s) → ∀ s, P s.
Proof. intros HP s. induction s as [s IH] using (induction_ltof1 _ (@length A)). by apply HP. Qed.

Lemma scalars_spec s cs : js_string s → scalars s = Some cs → flat_map units_of cs = s ∧ Forall is_scalar cs.
Proof.
  unfold js_string. revert cs. induction s as [[|c s] IH] using length_ind; intros cs Hjs Hs; [simpl in Hs; by simplify_eq|].
  apply Forall_cons in Hjs as [Hc Hjs]. unfold is_unit in Hc. cbn [scalars] in Hs.
  destruct (between 55296 56319 c) eqn:Hl; [|destruct (between 56320 57343 c) eqn:Ht; [done|]].
  - destruct s as [|d s']; [done|]. destruct (between 56320 57343 d) eqn:Hd; [|done].
    apply fmap_Some in Hs as (cs' & Hs' & ->). apply Forall_cons in Hjs as [_ Hjs'].
    apply between_spec in Hl, Hd. destruct (IH s' ltac:(simpl; lia) cs' Hjs' Hs') as [<- Hcs].
    simpl. unfold units_of at 1. decide_units. split; [|constructor; [unfold is_scalar; lia|done]].
    replace (65536 + (c - 55296) * 1024 + (d - 56320) - 65536) with (1024 * (c - 55296) + (d - 56320)) by lia.
    rewrite <- (Z.div_unique (1024 * (c - 55296) + (d - 56320)) 1024 (c - 55296) (d - 56320)) by lia.
    rewrite <- (Z.mod_unique (1024 * (c - 55296) + (d - 56320)) 1024 (c - 55296) (d - 56320)) by lia.
    simpl. f_equal; [lia|]. f_equal. lia.
  - apply fmap_Some in Hs as (cs' & Hs' & ->). apply between_out in Hl, Ht.
    destruct (IH s ltac:(simpl; lia) cs' Hjs Hs') as [<- Hcs]. simpl. unfold units_of at 1. decide_units.
    split; [done|]. constructor; [unfold is_scalar; lia|done].
Qed.

Lemma text_decode_utf8 c rest : is_scalar c → text_decode (utf8 c ++ rest) = cons c <$> text_decode rest.
Proof.
  unfold is_scalar, utf8. intros Hc.
  destruct (Z.ltb_spec c 128); [simpl; by decide_units|].
  pose proof (Z.div_mod c 64 ltac:(lia)). pose proof (Z.mod_pos_bound c 64 ltac:(lia)).
  destruct (Z.ltb_spec c 2048).
  { cbn [app text_decode]. decide_units. do 2 f_equal. lia. }
  pose proof (Z.div_mod (c / 64) 64 ltac:(lia)). pose proof (Z.mod_pos_bound (c / 64) 64 ltac:(lia)).
  rewrite Z.div_div in * by lia. change (64 * 64) with 4096 in *.
  destruct (Z.ltb_spec c 65536).
  { cbn [app text_decode].
    destruct (Z.eqb_spec (224 + c / 4096) 224), (Z.eqb_spec (224 + c / 4096) 237); decide_units; cbn [andb];
      do 2 f_equal; lia. }
  pose proof (Z.div_mod (c / 4096) 64 ltac:(lia)). pose proof (Z.mod_pos_bound (c / 4096) 64 ltac:(lia)).
  rewrite Z.div_div in * by lia. change (4096 * 64) with 262144 in *.
  cbn [app text_decode].
  destruct (Z.eqb_spec (240 + c / 262144) 240), (Z.eqb_spec (240 + c / 262144) 244); decide_units; cbn [andb];
    do 2 f_equal; lia.
Qed.

Lemma text_decode_encode cs : Forall is_scalar cs → text_decode (flat_map utf8 cs) = Some cs.
Proof.
  induction 1 as [|c cs Hc _ IH]; [done|]. simpl. by rewrite text_decode_utf8, IH.
Qed.

Lemma utf8_bytes c : is_scalar c → Forall (λ b, 0 ≤ b < 256) (utf8 c).
Proof.
  unfold is_scalar, utf8. intros Hc.
  pose proof (Z.div_mod c 64 ltac:(lia)). pose proof (Z.mod_pos_bound c 64 ltac:(lia)).
  pose proof (Z.div_mod (c / 64) 64 ltac:(lia)). pose proof (Z.mod_pos_bound (c / 64) 64 ltac:(lia)).
  rewrite Z.div_div in * by lia. change (64 * 64) with 4096 in *.
  pose proof (Z.div_mod (c / 4096) 64 ltac:(lia)). pose proof (Z.mod_pos_bound (c / 4096) 64 ltac:(lia)).
  rewrite Z.div_div in * by lia. change (4096 * 64) with 262144 in *.
  destruct (Z.ltb_spec c 128); [|destruct (Z.ltb_spec c 2048); [|destruct (Z.ltb_spec c 65536)]]; repeat constructor; lia.
Qed.

Lemma flat_utf8_bytes cs : Forall is_scalar cs → Forall (λ b, 0 ≤ b < 256) (flat_map utf8 cs).
Proof. induction 1; simpl; [done|]. apply Forall_app. split; [by apply utf8_bytes|done]. Qed.

(** ** Reading what was written *)
Definition is_byte (b : Z) : Prop := 0 ≤ b < 256.

Lemma hex_digit_spec d : 0 ≤ d < 16 →
  is_hex (hex_digit d) = true ∧ hex_value (hex_digit d) = d ∧ (between 48 57 (hex_digit d) || between 65 70 (hex_digit d) = true).
Proof.
  intros Hd. unfold is_hex, hex_value, hex_digit. destruct (Z.ltb_spec d 10); decide_units; simpl; split_and!; try done; lia.
Qed.

Lemma is_unreserved_spec c : is_unreserved c = true ↔ 97 ≤ c ≤ 122 ∨ 48 ≤ c ≤ 57 ∨ c = 46 ∨ c = 95 ∨ c = 45.
Proof. unfold is_unreserved, between. lia. Qed.

Lemma encode_byte_cases edge b :
  (encode_byte edge b = [b] ∧ is_unreserved b = true ∧ (edge = true → b ≠ dot_unit)) ∨ encode_byte edge b = escaped b.
Proof.
  unfold encode_byte. destruct (is_unreserved b) eqn:Hu; simpl; [|by right].
  destruct edge; simpl; [|by left]. destruct (Z.eqb_spec b dot_unit); [by right|by left].
Qed.

Lemma read_encode_byte edge b rest : is_byte b →
  readEncodedBytes (encode_byte edge b ++ rest) = cons b <$> readEncodedBytes rest.
Proof.
  intros Hb. unfold is_byte in Hb. destruct (encode_byte_cases edge b) as [(-> & Hu & _)| ->].
  - cbn [app readEncodedBytes]. rewrite Hu. apply is_unreserved_spec in Hu.
    by rewrite (proj2 (Z.eqb_neq b percent)) by (unfold percent; lia).
  - pose proof (Z.div_mod b 16 ltac:(lia)). pose proof (Z.mod_pos_bound b 16 ltac:(lia)).
    destruct (hex_digit_spec (b / 16)) as (H1 & H2 & _); [lia|].
    destruct (hex_digit_spec (b mod 16)) as (H3 & H4 & _); [lia|].
    unfold escaped. cbn [app readEncodedBytes]. rewrite H1, H2, H3, H4. simpl. do 2 f_equal. lia.
Qed.

Lemma read_concat (e : nat → bool) bytes : Forall is_byte bytes →
  readEncodedBytes (concat (imap (λ i, encode_byte (e i)) bytes)) = Some bytes.
Proof.
  intros Hb. revert e. induction Hb as [|b bytes Hb _ IH]; intros e; [done|].
  rewrite imap_cons. cbn [concat]. rewrite read_encode_byte by done.
  specialize (IH (e ∘ S)). unfold compose in *. by rewrite IH.
Qed.

Lemma read_encoded bytes : Forall is_byte bytes → readEncodedBytes (encode_bytes bytes) = Some bytes.
Proof. apply read_concat. Qed.

Lemma encode_inv n s : encodeExtensionNameAsPathSegment n = Some s →
  s = encode_bytes (name_bytes n) ∧ n ≠ [] ∧ n ∉ DOT_SEGMENTS ∧ isWindowsReservedDeviceName n = false ∧
  is_Some (scalars n) ∧ (length s <= 250)%nat.
Proof.
  unfold encodeExtensionNameAsPathSegment, isAddressableExtensionName. intros H.
  case_bool_decide; [done|]. case_bool_decide; [done|]. simpl in H. destruct (isWindowsReservedDeviceName n); [done|].
  case_bool_decide; [|done]. simpl in H. case_match eqn:Hl; [done|]. simplify_eq. split_and!; try done.
  apply Nat.ltb_ge in Hl. simpl in Hl. unfold MAX_OPERATOR_CONFIG_FILE_NAME_BYTES in Hl. lia.
Qed.

(** The bytes of a name, and the name from its bytes. *)
Lemma name_bytes_spec n : js_string n → is_Some (scalars n) →
  Forall is_byte (name_bytes n) ∧ flat_map units_of <$> text_decode (name_bytes n) = Some n.
Proof.
  intros Hn [cs Hcs]. destruct (scalars_spec n cs Hn Hcs) as [<- Hs]. unfold name_bytes. rewrite Hcs. simpl.
  split; [by apply flat_utf8_bytes|]. by rewrite text_decode_encode.
Qed.

(** C19: A name and its segment determine each other: a segment decodes to exactly
    the name that is encoded as it, and to no name when there is none. *)
Theorem segment_names_one_extension (n s : list Z) (Hn : js_string n) :
  decodeExtensionNamePathSegment s = Some n ↔ encodeExtensionNameAsPathSegment n = Some s.
Proof.
  unfold decodeExtensionNamePathSegment. split.
  - intros (bytes & _ & (name & _ & H)%bind_Some)%bind_Some. by case_bool_decide; simplify_eq.
  - intros He. pose proof (encode_inv n s He) as (-> & _ & _ & _ & Hs & _).
    destruct (name_bytes_spec n Hn Hs) as [Hb Hd]. rewrite read_encoded by done. simpl. rewrite Hd. simpl.
    by rewrite bool_decide_true.
Qed.

(** ** Segments on every file system *)
Definition upper_hex (c : Z) : Prop := 48 ≤ c ≤ 57 ∨ 65 ≤ c ≤ 70.

(** Unreserved characters, which are no upper case letters, and escapes: [%] and
    two upper case hexadecimal digits. *)
Inductive portable : list Z → Prop :=
| portable_nil : portable []
| portable_literal c s : is_unreserved c = true → portable s → portable (c :: s)
| portable_escape h l s : upper_hex h → upper_hex l → portable s → portable (percent :: h :: l :: s).

Lemma hex_digit_range d : 0 ≤ d < 16 → 48 ≤ hex_digit d ≤ 57 ∨ 65 ≤ hex_digit d ≤ 70.
Proof. intros. unfold hex_digit. destruct (Z.ltb_spec d 10); lia. Qed.

Lemma hex_digit_inj d d' : 0 ≤ d < 16 → 0 ≤ d' < 16 → to_upper (hex_digit d) = to_upper (hex_digit d') → d = d'.
Proof.
  intros Hd Hd'. unfold to_upper.
  destruct (hex_digit_range d Hd), (hex_digit_range d' Hd'); decide_units; intros He; try lia;
    destruct (hex_digit_spec d Hd) as (_ & <- & _), (hex_digit_spec d' Hd') as (_ & <- & _); by rewrite He.
Qed.

Lemma nibbles b : is_byte b → b = 16 * (b / 16) + b mod 16 ∧ 0 ≤ b / 16 < 16 ∧ 0 ≤ b mod 16 < 16.
Proof.
  unfold is_byte. intros. pose proof (Z.div_mod b 16 ltac:(lia)). pose proof (Z.mod_pos_bound b 16 ltac:(lia)). lia.
Qed.

Lemma encode_byte_portable edge b s : is_byte b → portable s → portable (encode_byte edge b ++ s).
Proof.
  intros Hb Hs. destruct (nibbles b Hb) as (_ & H1 & H2). destruct (encode_byte_cases edge b) as [(-> & Hu & _)| ->].
  - by constructor.
  - apply hex_digit_range in H1, H2. by constructor.
Qed.

Lemma encode_portable (e : nat → bool) bytes : Forall is_byte bytes →
  portable (concat (imap (λ i, encode_byte (e i)) bytes)).
Proof.
  intros Hb. revert e. induction Hb as [|b bytes Hb _ IH]; intros e; [constructor|].
  rewrite imap_cons. cbn [concat]. apply encode_byte_portable; [done|]. apply (IH (e ∘ S)).
Qed.

(** Upper case tells the encodings of two bytes apart. *)
Lemma encode_byte_fold e e' b b' r r' : is_byte b → is_byte b' →
  map to_upper (encode_byte e b ++ r) = map to_upper (encode_byte e' b' ++ r') → b = b' ∧ map to_upper r = map to_upper r'.
Proof.
  intros Hb Hb'. destruct (nibbles b Hb) as (Eb & H1 & H2), (nibbles b' Hb') as (Eb' & H1' & H2').
  destruct (encode_byte_cases e b) as [(-> & Hu & _)| ->], (encode_byte_cases e' b') as [(-> & Hu' & _)| ->];
    rewrite ?is_unreserved_spec in *; cbn [app map escaped]; intros [=].
  - split; [|done]. revert H0. unfold to_upper.
    destruct (between 97 122 b) eqn:E, (between 97 122 b') eqn:E'; rewrite ?between_spec, ?between_out in *; lia.
  - exfalso. revert H0. change (to_upper percent) with 37. unfold to_upper.
    destruct (between 97 122 b) eqn:E; rewrite ?between_spec, ?between_out in *; lia.
  - exfalso. revert H0. change (to_upper percent) with 37. unfold to_upper.
    destruct (between 97 122 b') eqn:E; rewrite ?between_spec, ?between_out in *; lia.
  - split; [|done]. apply hex_digit_inj in H0; [|done..]. apply hex_digit_inj in H3; [|done..]. lia.
Qed.

Lemma encode_fold (e e' : nat → bool) bytes bytes' : Forall is_byte bytes → Forall is_byte bytes' →
  map to_upper (concat (imap (λ i, encode_byte (e i)) bytes)) =
  map to_upper (concat (imap (λ i, encode_byte (e' i)) bytes')) → bytes = bytes'.
Proof.
  intros Hb. revert bytes' e e'. induction Hb as [|b bytes Hb _ IH]; intros [|b' bytes'] e e' Hb'; [done| | |];
    rewrite ?imap_cons; cbn [concat].
  - destruct (encode_byte_cases (e' 0%nat) b') as [(-> & _)| ->]; done.
  - destruct (encode_byte_cases (e 0%nat) b) as [(-> & _)| ->]; done.
  - apply Forall_cons in Hb' as [Hb1 Hb']. intros (-> & Hr)%encode_byte_fold; [|done..]. f_equal.
    apply (IH bytes' (e ∘ S) (e' ∘ S)); [done|]. exact Hr.
Qed.

Lemma encode_byte_edge b x : x ∈ encode_byte true b → x ≠ dot_unit ∨ ¬ is_byte b.
Proof.
  intros Hx. destruct (decide (is_byte b)) as [Hb|]; [left|by right].
  destruct (nibbles b Hb) as (_ & H1%hex_digit_range & H2%hex_digit_range).
  destruct (encode_byte_cases true b) as [(E & _ & Hd)|E]; rewrite E in Hx.
  - apply list_elem_of_singleton in Hx as ->. by apply Hd.
  - unfold escaped, dot_unit, percent in *. rewrite !elem_of_cons in Hx. destruct Hx as [->|[->|[->|[]%elem_of_nil]]]; lia.
Qed.

Lemma encode_byte_nonempty e b : encode_byte e b ≠ [].
Proof. by destruct (encode_byte_cases e b) as [(-> & _)| ->]. Qed.

Lemma encode_bytes_edges bytes : Forall is_byte bytes → bytes ≠ [] →
  (∃ c r, encode_bytes bytes = c :: r ∧ c ≠ dot_unit) ∧ (∃ c r, encode_bytes bytes = r ++ [c] ∧ c ≠ dot_unit).
Proof.
  intros Hb Hne. unfold encode_bytes. split.
  - destruct bytes as [|b bytes]; [done|]. rewrite imap_cons. cbn [concat Nat.eqb orb]. inversion_clear Hb as [|?? Hb1 _].
    destruct (encode_byte true b) as [|c r] eqn:E; [by apply encode_byte_nonempty in E|].
    exists c, (r ++ concat (imap ((λ index, encode_byte (Nat.eqb index 0 || Nat.eqb index (length (b :: bytes) - 1))) ∘ S) bytes)).
    split; [done|]. destruct (encode_byte_edge b c) as [?|?]; [rewrite E; by left|done|done].
  - destruct bytes as [|b init _] using rev_ind; [done|]. rewrite imap_app, concat_app. simpl.
    rewrite Forall_app, Forall_singleton in Hb. destruct Hb as [_ Hb]. rewrite length_app. simpl.
    replace (length init + 1 - 1)%nat with (length init) by lia. rewrite Nat.add_0_r, Nat.eqb_refl, orb_true_r, app_nil_r.
    destruct (encode_byte true b) as [|c r _] eqn:E using rev_ind; [by apply encode_byte_nonempty in E|].
    eexists c, (_ ++ r). rewrite app_assoc. split; [done|].
    destruct (encode_byte_edge b c) as [?|?]; [rewrite E; apply elem_of_app; right; by left|done|done].
Qed.

(** ** Device names *)
Lemma basename_split s : ∃ t, s = basename s ++ t ∧ Forall (λ c, c ≠ dot_unit) (basename s) ∧
  (t = [] ∨ ∃ t', t = dot_unit :: t').
Proof.
  induction s as [|c s (t & Hs & Hd & Ht)]; [by exists []; split_and!; [| |left]|]. simpl.
  destruct (Z.eqb_spec c dot_unit) as [->|Hc]; [exists (dot_unit :: s); split_and!; [| |right]; eauto|].
  exists t. split_and!; [by rewrite Hs at 1|by constructor|done].
Qed.

Lemma basename_app r t : Forall (λ c, c ≠ dot_unit) r → (t = [] ∨ ∃ t', t = dot_unit :: t') → basename (r ++ t) = r.
Proof.
  intros Hr Ht. induction Hr as [|c r Hc _ IH]; simpl; [by destruct Ht as [->|[t' ->]]|].
  rewrite (proj2 (Z.eqb_neq c dot_unit)) by done. by rewrite IH.
Qed.

Lemma read_prefix r t bytes : Forall (λ c, c ≠ percent) r → readEncodedBytes (r ++ t) = Some bytes →
  ∃ bytes', bytes = r ++ bytes' ∧ readEncodedBytes t = Some bytes' ∧ Forall (λ c, is_unreserved c = true) r.
Proof.
  intros Hr. revert bytes. induction Hr as [|c r Hc _ IH]; intros bytes H; [by exists bytes|].
  cbn [app readEncodedBytes] in H. rewrite (proj2 (Z.eqb_neq c percent)) in H by done.
  destruct (is_unreserved c) eqn:Hu; [|done]. apply fmap_Some in H as (bytes1 & H & ->).
  destruct (IH bytes1 H) as (bytes' & -> & Hb & Hrest). exists bytes'. split_and!; [done|done|by constructor].
Qed.

Lemma text_prefix r t cs : Forall (λ c, is_unreserved c = true) r → text_decode (r ++ t) = Some cs →
  ∃ cs', cs = r ++ cs' ∧ text_decode t = Some cs' ∧ flat_map units_of cs = r ++ flat_map units_of cs'.
Proof.
  intros Hr. revert cs. induction Hr as [|c r Hc _ IH]; intros cs H; [by exists cs|].
  apply is_unreserved_spec in Hc. cbn [app text_decode] in H. rewrite (proj2 (Z.ltb_lt c 128)) in H by lia.
  apply fmap_Some in H as (cs1 & H & ->). destruct (IH cs1 H) as (cs' & -> & Hb & Hu). exists cs'. split_and!; [done|done|].
  simpl. rewrite Hu. unfold units_of at 1. by rewrite (proj2 (Z.ltb_lt c 65536)) by lia.
Qed.

Lemma reserved_letters r : map to_upper r ∈ WINDOWS_RESERVED_DEVICE_BASENAMES → Forall (λ c, c ≠ percent) r.
Proof.
  intros Hr. apply Forall_forall. intros c Hc ->.
  assert (∀ l, l ∈ WINDOWS_RESERVED_DEVICE_BASENAMES → percent ∉ l) as Hl.
  { apply Forall_forall. unfold WINDOWS_RESERVED_DEVICE_BASENAMES. simpl.
    repeat constructor; intros Hin; rewrite !elem_of_cons in Hin; unfold percent in Hin; rewrite elem_of_nil in Hin; lia. }
  apply (Hl _ Hr). change percent with (to_upper percent). by apply list_elem_of_fmap_2.
Qed.

(** A canonical segment names no device when its name does not. *)
Lemma segment_not_reserved n s : js_string n → encodeExtensionNameAsPathSegment n = Some s →
  isWindowsReservedDeviceName s = false.
Proof.
  intros Hn He. destruct (encode_inv n s He) as (Hs & _ & _ & Hres & Hsc & _).
  destruct (name_bytes_spec n Hn Hsc) as [Hb Hd]. pose proof (read_encoded _ Hb) as Hread. rewrite <- Hs in Hread.
  apply bool_decide_eq_false. intros Hr. apply bool_decide_eq_false in Hres. apply Hres.
  destruct (basename_split s) as (t & Es & Hdots & Ht). set (r := basename s) in *. clearbody r. rewrite Es in Hread.
  destruct (read_prefix r t _ (reserved_letters r Hr) Hread) as (bytes' & Eb & Ht' & Hu).
  rewrite Eb in Hd. apply fmap_Some in Hd as (cs & Hd & ->).
  destruct (text_prefix r bytes' cs Hu Hd) as (cs' & -> & Hd' & ->).
  rewrite basename_app; [done|done|]. destruct Ht as [->|[t' ->]].
  - simpl in Ht'. simplify_eq. simpl in Hd'. simplify_eq. by left.
  - simpl in Ht'. apply fmap_Some in Ht' as (b' & _ & ->). simpl in Hd'. apply fmap_Some in Hd' as (c' & _ & ->).
    right. by eexists.
Qed.

Lemma name_bytes_nonempty n : js_string n → is_Some (scalars n) → n ≠ [] → name_bytes n ≠ [].
Proof. intros Hn Hs Hne Hb. destruct (name_bytes_spec n Hn Hs) as [_ Hd]. rewrite Hb in Hd. simpl in Hd. by simplify_eq. Qed.

(** C27: A segment is usable on every file system: it is made of unreserved
    characters and escapes of two upper case digits, so no upper case letter
    stands outside an escape; it is not empty, neither starts nor ends with a dot, names no device, leaves room
    for the configuration suffix; and no other name has a segment that differs
    from it in case only. *)
Theorem segments_are_portable (n s : list Z) (Hn : js_string n) (He : encodeExtensionNameAsPathSegment n = Some s) :
  portable s ∧ (length s <= 250)%nat ∧ isWindowsReservedDeviceName s = false ∧
  (∃ c r, s = c :: r ∧ c ≠ dot_unit) ∧ (∃ c r, s = r ++ [c] ∧ c ≠ dot_unit) ∧
  ∀ n' s', js_string n' → encodeExtensionNameAsPathSegment n' = Some s' → map to_upper s = map to_upper s' → n = n'.
Proof.
  pose proof (segment_not_reserved n s Hn He) as Hres. destruct (encode_inv n s He) as (-> & Hne & _ & _ & Hsc & Hl).
  destruct (name_bytes_spec n Hn Hsc) as [Hb Hd].
  destruct (encode_bytes_edges _ Hb (name_bytes_nonempty n Hn Hsc Hne)) as [Hfirst Hlast]. split_and!; try done.
  - by apply encode_portable.
  - intros n' s' Hn' He' Hf. destruct (encode_inv n' s' He') as (-> & _ & _ & _ & Hsc' & _).
    destruct (name_bytes_spec n' Hn' Hsc') as [Hb' Hd']. apply encode_fold in Hf; [|done..]. congruence.
Qed.

(** Names of lower case letters, digits, [.], [_] and [-] without a dot at an end
    are their own segments. *)
Lemma plain_scalars n : Forall (λ c, is_unreserved c = true) n → scalars n = Some n ∧ flat_map utf8 n = n.
Proof.
  induction 1 as [|c n Hc%is_unreserved_spec _ [IH IH']]; [done|]. cbn [scalars flat_map]. rewrite IH, IH'.
  unfold utf8. by decide_units.
Qed.

Lemma concat_imap_id (f : nat → Z → list Z) n : (∀ i c, n !! i = Some c → f i c = [c]) → concat (imap f n) = n.
Proof.
  revert f. induction n as [|c n IH]; intros f Hf; [done|]. rewrite imap_cons. cbn [concat].
  rewrite (Hf 0%nat c) by done. simpl. f_equal. apply IH. intros i d Hi. by apply (Hf (S i)).
Qed.

Lemma common_names_unchanged n : n ≠ [] → Forall (λ c, is_unreserved c = true) n →
  head n ≠ Some dot_unit → last n ≠ Some dot_unit → (length n <= 250)%nat → isWindowsReservedDeviceName n = false →
  encodeExtensionNameAsPathSegment n = Some n.
Proof.
  intros Hne Hu Hh Hl Hlen Hres. destruct (plain_scalars n Hu) as [Hs Hb].
  unfold encodeExtensionNameAsPathSegment, isAddressableExtensionName, name_bytes. rewrite Hres, Hs.
  assert (n ∉ DOT_SEGMENTS) as Hd.
  { intros [->|[->|[]%elem_of_nil]%elem_of_cons]%elem_of_cons; done. }
  rewrite (bool_decide_false (n = [])), (bool_decide_false (n ∈ DOT_SEGMENTS)), bool_decide_true by done.
  cbn [orb negb default from_option id]. unfold default, id. rewrite Hb.
  assert (encode_bytes n = n) as ->.
  { apply concat_imap_id. intros i c Hi. unfold encode_byte. rewrite (Forall_lookup_1 _ _ _ _ Hu Hi). simpl.
    destruct (Z.eqb_spec c dot_unit) as [->|]; [|by rewrite andb_false_r].
    rewrite andb_true_r. destruct (Nat.eqb_spec i 0) as [->|]; [by rewrite head_lookup in Hh|].
    destruct (Nat.eqb_spec i (length n - 1)) as [->|]; [|done]. exfalso. apply Hl. rewrite last_lookup, <- Hi. f_equal. lia. }
  rewrite (proj2 (Nat.ltb_ge _ _)); [done|]. unfold MAX_OPERATOR_CONFIG_FILE_NAME_BYTES. simpl. lia.
Qed.

(** ** Witnesses: [@acme/Café], whose segment is [%40acme%2F%43af%C3%A9]. *)
Definition cafe : list Z := [64; 97; 99; 109; 101; 47; 67; 97; 102; 233].
Definition cafe_segment : list Z :=
  [37; 52; 48; 97; 99; 109; 101; 37; 50; 70; 37; 52; 51; 97; 102; 37; 67; 51; 37; 65; 57].

Example cafe_encoded : encodeExtensionNameAsPathSegment cafe = Some cafe_segment.
Proof. reflexivity. Qed.

Lemma cafe_string : js_string cafe.
Proof. repeat constructor; done. Qed.

Lemma segment_names_one_extension_witness :
  decodeExtensionNamePathSegment cafe_segment = Some cafe ↔ encodeExtensionNameAsPathSegment cafe = Some cafe_segment.
Proof. apply (segment_names_one_extension cafe cafe_segment cafe_string). Defined.

Lemma segments_are_portable_witness : portable cafe_segment ∧ (length cafe_segment <= 250)%nat.
Proof.
  destruct (segments_are_portable cafe cafe_segment cafe_string ltac:(reflexivity)) as (H & Hl & _). by split.
Defined.

(** What has no segment: device names, dots, unpaired surrogates, long names. *)
Example unaddressable : map encodeExtensionNameAsPathSegment
  [[]; [46; 46]; [99; 111; 110; 46; 97]; [55296]; repeat 97 251] = [None; None; None; None; None].
Proof. reflexivity. Qed.

(** The segment of [NUL ] is [%4E%55%4C%20]: the capitals are escaped too, where
    the comments of the source write [NUL%20]. *)
Example trailing_space : encodeExtensionNameAsPathSegment [78; 85; 76; 32]
  = Some [37; 52; 69; 37; 53; 53; 37; 52; 67; 37; 50; 48].
Proof. reflexivity. Qed.
