(* ===== verification/ExtensionSelection.v ===== *)
(** * Which extensions take part in a boot

    [packages/kernel/src/extension/extension-selection.ts],
    [extension-boot-enablement.ts] and [extension-entry-closure.ts]: the packages
    whose requirements the host meets, the one that wins a name, the ones whose
    preference lets them start, and the enabled ones whose required dependencies
    are enabled too.

    Two of the loops remove members of a set until no member is to be removed;
    both are [prune] with their own test.  The number of members is fuel enough:
    every pass but the last removes one. *)
From S2P Require Import Prelude TopoSort.

(** ** Packages *)
Inductive RuntimeRequirement :=
  | HostRequirement (id : string)
  | CapabilityRequirement (id : string) (version : option string).

(** [surface]: interactive, headless or any. *)
Record KernelMakaioExtension := {
  manifest : Extension;
  displayName : string;
  critical : bool;
  surface : option string;
  requires : option (list RuntimeRequirement);
}.
Definition pkg_name (p : KernelMakaioExtension) : string := ext_name (manifest p).
Definition pkg_dependencies (p : KernelMakaioExtension) : list Dependency := dependencies (manifest p).

Record RuntimeEnvironment := {
  hosts : list string;
  capabilities : list string;
  capabilityVersions : option (list (string * string));
}.

(** The names of the dependencies a package cannot do without. *)
Definition required_dependencies (p : KernelMakaioExtension) : list string :=
  map dep_name (filter (λ d, optional d = false) (pkg_dependencies p)).

(** ** Removing members of a set until none is to be removed

    [check set name]: why [name] must leave [set], if it must. *)
Section prune.
Context {X : Type} (check : list string → string → option X).

(** One pass of [for (const name of set)], which removes only the member at
    hand: the members left, and those removed with the reasons. *)
Definition prune_step (st : list string * list (string * X)) (name : string) : list string * list (string * X) :=
  match check st.1 name with
  | None => st
  | Some x => (JsSet.delete name st.1, st.2 ++ [(name, x)])
  end.

(** [changed] is true when the pass removed a member. *)
Fixpoint prune (fuel : nat) (set : list string) (removed : list (string * X)) : list string * list (string * X) :=
  match fuel with
  | O => (set, removed)
  | S fuel =>
      let '(set', now) := foldl prune_step (set, []) set in
      match now with
      | [] => (set', removed)
      | _ => prune fuel set' (removed ++ now)
      end
  end.

Definition prune_all (set : list string) : list string * list (string * X) := prune (S (length set)) set [].

(** A set none of whose members is to be removed. *)
Definition settled (set : list string) : Prop := ∀ name, name ∈ set → check set name = None.

Lemma prune_step_sub st name : (prune_step st name).1 ⊆ st.1.
Proof. unfold prune_step. destruct (check _ _); simpl; [|done]. intros n [_ Hn]%JsSet.elem_delete. done. Qed.

Lemma pass_sub todo st : (foldl prune_step st todo).1 ⊆ st.1.
Proof.
  revert st. induction todo as [|name todo IH]; intros st; [done|]. simpl.
  etransitivity; [apply IH|apply prune_step_sub].
Qed.

(** A pass that removes nothing leaves the set as it is. *)
Lemma pass_extends todo st : ∃ l, (foldl prune_step st todo).2 = st.2 ++ l ∧ (l = [] → (foldl prune_step st todo).1 = st.1 ∧
  ∀ name, name ∈ todo → check st.1 name = None).
Proof.
  revert st. induction todo as [|name todo IH]; intros st; simpl; [exists []; rewrite app_nil_r; set_solver|].
  destruct (IH (prune_step st name)) as (l & Hl & Hn). unfold prune_step in *. destruct (check st.1 name) as [x|] eqn:Hc.
  - exists ((name, x) :: l). simpl in *. rewrite Hl, <- app_assoc. split; [done|]. discriminate.
  - exists l. split; [done|]. intros Hnil. destruct (Hn Hnil) as [H1 H2]. split; [done|]. set_solver.
Qed.

Lemma delete_shorter (name : string) (set : list string) : (length (JsSet.delete name set) <= length set)%nat.
Proof. apply length_filter. Qed.

Lemma delete_strict (name : string) (set : list string) : name ∈ set → (length (JsSet.delete name set) < length set)%nat.
Proof. intros Hin. unfold JsSet.delete. apply (length_filter_lt _ _ name); [done|]. by intros Hn. Qed.

Lemma pass_shorter todo st : (length (foldl prune_step st todo).1 <= length st.1)%nat.
Proof.
  revert st. induction todo as [|name todo IH]; intros st; [done|]. simpl. etransitivity; [apply IH|].
  unfold prune_step. destruct (check _ _); simpl; [apply delete_shorter|done].
Qed.

Lemma pass_strict todo st : NoDup todo → (∀ name, name ∈ todo → name ∈ st.1) →
  (foldl prune_step st todo).2 ≠ st.2 → (length (foldl prune_step st todo).1 < length st.1)%nat.
Proof.
  intros Hnd. revert st. induction Hnd as [|name todo Hni _ IH]; intros st Hin Hne; [done|]. simpl in *.
  unfold prune_step in *. destruct (check st.1 name) as [x|] eqn:Hc.
  - eapply Nat.le_lt_trans; [apply pass_shorter|]. simpl. apply delete_strict, Hin. by left.
  - apply IH; [|done]. intros n Hn. apply Hin. by right.
Qed.

Lemma NoDup_prune_step st name : NoDup st.1 → NoDup (prune_step st name).1.
Proof. intros Hnd. unfold prune_step. destruct (check _ _); [by apply NoDup_filter|done]. Qed.

Lemma NoDup_pass todo st : NoDup st.1 → NoDup (foldl prune_step st todo).1.
Proof. revert st. induction todo; intros st Hnd; [done|]. simpl. by apply IHtodo, NoDup_prune_step. Qed.

(** The loop ends because no member is to be removed. *)
Lemma prune_settles fuel set removed : NoDup set → (length set < fuel)%nat →
  settled (prune fuel set removed).1 ∧ (prune fuel set removed).1 ⊆ set.
Proof.
  revert set removed. induction fuel as [|fuel IH]; intros set removed Hnd Hlen; [lia|]. cbn [prune].
  destruct (foldl prune_step (set, []) set) as [set' now] eqn:Hp.
  pose proof (pass_extends set (set, [])) as (l & Hl & Hnil). rewrite Hp in *. simpl in *. subst now.
  destruct l as [|r l].
  - destruct (Hnil eq_refl) as [-> Hc]. split; [by intros n Hn; apply Hc|done].
  - pose proof (pass_sub set (set, [])) as Hsub. pose proof (NoDup_pass set (set, []) Hnd) as Hnd'. rewrite Hp in *. simpl in *.
    assert (length set' < length set)%nat as Hlt.
    { pose proof (pass_strict set (set, []) Hnd ltac:(auto)) as H. rewrite Hp in H. by apply H. }
    destruct (IH set' (removed ++ r :: l) Hnd' ltac:(lia)) as [H1 H2]. split.
    + intros n Hn. by apply H1.
    + etransitivity; [apply H2|done].
Qed.

(** Removing members gives more reasons to remove others. *)
Hypothesis check_anti : ∀ set set' name, set' ⊆ set → is_Some (check set name) → is_Some (check set' name).

Lemma prune_step_keeps T st name : T ⊆ st.1 → settled T → T ⊆ (prune_step st name).1.
Proof.
  intros Hsub Hs. unfold prune_step. destruct (check st.1 name) as [x|] eqn:Hc; [|done]. simpl. intros n Hn.
  apply JsSet.elem_delete. split; [|by apply Hsub]. intros ->.
  destruct (check_anti st.1 T name Hsub ltac:(by eexists)) as [y Hy]. by rewrite Hs in Hy.
Qed.

Lemma pass_keeps T todo st : T ⊆ st.1 → settled T → T ⊆ (foldl prune_step st todo).1.
Proof. revert st. induction todo as [|name todo IH]; intros st Hsub Hs; [done|]. simpl. apply IH; [|done]. by apply prune_step_keeps. Qed.

Lemma prune_keeps T fuel set removed : T ⊆ set → settled T → T ⊆ (prune fuel set removed).1.
Proof.
  revert set removed. induction fuel as [|fuel IH]; intros set removed Hsub Hs; [done|]. cbn [prune].
  pose proof (pass_keeps T set (set, []) Hsub Hs) as Hp. destruct (foldl prune_step (set, []) set) as [set' now]. simpl in *.
  destruct now; [done|]. by apply IH.
Qed.

(** What is left is the greatest settled subset. *)
Lemma prune_all_greatest set : NoDup set →
  (prune_all set).1 ⊆ set ∧ settled (prune_all set).1 ∧ ∀ T, T ⊆ set → settled T → T ⊆ (prune_all set).1.
Proof.
  intros Hnd. destruct (prune_settles (S (length set)) set [] Hnd ltac:(lia)) as [H1 H2].
  split_and!; [done|done|]. intros T HT Hs. by apply prune_keeps.
Qed.
End prune.

(** ** Requirements of the host *)
Section selection.
Context (versionSatisfies : string → string → bool).

Definition matchesSurface (pkg : KernelMakaioExtension) (s : string) : bool :=
  match surface pkg with
  | None => true
  | Some affinity => bool_decide (affinity = "any") || bool_decide (affinity = s)
  end.

Definition capabilityVersionSatisfies (env : RuntimeEnvironment) (id range : string) : bool :=
  match capabilityVersions env with
  | None => false
  | Some versions => match JsMap.get id versions with Some version => versionSatisfies version range | None => false end
  end.

Definition requirement_met (env : RuntimeEnvironment) (req : RuntimeRequirement) : bool :=
  match req with
  | HostRequirement id => bool_decide (id ∈ hosts env)
  | CapabilityRequirement id version =>
      if bool_decide (id ∉ capabilities env) then false
      else match version with None => true | Some range => capabilityVersionSatisfies env id range end
  end.

Definition matchesRequirements (pkg : KernelMakaioExtension) (s : string) (env : option RuntimeEnvironment) : bool :=
  if negb (matchesSurface pkg s) then false
  else match requires pkg, env with
  | None, _ | Some [], _ | _, None => true
  | Some reqs, Some env => forallb (requirement_met env) reqs
  end.

(** A [Map] from the names of the packages: the last one of a name wins. *)
Definition packages_by_name (pkgs : list KernelMakaioExtension) : list (string * KernelMakaioExtension) :=
  foldl (λ m p, JsMap.set (pkg_name p) p m) [] pkgs.

(** [hasFilteredDependency]. *)
Definition filtered_dependency (allInputNames : list string) (byName : list (string * KernelMakaioExtension))
    (eligibleNames : list string) (name : string) : option unit :=
  match JsMap.get name byName with
  | None => None
  | Some p => if existsb (λ d, bool_decide (d ∈ allInputNames) && bool_decide (d ∉ eligibleNames)) (required_dependencies p)
              then Some tt else None
  end.

Definition filterEligibleExtensions (extensions : list KernelMakaioExtension) (s : string) (env : option RuntimeEnvironment)
    : list KernelMakaioExtension :=
  let allInputNames := map pkg_name extensions in
  let directlyEligible := List.filter (λ p, matchesRequirements p s env) extensions in
  let byName := packages_by_name directlyEligible in
  let eligibleNames := (prune_all (filtered_dependency allInputNames byName) (JsMap.keys byName)).1 in
  List.filter (λ p, bool_decide (pkg_name p ∈ eligibleNames)) directlyEligible.

(** ** One package per name

    The packages so far and the framework names already overridden; the error
    names the contested name. *)
Fixpoint coalesce (frameworkPackageNames : list string) (extensions : list KernelMakaioExtension)
    (byName : list (string * KernelMakaioExtension)) (overridden : list string)
    : outcome string (list (string * KernelMakaioExtension)) :=
  match extensions with
  | [] => Ok byName
  | pkg :: rest =>
      let name := pkg_name pkg in
      match JsMap.get name byName with
      | None => coalesce frameworkPackageNames rest (JsMap.set name pkg byName) overridden
      | Some existing =>
          if bool_decide (name ∉ frameworkPackageNames) || bool_decide (name ∈ overridden) then Throw name
          else coalesce frameworkPackageNames rest (JsMap.set name pkg (JsMap.delete name byName))
                 (JsSet.add name overridden)
      end
  end.

Definition coalesceExtensionOverrides (extensions : list KernelMakaioExtension) (frameworkPackageNames : list string)
    : outcome string (list KernelMakaioExtension) :=
  match coalesce frameworkPackageNames extensions [] [] with
  | Throw name => Throw name
  | Ok byName => Ok (JsMap.values byName)
  end.
End selection.

(** ** Preferences *)
Definition is_managed (extensionManagedNames : option (list string)) (name : string) : bool :=
  match extensionManagedNames with None => true | Some names => bool_decide (name ∈ names) end.

(** [loadEnabled?.(name) !== false]. *)
Definition loaded_enabled (loadEnabled : option (string → option bool)) (name : string) : bool :=
  match loadEnabled with None => true | Some f => negb (bool_decide (f name = Some false)) end.

Definition boot_enabled (extensionManagedNames : option (list string)) (loadEnabled : option (string → option bool))
    (pkg : KernelMakaioExtension) : bool :=
  if negb (is_managed extensionManagedNames (pkg_name pkg)) then true
  else loaded_enabled loadEnabled (pkg_name pkg) || critical pkg.

Definition resolveBootEnabledNames (eligible : list KernelMakaioExtension) (extensionManagedNames : option (list string))
    (loadEnabled : option (string → option bool)) : list string :=
  foldl (λ enabled pkg, if boot_enabled extensionManagedNames loadEnabled pkg
                        then JsSet.add (pkg_name pkg) enabled else enabled) [] eligible.

(** ** The enabled entries whose required dependencies are enabled

    An entry is its package and its [enabled] flag. *)
Definition missing_required (ordered : list (string * (KernelMakaioExtension * bool))) (closed : list string) (name : string)
    : option (list string) :=
  match JsMap.get name ordered with
  | None => None
  | Some (p, _) =>
      match filter (λ d, d ∈ JsMap.keys ordered ∧ d ∉ closed) (required_dependencies p) with
      | [] => None
      | missing => Some missing
      end
  end.

Definition closeEnabledExtensionEntries (ordered : list (string * (KernelMakaioExtension * bool)))
    : list string * list (string * list string) :=
  prune_all (missing_required ordered) (JsMap.keys (filter (λ e : string * (KernelMakaioExtension * bool), e.2.2 = true) ordered)).

(** A set of enabled entries whose required dependencies, as far as they are
    entries, are in the set. *)
Definition dependency_closed (ordered : list (string * (KernelMakaioExtension * bool))) (set : list string) : Prop :=
  ∀ name, name ∈ set → (∃ p, JsMap.get name ordered = Some (p, true) ∧
    ∀ d, d ∈ required_dependencies p → d ∈ JsMap.keys ordered → d ∈ set).

Lemma missing_required_none ordered closed name p b : JsMap.get name ordered = Some (p, b) →
  missing_required ordered closed name = None ↔ ∀ d, d ∈ required_dependencies p → d ∈ JsMap.keys ordered → d ∈ closed.
Proof.
  intros Hg. unfold missing_required. rewrite Hg.
  destruct (filter _ _) as [|m ms] eqn:Hf; split; try done.
  - intros _ d Hd Hk. destruct (decide (d ∈ closed)) as [|Hn]; [done|].
    exfalso. apply (not_elem_of_nil d). rewrite <- Hf. by apply list_elem_of_filter.
  - intros Hall. assert (m ∈ m :: ms) as Hm by left. rewrite <- Hf in Hm. apply list_elem_of_filter in Hm as [[Hk Hn] Hd].
    exfalso. by apply Hn, Hall.
Qed.

Lemma missing_required_anti ordered set set' name : set' ⊆ set →
  is_Some (missing_required ordered set name) → is_Some (missing_required ordered set' name).
Proof.
  intros Hsub [x Hx]. destruct (JsMap.get name ordered) as [[p b]|] eqn:Hg; [|unfold missing_required in Hx; by rewrite Hg in Hx].
  destruct (missing_required ordered set' name) eqn:Hm; [by eexists|]. exfalso.
  rewrite (missing_required_none _ _ _ p b Hg) in Hm.
  assert (missing_required ordered set name = None) as Hn; [|by rewrite Hn in Hx].
  apply (missing_required_none _ _ _ p b Hg). intros d Hd Hk. by apply Hsub, Hm.
Qed.

(** The entries that survive the closure are the largest set of enabled entries
    closed under required dependencies. *)
Lemma closure_is_greatest ordered : NoDup (JsMap.keys ordered) →
  let closed := (closeEnabledExtensionEntries ordered).1 in
  dependency_closed ordered closed ∧ ∀ set, dependency_closed ordered set → set ⊆ closed.
Proof.
  intros Hnd closed. set (enabled := JsMap.keys (filter (λ e : string * (KernelMakaioExtension * bool), e.2.2 = true) ordered)).
  assert (∀ n, n ∈ enabled → ∃ p, JsMap.get n ordered = Some (p, true)) as Hen.
  { intros n ([n' [p b]] & -> & [Hb Hin]%list_elem_of_filter)%list_elem_of_fmap. simpl in *. subst b.
    exists p. by apply JsMap.elem_get. }
  assert (∀ n p, JsMap.get n ordered = Some (p, true) → n ∈ enabled) as Hen'.
  { intros n p Hg%JsMap.get_elem. apply list_elem_of_fmap. exists (n, (p, true)). split; [done|]. by apply list_elem_of_filter. }
  assert (NoDup enabled) as Hnde.
  { by apply JsMap.NoDup_keys_filter. }
  destruct (prune_all_greatest (missing_required ordered) (missing_required_anti ordered) enabled Hnde) as (Hsub & Hs & Hg).
  split.
  - intros n Hn. destruct (Hen n (Hsub n Hn)) as [p Hp]. exists p. split; [done|].
    by apply (missing_required_none _ _ _ p true Hp), Hs.
  - intros T HT. apply Hg.
    + intros n Hn. destruct (HT n Hn) as (p & Hp & _). by eapply Hen'.
    + intros n Hn. destruct (HT n Hn) as (p & Hp & Hd). by apply (missing_required_none _ _ _ p true Hp).
Qed.

(** Only enabled members of the selection are enabled, and a managed package that
    is not critical is enabled unless its stored preference says otherwise. *)
Lemma resolveBootEnabledNames_spec eligible managed loadEnabled name :
  name ∈ resolveBootEnabledNames eligible managed loadEnabled ↔
  ∃ p, p ∈ eligible ∧ pkg_name p = name ∧ boot_enabled managed loadEnabled p = true.
Proof.
  unfold resolveBootEnabledNames.
  assert (∀ acc, name ∈ foldl (λ enabled pkg, if boot_enabled managed loadEnabled pkg
    then JsSet.add (pkg_name pkg) enabled else enabled) acc eligible ↔
    name ∈ acc ∨ ∃ p, p ∈ eligible ∧ pkg_name p = name ∧ boot_enabled managed loadEnabled p = true) as H.
  { induction eligible as [|p ps IH]; intros acc; simpl.
    - split; [by left|]. intros [?|(p & []%elem_of_nil & _)]. done.
    - rewrite IH. split.
      + intros [Hin|(q & Hq & ?)]; [|right; exists q; split; [by right|done]].
        destruct (boot_enabled managed loadEnabled p) eqn:Hb; [apply JsSet.elem_add in Hin as [->|Hin]|]; [|by left|by left].
        right. exists p. split_and!; [by left|done|done].
      + intros [Hin|(q & [->|Hq]%elem_of_cons & Hn & Hb)].
        * left. destruct (boot_enabled managed loadEnabled p); [apply JsSet.elem_add; by right|done].
        * left. rewrite Hb. apply JsSet.elem_add. by left.
        * right. by exists q. }
  rewrite H. split; [intros [[]%elem_of_nil|]; done|by right].
Qed.
