(* ===== verification/ExtensionEntries.v ===== *)
(** * Extension entries: state, statements and start

    [packages/kernel/src/extension]: the entries of the coordinator
    ([types.ts]), their transitions ([state-transition.ts]), configuration
    ([resolve-config.ts], [extension-context-builder.ts]), contribution
    processors ([contribution-processor-runner.ts]), boot progress
    ([boot-progress-observer.ts]), health and warnings
    ([extension-health-runner.ts], [health-warning-emitter.ts]) and the start of
    one entry ([extension-start-runner.ts]).

    The code of packages, processors and services, the host's stores and the bus
    belong to others: each is a function that sees the entries, has a state of
    its own, and answers or throws ([effect]).  A statement that calls one, or
    announces something, is logged with its result and the entries at that
    moment, so that theorems can speak of what was true whenever foreign code
    ran.  The wording of errors is not modelled; an error is a constructor with
    what its text names. *)
From S2P Require Import Prelude TopoSort ExtensionSelection NameSegments Json JsonTree.

(** ** Entries *)
Inductive ComponentState := Discovered | Initializing | Active | Failed | Skipped | Stopped.
#[export] Instance component_state_eq_dec : EqDecision ComponentState.
Proof. solve_decision. Defined.

(** What code throws. *)
Inductive thrown :=
  | ServiceSkipError (reason : string)
  | Raised (message : string)
  | ExtensionOperatorConfigError (extensionName source : string)
  | NoContextBase
  | NotAddressable (extensionName : string)
  | CriticalPackageFailed (name : string)
  | NoEnablementStore (name : string)
  | NoPreference (name : string).

(** [entry.error]. *)
Inductive failure :=
  | FThrown (e : thrown)
  | FSkipped (reason : string)
  | FCannotSkip (reason : string)
  | FInactiveDependencies (names : list string)
  | FNotAddressable
  | FConfiguration (e : thrown)
  | FNeverStarted
  | FActiveDependents (names : list string)
  | FTeardown (failures : list thrown)
  | FGraph (messages : list string).

Record ExtensionWarning := {
  warning_severity : string;
  warning_title : string;
  warning_message : string;
  warning_action : option (string * json);
}.

(** A service and a storage cleanup are known by the handle their creator
    returned. *)
Record ExtensionEntry := Entry {
  pkg : KernelMakaioExtension;
  state : ComponentState;
  enabled : bool;
  extensionManaged : bool;
  service : option nat;
  storageCleanup : option nat;
  error : option failure;
  configDefaults : option members;
  surfacesCollected : bool;
  warnings : list ExtensionWarning;
}.
Definition entries_map : Type := list (string * ExtensionEntry).

Definition with_state x e := Entry (pkg e) x (enabled e) (extensionManaged e) (service e) (storageCleanup e) (error e) (configDefaults e) (surfacesCollected e) (warnings e).
Definition with_enabled x e := Entry (pkg e) (state e) x (extensionManaged e) (service e) (storageCleanup e) (error e) (configDefaults e) (surfacesCollected e) (warnings e).
Definition with_service x e := Entry (pkg e) (state e) (enabled e) (extensionManaged e) x (storageCleanup e) (error e) (configDefaults e) (surfacesCollected e) (warnings e).
Definition with_storageCleanup x e := Entry (pkg e) (state e) (enabled e) (extensionManaged e) (service e) x (error e) (configDefaults e) (surfacesCollected e) (warnings e).
Definition with_error x e := Entry (pkg e) (state e) (enabled e) (extensionManaged e) (service e) (storageCleanup e) x (configDefaults e) (surfacesCollected e) (warnings e).
Definition with_surfacesCollected x e := Entry (pkg e) (state e) (enabled e) (extensionManaged e) (service e) (storageCleanup e) (error e) (configDefaults e) x (warnings e).
Definition with_warnings x e := Entry (pkg e) (state e) (enabled e) (extensionManaged e) (service e) (storageCleanup e) (error e) (configDefaults e) (surfacesCollected e) x.

(** ** Events *)
Inductive event :=
  | StateChanged (name : string) (from to : ComponentState) (error : option failure)
  | EnabledChanged (name : string) (enabled : bool)
  | WarningsChanged (name : string) (warnings : list ExtensionWarning)
  | ToastShown (toastId : string)
  | BootStarting (name : string) | BootReady (name : string) | BootFailed (name : string) | BootSkipped (name : string)
  | BootProgressed (completedCount totalCount : nat)
  | BootComplete (failedServices : list string)
  | Migrated (names : list string)
  | Registered (name : string) (r : outcome thrown (option nat))
  | CleanedUp (name : string) (handle : nat)
  | Created (name : string) (r : outcome thrown nat)
  | Initialized (name : string) (handle : nat)
  | Destroyed (name : string) (handle : nat)
  | Activated (processor name : string)
  | Deactivated (processor name : string)
  | TrayRegistered (name : string) | TrayUnregistered (name : string)
  | HealthChecked (name : string) (handle : nat)
  | Persisted (name : string) (enabled : bool).

(** ** The host, and the state of the coordinator *)
Record ExtensionContext := {
  context_name : string;
  dataDirSegment : list Z;
  context_config : option json;
}.

Inductive ExtensionOperatorConfigEntry :=
  | OperatorConfig (source : string) (config : members)
  | OperatorFailure (source : string).

Section host.
Context (σ : Type).

Definition effect (A : Type) : Type := entries_map → σ → outcome thrown A * σ.

Record PackageCode := {
  configSchema : option (members → outcome string json);
  registerHandlers : option (ExtensionContext → effect (option nat));
  create : option (ExtensionContext → effect nat);
  tray : bool;
}.

(** A method a service does not declare does nothing. *)
Record ContributionProcessor := {
  processor_id : string;
  processor_filter : option (KernelMakaioExtension → outcome thrown bool);
  processActivated : string → ExtensionContext → effect unit;
  processStopped : option (string → effect unit);
}.

(** [checkHealth] answers [None] for data its schema does not accept. *)
Record Host := {
  code : string → PackageCode;
  initService : nat → effect unit;
  destroyService : nat → effect unit;
  runCleanup : nat → effect unit;
  checkHealth : nat → option (effect (option (list ExtensionWarning)));
  db : bool;
  extensionContextBase : bool;
  loadConfig : option (string → outcome thrown (option members));
  operatorConfig : string → option ExtensionOperatorConfigEntry;
  persistEnabled : option (string → bool → effect unit);
  runMigrations : option (list string → effect unit);
  migrations : string → outcome thrown bool;
  registerTray : string → effect unit;
  unregisterTray : string → effect unit;
  showToast : string → effect unit;
  emitWarningsChanged : string → effect unit;
}.

Record BootProgress := {
  complete : bool;
  completedCount : nat;
  totalCount : nat;
  failedServices : list string;
  skippedServices : list string;
}.

Record coordinator := Coordinator {
  entries : entries_map;
  loadOrder : list string;
  contributionProcessors : list ContributionProcessor;
  warningActions : list (string * (string * json));
  progress : BootProgress;
  world : σ;
  log : list (event * entries_map);
}.
End host.
Arguments configSchema {σ}. Arguments registerHandlers {σ}. Arguments create {σ}. Arguments tray {σ}.
Arguments processor_id {σ}. Arguments processor_filter {σ}. Arguments processActivated {σ}. Arguments processStopped {σ}.
Arguments code {σ}. Arguments initService {σ}. Arguments destroyService {σ}. Arguments runCleanup {σ}.
Arguments checkHealth {σ}. Arguments db {σ}. Arguments extensionContextBase {σ}. Arguments loadConfig {σ}.
Arguments operatorConfig {σ}. Arguments persistEnabled {σ}. Arguments runMigrations {σ}. Arguments migrations {σ}.
Arguments registerTray {σ}. Arguments unregisterTray {σ}. Arguments showToast {σ}. Arguments emitWarningsChanged {σ}.
Arguments Coordinator {σ}. Arguments entries {σ}. Arguments loadOrder {σ}. Arguments contributionProcessors {σ}.
Arguments warningActions {σ}. Arguments progress {σ}. Arguments world {σ}. Arguments log {σ}.

Section statements.
Context {σ : Type} (host : Host σ).
Notation M := (ST (coordinator σ) thrown).

(** ** Statements *)
Definition set_entries es (s : coordinator σ) : coordinator σ :=
  Coordinator es (loadOrder s) (contributionProcessors s) (warningActions s) (progress s) (world s) (log s).
Definition set_progress p (s : coordinator σ) : coordinator σ :=
  Coordinator (entries s) (loadOrder s) (contributionProcessors s) (warningActions s) p (world s) (log s).
Definition set_warningActions a (s : coordinator σ) : coordinator σ :=
  Coordinator (entries s) (loadOrder s) (contributionProcessors s) a (progress s) (world s) (log s).
Definition set_world w (s : coordinator σ) : coordinator σ :=
  Coordinator (entries s) (loadOrder s) (contributionProcessors s) (warningActions s) (progress s) w (log s).
Definition logged (ev : event) (s : coordinator σ) : coordinator σ :=
  Coordinator (entries s) (loadOrder s) (contributionProcessors s) (warningActions s) (progress s) (world s)
    (log s ++ [(ev, entries s)]).

Definition gets {A} (f : coordinator σ → A) : M A := λ s, (Ok (f s), s).
Definition modify (f : coordinator σ → coordinator σ) : M unit := λ s, (Ok tt, f s).
(** [bus.emit], whose handlers run later. *)
Definition announce (ev : event) : M unit := modify (logged ev).
(** A call of foreign code. *)
Definition invoke {A} (ev : outcome thrown A → event) (f : effect σ A) : M A := λ s,
  let '(r, w) := f (entries s) (world s) in (r, logged (ev r) (set_world w s)).
(** [try { m } catch]: what was thrown, or the result. *)
Definition attempt {A} (m : M A) : M (outcome thrown A) := λ s, let '(r, s') := m s in (Ok r, s').

(** Assignments to the properties of an entry. *)
Definition update (name : string) (f : ExtensionEntry → ExtensionEntry) : M unit :=
  modify (λ s, match JsMap.get name (entries s) with
               | Some e => set_entries (JsMap.set name (f e) (entries s)) s
               | None => s
               end).

Definition transitionPackageEntry (name : string) (to : ComponentState) : M unit := λ s,
  match JsMap.get name (entries s) with
  | None => (Ok tt, s)
  | Some e => (Ok tt, logged (StateChanged name (state e) to (error e))
                        (set_entries (JsMap.set name (with_state to e) (entries s)) s))
  end.

(** ** Configuration *)
Inductive ExtensionConfigResolutionMode := Activate | Observe.

(** [{ ...a, ...b }]. *)
Definition spread (a b : members) : members := JsMap.assign a b.

Definition resolveOperatorLayer (name : string) (entry : option ExtensionOperatorConfigEntry)
    (mode : ExtensionConfigResolutionMode) : outcome thrown (option (string * members)) :=
  match entry with
  | None => Ok None
  | Some (OperatorConfig source config) => Ok (Some (source, config))
  | Some (OperatorFailure source) =>
      match mode with Activate => Throw (ExtensionOperatorConfigError name source) | Observe => Ok None end
  end.

(** The configuration and [usedSchemaDefaults]. *)
Definition resolveConfigOutcome (name : string) (schema : option (members → outcome string json))
    (defaults stored : option members) (operatorEntry : option ExtensionOperatorConfigEntry)
    (mode : ExtensionConfigResolutionMode) : outcome thrown (option json * bool) :=
  match resolveOperatorLayer name operatorEntry mode with
  | Throw e => Throw e
  | Ok operatorLayer =>
      match schema with
      | None => Ok (None, false)
      | Some parse =>
          let merged := spread (spread (default [] defaults) (default [] stored)) (default [] (snd <$> operatorLayer)) in
          match parse merged with
          | Ok config => Ok (Some config, false)
          | Throw _ =>
              match mode, operatorLayer with
              | Activate, Some (source, _) => Throw (ExtensionOperatorConfigError name source)
              | _, _ =>
                  match parse [] with
                  | Ok config => Ok (Some config, true)
                  | Throw _ => Ok (None, false)
                  end
              end
          end
      end
  end.

Definition resolveExtensionEntryConfig (name : string) (defaults : option members) (mode : ExtensionConfigResolutionMode)
    : outcome thrown (option json) :=
  let schema := configSchema (code host name) in
  let stored := match schema, loadConfig host with
                | Some _, Some load => match load name with Ok stored => stored | Throw _ => None end
                | _, _ => None
                end in
  match resolveConfigOutcome name schema defaults stored (operatorConfig host name) mode with
  | Ok r => Ok r.1
  | Throw e => Throw e
  end.

(** ** Contexts *)
Definition units (s : string) : list Z := map (λ a, Z.of_N (Ascii.N_of_ascii a)) (String.list_ascii_of_string s).

Definition checkExtensionNameAddressable (extensionName : string) : option failure :=
  match encodeExtensionNameAsPathSegment (units extensionName) with Some _ => None | None => Some FNotAddressable end.

Definition buildExtensionContext (name : string) (config : option json) : outcome thrown ExtensionContext :=
  if negb (extensionContextBase host) then Throw NoContextBase
  else match encodeExtensionNameAsPathSegment (units name) with
  | None => Throw (NotAddressable name)
  | Some segment => Ok {| context_name := name; dataDirSegment := segment; context_config := config |}
  end.

Definition config_defaults (name : string) (s : coordinator σ) : option members :=
  JsMap.get name (entries s) ≫= configDefaults.

(** ** Contribution processors *)
Definition stop_processor (name : string) (processor : ContributionProcessor σ) : M unit :=
  match processStopped processor with
  | None => st_ret tt
  | Some stop => invoke (λ _, Deactivated (processor_id processor) name) (stop name)
  end.

(** The rollback, over the processors activated so far in reverse order; its
    errors are only printed. *)
Fixpoint rollback (name : string) (activated : list (ContributionProcessor σ)) : M unit :=
  match activated with
  | [] => st_ret tt
  | processor :: rest =>
      let* _ := attempt (stop_processor name processor) in
      rollback name rest
  end.

(** The body of the [try]: the processors activated, last first, and what was
    thrown. *)
Fixpoint activate_processors (name : string) (processors activated : list (ContributionProcessor σ))
    : M (list (ContributionProcessor σ) * option thrown) :=
  match processors with
  | [] => st_ret (activated, None)
  | processor :: rest =>
      let* e := gets (λ s, JsMap.get name (entries s)) in
      let accepts := match processor_filter processor, e with
                     | Some f, Some e => f (pkg e)
                     | _, _ => Ok true
                     end in
      match accepts with
      | Throw err => st_ret (activated, Some err)
      | Ok false => activate_processors name rest activated
      | Ok true =>
          let* defaults := gets (config_defaults name) in
          match resolveExtensionEntryConfig name defaults Activate with
          | Throw err => st_ret (activated, Some err)
          | Ok config =>
              match buildExtensionContext name config with
              | Throw err => st_ret (activated, Some err)
              | Ok context =>
                  let* r := attempt (invoke (λ _, Activated (processor_id processor) name)
                                       (processActivated processor name context)) in
                  match r with
                  | Throw err => st_ret (activated, Some err)
                  | Ok _ => activate_processors name rest (processor :: activated)
                  end
              end
          end
      end
  end.

Definition runActivatedProcessors (name : string) : M unit :=
  let* processors := gets contributionProcessors in
  let* outcome := activate_processors name processors [] in
  match outcome.2 with
  | None => st_ret tt
  | Some err => let* _ := rollback name outcome.1 in st_throw err
  end.

(** The failures, which stop nothing. *)
Fixpoint stop_processors (name : string) (processors : list (ContributionProcessor σ)) : M (list thrown) :=
  match processors with
  | [] => st_ret []
  | processor :: rest =>
      let* r := attempt (stop_processor name processor) in
      let* failures := stop_processors name rest in
      st_ret (match r with Throw e => e :: failures | Ok _ => failures end)
  end.

Definition runStoppedProcessors (name : string) : M (list thrown) :=
  let* processors := gets contributionProcessors in
  stop_processors name (rev processors).

(** ** Boot progress *)
Definition bump (failed skipped : list string) : M unit :=
  modify (λ s, let p := progress s in
    set_progress {| complete := complete p; completedCount := S (completedCount p); totalCount := totalCount p;
                    failedServices := failedServices p ++ failed; skippedServices := skippedServices p ++ skipped |} s).

Definition emitProgress : M unit :=
  let* p := gets progress in announce (BootProgressed (completedCount p) (totalCount p)).

Definition progress_starting (name : string) : M unit := announce (BootStarting name).
Definition progress_ready (name : string) : M unit :=
  let* _ := bump [] [] in let* _ := announce (BootReady name) in emitProgress.
Definition progress_failed (name : string) : M unit :=
  let* _ := bump [name] [] in let* _ := announce (BootFailed name) in emitProgress.
Definition progress_skipped (name : string) : M unit :=
  let* _ := bump [] [name] in let* _ := announce (BootSkipped name) in emitProgress.
Definition progress_complete : M unit :=
  let* _ := modify (λ s, let p := progress s in
    set_progress {| complete := true; completedCount := completedCount p; totalCount := totalCount p;
                    failedServices := failedServices p; skippedServices := skippedServices p |} s) in
  let* p := gets progress in announce (BootComplete (failedServices p)).

(** ** Health and warnings *)
Definition runExtensionHealthCheck (name : string) : M unit :=
  let* e := gets (λ s, JsMap.get name (entries s)) in
  match e with
  | None => st_ret tt
  | Some e =>
      match service e, state e with
      | Some handle, Active =>
          match checkHealth host handle with
          | None => st_ret tt
          | Some check =>
              let* r := attempt (invoke (λ _, HealthChecked name handle) check) in
              let ws := match r with Ok (Some ws) => ws | _ => [] end in
              let* _ := update name (with_warnings ws) in
              let* _ := attempt (invoke (λ _, WarningsChanged name ws) (emitWarningsChanged host name)) in
              st_ret tt
          end
      | _, _ => st_ret tt
      end
  end.

Definition WARNING_ACTION_ID : string := "action".
Definition isRuntimeRoutableWarningAction (action : string * json) : bool := bool_decide (action.1 = "configure-integration").
Definition buildActionMapKey (toastId actionId : string) : string := toastId +:+ ":" +:+ actionId.

Definition pruneWarningActionsForEntry (packageName : string) (actions : list (string * (string * json))) :=
  List.filter (λ kv : string * (string * json), negb (String.prefix (packageName +:+ ":") kv.1)) actions.

Fixpoint show_warnings (name : string) (i : nat) (degraded : list ExtensionWarning) : M unit :=
  match degraded with
  | [] => st_ret tt
  | warning :: rest =>
      let toastId := name +:+ ":" +:+ warning_title warning +:+ ":" +:+ pretty i in
      let* r := attempt (invoke (λ _, ToastShown toastId) (showToast host toastId)) in
      let* _ := match r, warning_action warning with
                | Ok _, Some action =>
                    if isRuntimeRoutableWarningAction action
                    then modify (λ s, set_warningActions
                           (JsMap.set (buildActionMapKey toastId WARNING_ACTION_ID) action (warningActions s)) s)
                    else st_ret tt
                | _, _ => st_ret tt
                end in
      show_warnings name (S i) rest
  end.

Definition emitWarningsForEntry (name : string) : M unit :=
  let* _ := modify (λ s, set_warningActions (pruneWarningActionsForEntry name (warningActions s)) s) in
  let* e := gets (λ s, JsMap.get name (entries s)) in
  show_warnings name 0
    (List.filter (λ w, bool_decide (warning_severity w = "degraded")) (match e with Some e => warnings e | None => [] end)).

Fixpoint emitWarnings (names : list string) : M unit :=
  match names with
  | [] => st_ret tt
  | name :: rest =>
      let* e := gets (λ s, JsMap.get name (entries s)) in
      let* _ := match e with
                | Some e => if decide (state e = Active) then emitWarningsForEntry name else st_ret tt
                | None => st_ret tt
                end in
      emitWarnings rest
  end.

(** ** Starting one entry *)
Definition is_active (es : entries_map) (name : string) : bool :=
  match JsMap.get name es with Some e => bool_decide (state e = Active) | None => false end.

Definition inactive_dependencies (es : entries_map) (p : KernelMakaioExtension) : list string :=
  List.filter (λ d, negb (is_active es d)) (required_dependencies p).

Definition failEntry (name : string) (why : failure) : M unit :=
  let* _ := update name (with_error (Some why)) in
  let* _ := transitionPackageEntry name Failed in
  progress_failed name.

(** [if (entry.pkg.critical) throw err]. *)
Definition throw_if (b : bool) (e : thrown) : M unit := if b then st_throw e else st_ret tt.

Definition runStorageCleanup (name : string) : M unit :=
  let* e := gets (λ s, JsMap.get name (entries s)) in
  match e ≫= storageCleanup with
  | None => st_ret tt
  | Some handle =>
      let* _ := attempt (invoke (λ _, CleanedUp name handle) (runCleanup host handle)) in
      update name (with_storageCleanup None)
  end.

Definition registerEntryTray (name : string) : M unit :=
  if tray (code host name)
  then let* _ := attempt (invoke (λ _, TrayRegistered name) (registerTray host name)) in st_ret tt
  else st_ret tt.

(** Whether the error was handled as a skip. *)
Definition handleServiceSkipError (name : string) (p : KernelMakaioExtension) (err : thrown) : M bool :=
  match err with
  | ServiceSkipError reason =>
      if critical p
      then let* _ := failEntry name (FCannotSkip reason) in st_throw (CriticalPackageFailed name)
      else
        let* _ := update name (with_error (Some (FSkipped reason))) in
        let* _ := transitionPackageEntry name Skipped in
        let* _ := progress_skipped name in
        st_ret true
  | _ => st_ret false
  end.

(** The end of both [catch] blocks of a start. *)
Definition start_failed (name : string) (p : KernelMakaioExtension) (err : thrown) : M unit :=
  let* skipped := handleServiceSkipError name p err in
  if skipped then st_ret tt
  else
    let* _ := failEntry name (FThrown err) in
    throw_if (critical p) err.

Definition registerEntryStorage (name : string) (p : KernelMakaioExtension) (config : option json) : M bool :=
  match registerHandlers (code host name), db host with
  | Some register, true =>
      let* r := attempt (let* context := st_lift (buildExtensionContext name config) in
                         invoke (Registered name) (register context)) in
      match r with
      | Ok cleanup =>
          let* _ := match cleanup with Some _ => update name (with_storageCleanup cleanup) | None => st_ret tt end in
          st_ret true
      | Throw err =>
          let* _ := failEntry name (FThrown err) in
          let* _ := throw_if (critical p) err in
          st_ret false
      end
  | _, _ => st_ret true
  end.

(** [entry.state = 'active'] and what follows it. *)
Definition settle_active (name : string) : M unit :=
  let* _ := transitionPackageEntry name Active in
  let* _ := progress_ready name in
  registerEntryTray name.

Definition startEntryWithoutService (name : string) (p : KernelMakaioExtension) : M unit :=
  let* r := attempt (runActivatedProcessors name) in
  match r with
  | Throw err => let* _ := runStorageCleanup name in start_failed name p err
  | Ok _ => settle_active name
  end.

(** [service = await create(ctx); await service.init?.()]: the service, if it was
    created, and the result. *)
Definition create_service (name : string) (make : ExtensionContext → effect σ nat) (config : option json)
    : M (option nat * outcome thrown unit) :=
  let* r := attempt (let* context := st_lift (buildExtensionContext name config) in
                     invoke (Created name) (make context)) in
  match r with
  | Throw err => st_ret (None, Throw err)
  | Ok handle =>
      let* r := attempt (invoke (λ _, Initialized name handle) (initService host handle)) in
      st_ret (Some handle, r)
  end.

(** [await service?.destroy?.()], whose error is only printed. *)
Definition destroy_quietly (name : string) (handle : option nat) : M unit :=
  match handle with
  | None => st_ret tt
  | Some handle => let* _ := attempt (invoke (λ _, Destroyed name handle) (destroyService host handle)) in st_ret tt
  end.

Definition startEntryWithService (name : string) (p : KernelMakaioExtension) (make : ExtensionContext → effect σ nat)
    (config : option json) : M unit :=
  let* created := create_service name make config in
  let* r := match created.2 with
            | Throw err => st_ret (Throw err)
            | Ok _ =>
                let* _ := update name (with_service created.1) in
                attempt (runActivatedProcessors name)
            end in
  match r with
  | Ok _ => settle_active name
  | Throw err =>
      let* _ := destroy_quietly name created.1 in
      let* _ := update name (with_service None) in
      let* _ := runStorageCleanup name in
      start_failed name p err
  end.

Definition startExtensionEntry (name : string) (e : ExtensionEntry) : M unit :=
  let p := pkg e in
  if negb (enabled e)
  then let* _ := transitionPackageEntry name Skipped in progress_skipped name
  else
    let* es := gets entries in
    match inactive_dependencies es p with
    | (_ :: _) as missing =>
        let* _ := failEntry name (FInactiveDependencies missing) in
        throw_if (critical p) (CriticalPackageFailed name)
    | [] =>
        match checkExtensionNameAddressable name with
        | Some why =>
            let* _ := failEntry name why in
            throw_if (critical p) (CriticalPackageFailed name)
        | None =>
            let* _ := progress_starting name in
            let* _ := transitionPackageEntry name Initializing in
            match resolveExtensionEntryConfig name (configDefaults e) Activate with
            | Throw err =>
                let* _ := failEntry name (FThrown err) in
                throw_if (critical p) err
            | Ok config =>
                let* ok := registerEntryStorage name p config in
                if negb ok then st_ret tt
                else match create (code host name) with
                     | None => startEntryWithoutService name p
                     | Some make => startEntryWithService name p make config
                     end
            end
        end
    end.
End statements.
