(* ===== verification/ExtensionToggle.v ===== *)
(** * Enabling, disabling and preferring extensions

    [packages/kernel/src/extension/extension-toggle.ts]: the transitions of a
    running coordinator ([applyExtensionTransition]) and the recording of an
    operator's preference ([handleSetEnabled]), which moves nothing. *)
From S2P Require Import Prelude TopoSort ExtensionSelection NameSegments Json JsonTree ExtensionEntries.

Inductive TransitionOutcome := Applied | Rejected | RestartRequired.
Inductive SetEnabledReason :=
  | RCritical | RCriticalityUnknown | RNotInstalled | RNoCatalog | RNameCollision | RShuttingDown
  | RRuntimeStateDiverges | RNotLoaded | RFrameworkPackageShadowed.
#[export] Instance outcome_eq_dec : EqDecision TransitionOutcome.
Proof. solve_decision. Defined.

Record SetEnabledResult := {
  success : bool;
  outcome_of : TransitionOutcome;
  reason_of : option SetEnabledReason;
}.

(** What the installed-extension catalog answers for a name. *)
Record InstalledExtensionRecord := {
  record_critical : bool;
  criticalityUnknown : bool;
  collidesWith : option string;
}.
Inductive SetEnabledCatalogLookup :=
  | CatalogUnavailable
  | CatalogResolved (record : option InstalledExtensionRecord).

Section toggle.
Context {σ : Type} (host : Host σ).
Notation M := (ST (coordinator σ) thrown).

(** [true] is ['applied'], [false] is ['rejected']. *)
Definition failReEnable (name : string) (why : failure) : M bool :=
  let* _ := update name (with_error (Some why)) in
  let* _ := transitionPackageEntry name Failed in
  st_ret false.

(** Errors of both steps are only printed. *)
Definition cleanupFailedEnable (name : string) (svc storage : option nat) : M unit :=
  let* _ := destroy_quietly host name svc in
  let* _ := match storage with
            | None => st_ret tt
            | Some handle => let* _ := attempt (invoke (λ _, CleanedUp name handle) (runCleanup host handle)) in st_ret tt
            end in
  update name (with_storageCleanup None).

Definition reinitializeService (name : string) (p : KernelMakaioExtension) (config : option json) (storage : option nat)
    : M bool :=
  match create (code host name) with
  | None => st_ret true
  | Some make =>
      let* created := create_service host name make config in
      match created.2 with
      | Ok _ => let* _ := update name (with_service created.1) in st_ret true
      | Throw err =>
          let* _ := cleanupFailedEnable name created.1 storage in
          match err with
          | ServiceSkipError reason =>
              if negb (critical p)
              then
                let* _ := update name (with_error (Some (FSkipped reason))) in
                let* _ := transitionPackageEntry name Skipped in
                st_ret false
              else
                let* _ := update name (with_error (Some (FCannotSkip reason))) in
                let* _ := transitionPackageEntry name Failed in
                st_ret false
          | _ =>
              let* _ := update name (with_error (Some (FThrown err))) in
              let* _ := transitionPackageEntry name Failed in
              st_ret false
          end
      end
  end.

(** The storage handlers of a re-enabled extension: [None] when they could not be
    registered, else the cleanup they returned. *)
Definition reregister_storage (name : string) (config : option json) : M (option (option nat)) :=
  match registerHandlers (code host name), db host with
  | Some register, true =>
      let* r := attempt (let* context := st_lift (buildExtensionContext host name config) in
                         invoke (Registered name) (register context)) in
      match r with
      | Ok cleanup =>
          let* _ := match cleanup with Some _ => update name (with_storageCleanup cleanup) | None => st_ret tt end in
          st_ret (Some cleanup)
      | Throw err =>
          let* _ := update name (with_error (Some (FThrown err))) in
          let* _ := transitionPackageEntry name Failed in
          st_ret None
      end
  | _, _ => st_ret (Some None)
  end.

(** The part of [enableExtension] after its guards: the entry is initializing. *)
Definition activate_entry (name : string) (p : KernelMakaioExtension) (config : option json) : M bool :=
  let* storage := reregister_storage name config in
  match storage with
  | None => st_ret false
  | Some storageCleanup =>
      let* ready := reinitializeService name p config storageCleanup in
      if negb ready then st_ret false
      else
        let* r := attempt (runActivatedProcessors host name) in
        match r with
        | Throw err =>
            let* svc := gets (λ s, JsMap.get name (entries s) ≫= service) in
            let* _ := cleanupFailedEnable name svc storageCleanup in
            let* _ := update name (with_service None) in
            let* _ := update name (with_error (Some (FThrown err))) in
            let* _ := transitionPackageEntry name Failed in
            st_ret false
        | Ok _ =>
            let* _ := transitionPackageEntry name Active in
            let* _ := registerEntryTray host name in
            let* _ := runExtensionHealthCheck host name in
            let* _ := emitWarningsForEntry host name in
            st_ret true
        end
  end.

Definition enableExtension (name : string) (e : ExtensionEntry) : M bool :=
  match state e with
  | Active => let* _ := update name (with_enabled true) in st_ret true
  | Discovered | Initializing => st_ret false
  | Stopped | Failed | Skipped =>
      if bool_decide (state e = Skipped) && negb (surfacesCollected e)
      then let* _ := update name (with_error (Some FNeverStarted)) in st_ret false
      else
        let* es := gets entries in
        match inactive_dependencies es (pkg e) with
        | (_ :: _) as missing => failReEnable name (FInactiveDependencies missing)
        | [] =>
            match checkExtensionNameAddressable name with
            | Some why => failReEnable name why
            | None =>
                let* _ := update name (with_enabled true) in
                let* _ := update name (with_error None) in
                let* _ := transitionPackageEntry name Initializing in
                match resolveExtensionEntryConfig host name (configDefaults e) Activate with
                | Throw err => failReEnable name (FConfiguration err)
                | Ok config => activate_entry name (pkg e) config
                end
            end
        end
  end.

(** The active entries that require [name]. *)
Definition active_dependents (es : entries_map) (name : string) : list string :=
  map fst (List.filter (λ kv : string * ExtensionEntry,
    negb (bool_decide (kv.1 = name)) && bool_decide (state kv.2 = Active) &&
    bool_decide (name ∈ required_dependencies (pkg kv.2))) es).

Definition failures_of {A} (r : outcome thrown A) : list thrown := match r with Ok _ => [] | Throw e => [e] end.

(** [await entry.service.destroy?.()] and [entry.storageCleanup()], each clearing
    its property whatever happens. *)
Definition destroy_service (name : string) : M (list thrown) :=
  let* e := gets (λ s, JsMap.get name (entries s)) in
  match e ≫= service with
  | None => st_ret []
  | Some handle =>
      let* r := attempt (invoke (λ _, Destroyed name handle) (destroyService host handle)) in
      let* _ := update name (with_service None) in
      st_ret (failures_of r)
  end.

Definition clean_storage (name : string) : M (list thrown) :=
  let* e := gets (λ s, JsMap.get name (entries s)) in
  match e ≫= storageCleanup with
  | None => st_ret []
  | Some handle =>
      let* r := attempt (invoke (λ _, CleanedUp name handle) (runCleanup host handle)) in
      let* _ := update name (with_storageCleanup None) in
      st_ret (failures_of r)
  end.

Definition unregisterEntryTray (name : string) : M (list thrown) :=
  if tray (code host name)
  then let* r := attempt (invoke (λ _, TrayUnregistered name) (unregisterTray host name)) in st_ret (failures_of r)
  else st_ret [].

(** The part of [disableExtension] after its guards. *)
Definition tear_down (name : string) : M unit :=
  let* _ := update name (with_enabled false) in
  let* _ := update name (with_error None) in
  let* f1 := runStoppedProcessors name in
  let* f2 := destroy_service name in
  let* f3 := clean_storage name in
  let* f4 := unregisterEntryTray name in
  let* _ := match f1 ++ f2 ++ f3 ++ f4 with
            | [] => st_ret tt
            | failures => update name (with_error (Some (FTeardown failures)))
            end in
  let* _ := transitionPackageEntry name Stopped in
  let* _ := update name (with_warnings []) in
  let* _ := attempt (invoke (λ _, WarningsChanged name []) (emitWarningsChanged host name)) in
  st_ret tt.

Definition disableExtension (name : string) (e : ExtensionEntry) : M bool :=
  match state e with
  | Initializing => st_ret false
  | Active =>
      let* es := gets entries in
      match active_dependents es name with
      | (_ :: _) as dependents =>
          let* _ := update name (with_error (Some (FActiveDependents dependents))) in st_ret false
      | [] => let* _ := tear_down name in st_ret true
      end
  | _ => let* _ := update name (with_enabled false) in st_ret true
  end.

Definition applyExtensionTransition (name : string) (b : bool) : M bool :=
  let* e := gets (λ s, JsMap.get name (entries s)) in
  match e with
  | None => st_ret false
  | Some e =>
      let* applied := if b then enableExtension name e else disableExtension name e in
      if negb applied then st_ret false
      else let* _ := announce (EnabledChanged name b) in st_ret true
  end.

(** ** Preferences *)
Definition rejected (reason : SetEnabledReason) : SetEnabledResult :=
  {| success := false; outcome_of := Rejected; reason_of := Some reason |}.

(** The direction an entry is headed without a restart. *)
Definition headingEnabled (e : ExtensionEntry) : bool :=
  match state e with
  | Active | Initializing => true
  | Discovered => enabled e
  | _ => false
  end.

Definition persistForLoadedEntry (name : string) (b : bool) (e : ExtensionEntry) : M SetEnabledResult :=
  match persistEnabled host with
  | None => st_throw (NoEnablementStore name)
  | Some persist =>
      if negb b && critical (pkg e) then st_ret (rejected RCritical)
      else
        let* _ := invoke (λ _, Persisted name b) (persist name b) in
        st_ret (if bool_decide (headingEnabled e = b)
                then {| success := true; outcome_of := Applied; reason_of := None |}
                else {| success := false; outcome_of := RestartRequired; reason_of := Some RRuntimeStateDiverges |})
  end.

Definition persistForUnloadedName (name : string) (b frameworkPackageHoldsName : bool) (catalog : SetEnabledCatalogLookup)
    : M SetEnabledResult :=
  match persistEnabled host with
  | None => st_throw (NoEnablementStore name)
  | Some persist =>
      match catalog with
      | CatalogUnavailable =>
          if frameworkPackageHoldsName then st_throw (NoPreference name) else st_ret (rejected RNoCatalog)
      | CatalogResolved None => st_ret (rejected RNotInstalled)
      | CatalogResolved (Some record) =>
          if negb b && record_critical record then st_ret (rejected RCritical)
          else if negb b && criticalityUnknown record then st_ret (rejected RCriticalityUnknown)
          else
            let* _ := invoke (λ _, Persisted name b) (persist name b) in
            let reason := if frameworkPackageHoldsName then RFrameworkPackageShadowed else RNotLoaded in
            st_ret (if b then {| success := false; outcome_of := RestartRequired; reason_of := Some reason |}
                    else {| success := true; outcome_of := Applied; reason_of := Some reason |})
      end
  end.

Definition handleSetEnabled (name : string) (b : bool) (catalog : SetEnabledCatalogLookup) : M SetEnabledResult :=
  let collides := match catalog with
                  | CatalogResolved (Some record) => match collidesWith record with Some _ => true | None => false end
                  | _ => false
                  end in
  if collides then st_ret (rejected RNameCollision)
  else
    let* e := gets (λ s, JsMap.get name (entries s)) in
    match e with
    | Some e => if extensionManaged e then persistForLoadedEntry name b e
                else persistForUnloadedName name b true catalog
    | None => persistForUnloadedName name b false catalog
    end.
End toggle.
