(* ===== verification/ExtensionCoordinator.v ===== *)
(** * The extension coordinator

    [packages/kernel/src/extension/extension-coordinator.ts],
    [extension-migration-runner.ts] and [extension-shutdown-runner.ts]: loading
    the packages, starting them in load order, transitions and preferences at run
    time, and shutdown.

    Everything that moves an entry goes through one lane and runs there from
    start to end before the next operation, so an operation is a computation and
    the coordinator a machine whose steps are the calls made to it (which check
    the flags and join the lane) and the runs of the first operation.
    Contribution processors come and go between operations.  The static surfaces
    of a package (windows, tray, command line), its bus namespaces and the RPC
    handlers of the coordinator touch no entry and are left out, as is a load
    that throws after it filled the entries: it aborts the boot. *)
From S2P Require Import Prelude TopoSort ExtensionSelection NameSegments Json JsonTree ExtensionEntries ExtensionToggle.

Record ExtensionCoordinatorOptions := {
  runtimeSurface : string;
  runtimeEnvironment : option RuntimeEnvironment;
  extensionManagedNames : option (list string);
  frameworkPackageNames : list string;
  loadEnabled : option (string → option bool);
}.

Inductive load_error := NameCollision (name : string) | InvalidGraph (message : string).

Section load.
Context (versionSatisfies : string → string → bool) (options : ExtensionCoordinatorOptions).

(** The entry a load creates for a name of the load order. *)
Definition new_entry (eligible : list KernelMakaioExtension) (bootEnabledNames : list string)
    (softWarnings : list (string * string)) (defaults : list (string * members)) (name : string) : option ExtensionEntry :=
  p ← List.find (λ p, bool_decide (pkg_name p = name)) eligible;
  Some {| pkg := p; state := Discovered; enabled := bool_decide (name ∈ bootEnabledNames);
          extensionManaged := is_managed (extensionManagedNames options) name;
          service := None; storageCleanup := None;
          error := match map snd (filter (λ w : string * string, w.1 = name) softWarnings) with
                   | [] => None
                   | messages => Some (FGraph messages)
                   end;
          configDefaults := JsMap.get name defaults; surfacesCollected := false; warnings := [] |}.

Definition entry_flags (es : entries_map) : list (string * (KernelMakaioExtension * bool)) :=
  map (λ kv : string * ExtensionEntry, (kv.1, (pkg kv.2, enabled kv.2))) es.

Definition collect_surfaces (es : entries_map) : entries_map :=
  let closed := (closeEnabledExtensionEntries (entry_flags es)).1 in
  map (λ kv : string * ExtensionEntry,
    (kv.1, if bool_decide (kv.1 ∈ closed) then with_surfacesCollected true kv.2 else kv.2)) es.

(** The load order and the entries. *)
Definition load (packages : list KernelMakaioExtension) (defaults : list (string * members))
    : option (outcome load_error (list string * entries_map)) :=
  match coalesceExtensionOverrides
          (filterEligibleExtensions versionSatisfies packages (runtimeSurface options) (runtimeEnvironment options))
          (frameworkPackageNames options) with
  | Throw name => Some (Throw (NameCollision name))
  | Ok eligible =>
      let bootEnabledNames := resolveBootEnabledNames eligible (extensionManagedNames options) (loadEnabled options) in
      match topoSort versionSatisfies (map manifest eligible) (Some bootEnabledNames) with
      | None => None
      | Some (Throw message, _) => Some (Throw (InvalidGraph message))
      | Some (Ok order, softWarnings) =>
          let es := omap (λ name, e ← new_entry eligible bootEnabledNames softWarnings defaults name; Some (name, e)) order in
          Some (Ok (order, collect_surfaces es))
      end
  end.
End load.

Section coordinator.
Context {σ : Type} (host : Host σ).
Notation M := (ST (coordinator σ) thrown).

(** ** Start *)
Fixpoint with_migrations (names : list string) : outcome thrown (list string) :=
  match names with
  | [] => Ok []
  | name :: rest =>
      match migrations host name, with_migrations rest with
      | Throw e, _ => Throw e
      | Ok _, Throw e => Throw e
      | Ok true, Ok names => Ok (name :: names)
      | Ok false, Ok names => Ok names
      end
  end.

Definition runExtensionMigrations : M unit :=
  match runMigrations host with
  | None => st_ret tt
  | Some run =>
      let* es := gets entries in
      let* order := gets loadOrder in
      let closed := (closeEnabledExtensionEntries (entry_flags es)).1 in
      let* sources := st_lift (with_migrations (List.filter (λ n, bool_decide (n ∈ closed)) order)) in
      match sources with
      | [] => st_ret tt
      | _ => invoke (λ _, Migrated sources) (run sources)
      end
  end.

Fixpoint start_entries (names : list string) : M unit :=
  match names with
  | [] => st_ret tt
  | name :: rest =>
      let* e := gets (λ s, JsMap.get name (entries s)) in
      let* _ := match e with Some e => startExtensionEntry host name e | None => st_ret tt end in
      start_entries rest
  end.

Fixpoint check_health (names : list string) : M unit :=
  match names with
  | [] => st_ret tt
  | name :: rest => let* _ := runExtensionHealthCheck host name in check_health rest
  end.

Definition new_progress (totalCount : nat) : BootProgress :=
  {| complete := false; completedCount := 0; totalCount := totalCount; failedServices := []; skippedServices := [] |}.

(** The body of the [try] of [startAllInLifecycleLane]. *)
Definition boot : M unit :=
  let* order := gets loadOrder in
  let* _ := runExtensionMigrations in
  let* _ := start_entries order in
  let* _ := check_health order in
  let* es := gets entries in
  emitWarnings host (JsMap.keys es).

Definition startAllInLifecycleLane : M unit :=
  let* order := gets loadOrder in
  let* _ := modify (set_progress (new_progress (length order))) in
  let* r := attempt boot in
  let* _ := progress_complete in
  st_lift r.

(** ** Shutdown *)
Definition shutdown_entry (name : string) : M (list thrown) :=
  let* e := gets (λ s, JsMap.get name (entries s)) in
  match e with
  | None => st_ret []
  | Some e =>
      let* f1 := if decide (state e = Active) then runStoppedProcessors name else st_ret [] in
      let* f2 := destroy_service host name in
      let* f3 := clean_storage host name in
      let* _ := if decide (state e = Active) then transitionPackageEntry name Stopped else st_ret tt in
      st_ret (f1 ++ f2 ++ f3)
  end.

Fixpoint shutdown_entries (names : list string) : M (list thrown) :=
  match names with
  | [] => st_ret []
  | name :: rest =>
      let* f := shutdown_entry name in
      let* fs := shutdown_entries rest in
      st_ret (f ++ fs)
  end.

(** The failures of the teardown, reported together at its end. *)
Definition shutdownInLifecycleLane : M (list thrown) :=
  let* _ := modify (set_warningActions []) in
  let* order := gets loadOrder in
  shutdown_entries (rev order).

(** ** The lane *)
Inductive operation :=
  | OpStart
  | OpTransition (name : string) (enabled : bool)
  | OpSetEnabled (name : string) (enabled : bool) (catalog : SetEnabledCatalogLookup)
  | OpShutdown.

Definition run (op : operation) (s : coordinator σ) : coordinator σ :=
  match op with
  | OpStart => (startAllInLifecycleLane s).2
  | OpTransition name b => (applyExtensionTransition host name b s).2
  | OpSetEnabled name b catalog => (handleSetEnabled host name b catalog s).2
  | OpShutdown => (shutdownInLifecycleLane s).2
  end.

Record machine := {
  coord : coordinator σ;
  loaded : bool;
  started : bool;
  shutdownRequested : bool;
  lane : list operation;
}.

Definition new_coordinator (w : σ) : coordinator σ := Coordinator [] [] [] [] (new_progress 0) w [].
Definition new_machine (w : σ) : machine :=
  {| coord := new_coordinator w; loaded := false; started := false; shutdownRequested := false; lane := [] |}.

Definition with_loaded (order : list string) (es : entries_map) (s : coordinator σ) : coordinator σ :=
  Coordinator es order (contributionProcessors s) (warningActions s) (progress s) (world s) (log s).
Definition with_processors (ps : list (ContributionProcessor σ)) (s : coordinator σ) : coordinator σ :=
  Coordinator (entries s) (loadOrder s) ps (warningActions s) (progress s) (world s) (log s).

(** The calls that come in and the runs of the lane. *)
Inductive machine_step (versionSatisfies : string → string → bool) (options : ExtensionCoordinatorOptions)
    : machine → machine → Prop :=
  | step_load m packages defaults order es :
      shutdownRequested m = false → loaded m = false →
      load versionSatisfies options packages defaults = Some (Ok (order, es)) →
      machine_step versionSatisfies options m
        {| coord := with_loaded order es (coord m); loaded := true; started := started m;
           shutdownRequested := shutdownRequested m; lane := lane m |}
  | step_startAll m :
      shutdownRequested m = false → loaded m = true → started m = false →
      machine_step versionSatisfies options m
        {| coord := coord m; loaded := true; started := true;
           shutdownRequested := false; lane := lane m ++ [OpStart] |}
  | step_transition m name b :
      shutdownRequested m = false →
      machine_step versionSatisfies options m
        {| coord := coord m; loaded := loaded m; started := started m;
           shutdownRequested := false; lane := lane m ++ [OpTransition name b] |}
  | step_setEnabled m name b catalog :
      shutdownRequested m = false →
      machine_step versionSatisfies options m
        {| coord := coord m; loaded := loaded m; started := started m;
           shutdownRequested := false; lane := lane m ++ [OpSetEnabled name b catalog] |}
  | step_shutdown m :
      shutdownRequested m = false →
      machine_step versionSatisfies options m
        {| coord := coord m; loaded := loaded m; started := started m;
           shutdownRequested := true; lane := lane m ++ [OpShutdown] |}
  | step_run m op rest :
      lane m = op :: rest →
      machine_step versionSatisfies options m
        {| coord := run op (coord m); loaded := loaded m; started := started m;
           shutdownRequested := shutdownRequested m; lane := rest |}
  | step_processors m ps :
      machine_step versionSatisfies options m
        {| coord := with_processors ps (coord m); loaded := loaded m; started := started m;
           shutdownRequested := shutdownRequested m; lane := lane m |}.

Inductive reachable (versionSatisfies : string → string → bool) (options : ExtensionCoordinatorOptions) (w : σ)
    : machine → Prop :=
  | reachable_new : reachable versionSatisfies options w (new_machine w)
  | reachable_step m m' :
      reachable versionSatisfies options w m → machine_step versionSatisfies options m m' →
      reachable versionSatisfies options w m'.
End coordinator.
