(* ===== verification/ExtensionLogic.v ===== *)
(** * Reasoning about the operations on one entry

    Every operation of the coordinator moves one entry: the others keep their
    value, and what the log says of them does not change.  [At] describes a state
    in the middle of an operation on the entry [c]: the values the operation gave
    it so far, its service and storage handles in flight, and what holds
    throughout.  [wp] is the weakest precondition of a statement, and each
    statement has a rule from [At] to [At]; [ends_at] is an operation that ended
    with the entry at rest. *)
From S2P Require Import Prelude TopoSort ExtensionSelection NameSegments Json JsonTree ExtensionEntries ExtensionToggle ExtensionCoordinator.

(** ** What is true of a state *)
Definition deps_active (es : entries_map) : Prop :=
  ∀ n e d, JsMap.get n es = Some e → state e = Active → d ∈ required_dependencies (pkg e) → is_active es d = true.

(** The transitions an entry may make. *)
Definition legal (from to : ComponentState) : bool :=
  match from, to with
  | Discovered, (Skipped | Failed | Initializing) => true
  | Initializing, (Active | Failed | Skipped) => true
  | Active, Stopped => true
  | (Stopped | Failed | Skipped), (Initializing | Failed) => true
  | _, _ => false
  end.

(** The states in which code of an extension may run. *)
Definition may_run (st : ComponentState) : bool := match st with Initializing | Active => true | _ => false end.

(** The extension whose code an event ran. *)
Definition runs_code (ev : event) : option string :=
  match ev with
  | Registered n _ | CleanedUp n _ | Created n _ | Initialized n _ | Destroyed n _ | Activated _ n | HealthChecked n _ => Some n
  | _ => None
  end.

(** What is guaranteed of an event and the entries at that moment. *)
Definition event_ok (x : event * entries_map) : Prop :=
  deps_active x.2 ∧
  match x.1 with StateChanged _ from to _ => legal from to = true | _ => True end ∧
  match runs_code x.1 with
  | None => True
  | Some n => ∃ e, JsMap.get n x.2 = Some e ∧ may_run (state e) = true ∧
                ∀ d, d ∈ required_dependencies (pkg e) → is_active x.2 d = true
  end.

(** What the log says of one entry. *)
Definition transitions_of (n : string) (l : list (event * entries_map)) : list (ComponentState * ComponentState) :=
  omap (λ x : event * entries_map, match x.1 with
    | StateChanged n' from to _ => if bool_decide (n' = n) then Some (from, to) else None | _ => None end) l.
Definition created (n : string) (l : list (event * entries_map)) : list nat :=
  omap (λ x : event * entries_map, match x.1 with
    | Created n' (Ok h) => if bool_decide (n' = n) then Some h else None | _ => None end) l.
Definition destroyed (n : string) (l : list (event * entries_map)) : list nat :=
  omap (λ x : event * entries_map, match x.1 with
    | Destroyed n' h => if bool_decide (n' = n) then Some h else None | _ => None end) l.
Definition registered (n : string) (l : list (event * entries_map)) : list nat :=
  omap (λ x : event * entries_map, match x.1 with
    | Registered n' (Ok (Some h)) => if bool_decide (n' = n) then Some h else None | _ => None end) l.
Definition cleaned (n : string) (l : list (event * entries_map)) : list nat :=
  omap (λ x : event * entries_map, match x.1 with
    | CleanedUp n' h => if bool_decide (n' = n) then Some h else None | _ => None end) l.

(** Follow transitions from a state; [None] when one starts elsewhere. *)
Fixpoint path (st : ComponentState) (l : list (ComponentState * ComponentState)) : option ComponentState :=
  match l with
  | [] => Some st
  | (from, to) :: l => if bool_decide (from = st) then path to l else None
  end.

Lemma path_app st l l' : path st (l ++ l') = st' ← path st l; path st' l'.
Proof. revert st. induction l as [|[from to] l IH]; intros st; [done|]. simpl. by case_bool_decide. Qed.

(** An entry between operations: it is settled, holds resources only if active,
    and every service made and every storage registration for it was undone
    except the one it holds. *)
Record at_rest (n : string) (e : ExtensionEntry) (l : list (event * entries_map)) : Prop := {
  ar_settled : state e ≠ Initializing;
  ar_idle : state e ≠ Active → service e = None ∧ storageCleanup e = None;
  ar_created : created n l = destroyed n l ++ option_list (service e);
  ar_registered : registered n l = cleaned n l ++ option_list (storageCleanup e);
  ar_path : path Discovered (transitions_of n l) = Some (state e);
}.

(** The names that stand before [n] in the load order. *)
Definition ordered (order : list string) (n : string) (p : KernelMakaioExtension) : Prop :=
  ∀ d, d ∈ required_dependencies p → before order d n.

(** An entry that may yet be started. *)
Definition bootable (e : ExtensionEntry) : Prop :=
  enabled e = true ∨ surfacesCollected e = true ∨ (state e ≠ Discovered ∧ state e ≠ Skipped).

Section logic.
Context {σ : Type} (host : Host σ).
Notation M := (ST (coordinator σ) thrown).
Implicit Types (s : coordinator σ).

Record Inv (s : coordinator σ) : Prop := {
  inv_nodup : NoDup (loadOrder s);
  inv_keys : JsMap.keys (entries s) = loadOrder s;
  inv_deps : deps_active (entries s);
  inv_order : ∀ n e, JsMap.get n (entries s) = Some e → bootable e → ordered (loadOrder s) n (pkg e);
  inv_rest : ∀ n e, JsMap.get n (entries s) = Some e → at_rest n e (log s);
  inv_log : Forall event_ok (log s);
}.

(** ** Weakest preconditions *)
Definition wp {A} (m : M A) (Q : outcome thrown A → coordinator σ → Prop) s : Prop := let '(r, s') := m s in Q r s'.

Lemma wp_return {A} (a : A) Q s : Q (Ok a) s → wp (st_ret a) Q s.
Proof. done. Qed.
Lemma wp_throw {A} e (Q : outcome thrown A → _) s : Q (Throw e) s → wp (st_throw e) Q s.
Proof. done. Qed.
Lemma wp_lift {A} (r : outcome thrown A) Q s : Q r s → wp (st_lift r) Q s.
Proof. done. Qed.
Lemma wp_gets {A} (f : coordinator σ → A) Q s : Q (Ok (f s)) s → wp (gets f) Q s.
Proof. done. Qed.
Lemma wp_seq {A B} (m : M A) (f : A → M B) Q s :
  wp m (λ r s', match r with Ok a => wp (f a) Q s' | Throw e => Q (Throw e) s' end) s → wp (let* a := m in f a) Q s.
Proof. unfold wp, st_bind. by destruct (m s) as [[a|e] s']. Qed.
Lemma wp_attempt {A} (m : M A) Q s : wp m (λ r s', Q (Ok r) s') s → wp (attempt m) Q s.
Proof. unfold wp, attempt. by destruct (m s). Qed.
Lemma wp_weaken {A} (m : M A) (P Q : outcome thrown A → coordinator σ → Prop) s :
  wp m P s → (∀ r s', P r s' → Q r s') → wp m Q s.
Proof. unfold wp. destruct (m s). auto. Qed.
Lemma wp_run {A} (m : M A) Q s : wp m Q s → Q (m s).1 (m s).2.
Proof. unfold wp. by destruct (m s). Qed.

(** ** In the middle of an operation on [c]

    The values of the entry, the handles not yet undone, and the boot report. *)
Record local := Local {
  l_state : ComponentState;
  l_enabled : bool;
  l_service : option nat;
  l_storage : option nat;
  l_live : option nat;
  l_stored : option nat;
  l_progress : BootProgress;
}.

Context (c : string) (p : KernelMakaioExtension) (s0 : coordinator σ).

Record At (l : local) (s : coordinator σ) : Prop := {
  at_keys : JsMap.keys (entries s) = JsMap.keys (entries s0);
  at_order : loadOrder s = loadOrder s0;
  at_frame : ∀ n, n ≠ c → JsMap.get n (entries s) = JsMap.get n (entries s0);
  at_others : ∀ n e, n ≠ c → JsMap.get n (entries s0) = Some e → at_rest n e (log s);
  at_deps : deps_active (entries s);
  at_log : Forall event_ok (log s);
  at_entry : ∃ e e0, JsMap.get c (entries s) = Some e ∧ JsMap.get c (entries s0) = Some e0 ∧ pkg e = p ∧
    state e = l_state l ∧ enabled e = l_enabled l ∧ service e = l_service l ∧ storageCleanup e = l_storage l ∧
    surfacesCollected e = surfacesCollected e0;
  at_created : created c (log s) = destroyed c (log s) ++ option_list (l_live l);
  at_registered : registered c (log s) = cleaned c (log s) ++ option_list (l_stored l);
  at_path : path Discovered (transitions_of c (log s)) = Some (l_state l);
  at_progress : progress s = l_progress l;
}.

Definition set_l_state x l := Local x (l_enabled l) (l_service l) (l_storage l) (l_live l) (l_stored l) (l_progress l).
Definition set_l_live x l := Local (l_state l) (l_enabled l) (l_service l) (l_storage l) x (l_stored l) (l_progress l).
Definition set_l_stored x l := Local (l_state l) (l_enabled l) (l_service l) (l_storage l) (l_live l) x (l_progress l).
Definition set_l_progress x l := Local (l_state l) (l_enabled l) (l_service l) (l_storage l) (l_live l) (l_stored l) x.

(** The required dependencies are active, and are other entries. *)
Definition needs_met : Prop := ∀ d, d ∈ required_dependencies p → d ≠ c ∧ is_active (entries s0) d = true.
(** They are active now. *)
Definition code_ok s : Prop := (∃ e, JsMap.get c (entries s) = Some e ∧ may_run (state e) = true) ∧
  ∀ d, d ∈ required_dependencies p → is_active (entries s) d = true.

Lemma is_active_spec es d : is_active es d = true ↔ ∃ e, JsMap.get d es = Some e ∧ state e = Active.
Proof.
  unfold is_active. destruct (JsMap.get d es) as [e|]; [rewrite bool_decide_eq_true; naive_solver|naive_solver].
Qed.

(** The entry is being started or enabled and has what it requires. *)
Definition running l : Prop := l_state l = Initializing ∧ needs_met.

Lemma code_ok_needs l s : At l s → running l → code_ok s.
Proof.
  intros Hat [Hi Hn]. split.
  { destruct (at_entry _ _ Hat) as (e & _ & He & _ & _ & Hs & _). exists e. by rewrite Hs, Hi. }
  intros d Hd. destruct (Hn d Hd) as [Hc Ha]. unfold is_active in *. by rewrite (at_frame _ _ Hat).
Qed.

Lemma code_ok_active l s : At l s → l_state l = Active → code_ok s.
Proof.
  intros Hat Hl. destruct (at_entry _ _ Hat) as (e & _ & He & _ & Hp & Hs & _). split.
  { exists e. by rewrite Hs, Hl. }
  intros d Hd. apply (at_deps _ _ Hat c e d He); [congruence|by rewrite Hp].
Qed.

(** *** Events *)
Definition subject (ev : event) : option string :=
  match ev with
  | StateChanged n _ _ _ | Created n _ | Destroyed n _ | Registered n _ | CleanedUp n _ => Some n
  | _ => None
  end.

Lemma projections_app n l ev es :
  created n (l ++ [(ev, es)]) = created n l ++ created n [(ev, es)] ∧
  destroyed n (l ++ [(ev, es)]) = destroyed n l ++ destroyed n [(ev, es)] ∧
  registered n (l ++ [(ev, es)]) = registered n l ++ registered n [(ev, es)] ∧
  cleaned n (l ++ [(ev, es)]) = cleaned n l ++ cleaned n [(ev, es)] ∧
  transitions_of n (l ++ [(ev, es)]) = transitions_of n l ++ transitions_of n [(ev, es)].
Proof. unfold created, destroyed, registered, cleaned, transitions_of. by rewrite !omap_app. Qed.

Lemma projections_other n ev es : subject ev ≠ Some n →
  created n [(ev, es)] = [] ∧ destroyed n [(ev, es)] = [] ∧ registered n [(ev, es)] = [] ∧ cleaned n [(ev, es)] = [] ∧
  transitions_of n [(ev, es)] = [].
Proof.
  intros Hs. unfold created, destroyed, registered, cleaned, transitions_of. destruct ev; simpl in *;
    repeat match goal with
    | |- context [match ?r with Ok _ => _ | Throw _ => _ end] => destruct r as [[?|]|]
    | |- context [bool_decide (?a = n)] => rewrite (bool_decide_false (a = n)) by congruence
    end; try done; try (by destruct r; rewrite ?bool_decide_false by congruence).
Qed.

Lemma at_rest_other n e l ev es : subject ev ≠ Some n → at_rest n e l → at_rest n e (l ++ [(ev, es)]).
Proof.
  intros Hs [H1 H2 H3 H4 H5]. destruct (projections_app n l ev es) as (E1 & E2 & E3 & E4 & E5).
  destruct (projections_other n ev es Hs) as (F1 & F2 & F3 & F4 & F5).
  rewrite F1, app_nil_r in E1. rewrite F2, app_nil_r in E2. rewrite F3, app_nil_r in E3. rewrite F4, app_nil_r in E4.
  rewrite F5, app_nil_r in E5. split; [done|done|by rewrite E1, E2|by rewrite E3, E4|by rewrite E5].
Qed.

Lemma at_set_world l s w : At l s → At l (set_world w s).
Proof. by intros []. Qed.

(** An event of the operation: what it says of [c] decides the handles left. *)
Lemma at_logged l l' ev s : At l s → event_ok (ev, entries s) → (subject ev = None ∨ subject ev = Some c) →
  (∀ from to e, ev ≠ StateChanged c from to e) →
  l' = Local (l_state l) (l_enabled l) (l_service l) (l_storage l) (l_live l') (l_stored l') (l_progress l) →
  created c (log s) ++ created c [(ev, entries s)] = (destroyed c (log s) ++ destroyed c [(ev, entries s)]) ++ option_list (l_live l') →
  registered c (log s) ++ registered c [(ev, entries s)] = (cleaned c (log s) ++ cleaned c [(ev, entries s)]) ++ option_list (l_stored l') →
  At l' (logged ev s).
Proof.
  intros [] Hok Hsub Hns -> Hc Hr. destruct (projections_app c (log s) ev (entries s)) as (E1 & E2 & E3 & E4 & E5).
  split; simpl; try done.
  - intros n e Hn He. apply at_rest_other; [destruct Hsub; congruence|eauto].
  - apply Forall_app. split; [done|]. by apply Forall_singleton.
  - by rewrite E1, E2.
  - by rewrite E3, E4.
  - rewrite E5. replace (transitions_of c [(ev, entries s)]) with (@nil (ComponentState * ComponentState)); [by rewrite app_nil_r|].
    unfold transitions_of. destruct ev; try done. simpl. destruct (decide (name = c)) as [->|].
    + by edestruct Hns.
    + by rewrite bool_decide_false.
Qed.

Lemma at_neutral l ev s : At l s → event_ok (ev, entries s) → subject ev = None → At l (logged ev s).
Proof.
  intros Hat Hok Hs. destruct (projections_other c ev (entries s)) as (F1 & F2 & F3 & F4 & _); [congruence|].
  apply (at_logged l l ev s); [done|done|by left|intros from to e ->; done|by destruct l| |].
  - rewrite F1, F2, !app_nil_r. apply Hat.
  - rewrite F3, F4, !app_nil_r. apply Hat.
Qed.

Lemma event_ok_code l ev s : At l s → code_ok s → runs_code ev = Some c →
  match ev with StateChanged _ _ _ _ => False | _ => True end → event_ok (ev, entries s).
Proof.
  intros Hat Hc Hr Hns. split; [apply Hat|]. simpl. rewrite Hr. split; [by destruct ev|].
  destruct Hc as [(e & He & Hm) Hc]. exists e. split_and!; [done|done|]. intros d Hd.
  destruct (at_entry _ _ Hat) as (e' & _ & He' & _ & Hp & _). rewrite He' in He. injection He as <-. rewrite Hp in Hd. by apply Hc.
Qed.

(** The announcements that run no code of an extension. *)
Lemma event_ok_quiet l ev s : At l s → runs_code ev = None → match ev with StateChanged _ _ _ _ => False | _ => True end →
  event_ok (ev, entries s).
Proof. intros Hat Hr Hns. split; [apply Hat|]. simpl. rewrite Hr. by destruct ev. Qed.

(** ** Rules for the statements *)
Lemma wp_announce ev l (Q : outcome thrown unit → _) s : At l s → runs_code ev = None → subject ev = None →
  (∀ s', At l s' → Q (Ok tt) s') → wp (announce ev) Q s.
Proof.
  intros Hat Hr Hs HQ. apply HQ. apply at_neutral; [done| |done]. apply (event_ok_quiet l); [done..|]. by destruct ev.
Qed.

(** Foreign code that is not a service or storage of the extension. *)
Lemma wp_invoke {A} (ev : event) (f : effect σ A) l (Q : outcome thrown A → _) s : At l s →
  subject ev = None → (runs_code ev = None ∨ runs_code ev = Some c ∧ code_ok s) →
  (∀ r s', At l s' → Q r s') → wp (invoke (λ _, ev) f) Q s.
Proof.
  intros Hat Hs Hr HQ. unfold wp, invoke. destruct (f (entries s) (world s)) as [r w]. apply HQ.
  assert (At l (set_world w s)) as Hat' by by apply at_set_world.
  apply at_neutral; [done| |done]. change (entries (set_world w s)) with (entries s).
  destruct Hr as [Hr|[Hr Hc]].
  - apply (event_ok_quiet l); [done..|]. by destruct ev.
  - apply (event_ok_code l); [done..|]. by destruct ev.
Qed.

Lemma created_one n h es : created n [(Created n (Ok h), es)] = [h].
Proof. unfold created. simpl. by rewrite bool_decide_true. Qed.
Lemma destroyed_one n h es : destroyed n [(Destroyed n h, es)] = [h].
Proof. unfold destroyed. simpl. by rewrite bool_decide_true. Qed.
Lemma registered_one n h es : registered n [(Registered n (Ok h), es)] = option_list h.
Proof. unfold registered. destruct h; simpl; [by rewrite bool_decide_true|done]. Qed.
Lemma cleaned_one n h es : cleaned n [(CleanedUp n h, es)] = [h].
Proof. unfold cleaned. simpl. by rewrite bool_decide_true. Qed.

Lemma wp_create f l (Q : outcome thrown nat → _) s : At l s → code_ok s → l_live l = None →
  (∀ e s', At l s' → Q (Throw e) s') → (∀ h s', At (set_l_live (Some h) l) s' → Q (Ok h) s') →
  wp (invoke (Created c) f) Q s.
Proof.
  intros Hat Hc Hl HT HO. unfold wp, invoke. destruct (f (entries s) (world s)) as [r w].
  assert (At l (set_world w s)) as Hat' by by apply at_set_world.
  assert (event_ok (Created c r, entries (set_world w s))) as Hok by by apply (event_ok_code l).
  pose proof (at_created _ _ Hat') as Hcr. rewrite Hl, app_nil_r in Hcr. simpl in Hcr.
  destruct r as [h|e]; [apply HO|apply HT]; (eapply at_logged; [exact Hat'|done|by right|done|by destruct l| |]).
  - rewrite created_one. simpl. by rewrite Hcr, app_nil_r.
  - rewrite !app_nil_r. apply Hat'.
  - rewrite Hl. simpl. by rewrite !app_nil_r.
  - rewrite !app_nil_r. apply Hat'.
Qed.

Lemma wp_destroy h f l (Q : outcome thrown unit → _) s : At l s → code_ok s → l_live l = Some h →
  (∀ r s', At (set_l_live None l) s' → Q r s') → wp (invoke (λ _, Destroyed c h) f) Q s.
Proof.
  intros Hat Hc Hl HQ. unfold wp, invoke. destruct (f (entries s) (world s)) as [r w].
  assert (At l (set_world w s)) as Hat' by by apply at_set_world.
  apply HQ. eapply at_logged; [exact Hat'|by apply (event_ok_code l)|by right|done|by destruct l| |].
  - rewrite destroyed_one, !app_nil_r. pose proof (at_created _ _ Hat') as Hcr. by rewrite Hl in Hcr.
  - rewrite !app_nil_r. apply Hat'.
Qed.

Lemma wp_register f l (Q : outcome thrown (option nat) → _) s : At l s → code_ok s → l_stored l = None →
  (∀ e s', At l s' → Q (Throw e) s') → (∀ h s', At (set_l_stored h l) s' → Q (Ok h) s') →
  wp (invoke (Registered c) f) Q s.
Proof.
  intros Hat Hc Hl HT HO. unfold wp, invoke. destruct (f (entries s) (world s)) as [r w].
  assert (At l (set_world w s)) as Hat' by by apply at_set_world.
  assert (event_ok (Registered c r, entries (set_world w s))) as Hok by by apply (event_ok_code l).
  pose proof (at_registered _ _ Hat') as Hcr. rewrite Hl, app_nil_r in Hcr. simpl in Hcr.
  destruct r as [h|e]; [apply HO|apply HT]; (eapply at_logged; [exact Hat'|done|by right|done|by destruct l| |]).
  - rewrite !app_nil_r. apply Hat'.
  - rewrite registered_one. simpl. by rewrite Hcr, app_nil_r.
  - rewrite !app_nil_r. apply Hat'.
  - rewrite Hl. simpl. by rewrite !app_nil_r.
Qed.

Lemma wp_clean h f l (Q : outcome thrown unit → _) s : At l s → code_ok s → l_stored l = Some h →
  (∀ r s', At (set_l_stored None l) s' → Q r s') → wp (invoke (λ _, CleanedUp c h) f) Q s.
Proof.
  intros Hat Hc Hl HQ. unfold wp, invoke. destruct (f (entries s) (world s)) as [r w].
  assert (At l (set_world w s)) as Hat' by by apply at_set_world.
  apply HQ. eapply at_logged; [exact Hat'|by apply (event_ok_code l)|by right|done|by destruct l| |].
  - rewrite !app_nil_r. apply Hat'.
  - rewrite cleaned_one, !app_nil_r. pose proof (at_registered _ _ Hat') as Hcr. by rewrite Hl in Hcr.
Qed.

(** Assignments to the entry. *)
Lemma is_active_set es e e' d : JsMap.get c es = Some e →
  is_active (JsMap.set c e' es) d = if decide (c = d) then bool_decide (state e' = Active) else is_active es d.
Proof. intros He. unfold is_active. rewrite JsMap.get_set. by destruct (decide (c = d)). Qed.

Lemma deps_active_update es e e' : JsMap.get c es = Some e → state e' = state e → pkg e' = pkg e →
  deps_active es → deps_active (JsMap.set c e' es).
Proof.
  intros He Hs Hp Hd n x d Hn Hx Hin. rewrite (is_active_set es e) by done. rewrite JsMap.get_set in Hn.
  assert (is_active es d = true) as Hda.
  { destruct (decide (c = n)) as [<-|]; [|by eapply Hd]. injection Hn as <-. rewrite Hs in Hx. rewrite Hp in Hin. by eapply Hd. }
  destruct (decide (c = d)) as [<-|]; [|done]. rewrite Hs. unfold is_active in Hda. by rewrite He in Hda.
Qed.

Lemma wp_update f l en sv sc (Q : outcome thrown unit → _) s : At l s →
  (∀ e, pkg (f e) = pkg e ∧ state (f e) = state e ∧ surfacesCollected (f e) = surfacesCollected e ∧
        (enabled e = l_enabled l → enabled (f e) = en) ∧ (service e = l_service l → service (f e) = sv) ∧
        (storageCleanup e = l_storage l → storageCleanup (f e) = sc)) →
  (∀ s', At (Local (l_state l) en sv sc (l_live l) (l_stored l) (l_progress l)) s' → Q (Ok tt) s') → wp (update c f) Q s.
Proof.
  intros Hat Hf HQ. unfold wp, update, modify. destruct (at_entry _ _ Hat) as (e & e0 & He & He0 & Hp & Hst & Hen & Hsv & Hsc & Hsf).
  rewrite He. apply HQ. destruct (Hf e) as (Fp & Fs & Ff & Fen & Fsv & Fsc). destruct Hat. split; simpl; try done.
  - by rewrite JsMap.keys_set_hit by (rewrite He; by eexists).
  - intros n Hn. rewrite JsMap.get_set_ne by done. auto.
  - by eapply deps_active_update.
  - exists (f e), e0. rewrite JsMap.get_set_eq. split_and!; try done; try congruence; auto.
Qed.

(** No other active entry requires [c]. *)
Definition no_dependents : Prop := ∀ n e, n ≠ c → JsMap.get n (entries s0) = Some e → state e = Active →
  c ∉ required_dependencies (pkg e).

Lemma wp_transition to l (Q : outcome thrown unit → _) s : At l s → legal (l_state l) to = true →
  (to = Active → needs_met) → (l_state l = Active → no_dependents) →
  (∀ s', At (set_l_state to l) s' → Q (Ok tt) s') → wp (transitionPackageEntry c to) Q s.
Proof.
  intros Hat Hlg Hta Hfa HQ. unfold wp, transitionPackageEntry.
  destruct (at_entry _ _ Hat) as (e & e0 & He & He0 & Hp & Hst & Hen & Hsv & Hsc & Hsf). rewrite He.
  assert (deps_active (JsMap.set c (with_state to e) (entries s))) as Hd.
  { intros n x d Hn Hx Hin. rewrite (is_active_set _ e) by done. rewrite JsMap.get_set in Hn. destruct (decide (c = n)) as [<-|Hcn].
    - injection Hn as <-. simpl in Hx, Hin. rewrite Hp in Hin. destruct (Hta Hx d Hin) as [Hdc Hda].
      rewrite decide_False by done. unfold is_active in *. by rewrite (at_frame _ _ Hat).
    - pose proof (at_deps _ _ Hat n x d Hn Hx Hin) as Hda. destruct (decide (c = d)) as [<-|]; [|done].
      rewrite (at_frame _ _ Hat n ltac:(done)) in Hn. unfold is_active in Hda. rewrite He in Hda. apply bool_decide_eq_true in Hda.
      exfalso. by apply (Hfa ltac:(congruence) n x ltac:(done) Hn Hx). }
  set (es := JsMap.set c (with_state to e) (entries s)) in *.
  apply HQ. destruct (projections_app c (log s) (StateChanged c (state e) to (error e)) es) as (E1 & E2 & E3 & E4 & E5).
  destruct Hat. split; simpl; try done.
  - subst es. by rewrite JsMap.keys_set_hit by (rewrite He; by eexists).
  - intros n Hn. subst es. rewrite JsMap.get_set_ne by done. auto.
  - intros n x Hn Hx. apply at_rest_other; [simpl; congruence|eauto].
  - apply Forall_app. split; [done|]. apply Forall_singleton. split; [done|]. simpl. split; [by rewrite Hst|done].
  - exists (with_state to e), e0. subst es. rewrite JsMap.get_set_eq. by split_and!.
  - rewrite E1, E2. simpl. by rewrite !app_nil_r.
  - rewrite E3, E4. simpl. by rewrite !app_nil_r.
  - rewrite E5, path_app, at_path0. unfold transitions_of. simpl. rewrite bool_decide_true by done. simpl.
    by rewrite bool_decide_true by congruence.
Qed.

Lemma wp_progress f l (Q : outcome thrown unit → _) s : At l s →
  (∀ s', At (set_l_progress (f (l_progress l)) l) s' → Q (Ok tt) s') →
  wp (modify (λ s, set_progress (f (progress s)) s)) Q s.
Proof. intros [] HQ. apply HQ. split; simpl; try done. by f_equal. Qed.

(** The entry at hand. *)
Lemma at_get l s : At l s → ∃ e, JsMap.get c (entries s) = Some e ∧ state e = l_state l ∧ service e = l_service l ∧
  storageCleanup e = l_storage l ∧ pkg e = p.
Proof. intros Hat. destruct (at_entry _ _ Hat) as (e & e0 & He & _ & Hp & Hst & _ & Hsv & Hsc & _). by exists e. Qed.
End logic.
