(* ===== verification/ExtensionSteps.v ===== *)
(** * The operations on an entry, step by step

    What each statement of [extension-start-runner.ts] and [extension-toggle.ts]
    makes of the entry it works on, by the rules of [ExtensionLogic]: an
    operation always ends with the entry settled and, unless it is active,
    without service or storage. *)
From S2P Require Import Prelude TopoSort ExtensionSelection NameSegments Json JsonTree ExtensionEntries ExtensionToggle ExtensionCoordinator ExtensionLogic.

Section steps.
Context {σ : Type} (host : Host σ) (c : string) (p : KernelMakaioExtension) (s0 : coordinator σ).
Notation M := (ST (coordinator σ) thrown).
Notation At := (At c p s0).
Notation needs_met := (needs_met c p s0).
Notation running := (running c p s0).
Implicit Types (s : coordinator σ) (l : local).

(** ** Processors *)
Lemma wp_stop_processor proc l (Q : outcome thrown unit → _) s : At l s →
  (∀ r s', At l s' → Q r s') → wp (stop_processor c proc) Q s.
Proof.
  intros Hat HQ. unfold stop_processor. destruct (processStopped proc) as [stop|]; [|by apply HQ].
  apply (wp_invoke c p s0 _ _ l); [done|done|by left|done].
Qed.

Lemma wp_rollback activated l (Q : outcome thrown unit → _) s : At l s →
  (∀ s', At l s' → Q (Ok tt) s') → wp (rollback c activated) Q s.
Proof.
  revert s. induction activated as [|proc rest IH]; intros s Hat HQ; simpl; [by apply HQ|].
  apply wp_seq, wp_attempt, (wp_stop_processor _ l); [done|]. intros r s' Hat'. by apply IH.
Qed.

Lemma wp_activate_processors procs l (Q : outcome thrown (list (ContributionProcessor σ) * option thrown) → _) s activated :
  At l s → running l → (∀ r s', At l s' → Q (Ok r) s') → wp (activate_processors host c procs activated) Q s.
Proof.
  intros Hat Hn HQ. revert s activated Hat. induction procs as [|proc rest IH]; intros s activated Hat; cbn [activate_processors];
    [by apply HQ|].
  apply wp_seq, wp_gets. destruct (match processor_filter proc with Some _ => _ | None => _ end) as [[|]|]; [|by apply IH|by apply HQ].
  apply wp_seq, wp_gets. destruct (resolveExtensionEntryConfig _ _ _ _) as [config|]; [|by apply HQ].
  destruct (buildExtensionContext _ _ _) as [context|]; [|by apply HQ].
  apply wp_seq, wp_attempt, (wp_invoke c p s0 _ _ l); [done|done|right; split; [done|by eapply code_ok_needs]|].
  intros [u|e] s' Hat'; [by apply IH|by apply HQ].
Qed.

Lemma wp_runActivatedProcessors l (Q : outcome thrown unit → _) s : At l s → running l →
  (∀ r s', At l s' → Q r s') → wp (runActivatedProcessors host c) Q s.
Proof.
  intros Hat Hn HQ. unfold runActivatedProcessors. apply wp_seq, wp_gets, wp_seq, (wp_activate_processors _ l); [done|done|].
  intros [activated [err|]] s' Hat'; cbn [fst snd]; [|by apply HQ]. apply wp_seq, (wp_rollback _ l); [done|]. intros. by apply HQ.
Qed.

Lemma wp_stop_processors procs l (Q : outcome thrown (list thrown) → _) s : At l s →
  (∀ f s', At l s' → Q (Ok f) s') → wp (stop_processors c procs) Q s.
Proof.
  revert Q s. induction procs as [|proc rest IH]; intros Q s Hat HQ; simpl; [by apply HQ|].
  apply wp_seq, wp_attempt, (wp_stop_processor _ l); [done|]. intros r s' Hat'.
  apply wp_seq, IH; [done|]. intros. by apply HQ.
Qed.

(** ** Health, warnings, tray *)
Lemma at_warningActions l a s : At l s → At l (set_warningActions a s).
Proof. by destruct 1. Qed.

(** An assignment that leaves the tracked properties alone. *)
Lemma wp_update_other f l (Q : outcome thrown unit → _) s : At l s →
  (∀ e, pkg (f e) = pkg e ∧ state (f e) = state e ∧ surfacesCollected (f e) = surfacesCollected e ∧ enabled (f e) = enabled e ∧
        service (f e) = service e ∧ storageCleanup (f e) = storageCleanup e) →
  (∀ s', At l s' → Q (Ok tt) s') → wp (update c f) Q s.
Proof.
  intros Hat Hf HQ. apply (wp_update c p s0 f l (l_enabled l) (l_service l) (l_storage l)); [done| |by destruct l].
  intros e. destruct (Hf e) as (-> & -> & -> & -> & -> & ->). by split_and!.
Qed.

Lemma wp_runExtensionHealthCheck l (Q : outcome thrown unit → _) s : At l s →
  (∀ s', At l s' → Q (Ok tt) s') → wp (runExtensionHealthCheck host c) Q s.
Proof.
  intros Hat HQ. unfold runExtensionHealthCheck. apply wp_seq, wp_gets.
  destruct (at_get _ _ _ _ _ Hat) as (e & -> & Hst & _).
  destruct (service e) as [h|]; [|by apply HQ]. destruct (state e) eqn:Ha; try by apply HQ.
  destruct (checkHealth host h) as [check|]; [|by apply HQ].
  apply wp_seq, wp_attempt, (wp_invoke c p s0 _ _ l); [done|done|right; split; [done|by eapply code_ok_active]|].
  intros r s1 Hat1. apply wp_seq, (wp_update_other _ l); [done|done|]. intros s2 Hat2.
  apply wp_seq, wp_attempt, (wp_invoke c p s0 _ _ l); [done|done|by left|]. intros _ s3 Hat3. by apply HQ.
Qed.

Lemma wp_show_warnings i ws l (Q : outcome thrown unit → _) s : At l s →
  (∀ s', At l s' → Q (Ok tt) s') → wp (show_warnings host c i ws) Q s.
Proof.
  revert i s. induction ws as [|w ws IH]; intros i s Hat HQ; cbn [show_warnings]; [by apply HQ|].
  apply wp_seq, wp_attempt, (wp_invoke c p s0 _ _ l); [done|done|by left|]. intros r s1 Hat1.
  apply wp_seq. destruct r; [destruct (warning_action w) as [act|]; [destruct (isRuntimeRoutableWarningAction act)|]|];
    try (apply wp_return; by apply IH).
  unfold wp at 1, modify. apply IH; [by apply at_warningActions|done].
Qed.

Lemma wp_emitWarningsForEntry l (Q : outcome thrown unit → _) s : At l s →
  (∀ s', At l s' → Q (Ok tt) s') → wp (emitWarningsForEntry host c) Q s.
Proof.
  intros Hat HQ. unfold emitWarningsForEntry. apply wp_seq. unfold wp at 1, modify. apply wp_seq, wp_gets.
  by apply (wp_show_warnings _ _ l); [apply at_warningActions|].
Qed.

Lemma wp_registerEntryTray l (Q : outcome thrown unit → _) s : At l s →
  (∀ s', At l s' → Q (Ok tt) s') → wp (registerEntryTray host c) Q s.
Proof.
  intros Hat HQ. unfold registerEntryTray. destruct (tray _); [|by apply HQ].
  apply wp_seq, wp_attempt, (wp_invoke c p s0 _ _ l); [done|done|by left|]. intros _ s1 Hat1. by apply HQ.
Qed.

(** ** Boot progress *)
Definition counted (st : ComponentState) (b : BootProgress) : BootProgress :=
  {| complete := complete b; completedCount := S (completedCount b); totalCount := totalCount b;
     failedServices := failedServices b ++ (if decide (st = Failed) then [c] else []);
     skippedServices := skippedServices b ++ (if decide (st = Skipped) then [c] else []) |}.

Lemma wp_report st (m : M unit) l (Q : outcome thrown unit → _) s : At l s →
  (st, m) ∈ [(Active, progress_ready c); (Failed, progress_failed c); (Skipped, progress_skipped c)] →
  (∀ s', At (set_l_progress (counted st (l_progress l)) l) s' → Q (Ok tt) s') → wp m Q s.
Proof.
  intros Hat Hm HQ. rewrite !elem_of_cons, elem_of_nil in Hm.
  destruct Hm as [[= -> ->]|[[= -> ->]|[[= -> ->]|[]]]]; unfold progress_ready, progress_failed, progress_skipped, bump;
    (apply wp_seq; eapply (wp_progress c p s0 (λ b, {| complete := complete b; completedCount := S (completedCount b);
       totalCount := totalCount b; failedServices := failedServices b ++ _; skippedServices := skippedServices b ++ _ |}));
     [exact Hat|]; intros s1 Hat1;
     apply wp_seq, (wp_announce c p s0 _ _ _ _ Hat1); [done|done|]; intros s2 Hat2;
     apply wp_seq, wp_gets, (wp_announce c p s0 _ _ _ _ Hat2); [done|done|]; intros s3 Hat3; by apply HQ).
Qed.

Lemma wp_failEntry why l (Q : outcome thrown unit → _) s : At l s → legal (l_state l) Failed = true → l_state l ≠ Active →
  (∀ s', At (set_l_progress (counted Failed (l_progress l)) (set_l_state Failed l)) s' → Q (Ok tt) s') →
  wp (failEntry c why) Q s.
Proof.
  intros Hat Hl Hna HQ. unfold failEntry. apply wp_seq, (wp_update_other _ l); [done|done|]. intros s1 Hat1.
  apply wp_seq, (wp_transition c p s0 Failed l); [done|done|done|done|]. intros s2 Hat2.
  by apply (wp_report Failed _ (set_l_state Failed l)); [done|right; left|].
Qed.

(** ** Resources *)
Lemma wp_runStorageCleanup l (Q : outcome thrown unit → _) s : At l s → running l → l_storage l = l_stored l →
  (∀ s', At (Local (l_state l) (l_enabled l) (l_service l) None (l_live l) None (l_progress l)) s' → Q (Ok tt) s') →
  wp (runStorageCleanup host c) Q s.
Proof.
  intros Hat Hn Hl HQ. unfold runStorageCleanup. apply wp_seq, wp_gets.
  destruct (at_get _ _ _ _ _ Hat) as (e & He & _ & _ & Hsc & _). rewrite He. simpl. rewrite Hsc, Hl.
  destruct (l_stored l) as [h|] eqn:Hs.
  - apply wp_seq, wp_attempt, (wp_clean c p s0 h _ l); [done|by eapply code_ok_needs|done|]. intros r s1 Hat1.
    eapply (wp_update c p s0 _ (set_l_stored None l)); [exact Hat1| |exact HQ]. by intros.
  - apply HQ. destruct l; simpl in *; by subst.
Qed.

Lemma wp_destroy_quietly l (Q : outcome thrown unit → _) s : At l s → running l →
  (∀ s', At (set_l_live None l) s' → Q (Ok tt) s') → wp (destroy_quietly host c (l_live l)) Q s.
Proof.
  intros Hat Hn HQ. unfold destroy_quietly. destruct (l_live l) as [h|] eqn:Hl.
  - apply wp_seq, wp_attempt, (wp_destroy c p s0 h _ l); [done|by eapply code_ok_needs|done|]. intros r s1 Hat1. by apply HQ.
  - apply HQ. destruct l; simpl in *; by subst.
Qed.

Lemma wp_create_service make config l (Q : outcome thrown (option nat * outcome thrown unit) → _) s :
  At l s → running l → l_live l = None →
  (∀ h r s', At (set_l_live h l) s' → (h = None → r ≠ Ok tt) → Q (Ok (h, r)) s') → wp (create_service host c make config) Q s.
Proof.
  intros Hat Hn Hl HQ. unfold create_service. apply wp_seq, wp_attempt, wp_seq, wp_lift.
  destruct (buildExtensionContext _ _ _) as [context|err].
  - apply (wp_create c p s0 _ l); [done|by eapply code_ok_needs|done| |].
    + intros e s1 Hat1. apply wp_return, HQ; [|done]. destruct l; simpl in *; by subst.
    + intros h s1 Hat1. apply wp_seq, wp_attempt, (wp_invoke c p s0 _ _ (set_l_live (Some h) l)); [done|done| |].
      * right. split; [done|by eapply code_ok_needs].
      * intros r s2 Hat2. by apply HQ.
  - apply wp_return, HQ; [|done]. destruct l; simpl in *; by subst.
Qed.

(** Registration of storage handlers, shared by start and re-enable. *)
Lemma wp_storage config l (Q : outcome thrown (outcome thrown (option nat)) → _) s register :
  At l s → running l → l_storage l = None → l_stored l = None →
  (∀ e s', At l s' → Q (Ok (Throw e)) s') →
  (∀ h s', At (set_l_stored h l) s' → Q (Ok (Ok h)) s') →
  wp (attempt (let* context := st_lift (buildExtensionContext host c config) in invoke (Registered c) (register context))) Q s.
Proof.
  intros Hat Hn Hl1 Hl2 HT HO. apply wp_attempt, wp_seq, wp_lift. destruct (buildExtensionContext _ _ _); [|by apply HT].
  apply (wp_register c p s0 _ l); [done|by eapply code_ok_needs|done|done|done].
Qed.

Lemma wp_keep_cleanup h l (Q : outcome thrown unit → _) s : At (set_l_stored h l) s → l_storage l = None →
  (∀ s', At (Local (l_state l) (l_enabled l) (l_service l) h (l_live l) h (l_progress l)) s' → Q (Ok tt) s') →
  wp (match h with Some _ => update c (with_storageCleanup h) | None => st_ret tt end) Q s.
Proof.
  intros Hat Hl HQ. destruct h as [h|].
  - eapply (wp_update c p s0 _ (set_l_stored (Some h) l)); [exact Hat| |exact HQ]. by intros.
  - apply HQ. destruct l; simpl in *; by subst.
Qed.

(** ** Starting *)
(** What a start makes of the entry, from the values [l]: it is active with what
    it created, or failed or skipped with nothing, was counted as such, and an
    error came out only for a critical package that failed. *)
Definition start_ends l (r : outcome thrown unit) s : Prop := ∃ st sv sc,
  At (Local st (l_enabled l) sv sc sv sc (counted st (l_progress l))) s ∧
  (st = Active ∨ (st = Failed ∨ st = Skipped) ∧ sv = None ∧ sc = None) ∧
  (r = Ok tt ∨ critical p = true ∧ st = Failed).

(** The values of an entry without resources. *)
Definition bare st (l : local) : local := Local st (l_enabled l) None None None None (l_progress l).

Lemma started_bare st l l' r s : At (set_l_progress (counted st (l_progress l)) (set_l_state st l)) s →
  l = bare (l_state l) l' → st = Failed ∨ st = Skipped → (r = Ok tt ∨ critical p = true ∧ st = Failed) → start_ends l' r s.
Proof. intros Hat Hl Hst Hr. exists st, None, None. rewrite Hl in Hat. split; [exact Hat|]. auto. Qed.

Lemma wp_throw_if e l l' s : At (set_l_progress (counted Failed (l_progress l)) (set_l_state Failed l)) s →
  l = bare (l_state l) l' → wp (throw_if (critical p) e) (start_ends l') s.
Proof.
  intros Hat Hl. unfold throw_if. destruct (critical p) eqn:Hc; apply (started_bare Failed l); try done; auto.
Qed.

Lemma wp_start_failed err l l' s : At l s → l_state l = Initializing → l = bare Initializing l' →
  wp (start_failed c p err) (start_ends l') s.
Proof.
  intros Hat Hst Hl. unfold start_failed, handleServiceSkipError.
  assert (legal (l_state l) Failed = true ∧ legal (l_state l) Skipped = true ∧ l_state l ≠ Active) as (Hf & Hsk & Hna) by by rewrite Hst.
  assert (l = bare (l_state l) l') as Hl' by by rewrite Hst.
  apply wp_seq. destruct err; try (apply wp_return, wp_seq, (wp_failEntry _ l); [done..|]; intros s1 Hat1; by apply (wp_throw_if _ l)).
  destruct (critical p) eqn:Hc.
  - apply wp_seq, (wp_failEntry _ l); [done..|]. intros s1 Hat1. apply wp_throw, (started_bare Failed l); auto.
  - apply wp_seq, (wp_update_other _ l); [done|done|]. intros s1 Hat1.
    apply wp_seq, (wp_transition c p s0 Skipped l); [done..|]. intros s2 Hat2.
    apply wp_seq, (wp_report Skipped _ (set_l_state Skipped l)); [done|do 2 right; left|]. intros s3 Hat3.
    apply wp_return, wp_return, (started_bare Skipped l); auto.
Qed.

Lemma wp_settle_active l s : At l s → l_state l = Initializing → l_live l = l_service l → l_stored l = l_storage l → needs_met →
  wp (settle_active host c) (start_ends l) s.
Proof.
  intros Hat Hst Hl1 Hl2 Hn. unfold settle_active.
  apply wp_seq, (wp_transition c p s0 Active l); [done|by rewrite Hst|done|by rewrite Hst|]. intros s1 Hat1.
  apply wp_seq, (wp_report Active _ (set_l_state Active l)); [done|left|]. intros s2 Hat2.
  eapply wp_registerEntryTray; [exact Hat2|]. intros s3 Hat3. exists Active, (l_service l), (l_storage l).
  split; [|auto]. by rewrite <- Hl1, <- Hl2 at 2.
Qed.

Lemma started_same l l' r s : l_enabled l = l_enabled l' → l_progress l = l_progress l' → start_ends l r s → start_ends l' r s.
Proof. unfold start_ends. by intros -> ->. Qed.

Lemma wp_started_same {m : M unit} {l l' s} : wp m (start_ends l) s → l_enabled l = l_enabled l' → l_progress l = l_progress l' →
  wp m (start_ends l') s.
Proof. intros Hwp He Hp. eapply wp_weaken; [exact Hwp|]. intros r s'. by apply started_same. Qed.

Lemma wp_startEntryWithoutService l s : At l s → l_state l = Initializing → l_service l = None → l_live l = None →
  l_stored l = l_storage l → needs_met → wp (startEntryWithoutService host c p) (start_ends l) s.
Proof.
  intros Hat Hst Hsv Hlv Hsc Hn. unfold startEntryWithoutService.
  apply wp_seq, wp_attempt, (wp_runActivatedProcessors l); [done|done|]. intros [u|err] s1 Hat1.
  - apply wp_settle_active; try done; congruence.
  - apply wp_seq, (wp_runStorageCleanup l); [done|done|done|]. intros s2 Hat2.
    eapply wp_start_failed; [exact Hat2|done|]. unfold bare. simpl. by rewrite Hst, Hsv, Hlv.
Qed.

Lemma wp_startEntryWithService make config l s : At l s → l_state l = Initializing → l_service l = None → l_live l = None →
  l_stored l = l_storage l → needs_met → wp (startEntryWithService host c p make config) (start_ends l) s.
Proof.
  intros Hat Hst Hsv Hlv Hsc Hn. unfold startEntryWithService.
  apply wp_seq, (wp_create_service _ _ l); [done..|]. intros h r s1 Hat1 Hh. cbn [fst snd].
  apply wp_seq. assert (∀ err s sv, At (Local Initializing (l_enabled l) sv (l_storage l) h (l_storage l) (l_progress l)) s →
    wp (let* _ := destroy_quietly host c h in let* _ := update c (with_service None) in
        let* _ := runStorageCleanup host c in start_failed c p err) (start_ends l) s) as Herr.
  { intros err s2 sv Hat2. apply wp_seq.
    change h with (l_live (Local Initializing (l_enabled l) sv (l_storage l) h (l_storage l) (l_progress l))).
    eapply wp_destroy_quietly; [exact Hat2|done|]. intros s3 Hat3. apply wp_seq.
    eapply (wp_update c p s0 _ _ (l_enabled l) None (l_storage l)); [exact Hat3|by intros|]. intros s4 Hat4.
    apply wp_seq. eapply wp_runStorageCleanup; [exact Hat4|done|done|]. intros s5 Hat5.
    by eapply wp_start_failed; [exact Hat5|..]. }
  assert (At (Local Initializing (l_enabled l) (l_service l) (l_storage l) h (l_storage l) (l_progress l)) s1) as Hat1'.
  { clear -Hat1 Hst Hsc. destruct l; simpl in *; by subst. }
  destruct r as [u|err]; [|by eapply Herr].
  destruct h as [h|]; [|by destruct u; destruct Hh].
  apply wp_seq. eapply (wp_update c p s0 _ _ (l_enabled l) (Some h) (l_storage l)); [exact Hat1'|by intros|]. intros s2 Hat2.
  apply wp_attempt. eapply wp_runActivatedProcessors; [exact Hat2|done|]. intros [u'|err] s3 Hat3; [|by eapply Herr].
  refine (wp_started_same (wp_settle_active _ _ Hat3 _ _ _ _) _ _); done.
Qed.
Lemma filter_nil {A} (f : A → bool) (xs : list A) : List.filter f xs = [] → ∀ x, x ∈ xs → f x = false.
Proof.
  induction xs as [|y xs IH]; simpl; [by intros _ x Hx%elem_of_nil|]. destruct (f y) eqn:Hy; [done|].
  intros Hf x [->|Hx]%elem_of_cons; [done|auto].
Qed.

Lemma needs_met_intro l s : At l s → l_state l ≠ Active → inactive_dependencies (entries s) p = [] → needs_met.
Proof.
  intros Hat Hna Hin d Hd. pose proof (filter_nil _ _ Hin d Hd) as Ha. apply negb_false_iff in Ha.
  assert (d ≠ c) as Hdc. { intros ->. destruct (at_get _ _ _ _ _ Hat) as (e & He & Hst & _).
    unfold is_active in Ha. rewrite He in Ha. apply bool_decide_eq_true in Ha. congruence. }
  split; [done|]. unfold is_active in *. by rewrite <- (at_frame _ _ _ _ _ Hat).
Qed.

Lemma wp_failed_start why e l s : At l s → legal (l_state l) Failed = true → l_state l ≠ Active → l = bare (l_state l) l →
  wp (let* _ := failEntry c why in throw_if (critical p) e) (start_ends l) s.
Proof.
  intros Hat Hlg Hna Hl. apply wp_seq, (wp_failEntry _ l); [done..|]. intros s1 Hat1. by apply (wp_throw_if _ l).
Qed.

Lemma wp_registerEntryStorage config l (Q : outcome thrown bool → _) s : At l s → l_state l = Initializing →
  l = bare Initializing l → needs_met →
  (∀ h s', At (Local Initializing (l_enabled l) None h None h (l_progress l)) s' → Q (Ok true) s') →
  (∀ s', start_ends l (Ok tt) s' → Q (Ok false) s') → (∀ e s', start_ends l (Throw e) s' → Q (Throw e) s') →
  wp (registerEntryStorage host c p config) Q s.
Proof.
  intros Hat Hst Hl Hn Hok Hfail Hthrow. unfold registerEntryStorage.
  assert (Q (Ok true) s) as Hnone by by apply (Hok None); rewrite Hl in Hat.
  destruct (registerHandlers (code host c)) as [register|]; [|done]. destruct (db host); [|done].
  apply wp_seq, (wp_storage config l); [done|done|by rewrite Hl|by rewrite Hl| |].
  - intros err s1 Hat1. eapply (wp_weaken (let* _ := _ in let* _ := _ in st_ret false)).
    + apply wp_seq, (wp_failEntry _ l); [done|by rewrite Hst|by rewrite Hst|]. intros s2 Hat2. apply wp_seq.
      eapply wp_weaken; [eapply (wp_throw_if err l l); [exact Hat2|by rewrite Hst]|].
      intros [[]|e] s3 H3; [by apply wp_return, Hfail|by apply Hthrow].
    + done.
  - intros h s1 Hat1. apply wp_seq. eapply wp_keep_cleanup; [exact Hat1|by rewrite Hl|]. intros s2 Hat2.
    apply wp_return, (Hok h). rewrite Hst, Hl in Hat2. exact Hat2.
Qed.

(** A disabled entry is skipped. *)
Lemma wp_start_disabled e l (Q : outcome thrown unit → _) s : At l s → l_state l = Discovered → enabled e = false →
  (∀ s', At (set_l_progress (counted Skipped (l_progress l)) (set_l_state Skipped l)) s' → Q (Ok tt) s') →
  wp (startExtensionEntry host c e) Q s.
Proof.
  intros Hat Hst He HQ. unfold startExtensionEntry. rewrite He. simpl.
  apply wp_seq, (wp_transition c p s0 Skipped l); [done|by rewrite Hst|done|by rewrite Hst|]. intros s1 Hat1.
  eapply (wp_report Skipped _ (set_l_state Skipped l)); [done|do 2 right; left|]. exact HQ.
Qed.

Lemma wp_startExtensionEntry e l s : At l s → JsMap.get c (entries s) = Some e → l = bare Discovered l →
  wp (startExtensionEntry host c e) (start_ends l) s.
Proof.
  intros Hat He Hl. destruct (enabled e) eqn:Hen.
  2: { apply (wp_start_disabled e l); [done|by rewrite Hl|done|]. intros s1 Hat1. apply (started_bare Skipped l); auto. by rewrite Hl. }
  unfold startExtensionEntry. rewrite Hen. cbn [negb].
  assert (pkg e = p ∧ l_state l = Discovered) as [-> Hst]. { destruct (at_get _ _ _ _ _ Hat) as (e' & He' & _ & _ & _ & Hp).
    split; [congruence|by rewrite Hl]. }
  assert (legal (l_state l) Failed = true ∧ l_state l ≠ Active ∧ l = bare (l_state l) l) as (Hlf & Hna & Hb) by by rewrite Hst.
  apply wp_seq, wp_gets. destruct (inactive_dependencies (entries s) p) as [|d ds] eqn:Hin; [|by apply wp_failed_start].
  assert needs_met as Hn by by eapply needs_met_intro.
  destruct (checkExtensionNameAddressable c); [by apply wp_failed_start|].
  apply wp_seq, (wp_announce c p s0 _ l); [done..|]. intros s1 Hat1.
  apply wp_seq, (wp_transition c p s0 Initializing l); [done|by rewrite Hst|done|done|]. intros s2 Hat2.
  destruct (resolveExtensionEntryConfig _ _ _ _) as [config|err].
  - apply wp_seq. eapply wp_registerEntryStorage; [exact Hat2|done|by rewrite Hl|done| | |].
    + intros h s3 Hat3. cbn [negb]. destruct (create (code host c)) as [make|].
      * by refine (wp_started_same (wp_startEntryWithService _ _ _ _ Hat3 _ _ _ _ _) _ _).
      * by refine (wp_started_same (wp_startEntryWithoutService _ _ Hat3 _ _ _ _ _) _ _).
    + intros s3 H3. apply wp_return. by eapply started_same; [..|exact H3].
    + intros err s3 H3. by eapply started_same; [..|exact H3].
  - refine (wp_started_same (wp_failed_start _ _ _ _ Hat2 _ _ _) _ _); try done. by rewrite Hl.
Qed.
(** ** Transitions *)
(** What a transition makes of the entry [e] towards [want]: it never throws,
    answers whether the entry is where it was wanted, and leaves it settled. *)
Definition toggled (e : ExtensionEntry) (want : bool) (pr : BootProgress) (r : outcome thrown bool) s : Prop := ∃ st en sv sc,
  At (Local st en sv sc sv sc pr) s ∧
  r = Ok (bool_decide (bool_decide (st = Active) = want)) ∧
  st ≠ Initializing ∧ (st ≠ Active → sv = None ∧ sc = None) ∧
  (bootable e ∨ (en = enabled e ∨ en = false) ∧ st = state e).

Lemma wp_refused st why e l (Q : outcome thrown bool → _) s : At l s → legal (l_state l) st = true → l_state l ≠ Active →
  l = bare (l_state l) l → bootable e → st = Failed ∨ st = Skipped →
  (∀ s', toggled e true (l_progress l) (Ok false) s' → Q (Ok false) s') →
  wp (let* _ := update c (with_error why) in let* _ := transitionPackageEntry c st in st_ret false) Q s.
Proof.
  intros Hat Hlg Hna Hl Hb Hst HQ. apply wp_seq, (wp_update_other _ l); [done|done|]. intros s1 Hat1.
  apply wp_seq, (wp_transition c p s0 st l); [done|done|by destruct Hst as [-> | ->]|done|]. intros s2 Hat2.
  apply wp_return, HQ. exists st, (l_enabled l), None, None. rewrite Hl in Hat2. split; [exact Hat2|].
  by destruct Hst as [-> | ->]; split_and!; auto.
Qed.

Lemma wp_cleanupFailedEnable l (Q : outcome thrown unit → _) s : At l s → running l →
  (∀ s', At (Local (l_state l) (l_enabled l) (l_service l) None None None (l_progress l)) s' → Q (Ok tt) s') →
  wp (cleanupFailedEnable host c (l_live l) (l_stored l)) Q s.
Proof.
  intros Hat Hn HQ. unfold cleanupFailedEnable. apply wp_seq, (wp_destroy_quietly l); [done|done|]. intros s1 Hat1.
  apply wp_seq.
  assert (∀ s, At (Local (l_state l) (l_enabled l) (l_service l) (l_storage l) None None (l_progress l)) s →
    wp (update c (with_storageCleanup None)) Q s) as Hup.
  { intros s2 Hat2. eapply (wp_update c p s0 _ _ (l_enabled l) (l_service l) None); [exact Hat2|by intros|exact HQ]. }
  destruct (l_stored l) as [h|] eqn:Hh.
  - apply wp_seq, wp_attempt, (wp_clean c p s0 h _ (set_l_live None l)); [done|by eapply code_ok_needs|done|].
    intros r s2 Hat2. by apply wp_return, Hup.
  - apply wp_return, Hup. clear -Hat1 Hh. destruct l; simpl in *; by subst.
Qed.

Lemma wp_reregister_storage config e l (Q : outcome thrown (option (option nat)) → _) s : At l s → l = bare Initializing l →
  bootable e → needs_met →
  (∀ h s', At (Local Initializing (l_enabled l) None h None h (l_progress l)) s' → Q (Ok (Some h)) s') →
  (∀ s', toggled e true (l_progress l) (Ok false) s' → Q (Ok None) s') →
  wp (reregister_storage host c config) Q s.
Proof.
  intros Hat Hl Hb Hn Hok Hfail. unfold reregister_storage. assert (l_state l = Initializing) as Hst by by rewrite Hl.
  assert (Q (Ok (Some None)) s) as Hnone by by apply Hok; rewrite Hl in Hat.
  destruct (registerHandlers (code host c)) as [register|]; [|done]. destruct (db host); [|done].
  apply wp_seq, (wp_storage config l); [done|done|by rewrite Hl|by rewrite Hl| |].
  - intros err s1 Hat1. apply wp_seq, (wp_update_other _ l); [done|done|]. intros s2 Hat2.
    apply wp_seq, (wp_transition c p s0 Failed l); [done|by rewrite Hst|done|by rewrite Hst|]. intros s3 Hat3.
    apply wp_return, Hfail. exists Failed, (l_enabled l), None, None. rewrite Hl in Hat3. split; [exact Hat3|]. by split_and!; auto.
  - intros h s1 Hat1. apply wp_seq. eapply wp_keep_cleanup; [exact Hat1|by rewrite Hl|]. intros s2 Hat2.
    apply wp_return, Hok. rewrite Hl in Hat2. exact Hat2.
Qed.

Lemma wp_reinitializeService config e h en pr (Q : outcome thrown bool → _) s :
  At (Local Initializing en None h None h pr) s → bootable e → needs_met →
  (∀ sv s', At (Local Initializing en sv h sv h pr) s' → Q (Ok true) s') →
  (∀ s', toggled e true pr (Ok false) s' → Q (Ok false) s') →
  wp (reinitializeService host c p config h) Q s.
Proof.
  intros Hat Hb Hn Hok Hfail. unfold reinitializeService. destruct (create (code host c)) as [make|]; [|by apply wp_return, (Hok None)].
  apply wp_seq. eapply wp_create_service; [exact Hat|done|done|]. intros sv r s1 Hat1 Hsv. cbn [fst snd].
  destruct r as [[]|err].
  - destruct sv as [sv|]; [|by destruct Hsv]. apply wp_seq.
    eapply (wp_update c p s0 _ _ en (Some sv) h); [exact Hat1|by intros|]. intros s2 Hat2. by eapply wp_return, Hok.
  - apply wp_seq. eapply (wp_cleanupFailedEnable (Local Initializing en None h sv h pr)); [exact Hat1|done|]. intros s2 Hat2.
    assert (∀ st why, st = Failed ∨ st = Skipped →
      wp (let* _ := update c (with_error why) in let* _ := transitionPackageEntry c st in st_ret false) Q s2) as Href.
    { intros st why Hst. eapply (wp_refused st why e); [exact Hat2|by destruct Hst as [-> | ->]|done..]. }
    destruct err; try destruct (negb (critical p)); auto.
Qed.

Lemma wp_activate_entry config e en pr (Q : outcome thrown bool → _) s :
  At (Local Initializing en None None None None pr) s → bootable e → needs_met →
  (∀ b s', toggled e true pr (Ok b) s' → Q (Ok b) s') → wp (activate_entry host c p config) Q s.
Proof.
  intros Hat Hb Hn HQ. unfold activate_entry. apply wp_seq. eapply (wp_reregister_storage config e); [exact Hat|done..| |].
  2: { intros s1 H1. by apply wp_return, HQ. }
  intros h s1 Hat1. apply wp_seq. eapply (wp_reinitializeService config e); [exact Hat1|done..| |].
  2: { intros s2 H2. by apply wp_return, HQ. }
  intros sv s2 Hat2. cbn [negb]. apply wp_seq, wp_attempt. eapply wp_runActivatedProcessors; [exact Hat2|done|].
  intros [u|err] s3 Hat3.
  - apply wp_seq. eapply (wp_transition c p s0 Active); [exact Hat3|done|done|done|]. intros s4 Hat4.
    apply wp_seq. eapply wp_registerEntryTray; [exact Hat4|]. intros s5 Hat5.
    apply wp_seq. eapply wp_runExtensionHealthCheck; [exact Hat5|]. intros s6 Hat6.
    apply wp_seq. eapply wp_emitWarningsForEntry; [exact Hat6|]. intros s7 Hat7.
    apply wp_return, HQ. exists Active, en, sv, h. split; [exact Hat7|]. by split_and!; auto.
  - apply wp_seq, wp_gets. destruct (at_get _ _ _ _ _ Hat3) as (x & Hx & _ & Hsv & _). rewrite Hx. simpl. rewrite Hsv.
    apply wp_seq. eapply (wp_cleanupFailedEnable (Local Initializing en sv h sv h pr)); [exact Hat3|done|]. intros s4 Hat4.
    apply wp_seq. eapply (wp_update c p s0 _ _ en None None); [exact Hat4|by intros|]. intros s5 Hat5.
    eapply (wp_refused Failed _ e); [exact Hat5|done..|by left|by apply HQ].
Qed.

(** The values of a settled entry. *)
Definition values (e : ExtensionEntry) pr : local :=
  Local (state e) (enabled e) (service e) (storageCleanup e) (service e) (storageCleanup e) pr.
Definition settled (e : ExtensionEntry) : Prop :=
  state e ≠ Initializing ∧ (state e ≠ Active → service e = None ∧ storageCleanup e = None).

Lemma toggled_same e want pr s : settled e → At (values e pr) s → pkg e = p →
  toggled e want pr (Ok (bool_decide (bool_decide (state e = Active) = want))) s.
Proof. intros [H1 H2] Hat. exists (state e), (enabled e), (service e), (storageCleanup e). by split_and!; auto. Qed.

Lemma wp_enableExtension e pr s : At (values e pr) s → pkg e = p → settled e →
  wp (enableExtension host c e) (toggled e true pr) s.
Proof.
  intros Hat Hp Hs. pose proof (toggled_same e true pr) as Hsame. pose proof Hs as [Hni Hidle].
  unfold enableExtension. destruct (decide (state e = Active)) as [Hst|Hna].
  { rewrite Hst. apply wp_seq. eapply (wp_update c p s0 _ _ true (service e) (storageCleanup e)); [exact Hat|by intros|].
    intros s1 Hat1. apply wp_return. exists Active, true, (service e), (storageCleanup e). simpl in Hat1. rewrite Hst in Hat1.
    split; [exact Hat1|]. split_and!; try done. left. right. right. by rewrite Hst. }
  destruct (Hidle Hna) as [Hsv Hsc].
  destruct (decide (state e = Discovered)) as [Hst|Hnd].
  { specialize (Hsame s Hs Hat Hp). rewrite Hst in *. by apply Hsame. }
  assert (legal (state e) Failed = true ∧ legal (state e) Initializing = true) as [Hlf Hli] by by destruct (state e).
  assert (l_state (values e pr) = state e ∧ values e pr = bare (state e) (values e pr)) as [Hvs Hvb].
  { unfold values, bare. simpl. by rewrite Hsv, Hsc. }
  destruct (bool_decide (state e = Skipped) && negb (surfacesCollected e)) eqn:Hg.
  { apply andb_prop in Hg as [Hg%bool_decide_eq_true _]. rewrite Hg.
    apply wp_seq, (wp_update_other _ (values e pr)); [done|done|]. intros s1 Hat1. specialize (Hsame s1 Hs Hat1 Hp).
    rewrite Hg in Hsame. by apply wp_return. }
  assert (bootable e) as Hb.
  { destruct (decide (state e = Skipped)) as [Hk|]; [|by right; right]. rewrite bool_decide_true in Hg by done.
    right. left. by apply negb_false_iff. }
  cut (∀ why s', At (values e pr) s' → wp (failReEnable c why) (toggled e true pr) s').
  2: { intros why s' Hat'. eapply (wp_refused Failed _ e (values e pr)); [exact Hat'|by rewrite Hvs..|done|by left|done]. }
  intros Href. destruct (state e) eqn:Hst; try done.
  all: apply wp_seq, wp_gets; rewrite Hp; destruct (inactive_dependencies (entries s) p) as [|d ds] eqn:Hin; [|by apply Href].
  all: assert needs_met as Hn by (eapply needs_met_intro; [exact Hat|by rewrite Hvs|done]).
  all: destruct (checkExtensionNameAddressable c); [by apply Href|].
  all: apply wp_seq; eapply (wp_update c p s0 _ _ true None None); [exact Hat|intros x; simpl; rewrite Hsv, Hsc; by split_and!|];
    intros s1 Hat1; rewrite Hvb in Hat1.
  all: apply wp_seq; eapply wp_update_other; [exact Hat1|done|]; intros s2 Hat2.
  all: apply wp_seq; eapply (wp_transition c p s0 Initializing); [exact Hat2|done..|];
    intros s3 Hat3.
  all: destruct (resolveExtensionEntryConfig _ _ _ _);
    [eapply (wp_activate_entry _ e true pr); [exact Hat3|done|done|done]
    |eapply (wp_refused Failed _ e); [exact Hat3|done..|by left|done]].
Qed.
(** *** Giving resources back *)
Lemma wp_destroy_service l (Q : outcome thrown (list thrown) → _) s : At l s → l_live l = l_service l →
  (l_service l ≠ None → l_state l = Active) →
  (∀ f s', At (Local (l_state l) (l_enabled l) None (l_storage l) None (l_stored l) (l_progress l)) s' → Q (Ok f) s') →
  wp (destroy_service host c) Q s.
Proof.
  intros Hat Hl Ha HQ. unfold destroy_service. apply wp_seq, wp_gets.
  destruct (at_get _ _ _ _ _ Hat) as (e & He & _ & Hsv & _). rewrite He. simpl. rewrite Hsv.
  destruct (l_service l) as [h|] eqn:Hh.
  - apply wp_seq, wp_attempt, (wp_destroy c p s0 h _ l); [done|by eapply code_ok_active; [|apply Ha]|done|]. intros r s1 Hat1.
    apply wp_seq. eapply (wp_update c p s0 _ _ (l_enabled l) None (l_storage l)); [exact Hat1|by intros|]. intros s2 Hat2.
    by apply wp_return, HQ.
  - apply wp_return, HQ. destruct l; simpl in *; by subst.
Qed.

Lemma wp_clean_storage l (Q : outcome thrown (list thrown) → _) s : At l s → l_stored l = l_storage l →
  (l_storage l ≠ None → l_state l = Active) →
  (∀ f s', At (Local (l_state l) (l_enabled l) (l_service l) None (l_live l) None (l_progress l)) s' → Q (Ok f) s') →
  wp (clean_storage host c) Q s.
Proof.
  intros Hat Hl Ha HQ. unfold clean_storage. apply wp_seq, wp_gets.
  destruct (at_get _ _ _ _ _ Hat) as (e & He & _ & _ & Hsc & _). rewrite He. simpl. rewrite Hsc.
  destruct (l_storage l) as [h|] eqn:Hh.
  - apply wp_seq, wp_attempt, (wp_clean c p s0 h _ l); [done|by eapply code_ok_active; [|apply Ha]|done|]. intros r s1 Hat1.
    apply wp_seq. eapply (wp_update c p s0 _ _ (l_enabled l) (l_service l) None); [exact Hat1|by intros|]. intros s2 Hat2.
    by apply wp_return, HQ.
  - apply wp_return, HQ. destruct l; simpl in *; by subst.
Qed.

Lemma wp_runStoppedProcessors l (Q : outcome thrown (list thrown) → _) s : At l s →
  (∀ f s', At l s' → Q (Ok f) s') → wp (runStoppedProcessors c) Q s.
Proof. intros Hat HQ. apply wp_seq, wp_gets. by apply (wp_stop_processors _ l). Qed.

Lemma wp_unregisterEntryTray l (Q : outcome thrown (list thrown) → _) s : At l s →
  (∀ f s', At l s' → Q (Ok f) s') → wp (unregisterEntryTray host c) Q s.
Proof.
  intros Hat HQ. unfold unregisterEntryTray. destruct (tray _); [|by apply HQ].
  apply wp_seq, wp_attempt, (wp_invoke c p s0 _ _ l); [done|done|by left|]. intros r s1 Hat1. by apply wp_return, HQ.
Qed.

Lemma wp_tear_down en sv sc pr (Q : outcome thrown unit → _) s : At (Local Active en sv sc sv sc pr) s → no_dependents c s0 →
  (∀ s', At (Local Stopped false None None None None pr) s' → Q (Ok tt) s') → wp (tear_down host c) Q s.
Proof.
  intros Hat Hnd HQ. unfold tear_down.
  apply wp_seq. eapply (wp_update c p s0 _ _ false sv sc); [exact Hat|by intros|]. intros s1 Hat1.
  apply wp_seq. eapply wp_update_other; [exact Hat1|done|]. intros s2 Hat2.
  apply wp_seq. eapply wp_runStoppedProcessors; [exact Hat2|]. intros f1 s3 Hat3.
  apply wp_seq. eapply wp_destroy_service; [exact Hat3|done..|]. intros f2 s4 Hat4.
  apply wp_seq. eapply wp_clean_storage; [exact Hat4|done..|]. intros f3 s5 Hat5.
  apply wp_seq. eapply wp_unregisterEntryTray; [exact Hat5|]. intros f4 s6 Hat6.
  apply wp_seq. eapply (wp_weaken _ (λ r s, r = Ok tt ∧ At (Local Active false None None None None pr) s)).
  { destruct (f1 ++ f2 ++ f3 ++ f4); [by split|]. by eapply wp_update_other; [exact Hat6|..]. }
  intros [[]|] s7 [Hr Hat7]; [|done].
  apply wp_seq. eapply (wp_transition c p s0 Stopped); [exact Hat7|done..|]. intros s8 Hat8.
  apply wp_seq. eapply wp_update_other; [exact Hat8|done|]. intros s9 Hat9.
  apply wp_seq, wp_attempt. eapply wp_invoke; [exact Hat9|done|by left|]. intros r s10 Hat10. by apply wp_return, HQ.
Qed.

Lemma active_dependents_nil : active_dependents (entries s0) c = [] → no_dependents c s0.
Proof.
  intros Hd%map_eq_nil n e Hn He Ha Hin. pose proof (filter_nil _ _ Hd (n, e) (JsMap.get_elem _ _ _ He)) as Hf. simpl in Hf.
  rewrite bool_decide_false, !bool_decide_true in Hf by done. done.
Qed.

Lemma wp_disableExtension e pr : At (values e pr) s0 → pkg e = p → settled e →
  wp (disableExtension host c e) (toggled e false pr) s0.
Proof.
  intros Hat Hp Hs. pose proof (toggled_same e false pr) as Hsame. pose proof Hs as [Hni Hidle].
  unfold disableExtension. destruct (decide (state e = Active)) as [Hst|Hna].
  - rewrite Hst. apply wp_seq, wp_gets. destruct (active_dependents (entries s0) c) as [|d ds] eqn:Hd.
    + apply wp_seq. eapply wp_tear_down; [unfold values in Hat; rewrite Hst in Hat; exact Hat|by apply active_dependents_nil|].
      intros s1 Hat1. apply wp_return. exists Stopped, false, None, None. split; [exact Hat1|]. split_and!; try done.
      left. right. right. by rewrite Hst.
    + apply wp_seq. eapply wp_update_other; [exact Hat|done|]. intros s1 Hat1. specialize (Hsame s1 Hs Hat1 Hp).
      rewrite Hst in Hsame. by apply wp_return.
  - assert (wp (let* _ := update c (with_enabled false) in st_ret true) (toggled e false pr) s0) as Hoff.
    { apply wp_seq. eapply (wp_update c p s0 _ _ false (service e) (storageCleanup e)); [exact Hat|by intros|].
      intros s1 Hat1. apply wp_return. exists (state e), false, (service e), (storageCleanup e).
      split; [exact Hat1|]. rewrite (bool_decide_false (state e = Active)) by done. split_and!; auto. }
    by destruct (state e).
Qed.

(** *** Shutdown *)
Lemma wp_shutdown_entry e pr (Q : outcome thrown (list thrown) → _) : At (values e pr) s0 → settled e → no_dependents c s0 →
  (∀ f st s', At (Local st (enabled e) None None None None pr) s' → st ≠ Active → st ≠ Initializing →
     (st = state e ∨ bootable e) → Q (Ok f) s') →
  wp (shutdown_entry host c) Q s0.
Proof.
  intros Hat [Hni Hidle] Hnd HQ. unfold shutdown_entry. apply wp_seq, wp_gets.
  destruct (at_get _ _ _ _ _ Hat) as (e' & -> & Hst & _). simpl in Hst. rewrite Hst.
  apply wp_seq. eapply (wp_weaken _ (λ r s, ∃ f, r = Ok f ∧ At (values e pr) s)).
  { destruct (decide (state e = Active)); [|by exists []]. eapply wp_runStoppedProcessors; [exact Hat|]. intros f s' H'. by exists f. }
  intros r s1 (f1 & -> & Hat1).
  assert ((service e ≠ None → state e = Active) ∧ (storageCleanup e ≠ None → state e = Active)) as [Ha1 Ha2].
  { destruct (decide (state e = Active)) as [|Hna]; [done|]. by destruct (Hidle Hna) as [-> ->]. }
  apply wp_seq. eapply wp_destroy_service; [exact Hat1|done|done|]. intros f2 s2 Hat2.
  apply wp_seq. eapply wp_clean_storage; [exact Hat2|done|done|]. intros f3 s3 Hat3.
  apply wp_seq. destruct (decide (state e = Active)) as [Ha|Hna].
  - eapply (wp_transition c p s0 Stopped); [exact Hat3|simpl; by rewrite Ha|done|done|]. intros s4 Hat4.
    eapply wp_return, HQ; [exact Hat4|done|done|]. right. right. right. by rewrite Ha.
  - apply wp_return, wp_return. eapply HQ; [exact Hat3|done|done|by left].
Qed.
End steps.
