(* ===== verification/ExtensionSafety.v ===== *)
(** * What the extension coordinator guarantees

    The invariant of the coordinator is kept by every operation of its lane, and
    holds of every state it reaches; the theorems read it off. *)
From S2P Require Import Prelude TopoSort ExtensionSelection NameSegments Json JsonTree ExtensionEntries ExtensionToggle ExtensionCoordinator ExtensionLogic ExtensionSteps.

Section safety.
Context {σ : Type} (host : Host σ).
Notation M := (ST (coordinator σ) thrown).
Notation Inv := (Inv (σ := σ)).
Implicit Types (s : coordinator σ).

(** ** Between operations and in one *)
Lemma inv_at s c e : Inv s → JsMap.get c (entries s) = Some e → At c (pkg e) s (values e (progress s)) s.
Proof.
  intros Hi He. destruct (inv_rest _ Hi c e He). destruct Hi. split; try done; [by eauto|].
  exists e, e. by split_and!.
Qed.

Lemma inv_settled s c e : Inv s → JsMap.get c (entries s) = Some e → settled e.
Proof. intros Hi He. by destruct (inv_rest _ Hi c e He). Qed.

Lemma at_inv s0 c e st en sv sc pr s : Inv s0 → JsMap.get c (entries s0) = Some e →
  At c (pkg e) s0 (Local st en sv sc sv sc pr) s → st ≠ Initializing → (st ≠ Active → sv = None ∧ sc = None) →
  (bootable e ∨ (en = enabled e ∨ en = false) ∧ (st = state e ∨ st = Skipped)) → Inv s.
Proof.
  intros Hi He Hat Hni Hidle Hb. destruct Hat as [Hk Ho Hf Hr Hd Hl (e' & e0 & He' & He0 & Hp & Hst & Hen & Hsv & Hsc & Hsf) Hc Hg Hpa _].
  rewrite He in He0. injection He0 as <-. simpl in *. destruct Hi as [Hnd Hkeys _ Hord _ _]. split.
  - by rewrite Ho.
  - by rewrite Hk, Ho.
  - done.
  - intros n x Hn Hbx. rewrite Ho. destruct (decide (n = c)) as [->|Hnc]; [|rewrite Hf in Hn by done; by apply (Hord n x)].
    rewrite He' in Hn. injection Hn as <-. rewrite Hp. apply (Hord c e He).
    destruct Hb as [|[Hen' Hst']]; [done|]. unfold bootable in *. rewrite Hen, Hst, Hsf in Hbx.
    destruct Hbx as [->|[Hx|[Hx Hy]]]; [left; by destruct Hen'|by right; left|]. destruct Hst' as [->|]; [by right; right|done].
  - intros n x Hn. destruct (decide (n = c)) as [->|Hnc]; [|rewrite Hf in Hn by done; by eapply Hr].
    rewrite He' in Hn. injection Hn as <-. split; rewrite ?Hst, ?Hsv, ?Hsc; done.
  - done.
Qed.

(** What one operation on [c] leaves alone. *)
Record only (c : string) (s s' : coordinator σ) : Prop := {
  only_order : loadOrder s' = loadOrder s;
  only_frame : ∀ n, n ≠ c → JsMap.get n (entries s') = JsMap.get n (entries s);
  only_entry : ∀ e, JsMap.get c (entries s) = Some e → ∃ e', JsMap.get c (entries s') = Some e' ∧ pkg e' = pkg e ∧ surfacesCollected e' = surfacesCollected e;
}.

Lemma at_only c e s0 l s : JsMap.get c (entries s0) = Some e → At c (pkg e) s0 l s → only c s0 s.
Proof.
  intros He Hat. split; [apply Hat|apply Hat|]. intros e0 He0. destruct (at_entry _ _ _ _ _ Hat) as (e' & e1 & H1 & H2 & H3 & H4).
  exists e'. rewrite He in He0. injection He0 as <-. split_and!; [done|done|]. destruct H4 as (_ & _ & _ & _ & H4). congruence.
Qed.

(** *** Starting *)
Lemma wp_start s c e : Inv s → JsMap.get c (entries s) = Some e → state e = Discovered →
  wp (startExtensionEntry host c e) (λ r s', Inv s' ∧ only c s s' ∧ ∃ e', JsMap.get c (entries s') = Some e' ∧
    progress s' = counted c (state e') (progress s) ∧ (state e' = Active ∨ state e' = Failed ∨ state e' = Skipped) ∧
    (r = Ok tt ∨ critical (pkg e') = true ∧ state e' = Failed)) s.
Proof.
  intros Hi He Hst. pose proof (inv_at s c e Hi He) as Hat. destruct (inv_settled s c e Hi He) as [_ Hidle].
  destruct Hidle as [Hsv Hsc]; [by rewrite Hst|].
  assert (values e (progress s) = bare Discovered (values e (progress s))) as Hl by (unfold values, bare; simpl; by rewrite Hst, Hsv, Hsc).
  destruct (enabled e) eqn:Hen.
  - eapply wp_weaken; [eapply (wp_startExtensionEntry host c (pkg e) s e); [exact Hat|done|done]|].
    intros r s' (st & sv & sc & Hat' & Hres & Hr). split_and!.
    + eapply at_inv; [done|done|exact Hat'|by destruct Hres as [-> |[[-> | ->] _]]|by destruct Hres as [-> |[_ [-> ->]]]|].
      left. by left.
    + by eapply at_only.
    + destruct (at_get _ _ _ _ _ Hat') as (e' & He' & Hst' & _ & _ & Hp). exists e'. rewrite Hst', Hp. simpl.
      rewrite (at_progress _ _ _ _ _ Hat'). split_and!; [done|done|tauto|done].
  - eapply (wp_start_disabled host c (pkg e) s e); [exact Hat|done|done|]. intros s' Hat'. rewrite Hl in Hat'. split_and!.
    + eapply at_inv; [done|done|exact Hat'|done|done|]. right. split; [by left|by right].
    + by eapply at_only.
    + destruct (at_get _ _ _ _ _ Hat') as (e' & He' & Hst' & _ & _ & Hp). exists e'. rewrite Hst'. simpl.
      rewrite (at_progress _ _ _ _ _ Hat'). split_and!; auto.
Qed.
(** *** Transitions *)
Lemma inv_logged ev s : Inv s → subject ev = None → runs_code ev = None → Inv (logged ev s).
Proof.
  intros [] Hs Hr. split; try done; simpl.
  - intros n e He. apply at_rest_other; [by rewrite Hs|]. by apply inv_rest.
  - apply Forall_app. split; [done|]. apply Forall_singleton. split; [done|]. simpl. rewrite Hr. by destruct ev.
Qed.

(** Whether an entry stands where a transition wants it. *)
Definition stands (es : entries_map) (c : string) (b : bool) : bool :=
  match JsMap.get c es with Some e => bool_decide (bool_decide (state e = Active) = b) | None => false end.

Lemma wp_applyExtensionTransition s c b : Inv s →
  wp (applyExtensionTransition host c b) (λ r s', Inv s' ∧ only c s s' ∧ progress s' = progress s ∧
    r = Ok (stands (entries s') c b) ∧ (stands (entries s') c b = true → ∃ l, log s' = l ++ [(EnabledChanged c b, entries s')])) s.
Proof.
  intros Hi. unfold applyExtensionTransition. apply wp_seq, wp_gets. destruct (JsMap.get c (entries s)) as [e|] eqn:He.
  2: { apply wp_return. unfold stands. rewrite He. split_and!; try done. split; [done|done|]. by rewrite He. }
  pose proof (inv_at s c e Hi He) as Hat. pose proof (inv_settled s c e Hi He) as Hs.
  apply wp_seq. eapply (wp_weaken _ (toggled c (pkg e) s e b (progress s))).
  { destruct b; [by apply wp_enableExtension|by apply wp_disableExtension]. }
  intros r s' (st & en & sv & sc & Hat' & -> & Hni & Hidle & Hb).
  assert (Inv s') as Hi'. { eapply at_inv; [done|done|exact Hat'|done|done|]. destruct Hb as [|[? ->]]; auto. }
  assert (stands (entries s') c b = bool_decide (bool_decide (st = Active) = b)) as Hst.
  { unfold stands. by destruct (at_get _ _ _ _ _ Hat') as (e' & -> & -> & _). }
  pose proof (at_only c e s _ s' He Hat') as Honly. rewrite <- Hst. pose proof (at_progress _ _ _ _ _ Hat') as Hpr.
  destruct (stands (entries s') c b) eqn:Hsb; cbn [negb].
  - apply wp_seq. unfold wp at 1, announce, modify. apply wp_return.
    change (entries (logged (EnabledChanged c b) s')) with (entries s'). rewrite Hsb. split_and!; try done.
    + by apply inv_logged.
    + destruct Honly. by split.
    + intros _. by eexists.
  - apply wp_return. by rewrite Hsb.
Qed.

(** *** What moves no entry *)
Definition states (s : coordinator σ) (n : string) : option ComponentState := state <$> JsMap.get n (entries s).

Record unmoved s s' : Prop := {
  um_inv : Inv s';
  um_states : ∀ n, states s' n = states s n;
  um_progress : progress s' = progress s;
  um_order : loadOrder s' = loadOrder s;
}.

Lemma unmoved_refl s : Inv s → unmoved s s.
Proof. done. Qed.
Lemma unmoved_trans s1 s2 s3 : unmoved s1 s2 → unmoved s2 s3 → unmoved s1 s3.
Proof. intros [] []. split; [done|intros n; by rewrite um_states1|congruence|congruence]. Qed.

Lemma at_unmoved s c e s' : Inv s → JsMap.get c (entries s) = Some e → At c (pkg e) s (values e (progress s)) s' → unmoved s s'.
Proof.
  intros Hi He Hat. destruct (inv_settled s c e Hi He) as [Hni Hidle]. split.
  - eapply at_inv; [done|done|exact Hat|done|done|]. right. auto.
  - intros n. unfold states. destruct (decide (n = c)) as [->|]; [|by rewrite (at_frame _ _ _ _ _ Hat)].
    destruct (at_get _ _ _ _ _ Hat) as (e' & -> & Hst & _). rewrite He. simpl. by rewrite Hst.
  - apply Hat.
  - apply Hat.
Qed.

Lemma wp_health s c : Inv s → wp (runExtensionHealthCheck host c) (λ r s', r = Ok tt ∧ unmoved s s') s.
Proof.
  intros Hi. destruct (JsMap.get c (entries s)) as [e|] eqn:He.
  - eapply wp_runExtensionHealthCheck; [by apply inv_at|]. intros s' Hat. split; [done|]. by eapply at_unmoved.
  - unfold runExtensionHealthCheck. apply wp_seq, wp_gets. rewrite He. by apply wp_return.
Qed.

Lemma wp_check_health names s : Inv s → wp (check_health host names) (λ r s', r = Ok tt ∧ unmoved s s') s.
Proof.
  revert s. induction names as [|c names IH]; intros s Hi; cbn [check_health]; [by apply wp_return|].
  apply wp_seq. eapply wp_weaken; [by apply wp_health|]. intros r s1 [-> Hu]. eapply wp_weaken; [apply IH, Hu|].
  intros r s2 [-> Hu2]. split; [done|]. by eapply unmoved_trans.
Qed.

Lemma wp_emitWarnings names s : Inv s → wp (emitWarnings host names) (λ r s', r = Ok tt ∧ unmoved s s') s.
Proof.
  revert s. induction names as [|c names IH]; intros s Hi; cbn [emitWarnings]; [by apply wp_return|].
  apply wp_seq, wp_gets, wp_seq. eapply (wp_weaken _ (λ r s', r = Ok tt ∧ unmoved s s')).
  - destruct (JsMap.get c (entries s)) as [e|] eqn:He; [|by apply wp_return]. case_decide; [|by apply wp_return].
    eapply wp_emitWarningsForEntry; [by apply inv_at|]. intros s' Hat. split; [done|]. by eapply at_unmoved.
  - intros r s1 [-> Hu]. eapply wp_weaken; [apply IH, Hu|]. intros r s2 [-> Hu2]. split; [done|]. by eapply unmoved_trans.
Qed.
(** *** The boot *)
Definition ended_as (st : ComponentState) s (names : list string) : list string :=
  List.filter (λ n, bool_decide (states s n = Some st)) names.

(** The report the boot ought to give of the names started. *)
Definition boot_report s (names : list string) (finished : bool) : BootProgress :=
  {| complete := finished; completedCount := length names; totalCount := length (loadOrder s);
     failedServices := ended_as Failed s names; skippedServices := ended_as Skipped s names |}.

Lemma ended_as_same st s s' names : (∀ n, n ∈ names → states s' n = states s n) → ended_as st s' names = ended_as st s names.
Proof.
  induction names as [|n names IH]; intros Hs; [done|]. unfold ended_as in *. simpl. rewrite Hs by left.
  rewrite IH; [done|]. intros n' Hn. apply Hs. by right.
Qed.

Lemma boot_report_same s s' names b : (∀ n, n ∈ names → states s' n = states s n) → loadOrder s' = loadOrder s →
  boot_report s' names b = boot_report s names b.
Proof. intros Hs Ho. unfold boot_report. by rewrite !(ended_as_same _ s s'), Ho. Qed.

Lemma boot_report_snoc s names c st : states s c = Some st →
  boot_report s (names ++ [c]) false = counted c st (boot_report s names false).
Proof.
  intros Hc. unfold boot_report, counted, ended_as. simpl. rewrite length_app, !List.filter_app. simpl. rewrite Hc.
  f_equal; [lia|f_equal; by destruct st|f_equal; by destruct st].
Qed.

Lemma entry_of s c : Inv s → c ∈ loadOrder s ↔ ∃ e, JsMap.get c (entries s) = Some e.
Proof.
  intros Hi. rewrite <- (inv_keys _ Hi). destruct (JsMap.get c (entries s)) as [e|] eqn:He.
  - split; [by eexists|]. intros _. destruct (decide (c ∈ JsMap.keys (entries s))) as [|Hn]; [done|].
    apply JsMap.get_None in Hn. congruence.
  - apply JsMap.get_None in He. split; [done|by intros []].
Qed.

(** What ended a boot early: a critical package failed. *)
Definition critical_failed s : Prop := ∃ n e, JsMap.get n (entries s) = Some e ∧ critical (pkg e) = true ∧ state e = Failed.

(** What a start may make of an entry. *)
Definition decided (st : option ComponentState) : Prop := st = Some Active ∨ st = Some Failed ∨ st = Some Skipped.

Lemma wp_start_entries todo before s : Inv s → loadOrder s = before ++ todo →
  (∀ n, n ∈ todo → states s n = Some Discovered) → progress s = boot_report s before false →
  (∀ n, n ∈ before → decided (states s n)) →
  wp (start_entries host todo) (λ r s', Inv s' ∧ loadOrder s' = loadOrder s ∧
    match r with
    | Ok _ => progress s' = boot_report s' (loadOrder s) false ∧ ∀ n, n ∈ loadOrder s → decided (states s' n)
    | Throw _ => critical_failed s'
    end) s.
Proof.
  revert before s. induction todo as [|c todo IH]; intros before s Hi Ho Hd Hp Hnd0; cbn [start_entries].
  { rewrite app_nil_r in Ho. apply wp_return. by rewrite Ho. }
  assert (c ∈ loadOrder s) as Hc by (rewrite Ho; apply elem_of_app; right; left).
  apply (entry_of s c Hi) in Hc as [e He]. pose proof (Hd c ltac:(left)) as Hst. unfold states in Hst. rewrite He in Hst. injection Hst as Hst.
  apply wp_seq, wp_gets. rewrite He. apply wp_seq. eapply wp_weaken; [by eapply wp_start|].
  intros r s1 (Hi1 & [Ho1 Hf1 _] & e1 & He1 & Hp1 & Hs1 & Hr).
  destruct r as [[]|x]; [|split_and!; [done|done|]; destruct Hr as [?|[? ?]]; [done|by exists c, e1]].
  pose proof (inv_nodup _ Hi) as Hnd. rewrite Ho in Hnd. apply NoDup_app in Hnd as (Hndb & Hdisj & Hndt).
  apply NoDup_cons in Hndt as [Hct _].
  assert (∀ n, n ≠ c → states s1 n = states s n) as Hfs. { intros n Hn. unfold states. by rewrite Hf1. }
  eapply wp_weaken; [apply (IH (before ++ [c]) s1); [done| | | |]|].
  - by rewrite Ho1, Ho, <- app_assoc.
  - intros n Hn. rewrite Hfs by (intros ->; done). apply Hd. by right.
  - rewrite (boot_report_snoc s1 before c (state e1)); [|by unfold states; rewrite He1].
    rewrite Hp1, Hp. f_equal. symmetry. apply boot_report_same; [|done]. intros n Hn. apply Hfs. intros ->.
    apply (Hdisj c Hn). left.
  - intros n [Hn|<-%list_elem_of_singleton]%elem_of_app.
    + rewrite Hfs by (intros ->; apply (Hdisj c Hn); left). by apply Hnd0.
    + unfold states. rewrite He1. simpl. by destruct Hs1 as [-> |[-> | ->]]; [left|right; left|right; right].
  - intros r s2 (Hi2 & Ho2 & H2). rewrite <- Ho1. by split_and!.
Qed.

(** Every entry waits to be started. *)
Definition fresh s : Prop := ∀ n e, JsMap.get n (entries s) = Some e → state e = Discovered.

Lemma inv_set_progress p s : Inv s → Inv (set_progress p s).
Proof. by destruct 1. Qed.

(** What foreign code outside the entries leaves. *)
Record beside s s' : Prop := {
  bs_inv : Inv s';
  bs_entries : entries s' = entries s;
  bs_order : loadOrder s' = loadOrder s;
  bs_progress : progress s' = progress s;
  bs_log : ∃ evs, log s' = log s ++ evs ∧ Forall (λ x : event * entries_map, subject x.1 = None) evs;
}.

Lemma beside_refl s : Inv s → beside s s.
Proof. split; try done. exists []. by rewrite app_nil_r. Qed.

Lemma wp_beside {A} (ev : outcome thrown A → event) f s : Inv s → (∀ r, subject (ev r) = None ∧ runs_code (ev r) = None) →
  wp (invoke ev f) (λ _ s', beside s s') s.
Proof.
  intros Hi Hev. unfold wp, invoke. destruct (f (entries s) (world s)) as [r w]. destruct (Hev r). split; try done.
  - apply inv_logged; try done. by destruct Hi.
  - eexists. split; [reflexivity|]. by apply Forall_singleton.
Qed.

Lemma wp_runExtensionMigrations s : Inv s → wp (runExtensionMigrations host) (λ r s', beside s s') s.
Proof.
  intros Hi. pose proof (beside_refl s Hi) as Hr. unfold runExtensionMigrations. destruct (runMigrations host) as [run|]; [|by apply wp_return].
  apply wp_seq, wp_gets, wp_seq, wp_gets, wp_seq, wp_lift. destruct (with_migrations host _) as [sources|]; [|done].
  destruct sources as [|n ns]; [by apply wp_return|]. by apply wp_beside.
Qed.

(** A boot that ends reports what became of every entry; one that is cut short
    leaves every entry waiting or a critical one failed. *)
Lemma wp_startAll s : Inv s → fresh s →
  wp (startAllInLifecycleLane host) (λ r s', Inv s' ∧ loadOrder s' = loadOrder s ∧ complete (progress s') = true ∧
    match r with
    | Ok _ => progress s' = boot_report s' (loadOrder s) true ∧ ∀ n, n ∈ loadOrder s → decided (states s' n)
    | Throw _ => fresh s' ∨ critical_failed s'
    end) s.
Proof.
  intros Hi Hf. unfold startAllInLifecycleLane. apply wp_seq, wp_gets, wp_seq. unfold wp at 1, modify.
  set (s0 := set_progress _ s). assert (Inv s0) as Hi0 by by apply inv_set_progress.
  apply wp_seq, wp_attempt. eapply (wp_weaken _ (λ r s', Inv s' ∧ loadOrder s' = loadOrder s ∧
    match r with
    | Ok _ => progress s' = boot_report s' (loadOrder s) false ∧ ∀ n, n ∈ loadOrder s → decided (states s' n)
    | Throw _ => fresh s' ∨ critical_failed s'
    end)).
  - unfold boot. apply wp_seq, wp_gets, wp_seq. eapply wp_weaken; [by apply wp_runExtensionMigrations|].
    intros [[]|x] s1 [Hi1 He1 Ho1 Hp1 _].
    2: { split_and!; [done|done|]. left. intros n e. rewrite He1. apply Hf. }
    apply wp_seq. eapply wp_weaken; [apply (wp_start_entries (loadOrder s) [] s1)|]; [done|done| |by rewrite Hp1; unfold boot_report; rewrite Ho1|by intros n []%elem_of_nil|].
    { intros n Hn. apply (entry_of s n Hi) in Hn as [e He]. unfold states. rewrite He1. simpl. rewrite He. simpl. by rewrite (Hf n e He). }
    intros [[]|x] s2 (Hi2 & Ho2 & H2); [|split_and!; [done|by rewrite Ho2, Ho1|by right]].
    apply wp_seq. eapply wp_weaken; [by apply wp_check_health|]. intros r s3 [-> Hu3].
    apply wp_seq, wp_gets. eapply wp_weaken; [by apply wp_emitWarnings; destruct Hu3|]. intros r s4 [-> Hu4].
    pose proof (unmoved_trans _ _ _ Hu3 Hu4) as [Hi4 Hs4 Hp4 Ho4].
    assert (loadOrder s2 = loadOrder s) as Ho2' by (rewrite Ho2, Ho1; done).
    destruct H2 as [H2 H2']. split_and!; [done|congruence| |].
    + rewrite Hp4, H2, Ho1. symmetry. by apply boot_report_same.
    + intros n Hn. rewrite Hs4. apply H2'. by rewrite Ho1.
  - intros r s1 (Hi1 & Ho1 & H1). unfold progress_complete. apply wp_seq, wp_seq. unfold wp at 1, modify.
    apply wp_seq, wp_gets. unfold wp at 1, announce, modify. apply wp_lift. split_and!; [|done|done|].
    + apply inv_logged; [|done|done]. by apply inv_set_progress.
    + destruct r; [|done]. destruct H1 as [H1 H1']. split; [|done]. simpl. rewrite H1. unfold boot_report. simpl. by rewrite Ho1.
Qed.
(** *** Shutdown *)
Lemma before_split order a b l1 l2 : NoDup order → before order a b → order = l1 ++ a :: l2 → b ∈ l2.
Proof.
  intros Hnd (x1 & x2 & -> & Ha) Heq. assert (b ∈ l1 ++ a :: l2) as Hb by (rewrite <- Heq; apply elem_of_app; right; left).
  apply NoDup_app in Hnd as (Hnd1 & Hd & Hnd2). apply list_elem_of_split in Ha as (y1 & y2 & ->).
  rewrite <- app_assoc in Heq. simpl in Heq.
  assert (NoDup (l1 ++ a :: l2)) as Hnd'.
  { rewrite <- Heq. change (NoDup (y1 ++ (a :: y2) ++ b :: x2)). rewrite app_assoc. by apply NoDup_app. }
  assert (y1 = l1) as ->.
  { clear -Heq Hnd'. revert l1 Heq Hnd'. induction y1 as [|y y1 IH]; intros [|z l1] Heq Hnd'; simpl in *; simplify_eq; try done.
    - apply NoDup_cons in Hnd' as [Hn _]. exfalso. apply Hn. apply elem_of_app. right. left.
    - apply NoDup_cons in Hnd' as [Hn _]. exfalso. apply Hn. apply elem_of_app. right. left.
    - f_equal. apply IH; [done|]. by apply NoDup_cons in Hnd' as [_ ?]. }
  apply app_inv_head in Heq. injection Heq as <-. apply elem_of_app. right. left.
Qed.

Lemma wp_shutdown_entries todo done s : Inv s → loadOrder s = rev todo ++ done →
  (∀ n, n ∈ done → states s n ≠ Some Active) →
  wp (shutdown_entries host todo) (λ r s', (∃ f, r = Ok f) ∧ Inv s' ∧ loadOrder s' = loadOrder s ∧
    ∀ n, n ∈ loadOrder s → states s' n ≠ Some Active) s.
Proof.
  revert done s. induction todo as [|c todo IH]; intros done s Hi Ho Hd; cbn [shutdown_entries].
  { apply wp_return. rewrite Ho. split_and!; eauto. }
  simpl in Ho. rewrite <- app_assoc in Ho. simpl in Ho.
  assert (c ∈ loadOrder s) as Hc by (rewrite Ho; apply elem_of_app; right; left).
  apply (entry_of s c Hi) in Hc as [e He]. apply wp_seq.
  assert (no_dependents c s) as Hnd.
  { intros n x Hn Hx Ha Hreq. pose proof (inv_order _ Hi n x Hx ltac:(right; right; by rewrite Ha) c Hreq) as Hb.
    apply (before_split _ c n (rev todo) done (inv_nodup _ Hi)) in Hb; [|done]. apply (Hd n Hb). unfold states. rewrite Hx. simpl. by rewrite Ha. }
  eapply (wp_shutdown_entry host c (pkg e) s e (progress s)); [by apply inv_at|by eapply inv_settled|done|].
  intros f st s1 Hat Hna Hni Hb.
  assert (Inv s1) as Hi1. { eapply at_inv; [done|done|exact Hat|done|done|]. destruct Hb as [-> | ]; auto. }
  destruct (at_get _ _ _ _ _ Hat) as (e1 & He1 & Hst1 & _). simpl in Hst1.
  apply wp_seq. eapply wp_weaken; [apply (IH (c :: done) s1 Hi1)|].
  - by rewrite (at_order _ _ _ _ _ Hat), Ho.
  - intros n [->|Hn]%elem_of_cons; [unfold states; rewrite He1; simpl; by rewrite Hst1; intros [=]|].
    unfold states. rewrite (at_frame _ _ _ _ _ Hat); [by apply Hd|]. intros ->.
    pose proof (inv_nodup _ Hi) as Hn'. rewrite Ho in Hn'. apply NoDup_app in Hn' as (_ & _ & [Hn' _]%NoDup_cons). done.
  - intros r s2 ([fs ->] & Hi2 & Ho2 & H2). apply wp_return. rewrite (at_order _ _ _ _ _ Hat) in *.
    split_and!; [by eexists|done|done|done].
Qed.

(** No entry is active, so none holds anything. *)
Definition quiet s : Prop := ∀ n e, JsMap.get n (entries s) = Some e → state e ≠ Active.

Lemma wp_shutdown s : Inv s → wp (shutdownInLifecycleLane host) (λ r s', (∃ f, r = Ok f) ∧ Inv s' ∧ loadOrder s' = loadOrder s ∧ quiet s') s.
Proof.
  intros Hi. unfold shutdownInLifecycleLane. apply wp_seq. unfold wp at 1, modify. apply wp_seq, wp_gets.
  eapply wp_weaken; [apply (wp_shutdown_entries _ [])|]; [by destruct Hi|by rewrite rev_involutive, app_nil_r|by intros n []%elem_of_nil|].
  intros r s1 (Hr & Hi1 & Ho1 & H1). split_and!; [done|done|done|]. intros n e He Ha. apply (H1 n); [|unfold states; by rewrite He, <- Ha].
  change (loadOrder (set_warningActions [] s)) with (loadOrder s) in *. rewrite <- Ho1. apply (entry_of s1 n Hi1). by eexists.
Qed.

(** *** Preferences *)
Lemma wp_setEnabled s name b catalog : Inv s → wp (handleSetEnabled host name b catalog) (λ r s', beside s s') s.
Proof.
  intros Hi. pose proof (beside_refl s Hi) as Hr. unfold handleSetEnabled.
  destruct (match catalog with CatalogUnavailable => _ | _ => _ end); [by apply wp_return|]. apply wp_seq, wp_gets.
  assert (∀ (f : effect σ unit) (Q : SetEnabledResult), wp (let* _ := invoke (λ _, Persisted name b) f in st_ret Q) (λ r s', beside s s') s) as Hp.
  { intros f Q. apply wp_seq. eapply wp_weaken; [by apply wp_beside|]. by intros [[]|] s' Hb. }
  assert (∀ shadowed, wp (persistForUnloadedName host name b shadowed catalog) (λ r s', beside s s') s) as Hu.
  { intros shadowed. unfold persistForUnloadedName. destruct (persistEnabled host); [|by apply wp_throw].
    destruct catalog as [|[r|]]; [by destruct shadowed| |by apply wp_return].
    destruct (negb b && record_critical r); [by apply wp_return|]. destruct (negb b && criticalityUnknown r); [by apply wp_return|]. apply Hp. }
  destruct (JsMap.get name (entries s)) as [e|]; [|done]. destruct (extensionManaged e); [|done].
  unfold persistForLoadedEntry. destruct (persistEnabled host); [|by apply wp_throw]. destruct (negb b && _); [by apply wp_return|]. apply Hp.
Qed.
End safety.
