(* ===== verification/ExtensionMachine.v ===== *)
(** * The extension coordinator at work

    Loading establishes the invariant and the calls and the lane keep it; the
    theorems state what that means for packages, their services and storage, the
    boot report, transitions and preferences. *)
From S2P Require Import Prelude TopoSort ExtensionSelection NameSegments Json JsonTree ExtensionEntries ExtensionToggle ExtensionCoordinator ExtensionLogic ExtensionSteps ExtensionSafety.

(** ** Loading *)
Lemma find_by_name (eligible : list KernelMakaioExtension) name : name ∈ map pkg_name eligible →
  ∃ p, List.find (λ p, bool_decide (pkg_name p = name)) eligible = Some p ∧ p ∈ eligible ∧ pkg_name p = name.
Proof.
  induction eligible as [|p ps IH]; simpl; [by intros []%elem_of_nil|]. case_bool_decide as Hp.
  - intros _. exists p. split_and!; [done|by left|done].
  - intros [->|Hn]%elem_of_cons; [done|]. destruct (IH Hn) as (q & ? & ? & ?). exists q. split_and!; [done|by right|done].
Qed.

Section load.
Context (versionSatisfies : string → string → bool) (options : ExtensionCoordinatorOptions).

Lemma find_some_spec (eligible : list KernelMakaioExtension) name p :
  List.find (λ p, bool_decide (pkg_name p = name)) eligible = Some p → p ∈ eligible ∧ pkg_name p = name.
Proof.
  induction eligible as [|q ps IH]; simpl; [done|]. case_bool_decide as Hp; [intros [= ->]; split; [by left|done]|].
  intros [H1 H2]%IH. split; [by right|done].
Qed.

Lemma entries_keys (f : string → option ExtensionEntry) order : (∀ n, n ∈ order → is_Some (f n)) →
  JsMap.keys (omap (λ n, e ← f n; Some (n, e)) order) = order.
Proof.
  induction order as [|n order IH]; intros Hf; [done|]. simpl. destruct (Hf n ltac:(left)) as [e ->]. simpl. f_equal.
  apply IH. intros n' Hn. apply Hf. by right.
Qed.

Lemma entries_get (f : string → option ExtensionEntry) order n e :
  JsMap.get n (omap (λ n, e ← f n; Some (n, e)) order) = Some e → f n = Some e.
Proof.
  intros Hg%JsMap.get_elem. apply list_elem_of_omap in Hg as (n' & _ & Hf). destruct (f n') as [e'|] eqn:Hn; [|done].
  simpl in Hf. by injection Hf as -> ->.
Qed.

Lemma get_map (f : string * ExtensionEntry → ExtensionEntry) es n :
  JsMap.get n (map (λ kv : string * ExtensionEntry, (kv.1, f kv)) es) = (λ e, f (n, e)) <$> JsMap.get n es.
Proof. induction es as [|[k x] es IH]; simpl; [done|]. by case_decide; subst. Qed.

Lemma keys_map (f : string * ExtensionEntry → ExtensionEntry) es :
  JsMap.keys (map (λ kv : string * ExtensionEntry, (kv.1, f kv)) es) = JsMap.keys es.
Proof. unfold JsMap.keys. induction es as [|[k x] es IH]; [done|]. simpl. by f_equal. Qed.

Lemma get_flags es n : JsMap.get n (entry_flags es) = (λ e, (pkg e, enabled e)) <$> JsMap.get n es.
Proof. induction es as [|[k x] es IH]; simpl; [done|]. by case_decide; subst. Qed.

(** Only an enabled entry is among those whose surfaces are collected. *)
Lemma closed_enabled es n e : NoDup (JsMap.keys es) → JsMap.get n es = Some e →
  n ∈ (closeEnabledExtensionEntries (entry_flags es)).1 → enabled e = true.
Proof.
  intros Hnd He Hc.
  assert (JsMap.keys (entry_flags es) = JsMap.keys es) as Hk.
  { clear. unfold JsMap.keys, entry_flags. induction es as [|[k x] es IH]; [done|]. simpl. by f_equal. }
  destruct (closure_is_greatest (entry_flags es)) as [Hcl _]; [by rewrite Hk|].
  destruct (Hcl n Hc) as (p & Hp & _). rewrite get_flags, He in Hp. by injection Hp.
Qed.

(** What a load makes: every entry waits without resources, in an order where
    what an enabled one requires stands before it. *)
Record loaded_ok (order : list string) (es : entries_map) : Prop := {
  lo_nodup : NoDup order;
  lo_keys : JsMap.keys es = order;
  lo_entry : ∀ n e, JsMap.get n es = Some e → state e = Discovered ∧ service e = None ∧ storageCleanup e = None ∧
    (bootable e → ordered order n (pkg e));
}.

Lemma new_entry_spec eligible boot softWarnings defaults n e :
  new_entry options eligible boot softWarnings defaults n = Some e →
  pkg e ∈ eligible ∧ pkg_name (pkg e) = n ∧ state e = Discovered ∧ service e = None ∧ storageCleanup e = None ∧
  surfacesCollected e = false ∧ (enabled e = true → n ∈ boot).
Proof.
  unfold new_entry. intros He. destruct (List.find _ eligible) as [q|] eqn:Hq; [|done]. simpl in He. injection He as <-. simpl.
  apply find_some_spec in Hq as [H1 H2]. split_and!; try done. by intros ?%bool_decide_eq_true.
Qed.

Lemma load_spec packages defaults order es :
  load versionSatisfies options packages defaults = Some (Ok (order, es)) → loaded_ok order es.
Proof.
  unfold load. destruct (coalesceExtensionOverrides _ _) as [eligible|]; [|done].
  set (boot := resolveBootEnabledNames _ _ _).
  destruct (topoSort versionSatisfies (map manifest eligible) (Some boot)) as [[[order'|] ws]|] eqn:Ht; [|done|done].
  intros [= <- <-]. pose proof (topoSort_unique _ _ _ _ _ Ht) as Hnd.
  destruct (topoSort_order _ _ _ _ _ Ht) as [Hperm Hbef].
  assert (map ext_name (map manifest eligible) = map pkg_name eligible) as Hnames by by rewrite map_map.
  rewrite Hnames in *. set (f := new_entry options eligible boot ws defaults).
  assert (JsMap.keys (omap (λ n, e ← f n; Some (n, e)) order') = order') as Hkeys.
  { apply entries_keys. intros n Hn. rewrite Hperm in Hn. destruct (find_by_name _ _ Hn) as (p & Hp & _).
    unfold f, new_entry. rewrite Hp. by eexists. }
  assert (NoDup order') as Hndo by by rewrite Hperm.
  split; [done|by unfold collect_surfaces; rewrite keys_map|].
  intros n e. unfold collect_surfaces. rewrite get_map. destruct (JsMap.get n (omap _ _)) as [e0|] eqn:He0; [|done].
  pose proof (entries_get _ _ _ _ He0) as Hf. destruct (new_entry_spec _ _ _ _ _ _ Hf) as (Hin & Hpn & Hst & Hsv & Hsc & Hsf & Hen).
  intros [= <-]. cbn [fst snd].
  assert (bootable e0 ∨ n ∈ (closeEnabledExtensionEntries (entry_flags (omap (λ n, e ← f n; Some (n, e)) order'))).1 →
    ordered order' n (pkg e0)) as Hord.
  { intros Hb. assert (n ∈ boot) as Hn.
    { apply Hen. destruct Hb as [[Hb|[Hb|[Hb _]]]|Hb]; [done|congruence|done|]. eapply closed_enabled; [|exact He0|exact Hb]. by rewrite Hkeys. }
    intros d (dep & -> & [Hopt Hdep]%list_elem_of_filter)%list_elem_of_fmap.
    destruct (Hbef (manifest (pkg e0))) as [[Hreq _] Hb2]; [by apply list_elem_of_fmap_2|simpl; apply bool_decide_eq_true; by rewrite <- Hpn in Hn|].
    rewrite <- Hpn. apply Hb2; [done|]. rewrite <- Hnames. by apply Hreq. }
  case_bool_decide as Hc; split_and!; try done; intros Hb; apply Hord; [by right|by left].
Qed.
End load.

Section machine.
Context {σ : Type} (host : Host σ) (versionSatisfies : string → string → bool) (options : ExtensionCoordinatorOptions) (w : σ).
Notation Inv := (Inv (σ := σ)).
Notation reachable := (reachable host versionSatisfies options w).
Implicit Types (s : coordinator σ) (m : machine (σ := σ)).

(** Nothing in the log is about an entry. *)
Definition silent s : Prop := entries s = [] ∧ loadOrder s = [] ∧ Forall (λ x : event * entries_map, subject x.1 = None) (log s).

Lemma silent_projections n (l : list (event * entries_map)) : Forall (λ x, subject x.1 = None) l →
  created n l = [] ∧ destroyed n l = [] ∧ registered n l = [] ∧ cleaned n l = [] ∧ transitions_of n l = [].
Proof.
  induction l as [|[ev es] l IH] using rev_ind; intros Hl; [done|].
  assert (Forall (λ x : event * entries_map, subject x.1 = None) l ∧ subject ev = None) as [Hl' Hev].
  { apply Forall_app in Hl as [Hl Hev]. split; [done|]. by inversion Hev. }
  destruct (IH Hl') as (F1 & F2 & F3 & F4 & F5). destruct (projections_app n l ev es) as (E1 & E2 & E3 & E4 & E5).
  destruct (projections_other n ev es) as (G1 & G2 & G3 & G4 & G5); [by rewrite Hev|].
  rewrite E1, E2, E3, E4, E5, F1, F2, F3, F4, F5, G1, G2, G3, G4, G5. done.
Qed.

Lemma inv_loaded order es s : Inv s → silent s → loaded_ok order es → Inv (with_loaded order es s).
Proof.
  intros Hi (_ & _ & Hl) [Hnd Hk He]. destruct Hi. split; simpl; try done.
  - intros n e d Hn Ha. destruct (He n e Hn) as (Hst & _). congruence.
  - intros n e Hn. by apply He.
  - intros n e Hn. destruct (He n e Hn) as (Hst & Hsv & Hsc & _). destruct (silent_projections n (log s) Hl) as (F1 & F2 & F3 & F4 & F5).
    split; rewrite ?F1, ?F2, ?F3, ?F4, ?F5, ?Hst, ?Hsv, ?Hsc; done.
Qed.

Lemma inv_new_coordinator : Inv (new_coordinator w).
Proof. split; simpl; try done; try apply NoDup_nil_2; by intros. Qed.

Lemma inv_processors ps s : Inv s → Inv (with_processors ps s).
Proof. by destruct 1. Qed.

Lemma run_inv op s : Inv s → (op = OpStart → fresh s) → Inv (run host op s) ∧ loadOrder (run host op s) = loadOrder s.
Proof.
  intros Hi Hf. destruct op as [|name b|name b catalog|]; simpl.
  - pose proof (wp_run _ _ _ (wp_startAll host s Hi (Hf eq_refl))) as (H1 & H2 & _). done.
  - pose proof (wp_run _ _ _ (wp_applyExtensionTransition host s name b Hi)) as (H1 & [H2 _ _] & _). done.
  - pose proof (wp_run _ _ _ (wp_setEnabled host s name b catalog Hi)) as []. done.
  - pose proof (wp_run _ _ _ (wp_shutdown host s Hi)) as (_ & H1 & H2 & _). done.
Qed.

(** Before the boot ran, a transition can only note that an entry is disabled. *)
Lemma run_fresh op s : Inv s → fresh s → op ≠ OpStart → op ≠ OpShutdown → fresh (run host op s).
Proof.
  intros Hi Hf Hs Hd. destruct op as [|name b|name b catalog|]; simpl; try done.
  - unfold applyExtensionTransition, st_bind, gets. destruct (JsMap.get name (entries s)) as [e|] eqn:He; [|done].
    pose proof (Hf name e He) as Hst. destruct b; simpl.
    + unfold enableExtension. by rewrite Hst.
    + unfold disableExtension, update, modify. rewrite Hst. unfold st_bind. rewrite He. simpl.
      intros n x. unfold fresh. simpl. rewrite JsMap.get_set. destruct (decide (name = n)); [by intros [= <-]|apply Hf].
  - pose proof (wp_run _ _ _ (wp_setEnabled host s name b catalog Hi)) as []. intros n e. rewrite bs_entries. apply Hf.
Qed.

Lemma run_silent op s : Inv s → silent s → op ≠ OpStart → silent (run host op s).
Proof.
  intros Hi (He & Ho & Hl) Hs. destruct op as [|name b|name b catalog|]; simpl; try done.
  - unfold applyExtensionTransition, st_bind, gets. rewrite He. done.
  - pose proof (wp_run _ _ _ (wp_setEnabled host s name b catalog Hi)) as [_ H1 H2 _ (evs & H3 & H4)].
    split_and!; [congruence|congruence|]. rewrite H3. by apply Forall_app.
  - unfold shutdownInLifecycleLane, st_bind, modify, gets. simpl. by rewrite Ho.
Qed.

(** ** Every reachable state *)
Record MachineInv m : Prop := {
  mi_inv : Inv (coord m);
  mi_started : started m = true → loaded m = true;
  mi_unloaded : loaded m = false → silent (coord m);
  mi_unstarted : started m = false → OpStart ∉ lane m;
  mi_fresh : (started m = false ∧ shutdownRequested m = false) ∨ OpStart ∈ lane m → fresh (coord m);
  mi_once : ∀ l1 l2, lane m = l1 ++ OpStart :: l2 → OpStart ∉ l1 ∧ OpStart ∉ l2;
  mi_open : shutdownRequested m = false → OpShutdown ∉ lane m;
  mi_closed : shutdownRequested m = true →
    (∃ l, lane m = l ++ [OpShutdown] ∧ OpShutdown ∉ l) ∨ lane m = [] ∧ quiet (coord m);
}.

Lemma lane_admits m op : (∀ l1 l2, lane m = l1 ++ OpStart :: l2 → OpStart ∉ l1 ∧ OpStart ∉ l2) →
  (op = OpStart → OpStart ∉ lane m) →
  ∀ l1 l2, lane m ++ [op] = l1 ++ OpStart :: l2 → OpStart ∉ l1 ∧ OpStart ∉ l2.
Proof.
  intros Hone Hop l1 l2 Heq. destruct l2 as [|x l2 _] using rev_ind.
  - apply app_inj_tail in Heq as [<- ->]. split; [by apply Hop|apply not_elem_of_nil].
  - rewrite app_comm_cons, app_assoc in Heq. apply app_inj_tail in Heq as [Hl <-].
    destruct (Hone _ _ Hl) as [H1 H2]. split; [done|]. rewrite elem_of_app, list_elem_of_singleton. intros [?|<-]; [done|].
    apply (Hop eq_refl). rewrite Hl. apply elem_of_app. right. left.
Qed.

Definition is_start (op : operation) : bool := match op with OpStart => true | _ => false end.
Definition is_shutdown (op : operation) : bool := match op with OpShutdown => true | _ => false end.

(** A call that joins the lane. *)
Lemma mi_enqueue m op ld st sd : MachineInv m → shutdownRequested m = false → (op = OpStart → started m = false ∧ loaded m = true) →
  ld = loaded m → st = is_start op || started m → sd = is_shutdown op →
  MachineInv {| coord := coord m; loaded := ld; started := st; shutdownRequested := sd; lane := lane m ++ [op] |}.
Proof.
  intros [Hi Hsl Hun Hus Hf Hone Hop Hcl] Hsd Hst -> -> ->. specialize (Hop Hsd). split; simpl.
  - done.
  - destruct op; simpl; auto. intros _. by apply Hst.
  - done.
  - intros [Ho Hs]%orb_false_iff. rewrite elem_of_app, list_elem_of_singleton. intros [?|<-]; [by apply Hus|done].
  - intros Hc. apply Hf. destruct Hc as [[[_ Hc]%orb_false_iff _]|Hc]; [by left|].
    apply elem_of_app in Hc as [Hc|<-%list_elem_of_singleton]; [by right|]. left. split; [by apply Hst|done].
  - apply lane_admits; [done|]. intros ->. apply Hus. by apply Hst.
  - intros Ho. rewrite elem_of_app, list_elem_of_singleton. intros [?|<-]; done.
  - intros Ho. left. exists (lane m). destruct op; done.
Qed.

(** The first operation of the lane runs. *)
Lemma mi_run m op rest : MachineInv m → lane m = op :: rest →
  MachineInv {| coord := run host op (coord m); loaded := loaded m; started := started m;
                shutdownRequested := shutdownRequested m; lane := rest |}.
Proof.
  intros [Hi Hsl Hun Hus Hf Hone Hop Hcl] Hl. rewrite Hl in *.
  assert (op = OpStart → fresh (coord m)) as Hfs by (intros ->; apply Hf; right; left).
  destruct (run_inv op (coord m) Hi Hfs) as [Hi' Ho'].
  assert (op = OpShutdown → rest = []) as Hlast.
  { intros ->. destruct (shutdownRequested m) eqn:Hsd; [|exfalso; apply (Hop eq_refl); left].
    destruct (Hcl eq_refl) as [([|o l] & Heq & Hl')|[? _]]; [by injection Heq|injection Heq as <- _; exfalso; apply Hl'; left|done]. }
  split; simpl.
  - done.
  - done.
  - intros Hld. apply run_silent; [done|by apply Hun|]. intros ->. destruct (started m) eqn:Hs; [by rewrite Hsl in Hld|].
    apply (Hus eq_refl). left.
  - intros Hs Hin. apply (Hus Hs). by right.
  - intros Hc. assert (op ≠ OpStart) as Hns.
    { intros ->. destruct Hc as [[Hc _]|Hc]; [by apply (Hus Hc); left|]. by destruct (Hone [] rest eq_refl). }
    apply run_fresh; [done|apply Hf; destruct Hc; [by left|by right; right]|done|]. intros ->. destruct Hc as [[_ Hc]|Hc].
    + apply (Hop Hc). left.
    + rewrite Hlast in Hc by done. by apply elem_of_nil in Hc.
  - intros l1 l2 Heq. destruct (Hone (op :: l1) l2) as [H1 H2]; [by rewrite Heq|]. split; [|done]. intros Hin. apply H1. by right.
  - intros Hsd Hin. apply (Hop Hsd). by right.
  - intros Hsd. destruct (Hcl Hsd) as [([|o l] & Heq & Hl')|[? _]]; [| |done].
    + injection Heq as -> ->. right. split; [done|]. pose proof (wp_run _ _ _ (wp_shutdown host _ Hi)) as (_ & _ & _ & Hq). done.
    + injection Heq as -> ->. left. exists l. split; [done|]. intros Hin. apply Hl'. by right.
Qed.

Lemma reachable_inv m : reachable m → MachineInv m.
Proof.
  induction 1 as [|m m' _ IH Hstep].
  - split; simpl; try done.
    + apply inv_new_coordinator.
    + intros _. apply not_elem_of_nil.
    + intros l1 l2 Heq. by destruct l1.
    + intros _. apply not_elem_of_nil.
  - inversion Hstep as [? packages defaults order es Hsd Hld Hload|? Hsd Hld Hst|? name b Hsd|? name b catalog Hsd|? Hsd|? op rest Hl|? ps]; subst.
    + destruct IH as [Hi Hsl Hun Hus Hf Hone Hop Hcl]. pose proof (load_spec _ _ _ _ _ _ Hload) as Hok.
      assert (started m = false) as Hns. { destruct (started m); [|done]. by rewrite Hsl in Hld. }
      split; simpl; try done.
      * apply inv_loaded; auto.
      * intros _ n e He. by apply (lo_entry _ _ Hok n e).
      * rewrite Hsd. done.
    + apply (mi_enqueue m OpStart); done.
    + apply (mi_enqueue m (OpTransition name b)); done.
    + apply (mi_enqueue m (OpSetEnabled name b catalog)); done.
    + apply (mi_enqueue m OpShutdown); done.
    + by apply (mi_run m).
    + destruct IH. split; simpl; try done. by apply inv_processors.
Qed.
End machine.
