(* ===== verification/ExtensionCorrect.v ===== *)
(** * The extension lifecycle is correct

    What the invariant of [ExtensionMachine] says of every coordinator its callers
    can bring about: dependencies, resources, transitions, the boot report, run-time
    transitions, preferences and shutdown; and a concrete coordinator on which the
    theorems are tried. *)
From S2P Require Import Prelude TopoSort ExtensionSelection NameSegments Json JsonTree ExtensionEntries ExtensionToggle ExtensionCoordinator ExtensionLogic ExtensionSteps ExtensionSafety ExtensionMachine.

(** ** Calls, executed *)
Inductive call :=
  | CallLoad (packages : list KernelMakaioExtension)
  | CallStartAll
  | CallTransition (name : string) (enabled : bool)
  | CallSetEnabled (name : string) (enabled : bool) (catalog : SetEnabledCatalogLookup)
  | CallShutdown
  | RunFirst.

Section theorems.
Context {σ : Type} (host : Host σ) (versionSatisfies : string → string → bool) (options : ExtensionCoordinatorOptions) (w : σ).
Notation reachable := (reachable host versionSatisfies options w).
Implicit Types (m : machine (σ := σ)).

(** A step made by a call, when the call is admitted. *)
Definition perform m (x : call) : option machine :=
  match x with
  | RunFirst => match lane m with
                | [] => None
                | op :: rest => Some {| coord := run host op (coord m); loaded := loaded m; started := started m;
                                        shutdownRequested := shutdownRequested m; lane := rest |}
                end
  | CallLoad packages =>
      if shutdownRequested m || loaded m then None
      else match load versionSatisfies options packages [] with
           | Some (Ok (order, es)) => Some {| coord := with_loaded order es (coord m); loaded := true; started := started m;
                                              shutdownRequested := shutdownRequested m; lane := lane m |}
           | _ => None
           end
  | CallStartAll =>
      if shutdownRequested m || negb (loaded m) || started m then None
      else Some {| coord := coord m; loaded := true; started := true; shutdownRequested := false; lane := lane m ++ [OpStart] |}
  | CallTransition name b =>
      if shutdownRequested m then None
      else Some {| coord := coord m; loaded := loaded m; started := started m; shutdownRequested := false;
                   lane := lane m ++ [OpTransition name b] |}
  | CallSetEnabled name b catalog =>
      if shutdownRequested m then None
      else Some {| coord := coord m; loaded := loaded m; started := started m; shutdownRequested := false;
                   lane := lane m ++ [OpSetEnabled name b catalog] |}
  | CallShutdown =>
      if shutdownRequested m then None
      else Some {| coord := coord m; loaded := loaded m; started := started m; shutdownRequested := true;
                   lane := lane m ++ [OpShutdown] |}
  end.

Fixpoint drive m (calls : list call) : option machine :=
  match calls with
  | [] => Some m
  | x :: calls => match perform m x with Some m' => drive m' calls | None => None end
  end.

Lemma perform_step m x m' : perform m x = Some m' → machine_step host versionSatisfies options m m'.
Proof.
  destruct x; simpl; intros Hp.
  - destruct (shutdownRequested m) eqn:Hs, (loaded m) eqn:Hl; try done. simpl in Hp.
    destruct (load _ _ _ _) as [[[order es]|]|] eqn:Hld; try done. injection Hp as <-. rewrite <- Hs. by eapply step_load.
  - destruct (shutdownRequested m) eqn:Hs, (loaded m) eqn:Hl, (started m) eqn:Hst; try done. injection Hp as <-. by apply step_startAll.
  - destruct (shutdownRequested m) eqn:Hs; [done|]. injection Hp as <-. by apply step_transition.
  - destruct (shutdownRequested m) eqn:Hs; [done|]. injection Hp as <-. by apply step_setEnabled.
  - destruct (shutdownRequested m) eqn:Hs; [done|]. injection Hp as <-. by apply step_shutdown.
  - destruct (lane m) as [|op rest] eqn:Hl; [done|]. injection Hp as <-. by apply step_run.
Qed.

Lemma drive_reachable calls m m' : reachable m → drive m calls = Some m' → reachable m'.
Proof.
  revert m. induction calls as [|x calls IH]; intros m Hr; simpl; [by intros [= <-]|].
  destruct (perform m x) as [m1|] eqn:Hp; [|done]. apply IH. eapply reachable_step; [done|by eapply perform_step].
Qed.

(** ** Theorems *)
(** C3: code of an extension runs only while it is being started or is active, and
    only while every extension it requires is active: this holds of its storage
    handlers, its factory, [init], [destroy], its health check and the processors
    activated for it, and at every moment an active extension has all the
    extensions it requires active - whatever starts, transitions and shutdown came
    before, and however they failed. *)
Theorem required_dependencies_active m (Hr : reachable m) :
  deps_active (entries (coord m)) ∧
  ∀ ev es, (ev, es) ∈ log (coord m) → deps_active es ∧
    ∀ n, runs_code ev = Some n → ∃ e, JsMap.get n es = Some e ∧ may_run (state e) = true ∧
      ∀ d, d ∈ required_dependencies (pkg e) → is_active es d = true.
Proof.
  destruct (reachable_inv _ _ _ _ _ Hr) as [Hi _ _ _ _ _ _ _]. split; [by apply inv_deps|].
  intros ev es Hin. destruct (proj1 (Forall_forall _ _) (inv_log _ Hi) _ Hin) as (Hda & _ & Hcode). simpl in *.
  split; [done|]. intros n Hn. by rewrite Hn in Hcode.
Qed.

(** C4: services and storage handlers are given back exactly once: the services
    created for an entry are, in order, those destroyed and the one it holds, the
    same holds for its storage registrations and their cleanups, and an entry that
    is not active holds neither - also after factories, processors or cleanups that
    threw. *)
Theorem resources_given_back m (Hr : reachable m) n e (He : JsMap.get n (entries (coord m)) = Some e) :
  created n (log (coord m)) = destroyed n (log (coord m)) ++ option_list (service e) ∧
  registered n (log (coord m)) = cleaned n (log (coord m)) ++ option_list (storageCleanup e) ∧
  (state e ≠ Active → service e = None ∧ storageCleanup e = None).
Proof.
  destruct (reachable_inv _ _ _ _ _ Hr) as [Hi _ _ _ _ _ _ _]. by destruct (inv_rest _ Hi n e He).
Qed.

(** C26: the transitions announced for an entry are a history: each is one the
    lifecycle allows, each starts where the one before ended, the first at
    [discovered], the last where the entry stands, and between operations no entry
    is left initializing. *)
Theorem transitions_are_history m (Hr : reachable m) n e (He : JsMap.get n (entries (coord m)) = Some e) :
  path Discovered (transitions_of n (log (coord m))) = Some (state e) ∧
  (∀ from to, (from, to) ∈ transitions_of n (log (coord m)) → legal from to = true) ∧
  state e ≠ Initializing.
Proof.
  destruct (reachable_inv _ _ _ _ _ Hr) as [Hi _ _ _ _ _ _ _]. destruct (inv_rest _ Hi n e He). split_and!; [done| |done].
  intros from to Hin. apply list_elem_of_omap in Hin as ([ev es] & Hin & Hev). simpl in Hev. destruct ev; try done.
  case_bool_decide; [|done]. injection Hev as <- <-. by destruct (proj1 (Forall_forall _ _) (inv_log _ Hi) _ Hin) as (_ & ? & _).
Qed.

(** C10: the report of a boot tells what became of every entry: when the boot ends,
    every entry was started and counted once, the failed and the skipped ones are
    listed in load order, and a boot that is cut short by an error had started
    nothing or lost a critical extension. *)
Theorem boot_reports_every_entry m rest (Hr : reachable m) (Hl : lane m = OpStart :: rest) :
  let '(r, s') := startAllInLifecycleLane host (coord m) in
  complete (progress s') = true ∧
  match r with
  | Ok _ => progress s' = boot_report s' (loadOrder s') true ∧ completedCount (progress s') = totalCount (progress s') ∧
      ∀ n e, JsMap.get n (entries s') = Some e → state e = Active ∨ state e = Failed ∨ state e = Skipped
  | Throw _ => fresh s' ∨ critical_failed s'
  end.
Proof.
  destruct (reachable_inv _ _ _ _ _ Hr) as [Hi _ _ _ Hf _ _ _]. specialize (Hf ltac:(right; rewrite Hl; left)).
  pose proof (wp_startAll host (coord m) Hi Hf) as H. unfold wp in H.
  destruct (startAllInLifecycleLane host (coord m)) as [r s']. destruct H as (Hi' & Ho & Hc & Hm). split; [done|].
  destruct r; [|done]. destruct Hm as [Hp Hs]. rewrite Ho. split_and!; [done|by rewrite Hp; simpl; rewrite Ho|].
  intros n e He. assert (n ∈ loadOrder (coord m)) as Hn by (rewrite <- Ho; apply (entry_of s' n Hi'); by eexists).
  specialize (Hs n Hn). unfold decided, states in Hs. rewrite He in Hs. simpl in Hs. naive_solver.
Qed.

(** C17: a transition at run time answers whether it took place: it never throws,
    answers [applied] exactly when the entry now stands where it was wanted, announces
    it last then, and leaves every other entry, the load order and the boot report
    as they were. *)
Theorem transition_answers m (Hr : reachable m) name b :
  let '(r, s') := applyExtensionTransition host name b (coord m) in
  r = Ok (stands (entries s') name b) ∧
  (∀ n, n ≠ name → JsMap.get n (entries s') = JsMap.get n (entries (coord m))) ∧
  loadOrder s' = loadOrder (coord m) ∧ progress s' = progress (coord m) ∧
  (r = Ok true → ∃ l, log s' = l ++ [(EnabledChanged name b, entries s')]).
Proof.
  destruct (reachable_inv _ _ _ _ _ Hr) as [Hi _ _ _ _ _ _ _].
  pose proof (wp_applyExtensionTransition host (coord m) name b Hi) as H. unfold wp in H.
  destruct (applyExtensionTransition host name b (coord m)) as [r s']. destruct H as (_ & [Ho Hf _] & Hp & -> & Ha).
  split_and!; try done. intros [= Hs]. by apply Ha.
Qed.

(** The coordinator after everything admitted has run. *)
Definition drained m : coordinator σ := foldl (λ s op, run host op s) (coord m) (lane m).

Lemma drained_reachable m : reachable m → ∃ m', reachable m' ∧ coord m' = drained m ∧ lane m' = [] ∧ shutdownRequested m' = shutdownRequested m.
Proof.
  unfold drained. remember (lane m) as l eqn:Hl. revert m Hl. induction l as [|op l IH]; intros m Hl Hr; [by exists m|].
  destruct (IH {| coord := run host op (coord m); loaded := loaded m; started := started m;
                  shutdownRequested := shutdownRequested m; lane := l |} eq_refl) as (m' & ? & ? & ? & ?).
  - eapply reachable_step; [done|]. by apply step_run.
  - by exists m'.
Qed.

(** C11: shutdown lets go of everything: once it was requested and what was admitted
    before it has run, no extension is active, none holds a service or a storage
    registration, and all that was ever created was destroyed, all that was ever
    registered cleaned up. *)
Theorem shutdown_releases_everything m (Hr : reachable m) (Hs : shutdownRequested m = true) n e
    (He : JsMap.get n (entries (drained m)) = Some e) :
  state e ≠ Active ∧ service e = None ∧ storageCleanup e = None ∧
  created n (log (drained m)) = destroyed n (log (drained m)) ∧ registered n (log (drained m)) = cleaned n (log (drained m)).
Proof.
  destruct (drained_reachable m Hr) as (m' & Hr' & Hc & Hl & Hs'). rewrite <- Hc in *.
  destruct (reachable_inv _ _ _ _ _ Hr') as [Hi _ _ _ _ _ _ Hcl].
  destruct (Hcl ltac:(congruence)) as [(l & Hl' & _)|[_ Hq]]; [rewrite Hl in Hl'; by destruct l|].
  specialize (Hq n e He). destruct (inv_rest _ Hi n e He) as [_ Hidle H1 H2 _]. destruct (Hidle Hq) as [Hsv Hsc].
  rewrite Hsv, app_nil_r in H1. by rewrite Hsc, app_nil_r in H2.
Qed.
End theorems.

(** ** Preferences *)
Section preferences.
Context {σ : Type} (host : Host σ).

(** Whether the extension of a name is on its way to run without a restart; one
    that is not loaded, or whose name a framework package holds, is not. *)
Definition heading (s : coordinator σ) (name : string) : bool :=
  match JsMap.get name (entries s) with
  | Some e => if extensionManaged e then headingEnabled e else false
  | None => false
  end.

(** Whether its manifest, as far as it can be known, forbids to disable it. *)
Definition protected (s : coordinator σ) (name : string) (catalog : SetEnabledCatalogLookup) : bool :=
  let listed := match catalog with
                | CatalogResolved (Some r) => record_critical r || criticalityUnknown r
                | _ => false
                end in
  match JsMap.get name (entries s) with
  | Some e => if extensionManaged e then critical (pkg e) else listed
  | None => listed
  end.

(** Nothing was written: a refusal with its reason, or no store to ask. *)
Definition refused (s : coordinator σ) (name : string) (r : outcome thrown SetEnabledResult) (s' : coordinator σ) : Prop :=
  s' = s ∧ match r with
           | Ok res => success res = false ∧ outcome_of res = Rejected ∧ is_Some (reason_of res)
           | Throw e => e = NoEnablementStore name ∨ e = NoPreference name
           end.

(** The store was asked once: its error comes out, or the answer is success when the
    extension is already headed there and that a restart is required when not. *)
Definition recorded (s : coordinator σ) (name : string) (b : bool) (r : outcome thrown SetEnabledResult) (s' : coordinator σ) : Prop :=
  log s' = log s ++ [(Persisted name b, entries s)] ∧
  ∃ persist, persistEnabled host = Some persist ∧
    let '(answer, w) := persist name b (entries s) (world s) in
    world s' = w ∧
    match answer with
    | Throw e => r = Throw e
    | Ok _ => ∃ res, r = Ok res ∧ success res = bool_decide (heading s name = b) ∧
                outcome_of res = (if success res then Applied else RestartRequired)
    end.

Definition kept (s s' : coordinator σ) : Prop := entries s' = entries s ∧ loadOrder s' = loadOrder s ∧ progress s' = progress s.

Lemma refused_here s name r : match r with
    | Ok res => success res = false ∧ outcome_of res = Rejected ∧ is_Some (reason_of res)
    | Throw e => e = NoEnablementStore name ∨ e = NoPreference name
    end → kept s s ∧ refused s name r s.
Proof. done. Qed.

Lemma persisted_recorded s name b persist (x : SetEnabledResult) : persistEnabled host = Some persist →
  success x = bool_decide (heading s name = b) → outcome_of x = (if success x then Applied else RestartRequired) →
  let '(r, s') := (let* _ := invoke (λ _, Persisted name b) (persist name b) in st_ret x) s in
  kept s s' ∧ recorded s name b r s'.
Proof.
  intros Hpe Hx1 Hx2. unfold st_bind, invoke, recorded. destruct (persist name b (entries s) (world s)) as [[u|e] w] eqn:Hpw;
    (split; [done|]; split; [done|]; exists persist; rewrite Hpw; split; [done|]; split; [done|]); [by exists x|done].
Qed.

Lemma unloaded_recorded s name b shadowed catalog : heading s name = false →
  let '(r, s') := persistForUnloadedName host name b shadowed catalog s in
  kept s s' ∧ (refused s name r s' ∨
    (b || match catalog with CatalogResolved (Some r) => negb (record_critical r || criticalityUnknown r) | _ => false end = true) ∧
    recorded s name b r s').
Proof.
  intros Hh. assert (∀ r : SetEnabledReason, kept s s ∧ refused s name (Ok (rejected r)) s) as Hrej.
  { intros r. apply refused_here. split_and!; [done..|by eexists]. }
  unfold persistForUnloadedName. destruct (persistEnabled host) as [persist|] eqn:Hpe.
  2: { split; [done|]. left. split; [done|]. by left. }
  destruct catalog as [|[rec|]].
  - destruct shadowed; [|split; [done|left; apply Hrej]]. split; [done|]. left. split; [done|]. by right.
  - destruct (negb b && record_critical rec) eqn:H1; [split; [done|left; apply Hrej]|].
    destruct (negb b && criticalityUnknown rec) eqn:H2; [split; [done|left; apply Hrej]|].
    set (x := if b then _ else _). pose proof (persisted_recorded s name b persist x Hpe) as H.
    assert (success x = bool_decide (heading s name = b) ∧ outcome_of x = (if success x then Applied else RestartRequired)) as [Hx1 Hx2].
    { rewrite Hh. unfold x. by destruct b. }
    specialize (H Hx1 Hx2). destruct (st_bind _ _ s) as [r s']. destruct H as [Hk Hr]. split; [done|]. right. split; [|done].
    by destruct b, (record_critical rec), (criticalityUnknown rec).
  - split; [done|]. left. apply Hrej.
Qed.

(** C18: recording a preference moves nothing: the entries, the load order and the
    boot report stay as they are.  Either nothing is written and the request is
    refused with a reason or an error, or the preference is written once; an error
    of the store comes out, and otherwise the answer is success exactly when the
    extension is already headed where it was asked to be, and that a restart is
    required if not.  Disabling an extension known to be critical is never written. *)
Theorem preferences_only_record (s : coordinator σ) (name : string) (b : bool) (catalog : SetEnabledCatalogLookup) :
  let '(r, s') := handleSetEnabled host name b catalog s in
  kept s s' ∧ (refused s name r s' ∨ (b || negb (protected s name catalog)) = true ∧ recorded s name b r s').
Proof.
  unfold handleSetEnabled. destruct (match catalog with CatalogUnavailable => _ | _ => _ end).
  { split; [done|]. left. split_and!; [done..|by eexists]. }
  unfold st_bind at 1, gets.
  assert (∀ shadowed, heading s name = false → (∀ e, JsMap.get name (entries s) = Some e → extensionManaged e = false) →
    let '(r, s') := persistForUnloadedName host name b shadowed catalog s in
    kept s s' ∧ (refused s name r s' ∨ (b || negb (protected s name catalog)) = true ∧ recorded s name b r s')) as Hun.
  { intros shadowed Hh Hm. pose proof (unloaded_recorded s name b shadowed catalog Hh) as H.
    destruct (persistForUnloadedName _ _ _ _ _ s) as [r s']. destruct H as [Hk [Hr|[Hb Hr]]]; (split; [done|]); [by left|]. right. split; [|done].
    unfold protected. destruct b; [done|]. simpl in *. destruct catalog as [|[rec|]]; try done.
    destruct (JsMap.get name (entries s)) as [e|] eqn:He; [by rewrite (Hm e)|done]. }
  unfold heading, protected in *. destruct (JsMap.get name (entries s)) as [e|] eqn:He; [|by apply Hun].
  destruct (extensionManaged e) eqn:Hm; [|apply Hun; [done|by intros ? [= <-]]].
  unfold persistForLoadedEntry. destruct (persistEnabled host) as [persist|] eqn:Hpe.
  2: { split; [done|]. left. split; [done|]. by left. }
  destruct (negb b && critical (pkg e)) eqn:Hc.
  { split; [done|]. left. split_and!; [done..|by eexists]. }
  set (x := if bool_decide _ then _ else _). pose proof (persisted_recorded s name b persist x Hpe) as H.
  assert (success x = bool_decide (heading s name = b) ∧ outcome_of x = (if success x then Applied else RestartRequired)) as [Hx1 Hx2].
  { unfold heading, x. rewrite He, Hm. by destruct (bool_decide (headingEnabled e = b)). }
  specialize (H Hx1 Hx2). destruct (st_bind _ _ s) as [r s']. destruct H as [Hk Hr]. split; [done|]. right. split; [|done].
  destruct b; [done|]. simpl in *. by rewrite Hc.
Qed.
End preferences.

(** ** A concrete coordinator *)
Definition fine : effect nat unit := λ _ n, (Ok tt, n).

(** The world is the next handle; the service of [flaky] cannot be made. *)
Definition demo_host : Host nat := {|
  code := λ name, {| configSchema := None; registerHandlers := Some (λ _ _ n, (Ok (Some n), S n));
                     create := Some (λ _ _ n, if bool_decide (name = "flaky") then (Throw (Raised "no"), n) else (Ok n, S n));
                     tray := false |};
  initService := λ _, fine; destroyService := λ _, fine; runCleanup := λ _, fine; checkHealth := λ _, None; db := true;
  extensionContextBase := true; loadConfig := None; operatorConfig := λ _, None; persistEnabled := Some (λ _ _, fine);
  runMigrations := Some (λ _, fine); migrations := λ name, Ok (bool_decide (name = "ui"));
  registerTray := λ _, fine; unregisterTray := λ _, fine; showToast := λ _, fine; emitWarningsChanged := λ _, fine |}.

Definition demo_options : ExtensionCoordinatorOptions :=
  {| runtimeSurface := "headless"; runtimeEnvironment := None; extensionManagedNames := None; frameworkPackageNames := [];
     loadEnabled := None |}.

Definition demo_package (name : string) (requires : list string) : KernelMakaioExtension :=
  {| manifest := {| ext_name := name; ext_version := "1.0.0";
                    dependencies := map (λ d, {| dep_name := d; dep_version := "*"; optional := false |}) requires |};
     displayName := name; critical := false; surface := None; ExtensionSelection.requires := None |}.

Definition demo_packages : list KernelMakaioExtension :=
  [demo_package "ui" ["core"]; demo_package "flaky" []; demo_package "core" []].

Definition any_version (v r : string) : bool := true.

Definition demo (calls : list call) : option (machine (σ := nat)) :=
  drive demo_host any_version demo_options (new_machine 0%nat) calls.
Definition demo_reachable : machine → Prop := reachable demo_host any_version demo_options 0%nat.

Lemma demo_is_reachable calls m : demo calls = Some m → demo_reachable m.
Proof. apply drive_reachable, reachable_new. Qed.

(** What the entries and the log of a machine come to. *)
Definition demo_states (m : machine (σ := nat)) : list (string * ComponentState) :=
  map (λ kv : string * ExtensionEntry, (kv.1, state kv.2)) (entries (coord m)).

Definition booted : list call := [CallLoad demo_packages; CallStartAll; RunFirst].

Example demo_boot : demo_states <$> demo booted = Some [("flaky", Failed); ("core", Active); ("ui", Active)].
Proof. vm_compute. reflexivity. Qed.

Example demo_dependents_first :
  demo_states <$> demo (booted ++ [CallTransition "core" false; RunFirst; CallTransition "ui" false; RunFirst]) =
  Some [("flaky", Failed); ("core", Active); ("ui", Stopped)].
Proof. vm_compute. reflexivity. Qed.

(** An entry disabled while it still waits for the boot is skipped by the boot,
    which leaves its migrations out, yet it can be enabled afterwards, as its
    surfaces were collected when it was loaded: it is then active on storage that
    was never migrated. *)
Example disabled_before_boot_is_never_migrated : ∃ m,
  demo [CallLoad demo_packages; CallTransition "ui" false; CallStartAll; RunFirst; RunFirst; CallTransition "ui" true; RunFirst] = Some m ∧
  migrations demo_host "ui" = Ok true ∧ stands (entries (coord m)) "ui" true = true ∧
  existsb (λ x : event * entries_map, match x.1 with Migrated names => bool_decide ("ui" ∈ names) | _ => false end) (log (coord m)) = false.
Proof. eexists. split; [vm_compute; reflexivity|]. by vm_compute. Qed.

Example enabled_boot_is_migrated :
  (λ m, existsb (λ x : event * entries_map, match x.1 with Migrated names => bool_decide ("ui" ∈ names) | _ => false end) (log (coord m)))
    <$> demo booted = Some true.
Proof. vm_compute. reflexivity. Qed.

(** ** The theorems at work *)
Definition demo_machine (calls : list call) : machine (σ := nat) := default (new_machine 0%nat) (demo calls).

Lemma demo_machine_reachable calls : demo_reachable (demo_machine calls).
Proof. unfold demo_machine. destruct (demo calls) as [m|] eqn:Hd; simpl; [by eapply demo_is_reachable|apply reachable_new]. Qed.

Lemma demo_ui : ∃ e, JsMap.get "ui" (entries (coord (demo_machine booted))) = Some e ∧ state e = Active ∧
  service e = Some 4%nat ∧ "core" ∈ required_dependencies (pkg e).
Proof. eexists. split; [vm_compute; reflexivity|]. split_and!; [reflexivity|reflexivity|]. vm_compute. left. Qed.

Lemma required_dependencies_active_witness : ∃ e, JsMap.get "ui" (entries (coord (demo_machine booted))) = Some e ∧
  state e = Active ∧ is_active (entries (coord (demo_machine booted))) "core" = true.
Proof.
  destruct demo_ui as (e & He & Ha & _ & Hd). exists e. split; [exact He|]. split; [exact Ha|].
  exact (proj1 (required_dependencies_active demo_host any_version demo_options 0%nat (demo_machine booted)
    (demo_machine_reachable booted)) "ui" e "core" He Ha Hd).
Defined.

Lemma resources_given_back_witness : ∃ e, service e = Some 4%nat ∧
  created "ui" (log (coord (demo_machine booted))) = destroyed "ui" (log (coord (demo_machine booted))) ++ option_list (service e).
Proof.
  destruct demo_ui as (e & He & _ & Hs & _). exists e. split; [exact Hs|].
  exact (proj1 (resources_given_back demo_host any_version demo_options 0%nat (demo_machine booted)
    (demo_machine_reachable booted) "ui" e He)).
Defined.

Lemma transitions_are_history_witness : ∃ e, state e = Active ∧
  path Discovered (transitions_of "ui" (log (coord (demo_machine booted)))) = Some (state e).
Proof.
  destruct demo_ui as (e & He & Ha & _). exists e. split; [exact Ha|].
  exact (proj1 (transitions_are_history demo_host any_version demo_options 0%nat (demo_machine booted)
    (demo_machine_reachable booted) "ui" e He)).
Defined.

(** The boot is about to run. *)
Definition waiting : list call := [CallLoad demo_packages; CallStartAll].

Lemma boot_reports_every_entry_witness : lane (demo_machine waiting) = [OpStart] ∧
  let '(r, s') := startAllInLifecycleLane demo_host (coord (demo_machine waiting)) in complete (progress s') = true.
Proof.
  assert (lane (demo_machine waiting) = [OpStart]) as Hl by (vm_compute; reflexivity). split; [exact Hl|].
  pose proof (boot_reports_every_entry demo_host any_version demo_options 0%nat (demo_machine waiting) []
    (demo_machine_reachable waiting) Hl) as H.
  destruct (startAllInLifecycleLane demo_host (coord (demo_machine waiting))) as [r s']. exact (proj1 H).
Defined.

Lemma transition_answers_witness : (applyExtensionTransition demo_host "ui" false (coord (demo_machine booted))).1 = Ok true.
Proof.
  pose proof (transition_answers demo_host any_version demo_options 0%nat (demo_machine booted)
    (demo_machine_reachable booted) "ui" false) as H.
  assert (stands (entries (applyExtensionTransition demo_host "ui" false (coord (demo_machine booted))).2) "ui" false = true) as Hs
    by (vm_compute; reflexivity).
  destruct (applyExtensionTransition demo_host "ui" false (coord (demo_machine booted))) as [r s']. cbn [fst snd] in *.
  rewrite <- Hs. exact (proj1 H).
Defined.

(** Shutdown is requested while a transition waits. *)
Definition closing : list call := booted ++ [CallTransition "ui" false; CallShutdown].

Lemma demo_closed : shutdownRequested (demo_machine closing) = true ∧
  ∃ e, JsMap.get "core" (entries (drained demo_host (demo_machine closing))) = Some e ∧ state e = Stopped.
Proof. split; [vm_compute; reflexivity|]. eexists. split; [vm_compute; reflexivity|reflexivity]. Qed.

Lemma shutdown_releases_everything_witness : ∃ e, state e = Stopped ∧ service e = None ∧ storageCleanup e = None.
Proof.
  destruct demo_closed as (Hs & e & He & Hst). exists e. split; [exact Hst|].
  destruct (shutdown_releases_everything demo_host any_version demo_options 0%nat (demo_machine closing)
    (demo_machine_reachable closing) Hs "core" e He) as (_ & Hsv & Hsc & _). split; [exact Hsv|exact Hsc].
Defined.
